(* ===== verification/_CoqProject ===== *)
-Q . S2P
Prelude.v
Timing.v
Thresholds.v
Dispute.v
Proposal.v
Engine.v
EngineInv.v
EngineRounds.v
EngineProps.v
EngineClaims.v
LedgerTrie.v
LedgerSupport.v
LedgerTrieInv.v
LedgerTrieOps.v
LedgerTriePreferred.v
LedgerDemo.v
LedgerWindow.v
RCLLedger.v
LedgerTrieClaims.v
Validations.v
ValidationsInv.v
ValidationsClaims.v
Outcome.v
Bytes.v
ReduceRelay.v
ReduceRelayInv.v
ReduceRelayClaims.v
IOUAmount.v
IOUAmountSpec.v
NegativeUNL.v
NegativeUNLSpec.v
Serializer.v
SerializerSpec.v
Base58.v
Base58Spec.v
SHAMapNode.v
SHAMap.v
SHAMapTree.v
SHAMapLoc.v
SHAMapOps.v
SHAMapMutate.v
SHAMapDelete.v
SHAMapFlush.v
SHAMapIter.v
SHAMapCanon.v
SHAMapWorld.v
SHAMapRefine.v
SHAMapWire.v
SHAMapHash.v
SHAMapProof.v
SHAMapDelta.v
SHAMapCompare.v
SHAMapClaims.v
LedgerEntry.v
StateTable.v
StateTableSpec.v
ViewSpec.v
ViewIter.v
ViewTop.v
ViewRefine.v
Directory.v
DirRing.v
DirAdd.v
DirRemove.v
DirSpec.v
DirIter.v
DirRefine.v
LedgerClaims.v
SkipList.v
SkipListClaims.v
Censorship.v
HashRouter.v
Amendments.v
AmendmentsClaims.v
NegativeUNLLedger.v
Fees.v
STAmount.v
STAmountSpec.v
STAmountWire.v
STAmountRate.v
