(* ===== verification/Prelude.v ===== *)
(** * A verification of the consensus and ledger core of sntrippled

    sntrippled is a modified rippled, the server of the XRP Ledger.  Its servers
    agree on a sequence of ledgers: each server collects transactions in an open
    ledger, closes it, exchanges proposals with trusted peers until enough of
    them have the same set of transactions, builds the next ledger, and
    validates it; validations decide which ledger is preferred.  A ledger is a
    radix tree of entries identified by its root hash; transactions change it
    through stacks of buffered views.  Beside this run votes that change the
    network's parameters (fees, amendments, the negative UNL) and the machinery
    that limits the relaying of messages.  Paths below are relative to
    src/src/ripple/.

    ** How code becomes definitions

    Pure functions are functions; integers are [Z] with the wrap-around of
    their width written out ([u32], [i64], ...).  Code that asserts and mutates
    uses the monad of this file ([M], with a record of the state and a list of
    outward calls); code that throws uses [exc] and [ST] of [Outcome], in which
    an exception, a failed assertion or undefined behaviour ([Abort]) and an
    exhausted bound ([NoFuel]) are different outcomes.  A hash table is a finite
    map; the order in which it is visited is a parameter ([HashOrder]), so that
    theorems hold for every order.  Pointers that alias are modelled as a heap
    (SHAMap, views).  What is not under src/ (clocks, random draws, digests,
    signatures) is a parameter, with laws as named hypotheses.  The clock readings
    of one call are taken to be equal.

    ** Consensus (consensus/)

    - [Timing] (LedgerTiming.h), [Thresholds] (Consensus.cpp, ConsensusParms.h),
      [Dispute] (DisputedTx.h), [Proposal] (ConsensusProposal.h,
      ConsensusTypes.h): the parts of a round.
    - [Engine] (Consensus.h): the record [Consensus] has the members of
      Consensus<Adaptor>, and every member function that changes it is a
      definition against the class [Traits] of the template's types and the
      record [Env] of the adaptor's answers.  [EngineInv], [EngineRounds] and
      [EngineProps] prove the invariant; [EngineClaims] shows that every call
      returns without violating an assertion, that disputes are complete and
      accurate in every reachable state, that a round ends only with the
      agreement it announces, when exactly a server declares a consensus, and
      that two servers declare it on different positions only if many of the
      nodes that both count have a different position for each.
    - [LedgerTrie] (LedgerTrie.h): the trie of ledger ancestry, a [Node*] being a
      path.  [LedgerSupport] specifies it on multisets of ledgers,
      [LedgerTrieInv], [LedgerTrieOps] and [LedgerTriePreferred] prove, for
      ledgers with complete histories ([LedgerLaws]), the refinement, that
      [getPreferred] is the walk its comment describes, and that
      [checkInvariants] holds; [LedgerDemo] is a concrete history.
      [LedgerWindow] carries the refinement over to ledgers that know their
      history only from a common ancestor on ([WindowLaws]), by a simulation.
    - [RCLLedger] (app/consensus/RCLValidations.cpp): the ledger type given to the
      trie, which knows 256 ancestors.  It satisfies [WindowLaws] as long as
      the ledgers share an ancestor they all know, and not [LedgerLaws].
    - [LedgerTrieClaims] has the theorems: the trie is the multiset of the
      supported ledgers within such a window; beyond it a descendant is not
      counted for its ancestor.  It discharges the interface [SupportTrie] that
      [Validations] is written against, for complete histories.
    - [Validations], [ValidationsInv], [ValidationsClaims] (Validations.h): the
      trie counts exactly the last ledgers of the trusted nodes after any
      sequence of calls, and what the sweep of stale validations removes.
    - [Censorship] (app/consensus/RCLCensorshipDetector.h, basics/algorithm.h):
      warnings are exactly for transactions proposed and left out.

    ** The network (overlay/, app/misc/HashRouter.cpp)

    - [ReduceRelay], [ReduceRelayInv], [ReduceRelayClaims] (Slot.h, Squelch.h, and
      of OverlayImpl.cpp and PeerImp.cpp the sending and handling of squelch
      messages and [PeerImp::send]): a validator has five selected relays or
      none, and the slots ask for the silence they note; but the messages this
      version of the overlay sends name an empty key, so that no peer obeys.
    - [HashRouter] (HashRouter.h, HashRouter.cpp): when a message is relayed
      again, and to whom it is not sent.

    ** Bytes (protocol/, basics/)

    - [Bytes], [Serializer], [SerializerSpec] (Serializer.cpp): streams of fields
      round-trip; reads stay in the buffer for every input.
    - [Base58], [Base58Spec] (tokens.cpp): tokens round-trip.
    - [IOUAmount], [IOUAmountSpec] (IOUAmount.cpp): normal forms, order, error
      bounds of sums and ratios.
    - [STAmount] (STAmount.cpp, Quality.cpp, Rate2.cpp): [STAmountSpec] shows that issued amounts compute
      as [IOUAmount]s, [STAmountWire] that the wire form is a bijection,
      [STAmountRate] that offers sort by their exact rate up to a bound, how far
      directed rounding is off, and that offers are scaled at their rate.

    ** Ledgers (shamap/, ledger/, app/ledger/)

    - [SHAMapNode], [SHAMap]: nodes and maps on an explicit heap of shared nodes.
      [SHAMapTree] is the abstract tree, [SHAMapLoc] relates it to the heap,
      [SHAMapOps], [SHAMapMutate], [SHAMapDelete], [SHAMapFlush] and [SHAMapIter]
      specify the operations, [SHAMapCanon] and [SHAMapHash] relate the root hash
      to the contents, [SHAMapWire] the serialised nodes, [SHAMapProof] the proof
      paths, [SHAMapDelta] and [SHAMapCompare] the comparison of maps;
      [SHAMapWorld] and [SHAMapRefine] prove that programs with any number of
      maps refine finite maps; [SHAMapClaims] has the theorems.
    - [LedgerEntry], [StateTable] (RawStateTable.cpp, ApplyStateTable.cpp,
      OpenView.cpp, ApplyViewBase.cpp): buffered views over a ledger.
      [StateTableSpec], [ViewSpec], [ViewIter], [ViewTop] and [ViewRefine] prove
      that stacks of views refine stacks of finite maps.
    - [Directory] (ApplyView.cpp, View.cpp): directories of pages, proved against
      the laws of [ApplyView] in [DirRing], [DirAdd], [DirRemove], [DirSpec],
      [DirIter] and [DirRefine].  [LedgerClaims] has the theorems on views and
      directories.
    - [SkipList], [SkipListClaims] (Ledger.cpp, View.cpp): hashes of past ledgers.

    ** Votes of the validators (app/misc/, app/tx/impl/Change.cpp)

    - [NegativeUNL], [NegativeUNLSpec] (NegativeUNLVote.cpp): votes are justified;
      [NegativeUNLLedger] (Ledger.cpp, BuildLedger.cpp, Change.cpp): along any
      chain at most a quarter of the UNL is disabled.
    - [Amendments], [AmendmentsClaims] (AmendmentTable.cpp, Change.cpp): on chains
      of ledgers that record the ballots their transactions come from, an
      amendment is enabled only after a lasting majority, and a majority that is
      kept enables it.
    - [Fees] (FeeVoteImpl.cpp, LoadFeeTrack.cpp, FeeUnits.h): fee votes find the
      plurality; load fees are scaled exactly.

    ** Bounds of loops

    Loops that are not structural have a bound, and the theorems say that it is
    never exhausted: two nested rounds in [startRound] and [timerEntry]; the
    height of the trie in [getPreferred] and its number of nodes in
    [checkInvariants]; the number of candidates in [selectPeers]; sixteen and four
    digits in [normalize] and [canonicalize], fifteen in [bring_up], the
    difference of the exponents in sums; 65 levels of a SHAMap, seventeen steps
    for each node of memory in [unshare], one for each in [for_each], two in
    [compare]; one step for each entry in the iterators of views; the number of
    pages in the loops over a directory.

    ** Not modelled

    - Sockets, TLS, HTTP, RPC, the gRPC bridge to the gossip network, databases,
      job queues, configuration and start-up: input and output, or glue.
    - Signatures, key derivation and digests: opaque, the digest a parameter.
    - Acquiring ledgers and maps node by node, and flushing them to a store; the
      maps modelled are wholly in memory.
    - Transactions of accounts, payment paths, the transaction queue and the
      open-ledger fee: they depend on the templates of serialised objects and on
      the balance functions of View.cpp, which are not modelled either.  Of
      Change.cpp the effect on the entry is modelled, without metadata.
    - Printing, JSON and texts of all objects; logging.
    - Validator lists, manifests, the peer finder, the resource manager and
      crypto-conditions. *)

From stdpp Require Export prelude gmap sorting list strings.

#[global] Open Scope Z_scope.

(** ** Machine integers

    A [w]-bit C++ integer is a [Z]; the functions below are the conversions
    the language performs on assignment. *)

Definition u32 (x : Z) : Z := x mod 2 ^ 32.
Definition u64 (x : Z) : Z := x mod 2 ^ 64.
Definition i32 (x : Z) : Z := (x + 2 ^ 31) mod 2 ^ 32 - 2 ^ 31.

Lemma u32_id x : 0 ≤ x < 2 ^ 32 → u32 x = x.
Proof. apply Z.mod_small. Qed.

Lemma u64_id x : 0 ≤ x < 2 ^ 64 → u64 x = x.
Proof. apply Z.mod_small. Qed.

Lemma i32_id x : - 2 ^ 31 ≤ x < 2 ^ 31 → i32 x = x.
Proof. intros. unfold i32. rewrite Z.mod_small; lia. Qed.

Lemma u32_range x : 0 ≤ u32 x < 2 ^ 32.
Proof. apply Z.mod_pos_bound. lia. Qed.

Lemma u64_range x : 0 ≤ u64 x < 2 ^ 64.
Proof. apply Z.mod_pos_bound. lia. Qed.

(** ** Results of code that can fail

    [AssertFail] is a violated [assert] (or the dereference of an empty
    optional); [OutOfFuel] marks a bounded recursion that was cut off. *)

Inductive res (A : Type) : Type :=
  | Ok (a : A)
  | AssertFail (what : string)
  | OutOfFuel.
Arguments Ok {A} a.
Arguments AssertFail {A} what.
Arguments OutOfFuel {A}.

#[export] Instance res_ret : MRet res := λ A a, Ok a.

#[export] Instance res_bind : MBind res := λ A B k m,
  match m with
  | Ok a => k a
  | AssertFail e => AssertFail e
  | OutOfFuel => OutOfFuel
  end.

Definition is_ok {A} (r : res A) : bool := match r with Ok _ => true | _ => false end.

(** A result and a test on it, decided by evaluation. *)
Lemma ok_test {A} (r : res A) (test : A → bool) :
  match r with Ok a => test a | _ => false end = true → ∃ a, r = Ok a ∧ test a = true.
Proof. destruct r; [eauto|done..]. Qed.

Definition rassert (b : bool) (what : string) : res unit :=
  if b then Ok tt else AssertFail what.
Definition runwrap {A} (o : option A) (what : string) : res A :=
  match o with Some a => Ok a | None => AssertFail what end.

(** Stateful code: a state [S], the calls [W] it makes to its environment in
    the order it makes them, and a failure. *)
Definition M (S W A : Type) : Type := S → res (A * S * list W).

#[export] Instance M_ret {S W} : MRet (M S W) := λ A a s, Ok (a, s, []).

#[export] Instance M_bind {S W} : MBind (M S W) := λ A B k m s,
  match m s with
  | Ok (a, s1, w1) =>
      match k a s1 with
      | Ok (b, s2, w2) => Ok (b, s2, w1 ++ w2)
      | AssertFail e => AssertFail e
      | OutOfFuel => OutOfFuel
      end
  | AssertFail e => AssertFail e
  | OutOfFuel => OutOfFuel
  end.

(** Code without state of its own, called from stateful code. *)
Definition lift {S W A} (r : res A) : M S W A := λ s,
  match r with
  | Ok a => Ok (a, s, [])
  | AssertFail e => AssertFail e
  | OutOfFuel => OutOfFuel
  end.

Definition get {S W} : M S W S := λ s, Ok (s, s, []).
Definition gets {S W A} (f : S → A) : M S W A := λ s, Ok (f s, s, []).
Definition modify {S W} (f : S → S) : M S W unit := λ s, Ok (tt, f s, []).
Definition emit {S W} (e : W) : M S W unit := λ s, Ok (tt, s, [e]).
Definition massert {S W} (b : bool) (what : string) : M S W unit := λ s,
  if b then Ok (tt, s, []) else AssertFail what.
Definition unwrap {S W A} (o : option A) (what : string) : M S W A := λ s,
  match o with Some a => Ok (a, s, []) | None => AssertFail what end.
Definition when {S W} (b : bool) (m : M S W unit) : M S W unit :=
  if b then m else mret tt.

Fixpoint for_each {S W A} (l : list A) (f : A → M S W unit) : M S W unit :=
  match l with
  | [] => mret tt
  | a :: l => _ ← f a; for_each l f
  end.

(** ** Weakest preconditions

    [wp tot m Q s]: run from [s], [m] violates no assertion, and if it
    returns, [Q] holds of its result, final state and calls; with [tot] set
    it must also return. *)
Definition wp {S W A} (tot : bool) (m : M S W A) (Q : A → S → list W → Prop)
    (s : S) : Prop :=
  match m s with
  | Ok (a, s', w) => Q a s' w
  | AssertFail _ => False
  | OutOfFuel => tot = false
  end.

Section wp_rules.
Context {S W : Type}.
Implicit Types s : S.
Implicit Types w : list W.

Lemma wp_ret {A} tot (a : A) (Q : A → S → list W → Prop) s :
  Q a s [] → wp tot (mret a) Q s.
Proof. done. Qed.

Lemma wp_bind {A B} tot (m : M S W A) (k : A → M S W B) Q s :
  wp tot m (λ a s1 w1, wp tot (k a) (λ b s2 w2, Q b s2 (w1 ++ w2)) s1) s →
  wp tot (m ≫= k) Q s.
Proof.
  unfold wp, mbind, M_bind. destruct (m s) as [[[a s1] w1]| |]; [|done..].
  by destruct (k a s1) as [[[b s2] w2]| |].
Qed.

Lemma wp_mono {A} tot (m : M S W A) (Q Q' : A → S → list W → Prop) s :
  wp tot m Q s → (∀ a s' w, Q a s' w → Q' a s' w) → wp tot m Q' s.
Proof. unfold wp. destruct (m s) as [[[a s1] w1]| |]; naive_solver. Qed.

Lemma wp_and {A} tot (m : M S W A) (Q Q' : A → S → list W → Prop) s :
  wp tot m Q s → wp tot m Q' s → wp tot m (λ a s' w, Q a s' w ∧ Q' a s' w) s.
Proof. unfold wp. destruct (m s) as [[[a s1] w1]| |]; naive_solver. Qed.

Lemma wp_get tot (Q : S → S → list W → Prop) s :
  Q s s [] → wp tot get Q s.
Proof. done. Qed.

Lemma wp_gets {A} tot (f : S → A) (Q : A → S → list W → Prop) s :
  Q (f s) s [] → wp tot (gets f) Q s.
Proof. done. Qed.

Lemma wp_modify tot f (Q : unit → S → list W → Prop) s :
  Q tt (f s) [] → wp tot (modify f) Q s.
Proof. done. Qed.

Lemma wp_emit tot (e : W) (Q : unit → S → list W → Prop) s :
  Q tt s [e] → wp tot (emit e) Q s.
Proof. done. Qed.

Lemma wp_massert tot b what (Q : unit → S → list W → Prop) s :
  b = true → Q tt s [] → wp tot (massert b what) Q s.
Proof. by intros ->. Qed.

Lemma wp_unwrap {A} tot (o : option A) what a (Q : A → S → list W → Prop) s :
  o = Some a → Q a s [] → wp tot (unwrap o what) Q s.
Proof. by intros ->. Qed.

Lemma wp_lift {A} tot (r : res A) a (Q : A → S → list W → Prop) s :
  r = Ok a → Q a s [] → wp tot (lift r) Q s.
Proof. by intros ->. Qed.

Lemma wp_when tot b (m : M S W unit) (Q : unit → S → list W → Prop) s :
  (b = true → wp tot m Q s) → (b = false → Q tt s []) → wp tot (when b m) Q s.
Proof. destruct b; simpl; [auto|]. intros _ H. by apply wp_ret, H. Qed.

(** A loop whose body keeps [I]; the calls accumulate in order. *)
Lemma wp_for_each {A} tot (I : list A → S → list W → Prop) (l : list A)
    (f : A → M S W unit) (Q : unit → S → list W → Prop) s w0 :
  I l s w0 →
  (∀ a l' s' w, a ∈ l → I (a :: l') s' w →
     wp tot (f a) (λ _ s2 w2, I l' s2 (w ++ w2)) s') →
  (∀ s' w, I [] s' (w0 ++ w) → Q tt s' w) →
  wp tot (for_each l f) Q s.
Proof.
  revert s w0 Q. induction l as [|a l IH]; intros s w0 Q Hinit Hstep Hend.
  { apply wp_ret, Hend. by rewrite app_nil_r. }
  cbn [for_each]. apply wp_bind.
  eapply wp_mono; [by apply Hstep; [left|]|].
  intros ? s' w Hs'. eapply (IH _ (w0 ++ w)); [exact Hs'| |].
  - intros a' l' s2 w2 Hin. apply Hstep. by right.
  - intros s2 w2 HI. apply Hend. by rewrite app_assoc.
Qed.

(** The common case: an invariant of the state alone. *)
Lemma wp_for_each_inv {A} tot (I : S → Prop) (l : list A)
    (f : A → M S W unit) (Q : unit → S → list W → Prop) s :
  I s →
  (∀ a s', a ∈ l → I s' → wp tot (f a) (λ _ s2 _, I s2) s') →
  (∀ s' w, I s' → Q tt s' w) →
  wp tot (for_each l f) Q s.
Proof.
  intros Hinit Hstep Hend.
  by apply (wp_for_each tot (λ _ s' _, I s') l f Q s []); auto.
Qed.
End wp_rules.

(** ** Iteration over the standard containers

    A [hash_map] is a [gmap]; the order in which C++ iterates over it is not
    specified, so it is an argument of the model: any enumeration of the
    entries. *)
Class HashOrder (K : Type) `{Countable K} : Type := {
  hash_elems : ∀ {V : Type}, gmap K V → list (K * V);
  hash_elems_perm : ∀ {V : Type} (m : gmap K V),
    hash_elems m ≡ₚ map_to_list m;
}.

(** One such order, used to run the model on concrete inputs. *)
Definition default_order (K : Type) `{Countable K} : HashOrder K :=
  {| hash_elems V m := map_to_list m;
     hash_elems_perm V m := Permutation_refl (map_to_list m) |}.

Section hash_order.
Context {K : Type} `{HashOrder K} {V : Type}.
Implicit Types m : gmap K V.

Lemma elem_of_hash_elems m k v : (k, v) ∈ hash_elems m ↔ m !! k = Some v.
Proof. rewrite hash_elems_perm. apply elem_of_map_to_list. Qed.

Lemma NoDup_hash_elems m : NoDup (hash_elems m).*1.
Proof.
  rewrite (fmap_Permutation fst _ _ (hash_elems_perm m)).
  apply NoDup_fst_map_to_list.
Qed.

Lemma length_hash_elems m : length (hash_elems m) = size m.
Proof. by rewrite hash_elems_perm, length_map_to_list. Qed.
End hash_order.

(** A [hash_set] is a [gset], iterated like the keys of a [hash_map]. *)
Definition hash_set_elems {K} `{HashOrder K} (X : gset K) : list K :=
  (hash_elems (gset_to_gmap tt X)).*1.

Lemma elem_of_hash_set_elems {K} `{HashOrder K} (X : gset K) x : x ∈ hash_set_elems X ↔ x ∈ X.
Proof.
  unfold hash_set_elems. rewrite list_elem_of_fmap. split.
  - intros ([y []] & -> & Hy). apply elem_of_hash_elems, lookup_gset_to_gmap_Some in Hy. by destruct Hy.
  - intros Hx. exists (x, tt). split; [done|]. by apply elem_of_hash_elems, lookup_gset_to_gmap_Some.
Qed.

Lemma length_hash_set_elems {K} `{HashOrder K} (X : gset K) :
  length (hash_set_elems X) = size X.
Proof.
  unfold hash_set_elems. by rewrite length_fmap, length_hash_elems, <- size_dom, dom_gset_to_gmap.
Qed.

(** [std::max_element]: the first element no other exceeds. *)
Definition max_element {A} (lt : A → A → bool) (l : list A) : option A :=
  match l with
  | [] => None
  | x :: l => Some (foldl (λ best y, if lt best y then y else best) x l)
  end.

(** A [std::map] with integer keys is iterated in increasing key order. *)
Definition key_le {V} (a b : Z * V) : Prop := a.1 ≤ b.1.
#[export] Instance key_le_dec {V} : RelDecision (@key_le V) :=
  λ a b, Z.le_dec a.1 b.1.
#[export] Instance key_le_total {V} : Total (@key_le V).
Proof. intros a b. unfold key_le. lia. Qed.
#[export] Instance key_le_trans {V} : Transitive (@key_le V).
Proof. intros a b c. unfold key_le. lia. Qed.

Definition map_sorted {V} (m : gmap Z V) : list (Z * V) :=
  merge_sort key_le (map_to_list m).

Lemma map_sorted_perm {V} (m : gmap Z V) : map_sorted m ≡ₚ map_to_list m.
Proof. apply merge_sort_Permutation. Qed.

Lemma elem_of_map_sorted {V} (m : gmap Z V) k v :
  (k, v) ∈ map_sorted m ↔ m !! k = Some v.
Proof. rewrite map_sorted_perm. apply elem_of_map_to_list. Qed.

Lemma map_sorted_sorted {V} (m : gmap Z V) : StronglySorted key_le (map_sorted m).
Proof. apply (StronglySorted_merge_sort _). Qed.

Lemma NoDup_map_sorted {V} (m : gmap Z V) : NoDup (map_sorted m).*1.
Proof.
  rewrite (fmap_Permutation fst _ _ (map_sorted_perm m)).
  apply NoDup_fst_map_to_list.
Qed.

(** ** Sums *)
Definition sumZ (l : list Z) : Z := foldr Z.add 0 l.

Lemma sumZ_cons x l : sumZ (x :: l) = x + sumZ l.
Proof. done. Qed.

Lemma sumZ_app l k : sumZ (l ++ k) = sumZ l + sumZ k.
Proof. induction l as [|x l IH]; simpl; [done|]. rewrite IH. lia. Qed.

#[export] Instance sumZ_perm : Proper ((≡ₚ) ==> (=)) sumZ.
Proof. induction 1; simpl in *; lia. Qed.

Lemma sumZ_nonneg l : Forall (λ x, 0 ≤ x) l → 0 ≤ sumZ l.
Proof. induction 1; simpl; lia. Qed.

Lemma sumZ_elem_le l x : Forall (λ y, 0 ≤ y) l → x ∈ l → x ≤ sumZ l.
Proof.
  induction 1 as [|y l Hy Hl IH]; [set_solver|].
  pose proof (sumZ_nonneg l Hl). intros [->|Hx]%elem_of_cons; simpl; [lia|].
  specialize (IH Hx). lia.
Qed.

Lemma sumZ_zero {A} (f : A → Z) l : (∀ x, x ∈ l → f x = 0) → sumZ (f <$> l) = 0.
Proof.
  induction l as [|x l IH]; intros Hf; [done|].
  rewrite fmap_cons, sumZ_cons, Hf, IH; [done| |by left]. intros y Hy. apply Hf. by right.
Qed.

Lemma sumZ_ext {A} (f g : A → Z) l :
  (∀ x, x ∈ l → f x = g x) → sumZ (f <$> l) = sumZ (g <$> l).
Proof.
  induction l as [|x l IH]; intros Hf; [done|].
  rewrite !fmap_cons, !sumZ_cons, Hf, IH; [done| |by left]. intros y Hy. apply Hf. by right.
Qed.

Lemma sumZ_insert {A} (f : A → Z) l i x y :
  l !! i = Some x → sumZ (f <$> <[i := y]> l) = sumZ (f <$> l) - f x + f y.
Proof.
  revert i. induction l as [|z l IH]; intros [|i]; try done.
  - intros [= ->]. change (<[O:=y]> (x :: l)) with (y :: l). rewrite !fmap_cons, !sumZ_cons. lia.
  - intros Hi. simpl in Hi. change (<[S i:=y]> (z :: l)) with (z :: <[i:=y]> l).
    rewrite !fmap_cons, !sumZ_cons, (IH i) by done. lia.
Qed.

(** Only one element counts. *)
Lemma sumZ_single {A} (f : A → Z) l i x :
  l !! i = Some x → (∀ j y, l !! j = Some y → j ≠ i → f y = 0) → sumZ (f <$> l) = f x.
Proof.
  revert i. induction l as [|z l IH]; intros [|i]; try done.
  - intros [= ->] Hz. rewrite fmap_cons, sumZ_cons, sumZ_zero; [lia|].
    intros y [j Hj]%list_elem_of_lookup_1. by apply (Hz (S j)).
  - intros Hi Hz. rewrite fmap_cons, sumZ_cons, (IH i); [|done|].
    + rewrite (Hz O z); [lia|done|done].
    + intros j y Hj Hne. apply (Hz (S j)); [done|lia].
Qed.

(** ** Lists sorted by a key *)

Section sorted.
Context {A : Type} (key : A → Z).
Notation lt := (λ a b, key a < key b).
Notation le := (λ a b, key a ≤ key b).

Lemma sorted_head x l y : StronglySorted lt (x :: l) → y ∈ l → key x < key y.
Proof. intros [Hx _]%StronglySorted_cons Hy. rewrite Forall_forall in Hx. by apply Hx. Qed.

Lemma sorted_tail x l : StronglySorted lt (x :: l) → StronglySorted lt l.
Proof. by intros [_ ?]%StronglySorted_cons. Qed.

Lemma sorted_filter (P : A → Prop) `{∀ x, Decision (P x)} l : StronglySorted lt l → StronglySorted lt (filter P l).
Proof.
  induction l as [|a l IH]; [done|]. rewrite StronglySorted_cons, filter_cons. intros [Ha Hs].
  destruct (decide (P a)); [|by apply IH]. apply StronglySorted_cons. split; [|by apply IH].
  rewrite Forall_forall in *. intros x [_ Hx]%list_elem_of_filter. by apply Ha.
Qed.

(** A sorted list without duplicate keys is strictly sorted. *)
Lemma le_sorted_lt l : StronglySorted le l → NoDup (key <$> l) → StronglySorted lt l.
Proof.
  induction l as [|a l IH]; [constructor|]. rewrite fmap_cons, NoDup_cons, !StronglySorted_cons.
  intros [Ha Hs] [Hn Hd]. split; [|by apply IH]. rewrite Forall_forall in *. intros x Hx. specialize (Ha x Hx).
  assert (key x ≠ key a) by (intros He; apply Hn; rewrite <- He; by apply list_elem_of_fmap_2). cbv beta in *. lia.
Qed.

(** Sorted lists with the same elements are the same. *)
Lemma sorted_unique l1 l2 :
  StronglySorted lt l1 → StronglySorted lt l2 → (∀ x, x ∈ l1 ↔ x ∈ l2) → l1 = l2.
Proof.
  revert l2. induction l1 as [|a l1 IH]; intros l2 H1 H2 Heq.
  { destruct l2 as [|b l2]; [done|]. exfalso. eapply elem_of_nil, (proj2 (Heq b)). by left. }
  destruct l2 as [|b l2]; [exfalso; eapply elem_of_nil, (proj1 (Heq a)); by left|].
  assert (a = b) as <-.
  { assert (Hab : a ∈ b :: l2) by (apply Heq; by left). assert (Hba : b ∈ a :: l1) by (apply Heq; by left).
    apply elem_of_cons in Hab as [|Hab]; [done|]. apply elem_of_cons in Hba as [|Hba]; [done|].
    pose proof (sorted_head _ _ _ H1 Hba). pose proof (sorted_head _ _ _ H2 Hab). lia. }
  f_equal. apply IH; [by eapply sorted_tail..|]. intros x. specialize (Heq x). rewrite !elem_of_cons in Heq.
  split; intros Hx.
  - destruct (proj1 Heq (or_intror Hx)) as [->|]; [|done]. pose proof (sorted_head _ _ _ H1 Hx). lia.
  - destruct (proj2 Heq (or_intror Hx)) as [->|]; [|done]. pose proof (sorted_head _ _ _ H2 Hx). lia.
Qed.
End sorted.

(** ** Booleans and decisions in code

    [case_bools] splits on every boolean test of a goal and turns the tests
    into hypotheses [lia] and [congruence] can use. *)
Ltac case_bools :=
  repeat match goal with
  | |- context [if ?b then _ else _] =>
      lazymatch type of b with
      | bool => let E := fresh "E" in destruct b eqn:E
      | sumbool _ _ => destruct b
      end
  end.

Ltac reflect_bools :=
  rewrite ?andb_true_iff, ?orb_true_iff, ?negb_true_iff,
    ?andb_false_iff, ?orb_false_iff, ?negb_false_iff,
    ?Z.leb_le, ?Z.ltb_lt, ?Z.eqb_eq, ?Z.leb_gt, ?Z.ltb_ge, ?Z.eqb_neq in *.

(** [wp_step] executes one statement of a monadic program; [wp_steps]
    executes all straight-line statements up to the next branch or call. *)
Ltac wp_step :=
  lazymatch goal with
  | |- wp _ (mbind _ _) _ _ => apply wp_bind
  | |- wp _ get _ _ => apply wp_get
  | |- wp _ (gets _) _ _ => apply wp_gets
  | |- wp _ (modify _) _ _ => apply wp_modify
  | |- wp _ (emit _) _ _ => apply wp_emit
  | |- wp _ (mret _) _ _ => apply wp_ret
  end; cbv beta.
Ltac wp_steps := repeat wp_step.
