(* ===== verification/Timing.v ===== *)
(** * Close time arithmetic

    Models [src/ripple/consensus/LedgerTiming.h]: the bins of the close time
    resolution, rounding of a close time to its bin, and the effective close
    time.  Network time ([NetClock]) is a 32-bit count of seconds; durations
    are seconds. *)
From S2P Require Import Prelude.

Definition ledgerPossibleTimeResolutions : list Z := [10; 20; 30; 60; 90; 120].

Definition ledgerDefaultTimeResolution : Z := 30.
Definition ledgerGenesisTimeResolution : Z := 10.
Definition increaseLedgerTimeResolutionEvery : Z := 8.
Definition decreaseLedgerTimeResolutionEvery : Z := 1.

(** [std::find] over the bins: the index of the bin, or none at the end. *)
Definition find_resolution (r : Z) : option nat :=
  fst <$> list_find (r =.) ledgerPossibleTimeResolutions.

(** The two assertions of [getNextLedgerTimeResolution]. *)
Definition getNextLedgerTimeResolution_asserts
    (previousResolution ledgerSeq : Z) : bool :=
  negb (ledgerSeq =? 0)
  && match find_resolution previousResolution with Some _ => true | None => false end.

Definition getNextLedgerTimeResolution
    (previousResolution : Z) (previousAgree : bool) (ledgerSeq : Z) : Z :=
  match find_resolution previousResolution with
  | None => previousResolution
  | Some iter =>
      let coarser :=
        if negb previousAgree && (ledgerSeq mod decreaseLedgerTimeResolutionEvery =? 0)
        then ledgerPossibleTimeResolutions !! S iter else None in
      match coarser with
      | Some r => r
      | None =>
          if previousAgree && (ledgerSeq mod increaseLedgerTimeResolutionEvery =? 0)
          then match iter with
               | O => previousResolution
               | S i => default previousResolution (ledgerPossibleTimeResolutions !! i)
               end
          else previousResolution
      end
  end.

Definition roundCloseTime (closeTime closeResolution : Z) : Z :=
  if closeTime =? 0 then closeTime
  else let closeTime := u32 (closeTime + closeResolution / 2) in
       u32 (closeTime - closeTime mod closeResolution).

Definition effCloseTime (closeTime resolution priorCloseTime : Z) : Z :=
  if closeTime =? 0 then closeTime
  else Z.max (roundCloseTime closeTime resolution) (u32 (priorCloseTime + 1)).

(** ** Lemmas *)

Definition valid_resolution (r : Z) : Prop := r ∈ ledgerPossibleTimeResolutions.

Lemma valid_resolution_cases r :
  valid_resolution r ↔ r = 10 ∨ r = 20 ∨ r = 30 ∨ r = 60 ∨ r = 90 ∨ r = 120.
Proof.
  unfold valid_resolution, ledgerPossibleTimeResolutions.
  rewrite !elem_of_cons, elem_of_nil. tauto.
Qed.

Lemma valid_resolution_pos r : valid_resolution r → 0 < r.
Proof. rewrite valid_resolution_cases. lia. Qed.

Lemma getNext_asserts r s :
  valid_resolution r → s ≠ 0 → getNextLedgerTimeResolution_asserts r s = true.
Proof.
  rewrite valid_resolution_cases. intros Hr Hs.
  unfold getNextLedgerTimeResolution_asserts.
  rewrite (proj2 (Z.eqb_neq s 0)) by done. by destruct_or!; subst r.
Qed.

(** The next resolution by the outcome of the last round. *)
Lemma getNext_disagree r s :
  valid_resolution r →
  getNextLedgerTimeResolution r false s =
    (if r =? 10 then 20 else if r =? 20 then 30 else if r =? 30 then 60
     else if r =? 60 then 90 else 120).
Proof.
  rewrite valid_resolution_cases. intros Hr.
  unfold getNextLedgerTimeResolution, decreaseLedgerTimeResolutionEvery.
  rewrite Z.mod_1_r. by destruct_or!; subst r.
Qed.

Lemma getNext_agree r s :
  valid_resolution r →
  getNextLedgerTimeResolution r true s =
    (if s mod 8 =? 0 then
       if r =? 120 then 90 else if r =? 90 then 60 else if r =? 60 then 30
       else if r =? 30 then 20 else 10
     else r).
Proof.
  rewrite valid_resolution_cases. intros Hr.
  unfold getNextLedgerTimeResolution, increaseLedgerTimeResolutionEvery.
  by destruct_or!; subst r; cbn -[Z.modulo]; destruct (s mod 8 =? 0).
Qed.

Lemma getNext_valid r agree s :
  valid_resolution r → valid_resolution (getNextLedgerTimeResolution r agree s).
Proof.
  intros Hr. destruct agree; [rewrite getNext_agree by done|rewrite getNext_disagree by done].
  all: apply valid_resolution_cases in Hr; apply valid_resolution_cases; case_bools; lia.
Qed.

(** Rounding without wrap-around. *)
Lemma roundCloseTime_small ct r :
  0 < ct → 0 < r → ct + r / 2 < 2 ^ 32 →
  roundCloseTime ct r = r * ((ct + r / 2) / r).
Proof.
  intros Hct Hr Hs. unfold roundCloseTime.
  rewrite (proj2 (Z.eqb_neq ct 0)) by lia.
  pose proof (Z.div_pos r 2). pose proof (Z.mod_pos_bound (ct + r / 2) r Hr).
  pose proof (Z.div_mod (ct + r / 2) r).
  pose proof (Z.mod_le (ct + r / 2) r).
  rewrite !(u32_id (ct + _)) by lia. rewrite u32_id by lia. lia.
Qed.

Lemma roundCloseTime_0 r : roundCloseTime 0 r = 0.
Proof. done. Qed.

Lemma roundCloseTime_range ct r :
  0 ≤ ct < 2 ^ 32 → 0 ≤ roundCloseTime ct r < 2 ^ 32.
Proof. unfold roundCloseTime. case_bools; [lia|]. intros; apply u32_range. Qed.

(** ** Properties *)

(** the resolution of the next ledger is always one of the protocol's
    bins, equal or adjacent to the previous one: a round that disagreed on the
    close time never makes it finer (and makes it coarser unless it already is
    the coarsest), a round that agreed never makes it coarser, and changes it
    only when the ledger sequence is a multiple of eight. *)
Theorem next_resolution_adjacent (r s : Z) (agree : bool)
    (Hr : valid_resolution r) (Hs : s ≠ 0) :
  let r' := getNextLedgerTimeResolution r agree s in
  getNextLedgerTimeResolution_asserts r s = true ∧
  valid_resolution r' ∧
  (∀ b, valid_resolution b → ¬ (Z.min r r' < b < Z.max r r')) ∧
  (agree = false → r < r' ∨ r = 120 ∧ r' = 120) ∧
  (agree = true → r' ≤ r ∧ (s mod 8 ≠ 0 → r' = r)).
Proof.
  simpl. split; [by apply getNext_asserts|]. split; [by apply getNext_valid|].
  pose proof (proj1 (valid_resolution_cases r) Hr).
  destruct agree; [rewrite getNext_agree by done|rewrite getNext_disagree by done].
  all: repeat split; try discriminate; try (intros b Hb%valid_resolution_cases);
    intros; case_bools; reflect_bools; lia.
Qed.

Lemma next_resolution_adjacent_witness :
  valid_resolution 30 ∧ getNextLedgerTimeResolution 30 false 7 = 60 ∧
  valid_resolution (getNextLedgerTimeResolution 30 false 7).
Proof.
  assert (valid_resolution 30) as H by (apply valid_resolution_cases; lia).
  split; [exact H|]. split; [reflexivity|].
  apply (next_resolution_adjacent 30 7 false H ltac:(lia)).
Defined.

(** rounding a close time gives a multiple of the resolution that is
    nearest to it, rounding up from the midpoint (for a resolution that is
    even, as every bin is), provided the time is not within half a bin of the
    end of the 32-bit clock. *)
Theorem roundCloseTime_nearest (ct r : Z)
    (Hct : 0 < ct) (Hr : valid_resolution r) (Hbound : ct + r / 2 < 2 ^ 32) :
  let t := roundCloseTime ct r in
  t mod r = 0 ∧ - (r / 2) ≤ ct - t < r / 2 ∧
  (∀ u, u mod r = 0 → Z.abs (ct - t) ≤ Z.abs (ct - u)).
Proof.
  pose proof (valid_resolution_pos r Hr) as Hpos. simpl.
  rewrite roundCloseTime_small by done.
  assert (r = 2 * (r / 2)) as Heven.
  { apply valid_resolution_cases in Hr. by destruct_or!; subst r. }
  pose proof (Z.div_mod (ct + r / 2) r). pose proof (Z.mod_pos_bound (ct + r / 2) r).
  split; [by rewrite Z.mul_comm, Z.mod_mul by lia|]. split; [lia|].
  intros u Hu. pose proof (Z.div_mod u r). set (q := (ct + r / 2) / r) in *.
  assert (u / r ≤ q - 1 ∨ u / r = q ∨ q + 1 ≤ u / r) by lia. nia.
Qed.

Lemma roundCloseTime_nearest_witness :
  roundCloseTime 45 30 = 60 ∧ roundCloseTime 45 30 mod 30 = 0.
Proof.
  split; [reflexivity|].
  apply (roundCloseTime_nearest 45 30);
    [lia|apply valid_resolution_cases; lia|reflexivity].
Defined.

(** Rounding is idempotent and monotone, so two servers whose clocks agree
    up to rounding derive the same close time and never invert two ledgers. *)
Theorem roundCloseTime_idem_mono (ct ct' r : Z)
    (Hct : r ≤ ct ≤ ct') (Hr : valid_resolution r)
    (Hbound : ct' + r < 2 ^ 32) :
  roundCloseTime (roundCloseTime ct r) r = roundCloseTime ct r ∧
  roundCloseTime ct r ≤ roundCloseTime ct' r.
Proof.
  pose proof (valid_resolution_pos r Hr) as Hpos.
  assert (0 ≤ r / 2 < r) by (split; [apply Z.div_pos|apply Z.div_lt_upper_bound]; lia).
  rewrite (roundCloseTime_small ct), (roundCloseTime_small ct') by lia.
  assert (1 ≤ (ct + r / 2) / r) by (apply Z.div_le_lower_bound; lia).
  pose proof (Z.mul_div_le (ct + r / 2) r Hpos).
  pose proof (Z.mul_div_le r 2). assert (0 < r * ((ct + r / 2) / r)) by nia.
  split.
  - rewrite roundCloseTime_small by lia. f_equal.
    rewrite Z.mul_comm, Z.div_add_l, (Z.div_small (r / 2)) by lia. lia.
  - apply Z.mul_le_mono_nonneg_l; [lia|]. apply Z.div_le_mono; lia.
Qed.

Lemma roundCloseTime_idem_mono_witness :
  roundCloseTime (roundCloseTime 100 30) 30 = roundCloseTime 100 30 ∧
  roundCloseTime 100 30 ≤ roundCloseTime 140 30.
Proof.
  apply (roundCloseTime_idem_mono 100 140 30);
    [lia|apply valid_resolution_cases; lia|reflexivity].
Defined.

(** the effective close time of a ledger with a close time is strictly
    after the close time of its parent, never before the rounded close time,
    and exactly one of the two lower bounds; no close time stays "none". *)
Theorem effCloseTime_after_prior (ct r prior : Z)
    (Hct : 0 < ct < 2 ^ 32) (Hprior : 0 ≤ prior < 2 ^ 32 - 1) :
  let t := effCloseTime ct r prior in
  prior < t ∧ roundCloseTime ct r ≤ t ∧
  (t = roundCloseTime ct r ∨ t = prior + 1) ∧ effCloseTime 0 r prior = 0.
Proof.
  simpl. unfold effCloseTime. rewrite (proj2 (Z.eqb_neq ct 0)) by lia.
  rewrite u32_id by lia. simpl. lia.
Qed.

Lemma effCloseTime_after_prior_witness :
  effCloseTime 100 30 130 = 131 ∧ 130 < effCloseTime 100 30 130.
Proof. split; [reflexivity|]. apply (effCloseTime_after_prior 100 30 130); lia. Defined.
