(* ===== verification/Thresholds.v ===== *)
(** * Timing and agreement thresholds of a consensus round

    Models [src/ripple/consensus/ConsensusParms.h],
    [src/ripple/consensus/Consensus.cpp] and [participantsNeeded] of
    [Consensus.h].  Counts are 64-bit [std::size_t]; durations are
    milliseconds unless a name says otherwise. *)
From S2P Require Import Prelude.

Record ConsensusParms := {
  validationVALID_WALL : Z; (* seconds *)
  validationVALID_LOCAL : Z; (* seconds *)
  validationVALID_EARLY : Z; (* seconds *)
  proposeFRESHNESS : Z; (* seconds *)
  proposeINTERVAL : Z; (* seconds *)
  minCONSENSUS_PCT : Z;
  ledgerIDLE_INTERVAL : Z;
  ledgerMIN_CONSENSUS : Z;
  ledgerMAX_CONSENSUS : Z;
  ledgerMIN_CLOSE : Z;
  ledgerGRANULARITY : Z;
  avMIN_CONSENSUS_TIME : Z;
  avINIT_CONSENSUS_PCT : Z;
  avMID_CONSENSUS_TIME : Z;
  avMID_CONSENSUS_PCT : Z;
  avLATE_CONSENSUS_TIME : Z;
  avLATE_CONSENSUS_PCT : Z;
  avSTUCK_CONSENSUS_TIME : Z;
  avSTUCK_CONSENSUS_PCT : Z;
  avCT_CONSENSUS_PCT : Z;
}.

(** The values of the default member initialisers. *)
Definition default_parms : ConsensusParms := {|
  validationVALID_WALL := 300;
  validationVALID_LOCAL := 180;
  validationVALID_EARLY := 180;
  proposeFRESHNESS := 20;
  proposeINTERVAL := 12;
  minCONSENSUS_PCT := 80;
  ledgerIDLE_INTERVAL := 15000;
  ledgerMIN_CONSENSUS := 1950;
  ledgerMAX_CONSENSUS := 10000;
  ledgerMIN_CLOSE := 2000;
  ledgerGRANULARITY := 1000;
  avMIN_CONSENSUS_TIME := 5000;
  avINIT_CONSENSUS_PCT := 50;
  avMID_CONSENSUS_TIME := 50;
  avMID_CONSENSUS_PCT := 65;
  avLATE_CONSENSUS_TIME := 85;
  avLATE_CONSENSUS_PCT := 70;
  avSTUCK_CONSENSUS_TIME := 200;
  avSTUCK_CONSENSUS_PCT := 95;
  avCT_CONSENSUS_PCT := 75;
|}.

Definition shouldCloseLedger (anyTransactions : bool)
    (prevProposers proposersClosed proposersValidated : Z)
    (prevRoundTime timeSincePrevClose openTime idleInterval : Z)
    (parms : ConsensusParms) : bool :=
  if (prevRoundTime <? -1000) || (600000 <? prevRoundTime)
     || (600000 <? timeSincePrevClose) then true
  else if prevProposers / 2 <? u64 (proposersClosed + proposersValidated) then true
  else if negb anyTransactions then idleInterval <=? timeSincePrevClose
  else if openTime <? ledgerMIN_CLOSE parms then false
  else if openTime <? Z.quot prevRoundTime 2 then false
  else true.

Definition checkConsensusReached (agreeing total : Z) (count_self : bool)
    (minConsensusPct : Z) : bool :=
  if total =? 0 then true
  else
    let agreeing := if count_self then u64 (agreeing + 1) else agreeing in
    let total := if count_self then u64 (total + 1) else total in
    let currentPercentage := u64 (agreeing * 100) / total in
    minConsensusPct <=? currentPercentage.

(** [enum class ConsensusState] of [ConsensusTypes.h]. *)
Inductive ConsensusState := No | MovedOn | Yes.

#[export] Instance ConsensusState_eq_dec : EqDecision ConsensusState.
Proof. solve_decision. Defined.

Definition checkConsensus
    (prevProposers currentProposers currentAgree currentFinished : Z)
    (previousAgreeTime currentAgreeTime : Z)
    (parms : ConsensusParms) (proposing : bool) : ConsensusState :=
  if currentAgreeTime <=? ledgerMIN_CONSENSUS parms then No
  else if (currentProposers <? u64 (prevProposers * 3) / 4)
          && (currentAgreeTime <? previousAgreeTime + ledgerMIN_CONSENSUS parms)
  then No
  else if checkConsensusReached currentAgree currentProposers proposing
            (minCONSENSUS_PCT parms) then Yes
  else if checkConsensusReached currentFinished currentProposers false
            (minCONSENSUS_PCT parms) then MovedOn
  else No.

Definition participantsNeeded (participants percent : Z) : Z :=
  let result := Z.quot (participants * percent + Z.quot percent 2) 100 in
  if result =? 0 then 1 else result.

(** ** Lemmas *)

(** Counts small enough that the percentages do not wrap. *)
Definition small_count (n : Z) : Prop := 0 ≤ n < 2 ^ 56.

(** The size of the electorate once we count ourselves. *)
Definition with_self (self : bool) (n : Z) : Z := if self then n + 1 else n.

(** Reaching the threshold is the inequality of the percentages. *)
Lemma checkConsensusReached_iff a t self pct :
  small_count a → small_count t → t ≠ 0 →
  checkConsensusReached a t self pct = true ↔
  pct * with_self self t ≤ 100 * with_self self a.
Proof.
  unfold small_count, checkConsensusReached, with_self. intros Ha Ht Ht0.
  rewrite (proj2 (Z.eqb_neq t 0)) by done.
  destruct self; rewrite Z.leb_le, ?(u64_id (a + 1)), ?(u64_id (t + 1)), u64_id by lia.
  - split; intros H.
    + pose proof (Z.mul_div_le ((a + 1) * 100) (t + 1)). nia.
    + apply Z.div_le_lower_bound; lia.
  - split; intros H.
    + pose proof (Z.mul_div_le (a * 100) t). nia.
    + apply Z.div_le_lower_bound; lia.
Qed.

Lemma checkConsensusReached_alone a self pct :
  checkConsensusReached a 0 self pct = true.
Proof. done. Qed.

Lemma participantsNeeded_pos n p : 0 ≤ n → 0 ≤ p → 1 ≤ participantsNeeded n p.
Proof.
  intros Hn Hp. unfold participantsNeeded.
  pose proof (Z.quot_pos p 2). pose proof (Z.quot_pos (n * p + Z.quot p 2) 100).
  case_bools; reflect_bools; nia.
Qed.

Lemma participantsNeeded_le n p : 1 ≤ n → 0 ≤ p ≤ 100 → participantsNeeded n p ≤ n.
Proof.
  intros Hn Hp. unfold participantsNeeded. case_bools; [lia|].
  rewrite (Z.quot_div_nonneg p), Z.quot_div_nonneg
    by (pose proof (Z.div_pos p 2); nia).
  assert (p / 2 ≤ 50) by (apply Z.div_le_upper_bound; lia).
  enough ((n * p + p / 2) / 100 < n + 1) by lia.
  apply Z.div_lt_upper_bound; nia.
Qed.

(** When and why a round ends. *)
Lemma checkConsensus_bounds (prev cur agree finished prevTime time : Z)
    (p : ConsensusParms) (proposing : bool)
    (Hprev : small_count prev) (Hcur : small_count cur)
    (Hagree : small_count agree) (Hfin : small_count finished) :
  let st := checkConsensus prev cur agree finished prevTime time p proposing in
  (st ≠ No → ledgerMIN_CONSENSUS p < time ∧
     (prev * 3 / 4 ≤ cur ∨ prevTime + ledgerMIN_CONSENSUS p ≤ time)) ∧
  (st = Yes → cur = 0 ∨
     minCONSENSUS_PCT p * with_self proposing cur ≤ 100 * with_self proposing agree) ∧
  (st = MovedOn → cur ≠ 0 ∧
     100 * with_self proposing agree < minCONSENSUS_PCT p * with_self proposing cur ∧
     minCONSENSUS_PCT p * cur ≤ 100 * finished).
Proof.
  simpl. unfold checkConsensus.
  rewrite u64_id by (unfold small_count in Hprev; lia).
  destruct (Z.leb_spec time (ledgerMIN_CONSENSUS p)); [done|].
  destruct (Z.ltb_spec cur (prev * 3 / 4)),
    (Z.ltb_spec time (prevTime + ledgerMIN_CONSENSUS p)); simpl; try done.
  all: destruct (decide (cur = 0)) as [->|Hc0];
    [simpl; split_and!; intros; first [discriminate | lia]|].
  all: pose proof (checkConsensusReached_iff agree cur proposing
         (minCONSENSUS_PCT p) Hagree Hcur Hc0).
  all: pose proof (checkConsensusReached_iff finished cur false
         (minCONSENSUS_PCT p) Hfin Hcur Hc0).
  all: destruct (checkConsensusReached agree _ _ _); [naive_solver lia|].
  all: destruct (checkConsensusReached finished _ _ _); [|done].
  all: simpl in *; split_and!; try done; intros _; split_and!; try lia; naive_solver lia.
Qed.

(** When a round ends with our position accepted. *)
Lemma checkConsensus_yes prev cur agree finished prevTime time p proposing :
  small_count prev → small_count cur → small_count agree →
  checkConsensus prev cur agree finished prevTime time p proposing = Yes ↔
  ledgerMIN_CONSENSUS p < time ∧
  (prev * 3 / 4 ≤ cur ∨ prevTime + ledgerMIN_CONSENSUS p ≤ time) ∧
  (cur = 0 ∨ minCONSENSUS_PCT p * with_self proposing cur ≤ 100 * with_self proposing agree).
Proof.
  intros Hprev Hcur Hagree. unfold checkConsensus.
  rewrite u64_id by (unfold small_count in Hprev; lia).
  destruct (Z.leb_spec time (ledgerMIN_CONSENSUS p)); [split; [done|lia]|].
  destruct (Z.ltb_spec cur (prev * 3 / 4)),
    (Z.ltb_spec time (prevTime + ledgerMIN_CONSENSUS p)); simpl; [split; [done|lia]|..].
  all: destruct (decide (cur = 0)) as [->|Hc0]; [simpl; naive_solver lia|].
  all: pose proof (checkConsensusReached_iff agree cur proposing
         (minCONSENSUS_PCT p) Hagree Hcur Hc0).
  all: destruct (checkConsensusReached agree _ _ _); [naive_solver lia|].
  all: destruct (checkConsensusReached finished _ _ _); naive_solver lia.
Qed.

(** ** Properties *)

(** a round ends only when it may: never within the minimum consensus
    time; with fewer than three quarters of the previous proposers, not before
    the previous round's duration plus that minimum; [Yes] means the required
    percentage of the proposers (and ourselves when we propose) agree with us
    or there are no proposers, [MovedOn] means they do not but that percentage
    has validated a later ledger. *)
Theorem checkConsensus_sound (prev cur agree finished prevTime time : Z)
    (p : ConsensusParms) (proposing : bool)
    (Hprev : small_count prev) (Hcur : small_count cur)
    (Hagree : small_count agree) (Hfin : small_count finished) :
  let st := checkConsensus prev cur agree finished prevTime time p proposing in
  (st ≠ No → ledgerMIN_CONSENSUS p < time ∧
     (prev * 3 / 4 ≤ cur ∨ prevTime + ledgerMIN_CONSENSUS p ≤ time)) ∧
  (st = Yes → cur = 0 ∨
     minCONSENSUS_PCT p * with_self proposing cur ≤ 100 * with_self proposing agree) ∧
  (st = MovedOn → cur ≠ 0 ∧
     100 * with_self proposing agree < minCONSENSUS_PCT p * with_self proposing cur ∧
     minCONSENSUS_PCT p * cur ≤ 100 * finished).
Proof. by apply checkConsensus_bounds. Qed.

Lemma checkConsensus_sound_witness :
  checkConsensus 10 10 8 0 5000 6000 default_parms true = Yes ∧
  (10 = 0 ∨ 80 * (10 + 1) ≤ 100 * (8 + 1)).
Proof.
  split; [reflexivity|].
  apply (checkConsensus_sound 10 10 8 0 5000 6000 default_parms true);
    first [reflexivity | unfold small_count; lia].
Defined.

(** the decision to close the ledger does not flap: if it holds, it still
    holds later in the same round, when more time has passed, transactions
    have stayed in the open ledger and no proposer has been lost. *)
Theorem shouldCloseLedger_stable (tx : bool)
    (prev closed closed' validated validated' prevRound since since'
       opent opent' idle : Z) (p : ConsensusParms)
    (Hclosed : 0 ≤ closed ≤ closed') (Hval : 0 ≤ validated ≤ validated')
    (Hsmall : closed' + validated' < 2 ^ 64)
    (Htime : since ≤ since' ∧ opent ≤ opent')
    (H : shouldCloseLedger tx prev closed validated prevRound since opent idle p = true) :
  shouldCloseLedger tx prev closed' validated' prevRound since' opent' idle p = true.
Proof.
  revert H. unfold shouldCloseLedger. rewrite !u64_id by lia.
  destruct tx; simpl; case_bools; reflect_bools; try done; try lia.
  all: rewrite ?orb_true_iff, ?orb_false_iff, ?Z.ltb_lt, ?Z.ltb_ge in *; try lia.
  all: intros; reflect_bools; lia.
Qed.

Lemma shouldCloseLedger_stable_witness :
  shouldCloseLedger true 10 0 0 3000 4000 2500 15000 default_parms = true ∧
  shouldCloseLedger true 10 2 0 3000 5000 3500 15000 default_parms = true.
Proof.
  split; [reflexivity|].
  apply (shouldCloseLedger_stable true 10 0 2 0 0 3000 4000 5000 2500 3500 15000 default_parms);
    first [reflexivity | lia].
Defined.

(** In the normal case (round times in range, less than half of the
    proposers past this ledger) a ledger with transactions stays open for the
    minimum open time and for half of the previous round, and closes then; an
    empty one closes exactly at the idle interval. *)
Theorem shouldCloseLedger_normal (tx : bool)
    (prev closed validated prevRound since opent idle : Z) (p : ConsensusParms)
    (Hround : 0 ≤ prevRound ≤ 600000) (Hsince : since ≤ 600000)
    (Hfew : 0 ≤ closed + validated ≤ prev / 2) (Hprev : prev < 2 ^ 64) :
  shouldCloseLedger tx prev closed validated prevRound since opent idle p = true ↔
  if tx then ledgerMIN_CLOSE p ≤ opent ∧ prevRound / 2 ≤ opent else idle ≤ since.
Proof.
  unfold shouldCloseLedger.
  pose proof (Z.mul_div_le prev 2). pose proof (Z.mul_succ_div_gt prev 2).
  rewrite u64_id, Z.quot_div_nonneg by lia.
  rewrite (proj2 (Z.ltb_ge prevRound _)), (proj2 (Z.ltb_ge 600000 _)),
    (proj2 (Z.ltb_ge 600000 _)), (proj2 (Z.ltb_ge (prev / 2) _)) by lia.
  destruct tx; simpl; [|by rewrite Z.leb_le].
  case_bools; reflect_bools; naive_solver lia.
Qed.

Lemma shouldCloseLedger_normal_witness :
  shouldCloseLedger true 10 1 1 3000 4000 1999 15000 default_parms = true ↔
  2000 ≤ 1999 ∧ 3000 / 2 ≤ 1999.
Proof.
  apply (shouldCloseLedger_normal true 10 1 1 3000 4000 1999 15000 default_parms);
    first [lia | vm_compute; split; discriminate].
Defined.
