(* ===== verification/Dispute.v ===== *)
(** * Disputed transactions

    Models [src/ripple/consensus/DisputedTx.h]: the yes/no votes of the peers
    on one transaction, our own vote, and the avalanche rule that moves our
    vote as the round progresses. *)
From S2P Require Import Prelude Thresholds.

Section dispute.
Context {Tx NodeID : Type} `{Countable NodeID}.

Record DisputedTx := mkDisputedTx {
  yays_ : Z;
  nays_ : Z;
  ourVote_ : bool;
  tx_ : Tx;
  votes_ : gmap NodeID bool;
}.

Definition DisputedTx_ctor (tx : Tx) (ourVote : bool) : DisputedTx :=
  mkDisputedTx 0 0 ourVote tx ∅.

Definition setOurVote (o : bool) (d : DisputedTx) : DisputedTx :=
  mkDisputedTx (yays_ d) (nays_ d) o (tx_ d) (votes_ d).

Definition setVote (peer : NodeID) (votesYes : bool) (d : DisputedTx) : DisputedTx :=
  match votes_ d !! peer with
  | None => (* inserted *)
      if votesYes
      then mkDisputedTx (yays_ d + 1) (nays_ d) (ourVote_ d) (tx_ d)
             (<[peer := votesYes]> (votes_ d))
      else mkDisputedTx (yays_ d) (nays_ d + 1) (ourVote_ d) (tx_ d)
             (<[peer := votesYes]> (votes_ d))
  | Some old =>
      if votesYes && negb old
      then mkDisputedTx (yays_ d + 1) (nays_ d - 1) (ourVote_ d) (tx_ d)
             (<[peer := true]> (votes_ d))
      else if negb votesYes && old
      then mkDisputedTx (yays_ d - 1) (nays_ d + 1) (ourVote_ d) (tx_ d)
             (<[peer := false]> (votes_ d))
      else d
  end.

Definition unVote (peer : NodeID) (d : DisputedTx) : DisputedTx :=
  match votes_ d !! peer with
  | Some true =>
      mkDisputedTx (yays_ d - 1) (nays_ d) (ourVote_ d) (tx_ d) (delete peer (votes_ d))
  | Some false =>
      mkDisputedTx (yays_ d) (nays_ d - 1) (ourVote_ d) (tx_ d) (delete peer (votes_ d))
  | None => d
  end.

(** The percentage a transaction must exceed, by the progress of the round;
    [percentTime] is an [int] compared with a [std::size_t]. *)
Definition avalanche_pct (percentTime : Z) (p : ConsensusParms) : Z :=
  if u64 percentTime <? avMID_CONSENSUS_TIME p then avINIT_CONSENSUS_PCT p
  else if u64 percentTime <? avLATE_CONSENSUS_TIME p then avMID_CONSENSUS_PCT p
  else if u64 percentTime <? avSTUCK_CONSENSUS_TIME p then avLATE_CONSENSUS_PCT p
  else avSTUCK_CONSENSUS_PCT p.

(** The new vote, and whether it changed. *)
Definition updateVote (percentTime : Z) (proposing : bool) (p : ConsensusParms)
    (d : DisputedTx) : DisputedTx * bool :=
  if ourVote_ d && (nays_ d =? 0) then (d, false)
  else if negb (ourVote_ d) && (yays_ d =? 0) then (d, false)
  else
    let newPosition :=
      if proposing then
        let weight :=
          Z.quot (yays_ d * 100 + (if ourVote_ d then 100 else 0))
            (nays_ d + yays_ d + 1) in
        avalanche_pct percentTime p <? u64 weight
      else nays_ d <? yays_ d in
    if eqb newPosition (ourVote_ d) then (d, false)
    else (setOurVote newPosition d, true).

(** ** The counters count the votes *)

Definition count_votes (b : bool) (m : gmap NodeID bool) : Z :=
  Z.of_nat (size (filter (λ kv, kv.2 = b) m)).

Definition dispute_wf (d : DisputedTx) : Prop :=
  yays_ d = count_votes true (votes_ d) ∧ nays_ d = count_votes false (votes_ d).

Lemma count_votes_insert_new b k v m :
  m !! k = None →
  count_votes b (<[k := v]> m) = count_votes b m + (if eqb v b then 1 else 0).
Proof.
  intros Hk. unfold count_votes. rewrite map_filter_insert. simpl.
  case_decide as Hv.
  - subst v. rewrite eqb_reflx. rewrite map_size_insert_None; [lia|].
    apply map_lookup_filter_None. auto.
  - rewrite (proj2 (eqb_false_iff v b)) by done.
    rewrite delete_id by done. lia.
Qed.

Lemma count_votes_delete b k v m :
  m !! k = Some v →
  count_votes b (delete k m) = count_votes b m - (if eqb v b then 1 else 0).
Proof.
  intros Hk. rewrite <- (insert_delete_id m k v Hk) at 2.
  rewrite count_votes_insert_new by apply lookup_delete_eq. lia.
Qed.

Lemma count_votes_insert b k v old m :
  m !! k = Some old →
  count_votes b (<[k := v]> m) =
    count_votes b m - (if eqb old b then 1 else 0) + (if eqb v b then 1 else 0).
Proof.
  intros Hk. rewrite <- insert_delete_eq.
  rewrite count_votes_insert_new by apply lookup_delete_eq.
  by rewrite (count_votes_delete b k old).
Qed.

Lemma count_votes_nonneg b m : 0 ≤ count_votes b m.
Proof. unfold count_votes. lia. Qed.

Lemma ctor_wf tx v : dispute_wf (DisputedTx_ctor tx v).
Proof. split; done. Qed.

Lemma setVote_wf peer v d : dispute_wf d → dispute_wf (setVote peer v d).
Proof.
  intros [Hy Hn]. unfold setVote, dispute_wf.
  destruct (votes_ d !! peer) as [old|] eqn:E; [destruct old, v|destruct v];
    simpl; rewrite ?(count_votes_insert_new _ _ _ _ E), ?(count_votes_insert _ _ _ _ _ E);
    simpl; lia.
Qed.

Lemma unVote_wf peer d : dispute_wf d → dispute_wf (unVote peer d).
Proof.
  intros [Hy Hn]. unfold unVote, dispute_wf.
  destruct (votes_ d !! peer) as [[]|] eqn:E; simpl; [| |done];
    rewrite !(count_votes_delete _ _ _ _ E); simpl; lia.
Qed.

Lemma updateVote_votes t b p d : votes_ (updateVote t b p d).1 = votes_ d.
Proof. unfold updateVote. by case_bools. Qed.

Lemma updateVote_tx t b p d : tx_ (updateVote t b p d).1 = tx_ d.
Proof. unfold updateVote. by case_bools. Qed.

Lemma updateVote_wf t b p d : dispute_wf d → dispute_wf (updateVote t b p d).1.
Proof. unfold updateVote, dispute_wf. by case_bools. Qed.

(** The returned flag says whether our vote changed. *)
Lemma updateVote_changed t b p d :
  (updateVote t b p d).2 = true ↔ ourVote_ (updateVote t b p d).1 ≠ ourVote_ d.
Proof.
  unfold updateVote.
  destruct (ourVote_ d && _); [simpl; naive_solver|].
  destruct (negb (ourVote_ d) && _); [simpl; naive_solver|].
  match goal with |- context [eqb ?n (ourVote_ d)] =>
    destruct (eqb n (ourVote_ d)) eqn:E end; simpl; [naive_solver|].
  apply eqb_false_iff in E. naive_solver.
Qed.

Lemma setVote_lookup peer v d :
  votes_ (setVote peer v d) = <[peer := v]> (votes_ d).
Proof.
  unfold setVote. destruct (votes_ d !! peer) as [old|] eqn:E; [|by destruct v].
  destruct old, v; simpl; try done; by rewrite insert_id.
Qed.

Lemma unVote_lookup peer d : votes_ (unVote peer d) = delete peer (votes_ d).
Proof.
  unfold unVote. destruct (votes_ d !! peer) as [[]|] eqn:E; try done.
  by rewrite delete_id.
Qed.

Lemma setVote_tx peer v d : tx_ (setVote peer v d) = tx_ d.
Proof. unfold setVote. repeat case_match; done. Qed.
Lemma setVote_our peer v d : ourVote_ (setVote peer v d) = ourVote_ d.
Proof. unfold setVote. repeat case_match; done. Qed.
Lemma unVote_tx peer d : tx_ (unVote peer d) = tx_ d.
Proof. unfold unVote. repeat case_match; done. Qed.
Lemma unVote_our peer d : ourVote_ (unVote peer d) = ourVote_ d.
Proof. unfold unVote. repeat case_match; done. Qed.
End dispute.

Arguments DisputedTx : clear implicits.
Arguments DisputedTx Tx NodeID {_ _}.

Create HintDb dispute.
Create Rewrite HintDb dispute.
#[export] Hint Resolve ctor_wf setVote_wf unVote_wf updateVote_wf : dispute.
#[export] Hint Rewrite @setVote_lookup @unVote_lookup @setVote_tx @setVote_our
  @unVote_tx @unVote_our @updateVote_votes @updateVote_tx : dispute.

(** ** Histories of a dispute *)

Section history.
Context {Tx NodeID : Type} `{Countable NodeID}.
Implicit Types d : DisputedTx Tx NodeID.

Inductive dispute_op :=
  | OpSetVote (peer : NodeID) (v : bool)
  | OpUnVote (peer : NodeID)
  | OpUpdate (percentTime : Z) (proposing : bool) (p : ConsensusParms).

Definition apply_op d (o : dispute_op) : DisputedTx Tx NodeID :=
  match o with
  | OpSetVote peer v => setVote peer v d
  | OpUnVote peer => unVote peer d
  | OpUpdate t b p => (updateVote t b p d).1
  end.

(** The latest vote of each peer that has one, read off the history alone. *)
Definition latest_votes (ops : list dispute_op) : gmap NodeID bool :=
  foldl (λ m o, match o with
                | OpSetVote peer v => <[peer := v]> m
                | OpUnVote peer => delete peer m
                | OpUpdate _ _ _ => m
                end) ∅ ops.

Lemma apply_op_wf d o : dispute_wf d → dispute_wf (apply_op d o).
Proof. destruct o; simpl; auto with dispute. Qed.

Lemma apply_ops_wf ops d : dispute_wf d → dispute_wf (foldl apply_op d ops).
Proof. revert d. induction ops; simpl; auto using apply_op_wf. Qed.

Lemma apply_ops_votes tx v ops :
  votes_ (foldl apply_op (DisputedTx_ctor tx v) ops) = latest_votes ops.
Proof.
  unfold latest_votes. change ∅ with (votes_ (@DisputedTx_ctor Tx NodeID _ _ tx v)).
  generalize (@DisputedTx_ctor Tx NodeID _ _ tx v). induction ops as [|o ops IH]; [done|].
  intros d. simpl. rewrite IH. f_equal.
  destruct o; simpl; by autorewrite with dispute.
Qed.

(** The weight of a dispute is monotone in the votes. *)
Lemma weight_mono y n y' n' o :
  0 ≤ y ≤ y' → 0 ≤ n' ≤ n → 0 ≤ o ≤ 100 →
  Z.quot (y * 100 + o) (n + y + 1) ≤ Z.quot (y' * 100 + o) (n' + y' + 1).
Proof.
  intros Hy Hn Ho. rewrite !Z.quot_div_nonneg by lia.
  apply Z.div_le_lower_bound; [lia|].
  pose proof (Z.mul_div_le (y * 100 + o) (n + y + 1)).
  set (q := (y * 100 + o) / (n + y + 1)) in *.
  assert (0 ≤ q ≤ 100).
  { split; [apply Z.div_pos; lia|]. apply Z.div_le_upper_bound; lia. }
  nia.
Qed.

Lemma weight_range y n o :
  0 ≤ y → 0 ≤ n → 0 ≤ o ≤ 100 →
  0 ≤ Z.quot (y * 100 + o) (n + y + 1) ≤ 100.
Proof.
  intros. rewrite Z.quot_div_nonneg by lia.
  split; [apply Z.div_pos; lia|]. apply Z.div_le_upper_bound; lia.
Qed.

Lemma avalanche_pct_mono t t' :
  0 ≤ t' ≤ t → t < 2 ^ 31 →
  avalanche_pct t' default_parms ≤ avalanche_pct t default_parms.
Proof.
  intros. unfold avalanche_pct. rewrite !u64_id by lia. simpl.
  case_bools; reflect_bools; lia.
Qed.

(** When our vote can change, what decides it. *)
Lemma updateVote_proposing t p d :
  dispute_wf d → ¬ (ourVote_ d = true ∧ nays_ d = 0) →
  ¬ (ourVote_ d = false ∧ yays_ d = 0) →
  ourVote_ (updateVote t true p d).1 = true ↔
  avalanche_pct t p < Z.quot (yays_ d * 100 + (if ourVote_ d then 100 else 0))
                        (nays_ d + yays_ d + 1).
Proof.
  intros [Hy Hn] Hno1 Hno2.
  pose proof (count_votes_nonneg true (votes_ d)).
  pose proof (count_votes_nonneg false (votes_ d)).
  pose proof (weight_range (yays_ d) (nays_ d) (if ourVote_ d then 100 else 0)
    ltac:(lia) ltac:(lia) ltac:(case_bools; lia)).
  unfold updateVote. rewrite u64_id by lia.
  destruct (ourVote_ d) eqn:Ho; simpl.
  - rewrite (proj2 (Z.eqb_neq (nays_ d) 0)) by naive_solver.
    destruct (Z.ltb_spec (avalanche_pct t p)
      (Z.quot (yays_ d * 100 + 100) (nays_ d + yays_ d + 1))); simpl; rewrite ?Ho;
      split; intros; first [done | lia].
  - rewrite (proj2 (Z.eqb_neq (yays_ d) 0)) by naive_solver.
    destruct (Z.ltb_spec (avalanche_pct t p)
      (Z.quot (yays_ d * 100 + 0) (nays_ d + yays_ d + 1))); simpl; rewrite ?Ho;
      split; intros; first [done | lia].
Qed.
End history.

(** ** Properties *)

(** after any sequence of votes cast, changed and withdrawn, interleaved
    with our own updates, a dispute holds exactly the latest vote of every
    peer that still has one, and its two counters are the numbers of yes and
    of no votes among them (so neither is ever negative). *)
Theorem dispute_counts_votes {Tx NodeID : Type} `{Countable NodeID}
    (tx : Tx) (v : bool) (ops : list (dispute_op (NodeID := NodeID))) :
  let d := foldl apply_op (DisputedTx_ctor tx v) ops in
  votes_ d = latest_votes ops ∧
  yays_ d = count_votes true (latest_votes ops) ∧
  nays_ d = count_votes false (latest_votes ops).
Proof.
  simpl. pose proof (apply_ops_wf ops _ (ctor_wf tx v)) as [Hy Hn].
  by rewrite Hy, Hn, apply_ops_votes.
Qed.

(** the avalanche rule, when we propose and the votes are not already all
    on our side: we vote yes exactly when the yes votes, our own included, are
    more than the threshold percentage of all votes, our own included, where
    the threshold is 50, 65, 70 or 95 percent as the round passes 50, 85 and
    200 percent of the previous one; when all votes agree with ours we never
    move. *)
Theorem updateVote_threshold {Tx NodeID : Type} `{Countable NodeID}
    (d : DisputedTx Tx NodeID) (t : Z) (Hwf : dispute_wf d) (Ht : 0 ≤ t < 2 ^ 31) :
  let yes := yays_ d + (if ourVote_ d then 1 else 0) in
  let pct := if t <? 50 then 50 else if t <? 85 then 65 else if t <? 200 then 70 else 95 in
  let d' := (updateVote t true default_parms d).1 in
  if (if ourVote_ d then nays_ d =? 0 else yays_ d =? 0)
  then d' = d
  else ourVote_ d' = true ↔ (pct + 1) * (yays_ d + nays_ d + 1) ≤ 100 * yes.
Proof.
  simpl. pose proof Hwf as [Hy Hn].
  pose proof (count_votes_nonneg true (votes_ d)).
  pose proof (count_votes_nonneg false (votes_ d)).
  assert (avalanche_pct t default_parms =
    if t <? 50 then 50 else if t <? 85 then 65 else if t <? 200 then 70 else 95) as Hp.
  { unfold avalanche_pct. by rewrite u64_id by lia. }
  destruct (if ourVote_ d then nays_ d =? 0 else yays_ d =? 0) eqn:E.
  { unfold updateVote. destruct (ourVote_ d); simpl; by rewrite E. }
  rewrite updateVote_proposing, Hp by
    (try done; destruct (ourVote_ d); reflect_bools; naive_solver).
  set (pct := if t <? 50 then _ else _).
  assert (0 ≤ pct) by (unfold pct; case_bools; lia).
  rewrite Z.quot_div_nonneg by (case_bools; lia).
  rewrite Z.lt_le_pred. 
  split; intros Hlt.
  - pose proof (Z.mul_div_le (yays_ d * 100 + (if ourVote_ d then 100 else 0))
      (nays_ d + yays_ d + 1)). destruct (ourVote_ d); nia.
  - enough (pct + 1 ≤ (yays_ d * 100 + (if ourVote_ d then 100 else 0))
      / (nays_ d + yays_ d + 1)) by lia.
    apply Z.div_le_lower_bound; destruct (ourVote_ d); lia.
Qed.

Lemma updateVote_threshold_witness :
  let d := setVote 2 false (setVote 1 true (DisputedTx_ctor 7 true)) in
  dispute_wf d ∧ (ourVote_ (updateVote 60 true default_parms d).1 = true ↔
                    66 * 3 ≤ 100 * 2).
Proof.
  simpl. assert (dispute_wf (setVote 2 false (setVote 1 true (DisputedTx_ctor 7 true))))
    as Hwf by (auto with dispute).
  split; [exact Hwf|].
  exact (updateVote_threshold _ 60 Hwf ltac:(lia)).
Defined.

(** our vote is monotone: if we vote yes on a dispute, we would also vote
    yes with more yes votes and fewer no votes, and earlier in the round. *)
Theorem updateVote_monotone {Tx NodeID : Type} `{Countable NodeID}
    (d d' : DisputedTx Tx NodeID) (t t' : Z) (proposing : bool)
    (Hwf : dispute_wf d) (Hwf' : dispute_wf d')
    (Hour : ourVote_ d = ourVote_ d')
    (Hyes : yays_ d ≤ yays_ d') (Hno : nays_ d' ≤ nays_ d)
    (Ht : 0 ≤ t' ≤ t ∧ t < 2 ^ 31)
    (H1 : ourVote_ (updateVote t proposing default_parms d).1 = true) :
  ourVote_ (updateVote t' proposing default_parms d').1 = true.
Proof.
  pose proof Hwf as [Hy Hn]. pose proof Hwf' as [Hy' Hn'].
  pose proof (count_votes_nonneg true (votes_ d)).
  pose proof (count_votes_nonneg false (votes_ d')).
  destruct (decide (ourVote_ d' = true ∧ nays_ d' = 0)) as [[Ho Hz]|Hno1].
  { unfold updateVote. by rewrite Ho, Hz. }
  destruct (decide (ourVote_ d = false ∧ yays_ d = 0)) as [[Ho Hz]|Hno2].
  { exfalso. revert H1. unfold updateVote. rewrite Ho, Hz. simpl. by rewrite Ho. }
  assert (¬ (ourVote_ d = true ∧ nays_ d = 0)) by (rewrite Hour; naive_solver lia).
  assert (¬ (ourVote_ d' = false ∧ yays_ d' = 0)) by (rewrite <- Hour; naive_solver lia).
  destruct proposing.
  - rewrite updateVote_proposing in H1 |- * by done. rewrite <- Hour.
    pose proof (avalanche_pct_mono t t'). 
    pose proof (weight_mono (yays_ d) (nays_ d) (yays_ d') (nays_ d')
      (if ourVote_ d then 100 else 0)) as Hm.
    specialize (Hm ltac:(lia) ltac:(lia) ltac:(case_bools; lia)). lia.
  - revert H1. unfold updateVote. rewrite <- Hour.
    destruct (ourVote_ d) eqn:Ho; simpl.
    + rewrite (proj2 (Z.eqb_neq (nays_ d) 0)), (proj2 (Z.eqb_neq (nays_ d') 0)) by naive_solver.
      destruct (Z.ltb_spec (nays_ d) (yays_ d)), (Z.ltb_spec (nays_ d') (yays_ d'));
        simpl; rewrite <- ?Hour; first [done | lia].
    + rewrite (proj2 (Z.eqb_neq (yays_ d) 0)), (proj2 (Z.eqb_neq (yays_ d') 0)) by naive_solver.
      destruct (Z.ltb_spec (nays_ d) (yays_ d)), (Z.ltb_spec (nays_ d') (yays_ d'));
        simpl; rewrite ?Ho; first [done | lia].
Qed.

Lemma updateVote_monotone_witness :
  let d := setVote 2 false (setVote 1 true (DisputedTx_ctor 7 true)) in
  ourVote_ (updateVote 10 true default_parms (setVote 3 true d)).1 = true.
Proof.
  simpl. set (d := setVote 2 false (setVote 1 true (DisputedTx_ctor 7 true))).
  apply (updateVote_monotone d (setVote 3 true d) 60 10 true).
  - unfold d. auto with dispute.
  - unfold d. auto with dispute.
  - reflexivity.
  - vm_compute. discriminate.
  - vm_compute. discriminate.
  - lia.
  - reflexivity.
Defined.
