(* ===== verification/Proposal.v ===== *)
(** * Proposals and the small types of a consensus round

    Models [src/ripple/consensus/ConsensusProposal.h] and
    [src/ripple/consensus/ConsensusTypes.h]. *)
From S2P Require Import Prelude.

Section proposal.
Context {NodeID LedgerID Position : Type}.

Record ConsensusProposal := mkProposal {
  previousLedger : LedgerID;
  position : Position;
  closeTime : Z; (* NetClock *)
  seenTime : Z; (* NetClock, the field time_ *)
  proposeSeq : Z; (* std::uint32_t *)
  nodeID : NodeID;
}.

Definition seqJoin : Z := 0.
Definition seqLeave : Z := 4294967295.

Definition isInitial (p : ConsensusProposal) : bool := proposeSeq p =? seqJoin.
Definition isBowOut (p : ConsensusProposal) : bool := proposeSeq p =? seqLeave.
Definition isStale (cutoff : Z) (p : ConsensusProposal) : bool := seenTime p <=? cutoff.

Definition changePosition (newPosition : Position) (newCloseTime now : Z)
    (p : ConsensusProposal) : ConsensusProposal :=
  mkProposal (previousLedger p) newPosition newCloseTime now
    (if proposeSeq p =? seqLeave then proposeSeq p else u32 (proposeSeq p + 1))
    (nodeID p).

Definition bowOut (now : Z) (p : ConsensusProposal) : ConsensusProposal :=
  mkProposal (previousLedger p) (position p) (closeTime p) now seqLeave (nodeID p).
End proposal.
Arguments ConsensusProposal : clear implicits.

Inductive ConsensusMode := proposing | observing | wrongLedger | switchedLedger.
Inductive ConsensusPhase := open | establish | accepted.

#[export] Instance ConsensusMode_eq_dec : EqDecision ConsensusMode.
Proof. solve_decision. Defined.
#[export] Instance ConsensusPhase_eq_dec : EqDecision ConsensusPhase.
Proof. solve_decision. Defined.

(** [ConsensusTimer]: steady clock instants are nanoseconds, the measured
    duration is in milliseconds. *)
Record ConsensusTimer := mkTimer { start_ : Z; dur_ : Z }.

Definition timer_read (t : ConsensusTimer) : Z := dur_ t.
Definition timer_tick_fixed (fixed : Z) (t : ConsensusTimer) : ConsensusTimer :=
  mkTimer (start_ t) (dur_ t + fixed).
Definition timer_reset (tp : Z) (t : ConsensusTimer) : ConsensusTimer := mkTimer tp 0.
Definition timer_tick (tp : Z) (t : ConsensusTimer) : ConsensusTimer :=
  mkTimer (start_ t) (Z.quot (tp - start_ t) 1000000).

(** [ConsensusCloseTimes]: votes for each reported close time. *)
Record ConsensusCloseTimes := mkCloseTimes { ct_peers : gmap Z Z; ct_self : Z }.

(** ** Properties *)

Section properties.
Context {NodeID LedgerID Position : Type}.
Implicit Types p : ConsensusProposal NodeID LedgerID Position.

Lemma changePosition_seq x t now p :
  0 ≤ proposeSeq p < seqLeave →
  proposeSeq (changePosition x t now p) = proposeSeq p + 1.
Proof.
  unfold seqLeave. intros Hp. simpl.
  rewrite (proj2 (Z.eqb_neq _ _)) by (unfold seqLeave; lia).
  apply u32_id. lia.
Qed.

Lemma changePosition_bowOut x t now p :
  isBowOut p = true → proposeSeq (changePosition x t now p) = seqLeave.
Proof. unfold isBowOut. intros Hp. simpl. rewrite Hp. by apply Z.eqb_eq. Qed.
End properties.
