(* ===== verification/Engine.v ===== *)
(** * The generic consensus state machine

    Models the class template [Consensus<Adaptor>] of
    [src/ripple/consensus/Consensus.h], operation by operation.  The template's
    types are the class [Traits]; the answers of the [Adaptor] during one call
    are an argument [env]; the calls with an effect outside (proposing,
    sharing, accepting, mode changes) are the emitted [event]s, in order. *)
From Stdlib Require Import SpecFloat.
From S2P Require Import Prelude Timing Thresholds Dispute Proposal.

(** ** The template's parameters *)

Class Traits := {
  NodeID_t : Type;
  NodeID_eq_dec :: EqDecision NodeID_t;
  NodeID_countable :: Countable NodeID_t;
  NodeID_order :: HashOrder NodeID_t;
  NodeKey_t : Type;
  NodeKey_eq_dec :: EqDecision NodeKey_t;
  NodeKey_countable :: Countable NodeKey_t;
  (* transactions *)
  TxID_t : Type;
  TxID_eq_dec :: EqDecision TxID_t;
  TxID_countable :: Countable TxID_t;
  TxID_order :: HashOrder TxID_t;
  Tx_t : Type;
  tx_id : Tx_t → TxID_t;
  (* sets of transactions *)
  TxSetID_t : Type;
  TxSetID_eq_dec :: EqDecision TxSetID_t;
  TxSetID_countable :: Countable TxSetID_t;
  TxSet_t : Type;
  set_id : TxSet_t → TxSetID_t;
  set_exists : TxSet_t → TxID_t → bool;
  set_find : TxSet_t → TxID_t → option Tx_t;
  set_compare : TxSet_t → TxSet_t → gmap TxID_t bool;
  set_insert : Tx_t → TxSet_t → TxSet_t; (* MutableTxSet::insert *)
  set_erase : TxID_t → TxSet_t → TxSet_t; (* MutableTxSet::erase *)
  (* ledgers *)
  LedgerID_t : Type;
  LedgerID_eq_dec :: EqDecision LedgerID_t;
  Ledger_t : Type;
  ledger_id : Ledger_t → LedgerID_t;
  ledger_seq : Ledger_t → Z;
  closeTimeResolution : Ledger_t → Z;
  closeAgree : Ledger_t → bool;
  ledger_closeTime : Ledger_t → Z;
  parentCloseTime : Ledger_t → Z;
}.

(** What [Consensus.h] documents of [TxSet]: its id determines its contents,
    [compare] is the symmetric difference with the side that has the
    transaction, the mutable view inserts and erases one transaction. *)
Class TraitsLaws `{Traits} : Prop := {
  set_id_inj : ∀ a b, set_id a = set_id b → ∀ k, set_exists a k = set_exists b k;
  set_find_exists : ∀ a k, set_exists a k = true →
    ∃ t, set_find a k = Some t ∧ tx_id t = k;
  set_find_absent : ∀ a k, set_exists a k = false → set_find a k = None;
  set_compare_spec : ∀ a b k v, set_compare a b !! k = Some v ↔
    set_exists a k ≠ set_exists b k ∧ v = set_exists a k;
  set_exists_insert : ∀ t a k,
    set_exists (set_insert t a) k = bool_decide (k = tx_id t) || set_exists a k;
  set_exists_erase : ∀ i a k,
    set_exists (set_erase i a) k = negb (bool_decide (k = i)) && set_exists a k;
}.

Abbreviation Proposal_t := (ConsensusProposal NodeID_t LedgerID_t TxSetID_t).

(** A [PeerPosition] is only used through its [proposal()]. *)
Abbreviation PeerPosition_t := (ConsensusProposal NodeID_t LedgerID_t TxSetID_t).

Section engine.
Context `{Traits}.

(** ** State *)

Record ConsensusResult := mkResult {
  txns : TxSet_t;
  r_position : Proposal_t;
  disputes : gmap TxID_t (DisputedTx Tx_t NodeID_t);
  compares : gset TxSetID_t;
  roundTime : ConsensusTimer;
  r_state : ConsensusState;
  proposers : Z;
}.

Record Consensus := mkConsensus {
  phase_ : ConsensusPhase;
  mode_ : ConsensusMode;
  firstRound_ : bool;
  haveCloseTimeConsensus_ : bool;
  convergePercent_ : Z;
  openTime_ : ConsensusTimer;
  closeResolution_ : Z;
  prevRoundTime_ : Z;
  now_ : Z;
  prevCloseTime_ : Z;
  prevLedgerID_ : LedgerID_t;
  previousLedger_ : Ledger_t;
  acquired_ : gmap TxSetID_t TxSet_t;
  result_ : option ConsensusResult;
  rawCloseTimes_ : ConsensusCloseTimes;
  currPeerPositions_ : gmap NodeID_t PeerPosition_t;
  recentPeerPositions_ : gmap NodeID_t (list PeerPosition_t);
  prevProposers_ : Z;
  deadNodes_ : gset NodeID_t;
}.

Definition set_txns (v : TxSet_t) (s : ConsensusResult) : ConsensusResult :=
  mkResult v (r_position s) (disputes s) (compares s) (roundTime s) (r_state s)
    (proposers s).
Definition set_r_position (v : Proposal_t) (s : ConsensusResult) : ConsensusResult :=
  mkResult (txns s) v (disputes s) (compares s) (roundTime s) (r_state s) (proposers s).
Definition set_disputes (v : gmap TxID_t (DisputedTx Tx_t NodeID_t)) (s : ConsensusResult) : ConsensusResult :=
  mkResult (txns s) (r_position s) v (compares s) (roundTime s) (r_state s)
    (proposers s).
Definition set_compares (v : gset TxSetID_t) (s : ConsensusResult) : ConsensusResult :=
  mkResult (txns s) (r_position s) (disputes s) v (roundTime s) (r_state s)
    (proposers s).
Definition set_roundTime (v : ConsensusTimer) (s : ConsensusResult) : ConsensusResult :=
  mkResult (txns s) (r_position s) (disputes s) (compares s) v (r_state s) (proposers s).
Definition set_r_state (v : ConsensusState) (s : ConsensusResult) : ConsensusResult :=
  mkResult (txns s) (r_position s) (disputes s) (compares s) (roundTime s) v
    (proposers s).
Definition set_proposers (v : Z) (s : ConsensusResult) : ConsensusResult :=
  mkResult (txns s) (r_position s) (disputes s) (compares s) (roundTime s) (r_state s) v.

Definition set_phase_ (v : ConsensusPhase) (s : Consensus) : Consensus :=
  mkConsensus v (mode_ s) (firstRound_ s) (haveCloseTimeConsensus_ s)
    (convergePercent_ s) (openTime_ s) (closeResolution_ s) (prevRoundTime_ s) (now_ s)
    (prevCloseTime_ s) (prevLedgerID_ s) (previousLedger_ s) (acquired_ s) (result_ s)
    (rawCloseTimes_ s) (currPeerPositions_ s) (recentPeerPositions_ s)
    (prevProposers_ s) (deadNodes_ s).
Definition set_mode_ (v : ConsensusMode) (s : Consensus) : Consensus :=
  mkConsensus (phase_ s) v (firstRound_ s) (haveCloseTimeConsensus_ s)
    (convergePercent_ s) (openTime_ s) (closeResolution_ s) (prevRoundTime_ s) (now_ s)
    (prevCloseTime_ s) (prevLedgerID_ s) (previousLedger_ s) (acquired_ s) (result_ s)
    (rawCloseTimes_ s) (currPeerPositions_ s) (recentPeerPositions_ s)
    (prevProposers_ s) (deadNodes_ s).
Definition set_firstRound_ (v : bool) (s : Consensus) : Consensus :=
  mkConsensus (phase_ s) (mode_ s) v (haveCloseTimeConsensus_ s) (convergePercent_ s)
    (openTime_ s) (closeResolution_ s) (prevRoundTime_ s) (now_ s) (prevCloseTime_ s)
    (prevLedgerID_ s) (previousLedger_ s) (acquired_ s) (result_ s) (rawCloseTimes_ s)
    (currPeerPositions_ s) (recentPeerPositions_ s) (prevProposers_ s) (deadNodes_ s).
Definition set_haveCloseTimeConsensus_ (v : bool) (s : Consensus) : Consensus :=
  mkConsensus (phase_ s) (mode_ s) (firstRound_ s) v (convergePercent_ s) (openTime_ s)
    (closeResolution_ s) (prevRoundTime_ s) (now_ s) (prevCloseTime_ s)
    (prevLedgerID_ s) (previousLedger_ s) (acquired_ s) (result_ s) (rawCloseTimes_ s)
    (currPeerPositions_ s) (recentPeerPositions_ s) (prevProposers_ s) (deadNodes_ s).
Definition set_convergePercent_ (v : Z) (s : Consensus) : Consensus :=
  mkConsensus (phase_ s) (mode_ s) (firstRound_ s) (haveCloseTimeConsensus_ s) v
    (openTime_ s) (closeResolution_ s) (prevRoundTime_ s) (now_ s) (prevCloseTime_ s)
    (prevLedgerID_ s) (previousLedger_ s) (acquired_ s) (result_ s) (rawCloseTimes_ s)
    (currPeerPositions_ s) (recentPeerPositions_ s) (prevProposers_ s) (deadNodes_ s).
Definition set_openTime_ (v : ConsensusTimer) (s : Consensus) : Consensus :=
  mkConsensus (phase_ s) (mode_ s) (firstRound_ s) (haveCloseTimeConsensus_ s)
    (convergePercent_ s) v (closeResolution_ s) (prevRoundTime_ s) (now_ s)
    (prevCloseTime_ s) (prevLedgerID_ s) (previousLedger_ s) (acquired_ s) (result_ s)
    (rawCloseTimes_ s) (currPeerPositions_ s) (recentPeerPositions_ s)
    (prevProposers_ s) (deadNodes_ s).
Definition set_closeResolution_ (v : Z) (s : Consensus) : Consensus :=
  mkConsensus (phase_ s) (mode_ s) (firstRound_ s) (haveCloseTimeConsensus_ s)
    (convergePercent_ s) (openTime_ s) v (prevRoundTime_ s) (now_ s) (prevCloseTime_ s)
    (prevLedgerID_ s) (previousLedger_ s) (acquired_ s) (result_ s) (rawCloseTimes_ s)
    (currPeerPositions_ s) (recentPeerPositions_ s) (prevProposers_ s) (deadNodes_ s).
Definition set_prevRoundTime_ (v : Z) (s : Consensus) : Consensus :=
  mkConsensus (phase_ s) (mode_ s) (firstRound_ s) (haveCloseTimeConsensus_ s)
    (convergePercent_ s) (openTime_ s) (closeResolution_ s) v (now_ s)
    (prevCloseTime_ s) (prevLedgerID_ s) (previousLedger_ s) (acquired_ s) (result_ s)
    (rawCloseTimes_ s) (currPeerPositions_ s) (recentPeerPositions_ s)
    (prevProposers_ s) (deadNodes_ s).
Definition set_now_ (v : Z) (s : Consensus) : Consensus :=
  mkConsensus (phase_ s) (mode_ s) (firstRound_ s) (haveCloseTimeConsensus_ s)
    (convergePercent_ s) (openTime_ s) (closeResolution_ s) (prevRoundTime_ s) v
    (prevCloseTime_ s) (prevLedgerID_ s) (previousLedger_ s) (acquired_ s) (result_ s)
    (rawCloseTimes_ s) (currPeerPositions_ s) (recentPeerPositions_ s)
    (prevProposers_ s) (deadNodes_ s).
Definition set_prevCloseTime_ (v : Z) (s : Consensus) : Consensus :=
  mkConsensus (phase_ s) (mode_ s) (firstRound_ s) (haveCloseTimeConsensus_ s)
    (convergePercent_ s) (openTime_ s) (closeResolution_ s) (prevRoundTime_ s) (now_ s)
    v (prevLedgerID_ s) (previousLedger_ s) (acquired_ s) (result_ s) (rawCloseTimes_ s)
    (currPeerPositions_ s) (recentPeerPositions_ s) (prevProposers_ s) (deadNodes_ s).
Definition set_prevLedgerID_ (v : LedgerID_t) (s : Consensus) : Consensus :=
  mkConsensus (phase_ s) (mode_ s) (firstRound_ s) (haveCloseTimeConsensus_ s)
    (convergePercent_ s) (openTime_ s) (closeResolution_ s) (prevRoundTime_ s) (now_ s)
    (prevCloseTime_ s) v (previousLedger_ s) (acquired_ s) (result_ s)
    (rawCloseTimes_ s) (currPeerPositions_ s) (recentPeerPositions_ s)
    (prevProposers_ s) (deadNodes_ s).
Definition set_previousLedger_ (v : Ledger_t) (s : Consensus) : Consensus :=
  mkConsensus (phase_ s) (mode_ s) (firstRound_ s) (haveCloseTimeConsensus_ s)
    (convergePercent_ s) (openTime_ s) (closeResolution_ s) (prevRoundTime_ s) (now_ s)
    (prevCloseTime_ s) (prevLedgerID_ s) v (acquired_ s) (result_ s) (rawCloseTimes_ s)
    (currPeerPositions_ s) (recentPeerPositions_ s) (prevProposers_ s) (deadNodes_ s).
Definition set_acquired_ (v : gmap TxSetID_t TxSet_t) (s : Consensus) : Consensus :=
  mkConsensus (phase_ s) (mode_ s) (firstRound_ s) (haveCloseTimeConsensus_ s)
    (convergePercent_ s) (openTime_ s) (closeResolution_ s) (prevRoundTime_ s) (now_ s)
    (prevCloseTime_ s) (prevLedgerID_ s) (previousLedger_ s) v (result_ s)
    (rawCloseTimes_ s) (currPeerPositions_ s) (recentPeerPositions_ s)
    (prevProposers_ s) (deadNodes_ s).
Definition set_result_ (v : option ConsensusResult) (s : Consensus) : Consensus :=
  mkConsensus (phase_ s) (mode_ s) (firstRound_ s) (haveCloseTimeConsensus_ s)
    (convergePercent_ s) (openTime_ s) (closeResolution_ s) (prevRoundTime_ s) (now_ s)
    (prevCloseTime_ s) (prevLedgerID_ s) (previousLedger_ s) (acquired_ s) v
    (rawCloseTimes_ s) (currPeerPositions_ s) (recentPeerPositions_ s)
    (prevProposers_ s) (deadNodes_ s).
Definition set_rawCloseTimes_ (v : ConsensusCloseTimes) (s : Consensus) : Consensus :=
  mkConsensus (phase_ s) (mode_ s) (firstRound_ s) (haveCloseTimeConsensus_ s)
    (convergePercent_ s) (openTime_ s) (closeResolution_ s) (prevRoundTime_ s) (now_ s)
    (prevCloseTime_ s) (prevLedgerID_ s) (previousLedger_ s) (acquired_ s) (result_ s) v
    (currPeerPositions_ s) (recentPeerPositions_ s) (prevProposers_ s) (deadNodes_ s).
Definition set_currPeerPositions_ (v : gmap NodeID_t PeerPosition_t) (s : Consensus) : Consensus :=
  mkConsensus (phase_ s) (mode_ s) (firstRound_ s) (haveCloseTimeConsensus_ s)
    (convergePercent_ s) (openTime_ s) (closeResolution_ s) (prevRoundTime_ s) (now_ s)
    (prevCloseTime_ s) (prevLedgerID_ s) (previousLedger_ s) (acquired_ s) (result_ s)
    (rawCloseTimes_ s) v (recentPeerPositions_ s) (prevProposers_ s) (deadNodes_ s).
Definition set_recentPeerPositions_ (v : gmap NodeID_t (list PeerPosition_t)) (s : Consensus) : Consensus :=
  mkConsensus (phase_ s) (mode_ s) (firstRound_ s) (haveCloseTimeConsensus_ s)
    (convergePercent_ s) (openTime_ s) (closeResolution_ s) (prevRoundTime_ s) (now_ s)
    (prevCloseTime_ s) (prevLedgerID_ s) (previousLedger_ s) (acquired_ s) (result_ s)
    (rawCloseTimes_ s) (currPeerPositions_ s) v (prevProposers_ s) (deadNodes_ s).
Definition set_prevProposers_ (v : Z) (s : Consensus) : Consensus :=
  mkConsensus (phase_ s) (mode_ s) (firstRound_ s) (haveCloseTimeConsensus_ s)
    (convergePercent_ s) (openTime_ s) (closeResolution_ s) (prevRoundTime_ s) (now_ s)
    (prevCloseTime_ s) (prevLedgerID_ s) (previousLedger_ s) (acquired_ s) (result_ s)
    (rawCloseTimes_ s) (currPeerPositions_ s) (recentPeerPositions_ s) v (deadNodes_ s).
Definition set_deadNodes_ (v : gset NodeID_t) (s : Consensus) : Consensus :=
  mkConsensus (phase_ s) (mode_ s) (firstRound_ s) (haveCloseTimeConsensus_ s)
    (convergePercent_ s) (openTime_ s) (closeResolution_ s) (prevRoundTime_ s) (now_ s)
    (prevCloseTime_ s) (prevLedgerID_ s) (previousLedger_ s) (acquired_ s) (result_ s)
    (rawCloseTimes_ s) (currPeerPositions_ s) (recentPeerPositions_ s)
    (prevProposers_ s) v.

(** ** The adaptor

    Its answers while one entry point runs, and the effects requested of it. *)

Record Env := mkEnv {
  parms : ConsensusParms;
  clock_now : Z; (* nanoseconds of the steady clock *)
  hasOpenTransactions : bool;
  proposersValidated : LedgerID_t → Z;
  proposersFinished : Ledger_t → LedgerID_t → Z;
  getPrevLedger : LedgerID_t → Ledger_t → ConsensusMode → LedgerID_t;
  acquireLedger : LedgerID_t → option Ledger_t;
  acquireTxSet : TxSetID_t → option TxSet_t;
  onClose : Ledger_t → Z → ConsensusMode → TxSet_t * Proposal_t;
  getValidLedgerIndex : Z;
  getQuorumKeys : Z * gset NodeKey_t;
  laggards : Z → gset NodeKey_t → Z * gset NodeKey_t;
  validator : bool;
  haveValidated : bool;
}.

Inductive event :=
  | OnModeChange (before after : ConsensusMode)
  | SharePosition (p : PeerPosition_t)
  | ShareTx (t : Tx_t)
  | ShareTxSet (t : TxSet_t)
  | Propose (p : Proposal_t)
  | UpdateOperatingMode (positions : Z)
  | OnAccept (r : ConsensusResult) (prev : Ledger_t) (closeResolution : Z)
      (raw : ConsensusCloseTimes) (mode : ConsensusMode)
  | OnForceAccept (r : ConsensusResult) (prev : Ledger_t) (closeResolution : Z)
      (raw : ConsensusCloseTimes) (mode : ConsensusMode).

Definition CM : Type → Type := M Consensus event.

(** [result_->], with its assertion. *)
Definition get_result : CM ConsensusResult :=
  s ← get; unwrap (result_ s) "result_".
Definition upd_result (f : ConsensusResult → ConsensusResult) : CM unit :=
  modify (λ s, set_result_ (f <$> result_ s) s).

(** [MonitoredMode::set]. *)
Definition set_mode (m : ConsensusMode) : CM unit :=
  s ← get;
  _ ← emit (OnModeChange (mode_ s) m);
  modify (set_mode_ m).

(** The constructor of [ConsensusResult]. *)
Definition ConsensusResult_ctor (s : TxSet_t) (p : Proposal_t) : CM ConsensusResult :=
  _ ← massert (bool_decide (set_id s = position p)) "txns.id() == position.position()";
  mret (mkResult s p ∅ ∅ (mkTimer 0 0) No 0).

Definition asCloseTime (raw : Z) (s : Consensus) : Z :=
  roundCloseTime raw (closeResolution_ s).

(** ** Disputes *)

(** The votes the known peer positions cast on a new dispute. *)
Definition initial_votes (s : Consensus) (txID : TxID_t)
    (d : DisputedTx Tx_t NodeID_t) : DisputedTx Tx_t NodeID_t :=
  foldl (λ d '(nodeId, peerPos),
           match acquired_ s !! position peerPos with
           | Some t => setVote nodeId (set_exists t txID) d
           | None => d
           end) d (hash_elems (currPeerPositions_ s)).

(** One iteration of the loop of [createDisputes]. *)
Definition createDispute (o : TxSet_t) (txId : TxID_t) (inThisSet : bool) : CM unit :=
  r ← get_result;
  let ours := set_find (txns r) txId in
  let theirs := set_find o txId in
  _ ← massert (if inThisSet then bool_decide (is_Some ours ∧ ¬ is_Some theirs)
               else bool_decide (¬ is_Some ours ∧ is_Some theirs)) "dispute side";
  tx ← unwrap (if inThisSet then ours else theirs) "tx";
  let txID := tx_id tx in
  match disputes r !! txID with
  | Some _ => mret tt
  | None =>
      s ← get;
      let dtx := initial_votes s txID
                   (DisputedTx_ctor tx (set_exists (txns r) txID)) in
      _ ← emit (ShareTx (tx_ dtx));
      upd_result (λ r, set_disputes (<[txID := dtx]> (disputes r)) r)
  end.

Definition createDisputes (o : TxSet_t) : CM unit :=
  r ← get_result;
  if bool_decide (set_id o ∈ compares r) then mret tt else
  _ ← upd_result (λ r, set_compares ({[set_id o]} ∪ compares r) r);
  if bool_decide (set_id (txns r) = set_id o) then mret tt else
  for_each (hash_elems (set_compare (txns r) o))
    (λ '(txId, inThisSet), createDispute o txId inThisSet).

Definition updateDisputes (node : NodeID_t) (other : TxSet_t) : CM unit :=
  r ← get_result;
  _ ← when (negb (bool_decide (set_id other ∈ compares r))) (createDisputes other);
  upd_result (λ r, set_disputes
    ((λ d, setVote node (set_exists other (tx_id (tx_ d))) d) <$> disputes r) r).

Definition gotTxSet (now : Z) (txSet : TxSet_t) : CM unit :=
  s ← get;
  if bool_decide (phase_ s = accepted) then mret tt else
  _ ← modify (set_now_ now);
  let id := set_id txSet in
  match acquired_ s !! id with
  | Some _ => mret tt
  | None =>
      _ ← modify (λ s, set_acquired_ (<[id := txSet]> (acquired_ s)) s);
      match result_ s with
      | None => mret tt
      | Some r =>
          _ ← massert (negb (bool_decide (id = position (r_position r))))
                "id != result_->position.position()";
          for_each (hash_elems (currPeerPositions_ s))
            (λ '(nodeId, peerPos),
               when (bool_decide (position peerPos = id)) (updateDisputes nodeId txSet))
      end
  end.

(** ** Peer proposals *)

Section with_env.
Context (env : Env).

(** The last part of [peerProposalInternal]: votes of the proposed set. *)
Definition processPosition (newPeerProp : Proposal_t) : CM unit :=
  s ← get;
  match acquired_ s !! position newPeerProp with
  | None =>
      match acquireTxSet env (position newPeerProp) with
      | Some set => gotTxSet (now_ s) set
      | None => mret tt
      end
  | Some t =>
      if bool_decide (is_Some (result_ s)) then updateDisputes (nodeID newPeerProp) t
      else mret tt
  end.

Definition peerProposalInternal (now : Z) (newPeerPos : PeerPosition_t) : CM bool :=
  s ← get;
  if bool_decide (phase_ s = accepted) then mret false else
  _ ← modify (set_now_ now);
  let newPeerProp := newPeerPos in
  let peerID := nodeID newPeerProp in
  if negb (bool_decide (previousLedger newPeerProp = prevLedgerID_ s)) then mret false else
  if bool_decide (peerID ∈ deadNodes_ s) then mret false else
  let peerPosIt := currPeerPositions_ s !! peerID in
  if match peerPosIt with
     | Some old => proposeSeq newPeerProp <=? proposeSeq old
     | None => false
     end then mret false else
  if isBowOut newPeerProp then
    _ ← upd_result (λ r, set_disputes (unVote peerID <$> disputes r) r);
    _ ← modify (λ s, set_currPeerPositions_ (delete peerID (currPeerPositions_ s)) s);
    _ ← modify (λ s, set_deadNodes_ ({[peerID]} ∪ deadNodes_ s) s);
    mret true
  else
  _ ← modify (λ s, set_currPeerPositions_
                     (<[peerID := newPeerPos]> (currPeerPositions_ s)) s);
  _ ← when (isInitial newPeerProp)
        (modify (λ s, let raw := rawCloseTimes_ s in
           set_rawCloseTimes_ (mkCloseTimes
             (<[closeTime newPeerProp :=
                  default 0 (ct_peers raw !! closeTime newPeerProp) + 1]> (ct_peers raw))
             (ct_self raw)) s));
  _ ← processPosition newPeerProp;
  mret true.

Definition peerProposal (now : Z) (newPeerPos : PeerPosition_t) : CM bool :=
  let peerID := nodeID newPeerPos in
  _ ← modify (λ s,
        let props := default [] (recentPeerPositions_ s !! peerID) in
        let props := if (10 <=? length props)%nat then tail props else props in
        set_recentPeerPositions_
          (<[peerID := props ++ [newPeerPos]]> (recentPeerPositions_ s)) s);
  peerProposalInternal now newPeerPos.

Definition playbackProposals : CM unit :=
  s ← get;
  for_each (hash_elems (recentPeerPositions_ s))
    (λ '(_, props), for_each props
      (λ pos,
         s ← get;
         if bool_decide (previousLedger pos = prevLedgerID_ s) then
           b ← peerProposalInternal (now_ s) pos;
           when b (emit (SharePosition pos))
         else mret tt)).

(** ** Leaving and closing *)

Definition leaveConsensus : CM unit :=
  s ← get;
  if bool_decide (mode_ s = proposing) then
    _ ← match result_ s with
        | Some r =>
            if isBowOut (r_position r) then mret tt
            else
              _ ← upd_result (λ r, set_r_position (bowOut (now_ s) (r_position r)) r);
              r ← get_result;
              emit (Propose (r_position r))
        | None => mret tt
        end;
    set_mode observing
  else mret tt.

Definition closeLedger : CM unit :=
  s ← get;
  _ ← massert (bool_decide (result_ s = None)) "!result_";
  _ ← modify (λ s, set_phase_ establish s);
  _ ← modify (λ s, set_rawCloseTimes_ (mkCloseTimes (ct_peers (rawCloseTimes_ s)) (now_ s)) s);
  let '(set, pos) := onClose env (previousLedger_ s) (now_ s) (mode_ s) in
  r ← ConsensusResult_ctor set pos;
  let r := set_roundTime (timer_reset (clock_now env) (roundTime r)) r in
  _ ← modify (set_result_ (Some r));
  _ ← match acquired_ s !! set_id (txns r) with
      | Some _ => mret tt
      | None =>
          _ ← modify (λ s, set_acquired_ (<[set_id (txns r) := txns r]> (acquired_ s)) s);
          emit (ShareTxSet (txns r))
      end;
  _ ← when (bool_decide (mode_ s = proposing)) (emit (Propose (r_position r)));
  for_each (hash_elems (currPeerPositions_ s))
    (λ '(_, pit),
       s ← get;
       match acquired_ s !! position pit with
       | Some t => createDisputes t
       | None => mret tt
       end).

(** Time since the close of the previous ledger, in milliseconds. *)
Definition sinceClose (s : Consensus) : Z :=
  let prev := previousLedger_ s in
  let previousCloseCorrect :=
    negb (bool_decide (mode_ s = wrongLedger)) && closeAgree prev
    && negb (ledger_closeTime prev =? parentCloseTime prev + 1) in
  let lastCloseTime :=
    if previousCloseCorrect then ledger_closeTime prev else prevCloseTime_ s in
  if lastCloseTime <=? now_ s then (now_ s - lastCloseTime) * 1000
  else - ((lastCloseTime - now_ s) * 1000).

Definition phaseOpen : CM unit :=
  _ ← modify (λ s, set_openTime_ (timer_tick (clock_now env) (openTime_ s)) s);
  s ← get;
  let idleInterval := Z.max (ledgerIDLE_INTERVAL (parms env))
                        (u32 (2 * closeTimeResolution (previousLedger_ s)) * 1000) in
  when (shouldCloseLedger (hasOpenTransactions env) (prevProposers_ s)
          (Z.of_nat (size (currPeerPositions_ s)))
          (proposersValidated env (prevLedgerID_ s)) (prevRoundTime_ s)
          (sinceClose s) (timer_read (openTime_ s)) idleInterval (parms env))
    closeLedger.

(** ** Waiting for laggards

    The comparison of ratios is done in single precision, as in the source. *)

Definition f32 (z : Z) : spec_float := binary_normalize 24 128 z 0 false.
Definition f32_div : spec_float → spec_float → spec_float := SFdiv 24 128.
Definition f32_add : spec_float → spec_float → spec_float := SFadd 24 128.
Definition f32_sub : spec_float → spec_float → spec_float := SFsub 24 128.
Definition f32_mul : spec_float → spec_float → spec_float := SFmul 24 128.

Definition maxPausePhase : Z := 4.

(** The [switch] on the pause phase. *)
Definition pauseInPhase (phase laggards offline totalValidators quorum : Z) : bool :=
  if phase =? 0 then u64 (totalValidators - quorum) <? u64 (laggards + offline)
  else if phase =? maxPausePhase then true
  else
    let nonLaggards := f32 (u64 (totalValidators - u64 (laggards + offline))) in
    let quorumRatio := f32_div (f32 quorum) (f32 totalValidators) in
    let allowedDissent := f32_sub (f32 1) quorumRatio in
    let phaseFactor := f32_div (f32 phase) (f32 maxPausePhase) in
    SFltb (f32_div nonLaggards (f32 totalValidators))
      (f32_add quorumRatio (f32_mul allowedDissent phaseFactor)).

Definition shouldPause : CM bool :=
  s ← get;
  r ← get_result;
  let seq := ledger_seq (previousLedger_ s) in
  let ahead := u32 (seq - Z.min (getValidLedgerIndex env) seq) in
  let '(quorum, trustedKeys) := getQuorumKeys env in
  let totalValidators := Z.of_nat (size trustedKeys) in
  let '(lag, remaining) := laggards env seq trustedKeys in
  let offline := Z.of_nat (size remaining) in
  if (ahead =? 0) || (lag =? 0) || (totalValidators =? 0) || negb (validator env)
     || negb (haveValidated env)
     || (ledgerMAX_CONSENSUS (parms env) <? timer_read (roundTime r))
  then mret false
  else mret (pauseInPhase ((ahead - 1) mod (maxPausePhase + 1)) lag offline
               totalValidators quorum).

(** ** Updating our position *)

(** Drop stale peer positions; collect the close time votes of the others. *)
Fixpoint removeStaleLoop (peerCutoff : Z) (l : list (NodeID_t * PeerPosition_t))
    (closeTimeVotes : gmap Z Z) : CM (gmap Z Z) :=
  match l with
  | [] => mret closeTimeVotes
  | (it, peerProp) :: l =>
      if isStale peerCutoff peerProp then
        let peerID := nodeID peerProp in
        _ ← upd_result (λ r, set_disputes (unVote peerID <$> disputes r) r);
        _ ← modify (λ s, set_currPeerPositions_ (delete it (currPeerPositions_ s)) s);
        removeStaleLoop peerCutoff l closeTimeVotes
      else
        s ← get;
        let t := asCloseTime (closeTime peerProp) s in
        removeStaleLoop peerCutoff l
          (<[t := default 0 (closeTimeVotes !! t) + 1]> closeTimeVotes)
  end.

Definition removeStalePositions (peerCutoff : Z) : CM (gmap Z Z) :=
  s ← get;
  removeStaleLoop peerCutoff (hash_elems (currPeerPositions_ s)) ∅.

(** One dispute of the loop that moves our votes: the disputes, and the
    mutable copy of our set once some vote has changed. *)
Definition updateDisputeStep (s : Consensus) (ours : TxSet_t)
    (acc : gmap TxID_t (DisputedTx Tx_t NodeID_t) * option TxSet_t)
    (it : TxID_t * DisputedTx Tx_t NodeID_t) :
    gmap TxID_t (DisputedTx Tx_t NodeID_t) * option TxSet_t :=
  let '(dispute, changed) :=
    updateVote (convergePercent_ s) (bool_decide (mode_ s = proposing))
      (parms env) it.2 in
  (<[it.1 := dispute]> acc.1,
   if (changed : bool) then
     let mutableSet := default ours acc.2 in
     Some (if ourVote_ dispute then set_insert (tx_ dispute) mutableSet
           else set_erase it.1 mutableSet)
   else acc.2).

(** Move our votes; the new transaction set, when any vote changed. *)
Definition updateDisputeVotes : CM (option TxSet_t) :=
  s ← get;
  r ← get_result;
  let '(ds, ourNewSet) :=
    foldl (updateDisputeStep s (txns r)) (disputes r, None) (hash_elems (disputes r)) in
  _ ← upd_result (set_disputes ds);
  mret ourNewSet.

(** The loop over the close time votes, in increasing order of time. *)
Fixpoint closeTimeScan (votes : list (Z * Z)) (threshVote threshConsensus : Z)
    (consensusCloseTime : Z) (have : bool) : Z * bool :=
  match votes with
  | [] => (consensusCloseTime, have)
  | (t, v) :: votes =>
      if threshVote <=? v
      then closeTimeScan votes v threshConsensus t (have || (threshConsensus <=? v))
      else closeTimeScan votes threshVote threshConsensus consensusCloseTime have
  end.

(** The close time to adopt, and whether there is consensus on it. *)
Definition closeTimeConsensus (s : Consensus) (r : ConsensusResult)
    (closeTimeVotes : gmap Z Z) : Z * bool :=
  let ourTime := asCloseTime (closeTime (r_position r)) s in
  if bool_decide (currPeerPositions_ s = ∅) then (ourTime, true)
  else
    let neededWeight := avalanche_pct (convergePercent_ s) (parms env) in
    let participants := Z.of_nat (size (currPeerPositions_ s)) in
    let prop := bool_decide (mode_ s = proposing) in
    let votes := if prop
      then <[ourTime := default 0 (closeTimeVotes !! ourTime) + 1]> closeTimeVotes
      else closeTimeVotes in
    let participants := if prop then participants + 1 else participants in
    closeTimeScan (map_sorted votes) (participantsNeeded participants neededWeight)
      (participantsNeeded participants (avCT_CONSENSUS_PCT (parms env))) 0 false.

(** Adopt a new set and close time, and tell the peers. *)
Definition adoptPosition (ourNewSet : TxSet_t) (consensusCloseTime : Z) : CM unit :=
  let newID := set_id ourNewSet in
  s ← get;
  _ ← upd_result (set_txns ourNewSet);
  _ ← upd_result (λ r, set_r_position
        (changePosition newID consensusCloseTime (now_ s) (r_position r)) r);
  r ← get_result;
  _ ← match acquired_ s !! newID with
      | Some _ => mret tt
      | None =>
          _ ← modify (λ s, set_acquired_ (<[newID := ourNewSet]> (acquired_ s)) s);
          _ ← when (negb (isBowOut (r_position r))) (emit (ShareTxSet ourNewSet));
          for_each (hash_elems (currPeerPositions_ s))
            (λ '(nodeId, p), when (bool_decide (position p = newID))
                               (updateDisputes nodeId ourNewSet))
      end;
  when (negb (isBowOut (r_position r)) && bool_decide (mode_ s = proposing))
    (emit (Propose (r_position r))).

Definition updateOurPositions : CM unit :=
  _ ← get_result;
  s ← get;
  let peerCutoff := u32 (now_ s - proposeFRESHNESS (parms env)) in
  let ourCutoff := u32 (now_ s - proposeINTERVAL (parms env)) in
  closeTimeVotes ← removeStalePositions peerCutoff;
  ourNewSet ← updateDisputeVotes;
  s ← get;
  r ← get_result;
  let '(consensusCloseTime, have) := closeTimeConsensus s r closeTimeVotes in
  _ ← modify (set_haveCloseTimeConsensus_ have);
  let ourNewSet :=
    match ourNewSet with
    | Some set => Some set
    | None =>
        if negb (consensusCloseTime =? asCloseTime (closeTime (r_position r)) s)
           || isStale ourCutoff (r_position r)
        then Some (txns r) else None
    end in
  match ourNewSet with
  | Some set => adoptPosition set consensusCloseTime
  | None => mret tt
  end.

Definition haveConsensus : CM bool :=
  r ← get_result;
  s ← get;
  let ourPosition := position (r_position r) in
  let agrees := λ kv : NodeID_t * PeerPosition_t, bool_decide (position kv.2 = ourPosition) in
  let peers := hash_elems (currPeerPositions_ s) in
  let agree := Z.of_nat (length (filter (λ kv, agrees kv = true) peers)) in
  let disagree := Z.of_nat (length (filter (λ kv, agrees kv = false) peers)) in
  let currentFinished := proposersFinished env (previousLedger_ s) (prevLedgerID_ s) in
  let st := checkConsensus (prevProposers_ s) (agree + disagree) agree currentFinished
              (prevRoundTime_ s) (timer_read (roundTime r)) (parms env)
              (bool_decide (mode_ s = proposing)) in
  _ ← upd_result (set_r_state st);
  mret (negb (bool_decide (st = No))).

Definition phaseEstablish : CM unit :=
  _ ← get_result;
  _ ← upd_result (λ r, set_roundTime (timer_tick (clock_now env) (roundTime r)) r);
  s ← get;
  _ ← upd_result (set_proposers (Z.of_nat (size (currPeerPositions_ s))));
  r ← get_result;
  _ ← modify (set_convergePercent_
        (i32 (Z.quot (timer_read (roundTime r) * 100)
                (Z.max (prevRoundTime_ s) (avMIN_CONSENSUS_TIME (parms env))))));
  if timer_read (roundTime r) <? ledgerMIN_CONSENSUS (parms env) then mret tt else
  _ ← updateOurPositions;
  pause ← shouldPause;
  if (pause : bool) then mret tt else
  have ← haveConsensus;
  if negb have then mret tt else
  s ← get;
  if negb (haveCloseTimeConsensus_ s) then mret tt else
  let n := Z.of_nat (size (currPeerPositions_ s)) in
  _ ← emit (UpdateOperatingMode n);
  r ← get_result;
  _ ← modify (set_prevProposers_ n);
  _ ← modify (set_prevRoundTime_ (timer_read (roundTime r)));
  _ ← modify (set_phase_ accepted);
  emit (OnAccept r (previousLedger_ s) (closeResolution_ s) (rawCloseTimes_ s) (mode_ s)).

(** ** Rounds

    [startRoundInternal], [timerEntry], [checkLedger] and [handleWrongLedger]
    call each other; the recursion goes through [startRoundInternal], which
    takes fuel, and the other three take it as an argument. *)

Definition round_fn : Type := Z → LedgerID_t → Ledger_t → ConsensusMode → CM unit.

Definition handleWrongLedger (startRoundInternal : round_fn) (lgrId : LedgerID_t) : CM unit :=
  s ← get;
  _ ← massert (bool_decide (lgrId ≠ prevLedgerID_ s
                 ∨ ledger_id (previousLedger_ s) ≠ lgrId)) "lgrId";
  _ ← leaveConsensus;
  _ ← (if bool_decide (prevLedgerID_ s ≠ lgrId) then
         _ ← modify (set_prevLedgerID_ lgrId);
         _ ← upd_result (λ r, set_compares ∅ (set_disputes ∅ r));
         _ ← modify (set_currPeerPositions_ ∅);
         _ ← modify (λ s, set_rawCloseTimes_ (mkCloseTimes ∅ (ct_self (rawCloseTimes_ s))) s);
         _ ← modify (set_deadNodes_ ∅);
         playbackProposals
       else mret tt);
  s ← get;
  if bool_decide (ledger_id (previousLedger_ s) = prevLedgerID_ s) then mret tt else
  match acquireLedger env (prevLedgerID_ s) with
  | Some newLedger => startRoundInternal (now_ s) lgrId newLedger switchedLedger
  | None => set_mode wrongLedger
  end.

Definition checkLedger (startRoundInternal : round_fn) : CM unit :=
  s ← get;
  let netLgr := getPrevLedger env (prevLedgerID_ s) (previousLedger_ s) (mode_ s) in
  if bool_decide (netLgr ≠ prevLedgerID_ s) then handleWrongLedger startRoundInternal netLgr
  else if bool_decide (ledger_id (previousLedger_ s) ≠ prevLedgerID_ s)
  then handleWrongLedger startRoundInternal netLgr
  else mret tt.

Definition timerEntry_with (startRoundInternal : round_fn) (now : Z) : CM unit :=
  s ← get;
  if bool_decide (phase_ s = accepted) then mret tt else
  _ ← modify (set_now_ now);
  _ ← checkLedger startRoundInternal;
  s ← get;
  match phase_ s with
  | open => phaseOpen
  | establish => phaseEstablish
  | accepted => mret tt
  end.

(** The state a round starts from, before the proposals are played back. *)
Definition resetRound (now : Z) (prevLedgerID : LedgerID_t) (prevLedger : Ledger_t)
    (s : Consensus) : Consensus :=
  set_deadNodes_ ∅
    (set_rawCloseTimes_ (mkCloseTimes ∅ 0)
      (set_acquired_ ∅
        (set_currPeerPositions_ ∅
          (set_openTime_ (timer_reset (clock_now env) (openTime_ s))
            (set_haveCloseTimeConsensus_ false
              (set_convergePercent_ 0
                (set_result_ None
                  (set_previousLedger_ prevLedger
                    (set_prevLedgerID_ prevLedgerID (set_now_ now s)))))))))).

Fixpoint startRoundInternal (fuel : nat) (now : Z) (prevLedgerID : LedgerID_t)
    (prevLedger : Ledger_t) (mode : ConsensusMode) : CM unit :=
  match fuel with
  | O => λ _, OutOfFuel
  | S fuel =>
      _ ← modify (set_phase_ open);
      _ ← set_mode mode;
      _ ← modify (resetRound now prevLedgerID prevLedger);
      let seq := u32 (ledger_seq prevLedger + 1) in
      _ ← massert (getNextLedgerTimeResolution_asserts
                     (closeTimeResolution prevLedger) seq) "getNextLedgerTimeResolution";
      _ ← modify (set_closeResolution_ (getNextLedgerTimeResolution
                     (closeTimeResolution prevLedger) (closeAgree prevLedger) seq));
      _ ← playbackProposals;
      s ← get;
      when (prevProposers_ s / 2 <? Z.of_nat (size (currPeerPositions_ s)))
        (timerEntry_with (startRoundInternal fuel) (now_ s))
  end.

Definition timerEntry (fuel : nat) (now : Z) : CM unit :=
  timerEntry_with (startRoundInternal fuel) now.

Definition startRound (fuel : nat) (now : Z) (prevLedgerID : LedgerID_t)
    (prevLedger : Ledger_t) (nowUntrusted : gset NodeID_t) (prop : bool) : CM unit :=
  s ← get;
  _ ← (if firstRound_ s then
         _ ← modify (set_prevRoundTime_ (ledgerIDLE_INTERVAL (parms env)));
         _ ← modify (set_prevCloseTime_ (ledger_closeTime prevLedger));
         modify (set_firstRound_ false)
       else modify (λ s, set_prevCloseTime_ (ct_self (rawCloseTimes_ s)) s));
  _ ← modify (λ s, set_recentPeerPositions_
        (filter (λ kv, kv.1 ∉ nowUntrusted) (recentPeerPositions_ s)) s);
  let startMode := if prop then proposing else observing in
  if bool_decide (ledger_id prevLedger ≠ prevLedgerID) then
    match acquireLedger env prevLedgerID with
    | Some newLedger => startRoundInternal fuel now prevLedgerID newLedger startMode
    | None => startRoundInternal fuel now prevLedgerID prevLedger wrongLedger
    end
  else startRoundInternal fuel now prevLedgerID prevLedger startMode.

Definition simulate (now : Z) (consensusDelay : option Z) : CM unit :=
  _ ← modify (set_now_ now);
  _ ← closeLedger;
  _ ← upd_result (λ r, set_roundTime
        (timer_tick_fixed (default 100 consensusDelay) (roundTime r)) r);
  s ← get;
  let n := Z.of_nat (size (currPeerPositions_ s)) in
  _ ← modify (set_prevProposers_ n);
  _ ← upd_result (set_proposers n);
  r ← get_result;
  _ ← modify (set_prevRoundTime_ (timer_read (roundTime r)));
  _ ← modify (set_phase_ accepted);
  emit (OnForceAccept r (previousLedger_ s) (closeResolution_ s) (rawCloseTimes_ s) (mode_ s)).

End with_env.
End engine.
