(* ===== verification/EngineInv.v ===== *)
(** * The invariant of the consensus state machine *)
From S2P Require Import Prelude Timing Thresholds Dispute Proposal Engine.

Section engine_inv.
Context `{Traits}.

(** ** What the state means

    [XV] and [XC] are peers whose votes, respectively whose comparison, are
    still to be brought up to date; [pend] are differences whose dispute is
    still to be created.  All are empty between calls. *)
Record disputes_inv (acq : gmap TxSetID_t TxSet_t) (cur : gmap NodeID_t PeerPosition_t)
    (XV XC : gset NodeID_t) (pend : TxSetID_t → TxID_t → Prop)
    (r : ConsensusResult) : Prop := {
  di_wf : ∀ k d, disputes r !! k = Some d → dispute_wf d ∧ tx_id (tx_ d) = k;
  di_our : ∀ k d, disputes r !! k = Some d → ourVote_ d = set_exists (txns r) k;
  di_dom : ∀ k d n b, disputes r !! k = Some d → votes_ d !! n = Some b →
    is_Some (cur !! n);
  di_vote : ∀ k d n p t, disputes r !! k = Some d → n ∉ XV → cur !! n = Some p →
    acq !! position p = Some t → votes_ d !! n = Some (set_exists t k);
  di_complete : ∀ i t k, i ∈ compares r → acq !! i = Some t →
    set_exists (txns r) k ≠ set_exists t k → pend i k ∨ is_Some (disputes r !! k);
  di_compared : ∀ n p, n ∉ XC → cur !! n = Some p → is_Some (acq !! position p) →
    position p ∈ compares r;
  di_known : ∀ i, i ∈ compares r → is_Some (acq !! i);
}.

Definition no_pend : TxSetID_t → TxID_t → Prop := λ _ _, False.

(** Our position names our set, and the set is among the acquired ones. *)
Definition position_inv (acq : gmap TxSetID_t TxSet_t) (r : ConsensusResult) : Prop :=
  set_id (txns r) = position (r_position r) ∧ is_Some (acq !! set_id (txns r)).

Record inv_base (s : Consensus) : Prop := {
  inv_phase : match phase_ s with
              | open => result_ s = None
              | establish => is_Some (result_ s)
              | accepted => True
              end;
  inv_acquired : ∀ i t, acquired_ s !! i = Some t → set_id t = i;
  inv_peers : ∀ n p, currPeerPositions_ s !! n = Some p →
    nodeID p = n ∧ previousLedger p = prevLedgerID_ s ∧ isBowOut p = false ∧
    n ∉ deadNodes_ s;
  inv_recent : ∀ n ps, recentPeerPositions_ s !! n = Some ps →
    (length ps ≤ 10)%nat ∧ Forall (λ p, nodeID p = n) ps;
}.

Definition inv_result (XV XC : gset NodeID_t) (s : Consensus) : Prop :=
  ∀ r, result_ s = Some r →
    position_inv (acquired_ s) r ∧
    disputes_inv (acquired_ s) (currPeerPositions_ s) XV XC no_pend r.

Definition inv (s : Consensus) : Prop := inv_base s ∧ inv_result ∅ ∅ s.

(** The fields the invariant looks at. *)
Lemma inv_ext s s' :
  inv s → phase_ s' = phase_ s → acquired_ s' = acquired_ s →
  currPeerPositions_ s' = currPeerPositions_ s → prevLedgerID_ s' = prevLedgerID_ s →
  deadNodes_ s' = deadNodes_ s → recentPeerPositions_ s' = recentPeerPositions_ s →
  result_ s' = result_ s → inv s'.
Proof.
  intros [[] Hres] H1 H2 H3 H4 H5 H6 H7. split.
  - split; rewrite ?H1, ?H2, ?H3, ?H4, ?H5, ?H6, ?H7; done.
  - intros r. rewrite H7, H2, H3. apply Hres.
Qed.

(** What a call leaves alone while it records peer positions. *)
Definition frame (s s' : Consensus) : Prop :=
  phase_ s' = phase_ s ∧ mode_ s' = mode_ s ∧ prevLedgerID_ s' = prevLedgerID_ s ∧
  previousLedger_ s' = previousLedger_ s ∧
  recentPeerPositions_ s' = recentPeerPositions_ s ∧
  closeResolution_ s' = closeResolution_ s ∧ prevProposers_ s' = prevProposers_ s ∧
  prevRoundTime_ s' = prevRoundTime_ s ∧ firstRound_ s' = firstRound_ s.

#[export] Instance frame_preorder : PreOrder frame.
Proof.
  split; [by intros s|]. unfold frame. intros s1 s2 s3 H1 H2.
  destruct_and!. split_and!; congruence.
Qed.

(** The parts of a result that the dispute bookkeeping leaves alone. *)
Definition result_frame (r r' : ConsensusResult) : Prop :=
  r' = set_disputes (disputes r') (set_compares (compares r') r).

Lemma result_frame_refl r : result_frame r r.
Proof. by destruct r. Qed.

Lemma result_frame_trans r1 r2 r3 :
  result_frame r1 r2 → result_frame r2 r3 → result_frame r1 r3.
Proof. unfold result_frame. destruct r1, r2, r3; simpl. intros [=] [=]; by subst. Qed.

Lemma result_frame_txns r r' : result_frame r r' → txns r' = txns r.
Proof. by intros ->. Qed.
Lemma result_frame_position r r' : result_frame r r' → r_position r' = r_position r.
Proof. by intros ->. Qed.

Lemma position_inv_frame acq r r' :
  result_frame r r' → position_inv acq r → position_inv acq r'.
Proof.
  intros Hf. unfold position_inv.
  by rewrite (result_frame_txns _ _ Hf), (result_frame_position _ _ Hf).
Qed.

Lemma wp_get_result tot s r Q : result_ s = Some r → Q r s [] → wp tot get_result Q s.
Proof. intros Hr HQ. unfold get_result. wp_steps. by eapply wp_unwrap. Qed.

Lemma wp_upd_result tot f s r (Q : unit → Consensus → list event → Prop) :
  result_ s = Some r → Q tt (set_result_ (Some (f r)) s) [] → wp tot (upd_result f) Q s.
Proof. intros Hr HQ. unfold upd_result. wp_step. by rewrite Hr. Qed.

Context `{!TraitsLaws}.

(** ** Creating disputes *)

Lemma initial_votes_spec s k d :
  let d' := initial_votes s k d in
  (dispute_wf d → dispute_wf d') ∧ tx_ d' = tx_ d ∧ ourVote_ d' = ourVote_ d.
Proof.
  unfold initial_votes. generalize (hash_elems (currPeerPositions_ s)) as l.
  intros l; revert d. induction l as [|[n p] l IH]; intros d; [done|]. simpl.
  destruct (acquired_ s !! position p) as [t|]; [|apply IH].
  destruct (IH (setVote n (set_exists t k) d)) as (Hwf & Htx & Hv).
  autorewrite with dispute in Htx, Hv. simpl. auto with dispute.
Qed.

Lemma initial_votes_lookup s k d n :
  votes_ d = ∅ →
  votes_ (initial_votes s k d) !! n =
    (p ← currPeerPositions_ s !! n; t ← acquired_ s !! position p;
     Some (set_exists t k)).
Proof.
  intros Hd. unfold initial_votes.
  pose proof (NoDup_hash_elems (currPeerPositions_ s)) as Hnd.
  pose proof (elem_of_hash_elems (currPeerPositions_ s)) as Hin.
  revert Hnd Hin. generalize (hash_elems (currPeerPositions_ s)) as l.
  intros l Hnd Hin.
  assert (∀ d : DisputedTx Tx_t NodeID_t, votes_ (foldl (λ d '(nodeId, peerPos),
            match acquired_ s !! position peerPos with
            | Some t => setVote nodeId (set_exists t k) d
            | None => d
            end) d l) !! n =
          match (p ← (list_to_map l : gmap NodeID_t PeerPosition_t) !! n; t ← acquired_ s !! position p;
                 Some (set_exists t k)) with
          | Some b => Some b | None => votes_ d !! n end) as Hgen.
  { clear Hd Hin d. induction l as [|[m p] l IH]; intros d; [done|].
    simpl in Hnd. apply NoDup_cons in Hnd as [Hm Hnd]. simpl. rewrite IH by done.
    destruct (decide (m = n)) as [->|Hne].
    - rewrite lookup_insert_eq. rewrite not_elem_of_list_to_map_1 by done. simpl.
      destruct (acquired_ s !! position p) as [t|]; simpl; [|done].
      by rewrite setVote_lookup, lookup_insert_eq.
    - rewrite lookup_insert_ne by done.
      destruct (acquired_ s !! position p) as [t|]; [|done].
      by rewrite setVote_lookup, lookup_insert_ne. }
  rewrite Hgen, Hd, lookup_empty.
  assert ((list_to_map l : gmap NodeID_t PeerPosition_t) !! n = currPeerPositions_ s !! n) as ->.
  { destruct (currPeerPositions_ s !! n) as [p|] eqn:E.
    - apply elem_of_list_to_map; [done|]. by apply Hin.
    - apply not_elem_of_list_to_map. intros ([n' p'] & -> & Hp)%list_elem_of_fmap.
      apply Hin in Hp. simpl in *. congruence. }
  destruct (currPeerPositions_ s !! n) as [p|]; simpl; [|done].
  by destruct (acquired_ s !! position p).
Qed.

Lemma set_result_same s r : result_ s = Some r → set_result_ (Some r) s = s.
Proof. destruct s; simpl. by intros ->. Qed.

Lemma set_result_twice a b s : set_result_ a (set_result_ b s) = set_result_ a s.
Proof. done. Qed.

(** What the dispute bookkeeping may do: only the disputes and the compared
    sets of the result change, and compared sets are not forgotten. *)
Definition books (s : Consensus) (r : ConsensusResult) (s' : Consensus)
    (r' : ConsensusResult) : Prop :=
  s' = set_result_ (Some r') s ∧ result_frame r r' ∧ compares r ⊆ compares r'.

Lemma books_refl s r : result_ s = Some r → books s r s r.
Proof.
  intros Hr. split; [by rewrite set_result_same|].
  split; [apply result_frame_refl|done].
Qed.

Lemma books_trans s1 r1 s2 r2 s3 r3 :
  books s1 r1 s2 r2 → books s2 r2 s3 r3 → books s1 r1 s3 r3.
Proof.
  intros (-> & Hf1 & Hc1) (-> & Hf2 & Hc2).
  split; [by rewrite set_result_twice|].
  split; [by eapply result_frame_trans|set_solver].
Qed.

Lemma createDispute_wp tot o k b s r XV XC pend :
  result_ s = Some r →
  disputes_inv (acquired_ s) (currPeerPositions_ s) XV XC pend r →
  set_exists (txns r) k ≠ set_exists o k → b = set_exists (txns r) k →
  wp tot (createDispute o k b)
    (λ _ s' _, ∃ r', books s r s' r' ∧
       disputes_inv (acquired_ s) (currPeerPositions_ s) XV XC
         (λ i k', pend i k' ∧ k' ≠ k) r') s.
Proof.
  intros Hr Hinv Hdiff ->. unfold createDispute.
  wp_step. eapply wp_get_result; [done|]. wp_step.
  assert (∃ tx, (if set_exists (txns r) k then set_find (txns r) k else set_find o k)
            = Some tx ∧ tx_id tx = k ∧
          (if set_exists (txns r) k
           then bool_decide (is_Some (set_find (txns r) k) ∧ ¬ is_Some (set_find o k))
           else bool_decide (¬ is_Some (set_find (txns r) k) ∧ is_Some (set_find o k)))
          = true) as (tx & Htx & Hid & Hside).
  { destruct (set_exists (txns r) k) eqn:E1, (set_exists o k) eqn:E2; try done.
    - destruct (set_find_exists _ _ E1) as (tx & Htx & Hid).
      rewrite (set_find_absent _ _ E2), Htx. exists tx. split_and!; [done..|].
      apply bool_decide_eq_true. split; [eauto|by intros [??]].
    - destruct (set_find_exists _ _ E2) as (tx & Htx & Hid).
      rewrite (set_find_absent _ _ E1), Htx. exists tx. split_and!; [done..|].
      apply bool_decide_eq_true. split; [by intros [??]|eauto]. }
  apply wp_massert; [done|]. wp_step.
  eapply wp_unwrap; [done|]. rewrite Hid.
  destruct (disputes r !! k) as [d|] eqn:Hk.
  { wp_step. exists r. split; [by apply books_refl|].
    destruct Hinv. split; try done.
    intros i t k' Hi Ht Hne. destruct (di_complete0 i t k' Hi Ht Hne) as [Hp|Hd]; [|auto].
    destruct (decide (k' = k)) as [->|]; [right; eauto|auto]. }
  wp_steps. set (dtx := initial_votes _ _ _).
  destruct (initial_votes_spec s k (DisputedTx_ctor tx (set_exists (txns r) k)))
    as (Hwf & Htxd & Hour). fold dtx in Hwf, Htxd, Hour.
  eapply wp_upd_result; [done|]. eexists. split; [split; [reflexivity|split; [by destruct r|done]]|].
  pose proof (λ n, initial_votes_lookup s k
    (DisputedTx_ctor tx (set_exists (txns r) k)) n eq_refl) as Hvotes. fold dtx in Hvotes.
  destruct Hinv. split; simpl.
  - intros k' d'. rewrite lookup_insert_Some. intros [[<- <-]|[Hne Hd']].
    + split; [apply Hwf, ctor_wf|]. by rewrite Htxd.
    + by apply di_wf0.
  - intros k' d'. rewrite lookup_insert_Some. intros [[<- <-]|[Hne Hd']]; [done|].
    by apply di_our0.
  - intros k' d' n b. rewrite lookup_insert_Some. intros [[<- <-]|[Hne Hd']].
    + rewrite Hvotes. destruct (currPeerPositions_ s !! n); [eauto|done].
    + by apply (di_dom0 k' d').
  - intros k' d' n p t. rewrite lookup_insert_Some. intros [[<- <-]|[Hne Hd']] HX Hp Ht.
    + by rewrite Hvotes, Hp; simpl; rewrite Ht.
    + by eapply di_vote0.
  - intros i t k' Hi Ht Hne.
    destruct (decide (k' = k)) as [->|Hk']; [right; rewrite lookup_insert_eq; eauto|].
    rewrite lookup_insert_ne by done.
    destruct (di_complete0 i t k' Hi Ht Hne) as [|]; [left|right]; auto.
  - done.
  - done.
Qed.

Lemma createDisputes_wp tot o s r XV XC :
  result_ s = Some r →
  (∀ i t, acquired_ s !! i = Some t → set_id t = i) →
  is_Some (acquired_ s !! set_id o) →
  disputes_inv (acquired_ s) (currPeerPositions_ s) XV XC no_pend r →
  wp tot (createDisputes o)
    (λ _ s' _, ∃ r', books s r s' r' ∧ set_id o ∈ compares r' ∧
       disputes_inv (acquired_ s) (currPeerPositions_ s) XV XC no_pend r') s.
Proof.
  intros Hr Hacq Ho Hinv. unfold createDisputes.
  wp_step. eapply wp_get_result; [done|].
  case_bool_decide as Hin.
  { wp_step. exists r. split; [by apply books_refl|done]. }
  wp_step. eapply wp_upd_result; [done|].
  set (r1 := set_compares ({[set_id o]} ∪ compares r) r).
  assert (Hacqo : ∀ t k, acquired_ s !! set_id o = Some t → set_exists t k = set_exists o k).
  { intros t k Ht. apply set_id_inj. by apply Hacq. }
  assert (Hinv1 : disputes_inv (acquired_ s) (currPeerPositions_ s) XV XC
    (λ i k, i = set_id o ∧ set_exists (txns r) k ≠ set_exists o k) r1).
  { destruct Hinv. split; simpl; try done.
    - intros i t k Hi Ht Hne. apply elem_of_union in Hi as [->%elem_of_singleton|Hi].
      + left. split; [done|]. by rewrite <- (Hacqo t k Ht).
      + destruct (di_complete0 i t k Hi Ht Hne) as [[]|]; auto.
    - intros n p Hn Hp Ha. apply elem_of_union_r. eauto.
    - intros i [->%elem_of_singleton|Hi]%elem_of_union; auto. }
  case_bool_decide as Heq.
  { wp_step. exists r1. split; [split; [done|split; [by destruct r|set_solver]]|].
    split; [set_solver|]. destruct Hinv1. split; try done.
    intros i t k Hi Ht Hne. destruct (di_complete0 i t k Hi Ht Hne) as [[-> Hd]|]; [|auto].
    exfalso. apply Hd. by apply set_id_inj. }
  set (keys := λ l : list (TxID_t * bool), λ i k, i = set_id o ∧ k ∈ l.*1).
  eapply (wp_for_each tot (λ l s' _, ∃ r', books s r s' r' ∧ set_id o ∈ compares r' ∧
    disputes_inv (acquired_ s) (currPeerPositions_ s) XV XC (keys l) r') _ _ _ _ []).
  - exists r1. split; [split; [done|split; [by destruct r|set_solver]]|].
    split; [set_solver|]. destruct Hinv1. split; try done.
    intros i t k Hi Ht Hne. destruct (di_complete0 i t k Hi Ht Hne) as [[-> Hd]|]; [|auto].
    left. split; [done|]. apply list_elem_of_fmap.
    exists (k, set_exists (txns r) k). split; [done|].
    apply elem_of_hash_elems, set_compare_spec. auto.
  - intros [k b] l s1 w Hkb%elem_of_hash_elems (r2 & Hb & Hc & Hd).
    apply set_compare_spec in Hkb as [Hne ->].
    pose proof Hb as (Hs1 & Hf & _). pose proof (result_frame_txns _ _ Hf) as Htx.
    eapply wp_mono; [eapply (createDispute_wp tot o k _ s1 r2 XV XC (keys ((k, _) :: l)))|].
    + by rewrite Hs1.
    + by rewrite Hs1.
    + by rewrite Htx.
    + by rewrite Htx.
    + intros _ s2 w2 (r3 & Hb3 & Hd3). exists r3. split; [by eapply books_trans|].
      split; [destruct Hb3 as (_ & _ & ?); set_solver|].
      rewrite Hs1 in Hd3. simpl in Hd3. destruct Hd3. split; try done.
      intros i t k' Hi Ht Hne'. destruct (di_complete0 i t k' Hi Ht Hne') as [[[-> Hk'] Hn]|].
      * left. split; [done|]. simpl in Hk'. apply elem_of_cons in Hk'. naive_solver.
      * auto.
  - intros s1 w (r2 & Hb & Hc & Hd). exists r2. split_and!; [done..|].
    destruct Hd. split; try done.
    intros i t k Hi Ht Hne. destruct (di_complete0 i t k Hi Ht Hne) as [[_ Hk]|]; [|auto].
    by apply elem_of_nil in Hk.
Qed.

(** A peer whose set is acquired votes; its entry is up to date afterwards. *)
Lemma updateDisputes_wp tot node p other s r XV XC :
  result_ s = Some r →
  (∀ i t, acquired_ s !! i = Some t → set_id t = i) →
  currPeerPositions_ s !! node = Some p → position p = set_id other →
  is_Some (acquired_ s !! set_id other) →
  disputes_inv (acquired_ s) (currPeerPositions_ s) XV XC no_pend r →
  wp tot (updateDisputes node other)
    (λ _ s' _, ∃ r', books s r s' r' ∧
       disputes_inv (acquired_ s) (currPeerPositions_ s)
         (XV ∖ {[node]}) (XC ∖ {[node]}) no_pend r') s.
Proof.
  intros Hr Hacq Hnode Hpos Ho Hinv. unfold updateDisputes.
  wp_step. eapply wp_get_result; [done|]. wp_step.
  eapply (wp_mono _ _ (λ _ s' _, ∃ r', books s r s' r' ∧ set_id other ∈ compares r' ∧
    disputes_inv (acquired_ s) (currPeerPositions_ s) XV XC no_pend r')).
  { apply wp_when; rewrite ?negb_true_iff, ?negb_false_iff; intros Hc.
    - by apply createDisputes_wp.
    - apply bool_decide_eq_true in Hc. exists r. split; [by apply books_refl|done]. }
  intros _ s1 w1 (r1 & Hb1 & Hc1 & Hd1). pose proof Hb1 as (Hs1 & _ & _).
  eapply wp_upd_result; [by rewrite Hs1|]. eexists. split.
  { eapply books_trans; [done|]. split; [done|]. split; [by destruct r1|done]. }
  destruct Hd1. split; simpl.
  - intros k d. rewrite lookup_fmap_Some. intros (d0 & <- & Hd0).
    destruct (di_wf0 k d0 Hd0). autorewrite with dispute. auto with dispute.
  - intros k d. rewrite lookup_fmap_Some. intros (d0 & <- & Hd0).
    autorewrite with dispute. eauto.
  - intros k d n b. rewrite lookup_fmap_Some. intros (d0 & <- & Hd0).
    autorewrite with dispute. rewrite lookup_insert_Some.
    intros [[<- _]|[_ Hb]]; [by rewrite Hnode|by eapply di_dom0].
  - intros k d n q t. rewrite lookup_fmap_Some. intros (d0 & <- & Hd0) Hn Hq Ht.
    autorewrite with dispute. destruct (di_wf0 k d0 Hd0) as [_ Htx]. rewrite Htx.
    destruct (decide (n = node)) as [->|Hne].
    + rewrite lookup_insert_eq. simplify_eq. f_equal. symmetry.
      apply set_id_inj. by rewrite <- Hpos; apply Hacq.
    + rewrite lookup_insert_ne by done. eapply di_vote0; [done| |done..]. set_solver.
  - intros i t k Hi Ht Hne. rewrite lookup_fmap.
    destruct (di_complete0 i t k Hi Ht Hne) as [|[d ->]]; [by left|right; eauto].
  - intros n q Hn Hq Ha. destruct (decide (n = node)) as [->|Hne].
    + simplify_eq. by rewrite Hpos.
    + apply (di_compared0 n q); [set_solver|done..].
  - done.
Qed.

(** The peers among [l] that propose the set [i]. *)
Definition proposers_of (i : TxSetID_t) (l : list (NodeID_t * PeerPosition_t)) : gset NodeID_t :=
  list_to_set (filter (λ kv, position kv.2 = i) l).*1.

Lemma elem_of_proposers_of i l n :
  n ∈ proposers_of i l ↔ ∃ p, (n, p) ∈ l ∧ position p = i.
Proof.
  unfold proposers_of. rewrite elem_of_list_to_set, list_elem_of_fmap. split.
  - intros ([m p] & -> & [Hp Hin]%list_elem_of_filter). eauto.
  - intros (p & Hin & Hp). exists (n, p). split; [done|]. by apply list_elem_of_filter.
Qed.

Lemma proposers_of_cons i n p l :
  proposers_of i ((n, p) :: l) =
  (if decide (position p = i) then {[n]} else ∅) ∪ proposers_of i l.
Proof.
  apply leibniz_equiv. intros m. rewrite elem_of_union, !elem_of_proposers_of.
  setoid_rewrite elem_of_cons. case_decide; set_solver.
Qed.

Lemma disputes_inv_weaken acq cur XV XC XV' XC' pend r :
  XV ⊆ XV' → XC ⊆ XC' →
  disputes_inv acq cur XV XC pend r → disputes_inv acq cur XV' XC' pend r.
Proof.
  intros HV HC []. split; try done.
  - intros k d n p t Hd Hn. apply di_vote0; [done|set_solver].
  - intros n p Hn. apply di_compared0. set_solver.
Qed.

(** Acquiring a set makes the entries of the peers proposing it out of date. *)
Lemma acquire_pending acq cur t r l :
  (∀ n p, (n, p) ∈ l ↔ cur !! n = Some p) →
  acq !! set_id t = None →
  disputes_inv acq cur ∅ ∅ no_pend r →
  disputes_inv (<[set_id t := t]> acq) cur (proposers_of (set_id t) l)
    (proposers_of (set_id t) l) no_pend r.
Proof.
  intros Hl Hnone []. split; try done.
  - intros k d n p u Hd Hn Hp Hu. rewrite lookup_insert_ne in Hu.
    + eapply di_vote0; [done|set_solver|done..].
    + intros Heq. apply Hn, elem_of_proposers_of. exists p. by rewrite Hl.
  - intros i u k Hi Hu. rewrite lookup_insert_ne in Hu; [by apply di_complete0|].
    intros <-. destruct (di_known0 _ Hi). congruence.
  - intros n p Hn Hp Ha. rewrite lookup_insert_ne in Ha.
    + by apply (di_compared0 n p); [set_solver|..].
    + intros Heq. apply Hn, elem_of_proposers_of. exists p. by rewrite Hl.
  - intros i Hi. rewrite lookup_insert_ne; [by apply di_known0|].
    intros <-. destruct (di_known0 _ Hi). congruence.
Qed.

(** ... and the loop over the peers brings them up to date. *)
Lemma updateDisputes_loop tot t l s r :
  result_ s = Some r →
  (∀ i u, acquired_ s !! i = Some u → set_id u = i) →
  is_Some (acquired_ s !! set_id t) →
  (∀ n p, (n, p) ∈ l → currPeerPositions_ s !! n = Some p) →
  disputes_inv (acquired_ s) (currPeerPositions_ s)
    (proposers_of (set_id t) l) (proposers_of (set_id t) l) no_pend r →
  wp tot (for_each l (λ '(nodeId, peerPos),
            when (bool_decide (position peerPos = set_id t)) (updateDisputes nodeId t)))
    (λ _ s' _, ∃ r', books s r s' r' ∧
       disputes_inv (acquired_ s) (currPeerPositions_ s) ∅ ∅ no_pend r') s.
Proof.
  intros Hr Hacq Ht Hl Hd.
  eapply (wp_for_each tot (λ l s' _, ∃ r', books s r s' r' ∧
    disputes_inv (acquired_ s) (currPeerPositions_ s)
      (proposers_of (set_id t) l) (proposers_of (set_id t) l) no_pend r') _ _ _ _ []).
  - exists r. split; [by apply books_refl|done].
  - intros [n p] l' s1 w Hin%Hl (r1 & Hb & Hd1). rewrite proposers_of_cons in Hd1.
    pose proof Hb as (Hs1 & _ & _).
    apply wp_when; intros Hpos.
    + apply bool_decide_eq_true in Hpos.
      eapply wp_mono; [eapply (updateDisputes_wp tot n p t s1 r1)|].
      1-5: by rewrite ?Hs1. { rewrite Hs1. exact Hd1. }
      intros _ s2 w2 (r2 & Hb2 & Hd2). exists r2. split; [by eapply books_trans|].
      rewrite Hs1 in Hd2. simpl in Hd2.
      eapply disputes_inv_weaken; [| |done]; case_decide; set_solver.
    + apply bool_decide_eq_false in Hpos. exists r1. split; [done|].
      rewrite decide_False in Hd1 by done. by rewrite union_empty_l_L in Hd1.
  - intros s1 w (r1 & Hb & Hd1). exists r1. done.
Qed.

Lemma inv_base_books s r s' r' :
  result_ s = Some r → books s r s' r' → inv_base s → inv_base s'.
Proof.
  intros Hr (-> & _ & _) []. split; simpl; try done.
  destruct (phase_ s); [congruence|eauto|done].
Qed.

Lemma inv_books s r s' r' :
  result_ s = Some r → books s r s' r' → inv_base s → position_inv (acquired_ s) r →
  disputes_inv (acquired_ s) (currPeerPositions_ s) ∅ ∅ no_pend r' → inv s'.
Proof.
  intros Hr Hb Hbase Hpos Hd. split; [by eapply inv_base_books|].
  destruct Hb as (-> & Hf & _). intros r'' [= <-].
  split; [by eapply position_inv_frame|done].
Qed.

(** ** Acquired transaction sets *)

(** The peers and the nodes that have left are not touched. *)
Definition same_peers (s s' : Consensus) : Prop :=
  currPeerPositions_ s' = currPeerPositions_ s ∧ deadNodes_ s' = deadNodes_ s.

Lemma gotTxSet_wp tot now t s :
  inv s → wp tot (gotTxSet now t) (λ _ s' _, inv s' ∧ frame s s' ∧ same_peers s s') s.
Proof.
  intros [Hbase Hres]. unfold gotTxSet. wp_steps.
  case_bool_decide as Hph; [by wp_step|]. wp_steps.
  assert (Hbase1 : inv_base (set_now_ now s)) by (by destruct Hbase).
  destruct (acquired_ s !! set_id t) eqn:Ha; [by wp_step|]. wp_steps.
  set (s1 := set_acquired_ _ _).
  assert (inv_base s1) as Hbase2.
  { destruct Hbase. split; simpl; try done.
    intros i u. rewrite lookup_insert_Some. intros [[<- <-]|[_ Hu]]; auto. }
  destruct (result_ s) as [r|] eqn:Hr; simpl.
  2:{ wp_step. split; [|done]. split; [done|]. intros r ?. simpl in *. congruence. }
  destruct (Hres r Hr) as [[Hpos Hpacq] Hd].
  wp_step. apply wp_massert.
  { apply negb_true_iff, bool_decide_eq_false. intros Heq.
    rewrite Hpos, <- Heq, Ha in Hpacq. by destruct Hpacq. }
  eapply wp_mono; [eapply (updateDisputes_loop tot t _ s1 r)|]; try done.
  - by destruct Hbase2.
  - simpl. rewrite lookup_insert_eq. eauto.
  - intros n p. apply elem_of_hash_elems.
  - apply acquire_pending; [apply elem_of_hash_elems|done|done].
  - intros _ s2 w (r2 & Hb & Hd2). split.
    + eapply (inv_books s1 r s2 r2); try done.
      split; [done|]. apply lookup_insert_is_Some'. by right.
    + by destruct Hb as (-> & _).
Qed.

(** ** Peer proposals *)

(** Withdrawing a peer's votes lets it be forgotten. *)
Lemma unVote_inv acq cur XV XC pend n r :
  disputes_inv acq cur XV XC pend r →
  disputes_inv acq (delete n cur) XV XC pend
    (set_disputes (unVote n <$> disputes r) r).
Proof.
  intros []. split; simpl.
  - intros k d. rewrite lookup_fmap_Some. intros (d0 & <- & Hd0).
    destruct (di_wf0 k d0 Hd0). autorewrite with dispute. auto with dispute.
  - intros k d. rewrite lookup_fmap_Some. intros (d0 & <- & Hd0).
    autorewrite with dispute. eauto.
  - intros k d m b. rewrite lookup_fmap_Some. intros (d0 & <- & Hd0).
    autorewrite with dispute. rewrite lookup_delete_Some. intros [Hne Hb].
    rewrite lookup_delete_ne by done. eauto.
  - intros k d m p t. rewrite lookup_fmap_Some. intros (d0 & <- & Hd0) Hm.
    rewrite lookup_delete_Some. intros [Hne Hp] Ht.
    autorewrite with dispute. rewrite lookup_delete_ne by done. eauto.
  - intros i t k Hi Ht Hne. rewrite lookup_fmap.
    destruct (di_complete0 i t k Hi Ht Hne) as [|[d ->]]; [by left|right; eauto].
  - intros m p Hm. rewrite lookup_delete_Some. intros [_ Hp]. eauto.
  - done.
Qed.

(** A new position of a peer puts that peer's entry out of date. *)
Lemma new_position_inv acq cur n p r :
  disputes_inv acq cur ∅ ∅ no_pend r →
  disputes_inv acq (<[n := p]> cur) {[n]} {[n]} no_pend r.
Proof.
  intros []. split; try done.
  - intros k d m b Hd Hb. destruct (di_dom0 k d m b Hd Hb) as [q Hq].
    destruct (decide (n = m)) as [->|]; [rewrite lookup_insert_eq; eauto|].
    rewrite lookup_insert_ne by done. eauto.
  - intros k d m q t Hd Hm. rewrite lookup_insert_ne by set_solver.
    apply di_vote0; [done|set_solver].
  - intros m q Hm. rewrite lookup_insert_ne by set_solver.
    apply di_compared0. set_solver.
Qed.

Lemma unknown_position_inv acq cur n p r :
  cur !! n = Some p → acq !! position p = None →
  disputes_inv acq cur {[n]} {[n]} no_pend r → disputes_inv acq cur ∅ ∅ no_pend r.
Proof.
  intros Hcur Hnone []. split; try done.
  - intros k d m q t Hd _ Hq Ht. destruct (decide (m = n)) as [->|].
    + simplify_eq.
    + eapply di_vote0; [done|set_solver|done..].
  - intros m q _ Hq Ha. destruct (decide (m = n)) as [->|].
    + simplify_eq. rewrite Hnone in Ha. by destruct Ha.
    + by apply (di_compared0 m q); [set_solver|..].
Qed.

Section env.
Context (env : Env).

(** The tail of [peerProposalInternal], entered with the peer out of date. *)
Lemma processPosition_wp tot p s :
  inv_base s → currPeerPositions_ s !! nodeID p = Some p →
  inv_result {[nodeID p]} {[nodeID p]} s →
  wp tot (processPosition env p) (λ _ s' _, inv s' ∧ frame s s' ∧ same_peers s s') s.
Proof.
  intros Hbase Hcur Hres. unfold processPosition. wp_steps.
  destruct (acquired_ s !! position p) as [t|] eqn:Ht.
  - case_bool_decide as Hr.
    2:{ wp_step. split; [|done]. split; [done|]. intros r Hr'. destruct Hr; eauto. }
    destruct Hr as [r Hr]. destruct (Hres r Hr) as [Hpos Hd].
    pose proof (inv_acquired _ Hbase _ _ Ht) as Hid.
    eapply wp_mono; [eapply (updateDisputes_wp tot (nodeID p) p t s r)|];
      rewrite ?Hid; eauto using inv_acquired.
    intros _ s' w (r' & Hb & Hd'). rewrite difference_diag_L in Hd'.
    split; [by eapply inv_books|]. by destruct Hb as (-> & _).
  - assert (inv s) as Hinv.
    { split; [done|]. intros r Hr. destruct (Hres r Hr). split; [done|].
      by eapply unknown_position_inv. }
    destruct (acquireTxSet env (position p)) as [t|]; [|by wp_step].
    by apply gotTxSet_wp.
Qed.

(** When a proposal is taken into account. *)
Definition proposal_fresh (p : PeerPosition_t) (s : Consensus) : bool :=
  negb (bool_decide (phase_ s = accepted)) &&
  bool_decide (previousLedger p = prevLedgerID_ s) &&
  negb (bool_decide (nodeID p ∈ deadNodes_ s)) &&
  match currPeerPositions_ s !! nodeID p with
  | Some old => proposeSeq old <? proposeSeq p
  | None => true
  end.

(** Its effect on the peers. *)
Definition peers_after (p : PeerPosition_t) (s s' : Consensus) : Prop :=
  if proposal_fresh p s then
    if isBowOut p then
      currPeerPositions_ s' = delete (nodeID p) (currPeerPositions_ s) ∧
      deadNodes_ s' = {[nodeID p]} ∪ deadNodes_ s
    else currPeerPositions_ s' = <[nodeID p := p]> (currPeerPositions_ s) ∧
         deadNodes_ s' = deadNodes_ s
  else same_peers s s'.

Lemma peerProposalInternal_spec tot now p s :
  inv s → wp tot (peerProposalInternal env now p)
    (λ b s' _, (inv s' ∧ frame s s') ∧ b = proposal_fresh p s ∧ peers_after p s s') s.
Proof.
  intros [Hbase Hres]. unfold peerProposalInternal, peers_after, proposal_fresh. wp_steps.
  case_bool_decide as Hph; simpl; [by wp_step|]. wp_steps.
  assert (Hbase1 : inv_base (set_now_ now s)) by (by destruct Hbase).
  case_bool_decide as Hprev; simpl; [|by wp_step].
  case_bool_decide as Hdead; simpl; [by wp_step|].
  destruct (match currPeerPositions_ s !! nodeID p with Some old => _ | None => _ end)
    eqn:Hseq.
  { destruct (currPeerPositions_ s !! nodeID p) as [old|] eqn:Hold; [|done].
    wp_step. rewrite (proj2 (Z.ltb_ge _ _)) by (by apply Z.leb_le). done. }
  assert (match currPeerPositions_ s !! nodeID p with
          | Some old => proposeSeq old <? proposeSeq p | None => true end = true) as ->.
  { destruct (currPeerPositions_ s !! nodeID p); [|done]. by apply Z.ltb_lt, Z.leb_gt. }
  destruct (isBowOut p) eqn:Hbow.
  - unfold upd_result. wp_steps. split; [|done]. split; [|done]. split.
    + destruct Hbase. split; simpl; try done.
      * destruct (phase_ s); [by rewrite inv_phase0|by apply fmap_is_Some|done].
      * intros n q. rewrite lookup_delete_Some. intros [Hne Hq].
        destruct (inv_peers0 n q Hq) as (?&?&?&?). set_solver.
    + intros r. simpl. rewrite fmap_Some. intros (r0 & Hr0 & ->).
      destruct (Hres r0 Hr0) as [Hpos Hd]. split; [done|]. by apply unVote_inv.
  - wp_steps. set (s1 := set_currPeerPositions_ _ _).
    eapply (wp_mono _ _ (λ _ s' _, ∃ raw, s' = set_rawCloseTimes_ raw s1)).
    { apply wp_when; intros _; [wp_step; by eexists|]. exists (rawCloseTimes_ s1). done. }
    intros _ s2 w2 (raw & ->). wp_step.
    eapply wp_mono; [apply processPosition_wp|].
    + destruct Hbase. split; simpl; try done.
      intros n q. rewrite lookup_insert_Some. intros [[<- <-]|[Hne Hq]]; auto.
    + simpl. by rewrite lookup_insert_eq.
    + intros r Hr. destruct (Hres r Hr) as [Hpos Hd]. split; [done|].
      by apply new_position_inv.
    + intros _ s3 w3 (Hinv & Hf & Hsame). by wp_step.
Qed.

Lemma peerProposalInternal_wp tot now p s :
  inv s → wp tot (peerProposalInternal env now p) (λ _ s' _, inv s' ∧ frame s s') s.
Proof.
  intros Hinv. eapply wp_mono; [by apply peerProposalInternal_spec|]. by intros b s' w (?&_).
Qed.

Lemma proposal_fresh_iff p s :
  proposal_fresh p s = true ↔ phase_ s ≠ accepted ∧ previousLedger p = prevLedgerID_ s ∧
    (nodeID p ∉ deadNodes_ s) ∧
    (∀ old, currPeerPositions_ s !! nodeID p = Some old → proposeSeq old < proposeSeq p).
Proof.
  unfold proposal_fresh. rewrite !andb_true_iff, !negb_true_iff, !bool_decide_eq_false,
    bool_decide_eq_true.
  destruct (currPeerPositions_ s !! nodeID p) as [old|]; rewrite ?Z.ltb_lt; naive_solver.
Qed.

Lemma peerProposal_both tot now p s :
  inv s → wp tot (peerProposal env now p)
    (λ b s' _, inv s' ∧ b = proposal_fresh p s ∧ peers_after p s s') s.
Proof.
  intros [Hbase Hres]. unfold peerProposal. wp_steps.
  eapply wp_mono; [apply peerProposalInternal_spec|by intros b s' w ([??]&?&?)].
  split; [|done]. destruct Hbase. split; cbn -[Nat.leb]; try done.
  intros n ps. rewrite lookup_insert_Some. intros [[<- <-]|[Hne Hps]]; [|auto].
  destruct (recentPeerPositions_ s !! nodeID p) as [old|] eqn:Hold; cbn -[Nat.leb];
    [|simpl; split; [lia|by repeat constructor]].
  destruct (inv_recent0 _ _ Hold) as [Hlen Hall].
  destruct (Nat.leb_spec 10 (length old)); rewrite length_app, Forall_app; simpl.
  - destruct old; simpl in *; [lia|]. inversion Hall; subst. split; [lia|by repeat constructor].
  - split; [lia|by repeat constructor].
Qed.

Lemma peerProposal_wp tot now p s :
  inv s → wp tot (peerProposal env now p) (λ _ s' _, inv s') s.
Proof.
  intros Hinv. eapply wp_mono; [by apply peerProposal_both|]. by intros b s' w (?&_).
Qed.

Lemma peerProposal_spec tot now p s :
  inv s → wp tot (peerProposal env now p)
    (λ b s' _, b = proposal_fresh p s ∧ peers_after p s s') s.
Proof.
  intros Hinv. eapply wp_mono; [by apply peerProposal_both|]. by intros b s' w (_&?).
Qed.

Lemma playbackProposals_wp tot s :
  inv s → wp tot (playbackProposals env) (λ _ s' _, inv s' ∧ frame s s') s.
Proof.
  intros Hinv. unfold playbackProposals. wp_steps.
  eapply (wp_for_each_inv _ (λ s', inv s' ∧ frame s s')); [done| |by intros].
  intros [n ps] s1 Hn Hs1.
  eapply (wp_for_each_inv _ (λ s', inv s' ∧ frame s s')); [done| |by intros].
  intros p s2 Hp [Hinv2 Hf2]. wp_steps.
  case_bool_decide; [|by wp_step]. wp_step.
  eapply wp_mono; [by apply peerProposalInternal_wp|].
  intros b s3 w3 [Hinv3 Hf3].
  assert (frame s s3) by (by etrans). by apply wp_when; [intros _; wp_step|].
Qed.
End env.
End engine_inv.
