(* ===== verification/EngineRounds.v ===== *)
(** * Every entry point keeps the invariant

    The phases of a round on top of [EngineInv]: closing, updating our
    position, declaring consensus, and changing the prior ledger. *)
From S2P Require Import Prelude Timing Thresholds Dispute Proposal Engine.
From S2P Require Import EngineInv.

Section rounds.
Context `{Traits} `{!TraitsLaws} (env : Env).

(** Ledgers whose header fields the timing code accepts. *)
Definition valid_ledger (l : Ledger_t) : Prop :=
  valid_resolution (closeTimeResolution l) ∧ u32 (ledger_seq l + 1) ≠ 0.

(** What [Consensus.h] asks of the adaptor: the position it returns on close
    names the set it returns, and acquired ledgers are well formed. *)
Record env_ok : Prop := {
  onClose_id : ∀ l now m,
    set_id (onClose env l now m).1 = position (onClose env l now m).2;
  acquireLedger_valid : ∀ i l, acquireLedger env i = Some l → valid_ledger l;
}.

(** ** Changes that the invariant does not see *)

Lemma disputes_inv_ext acq cur XV XC pend r r' :
  txns r' = txns r → disputes r' = disputes r → compares r' = compares r →
  disputes_inv acq cur XV XC pend r → disputes_inv acq cur XV XC pend r'.
Proof. intros H1 H2 H3 []. split; rewrite ?H1, ?H2, ?H3; done. Qed.

Lemma inv_tweak s r r' :
  inv s → result_ s = Some r → txns r' = txns r → disputes r' = disputes r →
  compares r' = compares r → position (r_position r') = position (r_position r) →
  inv (set_result_ (Some r') s).
Proof.
  intros [Hbase Hres] Hr H1 H2 H3 H4. destruct (Hres r Hr) as [[Hp Ha] Hd]. split.
  - destruct Hbase. split; simpl; try done.
    destruct (phase_ s); [congruence|eauto|done].
  - intros r'' [= <-]. split; [split; simpl; by rewrite ?H1, ?H4|]. simpl.
    by eapply disputes_inv_ext.
Qed.

Lemma inv_establish_result s :
  inv s → phase_ s = establish → ∃ r, result_ s = Some r.
Proof. intros [[Hph] _] Hp. rewrite Hp in Hph. by destruct Hph; eauto. Qed.

(** ** Leaving and closing *)

Lemma leaveConsensus_wp tot s :
  inv s → wp tot leaveConsensus
    (λ _ s' _, inv s' ∧ frame s (set_mode_ (mode_ s) s')) s.
Proof.
  intros Hinv. unfold leaveConsensus. wp_steps.
  case_bool_decide as Hm; [|by wp_step]. wp_step.
  assert (∀ s1, inv s1 → frame s s1 → wp tot (set_mode observing)
            (λ _ s' _, inv s' ∧ frame s (set_mode_ (mode_ s) s')) s1) as Hset.
  { intros s1 Hinv1 Hf. unfold set_mode. wp_steps.
    split; [by apply (inv_ext s1)|]. destruct Hf as (?&?&?&?&?&?&?&?&?).
    by split_and!. }
  destruct (result_ s) as [r|] eqn:Hr; [|by wp_step; apply Hset].
  destruct (isBowOut (r_position r)); [by wp_step; apply Hset|]. wp_step.
  eapply wp_upd_result; [done|]. wp_step. eapply wp_get_result; [done|]. wp_step.
  apply Hset; [|done]. by eapply inv_tweak.
Qed.

(** The comparison of the peers of [l] with our new set is still to do. *)
Lemma createDisputes_loop tot l s r :
  result_ s = Some r → inv_base s → position_inv (acquired_ s) r →
  (∀ n p, (n, p) ∈ l → currPeerPositions_ s !! n = Some p) →
  disputes_inv (acquired_ s) (currPeerPositions_ s) ∅ (list_to_set l.*1) no_pend r →
  wp tot (for_each l (λ '(_, pit),
            s ← get;
            match acquired_ s !! position pit with
            | Some t => createDisputes t
            | None => mret tt
            end)) (λ _ s' _, inv s' ∧ phase_ s' = phase_ s ∧ is_Some (result_ s') ∧
                             currPeerPositions_ s' = currPeerPositions_ s) s.
Proof.
  intros Hr Hbase Hpos Hl Hd.
  eapply (wp_for_each tot (λ l s' _, ∃ r', books s r s' r' ∧
    disputes_inv (acquired_ s) (currPeerPositions_ s) ∅ (list_to_set l.*1) no_pend r')
    _ _ _ _ []).
  - exists r. split; [by apply books_refl|done].
  - intros [n p] l' s1 w Hin%Hl (r1 & Hb & Hd1). pose proof Hb as (Hs1 & _ & _).
    wp_steps. rewrite Hs1 at 1. simpl.
    destruct (acquired_ s !! position p) as [t|] eqn:Ht.
    + assert (set_id t = position p) as Hid by (by eapply inv_acquired).
      eapply wp_mono; [eapply (createDisputes_wp tot t s1 r1 ∅ (list_to_set (n :: l'.*1)))|].
      1-4: rewrite Hs1; simpl; rewrite ?Hid; eauto using inv_acquired.
      intros _ s2 w2 (r2 & Hb2 & Hc2 & Hd2). exists r2. split; [by eapply books_trans|].
      rewrite Hs1 in Hd2. simpl in Hd2. destruct Hd2. split; try done.
      intros m q Hm Hq Ha. destruct (decide (m = n)) as [->|].
      * simplify_eq. by rewrite <- Hid.
      * by apply (di_compared m q); [set_solver|..].
    + wp_step. exists r1. split; [done|]. destruct Hd1. split; try done.
      intros m q Hm Hq Ha. destruct (decide (m = n)) as [->|].
      * simplify_eq. rewrite Ht in Ha. by destruct Ha.
      * by apply (di_compared m q); [set_solver|..].
  - intros s1 w (r1 & Hb & Hd1). split; [by eapply inv_books|].
    destruct Hb as (-> & _). eauto.
Qed.

Lemma closeLedger_wp tot s :
  env_ok → inv s → result_ s = None →
  wp tot (closeLedger env) (λ _ s' _, inv s' ∧ phase_ s' = establish ∧
     is_Some (result_ s') ∧ currPeerPositions_ s' = currPeerPositions_ s) s.
Proof.
  intros Hok [Hbase Hres] Hnone. unfold closeLedger. wp_steps.
  apply wp_massert; [by apply bool_decide_eq_true|]. wp_steps.
  pose proof (onClose_id Hok (previousLedger_ s) (now_ s) (mode_ s)) as Hid.
  destruct (onClose env (previousLedger_ s) (now_ s) (mode_ s)) as [set pos]. simpl in Hid.
  unfold ConsensusResult_ctor. wp_steps.
  apply wp_massert; [by apply bool_decide_eq_true|]. wp_steps. simpl.
  set (s1 := set_result_ _ _).
  match goal with s1 := set_result_ (Some ?r) _ |- _ => set (r1 := r) in * end.
  eapply (wp_mono _ _ (λ _ s' _, inv_base s' ∧ result_ s' = Some r1 ∧
    is_Some (acquired_ s' !! set_id set) ∧ phase_ s' = establish ∧
    currPeerPositions_ s' = currPeerPositions_ s)).
  { destruct (acquired_ s !! set_id set) eqn:Ha; wp_steps.
    - split_and!; [|done|simpl; by rewrite Ha|done..].
      destruct Hbase. split; simpl; eauto.
    - split_and!; [|done|simpl; by rewrite lookup_insert_eq|done..].
      destruct Hbase. split; simpl; eauto.
      intros i t. rewrite lookup_insert_Some. intros [[<- <-]|[_ Ht]]; auto. }
  intros _ s2 w2 (Hbase2 & Hr2 & Ha2 & Hph2 & Hcur2). wp_step.
  eapply (wp_mono _ _ (λ _ s' _, s' = s2)).
  { apply wp_when; intros _; [by wp_step|done]. }
  intros _ s3 w3 ->. rewrite <- Hcur2.
  eapply wp_mono; [eapply (createDisputes_loop tot _ s2 r1)|]; try done.
  - intros n p. apply elem_of_hash_elems.
  - split; try done; simpl; try set_solver.
    intros n p Hn Hp _. exfalso. apply Hn, elem_of_list_to_set, list_elem_of_fmap.
    exists (n, p). split; [done|]. by apply elem_of_hash_elems.
  - intros _ s4 w4 (?&?&?&?). split_and!; congruence.
Qed.

Lemma phaseOpen_wp tot s :
  env_ok → inv s → phase_ s = open → wp tot (phaseOpen env) (λ _ s' _, inv s') s.
Proof.
  intros Hok Hinv Hph. unfold phaseOpen. wp_steps.
  set (s1 := set_openTime_ _ _).
  assert (inv s1) as Hinv1 by (by apply (inv_ext s)).
  apply wp_when; intros _; [|done].
  eapply wp_mono; [apply closeLedger_wp; [done..|]|by intros _ s' w (?&?&?&?)].
  destruct Hinv as [[Hp] _]. by rewrite Hph in Hp.
Qed.

(** ** Updating our position *)

Lemma removeStaleLoop_wp tot cutoff l votes s :
  inv s → phase_ s = establish → (∀ n p, (n, p) ∈ l → nodeID p = n) →
  wp tot (removeStaleLoop cutoff l votes) (λ _ s' _, inv s' ∧ frame s s') s.
Proof.
  revert votes s. induction l as [|[n p] l IH]; intros votes s Hinv Hph Hl; simpl.
  { by wp_step. }
  assert (∀ m q, (m, q) ∈ l → nodeID q = m) as Hl' by (intros; apply Hl; by right).
  destruct (isStale cutoff p); wp_steps; [|by apply IH].
  rewrite (Hl n p) by (by left).
  destruct (inv_establish_result s Hinv Hph) as [r Hr].
  eapply wp_upd_result; [done|]. wp_steps. set (s1 := set_currPeerPositions_ _ _).
  assert (inv s1) as Hinv1.
  { destruct Hinv as [Hbase Hres]. destruct (Hres r Hr) as [Hpos Hd]. split.
    - destruct Hbase. split; simpl; try done.
      + rewrite Hph. by eexists.
      + intros m q. rewrite lookup_delete_Some. intros [_ Hq]. by apply inv_peers.
    - intros r' [= <-]. split; [done|]. by apply unVote_inv. }
  eapply wp_mono; [by apply IH|]. intros a s' w [Hi Hf]. split; [done|].
  by etrans; [|exact Hf].
Qed.

Lemma updateDisputeStep_spec s ours ds ms k d :
  let '(ds', ms') := updateDisputeStep env s ours (ds, ms) (k, d) in
  let d' := (updateVote (convergePercent_ s) (bool_decide (mode_ s = proposing))
               (parms env) d).1 in
  ds' = <[k := d']> ds ∧
  (tx_id (tx_ d) = k → ourVote_ d = set_exists (default ours ms) k →
   ∀ j, set_exists (default ours ms') j =
        if decide (j = k) then ourVote_ d' else set_exists (default ours ms) j).
Proof.
  unfold updateDisputeStep. simpl.
  set (u := updateVote _ _ _ d). pose proof (updateVote_changed (convergePercent_ s)
    (bool_decide (mode_ s = proposing)) (parms env) d) as Hch.
  pose proof (updateVote_tx (convergePercent_ s)
    (bool_decide (mode_ s = proposing)) (parms env) d) as Htx.
  fold u in Hch, Htx. destruct u as [d' c]. simpl in *. split; [done|].
  intros Hid Hour j. destruct c; simpl.
  - destruct (ourVote_ d') eqn:Hv.
    + rewrite set_exists_insert, Htx, Hid. case_bool_decide; [by rewrite decide_True|].
      by rewrite decide_False.
    + rewrite set_exists_erase. case_bool_decide; [by rewrite decide_True|].
      by rewrite decide_False.
  - case_decide as Hj; [subst j|done].
    destruct (decide (ourVote_ d' = ourVote_ d)); [congruence|].
    naive_solver.
Qed.

(** All disputes are updated, and the set follows our votes. *)
Lemma updateDisputeFold_spec s ours l ds ms :
  NoDup l.*1 → (∀ k d, (k, d) ∈ l → ds !! k = Some d ∧ tx_id (tx_ d) = k) →
  (∀ k d, ds !! k = Some d → ourVote_ d = set_exists (default ours ms) k) →
  let '(ds', ms') := foldl (updateDisputeStep env s ours) (ds, ms) l in
  (∀ k d', ds' !! k = Some d' → ∃ d, ds !! k = Some d ∧ votes_ d' = votes_ d ∧
     tx_ d' = tx_ d ∧ (dispute_wf d → dispute_wf d')) ∧
  (∀ k, is_Some (ds !! k) → is_Some (ds' !! k)) ∧
  (∀ k d', ds' !! k = Some d' → ourVote_ d' = set_exists (default ours ms') k) ∧
  (∀ k, ds !! k = None → set_exists (default ours ms') k = set_exists (default ours ms) k).
Proof.
  revert ds ms. induction l as [|[k d] l IH]; intros ds ms Hnd Hl Hour.
  { simpl. split_and!; [|done..]. eauto 10. }
  simpl in Hnd. apply NoDup_cons in Hnd as [Hk Hnd]. cbn [foldl].
  destruct (Hl k d) as [Hkd Hid]; [by left|].
  pose proof (updateDisputeStep_spec s ours ds ms k d) as Hstep.
  destruct (updateDisputeStep env s ours (ds, ms) (k, d)) as [ds1 ms1].
  destruct Hstep as [-> Hset]. specialize (Hset Hid (Hour k d Hkd)).
  set (d1 := (updateVote _ _ _ d).1) in *.
  specialize (IH (<[k := d1]> ds) ms1 Hnd).
  destruct (foldl _ _ l) as [ds2 ms2]. destruct IH as (IH1 & IH2 & IH3 & IH4).
  - intros k' d' Hin. destruct (Hl k' d') as [Hd' Hid']; [by right|].
    split; [|done]. rewrite lookup_insert_ne; [done|]. intros ->.
    apply Hk, list_elem_of_fmap. by exists (k', d').
  - intros k' d'. rewrite lookup_insert_Some, Hset. intros [[<- <-]|[Hne Hd']].
    + by rewrite decide_True.
    + rewrite decide_False by done. by apply Hour.
  - split_and!.
    + intros k' d' Hd'. destruct (IH1 k' d' Hd') as (d0 & Hd0 & Hv & Ht & Hw).
      apply lookup_insert_Some in Hd0 as [[<- <-]|[Hne Hd0]]; [|eauto 10].
      exists d. unfold d1 in *. autorewrite with dispute in *.
      split_and!; auto with dispute.
    + intros k' Hk'. apply IH2, lookup_insert_is_Some'. by right.
    + done.
    + intros k' Hk'. assert (k' ≠ k) by congruence.
      rewrite IH4 by (by rewrite lookup_insert_ne). by rewrite Hset, decide_False.
Qed.

Lemma updateDisputeVotes_wp tot s r :
  result_ s = Some r →
  disputes_inv (acquired_ s) (currPeerPositions_ s) ∅ ∅ no_pend r →
  wp tot (updateDisputeVotes env)
    (λ o s' _, ∃ ds, s' = set_result_ (Some (set_disputes ds r)) s ∧
       disputes_inv (acquired_ s) (currPeerPositions_ s) ∅ ∅ no_pend
         (set_txns (default (txns r) o) (set_disputes ds r))) s.
Proof.
  intros Hr Hd. unfold updateDisputeVotes. wp_steps.
  eapply wp_get_result; [done|].
  pose proof (updateDisputeFold_spec s (txns r) (hash_elems (disputes r)) (disputes r) None
    (NoDup_hash_elems _)) as Hfold.
  destruct (foldl _ _ _) as [ds ms]. destruct Hfold as (H1 & H2 & H3 & H4).
  { intros k d Hk%elem_of_hash_elems. split; [done|]. by apply (di_wf _ _ _ _ _ _ Hd). }
  { apply (di_our _ _ _ _ _ _ Hd). }
  wp_step. eapply wp_upd_result; [done|]. wp_step. exists ds. split; [done|].
  destruct Hd. split; simpl; try done.
  - intros k d' Hd'. destruct (H1 k d' Hd') as (d & Hd & Hv & Ht & Hw).
    destruct (di_wf k d Hd). rewrite Ht. auto.
  - intros k d' n b Hd'. destruct (H1 k d' Hd') as (d & Hd & Hv & _). rewrite Hv. eauto.
  - intros k d' n p t Hd'. destruct (H1 k d' Hd') as (d & Hd & Hv & _). rewrite Hv. eauto.
  - intros i t k Hi Ht Hne. right.
    destruct (disputes r !! k) eqn:Hk; [apply H2; by rewrite Hk|].
    rewrite (H4 k Hk) in Hne. simpl in Hne.
    destruct (di_complete i t k Hi Ht Hne) as [[]|Hk']. rewrite Hk in Hk'. by destruct Hk'.
Qed.

Lemma adoptPosition_wp tot set ct s r :
  inv_base s → phase_ s = establish → result_ s = Some r →
  disputes_inv (acquired_ s) (currPeerPositions_ s) ∅ ∅ no_pend (set_txns set r) →
  wp tot (adoptPosition set ct) (λ _ s' _, inv s' ∧ frame s s') s.
Proof.
  intros Hbase Hph Hr Hd. unfold adoptPosition. wp_steps.
  eapply wp_upd_result; [done|]. wp_step. eapply wp_upd_result; [done|]. wp_step.
  eapply wp_get_result; [done|]. simpl. set (pos := changePosition _ _ _ _).
  set (r1 := set_r_position pos _). set (s1 := set_result_ (Some r1) _).
  assert (inv_base s1) as Hbase1.
  { destruct Hbase. split; simpl; try done. rewrite Hph. by eexists. }
  assert (disputes_inv (acquired_ s) (currPeerPositions_ s) ∅ ∅ no_pend r1) as Hd1
    by (by eapply disputes_inv_ext; [..|exact Hd]).
  wp_step. eapply (wp_mono _ _ (λ _ s' _, inv s' ∧ frame s s')).
  2:{ intros _ s' w Hs'. apply wp_when; intros _; [by wp_step|done]. }
  destruct (acquired_ s !! set_id set) as [u|] eqn:Ha.
  { wp_step. split; [|done]. split; [done|].
    intros r' [= <-]. split; [split; [done|]|done]. simpl. by rewrite Ha. }
  wp_steps. set (s2 := set_acquired_ _ _).
  assert (inv_base s2) as Hbase2.
  { destruct Hbase1. split; simpl; try done.
    intros i t. rewrite lookup_insert_Some. intros [[<- <-]|[_ Ht]]; auto. }
  eapply (wp_mono _ _ (λ _ s' _, s' = s2)).
  { apply wp_when; intros _; [by wp_step|done]. }
  intros _ s3 w3 ->.
  eapply wp_mono; [eapply (updateDisputes_loop tot set _ s2 r1)|]; try done.
  - by destruct Hbase2.
  - simpl. by rewrite lookup_insert_eq.
  - intros n p. apply elem_of_hash_elems.
  - apply acquire_pending; [apply elem_of_hash_elems|done|done].
  - intros _ s4 w4 (r4 & Hb & Hd4). split; [|by destruct Hb as (-> & _)].
    eapply (inv_books s2 r1 s4 r4); try done.
    split; [done|]. simpl. by rewrite lookup_insert_eq.
Qed.

Lemma updateOurPositions_wp tot s :
  inv s → phase_ s = establish →
  wp tot (updateOurPositions env) (λ _ s' _, inv s' ∧ frame s s') s.
Proof.
  intros Hinv Hph. unfold updateOurPositions. wp_step.
  destruct (inv_establish_result s Hinv Hph) as [r0 Hr0].
  eapply wp_get_result; [done|]. wp_steps. unfold removeStalePositions. wp_steps.
  eapply wp_mono; [apply removeStaleLoop_wp; [done..|]|].
  { intros n p Hp%elem_of_hash_elems. destruct Hinv as [[] _]. by apply inv_peers. }
  intros votes s1 w1 [Hinv1 Hf1]. wp_step.
  assert (phase_ s1 = establish) as Hph1 by (destruct Hf1; congruence).
  destruct (inv_establish_result s1 Hinv1 Hph1) as [r Hr].
  pose proof Hinv1 as [Hbase1 Hres1]. destruct (Hres1 r Hr) as [Hpos1 Hd1].
  eapply wp_mono; [by eapply updateDisputeVotes_wp|].
  intros o s2 w2 (ds & -> & Hd2). wp_steps. eapply wp_get_result; [done|].
  destruct (closeTimeConsensus _ _ _ _) as [ct have]. wp_steps.
  set (s3 := set_haveCloseTimeConsensus_ _ _).
  assert (inv_base s3) as Hbase3.
  { destruct Hbase1. split; simpl; try done. rewrite Hph1. by eexists. }
  assert (∀ set, disputes_inv (acquired_ s1) (currPeerPositions_ s1) ∅ ∅ no_pend
            (set_txns set (set_disputes ds r)) →
          wp tot (adoptPosition set ct) (λ _ s' _, inv s' ∧ frame s s') s3) as Hadopt.
  { intros set Hset. eapply wp_mono; [by eapply adoptPosition_wp|].
    intros _ s' w [Hi Hf]. split; [done|]. etrans; [exact Hf1|exact Hf]. }
  destruct o as [set|]; [by apply Hadopt|]. simpl in *.
  destruct (negb _ || _); [by apply Hadopt|]. wp_step. split; [|exact Hf1].
  split; [done|]. intros r' [= <-]. split; [done|]. by eapply disputes_inv_ext; [..|exact Hd2].
Qed.

(** ** Declaring consensus *)

Lemma shouldPause_wp tot s r :
  result_ s = Some r → wp tot (shouldPause env) (λ _ s' _, s' = s) s.
Proof.
  intros Hr. unfold shouldPause. wp_steps. eapply wp_get_result; [done|].
  destruct (getQuorumKeys env) as [q keys], (laggards env _ _) as [lag rem].
  case_match; by wp_step.
Qed.

Lemma haveConsensus_wp tot s r :
  inv s → result_ s = Some r →
  wp tot (haveConsensus env) (λ b s' _, inv s' ∧ frame s s' ∧
    ∃ st, s' = set_result_ (Some (set_r_state st r)) s ∧ b = negb (bool_decide (st = No))) s.
Proof.
  intros Hinv Hr. unfold haveConsensus. wp_step. eapply wp_get_result; [done|]. wp_steps.
  eapply wp_upd_result; [done|]. wp_step. split; [by eapply inv_tweak|].
  split; [done|]. eauto.
Qed.

Lemma phaseEstablish_wp tot s :
  inv s → phase_ s = establish → wp tot (phaseEstablish env) (λ _ s' _, inv s') s.
Proof.
  intros Hinv Hph. destruct (inv_establish_result s Hinv Hph) as [r Hr].
  unfold phaseEstablish. wp_step. eapply wp_get_result; [done|]. wp_step.
  eapply wp_upd_result; [done|]. wp_steps. eapply wp_upd_result; [done|]. wp_step.
  eapply wp_get_result; [done|]. wp_steps. set (s1 := set_convergePercent_ _ _).
  assert (inv s1) as Hinv1.
  { eapply inv_ext; [by eapply (inv_tweak s r (set_proposers _ (set_roundTime _ r)))|done..]. }
  case_match; [by wp_step|]. wp_step.
  eapply wp_mono; [by apply updateOurPositions_wp|]. intros _ s2 w2 [Hinv2 Hf2]. wp_step.
  assert (phase_ s2 = establish) as Hph2 by (destruct Hf2; simpl in *; congruence).
  destruct (inv_establish_result s2 Hinv2 Hph2) as [r2 Hr2].
  eapply wp_mono; [by eapply shouldPause_wp|]. intros pause s3 w3 ->.
  destruct pause; [by wp_step|]. wp_step.
  eapply wp_mono; [by eapply haveConsensus_wp|].
  intros b s4 w4 (Hinv4 & Hf4 & st & Hs4 & Hb). destruct b; simpl; [|by wp_step]. wp_steps.
  destruct (haveCloseTimeConsensus_ s4); simpl; [|by wp_step]. wp_steps.
  eapply wp_get_result; [by rewrite Hs4|]. wp_steps.
  destruct Hinv4 as [[] Hres4]. by split.
Qed.

(** ** Changing the prior ledger *)

Lemma handleWrongLedger_wp tot sri lgrId s :
  inv s → lgrId ≠ prevLedgerID_ s ∨ ledger_id (previousLedger_ s) ≠ lgrId →
  (∀ now l s1, acquireLedger env lgrId = Some l → inv s1 →
     wp tot (sri now lgrId l switchedLedger) (λ _ s' _, inv s') s1) →
  wp tot (handleWrongLedger env sri lgrId) (λ _ s' _, inv s') s.
Proof.
  intros Hinv Hne Hsri. unfold handleWrongLedger. wp_steps.
  apply wp_massert; [by apply bool_decide_eq_true|]. wp_step.
  eapply wp_mono; [by apply leaveConsensus_wp|]. intros _ s1 w1 [Hinv1 Hf1]. wp_step.
  assert (prevLedgerID_ s1 = prevLedgerID_ s) as Hid1 by (by destruct Hf1 as (_&_&?&_)).
  eapply (wp_mono _ _ (λ _ s' _, inv s' ∧ prevLedgerID_ s' = lgrId)).
  { case_bool_decide as Hid; [|wp_step; split; [done|]; congruence].
    unfold upd_result. wp_steps. set (s2 := set_deadNodes_ _ _).
    assert (inv s2) as Hinv2.
    { destruct Hinv1 as [[] Hres]. split.
      - split; simpl; try done.
        destruct (phase_ s1); [by rewrite inv_phase|by apply fmap_is_Some|done].
      - intros r'. simpl. rewrite fmap_Some. intros (r & Hr & ->).
        destruct (Hres r Hr) as [Hpos _]. split; [done|].
        by split; simpl; try done; set_solver. }
    eapply wp_mono; [by apply playbackProposals_wp|].
    intros _ s3 w3 [Hinv3 Hf3]. split; [done|]. by destruct Hf3 as (_&_&?&_). }
  intros _ s2 w2 [Hinv2 Hid2]. wp_steps. rewrite Hid2.
  case_bool_decide; [by wp_step|].
  destruct (acquireLedger env lgrId) as [l|] eqn:Hl; [by apply Hsri|].
  unfold set_mode. wp_steps. by apply (inv_ext s2).
Qed.

(** The ledger the network works from, as the adaptor sees it. *)
Definition synced (s : Consensus) : Prop :=
  getPrevLedger env (prevLedgerID_ s) (previousLedger_ s) (mode_ s) = prevLedgerID_ s ∧
  ledger_id (previousLedger_ s) = prevLedgerID_ s.

Lemma checkLedger_wp tot sri s :
  inv s →
  (¬ synced s → ∀ now l s1 lgrId,
     getPrevLedger env (prevLedgerID_ s) (previousLedger_ s) (mode_ s) = lgrId →
     acquireLedger env lgrId = Some l → inv s1 →
     wp tot (sri now lgrId l switchedLedger) (λ _ s' _, inv s') s1) →
  wp tot (checkLedger env sri) (λ _ s' _, inv s') s.
Proof.
  intros Hinv Hsri. unfold checkLedger. wp_steps.
  case_bool_decide as Hnet.
  { apply handleWrongLedger_wp; [done|by left|].
    intros now l s1 Hl. eapply Hsri; [by intros [? _]|done..]. }
  case_bool_decide as Hid; [|by wp_step].
  apply handleWrongLedger_wp; [done|right; congruence|].
  intros now l s1 Hl. eapply Hsri; [by intros [_ ?]|done..].
Qed.

Lemma timerEntry_with_wp tot sri now s :
  env_ok → inv s →
  (¬ synced (set_now_ now s) → ∀ t l s1 lgrId,
     getPrevLedger env (prevLedgerID_ s) (previousLedger_ s) (mode_ s) = lgrId →
     acquireLedger env lgrId = Some l → inv s1 →
     wp tot (sri t lgrId l switchedLedger) (λ _ s' _, inv s') s1) →
  wp tot (timerEntry_with env sri now) (λ _ s' _, inv s') s.
Proof.
  intros Hok Hinv Hsri. unfold timerEntry_with. wp_steps.
  case_bool_decide; [by wp_step|]. wp_steps.
  eapply wp_mono; [apply checkLedger_wp; [by apply (inv_ext s)|done]|].
  intros ? s1 w1 Hinv1. wp_steps.
  destruct (phase_ s1) eqn:Hph; [by apply phaseOpen_wp|by apply phaseEstablish_wp|by wp_step].
Qed.

(** The start of a round up to the check of the timer. *)
Lemma startRoundInternal_S_wp tot fuel now id l mode s :
  env_ok → valid_ledger l → inv s →
  (∀ s1, inv s1 → prevLedgerID_ s1 = id → previousLedger_ s1 = l → mode_ s1 = mode →
     wp tot (timerEntry_with env (startRoundInternal env fuel) (now_ s1))
       (λ _ s' _, inv s') s1) →
  wp tot (startRoundInternal env (S fuel) now id l mode) (λ _ s' _, inv s') s.
Proof.
  intros Hok [Hres Hseq] Hinv Htimer. cbn [startRoundInternal]. wp_steps.
  unfold set_mode. wp_steps. apply wp_massert; [by apply getNext_asserts|]. wp_steps.
  set (s1 := set_closeResolution_ _ _).
  assert (inv s1) as Hinv1.
  { destruct Hinv as [[] _]. split; [split; simpl; try done; set_solver|]. done. }
  eapply wp_mono; [by apply playbackProposals_wp|]. intros _ s2 w2 [Hinv2 Hf2]. wp_steps.
  destruct Hf2 as (_&Hm&Hi&Hl&_).
  apply wp_when; intros _; [by apply Htimer|done].
Qed.

Lemma startRoundInternal_wp fuel now id l mode s :
  env_ok → valid_ledger l → inv s →
  wp false (startRoundInternal env fuel now id l mode) (λ _ s' _, inv s') s.
Proof.
  intros Hok. revert now id l mode s.
  induction fuel as [|fuel IH]; intros now id l mode s Hl Hinv; [done|].
  apply startRoundInternal_S_wp; [done..|]. intros s1 Hinv1 _ _ _.
  apply timerEntry_with_wp; [done..|]. intros _ t l' s2 lgrId _ Hacq Hinv2.
  apply IH; [|done]. by eapply acquireLedger_valid.
Qed.

(** A stable adaptor: a ledger it acquires is the one asked for, and once we
    work from the ledger it named, it names that ledger again. *)
Record env_stable : Prop := {
  acquireLedger_id : ∀ i l, acquireLedger env i = Some l → ledger_id l = i;
  getPrevLedger_idem : ∀ i l m j l', getPrevLedger env i l m = j →
    acquireLedger env j = Some l' → getPrevLedger env j l' switchedLedger = j;
}.

(** One unit of fuel is enough to switch to the ledger the adaptor named. *)
Lemma startRoundInternal_switch i m l0 now j l s :
  env_ok → env_stable → inv s →
  getPrevLedger env i l0 m = j → acquireLedger env j = Some l →
  wp true (startRoundInternal env 1 now j l switchedLedger) (λ _ s' _, inv s') s.
Proof.
  intros Hok Hst Hinv Hj Hl.
  apply startRoundInternal_S_wp; [done|by eapply acquireLedger_valid|done|].
  intros s1 Hinv1 Hi1 Hl1 Hm1. apply timerEntry_with_wp; [done..|].
  intros []. split; simpl; rewrite Hi1, Hl1, ?Hm1.
  - by eapply getPrevLedger_idem.
  - by eapply acquireLedger_id.
Qed.

Lemma timerEntry_wp now s :
  env_ok → env_stable → inv s → wp true (timerEntry env 1 now) (λ _ s' _, inv s') s.
Proof.
  intros Hok Hst Hinv. apply timerEntry_with_wp; [done..|].
  intros _ t l s1 j Hj Hl Hinv1. by eapply startRoundInternal_switch.
Qed.

Lemma startRound_prefix tot fuel now id l untrusted prop s (Q : Consensus → Prop) :
  inv s →
  (∀ s1 l' m, inv s1 → (l' = l ∨ acquireLedger env id = Some l') →
     wp tot (startRoundInternal env fuel now id l' m) (λ _ s' _, Q s') s1) →
  wp tot (startRound env fuel now id l untrusted prop) (λ _ s' _, Q s') s.
Proof.
  intros Hinv Hsri. unfold startRound. wp_steps.
  eapply (wp_mono _ _ (λ _ s' _, inv s')).
  { destruct (firstRound_ s); wp_steps; by apply (inv_ext s). }
  intros _ s1 w1 Hinv1. wp_steps. set (s2 := set_recentPeerPositions_ _ _).
  assert (inv s2) as Hinv2.
  { destruct Hinv1 as [[] Hres]. split; [split; simpl; try done|done].
    intros n ps [Hps _]%map_lookup_filter_Some. by apply inv_recent. }
  case_bool_decide; [|by apply Hsri; auto].
  destruct (acquireLedger env id) as [l'|] eqn:Hl; apply Hsri; auto.
Qed.

Lemma startRound_wp now id l untrusted prop s :
  env_ok → env_stable → valid_ledger l → inv s →
  wp true (startRound env 2 now id l untrusted prop) (λ _ s' _, inv s') s.
Proof.
  intros Hok Hst Hl Hinv. apply startRound_prefix; [done|].
  intros s1 l' m Hinv1 Hl'. apply startRoundInternal_S_wp; [done| |done|].
  { destruct Hl' as [->|?]; [done|by eapply acquireLedger_valid]. }
  intros s2 Hinv2 _ _ _. apply timerEntry_with_wp; [done..|].
  intros _ t l2 s3 j Hj Hl2 Hinv3. by eapply startRoundInternal_switch.
Qed.

Lemma simulate_wp tot now delay s :
  env_ok → inv s → result_ s = None →
  wp tot (simulate env now delay) (λ _ s' _, inv s') s.
Proof.
  intros Hok Hinv Hnone. unfold simulate. wp_steps.
  eapply wp_mono; [apply closeLedger_wp; [done|by apply (inv_ext s)|done]|].
  intros _ s1 w1 (Hinv1 & Hph1 & [r Hr] & _). wp_step.
  eapply wp_upd_result; [done|]. wp_steps. eapply wp_upd_result; [done|]. wp_step.
  eapply wp_get_result; [done|]. wp_steps.
  pose proof (inv_tweak s1 r (set_proposers
    (Z.of_nat (size (currPeerPositions_ s1)))
    (set_roundTime (timer_tick_fixed (default 100 delay) (roundTime r)) r))
    Hinv1 Hr eq_refl eq_refl eq_refl eq_refl) as [[] Hres].
  split; [by split|exact Hres].
Qed.
End rounds.
