(* ===== verification/EngineProps.v ===== *)
(** * Properties of the consensus state machine

    Reachable states of [Consensus], and what holds in all of them. *)
From S2P Require Import Prelude Timing Thresholds Dispute Proposal Engine.
From S2P Require Import EngineInv EngineRounds.

Section reachability.
Context `{Traits}.

(** ** Calls and reachable states *)

Inductive call :=
  | StartRound (now : Z) (prevLedgerID : LedgerID_t) (prevLedger : Ledger_t)
      (nowUntrusted : gset NodeID_t) (proposing : bool)
  | PeerProposal (now : Z) (p : PeerPosition_t)
  | TimerEntry (now : Z)
  | GotTxSet (now : Z) (t : TxSet_t)
  | Simulate (now : Z) (consensusDelay : option Z).

(** The public member functions; the fuel is the number of nested
    [startRoundInternal] calls, see [calls_return] below. *)
Definition run (env : Env) (c : call) : CM unit :=
  match c with
  | StartRound now id l untrusted prop => startRound env 2 now id l untrusted prop
  | PeerProposal now p => _ ← peerProposal env now p; mret tt
  | TimerEntry now => timerEntry env 1 now
  | GotTxSet now t => gotTxSet now t
  | Simulate now delay => simulate env now delay
  end.

(** A round starts from a well-formed ledger; [simulate] is only called on an
    open ledger, in standalone mode. *)
Definition call_ok (s : Consensus) (c : call) : Prop :=
  match c with
  | StartRound _ _ l _ _ => valid_ledger l
  | Simulate _ _ => result_ s = None
  | _ => True
  end.

(** The constructor; [id] and [l] are the default values of the two fields. *)
Definition Consensus_ctor (id : LedgerID_t) (l : Ledger_t) : Consensus :=
  {| phase_ := accepted; mode_ := observing; firstRound_ := true;
     haveCloseTimeConsensus_ := false; convergePercent_ := 0;
     openTime_ := mkTimer 0 0; closeResolution_ := ledgerDefaultTimeResolution;
     prevRoundTime_ := 0; now_ := 0; prevCloseTime_ := 0; prevLedgerID_ := id;
     previousLedger_ := l; acquired_ := ∅; result_ := None;
     rawCloseTimes_ := mkCloseTimes ∅ 0; currPeerPositions_ := ∅;
     recentPeerPositions_ := ∅; prevProposers_ := 0; deadNodes_ := ∅ |}.

Inductive step : Consensus → Consensus → Prop :=
  | step_call env c s s' w :
      env_ok env → env_stable env → call_ok s c →
      run env c s = Ok (tt, s', w) → step s s'.

Definition reachable (s : Consensus) : Prop :=
  ∃ id l, rtc step (Consensus_ctor id l) s.

Context `{!TraitsLaws}.

Lemma run_wp env c s :
  env_ok env → env_stable env → call_ok s c → inv s →
  wp true (run env c) (λ _ s' _, inv s') s.
Proof.
  intros Hok Hst Hc Hinv. destruct c; simpl in *.
  - by apply startRound_wp.
  - wp_step. eapply wp_mono; [by apply peerProposal_wp|]. intros b s' w Hs'. by wp_step.
  - by apply timerEntry_wp.
  - eapply wp_mono; [by apply gotTxSet_wp|]. by intros _ s' w (?&_).
  - by apply simulate_wp.
Qed.

Lemma ctor_inv id l : inv (Consensus_ctor id l).
Proof. split; [split; simpl; try done; set_solver|done]. Qed.

Lemma reachable_inv s : reachable s → inv s.
Proof.
  intros (id & l & Hsteps).
  apply (rtc_ind_r (R := step) (λ s, inv s) (Consensus_ctor id l)); [apply ctor_inv| |done].
  clear s Hsteps. intros s s' _ Hstep Hinv.
  destruct Hstep as [env c s s' w Hok Hst Hc Hrun].
  pose proof (run_wp env c s Hok Hst Hc Hinv) as Hwp.
  unfold wp in Hwp. by rewrite Hrun in Hwp.
Qed.

(** ** Close times *)

Lemma closeTimeScan_spec votes tv tc ct0 have0 :
  StronglySorted key_le votes → NoDup votes.*1 →
  let '(ct, have) := closeTimeScan votes tv tc ct0 have0 in
  (Forall (λ p, p.2 < tv) votes ∧ ct = ct0 ∧ have = have0) ∨
  (∃ v, (ct, v) ∈ votes ∧ tv ≤ v ∧
     (∀ t' v', (t', v') ∈ votes → v' ≤ v ∧ (v' = v → t' ≤ ct)) ∧
     (have = true ↔ have0 = true ∨ tc ≤ v)).
Proof.
  revert tv ct0 have0. induction votes as [|[t v] votes IH]; intros tv ct0 have0 Hs Hnd.
  { simpl. left. by constructor. }
  apply StronglySorted_inv in Hs as [Hs Hall]. simpl in Hnd.
  apply NoDup_cons in Hnd as [Hnt Hnd]. cbn [closeTimeScan].
  destruct (Z.leb_spec tv v) as [Hle|Hlt].
  - specialize (IH v t (have0 || (tc <=? v)) Hs Hnd).
    destruct (closeTimeScan votes v tc t _) as [ct have].
    destruct IH as [(Hlow & -> & ->)|(v' & Hin & Hv & Hmax & Hh)]; right.
    + exists v. split; [by left|]. split; [done|]. split.
      * intros t' v' [[= -> ->]|Hin]%elem_of_cons; [lia|].
        rewrite Forall_forall in Hlow. specialize (Hlow _ Hin). simpl in Hlow. lia.
      * by rewrite orb_true_iff, Z.leb_le.
    + exists v'. split; [by right|]. split; [lia|]. split.
      * intros t2 v2 [[= -> ->]|Hin2]%elem_of_cons; [|auto]. split; [done|].
        intros ->. rewrite Forall_forall in Hall. apply (Hall _ Hin).
      * rewrite Hh, orb_true_iff, Z.leb_le. intuition lia.
  - specialize (IH tv ct0 have0 Hs Hnd).
    destruct (closeTimeScan votes tv tc ct0 have0) as [ct have].
    destruct IH as [(Hlow & -> & ->)|(v' & Hin & Hv & Hmax & Hh)].
    + left. by split; [constructor|].
    + right. exists v'. split; [by right|]. split; [done|]. split; [|done].
      intros t2 v2 [[= -> ->]|Hin2]%elem_of_cons; [lia|auto].
Qed.

(** ** The end of the establish phase *)

(** The number of current peers whose position is ours. *)
Definition agreeing (s : Consensus) (r : ConsensusResult) : Z :=
  Z.of_nat (size (filter (λ kv, position kv.2 = position (r_position r))
                    (currPeerPositions_ s))).

Definition peer_count (s : Consensus) : Z := Z.of_nat (size (currPeerPositions_ s)).

Lemma agree_length (s : Consensus) (P : NodeID_t * PeerPosition_t → Prop)
    `{!∀ x, Decision (P x)} :
  length (filter P (hash_elems (currPeerPositions_ s))) =
  size (filter P (currPeerPositions_ s)).
Proof.
  rewrite map_filter_alt, map_size_list_to_map.
  - by rewrite (filter_Permutation P _ _ (hash_elems_perm (currPeerPositions_ s))).
  - pose proof (NoDup_fst_map_to_list (currPeerPositions_ s)) as Hnd. revert Hnd.
    generalize (map_to_list (currPeerPositions_ s)) as l.
    induction l as [|x l IH]; [done|]. simpl. rewrite NoDup_cons. intros [Hx Hnd].
    rewrite filter_cons. case_decide; [|auto]. simpl. apply NoDup_cons.
    split; [|auto]. intros (y & Hxy & Hy)%list_elem_of_fmap. apply Hx, list_elem_of_fmap.
    exists y. split; [done|]. by apply list_elem_of_filter in Hy as [_ ?].
Qed.

Lemma agreeing_small s r : small_count (peer_count s) → small_count (agreeing s r).
Proof.
  unfold small_count, peer_count, agreeing. intros Hp.
  assert (size (filter (λ kv : NodeID_t * PeerPosition_t,
    position kv.2 = position (r_position r)) (currPeerPositions_ s))
    ≤ size (currPeerPositions_ s))%nat by (apply map_size_filter). lia.
Qed.

Lemma filter_bool_length {A} (f : A → bool) (l : list A) :
  (length (filter (λ x, f x = true) l) + length (filter (λ x, f x = false) l) = length l)%nat.
Proof.
  induction l as [|x l IH]; [done|]. rewrite !filter_cons.
  destruct (f x); simpl; lia.
Qed.

(** The state [haveConsensus] computes. *)
Definition consensus_state (env : Env) (s : Consensus) (r : ConsensusResult) : ConsensusState :=
  checkConsensus (prevProposers_ s) (peer_count s) (agreeing s r)
    (proposersFinished env (previousLedger_ s) (prevLedgerID_ s)) (prevRoundTime_ s)
    (timer_read (roundTime r)) (parms env) (bool_decide (mode_ s = proposing)).

Lemma haveConsensus_state tot env s r :
  result_ s = Some r →
  wp tot (haveConsensus env) (λ b s' w,
    s' = set_result_ (Some (set_r_state (consensus_state env s r) r)) s ∧
    b = negb (bool_decide (consensus_state env s r = No)) ∧ w = []) s.
Proof.
  intros Hr. unfold haveConsensus. wp_step. eapply wp_get_result; [done|]. wp_steps.
  eapply wp_upd_result; [done|]. wp_step.
  match goal with |- context [set_r_state ?st] =>
    assert (st = consensus_state env s r) as -> end; [|done].
  unfold consensus_state. f_equal.
  - rewrite <- Nat2Z.inj_add, filter_bool_length, length_hash_elems. done.
  - unfold agreeing. rewrite agree_length. do 2 f_equal. apply map_filter_ext.
    intros n p _. simpl. by rewrite bool_decide_eq_true.
Qed.

(** What an accepted round must satisfy. *)
Definition accepted_ok (env : Env) (before after : Consensus) (w : list event) : Prop :=
  ∃ r s, result_ after = Some r ∧
    (* the decision, taken in state [s] just before the phase changed *)
    phase_ s = establish ∧ mode_ s = mode_ before ∧
    prevProposers_ s = prevProposers_ before ∧ prevRoundTime_ s = prevRoundTime_ before ∧
    r_state r = consensus_state env s r ∧ r_state r ≠ No ∧
    haveCloseTimeConsensus_ s = true ∧
    set_id (txns r) = position (r_position r) ∧
    (* what is recorded and announced *)
    currPeerPositions_ after = currPeerPositions_ s ∧
    prevProposers_ after = peer_count s ∧ prevRoundTime_ after = timer_read (roundTime r) ∧
    last w = Some (OnAccept r (previousLedger_ s) (closeResolution_ s)
                     (rawCloseTimes_ s) (mode_ s)).

Lemma phaseEstablish_accept tot env s :
  inv s → phase_ s = establish →
  wp tot (phaseEstablish env) (λ _ s' w,
    phase_ s' = establish ∨ phase_ s' = accepted ∧ accepted_ok env s s' w) s.
Proof.
  intros Hinv Hph. destruct (inv_establish_result s Hinv Hph) as [r Hr].
  unfold phaseEstablish. wp_step. eapply wp_get_result; [done|]. wp_step.
  eapply wp_upd_result; [done|]. wp_steps. eapply wp_upd_result; [done|]. wp_step.
  eapply wp_get_result; [done|]. wp_steps. set (s1 := set_convergePercent_ _ _).
  assert (inv s1) as Hinv1.
  { eapply inv_ext; [by eapply (inv_tweak s r (set_proposers _ (set_roundTime _ r)))|done..]. }
  case_match; [by wp_step; left|]. wp_step.
  eapply wp_mono; [by apply updateOurPositions_wp|]. intros _ s2 w2 [Hinv2 Hf2]. wp_step.
  destruct Hf2 as (Hph2&Hm2&_&_&_&_&Hpp2&Hpr2&_). simpl in *. rewrite Hph in Hph2.
  destruct (inv_establish_result s2 Hinv2 Hph2) as [r2 Hr2].
  eapply wp_mono; [by eapply shouldPause_wp|]. intros pause s3 w3 ->.
  destruct pause; [by wp_step; left|]. wp_step.
  eapply wp_mono; [by eapply haveConsensus_state|]. intros b s4 w4 (-> & -> & ->).
  case_bool_decide as Hst; simpl; [by wp_step; left|]. wp_steps.
  destruct (haveCloseTimeConsensus_ s2) eqn:Hct; simpl; rewrite Hct; simpl; [|by wp_step; left].
  wp_steps. eapply wp_get_result; [done|]. wp_steps. right. split; [done|].
  exists (set_r_state (consensus_state env s2 r2) r2), s2. simpl.
  destruct (proj2 Hinv2 r2 Hr2) as [[Hpos _] _].
  split_and!; try done. by rewrite ?app_nil_r, ?app_assoc, ?last_app.
Qed.

(** ** Who may propose

    [keeps I P m]: from a state in [I], if [m] returns it ends in [I] and has
    only made calls in [P]. *)
Definition keeps {A} (I : Consensus → Prop) (P : event → Prop) (m : CM A) : Prop :=
  ∀ s a s' w, I s → m s = Ok (a, s', w) → I s' ∧ Forall P w.

Section keeps_rules.
Context (I : Consensus → Prop) (P : event → Prop).

Lemma keeps_ret {A} (a : A) : keeps I P (mret a).
Proof. intros s a' s' w Hs [= <- <- <-]. auto. Qed.

Lemma keeps_bind {A B} (m : CM A) (k : A → CM B) :
  keeps I P m → (∀ a, keeps I P (k a)) → keeps I P (m ≫= k).
Proof.
  intros Hm Hk s b s2 w Hs. unfold mbind, M_bind.
  destruct (m s) as [[[a s1] w1]| |] eqn:E; [|done..].
  destruct (k a s1) as [[[b' s2'] w2]| |] eqn:E2; [|done..]. intros [= <- <- <-].
  destruct (Hm _ _ _ _ Hs E) as [Hs1 Hw1].
  destruct (Hk _ _ _ _ _ Hs1 E2) as [Hs2 Hw2]. split; [done|]. by apply Forall_app.
Qed.

Lemma keeps_get {B} (k : Consensus → CM B) :
  (∀ s, I s → keeps I P (k s)) → keeps I P (get ≫= k).
Proof.
  intros Hk s b s2 w Hs. unfold mbind, M_bind, get.
  destruct (k s s) as [[[b' s2'] w2]| |] eqn:E2; [|done..]. intros [= <- <- <-].
  by destruct (Hk _ Hs _ _ _ _ Hs E2).
Qed.

Lemma keeps_modify f : (∀ s, I s → I (f s)) → keeps I P (modify f).
Proof. intros Hf s a s' w Hs [= <- <- <-]. auto. Qed.

Lemma keeps_emit e : P e → keeps I P (emit e).
Proof. intros He s a s' w Hs [= <- <- <-]. auto. Qed.

Lemma keeps_massert b what : keeps I P (massert b what).
Proof. unfold massert. intros s a s' w Hs. destruct b; [intros [= <- <- <-]; auto|done]. Qed.

Lemma keeps_unwrap {A} (o : option A) what : keeps I P (unwrap o what).
Proof. unfold unwrap. intros s a s' w Hs. destruct o; [intros [= <- <- <-]; auto|done]. Qed.

Lemma keeps_when b (m : CM unit) : (b = true → keeps I P m) → keeps I P (when b m).
Proof. destruct b; simpl; [auto|]. intros _. apply keeps_ret. Qed.

Lemma keeps_for_each {A} (l : list A) (f : A → CM unit) :
  (∀ a, keeps I P (f a)) → keeps I P (for_each l f).
Proof.
  intros Hf. induction l; simpl; [apply keeps_ret|]. apply keeps_bind; [done|]. by intros _.
Qed.

Lemma keeps_get_result {B} (k : ConsensusResult → CM B) :
  (∀ r, keeps I P (k r)) → keeps I P (get_result ≫= k).
Proof.
  intros Hk. apply keeps_bind; [|done]. unfold get_result.
  apply keeps_get. intros. apply keeps_unwrap.
Qed.
End keeps_rules.

Definition not_proposing (s : Consensus) : Prop := mode_ s ≠ proposing.
Definition no_proposal (e : event) : Prop := match e with Propose _ => False | _ => True end.

Abbreviation quiet := (keeps not_proposing no_proposal).

(** Decompose a program into its statements. *)
Ltac quiet_step :=
  lazymatch goal with
  | |- keeps _ _ (mret _) => apply keeps_ret
  | |- keeps _ _ (massert _ _) => apply keeps_massert
  | |- keeps _ _ (unwrap _ _) => apply keeps_unwrap
  | |- keeps _ _ (modify _) => apply keeps_modify; intros ?; exact id
  | |- keeps _ _ (upd_result _) => apply keeps_modify; intros ?; exact id
  | |- keeps _ _ (emit _) => apply keeps_emit; done
  | |- keeps _ _ (mbind _ get) => apply keeps_get; intros ? ?
  | |- keeps _ _ (mbind _ get_result) => apply keeps_get_result; intros ?
  | |- keeps _ _ (when _ _) => apply keeps_when; intros ?
  | |- keeps _ _ (for_each _ _) => apply keeps_for_each; intros ?
  | |- keeps _ _ (mbind _ _) => apply keeps_bind; [|intros ?]
  | |- keeps _ _ (match ?x with _ => _ end) => destruct x
  end.
Ltac quiet_steps := repeat (quiet_step; try done).

Lemma createDispute_quiet o k b : quiet (createDispute o k b).
Proof. unfold createDispute. quiet_steps. Qed.

Lemma createDisputes_quiet o : quiet (createDisputes o).
Proof. unfold createDisputes. quiet_steps. apply createDispute_quiet. Qed.

Lemma updateDisputes_quiet n o : quiet (updateDisputes n o).
Proof. unfold updateDisputes. quiet_steps. apply createDisputes_quiet. Qed.

Lemma gotTxSet_quiet now t : quiet (gotTxSet now t).
Proof. unfold gotTxSet. quiet_steps. apply updateDisputes_quiet. Qed.

Section quiet_env.
Context (env : Env).

Lemma processPosition_quiet p : quiet (processPosition env p).
Proof.
  unfold processPosition. quiet_steps; [apply updateDisputes_quiet|apply gotTxSet_quiet].
Qed.

Lemma peerProposalInternal_quiet now p : quiet (peerProposalInternal env now p).
Proof. unfold peerProposalInternal. quiet_steps. apply processPosition_quiet. Qed.

Lemma peerProposal_quiet now p : quiet (peerProposal env now p).
Proof. unfold peerProposal. quiet_steps. apply peerProposalInternal_quiet. Qed.

Lemma playbackProposals_quiet : quiet (playbackProposals env).
Proof. unfold playbackProposals. quiet_steps. apply peerProposalInternal_quiet. Qed.

Lemma leaveConsensus_quiet : quiet leaveConsensus.
Proof.
  unfold leaveConsensus. quiet_step. case_bool_decide; [by exfalso|]. quiet_steps.
Qed.

Lemma closeLedger_quiet : quiet (closeLedger env).
Proof.
  unfold closeLedger, ConsensusResult_ctor. quiet_steps.
  - exfalso. rewrite bool_decide_eq_true in *. done.
  - apply createDisputes_quiet.
Qed.

Lemma removeStaleLoop_quiet cutoff l votes : quiet (removeStaleLoop cutoff l votes).
Proof. revert votes. induction l as [|[n p] l IH]; intros votes; simpl; quiet_steps; apply IH. Qed.

Lemma adoptPosition_quiet set ct : quiet (adoptPosition set ct).
Proof.
  unfold adoptPosition. quiet_steps; [apply updateDisputes_quiet|].
  exfalso. rewrite andb_true_iff, bool_decide_eq_true in *. naive_solver.
Qed.

Lemma updateOurPositions_quiet : quiet (updateOurPositions env).
Proof.
  unfold updateOurPositions, removeStalePositions, updateDisputeVotes. quiet_steps;
    first [apply removeStaleLoop_quiet | apply adoptPosition_quiet].
Qed.

Lemma phaseOpen_quiet : quiet (phaseOpen env).
Proof. unfold phaseOpen. quiet_steps. apply closeLedger_quiet. Qed.

Lemma phaseEstablish_quiet : quiet (phaseEstablish env).
Proof.
  unfold phaseEstablish, shouldPause, haveConsensus. quiet_steps.
  apply updateOurPositions_quiet.
Qed.

Lemma set_mode_quiet m : m ≠ proposing → quiet (set_mode m).
Proof. intros Hm. unfold set_mode. quiet_step. quiet_step; [quiet_step|]. by apply keeps_modify. Qed.

Lemma timerEntry_with_quiet sri now :
  (∀ now id l, quiet (sri now id l switchedLedger)) →
  quiet (timerEntry_with env sri now).
Proof.
  intros Hsri. unfold timerEntry_with, checkLedger, handleWrongLedger. quiet_steps;
    first [apply leaveConsensus_quiet | apply playbackProposals_quiet | apply Hsri
          | by apply set_mode_quiet | apply phaseOpen_quiet | apply phaseEstablish_quiet].
Qed.

Lemma startRoundInternal_quiet fuel now id l m :
  m ≠ proposing → quiet (startRoundInternal env fuel now id l m).
Proof.
  revert now id l m. induction fuel as [|fuel IH]; intros now id l m Hm; [by intros ?|].
  cbn [startRoundInternal]. quiet_steps.
  - by apply set_mode_quiet.
  - apply playbackProposals_quiet.
  - apply timerEntry_with_quiet. intros. by apply IH.
Qed.

Lemma timerEntry_quiet fuel now : quiet (timerEntry env fuel now).
Proof.
  apply timerEntry_with_quiet. intros. by apply startRoundInternal_quiet.
Qed.

Lemma simulate_quiet now delay : quiet (simulate env now delay).
Proof. unfold simulate. quiet_steps; apply closeLedger_quiet. Qed.

Lemma run_quiet c :
  match c with StartRound _ _ _ _ prop => prop = false | _ => True end →
  quiet (run env c).
Proof.
  destruct c; simpl; intros Hc.
  - subst. unfold startRound. quiet_steps; try by apply startRoundInternal_quiet.
  - quiet_steps. apply peerProposal_quiet.
  - apply timerEntry_quiet.
  - apply gotTxSet_quiet.
  - apply simulate_quiet.
Qed.
End quiet_env.
End reachability.
