(* ===== verification/EngineClaims.v ===== *)
(** * A concrete instance of the consensus template

    Transactions are integers, a set of transactions is a finite set that is
    its own identifier, a ledger is its sequence number.  It shows that the
    laws assumed of the template's types can hold, and runs the model. *)
From S2P Require Import Prelude Timing Thresholds Dispute Proposal Engine EngineInv EngineRounds EngineProps.

Definition demo_compare (a b : gset Z) : gmap Z bool :=
  gset_to_gmap true (a ∖ b) ∪ gset_to_gmap false (b ∖ a).

#[export] Instance demo_order : HashOrder Z := default_order Z.

#[export] Instance demo_traits : Traits := {
  NodeID_t := Z; NodeKey_t := Z; TxID_t := Z; Tx_t := Z; tx_id := id;
  TxSetID_t := gset Z; TxSet_t := gset Z; set_id := id;
  set_exists := λ s k, bool_decide (k ∈ s);
  set_find := λ s k, if decide (k ∈ s) then Some k else None;
  set_compare := demo_compare;
  set_insert := λ t s, {[t]} ∪ s;
  set_erase := λ k s, s ∖ {[k]};
  LedgerID_t := Z; Ledger_t := Z; ledger_id := id; ledger_seq := id;
  closeTimeResolution := λ _, 10; closeAgree := λ _, true;
  ledger_closeTime := λ l, 100 * l; parentCloseTime := λ l, 100 * (l - 1);
}.

#[export] Instance demo_laws : TraitsLaws.
Proof.
  split; simpl.
  - by intros a b ->.
  - intros a k Hk%bool_decide_eq_true. exists k. by rewrite decide_True.
  - intros a k Hk%bool_decide_eq_false. by rewrite decide_False.
  - intros a b k v. unfold demo_compare.
    rewrite lookup_union_Some_raw, !lookup_gset_to_gmap_Some, lookup_gset_to_gmap_None.
    rewrite !elem_of_difference.
    destruct (decide (k ∈ a)), (decide (k ∈ b));
      rewrite ?(bool_decide_eq_true_2 (k ∈ a)), ?(bool_decide_eq_true_2 (k ∈ b)),
        ?(bool_decide_eq_false_2 (k ∈ a)), ?(bool_decide_eq_false_2 (k ∈ b)) by done;
      naive_solver.
  - intros t a k. unfold id. repeat case_bool_decide; set_solver.
  - intros i a k. repeat case_bool_decide; set_solver.
Qed.

(** An adaptor that stays on ledger [5], closes with the set [ours], and
    sees the steady clock at [clock] milliseconds. *)
Definition demo_env (clock : Z) (ours : gset Z) : Env := {|
  parms := default_parms;
  clock_now := clock * 1000000;
  hasOpenTransactions := true;
  proposersValidated := λ _, 0;
  proposersFinished := λ _ _, 0;
  getPrevLedger := λ _ _ _, 5;
  acquireLedger := λ i, if (0 <=? i) && (i <? 1000) then Some i else None;
  acquireTxSet := λ i, Some i;
  onClose := λ l now m, (ours, mkProposal l ours now now seqJoin 0);
  getValidLedgerIndex := 5;
  getQuorumKeys := (3, {[1; 2; 3; 4]});
  laggards := λ _ k, (0, ∅);
  validator := true;
  haveValidated := true;
|}.

Lemma demo_valid l : 0 ≤ l < 1000 → valid_ledger (l : Ledger_t).
Proof.
  intros Hl. split; simpl; [apply valid_resolution_cases; lia|].
  unfold id. rewrite u32_id; lia.
Qed.

Lemma demo_env_ok clock ours : env_ok (demo_env clock ours).
Proof.
  split; [done|]. simpl. intros i l. case_bools; [|done]. intros [= <-].
  apply demo_valid. reflect_bools. lia.
Qed.

Lemma demo_env_stable clock ours : env_stable (demo_env clock ours).
Proof.
  split; simpl.
  - intros i l. case_bools; [|done]. by intros [= <-].
  - intros i l m j l' <- _. done.
Qed.

(** Run a list of calls other than [simulate]. *)
Fixpoint run_all (cs : list (Env * call)) (s : Consensus) : res Consensus :=
  match cs with
  | [] => Ok s
  | (env, c) :: cs =>
      match run env c s with
      | Ok (_, s', _) => run_all cs s'
      | AssertFail e => AssertFail e
      | OutOfFuel => OutOfFuel
      end
  end.

Definition demo_call (x : Z * gset Z * call) : Env * call := (demo_env x.1.1 x.1.2, x.2).

Lemma run_all_reachable cs s s' :
  Forall (λ x, ∀ s, call_ok s (x.2 : call)) cs →
  rtc step (Consensus_ctor (0 : LedgerID_t) (0 : Ledger_t)) s →
  run_all (demo_call <$> cs) s = Ok s' → reachable s'.
Proof.
  revert s. induction cs as [|[[clock ours] c] cs IH]; intros s Hc Hs; simpl.
  { intros [= <-]. by exists (0 : Z), (0 : Z). }
  inversion Hc; subst.
  destruct (run _ _ _) as [[[[] s1] w]| |] eqn:Hrun; [|done..].
  apply IH; [done|]. eapply rtc_r; [done|].
  econstructor; [apply demo_env_ok|apply demo_env_stable| |done]. auto.
Qed.

(** A round: peer 1 proposes the set 1, 3, peer 2 the set 1, 2; we close
    with the set 1, 2. *)
Definition demo_peer (n : Z) (pos : gset Z) (sq now : Z) : PeerPosition_t :=
  mkProposal (5 : LedgerID_t) (pos : TxSetID_t) now now sq (n : NodeID_t).

Definition demo_trace : list (Z * gset Z * call) :=
  [ (0, ∅, StartRound 505 (5 : LedgerID_t) (5 : Ledger_t) ∅ true);
    (1000, ∅, PeerProposal 506 (demo_peer 1 {[1; 3]} 0 506));
    (2000, ∅, PeerProposal 507 (demo_peer 2 {[1; 2]} 0 507));
    (3000, {[1; 2]}, TimerEntry 508) ].

Definition state_of (cs : list (Z * gset Z * call)) : Consensus :=
  match run_all (demo_call <$> cs) (Consensus_ctor (0 : LedgerID_t) (0 : Ledger_t)) with
  | Ok s => s
  | _ => Consensus_ctor (0 : LedgerID_t) (0 : Ledger_t)
  end.

Definition demo_state : Consensus := state_of demo_trace.

(** Peer 1 then moves to the set 1, 2 as well. *)
Definition demo_trace2 : list (Z * gset Z * call) :=
  demo_trace ++ [ (6000, {[1; 2]}, PeerProposal 510 (demo_peer 1 {[1; 2]} 1 510)) ].
Definition demo_state2 : Consensus := state_of demo_trace2.

Lemma demo_trace_ok : Forall (λ x, ∀ s, call_ok s (x.2 : call)) demo_trace.
Proof. repeat constructor; try done; apply demo_valid; lia. Qed.

Lemma demo_trace2_ok : Forall (λ x, ∀ s, call_ok s (x.2 : call)) demo_trace2.
Proof. apply Forall_app. split; [apply demo_trace_ok|by repeat constructor]. Qed.

Lemma state_of_reachable cs :
  Forall (λ x, ∀ s, call_ok s (x.2 : call)) cs →
  is_ok (run_all (demo_call <$> cs) (Consensus_ctor (0 : LedgerID_t) (0 : Ledger_t))) = true →
  reachable (state_of cs).
Proof.
  intros Hcs Hok. unfold state_of.
  destruct (run_all _ _) as [s| |] eqn:Hrun; [|done..].
  by eapply run_all_reachable; [|apply rtc_refl|].
Qed.

Lemma demo_reachable : reachable demo_state.
Proof. apply state_of_reachable; [apply demo_trace_ok|vm_compute; reflexivity]. Qed.

Lemma demo_reachable2 : reachable demo_state2.
Proof. apply state_of_reachable; [apply demo_trace2_ok|vm_compute; reflexivity]. Qed.

(** Facts of the run, by evaluation. *)
Lemma demo_result :
  ∃ r, result_ demo_state = Some r ∧ set_exists (txns r) (3 : TxID_t) = false.
Proof.
  assert (match result_ demo_state with
          | Some r => set_exists (txns r) (3 : TxID_t) | None => true end = false) as Hf
    by (vm_compute; reflexivity).
  destruct (result_ demo_state) as [r|]; [eauto|done].
Qed.

Lemma demo_peer1 :
  ∃ p, currPeerPositions_ demo_state !! (1 : NodeID_t) = Some p ∧
    acquired_ demo_state !! position p = Some ({[1; 3]} : TxSet_t).
Proof.
  assert (match currPeerPositions_ demo_state !! (1 : NodeID_t) with
          | Some p => match acquired_ demo_state !! position p with
                      | Some t => bool_decide ((t : gset Z) = {[1; 3]})
                      | None => false end
          | None => false end = true) as Hf by (vm_compute; reflexivity).
  destruct (currPeerPositions_ demo_state !! _) as [p|]; [|done]. exists p.
  split; [done|]. destruct (acquired_ demo_state !! position p) as [t|]; [|done].
  apply bool_decide_eq_true in Hf. by subst.
Qed.

Lemma demo_phase : phase_ demo_state = establish ∧ phase_ demo_state2 = establish.
Proof. split; vm_compute; reflexivity. Qed.

(** The start of a round as an observer. *)
Definition demo_observe : @call demo_traits :=
  StartRound 505 (5 : LedgerID_t) (5 : Ledger_t) ∅ false.
Definition demo_init : @Consensus demo_traits :=
  Consensus_ctor (0 : LedgerID_t) (0 : Ledger_t).

(** * What the consensus state machine guarantees

    The theorems on [Consensus<Adaptor>], each with an instance on the
    concrete run above. *)

(** C1: from any state the engine can reach, every public call whose
    arguments are well formed returns: it violates none of the assertions of
    [Consensus.h] (no use of an absent result, no second position, no dispute
    about a transaction both sides have, no acquired set that is already our
    position, no invalid ledger change) and the mutual recursion of starting a
    round, checking the ledger and the timer stops after at most two nested
    rounds, provided the adaptor keeps naming the ledger we switched to. *)
Theorem calls_return `{Traits} `{!TraitsLaws} (s : Consensus) (env : Env) (c : call)
    (Hs : reachable s) (Henv : env_ok env) (Hstable : env_stable env)
    (Hc : call_ok s c) :
  ∃ s' w, run env c s = Ok (tt, s', w) ∧ reachable s'.
Proof.
  pose proof (run_wp env c s Henv Hstable Hc (reachable_inv s Hs)) as Hwp.
  unfold wp in Hwp. destruct (run env c s) as [[[[] s'] w]| |] eqn:Hrun; [|done..].
  exists s', w. split; [done|]. destruct Hs as (id & l & Hs). exists id, l.
  eapply rtc_r; [done|]. by econstructor.
Qed.

Lemma calls_return_witness :
  ∃ s' w, run (demo_env 6000 {[1; 2]}) (TimerEntry 511) demo_state2 = Ok (tt, s', w)
          ∧ reachable s'.
Proof.
  apply calls_return; [apply demo_reachable2|apply demo_env_ok|apply demo_env_stable|exact I].
Defined.

(** C9: disputes are complete and accurate.  In every reachable state with a
    position of ours, for each peer whose proposed transaction set we have:
    every transaction on which that set differs from ours is a dispute, on
    every dispute the peer's recorded vote is whether its set contains the
    transaction, our vote is whether our set contains it, and the yes and no
    counters are the numbers of such votes. *)
Theorem disputes_complete_and_accurate `{Traits} `{!TraitsLaws}
    (s : Consensus) (r : ConsensusResult) (n : NodeID_t) (p : PeerPosition_t)
    (t : TxSet_t) (k : TxID_t)
    (Hs : reachable s) (Hr : result_ s = Some r)
    (Hp : currPeerPositions_ s !! n = Some p)
    (Ht : acquired_ s !! position p = Some t) :
  (set_exists (txns r) k ≠ set_exists t k → is_Some (disputes r !! k)) ∧
  (∀ d, disputes r !! k = Some d →
     votes_ d !! n = Some (set_exists t k) ∧ ourVote_ d = set_exists (txns r) k ∧
     tx_id (tx_ d) = k ∧
     yays_ d = count_votes true (votes_ d) ∧ nays_ d = count_votes false (votes_ d)).
Proof.
  destruct (reachable_inv s Hs) as [_ Hres].
  destruct (Hres r Hr) as [_ Hd]. destruct Hd. split.
  - intros Hne. destruct (di_complete (position p) t k) as [[]|]; eauto using elem_of_empty.
    eapply (di_compared n p); eauto. set_solver.
  - intros d Hd. destruct (di_wf k d Hd) as [[Hy Hn] Htx].
    split_and!; eauto. eapply di_vote; eauto. set_solver.
Qed.

Lemma disputes_complete_and_accurate_witness :
  ∃ r d, result_ demo_state = Some r ∧ disputes r !! (3 : TxID_t) = Some d ∧
    votes_ d !! (1 : NodeID_t) = Some true.
Proof.
  destruct demo_result as (r & Hr & H3). destruct demo_peer1 as (p & Hp & Ht).
  destruct (disputes_complete_and_accurate demo_state r 1 p {[1; 3]} 3
    demo_reachable Hr Hp Ht) as [Hc Ha].
  destruct Hc as [d Hd]; [rewrite H3; discriminate|].
  exists r, d. split; [exact Hr|]. split; [exact Hd|]. apply (Ha d Hd).
Defined.

(** the votes on a dispute come only from peers that currently have a
    position, each peer's entry is keyed by its own node id, built on the
    ledger we work from, and is from a node that has not left the round; our
    own position always names a set we hold. *)
Theorem peer_positions_current `{Traits} `{!TraitsLaws} (s : Consensus)
    (Hs : reachable s) :
  (∀ n p, currPeerPositions_ s !! n = Some p →
     nodeID p = n ∧ previousLedger p = prevLedgerID_ s ∧ isBowOut p = false ∧
     n ∉ deadNodes_ s) ∧
  (∀ n ps, recentPeerPositions_ s !! n = Some ps → (length ps ≤ 10)%nat) ∧
  (∀ r, result_ s = Some r →
     position (r_position r) = set_id (txns r) ∧
     is_Some (acquired_ s !! position (r_position r)) ∧
     ∀ k d n b, disputes r !! k = Some d → votes_ d !! n = Some b →
       is_Some (currPeerPositions_ s !! n)).
Proof.
  destruct (reachable_inv s Hs) as [[] Hres]. split; [done|]. split.
  - intros n ps Hps. by destruct (inv_recent n ps Hps).
  - intros r Hr. destruct (Hres r Hr) as [[Hpos Hacq] []]. rewrite <- Hpos. auto.
Qed.

Lemma peer_positions_current_witness :
  ∃ p, currPeerPositions_ demo_state !! (1 : NodeID_t) = Some p ∧ nodeID p = 1.
Proof.
  destruct (peer_positions_current demo_state demo_reachable) as [Hp _].
  destruct demo_peer1 as (p & Hp1 & _).
  exists p. split; [exact Hp1|]. apply (Hp 1 p Hp1).
Defined.

(** C24: the establish phase ends only by consensus.  When [phaseEstablish]
    leaves the phase it goes to [accepted], announces exactly the result it
    holds, had consensus on the close time, and the recorded state is [Yes] or
    [MovedOn]; with [Yes], the required percentage of the peers with a current
    position (and ourselves when proposing) have the very position we accept,
    or there are no such peers. *)
Theorem establish_ends_by_consensus `{Traits} `{!TraitsLaws} (s : Consensus) (env : Env)
    (Hs : reachable s) (Hph : phase_ s = establish)
    (Hprev : small_count (prevProposers_ s))
    (Hfin : ∀ l i, small_count (proposersFinished env l i)) :
  ∃ s' w, phaseEstablish env s = Ok (tt, s', w) ∧
    (phase_ s' = establish ∨
     phase_ s' = accepted ∧ ∃ r, result_ s' = Some r ∧
       (∃ l c raw m, last w = Some (OnAccept r l c raw m)) ∧
       position (r_position r) = set_id (txns r) ∧
       (r_state r = Yes ∨ r_state r = MovedOn) ∧
       (r_state r = Yes → small_count (peer_count s') → peer_count s' = 0 ∨
          let self := bool_decide (mode_ s = proposing) in
          minCONSENSUS_PCT (parms env) * with_self self (peer_count s')
            ≤ 100 * with_self self (agreeing s' r))).
Proof.
  pose proof (phaseEstablish_accept true env s (reachable_inv s Hs) Hph) as Hwp.
  unfold wp in Hwp. destruct (phaseEstablish env s) as [[[[] s'] w]| |]; [|done..].
  exists s', w. split; [done|]. destruct Hwp as [|[Hacc Hok]]; [by left|right].
  split; [done|].
  destruct Hok as (r & s1 & Hr & _ & Hm & Hpp & _ & Hst & Hno & _ & Hpos & Hcur & _ & _ & Hw).
  exists r. split; [done|]. split; [eauto|]. split; [done|].
  split; [by destruct (r_state r); auto|]. intros Hyes.
  assert (peer_count s' = peer_count s1) as -> by (unfold peer_count; by rewrite Hcur).
  assert (agreeing s' r = agreeing s1 r) as -> by (unfold agreeing; by rewrite Hcur).
  intros Hpeers.
  pose proof (agreeing_small s1 r Hpeers) as Hagree.
  rewrite Hyes in Hst. unfold consensus_state in Hst. rewrite Hm in Hst.
  pose proof (checkConsensus_bounds (prevProposers_ s1) (peer_count s1) (agreeing s1 r)
    (proposersFinished env (previousLedger_ s1) (prevLedgerID_ s1)) (prevRoundTime_ s1)
    (timer_read (roundTime r)) (parms env) (bool_decide (mode_ s = proposing))
    ltac:(by rewrite Hpp) Hpeers Hagree (Hfin _ _)) as (_ & Hy & _).
  apply Hy. done.
Qed.

Lemma establish_ends_by_consensus_witness :
  ∃ s' w r, phaseEstablish (demo_env 6000 {[1; 2]}) demo_state2 = Ok (tt, s', w) ∧
    phase_ s' = accepted ∧ result_ s' = Some r ∧ (r_state r = Yes ∨ r_state r = MovedOn).
Proof.
  destruct (establish_ends_by_consensus demo_state2 (demo_env 6000 {[1; 2]}))
    as (s' & w & Hrun & Hend).
  - apply demo_reachable2.
  - apply demo_phase.
  - vm_compute; split; [discriminate|reflexivity].
  - intros; vm_compute; split; [discriminate|reflexivity].
  - assert (match phaseEstablish (demo_env 6000 {[1; 2]}) demo_state2 with
            | Ok (_, s', _) => bool_decide (phase_ s' = establish) | _ => true end = false)
      as Hne by (vm_compute; reflexivity).
    rewrite Hrun in Hne. apply bool_decide_eq_false in Hne.
    destruct Hend as [Hph|(Hph & r & Hr & _ & _ & Hst & _)]; [contradiction|].
    exists s', w, r. exact (conj Hrun (conj Hph (conj Hr Hst))).
Defined.

(** ** Quorums *)

Section quorums.
Context `{Traits}.

(** The nodes a server counts: the peers with a current position, and itself
    when it proposes; and those of them that have its position. *)
Definition ourselves (self : NodeID_t) (s : Consensus) : gset NodeID_t :=
  if decide (mode_ s = proposing) then {[self]} else ∅.

Definition electorate (self : NodeID_t) (s : Consensus) : gset NodeID_t :=
  dom (currPeerPositions_ s) ∪ ourselves self s.

Definition supporters (self : NodeID_t) (s : Consensus) (r : ConsensusResult) : gset NodeID_t :=
  dom (filter (λ kv, position kv.2 = position (r_position r)) (currPeerPositions_ s))
    ∪ ourselves self s.

(** The server declares consensus on its position. *)
Definition declares (env : Env) (s : Consensus) : Prop :=
  ∃ s' r', haveConsensus env s = Ok (true, s', []) ∧ result_ s' = Some r' ∧ r_state r' = Yes.

Lemma declares_state env s r :
  result_ s = Some r → declares env s ↔ consensus_state env s r = Yes.
Proof.
  intros Hr. pose proof (haveConsensus_state true env s r Hr) as Hwp. unfold wp in Hwp.
  unfold declares. destruct (haveConsensus env s) as [[[b s'] w]| |]; [|done..].
  destruct Hwp as (-> & -> & ->). split.
  - intros (s' & r' & [= _ <-] & [= <-] & Hst). exact Hst.
  - intros Hst. eexists _, _. rewrite Hst. by split_and!.
Qed.

Lemma supporters_subset self s r : supporters self s r ⊆ electorate self s.
Proof.
  unfold supporters, electorate. apply union_mono_r. apply subseteq_dom, map_filter_subseteq.
Qed.

Lemma size_ourselves (X : gset NodeID_t) self s :
  self ∉ X → Z.of_nat (size (X ∪ ourselves self s))
    = with_self (bool_decide (mode_ s = proposing)) (Z.of_nat (size X)).
Proof.
  intros Hx. unfold ourselves, with_self. case_decide as Hm; rewrite ?bool_decide_eq_true_2,
    ?bool_decide_eq_false_2 by done.
  - rewrite size_union, size_singleton by set_solver. lia.
  - by rewrite union_empty_r_L.
Qed.

Lemma electorate_size self s :
  self ∉ dom (currPeerPositions_ s) →
  Z.of_nat (size (electorate self s))
    = with_self (bool_decide (mode_ s = proposing)) (peer_count s).
Proof. intros Hx. unfold electorate. by rewrite size_ourselves, size_dom. Qed.

Lemma supporters_size self s r :
  self ∉ dom (currPeerPositions_ s) →
  Z.of_nat (size (supporters self s r))
    = with_self (bool_decide (mode_ s = proposing)) (agreeing s r).
Proof.
  intros Hx. unfold supporters. rewrite size_ourselves, size_dom; [done|].
  intros Hin. apply Hx. revert Hin. apply subseteq_dom, map_filter_subseteq.
Qed.

(** Consensus is declared exactly when the round may end and the position has a quorum. *)
Lemma declares_quorum env self s r :
  result_ s = Some r → self ∉ dom (currPeerPositions_ s) →
  small_count (prevProposers_ s) → small_count (peer_count s) →
  declares env s ↔
  ledgerMIN_CONSENSUS (parms env) < timer_read (roundTime r) ∧
  (prevProposers_ s * 3 / 4 ≤ peer_count s ∨
   prevRoundTime_ s + ledgerMIN_CONSENSUS (parms env) ≤ timer_read (roundTime r)) ∧
  (currPeerPositions_ s = ∅ ∨
   minCONSENSUS_PCT (parms env) * Z.of_nat (size (electorate self s))
     ≤ 100 * Z.of_nat (size (supporters self s r))).
Proof.
  intros Hr Hself Hprev Hcur. rewrite (declares_state env s r Hr). unfold consensus_state.
  rewrite checkConsensus_yes by (done || by apply agreeing_small).
  rewrite electorate_size, supporters_size by done.
  assert (peer_count s = 0 ↔ currPeerPositions_ s = ∅) as ->; [|done].
  unfold peer_count. rewrite <- map_size_empty_iff. lia.
Qed.

Lemma supporter_position self s r n :
  n ∈ supporters self s r → n ≠ self →
  ∃ p, currPeerPositions_ s !! n = Some p ∧ position p = position (r_position r).
Proof.
  unfold supporters, ourselves. intros [Hn|Hn]%elem_of_union Hne.
  - apply elem_of_dom in Hn as [p Hp]. apply map_lookup_filter_Some in Hp as [Hp Hpos]. eauto.
  - case_decide; set_solver.
Qed.

Lemma overlap_size (X Y E : gset NodeID_t) :
  X ⊆ E → Y ⊆ E →
  Z.of_nat (size X) + Z.of_nat (size Y) ≤ Z.of_nat (size (X ∩ Y)) + Z.of_nat (size E).
Proof.
  intros HX HY. pose proof (size_union_alt X Y) as Hu.
  pose proof (size_union (Y ∖ X) (X ∩ Y) ltac:(set_solver)) as Hy.
  assert ((Y ∖ X) ∪ (X ∩ Y) = Y) as HYX.
  { apply set_eq. intros x. destruct (decide (x ∈ X)); set_solver. }
  rewrite HYX in Hy. pose proof (subseteq_size (X ∪ Y) E ltac:(set_solver)). lia.
Qed.
End quorums.

(** C26: consensus needs a quorum, and a quorum suffices.  When the engine
    checks for consensus it declares it on its position exactly when the
    minimum time has passed, there are three quarters of the previous round's
    proposers or the round has lasted at least that minimum longer than the
    previous one, and either
    no peer has a position or at least the required percentage of the nodes it
    counts, itself included when it proposes, have that position. *)
Theorem consensus_declared_exactly `{Traits} (env : Env) (self : NodeID_t)
    (s : Consensus) (r : ConsensusResult)
    (Hr : result_ s = Some r) (Hself : self ∉ dom (currPeerPositions_ s))
    (Hprev : small_count (prevProposers_ s)) (Hcur : small_count (peer_count s)) :
  declares env s ↔
  ledgerMIN_CONSENSUS (parms env) < timer_read (roundTime r) ∧
  (prevProposers_ s * 3 / 4 ≤ peer_count s ∨
   prevRoundTime_ s + ledgerMIN_CONSENSUS (parms env) ≤ timer_read (roundTime r)) ∧
  (currPeerPositions_ s = ∅ ∨
   minCONSENSUS_PCT (parms env) * Z.of_nat (size (electorate self s))
     ≤ 100 * Z.of_nat (size (supporters self s r))).
Proof. by apply declares_quorum. Qed.

(** C25: two servers do not declare consensus on different positions unless
    many nodes are counted for both.  Let two servers in any states, with
    peers, declare consensus on the positions [p1] and [p2] with one required
    percentage.  The nodes counted by both for their positions are, except for
    the servers themselves, nodes whose current position is [p1] for the one
    server and [p2] for the other, and their number, with that of all the nodes
    the servers count, reaches the percentage of the sum of both electorates.
    For servers that count the same nodes and the protocol's 80 percent that is
    60 percent of these nodes. *)
Theorem conflicting_consensus_needs_equivocation `{Traits} (env1 env2 : Env)
    (self1 self2 : NodeID_t) (s1 s2 : Consensus) (r1 r2 : ConsensusResult)
    (Hr1 : result_ s1 = Some r1) (Hr2 : result_ s2 = Some r2)
    (Hself1 : self1 ∉ dom (currPeerPositions_ s1)) (Hself2 : self2 ∉ dom (currPeerPositions_ s2))
    (Hprev1 : small_count (prevProposers_ s1)) (Hprev2 : small_count (prevProposers_ s2))
    (Hcur1 : small_count (peer_count s1)) (Hcur2 : small_count (peer_count s2))
    (Hpeers1 : currPeerPositions_ s1 ≠ ∅) (Hpeers2 : currPeerPositions_ s2 ≠ ∅)
    (Hparms : minCONSENSUS_PCT (parms env1) = minCONSENSUS_PCT (parms env2))
    (Hdiff : position (r_position r1) ≠ position (r_position r2))
    (Hyes1 : declares env1 s1) (Hyes2 : declares env2 s2) :
  let pct := minCONSENSUS_PCT (parms env1) in
  let E1 := electorate self1 s1 in
  let E2 := electorate self2 s2 in
  let both := supporters self1 s1 r1 ∩ supporters self2 s2 r2 in
  (∀ n, n ∈ both → n ≠ self1 → n ≠ self2 → ∃ p1 p2,
     currPeerPositions_ s1 !! n = Some p1 ∧ currPeerPositions_ s2 !! n = Some p2 ∧
     position p1 = position (r_position r1) ∧ position p2 = position (r_position r2) ∧
     position p1 ≠ position p2) ∧
  pct * (Z.of_nat (size E1) + Z.of_nat (size E2))
    ≤ 100 * (Z.of_nat (size both) + Z.of_nat (size (E1 ∪ E2))) ∧
  (E1 = E2 → pct = 80 → 60 * Z.of_nat (size E1) ≤ 100 * Z.of_nat (size both)).
Proof.
  intros pct E1 E2 both.
  apply (declares_quorum env1 self1 s1 r1) in Hyes1 as (_ & _ & [?|Hq1]); [done| |done..].
  apply (declares_quorum env2 self2 s2 r2) in Hyes2 as (_ & _ & [?|Hq2]); [done| |done..].
  rewrite <- Hparms in Hq2. fold pct E1 in Hq1. fold pct E2 in Hq2.
  assert (pct * (Z.of_nat (size E1) + Z.of_nat (size E2))
    ≤ 100 * (Z.of_nat (size both) + Z.of_nat (size (E1 ∪ E2)))) as Hsum.
  { pose proof (supporters_subset self1 s1 r1). pose proof (supporters_subset self2 s2 r2).
    pose proof (overlap_size (supporters self1 s1 r1) (supporters self2 s2 r2) (E1 ∪ E2)) as Hov.
    change (supporters self1 s1 r1 ∩ supporters self2 s2 r2) with both in Hov.
    specialize (Hov ltac:(set_solver) ltac:(set_solver)). lia. }
  split_and!; [|done|].
  - intros n [H1 H2]%elem_of_intersection Hn1 Hn2.
    apply supporter_position in H1 as (p1 & ? & Hp1); [|done].
    apply supporter_position in H2 as (p2 & ? & Hp2); [|done].
    exists p1, p2. split_and!; [done..|]. by rewrite Hp1, Hp2.
  - intros HE H80. rewrite <- HE in Hsum. rewrite union_idemp_L in Hsum. lia.
Qed.

(** A server that has the set 1, 2 like peers 1 and 2, and one that has the set
    1, 3 like the same peers. *)
Definition quorum_trace (other : gset Z) : list (Z * gset Z * call) :=
  [ (0, ∅, StartRound 505 (5 : LedgerID_t) (5 : Ledger_t) ∅ true);
    (1000, ∅, PeerProposal 506 (demo_peer 1 other 0 506));
    (2000, ∅, PeerProposal 507 (demo_peer 2 other 0 507));
    (3000, other, TimerEntry 508); (6000, other, TimerEntry 511) ].

Definition quorum_state (other : gset Z) : Consensus := state_of (quorum_trace other).

Definition declares_test (env : Env) (s : Consensus) : bool :=
  match haveConsensus env s with
  | Ok (true, s', []) =>
      match result_ s' with Some r' => bool_decide (r_state r' = Yes) | None => false end
  | _ => false
  end.

Lemma declares_test_ok env s : declares_test env s = true → declares env s.
Proof.
  unfold declares_test, declares. destruct (haveConsensus env s) as [[[[] s'] [|]]| |]; try done.
  destruct (result_ s') as [r'|] eqn:Hr; [|done]. intros Hst%bool_decide_eq_true. eauto.
Qed.

Definition our_position (s : Consensus) : gset Z :=
  match result_ s with Some r => position (r_position r) | None => ∅ end.

Lemma quorum_result other :
  bool_decide (is_Some (result_ (quorum_state other))) = true →
  ∃ r, result_ (quorum_state other) = Some r ∧ position (r_position r) = our_position (quorum_state other).
Proof.
  intros [r Hr]%bool_decide_eq_true. exists r. split; [done|]. unfold our_position. by rewrite Hr.
Qed.

Lemma consensus_declared_exactly_witness :
  ∃ r, result_ (quorum_state {[1; 2]}) = Some r ∧
    80 * Z.of_nat (size (electorate 0 (quorum_state {[1; 2]})))
      ≤ 100 * Z.of_nat (size (supporters 0 (quorum_state {[1; 2]}) r)).
Proof.
  destruct (quorum_result {[1; 2]}) as (r & Hr & _); [vm_compute; reflexivity|].
  exists r. split; [exact Hr|].
  destruct (proj1 (consensus_declared_exactly (demo_env 6000 {[1; 2]}) 0 _ r Hr
    ltac:(apply (bool_decide_unpack _); vm_compute; exact I)
    ltac:(vm_compute; split; [discriminate|reflexivity])
    ltac:(vm_compute; split; [discriminate|reflexivity]))) as (_ & _ & [Hz|Hq]).
  - apply declares_test_ok. vm_compute. reflexivity.
  - exfalso. revert Hz. apply (bool_decide_unpack _). vm_compute. exact I.
  - exact Hq.
Defined.

Ltac quorum_side :=
  first [ apply (bool_decide_unpack _); vm_compute; exact I
        | vm_compute; split; [discriminate|reflexivity] ].

(** Servers 0 and 9, of which each sees peers 1 and 2 with its position. *)
Lemma conflicting_consensus_needs_equivocation_witness :
  ∃ r1 r2, result_ (quorum_state {[1; 2]}) = Some r1 ∧ result_ (quorum_state {[1; 3]}) = Some r2 ∧
    80 * (Z.of_nat (size (electorate 0 (quorum_state {[1; 2]})))
          + Z.of_nat (size (electorate 9 (quorum_state {[1; 3]}))))
      ≤ 100 * (Z.of_nat (size (supporters 0 (quorum_state {[1; 2]}) r1
                               ∩ supporters 9 (quorum_state {[1; 3]}) r2))
               + Z.of_nat (size (electorate 0 (quorum_state {[1; 2]})
                                 ∪ electorate 9 (quorum_state {[1; 3]})))).
Proof.
  destruct (quorum_result {[1; 2]}) as (r1 & Hr1 & Hp1); [vm_compute; reflexivity|].
  destruct (quorum_result {[1; 3]}) as (r2 & Hr2 & Hp2); [vm_compute; reflexivity|].
  exists r1, r2. split; [exact Hr1|]. split; [exact Hr2|].
  apply (conflicting_consensus_needs_equivocation (demo_env 6000 {[1; 2]}) (demo_env 6000 {[1; 3]})
    0 9 (quorum_state {[1; 2]}) (quorum_state {[1; 3]}) r1 r2 Hr1 Hr2).
  - quorum_side.
  - quorum_side.
  - quorum_side.
  - quorum_side.
  - quorum_side.
  - quorum_side.
  - quorum_side.
  - quorum_side.
  - reflexivity.
  - rewrite Hp1, Hp2. quorum_side.
  - apply declares_test_ok. vm_compute. reflexivity.
  - apply declares_test_ok. vm_compute. reflexivity.
Defined.

(** a node that does not propose never proposes.  Starting from any state
    whose mode is not [proposing], no public call other than starting a round
    as a proposer announces a position of ours, and the mode stays other than
    [proposing]; this includes a round switched to another ledger inside the
    call, which goes on as [switchedLedger] or [wrongLedger]. *)
Theorem non_proposer_never_proposes `{Traits} (s s' : Consensus) (env : Env) (c : call)
    (w : list event) (Hmode : mode_ s ≠ proposing)
    (Hc : match c with StartRound _ _ _ _ prop => prop = false | _ => True end)
    (Hrun : run env c s = Ok (tt, s', w)) :
  mode_ s' ≠ proposing ∧ ∀ p, Propose p ∉ w.
Proof.
  pose proof (run_quiet env c Hc) as Hq.
  destruct (Hq s tt s' w Hmode Hrun) as [Hm Hw]. split; [done|].
  intros p Hp. rewrite Forall_forall in Hw. by apply (Hw _ Hp).
Qed.

Lemma non_proposer_never_proposes_witness :
  ∃ s' w, run (demo_env 0 ∅) demo_observe demo_init = Ok (tt, s', w) ∧ mode_ s' ≠ proposing.
Proof.
  assert (is_ok (run (demo_env 0 ∅) demo_observe demo_init) = true) as Hok
    by (vm_compute; reflexivity).
  destruct (run (demo_env 0 ∅) demo_observe demo_init) as [[[[] s'] w]| |] eqn:Hrun;
    [|discriminate Hok..].
  exists s', w. split; [reflexivity|].
  refine (proj1 (non_proposer_never_proposes demo_init s' _ demo_observe w _ _ Hrun));
    [discriminate|reflexivity].
Defined.

(** what a peer's proposal does.  In a reachable state a proposal is
    taken into account exactly when the round is not over, it is about the
    ledger we work from, its sender has not left the round, and it has a higher
    sequence number than the position we have of that sender.  A fresh
    proposal becomes the sender's position, or removes the sender for the rest
    of the round when it is a bow-out; any other proposal changes no position. *)
Theorem peer_proposal_effect `{Traits} `{!TraitsLaws} (s : Consensus) (env : Env) (now : Z)
    (p : PeerPosition_t) (Hs : reachable s) :
  ∃ b s' w, peerProposal env now p s = Ok (b, s', w) ∧
    (b = true ↔ phase_ s ≠ accepted ∧ previousLedger p = prevLedgerID_ s ∧
       (nodeID p ∉ deadNodes_ s) ∧
       ∀ old, currPeerPositions_ s !! nodeID p = Some old → proposeSeq old < proposeSeq p) ∧
    currPeerPositions_ s' =
      (if negb b then currPeerPositions_ s
       else if isBowOut p then delete (nodeID p) (currPeerPositions_ s)
       else <[nodeID p := p]> (currPeerPositions_ s)) ∧
    deadNodes_ s' =
      (if b && isBowOut p then {[nodeID p]} ∪ deadNodes_ s else deadNodes_ s).
Proof.
  pose proof (peerProposal_spec env true now p s (reachable_inv s Hs)) as Hwp.
  unfold wp in Hwp.
  destruct (peerProposal env now p s) as [[[b s'] w]| |]; [|done..].
  exists b, s', w. split; [done|]. destruct Hwp as [-> Hafter].
  split; [apply proposal_fresh_iff|].
  unfold peers_after in Hafter. destruct (proposal_fresh p s); simpl; [|done].
  by destruct (isBowOut p).
Qed.

Lemma peer_proposal_effect_witness :
  ∃ b s' w, peerProposal (demo_env 4000 ∅) 509 (demo_peer 1 {[1]} 1 509) demo_state
    = Ok (b, s', w) ∧ is_Some (currPeerPositions_ s' !! (1 : NodeID_t)).
Proof.
  destruct (peer_proposal_effect demo_state (demo_env 4000 ∅) 509 (demo_peer 1 {[1]} 1 509)
    demo_reachable) as (b & s' & w & Hrun & _ & Hcur & _).
  exists b, s', w. split; [exact Hrun|]. rewrite Hcur.
  destruct demo_peer1 as (q & Hq & _). destruct b; simpl; [|eauto].
  rewrite lookup_insert_eq. eauto.
Defined.

(** the close time we move to.  With no peers it is our own, with
    consensus.  Otherwise, whenever some close time has the votes the current
    phase of the round requires, the result is the close time with the most
    votes, the latest of them on a tie, and there is consensus on it exactly
    when its votes reach the consensus percentage; with no such close time the
    result is the time 0, that is, an agreement to disagree, without
    consensus. *)
Theorem close_time_plurality `{Traits} (env : Env) (s : Consensus) (r : ConsensusResult)
    (peerVotes : gmap Z Z) :
  let prop := bool_decide (mode_ s = proposing) in
  let ours := asCloseTime (closeTime (r_position r)) s in
  let votes := if prop then <[ours := default 0 (peerVotes !! ours) + 1]> peerVotes
               else peerVotes in
  let voters := with_self prop (peer_count s) in
  let needed := participantsNeeded voters (avalanche_pct (convergePercent_ s) (parms env)) in
  let '(ct, have) := closeTimeConsensus env s r peerVotes in
  if bool_decide (currPeerPositions_ s = ∅) then ct = ours ∧ have = true
  else ((∀ t v, votes !! t = Some v → v < needed) ∧ ct = 0 ∧ have = false) ∨
    ∃ v, votes !! ct = Some v ∧ needed ≤ v ∧
      (∀ t' v', votes !! t' = Some v' → v' ≤ v ∧ (v' = v → t' ≤ ct)) ∧
      (have = true ↔ participantsNeeded voters (avCT_CONSENSUS_PCT (parms env)) ≤ v).
Proof.
  intros prop ours votes voters needed. unfold closeTimeConsensus. fold ours prop votes.
  case_bool_decide; [done|].
  assert ((if prop then Z.of_nat (size (currPeerPositions_ s)) + 1
           else Z.of_nat (size (currPeerPositions_ s))) = voters) as -> by done.
  fold needed.
  match goal with |- context [closeTimeScan ?l ?a ?b ?c ?d] =>
    pose proof (closeTimeScan_spec l a b c d (map_sorted_sorted _) (NoDup_map_sorted _)) as Hs;
    destruct (closeTimeScan l a b c d) as [ct have] end.
  destruct Hs as [(Hlow & -> & ->)|(v & Hin & Hv & Hmax & Hh)].
  - left. split_and!; [|done..]. intros t v Ht. rewrite Forall_forall in Hlow.
    apply (Hlow (t, v)). by apply elem_of_map_sorted.
  - right. exists v. rewrite elem_of_map_sorted in Hin. split_and!; [done|done| |].
    + intros t' v' Ht'. apply Hmax. by apply elem_of_map_sorted.
    + rewrite Hh. split; [by intros []|auto].
Qed.
