(* ===== verification/LedgerTrie.v ===== *)
(** * The trie of ledger ancestry ([consensus/LedgerTrie.h])

    The compressed trie that counts validations by ledger ancestry.  A
    [unique_ptr] tree is an inductive [Node]; a [Node*] into the tree is the
    path of child indices that leads to it, so that following [parent]
    pointers is walking the path back.  Ledgers are a parameter: what the
    trie asks of them is [Ledger], what it relies on is [LedgerLaws]. *)
From S2P Require Import Prelude.

(** ** The ledger type *)

Class LedgerType := {
  Ledger : Type;
  ID : Type;
  #[global] ID_eq_dec :: EqDecision ID;
  (** [a < b] on identifiers *)
  ID_lt : relation ID;
  #[global] ID_lt_dec :: RelDecision ID_lt;
  MakeGenesis : Ledger;
  seq : Ledger → Z;
  ledger_ID : Ledger → ID;
  (** [operator\[\]]: the id of the ancestor with a sequence number *)
  ancestor_ID : Ledger → Z → ID;
  mismatch : Ledger → Ledger → Z;
}.

(** Complete histories: sequence numbers leave room for a successor, all
    ledgers share the genesis ledger, a ledger is its own ancestor at its
    sequence number, an id belongs to one sequence number, ledgers that agree
    at a sequence number agree before it (the unique history invariant), and
    [mismatch] is the first sequence number at which the histories differ.
    The header of [LedgerTrie.h] asks for less: an ancestor may be unknown and
    [mismatch] is the first possible difference.  [LedgerWindow] has the laws
    of such ledgers. *)
Class LedgerLaws `{LedgerType} : Prop := {
  seq_range l : 0 ≤ seq l < 2 ^ 32 - 1;
  seq_genesis : seq MakeGenesis = 0;
  ancestor_genesis l : ancestor_ID l 0 = ancestor_ID MakeGenesis 0;
  ancestor_self l : ancestor_ID l (seq l) = ledger_ID l;
  ancestor_seq a b s s' :
    0 ≤ s ≤ seq a → 0 ≤ s' ≤ seq b → ancestor_ID a s = ancestor_ID b s' → s = s';
  unique_history a b s p :
    0 ≤ p ≤ s → s ≤ seq a → s ≤ seq b →
    ancestor_ID a s = ancestor_ID b s → ancestor_ID a p = ancestor_ID b p;
  mismatch_common a b s :
    0 ≤ s < mismatch a b → s ≤ seq a ∧ s ≤ seq b ∧ ancestor_ID a s = ancestor_ID b s;
  mismatch_first a b :
    0 ≤ mismatch a b ∧
    (seq a < mismatch a b ∨ seq b < mismatch a b ∨
     ancestor_ID a (mismatch a b) ≠ ancestor_ID b (mismatch a b));
  #[global] ID_lt_order :: StrictOrder ID_lt;
  #[global] ID_lt_total :: Trichotomy ID_lt;
}.

Section trie.
Context `{LedgerType}.

(** ** Spans *)

Record SpanTip := mkTip { tip_seq : Z; tip_id : ID; tip_ledger : Ledger }.

Definition tip_ancestor (t : SpanTip) (s : Z) : res ID :=
  _ ← rassert (s <=? tip_seq t) "s <= seq"; mret (ancestor_ID (tip_ledger t) s).

Record Span := mkSpan { start_ : Z; end_ : Z; ledger_ : Ledger }.

Definition Span_genesis : Span := mkSpan 0 1 MakeGenesis.
Definition Span_of (l : Ledger) : Span := mkSpan 0 (u32 (seq l + 1)) l.

Definition clamp (sp : Span) (val : Z) : Z := Z.min (Z.max (start_ sp) val) (end_ sp).

Definition sub (sp : Span) (from to : Z) : option Span :=
  let newFrom := clamp sp from in
  let newTo := clamp sp to in
  if newFrom <? newTo then Some (mkSpan newFrom newTo (ledger_ sp)) else None.

Definition from (sp : Span) (spot : Z) : option Span := sub sp spot (end_ sp).
Definition before (sp : Span) (spot : Z) : option Span := sub sp (start_ sp) spot.
Definition startID (sp : Span) : ID := ancestor_ID (ledger_ sp) (start_ sp).
Definition diff (sp : Span) (o : Ledger) : Z := clamp sp (mismatch (ledger_ sp) o).

Definition tip (sp : Span) : SpanTip :=
  let tipSeq := u32 (end_ sp - 1) in
  mkTip tipSeq (ancestor_ID (ledger_ sp) tipSeq) (ledger_ sp).

Definition merge (a b : Span) : Span :=
  if end_ a <? end_ b then mkSpan (Z.min (start_ a) (start_ b)) (end_ b) (ledger_ b)
  else mkSpan (Z.min (start_ a) (start_ b)) (end_ a) (ledger_ a).

(** ** Nodes *)

#[warnings="-register-all"]
Inductive Node := mkNode (span : Span) (tipSupport branchSupport : Z) (children : list Node).

Definition span (n : Node) : Span := let 'mkNode sp _ _ _ := n in sp.
Definition tipSupport_ (n : Node) : Z := let 'mkNode _ ts _ _ := n in ts.
Definition branchSupport_ (n : Node) : Z := let 'mkNode _ _ bs _ := n in bs.
Definition children (n : Node) : list Node := let 'mkNode _ _ _ cs := n in cs.

Definition set_children (cs : list Node) (n : Node) : Node :=
  mkNode (span n) (tipSupport_ n) (branchSupport_ n) cs.
Definition set_span (sp : Span) (n : Node) : Node :=
  mkNode sp (tipSupport_ n) (branchSupport_ n) (children n).
Definition add_tip (d : Z) (n : Node) : Node :=
  mkNode (span n) (u32 (tipSupport_ n + d)) (branchSupport_ n) (children n).
Definition add_branch (d : Z) (n : Node) : Node :=
  mkNode (span n) (tipSupport_ n) (u32 (branchSupport_ n + d)) (children n).

(** [Node::erase]: the last child takes the place of the erased one. *)
Definition erase (i : nat) (cs : list Node) : list Node :=
  match last cs with
  | Some b => take (pred (length cs)) (<[i := b]> cs)
  | None => cs
  end.

(** Following a path, and changing the node at its end; [up] is applied to
    the nodes passed on the way back to the root. *)
Fixpoint node_at (p : list nat) (n : Node) : option Node :=
  match p with
  | [] => Some n
  | i :: p => c ← children n !! i; node_at p c
  end.

Fixpoint alter_path (up f : Node → Node) (p : list nat) (n : Node) : Node :=
  match p with
  | [] => f n
  | i :: p => up (set_children (alter (alter_path up f p) i (children n)) n)
  end.

(** ** The trie *)

Record LedgerTrie := mkTrie { root : Node; seqSupport : gmap Z Z }.

Definition LedgerTrie_ctor : LedgerTrie := mkTrie (mkNode Span_genesis 0 0 []) ∅.

(** The node with the longest common ancestry with a ledger, and the first
    sequence number that differs. *)
Fixpoint find (ledger : Ledger) (curr : Node) : list nat * Z :=
  let 'mkNode sp _ _ cs := curr in
  let pos := diff sp ledger in
  if pos =? end_ sp then
    (fix search (i : nat) (cs : list Node) : list nat * Z :=
       match cs with
       | [] => ([], pos)
       | child :: cs =>
           if pos <? diff (span child) ledger
           then let '(p, q) := find ledger child in (i :: p, q)
           else search (S i) cs
       end) O cs
  else ([], pos).

Fixpoint findByLedgerID (x : ID) (parent : Node) : option (list nat) :=
  let 'mkNode sp _ _ cs := parent in
  if decide (x = tip_id (tip sp)) then Some []
  else
    (fix search (i : nat) (cs : list Node) : option (list nat) :=
       match cs with
       | [] => None
       | child :: cs =>
           match findByLedgerID x child with
           | Some p => Some (i :: p)
           | None => search (S i) cs
           end
       end) O cs.

(** The change [insert] makes to the node [loc] it found. *)
Definition insert_at (ledger : Ledger) (diffSeq count : Z) (loc : Node) : res Node :=
  let prefix := before (span loc) diffSeq in
  let oldSuffix := from (span loc) diffSeq in
  let newSuffix := from (Span_of ledger) diffSeq in
  loc ← match oldSuffix with
        | Some old =>
            pre ← runwrap prefix "prefix";
            mret (mkNode pre 0 (branchSupport_ loc)
                    [mkNode old (tipSupport_ loc) (branchSupport_ loc) (children loc)])
        | None => mret loc
        end;
  mret match newSuffix with
       | Some new =>
           let newNode := add_branch count (add_tip count (mkNode new 0 0 [])) in
           add_branch count (set_children (children loc ++ [newNode]) loc)
       | None => add_branch count (add_tip count loc)
       end.

Definition insert (ledger : Ledger) (count : Z) (t : LedgerTrie) : res LedgerTrie :=
  let '(path, diffSeq) := find ledger (root t) in
  loc ← runwrap (node_at path (root t)) "loc";
  loc' ← insert_at ledger diffSeq count loc;
  mret (mkTrie (alter_path (add_branch count) (λ _, loc') path (root t))
          (<[seq ledger := u32 (default 0 (seqSupport t !! seq ledger) + count)]>
             (seqSupport t))).

(** [remove] below the root: the support of the node at the end of the path
    goes down, and so does the branch support of all nodes on the path; then
    nodes without tip support are erased or combined with their only child,
    from the found node upwards.  The boolean is whether that loop is still
    running when it gets to the node. *)
Fixpoint remove_at (count : Z) (p : list nat) (n : Node) : Node * bool :=
  match p with
  | [] => (add_branch (- count) (add_tip (- count) n), true)
  | i :: p =>
      match children n !! i with
      | None => (n, false)
      | Some c =>
          let '(loc, running) := remove_at count p c in
          let parent := add_branch (- count) (set_children (<[i := loc]> (children n)) n) in
          if running && (tipSupport_ loc =? 0) then
            match children loc with
            | [] => (set_children (erase i (children parent)) parent, true)
            | [child] =>
                let child := set_span (merge (span loc) (span child)) child in
                (set_children (erase i (children parent ++ [child])) parent, true)
            | _ => (parent, false)
            end
          else (parent, false)
      end
  end.

Definition remove (ledger : Ledger) (count : Z) (t : LedgerTrie) : res (bool * LedgerTrie) :=
  match findByLedgerID (ledger_ID ledger) (root t) with
  | None => mret (false, t)
  | Some path =>
      loc ← runwrap (node_at path (root t)) "loc";
      if tipSupport_ loc =? 0 then mret (false, t)
      else
        let count := Z.min count (tipSupport_ loc) in
        it ← runwrap (seqSupport t !! seq ledger) "it != seqSupport.end()";
        _ ← rassert (count <=? it) "it->second >= count";
        let it := u32 (it - count) in
        let support :=
          if it =? 0 then delete (seq ledger) (seqSupport t)
          else <[seq ledger := it]> (seqSupport t) in
        mret (true, mkTrie (remove_at count path (root t)).1 support)
  end.

Definition tipSupport (ledger : Ledger) (t : LedgerTrie) : Z :=
  match findByLedgerID (ledger_ID ledger) (root t) ≫= λ p, node_at p (root t) with
  | Some loc => tipSupport_ loc
  | None => 0
  end.

Definition branchSupport (ledger : Ledger) (t : LedgerTrie) : Z :=
  match findByLedgerID (ledger_ID ledger) (root t) ≫= λ p, node_at p (root t) with
  | Some loc => branchSupport_ loc
  | None =>
      let '(p, diffSeq) := find ledger (root t) in
      match node_at p (root t) with
      | Some loc =>
          if (seq ledger <? diffSeq) && (seq ledger <? end_ (span loc))
          then branchSupport_ loc else 0
      | None => 0
      end
  end.

Definition empty (t : LedgerTrie) : bool := branchSupport_ (root t) =? 0.

(** ** The preferred ledger *)

(** The comparison of [std::partial_sort]: larger support first, ties by
    larger starting id. *)
Definition node_gt (a b : Node) : bool :=
  (branchSupport_ b <? branchSupport_ a) ||
  ((branchSupport_ a =? branchSupport_ b) &&
   bool_decide (ID_lt (startID (span b)) (startID (span a)))).

(** [std::partial_sort] of the first two places: a permutation whose first
    two elements are in order and not exceeded by any of the others, whose
    order is unspecified. *)
Class PartialSort := {
  partial_sort2 : list Node → list Node;
  partial_sort2_perm cs : partial_sort2 cs ≡ₚ cs;
  partial_sort2_first a b rest cs :
    partial_sort2 cs = a :: b :: rest →
    node_gt b a = false ∧ Forall (λ c, node_gt c b = false) rest;
}.

Context `{!PartialSort}.

(** Add the support of the sequence numbers below [bound]. *)
Fixpoint addUncommitted (bound : Z) (it : list (Z * Z)) (uncommitted : Z) :
    list (Z * Z) * Z :=
  match it with
  | (q, c) :: it' =>
      if q <? bound then addUncommitted bound it' (u32 (uncommitted + c))
      else (it, uncommitted)
  | [] => ([], uncommitted)
  end.

(** Advance along a span while the branch support exceeds the uncommitted. *)
Fixpoint advance (spanEnd branch nextSeq : Z) (it : list (Z * Z)) (uncommitted : Z) :
    Z * list (Z * Z) * Z :=
  if (nextSeq <? spanEnd) && (uncommitted <? branch) then
    match it with
    | (q, c) :: it' =>
        if q <? spanEnd then advance spanEnd branch (u32 (q + 1)) it' (u32 (uncommitted + c))
        else (spanEnd, it, uncommitted)
    | [] => (spanEnd, [], uncommitted)
    end
  else (nextSeq, it, uncommitted).

(** The best child and its margin, with the children as sorting leaves them. *)
Definition bestChild (cs : list Node) : res (option (Node * Z) * list Node) :=
  match cs with
  | [] => mret (None, cs)
  | [c] => mret (Some (c, branchSupport_ c), cs)
  | _ =>
      match partial_sort2 cs with
      | (best :: second :: _) as cs' =>
          let margin := u32 (branchSupport_ best - branchSupport_ second) in
          let margin :=
            if decide (ID_lt (startID (span second)) (startID (span best)))
            then u32 (margin + 1) else margin in
          mret (Some (best, margin), cs')
      | _ => AssertFail "children"
      end
  end.

(** The loop of [getPreferred], from node [curr] on.  It also returns the
    node, whose children [getPreferred] may have sorted. *)
Fixpoint preferredFrom (fuel : nat) (largestIssued : Z) (curr : Node)
    (it : list (Z * Z)) (uncommitted : Z) : res (SpanTip * Node) :=
  match fuel with
  | O => OutOfFuel
  | S fuel =>
      let sp := span curr in
      let nextSeq := u32 (start_ sp + 1) in
      let '(it, uncommitted) :=
        addUncommitted (Z.max nextSeq largestIssued) it uncommitted in
      let '(nextSeq, it, uncommitted) :=
        advance (end_ sp) (branchSupport_ curr) nextSeq it uncommitted in
      if nextSeq <? end_ sp then
        pre ← runwrap (before sp nextSeq) "before(nextSeq)"; mret (tip pre, curr)
      else
        '(best, cs) ← bestChild (children curr);
        match best with
        | Some (best, margin) =>
            if (uncommitted <? margin) || (uncommitted =? 0) then
              '(r, best') ← preferredFrom fuel largestIssued best it uncommitted;
              mret (r, set_children (<[O := best']> cs) curr)
            else mret (tip sp, set_children cs curr)
        | None => mret (tip sp, set_children cs curr)
        end
  end.

Fixpoint height (n : Node) : nat :=
  let 'mkNode _ _ _ cs := n in S (max_list (map height cs)).

Definition getPreferred (largestIssued : Z) (t : LedgerTrie) :
    res (option SpanTip * LedgerTrie) :=
  if empty t then mret (None, t)
  else
    '(r, n) ← preferredFrom (height (root t)) largestIssued (root t)
                (map_sorted (seqSupport t)) 0;
    mret (Some r, mkTrie n (seqSupport t)).

(** ** The self-check *)

Fixpoint node_count (n : Node) : nat :=
  let 'mkNode _ _ _ cs := n in S (sum_list (map node_count cs)).

(** The loop over the stack of nodes; the boolean marks the root. *)
Fixpoint checkNodes (fuel : nat) (nodes : list (bool * Node)) (expected : gmap Z Z) :
    res (option (gmap Z Z)) :=
  match nodes, fuel with
  | [], _ => mret (Some expected)
  | _, O => OutOfFuel
  | (isRoot, curr) :: nodes, S fuel =>
      if negb isRoot && (tipSupport_ curr =? 0) && (length (children curr) <? 2)%nat
      then mret None
      else
        let expected :=
          if negb (tipSupport_ curr =? 0) then
            let q := u32 (end_ (span curr) - 1) in
            <[q := u32 (default 0 (expected !! q) + tipSupport_ curr)]> expected
          else expected in
        let support :=
          foldl (λ s c, u64 (s + branchSupport_ c)) (tipSupport_ curr) (children curr) in
        if negb (support =? branchSupport_ curr) then mret None
        else checkNodes fuel (reverse ((λ c, (false, c)) <$> children curr) ++ nodes) expected
  end.

Definition checkInvariants (t : LedgerTrie) : res bool :=
  expected ← checkNodes (node_count (root t)) [(true, root t)] ∅;
  mret match expected with
       | Some m => bool_decide (m = seqSupport t)
       | None => false
       end.
End trie.
