(* ===== verification/LedgerSupport.v ===== *)
(** * Support of ledgers: the specification of the trie

    A trie stands for a multiset of ledgers, the ones its supporters last
    validated.  This file says what the operations of a trie mean on the
    multiset, and states it as the interface [SupportTrie] that [Validations]
    uses. *)
From S2P Require Import Prelude LedgerTrie.

Section support.
Context `{LedgerType}.

(** ** Sums over the supporting ledgers *)

Definition tip_ok (t : SpanTip) : Prop :=
  0 ≤ tip_seq t ≤ seq (tip_ledger t) ∧
  tip_id t = ancestor_ID (tip_ledger t) (tip_seq t).

Definition tip_of (l : Ledger) : SpanTip := mkTip (seq l) (ledger_ID l) l.

Definition is_id (x : ID) (t : SpanTip) : Z := if decide (tip_id t = x) then 1 else 0.
Definition is_seq (P : Z → bool) (t : SpanTip) : Z := if P (tip_seq t) then 1 else 0.
Definition is_desc (s : Z) (x : ID) (t : SpanTip) : Z :=
  if (s <=? tip_seq t) && bool_decide (ancestor_ID (tip_ledger t) s = x) then 1 else 0.

(** The sum of a property over a list of ledgers. *)
Definition sum_over (f : SpanTip → Z) (L : list Ledger) : Z :=
  sumZ ((λ l, f (tip_of l)) <$> L).

Lemma sum_over_const k L : sum_over (λ _, k) L = k * Z.of_nat (length L).
Proof.
  unfold sum_over. induction L as [|l L IH]; [simpl; lia|].
  rewrite fmap_cons, sumZ_cons, IH. cbn [length]. rewrite Nat2Z.inj_succ. lia.
Qed.

Lemma sum_over_cons f l L : sum_over f (l :: L) = f (tip_of l) + sum_over f L.
Proof. done. Qed.

Lemma sum_over_app f L L' : sum_over f (L ++ L') = sum_over f L + sum_over f L'.
Proof. unfold sum_over. by rewrite fmap_app, sumZ_app. Qed.

Lemma sum_over_replicate f n l : sum_over f (replicate n l) = f (tip_of l) * Z.of_nat n.
Proof.
  induction n as [|n IH]; [unfold sum_over; simpl; lia|]. cbn [replicate].
  rewrite sum_over_cons, IH, Nat2Z.inj_succ. lia.
Qed.

#[export] Instance sum_over_perm f : Proper ((≡ₚ) ==> (=)) (sum_over f).
Proof. intros L L' HL. unfold sum_over. by rewrite HL. Qed.

Lemma sum_over_pos f L :
  (∀ t, 0 ≤ f t) → 0 < sum_over f L → ∃ l, l ∈ L ∧ 0 < f (tip_of l).
Proof.
  intros Hf. induction L as [|l L IH]; [done|]. rewrite sum_over_cons. intros Hp.
  destruct (decide (0 < f (tip_of l))); [by exists l; split; [left|]|].
  destruct IH as (l' & Hl' & ?); [lia|]. exists l'. split; [by right|done].
Qed.

Lemma sum_over_elem f L l : (∀ t, 0 ≤ f t) → l ∈ L → f (tip_of l) ≤ sum_over f L.
Proof.
  intros Hf Hl. apply sumZ_elem_le; [apply Forall_fmap, Forall_true; intros; apply Hf|].
  by apply (list_elem_of_fmap_2 (λ l, f (tip_of l))).
Qed.

Lemma is_desc_nonneg s x t : 0 ≤ is_desc s x t.
Proof. unfold is_desc. by case_match. Qed.

Lemma is_desc_pos s x t :
  0 < is_desc s x t ↔ s ≤ tip_seq t ∧ ancestor_ID (tip_ledger t) s = x.
Proof.
  unfold is_desc. destruct (Z.leb_spec s (tip_seq t)); simpl; [|naive_solver lia].
  case_bool_decide; naive_solver lia.
Qed.

(** Up to [c] of the ledgers with id [x] are dropped. *)
Fixpoint remove_support (c : nat) (x : ID) (L : list Ledger) : list Ledger :=
  match L, c with
  | l :: L, S c' =>
      if decide (ledger_ID l = x) then remove_support c' x L else l :: remove_support c x L
  | _, _ => L
  end.

Definition count_id (x : ID) (L : list Ledger) : Z := sum_over (is_id x) L.

Lemma count_id_cons x l L :
  count_id x (l :: L) = (if decide (ledger_ID l = x) then 1 else 0) + count_id x L.
Proof. done. Qed.

Lemma count_id_nonneg x L : 0 ≤ count_id x L.
Proof. induction L as [|l L IH]; [done|]. rewrite count_id_cons. case_decide; lia. Qed.

(** ** The preferred ledger, by the walk the documentation describes *)

Implicit Types L : list Ledger.

(** Support of the ledger [x] at sequence number [s]: the ledgers of [L] that
    are it or descend from it. *)
Definition branch_of L (s : Z) (x : ID) : Z := sum_over (is_desc s x) L.

(** Support that has not reached sequence number [s], or the largest one we
    issued, yet. *)
Definition uncommitted_of L (largestIssued s : Z) : Z :=
  sum_over (is_seq (λ q, q <? Z.max s largestIssued)) L.

(** A successor of the ledger [x] at [s] that has support. *)
Definition successor L (s : Z) (x y : ID) : Prop :=
  ∃ l, l ∈ L ∧ s + 1 ≤ seq l ∧ ancestor_ID l s = x ∧ ancestor_ID l (s + 1) = y.

(** The preferred successor: it stays ahead of any rival even if all
    uncommitted support goes to the rival; ties go to the larger id. *)
Inductive preferred_step L (largestIssued : Z) : Z * ID → Z * ID → Prop :=
  | preferred_step_intro s x y :
      successor L s x y →
      uncommitted_of L largestIssued (s + 1) < branch_of L (s + 1) y →
      (∀ z, successor L s x z → z ≠ y →
         branch_of L (s + 1) z + uncommitted_of L largestIssued (s + 1)
           < branch_of L (s + 1) y ∨
         branch_of L (s + 1) z + uncommitted_of L largestIssued (s + 1)
           = branch_of L (s + 1) y ∧ ID_lt z y) →
      preferred_step L largestIssued (s, x) (s + 1, y).

(** The walk from the genesis ledger, and its end. *)
Definition reaches L (li : Z) (pos : Z * ID) : Prop :=
  rtc (preferred_step L li) (0, ancestor_ID MakeGenesis 0) pos.

Definition walk_ends L (li : Z) (r : SpanTip) : Prop :=
  tip_ok r ∧ reaches L li (tip_seq r, tip_id r) ∧
  ∀ q, ¬ preferred_step L li (tip_seq r, tip_id r) q.

Context `{!LedgerLaws}.

Lemma preferred_step_det L li p q q' :
  preferred_step L li p q → preferred_step L li p q' → q = q'.
Proof.
  intros H1 H2. inversion H1 as [s x y Hs Hu Hr]; subst.
  inversion H2 as [s' x' y' Hs' Hu' Hr']; subst.
  destruct (decide (y = y')) as [->|Hne]; [done|]. exfalso.
  assert (0 ≤ uncommitted_of L li (s + 1)).
  { unfold uncommitted_of. apply sumZ_nonneg, Forall_fmap, Forall_true.
    intros l. simpl. unfold is_seq. by case_match. }
  destruct (Hr y' Hs') as [|[? Hlt]]; [done| |]; destruct (Hr' y Hs) as [|[? Hlt']]; try done; try lia.
  by apply (asymmetry Hlt).
Qed.

(** The walk has one end. *)
Lemma walk_ends_unique L li r r' :
  walk_ends L li r → walk_ends L li r' → tip_seq r = tip_seq r' ∧ tip_id r = tip_id r'.
Proof.
  intros (_ & Hr & Hend) (_ & Hr' & Hend').
  assert ((tip_seq r, tip_id r) = (tip_seq r', tip_id r')) as Heq; [|by injection Heq].
  revert Hr Hend Hr' Hend'. generalize (tip_seq r, tip_id r) as p.
  generalize (tip_seq r', tip_id r') as p'. clear r r'. intros p' p. unfold reaches.
  generalize (0, ancestor_ID MakeGenesis 0) as o. intros o Hr. revert p'.
  induction Hr as [o|o q p Hstep Hr IH]; intros p' Hend Hr' Hend'.
  - destruct Hr' as [|o q p' Hstep Hr']; [done|]. by destruct (Hend q).
  - destruct Hr' as [o|o q' p' Hstep' Hr']; [by destruct (Hend' q)|].
    rewrite (preferred_step_det L li o q' q) in Hr' by done. by apply IH.
Qed.
End support.

(** ** The interface of a trie *)

Class SupportTrie `{LedgerType} := {
  Trie : Type;
  new_trie : Trie;
  trie_insert : Ledger → Z → Trie → res Trie;
  trie_remove : Ledger → Z → Trie → res (bool * Trie);
  trie_tipSupport : Ledger → Trie → Z;
  trie_branchSupport : Ledger → Trie → Z;
  trie_getPreferred : Z → Trie → res (option SpanTip * Trie);
  (** the trie stands for a multiset of ledgers *)
  trie_holds : Trie → list Ledger → Prop;
}.

Class SupportTrieLaws `{SupportTrie} : Prop := {
  holds_perm t L L' : L ≡ₚ L' → trie_holds t L → trie_holds t L';
  holds_new : trie_holds new_trie [];
  holds_insert t L l :
    trie_holds t L → Z.of_nat (length L) + 1 < 2 ^ 32 →
    ∃ t', trie_insert l 1 t = Ok t' ∧ trie_holds t' (l :: L);
  holds_remove t L l :
    trie_holds t (l :: L) → ∃ t', trie_remove l 1 t = Ok (true, t') ∧ trie_holds t' L;
  holds_tipSupport t L l : trie_holds t L → trie_tipSupport l t = count_id (ledger_ID l) L;
  holds_branchSupport t L l :
    trie_holds t L → trie_branchSupport l t = branch_of L (seq l) (ledger_ID l);
  holds_getPreferred t L li :
    trie_holds t L →
    ∃ r t', trie_getPreferred li t = Ok (r, t') ∧ trie_holds t' L ∧
      match r with
      | None => L = []
      | Some tip => L ≠ [] ∧ walk_ends L li tip
      end;
}.
