(* ===== verification/LedgerTrieInv.v ===== *)
(** * Invariant of the ledger trie

    What every trie built by [insert] and [remove] satisfies, and the meaning
    of a trie: the multiset of ledgers that support it. *)
From S2P Require Import Prelude LedgerTrie LedgerSupport.

Section trie_inv.
Context `{LedgerType} `{!LedgerLaws}.

(** ** Induction on trees *)

Lemma Node_ind' (P : Node → Prop) :
  (∀ sp ts bs cs, Forall P cs → P (mkNode sp ts bs cs)) → ∀ n, P n.
Proof.
  intros HP. fix IH 1. intros [sp ts bs cs]. apply HP.
  induction cs as [|c cs IHcs]; constructor; auto.
Qed.

(** ** The invariant *)

Definition span_ok (sp : Span) : Prop :=
  0 ≤ start_ sp < end_ sp ∧ end_ sp ≤ seq (ledger_ sp) + 1.

(** A child continues its parent: it starts where the parent ends, and its
    ledger descends from the tip of the parent. *)
Definition child_of (sp : Span) (c : Node) : Prop :=
  start_ (span c) = end_ sp ∧
  ancestor_ID (ledger_ (span c)) (end_ sp - 1) = ancestor_ID (ledger_ sp) (end_ sp - 1).

(** No non-root node without tip support has fewer than two children. *)
Definition supported (n : Node) : Prop :=
  0 < tipSupport_ n ∨ (2 ≤ length (children n))%nat.

Definition first_ID (n : Node) : ID := startID (span n).

Record kids_ok (ok : Node → Prop) (sp : Span) (cs : list Node) : Prop := {
  kids_node_ok : Forall ok cs;
  kids_child_of : Forall (child_of sp) cs;
  kids_supported : Forall supported cs;
  kids_distinct : NoDup (first_ID <$> cs);
}.

#[warnings="-register-all"]
Inductive node_ok : Node → Prop :=
  | node_ok_intro sp ts bs cs :
      span_ok sp → 0 ≤ ts → bs = ts + sumZ (branchSupport_ <$> cs) → bs < 2 ^ 32 →
      Forall node_ok cs → Forall (child_of sp) cs → Forall supported cs →
      NoDup (first_ID <$> cs) →
      node_ok (mkNode sp ts bs cs).

Lemma node_ok_unfold sp ts bs cs :
  node_ok (mkNode sp ts bs cs) ↔
  span_ok sp ∧ 0 ≤ ts ∧ bs = ts + sumZ (branchSupport_ <$> cs) ∧ bs < 2 ^ 32 ∧
  kids_ok node_ok sp cs.
Proof.
  split; [inversion 1; subst; split_and!; try done; by split|]. intros (?&?&?&?&[]). by constructor.
Qed.

#[export] Instance kids_ok_perm ok sp : Proper ((≡ₚ) ==> iff) (kids_ok ok sp).
Proof.
  intros cs cs' Hp. split; intros [H1 H2 H3 H4]; split;
    first [by rewrite Hp | by rewrite <- Hp].
Qed.

Lemma node_ok_branch_nonneg n : node_ok n → 0 ≤ branchSupport_ n.
Proof.
  induction n as [sp ts bs cs IH] using Node_ind'.
  rewrite node_ok_unfold. intros (_ & Hts & -> & _ & [Hok _ _ _]). simpl.
  assert (0 ≤ sumZ (branchSupport_ <$> cs)); [|lia].
  apply sumZ_nonneg, Forall_fmap. rewrite Forall_forall in *. intros c Hc.
  by apply IH, Hok.
Qed.

Lemma children_branch_nonneg cs :
  Forall node_ok cs → Forall (λ y, 0 ≤ y) (branchSupport_ <$> cs).
Proof.
  intros Hok. apply Forall_fmap. eapply Forall_impl; [done|]. by apply node_ok_branch_nonneg.
Qed.

Lemma node_ok_branch_pos n : node_ok n → supported n → 0 < branchSupport_ n.
Proof.
  induction n as [sp ts bs cs IH] using Node_ind'.
  rewrite node_ok_unfold. intros (_ & Hts & -> & _ & [Hok _ Hsup _]) Hs. simpl.
  pose proof (sumZ_nonneg _ (children_branch_nonneg cs Hok)) as Hnn.
  destruct Hs as [Hs|Hs]; simpl in Hs; [lia|].
  destruct cs as [|c cs]; simpl in Hs; [lia|].
  inversion IH; inversion Hok; inversion Hsup; subst. rewrite fmap_cons, sumZ_cons.
  assert (0 < branchSupport_ c) by auto.
  assert (0 ≤ sumZ (branchSupport_ <$> cs)) by (by apply sumZ_nonneg, children_branch_nonneg).
  lia.
Qed.

(** ** Nodes of a subtree *)

Inductive node_in (m : Node) : Node → Prop :=
  | node_in_here : node_in m m
  | node_in_child n c : c ∈ children n → node_in m c → node_in m n.

Lemma node_in_inv m n :
  node_in m n → m = n ∨ ∃ c, c ∈ children n ∧ node_in m c.
Proof. destruct 1; eauto. Qed.

Lemma node_at_in p n loc : node_at p n = Some loc → node_in loc n.
Proof.
  revert n. induction p as [|i p IH]; intros n; simpl; [intros [= ->]; constructor|].
  intros (c & Hc & Hp)%bind_Some. eapply node_in_child; [by eapply list_elem_of_lookup_2|auto].
Qed.

Lemma node_ok_children n c :
  node_ok n → c ∈ children n → node_ok c ∧ child_of (span n) c ∧ supported c.
Proof.
  destruct n as [sp ts bs cs]. rewrite node_ok_unfold. intros (_&_&_&_&[Ho Hc Hs _]) Hin.
  rewrite Forall_forall in *. auto.
Qed.

Lemma node_ok_span n : node_ok n → span_ok (span n).
Proof. by destruct 1. Qed.

Lemma child_branch_le n c : node_ok n → c ∈ children n → branchSupport_ c ≤ branchSupport_ n.
Proof.
  destruct n as [sp ts bs cs]. rewrite node_ok_unfold. intros (_ & ? & -> & _ & [Ho _ _ _]) Hc.
  simpl in *. assert (branchSupport_ c ≤ sumZ (branchSupport_ <$> cs)); [|lia].
  apply sumZ_elem_le; [by apply children_branch_nonneg|]. by apply list_elem_of_fmap_2.
Qed.

Lemma node_in_branch_le m n : node_in m n → node_ok n → branchSupport_ m ≤ branchSupport_ n.
Proof.
  induction 1 as [|n c Hc Hm IH]; intros Hn; [done|].
  destruct (node_ok_children n c Hn Hc) as (Hok & _). specialize (IH Hok).
  pose proof (child_branch_le n c Hn Hc). lia.
Qed.

Lemma node_in_trans a b c : node_in a b → node_in b c → node_in a c.
Proof. intros Hab. induction 1; [done|]. by eapply node_in_child. Qed.

Lemma node_in_supported m n : node_in m n → node_ok n → m = n ∨ supported m.
Proof.
  induction 1 as [|n c Hc Hm IH]; intros Hn; [by left|]. right.
  destruct (node_ok_children n c Hn Hc) as (Hok & _ & Hs). by destruct (IH Hok) as [->|].
Qed.

Definition at_ (n : Node) (s : Z) : ID := ancestor_ID (ledger_ (span n)) s.

(** A subtree shares the history of its root. *)
Lemma node_in_ok m n :
  node_in m n → node_ok n →
  node_ok m ∧ (m = n ∨ end_ (span n) ≤ start_ (span m)) ∧
  (∀ s, 0 ≤ s < end_ (span n) → at_ m s = at_ n s).
Proof.
  induction 1 as [|n c Hc Hm IH]; [by auto|]. intros Hn.
  destruct (node_ok_children n c Hn Hc) as (Hok & [Hst Hat] & _).
  destruct (IH Hok) as (Hm' & Hdir & Hag).
  destruct (node_ok_span c Hok) as [Hc1 Hc2]. destruct (node_ok_span n Hn) as [Hn1 Hn2].
  split; [done|]. split.
  { right. destruct Hdir as [->|Hdir]; lia. }
  intros s Hs. rewrite (Hag s) by lia. unfold at_ in *.
  eapply (unique_history _ _ (end_ (span n) - 1)); [lia..|done].
Qed.

Lemma node_in_end m n : node_in m n → node_ok n → end_ (span n) ≤ end_ (span m).
Proof.
  intros Hm Hn. destruct (node_in_ok m n Hm Hn) as (Hok & [->|Hdir] & _); [done|].
  destruct (node_ok_span m Hok). lia.
Qed.

(** Different children have different descendants. *)
Lemma children_separate n i j c d m m' s :
  node_ok n → children n !! i = Some c → children n !! j = Some d → i ≠ j →
  node_in m c → node_in m' d → end_ (span n) ≤ s →
  s < end_ (span m) → s < end_ (span m') → at_ m s ≠ at_ m' s.
Proof.
  intros Hn Hi Hj Hij Hm Hm' Hs Hsm Hsm' Heq.
  destruct (node_ok_children n c Hn) as (Hc & [Hcs _] & _); [by eapply list_elem_of_lookup_2|].
  destruct (node_ok_children n d Hn) as (Hd & [Hds _] & _); [by eapply list_elem_of_lookup_2|].
  destruct (node_in_ok m c Hm Hc) as (Hmok & _ & Hma).
  destruct (node_in_ok m' d Hm' Hd) as (Hmok' & _ & Hma').
  destruct (node_ok_span m Hmok), (node_ok_span m' Hmok'), (node_ok_span c Hc),
    (node_ok_span d Hd), (node_ok_span n Hn).
  assert (first_ID c = first_ID d) as Hfirst.
  { unfold first_ID, startID. rewrite Hcs, Hds. fold (at_ c (end_ (span n))).
    fold (at_ d (end_ (span n))). rewrite <- Hma, <- Hma' by lia.
    eapply (unique_history _ _ s); [lia..|done]. }
  destruct n as [sp ts bs cs]. apply node_ok_unfold in Hn as (_&_&_&_&[_ _ _ Hnd]).
  simpl in *. apply Hij. eapply (NoDup_lookup _ i j (first_ID c) Hnd).
  - by rewrite list_lookup_fmap, Hi.
  - by rewrite list_lookup_fmap, Hj, Hfirst.
Qed.

(** ** The meaning of a tree

    [total f n] adds [f] over the tips of the tree, each counted with its
    support; [f] ranges over properties of the ledger a tip stands for. *)

Fixpoint total (f : SpanTip → Z) (n : Node) : Z :=
  let 'mkNode sp ts _ cs := n in f (tip sp) * ts + sumZ (map (total f) cs).

Lemma total_unfold f n :
  total f n = f (tip (span n)) * tipSupport_ n + sumZ (total f <$> children n).
Proof. by destruct n. Qed.

(** A property of ledgers: tips with the same id are not distinguished. *)
Definition weight (f : SpanTip → Z) : Prop :=
  ∀ t t', tip_ok t → tip_ok t' → tip_id t = tip_id t' → f t = f t'.

Lemma tip_eq sp :
  span_ok sp → tip sp = mkTip (end_ sp - 1) (ancestor_ID (ledger_ sp) (end_ sp - 1)) (ledger_ sp).
Proof.
  intros [H1 H2]. pose proof (seq_range (ledger_ sp)). unfold tip.
  by rewrite u32_id by lia.
Qed.

Lemma tip_ok_span sp : span_ok sp → tip_ok (tip sp).
Proof. intros Hsp. rewrite tip_eq by done. destruct Hsp. split; simpl; [lia|done]. Qed.

Lemma tip_of_ok l : tip_ok (tip_of l).
Proof. pose proof (seq_range l). split; simpl; [lia|]. by rewrite ancestor_self. Qed.

Lemma tip_ok_seq t t' : tip_ok t → tip_ok t' → tip_id t = tip_id t' → tip_seq t = tip_seq t'.
Proof.
  intros [H1 H2] [H3 H4] He. rewrite H2, H4 in He. by eapply ancestor_seq.
Qed.

Lemma weight_id x : weight (is_id x).
Proof. intros t t' _ _ He. unfold is_id. by rewrite He. Qed.

Lemma weight_seq P : weight (is_seq P).
Proof. intros t t' Ht Ht' He. unfold is_seq. by rewrite (tip_ok_seq t t'). Qed.

Lemma weight_desc s x : 0 ≤ s → weight (is_desc s x).
Proof.
  intros Hs t t' Ht Ht' He. unfold is_desc.
  pose proof (tip_ok_seq t t' Ht Ht' He) as Hseq. rewrite Hseq.
  destruct (Z.leb_spec s (tip_seq t')) as [Hle|]; [|done]. simpl.
  destruct Ht as [Ht1 Ht2], Ht' as [Ht1' Ht2'].
  rewrite (unique_history (tip_ledger t) (tip_ledger t') (tip_seq t) s); [done|lia..|].
  rewrite <- Ht2, Hseq, <- Ht2'. done.
Qed.

Lemma weight_const k : weight (λ _, k).
Proof. done. Qed.

Lemma total_ext f g n :
  (∀ m, node_in m n → f (tip (span m)) = g (tip (span m))) → total f n = total g n.
Proof.
  induction n as [sp ts bs cs IH] using Node_ind'. intros Hf. rewrite !total_unfold.
  rewrite (Hf (mkNode sp ts bs cs)) by constructor. f_equal. apply sumZ_ext. intros c Hc.
  rewrite Forall_forall in IH. apply IH; [done|]. intros m Hm. apply Hf. by eapply node_in_child.
Qed.

Lemma total_zero n : total (λ _, 0) n = 0.
Proof.
  induction n as [sp ts bs cs IH] using Node_ind'. rewrite total_unfold. simpl.
  rewrite sumZ_zero; [done|]. rewrite Forall_forall in IH. auto.
Qed.

Lemma total_none f n : (∀ m, node_in m n → f (tip (span m)) = 0) → total f n = 0.
Proof. intros Hf. rewrite (total_ext f (λ _, 0)) by done. apply total_zero. Qed.

Lemma total_branch n : node_ok n → total (λ _, 1) n = branchSupport_ n.
Proof.
  induction n as [sp ts bs cs IH] using Node_ind'. rewrite total_unfold, node_ok_unfold.
  intros (_ & _ & -> & _ & [Hok _ _ _]). cbn [span tipSupport_ children branchSupport_].
  rewrite (sumZ_ext (total (λ _, 1)) branchSupport_); [lia|].
  rewrite Forall_forall in *. auto.
Qed.

Lemma total_all f n :
  node_ok n → (∀ m, node_in m n → f (tip (span m)) = 1) → total f n = branchSupport_ n.
Proof. intros Hn Hf. rewrite (total_ext f (λ _, 1)) by done. by apply total_branch. Qed.

Lemma total_nonneg f n : node_ok n → (∀ t, 0 ≤ f t) → 0 ≤ total f n.
Proof.
  intros Hn Hf. revert Hn. induction n as [sp ts bs cs IH] using Node_ind'.
  rewrite total_unfold, node_ok_unfold. intros (_ & ? & _ & _ & [Hok _ _ _]).
  cbn [span tipSupport_ children].
  assert (0 ≤ sumZ (total f <$> cs)).
  { apply sumZ_nonneg, Forall_fmap. rewrite Forall_forall in *. intros c Hc. by apply IH, Hok. }
  pose proof (Hf (tip sp)). nia.
Qed.

Lemma total_node_in f m n :
  node_in m n → node_ok n → (∀ t, 0 ≤ f t) → f (tip (span m)) * tipSupport_ m ≤ total f n.
Proof.
  intros Hm Hn Hf.
  assert (∀ n, node_ok n → 0 ≤ f (tip (span n)) * tipSupport_ n ∧
    Forall (λ y, 0 ≤ y) (total f <$> children n)) as Hpos.
  { intros [sp ts bs cs] (_ & Hts & _ & _ & [Hok _ _ _])%node_ok_unfold. simpl.
    split; [by apply Z.mul_nonneg_nonneg|]. apply Forall_fmap. eapply Forall_impl; [done|].
    intros c Hc. by apply total_nonneg. }
  induction Hm as [|n c Hc _ IH]; rewrite total_unfold; destruct (Hpos _ Hn) as [H1 H2].
  - pose proof (sumZ_nonneg _ H2). lia.
  - destruct (node_ok_children n c Hn Hc) as (Hok & _). specialize (IH Hok).
    pose proof (sumZ_elem_le _ (total f c) H2) as Hle.
    assert (total f c ∈ total f <$> children n) as Hin by (by apply list_elem_of_fmap_2).
    specialize (Hle Hin). lia.
Qed.

(** The tips below a position: all tips of the subtree that covers it. *)
Lemma total_desc p n loc s :
  node_ok n → node_at p n = Some loc → start_ (span loc) ≤ s < end_ (span loc) →
  total (is_desc s (at_ loc s)) n = branchSupport_ loc.
Proof.
  revert n. induction p as [|i p IH]; intros n Hn Hp Hs.
  - injection Hp as ->. apply total_all; [done|]. intros m Hm.
    destruct (node_in_ok m loc Hm Hn) as (Hm1 & _ & Hat).
    pose proof (node_in_end m loc Hm Hn). destruct (node_ok_span loc Hn).
    rewrite tip_eq by (by apply node_ok_span). unfold is_desc. simpl.
    rewrite (proj2 (Z.leb_le _ _)) by lia. fold (at_ m s). rewrite Hat by lia.
    by rewrite bool_decide_eq_true_2.
  - simpl in Hp. apply bind_Some in Hp as (c & Hc & Hp).
    destruct (node_ok_children n c Hn) as (Hcok & [Hcs _] & _);
      [by eapply list_elem_of_lookup_2|].
    pose proof (node_at_in p c loc Hp) as Hin.
    destruct (node_in_ok loc c Hin Hcok) as (Hlok & Hdir & _).
    assert (end_ (span n) ≤ s).
    { destruct Hdir as [->|]; [lia|]. destruct (node_ok_span c Hcok). lia. }
    rewrite total_unfold, tip_eq by (by apply node_ok_span).
    rewrite (sumZ_single _ _ i c Hc).
    + rewrite IH by done. unfold is_desc. simpl. rewrite (proj2 (Z.leb_gt _ _)) by lia. simpl. lia.
    + intros j d Hd Hj. apply total_none. intros m Hm.
      destruct (node_ok_children n d Hn) as (Hdok & _); [by eapply list_elem_of_lookup_2|].
      destruct (node_in_ok m d Hm Hdok) as (Hmok & _).
      rewrite tip_eq by (by apply node_ok_span). unfold is_desc. simpl.
      destruct (Z.leb_spec s (end_ (span m) - 1)); [|done]. simpl.
      rewrite bool_decide_eq_false_2; [done|]. fold (at_ m s).
      eapply (children_separate n j i d c); eauto; lia.
Qed.

(** The tips with the id of a node: only that node. *)
Lemma total_id p n loc :
  node_ok n → node_at p n = Some loc →
  total (is_id (tip_id (tip (span loc)))) n = tipSupport_ loc.
Proof.
  revert n. induction p as [|i p IH]; intros n Hn Hp.
  - injection Hp as ->. rewrite total_unfold, sumZ_zero.
    { unfold is_id. rewrite decide_True by done. lia. }
    intros c Hc. apply total_none. intros m Hm.
    destruct (node_ok_children loc c Hn Hc) as (Hcok & [Hcs _] & _).
    destruct (node_in_ok m c Hm Hcok) as (Hmok & _). pose proof (node_in_end m c Hm Hcok).
    unfold is_id. rewrite decide_False; [done|]. intros Heq%tip_ok_seq;
      [|by apply tip_ok_span, node_ok_span..].
    rewrite !tip_eq in Heq by (by apply node_ok_span). simpl in Heq.
    destruct (node_ok_span c Hcok). lia.
  - simpl in Hp. apply bind_Some in Hp as (c & Hc & Hp).
    destruct (node_ok_children n c Hn) as (Hcok & [Hcs _] & _);
      [by eapply list_elem_of_lookup_2|].
    pose proof (node_at_in p c loc Hp) as Hin.
    destruct (node_in_ok loc c Hin Hcok) as (Hlok & _ & _).
    pose proof (node_in_end loc c Hin Hcok). destruct (node_ok_span c Hcok).
    assert (∀ m, node_in m n → tip_id (tip (span m)) = tip_id (tip (span loc)) →
      node_ok m → end_ (span m) = end_ (span loc) ∧
      at_ m (end_ (span loc) - 1) = at_ loc (end_ (span loc) - 1)) as Hsame.
    { intros m _ Heq Hm. pose proof (tip_ok_seq _ _ (tip_ok_span _ (node_ok_span m Hm))
        (tip_ok_span _ (node_ok_span loc Hlok)) Heq) as Hseq.
      rewrite !tip_eq in Heq, Hseq by (by apply node_ok_span). simpl in *.
      assert (end_ (span m) = end_ (span loc)) as He by lia. split; [done|].
      unfold at_. by rewrite <- Heq, He. }
    rewrite total_unfold, (sumZ_single _ _ i c Hc).
    + rewrite IH by done. unfold is_id. rewrite decide_False; [lia|].
      intros Heq. destruct (Hsame n) as [He _]; [constructor|done..|]. lia.
    + intros j d Hd Hj. apply total_none. intros m Hm.
      destruct (node_ok_children n d Hn) as (Hdok & _); [by eapply list_elem_of_lookup_2|].
      destruct (node_in_ok m d Hm Hdok) as (Hmok & _).
      unfold is_id. rewrite decide_False; [done|]. intros Heq.
      destruct (Hsame m) as [He Ha]; [eapply node_in_child, Hm; by eapply list_elem_of_lookup_2|done..|].
      revert Ha. eapply (children_separate n j i d c); eauto; lia.
Qed.

(** ** Searching *)

Lemma findByLedgerID_spec x n :
  match findByLedgerID x n with
  | Some p => ∃ loc, node_at p n = Some loc ∧ tip_id (tip (span loc)) = x
  | None => ∀ m, node_in m n → tip_id (tip (span m)) ≠ x
  end.
Proof.
  induction n as [sp ts bs cs IH] using Node_ind'. cbn [findByLedgerID].
  case_decide as Hx; [by eexists|].
  set (search := fix search i cs := match cs with [] => None | child :: cs => _ end).
  assert (∀ rest pre, cs = pre ++ rest →
    match search (length pre) rest with
    | Some p => ∃ loc, node_at p (mkNode sp ts bs cs) = Some loc ∧ tip_id (tip (span loc)) = x
    | None => ∀ c m, c ∈ rest → node_in m c → tip_id (tip (span m)) ≠ x
    end) as Hsearch.
  { induction rest as [|c rest IHrest]; intros pre ->; simpl; [set_solver|].
    rewrite Forall_app, Forall_cons in IH. destruct IH as (_ & IHc & _).
    destruct (findByLedgerID x c) as [p|].
    - destruct IHc as (loc & Hp & Hid). exists loc. split; [|done].
      simpl. by rewrite list_lookup_middle.
    - specialize (IHrest (pre ++ [c])). rewrite length_app in IHrest. simpl in IHrest.
      rewrite Nat.add_1_r in IHrest. rewrite <- app_assoc in IHrest. specialize (IHrest eq_refl).
      destruct (search (S (length pre)) rest); [done|].
      intros d m [->|Hd]%elem_of_cons Hm; [by apply IHc|by apply (IHrest d)]. }
  specialize (Hsearch cs [] eq_refl). simpl in Hsearch.
  destruct (search O cs) as [p|]; [done|].
  intros m [->|(c & Hc & Hm)]%node_in_inv; [by auto|]. by apply (Hsearch c).
Qed.

Lemma diff_spec sp l :
  span_ok sp →
  start_ sp ≤ diff sp l ≤ end_ sp ∧
  (start_ sp < diff sp l → ∀ s, 0 ≤ s < diff sp l →
     s ≤ seq l ∧ ancestor_ID (ledger_ sp) s = ancestor_ID l s) ∧
  (diff sp l < end_ sp → diff sp l ≤ seq l →
     ancestor_ID (ledger_ sp) (diff sp l) ≠ ancestor_ID l (diff sp l)).
Proof.
  intros [H1 H2]. unfold diff, clamp. destruct (mismatch_first (ledger_ sp) l) as [Hm0 Hmm].
  split_and!; [lia..| |].
  - intros Hs s Hs'. destruct (mismatch_common (ledger_ sp) l s) as (?&?&?); [lia|done].
  - intros He Hle Hat.
    assert (ancestor_ID (ledger_ sp) (mismatch (ledger_ sp) l)
            = ancestor_ID l (mismatch (ledger_ sp) l)).
    { eapply (unique_history _ _ _ _ _ _ _ Hat). Unshelve. all: lia. }
    destruct Hmm as [|[|]]; [lia..|done].
Qed.

(** [find] returns the longest match: the node agrees with the ledger below
    the position, and no node of the tree agrees with it at the position. *)
Definition longest_match (l : Ledger) (n : Node) (p : list nat) (pos : Z) : Prop :=
  ∃ loc, node_at p n = Some loc ∧ start_ (span loc) < pos ≤ end_ (span loc) ∧
    (∀ s, 0 ≤ s < pos → s ≤ seq l ∧ at_ loc s = ancestor_ID l s) ∧
    (∀ m, node_in m n → pos < end_ (span m) → pos ≤ seq l → at_ m pos ≠ ancestor_ID l pos).

Lemma find_child l n i c p pos :
  node_ok n → children n !! i = Some c → longest_match l c p pos →
  longest_match l n (i :: p) pos.
Proof.
  intros Hn Hi (loc & Hp & Hpos & Hag & Hmax).
  destruct (node_ok_children n c Hn) as (Hc & [Hcs _] & _); [by eapply list_elem_of_lookup_2|].
  pose proof (node_at_in p c loc Hp) as Hin.
  destruct (node_in_ok loc c Hin Hc) as (Hloc & Hdir & _).
  destruct (node_ok_span c Hc), (node_ok_span n Hn), (node_ok_span loc Hloc).
  assert (start_ (span c) < pos) by (destruct Hdir as [->|]; lia).
  exists loc. simpl. rewrite Hi. split_and!; [done|lia..|done|].
  intros m [->|(d & Hd & Hm)]%node_in_inv Hend Hle; [lia|].
  destruct (list_elem_of_lookup_1 _ _ Hd) as [j Hj].
  destruct (decide (j = i)) as [->|Hne]; [simplify_eq; by apply Hmax|].
  intros Heq. destruct (node_ok_children n d Hn Hd) as (Hdok & [Hds _] & _).
  destruct (node_in_ok m d Hm Hdok) as (Hmok & _ & _). destruct (node_ok_span m Hmok).
  eapply (children_separate n j i d c m loc (end_ (span n))); eauto; try lia.
  destruct (Hag (end_ (span n))) as [_ ->]; [lia|].
  eapply (unique_history _ _ pos); [lia..|done].
Qed.

Lemma find_spec l n :
  node_ok n → start_ (span n) < diff (span n) l →
  longest_match l n (find l n).1 (find l n).2.
Proof.
  induction n as [sp ts bs cs IH] using Node_ind'. intros Hn Hst. cbn [find].
  pose proof (node_ok_span _ Hn) as Hsp. simpl in Hsp, Hst.
  destruct (diff_spec sp l Hsp) as (Hr & Hcom & Hdiff). set (pos := diff sp l) in *.
  destruct (Z.eqb_spec pos (end_ sp)) as [He|He].
  - set (search := fix search i cs := match cs with [] => _ | child :: cs => _ end).
    assert (∀ rest pre, cs = pre ++ rest →
      (∀ c, c ∈ pre → diff (span c) l ≤ pos) →
      longest_match l (mkNode sp ts bs cs) (search (length pre) rest).1
        (search (length pre) rest).2) as Hsearch; [|by apply (Hsearch cs []); [|set_solver]].
    induction rest as [|c rest IHrest]; intros pre Hcs Hpre; cbn [search].
    + simpl. rewrite app_nil_r in Hcs. subst pre.
      exists (mkNode sp ts bs cs). simpl. split_and!; [done|lia..|by auto|].
      intros m [->|(c & Hc & Hm)]%node_in_inv Hend Hle; [simpl in *; lia|].
      destruct (node_ok_children _ c Hn Hc) as (Hcok & [Hcst _] & _). simpl in Hcst.
      destruct (node_in_ok m c Hm Hcok) as (_ & _ & Hmc).
      pose proof (node_ok_span c Hcok) as [Hc1 Hc2]. rewrite Hmc by lia.
      destruct (diff_spec (span c) l (node_ok_span c Hcok)) as (Hr' & _ & Hd').
      specialize (Hpre c Hc). assert (diff (span c) l = pos) as Heq by lia.
      rewrite Heq in Hd'. apply Hd'; lia.
    + destruct (Z.ltb_spec pos (diff (span c) l)) as [Hlt|Hge].
      * destruct (find l c) as [p q] eqn:Hfind. simpl.
        assert (cs !! length pre = Some c) as Hi by (by rewrite Hcs, list_lookup_middle).
        apply (find_child l _ _ c); [done|done|].
        rewrite Forall_forall in IH. specialize (IH c). rewrite Hfind in IH.
        apply IH; [by eapply list_elem_of_lookup_2| |].
        -- eapply (node_ok_children _ c Hn). by eapply list_elem_of_lookup_2.
        -- destruct (node_ok_children _ c Hn) as (_ & [-> _] & _);
             [by eapply list_elem_of_lookup_2|simpl; lia].
      * specialize (IHrest (pre ++ [c])). rewrite length_app, Nat.add_1_r in IHrest.
        apply IHrest; [by rewrite <- app_assoc|]. set_solver.
  - exists (mkNode sp ts bs cs). simpl. split_and!; [done|lia..|by auto|].
    intros m Hm Hend Hle. destruct (node_in_ok m _ Hm Hn) as (_ & _ & Hmc). simpl in Hmc.
    destruct Hsp. rewrite Hmc by lia. apply Hdiff; lia.
Qed.

(** ** Changing a subtree

    [repl δ n n']: [n'] can take the place of [n], with the totals changed by
    [δ]. *)
Record repl (δ : (SpanTip → Z) → Z) (n n' : Node) : Prop := {
  repl_ok : node_ok n';
  repl_start : start_ (span n') = start_ (span n);
  repl_at s : 0 ≤ s ≤ start_ (span n) → at_ n' s = at_ n s;
  repl_total f : weight f → total f n' = total f n + δ f;
}.

Lemma repl_branch δ n n' :
  node_ok n → repl δ n n' → branchSupport_ n' = branchSupport_ n + δ (λ _, 1).
Proof.
  intros Hn [Hn' _ _ Ht]. rewrite <- (total_branch n), <- (total_branch n') by done.
  apply Ht, weight_const.
Qed.

Lemma kids_ok_insert δ sp cs i c c' :
  span_ok sp → kids_ok node_ok sp cs → cs !! i = Some c → repl δ c c' → supported c' →
  kids_ok node_ok sp (<[i := c']> cs).
Proof.
  intros [Hsp _] [Ho Hc Hs Hnd] Hi [Hok Hst Hat _] Hsup.
  assert (child_of sp c) as [Hcs Hca] by (by eapply Forall_lookup_1 in Hi).
  split; try by apply Forall_insert.
  - apply Forall_insert; [done|]. split; [by rewrite Hst|]. rewrite <- Hca. apply Hat. lia.
  - rewrite list_fmap_insert. rewrite list_insert_id; [done|].
    rewrite list_lookup_fmap, Hi. simpl. unfold first_ID, startID. rewrite Hst. f_equal.
    symmetry. apply Hat. destruct Hok as [sp' ? ? ? [? ?]]. simpl in *. lia.
Qed.

Lemma alter_lookup {A} (f : A → A) i (l : list A) x :
  l !! i = Some x → alter f i l = <[i := f x]> l.
Proof.
  revert i. induction l as [|y l IH]; intros [|i]; try done.
  - by intros [= ->].
  - intros Hi. change (y :: alter f i l = y :: <[i := f x]> l). f_equal. by apply IH.
Qed.

(** Replacing one child, with the supports along. *)
Lemma repl_child δ n i c c' :
  node_ok n → children n !! i = Some c → repl δ c c' → supported c' →
  branchSupport_ n + δ (λ _, 1) < 2 ^ 32 →
  repl δ n (add_branch (δ (λ _, 1)) (set_children (<[i := c']> (children n)) n)).
Proof.
  destruct n as [sp ts bs cs]. intros Hn Hi Hr Hsup Hlt. unfold add_branch, set_children.
  simpl in *. pose proof Hn as Hn'. apply node_ok_unfold in Hn' as (Hsp & Hts & Hbs & _ & Hk).
  assert (node_ok c) as Hc by (destruct Hk as [Ho _ _ _]; by eapply Forall_lookup_1 in Hi).
  pose proof (repl_branch δ c c' Hc Hr) as Hb.
  assert (kids_ok node_ok sp (<[i:=c']> cs)) as Hk' by (by eapply kids_ok_insert).
  assert (bs + δ (λ _, 1) = ts + sumZ (branchSupport_ <$> <[i:=c']> cs)) as Hsum.
  { rewrite (sumZ_insert _ _ _ c) by done. lia. }
  assert (0 ≤ bs + δ (λ _, 1)).
  { rewrite Hsum. destruct Hk' as [Ho _ _ _].
    pose proof (sumZ_nonneg _ (children_branch_nonneg _ Ho)). lia. }
  split; [|done|done|].
  - rewrite u32_id by lia. apply node_ok_unfold. by split_and!.
  - intros f Hf. rewrite !total_unfold. cbn [span tipSupport_ children].
    rewrite (sumZ_insert _ _ _ c) by done. rewrite (repl_total _ _ _ Hr f Hf). lia.
Qed.

Lemma alter_path_repl δ p n loc loc' :
  node_ok n → node_at p n = Some loc → repl δ loc loc' →
  (supported loc → supported loc') → branchSupport_ n + δ (λ _, 1) < 2 ^ 32 →
  0 ≤ δ (λ _, 1) →
  repl δ n (alter_path (add_branch (δ (λ _, 1))) (λ _, loc') p n) ∧
  (supported n → supported (alter_path (add_branch (δ (λ _, 1))) (λ _, loc') p n)).
Proof.
  intros Hn Hp Hr Hsup Hlt Hpos. revert n Hn Hp Hlt.
  induction p as [|i p IH]; intros n Hn Hp Hlt; [by injection Hp as ->|].
  simpl in *. apply bind_Some in Hp as (c & Hi & Hp). rewrite (alter_lookup _ _ _ c Hi).
  destruct (node_ok_children n c Hn) as (Hc & _ & Hcsup); [by eapply list_elem_of_lookup_2|].
  destruct (IH c Hc Hp) as [IHr IHs].
  { assert (branchSupport_ c ≤ branchSupport_ n); [|lia].
    by eapply child_branch_le, list_elem_of_lookup_2. }
  split; [apply (repl_child δ n i c); auto|]. destruct n as [sp ts bs cs]. unfold supported. simpl.
  by rewrite length_insert.
Qed.

(** ** Inserting *)

Lemma before_eq sp pos :
  start_ sp < pos ≤ end_ sp → before sp pos = Some (mkSpan (start_ sp) pos (ledger_ sp)).
Proof.
  intros Hp. unfold before, sub, clamp. rewrite (proj2 (Z.ltb_lt _ _)) by lia.
  do 2 f_equal; lia.
Qed.

Lemma from_eq sp pos :
  start_ sp ≤ pos ≤ end_ sp → start_ sp < end_ sp →
  from sp pos = if pos <? end_ sp then Some (mkSpan pos (end_ sp) (ledger_ sp)) else None.
Proof.
  intros Hp He. unfold from, sub, clamp.
  replace (Z.min (Z.max (start_ sp) pos) (end_ sp)) with pos by lia.
  replace (Z.min (Z.max (start_ sp) (end_ sp)) (end_ sp)) with (end_ sp) by lia. done.
Qed.

Lemma from_end sp : from sp (end_ sp) = None.
Proof. unfold from, sub. by rewrite Z.ltb_irrefl. Qed.

Lemma from_ledger l pos :
  0 ≤ pos ≤ seq l + 1 →
  from (Span_of l) pos = if pos <? seq l + 1 then Some (mkSpan pos (seq l + 1) l) else None.
Proof.
  intros Hp. pose proof (seq_range l). unfold Span_of. rewrite u32_id by lia.
  rewrite from_eq; simpl; [done|lia..].
Qed.

(** A position within a span, as an insertion point. *)
Record insert_point (l : Ledger) (loc : Node) (pos : Z) : Prop := {
  ip_range : start_ (span loc) < pos ≤ end_ (span loc);
  ip_agree s : 0 ≤ s < pos → s ≤ seq l ∧ at_ loc s = ancestor_ID l s;
  ip_split : pos < end_ (span loc) → pos ≤ seq l → at_ loc pos ≠ ancestor_ID l pos;
  ip_kids c : c ∈ children loc → pos = end_ (span loc) → pos ≤ seq l →
    at_ c pos ≠ ancestor_ID l pos;
}.

(** Adding support to the node of the ledger itself. *)
Lemma add_support_repl l count loc pos :
  node_ok loc → insert_point l loc pos → pos = end_ (span loc) → pos = seq l + 1 →
  0 < count → branchSupport_ loc + count < 2 ^ 32 →
  repl (λ f, f (tip_of l) * count) loc (add_branch count (add_tip count loc)).
Proof.
  destruct loc as [sp ts bs cs]. intros Hok [Hr Hag _ _] He Hs Hc Hlt.
  unfold add_branch, add_tip. simpl in *.
  pose proof (node_ok_branch_nonneg _ Hok) as Hb. simpl in Hb. pose proof Hok as Hok'.
  apply node_ok_unfold in Hok' as (Hsp & Hts & Hbs & _ & Hk).
  assert (0 ≤ sumZ (branchSupport_ <$> cs)).
  { destruct Hk. by apply sumZ_nonneg, children_branch_nonneg. }
  rewrite !u32_id by lia. split; [|done|done|].
  - apply node_ok_unfold. split_and!; [done|lia..|done].
  - intros f Hf. rewrite !total_unfold. cbn [span tipSupport_ children].
    rewrite (Hf (tip sp) (tip_of l)); [lia|by apply tip_ok_span|apply tip_of_ok|].
    rewrite tip_eq by done. simpl. destruct (Hag (end_ sp - 1)) as [_ Hat]; [destruct Hsp; lia|].
    unfold at_ in Hat. simpl in Hat. rewrite Hat, <- ancestor_self. f_equal. lia.
Qed.

(** A new leaf for the rest of the ledger's history. *)
Definition leaf (l : Ledger) (pos count : Z) : Node :=
  mkNode (mkSpan pos (seq l + 1) l) count count [].

Lemma leaf_ok l pos count :
  0 ≤ pos ≤ seq l → 0 < count < 2 ^ 32 → node_ok (leaf l pos count).
Proof.
  intros Hp Hc. apply node_ok_unfold.
  split_and!; [split; simpl; lia|lia|simpl; lia|lia|]. split; by constructor.
Qed.

Lemma leaf_total f l pos count :
  weight f → 0 ≤ pos ≤ seq l → 0 < count < 2 ^ 32 →
  total f (leaf l pos count) = f (tip_of l) * count.
Proof.
  intros Hf Hp Hc. pose proof (leaf_ok l pos count Hp Hc) as Hok%node_ok_span.
  rewrite total_unfold. simpl in *. rewrite Z.add_0_r.
  rewrite (Hf (tip _) (tip_of l)); [done|by apply tip_ok_span|apply tip_of_ok|].
  rewrite tip_eq by done. simpl. rewrite <- ancestor_self. f_equal. lia.
Qed.

Lemma add_leaf_repl l count loc pos :
  node_ok loc → insert_point l loc pos → pos = end_ (span loc) → pos ≤ seq l →
  0 < count → branchSupport_ loc + count < 2 ^ 32 →
  repl (λ f, f (tip_of l) * count) loc
    (add_branch count (set_children (children loc ++ [leaf l pos count]) loc)).
Proof.
  destruct loc as [sp ts bs cs]. intros Hok [Hr Hag _ Hkids] He Hs Hc Hlt.
  unfold add_branch, set_children. simpl in *.
  pose proof (node_ok_branch_nonneg _ Hok) as Hb. simpl in Hb.
  apply node_ok_unfold in Hok as (Hsp & Hts & Hbs & _ & [Ho Hch Hsup Hnd]).
  rewrite u32_id by lia. pose proof Hsp as [Hsp1 _].
  assert (node_ok (leaf l pos count)) as Hleaf by (apply leaf_ok; lia).
  split; [|done|done|].
  - apply node_ok_unfold. rewrite fmap_app, sumZ_app. simpl.
    split_and!; [done|lia|lia|lia|]. split.
    + apply Forall_app. split; [done|]. by constructor.
    + apply Forall_app. split; [done|]. constructor; [|done]. split; [done|]. simpl.
      symmetry. apply Hag. lia.
    + apply Forall_app. split; [done|]. constructor; [|done]. by left.
    + rewrite fmap_app. apply NoDup_app. split; [done|]. split; [|by apply NoDup_singleton].
      intros x (c & -> & Hcin)%list_elem_of_fmap_1 Hx%list_elem_of_singleton.
      rewrite Forall_forall in Hch. destruct (Hch c Hcin) as [Hcs _].
      apply (Hkids c Hcin He Hs). unfold first_ID, startID in Hx. rewrite Hcs in Hx.
      simpl in Hx. unfold at_. by rewrite <- Hx, He.
  - intros f Hf. rewrite !total_unfold. cbn [span tipSupport_ children].
    rewrite fmap_app, sumZ_app, fmap_cons, sumZ_cons, leaf_total by (done || lia).
    simpl. lia.
Qed.

(** Splitting a span. *)
Definition split_node (pos : Z) (loc : Node) : Node :=
  mkNode (mkSpan (start_ (span loc)) pos (ledger_ (span loc))) 0 (branchSupport_ loc)
    [mkNode (mkSpan pos (end_ (span loc)) (ledger_ (span loc))) (tipSupport_ loc)
       (branchSupport_ loc) (children loc)].

Lemma split_repl pos loc :
  node_ok loc → supported loc → start_ (span loc) < pos < end_ (span loc) →
  repl (λ _, 0) loc (split_node pos loc).
Proof.
  destruct loc as [sp ts bs cs]. unfold split_node. simpl. intros Hok Hsup Hp.
  apply node_ok_unfold in Hok as ([Hsp1 Hsp2] & Hts & Hbs & Hlt & [Ho Hch Hs Hnd]).
  split; [|done|done|].
  - apply node_ok_unfold. split_and!; [split; simpl; lia|lia|simpl; lia|done|]. split.
    + constructor; [|done]. apply node_ok_unfold.
      split_and!; [split; simpl; lia|lia|done|done|]. by split.
    + constructor; [|done]. by split.
    + constructor; [|done]. destruct Hsup; [by left|by right].
    + apply NoDup_singleton.
  - intros f Hf. simpl.
    rewrite !tip_eq by (split; simpl; lia). simpl. lia.
Qed.

Lemma repl_trans δ1 δ2 a b c :
  repl δ1 a b → repl δ2 b c → repl (λ f, δ1 f + δ2 f) a c.
Proof.
  intros [H1 H2 H3 H4] [H5 H6 H7 H8]. split; [done|congruence| |].
  - intros s Hs. rewrite H7, H3; [done|lia|lia].
  - intros f Hf. rewrite H8, H4 by done. lia.
Qed.

Lemma repl_ext δ δ' a b : (∀ f, δ f = δ' f) → repl δ a b → repl δ' a b.
Proof. intros Heq [H1 H2 H3 H4]. split; [done..|]. intros f Hf. rewrite <- Heq. auto. Qed.

(** The end of an insertion, at the end of the span of a node. *)
Definition insert_end (l : Ledger) (pos count : Z) (loc : Node) : Node :=
  match from (Span_of l) pos with
  | Some new => add_branch count
      (set_children (children loc ++ [add_branch count (add_tip count (mkNode new 0 0 []))]) loc)
  | None => add_branch count (add_tip count loc)
  end.

Lemma insert_end_repl l pos count loc :
  node_ok loc → insert_point l loc pos → pos = end_ (span loc) →
  0 < count → branchSupport_ loc + count < 2 ^ 32 →
  repl (λ f, f (tip_of l) * count) loc (insert_end l pos count loc) ∧
  (supported loc ∨ (1 ≤ length (children loc))%nat ∧ pos ≤ seq l ∨ seq l < pos →
   supported (insert_end l pos count loc)).
Proof.
  intros Hok Hip He Hc Hlt. pose proof (node_ok_branch_nonneg _ Hok) as Hb.
  destruct (ip_agree _ _ _ Hip (pos - 1)) as [Hseq _];
    [destruct (ip_range _ _ _ Hip), (node_ok_span _ Hok); lia|].
  pose proof (ip_range _ _ _ Hip). destruct (node_ok_span _ Hok) as [Hsp _].
  unfold insert_end. rewrite from_ledger by lia.
  destruct (Z.ltb_spec pos (seq l + 1)) as [Hlt'|Hge].
  - unfold add_branch at 2 4, add_tip. simpl. rewrite Z.add_0_l, u32_id by lia.
    split; [apply add_leaf_repl; [done|done|done|lia..]|].
    unfold supported. simpl. rewrite length_app. simpl. lia.
  - split; [apply (add_support_repl l count loc pos); [done|done|done|lia..]|]. intros _. left.
    destruct loc as [sp ts bs cs]. apply node_ok_unfold in Hok as (_&?&Hbs&_&[Ho _ _ _]).
    simpl in *. pose proof (sumZ_nonneg _ (children_branch_nonneg _ Ho)).
    rewrite u32_id by lia. lia.
Qed.

Lemma insert_at_repl l pos count loc :
  node_ok loc → insert_point l loc pos → (pos < end_ (span loc) → supported loc) →
  0 < count → branchSupport_ loc + count < 2 ^ 32 →
  ∃ loc', insert_at l pos count loc = Ok loc' ∧
    repl (λ f, f (tip_of l) * count) loc loc' ∧ (supported loc → supported loc').
Proof.
  intros Hok Hip Hsup Hc Hlt. pose proof (ip_range _ _ _ Hip) as Hr.
  destruct (node_ok_span _ Hok) as [Hsp _].
  unfold insert_at. rewrite (from_eq (span loc)), before_eq by lia.
  destruct (Z.ltb_spec pos (end_ (span loc))) as [Hin|Hend]; simpl; eexists;
    (split; [reflexivity|]).
  - fold (split_node pos loc). fold (insert_end l pos count (split_node pos loc)).
    pose proof (split_repl pos loc Hok (Hsup Hin) ltac:(lia)) as Hsplit.
    destruct (insert_end_repl l pos count (split_node pos loc)) as [Hrepl Hs]; try done.
    + apply Hsplit.
    + destruct Hip as [_ Hag Hsp' _]. split; simpl; [lia|done|lia|].
      intros c ->%list_elem_of_singleton _ Hle. by apply Hsp'.
    + split.
      * eapply repl_ext; [|by eapply repl_trans]. done.
      * intros _. apply Hs. simpl. lia.
  - fold (insert_end l pos count loc). destruct (insert_end_repl l pos count loc); try done.
    + lia.
    + split; auto.
Qed.

End trie_inv.
