(* ===== verification/LedgerTrieOps.v ===== *)
(** * The operations of the ledger trie

    [supports t L]: the trie [t] is well formed and represents the multiset
    [L] of ledgers.  Every operation is specified on [L]. *)
From S2P Require Import Prelude LedgerTrie LedgerSupport LedgerTrieInv.

Section trie_ops.
Context `{LedgerType} `{!LedgerLaws}.

(** ** Removing from a subtree *)

Lemma erase_perm i cs c : cs !! i = Some c → cs ≡ₚ c :: erase i cs.
Proof.
  intros Hi. unfold erase. destruct (last cs) as [b|] eqn:Hlast.
  2: { apply last_None in Hlast. by subst. }
  apply last_Some in Hlast as [cs0 ->]. rewrite length_app. simpl.
  replace (pred (length cs0 + 1)) with (length cs0) by lia.
  destruct (decide (i < length cs0)%nat) as [Hlt|Hge].
  - rewrite lookup_app_l in Hi by done.
    rewrite insert_app_l by done. rewrite take_app_le by (rewrite length_insert; lia).
    rewrite take_ge by (rewrite length_insert; lia).
    rewrite (Permutation_app_comm cs0). simpl.
    rewrite <- (take_drop_middle cs0 i c Hi) at 1.
    rewrite insert_take_drop by done. rewrite <- !Permutation_middle. by constructor.
  - assert (i = length cs0) as ->.
    { apply lookup_lt_Some in Hi. rewrite length_app in Hi. simpl in Hi. lia. }
    rewrite lookup_app_r, Nat.sub_diag in Hi by done. injection Hi as ->.
    rewrite insert_app_r_alt, Nat.sub_diag by done. simpl. rewrite take_app_length.
    by rewrite Permutation_app_comm.
Qed.

Lemma insert_perm {A} i (cs : list A) c c' cs' :
  cs !! i = Some c → <[i := c']> cs ≡ₚ c' :: cs' → cs ≡ₚ c :: cs'.
Proof.
  intros Hi Hp. assert (i < length cs)%nat by (by eapply lookup_lt_Some).
  rewrite insert_take_drop, <- Permutation_middle in Hp by done.
  apply Permutation_cons_inv in Hp. rewrite <- (take_drop_middle cs i c Hi) at 1.
  by rewrite <- Permutation_middle, Hp.
Qed.

Lemma erase_replace i cs c : (i < length cs)%nat → erase i (cs ++ [c]) = <[i := c]> cs.
Proof.
  intros Hi. unfold erase. rewrite last_snoc, length_app. simpl.
  replace (pred (length cs + 1)) with (length cs) by lia.
  rewrite insert_app_l by done. rewrite take_app_le by (rewrite length_insert; lia).
  by rewrite take_ge by (rewrite length_insert; lia).
Qed.

(** A node without tip support combined with its only child. *)
Lemma merge_repl n c :
  node_ok n → children n = [c] → tipSupport_ n = 0 →
  repl (λ _, 0) n (set_span (merge (span n) (span c)) c) ∧
  supported (set_span (merge (span n) (span c)) c).
Proof.
  intros Hn Hc Ht. destruct (node_ok_children n c Hn) as (Hcok & [Hst Hat] & Hsup);
    [rewrite Hc; by left|].
  destruct (node_ok_span c Hcok) as [Hc1 Hc2], (node_ok_span n Hn) as [Hn1 Hn2].
  unfold merge. rewrite (proj2 (Z.ltb_lt _ _)) by lia. rewrite Z.min_l by lia.
  assert (span_ok (mkSpan (start_ (span n)) (end_ (span c)) (ledger_ (span c)))) as Hsp
    by (split; simpl; lia).
  split; [|by destruct c]. split; [|done| |].
  - destruct c as [sp ts bs cs]. simpl in *.
    apply node_ok_unfold in Hcok as (_ & Hts & Hbs & Hlt & [Ho Hch Hs Hnd]).
    apply node_ok_unfold. split_and!; [done..|]. by split.
  - intros s Hs. unfold at_. simpl.
    eapply (unique_history _ _ (end_ (span n) - 1)); [lia..|done].
  - intros f Hf. rewrite (total_unfold f n), Hc, Ht. rewrite fmap_cons, sumZ_cons. simpl.
    rewrite !total_unfold. destruct c as [sp ts bs cs]. simpl in *.
    rewrite !tip_eq by (done || by apply (node_ok_span _ Hcok)). simpl.
    change (total f <$> cs) with (map (total f) cs). lia.
Qed.

(** Dropping a child that holds nothing. *)
Lemma drop_child_repl δ n i c c' :
  node_ok n → children n !! i = Some c → repl δ c c' →
  tipSupport_ c' = 0 → children c' = [] →
  repl δ n (set_children (erase i (<[i := c']> (children n)))
              (add_branch (δ (λ _, 1)) (set_children (<[i := c']> (children n)) n))).
Proof.
  destruct n as [sp ts bs cs]. simpl. intros Hn Hi Hr Ht Hk. unfold set_children, add_branch.
  simpl. pose proof Hn as Hn'. apply node_ok_unfold in Hn' as (Hsp & Hts & Hbs & Hlt & Hkids).
  assert (i < length cs)%nat by (by eapply lookup_lt_Some).
  assert (node_ok c) as Hc by (destruct Hkids as [Ho _ _ _]; by eapply Forall_lookup_1 in Hi).
  assert (Hz : ∀ f, total f c' = 0) by (intros f; rewrite total_unfold, Ht, Hk; simpl; lia).
  set (cs' := erase i (<[i:=c']> cs)).
  assert (<[i:=c']> cs ≡ₚ c' :: cs') as Hp by (by apply erase_perm, list_lookup_insert_eq).
  assert (cs ≡ₚ c :: cs') as Hp'.
  { apply (insert_perm i cs c c'); done. }
  assert (branchSupport_ c + δ (λ _, 1) = 0) as Hb.
  { rewrite <- (repl_branch δ c c' Hc Hr), <- total_branch by apply Hr. apply Hz. }
  rewrite Hp', fmap_cons, sumZ_cons in Hbs. rewrite Hp' in Hkids. destruct Hkids as [Ho Hch Hs Hnd].
  rewrite fmap_cons in Hnd. apply NoDup_cons in Hnd as [_ Hnd].
  apply Forall_cons in Ho as [_ Ho], Hch as [_ Hch], Hs as [_ Hs].
  pose proof (sumZ_nonneg _ (children_branch_nonneg cs' Ho)) as Hnn.
  split; [|done|done|].
  - apply node_ok_unfold. pose proof (node_ok_branch_nonneg c Hc).
    rewrite u32_id by lia. split_and!; [done|done|lia|lia|by split].
  - intros f Hf. rewrite !total_unfold. cbn [span tipSupport_ children].
    rewrite Hp', fmap_cons, sumZ_cons. pose proof (repl_total _ _ _ Hr f Hf) as Htot.
    rewrite Hz in Htot. lia.
Qed.
Lemma remove_here_repl count n :
  node_ok n → 0 < count ≤ tipSupport_ n →
  repl (λ f, f (tip (span n)) * - count) n (add_branch (- count) (add_tip (- count) n)).
Proof.
  destruct n as [sp ts bs cs]. intros Hn Hc. unfold add_branch, add_tip. simpl in *.
  pose proof Hn as Hn'. apply node_ok_unfold in Hn' as (Hsp & Hts & Hbs & Hlt & Hk).
  assert (0 ≤ sumZ (branchSupport_ <$> cs)).
  { destruct Hk. by apply sumZ_nonneg, children_branch_nonneg. }
  rewrite !u32_id by lia. split; [|done|done|].
  - apply node_ok_unfold. split_and!; [done|lia..|done].
  - intros f Hf. rewrite !total_unfold. cbn [span tipSupport_ children]. lia.
Qed.

Lemma remove_at_repl count p n loc n' running :
  node_ok n → node_at p n = Some loc → 0 < count ≤ tipSupport_ loc →
  remove_at count p n = (n', running) →
  repl (λ f, f (tip (span loc)) * - count) n n' ∧ span n' = span n ∧
  (running = false → supported n → supported n').
Proof.
  intros Hn Hp Hc. revert n n' running Hn Hp.
  induction p as [|i p IH]; intros n n' running Hn Hp Hrem; cbn [remove_at node_at] in *.
  { injection Hp as ->. injection Hrem as <- <-. by split; [apply remove_here_repl|]. }
  apply bind_Some in Hp as (c & Hi & Hp). rewrite Hi in Hrem.
  destruct (node_ok_children n c Hn) as (Hcok & _ & Hcsup); [by eapply list_elem_of_lookup_2|].
  destruct (remove_at count p c) as [c' run] eqn:Hsub.
  destruct (IH c c' run Hcok Hp Hsub) as (Hr & _ & Hsup). clear IH.
  set (δ := λ f : SpanTip → Z, f (tip (span loc)) * - count) in *.
  assert (δ (λ _, 1) = - count) as Hδ by (unfold δ; lia). rewrite <- Hδ in Hrem.
  assert (branchSupport_ n + δ (λ _, 1) < 2 ^ 32) as Hlt.
  { rewrite Hδ. destruct n. apply node_ok_unfold in Hn. simpl. lia. }
  assert (supported n → supported (add_branch (δ (λ _, 1))
    (set_children (<[i := c']> (children n)) n))) as Hkeep.
  { unfold supported. simpl. by rewrite length_insert. }
  assert (0 ≤ tipSupport_ c') as Htip
    by (destruct (repl_ok _ _ _ Hr); done).
  destruct (run && (tipSupport_ c' =? 0)) eqn:Hrun.
  - apply andb_true_iff in Hrun as [-> Ht%Z.eqb_eq].
    destruct (children c') as [|d [|d' ds]] eqn:Hk; injection Hrem as <- <-.
    + by split; [apply (drop_child_repl δ n i c c')|].
    + split; [|done]. cbn [children set_children add_branch].
      rewrite erase_replace by (rewrite length_insert; by eapply lookup_lt_Some).
      rewrite list_insert_insert_eq.
      destruct (merge_repl c' d) as [Hm Hmsup]; [apply Hr|done..|].
      apply (repl_child δ n i c (set_span (merge (span c') (span d)) d)); [done|done| |done|done].
      eapply repl_ext; [|by eapply repl_trans]. intros f. simpl. lia.
    + split; [|done]. apply (repl_child δ n i c c'); [done..| |done].
      right. rewrite Hk. simpl. lia.
  - injection Hrem as <- <-. split; [|done]. apply (repl_child δ n i c c'); [done..| |done].
    apply andb_false_iff in Hrun as [->|Ht%Z.eqb_neq]; [auto|left; lia].
Qed.

(** ** Well-formed tries and their meaning *)

Definition seq_total (t : LedgerTrie) (q : Z) : Z := total (is_seq (λ s, s =? q)) (root t).

Record trie_ok (t : LedgerTrie) : Prop := {
  trie_root : node_ok (root t);
  trie_span : span (root t) = Span_genesis;
  trie_seq q : seqSupport t !! q = if seq_total t q =? 0 then None else Some (seq_total t q);
}.

Definition supports (t : LedgerTrie) (L : list Ledger) : Prop :=
  trie_ok t ∧ ∀ f, weight f → total f (root t) = sum_over f L.

Lemma supports_length t L : supports t L → branchSupport_ (root t) = Z.of_nat (length L).
Proof.
  intros [[Hok _ _] Ht]. rewrite <- total_branch, Ht, sum_over_const by done. lia.
Qed.

Lemma seq_total_nonneg t q : trie_ok t → 0 ≤ seq_total t q.
Proof.
  intros Ht. apply total_nonneg; [apply Ht|]. intros tp. unfold is_seq. by case_match.
Qed.

Lemma supports_new : supports LedgerTrie_ctor [].
Proof.
  split; [split|].
  - apply node_ok_unfold. pose proof seq_genesis.
    split_and!; [split; simpl; lia|simpl; lia..|]. by split; constructor.
  - done.
  - intros q. unfold seq_total. simpl. rewrite lookup_empty, Z.mul_0_r. done.
  - intros f _. unfold sum_over. simpl. lia.
Qed.

(** ** Queries *)

Lemma tipSupport_total l t :
  trie_ok t → tipSupport l t = total (is_id (ledger_ID l)) (root t).
Proof.
  intros Ht. unfold tipSupport.
  pose proof (findByLedgerID_spec (ledger_ID l) (root t)) as Hf.
  destruct (findByLedgerID _ _) as [p|]; simpl.
  - destruct Hf as (loc & Hp & Hid). rewrite Hp, <- Hid. symmetry.
    by apply (total_id p); [apply Ht|].
  - symmetry. apply total_none. intros m Hm. unfold is_id. by rewrite decide_False by auto.
Qed.
Lemma root_diff l : diff Span_genesis l = 1.
Proof.
  unfold diff, clamp. simpl. destruct (mismatch_first MakeGenesis l) as [Hm0 Hm].
  assert (mismatch MakeGenesis l ≠ 0); [|lia].
  intros Hz. rewrite Hz in Hm. pose proof (seq_range l). pose proof seq_genesis.
  destruct Hm as [|[|Hm]]; [lia..|]. by rewrite (ancestor_genesis l) in Hm.
Qed.

Lemma root_find l t :
  trie_ok t → longest_match l (root t) (find l (root t)).1 (find l (root t)).2.
Proof.
  intros [Hok Hsp _]. apply find_spec; [done|]. rewrite Hsp, root_diff. simpl. lia.
Qed.

Lemma branchSupport_total l t :
  trie_ok t → branchSupport l t = total (is_desc (seq l) (ledger_ID l)) (root t).
Proof.
  intros Ht. pose proof (trie_root t Ht) as Hok. pose proof (seq_range l) as Hl.
  unfold branchSupport. pose proof (findByLedgerID_spec (ledger_ID l) (root t)) as Hf.
  destruct (findByLedgerID _ _) as [p|]; simpl.
  - destruct Hf as (loc & Hp & Hid). rewrite Hp.
    destruct (node_in_ok loc (root t) (node_at_in _ _ _ Hp) Hok) as (Hloc & _).
    pose proof (node_ok_span loc Hloc) as Hsp. pose proof (tip_eq _ Hsp) as Htip.
    assert (end_ (span loc) - 1 = seq l) as Hs.
    { change (seq l) with (tip_seq (tip_of l)). replace (end_ (span loc) - 1)
        with (tip_seq (tip (span loc))) by (by rewrite Htip).
      apply tip_ok_seq; [by apply tip_ok_span|apply tip_of_ok|done]. }
    rewrite Htip in Hid. simpl in Hid. rewrite Hs in Hid. rewrite <- Hid. symmetry.
    apply (total_desc p); [done|done|]. destruct Hsp. lia.
  - destruct (root_find l t Ht) as (loc & Hp & Hr & Hag & Hmax).
    destruct (find l (root t)) as [p pos]. simpl in *. rewrite Hp.
    destruct (node_in_ok loc (root t) (node_at_in _ _ _ Hp) Hok) as (Hloc & _).
    destruct (node_ok_span loc Hloc) as [Hs1 Hs2].
    destruct (Hag (pos - 1)) as [Hle _]; [lia|].
    destruct (Z.ltb_spec (seq l) pos) as [Hlt|Hge]; simpl.
    + rewrite (proj2 (Z.ltb_lt _ _)) by lia. destruct (Hag (seq l)) as [_ Heq]; [lia|].
      rewrite <- (ancestor_self l), <- Heq. symmetry. apply (total_desc p); [done|done|lia].
    + symmetry. apply total_none. intros m Hm. unfold is_desc.
      destruct (node_in_ok m (root t) Hm Hok) as (Hmok & _).
      destruct (node_ok_span m Hmok). rewrite tip_eq by (by apply node_ok_span). simpl.
      destruct (Z.leb_spec (seq l) (end_ (span m) - 1)); [|done].
      rewrite bool_decide_eq_false_2; [done|]. rewrite <- (ancestor_self l). intros Heq.
      apply (Hmax m Hm); [lia..|]. eapply (unique_history _ _ (seq l)); [lia..|done].
Qed.

Lemma total_le f g n : node_ok n → (∀ t, f t ≤ g t) → total f n ≤ total g n.
Proof.
  intros Hn Hf. assert (total (λ t, g t - f t) n = total g n - total f n) as Heq.
  { clear Hn. induction n as [sp ts bs cs IH] using Node_ind'. rewrite !total_unfold.
    cbn [span tipSupport_ children]. rewrite Forall_forall in IH.
    rewrite (sumZ_ext _ (λ c, total g c - total f c)) by done.
    assert (sumZ ((λ c, total g c - total f c) <$> cs)
            = sumZ (total g <$> cs) - sumZ (total f <$> cs)).
    { clear IH. induction cs as [|c cs IHcs]; [done|]. rewrite !fmap_cons, !sumZ_cons. lia. }
    lia. }
  assert (0 ≤ total (λ t, g t - f t) n); [|lia].
  apply total_nonneg; [done|]. intros t. specialize (Hf t). lia.
Qed.

Lemma seq_total_le t q : trie_ok t → seq_total t q ≤ branchSupport_ (root t).
Proof.
  intros Ht. rewrite <- total_branch by apply Ht. apply total_le; [apply Ht|].
  intros tp. unfold is_seq. by case_match.
Qed.

(** ** Insertion *)

Lemma span_alter_path d loc' p n :
  span (alter_path (add_branch d) (λ _, loc') p n) =
  match p with [] => span loc' | _ => span n end.
Proof. by destruct p. Qed.

Lemma insert_at_span l pos count loc loc' :
  pos = end_ (span loc) → insert_at l pos count loc = Ok loc' → span loc' = span loc.
Proof.
  intros -> Hi. unfold insert_at in Hi. rewrite from_end in Hi.
  injection Hi as <-. by case_match.
Qed.

(** Tips at one sequence number, when the root is replaced. *)
Lemma seq_total_repl t n' ss δ q :
  repl δ (root t) n' →
  seq_total (mkTrie n' ss) q = seq_total t q + δ (is_seq (λ s, s =? q)).
Proof. intros Hr. apply (repl_total _ _ _ Hr), weight_seq. Qed.

Lemma longest_match_point l n loc pos :
  node_ok loc → node_in loc n → start_ (span loc) < pos ≤ end_ (span loc) →
  (∀ s, 0 ≤ s < pos → s ≤ seq l ∧ at_ loc s = ancestor_ID l s) →
  (∀ m, node_in m n → pos < end_ (span m) → pos ≤ seq l → at_ m pos ≠ ancestor_ID l pos) →
  insert_point l loc pos.
Proof.
  intros Hloc Hin Hr Hag Hmax. split; [done|done|intros; by apply Hmax|].
  intros c Hcin He Hle. destruct (node_ok_children loc c Hloc Hcin) as (Hcok & [Hcs _] & _).
  destruct (node_ok_span c Hcok). apply Hmax; [|lia|done].
  eapply node_in_trans; [|done]. eapply node_in_child; [done|constructor].
Qed.

Lemma insert_spec l count t L :
  supports t L → 0 < count → Z.of_nat (length L) + count < 2 ^ 32 →
  ∃ t', insert l count t = Ok t' ∧ supports t' (replicate (Z.to_nat count) l ++ L).
Proof.
  intros Hsup Hc Hlen. pose proof (supports_length t L Hsup) as Hbr.
  destruct Hsup as [Ht Htot]. pose proof (trie_root t Ht) as Hok.
  unfold insert. destruct (root_find l t Ht) as (loc & Hp & Hr & Hag & Hmax).
  destruct (find l (root t)) as [p pos] eqn:Hfind. simpl in *. rewrite Hp. simpl.
  pose proof (node_at_in _ _ _ Hp) as Hin.
  destruct (node_in_ok loc (root t) Hin Hok) as (Hloc & Hdir & _).
  pose proof (node_in_branch_le loc (root t) Hin Hok) as Hbl.
  assert (loc = root t → pos = end_ (span loc)) as Hroot.
  { intros ->. rewrite (trie_span t Ht) in *. simpl in *. lia. }
  destruct (insert_at_repl l pos count loc) as (loc' & Hat & Hrepl & Hs);
    [done| | |done|lia|].
  { by apply (longest_match_point l (root t)). }
  { intros Hlt. destruct (node_in_supported loc _ Hin Hok) as [Heq|]; [|done].
    specialize (Hroot Heq). lia. }
  rewrite Hat. simpl. eexists. split; [reflexivity|].
  set (δ := λ f : SpanTip → Z, f (tip_of l) * count) in *.
  assert (δ (λ _, 1) = count) as Hδ by (unfold δ; lia). rewrite <- Hδ at 1.
  destruct (alter_path_repl δ p (root t) loc loc') as [Hr' _]; [done..|lia|lia|].
  assert (0 ≤ seq_total t (seq l) ≤ branchSupport_ (root t))
    by (split; [by apply seq_total_nonneg|by apply seq_total_le]).
  split.
  - split; simpl; [apply Hr'| |].
    + rewrite span_alter_path. destruct p as [|i p]; [|apply Ht].
      injection Hp as <-. rewrite (insert_at_span l pos count (root t) loc'); [apply Ht|auto|done].
    + intros q. rewrite (seq_total_repl t _ _ δ q Hr'). unfold δ, is_seq. simpl.
      rewrite lookup_insert. case_decide as Hq.
      * subst q. rewrite Z.eqb_refl, Z.mul_1_l, (trie_seq t Ht).
        rewrite (proj2 (Z.eqb_neq (_ + _) 0)) by lia. f_equal.
        destruct (Z.eqb_spec (seq_total t (seq l)) 0) as [->|]; simpl; rewrite u32_id by lia; lia.
      * rewrite (proj2 (Z.eqb_neq (seq l) q)) by done.
        rewrite Z.mul_0_l, Z.add_0_r. apply Ht.
  - intros f Hf. cbn [root]. rewrite (repl_total _ _ _ Hr' f Hf), Htot by done.
    rewrite sum_over_app, sum_over_replicate. unfold δ. lia.
Qed.

(** ** Removal *)

Lemma sum_over_remove f c l L :
  weight f →
  sum_over f (remove_support c (ledger_ID l) L) =
  sum_over f L - f (tip_of l) * Z.min (Z.of_nat c) (count_id (ledger_ID l) L).
Proof.
  intros Hf. revert c. induction L as [|l' L IH]; intros c.
  { destruct c; unfold count_id, sum_over; simpl; lia. }
  pose proof (count_id_nonneg (ledger_ID l) L).
  destruct c as [|c]; cbn [remove_support].
  { rewrite Z.min_l by apply count_id_nonneg. lia. }
  rewrite count_id_cons. case_decide as Heq.
  - rewrite IH, sum_over_cons, (Hf (tip_of l') (tip_of l)) by (apply tip_of_ok || done).
    replace (Z.min (Z.of_nat (S c)) (1 + count_id (ledger_ID l) L))
      with (Z.min (Z.of_nat c) (count_id (ledger_ID l) L) + 1) by lia. lia.
  - rewrite !sum_over_cons, IH. rewrite Z.add_0_l. lia.
Qed.

Lemma count_id_le_seq l L :
  count_id (ledger_ID l) L ≤ sum_over (is_seq (λ s, s =? seq l)) L.
Proof.
  induction L as [|l' L IH]; [done|]. rewrite count_id_cons, sum_over_cons.
  assert ((if decide (ledger_ID l' = ledger_ID l) then 1 else 0)
          ≤ is_seq (λ s, s =? seq l) (tip_of l')); [|lia].
  unfold is_seq. simpl. case_decide as Heq; [|by case_match].
  pose proof (tip_ok_seq (tip_of l') (tip_of l) (tip_of_ok _) (tip_of_ok _) Heq) as Hs.
  simpl in Hs. by rewrite Hs, Z.eqb_refl.
Qed.

Lemma supports_tip t L l : supports t L → tipSupport l t = count_id (ledger_ID l) L.
Proof. intros [Ht Htot]. rewrite tipSupport_total by done. apply Htot, weight_id. Qed.

(** The bookkeeping of the sequence numbers when support goes down. *)
Lemma remove_seq_ok t n' l count :
  trie_ok t → 0 < count ≤ seq_total t (seq l) →
  repl (λ f, f (tip_of l) * - count) (root t) n' → span n' = Span_genesis →
  trie_ok (mkTrie n'
    (if u32 (seq_total t (seq l) - count) =? 0 then delete (seq l) (seqSupport t)
     else <[seq l := u32 (seq_total t (seq l) - count)]> (seqSupport t))).
Proof.
  intros Ht Hc Hr Hsp.
  pose proof (seq_total_le t (seq l) Ht) as Hle.
  assert (branchSupport_ (root t) < 2 ^ 32) by (destruct (trie_root t Ht); done).
  rewrite u32_id by lia. split; [apply Hr|done|].
  intros q. rewrite (seq_total_repl t _ _ _ q Hr). unfold is_seq. simpl.
  destruct (Z.eqb_spec (seq_total t (seq l) - count) 0) as [Hz|Hz].
  - rewrite lookup_delete. case_decide as Hq.
    + subst q. rewrite Z.eqb_refl. by rewrite (proj2 (Z.eqb_eq _ 0)) by lia.
    + rewrite (proj2 (Z.eqb_neq (seq l) q)) by done. rewrite Z.mul_0_l, Z.add_0_r. apply Ht.
  - rewrite lookup_insert. case_decide as Hq.
    + subst q. rewrite Z.eqb_refl. rewrite (proj2 (Z.eqb_neq _ 0)) by lia. f_equal. lia.
    + rewrite (proj2 (Z.eqb_neq (seq l) q)) by done. rewrite Z.mul_0_l, Z.add_0_r. apply Ht.
Qed.

Lemma remove_spec l count t L :
  supports t L → 0 < count →
  ∃ t', remove l count t = Ok (negb (count_id (ledger_ID l) L =? 0), t') ∧
    supports t' (remove_support (Z.to_nat count) (ledger_ID l) L).
Proof.
  intros Hsup Hc. pose proof (supports_tip t L l Hsup) as Htip. destruct Hsup as [Ht Htot].
  pose proof (trie_root t Ht) as Hok. unfold tipSupport in Htip. unfold remove.
  pose proof (findByLedgerID_spec (ledger_ID l) (root t)) as Hf.
  assert (count_id (ledger_ID l) L = 0 →
    supports t (remove_support (Z.to_nat count) (ledger_ID l) L)) as Hnone.
  { intros Hz. split; [done|]. intros f Hf'.
    rewrite (sum_over_remove f _ l L Hf'), Hz, Z.min_r, Htot by (done || lia). lia. }
  destruct (findByLedgerID _ _) as [p|]; simpl in *.
  2: { rewrite <- Htip in *. simpl. eauto. }
  destruct Hf as (loc & Hp & Hid). rewrite Hp in *. simpl. rewrite Htip.
  destruct (Z.eqb_spec (count_id (ledger_ID l) L) 0) as [Hz|Hz]; [by eauto|].
  pose proof (count_id_nonneg (ledger_ID l) L) as Hnn.
  assert (count_id (ledger_ID l) L ≤ seq_total t (seq l)) as Hseq.
  { unfold seq_total. rewrite Htot by apply weight_seq. apply count_id_le_seq. }
  rewrite (trie_seq t Ht), (proj2 (Z.eqb_neq (seq_total t (seq l)) 0)) by lia. simpl.
  rewrite (proj2 (Z.leb_le _ _)) by lia. simpl.
  set (c := Z.min count (count_id (ledger_ID l) L)).
  destruct (node_in_ok loc (root t) (node_at_in _ _ _ Hp) Hok) as (Hloc & _).
  destruct (remove_at c p (root t)) as [n' run] eqn:Hrem.
  destruct (remove_at_repl c p (root t) loc n' run Hok Hp ltac:(lia) Hrem) as (Hr & Hsp & _).
  assert (repl (λ f, f (tip_of l) * - c) (root t) n') as Hr'.
  { destruct Hr as [H1 H2 H3 H4]. split; [done..|]. intros f Hf. rewrite H4 by done.
    rewrite (Hf (tip (span loc)) (tip_of l)); [done| |apply tip_of_ok|done].
    by apply tip_ok_span, node_ok_span. }
  eexists. split; [reflexivity|]. split.
  - apply remove_seq_ok; [done|lia|done|]. simpl. rewrite Hsp. apply Ht.
  - intros f Hf. cbn [root fst]. rewrite (repl_total _ _ _ Hr' f Hf), Htot by done.
    rewrite sum_over_remove, Z2Nat.id by (done || lia). unfold c. lia.
Qed.

End trie_ops.

(** ** The self-check

    [checkInvariants] answers true on every well-formed trie. *)
Section check.
Context `{LedgerType} `{!LedgerLaws}.

Lemma foldl_branch cs s :
  0 ≤ s → Forall node_ok cs → s + sumZ (branchSupport_ <$> cs) < 2 ^ 64 →
  foldl (λ s c, u64 (s + branchSupport_ c)) s cs = s + sumZ (branchSupport_ <$> cs).
Proof.
  revert s. induction cs as [|c cs IH]; intros s Hs Hok Hlt; [simpl; lia|].
  apply Forall_cons in Hok as [Hc Hok]. rewrite fmap_cons, sumZ_cons in *. simpl.
  pose proof (node_ok_branch_nonneg c Hc).
  pose proof (sumZ_nonneg _ (children_branch_nonneg cs Hok)).
  rewrite u64_id by lia. rewrite IH; [lia|lia|done|lia].
Qed.

(** A support map without zero entries. *)
Definition map_of (E : Z → Z) (m : gmap Z Z) : Prop :=
  ∀ q, m !! q = if E q =? 0 then None else Some (E q).

Definition stack_total (q : Z) (nodes : list (bool * Node)) : Z :=
  sumZ ((λ bn : bool * Node, total (is_seq (λ s, s =? q)) bn.2) <$> nodes).

Definition stack_ok (bn : bool * Node) : Prop :=
  node_ok bn.2 ∧ (bn.1 = false → supported bn.2).

Lemma is_seq_nonneg P tp : 0 ≤ is_seq P tp.
Proof. unfold is_seq. by case_match. Qed.

Lemma stack_total_nonneg q nodes : Forall stack_ok nodes → 0 ≤ stack_total q nodes.
Proof.
  intros Hok. apply sumZ_nonneg, Forall_fmap. eapply Forall_impl; [done|].
  intros [b n] [Hn _]. apply total_nonneg; [done|apply is_seq_nonneg].
Qed.

(** Visiting a node adds its tip support. *)
Lemma visit_map E m n q0 :
  map_of E m → (∀ q, 0 ≤ E q) → 0 ≤ tipSupport_ n → E q0 + tipSupport_ n < 2 ^ 32 →
  map_of (λ q, E q + (if q0 =? q then 1 else 0) * tipSupport_ n)
    (if negb (tipSupport_ n =? 0)
     then <[q0 := u32 (default 0 (m !! q0) + tipSupport_ n)]> m else m).
Proof.
  intros Hm HE Ht Hlt q. specialize (HE q0) as HE0.
  destruct (Z.eqb_spec (tipSupport_ n) 0) as [Hz|Hz]; simpl.
  { rewrite Hz, Z.mul_0_r, Z.add_0_r. apply Hm. }
  rewrite lookup_insert. case_decide as Hq.
  - subst q. rewrite Z.eqb_refl, Z.mul_1_l, (Hm q0).
    rewrite (proj2 (Z.eqb_neq (_ + _) 0)) by lia. f_equal.
    destruct (Z.eqb_spec (E q0) 0) as [He|He]; simpl; rewrite u32_id by lia; lia.
  - rewrite (proj2 (Z.eqb_neq q0 q)) by done. rewrite Z.mul_0_l, Z.add_0_r. apply Hm.
Qed.

Lemma stack_total_children q cs nodes :
  stack_total q (reverse ((λ c, (false, c)) <$> cs) ++ nodes) =
  sumZ (total (is_seq (λ s, s =? q)) <$> cs) + stack_total q nodes.
Proof.
  unfold stack_total. rewrite reverse_Permutation, fmap_app, sumZ_app, <- list_fmap_compose.
  done.
Qed.

Definition stack_size (nodes : list (bool * Node)) : nat :=
  sum_list ((λ bn : bool * Node, node_count bn.2) <$> nodes).

Lemma stack_size_children cs nodes :
  stack_size (reverse ((λ c, (false, c)) <$> cs) ++ nodes) =
  (sum_list (map node_count cs) + stack_size nodes)%nat.
Proof.
  unfold stack_size. rewrite reverse_Permutation, fmap_app, sum_list_with_app,
    <- list_fmap_compose.
  done.
Qed.

Lemma checkNodes_spec fuel nodes m E :
  (stack_size nodes ≤ fuel)%nat → Forall stack_ok nodes → map_of E m → (∀ q, 0 ≤ E q) →
  (∀ q, E q + stack_total q nodes < 2 ^ 32) →
  ∃ m', checkNodes fuel nodes m = Ok (Some m') ∧ map_of (λ q, E q + stack_total q nodes) m'.
Proof.
  revert nodes m E. induction fuel as [|fuel IH]; intros nodes m E Hf Hok Hm HE Hlt.
  { destruct nodes as [|[b [sp ts bs cs]] nodes]; [|cbn in Hf; lia]. eexists. split; [done|].
    intros q. unfold stack_total. simpl. rewrite Z.add_0_r. apply Hm. }
  destruct nodes as [|[isRoot n] nodes].
  { eexists. split; [done|]. intros q. unfold stack_total. simpl. rewrite Z.add_0_r. apply Hm. }
  apply Forall_cons in Hok as [[Hn Hs] Hok]. simpl in Hn, Hs. cbn [checkNodes].
  destruct n as [sp ts bs cs]. pose proof Hn as Hn'.
  apply node_ok_unfold in Hn' as (Hsp & Hts & Hbs & Hbs' & [Ho _ Hcs _]). simpl in *.
  assert (negb isRoot && (ts =? 0) && (length cs <? 2)%nat = false) as ->.
  { destruct isRoot; [done|]. destruct (Hs eq_refl) as [Ht|Hl]; simpl in *.
    - by rewrite (proj2 (Z.eqb_neq ts 0)) by lia.
    - rewrite (proj2 (Nat.ltb_ge _ _)) by done. by rewrite andb_false_r. }
  pose proof (tip_eq sp Hsp) as Htip. unfold tip in Htip. injection Htip as Hend _.
  rewrite Hend, foldl_branch, <- Hbs, Z.eqb_refl by (done || lia). simpl.
  change (S (sum_list (map node_count cs)) + stack_size nodes ≤ S fuel)%nat in Hf.
  set (E' := λ q, E q + (if end_ sp - 1 =? q then 1 else 0) * ts).
  assert (∀ q, stack_total q ((isRoot, mkNode sp ts bs cs) :: nodes) =
    (if end_ sp - 1 =? q then 1 else 0) * ts +
    stack_total q (reverse ((λ c, (false, c)) <$> cs) ++ nodes)) as Hst.
  { intros q. rewrite stack_total_children. unfold stack_total. rewrite fmap_cons, sumZ_cons.
    simpl. rewrite tip_eq by done. unfold is_seq at 1. simpl.
    change (map (total (is_seq (λ s, s =? q))) cs)
      with (total (is_seq (λ s, s =? q)) <$> cs). lia. }
  assert (Forall stack_ok (reverse ((λ c, (false, c)) <$> cs) ++ nodes)) as Hok'.
  { apply Forall_app. split; [|done]. apply Forall_reverse, Forall_fmap.
    rewrite Forall_forall in *. intros c Hc. by split; [apply Ho|intros _; apply Hcs]. }
  assert (map_of E' (if negb (ts =? 0)
    then <[end_ sp - 1 := u32 (default 0 (m !! (end_ sp - 1)) + ts)]> m else m)) as Hm'.
  { apply (visit_map E m (mkNode sp ts bs cs)); [done|done|done|]. simpl.
    specialize (Hlt (end_ sp - 1)). rewrite Hst, Z.eqb_refl in Hlt.
    pose proof (stack_total_nonneg (end_ sp - 1) _ Hok'). lia. }
  assert (stack_size (reverse ((λ c, (false, c)) <$> cs) ++ nodes) ≤ fuel)%nat as Hf'
    by (rewrite stack_size_children; lia).
  destruct (IH _ _ E' Hf' Hok' Hm') as (m' & -> & Hm2).
  - intros q. unfold E'. specialize (HE q). destruct (end_ sp - 1 =? q); lia.
  - intros q. unfold E'. specialize (Hlt q). rewrite Hst in Hlt. lia.
  - eexists. split; [reflexivity|]. intros q. rewrite (Hm2 q), Hst. unfold E'.
    by rewrite Z.add_assoc.
Qed.

Lemma checkInvariants_true t L : supports t L → checkInvariants t = Ok true.
Proof.
  intros [Ht _]. pose proof (trie_root t Ht) as Hok. unfold checkInvariants.
  destruct (checkNodes_spec (node_count (root t)) [(true, root t)] ∅ (λ _, 0))
    as (m & -> & Hm).
  - unfold stack_size. simpl. lia.
  - by repeat constructor.
  - done.
  - done.
  - intros q. unfold stack_total. simpl. rewrite Z.add_0_r.
    apply Z.le_lt_trans with (branchSupport_ (root t)); [by apply seq_total_le|by destruct Hok].
  - simpl. f_equal. apply bool_decide_eq_true_2, map_eq. intros q.
    rewrite (Hm q), (trie_seq t Ht). unfold stack_total. simpl. by rewrite Z.add_0_r.
Qed.
End check.
