(* ===== verification/LedgerTriePreferred.v ===== *)
(** * The preferred ledger

    [getPreferred] walks the compressed trie span by span, skipping the
    sequence numbers at which nothing changes.  The reference is the walk its
    documentation describes, one sequence number at a time, on the multiset of
    supporting ledgers alone. *)
From S2P Require Import Prelude LedgerTrie LedgerSupport LedgerTrieInv LedgerTrieOps.

Section preferred.
Context `{LedgerType} `{!LedgerLaws}.

(** ** Support in the trie and in the multiset *)

Lemma total_some f n :
  total f n ≠ 0 → ∃ m, node_in m n ∧ f (tip (span m)) ≠ 0.
Proof.
  induction n as [sp ts bs cs IH] using Node_ind'. rewrite total_unfold.
  cbn [span tipSupport_ children]. intros Hne.
  destruct (decide (f (tip sp) = 0)) as [Hz|Hz].
  2: { exists (mkNode sp ts bs cs). split; [constructor|done]. }
  rewrite Hz, Z.mul_0_l, Z.add_0_l in Hne.
  assert (∃ c, c ∈ cs ∧ total f c ≠ 0) as (c & Hc & Hcne).
  { clear -Hne. induction cs as [|c cs IHcs]; [done|]. rewrite fmap_cons, sumZ_cons in Hne.
    destruct (decide (total f c = 0)) as [Hz|Hz]; [|by exists c; split; [left|]].
    destruct IHcs as (d & Hd & ?); [lia|]. exists d. split; [by right|done]. }
  rewrite Forall_forall in IH. destruct (IH c Hc Hcne) as (m & Hm & Hfm).
  exists m. split; [by eapply node_in_child|done].
Qed.

Lemma total_sub f m n :
  node_in m n → node_ok n → (∀ t, 0 ≤ f t) → total f m ≤ total f n.
Proof.
  intros Hm. induction Hm as [|n c Hc Hm IH]; intros Hn Hf; [done|].
  destruct n as [sp ts bs cs]. simpl in Hc. pose proof Hn as Hn'.
  apply node_ok_unfold in Hn' as (_ & Hts & _ & _ & [Ho _ _ _]).
  assert (total f m ≤ total f c) by (rewrite Forall_forall in Ho; auto).
  rewrite (total_unfold f (mkNode _ _ _ _)). cbn [span tipSupport_ children].
  assert (total f c ≤ sumZ (total f <$> cs)).
  { apply sumZ_elem_le; [|by apply list_elem_of_fmap_2]. apply Forall_fmap.
    eapply Forall_impl; [done|]. intros d Hd. by apply total_nonneg. }
  pose proof (Hf (tip sp)). nia.
Qed.

Context (t : LedgerTrie) (L : list Ledger) (Hsup : supports t L).

Lemma successor_tree s x y :
  0 ≤ s → successor L s x y ↔
  ∃ m, node_in m (root t) ∧ s + 1 < end_ (span m) ∧ at_ m s = x ∧ at_ m (s + 1) = y.
Proof.
  intros Hs. destruct Hsup as [Ht Htot]. pose proof (trie_root t Ht) as Hok. split.
  - intros (l & Hl & Hle & Hx & Hy).
    assert (0 < sum_over (is_desc (s + 1) y) L).
    { pose proof (sum_over_elem (is_desc (s + 1) y) L l (is_desc_nonneg _ _) Hl) as Hb.
      assert (0 < is_desc (s + 1) y (tip_of l)) by (by apply is_desc_pos). lia. }
    destruct (total_some (is_desc (s + 1) y) (root t)) as (m & Hm & Hd).
    { rewrite Htot by (apply weight_desc; lia). lia. }
    destruct (node_in_ok m _ Hm Hok) as (Hmok & _). destruct (node_ok_span m Hmok) as [Hm1 Hm2].
    pose proof (is_desc_nonneg (s + 1) y (tip (span m))).
    assert (0 < is_desc (s + 1) y (tip (span m))) as Hd' by lia.
    rewrite is_desc_pos, tip_eq in Hd' by (by apply node_ok_span). simpl in Hd'.
    destruct Hd' as [Hle' Hy']. exists m. unfold at_. split_and!; [done|lia| |done].
    rewrite <- Hx. eapply (unique_history _ _ (s + 1)); [lia..|congruence].
  - intros (m & Hm & He & Hx & Hy).
    destruct (node_in_ok m _ Hm Hok) as (Hmok & _). destruct (node_ok_span m Hmok) as [Hm1 Hm2].
    destruct (node_in_supported m _ Hm Hok) as [->|Hms].
    { rewrite (trie_span t Ht) in He. simpl in He. lia. }
    pose proof (node_ok_branch_pos m Hmok Hms) as Hpos.
    rewrite <- (total_all (is_desc (s + 1) y) m Hmok) in Hpos.
    + pose proof (total_sub (is_desc (s + 1) y) m _ Hm Hok (is_desc_nonneg _ _)) as Hle.
      rewrite Htot in Hle by (apply weight_desc; lia).
      destruct (sum_over_pos (is_desc (s + 1) y) L) as (l & Hl & Hd);
        [apply is_desc_nonneg|lia|].
      apply is_desc_pos in Hd as [Hle' Hy']. simpl in *. exists l. split_and!; [done..| |done].
      rewrite <- Hx. unfold at_. eapply (unique_history _ _ (s + 1)); [lia..|].
      rewrite Hy', <- Hy. done.
    + intros m' Hm'. destruct (node_in_ok m' m Hm' Hmok) as (Hmok' & _ & Hat).
      pose proof (node_in_end m' m Hm' Hmok).
      assert (0 < is_desc (s + 1) y (tip (span m'))) as Hd.
      { rewrite is_desc_pos, tip_eq by (by apply node_ok_span). simpl. split; [lia|].
        fold (at_ m' (s + 1)). by rewrite Hat by lia. }
      unfold is_desc in *. by case_match.
Qed.

(** A node that agrees at a position with a node covering it is below it. *)
Lemma below p n loc m s :
  node_ok n → node_at p n = Some loc → node_in m n →
  start_ (span loc) ≤ s < end_ (span loc) → s < end_ (span m) → at_ m s = at_ loc s →
  node_in m loc.
Proof.
  revert n. induction p as [|i p IH]; intros n Hn Hp Hm Hs Hsm Heq.
  { by injection Hp as ->. }
  simpl in Hp. apply bind_Some in Hp as (c & Hi & Hp).
  destruct (node_ok_children n c Hn) as (Hc & [Hcs _] & _); [by eapply list_elem_of_lookup_2|].
  pose proof (node_at_in p c loc Hp) as Hloc.
  destruct (node_in_ok loc c Hloc Hc) as (Hlok & Hdir & _). destruct (node_ok_span c Hc).
  assert (end_ (span n) ≤ s) by (destruct Hdir as [->|]; lia).
  apply node_in_inv in Hm as [->|(d & Hd & Hm)]; [lia|].
  destruct (list_elem_of_lookup_1 _ _ Hd) as [j Hj].
  destruct (decide (j = i)) as [->|Hne]; [|].
  { assert (d = c) as -> by congruence. by apply (IH c). }
  exfalso. revert Heq. eapply (children_separate n j i d c); eauto; lia.
Qed.

(** Support at a position covered by a node. *)
Lemma branch_of_node p loc s :
  node_at p (root t) = Some loc → start_ (span loc) ≤ s < end_ (span loc) →
  branch_of L s (at_ loc s) = branchSupport_ loc.
Proof.
  intros Hp Hs. destruct Hsup as [Ht Htot]. pose proof (trie_root t Ht) as Hok.
  destruct (node_in_ok loc _ (node_at_in _ _ _ Hp) Hok) as (Hloc & _).
  destruct (node_ok_span loc Hloc). unfold branch_of.
  rewrite <- Htot by (apply weight_desc; lia). by apply (total_desc p).
Qed.

(** Within a span there is one successor. *)
Lemma successor_span p loc s y :
  node_at p (root t) = Some loc → start_ (span loc) ≤ s → s + 1 < end_ (span loc) →
  successor L s (at_ loc s) y ↔ y = at_ loc (s + 1).
Proof.
  intros Hp Hs He. destruct Hsup as [Ht Htot]. pose proof (trie_root t Ht) as Hok.
  pose proof (node_at_in _ _ _ Hp) as Hin.
  destruct (node_in_ok loc _ Hin Hok) as (Hloc & _). destruct (node_ok_span loc Hloc).
  rewrite successor_tree by lia. split; [|intros ->; by exists loc].
  intros (m & Hm & Hme & Hx & <-).
  assert (node_in m loc) as Hml by (eapply (below p (root t) loc m s); eauto; lia).
  destruct (node_in_ok m loc Hml Hloc) as (_ & _ & Hat). apply Hat. lia.
Qed.

(** At the end of a span the successors are the children. *)
Lemma successor_children p loc y :
  node_at p (root t) = Some loc →
  successor L (end_ (span loc) - 1) (at_ loc (end_ (span loc) - 1)) y ↔
  ∃ c, c ∈ children loc ∧ y = first_ID c.
Proof.
  intros Hp. destruct Hsup as [Ht Htot]. pose proof (trie_root t Ht) as Hok.
  pose proof (node_at_in _ _ _ Hp) as Hin.
  destruct (node_in_ok loc _ Hin Hok) as (Hloc & _). destruct (node_ok_span loc Hloc).
  rewrite successor_tree by lia. rewrite Z.sub_add. split.
  - intros (m & Hm & Hme & Hx & <-).
    assert (node_in m loc) as Hml
      by (eapply (below p (root t) loc m (end_ (span loc) - 1)); eauto; lia).
    apply node_in_inv in Hml as [->|(c & Hc & Hmc)]; [lia|]. exists c. split; [done|].
    destruct (node_ok_children loc c Hloc Hc) as (Hcok & [Hcs _] & _).
    destruct (node_ok_span c Hcok). destruct (node_in_ok m c Hmc Hcok) as (_ & _ & Hat).
    rewrite Hat by lia. unfold first_ID, startID. by rewrite Hcs.
  - intros (c & Hc & ->). destruct (node_ok_children loc c Hloc Hc) as (Hcok & [Hcs Hca] & _).
    destruct (node_ok_span c Hcok). exists c. split_and!; [|lia| |].
    + eapply node_in_trans; [|done]. eapply node_in_child; [done|constructor].
    + exact Hca.
    + unfold first_ID, startID. by rewrite Hcs.
Qed.
(** ** Uncommitted support

    The iterator [uncommittedIt] splits the sequence numbers at a bound. *)

Definition bound_at (b : Z) (it : list (Z * Z)) (uncommitted : Z) : Prop :=
  ∃ pre, map_sorted (seqSupport t) = pre ++ it ∧
    Forall (λ kv, kv.1 < b) pre ∧ Forall (λ kv, b ≤ kv.1) it ∧ uncommitted = sumZ pre.*2.

Lemma sum_eqb x (ks : list Z) :
  NoDup ks → sumZ ((λ q, if x =? q then 1 else 0) <$> ks) = if decide (x ∈ ks) then 1 else 0.
Proof.
  induction 1 as [|q ks Hq Hnd IH]; [done|]. rewrite fmap_cons, sumZ_cons, IH.
  destruct (Z.eqb_spec x q) as [->|Hne].
  - rewrite decide_False by done. by rewrite decide_True by (by left).
  - destruct (decide (x ∈ ks)); [rewrite decide_True by (by right)|rewrite decide_False]; [done..|].
    by intros [?|?]%elem_of_cons.
Qed.

Lemma sum_by_seq (ks : list Z) b (L' : list Ledger) :
  NoDup ks → (∀ l, l ∈ L' → seq l < b ↔ seq l ∈ ks) →
  sumZ ((λ q, sum_over (is_seq (λ s, s =? q)) L') <$> ks) = sum_over (is_seq (λ s, s <? b)) L'.
Proof.
  intros Hnd. induction L' as [|l L' IH]; intros Hks.
  { apply sumZ_zero. done. }
  rewrite sum_over_cons, <- IH by (intros; apply Hks; by right).
  assert (is_seq (λ s, s <? b) (tip_of l)
          = sumZ ((λ q, if seq l =? q then 1 else 0) <$> ks)) as ->.
  { rewrite sum_eqb by done. unfold is_seq. simpl. specialize (Hks l ltac:(by left)).
    destruct (Z.ltb_spec (seq l) b); case_decide; try done; exfalso; intuition lia. }
  clear. induction ks as [|q ks IH]; [done|]. rewrite !fmap_cons, !sumZ_cons, IH, sum_over_cons.
  unfold is_seq at 1. simpl. lia.
Qed.

Lemma seq_total_sum q : seq_total t q = sum_over (is_seq (λ s, s =? q)) L.
Proof. destruct Hsup as [_ Htot]. apply Htot, weight_seq. Qed.

Lemma elem_seqs q c :
  (q, c) ∈ map_sorted (seqSupport t) ↔ c = seq_total t q ∧ c ≠ 0.
Proof.
  rewrite elem_of_map_sorted. destruct Hsup as [Ht _]. rewrite (trie_seq t Ht).
  destruct (Z.eqb_spec (seq_total t q) 0); naive_solver.
Qed.

Lemma bound_at_sum b it unc :
  bound_at b it unc → unc = sum_over (is_seq (λ q, q <? b)) L.
Proof.
  intros (pre & Hall & Hpre & Hit & ->).
  assert (NoDup pre.*1) as Hnd.
  { pose proof (NoDup_map_sorted (seqSupport t)) as Hnd. rewrite Hall, fmap_app in Hnd.
    by apply NoDup_app in Hnd as [? _]. }
  rewrite <- (sum_by_seq pre.*1 b L Hnd).
  - rewrite <- list_fmap_compose. apply sumZ_ext. intros [q c] Hin. simpl.
    rewrite <- seq_total_sum. apply elem_seqs. rewrite Hall. set_solver.
  - intros l Hl. assert (seq_total t (seq l) ≠ 0) as Hne.
    { rewrite seq_total_sum.
      assert (1 ≤ sum_over (is_seq (λ s, s =? seq l)) L); [|lia].
      transitivity (is_seq (λ s, s =? seq l) (tip_of l)).
      - unfold is_seq. simpl. by rewrite Z.eqb_refl.
      - apply sum_over_elem; [|done]. intros tp. unfold is_seq. by case_match. }
    assert ((seq l, seq_total t (seq l)) ∈ pre ++ it) as Hin by (rewrite <- Hall; by apply elem_seqs).
    rewrite Forall_forall in Hpre, Hit. split.
    + intros Hlt. apply elem_of_app in Hin as [Hin|Hin].
      * apply list_elem_of_fmap. by exists (seq l, seq_total t (seq l)).
      * specialize (Hit _ Hin). simpl in Hit. lia.
    + intros ([q c] & -> & Hq)%list_elem_of_fmap. apply (Hpre _ Hq).
Qed.

Lemma sum_seq_le b : 0 ≤ sum_over (is_seq (λ q, q <? b)) L < 2 ^ 32.
Proof.
  destruct Hsup as [Ht Htot]. rewrite <- Htot by apply weight_seq. split.
  - apply total_nonneg; [apply Ht|]. intros tp. unfold is_seq. by case_match.
  - apply Z.le_lt_trans with (branchSupport_ (root t)); [|by destruct (trie_root t Ht)].
    rewrite <- total_branch by apply Ht. apply total_le; [apply Ht|]. intros tp.
    unfold is_seq. by case_match.
Qed.

(** Moving the iterator over its next entry. *)
Lemma bound_at_next b q c it unc :
  bound_at b ((q, c) :: it) unc → bound_at (q + 1) it (u32 (unc + c)) ∧ b ≤ q.
Proof.
  intros Hb. pose proof Hb as (pre & Hall & Hpre & Hit & ->).
  apply Forall_cons in Hit as [Hq Hit]. simpl in Hq. split; [|done].
  assert (bound_at (q + 1) it (sumZ pre.*2 + c)) as Hnew.
  { exists (pre ++ [(q, c)]). rewrite <- app_assoc. split_and!; [done| | |].
    - apply Forall_app. split; [|by constructor; [simpl; lia|]].
      eapply Forall_impl; [done|]. intros kv. simpl. lia.
    - pose proof (map_sorted_sorted (seqSupport t)) as Hs. rewrite Hall in Hs.
      pose proof (NoDup_map_sorted (seqSupport t)) as Hnd. rewrite Hall, fmap_app in Hnd.
      apply NoDup_app in Hnd as (_ & _ & Hnd). apply NoDup_cons in Hnd as [Hnq _].
      apply StronglySorted_app in Hs as (_ & _ & Hs). apply StronglySorted_inv in Hs as [_ Hs].
      rewrite Forall_forall in *. intros [q' c'] Hin. simpl.
      specialize (Hs _ Hin). unfold key_le in Hs. simpl in Hs.
      assert (q' ≠ q); [|lia]. intros ->. apply Hnq. apply list_elem_of_fmap.
      by exists (q, c').
    - rewrite fmap_app, sumZ_app. simpl. lia. }
  pose proof (bound_at_sum _ _ _ Hnew). pose proof (sum_seq_le (q + 1)).
  rewrite u32_id by lia. done.
Qed.

Definition head_from (b : Z) (it : list (Z * Z)) : Prop :=
  match it with [] => True | (q, _) :: _ => b ≤ q end.

Lemma bound_at_weaken b b' it unc :
  bound_at b it unc → b ≤ b' → head_from b' it → bound_at b' it unc.
Proof.
  intros (pre & Hall & Hpre & Hit & ->) Hb Hh. exists pre. split_and!; try done.
  - eapply Forall_impl; [done|]. intros kv. simpl. lia.
  - destruct it as [|[q c] it]; [done|]. simpl in Hh.
    pose proof (map_sorted_sorted (seqSupport t)) as Hs. rewrite Hall in Hs.
    apply StronglySorted_app in Hs as (_ & _ & Hs). apply StronglySorted_inv in Hs as [_ Hs].
    constructor; [done|]. eapply Forall_impl; [done|]. intros kv. unfold key_le. simpl. lia.
Qed.

Lemma bound_at_head b it unc : bound_at b it unc → head_from b it.
Proof. intros (pre & _ & _ & Hit & _). destruct it as [|[q c] it]; [done|]. by inversion Hit. Qed.

Lemma addUncommitted_spec b bound it unc :
  bound_at b it unc → b ≤ bound →
  let '(it', unc') := addUncommitted bound it unc in bound_at bound it' unc'.
Proof.
  revert b unc. induction it as [|[q c] it IH]; intros b unc Hb Hle; simpl.
  { by apply (bound_at_weaken b). }
  destruct (Z.ltb_spec q bound) as [Hq|Hq]; [|by apply (bound_at_weaken b)].
  destruct (bound_at_next b q c it unc Hb) as [Hb' _]. by apply (IH (q + 1)); [|lia].
Qed.

(** ** The walk along a span *)

Context (li : Z).

(** Steps within a span, while the uncommitted support does not change. *)
Lemma reaches_span p loc k k' it unc :
  node_at p (root t) = Some loc → start_ (span loc) < k → k' ≤ end_ (span loc) →
  bound_at (Z.max k li) it unc → head_from (Z.max (k' - 1) li) it →
  unc < branchSupport_ loc → reaches L li (k - 1, at_ loc (k - 1)) → k ≤ k' →
  reaches L li (k' - 1, at_ loc (k' - 1)).
Proof.
  intros Hp Hk Hk' Hb Hh Hunc Hr Hle.
  assert (∀ n : nat, k + Z.of_nat n ≤ k' →
    reaches L li (k + Z.of_nat n - 1, at_ loc (k + Z.of_nat n - 1))) as Hn.
  2: { specialize (Hn (Z.to_nat (k' - k))). rewrite Z2Nat.id in Hn by lia.
       replace (k + (k' - k)) with k' in Hn by lia. apply Hn. lia. }
  induction n as [|n IH]; intros Hkn.
  { by rewrite Z.add_0_r. }
  eapply rtc_r; [apply IH; lia|]. set (s := k + Z.of_nat n - 1).
  replace (k + Z.of_nat (S n) - 1) with (s + 1) by lia.
  assert (bound_at (Z.max (s + 1) li) it unc) as Hb'.
  { apply (bound_at_weaken (Z.max k li)); [done|lia|].
    destruct it as [|[q c] it]; [done|]. simpl in *. lia. }
  assert (branch_of L (s + 1) (at_ loc (s + 1)) = branchSupport_ loc) as Hbr
    by (apply (branch_of_node p); [done|lia]).
  apply bound_at_sum in Hb'. constructor.
  - by rewrite (successor_span p) by (done || lia).
  - unfold uncommitted_of. rewrite <- Hb', Hbr. done.
  - intros z Hz. by rewrite (successor_span p) in Hz by (done || lia).
Qed.

Lemma advance_spec p loc k it unc :
  node_at p (root t) = Some loc → start_ (span loc) < k ≤ end_ (span loc) →
  bound_at (Z.max k li) it unc → reaches L li (k - 1, at_ loc (k - 1)) →
  let '(k', it', unc') := advance (end_ (span loc)) (branchSupport_ loc) k it unc in
  start_ (span loc) < k' ≤ end_ (span loc) ∧ bound_at (Z.max k' li) it' unc' ∧
  reaches L li (k' - 1, at_ loc (k' - 1)) ∧
  (k' < end_ (span loc) → branchSupport_ loc ≤ unc').
Proof.
  intros Hp. revert k unc. induction it as [|[q c] it IH]; intros k unc Hk Hb Hr; cbn [advance].
  - destruct (Z.ltb_spec k (end_ (span loc))), (Z.ltb_spec unc (branchSupport_ loc));
      simpl; split_and!; try done; try lia.
    + by apply (bound_at_weaken (Z.max k li)); [|lia|].
    + eapply (reaches_span p loc k); [done|lia|lia|done|done|done|done|lia].
  - destruct (Z.ltb_spec k (end_ (span loc))), (Z.ltb_spec unc (branchSupport_ loc));
      simpl; try by (split_and!; try done; lia).
    destruct (bound_at_next _ q c it unc Hb) as [Hb' Hq].
    destruct (Z.ltb_spec q (end_ (span loc))) as [Hlt|Hge].
    + assert (node_ok loc) as Hloc.
      { destruct Hsup as [Ht _].
        by destruct (node_in_ok loc _ (node_at_in _ _ _ Hp) (trie_root t Ht)). }
      destruct (node_ok_span loc Hloc) as [Hs1 Hs2]. pose proof (seq_range (ledger_ (span loc))).
      rewrite (u32_id (q + 1)) by lia. apply IH; [lia| |].
      * by replace (Z.max (q + 1) li) with (q + 1) by lia.
      * eapply (reaches_span p loc k (q + 1)); [done|lia|lia|exact Hb| |done|done|lia].
        simpl. lia.
    + split_and!; [lia..| | |lia].
      * apply (bound_at_weaken (Z.max k li)); [done|lia|]. simpl. lia.
      * eapply (reaches_span p loc k); [done|lia|lia|exact Hb| |done|done|lia]. simpl. lia.
Qed.
(** ** The choice between children *)

Lemma node_at_child p n loc i c :
  node_at p n = Some loc → children loc !! i = Some c → node_at (p ++ [i]) n = Some c.
Proof.
  intros Hp Hi. revert n Hp.
  induction p as [|j q IH]; intros n; simpl; [intros [= ->]; by rewrite Hi|].
  intros (d & -> & Hd)%bind_Some. simpl. by apply IH.
Qed.

Section choice.
Context (p : list nat) (loc : Node) (Hp : node_at p (root t) = Some loc).
Context (unc : Z) (it : list (Z * Z)) (Hb : bound_at (Z.max (end_ (span loc)) li) it unc).

Definition at_end : Z * ID := (end_ (span loc) - 1, at_ loc (end_ (span loc) - 1)).

Definition ahead (c d : Node) : Prop :=
  branchSupport_ d + unc < branchSupport_ c ∨
  branchSupport_ d + unc = branchSupport_ c ∧ ID_lt (first_ID d) (first_ID c).

Definition chosen (c : Node) : Prop :=
  c ∈ children loc ∧ unc < branchSupport_ c ∧
  ∀ d, d ∈ children loc → first_ID d ≠ first_ID c → ahead c d.

Lemma loc_ok : node_ok loc.
Proof.
  destruct Hsup as [Ht _]. by destruct (node_in_ok loc _ (node_at_in _ _ _ Hp) (trie_root t Ht)).
Qed.

Lemma child_branch c :
  c ∈ children loc → branch_of L (end_ (span loc)) (first_ID c) = branchSupport_ c.
Proof.
  intros Hc. destruct (node_ok_children loc c loc_ok Hc) as (Hcok & [Hcs _] & _).
  destruct (list_elem_of_lookup_1 _ _ Hc) as [i Hi]. destruct (node_ok_span c Hcok).
  unfold first_ID, startID. rewrite Hcs. apply (branch_of_node (p ++ [i])); [|lia].
  by eapply node_at_child.
Qed.

Lemma step_chosen q :
  preferred_step L li at_end q ↔ ∃ c, chosen c ∧ q = (end_ (span loc), first_ID c).
Proof.
  pose proof (bound_at_sum _ _ _ Hb) as Hu.
  assert (∀ y, successor L (end_ (span loc) - 1) (at_ loc (end_ (span loc) - 1)) y ↔
    ∃ c, c ∈ children loc ∧ y = first_ID c) as Hsucc
    by (intros y; by apply (successor_children p)).
  split.
  - unfold at_end. inversion 1 as [s x y Hs Hlt Hr]; subst. rewrite Z.sub_add in *.
    apply Hsucc in Hs as (c & Hc & ->). exists c. split; [|done]. split; [done|].
    unfold uncommitted_of in *. rewrite <- Hu, (child_branch c Hc) in *. split; [done|].
    intros d Hd Hne. unfold ahead. rewrite <- (child_branch d Hd). apply Hr; [|done].
    apply Hsucc. eauto.
  - intros (c & (Hc & Hlt & Hr) & ->).
    rewrite <- (Z.sub_add 1 (end_ (span loc))) at 1. constructor; rewrite ?Z.sub_add.
    + apply Hsucc. eauto.
    + unfold uncommitted_of. by rewrite <- Hu, (child_branch c Hc).
    + intros z (d & Hd & ->)%Hsucc Hne. unfold uncommitted_of.
      rewrite <- Hu, (child_branch c Hc), (child_branch d Hd). by apply Hr.
Qed.

Lemma kids_branch_pos c : c ∈ children loc → 0 < branchSupport_ c < 2 ^ 32.
Proof.
  intros Hc. destruct (node_ok_children loc c loc_ok Hc) as (Hok & _ & Hs).
  split; [by apply node_ok_branch_pos|]. destruct Hok. done.
Qed.

Lemma first_ID_inj c d :
  c ∈ children loc → d ∈ children loc → first_ID c = first_ID d → c = d.
Proof.
  intros [i Hi]%list_elem_of_lookup_1 [j Hj]%list_elem_of_lookup_1 Heq.
  pose proof loc_ok as Hok. destruct loc as [sp ts bs cs].
  apply node_ok_unfold in Hok as (_&_&_&_&[_ _ _ Hnd]). simpl in *.
  assert (i = j) as ->; [|congruence].
  apply (NoDup_lookup _ i j (first_ID c) Hnd); rewrite list_lookup_fmap.
  - by rewrite Hi.
  - by rewrite Hj, Heq.
Qed.

Lemma node_gt_false c d :
  node_gt c d = false → branchSupport_ c < branchSupport_ d ∨
    branchSupport_ c = branchSupport_ d ∧ ¬ ID_lt (first_ID d) (first_ID c).
Proof.
  unfold node_gt, first_ID. intros [H1%Z.ltb_ge H2]%orb_false_iff.
  destruct (decide (branchSupport_ c = branchSupport_ d)) as [He|]; [right|left; lia].
  split; [done|]. rewrite He, Z.eqb_refl in H2. simpl in H2. by apply bool_decide_eq_false in H2.
Qed.

Definition go (margin : Z) : bool := (unc <? margin) || (unc =? 0).

Lemma margin_ahead a b :
  branchSupport_ a < 2 ^ 32 → 0 < branchSupport_ b → 0 ≤ unc → first_ID b ≠ first_ID a →
  branchSupport_ b < branchSupport_ a ∨
  branchSupport_ b = branchSupport_ a ∧ ¬ ID_lt (first_ID a) (first_ID b) →
  let margin := u32 (branchSupport_ a - branchSupport_ b) in
  let margin := if decide (ID_lt (first_ID b) (first_ID a)) then u32 (margin + 1) else margin in
  go margin = true ↔ ahead a b.
Proof.
  intros Ha Hb0 Hunc Hne Hba. unfold go, ahead. rewrite orb_true_iff, Z.ltb_lt, Z.eqb_eq.
  rewrite (u32_id (branchSupport_ a - branchSupport_ b)) by (destruct Hba as [|[? _]]; lia).
  case_decide as Hid.
  - rewrite u32_id by (destruct Hba as [|[? _]]; lia). split; [|intros [|[? _]]; lia].
    intros Hm. destruct (decide (branchSupport_ b + unc < branchSupport_ a)); [by left|right].
    split; [destruct Hba as [|[? _]]; lia|done].
  - destruct Hba as [|[? Hnlt]]; [intuition lia|].
    destruct (trichotomy ID_lt (first_ID a) (first_ID b)) as [|[|]]; [done|congruence|done].
Qed.

(** The child with the larger margin over the second is the chosen one, if
    any is. *)
Lemma chosen_sorted a b rest :
  children loc ≡ₚ a :: b :: rest → node_gt b a = false →
  Forall (λ c, node_gt c b = false) rest →
  let margin := u32 (branchSupport_ a - branchSupport_ b) in
  let margin := if decide (ID_lt (first_ID b) (first_ID a)) then u32 (margin + 1) else margin in
  (go margin = true → chosen a) ∧ (go margin = false → ∀ c, ¬ chosen c).
Proof.
  intros Hperm Hba%node_gt_false Hrest margin0 margin.
  assert (a ∈ children loc) as Ha by (rewrite Hperm; by left).
  assert (b ∈ children loc) as Hbin by (rewrite Hperm; right; by left).
  pose proof (kids_branch_pos a Ha). pose proof (kids_branch_pos b Hbin).
  assert (0 ≤ unc) by (rewrite (bound_at_sum _ _ _ Hb); apply sum_seq_le).
  assert (first_ID b ≠ first_ID a) as Hne.
  { pose proof loc_ok as Hok. destruct loc as [sp ts bs cs].
    apply node_ok_unfold in Hok as (_&_&_&_&[_ _ _ Hnd]). simpl in Hperm. rewrite Hperm in Hnd.
    rewrite !fmap_cons, NoDup_cons in Hnd. destruct Hnd as [Hnd _]. set_solver. }
  pose proof (margin_ahead a b ltac:(lia) ltac:(lia) ltac:(done) Hne Hba) as Hgo.
  change (go margin = true ↔ ahead a b) in Hgo.
  split.
  - intros Hg. apply Hgo in Hg. split; [done|]. split; [destruct Hg as [|[? _]]; lia|].
    intros d Hd Hda. rewrite Hperm, !elem_of_cons in Hd. destruct Hd as [->|[->|Hd]]; [done..|].
    rewrite Forall_forall in Hrest. specialize (Hrest d Hd). apply node_gt_false in Hrest.
    unfold ahead in *. destruct Hrest as [|[He Hnlt]]; [destruct Hg as [|[? _]]; left; lia|].
    rewrite He. destruct Hg as [|[? Hlt]]; [left; lia|right]. split; [done|].
    destruct (trichotomy ID_lt (first_ID d) (first_ID b)) as [Hdb|[Hdb|]]; [|congruence|done].
    by transitivity (first_ID b).
  - intros Hg c (Hc & Hlt & Hr).
    assert (¬ ahead a b) as Hnah by (rewrite <- Hgo, Hg; done).
    destruct (decide (first_ID c = first_ID a)) as [Hca|Hca].
    { apply Hnah. rewrite <- (first_ID_inj c a Hc Ha Hca). apply Hr; [done|congruence]. }
    destruct (Hr a Ha) as [Hlt'|[He Hid]]; [congruence| |].
    all: rewrite Hperm, !elem_of_cons in Hc; destruct Hc as [->|[->|Hc]]; [done| |].
    all: try (rewrite Forall_forall in Hrest; specialize (Hrest c Hc); apply node_gt_false in Hrest).
    + destruct Hba as [|[? _]]; lia.
    + destruct Hba as [|[? _]], Hrest as [|[? _]]; lia.
    + destruct Hba as [|[_ ?]]; [lia|done].
    + destruct Hba as [|[? Hn1]], Hrest as [|[? Hn2]]; [lia..|].
      destruct (trichotomy ID_lt (first_ID c) (first_ID b)) as [Hcb|[Hcb|]]; [| |done].
      * apply Hn1. by transitivity (first_ID c).
      * apply Hn1. by rewrite <- Hcb.
Qed.
Context `{!PartialSort}.

Lemma bestChild_spec :
  ∃ best cs, bestChild (children loc) = Ok (best, cs) ∧ cs ≡ₚ children loc ∧
    match best with
    | None => children loc = []
    | Some (c, margin) => cs !! O = Some c ∧ (go margin = true → chosen c) ∧
        (go margin = false → ∀ d, ¬ chosen d)
    end.
Proof.
  unfold bestChild. destruct (children loc) as [|c [|c' cs]] eqn:Hcs; [by eauto| |].
  - eexists _, _. split; [done|]. split; [done|]. split; [done|]. split.
    + intros Hgo. assert (c ∈ children loc) as Hc by (rewrite Hcs; by left).
      pose proof (kids_branch_pos c Hc). unfold chosen. split_and!; [done| |].
      * unfold go in Hgo. apply orb_true_iff in Hgo as [?%Z.ltb_lt|?%Z.eqb_eq]; lia.
      * intros d. rewrite Hcs. by intros ->%list_elem_of_singleton.
    + intros Hgo d (Hd & Hlt & _). rewrite Hcs in Hd. apply list_elem_of_singleton in Hd as ->.
      unfold go in Hgo. apply orb_false_iff in Hgo as [?%Z.ltb_ge _]. lia.
  - pose proof (partial_sort2_perm (c :: c' :: cs)) as Hperm.
    destruct (partial_sort2 (c :: c' :: cs)) as [|a [|b rest]] eqn:Hsort.
    + by apply Permutation_nil_l in Hperm.
    + apply Permutation_length in Hperm. simpl in Hperm. lia.
    + destruct (partial_sort2_first a b rest _ Hsort) as [Hba Hrest].
      eexists _, _. split; [reflexivity|]. split; [done|]. split; [done|].
      apply (chosen_sorted a b rest); [|done..]. rewrite Hcs. by symmetry.
Qed.
End choice.

(** ** The whole walk *)

Context `{!PartialSort}.

Lemma at_start loc : at_ loc (start_ (span loc)) = first_ID loc.
Proof. done. Qed.

Lemma repl_refl n : node_ok n → repl (λ _, 0) n n.
Proof. intros Hn. split; [done..|]. intros. lia. Qed.

Lemma perm_repl n cs :
  node_ok n → cs ≡ₚ children n → repl (λ _, 0) n (set_children cs n).
Proof.
  destruct n as [sp ts bs cs0]. simpl. intros Hn Hp. split; [|done|done|].
  - apply node_ok_unfold in Hn as (?&?&Hbs&?&Hk). apply node_ok_unfold.
    rewrite Hp. by split_and!.
  - intros f Hf. rewrite !total_unfold. cbn [span tipSupport_ children set_children].
    rewrite Hp. lia.
Qed.

Lemma supported_length n n' :
  tipSupport_ n' = tipSupport_ n → length (children n') = length (children n) →
  supported n → supported n'.
Proof. unfold supported. intros -> ->. done. Qed.

(** A child replaced by one with the same support. *)
Lemma repl_child_same n i c c' :
  node_ok n → children n !! i = Some c → repl (λ _, 0) c c' → supported c' →
  repl (λ _, 0) n (set_children (<[i := c']> (children n)) n).
Proof.
  intros Hn Hi Hr Hs. pose proof (node_ok_branch_nonneg n Hn).
  assert (branchSupport_ n < 2 ^ 32) by (by destruct Hn).
  pose proof (repl_child (λ _, 0) n i c c' Hn Hi Hr Hs) as Hrep. simpl in Hrep.
  destruct n as [sp ts bs cs]. unfold add_branch, set_children in *. simpl in *.
  rewrite Z.add_0_r, u32_id in Hrep by lia. apply Hrep. lia.
Qed.

Lemma height_child n c : c ∈ children n → (height c < height n)%nat.
Proof.
  destruct n as [sp ts bs cs]. simpl. intros Hc. apply Nat.lt_succ_r.
  assert (height c ∈ map height cs) as Hin by (by apply (list_elem_of_fmap_2 height)).
  by apply (max_list_elem_of_le _ _ Hin).
Qed.

Lemma span_stop p loc k it unc :
  node_at p (root t) = Some loc → start_ (span loc) < k < end_ (span loc) →
  bound_at (Z.max k li) it unc → branchSupport_ loc ≤ unc →
  ∀ q, ¬ preferred_step L li (k - 1, at_ loc (k - 1)) q.
Proof.
  intros Hp Hk Hb Hle q Hq. inversion Hq as [s x y Hs Hu _]; subst.
  rewrite (successor_span p) in Hs by (done || lia). subst y.
  rewrite (branch_of_node p), Z.sub_add in Hu by (done || lia).
  unfold uncommitted_of in Hu. rewrite <- (bound_at_sum _ _ _ Hb) in Hu. lia.
Qed.

Lemma tip_stop p loc it unc :
  node_at p (root t) = Some loc → bound_at (Z.max (end_ (span loc)) li) it unc →
  reaches L li (at_end loc) → (∀ d, ¬ chosen loc unc d) → walk_ends L li (tip (span loc)).
Proof.
  intros Hp Hb Hr Hnone. split; [by eapply tip_ok_span, node_ok_span, loc_ok|].
  rewrite tip_eq by (by eapply node_ok_span, loc_ok). split; [done|]. simpl. intros q Hq.
  apply (step_chosen p loc Hp unc it Hb) in Hq as (c & Hc & _). by apply (Hnone c).
Qed.

Lemma preferredFrom_spec fuel p loc b it unc :
  (height loc ≤ fuel)%nat → node_at p (root t) = Some loc →
  bound_at b it unc → b ≤ Z.max (start_ (span loc) + 1) li →
  reaches L li (start_ (span loc), first_ID loc) →
  ∃ r n', preferredFrom fuel li loc it unc = Ok (r, n') ∧ walk_ends L li r ∧
    repl (λ _, 0) loc n' ∧ span n' = span loc ∧ (supported loc → supported n').
Proof.
  revert p loc b it unc. induction fuel as [|fuel IH]; intros p loc b it unc Hf Hp Hb Hle Hr.
  { destruct loc; simpl in Hf; lia. }
  pose proof (loc_ok p loc Hp) as Hok. destruct (node_ok_span loc Hok) as [Hs1 Hs2].
  pose proof (seq_range (ledger_ (span loc))) as Hseq. cbn [preferredFrom].
  rewrite (u32_id (start_ (span loc) + 1)) by lia.
  pose proof (addUncommitted_spec _ (Z.max (start_ (span loc) + 1) li) _ _ Hb Hle) as Hb1.
  destruct (addUncommitted _ it unc) as [it1 unc1].
  pose proof (advance_spec p loc (start_ (span loc) + 1) it1 unc1 Hp ltac:(lia) Hb1) as Hadv.
  rewrite Z.add_simpl_r in Hadv. specialize (Hadv Hr).
  destruct (advance _ _ _ it1 unc1) as [[k it2] unc2].
  destruct Hadv as (Hk & Hb2 & Hr2 & Hstop).
  destruct (Z.ltb_spec k (end_ (span loc))) as [Hlt|Hge].
  - rewrite before_eq by lia. simpl. eexists _, _. split; [reflexivity|].
    split; [|split; [by apply repl_refl|done]].
    split; [by apply tip_ok_span; split; simpl; lia|].
    rewrite tip_eq by (split; simpl; lia). split; [done|]. simpl.
    apply (span_stop p loc k it2 unc2); [done|lia|done|auto].
  - assert (k = end_ (span loc)) as -> by lia.
    destruct (bestChild_spec p loc Hp unc2 it2 Hb2) as (best & cs & -> & Hperm & Hbest). simpl.
    pose proof (tip_stop p loc it2 unc2 Hp Hb2 Hr2) as Hend.
    assert (repl (λ _, 0) loc (set_children cs loc)) as Hrepl by (by apply perm_repl).
    assert (supported loc → supported (set_children cs loc)) as Hsame.
    { apply supported_length; [done|]. simpl. by rewrite Hperm. }
    destruct best as [[c margin]|].
    2: { eexists _, _. split; [reflexivity|]. split; [|done]. apply Hend.
         intros d (Hd & _). rewrite Hbest in Hd. by apply not_elem_of_nil in Hd. }
    destruct Hbest as (Hhd & Hgo & Hstay). fold (go unc2 margin).
    destruct (go unc2 margin) eqn:Hg.
    2: { eexists _, _. split; [reflexivity|]. split; [|done]. by apply Hend, Hstay. }
    assert (c ∈ children loc) as Hc by (rewrite <- Hperm; by eapply list_elem_of_lookup_2).
    destruct (list_elem_of_lookup_1 _ _ Hc) as [i Hi].
    destruct (node_ok_children loc c Hok Hc) as (Hcok & [Hcs _] & Hcsup).
    destruct (IH (p ++ [i]) c (Z.max (end_ (span loc)) li) it2 unc2)
      as (r & c' & -> & Hends & Hcr & _ & Hcs').
    + pose proof (height_child loc c Hc). lia.
    + by eapply node_at_child.
    + done.
    + lia.
    + rewrite Hcs. eapply rtc_r; [exact Hr2|].
      apply (step_chosen p loc Hp unc2 it2 Hb2). exists c. auto.
    + simpl. eexists _, _. split; [reflexivity|]. split; [done|]. split_and!; [|done|].
      * eapply (repl_ext (λ _, 0 + 0)); [done|]. eapply repl_trans; [exact Hrepl|].
        apply (repl_child_same (set_children cs loc) O c c'); [apply Hrepl|done|done|auto].
      * apply supported_length; [done|]. simpl. by rewrite length_insert, Hperm.
Qed.

Lemma bound_at_start : bound_at 0 (map_sorted (seqSupport t)) 0.
Proof.
  exists []. split_and!; [done|done| |done]. apply Forall_forall. intros [q c] Hq. simpl.
  apply elem_seqs in Hq as [-> Hne]. rewrite seq_total_sum in Hne.
  assert (∀ tp, 0 ≤ is_seq (λ s, s =? q) tp) as Hnn by (intros tp; unfold is_seq; by case_match).
  destruct (sum_over_pos (is_seq (λ s, s =? q)) L) as (l & _ & Hl); [done| |].
  - assert (0 ≤ sum_over (is_seq (λ s, s =? q)) L); [|lia].
    apply sumZ_nonneg, Forall_fmap, Forall_true. intros. apply Hnn.
  - unfold is_seq in Hl. simpl in Hl. destruct (Z.eqb_spec (seq l) q) as [<-|]; [|done].
    pose proof (seq_range l). lia.
Qed.
End preferred.

(** Sorting the children does not change what a trie stands for. *)
Lemma supports_repl `{LedgerType} `{!LedgerLaws} t n' L :
  supports t L → repl (λ _, 0) (root t) n' → span n' = span (root t) →
  supports (mkTrie n' (seqSupport t)) L.
Proof.
  intros [Ht Htot] Hr Hsp. split.
  - split; simpl; [apply Hr|rewrite Hsp; apply Ht|]. intros q.
    rewrite (seq_total_repl t _ _ _ q Hr), Z.add_0_r. apply Ht.
  - intros f Hf. simpl. rewrite (repl_total _ _ _ Hr f Hf), Htot by done. lia.
Qed.

Lemma getPreferred_spec `{LedgerType} `{!LedgerLaws} `{!PartialSort} li t L :
  supports t L →
  ∃ r t', getPreferred li t = Ok (r, t') ∧ supports t' L ∧
    match r with
    | None => L = []
    | Some tip => L ≠ [] ∧ walk_ends L li tip
    end.
Proof.
  intros Hsup. unfold getPreferred, empty. rewrite (supports_length t L Hsup).
  destruct (Z.eqb_spec (Z.of_nat (length L)) 0) as [Hz|Hz].
  { eexists _, _. split; [reflexivity|]. split; [done|]. by destruct L. }
  pose proof (trie_span t (proj1 Hsup)) as Hspan.
  destruct (preferredFrom_spec t L Hsup li (height (root t)) [] (root t) 0
    (map_sorted (seqSupport t)) 0) as (r & n' & -> & Hends & Hr & Hsp & _).
  - done.
  - done.
  - by apply (bound_at_start t L).
  - rewrite Hspan. simpl. lia.
  - unfold first_ID, startID, reaches. rewrite Hspan. simpl. constructor.
  - simpl. eexists _, _. split; [reflexivity|]. split; [by apply supports_repl|].
    split; [by intros ->|done].
Qed.
