(* ===== verification/LedgerDemo.v ===== *)
(** * A concrete ledger history

    A ledger is the list of choices made since genesis, an identifier is such
    a list, and an ancestor is a prefix.  It shows that the laws asked of
    ledgers can hold, and runs the models that use them. *)
From S2P Require Import Prelude LedgerTrie.

Definition hist_ok (h : list Z) : bool := Z.of_nat (length h) <? 2 ^ 32 - 1.
Definition hist : Type := { h : list Z | hist_ok h = true }.
Definition choices (l : hist) : list Z := proj1_sig l.

(** Lexicographic order on identifiers. *)
Fixpoint lex_lt (a b : list Z) : bool :=
  match a, b with
  | [], [] => false
  | [], _ :: _ => true
  | _ :: _, [] => false
  | x :: a, y :: b => (x <? y) || ((x =? y) && lex_lt a b)
  end.

Fixpoint common (a b : list Z) : nat :=
  match a, b with
  | x :: a, y :: b => if x =? y then S (common a b) else O
  | _, _ => O
  end.

#[export] Instance demo_ledger : LedgerType := {
  Ledger := hist; ID := list Z;
  ID_lt := λ a b, lex_lt a b = true;
  ID_lt_dec := λ a b, bool_eq_dec (lex_lt a b) true;
  MakeGenesis := exist _ [] eq_refl;
  seq := λ l, Z.of_nat (length (choices l));
  ledger_ID := choices;
  ancestor_ID := λ l s, take (Z.to_nat s) (choices l);
  mismatch := λ a b, Z.of_nat (S (common (choices a) (choices b)));
}.

Lemma lex_lt_irrefl a : lex_lt a a = false.
Proof. induction a as [|x a IH]; [done|]. simpl. by rewrite Z.ltb_irrefl, Z.eqb_refl, IH. Qed.

Lemma lex_lt_trans a b c : lex_lt a b = true → lex_lt b c = true → lex_lt a c = true.
Proof.
  revert b c. induction a as [|x a IH]; intros [|y b] [|z c]; simpl; try done.
  rewrite !orb_true_iff, !andb_true_iff, !Z.ltb_lt, !Z.eqb_eq.
  intros [?|[-> ?]] [?|[-> ?]]; [left; lia|by left|by left|right]. split; [done|]. by eapply IH.
Qed.

Lemma lex_lt_total a b : lex_lt a b = true ∨ a = b ∨ lex_lt b a = true.
Proof.
  revert b. induction a as [|x a IH]; intros [|y b]; simpl; auto.
  rewrite !orb_true_iff, !andb_true_iff, !Z.ltb_lt, !Z.eqb_eq.
  destruct (Z.lt_trichotomy x y) as [|[->|]]; [by auto| |by auto].
  destruct (IH b) as [|[->|]]; auto.
Qed.

Lemma common_le a b : (common a b ≤ length a)%nat ∧ (common a b ≤ length b)%nat.
Proof.
  revert b. induction a as [|x a IH]; intros [|y b]; simpl; try lia.
  destruct (x =? y); [|lia]. destruct (IH b). simpl. lia.
Qed.

Lemma common_take a b n : (n ≤ common a b)%nat → take n a = take n b.
Proof.
  revert b n. induction a as [|x a IH]; intros [|y b] [|n]; simpl; try done; try lia.
  destruct (Z.eqb_spec x y) as [->|]; [|lia]. intros Hn. f_equal. apply IH. lia.
Qed.

Lemma common_first a b :
  (common a b < length a)%nat → (common a b < length b)%nat →
  take (S (common a b)) a ≠ take (S (common a b)) b.
Proof.
  revert b. induction a as [|x a IH]; intros [|y b]; cbn [common length]; try lia.
  destruct (Z.eqb_spec x y) as [->|Hne].
  - intros H1 H2 Heq. rewrite !firstn_cons in Heq. injection Heq as Heq.
    by apply (IH b); [lia|lia|].
  - intros _ _ Heq. rewrite !firstn_cons in Heq. by injection Heq.
Qed.

#[export] Instance demo_ledger_laws : LedgerLaws.
Proof.
  split; simpl.
  - intros [h Hh]. simpl. apply Z.ltb_lt in Hh. lia.
  - done.
  - intros l. done.
  - intros l. rewrite Nat2Z.id. by apply take_ge.
  - intros a b s s' Hs Hs' Heq%(f_equal length). rewrite !length_take in Heq. lia.
  - intros a b s p Hp Ha Hb Heq.
    assert (∀ h : list Z, take (Z.to_nat p) h = take (Z.to_nat p) (take (Z.to_nat s) h)) as Ht
      by (intros h; rewrite take_take; f_equal; lia).
    by rewrite (Ht (choices a)), (Ht (choices b)), Heq.
  - intros a b s Hs. destruct (common_le (choices a) (choices b)).
    split_and!; [lia..|]. apply common_take. lia.
  - intros a b. split; [lia|]. destruct (common_le (choices a) (choices b)).
    rewrite Nat2Z.id.
    destruct (decide (common (choices a) (choices b) < length (choices a))%nat); [|left; lia].
    destruct (decide (common (choices a) (choices b) < length (choices b))%nat); [|right; left; lia].
    right. right. by apply common_first.
  - split; [intros a Ha; by rewrite lex_lt_irrefl in Ha|]. intros a b c. apply lex_lt_trans.
  - intros a b. apply lex_lt_total.
Qed.

(** ** One way to sort

    [std::partial_sort] by picking the largest element twice. *)
Section sort.
Context `{LedgerType}.

Fixpoint pick_max (m : Node) (cs : list Node) : Node * list Node :=
  match cs with
  | [] => (m, [])
  | c :: cs =>
      if node_gt c m then let '(b, rest) := pick_max c cs in (b, m :: rest)
      else let '(b, rest) := pick_max m cs in (b, c :: rest)
  end.

Definition sort_two (cs : list Node) : list Node :=
  match cs with
  | [] => []
  | c :: cs =>
      match pick_max c cs with
      | (a, []) => [a]
      | (a, d :: rest) => let '(b, rest) := pick_max d rest in a :: b :: rest
      end
  end.

Lemma pick_max_perm m cs : (pick_max m cs).1 :: (pick_max m cs).2 ≡ₚ m :: cs.
Proof.
  revert m. induction cs as [|c cs IH]; intros m; [done|]. simpl. destruct (node_gt c m).
  - specialize (IH c). destruct (pick_max c cs) as [b rest]. simpl in *.
    by rewrite Permutation_swap, IH.
  - specialize (IH m). destruct (pick_max m cs) as [b rest]. simpl in *.
    by rewrite Permutation_swap, IH, Permutation_swap.
Qed.

Lemma sort_two_perm cs : sort_two cs ≡ₚ cs.
Proof.
  destruct cs as [|c cs]; [done|]. simpl. pose proof (pick_max_perm c cs) as Hp.
  destruct (pick_max c cs) as [a [|d rest]]; [done|]. simpl in Hp.
  pose proof (pick_max_perm d rest) as Hp2. destruct (pick_max d rest) as [b rest2].
  simpl in Hp2. by rewrite Hp2.
Qed.

Context `{!StrictOrder ID_lt} `{!Trichotomy ID_lt}.

Lemma node_gt_trans a b c :
  node_gt a b = false → node_gt b c = false → node_gt a c = false.
Proof.
  unfold node_gt. rewrite !orb_false_iff, !andb_false_iff, !Z.ltb_ge, !Z.eqb_neq,
    !bool_decide_eq_false.
  intros [H1 H2] [H3 H4]. split; [lia|].
  destruct (decide (branchSupport_ a = branchSupport_ c)); [right|by left].
  destruct H2 as [|H2]; [lia|]. destruct H4 as [|H4]; [lia|].
  destruct (trichotomy ID_lt (startID (span b)) (startID (span a))) as [|[Heq|Hlt]];
    [done|by rewrite <- Heq|].
  intros Hca. apply H4. by transitivity (startID (span a)).
Qed.

Lemma node_gt_antisym a b : node_gt a b = true → node_gt b a = false.
Proof.
  unfold node_gt. rewrite orb_true_iff, andb_true_iff, Z.ltb_lt, Z.eqb_eq, bool_decide_eq_true,
    orb_false_iff, andb_false_iff, Z.ltb_ge, Z.eqb_neq, bool_decide_eq_false.
  intros [|[? Hlt]]; [lia|]. split; [lia|]. right. intros Hlt2. apply (asymmetry Hlt Hlt2).
Qed.

Lemma node_gt_irrefl a : node_gt a a = false.
Proof. destruct (node_gt a a) eqn:E; [|done]. by rewrite (node_gt_antisym _ _ E) in E. Qed.

Lemma pick_max_ge m cs :
  node_gt m (pick_max m cs).1 = false ∧
  Forall (λ c, node_gt c (pick_max m cs).1 = false) (pick_max m cs).2.
Proof.
  revert m. induction cs as [|c cs IH]; intros m; simpl.
  { split; [apply node_gt_irrefl|done]. }
  destruct (node_gt c m) eqn:Hgt.
  - specialize (IH c). destruct (pick_max c cs) as [b rest]. simpl in *. destruct IH as [Hc Hr].
    pose proof (node_gt_trans m c b (node_gt_antisym _ _ Hgt) Hc). by repeat constructor.
  - specialize (IH m). destruct (pick_max m cs) as [b rest]. simpl in *. destruct IH as [Hm Hr].
    pose proof (node_gt_trans c m b Hgt Hm). by repeat constructor.
Qed.

Lemma sort_two_first a b rest cs :
  sort_two cs = a :: b :: rest →
  node_gt b a = false ∧ Forall (λ c, node_gt c b = false) rest.
Proof.
  destruct cs as [|c cs]; [done|]. simpl. pose proof (pick_max_ge c cs) as [_ Hge].
  destruct (pick_max c cs) as [a' [|d rest']]; [done|]. simpl in Hge.
  pose proof (pick_max_ge d rest') as [_ Hge2]. pose proof (pick_max_perm d rest') as Hp.
  destruct (pick_max d rest') as [b' rest2]. simpl in *. intros [= <- <- <-].
  split; [|done]. rewrite <- Hp in Hge. by inversion Hge.
Qed.

#[export] Instance pick_sort : PartialSort := {
  partial_sort2 := sort_two; partial_sort2_perm := sort_two_perm;
  partial_sort2_first := sort_two_first;
}.
End sort.

(** Some ledgers: two branches after a common first ledger. *)
Definition hA : @Ledger demo_ledger := exist _ [1] eq_refl.
Definition hAB : @Ledger demo_ledger := exist _ [1; 2] eq_refl.
Definition hAC : @Ledger demo_ledger := exist _ [1; 3] eq_refl.
Definition hACD : @Ledger demo_ledger := exist _ [1; 3; 4] eq_refl.
