(* ===== verification/LedgerWindow.v ===== *)
(** * Ledgers that know a window of their history

    [LedgerTrie.h] lets a ledger answer that an ancestor is unknown.  The laws
    here ask for exact answers from a sequence number [base] on, at which all
    ledgers have the same ancestor: below it a ledger may answer anything but
    for genesis.  With [base] zero they are the laws of complete histories.
    The trie cannot tell such ledgers from ledgers whose missing ancestors
    have been filled in: every operation commutes with the filling, so that
    what is proved of complete histories holds of windows. *)
From S2P Require Import Prelude LedgerTrie LedgerSupport LedgerTrieInv LedgerTrieOps.
From S2P Require Import LedgerTriePreferred LedgerDemo.

Definition known (base s : Z) : bool := (s =? 0) || (base <=? s).

Class WindowLaws `{LedgerType} (base : Z) : Prop := {
  base_nonneg : 0 ≤ base;
  window_range l : 0 ≤ seq l < 2 ^ 32 - 1;
  window_seq l : known base (seq l) = true;
  window_genesis : seq MakeGenesis = 0;
  window_ancestor_genesis l : ancestor_ID l 0 = ancestor_ID MakeGenesis 0;
  window_ancestor_self l : ancestor_ID l (seq l) = ledger_ID l;
  window_ancestor_seq a b s s' :
    known base s = true → known base s' = true → 0 ≤ s ≤ seq a → 0 ≤ s' ≤ seq b →
    ancestor_ID a s = ancestor_ID b s' → s = s';
  window_base a b :
    base ≤ seq a → base ≤ seq b → ancestor_ID a base = ancestor_ID b base;
  window_unique a b s p :
    base ≤ p ≤ s → s ≤ seq a → s ≤ seq b →
    ancestor_ID a s = ancestor_ID b s → ancestor_ID a p = ancestor_ID b p;
  window_common a b s :
    0 ≤ s < mismatch a b → s ≤ seq a ∧ s ≤ seq b ∧
    (known base s = true → ancestor_ID a s = ancestor_ID b s);
  window_first a b :
    0 ≤ mismatch a b ∧
    (seq a < mismatch a b ∨ seq b < mismatch a b ∨
     known base (mismatch a b) = true ∧
     ancestor_ID a (mismatch a b) ≠ ancestor_ID b (mismatch a b));
  window_order :: StrictOrder ID_lt;
  window_total :: Trichotomy ID_lt;
}.

(** Complete histories are windows from genesis on. *)
Lemma complete_window `{LedgerType} `{!LedgerLaws} : WindowLaws 0.
Proof.
  assert (∀ s, 0 ≤ s → known 0 s = true) as Hk.
  { intros s Hs. apply orb_true_iff. right. by apply Z.leb_le. }
  split; try apply _.
  - done.
  - apply seq_range.
  - intros l. apply Hk, seq_range.
  - apply seq_genesis.
  - apply ancestor_genesis.
  - apply ancestor_self.
  - intros a b s s' _ _. apply ancestor_seq.
  - intros a b _ _. by rewrite (ancestor_genesis a), (ancestor_genesis b).
  - apply unique_history.
  - intros a b s Hs. destruct (mismatch_common a b s Hs) as (?&?&?). by split_and!.
  - intros a b. destruct (mismatch_first a b) as [Hm Hd]. split; [done|].
    destruct Hd as [|[|]]; auto.
Qed.

Section filling.
Context `{HL : LedgerType} (base : Z).

(** ** Filling in the unknown ancestors

    The ancestors below [base] get one made-up id per sequence number. *)

Definition filled_lt (x y : ID + Z) : Prop :=
  match x, y with
  | inl a, inl b => ID_lt a b
  | inl _, inr _ => True
  | inr _, inl _ => False
  | inr s, inr s' => s < s'
  end.

#[local] Instance filled_lt_dec : RelDecision filled_lt.
Proof. intros [a|s] [b|s']; simpl; apply _. Defined.

Definition filled : LedgerType := {|
  Ledger := Ledger; ID := ID + Z; ID_lt := filled_lt;
  MakeGenesis := MakeGenesis; seq := seq;
  ledger_ID := λ l, inl (ledger_ID l);
  ancestor_ID := λ l s, if known base s then inl (ancestor_ID l s) else inr s;
  mismatch := mismatch;
|}.

Lemma filled_laws : WindowLaws base → @LedgerLaws filled.
Proof.
  intros HW. pose proof (base_nonneg (base := base)) as Hb.
  split; simpl.
  - apply window_range.
  - apply window_genesis.
  - intros l. f_equal. apply window_ancestor_genesis.
  - intros l. rewrite window_seq. f_equal. apply window_ancestor_self.
  - intros a b s s' Hs Hs' Heq. destruct (known base s) eqn:Hk, (known base s') eqn:Hk';
      [|done|done|by injection Heq].
    injection Heq as Heq. by eapply window_ancestor_seq.
  - intros a b s p Hp Ha Hb' Heq. destruct (known base p) eqn:Hkp; [|done]. f_equal.
    apply orb_true_iff in Hkp as [->%Z.eqb_eq|Hkp%Z.leb_le].
    { by rewrite (window_ancestor_genesis a), (window_ancestor_genesis b). }
    unfold known in Heq. rewrite (proj2 (Z.leb_le base s)), orb_true_r in Heq by lia.
    injection Heq as Heq. by apply (window_unique a b s p); [lia..|].
  - intros a b s Hs. destruct (window_common a b s Hs) as (H1 & H2 & H3). split_and!; [done..|].
    destruct (known base s); [|done]. f_equal. by apply H3.
  - intros a b. destruct (window_first a b) as [Hm Hd]. split; [done|].
    destruct Hd as [|[|[Hk Hne]]]; [by left|by right; left|]. right. right. rewrite Hk. congruence.
  - split.
    + intros [a|s] Hlt; simpl in Hlt; [exact (irreflexivity ID_lt a Hlt)|lia].
    + intros [a|s] [b|s'] [c|s''] H1 H2; simpl in *; try done; [|lia]. by transitivity b.
  - intros [a|s] [b|s']; simpl; [|by auto..|].
    + destruct (trichotomy ID_lt a b) as [|[->|]]; auto.
    + destruct (Z.lt_trichotomy s s') as [|[->|]]; auto.
Qed.

(** ** The trie of the filled-in ledgers *)

Abbreviation fNode := (@Node filled).
Abbreviation fTrie := (@LedgerTrie filled).

Definition fspan (sp : Span) : @Span filled :=
  mkSpan (H := filled) (start_ sp) (end_ sp) (ledger_ sp).

Fixpoint fnode (n : Node) : fNode :=
  let 'mkNode sp ts bs cs := n in mkNode (H := filled) (fspan sp) ts bs (map fnode cs).

Definition ftrie (t : LedgerTrie) : fTrie :=
  mkTrie (H := filled) (fnode (root t)) (seqSupport t).

Definition fres {A B} (f : A → B) (x : res A) : res B := x ← x; mret (f x).

Lemma fnode_eq n :
  fnode n = mkNode (H := filled) (fspan (span n)) (tipSupport_ n) (branchSupport_ n)
    (map fnode (children n)).
Proof. by destruct n. Qed.

Lemma fnode_children n : children (fnode n) = map fnode (children n).
Proof. by destruct n. Qed.
Lemma fnode_span n : span (fnode n) = fspan (span n).
Proof. by destruct n. Qed.
Lemma fnode_tip n : tipSupport_ (fnode n) = tipSupport_ n.
Proof. by destruct n. Qed.
Lemma fnode_branch n : branchSupport_ (fnode n) = branchSupport_ n.
Proof. by destruct n. Qed.

Lemma find_filled (l : @Ledger HL) n : find (H := filled) l (fnode n) = find l n.
Proof.
  induction n as [sp ts bs cs IH] using Node_ind'. cbn [fnode find].
  change (diff (H := filled) (fspan sp) l) with (diff sp l).
  change (end_ (fspan sp)) with (end_ sp). case_match; [|done].
  generalize O. induction IH as [|c cs Hc _ IHcs]; intros i; [done|]. cbn [map].
  rewrite fnode_span, Hc. change (diff (H := filled) (fspan (span c)) l) with (diff (span c) l).
  case_match; [done|]. apply IHcs.
Qed.

Lemma node_at_filled p n : node_at p (fnode n) = fnode <$> node_at p n.
Proof.
  revert n. induction p as [|i p IH]; intros n; [done|]. cbn [node_at].
  rewrite fnode_children, list_lookup_fmap.
  destruct (children n !! i) as [c|]; [apply IH|done].
Qed.

Lemma insert_at_filled (l : @Ledger HL) pos count n :
  insert_at (H := filled) l pos count (fnode n) = fres fnode (insert_at l pos count n).
Proof.
  destruct n as [sp ts bs cs]. unfold insert_at, before, from, sub. cbn [fnode span].
  change (clamp (fspan sp)) with (clamp sp).
  change (clamp (Span_of (H := filled) l)) with (clamp (Span_of l)). simpl.
  repeat case_match; simplify_eq/=; try done; by rewrite map_app.
Qed.

Lemma alter_path_filled count x p n :
  alter_path (add_branch count) (λ _, fnode x) p (fnode n)
  = fnode (alter_path (add_branch count) (λ _, x) p n).
Proof.
  revert n. induction p as [|i p IH]; intros n; [done|]. destruct n as [sp ts bs cs]. simpl.
  unfold add_branch, set_children. simpl. f_equal. symmetry. by apply (list_fmap_alter fnode), Forall_true.
Qed.

Lemma insert_filled (l : @Ledger HL) count t :
  insert (H := filled) l count (ftrie t) = fres ftrie (insert l count t).
Proof.
  unfold insert. cbn [ftrie root]. rewrite find_filled. destruct (find l (root t)) as [p pos].
  rewrite node_at_filled. destruct (node_at p (root t)) as [loc|]; simpl; [|done].
  rewrite insert_at_filled. destruct (insert_at l pos count loc) as [loc'| |]; simpl; [|done..].
  by rewrite alter_path_filled.
Qed.

Lemma last_map {A B} (f : A → B) l : last (map f l) = f <$> last l.
Proof. apply (fmap_last f). Qed.

Lemma erase_filled i cs : erase i (map fnode cs) = map fnode (erase i cs).
Proof.
  unfold erase. rewrite last_map. destruct (last cs) as [b|]; simpl; [|done].
  rewrite length_map. symmetry. etrans; [apply (fmap_take fnode)|]. f_equal.
  apply (list_fmap_insert fnode).
Qed.

Lemma merge_filled a b : merge (fspan a) (fspan b) = fspan (merge a b).
Proof. unfold merge. simpl. by case_match. Qed.

Lemma remove_at_filled count p n :
  remove_at count p (fnode n)
  = (fnode (remove_at count p n).1, (remove_at count p n).2).
Proof.
  revert n. induction p as [|i p IH]; intros n; [by destruct n|].
  destruct n as [sp ts bs cs]. cbn [fnode remove_at children].
  rewrite list_lookup_fmap. destruct (cs !! i) as [c|]; [|done]. cbn [fmap option_fmap option_map].
  rewrite IH. destruct (remove_at count p c) as [loc running]. simpl.
  change (map fnode cs) with (fnode <$> cs).
  rewrite <- (list_fmap_insert fnode cs i loc), fnode_tip.
  destruct (running && (tipSupport_ loc =? 0)); [|done].
  rewrite fnode_children. destruct (children loc) as [|d [|d' ds]]; simpl; [|..].
  - unfold set_children, add_branch. simpl. by rewrite erase_filled.
  - rewrite <- erase_filled, map_app. simpl.
    unfold set_children, add_branch, set_span. simpl. destruct d, loc. simpl.
    by rewrite merge_filled.
  - done.
Qed.

(** ** Queries by id

    They agree when the tips of all nodes are known. *)

Definition tips_known (n : Node) : Prop :=
  ∀ m, node_in m n → known base (u32 (end_ (span m) - 1)) = true.

Lemma tips_known_child n c : tips_known n → c ∈ children n → tips_known c.
Proof. intros Hn Hc m Hm. apply Hn. by eapply node_in_child. Qed.

Lemma tip_filled n :
  tips_known n → tip_id (tip (fspan (span n))) = inl (tip_id (tip (span n))).
Proof. intros Hn. unfold tip. simpl. by rewrite (Hn n (node_in_here n)). Qed.

Lemma findByLedgerID_filled (x : @ID HL) n :
  tips_known n → findByLedgerID (H := filled) (inl x) (fnode n) = findByLedgerID x n.
Proof.
  induction n as [sp ts bs cs IH] using Node_ind'. intros Hk. cbn [fnode findByLedgerID].
  pose proof (tip_filled _ Hk) as Htip. cbn [span] in Htip. rewrite Htip.
  destruct (decide (x = _)) as [->|Hne]; [by rewrite decide_True|].
  rewrite decide_False by congruence.
  assert (Forall (λ c, findByLedgerID (H := filled) (inl x) (fnode c) = findByLedgerID x c) cs)
    as Hcs.
  { rewrite Forall_forall in *. intros c Hc. apply IH; [done|].
    by apply (tips_known_child _ c Hk). }
  clear IH Hk Htip Hne. generalize O.
  induction Hcs as [|c cs Hc _ IHcs]; intros i; [done|]. cbn [map]. rewrite Hc.
  case_match; [done|]. apply IHcs.
Qed.

Lemma filled_ID (l : @Ledger HL) :
  @ledger_ID filled l = (inl (ledger_ID l) : @ID filled).
Proof. done. Qed.

Lemma remove_filled (l : @Ledger HL) count t :
  tips_known (root t) →
  remove (H := filled) l count (ftrie t) = fres (λ r, (r.1, ftrie r.2)) (remove l count t).
Proof.
  intros Hk. unfold remove. cbn [ftrie root]. rewrite filled_ID.
  rewrite findByLedgerID_filled by done. destruct (findByLedgerID _ _) as [p|]; [|done].
  rewrite node_at_filled. destruct (node_at p (root t)) as [loc|]; simpl; [|done].
  rewrite fnode_tip. case_match; [done|].
  destruct (seqSupport t !! seq l) as [it|]; simpl; [|done].
  destruct (rassert _ _); simpl; [|done..]. by rewrite remove_at_filled.
Qed.

Lemma tipSupport_filled (l : @Ledger HL) t :
  tips_known (root t) → tipSupport (H := filled) l (ftrie t) = tipSupport l t.
Proof.
  intros Hk. unfold tipSupport. cbn [ftrie root]. rewrite filled_ID.
  rewrite findByLedgerID_filled by done. destruct (findByLedgerID _ _) as [p|]; simpl; [|done].
  rewrite node_at_filled. destruct (node_at p (root t)) as [loc|]; [|done]. apply fnode_tip.
Qed.

Lemma branchSupport_filled (l : @Ledger HL) t :
  tips_known (root t) → branchSupport (H := filled) l (ftrie t) = branchSupport l t.
Proof.
  intros Hk. unfold branchSupport. cbn [ftrie root]. rewrite filled_ID.
  rewrite findByLedgerID_filled, find_filled by done.
  destruct (findByLedgerID (ledger_ID l) (root t)) as [p|]; simpl.
  1: rewrite node_at_filled; destruct (node_at p (root t)); simpl; [apply fnode_branch|].
  all: destruct (find l (root t)) as [q pos]; rewrite node_at_filled.
  all: destruct (node_at q (root t)); simpl; [|done]; by rewrite fnode_span, fnode_branch.
Qed.

(** ** The self-check *)

Lemma foldl_branch_filled cs s :
  foldl (λ s c, u64 (s + branchSupport_ c)) s (map fnode cs)
  = foldl (λ s c, u64 (s + branchSupport_ c)) s cs.
Proof. revert s. induction cs as [|c cs IH]; intros s; simpl; [done|]. by rewrite fnode_branch. Qed.

Lemma checkNodes_filled fuel nodes m :
  checkNodes fuel (map (λ bn, (bn.1, fnode bn.2)) nodes) m = checkNodes fuel nodes m.
Proof.
  revert nodes m. induction fuel as [|fuel IH]; intros [|[b n] nodes] m; try done.
  cbn [map checkNodes fst snd].
  rewrite fnode_tip, fnode_children, fnode_span, fnode_branch, length_map, foldl_branch_filled.
  do 2 (case_match; [done|]). rewrite <- IH. f_equal. rewrite map_app. f_equal.
  etrans; [|symmetry; apply (fmap_reverse (λ bn, (bn.1, fnode bn.2)))]. f_equal.
  clear. induction (children n) as [|c cs IH]; simpl; [done|]. by f_equal.
Qed.

Lemma node_count_filled n : node_count (fnode n) = node_count n.
Proof.
  induction n as [sp ts bs cs IH] using Node_ind'. simpl. do 2 f_equal. rewrite map_map.
  induction IH as [|c cs Hc _ IHcs]; [done|]. simpl. by rewrite Hc, IHcs.
Qed.

Lemma checkInvariants_filled t : checkInvariants (ftrie t) = checkInvariants t.
Proof.
  unfold checkInvariants. cbn [ftrie root seqSupport]. rewrite node_count_filled.
  by rewrite <- (checkNodes_filled _ [(true, root t)]).
Qed.

(** ** Sorting

    Children whose first ids are known sort as they did; others, which the
    trie never has to sort, in any way. *)

Definition unspan (sp : @Span filled) : Span := mkSpan (H := HL) (start_ sp) (end_ sp) (ledger_ sp).

Fixpoint unnode (n : fNode) : @Node HL :=
  let 'mkNode sp ts bs cs := n in mkNode (H := HL) (unspan sp) ts bs (map unnode cs).

Lemma unspan_fspan sp : unspan (fspan sp) = sp.
Proof. by destruct sp. Qed.
Lemma fspan_unspan sp : fspan (unspan sp) = sp.
Proof. by destruct sp. Qed.

Lemma unnode_fnode n : unnode (fnode n) = n.
Proof.
  induction n as [sp ts bs cs IH] using Node_ind'. simpl. rewrite unspan_fspan, map_map. f_equal.
  induction IH as [|c cs Hc _ IHcs]; [done|]. simpl. by rewrite Hc, IHcs.
Qed.
Lemma fnode_unnode n : fnode (unnode n) = n.
Proof.
  induction n as [sp ts bs cs IH] using (Node_ind' (H := filled)). simpl.
  rewrite fspan_unspan, map_map. f_equal.
  induction IH as [|c cs Hc _ IHcs]; [done|]. simpl. by rewrite Hc, IHcs.
Qed.

Lemma map_unnode cs : map fnode (map unnode cs) = cs.
Proof. rewrite map_map. induction cs; simpl; [done|]. by rewrite fnode_unnode, IHcs. Qed.
Lemma map_fnode cs : map unnode (map fnode cs) = cs.
Proof. rewrite map_map. induction cs; simpl; [done|]. by rewrite unnode_fnode, IHcs. Qed.

Definition start_known (n : Node) : Prop := known base (start_ (span n)) = true.

Lemma startID_filled n :
  start_known n → startID (span (fnode n)) = inl (startID (span n)).
Proof. intros Hn. rewrite fnode_span. unfold startID. simpl. by rewrite Hn. Qed.

Lemma node_gt_filled a b :
  start_known a → start_known b → node_gt (fnode a) (fnode b) = node_gt a b.
Proof.
  intros Ha Hb. unfold node_gt. rewrite !fnode_branch, !startID_filled by done. by do 2 f_equal.
Qed.

Context `{HW : !WindowLaws base}.
#[local] Instance filled_laws' : @LedgerLaws filled := filled_laws HW.

Context `{!PartialSort}.

Definition all_known (cs : list fNode) : bool :=
  forallb (λ n, known base (start_ (span n))) cs.

Definition fsort (cs : list fNode) : list fNode :=
  if all_known cs then map fnode (partial_sort2 (map unnode cs)) else sort_two cs.

Lemma all_known_filled cs : all_known (map fnode cs) = true ↔ Forall start_known cs.
Proof.
  unfold all_known, start_known. induction cs as [|c cs IH]; simpl; [by split|].
  rewrite andb_true_iff, IH, fnode_span, Forall_cons. done.
Qed.

Lemma fsort_known cs :
  Forall start_known cs → fsort (map fnode cs) = map fnode (partial_sort2 cs).
Proof. intros Hk%all_known_filled. unfold fsort. by rewrite Hk, map_fnode. Qed.

Lemma fsort_perm cs : fsort cs ≡ₚ cs.
Proof.
  unfold fsort. destruct (all_known cs); [|apply sort_two_perm].
  rewrite partial_sort2_perm, map_unnode. done.
Qed.

Lemma fsort_first a b rest cs :
  fsort cs = a :: b :: rest →
  node_gt b a = false ∧ Forall (λ c, node_gt c b = false) rest.
Proof using HW.
  unfold fsort. destruct (all_known cs) eqn:Hk; [|by apply (sort_two_first (H := filled))].
  rewrite <- (map_unnode cs) in Hk. apply all_known_filled in Hk.
  rewrite <- (partial_sort2_perm (map unnode cs)) in Hk.
  destruct (partial_sort2 (map unnode cs)) as [|a0 [|b0 r0]] eqn:Hs; [done..|].
  intros [= <- <- <-]. destruct (partial_sort2_first _ _ _ _ Hs) as [H1 H2].
  rewrite !Forall_cons in Hk. destruct Hk as (Ha & Hb & Hr).
  split; [by rewrite node_gt_filled|]. apply Forall_map.
  rewrite Forall_forall in *. intros c Hc. rewrite node_gt_filled by auto. by apply H2.
Qed.

Definition filled_sort : @PartialSort filled :=
  Build_PartialSort (H := filled) fsort fsort_perm fsort_first.

Lemma bestChild_filled cs :
  ((2 ≤ length cs)%nat → Forall start_known cs) →
  bestChild (H0 := filled_sort) (map fnode cs)
  = fres (λ r, (prod_map fnode id <$> r.1, map fnode r.2)) (bestChild cs).
Proof.
  intros Hk. destruct cs as [|c [|c' cs]]; [done|by destruct c|].
  specialize (Hk ltac:(simpl; lia)). unfold bestChild.
  change (partial_sort2 (PartialSort := filled_sort)) with fsort.
  change (map fnode (c :: c' :: cs)) with (fnode c :: fnode c' :: map fnode cs) at 1.
  cbn [map]. change (fnode c :: fnode c' :: map fnode cs) with (map fnode (c :: c' :: cs)).
  rewrite fsort_known by done. rewrite <- (partial_sort2_perm (c :: c' :: cs)) in Hk.
  destruct (partial_sort2 (c :: c' :: cs)) as [|a [|b r]]; [done..|]. cbn [map].
  rewrite !Forall_cons in Hk. destruct Hk as (Ha & Hb & _).
  rewrite !startID_filled, !fnode_branch by done. simpl. by repeat case_decide.
Qed.

(** Where a node has several children they are known to differ. *)
Definition forks_known (n : Node) : Prop :=
  ∀ m, node_in m n → (2 ≤ length (children m))%nat → Forall start_known (children m).

Lemma height_filled n : height (fnode n) = height n.
Proof.
  induction n as [sp ts bs cs IH] using Node_ind'. simpl. do 2 f_equal. rewrite map_map.
  induction IH as [|c cs Hc _ IHcs]; [done|]. simpl. by rewrite Hc, IHcs.
Qed.

Lemma bestChild_elem cs c k cs' :
  bestChild cs = Ok (Some (c, k), cs') → c ∈ cs ∧ cs' !! 0%nat = Some c.
Proof.
  unfold bestChild. destruct cs as [|c1 [|c2 cs]]; [done|intros [= <- _ <-]; set_solver|].
  pose proof (partial_sort2_perm (c1 :: c2 :: cs)) as Hp.
  destruct (partial_sort2 (c1 :: c2 :: cs)) as [|a [|b r]]; [done..|].
  intros [= <- _ <-]. split; [|done]. rewrite <- Hp. by left.
Qed.

Lemma preferredFrom_filled fuel li n it u :
  forks_known n →
  fres snd (preferredFrom (H0 := filled_sort) fuel li (fnode n) it u)
  = fres (fnode ∘ snd) (preferredFrom fuel li n it u).
Proof.
  revert n it u. induction fuel as [|fuel IH]; intros n it u Hk; [done|].
  cbn [preferredFrom]. rewrite fnode_span, fnode_branch, fnode_children.
  change (start_ (fspan (span n))) with (start_ (span n)).
  change (end_ (fspan (span n))) with (end_ (span n)).
  destruct (addUncommitted _ _ _) as [it1 u1].
  destruct (advance _ _ _ _ _) as [[q it2] u2]. case_match.
  { unfold before, sub. simpl. change (clamp (fspan (span n))) with (clamp (span n)).
    by case_match. }
  rewrite bestChild_filled by (apply Hk; constructor).
  destruct (bestChild (children n)) as [[[[c k]|] cs]| |] eqn:Hb; simpl; [|by destruct n..].
  destruct (bestChild_elem _ _ _ _ Hb) as [Hc _]. case_match; [|by destruct n].
  assert (forks_known c) as Hkc by (intros m Hm; apply Hk; by eapply node_in_child).
  specialize (IH c it2 u2 Hkc).
  destruct (preferredFrom (H := filled) _ _ _ _ _) as [[r1 n1]| |],
    (preferredFrom (H := HL) _ _ _ _ _) as [[r2 n2]| |]; simpl in *; try done.
  injection IH as ->. f_equal. unfold set_children. destruct n. simpl. f_equal.
  symmetry. apply (list_fmap_insert fnode).
Qed.

Lemma getPreferred_filled li t :
  forks_known (root t) →
  fres snd (getPreferred (H0 := filled_sort) li (ftrie t))
  = fres (ftrie ∘ snd) (getPreferred li t).
Proof.
  intros Hk. unfold getPreferred, empty. cbn [ftrie root seqSupport]. rewrite fnode_branch.
  case_match; [done|]. rewrite height_filled.
  pose proof (preferredFrom_filled (height (root t)) li (root t) (map_sorted (seqSupport t)) 0 Hk)
    as Hp.
  destruct (preferredFrom (H := filled) _ _ _ _ _) as [[r1 n1]| |],
    (preferredFrom (H := HL) _ _ _ _ _) as [[r2 n2]| |]; simpl in *; try done.
  all: by injection Hp as ->.
Qed.

(** ** Tries that stand for a multiset

    The trie of the filled-in ledgers does; then tips and forks are known. *)

Definition window_supports (t : LedgerTrie) (L : list Ledger) : Prop :=
  supports (H := filled) (ftrie t) L.

Lemma node_in_filled m n : node_in m n → node_in (fnode m) (fnode n).
Proof.
  induction 1 as [|n c Hc _ IH]; [constructor|]. apply (node_in_child _ _ (fnode c)); [|done].
  rewrite fnode_children. by apply (list_elem_of_fmap_2 fnode).
Qed.

(** A node with two children ends above [base]. *)
Lemma fork_above n :
  node_ok (fnode n) → (2 ≤ length (children n))%nat → base < end_ (span n).
Proof using HW.
  destruct n as [sp ts bs [|c [|d cs]]]; simpl; [lia..|]. intros Hok _.
  apply node_ok_unfold in Hok as (_ & _ & _ & _ & [Ho Hch _ Hnd]).
  rewrite !Forall_cons in Ho, Hch. destruct Ho as (Hc & Hd & _), Hch as ([Hsc _] & [Hsd _] & _).
  apply node_ok_span in Hc as [Hc1 Hc2], Hd as [Hd1 Hd2].
  destruct (decide (base < end_ sp)) as [|Hle]; [done|]. exfalso.
  assert (first_ID (fnode c) = first_ID (fnode d)) as Heq.
  { unfold first_ID, startID. rewrite !fnode_span in *. simpl in *. rewrite Hsc, Hsd.
    destruct (known base (end_ sp)) eqn:Hk; [|done]. f_equal.
    apply orb_true_iff in Hk as [->%Z.eqb_eq|Hk%Z.leb_le].
    { by rewrite (window_ancestor_genesis (ledger_ (span c))),
        (window_ancestor_genesis (ledger_ (span d))). }
    assert (end_ sp = base) as -> by lia. by apply window_base; lia. }
  apply NoDup_cons in Hnd as [Hnd _]. apply Hnd. rewrite Heq. left.
Qed.

(** The tips with support are known because the ledgers are. *)
Definition unknown (tp : @SpanTip filled) : Z := if known base (tip_seq tp) then 0 else 1.

Lemma unknown_weight : weight unknown.
Proof using HW.
  intros t t' Ht Ht' Heq. unfold unknown. by rewrite (tip_ok_seq t t' Ht Ht' Heq).
Qed.

Lemma window_tips t L : window_supports t L → tips_known (root t).
Proof using HW.
  intros [[Hok Hsp _] Htot] m Hm. pose proof (node_in_filled _ _ Hm) as Hfm.
  destruct (node_in_ok _ _ Hfm Hok) as (Hmok & _).
  pose proof (node_ok_span _ Hmok) as Hspan. pose proof Hspan as [Hs1 Hs2].
  rewrite fnode_span in Hs1, Hs2, Hspan. simpl in Hs1, Hs2.
  pose proof (window_range (base := base) (ledger_ (span m))).
  rewrite u32_id by lia.
  destruct (node_in_supported _ _ Hfm Hok) as [Heq|[Hts|Hch]].
  - assert (span (fnode m) = Span_genesis (H := filled)) as Hg by (rewrite Heq; apply Hsp).
    rewrite fnode_span in Hg. injection Hg as _ He _. rewrite He. done.
  - pose proof (total_node_in unknown _ (root (ftrie t)) Hfm Hok) as Hle.
    specialize (Htot unknown unknown_weight).
    rewrite Htot, fnode_span, tip_eq in Hle by done.
    assert (sum_over unknown L = 0) as Hz.
    { clear -HW. unfold sum_over. induction L as [|l L IH]; [done|]. rewrite fmap_cons, sumZ_cons, IH.
      unfold unknown. simpl. by rewrite window_seq. }
    unfold unknown in Hle at 2. simpl in Hle. destruct (known base (end_ (span m) - 1)); [done|].
    rewrite Hz in Hle. specialize (Hle ltac:(intros tp; unfold unknown; by case_match)). lia.
  - rewrite fnode_children, length_map in Hch. pose proof (fork_above _ Hmok Hch).
    apply orb_true_iff. right. apply Z.leb_le. lia.
Qed.

Lemma window_forks t L : window_supports t L → forks_known (root t).
Proof using HW.
  intros [[Hok _ _] _] m Hm Hch.
  destruct (node_in_ok _ _ (node_in_filled _ _ Hm) Hok) as (Hmok & _).
  pose proof (fork_above _ Hmok Hch) as Hab. apply Forall_forall. intros c Hc.
  destruct (node_ok_children (fnode m) (fnode c) Hmok) as (_ & [Hst _] & _).
  { rewrite fnode_children. by apply (list_elem_of_fmap_2 fnode). }
  rewrite !fnode_span in Hst. simpl in Hst. unfold start_known. rewrite Hst.
  apply orb_true_iff. right. apply Z.leb_le. lia.
Qed.

(** ** The operations on windows *)

Lemma remove_support_filled c x (L : list Ledger) :
  remove_support (H := filled) c (inl x) L = remove_support c x L.
Proof.
  revert c. induction L as [|l L IH]; intros [|c]; try done. simpl.
  repeat case_decide; try congruence; f_equal; auto.
Qed.

Lemma count_id_filled x (L : list Ledger) : count_id (H := filled) (inl x) L = count_id x L.
Proof.
  induction L as [|l L IH]; [done|]. rewrite count_id_cons, (count_id_cons (H := filled)).
  change (sum_over _ L) with (count_id (H := filled) (inl x) L). rewrite IH. simpl.
  repeat case_decide; congruence.
Qed.

Lemma branch_of_filled s x (L : list Ledger) :
  known base s = true → branch_of (H := filled) L s (inl x) = branch_of L s x.
Proof.
  intros Hk. unfold branch_of, sum_over. f_equal. apply list_fmap_ext. intros i l _.
  unfold is_desc. simpl. rewrite Hk.
  destruct (s <=? @seq HL l); simpl; [|done].
  by repeat case_bool_decide; try congruence.
Qed.

Lemma fres_ok {A B} (f : A → B) x y : fres f x = Ok y → ∃ a, x = Ok a ∧ y = f a.
Proof. destruct x; [|done..]. intros [= <-]. eauto. Qed.

Lemma window_new : window_supports LedgerTrie_ctor [].
Proof using HW. apply (supports_new (H := filled)). Qed.

Lemma window_insert l count t L :
  window_supports t L → 0 < count → Z.of_nat (length L) + count < 2 ^ 32 →
  ∃ t', insert l count t = Ok t' ∧ window_supports t' (replicate (Z.to_nat count) l ++ L).
Proof using HW.
  intros Hs Hc Hl. destruct (insert_spec (H := filled) l count _ L Hs Hc Hl) as (t1 & Hi & Hs1).
  rewrite insert_filled in Hi. apply fres_ok in Hi as (t' & Hi & ->). eauto.
Qed.

Lemma window_remove l count t L :
  window_supports t L → 0 < count →
  ∃ t', remove l count t = Ok (negb (count_id (ledger_ID l) L =? 0), t') ∧
    window_supports t' (remove_support (Z.to_nat count) (ledger_ID l) L).
Proof using HW.
  intros Hs Hc. destruct (remove_spec (H := filled) l count _ L Hs Hc) as (t1 & Hr & Hs1).
  rewrite remove_filled in Hr by (by eapply window_tips).
  rewrite filled_ID, count_id_filled in Hr. rewrite filled_ID, remove_support_filled in Hs1.
  apply fres_ok in Hr as ([b t'] & Hr & Heq). injection Heq as -> ->. by exists t'.
Qed.

Lemma window_getPreferred li t L :
  window_supports t L → ∃ r t', getPreferred li t = Ok (r, t') ∧ window_supports t' L.
Proof using HW.
  intros Hs.
  destruct (getPreferred_spec (H := filled) (H1 := filled_sort) li _ L Hs)
    as (r1 & t1 & Hp & Hs1 & _).
  pose proof (getPreferred_filled li t (window_forks t L Hs)) as Hg. rewrite Hp in Hg.
  symmetry in Hg. apply fres_ok in Hg as ([r t'] & Hg & Heq). simpl in Heq. subst t1. eauto.
Qed.

Lemma window_queries t L :
  window_supports t L →
  checkInvariants t = Ok true ∧ empty t = bool_decide (L = []) ∧
  ∀ l, tipSupport l t = count_id (ledger_ID l) L ∧
       branchSupport l t = branch_of L (seq l) (ledger_ID l).
Proof using HW.
  intros Hs. pose proof (window_tips t L Hs) as Hk. split_and!.
  - rewrite <- checkInvariants_filled. by eapply (checkInvariants_true (H := filled)).
  - unfold empty. pose proof (supports_length (H := filled) _ L Hs) as Hlen.
    simpl in Hlen. rewrite fnode_branch in Hlen. rewrite Hlen. by destruct L.
  - intros l. rewrite <- tipSupport_filled, <- branchSupport_filled by done. split.
    + rewrite (supports_tip (H := filled) _ L l Hs). apply count_id_filled.
    + destruct Hs as [Ht Htot]. rewrite (branchSupport_total (H := filled)) by done.
      etrans; [apply Htot, (weight_desc (H := filled)), (window_range (base := base) l)|].
      apply branch_of_filled, window_seq.
Qed.
End filling.
