(* ===== verification/RCLLedger.v ===== *)
(** * Validated ledgers ([RCLValidatedLedger], [app/consensus/RCLValidations.cpp])

    The ledger type rippled gives to the trie knows only its most recent
    ancestors, from the skip list stored in the ledger.  Identifiers are the
    256-bit hashes, as integers.  Ledgers that know a common ancestor satisfy
    the laws of [LedgerWindow]; ledgers further apart than their windows do
    not, and the trie then takes a descendant for an unrelated ledger. *)
From S2P Require Import Prelude LedgerTrie LedgerSupport LedgerDemo LedgerWindow.

Record RCLValidatedLedger := mkRCL {
  ledgerID_ : Z;
  ledgerSeq_ : Z;
  ancestors_ : list Z;
}.

Definition RCL_MakeGenesis : RCLValidatedLedger := mkRCL 0 0 [].

(** The constructor; [skip] is the content of the skip list entry, if the
    ledger has one: its last sequence number and the hashes. *)
Definition RCL_ctor (hash seq : Z) (skip : option (Z * list Z)) : res RCLValidatedLedger :=
  match skip with
  | Some (lastSeq, hashes) =>
      _ ← rassert (lastSeq =? u32 (seq - 1)) "sfLastLedgerSequence"; mret (mkRCL hash seq hashes)
  | None => mret (mkRCL hash seq [])
  end.

Definition minSeq (l : RCLValidatedLedger) : Z :=
  ledgerSeq_ l - Z.min (ledgerSeq_ l) (u32 (Z.of_nat (length (ancestors_ l)))).

(** [operator\[\]]; a vector index out of range would be undefined behaviour. *)
Definition RCL_ancestor (l : RCLValidatedLedger) (s : Z) : res Z :=
  if (minSeq l <=? s) && (s <=? ledgerSeq_ l) then
    if s =? ledgerSeq_ l then mret (ledgerID_ l)
    else
      let diff := u32 (ledgerSeq_ l - s) in
      runwrap (ancestors_ l !! Z.to_nat (Z.of_nat (length (ancestors_ l)) - diff)) "ancestors_"
  else mret 0.

(** The loop of [mismatch], from [curr] down. *)
Fixpoint mismatch_loop (curr : nat) (lower : Z) (a b : RCLValidatedLedger) : res Z :=
  match curr with
  | O => mret 0
  | S curr' =>
      ia ← RCL_ancestor a (Z.of_nat curr);
      ib ← RCL_ancestor b (Z.of_nat curr);
      if negb (ia =? ib) && (lower <=? Z.of_nat curr) then mismatch_loop curr' lower a b
      else mret (Z.of_nat curr)
  end.

Definition RCL_mismatch (a b : RCLValidatedLedger) : res Z :=
  let lower := Z.max (minSeq a) (minSeq b) in
  let upper := Z.min (ledgerSeq_ a) (ledgerSeq_ b) in
  curr ← mismatch_loop (Z.to_nat upper) lower a b;
  mret (if curr <? lower then 1 else u32 (curr + 1)).

(** ** Histories

    [of_history l h]: the ledger [l] has the history [h], from genesis at
    sequence number 0 on, and knows a suffix of it. *)
Record of_history (l : RCLValidatedLedger) (h : Z → Z) : Prop := {
  oh_seq : 0 ≤ ledgerSeq_ l < 2 ^ 32 - 1;
  oh_id : ledgerID_ l = h (ledgerSeq_ l);
  oh_len : Z.of_nat (length (ancestors_ l)) ≤ ledgerSeq_ l;
  oh_known i x : ancestors_ l !! i = Some x →
    x = h (ledgerSeq_ l - Z.of_nat (length (ancestors_ l)) + Z.of_nat i);
}.

(** Ledgers that agree at a sequence number agree before it. *)
Definition share_history (a b : RCLValidatedLedger) (ha hb : Z → Z) : Prop :=
  ha 0 = hb 0 ∧
  ∀ s p, 0 ≤ p ≤ s → s ≤ ledgerSeq_ a → s ≤ ledgerSeq_ b → ha s = hb s → ha p = hb p.

Lemma minSeq_eq l h :
  of_history l h → minSeq l = ledgerSeq_ l - Z.of_nat (length (ancestors_ l)).
Proof. intros [Hs _ Hl _]. unfold minSeq. rewrite u32_id by lia. lia. Qed.

Lemma RCL_ancestor_known l h s :
  of_history l h → minSeq l ≤ s ≤ ledgerSeq_ l → RCL_ancestor l s = Ok (h s).
Proof.
  intros Hh Hs. pose proof (minSeq_eq l h Hh) as Hmin. destruct Hh as [Hseq Hid Hlen Hk].
  unfold RCL_ancestor. rewrite (proj2 (Z.leb_le _ _)), (proj2 (Z.leb_le s _)) by lia. simpl.
  destruct (Z.eqb_spec s (ledgerSeq_ l)) as [->|Hne]; [by rewrite Hid|].
  rewrite u32_id by lia.
  destruct (lookup_lt_is_Some_2 (ancestors_ l)
    (Z.to_nat (Z.of_nat (length (ancestors_ l)) - (ledgerSeq_ l - s)))) as [x Hx]; [lia|].
  rewrite Hx. simpl. rewrite (Hk _ _ Hx). do 2 f_equal. lia.
Qed.

Lemma RCL_ancestor_total l h s : of_history l h → ∃ x, RCL_ancestor l s = Ok x.
Proof.
  intros Hh. destruct (decide (minSeq l ≤ s ≤ ledgerSeq_ l)) as [Hs|Hs].
  { eexists. by apply (RCL_ancestor_known l h). }
  exists 0. unfold RCL_ancestor. destruct (Z.leb_spec (minSeq l) s); [|done].
  by rewrite (proj2 (Z.leb_gt _ _)) by lia.
Qed.

(** The loop stops at the last known agreement, below the window, or at 0. *)
Lemma mismatch_loop_spec a b ha hb n :
  of_history a ha → of_history b hb →
  Z.of_nat n ≤ ledgerSeq_ a → Z.of_nat n ≤ ledgerSeq_ b →
  let lower := Z.max (minSeq a) (minSeq b) in
  ∃ c, mismatch_loop n lower a b = Ok c ∧ 0 ≤ c ≤ Z.of_nat n ∧
    (0 < c → lower ≤ c → ha c = hb c) ∧
    (∀ s, c < s ≤ Z.of_nat n → lower ≤ s → ha s ≠ hb s).
Proof.
  intros Ha Hb Hna Hnb lower. induction n as [|n IH].
  { exists 0. split_and!; [done|lia..|]. intros. lia. }
  cbn [mismatch_loop].
  destruct (RCL_ancestor_total a ha (Z.of_nat (S n)) Ha) as [x Hx].
  destruct (RCL_ancestor_total b hb (Z.of_nat (S n)) Hb) as [y Hy]. rewrite Hx, Hy. simpl.
  destruct (Z.leb_spec lower (Z.of_nat (S n))) as [Hlow|Hlow].
  - rewrite (RCL_ancestor_known a ha) in Hx by (done || lia).
    rewrite (RCL_ancestor_known b hb) in Hy by (done || lia).
    injection Hx as <-. injection Hy as <-.
    destruct (Z.eqb_spec (ha (Z.of_nat (S n))) (hb (Z.of_nat (S n)))) as [Heq|Hne]; simpl.
    + eexists. split; [reflexivity|]. split_and!; [lia..|done|]. intros. lia.
    + destruct IH as (c & -> & Hc & Hag & Hdis); [lia..|]. exists c. split_and!; [done|lia..|done|].
      intros s Hs Hls. destruct (decide (s = Z.of_nat (S n))) as [->|]; [done|]. apply Hdis; lia.
  - rewrite andb_false_r. eexists. split; [reflexivity|]. split_and!; [lia..| |]; intros; lia.
Qed.

(** ** A window of history

    [parent] and [number] are what a ledger hash determines: the hash of the
    parent and the sequence number.  The ledgers of the window are genesis and
    those that know the ancestor [h0] at sequence number [base]. *)
Section window.
Context (parent number : Z → Z) (base h0 : Z).

Record linked (l : RCLValidatedLedger) : Prop := {
  linked_range : ledgerSeq_ l < 2 ^ 32 - 1;
  linked_length : Z.of_nat (length (ancestors_ l)) < ledgerSeq_ l;
  linked_base : minSeq l ≤ base ≤ ledgerSeq_ l;
  linked_common : RCL_ancestor l base = Ok h0;
  linked_number s x :
    minSeq l ≤ s ≤ ledgerSeq_ l → RCL_ancestor l s = Ok x → number x = s;
  linked_parent s x :
    minSeq l < s ≤ ledgerSeq_ l → RCL_ancestor l s = Ok x →
    RCL_ancestor l (s - 1) = Ok (parent x);
}.

Definition in_window (l : RCLValidatedLedger) : Prop := l = RCL_MakeGenesis ∨ linked l.

(** The history the hashes determine. *)
Definition hist_of (l : RCLValidatedLedger) (s : Z) : Z :=
  if s <=? 0 then 0 else Nat.iter (Z.to_nat (ledgerSeq_ l - s)) parent (ledgerID_ l).

Lemma linked_minSeq l :
  linked l → minSeq l = ledgerSeq_ l - Z.of_nat (length (ancestors_ l)) ∧ 1 ≤ minSeq l.
Proof.
  intros [Hr Hlen _ _ _ _]. unfold minSeq. rewrite u32_id by lia. lia.
Qed.

Lemma linked_hist l s :
  linked l → minSeq l ≤ s ≤ ledgerSeq_ l → RCL_ancestor l s = Ok (hist_of l s).
Proof.
  intros Hl Hs. pose proof (linked_minSeq l Hl) as [Hmin H1]. unfold hist_of.
  rewrite (proj2 (Z.leb_gt _ _)) by lia.
  remember (Z.to_nat (ledgerSeq_ l - s)) as n eqn:Hn. revert s Hs Hn.
  induction n as [|n IH]; intros s Hs Hn.
  - assert (s = ledgerSeq_ l) as -> by lia. unfold RCL_ancestor.
    rewrite (proj2 (Z.leb_le _ _)), Z.leb_refl, Z.eqb_refl by lia. done.
  - replace s with (s + 1 - 1) by lia. simpl.
    apply (linked_parent l Hl); [lia|]. apply IH; lia.
Qed.

Lemma linked_of_history l : linked l → of_history l (hist_of l).
Proof.
  intros Hl. pose proof (linked_minSeq l Hl) as [Hmin H1].
  pose proof (linked_range l Hl). pose proof (linked_length l Hl).
  split; [lia| |lia|].
  - unfold hist_of. rewrite (proj2 (Z.leb_gt _ _)), Z.sub_diag by lia. done.
  - intros i x Hx. pose proof (lookup_lt_Some _ _ _ Hx).
    pose proof (linked_hist l (ledgerSeq_ l - Z.of_nat (length (ancestors_ l)) + Z.of_nat i) Hl)
      as Hh. specialize (Hh ltac:(lia)). unfold RCL_ancestor in Hh.
    rewrite (proj2 (Z.leb_le _ _)), (proj2 (Z.leb_le _ (ledgerSeq_ l))) in Hh by lia. simpl in Hh.
    rewrite (proj2 (Z.eqb_neq _ _)), u32_id in Hh by lia.
    replace (Z.to_nat _) with i in Hh by lia. rewrite Hx in Hh. by injection Hh.
Qed.

Lemma window_of_history l : in_window l → of_history l (hist_of l).
Proof. intros [->|Hl]; [by split; simpl; try lia|by apply linked_of_history]. Qed.

Lemma hist_of_iter l s p :
  1 ≤ p ≤ s → s ≤ ledgerSeq_ l →
  hist_of l p = Nat.iter (Z.to_nat (s - p)) parent (hist_of l s).
Proof.
  intros Hp Hs. unfold hist_of. rewrite !(proj2 (Z.leb_gt _ _)) by lia.
  rewrite <- Nat.iter_add. f_equal. lia.
Qed.

Lemma window_share a b : share_history a b (hist_of a) (hist_of b).
Proof.
  split; [done|]. intros s p Hp Ha Hb Heq. destruct (decide (p = 0)) as [->|]; [done|].
  by rewrite (hist_of_iter a s p), (hist_of_iter b s p), Heq by lia.
Qed.
End window.

(** ** Properties *)

(** [mismatch] of two validated ledgers never indexes out of range, and
    returns a sequence number after genesis below which the two histories
    agree; it lies above every agreement both ledgers know of, and when it is
    inside the window known to both (and neither ledger ends before it) the
    histories differ there, so it is the first mismatch. *)
Theorem RCL_mismatch_sound (a b : RCLValidatedLedger) (ha hb : Z → Z)
    (Ha : of_history a ha) (Hb : of_history b hb) (Hab : share_history a b ha hb) :
  ∃ m, RCL_mismatch a b = Ok m ∧ 1 ≤ m ∧
    (∀ s, 0 ≤ s < m → s ≤ ledgerSeq_ a ∧ s ≤ ledgerSeq_ b ∧ ha s = hb s) ∧
    (∀ s, Z.max (minSeq a) (minSeq b) ≤ s → s ≤ ledgerSeq_ a → s ≤ ledgerSeq_ b →
       ha s = hb s → s < m) ∧
    (Z.max (minSeq a) (minSeq b) ≤ m → m ≤ ledgerSeq_ a → m ≤ ledgerSeq_ b → ha m ≠ hb m).
Proof.
  pose proof (oh_seq a ha Ha) as Hsa. pose proof (oh_seq b hb Hb) as Hsb.
  destruct Hab as [H0 Huniq]. unfold RCL_mismatch.
  set (upper := Z.min (ledgerSeq_ a) (ledgerSeq_ b)).
  destruct (mismatch_loop_spec a b ha hb (Z.to_nat upper) Ha Hb)
    as (c & Hloop & Hc & Hag & Hdis); [lia..|]. rewrite Hloop. simpl.
  rewrite Z2Nat.id in Hc, Hdis by lia.
  set (lower := Z.max (minSeq a) (minSeq b)) in *.
  assert (lower ≤ c → ha c = hb c) as Hagc.
  { intros. destruct (decide (c = 0)) as [->|]; [done|]. apply Hag; lia. }
  destruct (Z.ltb_spec c lower) as [Hlt|Hge].
  - exists 1. split_and!; [done|lia| | |].
    + intros s Hs. assert (s = 0) as -> by lia. split_and!; [lia..|done].
    + intros s Hls H1 H2 Heq. exfalso. apply (Hdis s); [lia|lia|done].
    + intros Hl1 H1 H2. apply Hdis; lia.
  - rewrite u32_id by lia. exists (c + 1). split_and!; [done|lia| | |].
    + intros s Hs. split_and!; [lia..|]. apply (Huniq c s); [lia..|auto].
    + intros s Hls H1 H2 Heq. destruct (decide (c < s)); [|lia].
      exfalso. apply (Hdis s); [lia|lia|done].
    + intros Hl1 H1 H2. apply Hdis; lia.
Qed.

(** Two ledgers at sequence numbers 5 and 6 that part after 3, each knowing
    four ancestors. *)
Definition demo_hist (branch : Z) (s : Z) : Z :=
  if s <=? 0 then 0 else if s <=? 3 then 100 + s else 100 * branch + s.
Definition demo_rcl (branch q : Z) : RCLValidatedLedger :=
  mkRCL (demo_hist branch q) q (demo_hist branch <$> [q - 4; q - 3; q - 2; q - 1]).

Lemma demo_of_history branch q :
  4 ≤ q < 1000 → of_history (demo_rcl branch q) (demo_hist branch).
Proof.
  intros Hq. split; simpl; [lia|done|lia|]. intros i x.
  do 4 (destruct i as [|i]; simpl; [intros [= <-]; f_equal; lia|]). done.
Qed.

Lemma RCL_mismatch_sound_witness :
  ∃ m, RCL_mismatch (demo_rcl 2 5) (demo_rcl 3 6) = Ok m ∧ 1 ≤ m ∧
    (∀ s, 0 ≤ s < m → demo_hist 2 s = demo_hist 3 s).
Proof.
  destruct (RCL_mismatch_sound (demo_rcl 2 5) (demo_rcl 3 6) (demo_hist 2) (demo_hist 3))
    as (m & Hm & H1 & Hag & _).
  - apply demo_of_history; lia.
  - apply demo_of_history; lia.
  - split; [reflexivity|]. simpl. intros s p Hp Hs _ Heq. unfold demo_hist in *.
    destruct (Z.leb_spec s 0), (Z.leb_spec s 3), (Z.leb_spec p 0), (Z.leb_spec p 3); lia.
  - exists m. split; [exact Hm|]. split; [exact H1|]. intros s Hs. apply (Hag s Hs).
Defined.

(** ** The ledger types of the trie

    [RCL_ledger] is what rippled instantiates the trie with, [window_ledger]
    its restriction to the ledgers of a window.  Neither [operator\[\]] nor
    [mismatch] indexes out of range on a ledger that is part of a history. *)

Definition res_default {A} (d : A) (x : res A) : A := match x with Ok a => a | _ => d end.

Definition RCL_ledger : LedgerType := {|
  Ledger := RCLValidatedLedger; ID := Z; ID_lt := Z.lt;
  MakeGenesis := RCL_MakeGenesis; seq := ledgerSeq_; ledger_ID := ledgerID_;
  ancestor_ID := λ l s, res_default 0 (RCL_ancestor l s);
  mismatch := λ a b, res_default 0 (RCL_mismatch a b);
|}.

Section window_laws.
Context (parent number : Z → Z) (base h0 : Z).
Context (Hbase : 1 ≤ base) (Hzero : number 0 = 0).

Abbreviation inside := (in_window parent number base h0).
Abbreviation hist := (hist_of parent).

Definition window_ledger : LedgerType := {|
  Ledger := sig inside; ID := Z; ID_lt := Z.lt;
  MakeGenesis := exist _ RCL_MakeGenesis (or_introl eq_refl);
  seq := λ l, ledgerSeq_ (`l); ledger_ID := λ l, ledgerID_ (`l);
  ancestor_ID := λ l s, res_default 0 (RCL_ancestor (`l) s);
  mismatch := λ a b, res_default 0 (RCL_mismatch (`a) (`b));
|}.

Lemma inside_zero l : inside l → res_default 0 (RCL_ancestor l 0) = 0.
Proof.
  intros [->|Hl]; [done|]. destruct (linked_minSeq _ _ _ _ l Hl) as [_ Hmin].
  unfold RCL_ancestor. by rewrite (proj2 (Z.leb_gt _ _)) by lia.
Qed.

Lemma inside_known l s :
  inside l → 1 ≤ s → base ≤ s → s ≤ ledgerSeq_ l →
  linked parent number base h0 l ∧ res_default 0 (RCL_ancestor l s) = hist l s ∧
  number (hist l s) = s.
Proof.
  intros [->|Hl] H1 Hb Hs; [simpl in Hs; lia|]. split; [done|].
  pose proof (linked_base _ _ _ _ l Hl).
  pose proof (linked_hist _ _ _ _ l s Hl ltac:(lia)) as Hh. rewrite Hh.
  split; [done|]. eapply (linked_number _ _ _ _ l Hl); [|done]. lia.
Qed.

Lemma known_cases s : known base s = true ↔ s = 0 ∨ base ≤ s.
Proof. unfold known. by rewrite orb_true_iff, Z.eqb_eq, Z.leb_le. Qed.

Lemma inside_agree a b s :
  inside a → inside b → known base s = true → 0 ≤ s → s ≤ ledgerSeq_ a → s ≤ ledgerSeq_ b →
  res_default 0 (RCL_ancestor a s) = res_default 0 (RCL_ancestor b s) ↔ hist a s = hist b s.
Proof using Hbase.
  intros Ha Hb [->|Hk]%known_cases H0 Hsa Hsb; [by rewrite !inside_zero|].
  destruct (inside_known a s) as (_ & -> & _); [done|lia..|].
  destruct (inside_known b s) as (_ & -> & _); [done|lia..|done].
Qed.

Lemma inside_base a b :
  inside a → inside b → base ≤ ledgerSeq_ a → base ≤ ledgerSeq_ b → hist a base = hist b base.
Proof using Hbase.
  intros Ha Hb Hsa Hsb.
  destruct (inside_known a base) as (La & Ea & _); [done|lia..|].
  destruct (inside_known b base) as (Lb & Eb & _); [done|lia..|].
  rewrite (linked_common _ _ _ _ _ La) in Ea. rewrite (linked_common _ _ _ _ _ Lb) in Eb.
  simpl in *. congruence.
Qed.

Lemma inside_mismatch a b :
  inside a → inside b →
  ∃ m, RCL_mismatch a b = Ok m ∧ 1 ≤ m ∧
    (∀ s, 0 ≤ s < m → s ≤ ledgerSeq_ a ∧ s ≤ ledgerSeq_ b ∧ hist a s = hist b s) ∧
    (m ≤ ledgerSeq_ a → m ≤ ledgerSeq_ b → base < m ∧ hist a m ≠ hist b m).
Proof using Hbase.
  intros Ha Hb.
  destruct (RCL_mismatch_sound a b (hist a) (hist b)) as (m & Hm & H1 & Hag & Hab & Hdis).
  { by eapply window_of_history. }
  { by eapply window_of_history. }
  { apply window_share. }
  exists m. split_and!; [done..|]. intros Hma Hmb.
  destruct Ha as [->|La]; [simpl in Hma; lia|]. destruct Hb as [->|Lb]; [simpl in Hmb; lia|].
  pose proof (linked_base _ _ _ _ _ La). pose proof (linked_base _ _ _ _ _ Lb).
  assert (base < m); [|split; [done|]; apply Hdis; lia].
  apply Hab; [lia..|]. apply inside_base; [by right|by right|lia..].
Qed.

(** Ledgers that know a common ancestor satisfy the laws of windows. *)
Lemma RCL_window_laws : WindowLaws (H := window_ledger) base.
Proof using Hbase Hzero.
  split; simpl.
  - lia.
  - intros [l Hl]. simpl. apply (oh_seq l (hist l)). by eapply window_of_history.
  - intros [l [->|Hl]]; [done|]. apply known_cases. right. apply (linked_base _ _ _ _ _ Hl).
  - done.
  - intros [l Hl]. by rewrite !inside_zero.
  - intros [l [->|Hl]]; [done|]. simpl. destruct (linked_base _ _ _ _ _ Hl).
    unfold RCL_ancestor. by rewrite (proj2 (Z.leb_le _ _)), Z.leb_refl, Z.eqb_refl by lia.
  - intros [a Ha] [b Hb] s s'. simpl.
    intros [->|Hk]%known_cases [->|Hk']%known_cases Hs Hs'; [done| | |].
    + rewrite inside_zero by done. destruct (inside_known b s') as (_ & -> & Hn); [done|lia..|].
      intros Heq. rewrite <- Heq in Hn. lia.
    + rewrite (inside_zero b) by done. destruct (inside_known a s) as (_ & -> & Hn); [done|lia..|].
      intros Heq. rewrite Heq in Hn. lia.
    + destruct (inside_known a s) as (_ & -> & Hn); [done|lia..|].
      destruct (inside_known b s') as (_ & -> & Hn'); [done|lia..|]. congruence.
  - intros [a Ha] [b Hb] Hsa Hsb. simpl in *. apply inside_agree; [done|done| |lia|done|done|].
    + apply known_cases. lia.
    + by apply inside_base.
  - intros [a Ha] [b Hb] s p Hp Hsa Hsb. simpl in *.
    rewrite !inside_agree by (done || lia || apply known_cases; lia).
    destruct (window_share parent a b) as [_ Hsh]. apply Hsh; lia.
  - intros [a Ha] [b Hb] s. simpl. destruct (inside_mismatch a b Ha Hb) as (m & -> & Hm & Hag & _).
    simpl. intros Hs. destruct (Hag s Hs) as (? & ? & ?). split_and!; [done..|].
    intros Hk. by apply inside_agree; [| | |lia| | |].
  - intros [a Ha] [b Hb]. simpl. destruct (inside_mismatch a b Ha Hb) as (m & -> & Hm & _ & Hd).
    simpl. split; [lia|].
    destruct (decide (ledgerSeq_ a < m)); [by left|]. destruct (decide (ledgerSeq_ b < m)); [by auto|].
    right. right. destruct Hd as [Hbm Hne]; [lia..|].
    assert (known base m = true) as Hk by (apply known_cases; lia). split; [done|].
    by rewrite inside_agree by (done || lia).
  - apply _.
  - intros x y. apply Z.lt_trichotomy.
Qed.
End window_laws.

(** ** Ledgers further apart than their windows *)

Lemma RCL_mismatch_apart a b ha hb :
  of_history a ha → of_history b hb →
  Z.min (ledgerSeq_ a) (ledgerSeq_ b) < Z.max (minSeq a) (minSeq b) → RCL_mismatch a b = Ok 1.
Proof.
  intros Ha Hb Hlt. pose proof (oh_seq a ha Ha). pose proof (oh_seq b hb Hb). unfold RCL_mismatch.
  destruct (mismatch_loop_spec a b ha hb (Z.to_nat (Z.min (ledgerSeq_ a) (ledgerSeq_ b))) Ha Hb)
    as (c & -> & Hc & _); [lia..|]. simpl. by rewrite (proj2 (Z.ltb_lt _ _)) by lia.
Qed.

Lemma RCL_mismatch_genesis a ha :
  of_history a ha → ha 0 = 0 → RCL_mismatch RCL_MakeGenesis a = Ok 1.
Proof.
  intros Ha H0. destruct (decide (minSeq a = 0)) as [Hz|Hz].
  - unfold RCL_mismatch. rewrite Hz, Z.min_l by (simpl; pose proof (oh_seq a ha Ha); lia). done.
  - apply (RCL_mismatch_apart _ _ (λ _, 0) ha); [by split; simpl; try lia|done|].
    pose proof (oh_seq a ha Ha). pose proof (minSeq_eq a ha Ha). pose proof (oh_len a ha Ha).
    simpl. lia.
Qed.

Lemma RCL_ancestor_self a ha : of_history a ha → RCL_ancestor a (ledgerSeq_ a) = Ok (ledgerID_ a).
Proof.
  intros Ha. rewrite (oh_id a ha Ha). apply (RCL_ancestor_known a ha); [done|].
  pose proof (minSeq_eq a ha Ha). lia.
Qed.

(** ** Validated ledgers in one window

    The ledgers of [demo_hist], of which each knows the ancestor 103 at
    sequence number 3. *)
Definition demo_number (x : Z) : Z := x mod 100.
Definition demo_parent (x : Z) : Z := if x mod 100 <=? 4 then 99 + x mod 100 else x - 1.

Lemma demo_hist_number b s : 1 ≤ s < 100 → demo_hist b s mod 100 = s.
Proof.
  intros Hs. unfold demo_hist. rewrite (proj2 (Z.leb_gt _ _)) by lia.
  destruct (s <=? 3).
  - symmetry. apply (Z.mod_unique _ _ 1); lia.
  - symmetry. apply (Z.mod_unique _ _ b); lia.
Qed.

Lemma demo_linked b q : 5 ≤ q ≤ 7 → linked demo_parent demo_number 3 103 (demo_rcl b q).
Proof.
  intros Hq. assert (of_history (demo_rcl b q) (demo_hist b)) as Ho by (apply demo_of_history; lia).
  assert (minSeq (demo_rcl b q) = q - 4) as Hmin by (rewrite (minSeq_eq _ _ Ho); simpl; lia).
  assert (∀ s, q - 4 ≤ s ≤ q → RCL_ancestor (demo_rcl b q) s = Ok (demo_hist b s)) as Hanc.
  { intros s Hs. apply (RCL_ancestor_known _ _ _ Ho). rewrite Hmin. simpl. lia. }
  split; rewrite ?Hmin; simpl (ledgerSeq_ _); [lia|simpl; lia|lia| | |].
  - rewrite Hanc by lia. done.
  - intros s x Hs. rewrite Hanc by lia. intros [= <-]. apply demo_hist_number. lia.
  - intros s x Hs. rewrite !Hanc by lia. intros [= <-]. f_equal.
    unfold demo_parent. rewrite demo_hist_number by lia. unfold demo_hist.
    rewrite !(proj2 (Z.leb_gt _ 0)) by lia.
    destruct (Z.leb_spec s 4), (Z.leb_spec s 3), (Z.leb_spec (s - 1) 3); lia.
Qed.

Definition demo_window : LedgerType := window_ledger demo_parent demo_number 3 103.

Definition demo_in (b q : Z) (Hq : 5 ≤ q ≤ 7) : @Ledger demo_window :=
  exist _ (demo_rcl b q) (or_intror (demo_linked b q Hq)).

Definition w25 : @Ledger demo_window := demo_in 2 5 ltac:(lia).
Definition w26 : @Ledger demo_window := demo_in 2 6 ltac:(lia).
Definition w27 : @Ledger demo_window := demo_in 2 7 ltac:(lia).
Definition w37 : @Ledger demo_window := demo_in 3 7 ltac:(lia).

Definition demo_window_laws : WindowLaws (H := demo_window) 3 :=
  RCL_window_laws demo_parent demo_number 3 103 ltac:(lia) eq_refl.

#[export] Instance Z_lt_trichotomy : Trichotomy Z.lt.
Proof. intros x y. apply Z.lt_trichotomy. Qed.

Definition demo_window_sort : PartialSort (H := demo_window) :=
  pick_sort (H := demo_window) (StrictOrder0 := Z.lt_strorder) (Trichotomy0 := Z_lt_trichotomy).
