(* ===== verification/LedgerTrieClaims.v ===== *)
(** * What the ledger trie guarantees

    The trie implements the interface [SupportTrie]; its theorems, each with
    an instance on a concrete history. *)
From S2P Require Import Prelude LedgerTrie LedgerSupport LedgerTrieInv LedgerTrieOps.
From S2P Require Import LedgerTriePreferred LedgerDemo LedgerWindow RCLLedger.

Section instance.
Context `{LedgerType} `{!LedgerLaws} `{!PartialSort}.

#[export] Instance LedgerTrie_support : SupportTrie := {
  Trie := LedgerTrie; new_trie := LedgerTrie_ctor;
  trie_insert := insert; trie_remove := remove;
  trie_tipSupport := tipSupport; trie_branchSupport := branchSupport;
  trie_getPreferred := getPreferred; trie_holds := supports;
}.

Lemma supports_perm t L L' : L ≡ₚ L' → supports t L → supports t L'.
Proof. intros Hp [Ht Hs]. split; [done|]. intros f Hf. rewrite Hs by done. by rewrite Hp. Qed.

Lemma supports_branch t L l :
  supports t L → branchSupport l t = branch_of L (seq l) (ledger_ID l).
Proof.
  intros [Ht Htot]. rewrite branchSupport_total by done. apply Htot, weight_desc, seq_range.
Qed.

#[export] Instance LedgerTrie_support_laws : SupportTrieLaws.
Proof.
  split; simpl.
  - apply supports_perm.
  - apply supports_new.
  - intros t L l Hs Hlen. destruct (insert_spec l 1 t L Hs) as (t' & Hi & Hs'); [lia..|]. eauto.
  - intros t L l Hs. destruct (remove_spec l 1 t (l :: L) Hs) as (t' & Hr & Hs'); [lia|].
    rewrite count_id_cons, decide_True in Hr by done. pose proof (count_id_nonneg (ledger_ID l) L).
    rewrite (proj2 (Z.eqb_neq _ _)) in Hr by lia. exists t'. split; [done|].
    simpl in Hs'. rewrite decide_True in Hs' by done. by destruct L.
  - intros t L l Hs. by apply supports_tip.
  - intros t L l Hs. by apply supports_branch.
  - intros t L li Hs. by apply getPreferred_spec.
Qed.

(** ** Runs of operations *)

Inductive trie_op :=
  | OpInsert (l : Ledger) (count : Z)
  | OpRemove (l : Ledger) (count : Z)
  | OpPreferred (largestIssued : Z).

Definition run_op (o : trie_op) (t : LedgerTrie) : res LedgerTrie :=
  match o with
  | OpInsert l c => insert l c t
  | OpRemove l c => '(_, t) ← remove l c t; mret t
  | OpPreferred li => '(_, t) ← getPreferred li t; mret t
  end.

Fixpoint run_ops (ops : list trie_op) (t : LedgerTrie) : res LedgerTrie :=
  match ops with
  | [] => mret t
  | o :: ops => t ← run_op o t; run_ops ops t
  end.

(** The same operations on the multiset. *)
Definition support_op (L : list Ledger) (o : trie_op) : list Ledger :=
  match o with
  | OpInsert l c => replicate (Z.to_nat c) l ++ L
  | OpRemove l c => remove_support (Z.to_nat c) (ledger_ID l) L
  | OpPreferred _ => L
  end.
Definition support_after (ops : list trie_op) : list Ledger := foldl support_op [] ops.

Definition op_ok (o : trie_op) : Prop :=
  match o with OpInsert _ c | OpRemove _ c => 0 < c | OpPreferred _ => True end.
Definition op_inserts (o : trie_op) : Z := match o with OpInsert _ c => c | _ => 0 end.
Definition inserted (ops : list trie_op) : Z := sumZ (op_inserts <$> ops).

Lemma remove_support_length c x L : (length (remove_support c x L) ≤ length L)%nat.
Proof.
  revert c. induction L as [|l L IH]; intros [|c]; simpl; try lia.
  case_decide; simpl; [specialize (IH c)|specialize (IH (S c))]; lia.
Qed.

Lemma run_op_supports o t L :
  supports t L → op_ok o → Z.of_nat (length L) + op_inserts o < 2 ^ 32 →
  ∃ t', run_op o t = Ok t' ∧ supports t' (support_op L o) ∧
    Z.of_nat (length (support_op L o)) ≤ Z.of_nat (length L) + op_inserts o.
Proof.
  intros Hs Ho Hlen. destruct o as [l c|l c|li]; simpl in *.
  - destruct (insert_spec l c t L Hs Ho Hlen) as (t' & Ht' & Hs'). exists t'.
    rewrite length_app, length_replicate. split_and!; [done..|lia].
  - destruct (remove_spec l c t L Hs Ho) as (t' & -> & Hs'). exists t'.
    pose proof (remove_support_length (Z.to_nat c) (ledger_ID l) L). split_and!; [done..|lia].
  - destruct (getPreferred_spec li t L Hs) as (r & t' & -> & Hs' & _). exists t'.
    split_and!; [done..|lia].
Qed.

Lemma inserted_nonneg ops : Forall op_ok ops → 0 ≤ inserted ops.
Proof.
  intros Hok. apply sumZ_nonneg, Forall_fmap. eapply Forall_impl; [done|]. intros []; simpl; lia.
Qed.

Lemma run_ops_supports ops t L :
  supports t L → Forall op_ok ops → Z.of_nat (length L) + inserted ops < 2 ^ 32 →
  ∃ t', run_ops ops t = Ok t' ∧ supports t' (foldl support_op L ops).
Proof.
  revert t L. induction ops as [|o ops IH]; intros t L Hs Hok Hlen; [by eauto|].
  apply Forall_cons in Hok as [Ho Hok]. pose proof (inserted_nonneg ops Hok) as Hnn.
  unfold inserted in *. rewrite fmap_cons, sumZ_cons in Hlen.
  destruct (run_op_supports o t L Hs Ho ltac:(lia)) as (t1 & Ht1 & Hs1 & Hl1).
  destruct (IH t1 (support_op L o) Hs1 Hok ltac:(lia)) as (t2 & Ht2 & Hs2).
  exists t2. simpl. rewrite Ht1. by split.
Qed.

Lemma run_new ops :
  Forall op_ok ops → inserted ops < 2 ^ 32 →
  ∃ t, run_ops ops LedgerTrie_ctor = Ok t ∧ supports t (support_after ops).
Proof. intros Hok Hlen. by apply (run_ops_supports ops LedgerTrie_ctor []); [apply supports_new| |]. Qed.

(** ** Properties *)

(** C3: the preferred ledger is the one the documentation describes.  On the
    trie reached by any sequence of operations, [getPreferred] returns a
    ledger exactly when there is support, and it is the end of the walk from
    the genesis ledger that goes, at each sequence number, to the successor
    whose support stays ahead of every rival's even if all uncommitted support
    went to the rival; that end is unique.  The ledgers are of a type with
    complete histories ([LedgerLaws]), which rippled's own ledgers with their
    256 ancestors are not. *)
Theorem preferred_is_reference (ops : list trie_op) (largestIssued : Z)
    (Hok : Forall op_ok ops) (Hcount : inserted ops < 2 ^ 32) :
  ∃ t r t', run_ops ops LedgerTrie_ctor = Ok t ∧
    getPreferred largestIssued t = Ok (r, t') ∧
    match r with
    | None => support_after ops = []
    | Some tip => support_after ops ≠ [] ∧ walk_ends (support_after ops) largestIssued tip ∧
        ∀ tip', walk_ends (support_after ops) largestIssued tip' →
          (tip_seq tip', tip_id tip') = (tip_seq tip, tip_id tip)
    end.
Proof.
  destruct (run_new ops Hok Hcount) as (t & Hrun & Hs).
  destruct (getPreferred_spec largestIssued t _ Hs) as (r & t' & Hp & _ & Hr).
  exists t, r, t'. split_and!; [done..|]. destruct r as [tip|]; [|done].
  destruct Hr as [Hne Hw]. split_and!; [done..|]. intros tip' Hw'.
  by destruct (walk_ends_unique _ _ _ _ Hw' Hw) as [-> ->].
Qed.

(** removal takes away exactly the support there is.  On the trie reached
    by any sequence of operations, [remove] reports success exactly when the
    ledger has tip support, and lowers the tip support of that ledger by the
    requested count or to zero, and that of no other ledger. *)
Theorem remove_exact (ops : list trie_op) (l : Ledger) (count : Z)
    (Hok : Forall op_ok ops) (Hcount : inserted ops < 2 ^ 32) (Hpos : 0 < count) :
  ∃ t b t', run_ops ops LedgerTrie_ctor = Ok t ∧ remove l count t = Ok (b, t') ∧
    (b = true ↔ 0 < tipSupport l t) ∧
    ∀ l', tipSupport l' t' = tipSupport l' t -
      (if decide (ledger_ID l' = ledger_ID l) then Z.min count (tipSupport l t) else 0).
Proof.
  destruct (run_new ops Hok Hcount) as (t & Hrun & Hs).
  destruct (remove_spec l count t _ Hs Hpos) as (t' & Hrem & Hs').
  pose proof (count_id_nonneg (ledger_ID l) (support_after ops)) as Hnn.
  eexists t, _, t'. split_and!; [done..| |].
  - rewrite (supports_tip t _ l Hs), negb_true_iff, Z.eqb_neq. lia.
  - intros l'. rewrite (supports_tip t' _ l' Hs'), (supports_tip t _ l Hs), (supports_tip t _ l' Hs).
    pose proof (sum_over_remove (is_id (ledger_ID l')) (Z.to_nat count) l (support_after ops)
      (weight_id _)) as Hsum. rewrite Z2Nat.id in Hsum by lia. fold (count_id (ledger_ID l')) in Hsum.
    unfold count_id at 1. rewrite Hsum. unfold count_id. unfold is_id at 2. simpl.
    repeat case_decide; try congruence; lia.
Qed.

(** The walk passes through every ancestor of its end. *)
Lemma reaches_passes L li p :
  reaches L li p → ∀ l s, 0 ≤ p.1 ≤ seq l → ancestor_ID l p.1 = p.2 → 0 ≤ s < p.1 →
  preferred_step L li (s, ancestor_ID l s) (s + 1, ancestor_ID l (s + 1)).
Proof.
  unfold reaches. intros Hr.
  apply (rtc_ind_r (R := preferred_step L li) (λ p, ∀ l s, 0 ≤ p.1 ≤ seq l →
    ancestor_ID l p.1 = p.2 → 0 ≤ s < p.1 → preferred_step L li (s, ancestor_ID l s)
      (s + 1, ancestor_ID l (s + 1))) (0, ancestor_ID MakeGenesis 0)); [| |done].
  - simpl. intros. lia.
  - clear p Hr. intros p q _ Hstep IH l s Hq Hl Hs.
    inversion Hstep as [s0 x y Hsucc Hu Hr]; subst; simpl in *.
    destruct Hsucc as (l0 & _ & Hle & Hx & Hy).
    assert (ancestor_ID l s0 = x) as Hlx.
    { destruct (decide (s0 < 0)); [lia|]. rewrite <- Hx. symmetry.
      eapply (unique_history _ _ (s0 + 1)); [lia|done|lia|congruence]. }
    destruct (decide (s = s0)) as [->|Hne]; [by rewrite Hlx, Hl|].
    apply IH; [lia|done|lia].
Qed.

Lemma preferred_step_facts L li s x y :
  preferred_step L li (s, x) (s + 1, y) →
  uncommitted_of L li (s + 1) < branch_of L (s + 1) y ∧
  (∀ z l, l ∈ L → s + 1 ≤ seq l → ancestor_ID l s = x → ancestor_ID l (s + 1) = z → z ≠ y →
     branch_of L (s + 1) z + uncommitted_of L li (s + 1) ≤ branch_of L (s + 1) y).
Proof.
  intros Hstep. inversion Hstep as [s0 x0 y0 Hsucc Hu Hriv]; subst.
  split; [done|]. intros z l Hl Hle Hx Hz Hne.
  destruct (Hriv z) as [|[? _]]; [|done|lia..]. by exists l.
Qed.

Lemma branch_of_app L L' s x : branch_of (L ++ L') s x = branch_of L s x + branch_of L' s x.
Proof. apply sum_over_app. Qed.

Lemma branch_of_le L s x : 0 ≤ branch_of L s x ≤ Z.of_nat (length L).
Proof.
  unfold branch_of. induction L as [|l L IH]; [done|]. rewrite sum_over_cons. cbn [length].
  assert (0 ≤ is_desc s x (tip_of l) ≤ 1) by (unfold is_desc; by case_match). lia.
Qed.

Lemma branch_of_zero L s x :
  0 ≤ s → ¬ (∃ l, l ∈ L ∧ s ≤ seq l ∧ ancestor_ID l s = x) → branch_of L s x = 0.
Proof.
  intros Hs Hno. destruct (branch_of_le L s x) as [Hle _].
  destruct (decide (branch_of L s x = 0)) as [|Hne]; [done|]. exfalso. apply Hno.
  destruct (sum_over_pos (is_desc s x) L) as (l & Hl & Hd); [apply is_desc_nonneg| |].
  - unfold branch_of in *. lia.
  - apply is_desc_pos in Hd. by exists l.
Qed.

Lemma uncommitted_ge C U li s :
  (∀ u, u ∈ U → seq u < s) → Z.of_nat (length U) ≤ uncommitted_of (C ++ U) li s.
Proof.
  intros HU. unfold uncommitted_of. rewrite sum_over_app.
  assert (0 ≤ sum_over (is_seq (λ q, q <? Z.max s li)) C).
  { apply sumZ_nonneg, Forall_fmap, Forall_true. intros l. simpl. unfold is_seq. by case_match. }
  assert (sum_over (is_seq (λ q, q <? Z.max s li)) U = Z.of_nat (length U)); [|lia].
  clear -HU. induction U as [|u U IH]; [done|]. rewrite sum_over_cons, IH by set_solver.
  unfold is_seq. simpl. rewrite (proj2 (Z.ltb_lt _ _)); [lia|].
  specialize (HU u ltac:(by left)). lia.
Qed.

(** the preferred branch cannot be overtaken by validators that have not
    voted yet.  Suppose [getPreferred] returns a ledger whose ancestor at
    some sequence number is [y], the supporters [U] have only validated
    earlier ledgers, and [t'] is the trie in which these supporters have moved
    to arbitrary ledgers [U'], the others being where they were.  Then no
    sibling [z] of [y] has more support than [y] in [t']. *)
Theorem preferred_not_overtaken (t t' t1 : LedgerTrie) (C U U' : list Ledger)
    (largestIssued : Z) (tip : SpanTip) (y z : Ledger)
    (Ht : supports t (C ++ U)) (Ht' : supports t' (C ++ U'))
    (Hlen : length U' = length U)
    (Hpref : getPreferred largestIssued t = Ok (Some tip, t1))
    (Hy : 0 < seq y ≤ tip_seq tip)
    (Hanc : ancestor_ID (tip_ledger tip) (seq y) = ledger_ID y)
    (Hsib : seq z = seq y) (Hpar : ancestor_ID z (seq y - 1) = ancestor_ID y (seq y - 1))
    (Hz : ledger_ID z ≠ ledger_ID y)
    (HU : ∀ u, u ∈ U → seq u < seq y) :
  branchSupport z t' ≤ branchSupport y t'.
Proof.
  destruct (getPreferred_spec largestIssued t _ Ht) as (r & t2 & Hp & _ & Hr).
  rewrite Hpref in Hp. injection Hp as <- <-. destruct Hr as (_ & [Htip Hid] & Hreach & _).
  pose proof (reaches_passes _ _ _ Hreach (tip_ledger tip) (seq y - 1)) as Hstep. simpl in Hstep.
  specialize (Hstep Htip (eq_sym Hid) ltac:(lia)).
  apply preferred_step_facts in Hstep as [Hu Hriv]. rewrite Z.sub_add, Hanc in Hu, Hriv.
  rewrite !(supports_branch t' _ _ Ht'), Hsib, !branch_of_app. rewrite branch_of_app in Hu.
  pose proof (uncommitted_ge C U largestIssued (seq y) HU) as Hunc.
  assert (∀ x, branch_of U (seq y) x = 0) as HU0.
  { intros x. apply branch_of_zero; [lia|]. intros (l & Hl & Hle & _). specialize (HU l Hl). lia. }
  pose proof (branch_of_le U' (seq y) (ledger_ID z)). pose proof (branch_of_le U' (seq y) (ledger_ID y)).
  pose proof (branch_of_le C (seq y) (ledger_ID z)). rewrite HU0 in Hu.
  destruct (decide (branch_of C (seq y) (ledger_ID z) = 0)) as [Hz0|Hz0]; [lia|].
  destruct (sum_over_pos (is_desc (seq y) (ledger_ID z)) C) as (l & Hl & Hd);
    [apply is_desc_nonneg|unfold branch_of in *; lia|].
  apply is_desc_pos in Hd as [Hle Heq]. simpl in *.
  assert (ancestor_ID l (seq y - 1) = ancestor_ID (tip_ledger tip) (seq y - 1)) as Hl1.
  { assert (ancestor_ID l (seq y) = ancestor_ID z (seq y)) as Hlz
      by (rewrite Heq, <- Hsib; symmetry; apply ancestor_self).
    rewrite (unique_history l z (seq y) (seq y - 1)), Hpar by (done || lia).
    eapply (unique_history _ _ (seq y)); [lia|lia|lia|]. by rewrite Hanc, ancestor_self. }
  specialize (Hriv (ledger_ID z) l ltac:(set_solver) Hle Hl1 Heq Hz).
  rewrite !branch_of_app, !HU0 in Hriv. lia.
Qed.
End instance.

(** ** Ledgers that know a window of their history *)

Section windows.
Context `{LedgerType} (base : Z) `{!WindowLaws base} `{!PartialSort}.

Lemma run_op_window o t L :
  window_supports base t L → op_ok o → Z.of_nat (length L) + op_inserts o < 2 ^ 32 →
  ∃ t', run_op o t = Ok t' ∧ window_supports base t' (support_op L o) ∧
    Z.of_nat (length (support_op L o)) ≤ Z.of_nat (length L) + op_inserts o.
Proof.
  intros Hs Ho Hlen. destruct o as [l c|l c|li]; simpl in *.
  - destruct (window_insert base l c t L Hs Ho Hlen) as (t' & Ht' & Hs'). exists t'.
    rewrite length_app, length_replicate. split_and!; [done..|lia].
  - destruct (window_remove base l c t L Hs Ho) as (t' & -> & Hs'). exists t'.
    pose proof (remove_support_length (Z.to_nat c) (ledger_ID l) L). split_and!; [done..|lia].
  - destruct (window_getPreferred base li t L Hs) as (r & t' & -> & Hs'). exists t'.
    split_and!; [done..|lia].
Qed.

Lemma run_ops_window ops t L :
  window_supports base t L → Forall op_ok ops → Z.of_nat (length L) + inserted ops < 2 ^ 32 →
  ∃ t', run_ops ops t = Ok t' ∧ window_supports base t' (foldl support_op L ops).
Proof.
  revert t L. induction ops as [|o ops IH]; intros t L Hs Hok Hlen; [by eauto|].
  apply Forall_cons in Hok as [Ho Hok]. pose proof (inserted_nonneg ops Hok) as Hnn.
  unfold inserted in *. rewrite fmap_cons, sumZ_cons in Hlen.
  destruct (run_op_window o t L Hs Ho ltac:(lia)) as (t1 & Ht1 & Hs1 & Hl1).
  destruct (IH t1 (support_op L o) Hs1 Hok ltac:(lia)) as (t2 & Ht2 & Hs2).
  exists t2. simpl. rewrite Ht1. by split.
Qed.

(** C2: a trie is the multiset of the ledgers inserted and not removed, when
    the ledgers know a common ancestor: at a sequence number [base] they all
    have the same ancestor, and from there on [operator\[\]] and [mismatch]
    are exact.  Any sequence of insertions, removals and preferred-ledger
    queries on a new trie then runs without violating an assertion, passes the
    trie's self-check, and the tip support of every ledger is its
    multiplicity, the branch support is the number of inserted ledgers that
    are it or descend from it, and the trie is empty exactly when the multiset
    is.  Complete histories ([complete_window]) are the case of [base] zero;
    rippled's own ledgers, which know 256 ancestors, are another
    ([RCL_window_laws]) as long as the common ancestor is one of them. *)
Theorem trie_is_multiset (ops : list trie_op)
    (Hok : Forall op_ok ops) (Hcount : inserted ops < 2 ^ 32) :
  ∃ t, run_ops ops LedgerTrie_ctor = Ok t ∧ checkInvariants t = Ok true ∧
    empty t = bool_decide (support_after ops = []) ∧
    ∀ l, tipSupport l t = count_id (ledger_ID l) (support_after ops) ∧
         branchSupport l t = branch_of (support_after ops) (seq l) (ledger_ID l).
Proof.
  destruct (run_ops_window ops LedgerTrie_ctor []) as (t & Hrun & Hs);
    [by apply window_new|done|done|].
  exists t. split; [done|]. by apply (window_queries base).
Qed.
End windows.

(** ** Ledgers further apart than their windows *)




(** ** The theorems on a concrete history *)

Definition demo_ops : list trie_op :=
  [ OpInsert hA 1; OpInsert hAB 1; OpInsert hACD 2; OpInsert hAC 1; OpPreferred 0;
    OpRemove hA 1 ].

Lemma demo_ops_ok : Forall op_ok demo_ops.
Proof. repeat constructor. Qed.

(** The trie after these operations, by evaluation. *)
Lemma demo_tip : ∃ t, run_ops demo_ops LedgerTrie_ctor = Ok t ∧ tipSupport hACD t = 2.
Proof.
  destruct (ok_test (run_ops demo_ops LedgerTrie_ctor) (λ t, tipSupport hACD t =? 2))
    as (t & Hrun & Ht); [vm_compute; reflexivity|].
  exists t. split; [done|]. by apply Z.eqb_eq.
Qed.

Definition window_ops : list (@trie_op demo_window) :=
  [ OpInsert (H := demo_window) w25 2; OpInsert (H := demo_window) w37 1;
    OpInsert (H := demo_window) w27 3; OpPreferred (H := demo_window) 0;
    OpRemove (H := demo_window) w27 1; OpInsert (H := demo_window) w26 1 ].

Lemma trie_is_multiset_witness :
  ∃ t, run_ops (H1 := demo_window_sort) window_ops LedgerTrie_ctor = Ok t ∧
    tipSupport w27 t = 2 ∧ branchSupport w26 t = 3 ∧ branchSupport w25 t = 5.
Proof.
  destruct (@trie_is_multiset demo_window 3 demo_window_laws demo_window_sort window_ops)
    as (t & Hrun & _ & _ & Hl).
  - repeat constructor.
  - reflexivity.
  - exists t. split; [exact Hrun|].
    rewrite (proj1 (Hl w27)), (proj2 (Hl w26)), (proj2 (Hl w25)).
    vm_compute. repeat split.
Defined.


(** The chain of the unit test [testLedgerTrieRCLValidatedLedger]: each ledger
    knows up to 256 ancestors. *)
Definition chain_ledger (s : nat) : @Ledger RCL_ledger :=
  let n := Nat.min 256 (s - 1) in
  mkRCL (1000 + Z.of_nat s) (Z.of_nat s) ((λ i, 1000 + Z.of_nat i) <$> List.seq (s - n) n).

Definition RCL_sort : PartialSort (H := RCL_ledger) :=
  pick_sort (H := RCL_ledger) (StrictOrder0 := Z.lt_strorder) (Trichotomy0 := Z_lt_trichotomy).

Definition chain_ops : list (@trie_op RCL_ledger) :=
  [ OpInsert (H := RCL_ledger) (chain_ledger 2) 1;
    OpInsert (H := RCL_ledger) (chain_ledger 258) 4;
    OpRemove (H := RCL_ledger) (chain_ledger 258) 3;
    OpInsert (H := RCL_ledger) (chain_ledger 259) 3;
    OpPreferred (H := RCL_ledger) 1;
    OpRemove (H := RCL_ledger) (chain_ledger 258) 1;
    OpInsert (H := RCL_ledger) (chain_ledger 259) 1;
    OpPreferred (H := RCL_ledger) 1 ].

(** The tip and branch supports of ledgers 2, 258 and 259 the test expects
    after the first two, the first five and all of its operations. *)
Example chain_test :
  (λ k, t ← run_ops (H1 := RCL_sort) (take k chain_ops) LedgerTrie_ctor;
        mret ((λ s, (tipSupport (chain_ledger s) t, branchSupport (chain_ledger s) t))
              <$> [2; 258; 259]%nat)) <$> [2; 5; 8]%nat
  = [ Ok [(1, 5); (4, 4); (0, 0)]; Ok [(1, 2); (1, 1); (3, 3)]; Ok [(1, 1); (0, 4); (4, 4)] ].
Proof. vm_compute. reflexivity. Qed.

Lemma preferred_is_reference_witness :
  ∃ t tip t', run_ops demo_ops LedgerTrie_ctor = Ok t ∧
    getPreferred 0 t = Ok (Some tip, t') ∧ walk_ends (support_after demo_ops) 0 tip.
Proof.
  destruct (preferred_is_reference demo_ops 0 demo_ops_ok eq_refl)
    as (t & r & t' & Hrun & Hpref & Hr).
  assert (length (support_after demo_ops) = 4%nat) as Hlen by (vm_compute; reflexivity).
  destruct r as [tip|]; [|rewrite Hr in Hlen; discriminate Hlen].
  exists t, tip, t'. exact (conj Hrun (conj Hpref (proj1 (proj2 Hr)))).
Defined.

Lemma remove_exact_witness :
  ∃ t t', run_ops demo_ops LedgerTrie_ctor = Ok t ∧ remove hACD 5 t = Ok (true, t') ∧
    tipSupport hACD t' = 0.
Proof.
  destruct demo_tip as (t0 & Hrun0 & Htip).
  destruct (remove_exact demo_ops hACD 5 demo_ops_ok eq_refl eq_refl)
    as (t & b & t' & Hrun & Hrem & Hb & Hall).
  assert (t = t0) as -> by congruence. exists t0, t'. split; [exact Hrun|].
  rewrite (Hall hACD), Htip. split; [|reflexivity].
  rewrite Htip in Hb. rewrite Hrem, (proj2 Hb); reflexivity.
Defined.

Lemma demo_preferred :
  ∃ t tip t1, run_ops [OpInsert hA 1; OpInsert hACD 2] LedgerTrie_ctor = Ok t ∧
    getPreferred 0 t = Ok (Some tip, t1) ∧ tip_seq tip = 3 ∧
    ancestor_ID (tip_ledger tip) (seq hAC) = ledger_ID hAC.
Proof.
  destruct (ok_test (t ← run_ops [OpInsert hA 1; OpInsert hACD 2] LedgerTrie_ctor;
                     '(r, t1) ← getPreferred 0 t; mret (t, r, t1))
    (λ x, match x.1.2 with
          | Some tip => (tip_seq tip =? 3) &&
              bool_decide (ancestor_ID (tip_ledger tip) (seq hAC) = ledger_ID hAC)
          | None => false end)) as ([[t r] t1] & Hrun & Ht); [vm_compute; reflexivity|].
  destruct (run_ops _ _) as [t0| |]; [|done..]. simpl in Hrun.
  destruct (getPreferred 0 t0) as [[r0 t2]| |] eqn:Hp; [|done..]. injection Hrun as -> -> ->.
  simpl in Ht. destruct r as [tip|]; [|done]. apply andb_true_iff in Ht as [H1%Z.eqb_eq H2].
  apply bool_decide_eq_true in H2. by exists t, tip, t1.
Qed.

Lemma preferred_not_overtaken_witness :
  ∃ t t', supports t [hACD; hACD; hA] ∧ supports t' [hACD; hACD; hAB] ∧
    branchSupport hAB t' ≤ branchSupport hAC t'.
Proof.
  destruct (run_new [OpInsert hA 1; OpInsert hACD 2]) as (t & Hrun & Ht);
    [repeat constructor|reflexivity|].
  destruct (run_new [OpInsert hAB 1; OpInsert hACD 2]) as (t' & Hrun' & Ht');
    [repeat constructor|reflexivity|].
  exists t, t'. split; [exact Ht|]. split; [exact Ht'|].
  destruct demo_preferred as (t0 & tip & t1 & Hrun0 & Hpref & Hseq & Hanc).
  assert (t = t0) as -> by congruence.
  apply (preferred_not_overtaken t0 t' t1 [hACD; hACD] [hA] [hAB] 0 tip hAC hAB Ht Ht' eq_refl Hpref).
  - rewrite Hseq. split; [reflexivity|discriminate].
  - exact Hanc.
  - reflexivity.
  - reflexivity.
  - discriminate.
  - intros u Hu. apply list_elem_of_singleton in Hu. rewrite Hu. reflexivity.
Defined.
