(* ===== verification/Validations.v ===== *)
(** * Validations ([consensus/Validations.h])

    The store of the validations received from other nodes, which keeps the
    trie of ledger ancestry in step with the last ledger each trusted node
    validated.  The trie is used through its interface [SupportTrie].  The
    mutex is not modelled: every public function holds it throughout.  What
    the adaptor and the clocks answer during one public call is the record
    [VEnv]. *)
From S2P Require Import Prelude LedgerTrie LedgerSupport.

(** ** Parameters and sequence numbers *)

(** Durations in seconds. *)
Record ValidationParms := mkVParms {
  validationCURRENT_WALL : Z;
  validationCURRENT_LOCAL : Z;
  validationCURRENT_EARLY : Z;
  validationSET_EXPIRES : Z;
  validationFRESHNESS : Z;
}.

Definition default_vparms : ValidationParms := {|
  validationCURRENT_WALL := 5 * 60;
  validationCURRENT_LOCAL := 3 * 60;
  validationCURRENT_EARLY := 3 * 60;
  validationSET_EXPIRES := 10 * 60;
  validationFRESHNESS := 20;
|}.

(** The steady clock counts nanoseconds. *)
Definition nanos (seconds : Z) : Z := seconds * 1000000000.

Record SeqEnforcer := mkEnforcer { seq_ : Z; when_ : Z }.
Definition SeqEnforcer_ctor : SeqEnforcer := mkEnforcer 0 0.

(** [operator()] *)
Definition enforce (now s : Z) (p : ValidationParms) (e : SeqEnforcer) : bool * SeqEnforcer :=
  let e := if nanos (validationSET_EXPIRES p) + when_ e <? now
           then mkEnforcer 0 (when_ e) else e in
  if s <=? seq_ e then (false, e) else (true, mkEnforcer s now).

Definition largest (e : SeqEnforcer) : Z := seq_ e.

(** Network times are 32 bits wide, but the sums and differences with the
    64-bit durations are computed in 64 bits, and do not wrap around. *)
Definition isCurrent (p : ValidationParms) (now signTime seenTime : Z) : bool :=
  (now - validationCURRENT_EARLY p <? signTime) &&
  (signTime <? now + validationCURRENT_WALL p) &&
  ((seenTime =? 0) || (seenTime <? now + validationCURRENT_LOCAL p)).

Inductive ValStatus := current_status | stale | badSeq | multiple | conflicting.

#[export] Instance ValStatus_eq_dec : EqDecision ValStatus.
Proof. solve_decision. Defined.

(** ** The state *)

(** What the class asks of the node identifiers and keys. *)
Class NodeTypes `{LedgerType} := {
  NodeID : Type;
  #[global] NodeID_eq_dec :: EqDecision NodeID;
  #[global] NodeID_countable :: Countable NodeID;
  #[global] NodeID_order :: HashOrder NodeID;
  NodeKey : Type;
  #[global] NodeKey_eq_dec :: EqDecision NodeKey;
  #[global] NodeKey_countable :: Countable NodeKey;
  #[global] ID_countable :: Countable ID;
  #[global] ID_order :: HashOrder ID;
  #[global] SeqID_order :: HashOrder (Z * ID);
}.

Section validations.
Context `{NodeTypes} `{!SupportTrie}.

Record Validation := mkValidation {
  ledgerID : ID;
  val_seq : Z;
  signTime : Z;
  seenTime : Z;
  val_key : NodeKey;
  trusted : bool;
  full : bool;
  loadFee : option Z;
  cookie : Z;
}.

Definition set_trusted (b : bool) (v : Validation) : Validation :=
  mkValidation (ledgerID v) (val_seq v) (signTime v) (seenTime v) (val_key v) b (full v)
    (loadFee v) (cookie v).

(** An aged container: each entry with the time it was last touched. *)
Abbreviation aged K V := (gmap K (Z * V)).

Record Validations := mkValidations {
  current_ : gmap NodeID Validation;
  localSeqEnforcer_ : SeqEnforcer;
  seqEnforcers_ : gmap NodeID SeqEnforcer;
  byLedger_ : aged ID (gmap NodeID Validation);
  bySequence_ : aged Z (gmap NodeID Validation);
  toKeep_ : option Z;
  trie_ : Trie;
  lastLedger_ : gmap NodeID Ledger;
  acquiring_ : gmap (Z * ID) (gset NodeID);
}.

Definition Validations_ctor : Validations :=
  mkValidations ∅ SeqEnforcer_ctor ∅ ∅ ∅ None new_trie ∅ ∅.

Definition set_current_ v s := mkValidations v (localSeqEnforcer_ s) (seqEnforcers_ s)
  (byLedger_ s) (bySequence_ s) (toKeep_ s) (trie_ s) (lastLedger_ s) (acquiring_ s).
Definition set_localSeqEnforcer_ v s := mkValidations (current_ s) v (seqEnforcers_ s)
  (byLedger_ s) (bySequence_ s) (toKeep_ s) (trie_ s) (lastLedger_ s) (acquiring_ s).
Definition set_seqEnforcers_ v s := mkValidations (current_ s) (localSeqEnforcer_ s) v
  (byLedger_ s) (bySequence_ s) (toKeep_ s) (trie_ s) (lastLedger_ s) (acquiring_ s).
Definition set_byLedger_ v s := mkValidations (current_ s) (localSeqEnforcer_ s)
  (seqEnforcers_ s) v (bySequence_ s) (toKeep_ s) (trie_ s) (lastLedger_ s) (acquiring_ s).
Definition set_bySequence_ v s := mkValidations (current_ s) (localSeqEnforcer_ s)
  (seqEnforcers_ s) (byLedger_ s) v (toKeep_ s) (trie_ s) (lastLedger_ s) (acquiring_ s).
Definition set_toKeep_ v s := mkValidations (current_ s) (localSeqEnforcer_ s)
  (seqEnforcers_ s) (byLedger_ s) (bySequence_ s) v (trie_ s) (lastLedger_ s) (acquiring_ s).
Definition set_trie_ v s := mkValidations (current_ s) (localSeqEnforcer_ s)
  (seqEnforcers_ s) (byLedger_ s) (bySequence_ s) (toKeep_ s) v (lastLedger_ s) (acquiring_ s).
Definition set_lastLedger_ v s := mkValidations (current_ s) (localSeqEnforcer_ s)
  (seqEnforcers_ s) (byLedger_ s) (bySequence_ s) (toKeep_ s) (trie_ s) v (acquiring_ s).
Definition set_acquiring_ v s := mkValidations (current_ s) (localSeqEnforcer_ s)
  (seqEnforcers_ s) (byLedger_ s) (bySequence_ s) (toKeep_ s) (trie_ s) (lastLedger_ s) v.

Record VEnv := mkVEnv {
  adaptor_now : Z;
  steady_now : Z;
  acquire : ID → option Ledger;
  vparms : ValidationParms;
}.

Definition VM : Type → Type := M Validations Empty_set.

Section with_env.
Context (env : VEnv).

(** ** Keeping the trie in step *)

(** Take a node off the waiting list of a ledger being acquired. *)
Definition eraseAcquiring (key : Z * ID) (nodeID : NodeID) : VM unit :=
  s ← get;
  match acquiring_ s !! key with
  | Some nodes =>
      let nodes := nodes ∖ {[nodeID]} in
      modify (set_acquiring_ (if decide (nodes = ∅) then delete key (acquiring_ s)
                              else <[key := nodes]> (acquiring_ s)))
  | None => mret tt
  end.

Definition removeTrie (nodeID : NodeID) (val : Validation) : VM unit :=
  _ ← eraseAcquiring (val_seq val, ledgerID val) nodeID;
  s ← get;
  match lastLedger_ s !! nodeID with
  | Some l =>
      if decide (ledger_ID l = ledgerID val) then
        '(_, t) ← lift (trie_remove l 1 (trie_ s));
        _ ← modify (set_trie_ t);
        modify (set_lastLedger_ (delete nodeID (lastLedger_ s)))
      else mret tt
  | None => mret tt
  end.

(** [updateTrie(lock, nodeID, ledger)] *)
Definition updateTrieLedger (nodeID : NodeID) (ledger : Ledger) : VM unit :=
  s ← get;
  _ ← match lastLedger_ s !! nodeID with
      | Some old => '(_, t) ← lift (trie_remove old 1 (trie_ s)); modify (set_trie_ t)
      | None => mret tt
      end;
  _ ← modify (set_lastLedger_ (<[nodeID := ledger]> (lastLedger_ s)));
  s ← get;
  t ← lift (trie_insert ledger 1 (trie_ s));
  modify (set_trie_ t).

Definition checkAcquired : VM unit :=
  s ← get;
  for_each (hash_elems (acquiring_ s)) (λ '(key, nodes),
    match acquire env key.2 with
    | Some ledger =>
        _ ← for_each (hash_set_elems nodes) (λ nodeID, updateTrieLedger nodeID ledger);
        modify (λ s, set_acquiring_ (delete key (acquiring_ s)) s)
    | None => mret tt
    end).

(** [updateTrie(lock, nodeID, val, prior)] *)
Definition updateTrie (nodeID : NodeID) (val : Validation) (prior : option (Z * ID)) : VM unit :=
  _ ← massert (trusted val) "val.trusted()";
  _ ← match prior with Some key => eraseAcquiring key nodeID | None => mret tt end;
  _ ← checkAcquired;
  s ← get;
  let valPair := (val_seq val, ledgerID val) in
  match acquiring_ s !! valPair with
  | Some nodes => modify (set_acquiring_ (<[valPair := {[nodeID]} ∪ nodes]> (acquiring_ s)))
  | None =>
      match acquire env (ledgerID val) with
      | Some ledger => updateTrieLedger nodeID ledger
      | None => modify (set_acquiring_ (<[valPair := {[nodeID]}]> (acquiring_ s)))
      end
  end.

(** [current]: drops what is stale, and returns the validations it calls its
    argument on. *)
Definition current : VM (list (NodeID * Validation)) :=
  s ← get;
  let t := adaptor_now env in
  let live := λ v, isCurrent (vparms env) t (signTime v) (seenTime v) in
  let all := hash_elems (current_ s) in
  _ ← for_each all (λ '(nodeID, v),
        if live v then mret tt
        else
          _ ← removeTrie nodeID v;
          modify (λ s, set_current_ (delete nodeID (current_ s)) s));
  mret (filter (λ nv : NodeID * Validation, live nv.2 = true) all).

(** [withTrie], up to the call of its argument. *)
Definition withTrie : VM Trie :=
  _ ← current;
  _ ← checkAcquired;
  gets trie_.

(** [byLedger]: the validations of a ledger, whose entry is touched. *)
Definition byLedger (x : ID) : VM (list (NodeID * Validation)) :=
  s ← get;
  match byLedger_ s !! x with
  | Some (_, vals) =>
      _ ← modify (set_byLedger_ (<[x := (steady_now env, vals)]> (byLedger_ s)));
      mret (hash_elems vals)
  | None => mret []
  end.

(** ** Public functions *)

Definition canValidateSeq (s : Z) : VM bool :=
  st ← get;
  let '(b, e) := enforce (steady_now env) s (vparms env) (localSeqEnforcer_ st) in
  _ ← modify (set_localSeqEnforcer_ e);
  mret b.

(** [m\[k\]] of an aged container. *)
Definition aged_get {K V} `{Countable K} (dflt : V) (k : K) (m : aged K V) : Z * V :=
  default (steady_now env, dflt) (m !! k).

(** The entry of [bySequence_] for this validation, and the update of it. *)
Definition trackSequence (nodeID : NodeID) (val : Validation) : VM Validation :=
  s ← get;
  let '(w, vals) := aged_get ∅ (val_seq val) (bySequence_ s) in
  let tracked :=
    match vals !! nodeID with
    | None => val
    | Some old =>
        let diff := Z.max (signTime old) (signTime val) - Z.min (signTime old) (signTime val) in
        if (validationCURRENT_WALL (vparms env) <? diff) && (signTime old <? signTime val)
        then val else old
    end in
  _ ← modify (set_bySequence_ (<[val_seq val := (w, <[nodeID := tracked]> vals)]> (bySequence_ s)));
  mret tracked.

Definition add (nodeID : NodeID) (val : Validation) : VM ValStatus :=
  if negb (isCurrent (vparms env) (adaptor_now env) (signTime val) (seenTime val))
  then mret stale
  else
    seqit ← trackSequence nodeID val;
    s ← get;
    let enf := default SeqEnforcer_ctor (seqEnforcers_ s !! nodeID) in
    let '(ok, enf) := enforce (steady_now env) (val_seq val) (vparms env) enf in
    _ ← modify (set_seqEnforcers_ (<[nodeID := enf]> (seqEnforcers_ s)));
    if negb ok then
      mret (if val_seq seqit =? val_seq val then
              if decide (ledgerID seqit ≠ ledgerID val) then conflicting
              else if negb (cookie seqit =? cookie val) then multiple
              else badSeq
            else badSeq)
    else
      let '(w, vals) := aged_get ∅ (ledgerID val) (byLedger_ s) in
      _ ← modify (λ s, set_byLedger_ (<[ledgerID val := (w, <[nodeID := val]> vals)]> (byLedger_ s)) s);
      match current_ s !! nodeID with
      | Some oldVal =>
          if signTime oldVal <? signTime val then
            _ ← modify (λ s, set_current_ (<[nodeID := val]> (current_ s)) s);
            _ ← when (trusted val)
                  (updateTrie nodeID val (Some (val_seq oldVal, ledgerID oldVal)));
            mret current_status
          else mret stale
      | None =>
          _ ← modify (λ s, set_current_ (<[nodeID := val]> (current_ s)) s);
          _ ← when (trusted val) (updateTrie nodeID val None);
          mret current_status
      end.

Definition setSeqToKeep (s : Z) : VM unit := modify (set_toKeep_ (Some s)).

(** [beast::expire]: the entries not touched for [age] seconds; the steady
    clock does not go back, so they are the oldest of the container. *)
Definition aged_expire {K V} `{Countable K} (age : Z) (m : aged K V) : aged K V :=
  filter (λ kv : K * (Z * V), steady_now env - nanos age < kv.2.1) m.

Definition aged_touch {K V} `{Countable K} (keep : K → V → bool) (m : aged K V) : aged K V :=
  map_imap (λ k wv, Some (if keep k wv.2 then (steady_now env, wv.2) else wv)) m.

Definition expire : VM unit :=
  s ← get;
  _ ← match toKeep_ s with
      | Some k =>
          _ ← modify (set_byLedger_ (aged_touch
                (λ _ vals, match hash_elems vals with
                           | (_, v) :: _ => k <=? val_seq v
                           | [] => false
                           end) (byLedger_ s)));
          modify (λ s, set_bySequence_ (aged_touch (λ q _, k <=? q) (bySequence_ s)) s)
      | None => mret tt
      end;
  modify (λ s, set_bySequence_ (aged_expire (validationSET_EXPIRES (vparms env)) (bySequence_ s))
    (set_byLedger_ (aged_expire (validationSET_EXPIRES (vparms env)) (byLedger_ s)) s)).

Definition trustChanged (added removed : gset NodeID) : VM unit :=
  s ← get;
  _ ← for_each (hash_elems (current_ s)) (λ '(nodeId, v),
        if decide (nodeId ∈ added) then
          let v := set_trusted true v in
          _ ← modify (λ s, set_current_ (<[nodeId := v]> (current_ s)) s);
          updateTrie nodeId v None
        else if decide (nodeId ∈ removed) then
          let v := set_trusted false v in
          _ ← modify (λ s, set_current_ (<[nodeId := v]> (current_ s)) s);
          removeTrie nodeId v
        else mret tt);
  modify (λ s, set_byLedger_
    ((λ wv : Z * gmap NodeID Validation,
        (wv.1, map_imap (λ n v, Some (if decide (n ∈ added) then set_trusted true v
                                      else if decide (n ∈ removed) then set_trusted false v
                                      else v)) wv.2)) <$> byLedger_ s) s).

(** The order of the fallback over the ledgers being acquired. *)
Definition acquiring_lt (a b : Z * ID * gset NodeID) : bool :=
  (size a.2 <? size b.2)%nat ||
  ((size a.2 =? size b.2)%nat && bool_decide (ID_lt a.1.2 b.1.2)).

(** Whether the preferred ledger is a child of the current one. *)
Definition parentOf (curr : Ledger) (preferred : SpanTip) : VM bool :=
  if tip_seq preferred =? u32 (seq curr + 1) then
    a ← lift (tip_ancestor preferred (seq curr)); mret (bool_decide (a = ledger_ID curr))
  else mret false.

Definition getPreferred (curr : Ledger) : VM (option (Z * ID)) :=
  _ ← withTrie;
  s ← get;
  '(preferred, t) ← lift (trie_getPreferred (largest (localSeqEnforcer_ s)) (trie_ s));
  _ ← modify (set_trie_ t);
  match preferred with
  | None => mret (fst <$> max_element acquiring_lt (hash_elems (acquiring_ s)))
  | Some p =>
      isParent ← parentOf curr p;
      mret (Some
        (if (isParent : bool) then (seq curr, ledger_ID curr)
         else if seq curr <? tip_seq p then (tip_seq p, tip_id p)
         else if decide (ancestor_ID curr (tip_seq p) ≠ tip_id p) then (tip_seq p, tip_id p)
         else (seq curr, ledger_ID curr)))
  end.

Definition getPreferredMin (curr : Ledger) (minValidSeq : Z) : VM ID :=
  preferred ← getPreferred curr;
  mret match preferred with
       | Some (q, x) => if minValidSeq <=? q then x else ledger_ID curr
       | None => ledger_ID curr
       end.

Definition peer_lt (a b : ID * Z) : bool :=
  (a.2 <? b.2) || ((a.2 =? b.2) && bool_decide (ID_lt a.1 b.1)).

Definition getPreferredLCL (lcl : Ledger) (minSeq : Z) (peerCounts : gmap ID Z) : VM ID :=
  preferred ← getPreferred lcl;
  mret match preferred with
       | Some (q, x) => if minSeq <=? q then x else ledger_ID lcl
       | None => match max_element peer_lt (hash_elems peerCounts) with
                 | Some (x, _) => x
                 | None => ledger_ID lcl
                 end
       end.

Definition getNodesAfter (ledger : Ledger) (x : ID) : VM Z :=
  if decide (ledger_ID ledger = x) then
    t ← withTrie; mret (u32 (trie_branchSupport ledger t - trie_tipSupport ledger t))
  else
    s ← get;
    mret (Z.of_nat (length (filter (λ nl : NodeID * Ledger,
            0 < seq nl.2 ∧ ancestor_ID nl.2 (seq nl.2 - 1) = x) (hash_elems (lastLedger_ s))))).

Definition currentTrusted : VM (list Validation) :=
  vals ← current;
  mret (snd <$> filter (λ nv : NodeID * Validation, trusted nv.2 && full nv.2 = true) vals).

Definition getCurrentNodeIDs : VM (gset NodeID) :=
  vals ← current; mret (list_to_set vals.*1).

Definition trustedForLedger (x : ID) : VM (list Validation) :=
  vals ← byLedger x;
  mret (snd <$> filter (λ nv : NodeID * Validation, trusted nv.2 && full nv.2 = true) vals).

Definition numTrustedForLedger (x : ID) : VM Z :=
  vals ← trustedForLedger x; mret (Z.of_nat (length vals)).

Definition getTrustedForLedger (x : ID) : VM (list Validation) := trustedForLedger x.

Definition fees (x : ID) (baseFee : Z) : VM (list Z) :=
  vals ← trustedForLedger x; mret ((λ v, default baseFee (loadFee v)) <$> vals).

Definition flush : VM unit := modify (set_current_ ∅).

(** The laggards, and the keys left over. *)
Definition laggardStep (q : Z) (acc : Z * gset NodeKey) (nv : NodeID * Validation) :
    Z * gset NodeKey :=
  let '(laggards, keys) := acc in
  let v := nv.2 in
  if (adaptor_now env <? seenTime v + validationFRESHNESS (vparms env)) &&
     bool_decide (val_key v ∈ keys)
  then (if val_seq v <? q then laggards + 1 else laggards, keys ∖ {[val_key v]})
  else acc.

Definition laggards (q : Z) (trustedKeys : gset NodeKey) : VM (Z * gset NodeKey) :=
  vals ← current; mret (foldl (laggardStep q) (0, trustedKeys) vals).

End with_env.
End validations.
