(* ===== verification/ValidationsInv.v ===== *)
(** * Invariant of the validations store

    The trie always stands for the last ledgers of the nodes, and no
    assertion is violated. *)
From S2P Require Import Prelude LedgerTrie LedgerSupport Validations.

Section validations_inv.
Context `{NodeTypes} `{!SupportTrie} `{!SupportTrieLaws} `{!LedgerLaws}.

(** The validators there are. *)
Context (nodes : gset NodeID) (Hsize : Z.of_nat (size nodes) + 1 < 2 ^ 32).

(** The multiset of the last ledgers. *)
Definition last_ledgers (s : Validations) : list Ledger := (map_to_list (lastLedger_ s)).*2.

Record vinv (s : Validations) : Prop := {
  vi_trie : trie_holds (trie_ s) (last_ledgers s);
  vi_last : dom (lastLedger_ s) ⊆ nodes;
  vi_acquiring key X : acquiring_ s !! key = Some X → X ⊆ nodes ∧ X ≠ ∅;
  vi_current : dom (current_ s) ⊆ nodes;
}.

(** Operations on the trie change nothing else. *)
Definition vframe (s s' : Validations) : Prop :=
  current_ s' = current_ s ∧ localSeqEnforcer_ s' = localSeqEnforcer_ s ∧
  seqEnforcers_ s' = seqEnforcers_ s ∧ byLedger_ s' = byLedger_ s ∧
  bySequence_ s' = bySequence_ s ∧ toKeep_ s' = toKeep_ s.

#[export] Instance vframe_refl : Reflexive vframe.
Proof. by intros s. Qed.

#[export] Instance vframe_trans : Transitive vframe.
Proof.
  intros a b c (?&?&?&?&?&?) (?&?&?&?&?&?). repeat split; congruence.
Qed.

Definition vpost (s : Validations) {A} (_ : A) (s' : Validations) (_ : list Empty_set) : Prop :=
  vinv s' ∧ vframe s s'.

Lemma vinv_ext s s' :
  vinv s → trie_ s' = trie_ s → lastLedger_ s' = lastLedger_ s →
  acquiring_ s' = acquiring_ s → dom (current_ s') ⊆ nodes → vinv s'.
Proof.
  intros [Vt Vl Va Vc] Ht Hl Ha Hc. split; [|by rewrite Hl|by rewrite Ha|done].
  unfold last_ledgers. by rewrite Ht, Hl.
Qed.

Lemma eraseAcquiring_wp tot key n s : vinv s → wp tot (eraseAcquiring key n) (vpost s) s.
Proof.
  intros Hinv. unfold eraseAcquiring. wp_step. wp_step.
  destruct (acquiring_ s !! key) as [X|] eqn:HX; [|by wp_step].
  wp_step. split; [|done]. destruct Hinv as [Vt Vl Va Vc]. split; [done|done| |done].
  intros k Y. simpl. case_decide as He.
  - rewrite lookup_delete_Some. intros [_ HY]. by apply (Va k).
  - rewrite lookup_insert_Some. intros [[<- <-]|[_ HY]]; [|by apply (Va k)].
    destruct (Va _ _ HX). split; [set_solver|done].
Qed.

Lemma last_ledgers_delete s n l :
  lastLedger_ s !! n = Some l →
  last_ledgers s ≡ₚ l :: (map_to_list (delete n (lastLedger_ s))).*2.
Proof.
  intros Hn. unfold last_ledgers. rewrite <- (map_to_list_delete (lastLedger_ s) n l Hn). done.
Qed.

Lemma removeTrie_wp tot n v s : vinv s → wp tot (removeTrie n v) (vpost s) s.
Proof.
  intros Hinv. unfold removeTrie. wp_step.
  eapply wp_mono; [by apply eraseAcquiring_wp|]. intros ? s1 w1 [Hinv1 Hf1]. wp_step. wp_step.
  destruct (lastLedger_ s1 !! n) as [l|] eqn:Hl; [|by wp_step].
  case_decide; [|by wp_step]. destruct Hinv1 as [Vt Vl Va Vc].
  destruct (holds_remove (trie_ s1) ((map_to_list (delete n (lastLedger_ s1))).*2) l)
    as (t & Ht & Hholds).
  { eapply holds_perm; [by apply last_ledgers_delete|done]. }
  wp_step. eapply wp_lift; [done|]. cbv beta iota. wp_steps. split; [|done].
  split; [done| |done|done]. simpl. rewrite dom_delete. set_solver.
Qed.

Lemma length_last_ledgers m :
  dom m ⊆ nodes → Z.of_nat (length (map_to_list (m : gmap NodeID Ledger)).*2) + 1 < 2 ^ 32.
Proof.
  intros Hm. rewrite length_fmap, length_map_to_list, <- size_dom.
  pose proof (subseteq_size _ _ Hm). lia.
Qed.

Lemma updateTrieLedger_wp tot n l s :
  vinv s → n ∈ nodes → wp tot (updateTrieLedger n l) (vpost s) s.
Proof.
  intros [Vt Vl Va Vc] Hn. unfold updateTrieLedger. wp_step. wp_step. wp_step.
  eapply (wp_mono _ _ (λ _ s1 _, ∃ t, s1 = set_trie_ t s ∧
    trie_holds t (map_to_list (delete n (lastLedger_ s))).*2)).
  { destruct (lastLedger_ s !! n) as [old|] eqn:Hold.
    - destruct (holds_remove (trie_ s) ((map_to_list (delete n (lastLedger_ s))).*2) old)
        as (t & Ht & Hholds).
      { eapply holds_perm; [by apply last_ledgers_delete|done]. }
      wp_step. eapply wp_lift; [done|]. cbv beta iota. wp_step. by exists t.
    - wp_step. exists (trie_ s). split; [by destruct s|]. by rewrite delete_id. }
  intros ? s1 w1 (t & -> & Hholds). wp_steps. simpl.
  destruct (holds_insert t (map_to_list (delete n (lastLedger_ s))).*2 l Hholds)
    as (t' & Ht' & Hholds').
  { apply length_last_ledgers. rewrite dom_delete. set_solver. }
  eapply wp_lift; [done|]. wp_step. split; [|done]. split; simpl; [|set_solver|done|done].
  eapply holds_perm; [|done]. unfold last_ledgers. simpl.
  rewrite <- insert_delete_eq, map_to_list_insert by apply lookup_delete_eq. done.
Qed.

Lemma checkAcquired_wp tot env s : vinv s → wp tot (checkAcquired env) (vpost s) s.
Proof.
  intros Hinv. unfold checkAcquired. wp_step. wp_step.
  apply (wp_for_each_inv tot (λ s', vinv s' ∧ vframe s s')); [done| |done].
  intros [key X] s1 Hin [Hinv1 Hf1]. apply elem_of_hash_elems in Hin.
  destruct (vi_acquiring s Hinv key X Hin) as [HX _].
  destruct (acquire env key.2) as [l|]; [|by wp_step]. wp_step.
  apply (wp_for_each_inv tot (λ s', vinv s' ∧ vframe s s')); [done| |].
  - intros n s2 Hn%elem_of_hash_set_elems [Hinv2 Hf2].
    eapply wp_mono; [apply updateTrieLedger_wp; [done|set_solver]|].
    intros ? s3 w3 [Hinv3 Hf3]. split; [done|]. by etrans.
  - intros s2 w2 [Hinv2 Hf2]. wp_step. split; [|done].
    destruct Hinv2 as [Vt Vl Va Vc]. split; [done|done| |done]. simpl.
    intros k Y. rewrite lookup_delete_Some. intros [_ HY]. by apply (Va k).
Qed.

Lemma updateTrie_wp tot env n v prior s :
  vinv s → n ∈ nodes → trusted v = true → wp tot (updateTrie env n v prior) (vpost s) s.
Proof.
  intros Hinv Hn Hv. unfold updateTrie. wp_step. apply wp_massert; [done|]. wp_step.
  eapply (wp_mono _ _ (vpost s)).
  { destruct prior; [by apply eraseAcquiring_wp|by wp_step]. }
  intros ? s1 w1 [Hinv1 Hf1]. wp_step.
  eapply wp_mono; [by apply checkAcquired_wp|]. intros ? s2 w2 [Hinv2 Hf2]. wp_step. wp_step.
  assert (vframe s s2) as Hf by (by etrans). destruct Hinv2 as [Vt Vl Va Vc].
  assert (∀ X, X ⊆ nodes → vinv (set_acquiring_ (<[(val_seq v, ledgerID v) := {[n]} ∪ X]>
    (acquiring_ s2)) s2)) as Hadd.
  { intros X HX. split; [done|done| |done]. simpl. intros k Y.
    rewrite lookup_insert_Some. intros [[<- <-]|[_ HY]]; [set_solver|by apply (Va k)]. }
  destruct (acquiring_ s2 !! _) as [X|] eqn:HX.
  - wp_step. split; [|done]. apply Hadd. by apply (Va _ _ HX).
  - destruct (acquire env (ledgerID v)) as [l|].
    + eapply wp_mono; [by apply updateTrieLedger_wp|]. intros ? s3 w3 [Hinv3 Hf3].
      split; [done|]. by etrans.
    + wp_step. split; [|done]. rewrite <- (union_empty_r_L {[n]}). by apply Hadd.
Qed.

(** ** Dropping stale validations *)

Definition live (env : VEnv) (v : Validation) : bool :=
  isCurrent (vparms env) (adaptor_now env) (signTime v) (seenTime v).

(** The rest of the state, when [current_] changes too. *)
Definition vrest (s s' : Validations) : Prop :=
  localSeqEnforcer_ s' = localSeqEnforcer_ s ∧ seqEnforcers_ s' = seqEnforcers_ s ∧
  byLedger_ s' = byLedger_ s ∧ bySequence_ s' = bySequence_ s ∧ toKeep_ s' = toKeep_ s.

Lemma filter_live_step env (m : gmap NodeID Validation) n v (l : list (NodeID * Validation)) :
  m !! n = Some v → n ∉ l.*1 →
  (if live env v then filter (λ kv, live env kv.2 = true ∨ kv.1 ∈ n :: l.*1) m
   else delete n (filter (λ kv, live env kv.2 = true ∨ kv.1 ∈ n :: l.*1) m)) =
  filter (λ kv, live env kv.2 = true ∨ kv.1 ∈ (l.*1 : list NodeID)) m.
Proof.
  intros Hn Hl. apply map_eq. intros k. apply option_eq. intros u.
  destruct (live env v) eqn:Hlive.
  - rewrite !map_lookup_filter_Some. simpl. rewrite elem_of_cons. split; [|naive_solver].
    intros [Hk [?|[->|?]]]; [by auto| |by auto]. split; [done|left; congruence].
  - rewrite lookup_delete_Some, !map_lookup_filter_Some. simpl. rewrite elem_of_cons. split.
    + intros (Hne & Hk & [?|[->|?]]); by auto.
    + intros (Hk & Ho). split; [|naive_solver]. intros <-.
      destruct Ho as [Ho|Ho]; [congruence|done].
Qed.

Lemma current_wp tot env s :
  vinv s → wp tot (current env) (λ vals s' _,
    vinv s' ∧ vrest s s' ∧
    current_ s' = filter (λ kv, live env kv.2 = true) (current_ s) ∧
    vals = filter (λ kv, live env kv.2 = true) (hash_elems (current_ s))) s.
Proof.
  intros Hinv. unfold current. wp_step. wp_step. wp_step.
  set (all := hash_elems (current_ s)).
  apply (wp_for_each tot (λ l s' _, vinv s' ∧ vrest s s' ∧ (∃ pre, all = pre ++ l) ∧
    current_ s' = filter (λ kv, live env kv.2 = true ∨ kv.1 ∈ (l.*1 : list NodeID)) (current_ s))
    all _ _ s []).
  - split_and!; [done|done|by exists []|]. symmetry. apply map_filter_id.
    intros n v Hn. right. apply list_elem_of_fmap. exists (n, v).
    split; [done|]. by apply elem_of_hash_elems.
  - intros [n v] l s1 w _ (Hinv1 & Hr1 & [pre Hpre] & Hc1).
    assert ((n, v) ∈ all) as Hin%elem_of_hash_elems by (rewrite Hpre; set_solver).
    assert (n ∉ l.*1) as Hnl.
    { pose proof (NoDup_hash_elems (current_ s)) as Hnd. fold all in Hnd.
      rewrite Hpre, fmap_app in Hnd. apply NoDup_app in Hnd as (_ & _ & Hnd).
      by apply NoDup_cons in Hnd as [? _]. }
    pose proof (filter_live_step env (current_ s) n v l Hin Hnl) as Hstep.
    assert (∃ pre, all = pre ++ l) as Hpre' by (exists (pre ++ [(n, v)]); by rewrite <- app_assoc).
    fold (live env v). destruct (live env v) eqn:Hlive.
    + wp_step. split_and!; [done..|]. by rewrite Hc1.
    + wp_step. eapply wp_mono; [by apply removeTrie_wp|].
      intros ? s2 w2 [Hinv2 (Hc2 & Hr2)]. wp_step. split_and!.
      * apply (vinv_ext s2); [done..|]. simpl. pose proof (vi_current s2 Hinv2).
        rewrite dom_delete. set_solver.
      * destruct Hr1 as (?&?&?&?&?), Hr2 as (?&?&?&?&?). repeat split; simpl; congruence.
      * done.
      * simpl. by rewrite Hc2, Hc1.
  - intros s1 w (Hinv1 & Hr1 & _ & Hc1). wp_step. split_and!; [done|done| |done].
    rewrite Hc1. apply map_filter_ext. intros n v _. simpl. set_solver.
Qed.

(** The node's support goes when its validation does: it is stale and for the
    node's last ledger. *)
Definition goes (env : VEnv) (s : Validations) (n : NodeID) (l : Ledger) : bool :=
  match current_ s !! n with
  | Some v => negb (live env v) && bool_decide (ledger_ID l = ledgerID v)
  | None => false
  end.

Definition kept (env : VEnv) (s : Validations) (n : NodeID) : option Ledger :=
  l ← lastLedger_ s !! n; if goes env s n l then None else Some l.

Lemma eraseAcquiring_last tot key n s :
  wp tot (eraseAcquiring key n) (λ _ s' _, lastLedger_ s' = lastLedger_ s) s.
Proof. unfold eraseAcquiring. wp_step. wp_step. destruct (acquiring_ s !! key); by wp_step. Qed.

Lemma removeTrie_last tot n v s :
  vinv s → wp tot (removeTrie n v) (λ _ s' _, vinv s' ∧ ∀ k, lastLedger_ s' !! k =
    if decide (k = n) then l ← lastLedger_ s !! n; if decide (ledger_ID l = ledgerID v) then None else Some l
    else lastLedger_ s !! k) s.
Proof.
  intros Hinv. unfold removeTrie. wp_step.
  eapply (wp_mono _ _ (λ _ s1 _, vinv s1 ∧ lastLedger_ s1 = lastLedger_ s)).
  { eapply wp_mono; [apply wp_and; [by apply eraseAcquiring_wp|apply eraseAcquiring_last]|].
    by intros ? s1 w1 [[? _] ?]. }
  intros ? s1 w1 [Hinv1 Hl1]. wp_step. wp_step. rewrite Hl1.
  assert (∀ k, lastLedger_ s1 !! k = if decide (k = n) then lastLedger_ s !! n else lastLedger_ s !! k)
    as Hsame by (intros k; rewrite Hl1; by case_decide; subst).
  destruct (lastLedger_ s !! n) as [l|] eqn:Hl; [|wp_step; by split].
  case_decide as Hid; [|wp_step; split; [done|]; intros k; rewrite Hsame; case_decide; [|done]; simpl; by rewrite decide_False].
  destruct (holds_remove (trie_ s1) ((map_to_list (delete n (lastLedger_ s1))).*2) l)
    as (t & Ht & Hholds).
  { eapply holds_perm; [apply last_ledgers_delete; by rewrite Hl1|apply Hinv1]. }
  wp_step. eapply wp_lift; [done|]. cbv beta iota. wp_steps. rewrite <- Hl1. split.
  - destruct Hinv1 as [Vt Vl Va Vc]. split; [done| |done|done]. simpl. rewrite dom_delete. set_solver.
  - intros k. simpl. case_decide as Hk; [subst; by rewrite lookup_delete_eq, decide_True|].
    by rewrite lookup_delete_ne.
Qed.

Lemma current_last tot env s :
  vinv s → wp tot (current env) (λ _ s' _, ∀ n, lastLedger_ s' !! n = kept env s n) s.
Proof.
  intros Hinv. unfold current. wp_step. wp_step. wp_step.
  set (all := hash_elems (current_ s)).
  apply (wp_for_each tot (λ l s' _, vinv s' ∧ (∃ pre, all = pre ++ l) ∧
    ∀ n, lastLedger_ s' !! n = if decide (n ∈ (l.*1 : list NodeID)) then lastLedger_ s !! n else kept env s n)
    all _ _ s []).
  - split_and!; [done|by exists []|]. intros n. case_decide as Hn; [done|]. unfold kept, goes.
    assert (current_ s !! n = None) as ->.
    { destruct (current_ s !! n) as [v|] eqn:Hv; [|done]. exfalso. apply Hn, list_elem_of_fmap.
      exists (n, v). split; [done|]. by apply elem_of_hash_elems. }
    by destruct (lastLedger_ s !! n).
  - intros [n v] l s1 w _ (Hinv1 & [pre Hpre] & Hl1).
    assert ((n, v) ∈ all) as Hin%elem_of_hash_elems by (rewrite Hpre; set_solver).
    assert (n ∉ l.*1) as Hnl.
    { pose proof (NoDup_hash_elems (current_ s)) as Hnd. fold all in Hnd.
      rewrite Hpre, fmap_app in Hnd. apply NoDup_app in Hnd as (_ & _ & Hnd).
      by apply NoDup_cons in Hnd as [? _]. }
    assert (∃ pre, all = pre ++ l) as Hpre' by (exists (pre ++ [(n, v)]); by rewrite <- app_assoc).
    assert (lastLedger_ s1 !! n = lastLedger_ s !! n) as Hln.
    { rewrite Hl1, decide_True; [done|]. by left. }
    assert (∀ k, k ≠ n → lastLedger_ s1 !! k =
      if decide (k ∈ (l.*1 : list NodeID)) then lastLedger_ s !! k else kept env s k) as Hlk.
    { intros k Hk. rewrite Hl1. cbn [fmap list_fmap fst]. repeat case_decide; set_solver. }
    fold (live env v). destruct (live env v) eqn:Hlive.
    + wp_step. split_and!; [done..|]. intros k. destruct (decide (k = n)) as [->|Hk]; [|by apply Hlk].
      rewrite decide_False, Hln by done. unfold kept, goes. rewrite Hin, Hlive. simpl.
      by destruct (lastLedger_ s !! n).
    + wp_step. eapply wp_mono; [by apply removeTrie_last|].
      intros ? s2 w2 [Hinv2 Hl2]. wp_step. split_and!; [|done|].
      * apply (vinv_ext s2); [done..|]. simpl. pose proof (vi_current s2 Hinv2).
        rewrite dom_delete. set_solver.
      * intros k. simpl. rewrite Hl2. destruct (decide (k = n)) as [->|Hk]; [|by apply Hlk].
        rewrite (decide_False (P := n ∈ l.*1)), Hln by done. unfold kept, goes. rewrite Hin, Hlive. simpl.
        destruct (lastLedger_ s !! n) as [l'|]; simpl; [|done].
        case_decide; [by rewrite bool_decide_eq_true_2|by rewrite bool_decide_eq_false_2].
  - intros s1 w (_ & _ & Hl1). wp_step. intros n. rewrite Hl1. by rewrite decide_False by (apply not_elem_of_nil).
Qed.

Lemma withTrie_wp tot env s :
  vinv s → wp tot (withTrie env) (λ t s' _,
    vinv s' ∧ vrest s s' ∧ t = trie_ s' ∧
    current_ s' = filter (λ kv, live env kv.2 = true) (current_ s)) s.
Proof.
  intros Hinv. unfold withTrie. wp_step. eapply wp_mono; [by apply current_wp|].
  intros vals s1 w1 (Hinv1 & Hr1 & Hc1 & _). wp_step.
  eapply wp_mono; [by apply checkAcquired_wp|]. intros ? s2 w2 [Hinv2 (Hc2 & Hr2)]. wp_step.
  split_and!; [done| |done|by rewrite Hc2].
  destruct Hr1 as (?&?&?&?&?), Hr2 as (?&?&?&?&?). repeat split; congruence.
Qed.

(** ** Adding *)

(** What is not touched when a validation is rejected. *)
Definition same_support (s s' : Validations) : Prop :=
  current_ s' = current_ s ∧ trie_ s' = trie_ s ∧ lastLedger_ s' = lastLedger_ s ∧
  acquiring_ s' = acquiring_ s.

Definition add_post (env : VEnv) (n : NodeID) (val : Validation) (s : Validations)
    (st : ValStatus) (s' : Validations) : Prop :=
  match st with
  | current_status => live env val = true ∧ current_ s' = <[n := val]> (current_ s) ∧
      (∀ old, current_ s !! n = Some old → signTime old < signTime val) ∧
      (enforce (steady_now env) (val_seq val) (vparms env)
         (default SeqEnforcer_ctor (seqEnforcers_ s !! n))).1 = true ∧
      seqEnforcers_ s' = <[n := mkEnforcer (val_seq val) (steady_now env)]> (seqEnforcers_ s) ∧
      (∃ w vals, byLedger_ s' !! ledgerID val = Some (w, vals) ∧ vals !! n = Some val) ∧
      ((aged_get env ∅ (val_seq val) (bySequence_ s)).2 !! n = None →
       ∃ w vals, bySequence_ s' !! val_seq val = Some (w, vals) ∧ vals !! n = Some val)
  | _ => same_support s s'
  end.

Lemma enforce_accept now q p e e' : enforce now q p e = (true, e') → e' = mkEnforcer q now.
Proof. unfold enforce. case_match; [done|]. by intros [= <-]. Qed.

Lemma add_wp tot env n val s :
  vinv s → n ∈ nodes →
  wp tot (add env n val) (λ st s' _, vinv s' ∧ add_post env n val s st s') s.
Proof.
  intros Hinv Hn. unfold add. fold (live env val). destruct (live env val) eqn:Hlive; simpl;
    [|by wp_step]. wp_step.
  unfold trackSequence. wp_step. wp_step. destruct (aged_get env ∅ _ _) as [w vals] eqn:Hget.
  set (tracked := match vals !! n with None => _ | Some old => _ end).
  wp_steps. set (s1 := set_bySequence_ _ s).
  destruct (enforce _ _ _ _) as [ok enf] eqn:Henf. wp_steps.
  set (s2 := set_seqEnforcers_ _ s1).
  assert (vinv s2) as Hinv2 by (apply (vinv_ext s); [done..|apply Hinv]).
  destruct ok; simpl.
  2: { wp_step. split; [done|].
       destruct (val_seq tracked =? _); [case_decide; [|destruct (negb _)]|]; by repeat split. }
  destruct (aged_get env ∅ (ledgerID val) _) as [w' vals']. wp_steps.
  set (s3 := set_byLedger_ _ s2).
  assert (vinv s3) as Hinv3 by (apply (vinv_ext s2); [done..|apply Hinv2]).
  assert (vinv (set_current_ (<[n := val]> (current_ s3)) s3)) as Hinv4.
  { apply (vinv_ext s3); [done..|]. simpl. pose proof (vi_current s Hinv). set_solver. }
  change (current_ s3) with (current_ s) in *.
  assert (∀ s5, vframe (set_current_ (<[n:=val]> (current_ s)) s3) s5 →
    (∀ old, current_ s !! n = Some old → signTime old < signTime val) →
    add_post env n val s current_status s5) as Hpost.
  { intros s5 (Hc & _ & Hse & Hbl & Hbs & _) Hold. simpl in *. split_and!; [done..| | | |].
    - by rewrite Henf.
    - rewrite Hse. by rewrite (enforce_accept _ _ _ _ _ Henf).
    - exists w', (<[n := val]> vals'). rewrite Hbl, lookup_insert_eq. split; [done|].
      by rewrite lookup_insert_eq.
    - rewrite Hget. simpl. intros Hnone. exists w, (<[n := tracked]> vals).
      rewrite Hbs, !lookup_insert_eq. unfold tracked. by rewrite Hnone. }
  destruct (current_ s !! n) as [old|] eqn:Hold.
  - destruct (Z.ltb_spec (signTime old) (signTime val)) as [Hlt|Hge]; cbv iota.
    2: { wp_step. split; [done|]. by repeat split. }
    wp_steps. eapply (wp_mono _ _ (vpost (set_current_ (<[n:=val]> (current_ s)) s3))).
    { apply wp_when; [intros Htr; by apply updateTrie_wp|done]. }
    intros ? s5 w5 [Hinv5 Hf5]. wp_step. split; [done|]. apply Hpost; [done|].
    intros old' [= <-]. done.
  - wp_steps. eapply (wp_mono _ _ (vpost (set_current_ (<[n:=val]> (current_ s)) s3))).
    { apply wp_when; [intros Htr; by apply updateTrie_wp|done]. }
    intros ? s5 w5 [Hinv5 Hf5]. wp_step. split; [done|]. by apply Hpost.
Qed.

(** ** The other functions *)

(** Proper descendants are counted by the difference of the supports. *)
Lemma desc_minus_tip (L : list Ledger) l :
  Z.of_nat (length L) < 2 ^ 32 →
  0 ≤ branch_of L (seq l) (ledger_ID l) - count_id (ledger_ID l) L < 2 ^ 32.
Proof.
  intros Hlen. assert (0 ≤ branch_of L (seq l) (ledger_ID l) - count_id (ledger_ID l) L
    ≤ Z.of_nat (length L)); [|lia].
  clear Hlen. unfold branch_of. induction L as [|l' L IH]; [done|].
  rewrite count_id_cons, sum_over_cons. cbn [length].
  assert (0 ≤ is_desc (seq l) (ledger_ID l) (tip_of l')
    - (if decide (ledger_ID l' = ledger_ID l) then 1 else 0) ≤ 1); [|lia].
  case_decide as Heq.
  - assert (is_desc (seq l) (ledger_ID l) (tip_of l') = 1) as ->; [|lia].
    assert (seq l' = seq l) as Hs.
    { eapply (ancestor_seq l' l); [pose proof (seq_range l'); lia|pose proof (seq_range l); lia|].
      by rewrite !ancestor_self. }
    unfold is_desc. simpl. rewrite Hs, Z.leb_refl, <- Hs, ancestor_self.
    by rewrite bool_decide_eq_true_2.
  - unfold is_desc. case_match; lia.
Qed.

Lemma trustChanged_wp tot env added removed s :
  vinv s → wp tot (trustChanged env added removed) (λ _ s' _, vinv s') s.
Proof.
  intros Hinv. unfold trustChanged. wp_step. wp_step. wp_step.
  apply (wp_for_each_inv tot vinv); [done| |].
  - intros [n v] s1 Hin Hinv1. apply elem_of_hash_elems in Hin.
    assert (n ∈ nodes) as Hn by (apply (vi_current s Hinv), elem_of_dom; eauto).
    assert (∀ v', vinv (set_current_ (<[n := v']> (current_ s1)) s1)) as Hset.
    { intros v'. apply (vinv_ext s1); [done..|]. simpl. pose proof (vi_current s1 Hinv1). set_solver. }
    case_decide; [|case_decide; [|by wp_step]]; wp_steps.
    + eapply wp_mono; [by apply updateTrie_wp|]. by intros ? s2 w2 [? _].
    + eapply wp_mono; [by apply removeTrie_wp|]. by intros ? s2 w2 [? _].
  - intros s1 w1 Hinv1. wp_step. apply (vinv_ext s1); [done..|apply Hinv1].
Qed.

Lemma parentOf_wp tot curr p (Q : bool → Validations → list Empty_set → Prop) s :
  Q (bool_decide (tip_seq p = seq curr + 1 ∧ ancestor_ID (tip_ledger p) (seq curr) = ledger_ID curr))
    s [] →
  wp tot (parentOf curr p) Q s.
Proof.
  intros HQ. unfold parentOf. pose proof (seq_range curr). rewrite u32_id by lia.
  destruct (Z.eqb_spec (tip_seq p) (seq curr + 1)) as [He|Hne].
  - wp_step. unfold tip_ancestor. rewrite He, (proj2 (Z.leb_le _ _)) by lia. simpl.
    eapply wp_lift; [reflexivity|]. wp_step.
    assert (∀ P P' : Prop, (P ↔ P') → ∀ `{Decision P, Decision P'},
      bool_decide P = bool_decide P') as Hbd by (intros; by apply bool_decide_ext).
    erewrite Hbd; [exact HQ|]. naive_solver.
  - wp_step. rewrite bool_decide_eq_false_2 in HQ by naive_solver. done.
Qed.

(** The choice between the current ledger and a preferred one. *)
Definition preferred_choice (curr : Ledger) (p : SpanTip) : Z * ID :=
  if bool_decide (tip_seq p = seq curr + 1 ∧ ancestor_ID (tip_ledger p) (seq curr) = ledger_ID curr)
  then (seq curr, ledger_ID curr)
  else if seq curr <? tip_seq p then (tip_seq p, tip_id p)
  else if decide (ancestor_ID curr (tip_seq p) ≠ tip_id p) then (tip_seq p, tip_id p)
  else (seq curr, ledger_ID curr).

Lemma getPreferred_wp tot env curr s :
  vinv s → wp tot (getPreferred env curr) (λ r s' _,
    vinv s' ∧ vrest s s' ∧
    current_ s' = filter (λ kv, live env kv.2 = true) (current_ s) ∧
    match last_ledgers s' with
    | [] => r = fst <$> max_element acquiring_lt (hash_elems (acquiring_ s'))
    | _ => ∃ p, walk_ends (last_ledgers s') (largest (localSeqEnforcer_ s)) p ∧
        r = Some (preferred_choice curr p)
    end) s.
Proof.
  intros Hinv. unfold getPreferred. wp_step. eapply wp_mono; [by apply withTrie_wp|].
  intros t s1 w1 (Hinv1 & Hr1 & _ & Hc1). wp_steps.
  destruct (holds_getPreferred (trie_ s1) (last_ledgers s1)
    (largest (localSeqEnforcer_ s1)) (vi_trie s1 Hinv1)) as (r & t' & Hp & Hholds & Hr).
  eapply wp_lift; [done|]. cbv beta iota. wp_steps. set (s2 := set_trie_ t' s1).
  assert (vinv s2) as Hinv2 by (by destruct Hinv1; split).
  change (last_ledgers s1) with (last_ledgers s2) in *.
  destruct r as [p|].
  - wp_step. apply parentOf_wp. wp_step. split_and!; [done..|].
    destruct Hr as [Hne Hw]. destruct (last_ledgers s2) eqn:HL; [done|].
    exists p. split; [|done]. by destruct Hr1 as [<- _].
  - wp_step. split_and!; [done..|]. by rewrite Hr.
Qed.

Lemma getNodesAfter_wp tot env l x s :
  vinv s → wp tot (getNodesAfter env l x) (λ r s' _, vinv s' ∧
    r = (if decide (ledger_ID l = x)
         then branch_of (last_ledgers s') (seq l) (ledger_ID l) - count_id (ledger_ID l) (last_ledgers s')
         else Z.of_nat (length (filter (λ l', 0 < seq l' ∧ ancestor_ID l' (seq l' - 1) = x)
                (last_ledgers s'))))) s.
Proof.
  intros Hinv. unfold getNodesAfter. case_decide as Hx.
  - wp_step. eapply wp_mono; [by apply withTrie_wp|]. intros t s1 w1 (Hinv1 & _ & -> & _). wp_step.
    split; [done|]. pose proof (vi_trie s1 Hinv1) as Hh.
    rewrite (holds_branchSupport _ _ _ Hh), (holds_tipSupport _ _ _ Hh). apply u32_id.
    pose proof (length_last_ledgers _ (vi_last s1 Hinv1)) as Hlen.
    fold (last_ledgers s1) in Hlen. apply desc_minus_tip. lia.
  - wp_steps. split; [done|]. f_equal. unfold last_ledgers.
    rewrite <- (fmap_Permutation snd _ _ (hash_elems_perm (lastLedger_ s))).
    induction (hash_elems (lastLedger_ s)) as [|[n l'] ls IH]; [done|]. simpl.
    rewrite !filter_cons. simpl. case_decide; simpl; by rewrite IH.
Qed.
End validations_inv.
