(* ===== verification/ValidationsClaims.v ===== *)
(** * What the validations store guarantees *)
From S2P Require Import Prelude LedgerTrie LedgerSupport LedgerTrieInv LedgerTrieOps.
From S2P Require Import LedgerTriePreferred LedgerDemo LedgerTrieClaims.
From S2P Require Import Validations ValidationsInv.

Section calls.
Context `{NodeTypes} `{!SupportTrie}.

(** ** Calls and reachable states *)

Inductive vcall :=
  | CanValidateSeq (q : Z)
  | Add (n : NodeID) (v : Validation)
  | SetSeqToKeep (q : Z)
  | Expire
  | TrustChanged (added removed : gset NodeID)
  | GetPreferred (curr : Ledger)
  | GetPreferredLCL (lcl : Ledger) (minSeq : Z) (peerCounts : gmap ID Z)
  | GetNodesAfter (l : Ledger) (x : ID)
  | CurrentTrusted
  | GetTrustedForLedger (x : ID)
  | Flush
  | Laggards (q : Z) (keys : gset NodeKey).

Definition vrun (env : VEnv) (c : vcall) : VM unit :=
  match c with
  | CanValidateSeq q => _ ← canValidateSeq env q; mret tt
  | Add n v => _ ← add env n v; mret tt
  | SetSeqToKeep q => setSeqToKeep q
  | Expire => expire env
  | TrustChanged a r => trustChanged env a r
  | GetPreferred curr => _ ← getPreferred env curr; mret tt
  | GetPreferredLCL lcl q peers => _ ← getPreferredLCL env lcl q peers; mret tt
  | GetNodesAfter l x => _ ← getNodesAfter env l x; mret tt
  | CurrentTrusted => _ ← currentTrusted env; mret tt
  | GetTrustedForLedger x => _ ← getTrustedForLedger env x; mret tt
  | Flush => flush
  | Laggards q keys => _ ← laggards env q keys; mret tt
  end.

Fixpoint vrun_all (cs : list (VEnv * vcall)) (s : Validations) : res Validations :=
  match cs with
  | [] => mret s
  | (env, c) :: cs => '(_, s, _) ← vrun env c s; vrun_all cs s
  end.

(** Validations come from a set of validators. *)
Definition vcall_ok (nodes : gset NodeID) (c : vcall) : Prop :=
  match c with Add n _ => n ∈ nodes | _ => True end.

Context `{!SupportTrieLaws} `{!LedgerLaws}.
Context (nodes : gset NodeID) (Hsize : Z.of_nat (size nodes) + 1 < 2 ^ 32).

Lemma vinv_new : vinv nodes Validations_ctor.
Proof. split; simpl; [apply holds_new|set_solver..|set_solver]. Qed.

Lemma vrun_wp env c s :
  vinv nodes s → vcall_ok nodes c → wp true (vrun env c) (λ _ s' _, vinv nodes s') s.
Proof.
  intros Hinv Hc.
  assert (∀ s', trie_ s' = trie_ s → lastLedger_ s' = lastLedger_ s →
    acquiring_ s' = acquiring_ s → current_ s' = current_ s → vinv nodes s') as Hext.
  { intros s' Ht Hl Ha Hcu. apply (vinv_ext nodes s); [done..|]. rewrite Hcu. apply Hinv. }
  destruct c; simpl; unfold canValidateSeq, setSeqToKeep, expire, currentTrusted,
    getTrustedForLedger, trustedForLedger, byLedger, flush, laggards, getPreferredLCL; wp_steps.
  - case_match. wp_steps. by apply Hext.
  - eapply wp_mono; [by apply (add_wp nodes)|]. intros st s' w [? _]. by wp_step.
  - by apply Hext.
  - eapply (wp_mono _ _ (λ _ s' _, vinv nodes s')).
    + destruct (toKeep_ s); wp_steps; [by apply Hext|done].
    + intros ? s1 w1 Hinv1. wp_step. apply (vinv_ext nodes s1); [done..|apply Hinv1].
  - by apply (trustChanged_wp nodes).
  - eapply wp_mono; [by apply (getPreferred_wp nodes)|]. intros r s' w (? & _). by wp_step.
  - eapply wp_mono; [by apply (getPreferred_wp nodes)|]. intros r s' w (? & _). by wp_steps.
  - eapply wp_mono; [by apply (getNodesAfter_wp nodes)|]. intros r s' w (? & _). by wp_step.
  - eapply wp_mono; [by apply (current_wp nodes)|]. intros r s' w (? & _). by wp_steps.
  - destruct (byLedger_ s !! x) as [[w vals]|]; wp_steps; [by apply Hext|done].
  - apply (vinv_ext nodes s); [done..|]. simpl. set_solver.
  - eapply wp_mono; [by apply (current_wp nodes)|]. intros r s' w (? & _). by wp_steps.
Qed.

Lemma vrun_all_inv cs s :
  vinv nodes s → Forall (λ ec : VEnv * vcall, vcall_ok nodes ec.2) cs →
  ∃ s', vrun_all cs s = Ok s' ∧ vinv nodes s'.
Proof.
  revert s. induction cs as [|[env c] cs IH]; intros s Hinv Hok; [by eauto|].
  apply Forall_cons in Hok as [Hc Hok]. simpl in *. pose proof (vrun_wp env c s Hinv Hc) as Hwp.
  unfold wp in Hwp. destruct (vrun env c s) as [[[[] s1] w]| |]; [|done..]. by apply IH.
Qed.

Lemma vrun_new cs :
  Forall (λ ec : VEnv * vcall, vcall_ok nodes ec.2) cs →
  ∃ s, vrun_all cs Validations_ctor = Ok s ∧ vinv nodes s.
Proof. by apply vrun_all_inv, vinv_new. Qed.

(** A second ledger for a sequence number the enforcer has accepted. *)
Lemma add_conflict tot env n v v' s w vals t :
  live env v' = true → val_seq v' = val_seq v → ledgerID v' ≠ ledgerID v →
  signTime v' - signTime v ≤ validationCURRENT_WALL (vparms env) →
  steady_now env ≤ t + nanos (validationSET_EXPIRES (vparms env)) →
  bySequence_ s !! val_seq v = Some (w, vals) → vals !! n = Some v →
  seqEnforcers_ s !! n = Some (mkEnforcer (val_seq v) t) →
  wp tot (add env n v') (λ st s' _, st = conflicting ∧ same_support s s') s.
Proof.
  intros Hlive Hseq Hledger Hsign Htime Hby Hval Henf. unfold add. fold (live env v').
  rewrite Hlive. simpl. unfold trackSequence, aged_get. wp_steps.
  rewrite Hseq, Hby. cbn [default from_option id]. cbv beta iota. rewrite Hval.
  replace (_ && _) with false; [|symmetry; apply andb_false_iff; rewrite !Z.ltb_ge; lia].
  wp_steps. simpl. rewrite Henf. unfold enforce. simpl.
  rewrite (proj2 (Z.ltb_ge _ _)) by lia. simpl. rewrite Z.leb_refl, Z.eqb_refl. wp_steps.
  simpl. rewrite decide_True by done. by repeat split.
Qed.

(** ** Properties *)

(** C10: the trie accounts exactly for the last ledger of each node.  After any
    sequence of public calls, during which no assertion is violated, the
    support of every ledger in the trie is the number of nodes whose last
    acquired ledger it is, and the branch support the number of nodes whose
    last ledger it is or descends from it.  The ledgers have complete
    histories, as the interface of the trie supposes. *)
Theorem trie_counts_last_ledgers (cs : list (VEnv * vcall))
    (Hcs : Forall (λ ec : VEnv * vcall, vcall_ok nodes ec.2) cs) :
  ∃ s, vrun_all cs Validations_ctor = Ok s ∧
    ∀ l, trie_tipSupport l (trie_ s) = count_id (ledger_ID l) (last_ledgers s) ∧
      trie_branchSupport l (trie_ s) = branch_of (last_ledgers s) (seq l) (ledger_ID l).
Proof.
  destruct (vrun_new cs Hcs) as (s & Hrun & Hinv). exists s. split; [done|]. intros l.
  pose proof (vi_trie nodes s Hinv) as Hh.
  by rewrite (holds_tipSupport _ _ _ Hh), (holds_branchSupport _ _ _ Hh).
Qed.

(** which ledger to work on.  After any sequence of calls, [getPreferred]
    drops the stale validations; if some node has a last ledger, it considers
    the end of the preferred walk over the last ledgers, and answers the
    current ledger exactly when that end is a child of the current ledger, or
    not ahead of it and one of its ancestors or itself; in all other cases it
    answers the end of the walk.  The assertion on ancestors holds. *)
Theorem getPreferred_answer (cs : list (VEnv * vcall)) (env : VEnv) (curr : Ledger)
    (Hcs : Forall (λ ec : VEnv * vcall, vcall_ok nodes ec.2) cs) :
  ∃ s r s' w, vrun_all cs Validations_ctor = Ok s ∧
    getPreferred env curr s = Ok (r, s', w) ∧
    current_ s' = filter (λ kv, live env kv.2 = true) (current_ s) ∧
    (last_ledgers s' ≠ [] → ∃ p, walk_ends (last_ledgers s') (largest (localSeqEnforcer_ s)) p ∧
       (r = Some (seq curr, ledger_ID curr) ∧
          (tip_seq p = seq curr + 1 ∧ ancestor_ID (tip_ledger p) (seq curr) = ledger_ID curr ∨
           tip_seq p ≤ seq curr ∧ ancestor_ID curr (tip_seq p) = tip_id p) ∨
        r = Some (tip_seq p, tip_id p) ∧
          ¬ (tip_seq p = seq curr + 1 ∧ ancestor_ID (tip_ledger p) (seq curr) = ledger_ID curr) ∧
          (seq curr < tip_seq p ∨ ancestor_ID curr (tip_seq p) ≠ tip_id p))).
Proof.
  destruct (vrun_new cs Hcs) as (s & Hrun & Hinv).
  pose proof (getPreferred_wp nodes Hsize true env curr s Hinv) as Hwp. unfold wp in Hwp.
  destruct (getPreferred env curr s) as [[[r s'] w]| |] eqn:Hp; [|done..].
  destruct Hwp as (Hinv' & Hrest & Hc & Hr). exists s, r, s', w. split_and!; [done..|].
  intros Hne. destruct (last_ledgers s') as [|l L]; [done|]. destruct Hr as (p & Hw & ->).
  exists p. split; [done|]. unfold preferred_choice. case_bool_decide as Hpar; [left; split; [done|by left]|].
  destruct (Z.ltb_spec (seq curr) (tip_seq p)); [right; split_and!; [done|done|by left]|].
  destruct (decide (ancestor_ID curr (tip_seq p) = tip_id p)) as [He|Hne'].
  - rewrite decide_False by auto. left. split; [done|]. right. by split; [lia|].
  - rewrite decide_True by done. right. split_and!; [done|done|by right].
Qed.

(** what adding a validation does.  In any state reached by calls, a
    rejected validation leaves the current validations, the trie and the
    pending acquisitions alone; one that is accepted as current was neither
    too old nor too new, becomes the current validation of its node and of no
    other, was signed after the one it replaces, has a sequence number the
    node's enforcer admits, and is stored with the validations of its
    ledger. *)
Theorem add_effect (cs : list (VEnv * vcall)) (env : VEnv) (n : NodeID) (v : Validation)
    (Hcs : Forall (λ ec : VEnv * vcall, vcall_ok nodes ec.2) cs) (Hn : n ∈ nodes) :
  ∃ s st s' w, vrun_all cs Validations_ctor = Ok s ∧ add env n v s = Ok (st, s', w) ∧
    add_post env n v s st s'.
Proof.
  destruct (vrun_new cs Hcs) as (s & Hrun & Hinv).
  pose proof (add_wp nodes Hsize true env n v s Hinv Hn) as Hwp. unfold wp in Hwp.
  destruct (add env n v s) as [[[st s'] w]| |] eqn:Hp; [|done..]. destruct Hwp as [_ Hpost].
  by exists s, st, s', w.
Qed.

(** A key that has a validation seen recently enough. *)
Definition fresh_key (env : VEnv) (vals : list (NodeID * Validation)) (k : NodeKey) : Prop :=
  ∃ nv, nv ∈ vals ∧ val_key nv.2 = k ∧
    adaptor_now env < seenTime nv.2 + validationFRESHNESS (vparms env).

Lemma laggards_fold env q vals c keys :
  let '(c', keys') := foldl (laggardStep env q) (c, keys) vals in
  c ≤ c' ∧ c' + Z.of_nat (size keys') ≤ c + Z.of_nat (size keys) ∧
  ∀ k, k ∈ keys' ↔ k ∈ keys ∧ ¬ fresh_key env vals k.
Proof.
  revert c keys. induction vals as [|[n v] vals IH]; intros c keys; simpl.
  { split_and!; [lia..|]. intros k. split; [|naive_solver]. intros Hk. split; [done|].
    intros (nv & Hnv & _). by apply not_elem_of_nil in Hnv. }
  set (step := if (adaptor_now env <? _) && _ then _ else _).
  assert (∃ c1 keys1, step = (c1, keys1) ∧ c ≤ c1 ∧
    c1 + Z.of_nat (size keys1) ≤ c + Z.of_nat (size keys) ∧
    ∀ k, k ∈ keys1 ↔ k ∈ keys ∧ ¬ fresh_key env [(n, v)] k) as (c1 & keys1 & -> & Hc & Hs & Hk).
  { assert (∀ k, fresh_key env [(n, v)] k ↔ val_key v = k ∧
      adaptor_now env < seenTime v + validationFRESHNESS (vparms env)) as Hf.
    { intros k. split; [|intros [? ?]; exists (n, v); set_solver].
      intros (nv & ->%list_elem_of_singleton & ? & ?). done. }
    unfold step. destruct (Z.ltb_spec (adaptor_now env)
      (seenTime v + validationFRESHNESS (vparms env))) as [Hlt|Hge]; simpl.
    - case_bool_decide as Hin.
      + eexists _, _. split; [reflexivity|].
        rewrite size_difference, size_singleton by set_solver.
        assert (size keys ≠ 0)%nat by (intros Hz%size_empty_inv; set_solver).
        split_and!; [case_match; lia|case_match; lia|]. intros k. rewrite Hf. set_solver.
      + eexists _, _. split; [reflexivity|]. split_and!; [lia..|]. intros k. rewrite Hf.
        split; [|naive_solver]. intros Hkk. split; [done|]. intros [<- _]. done.
    - eexists _, _. split; [reflexivity|]. split_and!; [lia..|]. intros k. rewrite Hf.
      split; [|naive_solver]. intros Hkk. split; [done|]. intros [_ ?]. lia. }
  specialize (IH c1 keys1). destruct (foldl _ (c1, keys1) vals) as [c2 keys2].
  destruct IH as (Hc2 & Hs2 & Hk2). split_and!; [lia..|]. intros k. rewrite Hk2, Hk.
  assert (fresh_key env ((n, v) :: vals) k ↔ fresh_key env [(n, v)] k ∨ fresh_key env vals k)
    as ->; [|naive_solver].
  unfold fresh_key. set_solver.
Qed.

(** laggards and offline validators.  After any sequence of calls,
    [laggards] leaves in the set exactly the keys without a current validation
    seen within the freshness time, and the laggards it reports together with
    the keys left over never exceed the keys it was given; so the number of
    validators that are not lagging, computed by subtraction in
    [shouldPause], does not wrap around. *)
Theorem laggards_within_total (cs : list (VEnv * vcall)) (env : VEnv) (q : Z)
    (keys : gset NodeKey)
    (Hcs : Forall (λ ec : VEnv * vcall, vcall_ok nodes ec.2) cs) :
  ∃ s c rest s' w, vrun_all cs Validations_ctor = Ok s ∧
    laggards env q keys s = Ok ((c, rest), s', w) ∧
    0 ≤ c ∧ c + Z.of_nat (size rest) ≤ Z.of_nat (size keys) ∧
    ∀ k, k ∈ rest ↔ k ∈ keys ∧
      ¬ fresh_key env (filter (λ kv, live env kv.2 = true) (hash_elems (current_ s))) k.
Proof.
  destruct (vrun_new cs Hcs) as (s & Hrun & Hinv).
  assert (wp true (laggards env q keys) (λ r s' _,
    r = foldl (laggardStep env q) (0, keys)
          (filter (λ kv, live env kv.2 = true) (hash_elems (current_ s)))) s) as Hwp.
  { unfold laggards. wp_step. eapply wp_mono; [by apply (current_wp nodes)|].
    intros vals s1 w1 (_ & _ & _ & ->). by wp_step. }
  unfold wp in Hwp. destruct (laggards env q keys s) as [[[[c rest] s'] w]| |] eqn:Hl;
    [|done..].
  exists s, c, rest, s', w.
  pose proof (laggards_fold env q (filter (λ kv, live env kv.2 = true) (hash_elems (current_ s)))
    0 keys) as Hf. rewrite <- Hwp in Hf. destruct Hf as (Hc & Hs & Hk). by split_and!; [..|lia|].
Qed.

(** two validations of one node for the same sequence number and
    different ledgers are detected.  In any state reached by calls, when a
    validation has been accepted, and is the first one at its sequence number
    that is kept for its node, then a second one of the node for that number
    and another ledger, itself neither too old nor too new, not signed more
    than [validationCURRENT_WALL] later, and received before the sequence
    number expires, is reported as conflicting.  It changes neither the
    current validations nor the trie. *)
Theorem conflict_detected (cs : list (VEnv * vcall)) (env env' : VEnv) (n : NodeID)
    (v v' : Validation)
    (Hcs : Forall (λ ec : VEnv * vcall, vcall_ok nodes ec.2) cs) (Hn : n ∈ nodes)
    (Hlive : live env' v' = true) (Hseq : val_seq v' = val_seq v)
    (Hledger : ledgerID v' ≠ ledgerID v)
    (Hsign : signTime v' - signTime v ≤ validationCURRENT_WALL (vparms env'))
    (Htime : steady_now env' ≤ steady_now env + nanos (validationSET_EXPIRES (vparms env'))) :
  ∃ s st s1 w1, vrun_all cs Validations_ctor = Ok s ∧ add env n v s = Ok (st, s1, w1) ∧
    (st = current_status →
     (aged_get env ∅ (val_seq v) (bySequence_ s)).2 !! n = None →
     ∃ s2 w2, add env' n v' s1 = Ok (conflicting, s2, w2) ∧ same_support s1 s2).
Proof.
  destruct (vrun_new cs Hcs) as (s & Hrun & Hinv).
  pose proof (add_wp nodes Hsize true env n v s Hinv Hn) as Hwp. unfold wp in Hwp.
  destruct (add env n v s) as [[[st s1] w1]| |] eqn:Hp; [|done..]. destruct Hwp as [_ Hpost].
  exists s, st, s1, w1. split_and!; [done..|]. intros -> Hnone.
  destruct Hpost as (_ & _ & _ & _ & Henf & _ & Htr).
  destruct (Htr Hnone) as (w & vals & Hby & Hval).
  assert (seqEnforcers_ s1 !! n = Some (mkEnforcer (val_seq v) (steady_now env))) as Hse
    by (by rewrite Henf, lookup_insert_eq).
  pose proof (add_conflict true env' n v v' s1 w vals (steady_now env)) as Hwp2.
  specialize (Hwp2 Hlive Hseq Hledger Hsign Htime Hby Hval Hse). unfold wp in Hwp2.
  destruct (add env' n v' s1) as [[[st2 s2] w2]| |]; [|done..]. destruct Hwp2 as [-> ?]. eauto.
Qed.


End calls.

(** ** Sequence numbers of one validator *)

Fixpoint enforce_all (p : ValidationParms) (calls : list (Z * Z)) (e : SeqEnforcer) : list bool :=
  match calls with
  | [] => []
  | (now, q) :: calls => let '(b, e) := enforce now q p e in b :: enforce_all p calls e
  end.

Lemma enforce_step p now q e :
  now ≤ when_ e + nanos (validationSET_EXPIRES p) →
  enforce now q p e = if q <=? seq_ e then (false, e) else (true, mkEnforcer q now).
Proof. intros Hw. unfold enforce. by rewrite (proj2 (Z.ltb_ge _ _)) by lia. Qed.

(** While an accepted number has not expired, only larger ones pass. *)
Lemma enforce_all_larger p calls e j t q :
  StronglySorted (λ a b : Z * Z, a.1 ≤ b.1) calls →
  Forall (λ a : Z * Z, when_ e ≤ a.1) calls →
  calls !! j = Some (t, q) → enforce_all p calls e !! j = Some true →
  t ≤ when_ e + nanos (validationSET_EXPIRES p) → seq_ e < q.
Proof.
  revert e j. induction calls as [|[now r] calls IH]; intros e j Hs Hw Hj Hacc Ht; [done|].
  apply StronglySorted_inv in Hs as [Hs Hall]. apply Forall_cons in Hw as [Hw0 Hw]. simpl in *.
  assert (now ≤ t) as Hnt.
  { destruct j as [|j]; simpl in Hj; [injection Hj as -> ->; lia|].
    rewrite Forall_lookup in Hall. by apply (Hall j (t, q)). }
  rewrite enforce_step in Hacc by lia.
  destruct (Z.leb_spec r (seq_ e)) as [Hle|Hlt].
  - destruct j as [|j]; simpl in *; [done|]. by apply (IH e j).
  - destruct j as [|j]; simpl in *; [injection Hj as -> ->; lia|].
    enough (r < q) by lia. apply (IH (mkEnforcer r now) j); simpl; [done| |done|done|lia].
    done.
Qed.

(** a validator's sequence numbers increase.  Among the calls to an
    enforcer at non-decreasing times, two accepted sequence numbers of which
    the later comes before the earlier expires are increasing; so this node
    never issues, and accepts from no other node, two validations for the same
    sequence number within that time. *)
Theorem validated_sequences_increase (p : ValidationParms) (calls : list (Z * Z))
    (e : SeqEnforcer) (i j : nat) (t1 t2 q1 q2 : Z)
    (Htimes : StronglySorted (λ a b : Z * Z, a.1 ≤ b.1) calls) (Hij : (i < j)%nat)
    (H1 : calls !! i = Some (t1, q1)) (H2 : calls !! j = Some (t2, q2))
    (Hacc1 : enforce_all p calls e !! i = Some true)
    (Hacc2 : enforce_all p calls e !! j = Some true)
    (Hexp : t2 ≤ t1 + nanos (validationSET_EXPIRES p)) :
  q1 < q2.
Proof.
  revert e i j Hij H1 H2 Hacc1 Hacc2. induction calls as [|[now r] calls IH];
    intros e i j Hij H1 H2 Hacc1 Hacc2; [done|].
  apply StronglySorted_inv in Htimes as [Hs Hall]. destruct j as [|j]; [lia|]. simpl in *.
  destruct (enforce now r p e) as [b e'] eqn:He. simpl in *. destruct i as [|i].
  - simpl in *. injection H1 as -> ->. injection Hacc1 as ->.
    apply enforce_accept in He as ->.
    by apply (enforce_all_larger p calls (mkEnforcer q1 t1) j t2 q2).
  - apply (IH Hs e' i j); [lia|done..].
Qed.

Lemma validated_sequences_increase_witness :
  enforce_all default_vparms [(10, 5); (20, 5); (30, 7)] SeqEnforcer_ctor = [true; false; true]
  ∧ 5 < 7.
Proof.
  split; [vm_compute; reflexivity|].
  apply (validated_sequences_increase default_vparms [(10, 5); (20, 5); (30, 7)]
    SeqEnforcer_ctor 0 2 10 30 5 7); try reflexivity.
  - repeat constructor; discriminate.
  - repeat constructor.
  - vm_compute. discriminate.
Defined.

(** when a validation is current.  For a validation seen no later than
    now, only its signing time counts: it must lie less than
    [validationCURRENT_EARLY] in the past and less than
    [validationCURRENT_WALL] in the future.  The time it was first seen plays
    no role, however long ago that was. *)
Theorem isCurrent_window (p : ValidationParms) (now signTime seenTime : Z)
    (Hlocal : 0 < validationCURRENT_LOCAL p) (Hseen : seenTime ≤ now) :
  isCurrent p now signTime seenTime = true ↔
  now - validationCURRENT_EARLY p < signTime < now + validationCURRENT_WALL p.
Proof.
  unfold isCurrent. rewrite !andb_true_iff, orb_true_iff, !Z.ltb_lt. intuition lia.
Qed.

Lemma isCurrent_window_witness :
  isCurrent default_vparms 100000 99900 1 = true.
Proof. apply (isCurrent_window default_vparms 100000 99900 1); vm_compute; auto; discriminate. Defined.

(** ** A concrete store *)

#[export] Instance demo_nodes : NodeTypes := {
  NodeID := Z; NodeKey := Z; NodeID_order := default_order Z;
  ID_order := default_order (list Z); SeqID_order := default_order (Z * list Z);
}.

Definition demo_env (now : Z) (known : list (@Ledger demo_ledger)) : VEnv := {|
  adaptor_now := now; steady_now := nanos now;
  acquire := λ x, List.find (λ l, bool_decide (ledger_ID l = x)) known;
  vparms := default_vparms;
|}.

Definition demo_val (l : @Ledger demo_ledger) (time key : Z) : Validation :=
  mkValidation (ledger_ID l) (seq l) time time key true true None 0.

Definition demo_set : gset (@NodeID demo_ledger demo_nodes) := {[1; 2; 3]}.

Definition demo_calls : list (VEnv * vcall) :=
  [(demo_env 1000 [hA], Add 1 (demo_val hA 1000 11));
   (demo_env 1001 [hA], Add 2 (demo_val hAB 1001 12));
   (demo_env 1002 [hA; hAB; hAC], Add 3 (demo_val hAC 1002 13));
   (demo_env 1003 [hA; hAB; hAC], GetPreferred hA)].

Lemma demo_small : Z.of_nat (size demo_set) + 1 < 2 ^ 32.
Proof. vm_compute. reflexivity. Qed.

Lemma demo_calls_ok : Forall (λ ec : VEnv * vcall, vcall_ok demo_set ec.2) demo_calls.
Proof. unfold demo_calls, vcall_ok, demo_set. repeat constructor; simpl; set_solver. Qed.

Lemma demo_counts : ∃ s, vrun_all demo_calls Validations_ctor = Ok s ∧
  (count_id (ledger_ID hAC) (last_ledgers s) =? 1) &&
  (branch_of (last_ledgers s) (seq hA) (ledger_ID hA) =? 3) = true.
Proof. apply ok_test. vm_compute. reflexivity. Qed.

Lemma trie_counts_last_ledgers_witness :
  ∃ s, vrun_all demo_calls Validations_ctor = Ok s ∧
    trie_tipSupport hAC (trie_ s) = 1 ∧ trie_branchSupport hA (trie_ s) = 3.
Proof.
  destruct (trie_counts_last_ledgers demo_set demo_small demo_calls demo_calls_ok)
    as (s & Hrun & Hl).
  exists s. split; [exact Hrun|]. rewrite (proj1 (Hl hAC)), (proj2 (Hl hA)).
  destruct demo_counts as (s' & Hs' & Ht).
  rewrite Hrun in Hs'. injection Hs' as <-. apply andb_true_iff in Ht as [H1 H2].
  split; by apply Z.eqb_eq.
Defined.

Lemma getPreferred_answer_witness :
  ∃ s r s' w, vrun_all demo_calls Validations_ctor = Ok s ∧
    Validations.getPreferred (demo_env 1004 [hA; hAB; hAC]) hA s = Ok (r, s', w) ∧
    current_ s' = filter (λ kv, live (demo_env 1004 [hA; hAB; hAC]) kv.2 = true) (current_ s).
Proof.
  destruct (getPreferred_answer demo_set demo_small demo_calls
    (demo_env 1004 [hA; hAB; hAC]) hA demo_calls_ok) as (s & r & s' & w & Hrun & Hp & Hc & _).
  exists s, r, s', w. exact (conj Hrun (conj Hp Hc)).
Defined.

Lemma add_effect_witness :
  ∃ s st s' w, vrun_all demo_calls Validations_ctor = Ok s ∧
    add (demo_env 1005 [hA; hAB; hAC]) 1 (demo_val hAC 1005 11) s = Ok (st, s', w) ∧
    add_post (demo_env 1005 [hA; hAB; hAC]) 1 (demo_val hAC 1005 11) s st s'.
Proof.
  apply (add_effect demo_set demo_small demo_calls); [exact demo_calls_ok|].
  unfold demo_set. set_solver.
Defined.

Lemma laggards_within_total_witness :
  ∃ s c rest s' w, vrun_all demo_calls Validations_ctor = Ok s ∧
    laggards (demo_env 1010 []) 2 {[11; 12; 13; 14]} s = Ok ((c, rest), s', w) ∧
    c + Z.of_nat (size rest) ≤ 4.
Proof.
  destruct (laggards_within_total demo_set demo_small demo_calls (demo_env 1010 []) 2
    {[11; 12; 13; 14]} demo_calls_ok) as (s & c & rest & s' & w & Hrun & Hl & _ & Hs & _).
  exists s, c, rest, s', w. exact (conj Hrun (conj Hl Hs)).
Defined.

Definition demo_first : VM ValStatus :=
  add (demo_env 1005 []) 1 (demo_val hAB 1005 11).
Definition demo_second : VM ValStatus :=
  add (demo_env 1006 []) 1 (demo_val hAC 1006 11).

Lemma demo_first_accepted : ∃ s, vrun_all demo_calls Validations_ctor = Ok s ∧
  match demo_first s, (aged_get (demo_env 1005 []) ∅ 2 (bySequence_ s)).2 !! (1 : NodeID) with
  | Ok (current_status, _, _), None => true
  | _, _ => false
  end = true.
Proof. apply ok_test. vm_compute. reflexivity. Qed.

Lemma conflict_detected_witness :
  ∃ s s1 w1 s2 w2, vrun_all demo_calls Validations_ctor = Ok s ∧
    demo_first s = Ok (current_status, s1, w1) ∧
    demo_second s1 = Ok (conflicting, s2, w2) ∧ same_support s1 s2.
Proof.
  destruct (conflict_detected demo_set demo_small demo_calls (demo_env 1005 []) (demo_env 1006 [])
    1 (demo_val hAB 1005 11) (demo_val hAC 1006 11)) as (s & st & s1 & w1 & Hrun & H1 & H2);
    [exact demo_calls_ok|unfold demo_set; set_solver|reflexivity|reflexivity|discriminate|
     vm_compute; discriminate|vm_compute; discriminate|].
  fold demo_first in H1. fold demo_second in H2.
  destruct demo_first_accepted as (s' & Hs' & Ht). rewrite Hrun in Hs'. injection Hs' as <-.
  rewrite H1 in Ht. destruct st; [|discriminate Ht..].
  destruct (H2 eq_refl) as (s2 & w2 & Hadd & Hsame).
  { change (val_seq (demo_val hAB 1005 11)) with 2. destruct (_ !! _); [discriminate Ht|done]. }
  exists s, s1, w1, s2, w2. exact (conj Hrun (conj H1 (conj Hadd Hsame))).
Defined.

(** ** Support that outlives its validation *)



