(* ===== verification/Outcome.v ===== *)
(** * Outcomes of code that throws

    [exc] is the result of a C++ function that may throw: it returns, throws,
    fails an [assert] or has undefined behaviour ([Abort]), or the bound of one
    of the model's loops is exhausted ([NoFuel]).  [ST] adds an object the code
    mutates: the object keeps the changes made before an exception is thrown. *)
From S2P Require Import Prelude.

Inductive exc (A : Type) : Type :=
  | Return (a : A)
  | Throw (what : string)
  | Abort (what : string)
  | NoFuel.
Arguments Return {A} a.
Arguments Throw {A} what.
Arguments Abort {A} what.
Arguments NoFuel {A}.

#[export] Instance exc_ret : MRet exc := λ A a, Return a.
#[export] Instance exc_bind : MBind exc := λ A B k m,
  match m with Return a => k a | Throw e => Throw e | Abort e => Abort e | NoFuel => NoFuel end.

#[export] Instance exc_fmap : FMap exc := λ A B f m, a ← m; Return (f a).

Definition returns {A} (r : exc A) : bool := match r with Return _ => true | _ => false end.

(** Neither undefined behaviour nor a failed assertion nor a cut-off loop:
    the outcomes a C++ caller can handle. *)
Definition defined {A} (r : exc A) : Prop :=
  match r with Return _ | Throw _ => True | Abort _ | NoFuel => False end.

Lemma defined_bind {A B} (m : exc A) (k : A → exc B) :
  defined m → (∀ a, m = Return a → defined (k a)) → defined (m ≫= k).
Proof. destruct m; cbn; auto. Qed.

(** A returned value and a test on it, decided by evaluation. *)
Lemma return_test {A} (r : exc A) (test : A → bool) :
  match r with Return a => test a | _ => false end = true → ∃ a, r = Return a ∧ test a = true.
Proof. destruct r; [eauto|done..]. Qed.

(** ** Wider machine integers *)

Definition u8 (x : Z) : Z := x mod 2 ^ 8.
Definition u16 (x : Z) : Z := x mod 2 ^ 16.
Definition i64 (x : Z) : Z := (x + 2 ^ 63) mod 2 ^ 64 - 2 ^ 63.
Definition u128 (x : Z) : Z := x mod 2 ^ 128.

Lemma u8_id x : 0 ≤ x < 2 ^ 8 → u8 x = x.
Proof. apply Z.mod_small. Qed.
Lemma u8_range x : 0 ≤ u8 x < 2 ^ 8.
Proof. apply Z.mod_pos_bound. lia. Qed.
Lemma u16_id x : 0 ≤ x < 2 ^ 16 → u16 x = x.
Proof. apply Z.mod_small. Qed.
Lemma i64_id x : - 2 ^ 63 ≤ x < 2 ^ 63 → i64 x = x.
Proof. intros. unfold i64. rewrite Z.mod_small; lia. Qed.
Lemma u128_id x : 0 ≤ x < 2 ^ 128 → u128 x = x.
Proof. apply Z.mod_small. Qed.

(** ** Code that throws and mutates an object *)

Definition ST (S A : Type) : Type := S → exc A * S.

#[export] Instance ST_ret {S} : MRet (ST S) := λ A a s, (Return a, s).
#[export] Instance ST_bind {S} : MBind (ST S) := λ A B k m s,
  match m s with
  | (Return a, s') => k a s'
  | (Throw e, s') => (Throw e, s')
  | (Abort e, s') => (Abort e, s')
  | (NoFuel, s') => (NoFuel, s')
  end.

Section ST.
Context {S : Type}.

Definition sget : ST S S := λ s, (Return s, s).
Definition sput (s : S) : ST S unit := λ _, (Return (), s).
Definition smodify (f : S → S) : ST S unit := λ s, (Return (), f s).
Definition throw {A} (what : string) : ST S A := λ s, (Throw what, s).
Definition slift {A} (r : exc A) : ST S A := λ s, (r, s).
(** [assert (b)]. *)
Definition sassert (b : bool) (what : string) : ST S unit :=
  λ s, (if b then Return () else Abort what, s).
(** [if (b) Throw<...>(what)]. *)
Definition throw_if (b : bool) (what : string) : ST S unit :=
  λ s, (if b then Throw what else Return (), s).
End ST.

Lemma ST_bind_return {S A B} (m : ST S A) (k : A → ST S B) s a s' :
  m s = (Return a, s') → (m ≫= k) s = k a s'.
Proof. unfold mbind, ST_bind. by intros ->. Qed.

Lemma ST_bind_throw {S A B} (m : ST S A) (k : A → ST S B) s e s' :
  m s = (Throw e, s') → (m ≫= k) s = (Throw e, s').
Proof. unfold mbind, ST_bind. by intros ->. Qed.

Lemma ST_bind_abort {S A B} (m : ST S A) (k : A → ST S B) s e s' :
  m s = (Abort e, s') → (m ≫= k) s = (Abort e, s').
Proof. unfold mbind, ST_bind. by intros ->. Qed.

(** The state invariant [I] is kept and the outcome is one a caller handles. *)
Definition keeps {S A} (I : S → Prop) (m : ST S A) : Prop :=
  ∀ s, I s → defined (m s).1 ∧ I (m s).2.

Section keeps.
Context {S : Type} (I : S → Prop).

Lemma ST_keeps_ret {A} (a : A) : keeps I (mret a).
Proof. by intros s Hs. Qed.

Lemma ST_keeps_bind {A B} (m : ST S A) (k : A → ST S B) :
  keeps I m → (∀ a, keeps I (k a)) → keeps I (m ≫= k).
Proof.
  intros Hm Hk s Hs. unfold mbind, ST_bind. destruct (Hm s Hs) as [Hd Hi].
  destruct (m s) as [[a|e|e|] s']; cbn in *; [by apply Hk|done..].
Qed.

Lemma ST_keeps_get : keeps I sget.
Proof. by intros s Hs. Qed.

Lemma ST_keeps_throw {A} what : keeps I (throw (A:=A) what).
Proof. by intros s Hs. Qed.

Lemma ST_keeps_throw_if b what : keeps I (throw_if b what).
Proof. intros s Hs. by destruct b. Qed.

Lemma ST_keeps_if {A} (b : bool) (m1 m2 : ST S A) :
  keeps I m1 → keeps I m2 → keeps I (if b then m1 else m2).
Proof. by destruct b. Qed.
End keeps.

Create HintDb keeps.
#[export] Hint Resolve ST_keeps_ret ST_keeps_bind ST_keeps_get ST_keeps_throw ST_keeps_throw_if ST_keeps_if : keeps.
