(* ===== verification/Bytes.v ===== *)
(** * Bytes and bit fields

    A byte is a [Z] between 0 and 255; integers are stored big endian. *)
From S2P Require Import Prelude Outcome.

Definition is_byte (x : Z) : Prop := 0 ≤ x < 256.

Lemma land_255 x : Z.land x 255 = x mod 2 ^ 8.
Proof. by rewrite <- (Z.land_ones x 8). Qed.

Lemma u8_byte x : is_byte x → u8 x = x.
Proof. unfold is_byte. intros. apply u8_id. lia. Qed.

Lemma u8_is_byte x : is_byte (u8 x).
Proof. unfold is_byte. pose proof (u8_range x). lia. Qed.

(** Disjoint bits are added. *)
Lemma lor_disjoint a b k : 0 ≤ k → 0 ≤ b < 2 ^ k → Z.lor (a * 2 ^ k) b = a * 2 ^ k + b.
Proof.
  intros Hk Hb. rewrite <- Z.shiftl_mul_pow2 by done.
  assert (Hdis : Z.land (Z.shiftl a k) b = 0).
  { apply Z.bits_inj_0. intros n. rewrite Z.land_spec.
    destruct (Z.ltb_spec n k) as [Hn|Hn].
    - by rewrite Z.shiftl_spec_low by lia.
    - rewrite <- (Z.mod_small b (2 ^ k)), Z.mod_pow2_bits_high by lia. apply andb_false_r. }
  by rewrite <- Z.lxor_lor, <- Z.add_nocarry_lxor by done.
Qed.

(** The big endian bytes of an integer, [n] of them. *)
Fixpoint be_bytes (n : nat) (i : Z) : list Z :=
  match n with O => [] | S n => u8 (Z.shiftr i (8 * Z.of_nat n)) :: be_bytes n i end.

Fixpoint be_value (bs : list Z) : Z :=
  match bs with [] => 0 | b :: bs => b * 2 ^ (8 * Z.of_nat (length bs)) + be_value bs end.

Lemma length_be_bytes n i : length (be_bytes n i) = n.
Proof. induction n; cbn; congruence. Qed.

Lemma be_bytes_are_bytes n i : Forall is_byte (be_bytes n i).
Proof. induction n; constructor; auto using u8_is_byte. Qed.

Lemma be_value_bytes n i : be_value (be_bytes n i) = i mod 2 ^ (8 * Z.of_nat n).
Proof.
  induction n as [|n IH]; [by rewrite Z.mod_1_r|].
  cbn [be_bytes be_value]. rewrite length_be_bytes, IH. unfold u8.
  rewrite Z.shiftr_div_pow2 by lia.
  replace (8 * Z.of_nat (S n)) with (8 * Z.of_nat n + 8) by lia.
  rewrite Z.pow_add_r, Z.rem_mul_r by lia. lia.
Qed.

Lemma be_value_read n i : 0 ≤ i < 2 ^ (8 * Z.of_nat n) → be_value (be_bytes n i) = i.
Proof. intros. rewrite be_value_bytes. by apply Z.mod_small. Qed.

Lemma be_value_range bs : Forall is_byte bs → 0 ≤ be_value bs < 2 ^ (8 * Z.of_nat (length bs)).
Proof.
  induction 1 as [|b bs Hb Hbs IH]; [done|]. cbn [be_value length]. unfold is_byte in Hb.
  replace (8 * Z.of_nat (S (length bs))) with (8 + 8 * Z.of_nat (length bs)) by lia.
  rewrite Z.pow_add_r by lia. nia.
Qed.

(** Two nibbles of a byte. *)
Lemma nibbles hi lo : 0 ≤ hi < 16 → 0 ≤ lo < 16 →
  Z.lor (Z.shiftl hi 4) lo = 16 * hi + lo ∧
  Z.land (16 * hi + lo) 15 = lo ∧ Z.shiftr (16 * hi + lo) 4 = hi.
Proof.
  intros Hh Hl. change 15 with (Z.ones 4). rewrite Z.land_ones, Z.shiftr_div_pow2 by lia.
  rewrite Z.shiftl_mul_pow2, lor_disjoint by lia.
  replace (16 * hi + lo) with (lo + hi * 2 ^ 4) by lia.
  rewrite Z.mod_add, Z.div_add, Z.mod_small, Z.div_small by lia. lia.
Qed.

(** ** Public keys ([protocol/impl/PublicKey.cpp]) *)

Inductive KeyType := ed25519 | secp256k1.

Definition publicKeyType (slice : list Z) : option KeyType :=
  if (length slice =? 33)%nat then
    if default 0 (head slice) =? 237 then Some ed25519
    else if (default 0 (head slice) =? 2) || (default 0 (head slice) =? 3) then Some secp256k1
    else None
  else None.
