(* ===== verification/ReduceRelay.v ===== *)
(** * Relay reduction ([overlay/Slot.h], [overlay/Squelch.h])

    For each validator a slot counts the messages received from the peers,
    selects the peers that shall go on relaying them, and asks the others to
    stop for a while.  [Squelch] is the receiving side of these requests.

    Times are seconds of the uptime clock; within one call of a slot the
    clock answers the same second.  Random draws are numbered, and what the
    distribution answers is an argument of the model. *)
From S2P Require Import Prelude Bytes.

(** ** Constants ([overlay/ReduceRelayCommon.h]) *)

Definition MIN_UNSQUELCH_EXPIRE : Z := 300.
Definition MAX_UNSQUELCH_EXPIRE_DEFAULT : Z := 600.
Definition SQUELCH_PER_PEER : Z := 10.
Definition MAX_UNSQUELCH_EXPIRE_PEERS : Z := 3600.
Definition IDLED : Z := 8.
Definition MIN_MESSAGE_THRESHOLD : Z := 9.
Definition MAX_MESSAGE_THRESHOLD : Z := 10.
Definition MAX_SELECTED_PEERS : Z := 5.

(** ** State *)

Inductive PeerState := PCounting | PSelected | PSquelched.
Inductive SlotState := SCounting | SSelected.

#[export] Instance PeerState_eq_dec : EqDecision PeerState.
Proof. solve_decision. Defined.
#[export] Instance SlotState_eq_dec : EqDecision SlotState.
Proof. solve_decision. Defined.

Record PeerInfo := mkPeer { pstate : PeerState; count : Z; expire : Z; lastMessage : Z }.

Definition set_pstate (x : PeerState) (p : PeerInfo) : PeerInfo :=
  mkPeer x (count p) (expire p) (lastMessage p).
Definition set_count (x : Z) (p : PeerInfo) : PeerInfo :=
  mkPeer (pstate p) x (expire p) (lastMessage p).
Definition set_expire (x : Z) (p : PeerInfo) : PeerInfo :=
  mkPeer (pstate p) (count p) x (lastMessage p).
Definition set_lastMessage (x : Z) (p : PeerInfo) : PeerInfo :=
  mkPeer (pstate p) (count p) (expire p) x.

(** Peers are identified by 32-bit numbers. *)
Record Slot := mkSlot {
  peers_ : gmap Z PeerInfo;
  considered_ : gset Z;
  reachedThreshold_ : Z;
  lastSelected_ : Z;
  state_ : SlotState;
}.

Definition u16 (x : Z) : Z := x mod 2 ^ 16.

Definition Slot_ctor (now : Z) : Slot := mkSlot ∅ ∅ 0 now SCounting.

Definition set_peers (m : gmap Z PeerInfo) (s : Slot) : Slot :=
  mkSlot m (considered_ s) (reachedThreshold_ s) (lastSelected_ s) (state_ s).

(** What the clock and the random number generator answer during one call. *)
Record RelayEnv := mkRelayEnv {
  relay_now : Z;
  uniform_int : nat → Z → Z → Z;
}.

(** [std::uniform_int_distribution] draws from the closed interval. *)
Definition uniform_ok (env : RelayEnv) : Prop :=
  ∀ i lo hi, lo ≤ hi → lo ≤ uniform_int env i lo hi ≤ hi.

(** [rand_int] of [basics/random.h], the [i]-th draw. *)
Definition rand_int (env : RelayEnv) (i : nat) (min max : Z) : res Z :=
  _ ← rassert (min <? max) "max > min"; mret (uniform_int env i min max).

(** Requests to a peer to stop relaying, for a time, and to start again. *)
Inductive request := squelch (id duration : Z) | unsquelch (id : Z).

Section slot.
Context `{PeerOrder : !HashOrder Z} (env : RelayEnv).

Definition getSquelchDuration (i : nat) (npeers : Z) : res Z :=
  let m := Z.max MAX_UNSQUELCH_EXPIRE_DEFAULT (u64 (SQUELCH_PER_PEER * npeers)) in
  let m := if MAX_UNSQUELCH_EXPIRE_PEERS <? m then MAX_UNSQUELCH_EXPIRE_PEERS else m in
  rand_int env i MIN_UNSQUELCH_EXPIRE m.

Definition resetCounts (s : Slot) : Slot := set_peers (set_count 0 <$> peers_ s) s.

Definition initCounting (s : Slot) : Slot :=
  resetCounts (mkSlot (peers_ s) ∅ 0 (lastSelected_ s) SCounting).

(** The [while] loop that picks the relays, with the number of draws made. *)
Fixpoint selectPeers (fuel : nat) (i : nat) (peers : gmap Z PeerInfo)
    (considered selected : gset Z) : res (gset Z * nat) :=
  if (Z.of_nat (size selected) =? MAX_SELECTED_PEERS) || (Z.of_nat (size considered) =? 0)
  then mret (selected, i)
  else match fuel with
  | O => OutOfFuel
  | S fuel =>
      '(pos, i) ← (if Z.of_nat (size considered) =? 1 then mret (0, i)
                   else r ← rand_int env i 0 (Z.of_nat (size considered) - 1);
                        mret (r, S i));
      id ← runwrap (hash_set_elems considered !! Z.to_nat pos) "std::next in range";
      let considered := considered ∖ {[id]} in
      match peers !! id with
      | None => selectPeers fuel i peers considered selected
      | Some p =>
          selectPeers fuel i peers considered
            (if relay_now env - lastMessage p <? IDLED then {[id]} ∪ selected else selected)
      end
  end.

(** The loop over all peers after a selection. *)
Fixpoint squelchLoop (selected : gset Z) (l : list (Z * PeerInfo)) (i : nat)
    (peers : gmap Z PeerInfo) : res (gmap Z PeerInfo * list request) :=
  match l with
  | [] => mret (peers, [])
  | (k, v) :: l =>
      let v := set_count 0 v in
      if bool_decide (k ∈ selected) then
        squelchLoop selected l i (<[k := set_pstate PSelected v]> peers)
      else if bool_decide (pstate v ≠ PSquelched) then
        duration ← getSquelchDuration i (Z.of_nat (size peers) - MAX_SELECTED_PEERS);
        '(peers, w) ← squelchLoop selected l (S i)
          (<[k := set_expire (relay_now env + duration) (set_pstate PSquelched v)]> peers);
        mret (peers, squelch k duration :: w)
      else squelchLoop selected l i (<[k := v]> peers)
  end.

(** The end of [update], once enough peers have reached the threshold. *)
Definition select (s : Slot) : res (Slot * list request) :=
  '(selected, i) ← selectPeers (size (considered_ s)) 0 (peers_ s) (considered_ s) ∅;
  if negb (Z.of_nat (size selected) =? MAX_SELECTED_PEERS) then mret (initCounting s, [])
  else
    _ ← rassert (MAX_SELECTED_PEERS <=? Z.of_nat (size (peers_ s)))
          "peers_.size() >= MAX_SELECTED_PEERS";
    '(peers, w) ← squelchLoop selected (hash_elems (peers_ s)) i (peers_ s);
    mret (mkSlot peers ∅ 0 (relay_now env) SSelected, w).

Definition update (id : Z) (s : Slot) : res (Slot * list request) :=
  let now := relay_now env in
  match peers_ s !! id with
  | None => mret (initCounting (set_peers (<[id := mkPeer PCounting 0 now now]> (peers_ s)) s), [])
  | Some p =>
      if bool_decide (pstate p = PSquelched) && (expire p <? now) then
        let p := set_lastMessage now (set_pstate PCounting p) in
        mret (initCounting (set_peers (<[id := p]> (peers_ s)) s), [])
      else
        let p := set_lastMessage now p in
        if bool_decide (state_ s ≠ SCounting) || bool_decide (pstate p = PSquelched) then
          mret (set_peers (<[id := p]> (peers_ s)) s, [])
        else
          let p := set_count (u64 (count p + 1)) p in
          let considered := if MIN_MESSAGE_THRESHOLD <? count p
                            then {[id]} ∪ considered_ s else considered_ s in
          let reached := if count p =? MAX_MESSAGE_THRESHOLD + 1
                         then u16 (reachedThreshold_ s + 1) else reachedThreshold_ s in
          let s := mkSlot (<[id := p]> (peers_ s)) considered reached (lastSelected_ s)
                     (state_ s) in
          if 2 * MAX_UNSQUELCH_EXPIRE_DEFAULT <? now - lastSelected_ s then
            mret (initCounting s, [])
          else if reachedThreshold_ s =? MAX_SELECTED_PEERS then select s
          else mret (s, [])
  end.

(** The peers asked to start again when a relay is lost. *)
Definition squelchedIds (s : Slot) : list Z :=
  (filter (λ kv, pstate kv.2 = PSquelched) (hash_elems (peers_ s))).*1.

Definition deletePeer (id : Z) (erase : bool) (s : Slot) : Slot * list request :=
  let now := relay_now env in
  match peers_ s !! id with
  | None => (s, [])
  | Some p =>
      let '(s, w) :=
        if bool_decide (pstate p = PSelected) then
          (mkSlot ((λ v, set_expire now (set_count 0 (set_pstate PCounting v))) <$> peers_ s)
             ∅ 0 (lastSelected_ s) SCounting,
           unsquelch <$> squelchedIds s)
        else if bool_decide (id ∈ considered_ s) then
          (mkSlot (peers_ s) (considered_ s ∖ {[id]})
             (if MAX_MESSAGE_THRESHOLD <? count p then u16 (reachedThreshold_ s - 1)
              else reachedThreshold_ s) (lastSelected_ s) (state_ s), [])
        else (s, []) in
      let touch v := set_count 0 (set_lastMessage now v) in
      (set_peers (if erase then delete id (peers_ s) else alter touch id (peers_ s)) s, w)
  end.

Definition deleteIdlePeer (s : Slot) : Slot * list request :=
  foldl (λ '(s, w) id,
    match peers_ s !! id with
    | Some p => if IDLED <? relay_now env - lastMessage p
                then let '(s, w') := deletePeer id false s in (s, w ++ w')
                else (s, w)
    | None => (s, w)
    end) (s, []) (hash_elems (peers_ s)).*1.

Definition inState (x : PeerState) (s : Slot) : Z :=
  u16 (Z.of_nat (size (filter (λ kv, pstate kv.2 = x) (peers_ s)))).
Definition notInState (x : PeerState) (s : Slot) : Z :=
  u16 (Z.of_nat (size (filter (λ kv, pstate kv.2 ≠ x) (peers_ s)))).
Definition getSelected (s : Slot) : gset Z :=
  dom (filter (λ kv, pstate kv.2 = PSelected) (peers_ s)).
End slot.

(** ** All slots *)

Section slots.
Context {PublicKey : Type} `{KeyOrder : HashOrder PublicKey} `{PeerOrder : !HashOrder Z}.

Record Slots := mkSlots {
  slots_ : gmap PublicKey Slot;
  peersWithMessage_ : gmap Z (Z * gset Z);
}.

(** The requests of a slot, with the validator they are about. *)
Definition tag (validator : PublicKey) (w : list request) : list (PublicKey * request) :=
  (λ r, (validator, r)) <$> w.

Definition Slots_ctor : Slots := mkSlots ∅ ∅.

Section with_env.
Context (env : RelayEnv).

(** [beast::expire]: entries not touched for [IDLED] seconds are dropped. *)
Definition expireMessages (m : gmap Z (Z * gset Z)) : gmap Z (Z * gset Z) :=
  filter (λ kv : Z * (Z * gset Z), relay_now env - IDLED < kv.2.1) m.

Definition addPeerMessage (key id : Z) (s : Slots) : bool * Slots :=
  let m := expireMessages (peersWithMessage_ s) in
  if negb (key =? 0) then
    match m !! key with
    | None => (true, mkSlots (slots_ s) (<[key := (relay_now env, {[id]})]> m))
    | Some (t, ids) =>
        if bool_decide (id ∈ ids) then (false, mkSlots (slots_ s) m)
        else (true, mkSlots (slots_ s) (<[key := (t, {[id]} ∪ ids)]> m))
    end
  else (true, mkSlots (slots_ s) m).

Definition updateSlotAndSquelch (key : Z) (validator : PublicKey) (id : Z) (s : Slots) :
    res (Slots * list (PublicKey * request)) :=
  let added := addPeerMessage key id s in
  let s := added.2 in
  if negb added.1 then mret (s, [])
  else
    let slot := default (Slot_ctor (relay_now env)) (slots_ s !! validator) in
    '(slot, w) ← update env id slot;
    mret (mkSlots (<[validator := slot]> (slots_ s)) (peersWithMessage_ s),
          tag validator w).

Definition deletePeers (id : Z) (erase : bool) (s : Slots) :
    Slots * list (PublicKey * request) :=
  foldl (λ '(s, w) '(validator, slot),
    let '(slot, w') := deletePeer env id erase slot in
    (mkSlots (<[validator := slot]> (slots_ s)) (peersWithMessage_ s),
     w ++ (tag validator w'))) (s, []) (hash_elems (slots_ s)).

Definition deleteIdlePeers (s : Slots) : Slots * list (PublicKey * request) :=
  foldl (λ '(s, w) '(validator, slot),
    let '(slot, w') := deleteIdlePeer env slot in
    (mkSlots (if MAX_UNSQUELCH_EXPIRE_DEFAULT <? relay_now env - lastSelected_ slot
              then delete validator (slots_ s) else <[validator := slot]> (slots_ s))
       (peersWithMessage_ s),
     w ++ (tag validator w'))) (s, []) (hash_elems (slots_ s)).
End with_env.

(** ** The receiving side *)

(** [Squelch]: until when each validator is squelched. *)
Abbreviation Squelch := (gmap PublicKey Z).

Definition removeSquelch (validator : PublicKey) (s : Squelch) : Squelch := delete validator s.

Definition addSquelch (now : Z) (validator : PublicKey) (squelchDuration : Z) (s : Squelch) :
    bool * Squelch :=
  if (MIN_UNSQUELCH_EXPIRE <=? squelchDuration) && (squelchDuration <=? MAX_UNSQUELCH_EXPIRE_PEERS)
  then (true, <[validator := now + squelchDuration]> s)
  else (false, removeSquelch validator s).

Definition expireSquelch (now : Z) (validator : PublicKey) (s : Squelch) : bool * Squelch :=
  match s !! validator with
  | None => (true, s)
  | Some t => if now <? t then (false, s) else (true, delete validator s)
  end.

End slots.
Arguments Slots _ {_ _}.

(** ** Between the two ends ([overlay/impl/OverlayImpl.cpp], [overlay/impl/PeerImp.cpp],
    [protocol/PublicKey.h])

    What the slots ask of their [SquelchHandler], which is the overlay, and
    what a peer makes of the messages it sends.  The keys of slots and squelches
    are the bytes of a [PublicKey], its [slice()]. *)

(** The size is zero unless a constructor or an assignment sets it. *)
Record PublicKey := mkPublicKey { size_ : nat; buf_ : list Z }.

Definition slice (k : PublicKey) : list Z := take (size_ k) (buf_ k).

Record TMSquelch := mkTMSquelch {
  m_squelch : bool;
  m_validatorpubkey : option (list Z);
  m_squelchduration : option Z;
}.

Definition makeSquelchMessage (validator : list Z) (squelch : bool) (squelchDuration : Z) : TMSquelch :=
  mkTMSquelch squelch (Some validator) (if squelch then Some squelchDuration else None).

Section overlay.
(** The configuration, whether [findPeerByShortID] finds a peer, and what the
    compiler makes of the shift by 32 bits, which the language leaves undefined. *)
Context (VP_REDUCE_RELAY_SQUELCH : bool) (findPeerByShortID : Z → bool) (shift32 : Z).

Definition OverlayImpl_unsquelch (validator : list Z) (id : Z) : list (Z * TMSquelch) :=
  if findPeerByShortID id && VP_REDUCE_RELAY_SQUELCH
  then [(id, makeSquelchMessage validator false 0)] else [].

(** The key [OverlayImpl::squelch] allocates: only its buffer is written. *)
Definition validator1 : PublicKey :=
  mkPublicKey 0 (((λ j, Z.shiftr 255 (Z.of_nat j)) <$> seq 0 32) ++ [shift32]).

Definition OverlayImpl_squelch (validator : list Z) (id squelchDuration : Z) : list (Z * TMSquelch) :=
  if findPeerByShortID id && VP_REDUCE_RELAY_SQUELCH
  then replicate 100 (id, makeSquelchMessage (slice validator1) true squelchDuration) else [].

Definition handle (vr : list Z * request) : list (Z * TMSquelch) :=
  match vr.2 with
  | squelch id d => OverlayImpl_squelch vr.1 id d
  | unsquelch id => OverlayImpl_unsquelch vr.1 id
  end.
End overlay.

(** [PeerImp::onMessage] for a squelch message, at a node whose own validation
    key is [own]; the answer says whether the sender is charged. *)
Definition PeerImp_onSquelch (own : list Z) (now : Z) (m : TMSquelch) (s : gmap (list Z) Z) :
    bool * gmap (list Z) Z :=
  match m_validatorpubkey m with
  | None => (true, s)
  | Some key =>
      match publicKeyType key with
      | None => (true, s)
      | Some _ =>
          if bool_decide (key = own) then (false, s)
          else
            let duration := default 0 (m_squelchduration m) in
            if negb (m_squelch m) then (false, removeSquelch key s)
            else let '(b, s) := addSquelch now key duration s in (negb b, s)
      end
  end.

(** [PeerImp::send]: what becomes of a message.  The queue and the channel to
    the gossip network are lists, in order. *)
Record OutMessage := mkOutMessage { messageType : Z; validatorKey : option (list Z) }.

Record PeerOut := mkPeerOut {
  gracefulClose_ : bool;
  detaching_ : bool;
  squelched_ : gmap (list Z) Z;
  send_queue_ : list OutMessage;
  toLibP2P_ : list OutMessage;
}.

Definition PeerImp_send (now : Z) (m : OutMessage) (p : PeerOut) : PeerOut :=
  if gracefulClose_ p then p
  else if detaching_ p then p
  else if messageType m =? 41 then
    mkPeerOut (gracefulClose_ p) (detaching_ p) (squelched_ p) (send_queue_ p) (toLibP2P_ p ++ [m])
  else
    let '(go, s) := match validatorKey m with
                    | Some v => expireSquelch now v (squelched_ p)
                    | None => (true, squelched_ p)
                    end in
    mkPeerOut (gracefulClose_ p) (detaching_ p) s
      (if go then send_queue_ p ++ [m] else send_queue_ p) (toLibP2P_ p).
