(* ===== verification/ReduceRelayInv.v ===== *)
(** * Invariant of the slots

    The relays of a validator are none or exactly [MAX_SELECTED_PEERS], and
    no peer is squelched unless there are relays. *)
From S2P Require Import Prelude ReduceRelay.

(** ** Counting peers *)

Definition num (P : PeerInfo → bool) (m : gmap Z PeerInfo) : Z :=
  Z.of_nat (size (filter (λ kv, P kv.2 = true) m)).

Section num.
Context (P : PeerInfo → bool).
Implicit Types m : gmap Z PeerInfo.

Lemma num_insert_new m k v :
  m !! k = None → num P (<[k := v]> m) = num P m + Z.b2z (P v).
Proof.
  intros Hk. unfold num. destruct (P v) eqn:Hv; simpl.
  - rewrite map_filter_insert_True by done.
    rewrite map_size_insert_None by (apply map_lookup_filter_None_2; by left). lia.
  - rewrite map_filter_insert_False by (simpl; congruence). rewrite delete_id by done. lia.
Qed.

Lemma num_delete m k u :
  m !! k = Some u → num P (delete k m) = num P m - Z.b2z (P u).
Proof.
  intros Hk. rewrite <- (insert_delete_id m k u Hk) at 2.
  rewrite num_insert_new by apply lookup_delete_eq. lia.
Qed.

Lemma num_insert m k u v :
  m !! k = Some u → num P (<[k := v]> m) = num P m - Z.b2z (P u) + Z.b2z (P v).
Proof.
  intros Hk. rewrite <- insert_delete_eq, num_insert_new by apply lookup_delete_eq.
  by rewrite (num_delete m k u).
Qed.

Lemma num_fmap (f : PeerInfo → PeerInfo) m : num P (f <$> m) = num (λ v, P (f v)) m.
Proof. unfold num. by rewrite map_filter_fmap, map_size_fmap. Qed.

Lemma num_ext (Q : PeerInfo → bool) m :
  (∀ k v, m !! k = Some v → P v = Q v) → num P m = num Q m.
Proof.
  intros HPQ. unfold num. do 2 f_equal. apply map_filter_ext. intros k v Hk. simpl.
  by rewrite (HPQ k v Hk).
Qed.

Lemma num_zero m : (∀ k v, m !! k = Some v → P v = false) → num P m = 0.
Proof.
  intros HP. unfold num. rewrite map_empty_filter_2; [by rewrite map_size_empty|].
  intros k v Hk. simpl. by rewrite (HP k v Hk).
Qed.

Lemma num_nonneg m : 0 ≤ num P m.
Proof. unfold num. lia. Qed.

Lemma num_set m (X : gset Z) :
  (∀ k, k ∈ X ↔ ∃ v, m !! k = Some v ∧ P v = true) → num P m = Z.of_nat (size X).
Proof.
  intros HX. unfold num. rewrite <- size_dom. do 2 f_equal. apply set_eq. intros k.
  rewrite HX, elem_of_dom. unfold is_Some. by setoid_rewrite map_lookup_filter_Some.
Qed.

Lemma num_pos m k v : m !! k = Some v → P v = true → 0 < num P m.
Proof.
  intros Hk Hv. pose proof (num_delete m k v Hk) as Hd. rewrite Hv in Hd. simpl in Hd.
  pose proof (num_nonneg (delete k m)). lia.
Qed.
End num.

Definition is_selected (p : PeerInfo) : bool := bool_decide (pstate p = PSelected).
Definition over_max (p : PeerInfo) : bool := MAX_MESSAGE_THRESHOLD <? count p.

(** ** One slot *)

(** [n] bounds the number of messages seen. *)
Record slot_inv (n : Z) (s : Slot) : Prop := {
  si_considered id : id ∈ considered_ s ↔
    ∃ p, peers_ s !! id = Some p ∧ MIN_MESSAGE_THRESHOLD < count p;
  si_count id p : peers_ s !! id = Some p → 0 ≤ count p ≤ n;
  si_squelched id p : peers_ s !! id = Some p → pstate p = PSquelched → count p = 0;
  si_reached : reachedThreshold_ s = num over_max (peers_ s);
  si_small : reachedThreshold_ s < MAX_SELECTED_PEERS;
  si_relays : num is_selected (peers_ s) = MAX_SELECTED_PEERS ∨
    (num is_selected (peers_ s) = 0 ∧
     ∀ id p, peers_ s !! id = Some p → pstate p = PCounting);
  si_state : state_ s = SSelected → num is_selected (peers_ s) = MAX_SELECTED_PEERS ∧
    ∀ id p, peers_ s !! id = Some p → pstate p ≠ PCounting;
}.

Lemma slot_inv_new n now : slot_inv n (Slot_ctor now).
Proof.
  split; simpl; try done.
  - intros id. split; [set_solver|]. by intros (p & Hp & _).
  - right. split; [|done]. by apply num_zero.
Qed.

Lemma slot_inv_mono n n' s : n ≤ n' → slot_inv n s → slot_inv n' s.
Proof.
  intros Hn [? Hc ? ? ? ? ?]. split; try done. intros id p Hp. specialize (Hc id p Hp). lia.
Qed.

Definition relays (m : gmap Z PeerInfo) : Prop :=
  num is_selected m = MAX_SELECTED_PEERS ∨
  (num is_selected m = 0 ∧ ∀ id p, m !! id = Some p → pstate p = PCounting).

(** Starting to count again is possible in any state. *)
Lemma initCounting_inv n s : 0 ≤ n → relays (peers_ s) → slot_inv n (initCounting s).
Proof.
  intros Hn Hr. unfold initCounting, resetCounts. split; simpl; try done.
  - intros id. split; [set_solver|]. intros (p & Hp & Hc). apply lookup_fmap_Some in Hp.
    destruct Hp as (q & <- & _). simpl in Hc. unfold MIN_MESSAGE_THRESHOLD in Hc. lia.
  - intros id p Hp. apply lookup_fmap_Some in Hp as (q & <- & _). simpl. lia.
  - intros id p Hp. apply lookup_fmap_Some in Hp as (q & <- & _). done.
  - rewrite num_fmap. by rewrite num_zero.
  - rewrite num_fmap. rewrite (num_ext _ is_selected) by done.
    destruct Hr as [|[Hz Hall]]; [by left|right]. split; [done|].
    intros id p Hp. apply lookup_fmap_Some in Hp as (q & <- & Hq). by apply (Hall id q).
Qed.

(** A peer that counts, in place of none or of one that was not selected. *)
Lemma relays_counting m id p :
  pstate p = PCounting → (∀ q, m !! id = Some q → pstate q ≠ PSelected) →
  relays m → relays (<[id := p]> m).
Proof.
  intros Hp Hq Hr.
  assert (num is_selected (<[id := p]> m) = num is_selected m) as Hnum.
  { assert (is_selected p = false) as Hsel by (apply bool_decide_eq_false; congruence).
    destruct (m !! id) as [q|] eqn:Hid.
    - rewrite (num_insert _ m id q p Hid), Hsel.
      replace (is_selected q) with false; [simpl; lia|].
      symmetry. apply bool_decide_eq_false. by apply Hq.
    - rewrite num_insert_new, Hsel by done. simpl. lia. }
  destruct Hr as [Hr|[Hr Hall]]; [left; congruence|right]. split; [congruence|].
  intros id' q' [[<- <-]|[_ Hq']]%lookup_insert_Some; [done|]. by apply (Hall id').
Qed.

(** Changing neither state nor count of a peer changes nothing. *)
Lemma slot_inv_touch n s id p p' :
  peers_ s !! id = Some p → pstate p' = pstate p → count p' = count p →
  slot_inv n s → slot_inv n (set_peers (<[id := p']> (peers_ s)) s).
Proof.
  intros Hid Hst Hct [Hc Hn Hsq Hre Hsm Hrel Hss].
  assert (∀ P : PeerInfo → bool, P p' = P p →
    num P (<[id := p']> (peers_ s)) = num P (peers_ s)) as Hnum.
  { intros P HP. rewrite (num_insert P _ id p p' Hid), HP. lia. }
  assert (is_selected p' = is_selected p) as Hsel by (unfold is_selected; by rewrite Hst).
  assert (over_max p' = over_max p) as Hov by (unfold over_max; by rewrite Hct).
  assert (∀ id' q', <[id := p']> (peers_ s) !! id' = Some q' → ∃ q, peers_ s !! id' = Some q ∧
    pstate q' = pstate q ∧ count q' = count q) as Hback.
  { intros id' q' [[<- <-]|[_ Hq']]%lookup_insert_Some; eauto. }
  split; simpl; rewrite ?Hnum by done; try done.
  - intros id'. rewrite Hc. split; intros (q & Hq & Hlt).
    + destruct (decide (id = id')) as [<-|Hne].
      * exists p'. rewrite lookup_insert_eq, Hct. naive_solver.
      * exists q. by rewrite lookup_insert_ne.
    + apply Hback in Hq as (q0 & Hq & _ & Hct'). exists q0. split; [done|lia].
  - intros id' q' (q & Hq & _ & ->)%Hback. by apply (Hn id').
  - intros id' q' (q & Hq & Hst' & ->)%Hback. rewrite Hst'. by apply (Hsq id').
  - destruct Hrel as [|[? Hall]]; [by left|right]. split; [done|].
    intros id' q' (q & Hq & -> & _)%Hback. by apply (Hall id').
  - intros Hsel'. destruct (Hss Hsel') as [? Hall]. split; [done|].
    intros id' q' (q & Hq & -> & _)%Hback. by apply (Hall id').
Qed.

Section slot.
Context `{PeerOrder : !HashOrder Z} (env : RelayEnv) (Huniform : uniform_ok env).

Lemma rand_int_spec i lo hi :
  lo < hi → ∃ r, rand_int env i lo hi = Ok r ∧ lo ≤ r ≤ hi.
Proof.
  intros Hlt. unfold rand_int. rewrite (proj2 (Z.ltb_lt _ _)) by lia. simpl.
  eexists. split; [done|]. apply Huniform. lia.
Qed.

Lemma getSquelchDuration_spec i npeers :
  ∃ d, getSquelchDuration env i npeers = Ok d ∧
    MIN_UNSQUELCH_EXPIRE ≤ d ≤ MAX_UNSQUELCH_EXPIRE_PEERS.
Proof.
  unfold getSquelchDuration. set (m := Z.max _ _). set (m' := if MAX_UNSQUELCH_EXPIRE_PEERS <? m then _ else m).
  assert (MAX_UNSQUELCH_EXPIRE_DEFAULT ≤ m' ≤ MAX_UNSQUELCH_EXPIRE_PEERS) as Hm.
  { unfold m'. destruct (Z.ltb_spec MAX_UNSQUELCH_EXPIRE_PEERS m); [done|]. split; [|done].
    unfold m. lia. }
  unfold MAX_UNSQUELCH_EXPIRE_DEFAULT in Hm.
  destruct (rand_int_spec i MIN_UNSQUELCH_EXPIRE m') as (d & Hd & ?);
    [unfold MIN_UNSQUELCH_EXPIRE; lia|].
  exists d. split; [done|lia].
Qed.

(** The loop ends, and picks considered peers. *)
Lemma selectPeers_spec fuel i peers considered selected :
  (size considered ≤ fuel)%nat →
  Z.of_nat (size selected) ≤ MAX_SELECTED_PEERS →
  ∃ sel j, selectPeers env fuel i peers considered selected = Ok (sel, j) ∧
    Z.of_nat (size sel) ≤ MAX_SELECTED_PEERS ∧
    ∀ id, id ∈ sel → id ∈ selected ∨ (id ∈ considered ∧ is_Some (peers !! id)).
Proof.
  revert i considered selected. induction fuel as [|fuel IH];
    intros i considered selected Hfuel Hsel; cbn [selectPeers].
  { rewrite (proj2 (Z.eqb_eq (Z.of_nat (size considered)) 0)) by lia. rewrite orb_true_r.
    exists selected, i. split_and!; [done|done|]. auto. }
  destruct (_ || _) eqn:Hstop; [exists selected, i; split_and!; [done|done|]; auto|].
  apply orb_false_iff in Hstop as [Hs5%Z.eqb_neq Hc0%Z.eqb_neq].
  assert (∃ pos j, (if Z.of_nat (size considered) =? 1 then mret (0, i)
    else r ← rand_int env i 0 (Z.of_nat (size considered) - 1); mret (r, S i)) = Ok (pos, j) ∧
    (Z.to_nat pos < size considered)%nat) as (pos & j & -> & Hpos).
  { destruct (Z.eqb_spec (Z.of_nat (size considered)) 1); [exists 0, i; split; [done|lia]|].
    destruct (rand_int_spec i 0 (Z.of_nat (size considered) - 1)) as (r & -> & Hr); [lia|].
    exists r, (S i). split; [done|lia]. }
  simpl.
  destruct (hash_set_elems considered !! Z.to_nat pos) as [id|] eqn:Hid.
  2: { apply lookup_ge_None_1 in Hid. rewrite length_hash_set_elems in Hid. lia. }
  simpl. assert (id ∈ considered) as Hin.
  { apply elem_of_hash_set_elems. by apply list_elem_of_lookup_2 with (Z.to_nat pos). }
  assert (size (considered ∖ {[id]}) ≤ fuel)%nat as Hfuel'.
  { rewrite size_difference, size_singleton by set_solver. lia. }
  assert (∃ selected', match peers !! id with
      | None => selectPeers env fuel j peers (considered ∖ {[id]}) selected
      | Some p => selectPeers env fuel j peers (considered ∖ {[id]})
          (if relay_now env - lastMessage p <? IDLED then {[id]} ∪ selected else selected)
      end = selectPeers env fuel j peers (considered ∖ {[id]}) selected' ∧
    Z.of_nat (size selected') ≤ MAX_SELECTED_PEERS ∧
    ∀ x, x ∈ selected' → x ∈ selected ∨ (x = id ∧ is_Some (peers !! id)))
    as (selected' & -> & Hsz & Hel).
  { destruct (peers !! id) as [p|] eqn:Hp; [|exists selected; auto].
    destruct (relay_now env - lastMessage p <? IDLED); [|exists selected; auto].
    exists ({[id]} ∪ selected). split_and!; [done| |set_solver by eauto].
    pose proof (size_union_alt {[id]} selected) as Hu. rewrite size_singleton in Hu.
    pose proof (subseteq_size (selected ∖ {[id]}) selected ltac:(set_solver)). lia. }
  destruct (IH j (considered ∖ {[id]}) selected') as (sel & j' & -> & Hsz' & Hel'); [done..|].
  exists sel, j'. split_and!; [done..|]. intros x Hx. set_solver.
Qed.

(** ** The squelch loop *)

(** What the loop makes of one peer. *)
Definition squelched_as (sel : gset Z) (w : list request) (k : Z) (v v' : PeerInfo) : Prop :=
  if bool_decide (k ∈ sel) then v' = set_count 0 (set_pstate PSelected v)
  else if bool_decide (pstate v = PSquelched) then v' = set_count 0 v
  else ∃ d, squelch k d ∈ w ∧
    v' = mkPeer PSquelched 0 (relay_now env + d) (lastMessage v).

(** What a request of the loop tells. *)
Definition request_of (sel : gset Z) (l : list (Z * PeerInfo)) (peers' : gmap Z PeerInfo)
    (r : request) : Prop :=
  ∃ k v d, r = squelch k d ∧ ((k, v) ∈ l) ∧ (k ∉ sel) ∧ pstate v ≠ PSquelched ∧
    MIN_UNSQUELCH_EXPIRE ≤ d ≤ MAX_UNSQUELCH_EXPIRE_PEERS ∧
    peers' !! k = Some (mkPeer PSquelched 0 (relay_now env + d) (lastMessage v)).

Lemma squelchLoop_cons sel k v v0 l (peers peers' : gmap Z PeerInfo) w0 w :
  k ∉ l.*1 →
  (∀ k', k' ∉ l.*1 → peers' !! k' = <[k := v0]> peers !! k') →
  (∀ k' v', (k', v') ∈ l → ∃ v2, peers' !! k' = Some v2 ∧ squelched_as sel w0 k' v' v2) →
  (∀ r, r ∈ w0 → r ∈ w) → squelched_as sel w k v v0 →
  (∀ k', k' ∉ ((k, v) :: l).*1 → peers' !! k' = peers !! k') ∧
  (∀ k' v', (k', v') ∈ (k, v) :: l →
     ∃ v2, peers' !! k' = Some v2 ∧ squelched_as sel w k' v' v2).
Proof.
  intros Hk Hout Hin Hw Hv0. split.
  - intros k' Hk'. simpl in Hk'. rewrite Hout, lookup_insert_ne by set_solver. done.
  - intros k' v' [[= -> ->]|Hk']%elem_of_cons.
    + exists v0. split; [|done]. by rewrite Hout, lookup_insert_eq.
    + destruct (Hin k' v' Hk') as (v2 & ? & Hs). exists v2. split; [done|].
      revert Hs. unfold squelched_as. repeat case_bool_decide; [done..|]. naive_solver.
Qed.

Lemma squelchLoop_spec sel l i peers :
  NoDup l.*1 →
  ∃ peers' w, squelchLoop env sel l i peers = Ok (peers', w) ∧
    (∀ k, k ∉ l.*1 → peers' !! k = peers !! k) ∧
    (∀ k v, (k, v) ∈ l → ∃ v', peers' !! k = Some v' ∧ squelched_as sel w k v v') ∧
    Forall (request_of sel l peers') w.
Proof.
  revert i peers. induction l as [|[k v] l IH]; intros i peers Hnd.
  { exists peers, []. split_and!; [done|done| |done]. intros k v Hk. by apply not_elem_of_nil in Hk. }
  apply NoDup_cons in Hnd as [Hk Hnd]. simpl in Hk. cbn [squelchLoop].
  assert (∀ peers' w0, Forall (request_of sel l peers') w0 →
    Forall (request_of sel ((k, v) :: l) peers') w0) as Hreq.
  { intros peers' w0 Hw0. apply (Forall_impl _ _ _ Hw0).
    intros r (k' & v' & d & -> & ? & ?). exists k', v', d. set_solver. }
  destruct (bool_decide (k ∈ sel)) eqn:Hsel.
  - destruct (IH i (<[k := set_pstate PSelected (set_count 0 v)]> peers) Hnd)
      as (peers' & w & Heq & Hout & Hin & Hw).
    exists peers', w. split; [done|].
    destruct (squelchLoop_cons _ _ v _ _ _ _ w w Hk Hout Hin) as [? ?];
      [done| |by split_and!; [..|apply Hreq]].
    unfold squelched_as. by rewrite Hsel.
  - apply bool_decide_eq_false in Hsel. simpl. case_bool_decide as Hsq.
    + destruct (getSquelchDuration_spec i (Z.of_nat (size peers) - MAX_SELECTED_PEERS))
        as (d & -> & Hd). simpl.
      set (v0 := set_expire _ _). destruct (IH (S i) (<[k := v0]> peers) Hnd)
        as (peers' & w & Heq & Hout & Hin & Hw).
      rewrite Heq. simpl. exists peers', (squelch k d :: w). split; [done|].
      destruct (squelchLoop_cons _ _ v _ _ _ _ w (squelch k d :: w) Hk Hout Hin) as [Hout' Hin'].
      { intros r Hr. by right. }
      { unfold squelched_as. rewrite (bool_decide_eq_false_2 _ Hsel), (bool_decide_eq_false_2 _ Hsq). exists d.
        split; [by left|done]. }
      split_and!; [done..|]. constructor; [|by apply Hreq]. exists k, v, d.
      split_and!; [done|by left|done|done|lia|lia|]. by rewrite Hout, lookup_insert_eq.
    + destruct (IH i (<[k := set_count 0 v]> peers) Hnd) as (peers' & w & Heq & Hout & Hin & Hw).
      exists peers', w. split; [done|].
      destruct (squelchLoop_cons _ _ v _ _ _ _ w w Hk Hout Hin) as [? ?];
      [done| |by split_and!; [..|apply Hreq]].
      unfold squelched_as.
      by rewrite (bool_decide_eq_false_2 _ Hsel), (bool_decide_eq_true_2 _ Hsq).
Qed.

(** ** What the peers are told *)

(** Until when each peer was told to stay silent, for one validator. *)
Definition receive (now : Z) (view : Z → option Z) (r : request) : Z → option Z := λ id,
  match r with
  | squelch k d =>
      if decide (id = k) then
        if (MIN_UNSQUELCH_EXPIRE <=? d) && (d <=? MAX_UNSQUELCH_EXPIRE_PEERS)
        then Some (now + d) else None
      else view id
  | unsquelch k => if decide (id = k) then None else view id
  end.

Definition mirror (view : Z → option Z) (s : Slot) : Prop :=
  ∀ id p, peers_ s !! id = Some p → pstate p = PSquelched → view id = Some (expire p).

Lemma receive_requests sel l peers' w view id :
  Forall (request_of sel l peers') w →
  (∀ d, squelch id d ∉ w) ∧ foldl (receive (relay_now env)) view w id = view id ∨
  ∃ d, squelch id d ∈ w ∧ foldl (receive (relay_now env)) view w id = Some (relay_now env + d).
Proof.
  revert view. induction w as [|r w IH] using rev_ind; intros view Hw.
  { left. split; [|done]. intros d. apply not_elem_of_nil. }
  apply Forall_app in Hw as [Hw Hr]. apply Forall_cons in Hr as [Hr _].
  destruct Hr as (k & v & d & -> & _ & _ & _ & Hd & _). rewrite foldl_app. simpl.
  destruct (decide (id = k)) as [->|Hne].
  - right. exists d. split; [set_solver|].
    by rewrite (proj2 (Z.leb_le _ _)), (proj2 (Z.leb_le _ _)) by lia.
  - destruct (IH view Hw) as [[Hno ->]|(d' & Hd' & ->)].
    + left. split; [|done]. intros d'. rewrite elem_of_app, list_elem_of_singleton.
      intros [Hin|[= ? ?]]; [by apply (Hno d')|done].
    + right. exists d'. set_solver.
Qed.

(** ** Selection *)

Lemma squelchLoop_all sel i peers :
  (∀ id, id ∈ sel → is_Some (peers !! id)) →
  ∃ peers' w, squelchLoop env sel (hash_elems peers) i peers = Ok (peers', w) ∧
    (∀ id p', peers' !! id = Some p' → ∃ p, peers !! id = Some p ∧ squelched_as sel w id p p') ∧
    num is_selected peers' = Z.of_nat (size sel) ∧
    Forall (request_of sel (hash_elems peers) peers') w.
Proof.
  intros Hsel.
  destruct (squelchLoop_spec sel (hash_elems peers) i peers (NoDup_hash_elems peers))
    as (peers' & w & Heq & Hout & Hin & Hw).
  assert (∀ id p', peers' !! id = Some p' →
    ∃ p, peers !! id = Some p ∧ squelched_as sel w id p p') as Hback.
  { intros id p' Hp'. destruct (peers !! id) as [p|] eqn:Hp.
    - exists p. split; [done|]. apply elem_of_hash_elems in Hp.
      destruct (Hin id p Hp) as (p2 & Hp2 & ?). congruence.
    - rewrite Hout in Hp'; [congruence|]. intros ([k v] & -> & Hkv)%list_elem_of_fmap.
      apply elem_of_hash_elems in Hkv. simpl in Hp. congruence. }
  exists peers', w. split_and!; [done|done| |done]. apply num_set. intros id. split.
  - intros Hid. destruct (Hsel id Hid) as [p Hp]. apply elem_of_hash_elems in Hp.
    destruct (Hin id p Hp) as (p' & Hp' & Has). exists p'. split; [done|].
    unfold squelched_as in Has. rewrite (bool_decide_eq_true_2 _ Hid) in Has. by subst p'.
  - intros (p' & Hp' & Hs). destruct (Hback id p' Hp') as (p & Hp & Has).
    apply bool_decide_eq_true in Hs. unfold squelched_as in Has. case_bool_decide; [done|].
    case_bool_decide; [subst p'; simpl in Hs; congruence|].
    destruct Has as (d & _ & ->). done.
Qed.

(** ** Operations on a slot *)

Definition request_ok (r : request) : Prop :=
  match r with
  | squelch _ d => MIN_UNSQUELCH_EXPIRE ≤ d ≤ MAX_UNSQUELCH_EXPIRE_PEERS
  | unsquelch _ => True
  end.

Record step_ok (n : Z) (s s' : Slot) (w : list request) : Prop := {
  so_inv : slot_inv n s';
  so_mirror view : mirror view s → mirror (foldl (receive (relay_now env)) view w) s';
  so_requests : Forall request_ok w;
}.

(** Nobody is told anything, and nobody becomes squelched. *)
Lemma step_ok_quiet n s s' :
  slot_inv n s' →
  (∀ id p', peers_ s' !! id = Some p' → pstate p' = PSquelched →
     ∃ p, peers_ s !! id = Some p ∧ pstate p = PSquelched ∧ expire p = expire p') →
  step_ok n s s' [].
Proof.
  intros Hinv Hback. split; [done| |done]. intros view Hm id p' Hp' Hsq.
  destruct (Hback id p' Hp' Hsq) as (p & Hp & Hsq' & <-). by apply Hm.
Qed.

Lemma initCounting_step n s s0 id p :
  0 ≤ n → relays (peers_ s) → peers_ s = <[id := p]> (peers_ s0) → pstate p ≠ PSquelched →
  step_ok n s0 (initCounting s) [].
Proof.
  intros Hn Hr Hp Hsq. apply step_ok_quiet; [by apply initCounting_inv|]. simpl.
  intros id' p' Hp'. apply lookup_fmap_Some in Hp' as (q & <- & Hq). simpl. intros Hsq'.
  rewrite Hp in Hq. apply lookup_insert_Some in Hq as [[<- <-]|[_ Hq]]; [done|]. by exists q.
Qed.

Lemma squelched_as_state sel w k v v' :
  squelched_as sel w k v v' →
  count v' = 0 ∧ pstate v' ≠ PCounting.
Proof.
  unfold squelched_as. intros Has. case_bool_decide; [by subst v'|].
  case_bool_decide; [subst v'; simpl; split; [done|congruence]|].
  by destruct Has as (d & _ & ->).
Qed.

(** The slot after a selection. *)
Lemma selected_inv n sel w (peers peers' : gmap Z PeerInfo) now :
  0 ≤ n → num is_selected peers' = MAX_SELECTED_PEERS →
  (∀ id p', peers' !! id = Some p' → ∃ p, peers !! id = Some p ∧ squelched_as sel w id p p') →
  slot_inv n (mkSlot peers' ∅ 0 now SSelected).
Proof.
  intros Hn Hnum Hback.
  assert (∀ x p', peers' !! x = Some p' → count p' = 0 ∧ pstate p' ≠ PCounting) as Hall.
  { intros x p' Hp'. destruct (Hback x p' Hp') as (q & _ & Has). by eapply squelched_as_state. }
  split; simpl; try done.
  - intros x. split; [set_solver|]. intros (p' & Hp' & Hlt).
    destruct (Hall x p' Hp') as [Hc _]. unfold MIN_MESSAGE_THRESHOLD in Hlt. lia.
  - intros x p' Hp'. destruct (Hall x p' Hp') as [Hc _]. lia.
  - intros x p' Hp' _. by destruct (Hall x p' Hp') as [Hc _].
  - rewrite num_zero; [done|]. intros x p' Hp'. unfold over_max.
    by destruct (Hall x p' Hp') as [-> _].
  - by left.
  - intros _. split; [done|]. intros x p' Hp'. by destruct (Hall x p' Hp').
Qed.

Lemma select_step n s s0 id p :
  0 ≤ n → relays (peers_ s) → peers_ s = <[id := p]> (peers_ s0) → pstate p ≠ PSquelched →
  ∃ s' w, select env s = Ok (s', w) ∧ step_ok n s0 s' w.
Proof.
  intros Hn Hr Hp Hsq. unfold select.
  destruct (selectPeers_spec (size (considered_ s)) 0 (peers_ s) (considered_ s) ∅)
    as (sel & i & -> & Hsz & Hsel); [done|by rewrite size_empty|]. simpl.
  destruct (Z.eqb_spec (Z.of_nat (size sel)) MAX_SELECTED_PEERS) as [H5|_]; simpl.
  2: { eexists _, _. split; [done|]. by apply (initCounting_step n s s0 id p). }
  assert (∀ x, x ∈ sel → is_Some (peers_ s !! x)) as Hdom by set_solver.
  rewrite (proj2 (Z.leb_le _ _)); simpl.
  2: { rewrite <- H5, <- size_dom. apply inj_le, subseteq_size. intros x Hx.
       by apply elem_of_dom, Hdom. }
  destruct (squelchLoop_all sel i (peers_ s) Hdom) as (peers' & w & -> & Hback & Hnum & Hw).
  simpl. eexists _, _. split; [done|].
  split; [apply (selected_inv n sel w (peers_ s)); [done|congruence|done]| |].
  - intros view Hm x p' Hp' Hps. simpl in Hp'.
    destruct (Hback x p' Hp') as (q & Hq & Has).
    destruct (receive_requests _ _ _ w view x Hw) as [[Hno ->]|(d & Hd & ->)].
    + unfold squelched_as in Has. case_bool_decide; [by subst p'|].
      case_bool_decide as Hqs; [|destruct Has as (d & Hd & _); by destruct (Hno d)].
      rewrite Hp in Hq. apply lookup_insert_Some in Hq as [[<- <-]|[_ Hq]]; [done|].
      subst p'. by apply (Hm x q).
    + rewrite Forall_forall in Hw. destruct (Hw _ Hd) as (k & v & d' & [= <- <-] & _ & _ & _ & _ & Hk).
      rewrite Hp' in Hk. injection Hk as ->. done.
  - apply (Forall_impl _ _ _ Hw). intros r (k & v & d & -> & _ & _ & _ & ? & _). done.
Qed.

Lemma relays_same m id p q :
  m !! id = Some q → pstate p = pstate q → relays m → relays (<[id := p]> m).
Proof.
  intros Hid Hst Hr.
  assert (num is_selected (<[id := p]> m) = num is_selected m) as Hnum.
  { rewrite (num_insert _ m id q p Hid). unfold is_selected. rewrite Hst. lia. }
  destruct Hr as [Hr|[Hr Hall]]; [left; congruence|right]. split; [congruence|].
  intros id' q' [[<- <-]|[_ Hq']]%lookup_insert_Some; [|by apply (Hall id')].
  rewrite Hst. by apply (Hall id).
Qed.

(** One more message of a peer, while that does not complete a selection. *)
Lemma count_inv n s id p p' considered reached :
  slot_inv n s → peers_ s !! id = Some p → state_ s = SCounting → pstate p ≠ PSquelched →
  pstate p' = pstate p → count p' = count p + 1 →
  considered = (if MIN_MESSAGE_THRESHOLD <? count p' then {[id]} ∪ considered_ s
                else considered_ s) →
  reached = (if count p' =? MAX_MESSAGE_THRESHOLD + 1 then reachedThreshold_ s + 1
             else reachedThreshold_ s) →
  reached ≠ MAX_SELECTED_PEERS →
  slot_inv (n + 1) (mkSlot (<[id := p']> (peers_ s)) considered reached (lastSelected_ s)
    (state_ s)).
Proof.
  intros [Hc Hn Hsq Hre Hsm Hrel Hss] Hid Hst Hps Hps' Hct -> -> H5.
  unfold MIN_MESSAGE_THRESHOLD, MAX_MESSAGE_THRESHOLD, MAX_SELECTED_PEERS in *.
  pose proof (Hn id p Hid) as Hpn. split; simpl; unfold MIN_MESSAGE_THRESHOLD, MAX_SELECTED_PEERS in *.
  - intros x. destruct (decide (x = id)) as [->|Hne].
    + rewrite lookup_insert_eq. specialize (Hc id).
      destruct (Z.ltb_spec 9 (count p')); [set_solver|].
      rewrite Hc, Hid. split; intros (q & [= <-] & ?); exfalso; lia.
    + rewrite lookup_insert_ne by done. rewrite <- Hc. destruct (9 <? count p'); set_solver.
  - intros x q [[<- <-]|[_ Hq]]%lookup_insert_Some; [lia|]. specialize (Hn x q Hq). lia.
  - intros x q [[<- <-]|[_ Hq]]%lookup_insert_Some; [congruence|]. by apply (Hsq x).
  - rewrite (num_insert _ _ id p p' Hid), <- Hre. unfold over_max, MAX_MESSAGE_THRESHOLD.
    destruct (Z.eqb_spec (count p') (10 + 1)), (Z.ltb_spec 10 (count p)),
      (Z.ltb_spec 10 (count p')); simpl; lia.
  - destruct (count p' =? 10 + 1); lia.
  - by apply (relays_same _ _ _ p).
  - congruence.
Qed.

Lemma update_step n s id :
  slot_inv n s → 0 ≤ n < 2 ^ 64 - 1 →
  ∃ s' w, update env id s = Ok (s', w) ∧ step_ok (n + 1) s s' w.
Proof.
  intros Hinv Hn. unfold update. destruct (peers_ s !! id) as [p|] eqn:Hid.
  2: { eexists _, _. split; [done|]. eapply initCounting_step; [lia| |done|done].
       apply relays_counting; [done| |apply (si_relays n s Hinv)]. simpl. congruence. }
  destruct (bool_decide (pstate p = PSquelched) && _) eqn:Hexp.
  { apply andb_true_iff in Hexp as [Hsq%bool_decide_eq_true _].
    eexists _, _. split; [done|]. eapply initCounting_step; [lia| |done|done].
    apply relays_counting; [done| |apply (si_relays n s Hinv)]. simpl. congruence. }
  clear Hexp. destruct (_ || _) eqn:Hstop.
  { eexists _, _. split; [done|]. apply step_ok_quiet.
    - apply (slot_inv_touch _ _ _ p); [done..|]. by apply (slot_inv_mono n); [lia|].
    - simpl. intros x q [[<- <-]|[_ Hq]]%lookup_insert_Some; by eauto. }
  apply orb_false_iff in Hstop as [Hst%bool_decide_eq_false%dec_stable Hsq%bool_decide_eq_false].
  simpl in Hsq. simpl. pose proof (si_count n s Hinv id p Hid) as Hcount.
  pose proof (si_small n s Hinv) as Hsm. pose proof (num_nonneg over_max (peers_ s)) as Hre.
  rewrite <- (si_reached n s Hinv) in Hre. unfold MAX_SELECTED_PEERS in Hsm.
  rewrite (u64_id (count p + 1)) by lia.
  set (p' := set_count (count p + 1) _). set (considered := if MIN_MESSAGE_THRESHOLD <? _ then _ else _).
  replace (u16 (reachedThreshold_ s + 1)) with (reachedThreshold_ s + 1)
    by (symmetry; apply Z.mod_small; lia).
  set (reached := if _ =? _ then _ else _).
  assert (relays (<[id := p']> (peers_ s))) as Hrel
    by (apply (relays_same _ _ _ p); [done..|apply (si_relays n s Hinv)]).
  destruct (2 * _ <? _).
  { eexists _, _. split; [done|]. by eapply initCounting_step; [lia|..]. }
  destruct (Z.eqb_spec reached MAX_SELECTED_PEERS) as [_|H5].
  { by eapply select_step; [lia|..]. }
  eexists _, _. split; [done|]. apply step_ok_quiet.
  - by apply (count_inv n s id p).
  - simpl. intros x q [[<- <-]|[_ Hq]]%lookup_insert_Some; [done|by eauto].
Qed.

(** ** Losing a peer *)

(** All peers count from zero. *)
Lemma all_counting_inv n m now :
  0 ≤ n → (∀ id p, m !! id = Some p → pstate p = PCounting ∧ count p = 0) →
  slot_inv n (mkSlot m ∅ 0 now SCounting).
Proof.
  intros Hn Hall. split; simpl; try done.
  - intros x. split; [set_solver|]. intros (p & Hp & Hlt). destruct (Hall x p Hp) as [_ Hc].
    unfold MIN_MESSAGE_THRESHOLD in Hlt. lia.
  - intros x p Hp. destruct (Hall x p Hp) as [_ ->]. lia.
  - intros x p Hp _. by destruct (Hall x p Hp).
  - rewrite num_zero; [done|]. intros x p Hp. unfold over_max. by destruct (Hall x p Hp) as [_ ->].
  - right. split; [|intros x p Hp; by destruct (Hall x p Hp)]. apply num_zero.
    intros x p Hp. apply bool_decide_eq_false. destruct (Hall x p Hp) as [-> _]. done.
Qed.

(** A peer that is not a relay is forgotten, or counts from zero. *)
Lemma drop_inv n s id p m' :
  slot_inv n s → peers_ s !! id = Some p → pstate p ≠ PSelected →
  (m' = delete id (peers_ s) ∨ ∃ p', m' = <[id := p']> (peers_ s) ∧ pstate p' = pstate p ∧
     count p' = 0) →
  slot_inv n (mkSlot m' (considered_ s ∖ {[id]}) (reachedThreshold_ s - Z.b2z (over_max p))
    (lastSelected_ s) (state_ s)).
Proof.
  intros [Hc Hn Hsq Hre Hsm Hrel Hss] Hid Hns Hm'. pose proof (Hn id p Hid) as Hpn.
  assert (∀ x q, m' !! x = Some q → x ≠ id ∧ peers_ s !! x = Some q ∨
    x = id ∧ pstate q = pstate p ∧ count q = 0) as Hback.
  { intros x q Hq. destruct Hm' as [->|(p' & -> & ? & ?)].
    - apply lookup_delete_Some in Hq as [? ?]. by left.
    - apply lookup_insert_Some in Hq as [[<- <-]|[? ?]]; [by right|by left]. }
  assert (∀ x, x ≠ id → m' !! x = peers_ s !! x) as Hother.
  { intros x Hx. destruct Hm' as [->|(p' & -> & _)]; by rewrite ?lookup_delete_ne, ?lookup_insert_ne. }
  assert (num is_selected m' = num is_selected (peers_ s)) as Hsel.
  { assert (is_selected p = false) as Hf by (by apply bool_decide_eq_false).
    destruct Hm' as [->|(p' & -> & Hp' & _)].
    - rewrite (num_delete _ _ _ p), Hf by done. simpl. lia.
    - rewrite (num_insert _ _ _ p) by done. unfold is_selected in *. rewrite Hp', Hf. lia. }
  split; simpl.
  - intros x. destruct (decide (x = id)) as [->|Hne].
    + split; [set_solver|]. intros (q & Hq & Hlt). unfold MIN_MESSAGE_THRESHOLD in Hlt.
      destruct (Hback id q Hq) as [[? _]|(_ & _ & ?)]; [done|lia].
    + rewrite Hother by done. rewrite <- Hc. set_solver.
  - intros x q Hq. destruct (Hback x q Hq) as [[_ Hq']|(_ & _ & ->)]; [by apply (Hn x)|lia].
  - intros x q Hq. destruct (Hback x q Hq) as [[_ Hq']|(_ & _ & ->)]; [by apply (Hsq x)|done].
  - rewrite Hre. destruct Hm' as [->|(p' & -> & _ & Hp')].
    + by rewrite (num_delete _ _ _ p).
    + rewrite (num_insert _ _ _ p) by done.
      replace (over_max p') with false by (unfold over_max; by rewrite Hp'). simpl. lia.
  - destruct (over_max p); simpl; lia.
  - rewrite Hsel. destruct Hrel as [|[? Hall]]; [by left|right]. split; [done|]. intros x q Hq.
    destruct (Hback x q Hq) as [[_ Hq']|(_ & -> & _)]; [by apply (Hall x)|by apply (Hall id)].
  - rewrite Hsel. intros Hst. destruct (Hss Hst) as [? Hall]. split; [done|]. intros x q Hq.
    destruct (Hback x q Hq) as [[_ Hq']|(_ & -> & _)]; [by apply (Hall x)|by apply (Hall id)].
Qed.

(** The assignments at the end of [deletePeer], whatever the peers are. *)
Lemma touch_cases (erase : bool) (id : Z) (m : gmap Z PeerInfo) p :
  m !! id = Some p →
  (if erase then delete id m
   else alter (λ v, set_count 0 (set_lastMessage (relay_now env) v)) id m) =
  if erase then delete id m else <[id := set_count 0 (set_lastMessage (relay_now env) p)]> m.
Proof.
  intros Hp. destruct erase; [done|]. rewrite <- (insert_id m id p Hp) at 1.
  by rewrite alter_insert_eq.
Qed.

Lemma deletePeer_other n s id p :
  slot_inv n s → peers_ s !! id = Some p →
  (if bool_decide (id ∈ considered_ s)
   then (mkSlot (peers_ s) (considered_ s ∖ {[id]})
     (if MAX_MESSAGE_THRESHOLD <? count p then u16 (reachedThreshold_ s - 1)
      else reachedThreshold_ s) (lastSelected_ s) (state_ s), @nil request)
   else (s, @nil request)) =
  (mkSlot (peers_ s) (considered_ s ∖ {[id]}) (reachedThreshold_ s - Z.b2z (over_max p))
     (lastSelected_ s) (state_ s), @nil request).
Proof.
  intros Hinv Hid. case_bool_decide as Hcon; f_equal.
  - f_equal. unfold over_max. destruct (MAX_MESSAGE_THRESHOLD <? count p) eqn:Hov; simpl; [|lia].
    pose proof (num_pos over_max _ _ _ Hid Hov) as Hpos. rewrite <- (si_reached n s Hinv) in Hpos.
    pose proof (si_small n s Hinv) as Hsm. unfold MAX_SELECTED_PEERS in Hsm.
    apply Z.mod_small. lia.
  - rewrite (si_considered n s Hinv) in Hcon.
    assert (over_max p = false) as ->.
    { apply Z.ltb_ge. destruct (decide (count p ≤ MAX_MESSAGE_THRESHOLD)); [done|].
      destruct Hcon. exists p. unfold MIN_MESSAGE_THRESHOLD, MAX_MESSAGE_THRESHOLD in *.
      split; [done|lia]. }
    rewrite difference_disjoint_L.
    + destruct s. simpl. f_equal. lia.
    + rewrite <- (si_considered n s Hinv) in Hcon. set_solver.
Qed.

Lemma deletePeer_step n s id erase :
  slot_inv n s → 0 ≤ n →
  step_ok n s (deletePeer env id erase s).1 (deletePeer env id erase s).2.
Proof.
  intros Hinv Hn. unfold deletePeer. destruct (peers_ s !! id) as [p|] eqn:Hid.
  2: { apply step_ok_quiet; [done|]. simpl. eauto. }
  destruct (bool_decide (pstate p = PSelected)) eqn:Hsel; simpl.
  - set (f := λ v, set_expire _ _).
    assert (∀ x q, (if erase then delete id (f <$> peers_ s)
      else alter (λ v, set_count 0 (set_lastMessage (relay_now env) v)) id (f <$> peers_ s)) !! x
      = Some q → pstate q = PCounting ∧ count q = 0) as Hall.
    { intros x q. rewrite (touch_cases _ _ _ (f p)) by (by rewrite lookup_fmap, Hid).
      destruct erase.
      - intros [_ (v & <- & _)%lookup_fmap_Some]%lookup_delete_Some. done.
      - intros [[<- <-]|[_ (v & <- & _)%lookup_fmap_Some]]%lookup_insert_Some; done. }
    split; [by apply all_counting_inv| |].
    + intros view _ x q Hq Hps. simpl in Hq. apply Hall in Hq as [? _]. congruence.
    + apply Forall_fmap, Forall_true. done.
  - apply bool_decide_eq_false in Hsel. rewrite (deletePeer_other n) by done. simpl.
    unfold set_peers. simpl. rewrite (touch_cases _ _ _ p Hid). apply step_ok_quiet.
    + apply drop_inv; [done..|]. destruct erase; [by left|right]. by eexists.
    + simpl. intros x q Hq Hps. destruct erase.
      * apply lookup_delete_Some in Hq as [_ ?]. by exists q.
      * apply lookup_insert_Some in Hq as [[<- <-]|[_ Hq]]; [by exists p|by exists q].
Qed.

Lemma step_ok_refl n s : slot_inv n s → step_ok n s s [].
Proof. by split. Qed.

Lemma step_ok_app n s s1 s2 w1 w2 :
  step_ok n s s1 w1 → step_ok n s1 s2 w2 → step_ok n s s2 (w1 ++ w2).
Proof.
  intros [_ Hm1 Hr1] [Hinv Hm2 Hr2]. split; [done| |by apply Forall_app].
  intros view Hm. rewrite foldl_app. by apply Hm2, Hm1.
Qed.

Lemma deleteIdlePeer_step n s :
  slot_inv n s → 0 ≤ n →
  step_ok n s (deleteIdlePeer env s).1 (deleteIdlePeer env s).2.
Proof.
  intros Hinv Hn. unfold deleteIdlePeer. set (step := λ '(s, w) id, _).
  assert (∀ ids s1 w1, step_ok n s s1 w1 →
    step_ok n s (foldl step (s1, w1) ids).1 (foldl step (s1, w1) ids).2) as Hfold.
  { intros ids. induction ids as [|id ids IH]; intros s1 w1 H1; [done|]. simpl.
    destruct (peers_ s1 !! id) as [p|]; [|by apply IH]. destruct (_ <? _); [|by apply IH].
    pose proof (deletePeer_step n s1 id false (so_inv _ _ _ _ H1) Hn) as H2.
    destruct (deletePeer env id false s1) as [s2 w2]. apply IH. by eapply step_ok_app. }
  by apply Hfold, step_ok_refl.
Qed.

(** Losing a relay: all squelched peers, and only these, are asked to relay
    again, and every peer counts from zero. *)
Lemma deletePeer_relay s id erase p :
  peers_ s !! id = Some p → pstate p = PSelected →
  (∀ r, r ∈ (deletePeer env id erase s).2 ↔
     ∃ k q, r = unsquelch k ∧ peers_ s !! k = Some q ∧ pstate q = PSquelched) ∧
  ∀ k q, peers_ (deletePeer env id erase s).1 !! k = Some q → pstate q = PCounting ∧ count q = 0.
Proof.
  intros Hid Hsel. unfold deletePeer. rewrite Hid, (bool_decide_eq_true_2 _ Hsel). simpl.
  set (f := λ v, set_expire _ _). split.
  - intros r. rewrite list_elem_of_fmap. unfold squelchedIds. split.
    + intros (k & -> & ([k' q] & -> & Hq)%list_elem_of_fmap). apply list_elem_of_filter in Hq.
      destruct Hq as [? Hq%elem_of_hash_elems]. by exists k', q.
    + intros (k & q & -> & Hq & Hps). exists k. split; [done|]. apply list_elem_of_fmap.
      exists (k, q). split; [done|]. apply list_elem_of_filter. by rewrite elem_of_hash_elems.
  - intros k q. rewrite (touch_cases _ _ _ (f p)) by (by rewrite lookup_fmap, Hid).
    destruct erase.
    + intros [_ (v & <- & _)%lookup_fmap_Some]%lookup_delete_Some. done.
    + intros [[<- <-]|[_ (v & <- & _)%lookup_fmap_Some]]%lookup_insert_Some; done.
Qed.
End slot.
