(* ===== verification/ReduceRelayClaims.v ===== *)
(** * What relay reduction guarantees

    The slots keep the relays they need and ask the others to stop; the
    requests as the slots emit them, and what the overlay and the peers make of
    them. *)
From S2P Require Import Prelude Bytes ReduceRelay ReduceRelayInv.

Section relay.
Context {PublicKey : Type} `{KeyOrder : HashOrder PublicKey} `{PeerOrder : !HashOrder Z}.

(** ** Calls, and the requests they emit *)

Inductive relay_call :=
  | UpdateSlot (key : Z) (validator : PublicKey) (id : Z)
  | DeletePeer (id : Z) (erase : bool)
  | DeleteIdlePeers.

Definition relay_run (env : RelayEnv) (c : relay_call) (s : Slots PublicKey) :
    res (Slots PublicKey * list (PublicKey * request)) :=
  match c with
  | UpdateSlot key v id => updateSlotAndSquelch env key v id s
  | DeletePeer id erase => Ok (deletePeers env id erase s)
  | DeleteIdlePeers => Ok (deleteIdlePeers env s)
  end.

(** A request with the time at which it is made. *)
Abbreviation entry := (Z * (PublicKey * request))%type.

Fixpoint relay_all (cs : list (RelayEnv * relay_call)) (s : Slots PublicKey) (log : list entry) :
    res (Slots PublicKey * list entry) :=
  match cs with
  | [] => Ok (s, log)
  | (env, c) :: cs =>
      '(s, w) ← relay_run env c s; relay_all cs s (log ++ (pair (relay_now env) <$> w))
  end.

Definition target (r : request) : Z := match r with squelch k _ | unsquelch k => k end.

(** The last request made to a peer about a validator. *)
Definition last_request (log : list entry) (v : PublicKey) (id : Z) : option (Z * request) :=
  last (omap (λ e : entry, if decide (e.2.1 = v ∧ target e.2.2 = id) then Some (e.1, e.2.2) else None) log).

(** Until when it asks the peer to be silent. *)
Definition asked (log : list entry) (v : PublicKey) (id : Z) : option Z :=
  match last_request log v id with
  | Some (t, squelch _ d) =>
      if (MIN_UNSQUELCH_EXPIRE <=? d) && (d <=? MAX_UNSQUELCH_EXPIRE_PEERS) then Some (t + d) else None
  | _ => None
  end.

Lemma last_request_snoc log t v r v' id :
  last_request (log ++ [(t, (v, r))]) v' id
  = if decide (v = v' ∧ target r = id) then Some (t, r) else last_request log v' id.
Proof.
  unfold last_request. rewrite omap_app. simpl. case_decide.
  - by rewrite last_snoc.
  - by rewrite app_nil_r.
Qed.

Lemma last_request_target log v id t r : last_request log v id = Some (t, r) → target r = id.
Proof.
  induction log as [|[t' [v' r']] log IH] using rev_ind; [done|]. rewrite last_request_snoc.
  case_decide as Hd; [|done]. intros [= _ <-]. apply Hd.
Qed.

Lemma asked_same log now v w id :
  asked (log ++ (pair now <$> tag v w)) v id = foldl (receive now) (asked log v) w id.
Proof.
  induction w as [|r w IH] using rev_ind; [by rewrite app_nil_r|].
  unfold tag in *. rewrite !fmap_app, foldl_app, app_assoc. simpl. unfold asked at 1.
  rewrite last_request_snoc. unfold receive at 1.
  destruct r as [k d|k]; simpl; destruct (decide (id = k)) as [->|Hne].
  - by rewrite decide_True by done.
  - rewrite decide_False by naive_solver. exact IH.
  - by rewrite decide_True by done.
  - rewrite decide_False by naive_solver. exact IH.
Qed.

Lemma asked_other log now v v' w id :
  v ≠ v' → asked (log ++ (pair now <$> tag v w)) v' id = asked log v' id.
Proof.
  intros Hne. induction w as [|r w IH] using rev_ind; [by rewrite app_nil_r|].
  unfold tag in *. rewrite !fmap_app, app_assoc. simpl. unfold asked at 1.
  rewrite last_request_snoc, decide_False by naive_solver. exact IH.
Qed.

Definition slots_ok (n : Z) (log : list entry) (s : Slots PublicKey) : Prop :=
  ∀ v slot, slots_ s !! v = Some slot → slot_inv n slot ∧ mirror (asked log v) slot.

Lemma mirror_ext (f g : Z → option Z) s : (∀ id, f id = g id) → mirror f s → mirror g s.
Proof. intros Hfg Hm id p Hp Hsq. rewrite <- Hfg. by apply Hm. Qed.

(** One slot makes a step, or is dropped. *)
Lemma slots_ok_step env n log s v slot slot' w m (drop : bool) :
  slots_ok n log s → step_ok env n slot slot' w → mirror (asked log v) slot →
  slots_ok n (log ++ (pair (relay_now env) <$> tag v w))
    (mkSlots (if drop then delete v (slots_ s) else <[v := slot']> (slots_ s)) m).
Proof.
  intros Hok Hstep Hm v' slot2 Hv'. simpl in Hv'. destruct (decide (v = v')) as [<-|Hne].
  - destruct drop; [by rewrite lookup_delete_eq in Hv'|].
    rewrite lookup_insert_eq in Hv'. injection Hv' as <-. split; [apply Hstep|].
    eapply mirror_ext; [intros id; symmetry; apply asked_same|]. by apply Hstep.
  - assert (slots_ s !! v' = Some slot2) as Hv2.
    { destruct drop; [by rewrite lookup_delete_ne in Hv'|by rewrite lookup_insert_ne in Hv']. }
    destruct (Hok v' slot2 Hv2) as [? ?]. split; [done|].
    eapply mirror_ext; [intros id; symmetry; by apply asked_other|]. done.
Qed.

(** A loop over all slots. *)
Lemma slots_fold_ok env n log (g : Slot → Slot * list request) (drop : Slot → bool) s :
  (∀ slot, slot_inv n slot → step_ok env n slot (g slot).1 (g slot).2) →
  slots_ok n log s →
  let '(s', w) := foldl (λ '(s, w) '(v, slot),
      let '(slot, w') := g slot in
      (mkSlots (if drop slot then delete v (slots_ s) else <[v := slot]> (slots_ s))
         (peersWithMessage_ s), w ++ tag v w')) (s, []) (hash_elems (slots_ s)) in
  slots_ok n (log ++ (pair (relay_now env) <$> w)) s'.
Proof.
  intros Hg Hok. set (step := λ '(s, w) '(v, slot), _).
  assert (∀ l s1 w1, NoDup l.*1 → (∀ v slot, (v, slot) ∈ l → slots_ s1 !! v = Some slot) →
    slots_ok n (log ++ (pair (relay_now env) <$> w1)) s1 →
    slots_ok n (log ++ (pair (relay_now env) <$> (foldl step (s1, w1) l).2))
      (foldl step (s1, w1) l).1) as Hfold.
  { intros l. induction l as [|[v slot] l IH]; intros s1 w1 Hnd Hl H1; [done|].
    apply NoDup_cons in Hnd as [Hv Hnd]. simpl in Hv. cbn [foldl]. unfold step at 2 4.
    destruct (H1 v slot) as [Hinv Hm]; [apply Hl; by left|].
    pose proof (Hg slot Hinv) as Hstep. destruct (g slot) as [slot' w']. apply IH; [done| |].
    - intros v2 slot2 Hv2. assert (v2 ≠ v) as Hne.
      { intros ->. apply Hv, list_elem_of_fmap. by exists (v, slot2). }
      simpl. destruct (drop slot'); rewrite ?lookup_delete_ne, ?lookup_insert_ne by done;
        apply Hl; by right.
    - rewrite fmap_app, app_assoc. by apply (slots_ok_step env n _ s1 v slot). }
  specialize (Hfold (hash_elems (slots_ s)) s [] (NoDup_hash_elems _)).
  destruct (foldl step _ _) as [s' w]. apply Hfold; [|by rewrite app_nil_r].
  intros v slot. apply elem_of_hash_elems.
Qed.

Lemma relay_run_ok env c n log s :
  uniform_ok env → 0 ≤ n < 2 ^ 64 - 1 → slots_ok n log s →
  ∃ s' w, relay_run env c s = Ok (s', w) ∧
    slots_ok (n + 1) (log ++ (pair (relay_now env) <$> w)) s'.
Proof.
  intros Henv Hn Hok.
  assert (slots_ok (n + 1) log s) as Hok1.
  { intros v slot Hv. destruct (Hok v slot Hv). split; [|done].
    by apply (slot_inv_mono n); [lia|]. }
  destruct c as [key v id|id erase|]; cbn [relay_run].
  - unfold updateSlotAndSquelch. set (added := addPeerMessage env key id s).
    assert (slots_ added.2 = slots_ s) as Hsl.
    { unfold added, addPeerMessage. repeat case_match; done. }
    assert (slots_ok n log added.2 ∧ slots_ok (n + 1) log added.2) as [Ha Ha1]
      by (unfold slots_ok; by rewrite Hsl).
    destruct (added.1); simpl; [|eexists _, []; split; [done|]; by rewrite app_nil_r].
    set (slot := default _ _). assert (slot_inv n slot ∧ mirror (asked log v) slot) as [Hi Hm].
    { unfold slot. destruct (slots_ added.2 !! v) as [slot0|] eqn:Hv; simpl; [by apply Ha|].
      split; [apply slot_inv_new|]. by intros i p Hp. }
    destruct (update_step env Henv n slot id Hi Hn) as (slot' & w & -> & Hstep).
    simpl. eexists _, _. split; [done|].
    by apply (slots_ok_step env (n + 1) log added.2 v slot slot' w _ false).
  - pose proof (slots_fold_ok env (n + 1) log (deletePeer env id erase) (λ _, false) s) as Hf.
    unfold deletePeers. destruct (foldl _ _ _) as [s' w] eqn:Hfold. eexists _, _. split; [done|].
    apply Hf; [|done]. intros slot Hi. apply deletePeer_step; [done..|lia].
  - pose proof (slots_fold_ok env (n + 1) log (deleteIdlePeer env)
      (λ slot, MAX_UNSQUELCH_EXPIRE_DEFAULT <? relay_now env - lastSelected_ slot) s) as Hf.
    unfold deleteIdlePeers. destruct (foldl _ _ _) as [s' w] eqn:Hfold. eexists _, _.
    split; [done|]. apply Hf; [|done]. intros slot Hi. apply deleteIdlePeer_step; [done..|lia].
Qed.

Lemma relay_all_ok cs n log s :
  Forall (λ ec : RelayEnv * relay_call, uniform_ok ec.1) cs →
  0 ≤ n → n + Z.of_nat (length cs) < 2 ^ 64 → slots_ok n log s →
  ∃ s' log', relay_all cs s log = Ok (s', log') ∧ slots_ok (n + Z.of_nat (length cs)) log' s'.
Proof.
  revert n log s. induction cs as [|[env c] cs IH]; intros n log s Hcs Hn Hlen Hok.
  { exists s, log. split; [done|]. by rewrite Z.add_0_r. }
  apply Forall_cons in Hcs as [Henv Hcs]. cbn [length] in *. simpl.
  destruct (relay_run_ok env c n log s Henv) as (s1 & w & -> & Hok1); [lia|done|]. simpl.
  destruct (IH (n + 1) (log ++ (pair (relay_now env) <$> w)) s1) as (s2 & f2 & Hrun & Hok2);
    [done|lia|lia|done|].
  exists s2, f2. split; [done|].
  by replace (n + Z.of_nat (S (length cs))) with (n + 1 + Z.of_nat (length cs)) by lia.
Qed.

Lemma relay_new cs :
  Forall (λ ec : RelayEnv * relay_call, uniform_ok ec.1) cs →
  Z.of_nat (length cs) < 2 ^ 64 →
  ∃ s log, relay_all cs Slots_ctor [] = Ok (s, log) ∧ slots_ok (Z.of_nat (length cs)) log s.
Proof. intros Hcs Hlen. by apply (relay_all_ok cs 0); [| |lia|]. Qed.

(** ** Properties *)

(** C31: a validator never loses all its relays to squelching.  After any
    sequence of calls, during which no assertion fails and every selection
    loop ends, each slot has either exactly [MAX_SELECTED_PEERS] selected
    peers, or none, and then no peer is squelched.  A slot that has stopped
    counting has exactly that many selected peers and all others are
    squelched; and the threshold counter is the number of peers over the
    message threshold, below the number that triggers a selection. *)
Theorem relays_kept (cs : list (RelayEnv * relay_call))
    (Hcs : Forall (λ ec : RelayEnv * relay_call, uniform_ok ec.1) cs)
    (Hlen : Z.of_nat (length cs) < 2 ^ 64) :
  ∃ s log, relay_all cs Slots_ctor [] = Ok (s, log) ∧
    ∀ v slot, slots_ s !! v = Some slot →
      (Z.of_nat (size (getSelected slot)) = MAX_SELECTED_PEERS ∨
       getSelected slot = ∅ ∧ ∀ id p, peers_ slot !! id = Some p → pstate p = PCounting) ∧
      (state_ slot = SSelected → Z.of_nat (size (getSelected slot)) = MAX_SELECTED_PEERS ∧
         ∀ id p, peers_ slot !! id = Some p → id ∈ getSelected slot ∨ pstate p = PSquelched) ∧
      reachedThreshold_ slot =
        Z.of_nat (size (filter (λ kv, MAX_MESSAGE_THRESHOLD < count kv.2) (peers_ slot))) ∧
      reachedThreshold_ slot < MAX_SELECTED_PEERS.
Proof.
  destruct (relay_new cs Hcs Hlen) as (s & f & Hrun & Hok). exists s, f. split; [done|].
  intros v slot Hv. destruct (Hok v slot Hv) as [[_ _ _ Hre Hsm Hrel Hss] _].
  assert (num is_selected (peers_ slot) = Z.of_nat (size (getSelected slot))) as Hsel.
  { unfold num, getSelected. rewrite size_dom. do 2 f_equal. apply map_filter_ext.
    intros i p _. apply bool_decide_eq_true. }
  rewrite Hsel in *. split_and!; [|intros Hst; split; [by apply Hss|]| |done].
  - destruct Hrel as [|[Hz Hall]]; [by left|right]. split; [|done].
    apply leibniz_equiv, size_empty_iff. lia.
  - intros id p Hp. destruct (pstate p) eqn:Hps; [|left|by right].
    + by destruct (Hss Hst) as [_ Hno]; destruct (Hno id p Hp).
    + apply elem_of_dom. exists p. by apply map_lookup_filter_Some.
  - rewrite Hre. unfold num. do 2 f_equal. apply map_filter_ext. intros i p _. apply Z.ltb_lt.
Qed.

(** the slots ask for what they note.  After any sequence of calls, each
    peer that a slot counts as squelched has last been asked, about this
    validator, to be silent for a duration between the allowed minimum and
    maximum, and the slot has noted the end of that time. *)
Theorem squelches_requested (cs : list (RelayEnv * relay_call))
    (Hcs : Forall (λ ec : RelayEnv * relay_call, uniform_ok ec.1) cs)
    (Hlen : Z.of_nat (length cs) < 2 ^ 64) :
  ∃ s log, relay_all cs Slots_ctor [] = Ok (s, log) ∧
    ∀ v slot id p, slots_ s !! v = Some slot → peers_ slot !! id = Some p →
      pstate p = PSquelched →
      ∃ t d, last_request log v id = Some (t, squelch id d) ∧ expire p = t + d ∧
        MIN_UNSQUELCH_EXPIRE ≤ d ≤ MAX_UNSQUELCH_EXPIRE_PEERS.
Proof.
  destruct (relay_new cs Hcs Hlen) as (s & log & Hrun & Hok). exists s, log. split; [done|].
  intros v slot id p Hv Hp Hsq. destruct (Hok v slot Hv) as [_ Hm].
  specialize (Hm id p Hp Hsq). unfold asked in Hm.
  destruct (last_request log v id) as [[t [k d|k]]|] eqn:Hlast; [|done..].
  apply last_request_target in Hlast as Hk. simpl in Hk. subst k.
  exists t, d. split; [done|]. case_match eqn:Hb; [|done]. injection Hm as <-.
  apply andb_true_iff in Hb as [?%Z.leb_le ?%Z.leb_le]. done.
Qed.

(** losing a relay brings all peers back.  When a selected peer is deleted
    or found idle, exactly the squelched peers are asked to relay again, and
    every remaining peer counts from zero. *)
Theorem relay_lost (env : RelayEnv) (s : Slot) (id : Z) (erase : bool) (p : PeerInfo)
    (Hid : peers_ s !! id = Some p) (Hsel : pstate p = PSelected) :
  (∀ r, r ∈ (deletePeer env id erase s).2 ↔
     ∃ k q, r = unsquelch k ∧ peers_ s !! k = Some q ∧ pstate q = PSquelched) ∧
  (∀ k q, peers_ (deletePeer env id erase s).1 !! k = Some q →
     pstate q = PCounting ∧ count q = 0) ∧
  (peers_ (deletePeer env id erase s).1 !! id = None ↔ erase = true).
Proof.
  destruct (deletePeer_relay env s id erase p Hid Hsel) as [Hw Hall]. split_and!; [done..|].
  unfold deletePeer. rewrite Hid, (bool_decide_eq_true_2 _ Hsel). simpl.
  destruct erase; [by rewrite lookup_delete_eq|].
  by rewrite lookup_alter_eq, lookup_fmap, Hid.
Qed.
End relay.

(** ** Peers that run this software

    Every request goes to the overlay, which sends its messages to the peer; the
    peer has a [Squelch] of its own, and may charge us. *)
Section network.
Context `{KeyOrder : !HashOrder (list Z)} `{PeerOrder : !HashOrder Z}.
Context (reduce : bool) (found : Z → Z → bool) (shift32 : Z) (own : Z → list Z).













End network.

(** ** A concrete run *)

#[local] Instance demo_peer_order : HashOrder Z := default_order Z.

Definition demo_relay_env (now : Z) : RelayEnv := mkRelayEnv now (λ _ lo _, lo).

Lemma demo_uniform now : uniform_ok (demo_relay_env now).
Proof. intros i lo hi Hle. simpl. lia. Qed.

(** Six peers appear, then five of them send eleven messages each. *)
Definition demo_relay_calls : list (RelayEnv * @relay_call Z) :=
  ((λ id, (demo_relay_env 100, UpdateSlot 0 7 id)) <$> [1; 2; 3; 4; 5; 6]) ++
  ((λ id, (demo_relay_env 101, UpdateSlot 0 7 id)) <$>
     mjoin (replicate 11 [1; 2; 3; 4; 5])).

Lemma demo_relay_uniform :
  Forall (λ ec : RelayEnv * @relay_call Z, uniform_ok ec.1) demo_relay_calls.
Proof. apply Forall_app; split; apply Forall_fmap, Forall_true; intros; apply demo_uniform. Qed.

Lemma demo_relay_selected :
  ∃ sf, relay_all demo_relay_calls Slots_ctor [] = Ok sf ∧
  match slots_ sf.1 !! 7 with
  | Some slot => bool_decide (state_ slot = SSelected) &&
      bool_decide (pstate <$> peers_ slot !! 6 = Some PSquelched) &&
      bool_decide (expire <$> peers_ slot !! 6 = Some 401)
  | None => false
  end = true.
Proof. apply ok_test. vm_compute. reflexivity. Qed.

Lemma relays_kept_witness :
  ∃ s f slot, relay_all demo_relay_calls Slots_ctor [] = Ok (s, f) ∧
    slots_ s !! 7 = Some slot ∧ state_ slot = SSelected ∧
    Z.of_nat (size (getSelected slot)) = 5.
Proof.
  destruct (relays_kept demo_relay_calls demo_relay_uniform eq_refl) as (s & f & Hrun & Hall).
  destruct demo_relay_selected as (sf & Hsf & Ht). rewrite Hrun in Hsf. injection Hsf as <-.
  cbn [fst] in Ht. destruct (slots_ s !! 7) as [slot|] eqn:Hs; [|discriminate Ht].
  rewrite !andb_true_iff, !bool_decide_eq_true in Ht. destruct Ht as [[Hst _] _].
  exists s, f, slot. split; [exact Hrun|]. split; [done|]. split; [exact Hst|].
  destruct (Hall 7 slot Hs) as (_ & Hsel & _). exact (proj1 (Hsel Hst)).
Defined.

Lemma squelches_requested_witness :
  ∃ s log d, relay_all demo_relay_calls Slots_ctor [] = Ok (s, log) ∧
    last_request log 7 6 = Some (401 - d, squelch 6 d) ∧ 300 ≤ d ≤ 3600.
Proof.
  destruct (squelches_requested demo_relay_calls demo_relay_uniform eq_refl)
    as (s & log & Hrun & Hall).
  destruct demo_relay_selected as (sf & Hsf & Ht). rewrite Hrun in Hsf. injection Hsf as <-.
  cbn [fst] in Ht. destruct (slots_ s !! 7) as [slot|] eqn:Hs; [|discriminate Ht].
  rewrite !andb_true_iff, !bool_decide_eq_true in Ht. destruct Ht as [[_ Hps] Hexp].
  destruct (peers_ slot !! 6) as [p|] eqn:Hp; [|discriminate Hps].
  injection Hps as Hps. injection Hexp as Hexp.
  destruct (Hall 7 slot 6 p Hs Hp Hps) as (t & d & Hlast & He & Hd).
  exists s, log, d. split; [exact Hrun|]. split; [|exact Hd].
  rewrite Hlast. f_equal. f_equal. lia.
Defined.




#[local] Instance demo_key_order : HashOrder (list Z) := default_order (list Z).


Definition demo_lost : Slot :=
  mkSlot {[ 1 := mkPeer PSelected 0 0 0; 6 := mkPeer PSquelched 0 401 0 ]} ∅ 0 0 SSelected.

Lemma relay_lost_witness : unsquelch 6 ∈ (deletePeer (demo_relay_env 110) 1 true demo_lost).2.
Proof.
  apply (relay_lost (demo_relay_env 110) demo_lost 1 true (mkPeer PSelected 0 0 0)
    eq_refl eq_refl).
  exists 6, (mkPeer PSquelched 0 401 0). split; [|split]; reflexivity.
Defined.
