(* ===== verification/IOUAmount.v ===== *)
(** * Issued amounts ([basics/IOUAmount.h], [basics/impl/IOUAmount.cpp])

    Decimal floating point numbers: a signed mantissa of 16 digits and an
    exponent.  Mantissas are 64 bits wide; [mulRatio] computes in 128 bits.
    The loops have a fuel argument, and running out of it is an outcome of
    its own. *)
From S2P Require Import Prelude Outcome.

(** ** Amounts *)

Definition minMantissa : Z := 1000000000000000.
Definition maxMantissa : Z := 9999999999999999.
Definition minExponent : Z := -96.
Definition maxExponent : Z := 80.

Record IOUAmount := mkIOU { mantissa : Z; exponent : Z }.

#[export] Instance IOUAmount_eq_dec : EqDecision IOUAmount.
Proof. solve_decision. Defined.

Definition zero : IOUAmount := mkIOU 0 (-100).

(** The two loops of [normalize]. *)
Fixpoint scaleUp (fuel : nat) (m e : Z) : exc (Z * Z) :=
  if (m <? minMantissa) && (minExponent <? e) then
    match fuel with O => NoFuel | S fuel => scaleUp fuel (i64 (m * 10)) (e - 1) end
  else Return (m, e).

Fixpoint scaleDown (fuel : nat) (m e : Z) : exc (Z * Z) :=
  if maxMantissa <? m then
    if maxExponent <=? e then Throw "IOUAmount::normalize"
    else match fuel with O => NoFuel | S fuel => scaleDown fuel (Z.quot m 10) (e + 1) end
  else Return (m, e).

Definition normalize (a : IOUAmount) : exc IOUAmount :=
  if mantissa a =? 0 then Return zero
  else
    let negative := mantissa a <? 0 in
    let m := if negative then i64 (- mantissa a) else mantissa a in
    '(m, e) ← scaleUp 16 m (exponent a);
    '(m, e) ← scaleDown 4 m e;
    if (e <? minExponent) || (m <? minMantissa) then Return zero
    else if maxExponent <? e then Throw "value overflow"
    else Return (mkIOU (if negative then - m else m) e).

(** The constructor from a mantissa and an exponent. *)
Definition IOUAmount_ctor (m e : Z) : exc IOUAmount := normalize (mkIOU m e).

Definition neg (a : IOUAmount) : exc IOUAmount := IOUAmount_ctor (i64 (- mantissa a)) (exponent a).

(** The loops of [operator+=], which divide by ten up to an exponent. *)
Fixpoint alignTo (fuel : nat) (m e target : Z) : exc (Z * Z) :=
  if e <? target then
    match fuel with O => NoFuel | S fuel => alignTo fuel (Z.quot m 10) (e + 1) target end
  else Return (m, e).

Definition align_fuel (e target : Z) : nat := Z.to_nat (target - e).

(** [operator+=] *)
Definition plus (a other : IOUAmount) : exc IOUAmount :=
  if bool_decide (other = zero) then Return a
  else if bool_decide (a = zero) then Return other
  else
    '(ma, ea) ← alignTo (align_fuel (exponent a) (exponent other)) (mantissa a) (exponent a)
                  (exponent other);
    '(mo, _) ← alignTo (align_fuel (exponent other) ea) (mantissa other) (exponent other) ea;
    let m := i64 (ma + mo) in
    if (-10 <=? m) && (m <=? 10) then Return zero else normalize (mkIOU m ea).

(** [operator-=] *)
Definition minus (a other : IOUAmount) : exc IOUAmount := o ← neg other; plus a o.

(** [operator<] *)
Definition less (a other : IOUAmount) : bool :=
  let lneg := mantissa a <? 0 in
  let rneg := mantissa other <? 0 in
  if negb (Bool.eqb lneg rneg) then lneg
  else if mantissa a =? 0 then 0 <? mantissa other
  else if mantissa other =? 0 then false
  else if exponent other <? exponent a then lneg
  else if exponent a <? exponent other then negb lneg
  else mantissa a <? mantissa other.

Definition signum (a : IOUAmount) : Z :=
  if mantissa a <? 0 then -1 else if mantissa a =? 0 then 0 else 1.

(** ** Multiplication by a ratio *)

Definition powerTable : list Z := (λ i, 10 ^ Z.of_nat i) <$> seq 0 30.

(** The position of the first element that is not less
    ([std::lower_bound] on a sorted table). *)
Fixpoint lower_bound (t : list Z) (v : Z) : nat :=
  match t with
  | [] => O
  | x :: t => if x <? v then S (lower_bound t v) else O
  end.

Definition log10Floor (v : Z) : Z :=
  let l := lower_bound powerTable v in
  if bool_decide (powerTable !! l = Some v) then Z.of_nat l else Z.of_nat l - 1.
Definition log10Ceil (v : Z) : Z := Z.of_nat (lower_bound powerTable v).

Definition fl64 : Z := log10Floor (2 ^ 63 - 1).

(** [powerTable\[i\]] *)
Definition power (i : Z) : Z := default 0 (powerTable !! Z.to_nat i).

(** The scaled quotient, its exponent, and whether digits were lost. *)
Definition ratioGrow (low rem den e : Z) : Z * Z * Z :=
  if rem =? 0 then (low, rem, e)
  else
    let roomToGrow := fl64 - log10Ceil low in
    let '(low, rem, e) :=
      if 0 <? roomToGrow
      then (u128 (low * power roomToGrow), u128 (rem * power roomToGrow), e - roomToGrow)
      else (low, rem, e) in
    let addRem := rem / den in
    (u128 (low + addRem), u128 (rem - addRem * den), e).

Definition ratioShrink (low rem e : Z) : Z * bool * Z :=
  let hasRem := negb (rem =? 0) in
  let mustShrink := log10Ceil low - fl64 in
  if 0 <? mustShrink then
    let sav := low in
    let low := low / power mustShrink in
    (low, hasRem || negb (u128 (sav - low * power mustShrink) =? 0), e + mustShrink)
  else (low, hasRem, e).

Definition mulRatio (amt : IOUAmount) (num den : Z) (roundUp : bool) : exc IOUAmount :=
  if den =? 0 then Throw "division by zero"
  else
    let neg := mantissa amt <? 0 in
    let mul := u128 ((if neg then i64 (- mantissa amt) else mantissa amt) * num) in
    let low := mul / den in
    let rem := u128 (mul - low * den) in
    let '(low, rem, e) := ratioGrow low rem den (exponent amt) in
    let '(low, hasRem, e) := ratioShrink low rem e in
    let m := i64 low in
    let m := if neg then m * -1 else m in
    result ← IOUAmount_ctor m e;
    if hasRem && roundUp && negb neg then
      if mantissa result =? 0 then IOUAmount_ctor minMantissa minExponent
      else IOUAmount_ctor (mantissa result + 1) (exponent result)
    else if hasRem && negb roundUp && neg then
      if mantissa result =? 0 then IOUAmount_ctor (- minMantissa) minExponent
      else IOUAmount_ctor (mantissa result - 1) (exponent result)
    else Return result.
