(* ===== verification/IOUAmountSpec.v ===== *)
(** * What issued amounts guarantee *)
From S2P Require Import Prelude Outcome IOUAmount.

(** ** Powers of ten *)

Lemma pow10_pos k : 0 ≤ k → 0 < 10 ^ k.
Proof. intros. by apply Z.pow_pos_nonneg. Qed.

Lemma pow10_add a b : 0 ≤ a → 0 ≤ b → 10 ^ (a + b) = 10 ^ a * 10 ^ b.
Proof. intros. by apply Z.pow_add_r. Qed.

Lemma pow10_succ a : 0 ≤ a → 10 ^ (a + 1) = 10 * 10 ^ a.
Proof. intros. rewrite pow10_add by lia. lia. Qed.

Lemma pow10_mono a b : a ≤ b → 10 ^ a ≤ 10 ^ b.
Proof. intros. by apply Z.pow_le_mono_r. Qed.

Lemma quot_quot m a b : 0 < a → 0 < b → Z.quot (Z.quot m a) b = Z.quot m (a * b).
Proof. intros. apply Z.quot_quot; lia. Qed.

(** ** Normalisation *)

Definition canonical (a : IOUAmount) : Prop :=
  a = zero ∨ (minMantissa ≤ Z.abs (mantissa a) ≤ maxMantissa ∧
              minExponent ≤ exponent a ≤ maxExponent).

(** [m'] at exponent [e'] is [m] at exponent [e], cut off after the last
    digit if there is no room for all. *)
Definition scaled_to (m e m' e' : Z) : Prop :=
  (e' ≤ e ∧ m' = m * 10 ^ (e - e')) ∨ (e ≤ e' ∧ m' = Z.quot m (10 ^ (e' - e))).

(** [|m| * 10^e] is below the smallest amount, or above the largest one. *)
Definition tiny (m e : Z) : Prop :=
  let b := Z.min e minExponent in
  Z.abs m * 10 ^ (e - b) < minMantissa * 10 ^ (minExponent - b).
Definition huge (m e : Z) : Prop :=
  let b := Z.min e maxExponent in
  (maxMantissa + 1) * 10 ^ (maxExponent - b) ≤ Z.abs m * 10 ^ (e - b).

Lemma scaleUp_spec fuel m e :
  0 < m → minMantissa ≤ m * 10 ^ Z.of_nat fuel →
  ∃ k, 0 ≤ k ∧ scaleUp fuel m e = Return (m * 10 ^ k, e - k) ∧
    (minMantissa ≤ m * 10 ^ k ∨ e - k ≤ minExponent) ∧
    (k = 0 ∨ (m * 10 ^ k ≤ maxMantissa ∧ minExponent ≤ e - k)).
Proof.
  revert m e. induction fuel as [|fuel IH]; intros m e Hm Hfuel; cbn [scaleUp];
    destruct ((m <? minMantissa) && (minExponent <? e)) eqn:Hc.
  1, 3: apply andb_true_iff in Hc as [Hlt%Z.ltb_lt He%Z.ltb_lt].
  - change (10 ^ Z.of_nat 0) with 1 in Hfuel. lia.
  - unfold minMantissa, maxMantissa in *. rewrite i64_id by lia.
    destruct (IH (m * 10) (e - 1)) as (k & Hk & Heq & Hexit & Hgrow); [lia| |].
    { rewrite Nat2Z.inj_succ, Z.pow_succ_r in Hfuel by lia. lia. }
    exists (k + 1). rewrite pow10_succ by lia.
    replace (m * (10 * 10 ^ k)) with (m * 10 * 10 ^ k) by lia.
    replace (e - (k + 1)) with (e - 1 - k) by lia. split_and!; [lia|done|done|].
    right. destruct Hgrow as [->|?]; [|done]. split; [|lia]. change (10 ^ 0) with 1. lia.
  - exists 0. apply andb_false_iff in Hc. rewrite Z.ltb_ge, Z.ltb_ge in Hc.
    rewrite Z.pow_0_r, Z.mul_1_r, Z.sub_0_r. split_and!; [lia|done|lia|by left].
  - exists 0. apply andb_false_iff in Hc. rewrite Z.ltb_ge, Z.ltb_ge in Hc.
    rewrite Z.pow_0_r, Z.mul_1_r, Z.sub_0_r. split_and!; [lia|done|lia|by left].
Qed.

Lemma scaleDown_spec fuel m e :
  0 < m → m < 10 ^ (16 + Z.of_nat fuel) →
  match scaleDown fuel m e with
  | Return (m', e') => ∃ k, 0 ≤ k ∧ m' = m / 10 ^ k ∧ e' = e + k ∧ m' ≤ maxMantissa ∧
      (k = 0 ∨ (minMantissa ≤ m' ∧ e' ≤ maxExponent))
  | Throw _ => ∃ k, 0 ≤ k ∧ (maxMantissa + 1) * 10 ^ k ≤ m ∧ maxExponent ≤ e + k
  | Abort _ | NoFuel => False
  end.
Proof.
  unfold minMantissa, maxMantissa, maxExponent.
  revert m e. induction fuel as [|fuel IH]; intros m e Hm Hfuel; cbn [scaleDown];
    unfold maxMantissa, maxExponent; destruct (Z.ltb_spec 9999999999999999 m) as [Hlt|Hge].
  - change (10 ^ (16 + Z.of_nat 0)) with 10000000000000000 in Hfuel. lia.
  - exists 0. rewrite Z.pow_0_r, Z.div_1_r. split_and!; [lia..|by left].
  - destruct (Z.leb_spec 80 e) as [He|He].
    { exists 0. rewrite Z.pow_0_r. split_and!; lia. }
    rewrite Z.quot_div_nonneg by lia.
    replace (16 + Z.of_nat (S fuel)) with (16 + Z.of_nat fuel + 1) in Hfuel by lia.
    rewrite pow10_succ in Hfuel by lia.
    specialize (IH (m / 10) (e + 1)). destruct (scaleDown fuel (m / 10) (e + 1)) as [[m' e']|?|?|].
    + destruct IH as (k & Hk & -> & -> & Hmax & Hmin);
        [apply Z.div_str_pos; lia|by apply Z.div_lt_upper_bound; lia|].
      exists (k + 1). rewrite Z.div_div, pow10_succ in * by (pose proof (pow10_pos k); lia).
      split_and!; [lia|done|lia|done|]. right.
      destruct Hmin as [->|?]; [|done]. change (10 * 10 ^ 0) with 10 in *.
      split; [apply Z.div_le_lower_bound; lia|lia].
    + destruct IH as (k & Hk & Hmax & He');
        [apply Z.div_str_pos; lia|by apply Z.div_lt_upper_bound; lia|].
      exists (k + 1). rewrite pow10_succ by lia. split_and!; [lia| |lia].
      pose proof (Z.mul_div_le m 10). lia.
    + apply IH; [apply Z.div_str_pos; lia|by apply Z.div_lt_upper_bound; lia].
    + apply IH; [apply Z.div_str_pos; lia|by apply Z.div_lt_upper_bound; lia].
  - exists 0. rewrite Z.pow_0_r, Z.div_1_r. split_and!; [lia..|by left].
Qed.

(** Too small after all loops: [k] digits were added or [j] dropped. *)
Lemma loops_tiny m e k j :
  0 < m → 0 ≤ k → 0 ≤ j → k = 0 ∨ j = 0 →
  (j = 0 → minMantissa ≤ m * 10 ^ k ∨ e - k ≤ minExponent) →
  (k ≠ 0 → m * 10 ^ k ≤ maxMantissa ∧ minExponent ≤ e - k) →
  (j ≠ 0 → minMantissa ≤ m / 10 ^ j) → m * 10 ^ k / 10 ^ j ≤ maxMantissa →
  e - k + j < minExponent ∨ m * 10 ^ k / 10 ^ j < minMantissa →
  tiny m e.
Proof.
  unfold tiny, minMantissa, maxMantissa, minExponent. intros Hm Hk Hj Hkj Hup Hk0 Hdown Hmax Hsmall.
  rewrite (Z.abs_eq m) by lia. destruct (decide (k = 0)) as [->|Hk'].
  - rewrite Z.pow_0_r, Z.mul_1_r, Z.sub_0_r in *.
    assert (m < 10 ^ (16 + j)) as Hlt.
    { rewrite pow10_add by lia. change (10 ^ 16) with 10000000000000000.
      pose proof (Z.mul_succ_div_gt m (10 ^ j) (pow10_pos j Hj)). nia. }
    destruct (decide (j = 0)) as [->|Hj'].
    + rewrite Z.pow_0_r, Z.div_1_r, Z.add_0_r in *. assert (e ≤ -96) as He by lia.
      rewrite Z.min_l, Z.sub_diag, Z.pow_0_r by lia.
      destruct Hsmall as [He'|Hm'].
      * pose proof (pow10_mono 1 (-96 - e)). lia.
      * pose proof (pow10_pos (-96 - e)). nia.
    + assert (e + j < -96) as He by lia. rewrite Z.min_l, Z.sub_diag, Z.pow_0_r by lia.
      rewrite Z.add_comm, pow10_add in Hlt by lia. pose proof (pow10_mono (1 + j) (-96 - e)) as Hp.
      rewrite pow10_add in Hp by lia. lia.
  - destruct Hkj as [| ->]; [done|]. rewrite Z.pow_0_r, Z.div_1_r, Z.add_0_r in *.
    destruct (Hk0 Hk') as [Hmax' He]. assert (e - k = -96) as He' by lia.
    rewrite Z.min_r, Z.sub_diag, Z.pow_0_r by lia. replace (e - -96) with k by lia. lia.
Qed.

(** Too large for the second loop. *)
Lemma loop_huge m e j :
  0 < m → 0 ≤ j → (maxMantissa + 1) * 10 ^ j ≤ m → maxExponent ≤ e + j → huge m e.
Proof.
  unfold huge, maxMantissa, maxExponent. intros Hm Hj Hbig He. rewrite (Z.abs_eq m) by lia.
  pose proof (pow10_pos j Hj). destruct (decide (80 ≤ e)).
  - rewrite Z.min_r, Z.sub_diag, Z.pow_0_r by lia. pose proof (pow10_pos (e - 80)). nia.
  - rewrite Z.min_l, Z.sub_diag, Z.pow_0_r by lia. pose proof (pow10_mono (80 - e) j). nia.
Qed.

Lemma normalize_mag (b : bool) m e :
  0 < m < 2 ^ 64 →
  match ('(m1, e1) ← scaleUp 16 m e; '(m2, e2) ← scaleDown 4 m1 e1;
         if (e2 <? minExponent) || (m2 <? minMantissa) then Return zero
         else if maxExponent <? e2 then Throw "value overflow"
         else Return (mkIOU (if b then - m2 else m2) e2))
  with
  | Return r => (r = zero ∧ tiny m e) ∨
      ∃ m2 e2, r = mkIOU (if b then - m2 else m2) e2 ∧ minMantissa ≤ m2 ≤ maxMantissa ∧
        minExponent ≤ e2 ≤ maxExponent ∧ scaled_to m e m2 e2
  | Throw _ => huge m e
  | Abort _ | NoFuel => False
  end.
Proof.
  intros Hm. destruct (scaleUp_spec 16 m e ltac:(lia)) as (k & Hk & -> & Hup & Hk0);
    [change (10 ^ Z.of_nat 16) with 10000000000000000; unfold minMantissa; lia|].
  cbn [mbind exc_bind]. pose proof (pow10_pos k Hk) as Hpk.
  assert (m * 10 ^ k < 2 ^ 64) as Hmk
    by (destruct Hk0 as [->|[? _]]; [rewrite Z.pow_0_r; lia|unfold maxMantissa in *; lia]).
  pose proof (scaleDown_spec 4 (m * 10 ^ k) (e - k)) as Hdown.
  destruct (scaleDown 4 (m * 10 ^ k) (e - k)) as [[m2 e2]|?|?|]; cbn [mbind exc_bind].
  - destruct Hdown as (j & Hj & Hm2 & He2 & Hmax & Hj0);
      [nia|change (10 ^ (16 + Z.of_nat 4)) with (10 ^ 20); lia|].
    assert (k = 0 ∨ j = 0) as Hkj.
    { destruct Hk0 as [->|[Hk0 _]]; [by left|right]. destruct Hj0 as [|[Hj0 _]]; [done|].
      destruct (decide (j = 0)); [done|]. rewrite Hm2 in Hj0.
      pose proof (Z.mul_div_le (m * 10 ^ k) (10 ^ j) (pow10_pos j Hj)).
      pose proof (pow10_mono 1 j). unfold minMantissa, maxMantissa in *. nia. }
    destruct (_ || _) eqn:Hsmall; simpl.
    { left. split; [done|]. apply orb_true_iff in Hsmall. rewrite !Z.ltb_lt in Hsmall.
      apply (loops_tiny m e k j); try done; try lia.
      - intros Hj'. destruct Hj0 as [|[? _]]; [done|]. destruct Hkj as [->|]; [|done].
        by rewrite Z.pow_0_r, Z.mul_1_r in Hm2; rewrite <- Hm2. }
    apply orb_false_iff in Hsmall as [Hsm%Z.ltb_ge Hsm2%Z.ltb_ge].
    destruct (Z.ltb_spec maxExponent e2) as [Hov|Hov]; simpl.
    { destruct Hj0 as [->|[_ ?]]; [|lia].
      rewrite Z.pow_0_r, Z.div_1_r in Hm2. unfold huge, minMantissa, maxMantissa, maxExponent in *.
      rewrite (Z.abs_eq m), Z.min_r, Z.sub_diag, Z.pow_0_r by lia.
      pose proof (pow10_mono (k + 1) (e - 80)) as Hp. rewrite pow10_succ in Hp by lia. nia. }
    right. exists m2, e2. split_and!; [done|done|done|lia|lia|].
    destruct Hkj as [->| ->].
    + right. rewrite Z.pow_0_r, Z.mul_1_r in *. split; [lia|].
      rewrite Z.quot_div_nonneg by (try apply pow10_pos; lia). by replace (e2 - e) with j by lia.
    + left. rewrite Z.pow_0_r, Z.div_1_r in Hm2. split; [lia|]. by replace (e - e2) with k by lia.
  - destruct Hdown as (j & Hj & Hbig & He);
      [nia|change (10 ^ (16 + Z.of_nat 4)) with (10 ^ 20); lia|].
    assert (k = 0) as ->.
    { destruct Hk0 as [|[Hk0 _]]; [done|]. pose proof (pow10_pos j Hj). nia. }
    rewrite Z.pow_0_r, Z.mul_1_r, Z.sub_0_r in *. by apply (loop_huge m e j); [lia|..].
  - apply Hdown; [nia|change (10 ^ (16 + Z.of_nat 4)) with (10 ^ 20); lia].
  - apply Hdown; [nia|change (10 ^ (16 + Z.of_nat 4)) with (10 ^ 20); lia].
Qed.

Lemma scaled_to_opp m e m' e' : scaled_to m e m' e' → scaled_to (- m) e (- m') e'.
Proof.
  intros [[He ->]|[He ->]]; [left|right]; (split; [done|]).
  - lia.
  - rewrite Z.quot_opp_l; [done|]. pose proof (pow10_pos (e' - e)). lia.
Qed.

Lemma tiny_opp m e : tiny (- m) e ↔ tiny m e.
Proof. unfold tiny. by rewrite Z.abs_opp. Qed.
Lemma huge_opp m e : huge (- m) e ↔ huge m e.
Proof. unfold huge. by rewrite Z.abs_opp. Qed.

(** What the constructor makes of a mantissa and an exponent. *)
Definition normal_form (m e : Z) (r : exc IOUAmount) : Prop :=
  match r with
  | Return a => (a = zero ∧ tiny m e) ∨
      (minMantissa ≤ Z.abs (mantissa a) ≤ maxMantissa ∧
       minExponent ≤ exponent a ≤ maxExponent ∧ scaled_to m e (mantissa a) (exponent a))
  | Throw _ => huge m e
  | Abort _ | NoFuel => False
  end.

Lemma ctor_normal m e : - 2 ^ 63 < m < 2 ^ 63 → normal_form m e (IOUAmount_ctor m e).
Proof.
  intros Hm. unfold IOUAmount_ctor, normalize. simpl mantissa. simpl exponent.
  destruct (Z.eqb_spec m 0) as [->|Hm0].
  { left. split; [done|]. unfold tiny. rewrite Z.mul_0_l. apply Z.mul_pos_pos; [done|].
    apply pow10_pos. unfold minExponent. lia. }
  destruct (Z.ltb_spec m 0) as [Hneg|Hpos].
  - rewrite i64_id by lia. pose proof (normalize_mag true (- m) e ltac:(lia)) as Hn.
    destruct (mbind _ _) as [a|w|?|]; simpl; [|by apply huge_opp|done..].
    destruct Hn as [[-> Ht]|(m2 & e2 & -> & Hm2 & He2 & Hs)]; [left; by rewrite <- tiny_opp|right].
    unfold minMantissa, maxMantissa in *. simpl. split_and!; [lia..|].
    rewrite <- (Z.opp_involutive m). by apply scaled_to_opp.
  - pose proof (normalize_mag false m e ltac:(lia)) as Hn.
    destruct (mbind _ _) as [a|w|?|]; simpl; [|done..].
    destruct Hn as [[-> Ht]|(m2 & e2 & -> & Hm2 & He2 & Hs)]; [by left|right].
    unfold minMantissa, maxMantissa in *. simpl. split_and!; [lia..|done].
Qed.

(** ** Values and order *)

(** The value of an amount in units of 10^-100, the exponent of zero. *)
Definition value (a : IOUAmount) : Z := mantissa a * 10 ^ (exponent a + 100).

Lemma canonical_exponent a : canonical a → -100 ≤ exponent a ≤ 80.
Proof.
  unfold minExponent, maxExponent. intros [->|[_ He]]; [simpl; lia|].
  unfold minExponent, maxExponent in He. lia.
Qed.

(** A larger exponent means a larger magnitude. *)
Lemma exponent_dominates a b :
  minMantissa ≤ Z.abs (mantissa b) → Z.abs (mantissa a) ≤ maxMantissa →
  -100 ≤ exponent a < exponent b → Z.abs (value a) < Z.abs (value b).
Proof.
  unfold minMantissa, maxMantissa, value. intros Hb Ha He. rewrite !Z.abs_mul.
  pose proof (pow10_pos (exponent a + 100)) as Hp.
  rewrite !(Z.abs_eq (10 ^ _)) by (apply Z.lt_le_incl, pow10_pos; lia).
  pose proof (pow10_mono (exponent a + 100 + 1) (exponent b + 100)) as Hm.
  rewrite pow10_succ in Hm by lia. nia.
Qed.

Lemma value_sign a : -100 ≤ exponent a → Z.sgn (value a) = Z.sgn (mantissa a).
Proof.
  intros He. unfold value. pose proof (pow10_pos (exponent a + 100)).
  rewrite Z.sgn_mul, (Z.sgn_pos (10 ^ _)) by lia. lia.
Qed.

Lemma canonical_nonzero a :
  canonical a → mantissa a ≠ 0 → minMantissa ≤ Z.abs (mantissa a) ≤ maxMantissa.
Proof. intros [->|[? _]]; done. Qed.

(** Amounts of different exponents compare like their exponents. *)
Lemma value_exponents a b :
  canonical a → canonical b → mantissa a ≠ 0 → mantissa b ≠ 0 →
  exponent a < exponent b → Z.abs (value a) < Z.abs (value b).
Proof.
  intros Ha Hb Ha0 Hb0 He. pose proof (canonical_exponent a Ha).
  apply exponent_dominates; [by apply canonical_nonzero..|lia].
Qed.

Lemma value_same_exponent a b :
  -100 ≤ exponent a → exponent a = exponent b →
  (value a < value b ↔ mantissa a < mantissa b) ∧ (value a = value b ↔ mantissa a = mantissa b).
Proof.
  intros He Heq. unfold value. rewrite <- Heq. pose proof (pow10_pos (exponent a + 100)).
  split; nia.
Qed.

(** [operator<] orders amounts by value.  On normalised amounts the
    comparison by signs, exponents and mantissas agrees with the order of the
    numbers they stand for, and two amounts of equal value are equal; so the
    order is total. *)
Theorem less_is_value_order (a b : IOUAmount) (Ha : canonical a) (Hb : canonical b) :
  (less a b = true ↔ value a < value b) ∧ (value a = value b ↔ a = b).
Proof.
  pose proof (canonical_exponent a Ha) as Hea. pose proof (canonical_exponent b Hb) as Heb.
  pose proof (value_sign a ltac:(lia)) as Hsa. pose proof (value_sign b ltac:(lia)) as Hsb.
  assert (mantissa a = 0 → a = zero) as Ha0.
  { destruct Ha as [|[Hm _]]; [done|]. unfold minMantissa in Hm. lia. }
  assert (mantissa b = 0 → b = zero) as Hb0.
  { destruct Hb as [|[Hm _]]; [done|]. unfold minMantissa in Hm. lia. }
  assert (∀ c d : IOUAmount, mantissa c = mantissa d → exponent c = exponent d → c = d) as Heq
    by (intros [] []; simpl; congruence).
  unfold less. destruct (decide (mantissa a = 0)) as [Hma|Hma].
  { rewrite (Ha0 Hma) in *. change (value zero) with 0 in *. simpl mantissa in *. split.
    { destruct (Z.ltb_spec (mantissa b) 0); simpl; [lia|]. rewrite Z.ltb_lt. lia. }
    split; [intros Hv; symmetry; apply Hb0; lia|intros <-; done]. }
  destruct (decide (mantissa b = 0)) as [Hmb|Hmb].
  { rewrite (Hb0 Hmb) in *. change (value zero) with 0 in *. simpl mantissa in *.
    rewrite (proj2 (Z.eqb_neq _ _) Hma), Z.ltb_irrefl, Z.eqb_refl.
    destruct (Z.ltb_spec (mantissa a) 0); simpl; (split; [lia|]);
      (split; [intros Hv; apply Ha0; lia|intros ->; done]). }
  rewrite (proj2 (Z.eqb_neq _ _) Hma), (proj2 (Z.eqb_neq _ _) Hmb).
  destruct (Z.lt_trichotomy (exponent a) (exponent b)) as [He|[He|He]].
  - pose proof (value_exponents a b Ha Hb Hma Hmb He).
    rewrite (proj2 (Z.ltb_ge (exponent b) (exponent a))) by lia.
    rewrite (proj2 (Z.ltb_lt (exponent a) (exponent b))) by lia.
    destruct (Z.ltb_spec (mantissa a) 0), (Z.ltb_spec (mantissa b) 0); simpl;
      (split; [lia|split; [lia|intros ->; lia]]).
  - destruct (value_same_exponent a b) as [Hlt Hveq]; [lia|done|].
    rewrite Hlt, Hveq, He, Z.ltb_irrefl.
    destruct (Z.ltb_spec (mantissa a) 0), (Z.ltb_spec (mantissa b) 0); simpl;
      rewrite ?Z.ltb_lt; (split; [lia|split; [by intros; apply Heq|congruence]]).
  - pose proof (value_exponents b a Hb Ha Hmb Hma He).
    rewrite (proj2 (Z.ltb_lt (exponent b) (exponent a))) by lia.
    destruct (Z.ltb_spec (mantissa a) 0), (Z.ltb_spec (mantissa b) 0); simpl;
      (split; [lia|split; [lia|intros ->; lia]]).
Qed.

(** ** Addition *)

Lemma alignTo_spec n m e t :
  t - e ≤ Z.of_nat n →
  alignTo n m e t = Return (Z.quot m (10 ^ Z.max 0 (t - e)), Z.max e t).
Proof.
  revert m e. induction n as [|n IH]; intros m e Hn; cbn [alignTo];
    destruct (Z.ltb_spec e t) as [Hlt|Hge]; try lia.
  - by rewrite Z.max_l, Z.pow_0_r, Z.quot_1_r, Z.max_l by lia.
  - rewrite IH by lia. pose proof (pow10_pos (Z.max 0 (t - (e + 1)))).
    rewrite quot_quot, <- pow10_succ by lia. do 2 f_equal; [do 2 f_equal|]; lia.
  - by rewrite Z.max_l, Z.pow_0_r, Z.quot_1_r, Z.max_l by lia.
Qed.

(** The mantissa of [a] at a larger exponent. *)
Definition aligned (a : IOUAmount) (e : Z) : Z := Z.quot (mantissa a) (10 ^ (e - exponent a)).

Definition top (a b : IOUAmount) : Z := Z.max (exponent a) (exponent b).

Lemma aligned_bound a e : exponent a ≤ e → Z.abs (aligned a e) ≤ Z.abs (mantissa a).
Proof.
  intros He. unfold aligned. rewrite <- Z.quot_abs, Z.quot_div_nonneg
    by (pose proof (pow10_pos (e - exponent a)); lia).
  apply Z.div_le_upper_bound; pose proof (pow10_pos (e - exponent a)); nia.
Qed.

Lemma aligned_error a e :
  -100 ≤ exponent a ≤ e →
  Z.abs (value a - aligned a e * 10 ^ (e + 100)) < 10 ^ (e + 100) ∧
  (exponent a = e → value a = aligned a e * 10 ^ (e + 100)).
Proof.
  intros He. unfold value, aligned. set (d := 10 ^ (e - exponent a)). set (u := 10 ^ (exponent a + 100)).
  assert (10 ^ (e + 100) = d * u) as ->.
  { unfold d, u. rewrite <- pow10_add by lia. f_equal. lia. }
  assert (0 < d ∧ 0 < u) as [Hd Hu] by (split; apply pow10_pos; lia). split.
  - pose proof (Z.quot_rem' (mantissa a) d) as Hq.
    pose proof (Z.rem_bound_abs (mantissa a) d ltac:(lia)) as Hr.
    replace (mantissa a * u - Z.quot (mantissa a) d * (d * u)) with (Z.rem (mantissa a) d * u) by lia.
    rewrite Z.abs_mul. nia.
  - intros Heq. unfold d. rewrite Heq, Z.sub_diag, Z.pow_0_r, Z.quot_1_r. lia.
Qed.

Lemma plus_closed a b :
  canonical a → canonical b → mantissa a ≠ 0 → mantissa b ≠ 0 →
  let s := aligned a (top a b) + aligned b (top a b) in
  Z.abs s ≤ 2 * maxMantissa ∧
  plus a b = if (-10 <=? s) && (s <=? 10) then Return zero else IOUAmount_ctor s (top a b).
Proof.
  intros Ha Hb Ha0 Hb0 s.
  pose proof (canonical_nonzero a Ha Ha0) as Hma. pose proof (canonical_nonzero b Hb Hb0) as Hmb.
  assert (Z.abs s ≤ 2 * maxMantissa) as Hs.
  { pose proof (aligned_bound a (top a b) ltac:(unfold top; lia)).
    pose proof (aligned_bound b (top a b) ltac:(unfold top; lia)). unfold s. lia. }
  split; [done|]. unfold plus.
  rewrite !bool_decide_eq_false_2 by (intros Heq; by rewrite Heq in *).
  rewrite alignTo_spec by (unfold align_fuel; lia). cbn [mbind exc_bind].
  rewrite alignTo_spec by (unfold align_fuel; lia). cbn [mbind exc_bind].
  assert (Z.quot (mantissa a) (10 ^ Z.max 0 (exponent b - exponent a)) = aligned a (top a b)) as ->.
  { unfold aligned, top. do 2 f_equal. lia. }
  assert (Z.quot (mantissa b) (10 ^ Z.max 0 (Z.max (exponent a) (exponent b) - exponent b))
    = aligned b (top a b)) as ->.
  { unfold aligned, top. do 2 f_equal. lia. }
  fold s. unfold maxMantissa in Hs. rewrite i64_id by lia. done.
Qed.

Lemma aligned_sum_error a b :
  canonical a → canonical b →
  Z.abs (value a + value b - (aligned a (top a b) + aligned b (top a b)) * 10 ^ (top a b + 100))
    < 10 ^ (top a b + 100).
Proof.
  intros Ha Hb. pose proof (canonical_exponent a Ha). pose proof (canonical_exponent b Hb).
  destruct (aligned_error a (top a b)) as [Hea Hea0]; [unfold top; lia|].
  destruct (aligned_error b (top a b)) as [Heb Heb0]; [unfold top; lia|].
  destruct (Z.max_spec (exponent a) (exponent b)) as [[_ Ht]|[_ Ht]]; fold (top a b) in Ht.
  - specialize (Heb0 ltac:(lia)). lia.
  - specialize (Hea0 ltac:(lia)). lia.
Qed.

Lemma canonical_zero : canonical zero.
Proof. by left. Qed.

(** Normalising a sum drops at most one digit. *)
Lemma ctor_error s e :
  Z.abs s ≤ 2 * maxMantissa → minExponent ≤ e →
  match IOUAmount_ctor s e with
  | Return r => canonical r ∧
      (Z.abs (value r - s * 10 ^ (e + 100)) < 10 * 10 ^ (e + 100) ∨ (r = zero ∧ tiny s e))
  | Throw _ => huge s e
  | Abort _ | NoFuel => False
  end.
Proof.
  unfold maxMantissa, minExponent. intros Hs He. pose proof (ctor_normal s e ltac:(lia)) as Hn.
  destruct (IOUAmount_ctor s e) as [r|w|?|]; [|done..].
  destruct Hn as [[-> Ht]|(Hm & Hexp & Hsc)]; [by split; [left|right]|].
  split; [by right|left]. unfold value, minMantissa, minExponent in *.
  destruct Hsc as [[Hle Heq]|[Hle Heq]].
  - rewrite Heq, <- Z.mul_assoc, <- pow10_add by lia.
    replace (e - exponent r + (exponent r + 100)) with (e + 100) by lia.
    pose proof (pow10_pos (e + 100)). lia.
  - set (d := 10 ^ (exponent r - e)) in *. set (u := 10 ^ (e + 100)).
    assert (0 < d ∧ 0 < u) as [Hd Hu] by (split; apply pow10_pos; lia).
    assert (10 ^ (exponent r + 100) = d * u) as ->
      by (unfold d, u; rewrite <- pow10_add by lia; f_equal; lia).
    pose proof (Z.quot_rem' s d) as Hq. pose proof (Z.rem_bound_abs s d ltac:(lia)) as Hr.
    rewrite <- Heq in Hq.
    assert (d ≤ 10) as Hd10.
    { assert (exponent r - e ≤ 1) as Hle1; [|by apply (pow10_mono _ 1)].
      destruct (decide (exponent r - e ≤ 1)); [done|].
      pose proof (pow10_mono 2 (exponent r - e) ltac:(lia)). fold d in H.
      change (10 ^ 2) with 100 in H.
      assert (Z.abs (mantissa r) * d ≤ Z.abs s); [|nia].
      rewrite Heq, <- Z.quot_abs, (Z.abs_eq d), Z.quot_div_nonneg by lia.
      pose proof (Z.mul_div_le (Z.abs s) d Hd). lia. }
    replace (mantissa r * (d * u) - s * u) with (- (Z.rem s d * u)) by lia.
    rewrite Z.abs_opp, Z.abs_mul. nia.
Qed.

(** A multiple of a power of ten below 10^15 leaves room for one more. *)
Lemma succ_below q x :
  0 < q → 0 ≤ x → q * 10 ^ x < minMantissa → (q + 1) * 10 ^ x ≤ minMantissa.
Proof.
  unfold minMantissa. intros Hq Hx Hlt. pose proof (pow10_pos x Hx) as Hu.
  assert (x ≤ 15) as H15.
  { destruct (decide (x ≤ 15)); [done|]. pose proof (pow10_mono 15 x ltac:(lia)) as Hp.
    change (10 ^ 15) with 1000000000000000 in Hp. nia. }
  assert (1000000000000000 = 10 ^ (15 - x) * 10 ^ x) as Heq.
  { rewrite <- pow10_add by lia. by replace (15 - x + x) with 15 by lia. }
  rewrite Heq in *. assert (q < 10 ^ (15 - x)) by nia. nia.
Qed.

(** A sum that underflows is below the smallest amount. *)
Lemma tiny_sum s e x :
  minExponent ≤ e → 10 < Z.abs s → tiny s e → Z.abs (x - s * 10 ^ (e + 100)) < 10 ^ (e + 100) →
  Z.abs x < minMantissa * 10 ^ (minExponent + 100).
Proof.
  unfold tiny, minExponent, minMantissa. intros He Hs Ht Hx.
  rewrite Z.min_r, Z.sub_diag, Z.pow_0_r, Z.mul_1_r in Ht by lia.
  replace (e - -96) with (e + 96) in Ht by lia.
  pose proof (succ_below (Z.abs s) (e + 96) ltac:(lia) ltac:(lia) Ht) as Hq.
  unfold minMantissa in Hq.
  replace (e + 100) with (e + 96 + 4) in Hx by lia. rewrite (pow10_add (e + 96) 4) in Hx by lia.
  change (10 ^ (-96 + 100)) with 10000. change (10 ^ 4) with 10000 in Hx.
  pose proof (pow10_pos (e + 96)). nia.
Qed.

(** A sum that overflows is above the largest amount. *)
Lemma huge_sum s e x :
  minExponent ≤ e ≤ maxExponent → huge s e →
  Z.abs (x - s * 10 ^ (e + 100)) < 10 ^ (e + 100) →
  maxMantissa * 10 ^ (maxExponent + 100) < Z.abs x.
Proof.
  unfold huge, minExponent, maxExponent, maxMantissa. intros He Hh Hx.
  rewrite Z.min_l, Z.sub_diag, Z.pow_0_r, Z.mul_1_r in Hh by lia.
  replace (80 + 100) with (80 - e + (e + 100)) by lia. rewrite pow10_add by lia.
  pose proof (pow10_pos (80 - e)). pose proof (pow10_pos (e + 100)). nia.
Qed.

Lemma plus_zero a b : canonical a → canonical b → mantissa a = 0 ∨ mantissa b = 0 →
  plus a b = Return (if decide (mantissa a = 0) then b else a).
Proof.
  assert (∀ c, canonical c → mantissa c = 0 ↔ c = zero) as H0.
  { intros c [->|[Hm _]]; [done|]. unfold minMantissa in Hm. split; [lia|by intros ->]. }
  intros Ha Hb Hor. unfold plus. rewrite (H0 a Ha), (H0 b Hb) in Hor.
  case_decide as Hd; rewrite (H0 a Ha) in Hd.
  - case_bool_decide as Hb0; [congruence|]. by rewrite bool_decide_eq_true_2.
  - destruct Hor as [|Hb0]; [done|]. by rewrite bool_decide_eq_true_2.
Qed.

(** C34: how exact addition is.  Adding two normalised amounts commutes.  When
    it returns, the result is normalised, and differs from the exact sum by
    less than eleven units in the last place of the operand with the larger
    exponent, or it is zero and the exact sum is below the smallest amount.
    It throws only if the exact sum exceeds the largest amount. *)
Theorem plus_error (a b : IOUAmount) (Ha : canonical a) (Hb : canonical b) :
  plus a b = plus b a ∧
  match plus a b with
  | Return r => canonical r ∧
      (Z.abs (value r - (value a + value b))
         < 11 * 10 ^ (Z.max (exponent a) (exponent b) + 100) ∨
       (r = zero ∧ Z.abs (value a + value b) < minMantissa * 10 ^ (minExponent + 100)))
  | Throw _ => maxMantissa * 10 ^ (maxExponent + 100) < Z.abs (value a + value b)
  | Abort _ | NoFuel => False
  end.
Proof.
  pose proof (canonical_exponent a Ha) as Hea. pose proof (canonical_exponent b Hb) as Heb.
  fold (top a b). assert (0 < 10 ^ (top a b + 100)) as Hu by (apply pow10_pos; unfold top; lia).
  destruct (decide (mantissa a = 0 ∨ mantissa b = 0)) as [H0|H0].
  { rewrite (plus_zero a b), (plus_zero b a) by (done || tauto).
    assert (∀ c, mantissa c = 0 → value c = 0) as Hv0 by (intros c Hc; unfold value; lia).
    assert (∀ c d, canonical c → canonical d → mantissa c = 0 → mantissa d = 0 → c = d) as Heq.
    { intros c d [->|[Hc _]] [->|[Hd _]]; unfold minMantissa in *; [done|lia..]. }
    destruct (decide (mantissa a = 0)) as [Ha0|Ha0], (decide (mantissa b = 0)) as [Hb0|Hb0];
      [| | |tauto]; (split; [solve [done | f_equal; by apply Heq]|split; [done|left]]);
      rewrite ?(Hv0 a Ha0), ?(Hv0 b Hb0); lia. }
  apply Decidable.not_or in H0 as [Ha0 Hb0].
  destruct (plus_closed a b Ha Hb Ha0 Hb0) as [Hs Hab].
  destruct (plus_closed b a Hb Ha Hb0 Ha0) as [_ Hba].
  assert (top b a = top a b) as Htop by (unfold top; lia). rewrite Htop in Hba.
  rewrite Hba, (Z.add_comm (aligned b _)), <- Hab. split; [done|]. rewrite Hab.
  pose proof (aligned_sum_error a b Ha Hb) as Herr. set (s := aligned a _ + _) in *.
  assert (minExponent ≤ top a b ≤ maxExponent) as Ht.
  { destruct Ha as [->|[_ ?]], Hb as [->|[_ ?]]; try done. unfold top. lia. }
  destruct (_ && _) eqn:Hsmall.
  { split; [apply canonical_zero|left]. change (value zero) with 0. reflect_bools. nia. }
  assert (10 < Z.abs s) as Hs10 by (reflect_bools; lia).
  pose proof (ctor_error s (top a b) Hs ltac:(lia)) as Hc.
  destruct (IOUAmount_ctor s (top a b)) as [r|w|?|]; [|by eapply huge_sum|done..].
  destruct Hc as [Hc [He|[-> Htiny]]]; (split; [done|]); [left; lia|right].
  split; [done|]. by apply (tiny_sum s (top a b)); [lia|..].
Qed.

Definition demo_amount : IOUAmount := mkIOU 1234567890123456 (-10).
Definition demo_other : IOUAmount := mkIOU (-9999999999999999) (-12).

Lemma demo_canonical : canonical demo_amount ∧ canonical demo_other.
Proof. split; right; vm_compute; repeat split; discriminate. Qed.

Lemma plus_error_witness :
  plus demo_amount demo_other = Return (mkIOU 1134567890123457 (-10)) ∧
  plus demo_other demo_amount = Return (mkIOU 1134567890123457 (-10)).
Proof.
  rewrite <- (proj1 (plus_error demo_amount demo_other (proj1 demo_canonical)
    (proj2 demo_canonical))).
  split; vm_compute; reflexivity.
Defined.

Lemma less_is_value_order_witness :
  less demo_other demo_amount = true ∧ value demo_other < value demo_amount.
Proof.
  assert (less demo_other demo_amount = true) as Hl by (vm_compute; reflexivity).
  split; [exact Hl|].
  apply (less_is_value_order demo_other demo_amount (proj2 demo_canonical)
    (proj1 demo_canonical)).
  exact Hl.
Defined.

Lemma tiny_not_huge m e : tiny m e → ¬ huge m e.
Proof.
  unfold tiny, huge, minMantissa, maxMantissa, minExponent, maxExponent. intros Ht Hh.
  destruct (decide (e ≤ -96)).
  - rewrite Z.min_l, Z.sub_diag, Z.pow_0_r in Ht by lia.
    rewrite Z.min_l, Z.sub_diag, Z.pow_0_r in Hh by lia.
    pose proof (pow10_mono (-96 - e) (80 - e)). pose proof (pow10_pos (-96 - e)). nia.
  - rewrite Z.min_r, Z.sub_diag, Z.pow_0_r in Ht by lia. destruct (decide (e ≤ 80)).
    + rewrite Z.min_l, Z.sub_diag, Z.pow_0_r in Hh by lia.
      pose proof (pow10_pos (80 - e)). pose proof (pow10_pos (e - -96)). nia.
    + rewrite Z.min_r, Z.sub_diag, Z.pow_0_r in Hh by lia.
      pose proof (pow10_mono (e - 80) (e - -96)). nia.
Qed.

Lemma scaled_not_huge m e m' e' :
  scaled_to m e m' e' → Z.abs m' ≤ maxMantissa → e' ≤ maxExponent → ¬ huge m e.
Proof.
  unfold huge, maxMantissa, maxExponent. intros Hs Hm' He' Hh.
  destruct Hs as [[He ->]|[He ->]].
  - rewrite Z.abs_mul, (Z.abs_eq (10 ^ _)) in Hm' by (apply Z.lt_le_incl, pow10_pos; lia).
    destruct (decide (e ≤ 80)).
    + rewrite Z.min_l, Z.sub_diag, Z.pow_0_r in Hh by lia.
      pose proof (pow10_pos (80 - e)). pose proof (pow10_pos (e - e')). nia.
    + rewrite Z.min_r, Z.sub_diag, Z.pow_0_r in Hh by lia.
      pose proof (pow10_mono (e - 80) (e - e')). nia.
  - rewrite Z.min_l, Z.sub_diag, Z.pow_0_r in Hh by lia.
    pose proof (pow10_pos (e' - e) ltac:(lia)) as Hd.
    rewrite <- Z.quot_abs, (Z.abs_eq (10 ^ _)), Z.quot_div_nonneg in Hm' by lia.
    pose proof (Z.mul_succ_div_gt (Z.abs m) (10 ^ (e' - e)) Hd).
    pose proof (pow10_mono (e' - e) (80 - e)). nia.
Qed.

(** normalisation.  From any 64-bit mantissa and any exponent the
    constructor returns after a bounded number of steps: zero if the value is
    below the smallest amount, otherwise an amount with a mantissa of 16
    digits and an exponent in range that equals the value or is the value cut
    off after its last digit; and it throws exactly when the value exceeds
    every amount. *)
Theorem ctor_normalizes (m e : Z) (Hm : - 2 ^ 63 < m < 2 ^ 63) :
  match IOUAmount_ctor m e with
  | Return a => ¬ huge m e ∧
      ((a = zero ∧ tiny m e) ∨
       (minMantissa ≤ Z.abs (mantissa a) ≤ maxMantissa ∧
        minExponent ≤ exponent a ≤ maxExponent ∧ scaled_to m e (mantissa a) (exponent a)))
  | Throw _ => huge m e
  | Abort _ | NoFuel => False
  end.
Proof.
  pose proof (ctor_normal m e Hm) as Hn. destruct (IOUAmount_ctor m e) as [a|w|?|]; [|done..].
  split; [|done]. destruct Hn as [[_ Ht]|(Hr & He & Hs)]; [by apply tiny_not_huge|].
  apply (scaled_not_huge m e _ _ Hs); [apply Hr|apply He].
Qed.

Lemma ctor_normalizes_witness :
  IOUAmount_ctor 123 (-4) = Return (mkIOU 1230000000000000 (-17)) ∧ ¬ huge 123 (-4).
Proof.
  split; [vm_compute; reflexivity|].
  assert (- 2 ^ 63 < 123 < 2 ^ 63) as Hm by (vm_compute; split; reflexivity).
  pose proof (ctor_normalizes 123 (-4) Hm) as Hn.
  change (IOUAmount_ctor 123 (-4)) with (Return (mkIOU 1230000000000000 (-17))) in Hn.
  exact (proj1 Hn).
Defined.

(** ** Multiplication by a ratio *)

Lemma lower_bound_spec t v :
  (lower_bound t v ≤ length t)%nat ∧
  (∀ x, t !! lower_bound t v = Some x → v ≤ x) ∧
  (∀ i x, (i < lower_bound t v)%nat → t !! i = Some x → x < v).
Proof.
  induction t as [|y t IH]; simpl.
  { split_and!; [lia|done|]. intros i x Hi. lia. }
  destruct IH as (Hl & Hge & Hlt). destruct (Z.ltb_spec y v) as [Hy|Hy]; simpl.
  - split_and!; [lia|done|]. intros [|i] x Hi Hx; simpl in Hx; [congruence|].
    apply (Hlt i x); [lia|done].
  - split_and!; [lia|intros x [= <-]; lia|lia].
Qed.

Lemma powerTable_lookup i : (i < 30)%nat → powerTable !! i = Some (10 ^ Z.of_nat i).
Proof.
  intros Hi. unfold powerTable. rewrite list_lookup_fmap, lookup_seq_lt by done. done.
Qed.

Lemma power_spec k : 0 ≤ k < 30 → power k = 10 ^ k.
Proof.
  intros Hk. unfold power. rewrite powerTable_lookup by lia. simpl. by rewrite Z2Nat.id by lia.
Qed.

(** [log10Ceil] is the rounded-up decimal logarithm. *)
Lemma log10Ceil_spec v :
  0 ≤ v ≤ 10 ^ 29 → 0 ≤ log10Ceil v ≤ 29 ∧ v ≤ 10 ^ log10Ceil v ∧
  (0 < log10Ceil v → 10 ^ (log10Ceil v - 1) < v).
Proof.
  intros Hv. unfold log10Ceil. destruct (lower_bound_spec powerTable v) as (Hl & Hge & Hlt).
  set (i := lower_bound powerTable v) in *.
  assert (i < 30)%nat as Hi.
  { change (length powerTable) with 30%nat in Hl. destruct (decide (i = 30%nat)) as [Hi|]; [|lia].
    pose proof (Hlt 29%nat (10 ^ 29) ltac:(lia) (powerTable_lookup 29 ltac:(lia))). lia. }
  split_and!; [lia..| |].
  - apply Hge. by apply powerTable_lookup.
  - intros Hpos. replace (Z.of_nat i - 1) with (Z.of_nat (i - 1)) by lia.
    apply (Hlt (i - 1)%nat); [lia|]. apply powerTable_lookup. lia.
Qed.

Lemma fl64_value : fl64 = 18.
Proof. reflexivity. Qed.

(** The quotient with [k] more digits. *)
Lemma ratioGrow_spec mul den e :
  0 < den < 2 ^ 32 → 0 ≤ mul < 2 ^ 96 → den ≤ mul / 2 →
  ∃ k, 0 ≤ k ∧
    ratioGrow (mul / den) (mul mod den) den e =
      (mul * 10 ^ k / den, (mul * 10 ^ k) mod den, e - k) ∧
    mul * 10 ^ k / den ≤ 10 ^ 29 ∧
    (k = 0 ∧ mul mod den = 0 ∨ 10 ^ 17 ≤ mul * 10 ^ k / den).
Proof.
  intros Hden Hmul Hbig. unfold ratioGrow. rewrite fl64_value.
  assert (mul / den ≤ mul) as Hlow by (apply Z.div_le_upper_bound; nia).
  assert (2 ≤ mul / den) as Hlow2.
  { apply Z.div_le_lower_bound; [lia|]. pose proof (Z.mul_div_le mul 2). lia. }
  destruct (Z.eqb_spec (mul mod den) 0) as [H0|H0].
  { exists 0. rewrite Z.pow_0_r, Z.mul_1_r, Z.sub_0_r. split_and!; [lia|done|lia|by left]. }
  destruct (log10Ceil_spec (mul / den) ltac:(lia)) as (Hc & Hup & Hdown).
  set (c := log10Ceil (mul / den)) in *.
  assert (0 < c) as Hc0.
  { destruct (decide (0 < c)); [done|]. assert (c = 0) as Hcz by lia. rewrite Hcz in Hup.
    change (10 ^ 0) with 1 in Hup. lia. }
  specialize (Hdown Hc0). pose proof (Z.mod_pos_bound mul den ltac:(lia)) as Hr.
  pose proof (Z.div_mod mul den ltac:(lia)) as Hdm.
  destruct (Z.ltb_spec 0 (18 - c)) as [Hroom|Hroom].
  - set (K := 10 ^ (18 - c)). rewrite power_spec by lia. fold K.
    assert (10 ^ c * K = 10 ^ 18 ∧ 10 ^ (c - 1) * K = 10 ^ 17) as [HcK Hc1K].
    { unfold K. rewrite <- !pow10_add by lia. split; f_equal; lia. }
    assert (0 < K) as HK by (apply pow10_pos; lia).
    assert (K ≤ 10 ^ 18) as HK18 by (apply pow10_mono; lia).
    assert (mul * K / den = mul / den * K + (mul mod den) * K / den) as Hq.
    { rewrite <- Z.div_add_l by lia. f_equal. lia. }
    assert ((mul mod den) * K / den < K) as Hadd by (apply Z.div_lt_upper_bound; nia).
    assert (0 ≤ (mul mod den) * K / den) as Hadd0 by (apply Z.div_pos; nia).
    assert (10 ^ 17 ≤ mul / den * K ≤ 10 ^ 18) as HlK by (split; nia).
    exists (18 - c). fold K. rewrite !(u128_id (mul / den * K)), (u128_id (mul mod den * K)) by nia.
    cbv beta iota. split_and!; [lia| |lia|right; lia].
    rewrite Hq, (u128_id (_ + _)) by lia. do 2 f_equal.
    pose proof (Z.div_mod (mul mod den * K) den ltac:(lia)) as Hdm2.
    pose proof (Z.mod_pos_bound (mul mod den * K) den ltac:(lia)) as Hb.
    replace (mul mod den * K - mul mod den * K / den * den) with ((mul mod den * K) mod den) by lia.
    rewrite u128_id by lia. by rewrite Z.mul_mod_idemp_l by lia.
  - exists 0. rewrite Z.pow_0_r, Z.mul_1_r, Z.sub_0_r. cbv beta iota.
    rewrite (Z.div_small (mul mod den)), Z.add_0_r, Z.mul_0_l, Z.sub_0_r by lia.
    rewrite !u128_id by lia. pose proof (pow10_mono 17 (c - 1)). split_and!; [lia|done|lia|right; lia].
Qed.

(** The quotient with [j] digits cut off. *)
Lemma ratioShrink_spec low rem e :
  0 ≤ low ≤ 10 ^ 29 →
  ∃ j hasRem, 0 ≤ j ∧ ratioShrink low rem e = (low / 10 ^ j, hasRem, e + j) ∧
    low / 10 ^ j ≤ 10 ^ 18 ∧ (j = 0 ∨ 10 ^ 17 ≤ low / 10 ^ j).
Proof.
  intros Hlow. unfold ratioShrink. rewrite fl64_value.
  destruct (log10Ceil_spec low Hlow) as (Hc & Hup & Hdown). set (c := log10Ceil low) in *.
  destruct (Z.ltb_spec 0 (c - 18)) as [Hs|Hs].
  - rewrite power_spec by lia. eexists (c - 18), _. split_and!; [lia|done| |right].
    + apply Z.div_le_upper_bound; [apply pow10_pos; lia|]. rewrite <- pow10_add by lia.
      by replace (c - 18 + 18) with c by lia.
    + apply Z.div_le_lower_bound; [apply pow10_pos; lia|]. rewrite <- pow10_add by lia.
      replace (c - 18 + 17) with (c - 1) by lia. specialize (Hdown ltac:(lia)). lia.
  - eexists 0, _. rewrite Z.pow_0_r, Z.div_1_r, Z.add_0_r. split_and!; [lia|done| |by left].
    pose proof (pow10_mono c 18). lia.
Qed.

(** Inequalities between scaled numbers depend on the difference of the
    exponents only. *)
Lemma scale_le x y a b a' b' :
  0 ≤ a → 0 ≤ b → 0 ≤ a' → 0 ≤ b' → a - b = a' - b' →
  x * 10 ^ a ≤ y * 10 ^ b → x * 10 ^ a' ≤ y * 10 ^ b'.
Proof.
  intros Ha Hb Ha' Hb' Hd Hle.
  apply (Z.mul_le_mono_pos_r _ _ (10 ^ b)); [by apply pow10_pos|].
  rewrite <- !Z.mul_assoc, <- !pow10_add by done. replace (a' + b) with (a + b') by lia.
  replace (b' + b) with (b + b') by lia. rewrite !pow10_add, !Z.mul_assoc by done.
  apply Z.mul_le_mono_nonneg_r; [|done]. by apply Z.lt_le_incl, pow10_pos.
Qed.

Lemma scale_lt x y a b a' b' :
  0 ≤ a → 0 ≤ b → 0 ≤ a' → 0 ≤ b' → a - b = a' - b' →
  x * 10 ^ a < y * 10 ^ b → x * 10 ^ a' < y * 10 ^ b'.
Proof.
  intros Ha Hb Ha' Hb' Hd Hlt. apply Z.nle_gt. intros Hle.
  apply (scale_le y x b' a' b a) in Hle; lia.
Qed.

(** A truncated ratio, and what the constructor makes of it: [mul] and [e] are
    the product and its exponent, [q] the quotient at exponent [E]. *)
Section ratio.
Context (mul den e k j q E : Z).
Context (Hden : 0 < den) (Hk : 0 ≤ k) (Hj : 0 ≤ j) (HE : E = e - k + j) (He : minExponent ≤ e ≤ maxExponent).
Context (Hq : 0 < q) (Hlow : q * den * 10 ^ j ≤ mul * 10 ^ k).
Context (Hhigh : mul * 10 ^ k < (q + 1) * den * 10 ^ j).
Context (Hexact : mul * 10 ^ k = q * den * 10 ^ j ∨ minMantissa ≤ q).

Lemma ratio_tiny :
  tiny q E → mul * 10 ^ (e + 100) < minMantissa * 10 ^ (minExponent + 100) * den.
Proof.
  unfold tiny, minMantissa, minExponent, maxExponent in *. rewrite (Z.abs_eq q) by lia. intros Ht.
  change (10 ^ (-96 + 100)) with (10 ^ 4).
  replace (1000000000000000 * 10 ^ 4 * den) with (1000000000000000 * den * 10 ^ 4) by lia.
  destruct (decide (-96 ≤ E)) as [HE'|HE'].
  - rewrite Z.min_r, Z.sub_diag, Z.pow_0_r, Z.mul_1_r in Ht by lia.
    pose proof (succ_below q (E - -96) Hq ltac:(lia) Ht) as Hq1. unfold minMantissa in Hq1.
    apply (scale_lt _ _ k j (e + 100) (E + 100)) in Hhigh; [|lia..].
    replace (E + 100) with (E - -96 + 4) in Hhigh by lia. rewrite (pow10_add (E - -96) 4) in Hhigh by lia.
    pose proof (pow10_pos 4). nia.
  - rewrite Z.min_l, Z.sub_diag, Z.pow_0_r, Z.mul_1_r in Ht by lia.
    apply (scale_lt _ _ k (-96 - E + j) _ _); [lia..|]. rewrite pow10_add by lia.
    pose proof (pow10_pos j Hj). pose proof (pow10_pos (-96 - E)). nia.
Qed.

Lemma ratio_huge :
  huge q E → (maxMantissa + 1) * 10 ^ (maxExponent + 100) * den ≤ mul * 10 ^ (e + 100).
Proof.
  unfold huge, maxMantissa, minExponent, maxExponent in *. rewrite (Z.abs_eq q) by lia. intros Hh.
  replace ((9999999999999999 + 1) * 10 ^ (80 + 100) * den)
    with ((9999999999999999 + 1) * den * 10 ^ (80 + 100)) by lia.
  pose proof (pow10_pos j Hj). destruct (decide (E ≤ 80)).
  - rewrite Z.min_l, Z.sub_diag, Z.pow_0_r, Z.mul_1_r in Hh by lia.
    apply (scale_le _ _ (80 - E + j) k); [lia..|]. rewrite pow10_add by lia.
    pose proof (pow10_pos (80 - E)). nia.
  - rewrite Z.min_r, Z.sub_diag, Z.pow_0_r, Z.mul_1_r in Hh by lia.
    apply (scale_le _ _ j (k + (E - 80))); [lia..|]. rewrite pow10_add by lia.
    pose proof (pow10_pos (E - 80)). nia.
Qed.

Lemma ratio_scaled m' e' :
  minMantissa ≤ m' ≤ maxMantissa → minExponent ≤ e' → scaled_to q E m' e' →
  m' * 10 ^ (e' + 100) * den ≤ mul * 10 ^ (e + 100) ∧
  mul * 10 ^ (e + 100) < (m' * 10 ^ (e' + 100) + 10 ^ (e' + 100)) * den.
Proof.
  unfold minMantissa, maxMantissa, minExponent, maxExponent in *. intros Hm' He' Hs.
  replace (m' * 10 ^ (e' + 100) * den) with (m' * den * 10 ^ (e' + 100)) by lia.
  replace ((m' * 10 ^ (e' + 100) + 10 ^ (e' + 100)) * den) with ((m' + 1) * den * 10 ^ (e' + 100)) by lia.
  pose proof (pow10_pos (e' + 100) ltac:(lia)) as Hu.
  destruct (decide (E ≤ e')) as [HEe|HEe].
  - set (d := e' - E). assert (m' = q / 10 ^ d) as Hq'.
    { destruct Hs as [[? ->]|[_ ->]].
      - assert (e' = E) as Heq by lia. unfold d. rewrite Heq, Z.sub_diag, Z.pow_0_r, Z.div_1_r. lia.
      - apply Z.quot_div_nonneg; [lia|]. apply pow10_pos. lia. }
    pose proof (pow10_pos d ltac:(lia)) as Hd. pose proof (pow10_pos j Hj).
    pose proof (Z.mul_div_le q (10 ^ d) Hd). pose proof (Z.mul_succ_div_gt q (10 ^ d) Hd).
    split.
    + apply (scale_le _ _ (d + j) k); [lia..|]. rewrite pow10_add by lia. nia.
    + apply (scale_lt _ _ k (d + j)); [lia..|]. rewrite pow10_add by lia.
      assert (q + 1 ≤ (m' + 1) * 10 ^ d) by lia. nia.
  - destruct Hs as [[_ Heq]|[? _]]; [|lia].
    assert (mul * 10 ^ k = q * den * 10 ^ j) as Hex.
    { destruct Hexact as [|Hbig]; [done|]. pose proof (pow10_mono 1 (E - e') ltac:(lia)). nia. }
    assert (m' * den * 10 ^ (e' + 100) = mul * 10 ^ (e + 100)) as Hval.
    { rewrite Heq. replace (q * 10 ^ (E - e') * den * 10 ^ (e' + 100))
        with (q * den * (10 ^ (E - e') * 10 ^ (e' + 100))) by lia.
      rewrite <- pow10_add by lia. replace (E - e' + (e' + 100)) with (E + 100) by lia.
      apply Z.le_antisymm; [apply (scale_le _ _ j k)|apply (scale_le _ _ k j)]; lia. }
    split; [lia|]. nia.
Qed.
End ratio.

Lemma ratio_quotient mul den e :
  0 < den < 2 ^ 32 → 0 ≤ mul < 2 ^ 96 → den ≤ mul / 2 →
  ∃ k j q hasRem, 0 ≤ k ∧ 0 ≤ j ∧ 0 < q ≤ 10 ^ 18 ∧
    (let '(low, rem, e1) := ratioGrow (mul / den) (mul mod den) den e in
     ratioShrink low rem e1) = (q, hasRem, e - k + j) ∧
    q * den * 10 ^ j ≤ mul * 10 ^ k < (q + 1) * den * 10 ^ j ∧
    (mul * 10 ^ k = q * den * 10 ^ j ∨ minMantissa ≤ q).
Proof.
  intros Hden Hmul Hbig.
  destruct (ratioGrow_spec mul den e Hden Hmul Hbig) as (k & Hk & -> & Hmax & Hex).
  pose proof (pow10_pos k Hk) as Hpk.
  assert (2 ≤ mul / den) as Hlow2.
  { apply Z.div_le_lower_bound; [lia|]. pose proof (Z.mul_div_le mul 2). lia. }
  set (low := mul * 10 ^ k / den) in *.
  assert (2 ≤ low) as Hlow.
  { apply Z.div_le_lower_bound; [lia|]. pose proof (Z.mul_div_le mul den). nia. }
  destruct (ratioShrink_spec low ((mul * 10 ^ k) mod den) (e - k)) as (j & hr & Hj & -> & Hq & Hjq);
    [lia|].
  pose proof (pow10_pos j Hj) as Hpj. exists k, j, (low / 10 ^ j), hr.
  pose proof (Z.mul_div_le low (10 ^ j) Hpj) as Hd1.
  pose proof (Z.mul_succ_div_gt low (10 ^ j) Hpj) as Hd2.
  pose proof (Z.mul_div_le (mul * 10 ^ k) den ltac:(lia)) as Hd3.
  pose proof (Z.mul_succ_div_gt (mul * 10 ^ k) den ltac:(lia)) as Hd4. fold low in Hd3, Hd4.
  split_and!; [done|done| |done|done|nia| |].
  - destruct Hjq as [->|?]; [rewrite Z.pow_0_r, Z.div_1_r; lia|lia].
  - assert (low + 1 ≤ (low / 10 ^ j + 1) * 10 ^ j) by lia. nia.
  - unfold minMantissa. destruct Hjq as [->|?]; [|right; lia].
    rewrite Z.pow_0_r, Z.div_1_r, Z.mul_1_r. destruct Hex as [[-> H0]|?]; [left|right; lia].
    unfold low. rewrite Z.pow_0_r, Z.mul_1_r. pose proof (Z.div_mod mul den). lia.
Qed.

(** The common part of [mulRatio], for a product [mul] of magnitudes. *)
Lemma mulRatio_core (b : bool) mul den e :
  0 < den < 2 ^ 32 → 0 ≤ mul < 2 ^ 96 → den ≤ mul / 2 → minExponent ≤ e ≤ maxExponent →
  ∃ q hasRem E,
    (let '(low, rem, e1) := ratioGrow (mul / den) (mul mod den) den e in
     ratioShrink low rem e1) = (q, hasRem, E) ∧ 0 < q ≤ 10 ^ 18 ∧
    match IOUAmount_ctor (if b then - q else q) E with
    | Return r => canonical r ∧ (0 < mantissa r → b = false) ∧ (mantissa r < 0 → b = true) ∧
        ((r = zero ∧ mul * 10 ^ (e + 100) < minMantissa * 10 ^ (minExponent + 100) * den) ∨
         (Z.abs (value r) * den ≤ mul * 10 ^ (e + 100) <
            (Z.abs (value r) + 10 ^ (exponent r + 100)) * den))
    | Throw _ => (maxMantissa + 1) * 10 ^ (maxExponent + 100) * den ≤ mul * 10 ^ (e + 100)
    | Abort _ | NoFuel => False
    end.
Proof.
  intros Hden Hmul Hbig He.
  destruct (ratio_quotient mul den e Hden Hmul Hbig)
    as (k & j & q & hr & Hk & Hj & [Hq0 Hq] & -> & [Hlow Hhigh] & Hex).
  destruct Hden as [Hden _].
  exists q, hr, (e - k + j). split_and!; [done|lia..|].
  set (E := e - k + j). assert (- 2 ^ 63 < (if b then - q else q) < 2 ^ 63) as Hb by (destruct b; lia).
  pose proof (ctor_normal _ E Hb) as Hn. unfold normal_form in Hn.
  assert (∀ P : Z → Z → Prop, (∀ m x, P (- m) x ↔ P m x) → P (if b then - q else q) E ↔ P q E)
    as Hsign by (intros P HP; destruct b; [apply HP|done]).
  destruct (IOUAmount_ctor _ E) as [r|w|?|]; [|rewrite (Hsign huge huge_opp) in Hn|done..].
  2: { by apply (ratio_huge mul den e k j q E). }
  destruct Hn as [[-> Ht]|(Hm & Hexp & Hs)].
  { rewrite (Hsign tiny tiny_opp) in Ht. split; [apply canonical_zero|]. split_and!; [done..|left].
    split; [done|]. by apply (ratio_tiny mul den e k j q E). }
  split; [by right|]. unfold minMantissa in Hm.
  assert (scaled_to q E (if b then - mantissa r else mantissa r) (exponent r)) as Hs'.
  { destruct b; [|done]. rewrite <- (Z.opp_involutive q). by apply scaled_to_opp. }
  assert (0 < if b then - mantissa r else mantissa r) as Hpos.
  { pose proof (pow10_pos (Z.abs (E - exponent r))).
    destruct Hs' as [[? ->]|[? Heq]].
    - apply Z.mul_pos_pos; [lia|]. apply pow10_pos. lia.
    - assert (0 ≤ if b then - mantissa r else mantissa r); [|destruct b; lia].
      rewrite Heq. apply Z.quot_pos; [lia|]. apply pow10_pos. lia. }
  assert (Z.abs (value r) = (if b then - mantissa r else mantissa r) * 10 ^ (exponent r + 100)) as ->.
  { unfold value, minExponent in *. pose proof (pow10_pos (exponent r + 100)).
    destruct b; rewrite Z.abs_mul; lia. }
  split_and!; [destruct b; lia || done..|right].
  apply (ratio_scaled mul den e k j q E); try done; try lia.
  unfold minMantissa. destruct b; lia.
Qed.

Lemma mulRatio_unfold a num den roundUp :
  canonical a → 0 ≤ num < 2 ^ 32 → 0 < den < 2 ^ 32 →
  let mul := Z.abs (mantissa a) * num in
  let neg := mantissa a <? 0 in
  0 ≤ mul < 2 ^ 96 ∧
  mulRatio a num den roundUp =
    let '(low, hasRem, e) :=
      (let '(low, rem, e) := ratioGrow (mul / den) (mul mod den) den (exponent a) in
       ratioShrink low rem e) in
    result ← IOUAmount_ctor (if neg then i64 low * -1 else i64 low) e;
    if hasRem && roundUp && negb neg then
      if mantissa result =? 0 then IOUAmount_ctor minMantissa minExponent
      else IOUAmount_ctor (mantissa result + 1) (exponent result)
    else if hasRem && negb roundUp && neg then
      if mantissa result =? 0 then IOUAmount_ctor (- minMantissa) minExponent
      else IOUAmount_ctor (mantissa result - 1) (exponent result)
    else Return result.
Proof.
  intros Ha Hnum Hden mul neg.
  assert (Z.abs (mantissa a) ≤ maxMantissa) as Hm by (destruct Ha as [->|[[_ ?] _]]; done).
  unfold maxMantissa in Hm. assert (0 ≤ mul < 2 ^ 96) as Hmul by (unfold mul; nia).
  split; [done|]. unfold mulRatio. rewrite (proj2 (Z.eqb_neq den 0)) by lia.
  assert ((if mantissa a <? 0 then i64 (- mantissa a) else mantissa a) = Z.abs (mantissa a)) as ->.
  { destruct (Z.ltb_spec (mantissa a) 0); [rewrite i64_id by lia|]; lia. }
  fold mul. rewrite (u128_id mul) by lia.
  assert (mul - mul / den * den = mul mod den) as -> by (pose proof (Z.div_mod mul den); lia).
  rewrite u128_id by (pose proof (Z.mod_pos_bound mul den); lia).
  destruct (ratioGrow _ _ _ _) as [[low rem] e]. by destruct (ratioShrink low rem e) as [[? ?] ?].
Qed.

Lemma mulRatio_zero a num den roundUp :
  canonical a → 0 ≤ num < 2 ^ 32 → 0 < den < 2 ^ 32 → Z.abs (mantissa a) * num = 0 →
  mulRatio a num den roundUp = Return zero.
Proof.
  intros Ha Hnum Hden H0. destruct (mulRatio_unfold a num den roundUp Ha Hnum Hden) as [_ ->].
  rewrite H0, Z.div_0_l, Z.mod_0_l by lia. unfold ratioGrow. rewrite Z.eqb_refl. cbv beta iota.
  unfold ratioShrink. change (log10Ceil 0) with 0. change (0 <? 0 - fl64) with false.
  cbv beta iota. change (i64 0) with 0. by destruct (mantissa a <? 0).
Qed.

(** rounding towards zero.  When [mulRatio] is asked to round in the
    direction of zero, it returns the exact ratio cut off after the last digit
    of the result: the result has the sign of the amount, is not larger in
    magnitude than [amt * num / den], and less than one unit in its last place
    away from it; or it is zero and the exact ratio is below the smallest
    amount.  It throws only if the exact ratio exceeds the largest amount. *)
Theorem mulRatio_truncates (a : IOUAmount) (num den : Z) (Ha : canonical a)
    (Hnum : 0 ≤ num < 2 ^ 32) (Hden : 0 < den < 2 ^ 32) :
  match mulRatio a num den (mantissa a <? 0) with
  | Return r => canonical r ∧ 0 ≤ value r * value a ∧
      ((r = zero ∧
        Z.abs (value a) * num < minMantissa * 10 ^ (minExponent + 100) * den) ∨
       (Z.abs (value r) * den ≤ Z.abs (value a) * num <
          (Z.abs (value r) + 10 ^ (exponent r + 100)) * den))
  | Throw _ => (maxMantissa + 1) * 10 ^ (maxExponent + 100) * den ≤ Z.abs (value a) * num
  | Abort _ | NoFuel => False
  end.
Proof.
  pose proof (canonical_exponent a Ha) as Hea.
  assert (Z.abs (value a) * num = Z.abs (mantissa a) * num * 10 ^ (exponent a + 100)) as Hva.
  { unfold value. pose proof (pow10_pos (exponent a + 100)). rewrite Z.abs_mul. lia. }
  destruct (decide (Z.abs (mantissa a) * num = 0)) as [H0|H0].
  { rewrite mulRatio_zero by done. split; [apply canonical_zero|]. split; [done|]. left.
    split; [done|]. rewrite Hva, H0. pose proof (pow10_pos (minExponent + 100)).
    unfold minMantissa, minExponent. lia. }
  assert (minMantissa ≤ Z.abs (mantissa a) ∧ minExponent ≤ exponent a ≤ maxExponent) as [Hm He]
    by (destruct Ha as [->|[? ?]]; [simpl in H0; lia|split; [lia|done]]).
  destruct (mulRatio_unfold a num den (mantissa a <? 0) Ha Hnum Hden) as [Hmul ->].
  destruct (mulRatio_core (mantissa a <? 0) (Z.abs (mantissa a) * num) den (exponent a))
    as (q & hr & E & -> & Hq & Hc); [done|done| |done|].
  { assert (1 ≤ num) as Hnum1 by (destruct (decide (num = 0)) as [->|]; lia).
    apply Z.div_le_lower_bound; [lia|]. unfold minMantissa in Hm.
    apply (Z.le_trans _ (Z.abs (mantissa a) * 1)); [lia|].
    apply Z.mul_le_mono_nonneg_l; lia. }
  cbv beta iota. rewrite i64_id by lia.
  replace (if mantissa a <? 0 then q * -1 else q) with (if mantissa a <? 0 then - q else q)
    by (destruct (mantissa a <? 0); lia).
  rewrite Hva.
  destruct (IOUAmount_ctor _ E) as [r|w|?|]; cbn [mbind exc_bind]; [|done..].
  assert (hr && (mantissa a <? 0) && negb (mantissa a <? 0) = false ∧
    hr && negb (mantissa a <? 0) && (mantissa a <? 0) = false) as [-> ->]
    by (destruct hr, (mantissa a <? 0); done).
  destruct Hc as (Hr & Hpos & Hneg & Hval). split_and!; [done| |done].
  pose proof (canonical_exponent r Hr). pose proof (value_sign r). pose proof (value_sign a).
  apply Z.sgn_nonneg. rewrite Z.sgn_mul.
  destruct (Z.ltb_spec (mantissa a) 0), (decide (0 < mantissa r)), (decide (mantissa r < 0));
    try lia; (specialize (Hpos ltac:(lia)); done) || (specialize (Hneg ltac:(lia)); done) || nia.
Qed.

Lemma mulRatio_truncates_witness :
  mulRatio demo_amount 1 3 false = Return (mkIOU 4115226300411520 (-11)) ∧
  Z.abs (value (mkIOU 4115226300411520 (-11))) * 3 ≤ Z.abs (value demo_amount) * 1.
Proof.
  assert (mulRatio demo_amount 1 3 false = Return (mkIOU 4115226300411520 (-11))) as Hr
    by (vm_compute; reflexivity).
  split; [exact Hr|].
  pose proof (mulRatio_truncates demo_amount 1 3 (proj1 demo_canonical)
    ltac:(lia) ltac:(lia)) as Ht.
  change (mantissa demo_amount <? 0) with false in Ht. rewrite Hr in Ht.
  destruct Ht as (_ & _ & [[Hz _]|[Hle _]]); [discriminate Hz|exact Hle].
Defined.

(** rounding up can be lost.  Asked to round up, [mulRatio] multiplies
    the amount 1000000000000001 by 1.25 and returns 1250000000000001, which is
    less than the exact 1250000000000001.25: the remainder is used up by the
    digits kept before normalisation, which then drops them without
    rounding. *)
Theorem mulRatio_roundUp_lost :
  mulRatio (mkIOU 1000000000000001 0) 1250000000 1000000000 true =
    Return (mkIOU 1250000000000001 0) ∧
  value (mkIOU 1250000000000001 0) * 1000000000 <
    value (mkIOU 1000000000000001 0) * 1250000000.
Proof. split; vm_compute; reflexivity. Qed.
