(* ===== verification/NegativeUNL.v ===== *)
(** * Voting on the negative UNL ([app/misc/NegativeUNLVote.cpp])

    On flag ledgers a validator votes to disable one unreliable validator of
    its UNL and to re-enable one that has recovered.  The parent ledger is a
    record of what the vote reads of it; the validations are queried for the
    nodes that validated a ledger.  [calcNodeID], a hash of the key, is an
    argument of the model.  Node identifiers are 160 bits wide, ledger hashes
    256 bits, both in big-endian order. *)
From Stdlib Require Import SpecFloat.
From S2P Require Import Prelude.

Definition FLAG_LEDGER_INTERVAL : Z := 256.
Definition negativeUNLLowWaterMark : Z := FLAG_LEDGER_INTERVAL * 50 / 100.
Definition negativeUNLHighWaterMark : Z := FLAG_LEDGER_INTERVAL * 80 / 100.
Definition negativeUNLMinLocalValsToVote : Z := FLAG_LEDGER_INTERVAL * 90 / 100.
Definition newValidatorDisableSkip : Z := FLAG_LEDGER_INTERVAL * 2.

(** The constant 0.25 and products with it in single precision. *)
Definition negativeUNLMaxListed : spec_float :=
  SFdiv 24 128 (binary_normalize 24 128 1 0 false) (binary_normalize 24 128 4 0 false).

(** [std::ceil] of a number that is not negative, as an integer. *)
Definition f32_ceil (x : spec_float) : Z :=
  match x with
  | S754_finite false m e =>
      if 0 <=? e then Zpos m * 2 ^ e else (Zpos m + 2 ^ (- e) - 1) / 2 ^ (- e)
  | _ => 0
  end.

(** The quarter of [n] rounded up as long as [n] is exact in single precision; the
    proofs use it for fewer than 1000 nodes ([maxNegativeListed_quarter]). *)
Definition maxNegativeListed (n : Z) : Z :=
  f32_ceil (SFmul 24 128 (binary_normalize 24 128 n 0 false) negativeUNLMaxListed).

Inductive NegativeUNLModify := ToDisable | ToReEnable.

Record Candidates := mkCandidates {
  toDisableCandidates : list Z;
  toReEnableCandidates : list Z;
}.

(** [emplace] leaves an existing entry alone. *)
Definition emplace {K V} `{Countable K} (k : K) (v : V) (m : gmap K V) : gmap K V :=
  match m !! k with Some _ => m | None => <[k := v]> m end.

(** The candidate whose identifier is closest to the random pad. *)
Definition choose (randomPadData : Z) (candidates : list Z) : res Z :=
  match candidates with
  | [] => AssertFail "!candidates.empty()"
  | c :: cs =>
      let randomPad := Z.shiftr randomPadData 96 in
      mret (foldl (λ txNodeID x,
        if Z.lxor x randomPad <? Z.lxor txNodeID randomPad then x else txNodeID) c cs)
  end.

Section vote.
Context {PublicKey : Type} `{KeyOrder : HashOrder PublicKey} `{NodeOrder : !HashOrder Z}.
Context (calcNodeID : PublicKey → Z).

Record PrevLedger := mkPrev {
  prev_seq : Z;
  prev_hash : Z;
  negativeUNL : gset PublicKey;
  validatorToDisable : option PublicKey;
  validatorToReEnable : option PublicKey;
  skipHashes : option (list Z);
}.

Record NegativeUNLVote := mkVote { myId_ : Z; newValidators_ : gmap Z Z }.

(** The calls made to the validations and to the transaction set. *)
Inductive vote_call :=
  | SetSeqToKeep (q : Z)
  | AddTx (q : Z) (vp : PublicKey) (modify : NegativeUNLModify).

Definition NM : Type → Type := M NegativeUNLVote vote_call.

Definition newValidators (q : Z) (nowTrusted : gset Z) : NM unit :=
  for_each (hash_set_elems nowTrusted) (λ n,
    modify (λ s, mkVote (myId_ s) (emplace n q (newValidators_ s)))).

Definition purgeNewValidators (q : Z) : NM unit :=
  modify (λ s, mkVote (myId_ s)
    (filter (λ kv : Z * Z, ¬ newValidatorDisableSkip < u32 (q - kv.2)) (newValidators_ s))).

(** One more validation of a node in the table. *)
Definition countScore (scoreTable : gmap Z Z) (n : Z) : gmap Z Z :=
  match scoreTable !! n with
  | Some score => <[n := u32 (score + 1)]> scoreTable
  | None => scoreTable
  end.

(** [getTrustedForLedger] is queried for the newest hashes first. *)
Fixpoint scoreLedgers (trustedNodes : Z → list Z) (i : nat) (ancestors : list Z)
    (scoreTable : gmap Z Z) : gmap Z Z :=
  match i, ancestors with
  | S i, x :: ancestors =>
      scoreLedgers trustedNodes i ancestors (foldl countScore scoreTable (trustedNodes x))
  | _, _ => scoreTable
  end.

Definition buildScoreTable (prevLedger : PrevLedger) (unl : gset Z)
    (trustedNodes : Z → list Z) : NM (option (gmap Z Z)) :=
  let q := u32 (prev_seq prevLedger + 1) in
  _ ← emit (SetSeqToKeep (u32 (q - 1)));
  match skipHashes prevLedger with
  | None => mret None
  | Some ledgerAncestors =>
      if Z.of_nat (length ledgerAncestors) <? FLAG_LEDGER_INTERVAL then mret None
      else
        s ← get;
        let scoreTable := gset_to_gmap 0 unl in
        let scoreTable := scoreLedgers trustedNodes (Z.to_nat FLAG_LEDGER_INTERVAL)
                            (reverse ledgerAncestors) scoreTable in
        let myValidationCount := default 0 (scoreTable !! myId_ s) in
        mret (if myValidationCount <? negativeUNLMinLocalValsToVote then None
              else if (negativeUNLMinLocalValsToVote <? myValidationCount) &&
                      (myValidationCount <=? FLAG_LEDGER_INTERVAL)
              then Some scoreTable
              else None)
  end.

Definition findAllCandidates (unl negUnl : gset Z) (scoreTable : gmap Z Z) : NM Candidates :=
  s ← get;
  let canAdd := Z.of_nat (size (filter (λ n, n ∈ negUnl) unl))
                  <? maxNegativeListed (Z.of_nat (size unl)) in
  let table := hash_elems scoreTable in
  let toDisable := filter (λ ns : Z * Z, canAdd = true ∧ ns.2 < negativeUNLLowWaterMark ∧
                     (ns.1 ∉ negUnl) ∧ newValidators_ s !! ns.1 = None) table in
  let toReEnable := filter (λ ns : Z * Z, negativeUNLHighWaterMark < ns.2 ∧ ns.1 ∈ negUnl) table in
  mret (mkCandidates toDisable.*1
    (match toReEnable.*1 with
     | [] => filter (λ n, n ∉ unl) (hash_set_elems negUnl)
     | l => l
     end)).

(** Pick one candidate and add its transaction to the set. *)
Definition voteFor (q hash : Z) (nidToKeyMap : gmap Z PublicKey) (candidates : list Z)
    (modify : NegativeUNLModify) : NM unit :=
  match candidates with
  | [] => mret tt
  | _ =>
      n ← lift (choose hash candidates);
      vp ← unwrap (nidToKeyMap !! n) "nidToKeyMap.count(n)";
      emit (AddTx q vp modify)
  end.

Definition nidToKey (keys : list PublicKey) (m : gmap Z PublicKey) : gmap Z PublicKey :=
  foldl (λ m k, emplace (calcNodeID k) k m) m keys.

Definition nextNegUnl (prevLedger : PrevLedger) : gset PublicKey :=
  let negUnlKeys := match validatorToDisable prevLedger with
                    | Some k => {[k]} ∪ negativeUNL prevLedger
                    | None => negativeUNL prevLedger
                    end in
  match validatorToReEnable prevLedger with
  | Some k => negUnlKeys ∖ {[k]}
  | None => negUnlKeys
  end.

Definition doVoting (prevLedger : PrevLedger) (unlKeys : gset PublicKey)
    (trustedNodes : Z → list Z) : NM unit :=
  let nidToKeyMap := nidToKey (hash_set_elems unlKeys) ∅ in
  let unlNodeIDs := list_to_set (calcNodeID <$> hash_set_elems unlKeys) in
  table ← buildScoreTable prevLedger unlNodeIDs trustedNodes;
  match table with
  | None => mret tt
  | Some scoreTable =>
      let negUnlKeys := nextNegUnl prevLedger in
      let negUnlNodeIDs := list_to_set (calcNodeID <$> hash_set_elems negUnlKeys) in
      let nidToKeyMap := nidToKey (hash_set_elems negUnlKeys) nidToKeyMap in
      let q := u32 (prev_seq prevLedger + 1) in
      _ ← purgeNewValidators q;
      candidates ← findAllCandidates unlNodeIDs negUnlNodeIDs scoreTable;
      _ ← voteFor q (prev_hash prevLedger) nidToKeyMap (toDisableCandidates candidates) ToDisable;
      voteFor q (prev_hash prevLedger) nidToKeyMap (toReEnableCandidates candidates) ToReEnable
  end.
End vote.
Arguments PrevLedger _ {_ _}.
