(* ===== verification/NegativeUNLSpec.v ===== *)
(** * What votes on the negative UNL guarantee *)
From S2P Require Import Prelude NegativeUNL.

(** ** The choice does not depend on the order of the candidates *)

Lemma lxor_inj p x y : Z.lxor x p = Z.lxor y p → x = y.
Proof.
  intros Heq. apply (f_equal (λ z, Z.lxor z p)) in Heq.
  by rewrite !Z.lxor_assoc, !Z.lxor_nilpotent, !Z.lxor_0_r in Heq.
Qed.

Lemma choose_fold pad c cs :
  let r := foldl (λ best x, if Z.lxor x pad <? Z.lxor best pad then x else best) c cs in
  r ∈ c :: cs ∧ ∀ x, x ∈ c :: cs → Z.lxor r pad ≤ Z.lxor x pad.
Proof.
  revert c. induction cs as [|y cs IH]; intros c; simpl.
  { split; [by left|]. intros x ->%list_elem_of_singleton. lia. }
  destruct (Z.ltb_spec (Z.lxor y pad) (Z.lxor c pad)) as [Hlt|Hge].
  - destruct (IH y) as [Hin Hmin]. split; [set_solver|].
    intros x [->|Hx]%elem_of_cons; [|by apply Hmin]. specialize (Hmin y ltac:(by left)). lia.
  - destruct (IH c) as [Hin Hmin]. split; [set_solver|].
    intros x [->|[->|Hx]%elem_of_cons]%elem_of_cons; [apply Hmin; by left| |apply Hmin; by right].
    specialize (Hmin c ltac:(by left)). lia.
Qed.

Lemma choose_spec pad l :
  l ≠ [] → ∃ r, choose pad l = Ok r ∧ (r ∈ l) ∧
    ∀ x, x ∈ l → Z.lxor r (Z.shiftr pad 96) ≤ Z.lxor x (Z.shiftr pad 96).
Proof.
  intros Hne. destruct l as [|c cs]; [done|]. simpl. eexists. split; [done|].
  apply (choose_fold (Z.shiftr pad 96) c cs).
Qed.

(** validators with the same candidates choose the same one.  The choice
    depends on the parent ledger's hash and on the set of candidates only, not
    on the order in which a node's hash tables list them, and is one of
    them. *)
Theorem choose_agrees (pad : Z) (l l' : list Z) (Hne : l ≠ [])
    (Hsame : ∀ x, x ∈ l ↔ x ∈ l') :
  ∃ r, choose pad l = Ok r ∧ choose pad l' = Ok r ∧ r ∈ l.
Proof.
  assert (l' ≠ []) as Hne'.
  { destruct l as [|x l]; [done|]. intros ->. specialize (Hsame x). set_solver. }
  destruct (choose_spec pad l Hne) as (r & -> & Hr & Hmin).
  destruct (choose_spec pad l' Hne') as (r' & -> & Hr' & Hmin').
  exists r. split_and!; [done| |done]. f_equal. apply (lxor_inj (Z.shiftr pad 96)).
  apply Z.le_antisymm; [by apply Hmin', Hsame|by apply Hmin, Hsame].
Qed.

Lemma choose_agrees_witness :
  ∃ r, choose (2 ^ 100) [1; 2; 3] = Ok r ∧ choose (2 ^ 100) [3; 1; 2] = Ok r ∧ r ∈ [1; 2; 3].
Proof. apply choose_agrees; [discriminate|]. intros x. set_solver. Defined.

(** The limit of a quarter, rounded up, for every UNL size in use. *)
Lemma maxNegativeListed_quarter :
  forallb (λ n, maxNegativeListed (Z.of_nat n) =? (Z.of_nat n + 3) / 4) (seq 0 1000) = true.
Proof. vm_compute. reflexivity. Qed.

Section vote.
Context {PublicKey : Type} `{KeyOrder : HashOrder PublicKey} `{NodeOrder : !HashOrder Z}.
Context (calcNodeID : PublicKey → Z).

(** The node identifiers of a set of keys. *)
Definition node_ids (keys : gset PublicKey) : gset Z :=
  list_to_set (calcNodeID <$> hash_set_elems keys).

Lemma elem_of_node_ids keys n : n ∈ node_ids keys ↔ ∃ k, k ∈ keys ∧ calcNodeID k = n.
Proof.
  unfold node_ids. rewrite elem_of_list_to_set, list_elem_of_fmap.
  setoid_rewrite elem_of_hash_set_elems. naive_solver.
Qed.

(** ** Scores *)

(** How many of the last ledgers a node has validated. *)
Definition score_of (trustedNodes : Z → list Z) (ancestors : list Z) (n : Z) : Z :=
  Z.of_nat (length (filter (λ x, n ∈ trustedNodes x) ancestors)).

Lemma countScore_all l table n :
  NoDup l →
  foldl countScore table l !! n =
    (λ s, if decide (n ∈ l) then u32 (s + 1) else s) <$> table !! n.
Proof.
  revert table. induction l as [|x l IH]; intros table Hnd; simpl.
  { by destruct (table !! n). }
  apply NoDup_cons in Hnd as [Hx Hnd]. rewrite IH by done. unfold countScore.
  destruct (decide (n = x)) as [->|Hne].
  - destruct (table !! x) as [s|] eqn:Hs; [|by rewrite Hs].
    rewrite lookup_insert_eq. cbn [fmap option_fmap option_map]. repeat case_decide; set_solver.
  - assert ((match table !! x with Some score => <[x := u32 (score + 1)]> table
      | None => table end) !! n = table !! n) as ->.
    { destruct (table !! x); [by rewrite lookup_insert_ne|done]. }
    destruct (table !! n) as [s|]; simpl; [|done]. f_equal. repeat case_decide; set_solver.
Qed.

Lemma scoreLedgers_spec trustedNodes i ancestors table n :
  (∀ x, NoDup (trustedNodes x)) → (∀ s, table !! n = Some s → 0 ≤ s ∧ s + Z.of_nat i < 2 ^ 32) →
  scoreLedgers trustedNodes i ancestors table !! n =
    (λ s, s + score_of trustedNodes (take i ancestors) n) <$> table !! n.
Proof.
  intros Hnd. revert ancestors table. induction i as [|i IH]; intros ancestors table Hb.
  { simpl. destruct (table !! n); simpl; [|done]. f_equal. unfold score_of. simpl. lia. }
  destruct ancestors as [|x ancestors]; simpl.
  { destruct (table !! n); simpl; [|done]. f_equal. unfold score_of. simpl. lia. }
  assert (∀ s, table !! n = Some s → u32 (s + 1) = s + 1) as Hu.
  { intros s Hs. destruct (Hb s Hs). apply u32_id. lia. }
  rewrite IH; rewrite countScore_all by done.
  - destruct (table !! n) as [s|] eqn:Hs; simpl; [|done]. f_equal. unfold score_of.
    rewrite filter_cons. rewrite (Hu s) by done.
    case_decide; simpl; [rewrite Nat2Z.inj_succ|]; lia.
  - intros s' Hs'. destruct (table !! n) as [s|] eqn:Hs; simpl in Hs'; [|done].
    injection Hs' as <-. destruct (Hb s) as [? ?]; [done|]. rewrite (Hu s) by done.
    case_decide; lia.
Qed.

(** The last 256 ancestors of a ledger, newest first. *)
Definition recent (prev : PrevLedger PublicKey) : option (list Z) :=
  match skipHashes prev with
  | Some l => if Z.of_nat (length l) <? FLAG_LEDGER_INTERVAL then None
              else Some (take (Z.to_nat FLAG_LEDGER_INTERVAL) (reverse l))
  | None => None
  end.

(** When a node takes part in the vote, and the scores it uses. *)
Lemma buildScoreTable_wp tot prev unl trustedNodes s :
  (∀ x, NoDup (trustedNodes x)) →
  wp tot (buildScoreTable (PublicKey := PublicKey) prev unl trustedNodes) (λ table s' w,
    s' = s ∧ w = [SetSeqToKeep (u32 (u32 (prev_seq prev + 1) - 1))] ∧
    match table with
    | Some t => ∃ l, recent prev = Some l ∧
        (∀ n, t !! n = if decide (n ∈ unl) then Some (score_of trustedNodes l n) else None) ∧
        (myId_ s ∈ unl) ∧ negativeUNLMinLocalValsToVote < score_of trustedNodes l (myId_ s)
    | None => ∀ l, recent prev = Some l → myId_ s ∈ unl →
        score_of trustedNodes l (myId_ s) ≤ negativeUNLMinLocalValsToVote
    end) s.
Proof.
  intros Hnd. unfold buildScoreTable, recent. wp_steps.
  destruct (skipHashes prev) as [anc|]; [|by wp_step].
  destruct (_ <? _); [by wp_step|]. wp_steps.
  set (l := take (Z.to_nat FLAG_LEDGER_INTERVAL) (reverse anc)).
  assert (∀ n, scoreLedgers trustedNodes (Z.to_nat FLAG_LEDGER_INTERVAL) (reverse anc)
    (gset_to_gmap 0 unl) !! n =
    if decide (n ∈ unl) then Some (score_of trustedNodes l n) else None) as Ht.
  { intros n. rewrite scoreLedgers_spec by
      (try done; intros s' [_ <-]%lookup_gset_to_gmap_Some; unfold FLAG_LEDGER_INTERVAL; lia).
    rewrite lookup_gset_to_gmap. by case_decide; simplify_option_eq. }
  assert (∀ n, score_of trustedNodes l n ≤ FLAG_LEDGER_INTERVAL) as Hmax.
  { intros n. unfold score_of. pose proof (length_filter (λ x, n ∈ trustedNodes x) l).
    unfold l in *. rewrite length_take in *. unfold FLAG_LEDGER_INTERVAL in *. lia. }
  set (t := scoreLedgers _ _ _ _) in *. clearbody t l.
  rewrite Ht. split_and!; [done..|]. case_decide as Hme; simpl.
  - destruct (Z.ltb_spec (score_of trustedNodes l (myId_ s)) negativeUNLMinLocalValsToVote).
    { intros ? [= <-] _. lia. }
    destruct (Z.ltb_spec negativeUNLMinLocalValsToVote (score_of trustedNodes l (myId_ s))).
    + rewrite (proj2 (Z.leb_le _ _)) by apply Hmax. simpl. by exists l.
    + simpl. intros ? [= <-] _. lia.
  - intros ? _ ?. done.
Qed.

(** ** Keys of candidates *)

Lemma nidToKey_spec keys (m : gmap Z PublicKey) :
  (∀ n k, m !! n = Some k → calcNodeID k = n) →
  (∀ n k, nidToKey calcNodeID keys m !! n = Some k → calcNodeID k = n) ∧
  (∀ n, is_Some (m !! n) ∨ n ∈ calcNodeID <$> keys → is_Some (nidToKey calcNodeID keys m !! n)).
Proof.
  revert m. induction keys as [|k keys IH]; intros m Hm.
  { split; [done|]. intros n [?|[]%not_elem_of_nil]. done. }
  unfold nidToKey. cbn [foldl]. destruct (IH (emplace (calcNodeID k) k m)) as [Hval Hdom].
  { unfold emplace. destruct (m !! calcNodeID k); [done|].
    intros n k' [[<- <-]|[_ ?]]%lookup_insert_Some; [done|by apply Hm]. }
  split; [done|]. intros n Hn. apply Hdom. rewrite fmap_cons, elem_of_cons in Hn.
  unfold emplace. destruct Hn as [Hn|[->|Hn]]; [left|left|by right].
  - destruct (m !! calcNodeID k) eqn:Hk; [done|]. by apply lookup_insert_is_Some'; right.
  - destruct (m !! calcNodeID k) eqn:Hk; [by rewrite Hk|]. rewrite lookup_insert_eq. done.
Qed.

(** Voting for a candidate of a list of known nodes. *)
Lemma voteFor_wp tot q hash nid candidates md s :
  (∀ n k, nid !! n = Some k → calcNodeID k = n) →
  (∀ n, n ∈ candidates → is_Some (nid !! n)) →
  wp tot (voteFor (PublicKey := PublicKey) q hash nid candidates md) (λ _ s' w,
    s' = s ∧ (candidates = [] ∧ w = [] ∨
      ∃ vp, (calcNodeID vp ∈ candidates) ∧ w = [AddTx q vp md])) s.
Proof.
  intros Hval Hdom. unfold voteFor. destruct candidates as [|c cs] eqn:Hc.
  { wp_step. split; [done|by left]. }
  rewrite <- Hc in *. destruct (choose_spec hash candidates) as (n & Hch & Hn & _);
    [by rewrite Hc|].
  wp_step. eapply wp_lift; [done|]. destruct (Hdom n Hn) as [vp Hvp].
  wp_step. eapply wp_unwrap; [done|]. wp_step. split; [done|]. right. exists vp.
  by rewrite (Hval n vp Hvp).
Qed.

(** ** The vote *)

(** What a vote may say, given the last 256 ledgers and the validators that
    are still new. *)
Definition justified (prev : PrevLedger PublicKey) (unl neg : gset Z) (score : Z → Z)
    (new : gmap Z Z) (c : vote_call) : Prop :=
  match c with
  | SetSeqToKeep q => q = u32 (u32 (prev_seq prev + 1) - 1)
  | AddTx q vp ToDisable => q = u32 (prev_seq prev + 1) ∧
      (calcNodeID vp ∈ unl) ∧ (calcNodeID vp ∉ neg) ∧
      score (calcNodeID vp) < negativeUNLLowWaterMark ∧ new !! calcNodeID vp = None ∧
      Z.of_nat (size (filter (λ n, n ∈ neg) unl)) < maxNegativeListed (Z.of_nat (size unl))
  | AddTx q vp ToReEnable => q = u32 (prev_seq prev + 1) ∧
      (calcNodeID vp ∈ neg) ∧
      (calcNodeID vp ∉ unl ∨ negativeUNLHighWaterMark < score (calcNodeID vp))
  end.

Definition disables (c : vote_call (PublicKey := PublicKey)) : bool :=
  match c with AddTx _ _ ToDisable => true | _ => false end.
Definition reenables (c : vote_call (PublicKey := PublicKey)) : bool :=
  match c with AddTx _ _ ToReEnable => true | _ => false end.

Lemma findAllCandidates_wp tot unl neg table score s :
  (∀ n, table !! n = if decide (n ∈ unl) then Some (score n) else None) →
  wp tot (findAllCandidates (PublicKey := PublicKey) unl neg table) (λ c s' w, s' = s ∧ w = [] ∧
    (∀ n, n ∈ toDisableCandidates c → (n ∈ unl) ∧ (n ∉ neg) ∧ score n < negativeUNLLowWaterMark ∧
       newValidators_ s !! n = None ∧
       Z.of_nat (size (filter (λ n, n ∈ neg) unl)) < maxNegativeListed (Z.of_nat (size unl))) ∧
    (∀ n, n ∈ toReEnableCandidates c →
       (n ∈ neg) ∧ (n ∉ unl ∨ negativeUNLHighWaterMark < score n))) s.
Proof.
  intros Ht. unfold findAllCandidates. wp_steps. split_and!; [done|done| |]; simpl.
  - intros n ([n' sc] & -> & Hn)%list_elem_of_fmap. apply list_elem_of_filter in Hn.
    destruct Hn as [(Hadd & Hlow & Hneg & Hnew) Hin]. simpl in *.
    apply elem_of_hash_elems in Hin. rewrite Ht in Hin. case_decide; [|done].
    injection Hin as <-. apply Z.ltb_lt in Hadd. done.
  - intros n Hn. destruct ((filter _ (hash_elems table)).*1) as [|x l] eqn:Hre.
    + apply list_elem_of_filter in Hn as [Hn ?%elem_of_hash_set_elems]. auto.
    + rewrite <- Hre in Hn. apply list_elem_of_fmap in Hn as ([n' sc] & -> & Hn).
      apply list_elem_of_filter in Hn as [[Hhigh Hneg] Hin]. simpl in *.
      apply elem_of_hash_elems in Hin. rewrite Ht in Hin. case_decide; [|done].
      injection Hin as <-. auto.
Qed.

(** A vote by a node that takes part in it. *)
Lemma doVoting_wp tot prev unlKeys trustedNodes s :
  (∀ x, NoDup (trustedNodes x)) →
  wp tot (doVoting calcNodeID prev unlKeys trustedNodes) (λ _ s' w,
    (s' = s ∧ w = [SetSeqToKeep (u32 (u32 (prev_seq prev + 1) - 1))]) ∨
    ∃ l, recent prev = Some l ∧
      negativeUNLMinLocalValsToVote < score_of trustedNodes l (myId_ s) ∧
      (myId_ s ∈ node_ids unlKeys) ∧
      Forall (justified prev (node_ids unlKeys) (node_ids (nextNegUnl prev))
        (score_of trustedNodes l) (newValidators_ s')) w ∧
      (length (filter (λ c, disables c = true) w) ≤ 1)%nat ∧
      (length (filter (λ c, reenables c = true) w) ≤ 1)%nat) s.
Proof.
  intros Hnd. unfold doVoting. fold (node_ids unlKeys). wp_step.
  eapply wp_mono; [by apply buildScoreTable_wp|]. intros table s1 w1 (-> & -> & Htable).
  destruct table as [table|]; [|wp_step; by left].
  destruct Htable as (l & Hl & Ht & Hme & Hmin). fold (node_ids (nextNegUnl prev)).
  unfold purgeNewValidators. wp_steps. set (s2 := mkVote _ _).
  eapply wp_mono; [by apply (findAllCandidates_wp tot _ _ _ (score_of trustedNodes l))|].
  intros [dis ree] s3 w3 (-> & -> & Hdis & Hree). cbn [toDisableCandidates toReEnableCandidates] in *.
  set (nid := nidToKey calcNodeID _ (nidToKey _ _ _)).
  destruct (nidToKey_spec (hash_set_elems unlKeys) ∅) as [Hv1 Hd1]; [by intros n k Hk|].
  destruct (nidToKey_spec (hash_set_elems (nextNegUnl prev)) _ Hv1) as [Hv2 Hd2]. fold nid in Hv2, Hd2.
  assert (∀ n, n ∈ node_ids unlKeys ∨ n ∈ node_ids (nextNegUnl prev) → is_Some (nid !! n)) as Hdom.
  { intros n Hn. unfold node_ids in Hn. rewrite !elem_of_list_to_set in Hn. apply Hd2.
    destruct Hn as [Hn|Hn]; [left; by apply Hd1; right|by right]. }
  wp_step. eapply wp_mono; [apply voteFor_wp; [done|]|].
  { intros n Hn. apply Hdom. left. by apply Hdis. }
  intros ? s3 w3 [-> Hw3]. eapply wp_mono; [apply voteFor_wp; [done|]|].
  { intros n Hn. apply Hdom. right. by apply Hree. }
  intros ? s4 w4 [-> Hw4]. right. exists l. split_and!; [done..| | |].
  - rewrite !app_nil_l. constructor; [done|]. apply Forall_app. split.
    + destruct Hw3 as [[_ ->]|(vp & Hvp & ->)]; [done|]. constructor; [|done].
      destruct (Hdis _ Hvp) as (? & ? & ? & ? & ?). done.
    + destruct Hw4 as [[_ ->]|(vp & Hvp & ->)]; [done|]. constructor; [|done].
      destruct (Hree _ Hvp) as (? & ?). done.
  - destruct Hw3 as [[_ ->]|(vp & _ & ->)], Hw4 as [[_ ->]|(vp' & _ & ->)]; simpl; lia.
  - destruct Hw3 as [[_ ->]|(vp & _ & ->)], Hw4 as [[_ ->]|(vp' & _ & ->)]; simpl; lia.
Qed.

(** C33: every vote is justified.  Whatever the validations and the parent
    ledger say, the vote returns without violating an assertion.  It casts no
    vote unless this node is in its own UNL and has validated more than the
    minimum of the last 256 ledgers; it then proposes at most one validator to
    disable and at most one to re-enable.  A validator is proposed for
    disabling only if it is in the UNL, not on the next negative UNL, not new,
    has validated less than half of those ledgers, and the share of the UNL on
    the negative UNL is below its limit; and for re-enabling only if it is on
    the next negative UNL and has either left the UNL or validated more than
    four fifths of the ledgers. *)
Theorem votes_justified (prev : PrevLedger PublicKey) (unlKeys : gset PublicKey)
    (trustedNodes : Z → list Z) (s : NegativeUNLVote)
    (Hnodup : ∀ x, NoDup (trustedNodes x)) :
  ∃ s' w, doVoting calcNodeID prev unlKeys trustedNodes s = Ok (tt, s', w) ∧
    ((s' = s ∧ w = [SetSeqToKeep (u32 (u32 (prev_seq prev + 1) - 1))]) ∨
     ∃ l, recent prev = Some l ∧
       negativeUNLMinLocalValsToVote < score_of trustedNodes l (myId_ s) ∧
       (myId_ s ∈ node_ids unlKeys) ∧
       Forall (justified prev (node_ids unlKeys) (node_ids (nextNegUnl prev))
         (score_of trustedNodes l) (newValidators_ s')) w ∧
       (length (filter (λ c, disables c = true) w) ≤ 1)%nat ∧
       (length (filter (λ c, reenables c = true) w) ≤ 1)%nat).
Proof.
  pose proof (doVoting_wp true prev unlKeys trustedNodes s Hnodup) as Hwp. unfold wp in Hwp.
  destruct (doVoting _ _ _ _ s) as [[[[] s'] w]| |]; [|done..]. by exists s', w.
Qed.

(** a node with exactly the minimum of validations does not vote.  The
    constant [negativeUNLMinLocalValsToVote] is documented as the minimum
    number of validations of the local node for it to take part, but a node
    that has issued exactly that many casts no vote. *)
Theorem minimum_does_not_vote (prev : PrevLedger PublicKey) (unlKeys : gset PublicKey)
    (trustedNodes : Z → list Z) (s : NegativeUNLVote) (l : list Z)
    (Hnodup : ∀ x, NoDup (trustedNodes x)) (Hl : recent prev = Some l)
    (Hmin : score_of trustedNodes l (myId_ s) = negativeUNLMinLocalValsToVote) :
  doVoting calcNodeID prev unlKeys trustedNodes s =
    Ok (tt, s, [SetSeqToKeep (u32 (u32 (prev_seq prev + 1) - 1))]).
Proof.
  pose proof (doVoting_wp true prev unlKeys trustedNodes s Hnodup) as Hwp. unfold wp in Hwp.
  destruct (doVoting _ _ _ _ s) as [[[[] s'] w]| |]; [|done..].
  destruct Hwp as [[-> ->]|(l' & Hl' & Hgt & _)]; [done|]. rewrite Hl in Hl'.
  injection Hl' as <-. lia.
Qed.
End vote.

(** ** A concrete vote *)

#[local] Instance demo_node_order : HashOrder Z := default_order Z.

(** Three validators, of which the third has validated nothing, and the first
    every ledger or, in the second variant, the minimum. *)
Definition demo_prev : PrevLedger Z :=
  mkPrev 1023 77 ∅ None None (Some (Z.of_nat <$> seq 0 256)).
Definition demo_unl : gset Z := {[1; 2; 3]}.
Definition demo_vote : NegativeUNLVote := mkVote 1 ∅.
Definition demo_nodes (x : Z) : list Z := [1; 2].
Definition demo_minimum (x : Z) : list Z := if x <? 230 then [1; 2] else [2].

Lemma demo_voted :
  match doVoting id demo_prev demo_unl demo_nodes demo_vote with
  | Ok (_, _, [SetSeqToKeep 1023; AddTx 1024 3 ToDisable]) => true
  | _ => false
  end = true.
Proof. vm_compute. reflexivity. Qed.

Lemma votes_justified_witness :
  ∃ s' w, doVoting id demo_prev demo_unl demo_nodes demo_vote = Ok (tt, s', w) ∧
    w = [SetSeqToKeep 1023; AddTx 1024 3 ToDisable] ∧
    score_of demo_nodes (reverse (Z.of_nat <$> seq 0 256)) 3 < negativeUNLLowWaterMark.
Proof.
  destruct (votes_justified id demo_prev demo_unl demo_nodes demo_vote)
    as (s' & w & Hrun & Hj); [intros x; repeat constructor; set_solver|].
  pose proof demo_voted as Hv. rewrite Hrun in Hv.
  exists s', w. split; [exact Hrun|].
  repeat (case_match; try discriminate Hv). subst. split; [reflexivity|].
  destruct Hj as [[_ Hw]|(l & Hl & _ & _ & Hall & _)]; [discriminate Hw|].
  assert (recent demo_prev = Some (reverse (Z.of_nat <$> seq 0 256))) as Hrec
    by (vm_compute; reflexivity).
  rewrite Hrec in Hl. injection Hl as <-.
  apply Forall_cons in Hall as [_ Hall]. apply Forall_cons in Hall as [Hd _]. apply Hd.
Defined.

Lemma minimum_does_not_vote_witness :
  doVoting id demo_prev demo_unl demo_minimum demo_vote = Ok (tt, demo_vote, [SetSeqToKeep 1023]).
Proof.
  apply (minimum_does_not_vote id demo_prev demo_unl demo_minimum demo_vote
    (reverse (Z.of_nat <$> seq 0 256))).
  - intros x. unfold demo_minimum. destruct (x <? 230); repeat constructor; set_solver.
  - vm_compute. reflexivity.
  - vm_compute. reflexivity.
Defined.
