(* ===== verification/Serializer.v ===== *)
(** * Binary serialisation ([protocol/Serializer.h], [protocol/impl/Serializer.cpp])

    A [Serializer] is a growing vector of bytes; a [SerialIter] walks over a
    buffer with a pointer, the bytes used and the bytes that remain.  A byte is
    a [Z] between 0 and 255.  Reading the buffer outside its bounds is
    undefined behaviour, [Abort]. *)
From S2P Require Import Prelude Outcome Bytes.

(** The value of a vector's size as an [int]. *)
Definition int_size (l : list Z) : Z := i32 (Z.of_nat (length l)).

(** ** Writing: the state is [mData] *)

Definition push_back (b : Z) : ST (list Z) unit := smodify (λ d, d ++ [u8 b]).

Definition add8 (byte : Z) : ST (list Z) Z :=
  d ← sget;
  push_back byte;;
  mret (int_size d).

Definition add16 (i : Z) : ST (list Z) Z :=
  d ← sget;
  push_back (Z.shiftr i 8);;
  push_back (Z.land i 255);;
  mret (int_size d).

Definition add32 (i : Z) : ST (list Z) Z :=
  d ← sget;
  push_back (Z.shiftr i 24);;
  push_back (Z.land (Z.shiftr i 16) 255);;
  push_back (Z.land (Z.shiftr i 8) 255);;
  push_back (Z.land i 255);;
  mret (int_size d).

Definition add64 (i : Z) : ST (list Z) Z :=
  d ← sget;
  push_back (Z.shiftr i 56);;
  push_back (Z.land (Z.shiftr i 48) 255);;
  push_back (Z.land (Z.shiftr i 40) 255);;
  push_back (Z.land (Z.shiftr i 32) 255);;
  push_back (Z.land (Z.shiftr i 24) 255);;
  push_back (Z.land (Z.shiftr i 16) 255);;
  push_back (Z.land (Z.shiftr i 8) 255);;
  push_back (Z.land i 255);;
  mret (int_size d).

(** [addRaw] of a blob, of another serialiser and of a pointer and a length
    all append the bytes. *)
Definition addRaw (v : list Z) : ST (list Z) Z :=
  d ← sget;
  smodify (λ d, d ++ v);;
  mret (int_size d).

(** A [base_uint] is its bytes, big endian. *)
Definition addBitString (v : list Z) : ST (list Z) Z := addRaw v.

Definition addFieldID (type name : Z) : ST (list Z) Z :=
  d ← sget;
  sassert ((0 <? type) && (type <? 256) && (0 <? name) && (name <? 256)) "addFieldID";;
  (if type <? 16 then
     if name <? 16 then push_back (Z.lor (Z.shiftl type 4) name)
     else push_back (Z.shiftl type 4);; push_back name
   else if name <? 16 then push_back name;; push_back type
   else push_back 0;; push_back type;; push_back name);;
  mret (int_size d).

Definition encodeLengthLength (length : Z) : exc Z :=
  if length <? 0 then Throw "len<0"
  else if length <=? 192 then Return 1
  else if length <=? 12480 then Return 2
  else if length <=? 918744 then Return 3
  else Throw "len>918744".

(** The parameter is an [int]; the bytes of the array are 8 bits wide. *)
Definition addEncoded (length : Z) : ST (list Z) Z :=
  if length <=? 192 then addRaw [u8 length]
  else if length <=? 12480 then
    let length := length - 193 in
    addRaw [u8 (193 + u8 (Z.shiftr length 8)); u8 (Z.land length 255)]
  else if length <=? 918744 then
    let length := length - 12481 in
    addRaw [u8 (241 + u8 (Z.shiftr length 16)); u8 (Z.land (Z.shiftr length 8) 255);
            u8 (Z.land length 255)]
  else throw "lenlen".

(** [addVL] of a blob: the sum in the assertion is computed in 64 bits, where
    the [int] [ret] is sign extended. *)
Definition addVL (v : list Z) : ST (list Z) Z :=
  ret ← addEncoded (int_size v);
  addRaw v;;
  d ← sget;
  n ← slift (encodeLengthLength (int_size v));
  sassert (Z.of_nat (length d) =? u64 (ret + Z.of_nat (length v) + n)) "addVL";;
  mret ret.

(** [addVL] of a slice and of a pointer with its length. *)
Definition addVL_slice (v : list Z) : ST (list Z) Z :=
  ret ← addEncoded (int_size v);
  (if bool_decide (v = []) then mret () else _ ← addRaw v; mret ());;
  mret ret.

(** [addVL] of a range of slices with the length [len] of the whole. *)
Definition addVL_range (vs : list (list Z)) (len : Z) : ST (list Z) Z :=
  ret ← addEncoded len;
  _ ← foldr (λ v k, λ len, addRaw v;; k (i32 (len - int_size v)))
            (λ len, sassert (len =? 0) "addVL") vs len;
  mret ret.

(** ** Random access: [get8], [getInteger], [getBitString], [chop] *)

(** [mData[i]]. *)
Definition at_index (d : list Z) (i : Z) : exc Z :=
  if i <? 0 then Abort "index"
  else match d !! Z.to_nat i with Some b => Return b | None => Abort "index" end.

(** The offset is an [int]; compared with the size it is converted to 64 bits. *)
Definition Serializer_get8 (d : list Z) (offset : Z) : exc (option Z) :=
  if Z.of_nat (length d) <=? u64 offset then Return None
  else b ← at_index d (u64 offset); Return (Some b).

(** The loop of [getInteger]: [i] bytes of [bytes] are read. *)
Fixpoint getInteger_loop (n : nat) (bytes i : Z) (d : list Z) (ptr number : Z) : exc Z :=
  match n with
  | O => Return number
  | S n =>
    let number := if i =? 0 then number else Z.shiftl number 8 mod 2 ^ (8 * bytes) in
    b ← at_index d ptr;
    getInteger_loop n bytes (i + 1) d (ptr + 1) (Z.lor number b)
  end.

Definition getInteger (bytes : Z) (d : list Z) (offset : Z) : exc (option Z) :=
  if Z.of_nat (length d) <? u64 (offset + bytes) then Return None
  else n ← getInteger_loop (Z.to_nat bytes) bytes 0 d offset 0; Return (Some n).

Definition getBitString (bytes : Z) (d : list Z) (offset : Z) : exc (option (list Z)) :=
  if u64 (offset + bytes) <=? Z.of_nat (length d) then
    if offset <? 0 then Abort "memcpy"
    else Return (Some (take (Z.to_nat bytes) (drop (Z.to_nat offset) d)))
  else Return None.

(** [chop]: [bytes] is an [int]. *)
Definition chop (bytes : Z) : ST (list Z) bool :=
  d ← sget;
  if Z.of_nat (length d) <? u64 bytes then mret false
  else sput (take (length d - Z.to_nat (u64 bytes)) d);; mret true.

(** ** Lengths of variable length fields *)

Definition decodeLengthLength (b1 : Z) : exc Z :=
  if b1 <? 0 then Throw "b1<0"
  else if b1 <=? 192 then Return 1
  else if b1 <=? 240 then Return 2
  else if b1 <=? 254 then Return 3
  else Throw "b1>254".

Definition decodeVLLength1 (b1 : Z) : exc Z :=
  if b1 <? 0 then Throw "b1<0" else if 254 <? b1 then Throw "b1>254" else Return b1.

Definition decodeVLLength2 (b1 b2 : Z) : exc Z :=
  if b1 <? 193 then Throw "b1<193"
  else if 240 <? b1 then Throw "b1>240"
  else Return (193 + (b1 - 193) * 256 + b2).

Definition decodeVLLength3 (b1 b2 b3 : Z) : exc Z :=
  if b1 <? 241 then Throw "b1<241"
  else if 254 <? b1 then Throw "b1>254"
  else Return (12481 + (b1 - 241) * 65536 + b2 * 256 + b3).

(** ** Reading: [SerialIter] *)

Record SerialIter := mkIter {
  buffer : list Z;   (** the memory [p_] points into *)
  p_ : Z;            (** the pointer, as an index of the buffer *)
  remain_ : Z;
  used_ : Z }.

Definition SerialIter_ctor (data : list Z) : SerialIter :=
  mkIter data 0 (Z.of_nat (length data)) 0.

Definition iter_empty (s : SerialIter) : bool := remain_ s =? 0.

Definition getBytesLeft (s : SerialIter) : Z := i32 (remain_ s).

Definition reset (s : SerialIter) : SerialIter :=
  mkIter (buffer s) (p_ s - used_ s) (u64 (remain_ s + used_ s)) 0.

(** [p_ += n; used_ += n; remain_ -= n]. *)
Definition advance (n : Z) : ST SerialIter unit :=
  smodify (λ s, mkIter (buffer s) (p_ s + n) (u64 (remain_ s - n)) (u64 (used_ s + n))).

(** [t[i]] for the saved pointer [t]. *)
Definition load (t i : Z) : ST SerialIter Z := s ← sget; slift (at_index (buffer s) (t + i)).

Definition skip (length : Z) : ST SerialIter unit :=
  s ← sget;
  throw_if (remain_ s <? u64 length) "invalid SerialIter skip";;
  advance length.

Definition get8 : ST SerialIter Z :=
  s ← sget;
  throw_if (remain_ s <? 1) "invalid SerialIter get8";;
  t ← load (p_ s) 0;
  advance 1;;
  mret t.

Definition get16 : ST SerialIter Z :=
  s ← sget;
  throw_if (remain_ s <? 2) "invalid SerialIter get16";;
  let t := p_ s in
  advance 2;;
  t0 ← load t 0; t1 ← load t 1;
  mret (u16 (u64 (Z.shiftl t0 8) + t1)).

Definition get32 : ST SerialIter Z :=
  s ← sget;
  throw_if (remain_ s <? 4) "invalid SerialIter get32";;
  let t := p_ s in
  advance 4;;
  t0 ← load t 0; t1 ← load t 1; t2 ← load t 2; t3 ← load t 3;
  mret (u32 (u64 (u64 (Z.shiftl t0 24) + u64 (Z.shiftl t1 16) + u64 (Z.shiftl t2 8) + t3))).

Definition get64 : ST SerialIter Z :=
  s ← sget;
  throw_if (remain_ s <? 8) "invalid SerialIter get64";;
  let t := p_ s in
  advance 8;;
  t0 ← load t 0; t1 ← load t 1; t2 ← load t 2; t3 ← load t 3;
  t4 ← load t 4; t5 ← load t 5; t6 ← load t 6; t7 ← load t 7;
  mret (u64 (u64 (Z.shiftl t0 56) + u64 (Z.shiftl t1 48) + u64 (Z.shiftl t2 40) +
             u64 (Z.shiftl t3 32) + u64 (Z.shiftl t4 24) + u64 (Z.shiftl t5 16) +
             u64 (Z.shiftl t6 8) + t7)).

(** The bytes from the saved pointer [t]: a [memcpy] of [n] bytes. *)
Definition load_n (t n : Z) : ST SerialIter (list Z) :=
  s ← sget;
  if (t <? 0) || (Z.of_nat (length (buffer s)) <? t + n) then slift (Abort "memcpy")
  else mret (take (Z.to_nat n) (drop (Z.to_nat t) (buffer s))).

(** [getBitString] of [8 * n] bits, with [get128], [get160] and [get256]. *)
Definition iter_getBitString (n : Z) : ST SerialIter (list Z) :=
  s ← sget;
  throw_if (remain_ s <? n) "invalid SerialIter getBitString";;
  let x := p_ s in
  advance n;;
  load_n x n.

Definition getFieldID : ST SerialIter (Z * Z) :=
  t ← get8;
  let name := Z.land t 15 in
  let type := Z.shiftr t 4 in
  type ← (if type =? 0 then
            type ← get8;
            throw_if (type <? 16) "gFID: uncommon type out of range";;
            mret type
          else mret type);
  name ← (if name =? 0 then
            name ← get8;
            throw_if (name <? 16) "gFID: uncommon name out of range";;
            mret name
          else mret name);
  mret (type, name).

Definition getRaw (size : Z) : ST SerialIter (list Z) :=
  s ← sget;
  throw_if (remain_ s <? u64 size) "invalid SerialIter getRaw";;
  if size =? 0 then mret []
  else
    result ← load_n (p_ s) size;
    advance size;;
    mret result.

Definition getSlice (bytes : Z) : ST SerialIter (list Z) :=
  s ← sget;
  throw_if (remain_ s <? bytes) "invalid SerialIter getSlice";;
  result ← load_n (p_ s) bytes;
  advance bytes;;
  mret result.

Definition getVLDataLength : ST SerialIter Z :=
  b1 ← get8;
  lenLen ← slift (decodeLengthLength b1);
  if lenLen =? 1 then slift (decodeVLLength1 b1)
  else if lenLen =? 2 then
    b2 ← get8;
    slift (decodeVLLength2 b1 b2)
  else
    sassert (lenLen =? 3) "getVLDataLength";;
    b2 ← get8;
    b3 ← get8;
    slift (decodeVLLength3 b1 b2 b3).

(** [getVL] and [getVLBuffer]. *)
Definition getVL : ST SerialIter (list Z) := n ← getVLDataLength; getRaw n.
