(* ===== verification/SerializerSpec.v ===== *)
(** * Serialisation: round trips, canonical encodings, reads within bounds

    [writes m bs]: the writer [m] appends exactly [bs] and returns the old size.
    [reads m bs a]: standing before [bs], the reader [m] consumes exactly [bs]
    and returns [a]. *)
From S2P Require Import Prelude Outcome Bytes Serializer.

Definition iter_at (pre rest : list Z) : SerialIter :=
  mkIter (pre ++ rest) (Z.of_nat (length pre)) (Z.of_nat (length rest)) (Z.of_nat (length pre)).

Definition writes (m : ST (list Z) Z) (bs : list Z) : Prop :=
  ∀ d, Z.of_nat (length d) < 2 ^ 31 → m d = (Return (Z.of_nat (length d)), d ++ bs).

Definition reads {A} (m : ST SerialIter A) (bs : list Z) (a : A) : Prop :=
  ∀ pre rest, Z.of_nat (length pre + length bs + length rest) < 2 ^ 63 →
    m (iter_at pre (bs ++ rest)) = (Return a, iter_at (pre ++ bs) rest).

Lemma int_size_small l : Z.of_nat (length l) < 2 ^ 31 → int_size l = Z.of_nat (length l).
Proof. intros. apply i32_id. lia. Qed.

(** ** Composition of writers and readers *)

Lemma writes_addRaw v : writes (addRaw v) v.
Proof. intros d Hd. change (addRaw v d) with (Return (int_size d), d ++ v). by rewrite int_size_small. Qed.

Lemma reads_ret {A} (a : A) : reads (mret a) [] a.
Proof. intros pre rest _. by rewrite app_nil_r. Qed.

Lemma reads_bind {A B} (m : ST SerialIter A) (k : A → ST SerialIter B) bs1 bs2 a b :
  reads m bs1 a → reads (k a) bs2 b → reads (m ≫= k) (bs1 ++ bs2) b.
Proof.
  intros Hm Hk pre rest Hlen. rewrite length_app in Hlen.
  rewrite <- (assoc_L (++) bs1), (assoc_L (++) pre).
  erewrite ST_bind_return by (apply Hm; rewrite length_app; lia).
  apply Hk. rewrite length_app. lia.
Qed.

Lemma reads_bind_nil {A B} (m : ST SerialIter A) (k : A → ST SerialIter B) bs a b :
  reads m [] a → reads (k a) bs b → reads (m ≫= k) bs b.
Proof. intros Hm Hk. by apply (reads_bind m k [] bs a b). Qed.

Lemma reads_slift {A} (r : exc A) a : r = Return a → reads (slift r) [] a.
Proof. intros -> pre rest _. by rewrite app_nil_r. Qed.

Lemma advance_at n pre bs rest :
  n = Z.of_nat (length bs) → Z.of_nat (length pre + length bs + length rest) < 2 ^ 63 →
  advance n (iter_at pre (bs ++ rest)) = (Return (), iter_at (pre ++ bs) rest).
Proof.
  intros -> Hlen. unfold advance, smodify, iter_at. cbn.
  rewrite !length_app, !(assoc_L (++)), !u64_id by lia.
  do 2 f_equal; lia.
Qed.

Lemma load_at bef aft pre bs rest (z : Z) b :
  bef ++ aft = pre ++ bs ++ rest → 0 ≤ z → bs !! Z.to_nat z = Some b →
  load (Z.of_nat (length pre)) z (iter_at bef aft) = (Return b, iter_at bef aft).
Proof.
  intros Heq Hz Hi. unfold load, slift, sget, mbind, ST_bind, at_index. cbn. rewrite Heq.
  rewrite (proj2 (Z.ltb_ge _ _)) by lia.
  replace (Z.to_nat _) with (length pre + Z.to_nat z)%nat by lia.
  rewrite lookup_app_r by lia. replace (_ - _)%nat with (Z.to_nat z) by lia.
  by rewrite (lookup_app_l_Some _ _ _ _ Hi).
Qed.

Lemma load_n_at pre bs rest (n : Z) bef aft :
  n = Z.of_nat (length bs) → bef ++ aft = pre ++ bs ++ rest →
  load_n (Z.of_nat (length pre)) n (iter_at bef aft) = (Return bs, iter_at bef aft).
Proof.
  intros -> Heq. unfold load_n, sget, mbind, ST_bind, mret, ST_ret. cbn. rewrite Heq.
  rewrite !length_app.
  rewrite (proj2 (Z.ltb_ge _ _)), (proj2 (Z.ltb_ge _ _)) by lia. cbn.
  rewrite !Nat2Z.id, drop_app_length, take_app_length. done.
Qed.

(** A reader that checks [n] remaining bytes passes the check. *)
Lemma throw_if_at {A} n what (k : unit → ST SerialIter A) pre bs rest :
  n ≤ Z.of_nat (length bs) →
  (throw_if (remain_ (iter_at pre (bs ++ rest)) <? n) what ≫= k) (iter_at pre (bs ++ rest)) =
  k () (iter_at pre (bs ++ rest)).
Proof.
  intros Hn. apply ST_bind_return. unfold throw_if. cbn.
  rewrite length_app, (proj2 (Z.ltb_ge _ _)) by lia. done.
Qed.

Lemma reads_get8 b : reads get8 [b] b.
Proof.
  intros pre rest Hlen. unfold get8.
  erewrite ST_bind_return by done. rewrite throw_if_at by (cbn; lia).
  erewrite ST_bind_return by (by apply (load_at _ _ pre [b] rest)).
  erewrite ST_bind_return by (apply (advance_at 1 pre [b] rest); cbn in *; lia). done.
Qed.

(** ** Integers *)

Lemma u8_land x : u8 (Z.land x 255) = u8 x.
Proof. rewrite land_255. unfold u8. apply Z.mod_mod. lia. Qed.

(** Running a writer made of [push_back]s. *)
Lemma push_back_run b d : push_back b d = (Return (), d ++ [u8 b]).
Proof. done. Qed.

Ltac write_steps :=
  intros d Hd; unfold add8, add16, add32, add64, addFieldID; erewrite ST_bind_return by done;
  repeat (erewrite ST_bind_return by apply push_back_run);
  unfold mret, ST_ret; rewrite int_size_small by done;
  repeat rewrite u8_land; repeat rewrite <- (assoc_L (++)); try done.

Lemma writes_add8 i : writes (add8 i) (be_bytes 1 i).
Proof. write_steps. Qed.
Lemma writes_add16 i : writes (add16 i) (be_bytes 2 i).
Proof. write_steps. Qed.
Lemma writes_add32 i : writes (add32 i) (be_bytes 4 i).
Proof. write_steps. Qed.
Lemma writes_add64 i : writes (add64 i) (be_bytes 8 i).
Proof. write_steps. Qed.

Lemma shiftl_byte b n : is_byte b → 0 ≤ n ≤ 56 → u64 (Z.shiftl b n) = b * 2 ^ n.
Proof.
  unfold is_byte. intros Hb Hn. rewrite Z.shiftl_mul_pow2 by lia. apply u64_id.
  assert (2 ^ n ≤ 2 ^ 56) by (apply Z.pow_le_mono_r; lia).
  assert (0 < 2 ^ n) by (apply Z.pow_pos_nonneg; lia). nia.
Qed.

(** The prefix common to the fixed width readers: check, save the pointer,
    advance. *)
Ltac fixed_prefix pre bs rest :=
  erewrite ST_bind_return by done; rewrite throw_if_at by (cbn; lia); cbv zeta;
  erewrite ST_bind_return by (apply (advance_at _ pre bs rest); done).

Ltac load_steps :=
  repeat (erewrite ST_bind_return by
    (eapply load_at; [symmetry; apply (assoc_L (++))|lia|reflexivity]));
  unfold mret, ST_ret.

(** The sum of the shifted bytes is the big endian value. *)
Ltac sum_of_bytes :=
  do 2 f_equal; rewrite ?shiftl_byte by (done || lia); unfold is_byte in *;
  cbn [be_value length]; change (2 ^ (8 * Z.of_nat 0)) with 1;
  unfold u16, u32, u64;
  rewrite ?(Z.mod_small _ (2 ^ 64)), ?(Z.mod_small _ (2 ^ 32)), ?(Z.mod_small _ (2 ^ 16)) by lia;
  cbn; lia.

Lemma reads_get16 t0 t1 :
  is_byte t0 → is_byte t1 → reads get16 [t0; t1] (be_value [t0; t1]).
Proof.
  intros H0 H1 pre rest Hlen. unfold get16.
  fixed_prefix pre [t0; t1] rest.
  load_steps. sum_of_bytes.
Qed.

Lemma reads_get32 t0 t1 t2 t3 :
  is_byte t0 → is_byte t1 → is_byte t2 → is_byte t3 →
  reads get32 [t0; t1; t2; t3] (be_value [t0; t1; t2; t3]).
Proof.
  intros H0 H1 H2 H3 pre rest Hlen. unfold get32.
  fixed_prefix pre [t0; t1; t2; t3] rest.
  load_steps. sum_of_bytes.
Qed.

Lemma reads_get64 t0 t1 t2 t3 t4 t5 t6 t7 :
  Forall is_byte [t0; t1; t2; t3; t4; t5; t6; t7] →
  reads get64 [t0; t1; t2; t3; t4; t5; t6; t7] (be_value [t0; t1; t2; t3; t4; t5; t6; t7]).
Proof.
  intros H pre rest Hlen. unfold get64.
  fixed_prefix pre [t0; t1; t2; t3; t4; t5; t6; t7] rest.
  repeat (apply Forall_cons in H as [? H]).
  load_steps. sum_of_bytes.
Qed.

(** Reading back what was written. *)
Lemma reads_8 i : 0 ≤ i < 2 ^ 8 → reads get8 (be_bytes 1 i) i.
Proof. intros Hi. pose proof (reads_get8 (u8 i)) as H. by rewrite u8_id in H at 2. Qed.

Lemma reads_16 i : 0 ≤ i < 2 ^ 16 → reads get16 (be_bytes 2 i) i.
Proof.
  intros Hi. rewrite <- (be_value_read 2 i Hi) at 2. apply reads_get16; apply u8_is_byte.
Qed.

Lemma reads_32 i : 0 ≤ i < 2 ^ 32 → reads get32 (be_bytes 4 i) i.
Proof.
  intros Hi. rewrite <- (be_value_read 4 i Hi) at 2. apply reads_get32; apply u8_is_byte.
Qed.

Lemma reads_64 i : 0 ≤ i < 2 ^ 64 → reads get64 (be_bytes 8 i) i.
Proof.
  intros Hi. rewrite <- (be_value_read 8 i Hi) at 2. apply reads_get64.
  apply (be_bytes_are_bytes 8 i).
Qed.

(** ** Raw bytes *)

Lemma reads_getBitString v : reads (iter_getBitString (Z.of_nat (length v))) v v.
Proof.
  intros pre rest Hlen. unfold iter_getBitString. fixed_prefix pre v rest.
  apply (load_n_at pre v rest); [done|]. symmetry. apply (assoc_L (++)).
Qed.

Lemma reads_getRaw v : Z.of_nat (length v) < 2 ^ 63 → reads (getRaw (Z.of_nat (length v))) v v.
Proof.
  intros Hv pre rest Hlen. unfold getRaw. erewrite ST_bind_return by done.
  rewrite u64_id, throw_if_at by lia.
  destruct (Z.eqb_spec (Z.of_nat (length v)) 0) as [H0|H0].
  { destruct v; [|cbn in H0; lia]. cbn. by rewrite app_nil_r. }
  erewrite ST_bind_return by (by apply (load_n_at pre v rest)).
  erewrite ST_bind_return by (by apply advance_at). done.
Qed.

(** ** Field identifiers *)

Definition field_bytes (type name : Z) : list Z :=
  if type <? 16 then
    if name <? 16 then [16 * type + name] else [16 * type; name]
  else if name <? 16 then [name; type] else [0; type; name].

Definition field_ok (type name : Z) : Prop := 0 < type < 256 ∧ 0 < name < 256.

Lemma writes_addFieldID type name :
  field_ok type name → writes (addFieldID type name) (field_bytes type name).
Proof.
  intros [Ht Hn]. unfold field_bytes. write_steps.
  erewrite ST_bind_return.
  2: { unfold sassert. rewrite !(proj2 (Z.ltb_lt _ _)) by lia. done. }
  destruct (Z.ltb_spec type 16), (Z.ltb_spec name 16); cbv [mbind ST_bind push_back smodify].
  all: rewrite ?(proj1 (nibbles type name ltac:(lia) ltac:(lia))),
         ?Z.shiftl_mul_pow2, ?u8_id by lia.
  all: by rewrite <- ?(assoc_L (++)), ?(Z.mul_comm type).
Qed.

(** Readers made of [get8]. *)
Lemma reads_get8_bind {A} (k : Z → ST SerialIter A) b bs a :
  reads (k b) bs a → reads (get8 ≫= k) (b :: bs) a.
Proof. intros Hk. by apply (reads_bind get8 k [b] bs b a (reads_get8 b)). Qed.

Lemma reads_throw_if_bind {A} b what (k : unit → ST SerialIter A) bs a :
  b = false → reads (k ()) bs a → reads (throw_if b what ≫= k) bs a.
Proof. intros -> Hk. by apply (reads_bind_nil _ k bs () a); [apply (reads_ret ())|]. Qed.

Lemma reads_slift_bind {A B} (r : exc A) (k : A → ST SerialIter B) bs a b :
  r = Return a → reads (k a) bs b → reads (slift r ≫= k) bs b.
Proof. intros Hr Hk. by apply (reads_bind_nil _ k bs a b); [apply reads_slift|]. Qed.

Lemma reads_ret_bind {A B} (a : A) (k : A → ST SerialIter B) bs b :
  reads (k a) bs b → reads (mret a ≫= k) bs b.
Proof. by apply reads_bind_nil, reads_ret. Qed.

Lemma reads_getFieldID type name :
  field_ok type name → reads getFieldID (field_bytes type name) (type, name).
Proof.
  intros [Ht Hn]. unfold field_bytes, getFieldID.
  destruct (Z.ltb_spec type 16), (Z.ltb_spec name 16); apply reads_get8_bind; cbv zeta.
  - destruct (nibbles type name) as (_ & -> & ->); [lia..|].
    rewrite !(proj2 (Z.eqb_neq _ _)) by lia.
    do 2 apply reads_ret_bind. apply reads_ret.
  - destruct (nibbles type 0) as (_ & E1 & E2); [lia..|]. rewrite Z.add_0_r in E1, E2.
    rewrite E1, E2, (proj2 (Z.eqb_neq type 0)) by lia. apply reads_ret_bind. cbn [Z.eqb].
    apply (reads_bind _ _ [name] [] name); [|apply reads_ret].
    apply reads_get8_bind, reads_throw_if_bind, reads_ret; by apply Z.ltb_ge.
  - destruct (nibbles 0 name) as (_ & E1 & E2); [lia..|].
    change (16 * 0 + name) with name in E1, E2. rewrite E1, E2. cbn [Z.eqb].
    apply (reads_bind _ _ [type] [] type).
    { apply reads_get8_bind, reads_throw_if_bind, reads_ret; by apply Z.ltb_ge. }
    rewrite (proj2 (Z.eqb_neq _ _)) by lia. apply reads_ret_bind, reads_ret.
  - cbn [Z.eqb Z.land Z.shiftr Z.shiftl].
    apply (reads_bind _ _ [type] [name] type).
    { apply reads_get8_bind, reads_throw_if_bind, reads_ret; by apply Z.ltb_ge. }
    apply (reads_bind _ _ [name] [] name); [|apply reads_ret].
    apply reads_get8_bind, reads_throw_if_bind, reads_ret; by apply Z.ltb_ge.
Qed.

(** ** Variable length fields *)

Definition length_bytes (n : Z) : list Z :=
  if n <=? 192 then [n]
  else if n <=? 12480 then [193 + (n - 193) / 256; (n - 193) mod 256]
  else [241 + (n - 12481) / 65536; (n - 12481) / 256 mod 256; (n - 12481) mod 256].

Lemma length_length_bytes n :
  0 ≤ n ≤ 918744 → encodeLengthLength n = Return (Z.of_nat (length (length_bytes n))).
Proof.
  intros Hn. unfold encodeLengthLength, length_bytes.
  rewrite (proj2 (Z.ltb_ge _ _)) by lia.
  destruct (n <=? 192), (n <=? 12480); [done..|].
  by rewrite (proj2 (Z.leb_le _ _)) by lia.
Qed.

(** Quotients by the constants of the encoding are linear facts. *)
Ltac euclid := Z.to_euclidean_division_equations; lia.

Lemma writes_addEncoded n : 0 ≤ n ≤ 918744 → writes (addEncoded n) (length_bytes n).
Proof.
  intros Hn. unfold addEncoded, length_bytes.
  assert (H65536 : n ≤ 918744 → (n - 12481) / 65536 ≤ 13) by euclid.
  repeat case_match; reflect_bools; try lia; cbv zeta;
    rewrite ?Z.shiftr_div_pow2, ?land_255 by lia.
  - rewrite u8_id by lia. apply writes_addRaw.
  - rewrite !(u8_id ((n - 193) / 2 ^ 8)), !u8_id by euclid. apply writes_addRaw.
  - rewrite !(u8_id ((n - 12481) / 2 ^ 16)), !u8_id by euclid. apply writes_addRaw.
Qed.

Lemma addEncoded_throws n d : 918744 < n → addEncoded n d = (Throw "lenlen", d).
Proof. intros Hn. unfold addEncoded. by repeat (case_match; reflect_bools; try lia). Qed.

Lemma reads_getVLDataLength n :
  0 ≤ n ≤ 918744 → reads getVLDataLength (length_bytes n) n.
Proof.
  intros Hn. unfold length_bytes, getVLDataLength.
  repeat case_match; reflect_bools; apply reads_get8_bind.
  - eapply reads_slift_bind with (a := 1); [|apply reads_slift].
    + unfold decodeLengthLength. by repeat (case_match; reflect_bools; try lia).
    + unfold decodeVLLength1. by repeat (case_match; reflect_bools; try lia).
  - eapply reads_slift_bind with (a := 2).
    + unfold decodeLengthLength. by repeat (case_match; reflect_bools; try euclid).
    + apply reads_get8_bind, reads_slift. unfold decodeVLLength2.
      repeat (case_match; reflect_bools; try euclid). f_equal. euclid.
  - eapply reads_slift_bind with (a := 3).
    + unfold decodeLengthLength. by repeat (case_match; reflect_bools; try euclid).
    + apply reads_ret_bind, reads_get8_bind, reads_get8_bind, reads_slift. unfold decodeVLLength3.
      repeat (case_match; reflect_bools; try euclid). f_equal. euclid.
Qed.

Lemma writes_addVL v :
  Z.of_nat (length v) ≤ 918744 → writes (addVL v) (length_bytes (Z.of_nat (length v)) ++ v).
Proof.
  intros Hv d Hd. unfold addVL. rewrite int_size_small by lia.
  erewrite ST_bind_return by (by apply writes_addEncoded; [lia|]).
  erewrite ST_bind_return by done. erewrite ST_bind_return by done.
  rewrite length_length_bytes by lia. erewrite ST_bind_return by done.
  erewrite ST_bind_return.
  2: { unfold sassert. rewrite (proj2 (Z.eqb_eq _ _)); [done|].
       rewrite !length_app. unfold u64.
       assert (Z.of_nat (length (length_bytes (Z.of_nat (length v)))) ≤ 3)
         by (unfold length_bytes; repeat case_match; cbn; lia).
       rewrite Z.mod_small; lia. }
  unfold mret, ST_ret. by rewrite (assoc_L (++)).
Qed.

(** The other overloads of [addVL] write the same bytes. *)
Lemma writes_addVL_slice v :
  Z.of_nat (length v) ≤ 918744 → writes (addVL_slice v) (length_bytes (Z.of_nat (length v)) ++ v).
Proof.
  intros Hv d Hd. unfold addVL_slice. rewrite int_size_small by lia.
  erewrite ST_bind_return by (by apply writes_addEncoded; [lia|]).
  rewrite (assoc_L (++)). case_bool_decide as Hnil; [|done].
  rewrite Hnil, (app_nil_r (d ++ _)). done.
Qed.

Lemma writes_addVL_range vs :
  Z.of_nat (length (concat vs)) ≤ 918744 →
  writes (addVL_range vs (Z.of_nat (length (concat vs))))
         (length_bytes (Z.of_nat (length (concat vs))) ++ concat vs).
Proof.
  intros Hv d Hd. unfold addVL_range.
  erewrite ST_bind_return by (by apply writes_addEncoded; [lia|]).
  erewrite ST_bind_return; [unfold mret, ST_ret; by rewrite (assoc_L (++))|].
  generalize (d ++ length_bytes (Z.of_nat (length (concat vs)))). revert Hv.
  induction vs as [|v vs IH]; intros Hv d'; cbn [foldr concat] in *.
  { unfold sassert. cbn. by rewrite app_nil_r. }
  rewrite length_app in *. erewrite ST_bind_return by done. rewrite int_size_small by lia.
  rewrite i32_id by lia. replace (_ - _) with (Z.of_nat (length (concat vs))) by lia.
  rewrite (assoc_L (++)). apply IH. lia.
Qed.

(** Random access reads what was written. *)
Lemma getInteger_loop_value bytes d bs rest i n number :
  n = length bs → Forall is_byte bs → 0 ≤ i → bytes = i + Z.of_nat n → bytes ≤ 8 →
  0 ≤ number < 2 ^ (8 * i) →
  getInteger_loop n bytes i (d ++ bs ++ rest) (Z.of_nat (length d)) number =
    Return (number * 2 ^ (8 * Z.of_nat n) + be_value bs).
Proof.
  revert d i n number. induction bs as [|b bs IH]; intros d i n number -> Hb Hi Hn Hmax Hnum.
  { cbn. f_equal. lia. }
  apply Forall_cons in Hb as [Hb1 Hb]. unfold is_byte in Hb1. cbn [getInteger_loop length].
  set (number' := if i =? 0 then number else _).
  assert (Hshift : number' = number * 2 ^ 8).
  { unfold number'. destruct (Z.eqb_spec i 0) as [->|Hi0]; [lia|].
    rewrite Z.shiftl_mul_pow2 by lia. apply Z.mod_small. split; [lia|].
    cbn [length] in Hn. apply Z.lt_le_trans with (2 ^ (8 * i) * 2 ^ 8); [lia|].
    rewrite <- Z.pow_add_r by lia. apply Z.pow_le_mono_r; lia. }
  unfold at_index. rewrite (proj2 (Z.ltb_ge _ _)), Nat2Z.id by lia.
  change ((b :: bs) ++ rest) with (b :: (bs ++ rest)).
  rewrite list_lookup_middle by done. cbn [mbind exc_bind].
  assert (Hlor : Z.lor number' b = number * 2 ^ 8 + b).
  { rewrite Hshift. apply lor_disjoint; lia. }
  rewrite Hlor. replace (Z.of_nat (length d) + 1) with (Z.of_nat (length (d ++ [b])))
    by (rewrite length_app; cbn; lia).
  rewrite (cons_middle b d (bs ++ rest)), (assoc_L (++)).
  cbn [length] in Hn.
  rewrite (IH (d ++ [b]) (i + 1) (length bs)); [|done|done|lia|lia|lia|].
  - cbn [be_value]. f_equal. rewrite Nat2Z.inj_succ, Z.mul_succ_r, Z.pow_add_r by lia. lia.
  - replace (8 * (i + 1)) with (8 * i + 8) by lia. rewrite Z.pow_add_r by lia. lia.
Qed.

Lemma getInteger_reads n d i rest :
  (n ≤ 8)%nat → 0 ≤ i < 2 ^ (8 * Z.of_nat n) → Z.of_nat (length d) < 2 ^ 31 →
  getInteger (Z.of_nat n) (d ++ be_bytes n i ++ rest) (Z.of_nat (length d)) = Return (Some i).
Proof.
  intros Hn Hi Hd. unfold getInteger. rewrite u64_id, !length_app, length_be_bytes by lia.
  rewrite (proj2 (Z.ltb_ge _ _)), Nat2Z.id by lia.
  rewrite getInteger_loop_value; rewrite ?length_be_bytes; try done; try lia.
  - cbn. by rewrite be_value_read.
  - apply be_bytes_are_bytes.
Qed.

Lemma reads_getVL v :
  Z.of_nat (length v) ≤ 918744 → reads getVL (length_bytes (Z.of_nat (length v)) ++ v) v.
Proof.
  intros Hv. eapply reads_bind; [apply reads_getVLDataLength; lia|]. apply reads_getRaw. lia.
Qed.

(** ** Streams of fields *)

Inductive item :=
  | Int8 (i : Z) | Int16 (i : Z) | Int32 (i : Z) | Int64 (i : Z)
  | FieldID (type name : Z)
  | Bits (v : list Z)
  | Blob (v : list Z).

(** The ranges of the C++ parameter types, and the longest encodable blob. *)
Definition item_ok (x : item) : Prop :=
  match x with
  | Int8 i => 0 ≤ i < 2 ^ 8
  | Int16 i => 0 ≤ i < 2 ^ 16
  | Int32 i => 0 ≤ i < 2 ^ 32
  | Int64 i => 0 ≤ i < 2 ^ 64
  | FieldID type name => field_ok type name
  | Bits v => True
  | Blob v => Z.of_nat (length v) ≤ 918744
  end.

Definition write_item (x : item) : ST (list Z) Z :=
  match x with
  | Int8 i => add8 i
  | Int16 i => add16 i
  | Int32 i => add32 i
  | Int64 i => add64 i
  | FieldID type name => addFieldID type name
  | Bits v => addBitString v
  | Blob v => addVL v
  end.

(** What kind of field the reader expects, and how many bits of a bit string. *)
Inductive shape := SInt8 | SInt16 | SInt32 | SInt64 | SFieldID | SBits (bytes : Z) | SBlob.

Definition shape_of (x : item) : shape :=
  match x with
  | Int8 _ => SInt8 | Int16 _ => SInt16 | Int32 _ => SInt32 | Int64 _ => SInt64
  | FieldID _ _ => SFieldID | Bits v => SBits (Z.of_nat (length v)) | Blob _ => SBlob
  end.

Definition read_item (x : shape) : ST SerialIter item :=
  match x with
  | SInt8 => i ← get8; mret (Int8 i)
  | SInt16 => i ← get16; mret (Int16 i)
  | SInt32 => i ← get32; mret (Int32 i)
  | SInt64 => i ← get64; mret (Int64 i)
  | SFieldID => f ← getFieldID; mret (FieldID f.1 f.2)
  | SBits n => v ← iter_getBitString n; mret (Bits v)
  | SBlob => v ← getVL; mret (Blob v)
  end.

Definition item_bytes (x : item) : list Z :=
  match x with
  | Int8 i => be_bytes 1 i
  | Int16 i => be_bytes 2 i
  | Int32 i => be_bytes 4 i
  | Int64 i => be_bytes 8 i
  | FieldID type name => field_bytes type name
  | Bits v => v
  | Blob v => length_bytes (Z.of_nat (length v)) ++ v
  end.

Create HintDb serial.
#[local] Hint Resolve writes_add8 writes_add16 writes_add32 writes_add64 writes_addFieldID
  writes_addRaw writes_addVL : serial.
#[local] Hint Resolve reads_8 reads_16 reads_32 reads_64 reads_getFieldID reads_getBitString
  reads_getVL : serial.

Lemma writes_item x : item_ok x → writes (write_item x) (item_bytes x).
Proof. destruct x; cbn [item_ok write_item item_bytes]; eauto with serial. Qed.

Lemma reads_map {A B} (m : ST SerialIter A) (f : A → B) bs a :
  reads m bs a → reads (x ← m; mret (f x)) bs (f a).
Proof.
  intros Hm. rewrite <- (app_nil_r bs). eapply reads_bind; [done|]. apply reads_ret.
Qed.

Lemma reads_item x : item_ok x → reads (read_item (shape_of x)) (item_bytes x) x.
Proof.
  destruct x; cbn [item_ok read_item shape_of item_bytes]; intros.
  5: apply (reads_map getFieldID (λ f, FieldID f.1 f.2) _ (type, name)); auto with serial.
  all: apply reads_map; auto with serial.
Qed.

Fixpoint write_items (l : list item) : ST (list Z) unit :=
  match l with [] => mret () | x :: l => write_item x;; write_items l end.

Fixpoint read_items (l : list shape) : ST SerialIter (list item) :=
  match l with [] => mret [] | x :: l => y ← read_item x; ys ← read_items l; mret (y :: ys) end.

Lemma write_items_run l d :
  Forall item_ok l → Z.of_nat (length (d ++ concat (item_bytes <$> l))) < 2 ^ 31 →
  write_items l d = (Return (), d ++ concat (item_bytes <$> l)).
Proof.
  revert d. induction l as [|x l IH]; intros d Hok Hlen; cbn in Hlen |- *.
  { unfold mret, ST_ret. by rewrite app_nil_r. }
  apply Forall_cons in Hok as [Hx Hok]. rewrite !length_app in Hlen.
  erewrite ST_bind_return by (apply writes_item; [done|lia]).
  rewrite IH, <- (assoc_L (++)); [done|done|]. rewrite !length_app. lia.
Qed.

Lemma reads_items l :
  Forall item_ok l → reads (read_items (shape_of <$> l)) (concat (item_bytes <$> l)) l.
Proof.
  induction 1 as [|x l Hx Hl IH]; cbn; [apply reads_ret|].
  eapply reads_bind; [by apply reads_item|]. by apply reads_map.
Qed.

(** C35: Reading a stream of fields (integers of all widths, field identifiers,
    bit strings, length prefixed blobs) in the order they were added gives back
    every value, consumes exactly the bytes that were added and leaves the
    iterator before whatever follows them. *)
Theorem stream_roundtrip (l : list item) (tail : list Z) :
  Forall item_ok l →
  Z.of_nat (length (concat (item_bytes <$> l)) + length tail) < 2 ^ 31 →
  ∃ bytes, write_items l [] = (Return (), bytes) ∧
    read_items (shape_of <$> l) (SerialIter_ctor (bytes ++ tail)) =
      (Return l, mkIter (bytes ++ tail) (Z.of_nat (length bytes))
                        (Z.of_nat (length tail)) (Z.of_nat (length bytes))).
Proof.
  intros Hok Hlen. exists (concat (item_bytes <$> l)). split.
  - apply write_items_run; [done|]. cbn. lia.
  - apply (reads_items l Hok [] tail). cbn. lia.
Qed.

Lemma stream_roundtrip_witness :
  ∃ bytes, write_items [FieldID 1 2; Int16 513; FieldID 17 255; Int64 (2 ^ 64 - 1); Blob (replicate 200 7)] []
           = (Return (), bytes) ∧
    read_items (shape_of <$> [FieldID 1 2; Int16 513; FieldID 17 255; Int64 (2 ^ 64 - 1); Blob (replicate 200 7)])
      (SerialIter_ctor (bytes ++ [1; 2; 3])) =
      (Return [FieldID 1 2; Int16 513; FieldID 17 255; Int64 (2 ^ 64 - 1); Blob (replicate 200 7)],
       mkIter (bytes ++ [1; 2; 3]) (Z.of_nat (length bytes)) 3 (Z.of_nat (length bytes))).
Proof.
  apply (stream_roundtrip _ [1; 2; 3]).
  - repeat constructor; cbn; lia.
  - vm_compute. reflexivity.
Defined.

(** ** Reads stay within the buffer *)

(** The buffer holds bytes, the pointer has advanced by the bytes used, and
    what remains is what the buffer holds after it. *)
Definition iter_ok (s : SerialIter) : Prop :=
  0 ≤ used_ s ∧ 0 ≤ remain_ s ∧ p_ s = used_ s ∧
  used_ s + remain_ s = Z.of_nat (length (buffer s)) ∧ used_ s + remain_ s < 2 ^ 63 ∧
  Forall is_byte (buffer s).

Lemma iter_ok_at pre rest :
  Forall is_byte (pre ++ rest) → Z.of_nat (length pre + length rest) < 2 ^ 63 → iter_ok (iter_at pre rest).
Proof. intros. unfold iter_ok. cbn. rewrite length_app. repeat split; done || lia. Qed.

(** An iterator either has fewer than [n] bytes left, or stands before [n] bytes. *)
Lemma iter_split n s :
  iter_ok s → 0 ≤ n →
  remain_ s < n ∨
  ∃ pre bs rest, s = iter_at pre (bs ++ rest) ∧ n = Z.of_nat (length bs) ∧
    Z.of_nat (length pre + length bs + length rest) < 2 ^ 63.
Proof.
  intros (Hu & Hr & Hp & Hsum & Hlt & Hb) Hn. destruct s as [d p r u]. cbn in *. subst p.
  destruct (Z.lt_ge_cases r n) as [|Hge]; [by left|right].
  exists (take (Z.to_nat u) d), (take (Z.to_nat n) (drop (Z.to_nat u) d)),
    (drop (Z.to_nat n) (drop (Z.to_nat u) d)).
  unfold iter_at. rewrite take_drop, take_drop, !length_take, !length_drop.
  repeat split; try f_equal; lia.
Qed.

Lemma throw_if_true {S A} (k : unit → ST S A) b what s :
  b = true → (throw_if b what ≫= k) s = (Throw what, s).
Proof. by intros ->. Qed.

(** A reader that checks for [n] bytes and then runs within them. *)
Lemma keeps_check {A} n what (k : SerialIter → ST SerialIter A) :
  0 ≤ n →
  (∀ pre bs rest, n = Z.of_nat (length bs) →
     Z.of_nat (length pre + length bs + length rest) < 2 ^ 63 →
     ∃ a, k (iter_at pre (bs ++ rest)) (iter_at pre (bs ++ rest)) =
          (Return a, iter_at (pre ++ bs) rest)) →
  keeps iter_ok (s ← sget; throw_if (remain_ s <? n) what;; k s).
Proof.
  intros Hn Hk s Hs. erewrite ST_bind_return by done.
  destruct (iter_split n s Hs Hn) as [Hlt|(pre & bs & rest & -> & Hbs & Hlen)].
  - rewrite throw_if_true by (by apply Z.ltb_lt). done.
  - rewrite throw_if_at by lia. destruct (Hk pre bs rest) as [a ->]; [done..|].
    cbn. split; [done|]. destruct Hs as (_ & _ & _ & _ & _ & Hb).
    apply iter_ok_at; [by rewrite <- (assoc_L (++))|]. rewrite length_app. lia.
Qed.

(** The body of a fixed width reader, on the bytes it checked for. *)
Ltac run_body :=
  let pre := fresh "pre" in let bs := fresh "bs" in let rest := fresh "rest" in
  let Hbs := fresh "Hbs" in
  apply keeps_check; [lia|]; intros pre bs rest Hbs ?;
  repeat (destruct bs as [|? bs]; cbn in Hbs; try lia); eexists; cbv zeta;
  erewrite ST_bind_return by (apply (advance_at _ pre _ rest); cbn in *; lia);
  load_steps; reflexivity.

Lemma keeps_get8 : keeps iter_ok get8.
Proof.
  apply keeps_check; [lia|]. intros pre bs rest Hbs Hlen.
  destruct bs as [|b [|]]; cbn in Hbs; [lia| |lia]. eexists.
  erewrite ST_bind_return by (by apply (load_at _ _ pre [b] rest)).
  erewrite ST_bind_return by (apply (advance_at 1 pre [b] rest); cbn in *; lia). done.
Qed.

Lemma keeps_get16 : keeps iter_ok get16.
Proof. run_body. Qed.

Lemma keeps_get32 : keeps iter_ok get32.
Proof. run_body. Qed.

Lemma keeps_get64 : keeps iter_ok get64.
Proof. run_body. Qed.

Lemma u64_negative n : - 2 ^ 31 ≤ n < 0 → u64 n = n + 2 ^ 64.
Proof. intros. unfold u64. rewrite <- (Z.mod_add _ 1), Z.mod_small; lia. Qed.

(** A negative [int] compared with a size is a huge number. *)
Lemma throws_negative {A} n what (k : SerialIter → ST SerialIter A) s :
  - 2 ^ 31 ≤ n < 0 → iter_ok s →
  (s ← sget; throw_if (remain_ s <? u64 n) what;; k s) s = (Throw what, s).
Proof.
  intros Hn (Hu & Hr & _ & _ & Hlt & _). erewrite ST_bind_return by done.
  apply throw_if_true. rewrite u64_negative by done. apply Z.ltb_lt. lia.
Qed.

Lemma keeps_skip n : - 2 ^ 31 ≤ n < 2 ^ 31 → keeps iter_ok (skip n).
Proof.
  intros Hn s Hs. destruct (Z.lt_ge_cases n 0) as [Hneg|Hpos].
  - unfold skip. by rewrite throws_negative by (done || lia).
  - revert s Hs. unfold skip. rewrite u64_id by lia.
    apply keeps_check; [done|]. intros pre bs rest Hbs Hlen. eexists. by apply advance_at.
Qed.

Lemma keeps_getBitString n : 0 ≤ n → keeps iter_ok (iter_getBitString n).
Proof.
  intros Hn. apply keeps_check; [done|]. intros pre bs rest Hbs Hlen. eexists. cbv zeta.
  erewrite ST_bind_return by (by apply advance_at).
  apply (load_n_at pre bs rest); [done|]. symmetry. apply (assoc_L (++)).
Qed.

Lemma keeps_getSlice n : 0 ≤ n → keeps iter_ok (getSlice n).
Proof.
  intros Hn. apply keeps_check; [done|]. intros pre bs rest Hbs Hlen. eexists.
  erewrite ST_bind_return by (by apply (load_n_at pre bs rest)).
  erewrite ST_bind_return by (by apply advance_at). done.
Qed.

Lemma keeps_getRaw n : - 2 ^ 31 ≤ n < 2 ^ 31 → keeps iter_ok (getRaw n).
Proof.
  intros Hn s Hs. destruct (Z.lt_ge_cases n 0) as [Hneg|Hpos].
  - unfold getRaw. by rewrite throws_negative by (done || lia).
  - revert s Hs. unfold getRaw. rewrite u64_id by lia.
    apply keeps_check; [done|]. intros pre bs rest Hbs Hlen. exists bs.
    pose proof (reads_getRaw bs ltac:(lia) pre rest Hlen) as H. unfold getRaw in H.
    erewrite ST_bind_return in H by done. rewrite u64_id, throw_if_at in H by lia.
    by rewrite Hbs.
Qed.

Lemma keeps_slift {A} (r : exc A) : defined r → keeps iter_ok (slift r).
Proof. by intros Hr s Hs. Qed.

Lemma keeps_getFieldID : keeps iter_ok getFieldID.
Proof.
  unfold getFieldID. repeat first [apply keeps_get8 | apply ST_keeps_throw_if | apply ST_keeps_ret
    | apply ST_keeps_bind; [|intros ?] | apply ST_keeps_if | progress cbv zeta].
Qed.

Lemma keeps_slift_bind {A B} (r : exc A) (k : A → ST SerialIter B) :
  defined r → (∀ a, r = Return a → keeps iter_ok (k a)) → keeps iter_ok (slift r ≫= k).
Proof. intros Hr Hk s Hs. destruct r as [a|e|e|]; [by apply Hk|done..]. Qed.

Lemma keeps_getVLDataLength : keeps iter_ok getVLDataLength.
Proof.
  unfold getVLDataLength. apply ST_keeps_bind; [apply keeps_get8|]. intros b1.
  unfold decodeLengthLength, decodeVLLength1, decodeVLLength2, decodeVLLength3.
  destruct (b1 <? 0), (b1 <=? 192), (b1 <=? 240), (b1 <=? 254);
    (apply keeps_slift_bind; [done|]; intros a [= <-]; cbn [Z.eqb Pos.eqb]);
    repeat (apply ST_keeps_bind; [apply keeps_get8 || apply (ST_keeps_ret iter_ok ())|]; intros ?);
    apply keeps_slift; by repeat case_match.
Qed.

(** What [get8] does at each position. *)
Lemma get8_run pre rest :
  Z.of_nat (length pre + length rest) < 2 ^ 63 →
  get8 (iter_at pre rest) =
    match rest with
    | [] => (Throw "invalid SerialIter get8", iter_at pre [])
    | b :: rest => (Return b, iter_at (pre ++ [b]) rest)
    end.
Proof.
  intros Hlen. destruct rest as [|b rest]; [done|]. apply (reads_get8 b). cbn in *. lia.
Qed.

(** A successful bind ran both parts. *)
Lemma ST_bind_inv {S A B} (m : ST S A) (k : A → ST S B) s b s' :
  (m ≫= k) s = (Return b, s') → ∃ a s1, m s = (Return a, s1) ∧ k a s1 = (Return b, s').
Proof. unfold mbind, ST_bind. destruct (m s) as [[a|e|e|] s1]; naive_solver. Qed.

Lemma get8_inv pre rest b s' :
  Z.of_nat (length pre + length rest) < 2 ^ 63 → get8 (iter_at pre rest) = (Return b, s') →
  ∃ rest', rest = b :: rest' ∧ s' = iter_at (pre ++ [b]) rest' ∧
    Z.of_nat (length (pre ++ [b]) + length rest') < 2 ^ 63.
Proof.
  intros Hlen H. rewrite get8_run in H by done. destruct rest as [|b' rest]; [done|].
  injection H as -> <-. exists rest. rewrite length_app. cbn in *. repeat split; lia.
Qed.

Ltac inv_get8 H b r :=
  let H8 := fresh "H8" in
  apply ST_bind_inv in H as (b & ? & H8 & H);
  apply get8_inv in H8 as (r & -> & -> & ?); [|done].

Lemma getVLDataLength_inv pre rest n s' :
  Z.of_nat (length pre + length rest) < 2 ^ 63 → Forall is_byte rest →
  getVLDataLength (iter_at pre rest) = (Return n, s') →
  ∃ bs rest', rest = bs ++ rest' ∧ s' = iter_at (pre ++ bs) rest' ∧
    0 ≤ n ≤ 929984 ∧ (n ≤ 918744 → bs = length_bytes n).
Proof.
  intros Hlen Hb H. unfold getVLDataLength in H. inv_get8 H b r0.
  apply ST_bind_inv in H as (l & s1 & Hl & H). injection Hl as Hl <-.
  unfold decodeLengthLength in Hl. apply Forall_cons in Hb as [Hb1 Hb]. unfold is_byte in *.
  repeat (case_match; [|]); reflect_bools; try discriminate; injection Hl as <-; cbn in H;
    try discriminate.
  - unfold decodeVLLength1 in H. repeat (case_match; reflect_bools; try lia).
    injection H as <- <-. exists [b], r0. repeat split; try lia.
    intros _. unfold length_bytes. by rewrite (proj2 (Z.leb_le _ _)) by lia.
  - inv_get8 H b2 r1. apply Forall_cons in Hb as [Hb2 Hb].
    unfold decodeVLLength2 in H. repeat (case_match; reflect_bools; try lia).
    injection H as <- <-. exists [b; b2], r1. rewrite <- (assoc_L (++)).
    repeat split; try lia. intros _. unfold length_bytes.
    rewrite (proj2 (Z.leb_gt _ _)), (proj2 (Z.leb_le _ _)) by lia. f_equal; [|f_equal]; euclid.
  - apply ST_bind_inv in H as (? & s2 & Ha & H). injection Ha as _ <-.
    inv_get8 H b2 r1. inv_get8 H b3 r2. apply Forall_cons in Hb as [Hb2 [Hb3 Hb]%Forall_cons].
    unfold decodeVLLength3 in H. repeat (case_match; reflect_bools; try lia).
    injection H as <- <-. exists [b; b2; b3], r2. rewrite <- !(assoc_L (++)).
    repeat split; try lia. intros Hmax. unfold length_bytes.
    rewrite !(proj2 (Z.leb_gt _ _)) by lia.
    f_equal; [euclid|]. f_equal; [|f_equal; euclid]. euclid.
Qed.

(** A half of a field identifier: the nibble, or the next byte if it is zero. *)
Lemma uncommon_inv v what pre rest t s' :
  0 ≤ v < 16 → Z.of_nat (length pre + length rest) < 2 ^ 63 → Forall is_byte rest →
  (if v =? 0 then x ← get8; throw_if (x <? 16) what;; mret x else mret v) (iter_at pre rest) =
    (Return t, s') →
  0 < t < 256 ∧ ∃ bs rest', rest = bs ++ rest' ∧ s' = iter_at (pre ++ bs) rest' ∧
    Z.of_nat (length (pre ++ bs) + length rest') < 2 ^ 63 ∧ Forall is_byte rest' ∧
    (v, bs) = if t <? 16 then (t, []) else (0, [t]).
Proof.
  intros Hv Hlen Hb H. destruct (Z.eqb_spec v 0) as [->|Hv0].
  - inv_get8 H b r. apply ST_bind_inv in H as ([] & ? & Ht & H).
    apply Forall_cons in Hb as [Hb1 Hb]. unfold is_byte in Hb1.
    unfold throw_if in Ht. destruct (Z.ltb_spec b 16) as [|Hge]; [done|].
    injection Ht as <-. injection H as <- <-. split; [lia|].
    exists [b], r. rewrite (proj2 (Z.ltb_ge b 16)) by lia. done.
  - injection H as <- <-. split; [lia|]. exists [], rest.
    rewrite (proj2 (Z.ltb_lt v 16)), app_nil_r by lia. done.
Qed.

Lemma getFieldID_inv pre rest type name s' :
  Z.of_nat (length pre + length rest) < 2 ^ 63 → Forall is_byte rest →
  getFieldID (iter_at pre rest) = (Return (type, name), s') →
  field_ok type name ∧
  ∃ rest', rest = field_bytes type name ++ rest' ∧
    s' = iter_at (pre ++ field_bytes type name) rest'.
Proof.
  intros Hlen Hb H. unfold getFieldID in H. inv_get8 H b r0. apply Forall_cons in Hb as [Hb1 Hb].
  unfold is_byte in Hb1. cbv zeta in H.
  assert (Hsplit : b = 16 * Z.shiftr b 4 + Z.land b 15).
  { change 15 with (Z.ones 4). rewrite Z.land_ones, Z.shiftr_div_pow2 by lia. euclid. }
  assert (Hhi : 0 ≤ Z.shiftr b 4 < 16) by (rewrite Z.shiftr_div_pow2 by lia; euclid).
  assert (Hlo : 0 ≤ Z.land b 15 < 16).
  { change 15 with (Z.ones 4). rewrite Z.land_ones by lia. apply Z.mod_pos_bound. lia. }
  apply ST_bind_inv in H as (t & s1 & Ht & H).
  apply uncommon_inv in Ht as (Ht & bs1 & r1 & -> & -> & Hlen1 & Hb' & Heq1); [|done..].
  apply ST_bind_inv in H as (nm & s2 & Hn & H).
  apply uncommon_inv in Hn as (Hn & bs2 & r2 & -> & -> & Hlen2 & _ & Heq2); [|done..].
  injection H as <- <- <-. split; [done|]. exists r2.
  unfold field_bytes. rewrite Hsplit.
  destruct (t <? 16), (nm <? 16); injection Heq1 as -> ->; injection Heq2 as -> ->;
    rewrite <- !(assoc_L (++)), ?Z.add_0_r; done.
Qed.

(** The length and field identifier readers accept only what the writers
    produce.  A successful [getFieldID] has consumed exactly the bytes that
    [addFieldID] writes for its result; a successful [getVLDataLength] has
    consumed exactly the bytes [addEncoded] writes, as long as the length is one
    [addEncoded] accepts.  Lengths from 918745 to 929984 are read although the
    writer refuses them. *)
Theorem decoders_canonical (pre rest d : list Z) :
  Z.of_nat (length pre + length rest) < 2 ^ 63 → Forall is_byte rest →
  Z.of_nat (length d) < 2 ^ 31 →
  (∀ type name s', getFieldID (iter_at pre rest) = (Return (type, name), s') →
     ∃ bs rest', rest = bs ++ rest' ∧ s' = iter_at (pre ++ bs) rest' ∧
       addFieldID type name d = (Return (Z.of_nat (length d)), d ++ bs)) ∧
  (∀ n s', getVLDataLength (iter_at pre rest) = (Return n, s') →
     ∃ bs rest', rest = bs ++ rest' ∧ s' = iter_at (pre ++ bs) rest' ∧
       if n <=? 918744 then addEncoded n d = (Return (Z.of_nat (length d)), d ++ bs)
       else n ≤ 929984 ∧ addEncoded n d = (Throw "lenlen", d)).
Proof.
  intros Hlen Hb Hd. split.
  - intros type name s' H. apply getFieldID_inv in H as (Hok & r & -> & ->); [|done..].
    eexists _, r. split_and!; [done..|]. by apply writes_addFieldID.
  - intros n s' H. apply getVLDataLength_inv in H as (bs & r & -> & -> & Hn & Hbs); [|done..].
    exists bs, r. split_and!; [done..|].
    destruct (Z.leb_spec n 918744) as [Hle|Hgt].
    + rewrite Hbs by done. apply writes_addEncoded; [lia|done].
    + split; [lia|]. apply addEncoded_throws. lia.
Qed.

Lemma decoders_canonical_witness :
  (∃ s', getFieldID (iter_at [9] [18; 0; 7]) = (Return (1, 2), s')) ∧
  (∃ s', getVLDataLength (iter_at [9] [254; 255; 255]) = (Return 929984, s')) ∧
  ∃ bs rest', [18; 0; 7] = bs ++ rest' ∧ addFieldID 1 2 [] = (Return 0, [] ++ bs).
Proof.
  split; [by eexists|]. split; [by eexists|].
  destruct (decoders_canonical [9] [18; 0; 7] []) as [H _].
  - cbn. lia.
  - repeat constructor; lia.
  - cbn. lia.
  - destruct (H 1 2 _ eq_refl) as (bs & rest' & H1 & H2 & H3). exists bs, rest'. by split.
Defined.

(** Every reading operation of an iterator, with the arguments of its C++ type. *)
Inductive read_op :=
  | Skip (n : Z) | Get8 | Get16 | Get32 | Get64 | GetBits (bytes : Z) | GetFieldID
  | GetRaw (n : Z) | GetSlice (n : Z) | GetVLLength | GetVL | Reset.

Definition op_ok (o : read_op) : Prop :=
  match o with
  | Skip n | GetRaw n => - 2 ^ 31 ≤ n < 2 ^ 31
  | GetSlice n | GetBits n => 0 ≤ n < 2 ^ 64
  | _ => True
  end.

Definition run_op (o : read_op) : ST SerialIter unit :=
  match o with
  | Skip n => skip n
  | Get8 => _ ← get8; mret ()
  | Get16 => _ ← get16; mret ()
  | Get32 => _ ← get32; mret ()
  | Get64 => _ ← get64; mret ()
  | GetBits n => _ ← iter_getBitString n; mret ()
  | GetFieldID => _ ← getFieldID; mret ()
  | GetRaw n => _ ← getRaw n; mret ()
  | GetSlice n => _ ← getSlice n; mret ()
  | GetVLLength => _ ← getVLDataLength; mret ()
  | GetVL => _ ← getVL; mret ()
  | Reset => smodify reset
  end.

(** Run the operations in order; a caller that catches an exception goes on
    with the next one. *)
Fixpoint run_ops (l : list read_op) (s : SerialIter) : bool * SerialIter :=
  match l with
  | [] => (true, s)
  | o :: l =>
    match run_op o s with
    | (Return _, s') | (Throw _, s') => run_ops l s'
    | (Abort _, s') | (NoFuel, s') => (false, s')
    end
  end.

Lemma iter_ok_form s :
  iter_ok s → ∃ pre rest, s = iter_at pre rest ∧ Forall is_byte (pre ++ rest) ∧
    Z.of_nat (length pre + length rest) < 2 ^ 63.
Proof.
  intros Hs. destruct (iter_split 0 s Hs) as [Hr|(pre & bs & rest & -> & H0 & Hlen)]; [done| |].
  { destruct Hs as (_ & ? & _). lia. }
  destruct bs; [|cbn in H0; lia]. exists pre, rest. split; [done|].
  destruct Hs as (_ & _ & _ & _ & _ & Hb). split; [done|]. cbn in Hlen. lia.
Qed.

Lemma keeps_getVL : keeps iter_ok getVL.
Proof.
  intros s Hs. unfold getVL, mbind, ST_bind.
  pose proof (keeps_getVLDataLength s Hs) as [Hd Hi].
  destruct (getVLDataLength s) as [[n|e|e|] s'] eqn:Heq; [|done..].
  apply keeps_getRaw; [|done].
  destruct (iter_ok_form s Hs) as (pre & rest & -> & [_ Hb]%Forall_app & Hlen).
  apply getVLDataLength_inv in Heq as (_ & _ & _ & _ & ? & _); [lia|done..].
Qed.

Lemma keeps_reset : keeps iter_ok (smodify reset).
Proof.
  intros s (Hu & Hr & Hp & Hsum & Hlt & Hb). unfold smodify, reset. cbn. split; [done|].
  unfold iter_ok. cbn. rewrite u64_id by lia. repeat split; done || lia.
Qed.

Lemma keeps_run_op o : op_ok o → keeps iter_ok (run_op o).
Proof.
  destruct o; cbn; intros Hok; [by apply keeps_skip| | | | | | | | | | |apply keeps_reset];
    apply ST_keeps_bind; try (intros ?; apply ST_keeps_ret);
    auto using keeps_get8, keeps_get16, keeps_get32, keeps_get64, keeps_getFieldID,
      keeps_getVLDataLength, keeps_getVL, keeps_getRaw.
  - apply keeps_getBitString. lia.
  - apply keeps_getSlice. lia.
Qed.

(** C36: Whatever bytes a peer sends and in whatever order the reading operations
    are called, with any arguments of their types and with exceptions caught
    between them, no operation reads outside the buffer or fails an assertion,
    and the iterator's pointer, used and remaining counts stay consistent. *)
Theorem reads_in_bounds (data : list Z) (ops : list read_op) :
  Forall is_byte data → Z.of_nat (length data) < 2 ^ 63 → Forall op_ok ops →
  (run_ops ops (SerialIter_ctor data)).1 = true ∧
  iter_ok (run_ops ops (SerialIter_ctor data)).2.
Proof.
  intros Hb Hlen Hops.
  assert (Hs : iter_ok (SerialIter_ctor data)) by (apply (iter_ok_at [] data); [done|cbn; lia]).
  revert Hs. generalize (SerialIter_ctor data).
  induction Hops as [|o ops Ho Hops IH]; intros s Hs; [done|]. cbn [run_ops].
  destruct (keeps_run_op o Ho s Hs) as [Hd Hi].
  destruct (run_op o s) as [[u|e|e|] s']; [by apply IH..|done|done].
Qed.

Lemma reads_in_bounds_witness :
  (run_ops [Get8; GetRaw (-5); GetVL; Get64; Reset; GetFieldID] (SerialIter_ctor [3; 2; 0; 1])).1 = true ∧
  iter_ok (run_ops [Get8; GetRaw (-5); GetVL; Get64; Reset; GetFieldID] (SerialIter_ctor [3; 2; 0; 1])).2.
Proof.
  apply reads_in_bounds.
  - repeat constructor; lia.
  - cbn. lia.
  - repeat constructor; lia.
Defined.
