(* ===== verification/Base58.v ===== *)
(** * Base58 tokens ([protocol/impl/tokens.cpp])

    Account identifiers, keys and seeds are printed in base 58 with a type byte
    and a checksum.  Strings are lists of character codes between 0 and 255;
    [char] is signed, so that indexing a table with a code above 127 is out of
    range.  The SHA-256 digest of [protocol/digest.h] is computed by a
    cryptography library: it is the parameter [sha256]. *)
From S2P Require Import Prelude Outcome.

(** The text of a string literal as character codes. *)
Definition codes (s : string) : list Z :=
  (λ a, Z.of_nat (Ascii.nat_of_ascii a)) <$> String.list_ascii_of_string s.

Definition alphabetForward : list Z :=
  Eval vm_compute in codes "rpshnaf39wBUDNEGHJKLM4PQRST7VWXYZ2bcdeCg65jkm8oFqi1tuvAxyz".

(** The loop over the alphabet that fills a table of -1. *)
Fixpoint fill_reverse (alphabet : list Z) (j : Z) (map : list Z) : list Z :=
  match alphabet with
  | [] => map
  | c :: alphabet => fill_reverse alphabet (j + 1) (<[Z.to_nat c := j]> map)
  end.

Definition alphabetReverse : list Z :=
  Eval vm_compute in fill_reverse alphabetForward 0 (replicate 256 (-1)).

(** [alphabetReverse[*psz]] where [*psz] is a signed [char]. *)
Definition reverse_at (c : Z) : exc Z :=
  if c <? 128 then
    match alphabetReverse !! Z.to_nat c with Some v => Return v | None => Abort "index" end
  else Abort "index".

Definition forward_at (d : Z) : exc Z :=
  match alphabetForward !! Z.to_nat d with Some v => Return v | None => Abort "index" end.

(** The carry loop shared by both directions, over the digits from the last to
    the first: the big endian number in base [m] is multiplied by [k] and
    [carry] is added. *)
Fixpoint mul_add (k m carry : Z) (digits : list Z) : list Z * Z :=
  match digits with
  | [] => ([], carry)
  | d :: digits =>
    let '(digits, carry) := mul_add k m carry digits in
    let carry := carry + k * d in
    (Z.rem carry m :: digits, Z.quot carry m)
  end.

(** Skip and count leading zeroes. *)
Fixpoint skip_zeroes (l : list Z) : nat * list Z :=
  match l with
  | d :: l' => if d =? 0 then let '(n, r) := skip_zeroes l' in (S n, r) else (O, l)
  | [] => (O, [])
  end.

(** [b58 = b58 * 256 + ch] for every byte of the message. *)
Fixpoint encode_loop (message b58 : list Z) : exc (list Z) :=
  match message with
  | [] => Return b58
  | ch :: message =>
    let '(b58, carry) := mul_add 256 58 ch b58 in
    if carry =? 0 then encode_loop message b58 else Abort "carry == 0"
  end.

Definition encodeBase58 (message : list Z) (temp_size : nat) : exc (list Z) :=
  let '(zeroes, rest) := skip_zeroes message in
  b58 ← encode_loop rest (replicate temp_size 0);
  zero ← forward_at 0;
  str ← mapM forward_at (skip_zeroes b58).2;
  Return (replicate zeroes zero ++ str).

(** Skip and count the characters that stand for zero. *)
Fixpoint skip_zero_chars (s : list Z) : exc (nat * list Z) :=
  match s with
  | [] => Return (O, [])
  | c :: s' =>
    v ← reverse_at c;
    if v =? 0 then
      nr ← skip_zero_chars s';
      Return (S (fst nr), snd nr)
    else Return (O, s)
  end.

(** [b256 = b256 * 58 + carry] for every character; [None] is the early return
    of an empty string. *)
Fixpoint decode_loop (s b256 : list Z) : exc (option (list Z)) :=
  match s with
  | [] => Return (Some b256)
  | c :: s =>
    carry ← reverse_at c;
    if carry =? -1 then Return None
    else
      let '(b256, carry) := mul_add 58 256 carry b256 in
      if carry =? 0 then decode_loop s b256 else Abort "carry == 0"
  end.

Definition decodeBase58 (s : list Z) : exc (list Z) :=
  zr ← skip_zero_chars s;
  let '(zeroes, psz) := (zr : nat * list Z) in
  let remain := length psz in
  if (64 <? remain)%nat then Return []
  else
    b ← decode_loop psz (replicate (remain * 733 / 1000 + 1)%nat 0);
    match b with
    | None => Return []
    | Some b256 => Return (replicate zeroes 0 ++ (skip_zeroes b256).2)
    end.

(** ** Tokens *)

Abbreviation TokenType := Z.
Definition AccountID : TokenType := 0.
Definition NodePublic : TokenType := 28.
Definition NodePrivate : TokenType := 32.
Definition FamilySeed : TokenType := 33.
Definition AccountSecret : TokenType := 34.
Definition AccountPublic : TokenType := 35.

Section tokens.
Context (sha256 : list Z → list Z).

Definition digest2 (message : list Z) : list Z := sha256 (sha256 message).

Definition checksum (message : list Z) : list Z := take 4 (digest2 message).

Definition encodeBase58Token (type : TokenType) (token : list Z) : exc (list Z) :=
  let expanded := (1 + length token + 4)%nat in
  let bufsize := (expanded * 3)%nat in
  let data := type :: token in
  encodeBase58 (data ++ checksum data) (bufsize - expanded).

Definition decodeBase58Token (s : list Z) (type : TokenType) : exc (list Z) :=
  ret ← decodeBase58 s;
  if (length ret <? 6)%nat then Return []
  else
    match ret with
    | [] => Return []
    | t :: _ =>
      if negb (type =? t) then Return []
      else
        let guard := checksum (take (length ret - 4) ret) in
        if negb (bool_decide (guard = drop (length ret - 4) ret)) then Return []
        else Return (take (length ret - 1 - 4) (drop 1 ret))
    end.
End tokens.
