(* ===== verification/Base58Spec.v ===== *)
(** * Base58 tokens: round trip, uniqueness, rejection

    The digit loops compute the same number in another base, buffers are large
    enough for every carry to vanish, and digits without leading zeroes
    determine the number. *)
From S2P Require Import Prelude Outcome Base58.

Definition digits_ok (m : Z) (l : list Z) : Prop := Forall (λ d, 0 ≤ d < m) l.

(** The number a big endian list of digits stands for. *)
Fixpoint num (m : Z) (l : list Z) : Z :=
  match l with [] => 0 | d :: l => d * m ^ Z.of_nat (length l) + num m l end.

Lemma num_bound m l : 0 < m → digits_ok m l → 0 ≤ num m l < m ^ Z.of_nat (length l).
Proof.
  intros Hm. induction 1 as [|d l Hd Hl IH]; cbn [num length]; [lia|].
  rewrite Nat2Z.inj_succ, Z.pow_succ_r by lia. nia.
Qed.

Lemma num_app m l k : num m (l ++ k) = num m l * m ^ Z.of_nat (length k) + num m k.
Proof.
  induction l as [|d l IH]; cbn [num app]; [lia|].
  rewrite IH, length_app, Nat2Z.inj_add, Z.pow_add_r by lia. lia.
Qed.

Lemma num_zeroes m n : num m (replicate n 0) = 0.
Proof. induction n; cbn [num replicate]; lia. Qed.

Lemma mul_add_spec k m carry l l' c :
  0 < m → 0 ≤ k → 0 ≤ carry → digits_ok m l → mul_add k m carry l = (l', c) →
  length l' = length l ∧ digits_ok m l' ∧ 0 ≤ c ∧
  num m l' + c * m ^ Z.of_nat (length l) = k * num m l + carry.
Proof.
  intros Hm Hk Hc Hl. revert l' c. induction Hl as [|d l Hd Hl IH]; intros l' c; cbn [mul_add].
  { intros [= <- <-]. cbn. repeat split; [constructor|lia..]. }
  destruct (mul_add k m carry l) as [l1 c1] eqn:Heq. intros [= <- <-].
  destruct (IH _ _ eq_refl) as (Hlen & Hok & Hc1 & Hnum).
  assert (Hnn : 0 ≤ c1 + k * d) by nia.
  rewrite Z.rem_mod_nonneg, Z.quot_div_nonneg by lia.
  pose proof (Z.mod_pos_bound (c1 + k * d) m Hm).
  cbn [length num]. repeat split; [lia|by constructor|by apply Z.div_pos|].
  rewrite Hlen, Nat2Z.inj_succ, Z.pow_succ_r by lia.
  pose proof (Z.div_mod (c1 + k * d) m ltac:(lia)). nia.
Qed.

(** The final carry vanishes when the result fits. *)
Lemma mul_add_fits k m carry l :
  0 < m → 0 ≤ k → 0 ≤ carry → digits_ok m l →
  k * num m l + carry < m ^ Z.of_nat (length l) →
  ∃ l', mul_add k m carry l = (l', 0) ∧ length l' = length l ∧ digits_ok m l' ∧
    num m l' = k * num m l + carry.
Proof.
  intros Hm Hk Hc Hl Hfit. destruct (mul_add k m carry l) as [l' c] eqn:Heq.
  destruct (mul_add_spec _ _ _ _ _ _ Hm Hk Hc Hl Heq) as (Hlen & Hok & Hc0 & Hnum).
  pose proof (num_bound m l' Hm Hok). assert (c = 0) as -> by nia.
  exists l'. repeat split; [done..|lia].
Qed.

(** ** Leading zeroes *)

Definition no_lead (l : list Z) : Prop := head l ≠ Some 0.

Lemma skip_zeroes_spec l :
  l = replicate (skip_zeroes l).1 0 ++ (skip_zeroes l).2 ∧ no_lead (skip_zeroes l).2.
Proof.
  induction l as [|d l [IH1 IH2]]; cbn [skip_zeroes]; [done|].
  destruct (Z.eqb_spec d 0) as [->|Hd].
  - destruct (skip_zeroes l) as [n r]. cbn in *. split; [by f_equal|done].
  - split; [done|]. by intros [= ].
Qed.

Lemma skip_zeroes_app n r : no_lead r → skip_zeroes (replicate n 0 ++ r) = (n, r).
Proof.
  intros Hr. induction n as [|n IH]; cbn.
  - destruct r as [|d r]; [done|]. cbn. destruct (Z.eqb_spec d 0) as [->|]; done.
  - by rewrite IH.
Qed.

Lemma skip_zeroes_num m l : num m (skip_zeroes l).2 = num m l.
Proof.
  destruct (skip_zeroes_spec l) as [Heq _]. rewrite Heq at 2.
  rewrite num_app, num_zeroes. lia.
Qed.

Lemma skip_zeroes_digits m l : digits_ok m l → digits_ok m (skip_zeroes l).2.
Proof.
  intros H. destruct (skip_zeroes_spec l) as [Heq _]. rewrite Heq in H.
  by apply Forall_app in H as [_ H].
Qed.

(** Without leading zeroes the number determines the number of digits... *)
Lemma num_lower m l :
  0 < m → digits_ok m l → no_lead l → l ≠ [] → m ^ (Z.of_nat (length l) - 1) ≤ num m l.
Proof.
  intros Hm Hl Hlead Hne. destruct l as [|d l]; [done|].
  apply Forall_cons in Hl as [Hd Hl]. cbn [length num].
  replace (Z.of_nat (S (length l)) - 1) with (Z.of_nat (length l)) by lia.
  pose proof (num_bound m l Hm Hl). assert (d ≠ 0) by (intros ->; by apply Hlead).
  nia.
Qed.

Lemma num_length m l k :
  1 < m → digits_ok m l → no_lead l → num m l < m ^ Z.of_nat k → (length l ≤ k)%nat.
Proof.
  intros Hm Hl Hlead Hlt. destruct (decide (l = [])) as [->|Hne]; [cbn; lia|].
  pose proof (num_lower m l ltac:(lia) Hl Hlead Hne) as Hlow.
  destruct (Nat.le_gt_cases (length l) k) as [|Hgt]; [done|exfalso].
  assert (m ^ Z.of_nat k ≤ m ^ (Z.of_nat (length l) - 1)) by (apply Z.pow_le_mono_r; lia). lia.
Qed.

(** ... and, for a given number of digits, the digits. *)
Lemma num_inj_length m l1 l2 :
  0 < m → digits_ok m l1 → digits_ok m l2 → length l1 = length l2 → num m l1 = num m l2 → l1 = l2.
Proof.
  intros Hm H1. revert l2. induction H1 as [|d1 l1 Hd1 Hl1 IH]; intros [|d2 l2]; try done.
  intros [Hd2 Hl2]%Forall_cons [= Hlen] Hnum. cbn [num] in Hnum. rewrite <- Hlen in Hnum.
  pose proof (num_bound m l1 Hm Hl1). pose proof (num_bound m l2 Hm Hl2) as Hb.
  rewrite <- Hlen in Hb.
  assert (d1 = d2) as -> by nia. f_equal. apply IH; [done..|lia].
Qed.

Lemma num_inj m l1 l2 :
  1 < m → digits_ok m l1 → digits_ok m l2 → no_lead l1 → no_lead l2 → num m l1 = num m l2 → l1 = l2.
Proof.
  intros Hm H1 H2 Hl1 Hl2 Hnum. apply (num_inj_length m); [lia|done..| |done].
  pose proof (num_bound m l1 ltac:(lia) H1). pose proof (num_bound m l2 ltac:(lia) H2).
  apply Nat.le_antisymm; apply (num_length m); done || lia.
Qed.

(** ** The two tables *)

Definition tables_agree : bool :=
  forallb (λ d, match forward_at d with
                | Return c => match reverse_at c with Return d' => (d' =? d) && (0 <=? c) && (c <? 128) | _ => false end
                | _ => false end) (seqZ 0 58) &&
  forallb (λ c, match reverse_at c with
                | Return d => (d =? -1) || (0 <=? d) && (d <? 58) &&
                    match forward_at d with Return c' => c' =? c | _ => false end
                | _ => false end) (seqZ 0 128).

Lemma tables_ok : tables_agree = true.
Proof. vm_compute. reflexivity. Qed.

Lemma forward_reverse d :
  0 ≤ d < 58 → ∃ c, forward_at d = Return c ∧ reverse_at c = Return d ∧ 0 ≤ c < 128.
Proof.
  intros Hd. pose proof tables_ok as H. apply andb_prop in H as [H _].
  rewrite forallb_forall in H. specialize (H d).
  rewrite <- list_elem_of_In, elem_of_seqZ in H. specialize (H ltac:(lia)). cbv beta in H.
  destruct (forward_at d) as [c|? |? |] eqn:Hf; [|done..].
  destruct (reverse_at c) as [d'|? |? |] eqn:Hr; [|done..]. exists c.
  apply andb_prop in H as [[->%Z.eqb_eq H1%Z.leb_le]%andb_prop H2%Z.ltb_lt]. done.
Qed.

Lemma reverse_forward c d :
  0 ≤ c → reverse_at c = Return d → d ≠ -1 → 0 ≤ d < 58 ∧ forward_at d = Return c.
Proof.
  intros Hc Hr Hd. assert (Hlt : c < 128).
  { unfold reverse_at in Hr. by destruct (Z.ltb_spec c 128). }
  pose proof tables_ok as H. apply andb_prop in H as [_ H].
  rewrite forallb_forall in H. specialize (H c).
  rewrite <- list_elem_of_In, elem_of_seqZ in H. specialize (H ltac:(lia)). cbv beta in H.
  rewrite Hr in H. apply orb_prop in H as [H|H]; [by apply Z.eqb_eq in H|].
  destruct (forward_at d) as [c'| | |]; [|by rewrite andb_false_r in H..].
  apply andb_prop in H as [[H1%Z.leb_le H2%Z.ltb_lt]%andb_prop ->%Z.eqb_eq]. done.
Qed.

Lemma reverse_defined c : 0 ≤ c < 128 → ∃ d, reverse_at c = Return d.
Proof.
  intros Hc. unfold reverse_at. rewrite (proj2 (Z.ltb_lt _ _)) by lia.
  destruct (lookup_lt_is_Some_2 alphabetReverse (Z.to_nat c)) as [d ->]; [|eauto].
  change (length alphabetReverse) with 256%nat. lia.
Qed.

(** ** The two loops *)

Lemma encode_loop_num msg b58 :
  digits_ok 256 msg → digits_ok 58 b58 →
  num 58 b58 * 256 ^ Z.of_nat (length msg) + num 256 msg < 58 ^ Z.of_nat (length b58) →
  ∃ b, encode_loop msg b58 = Return b ∧ length b = length b58 ∧ digits_ok 58 b ∧
    num 58 b = num 58 b58 * 256 ^ Z.of_nat (length msg) + num 256 msg.
Proof.
  intros Hmsg. revert b58. induction Hmsg as [|ch msg Hch Hmsg IH]; intros b58 Hb Hfit.
  { exists b58. cbn [num length]. repeat split; [done|lia]. }
  cbn [length num] in *. rewrite Nat2Z.inj_succ, Z.pow_succ_r in * by lia.
  pose proof (num_bound 256 msg ltac:(lia) Hmsg) as Hm.
  pose proof (num_bound 58 b58 ltac:(lia) Hb) as Hb0.
  destruct (mul_add_fits 256 58 ch b58) as (b1 & Heq & Hlen1 & Hok1 & Hnum1); [lia..|done| |].
  { assert (0 < 256 ^ Z.of_nat (length msg)) by (apply Z.pow_pos_nonneg; lia). nia. }
  cbn [encode_loop]. rewrite Heq. cbn [Z.eqb].
  destruct (IH b1 Hok1) as (b & Hb1 & Hlen & Hok & Hnum); [rewrite Hnum1, Hlen1; lia|].
  exists b. repeat split; [done|congruence|done|]. rewrite Hnum, Hnum1. lia.
Qed.

Lemma decode_loop_num s ds b256 :
  Forall2 (λ c d, reverse_at c = Return d) s ds → digits_ok 58 ds → digits_ok 256 b256 →
  num 256 b256 * 58 ^ Z.of_nat (length ds) + num 58 ds < 256 ^ Z.of_nat (length b256) →
  ∃ b, decode_loop s b256 = Return (Some b) ∧ digits_ok 256 b ∧
    num 256 b = num 256 b256 * 58 ^ Z.of_nat (length ds) + num 58 ds.
Proof.
  intros Hs. revert b256. induction Hs as [|c d s ds Hc Hs IH]; intros b256 Hds Hb Hfit.
  { exists b256. cbn [num length]. repeat split; [done|lia]. }
  apply Forall_cons in Hds as [Hd Hds].
  cbn [length num] in *. rewrite Nat2Z.inj_succ, Z.pow_succ_r in * by lia.
  pose proof (num_bound 58 ds ltac:(lia) Hds) as Hm.
  pose proof (num_bound 256 b256 ltac:(lia) Hb) as Hb0.
  destruct (mul_add_fits 58 256 d b256) as (b1 & Heq & Hlen1 & Hok1 & Hnum1); [lia..|done| |].
  { assert (0 < 58 ^ Z.of_nat (length ds)) by (apply Z.pow_pos_nonneg; lia). nia. }
  cbn [decode_loop]. rewrite Hc. cbn [mbind exc_bind].
  rewrite (proj2 (Z.eqb_neq d (-1))), Heq by lia. cbn [Z.eqb].
  destruct (IH b1 Hds Hok1) as (b & Hb1 & Hok & Hnum); [rewrite Hnum1, Hlen1; lia|].
  exists b. repeat split; [done..|]. rewrite Hnum, Hnum1. lia.
Qed.

(** The buffer of the decoder is large enough: [log 58 / log 256 < 733 / 1000]. *)
Lemma decode_capacity r :
  (r ≤ 64)%nat → 58 ^ Z.of_nat r ≤ 256 ^ Z.of_nat (r * 733 / 1000 + 1).
Proof.
  intros Hr.
  assert (H : forallb (λ r, 58 ^ Z.of_nat r <=? 256 ^ Z.of_nat (r * 733 / 1000 + 1)) (seq 0 65) = true)
    by (vm_compute; reflexivity).
  rewrite forallb_forall in H. specialize (H r). apply Z.leb_le, H, in_seq. lia.
Qed.

(** Two characters per byte are enough for the encoder. *)
Lemma encode_capacity n k : (2 * n ≤ k)%nat → 256 ^ Z.of_nat n ≤ 58 ^ Z.of_nat k.
Proof.
  intros Hk. transitivity (58 ^ (2 * Z.of_nat n)); [|apply Z.pow_le_mono_r; lia].
  rewrite Z.pow_mul_r by lia. apply Z.pow_le_mono_l. lia.
Qed.

Lemma mapM_forward ds :
  digits_ok 58 ds →
  ∃ s, mapM forward_at ds = Return s ∧ Forall2 (λ c d, reverse_at c = Return d) s ds ∧
    Forall (λ c, 0 ≤ c < 128) s.
Proof.
  induction 1 as [|d ds Hd Hds (s & IH & Hs & Hc)]; [by exists []|].
  destruct (forward_reverse d Hd) as (c & Hf & Hr & Hcr). exists (c :: s).
  cbn. rewrite Hf. cbn. rewrite IH. repeat constructor; done || lia.
Qed.

(** The characters that stand for zero, and the rest. *)
Lemma skip_zero_chars_app n s ds :
  Forall2 (λ c d, reverse_at c = Return d) s ds → no_lead ds →
  skip_zero_chars (replicate n 114 ++ s) = Return (n, s).
Proof.
  intros Hs Hlead. induction n as [|n IH].
  - destruct Hs as [|c d s ds Hc Hs]; [done|]. cbn. rewrite Hc. cbn.
    destruct (Z.eqb_spec d 0) as [->|]; [|done]. by destruct Hlead.
  - cbn [replicate app skip_zero_chars]. change (reverse_at 114) with (Return 0).
    cbn [mbind exc_bind Z.eqb]. by rewrite IH.
Qed.

(** ** Encoding and decoding *)

Lemma encodeBase58_spec msg k :
  digits_ok 256 msg → (2 * length msg ≤ k)%nat →
  ∃ zeroes rest s ds,
    msg = replicate zeroes 0 ++ rest ∧ no_lead rest ∧
    encodeBase58 msg k = Return (replicate zeroes 114 ++ s) ∧
    Forall2 (λ c d, reverse_at c = Return d) s ds ∧ Forall (λ c, 0 ≤ c < 128) s ∧
    digits_ok 58 ds ∧ no_lead ds ∧ num 58 ds = num 256 rest.
Proof.
  intros Hmsg Hk. destruct (skip_zeroes_spec msg) as [Hsplit Hlead].
  pose proof (skip_zeroes_digits 256 msg Hmsg) as Hrest.
  unfold encodeBase58. destruct (skip_zeroes msg) as [z rest]. cbn [fst snd] in *.
  assert (Hlen : (length rest ≤ length msg)%nat) by (rewrite Hsplit, length_app; lia).
  destruct (encode_loop_num rest (replicate k 0)) as (b & Hb & _ & Hok & Hnum); [done| | |].
  - apply Forall_replicate. lia.
  - rewrite num_zeroes, length_replicate, Z.mul_0_l, Z.add_0_l.
    pose proof (num_bound 256 rest ltac:(lia) Hrest).
    pose proof (encode_capacity (length rest) k ltac:(lia)). lia.
  - rewrite num_zeroes in Hnum.
    pose proof (skip_zeroes_digits 58 b Hok) as Hds.
    destruct (mapM_forward _ Hds) as (s & Hs & Hrev & Hc).
    exists z, rest, s, (skip_zeroes b).2. rewrite Hb. cbn [mbind exc_bind].
    change (forward_at 0) with (Return 114). cbn [mbind exc_bind]. rewrite Hs.
    repeat split; [done..| |by rewrite skip_zeroes_num, Hnum].
    apply skip_zeroes_spec.
Qed.

Lemma decodeBase58_spec zeroes s ds :
  Forall2 (λ c d, reverse_at c = Return d) s ds → digits_ok 58 ds → no_lead ds →
  (length ds ≤ 64)%nat →
  ∃ rest, decodeBase58 (replicate zeroes 114 ++ s) = Return (replicate zeroes 0 ++ rest) ∧
    digits_ok 256 rest ∧ no_lead rest ∧ num 256 rest = num 58 ds.
Proof.
  intros Hs Hds Hlead Hlen. unfold decodeBase58. rewrite (skip_zero_chars_app _ _ _ Hs Hlead).
  cbn [mbind exc_bind]. pose proof (Forall2_length _ _ _ Hs) as Hl.
  rewrite Hl, (proj2 (Nat.ltb_ge _ _)) by done.
  destruct (decode_loop_num s ds (replicate (length ds * 733 / 1000 + 1) 0))
    as (b & Hb & Hok & Hnum); [done|done| | |].
  - apply Forall_replicate. lia.
  - rewrite num_zeroes, length_replicate.
    pose proof (num_bound 58 ds ltac:(lia) Hds). pose proof (decode_capacity _ Hlen). lia.
  - rewrite num_zeroes in Hnum. rewrite Hb. cbn [mbind exc_bind].
    exists (skip_zeroes b).2. repeat split; [by apply skip_zeroes_digits| |].
    + apply skip_zeroes_spec.
    + by rewrite skip_zeroes_num, Hnum.
Qed.

Lemma skip_zero_chars_inv s n r :
  Forall (λ c, 0 ≤ c) s → skip_zero_chars s = Return (n, r) →
  s = replicate n 114 ++ r ∧ ∀ c r' d, r = c :: r' → reverse_at c = Return d → d ≠ 0.
Proof.
  intros Hs. revert n. induction Hs as [|c s Hc Hs IH]; intros n; cbn [skip_zero_chars].
  { by intros [= <- <-]. }
  destruct (reverse_at c) as [v| | |] eqn:Hv; [|done..]. cbn [mbind exc_bind].
  destruct (Z.eqb_spec v 0) as [->|Hv0].
  - destruct (skip_zero_chars s) as [[n' r']| | |] eqn:Hr; [|done..]. cbn.
    intros [= <- <-]. destruct (IH _ eq_refl) as [-> Hhead]. split; [|done].
    apply reverse_forward in Hv as [_ Hf]; [|done..]. by injection Hf as <-.
  - intros [= <- <-]. split; [done|]. intros c' r' d [= <- <-]. congruence.
Qed.

Lemma decode_loop_inv s b b' :
  Forall (λ c, 0 ≤ c) s → decode_loop s b = Return (Some b') →
  ∃ ds, Forall2 (λ c d, reverse_at c = Return d) s ds ∧ digits_ok 58 ds.
Proof.
  intros Hs. revert b. induction Hs as [|c s Hc Hs IH]; intros b; cbn [decode_loop].
  { intros _. exists []. split; constructor. }
  destruct (reverse_at c) as [d| | |] eqn:Hd; [|done..]. cbn [mbind exc_bind].
  destruct (Z.eqb_spec d (-1)) as [|Hd1]; [done|].
  destruct (mul_add _ _ _ _) as [b1 carry]. destruct (carry =? 0); [|done].
  intros (ds & Hds & Hok)%IH. exists (d :: ds). split; [by constructor|].
  constructor; [|done]. by apply (reverse_forward c).
Qed.

Lemma decodeBase58_inv s ret :
  Forall (λ c, 0 ≤ c) s → decodeBase58 s = Return ret → ret ≠ [] →
  ∃ zeroes s' ds, s = replicate zeroes 114 ++ s' ∧
    Forall2 (λ c d, reverse_at c = Return d) s' ds ∧ digits_ok 58 ds ∧ no_lead ds ∧
    (length ds ≤ 64)%nat.
Proof.
  intros Hs H Hne. unfold decodeBase58 in H.
  destruct (skip_zero_chars s) as [[z s']| | |] eqn:Hz; [|done..]. cbn [mbind exc_bind] in H.
  apply skip_zero_chars_inv in Hz as [Heq Hhead]; [|done].
  destruct (Nat.ltb_spec 64 (length s')) as [|Hlen]; [by injection H as <-|].
  destruct (decode_loop _ _) as [[b|]| | |] eqn:Hl; try done; [|by injection H as <-].
  apply decode_loop_inv in Hl as (ds & Hds & Hok).
  2: { rewrite Heq in Hs. by apply Forall_app in Hs as [_ Hs]. }
  exists z, s', ds. split_and!; [done..| |].
  - destruct Hds as [|c d s' ds Hc Hds]; [done|]. intros [= ->].
    by apply (Hhead c s' 0).
  - by rewrite <- (Forall2_length _ _ _ Hds).
Qed.

(** Every ASCII string is decoded or rejected, without undefined behaviour. *)
Lemma decode_loop_total s b :
  Forall (λ c, 0 ≤ c < 128) s → digits_ok 256 b →
  (num 256 b + 1) * 58 ^ Z.of_nat (length s) ≤ 256 ^ Z.of_nat (length b) →
  ∃ o, decode_loop s b = Return o.
Proof.
  intros Hs. revert b. induction Hs as [|c s Hc Hs IH]; intros b Hb Hfit; [by eexists|].
  cbn [decode_loop length] in *. rewrite Nat2Z.inj_succ, Z.pow_succ_r in Hfit by lia.
  destruct (reverse_defined c Hc) as [d Hd]. rewrite Hd. cbn [mbind exc_bind].
  destruct (Z.eqb_spec d (-1)) as [|Hd1]; [by eexists|].
  apply reverse_forward in Hd as [Hd _]; [|lia|done].
  pose proof (num_bound 256 b ltac:(lia) Hb).
  assert (Hpos : 0 < 58 ^ Z.of_nat (length s)) by (apply Z.pow_pos_nonneg; lia).
  destruct (mul_add_fits 58 256 d b) as (b1 & -> & Hlen & Hok & Hnum); [lia..|done|nia|].
  cbn [Z.eqb]. apply IH; [done|]. rewrite Hnum, Hlen. nia.
Qed.

Lemma skip_zero_chars_total s :
  Forall (λ c, 0 ≤ c < 128) s →
  ∃ n r, skip_zero_chars s = Return (n, r) ∧ Forall (λ c, 0 ≤ c < 128) r.
Proof.
  induction 1 as [|c s Hc Hs (n & r & IH & Hr)]; [by eexists _, _|]. cbn [skip_zero_chars].
  destruct (reverse_defined c Hc) as [d ->]. cbn [mbind exc_bind].
  destruct (d =? 0); [rewrite IH; by eexists _, _|]. eexists _, _. split; [done|]. by constructor.
Qed.

Lemma decodeBase58_total s : Forall (λ c, 0 ≤ c < 128) s → ∃ ret, decodeBase58 s = Return ret.
Proof.
  intros Hs. unfold decodeBase58.
  destruct (skip_zero_chars_total s Hs) as (n & r & -> & Hr). cbn [mbind exc_bind].
  destruct (Nat.ltb_spec 64 (length r)) as [|Hlen]; [by eexists|].
  destruct (decode_loop_total r (replicate (length r * 733 / 1000 + 1) 0) Hr) as [o ->].
  - apply Forall_replicate. lia.
  - rewrite num_zeroes, length_replicate. pose proof (decode_capacity _ Hlen). lia.
  - destruct o; by eexists.
Qed.

(** The characters are determined by their digits. *)
Lemma spelling_inj s1 s2 ds :
  Forall (λ c, 0 ≤ c < 128) s1 → Forall (λ c, 0 ≤ c) s2 → digits_ok 58 ds →
  Forall2 (λ c d, reverse_at c = Return d) s1 ds →
  Forall2 (λ c d, reverse_at c = Return d) s2 ds → s1 = s2.
Proof.
  intros H1 H2 Hds Hr1. revert s2 H2.
  induction Hr1 as [|c d s1 ds Hc Hr1 IH]; intros s2 H2 Hr2.
  { by apply Forall2_nil_inv_r in Hr2 as ->. }
  apply Forall2_cons_inv_r in Hr2 as (c2 & s2' & Hx & Hr2 & ->).
  apply Forall_cons in H1 as [Hc1 H1], H2 as [Hc2 H2], Hds as [Hd Hds].
  apply reverse_forward in Hc as [_ Hc]; [|lia..].
  apply reverse_forward in Hx as [_ Hx]; [|lia..]. f_equal; [congruence|]. by apply IH.
Qed.

(** ** Tokens *)

(** What the token functions rely on: a SHA-256 digest is 32 bytes. *)
Class Digest (sha256 : list Z → list Z) : Prop := {
  digest_length m : length (sha256 m) = 32%nat;
  digest_bytes m : digits_ok 256 (sha256 m) }.

Section tokens.
Context (sha256 : list Z → list Z) {Hsha : Digest sha256}.

Lemma checksum_length m : length (checksum sha256 m) = 4%nat.
Proof. unfold checksum, digest2. by rewrite length_take, digest_length. Qed.

Lemma checksum_bytes m : digits_ok 256 (checksum sha256 m).
Proof. apply Forall_take, (digest_bytes (sha256:=sha256)). Qed.

(** The layout: type byte, token, checksum. *)
Definition layout (type : TokenType) (token : list Z) : list Z :=
  (type :: token) ++ checksum sha256 (type :: token).

Lemma length_layout type token : length (layout type token) = (5 + length token)%nat.
Proof. unfold layout. rewrite length_app, checksum_length. cbn [length]. lia. Qed.

Lemma layout_bytes type token :
  0 ≤ type < 256 → digits_ok 256 token → digits_ok 256 (layout type token).
Proof. intros. apply Forall_app. split; [by constructor|apply checksum_bytes]. Qed.

(** The checks of [decodeBase58Token] on a decoded layout. *)
Lemma decode_layout s type token type' :
  decodeBase58 s = Return (layout type token) → token ≠ [] →
  decodeBase58Token sha256 s type' = Return (if type' =? type then token else []).
Proof.
  intros Hs Hne. unfold decodeBase58Token. rewrite Hs. cbn [mbind exc_bind].
  destruct token as [|b token]; [done|].
  rewrite length_layout, (proj2 (Nat.ltb_ge _ _)) by (cbn; lia).
  cbn [layout app]. destruct (Z.eqb_spec type' type) as [->|]; [|done]. cbn [negb].
  change (type :: b :: token ++ checksum sha256 (type :: b :: token))
    with ((type :: b :: token) ++ checksum sha256 (type :: b :: token)).
  replace (5 + length (b :: token) - 4)%nat with (length (type :: b :: token)) by (cbn; lia).
  rewrite take_app_length, drop_app_length, bool_decide_eq_true_2 by done. cbn [negb].
  change (drop 1 ((type :: b :: token) ++ ?x)) with ((b :: token) ++ x).
  replace (_ - 1 - 4)%nat with (length (b :: token)) by (cbn; lia).
  by rewrite take_app_length.
Qed.

(** What an accepted string decodes to. *)
Lemma decode_token_inv s type token :
  decodeBase58Token sha256 s type = Return token → token ≠ [] →
  decodeBase58 s = Return (layout type token).
Proof.
  intros H Hne. unfold decodeBase58Token in H.
  destruct (decodeBase58 s) as [ret| | |]; [|done..]. cbn [mbind exc_bind] in H.
  destruct (Nat.ltb_spec (length ret) 6) as [|Hlen]; [by injection H as <-|].
  destruct ret as [|t ret]; [by injection H as <-|].
  destruct (Z.eqb_spec type t) as [<-|]; [|by injection H as <-]. cbn [negb] in H.
  case_bool_decide as Hck; [|by injection H as <-]. cbn [negb] in H.
  injection H as <-. do 2 f_equal.
  rewrite <- (take_drop (length (type :: ret) - 4) (type :: ret)) at 1. rewrite <- Hck.
  unfold layout. cbn [length] in *.
  replace (S (length ret) - 4)%nat with (S (length ret - 4)) by lia.
  by rewrite Nat.sub_0_r.
Qed.

Lemma encode_token type token :
  encodeBase58Token sha256 type token = encodeBase58 (layout type token) (2 * (5 + length token)).
Proof. unfold encodeBase58Token, layout. f_equal. cbn [length]. lia. Qed.

(** C37: A token of 1 to 41 bytes (seeds, account identifiers, secret and public
    keys are 16 to 33) is always encoded, and decoding the string under the same
    type gives the token back; under any other type it is rejected. *)
Theorem token_roundtrip type token :
  0 ≤ type < 256 → digits_ok 256 token → (1 ≤ length token ≤ 41)%nat →
  ∃ s, encodeBase58Token sha256 type token = Return s ∧
    ∀ type', decodeBase58Token sha256 s type' = Return (if type' =? type then token else []).
Proof.
  intros Ht Htok Hlen. rewrite encode_token.
  pose proof (layout_bytes type token Ht Htok) as Hb.
  destruct (encodeBase58_spec (layout type token) (2 * (5 + length token))) as
    (z & rest & s & ds & Heq & Hlead & -> & Hs & _ & Hds & Hleadd & Hnum); [done| |].
  { rewrite length_layout. lia. }
  exists (replicate z 114 ++ s). split; [done|]. intros type'.
  apply decode_layout; [|by intros ->; cbn in Hlen; lia].
  assert (Hr : digits_ok 256 rest) by (rewrite Heq in Hb; by apply Forall_app in Hb as [_ Hb]).
  assert (Hl : (length rest ≤ 46)%nat).
  { pose proof (length_layout type token) as Hl. rewrite Heq, length_app in Hl. lia. }
  destruct (decodeBase58_spec z s ds Hs Hds Hleadd) as (rest' & -> & Hr' & Hlead' & Hnum').
  { apply (num_length 58); [done..|]. rewrite Hnum.
    pose proof (num_bound 256 rest ltac:(lia) Hr).
    assert (256 ^ Z.of_nat (length rest) ≤ 256 ^ 46) by (apply Z.pow_le_mono_r; lia).
    assert (256 ^ 46 ≤ 58 ^ Z.of_nat 64) by (vm_compute; discriminate). lia. }
  rewrite Heq. do 2 f_equal. apply (num_inj 256); [done..|]. by rewrite Hnum', Hnum.
Qed.

(** There is only one spelling of a token: a string that decodes to a
    non-empty token is the string that encoding this token produces. *)
Theorem token_spelling_unique s type token :
  Forall (λ c, 0 ≤ c < 256) s → 0 ≤ type < 256 → token ≠ [] →
  decodeBase58Token sha256 s type = Return token →
  encodeBase58Token sha256 type token = Return s.
Proof.
  intros Hs Ht Hne H. apply decode_token_inv in H; [|done].
  assert (Hs0 : Forall (λ c, 0 ≤ c) s) by (eapply Forall_impl; [done|]; cbn; lia).
  destruct (decodeBase58_inv s _ Hs0 H) as (z & s' & ds & -> & Hrev & Hds & Hlead & Hlen); [done|].
  destruct (decodeBase58_spec z s' ds Hrev Hds Hlead Hlen) as (rest & Heq & Hr & Hleadr & Hnum).
  rewrite Heq in H. injection H as Hlay. rewrite encode_token.
  assert (Hb : digits_ok 256 (layout type token)).
  { rewrite <- Hlay. apply Forall_app. split; [apply Forall_replicate; lia|done]. }
  destruct (encodeBase58_spec (layout type token) (2 * (5 + length token))) as
    (z2 & rest2 & s2 & ds2 & Heq2 & Hlead2 & -> & Hs2 & Hc2 & Hds2 & Hleadd2 & Hnum2); [done| |].
  { rewrite length_layout. lia. }
  rewrite Heq2 in Hlay. apply (f_equal skip_zeroes) in Hlay.
  rewrite !skip_zeroes_app in Hlay by done. injection Hlay as <- <-.
  assert (ds2 = ds) as -> by (apply (num_inj 58); [done..|congruence]).
  do 2 f_equal. apply Forall_app in Hs0 as [_ Hs0].
  by apply (spelling_inj s2 s' ds).
Qed.
End tokens.

(** A small function with the shape of a digest, for the examples. *)
Definition toy_digest (m : list Z) : list Z :=
  (λ i, (sumZ m + 7 * Z.of_nat (length m) + i) mod 256) <$> seqZ 0 32.

#[export] Instance toy_digest_ok : Digest toy_digest.
Proof.
  split; intros m.
  - unfold toy_digest. by rewrite length_fmap.
  - apply Forall_fmap, Forall_true. intros x. cbn. apply Z.mod_pos_bound. lia.
Qed.

Lemma token_roundtrip_witness :
  ∃ s, encodeBase58Token toy_digest AccountID (replicate 19 0 ++ [5]) = Return s ∧
    ∀ type', decodeBase58Token toy_digest s type' =
      Return (if type' =? AccountID then replicate 19 0 ++ [5] else []).
Proof.
  apply (token_roundtrip toy_digest AccountID (replicate 19 0 ++ [5])).
  - unfold AccountID. lia.
  - repeat constructor; lia.
  - cbn. lia.
Defined.

Definition demo_token : list Z :=
  Eval vm_compute in match encodeBase58Token toy_digest NodePublic [1; 2; 3] with Return s => s | _ => [] end.

Lemma token_spelling_unique_witness :
  encodeBase58Token toy_digest NodePublic [1; 2; 3] = Return demo_token.
Proof.
  apply (token_spelling_unique toy_digest demo_token NodePublic [1; 2; 3]).
  - repeat constructor; lia.
  - unfold NodePublic. lia.
  - done.
  - vm_compute. reflexivity.
Defined.

(** Decoding is defined on every string of 7-bit characters, whatever the
    digest.  A character above 127 after any number of leading zero characters
    indexes the reverse table with a negative [char], outside its bounds. *)
Theorem decode_defined_on_ascii (sha256 : list Z → list Z) (type : TokenType) :
  (∀ s, Forall (λ c, 0 ≤ c < 128) s → ∃ t, decodeBase58Token sha256 s type = Return t) ∧
  (∀ n c s, 128 ≤ c → decodeBase58Token sha256 (replicate n 114 ++ c :: s) type = Abort "index").
Proof.
  split.
  - intros s Hs. unfold decodeBase58Token. destruct (decodeBase58_total s Hs) as [ret ->].
    cbn [mbind exc_bind]. repeat case_match; by eexists.
  - intros n c s Hc. unfold decodeBase58Token, decodeBase58.
    assert (skip_zero_chars (replicate n 114 ++ c :: s) = Abort "index") as ->; [|done].
    induction n as [|n IH]; cbn [replicate app skip_zero_chars].
    + unfold reverse_at. by rewrite (proj2 (Z.ltb_ge _ _)) by lia.
    + change (reverse_at 114) with (Return 0). cbn [mbind exc_bind Z.eqb]. by rewrite IH.
Qed.
