(* ===== verification/SHAMapNode.v ===== *)
(** * Nodes of a SHAMap

    [shamap/SHAMapItem.h], [shamap/SHAMapTreeNode.h], [shamap/SHAMapLeafNode.h] and
    its three subclasses, [shamap/SHAMapInnerNode.h], [shamap/SHAMapNodeID.h] and
    their [impl] files.  A [uint256] is a [Z] below [2 ^ 256]; its bytes are big
    endian.  An inner node is a list of 16 branches; a branch that is not empty
    holds the hash of the child and, when the child is in memory, the pointer to
    it.  The digest [sha512Half] is computed by a cryptography library and is a
    parameter. *)
From S2P Require Import Prelude Outcome Bytes Serializer.

Definition branchFactor : nat := 16.
Definition leafDepth : Z := 64.

(** Pointers to nodes. *)
Definition loc : Type := positive.

Record SHAMapItem := mkItem { key : Z; peekData : list Z }.

Inductive SHAMapNodeType := tnINNER | tnTRANSACTION_NM | tnTRANSACTION_MD | tnACCOUNT_STATE.

#[export] Instance SHAMapItem_eq_dec : EqDecision SHAMapItem.
Proof. solve_decision. Defined.
#[export] Instance SHAMapNodeType_eq_dec : EqDecision SHAMapNodeType.
Proof. solve_decision. Defined.

(** An entry of [hashesAndChildren_] for a branch whose bit is set. *)
Definition branch : Type := Z * option loc.

Inductive TreeNode :=
  | InnerNode (cowid hash : Z) (branches : list (option branch))
  | LeafNode (cowid hash : Z) (type : SHAMapNodeType) (item : SHAMapItem).

#[export] Instance TreeNode_eq_dec : EqDecision TreeNode.
Proof. solve_decision. Defined.

Definition cowid (n : TreeNode) : Z := match n with InnerNode c _ _ | LeafNode c _ _ _ => c end.
Definition getHash (n : TreeNode) : Z := match n with InnerNode _ h _ | LeafNode _ h _ _ => h end.
Definition getType (n : TreeNode) : SHAMapNodeType :=
  match n with InnerNode _ _ _ => tnINNER | LeafNode _ _ t _ => t end.
Definition isLeaf (n : TreeNode) : bool := match n with LeafNode _ _ _ _ => true | _ => false end.
Definition isInner (n : TreeNode) : bool := negb (isLeaf n).

Definition clone (cowid : Z) (n : TreeNode) : TreeNode :=
  match n with
  | InnerNode _ hash bs => InnerNode cowid hash bs
  | LeafNode _ hash t i => LeafNode cowid hash t i
  end.

(** [SHAMapTreeNode::unshare]. *)
Definition unshared (n : TreeNode) : TreeNode := clone 0 n.

(** ** Inner nodes *)

Definition new_inner (cowid : Z) : TreeNode := InnerNode cowid 0 (replicate branchFactor None).

Definition isEmptyBranch (bs : list (option branch)) (m : nat) : bool :=
  match bs !! m with Some (Some _) => false | _ => true end.

Definition getBranchCount (bs : list (option branch)) : nat :=
  length (filter (λ b : option branch, b ≠ None) bs).

Definition getChildHash (bs : list (option branch)) (m : nat) : Z :=
  match bs !! m with Some (Some (h, _)) => h | _ => 0 end.

(** The hashes of all 16 branches, zero for an empty one: [iterChildren]. *)
Definition child_hashes (bs : list (option branch)) : list Z :=
  (λ b : option branch, match b with Some (h, _) => h | None => 0 end) <$> bs.

(** ** Hashing *)

Definition make_hash_prefix (a b c : Z) : Z := Z.shiftl a 24 + Z.shiftl b 16 + Z.shiftl c 8.
Definition HashPrefix_transactionID : Z := make_hash_prefix 84 88 78. (** TXN *)
Definition HashPrefix_txNode : Z := make_hash_prefix 83 78 68.        (** SND *)
Definition HashPrefix_leafNode : Z := make_hash_prefix 77 76 78.      (** MLN *)
Definition HashPrefix_innerNode : Z := make_hash_prefix 77 73 78.     (** MIN *)

Definition uint256_bytes (x : Z) : list Z := be_bytes 32 x.

Section hashing.
Context (sha512Half : list Z → Z).

(** [updateHash] of the three kinds of leaves. *)
Definition leaf_hash (type : SHAMapNodeType) (item : SHAMapItem) : Z :=
  match type with
  | tnTRANSACTION_NM => sha512Half (be_bytes 4 HashPrefix_transactionID ++ peekData item)
  | tnTRANSACTION_MD =>
    sha512Half (be_bytes 4 HashPrefix_txNode ++ peekData item ++ uint256_bytes (key item))
  | _ => sha512Half (be_bytes 4 HashPrefix_leafNode ++ peekData item ++ uint256_bytes (key item))
  end.

(** [SHAMapInnerNode::updateHash]. *)
Definition inner_hash (bs : list (option branch)) : Z :=
  if bool_decide (Forall (λ b : option branch, b = None) bs) then 0
  else sha512Half (be_bytes 4 HashPrefix_innerNode ++ concat (uint256_bytes <$> child_hashes bs)).

Definition updateHash (n : TreeNode) : TreeNode :=
  match n with
  | InnerNode c _ bs => InnerNode c (inner_hash bs) bs
  | LeafNode c _ t i => LeafNode c (leaf_hash t i) t i
  end.

(** The constructor of a leaf that computes its hash. *)
Definition new_leaf (type : SHAMapNodeType) (item : SHAMapItem) (owner : Z) : exc TreeNode :=
  if (length (peekData item) <? 12)%nat then Abort "peekData().size() >= 12"
  else Return (LeafNode owner (leaf_hash type item) type item).

(** The constructor of a leaf with a known hash. *)
Definition new_leaf_hashed (type : SHAMapNodeType) (item : SHAMapItem) (owner hash : Z) : exc TreeNode :=
  if (length (peekData item) <? 12)%nat then Abort "peekData().size() >= 12"
  else Return (LeafNode owner hash type item).

Definition makeTypedLeaf (type : SHAMapNodeType) (item : SHAMapItem) (owner : Z) : exc TreeNode :=
  match type with
  | tnINNER => Throw "Attempt to create leaf node of unknown type"
  | _ => new_leaf type item owner
  end.

(** ** The two serialised forms *)

Definition wireTypeTransaction : Z := 0.
Definition wireTypeAccountState : Z := 1.
Definition wireTypeInner : Z := 2.
Definition wireTypeCompressedInner : Z := 3.
Definition wireTypeTransactionWithMeta : Z := 4.

Fixpoint add_hashes (hs : list Z) : ST (list Z) unit :=
  match hs with
  | [] => mret ()
  | h :: hs => addBitString (uint256_bytes h);; add_hashes hs
  end.

(** The non-empty branches, each hash followed by its branch number. *)
Fixpoint add_compressed (i : Z) (bs : list (option branch)) : ST (list Z) unit :=
  match bs with
  | [] => mret ()
  | None :: bs => add_compressed (i + 1) bs
  | Some (h, _) :: bs =>
    addBitString (uint256_bytes h);;
    add8 i;;
    add_compressed (i + 1) bs
  end.

Definition serializeWithPrefix (n : TreeNode) : ST (list Z) unit :=
  match n with
  | InnerNode _ _ bs =>
    sassert (negb (bool_decide (Forall (λ b : option branch, b = None) bs))) "!isEmpty()";;
    add32 HashPrefix_innerNode;;
    add_hashes (child_hashes bs)
  | LeafNode _ _ tnTRANSACTION_NM i =>
    add32 HashPrefix_transactionID;;
    addRaw (peekData i);;
    mret ()
  | LeafNode _ _ tnTRANSACTION_MD i =>
    add32 HashPrefix_txNode;;
    addRaw (peekData i);;
    addBitString (uint256_bytes (key i));;
    mret ()
  | LeafNode _ _ _ i =>
    add32 HashPrefix_leafNode;;
    addRaw (peekData i);;
    addBitString (uint256_bytes (key i));;
    mret ()
  end.

Definition serializeForWire (n : TreeNode) : ST (list Z) unit :=
  match n with
  | InnerNode _ _ bs =>
    sassert (negb (bool_decide (Forall (λ b : option branch, b = None) bs))) "!isEmpty()";;
    if (getBranchCount bs <? 12)%nat then
      add_compressed 0 bs;;
      add8 wireTypeCompressedInner;;
      mret ()
    else
      add_hashes (child_hashes bs);;
      add8 wireTypeInner;;
      mret ()
  | LeafNode _ _ tnTRANSACTION_NM i =>
    addRaw (peekData i);;
    add8 wireTypeTransaction;;
    mret ()
  | LeafNode _ _ tnTRANSACTION_MD i =>
    addRaw (peekData i);;
    addBitString (uint256_bytes (key i));;
    add8 wireTypeTransactionWithMeta;;
    mret ()
  | LeafNode _ _ _ i =>
    addRaw (peekData i);;
    addBitString (uint256_bytes (key i));;
    add8 wireTypeAccountState;;
    mret ()
  end.

(** [s.getBitString(tag, offset)] into a [uint256]: the result and whether
    it succeeded. *)
Definition get_uint256 (d : list Z) (offset : Z) : exc (option Z) :=
  r ← getBitString 32 d offset;
  Return (option_map be_value r).

Definition finish_leaf (type : SHAMapNodeType) (item : SHAMapItem) (hash : option Z) : exc TreeNode :=
  match hash with
  | Some hash => new_leaf_hashed type item 0 hash
  | None => new_leaf type item 0
  end.

(** The hash is given when it is valid: [hash] and [hashValid]. *)
Definition makeTransaction (data : list Z) (hash : option Z) : exc TreeNode :=
  let item := mkItem (sha512Half (be_bytes 4 HashPrefix_transactionID ++ data)) data in
  finish_leaf tnTRANSACTION_NM item hash.

Definition makeTransactionWithMeta (data : list Z) (hash : option Z) : exc TreeNode :=
  if Z.of_nat (length data) <? 32 then Throw "Short TXN+MD node"
  else
    tag ← get_uint256 data (Z.of_nat (length data) - 32);
    match tag with
    | None => Throw "Short TXN+MD node ()"
    | Some tag =>
      let '(_, data) := chop 32 data in
      finish_leaf tnTRANSACTION_MD (mkItem tag data) hash
    end.

Definition makeAccountState (data : list Z) (hash : option Z) : exc TreeNode :=
  if Z.of_nat (length data) <? 32 then Throw "short AS node"
  else
    tag ← get_uint256 data (Z.of_nat (length data) - 32);
    match tag with
    | None => Throw "Short AS node ()"
    | Some tag =>
      let '(_, data) := chop 32 data in
      if tag =? 0 then Throw "Invalid AS node"
      else finish_leaf tnACCOUNT_STATE (mkItem tag data) hash
    end.

(** The arrays of a parsed inner node: for each branch whether its bit is set,
    and its hash. *)
Definition parsed_branches (slots : list (bool * Z)) : list (option branch) :=
  (λ s : bool * Z, if s.1 then Some (s.2, None) else None) <$> slots.

Fixpoint full_loop (n : nat) (i : Z) (d : list Z) : exc (list (bool * Z)) :=
  match n with
  | O => Return []
  | S n =>
    h ← get_uint256 d (i * 32);
    let h := default 0 h in
    rest ← full_loop n (i + 1) d;
    Return ((negb (h =? 0), h) :: rest)
  end.

Definition makeFullInner (data : list Z) (hash : option Z) : exc TreeNode :=
  if negb (Z.of_nat (length data) =? 512) then Throw "Invalid FI node"
  else
    slots ← full_loop branchFactor 0 data;
    let bs := parsed_branches slots in
    Return (InnerNode 0 (match hash with Some hash => hash | None => inner_hash bs end) bs).

Fixpoint compressed_loop (n : nat) (i : Z) (d : list Z) (slots : list (bool * Z)) : exc (list (bool * Z)) :=
  match n with
  | O => Return slots
  | S n =>
    pos ← Serializer_get8 d (32 + i * 33);
    match pos with
    | None => Throw "short CI node"
    | Some pos =>
      if (pos <? 0) || (16 <=? pos) then Throw "invalid CI node"
      else
        h ← get_uint256 d (i * 33);
        let old := default (false, 0) (slots !! Z.to_nat pos) in
        let h := default old.2 h in
        compressed_loop n (i + 1) d (<[Z.to_nat pos := (old.1 || negb (h =? 0), h)]> slots)
    end
  end.

Definition makeCompressedInner (data : list Z) : exc TreeNode :=
  let len := int_size data in
  slots ← compressed_loop (Z.to_nat (Z.quot len 33)) 0 data (replicate branchFactor (false, 0));
  let bs := parsed_branches slots in
  Return (InnerNode 0 (inner_hash bs) bs).

(** [None] is the null pointer returned for an empty buffer. *)
Definition makeFromWire (rawNode : list Z) : exc (option TreeNode) :=
  match last rawNode with
  | None => Return None
  | Some type =>
    let rawNode := take (length rawNode - 1) rawNode in
    if type =? wireTypeTransaction then Some <$> makeTransaction rawNode None
    else if type =? wireTypeAccountState then Some <$> makeAccountState rawNode None
    else if type =? wireTypeInner then Some <$> makeFullInner rawNode None
    else if type =? wireTypeCompressedInner then Some <$> makeCompressedInner rawNode
    else if type =? wireTypeTransactionWithMeta then Some <$> makeTransactionWithMeta rawNode None
    else Throw "wire: Unknown type"
  end.

Definition makeFromPrefix (rawNode : list Z) (hash : Z) : exc TreeNode :=
  match rawNode with
  | r0 :: r1 :: r2 :: r3 :: rawNode =>
    let type := u32 (Z.shiftl r0 24 + Z.shiftl r1 16 + Z.shiftl r2 8 + r3) in
    if type =? HashPrefix_transactionID then makeTransaction rawNode (Some hash)
    else if type =? HashPrefix_leafNode then makeAccountState rawNode (Some hash)
    else if type =? HashPrefix_innerNode then makeFullInner rawNode (Some hash)
    else if type =? HashPrefix_txNode then makeTransactionWithMeta rawNode (Some hash)
    else Throw "prefix: unknown type"
  | _ => Throw "prefix: short node"
  end.
End hashing.

(** ** Positions in the tree *)

Record SHAMapNodeID := mkID { depth_ : Z; id_ : Z }.

#[export] Instance SHAMapNodeID_eq_dec : EqDecision SHAMapNodeID.
Proof. solve_decision. Defined.

(** The table of masks: two entries for every byte of the selector. *)
Fixpoint fill_masks (n : nat) (byte selector : Z) : list Z :=
  match n with
  | O => [selector]
  | S n =>
    let half := Z.lor selector (Z.shiftl 240 (8 * (31 - byte))) in
    let full := Z.lor selector (Z.shiftl 255 (8 * (31 - byte))) in
    selector :: half :: fill_masks n (byte + 1) full
  end.

Definition masks : list Z := Eval vm_compute in fill_masks 32 0 0.

Definition depthMask (depth : Z) : exc Z :=
  match masks !! Z.to_nat depth with Some m => Return m | None => Abort "masks.entry" end.

Definition root_id : SHAMapNodeID := mkID 0 0.

Definition isRoot (id : SHAMapNodeID) : bool := depth_ id =? 0.

(** The constructor. *)
Definition NodeID_ctor (depth hash : Z) : exc SHAMapNodeID :=
  if leafDepth <? depth then Abort "depth <= SHAMap::leafDepth"
  else
    mask ← depthMask depth;
    if Z.land hash mask =? hash then Return (mkID depth hash) else Abort "id_ == (id_ & depthMask(depth))".

Definition getChildNodeID (id : SHAMapNodeID) (m : Z) : exc SHAMapNodeID :=
  if 16 <=? m then Abort "m < SHAMap::branchFactor"
  else if leafDepth <? depth_ id then Abort "depth_ <= SHAMap::leafDepth"
  else if leafDepth <=? depth_ id then Throw "Request for child node ID"
  else
    mask ← depthMask (depth_ id);
    if negb (Z.land (id_ id) mask =? id_ id) then Throw "Incorrect mask"
    else
      node ← NodeID_ctor (depth_ id + 1) (id_ id);
      let nibble := if Z.odd (depth_ id) then m else Z.shiftl m 4 in
      Return (mkID (depth_ node) (Z.lor (id_ node) (Z.shiftl nibble (8 * (31 - depth_ id / 2))))).

(** [*(hash.begin() + (depth / 2))] is a byte of the key. *)
Definition selectBranch (id : SHAMapNodeID) (hash : Z) : exc nat :=
  if leafDepth <=? depth_ id then Abort "hash.begin()"
  else
    let byte := Z.land (Z.shiftr hash (8 * (31 - depth_ id / 2))) 255 in
    let branch := if Z.odd (depth_ id) then Z.land byte 15 else Z.shiftr byte 4 in
    if branch <? 16 then Return (Z.to_nat branch) else Abort "branch < SHAMap::branchFactor".

Definition createID (depth key : Z) : exc SHAMapNodeID :=
  if (depth <? 0) || (65 <=? depth) then Abort "(depth >= 0) && (depth < 65)"
  else
    mask ← depthMask depth;
    NodeID_ctor depth (Z.land key mask).

(** The wire form of a position. *)
Definition getRawString (id : SHAMapNodeID) : ST (list Z) unit :=
  addBitString (uint256_bytes (id_ id));;
  add8 (depth_ id);;
  mret ().

Definition deserializeSHAMapNodeID (data : list Z) : exc (option SHAMapNodeID) :=
  if Z.of_nat (length data) =? 33 then
    depth ← at_index data 32;
    if depth <=? leafDepth then
      let id := be_value (take 32 data) in
      mask ← depthMask depth;
      if Z.land id mask =? id then node ← NodeID_ctor depth id; Return (Some node) else Return None
    else Return None
  else Return None.
