(* ===== verification/SHAMap.v ===== *)
(** * The radix tree of ledgers and transaction sets ([shamap/impl/SHAMap.cpp])

    Maps share nodes and copy them on write, so the model keeps the memory they
    live in: [nodes_] holds every node that was ever created, and a map is a
    record with the pointer to its root.  The operations run on the memory and
    the map [this]; they are the ones of a map without a database behind it
    ([backed_] is false), all of whose nodes are in memory: a branch whose child
    is not linked throws [SHAMapMissingNode].  Reading a pointer that is not
    allocated is [Abort]. *)
From S2P Require Import Prelude Outcome Bytes Serializer SHAMapNode.

Inductive SHAMapState := Modifying | Immutable | Synching | Invalid.

#[export] Instance SHAMapState_eq_dec : EqDecision SHAMapState.
Proof. solve_decision. Defined.

Record SHAMap := mkMap { cowid_ : Z; root_ : loc; state_ : SHAMapState }.

Record Memory := mkMemory { nodes_ : gmap loc TreeNode; this : SHAMap }.

Abbreviation op := (ST Memory).

(** ** Memory *)

Definition node_at (l : loc) : op TreeNode :=
  w ← sget;
  match nodes_ w !! l with Some n => mret n | None => slift (Abort "pointer") end.

Definition write (l : loc) (n : TreeNode) : op unit :=
  smodify (λ w, mkMemory (<[l := n]> (nodes_ w)) (this w)).

(** [std::make_shared]. *)
Definition alloc (n : TreeNode) : op loc :=
  w ← sget;
  let l := fresh (dom (nodes_ w)) in
  write l n;;
  mret l.

Definition set_root (l : loc) : op unit :=
  smodify (λ w, mkMemory (nodes_ w) (mkMap (cowid_ (this w)) l (state_ (this w)))).

(** The branches of a node that is cast to an inner node. *)
Definition inner_at (l : loc) : op (list (option branch)) :=
  n ← node_at l;
  match n with InnerNode _ _ bs => mret bs | LeafNode _ _ _ _ => slift (Abort "cast") end.

(** The item of a node that is cast to a leaf. *)
Definition item_at (l : loc) : op SHAMapItem :=
  n ← node_at l;
  match n with LeafNode _ _ _ i => mret i | InnerNode _ _ _ => slift (Abort "cast") end.

(** ** Inner nodes: [setChild], [shareChild], [getChild] *)

(** The child of a branch that must not be empty; null when it is not linked. *)
Definition getChild (bs : list (option branch)) (m : nat) : exc (option loc) :=
  match bs !! m with
  | Some (Some (_, c)) => Return c
  | _ => Abort "!isEmptyBranch(branch)"
  end.

Definition setChild (l : loc) (m : nat) (child : option loc) : op unit :=
  n ← node_at l;
  match n with
  | InnerNode c _ bs =>
    sassert ((m <? branchFactor)%nat && negb (c =? 0) && negb (bool_decide (child = Some l))) "setChild";;
    write l (InnerNode c 0 (<[m := (λ x, (0, Some x)) <$> child]> bs))
  | LeafNode _ _ _ _ => slift (Abort "cast")
  end.

Definition shareChild (l : loc) (m : nat) (child : loc) : op unit :=
  n ← node_at l;
  match n with
  | InnerNode c h bs =>
    sassert ((m <? branchFactor)%nat && negb (c =? 0) && negb (bool_decide (child = l))
             && negb (isEmptyBranch bs m)) "shareChild";;
    write l (InnerNode c h (<[m := Some (getChildHash bs m, Some child)]> bs))
  | LeafNode _ _ _ _ => slift (Abort "cast")
  end.

Definition descendThrow (l : loc) (m : nat) : op loc :=
  bs ← inner_at l;
  c ← slift (getChild bs m);
  match c with
  | Some c => mret c
  | None => throw "SHAMapMissingNode"
  end.

(** ** Walking down *)

(** A [SharedPtrNodeStack], the top first. *)
Definition NodeStack : Type := list (loc * SHAMapNodeID).

(** An inner node of depth 63 is the last that has children: 65 rounds. *)
Definition depth_fuel : nat := 65.

Fixpoint walk_loop (fuel : nat) (inNode : loc) (nodeID : SHAMapNodeID) (id : Z) (stack : NodeStack) :
    op (option loc * NodeStack) :=
  n ← node_at inNode;
  match n with
  | LeafNode _ _ _ _ => mret (Some inNode, (inNode, nodeID) :: stack)
  | InnerNode _ _ bs =>
    let stack := (inNode, nodeID) :: stack in
    b ← slift (selectBranch nodeID id);
    if isEmptyBranch bs b then mret (None, stack)
    else
      match fuel with
      | O => slift NoFuel
      | S fuel =>
        child ← descendThrow inNode b;
        nodeID ← slift (getChildNodeID nodeID (Z.of_nat b));
        walk_loop fuel child nodeID id stack
      end
  end.

(** The leaf that was reached, and the stack of the nodes on the way. *)
Definition walkTowardsKey (id : Z) : op (option loc * NodeStack) :=
  w ← sget;
  walk_loop depth_fuel (root_ (this w)) root_id id [].

Definition findKey (id : Z) : op (option loc) :=
  '(leaf, _) ← walkTowardsKey id;
  match leaf with
  | Some l => i ← item_at l; mret (if negb (key i =? id) then None else Some l)
  | None => mret None
  end.

Definition peekItem (id : Z) : op (option SHAMapItem) :=
  leaf ← findKey id;
  match leaf with
  | None => mret None
  | Some l => i ← item_at l; mret (Some i)
  end.

Definition hasItem (id : Z) : op bool := leaf ← findKey id; mret (bool_decide (leaf ≠ None)).

(** ** Copy on write *)

Definition unshareNode (l : loc) (nodeID : SHAMapNodeID) : op loc :=
  n ← node_at l;
  w ← sget;
  sassert (cowid n <=? cowid_ (this w)) "node->cowid() <= cowid_";;
  if cowid n =? cowid_ (this w) then mret l
  else
    sassert (bool_decide (state_ (this w) ≠ Immutable)) "state_ != SHAMapState::Immutable";;
    l ← alloc (clone (cowid_ (this w)) n);
    (if isRoot nodeID then set_root l else mret ());;
    mret l.

(** Walk up, updating the links; the last node is the one that ends up above. *)
Fixpoint dirty_loop (stack : NodeStack) (target : Z) (child : loc) : op loc :=
  match stack with
  | [] => mret child
  | (node, nodeID) :: stack =>
    _ ← inner_at node;
    b ← slift (selectBranch nodeID target);
    node ← unshareNode node nodeID;
    setChild node b (Some child);;
    dirty_loop stack target node
  end.

Definition dirtyUp (stack : NodeStack) (target : Z) (child : loc) : op unit :=
  w ← sget;
  sassert (bool_decide (state_ (this w) ≠ Synching) && bool_decide (state_ (this w) ≠ Immutable)) "dirtyUp";;
  n ← node_at child;
  sassert (cowid n =? cowid_ (this w)) "child->cowid() == cowid_";;
  _ ← dirty_loop stack target child;
  mret ().

(** ** The only item below a node *)

(** The branches that are not empty, in order. *)
Definition full_branches (bs : list (option branch)) : list nat :=
  filter (λ i, isEmptyBranch bs i = false) (seq 0 branchFactor).

Fixpoint onlyBelow (fuel : nat) (node : loc) : op (option SHAMapItem) :=
  n ← node_at node;
  match n with
  | LeafNode _ _ _ i => mret (Some i)
  | InnerNode _ _ bs =>
    match full_branches bs, fuel with
    | [], _ => slift (Abort "nextNode")
    | [i], S fuel => next ← descendThrow node i; onlyBelow fuel next
    | [i], O => slift NoFuel
    | i :: _, _ => _ ← descendThrow node i; mret None
    end
  end.

Section SHAMap.
Context (sha512Half : list Z → Z).

(** The constructor of a new map. *)
Definition SHAMap_ctor : gmap loc TreeNode → gmap loc TreeNode * SHAMap :=
  λ h, let l := fresh (dom h) in (<[l := new_inner 1]> h, mkMap 1 l Modifying).

(** ** Adding an item *)

(** The chain of inner nodes down to where the two keys part: the loop of
    [addGiveItem]. *)
Fixpoint split_loop (fuel : nat) (node : loc) (nodeID : SHAMapNodeID) (tag other : Z) (stack : NodeStack) :
    op (loc * nat * nat * NodeStack) :=
  b1 ← slift (selectBranch nodeID tag);
  b2 ← slift (selectBranch nodeID other);
  if (b1 =? b2)%nat then
    match fuel with
    | O => slift NoFuel
    | S fuel =>
      let stack := (node, nodeID) :: stack in
      nodeID ← slift (getChildNodeID nodeID (Z.of_nat b1));
      w ← sget;
      node ← alloc (new_inner (cowid_ (this w)));
      split_loop fuel node nodeID tag other stack
    end
  else mret (node, b1, b2, stack).

Definition addGiveItem (type : SHAMapNodeType) (item : SHAMapItem) : op bool :=
  w ← sget;
  sassert (bool_decide (state_ (this w) ≠ Immutable)) "state_ != SHAMapState::Immutable";;
  sassert (bool_decide (type ≠ tnINNER)) "type != SHAMapNodeType::tnINNER";;
  let tag := key item in
  '(_, stack) ← walkTowardsKey tag;
  match stack with
  | [] => throw "SHAMapMissingNode"
  | (node, nodeID) :: stack =>
    n ← node_at node;
    match n with
    | LeafNode _ _ _ otherItem =>
      if key otherItem =? tag then mret false
      else
        node ← unshareNode node nodeID;
        n ← node_at node;
        node ← alloc (new_inner (cowid n));
        '(node, b1, b2, stack) ← split_loop depth_fuel node nodeID tag (key otherItem) stack;
        w ← sget;
        leaf1 ← slift (makeTypedLeaf sha512Half type item (cowid_ (this w)));
        l1 ← alloc leaf1;
        setChild node b1 (Some l1);;
        leaf2 ← slift (makeTypedLeaf sha512Half type otherItem (cowid_ (this w)));
        l2 ← alloc leaf2;
        setChild node b2 (Some l2);;
        dirtyUp stack tag node;;
        mret true
    | InnerNode _ _ _ =>
      node ← unshareNode node nodeID;
      bs ← inner_at node;
      b ← slift (selectBranch nodeID tag);
      sassert (isEmptyBranch bs b) "inner->isEmptyBranch(branch)";;
      w ← sget;
      leaf ← slift (makeTypedLeaf sha512Half type item (cowid_ (this w)));
      l ← alloc leaf;
      setChild node b (Some l);;
      dirtyUp stack tag node;;
      mret true
    end
  end.

(** ** Replacing an item *)

(** [SHAMapLeafNode::setItem]: whether the hash changed. *)
Definition setItem (l : loc) (item : SHAMapItem) : op bool :=
  n ← node_at l;
  match n with
  | LeafNode c h t _ =>
    sassert (negb (c =? 0)) "cowid_ != 0";;
    write l (LeafNode c (leaf_hash sha512Half t item) t item);;
    mret (negb (h =? leaf_hash sha512Half t item))
  | InnerNode _ _ _ => slift (Abort "cast")
  end.

Definition updateGiveItem (type : SHAMapNodeType) (item : SHAMapItem) : op bool :=
  let tag := key item in
  w ← sget;
  sassert (bool_decide (state_ (this w) ≠ Immutable)) "state_ != SHAMapState::Immutable";;
  '(_, stack) ← walkTowardsKey tag;
  match stack with
  | [] => throw "SHAMapMissingNode"
  | (node, nodeID) :: stack =>
    n ← node_at node;
    match n with
    | LeafNode _ _ t i =>
      if negb (key i =? tag) then slift (Abort "assert(false)")
      else if bool_decide (t ≠ type) then mret false
      else
        node ← unshareNode node nodeID;
        changed ← setItem node item;
        (if (changed : bool) then dirtyUp stack tag node else mret ());;
        mret true
    | InnerNode _ _ _ => slift (Abort "assert(false)")
    end
  end.

(** ** Deleting an item *)

(** The first branch that is not empty. *)
Definition first_branch (bs : list (option branch)) : option nat :=
  head (full_branches bs).

Fixpoint del_loop (stack : NodeStack) (type : SHAMapNodeType) (id : Z) (prevNode : option loc) : op unit :=
  match stack with
  | [] => mret ()
  | (node, nodeID) :: stack =>
    node ← unshareNode node nodeID;
    b ← slift (selectBranch nodeID id);
    setChild node b prevNode;;
    if isRoot nodeID then del_loop stack type id prevNode
    else
      bs ← inner_at node;
      prevNode ←
        match getBranchCount bs with
        | O => mret None
        | S O =>
          item ← onlyBelow depth_fuel node;
          match item with
          | Some item =>
            (match first_branch bs with Some i => setChild node i None | None => mret () end);;
            n ← node_at node;
            leaf ← slift (makeTypedLeaf sha512Half type item (cowid n));
            l ← alloc leaf;
            mret (Some l)
          | None => mret (Some node)
          end
        | _ => mret (Some node)
        end;
      del_loop stack type id prevNode
  end.

Definition delItem (id : Z) : op bool :=
  w ← sget;
  sassert (bool_decide (state_ (this w) ≠ Immutable)) "state_ != SHAMapState::Immutable";;
  '(_, stack) ← walkTowardsKey id;
  match stack with
  | [] => throw "SHAMapMissingNode"
  | (leaf, _) :: stack =>
    n ← node_at leaf;
    match n with
    | LeafNode _ _ type i =>
      if negb (key i =? id) then mret false
      else del_loop stack type id None;; mret true
    | InnerNode _ _ _ => mret false
    end
  end.

(** ** Sharing: [unshare], [getHash], [snapShot] *)

Definition preFlushNode (l : loc) : op loc :=
  n ← node_at l;
  w ← sget;
  sassert (negb (cowid n =? 0)) "node->cowid() != 0";;
  if cowid n =? cowid_ (this w) then mret l else alloc (clone (cowid_ (this w)) n).

(** The hashes of the children that are linked, then the hash of the node. *)
Definition updateHashDeep (l : loc) : op unit :=
  n ← node_at l;
  w ← sget;
  match n with
  | InnerNode c _ bs =>
    let bs := (λ b : option branch,
                 match b with
                 | Some (h, Some p) => Some (match nodes_ w !! p with Some n => getHash n | None => h end, Some p)
                 | b => b
                 end) <$> bs in
    write l (InnerNode c (inner_hash sha512Half bs) bs)
  | LeafNode _ _ _ _ => slift (Abort "cast")
  end.

(** [node->unshare()]. *)
Definition unshare_node (l : loc) : op unit := n ← node_at l; write l (unshared n).

(** [node->updateHash()] of a leaf. *)
Definition update_leaf (l : loc) : op unit := n ← node_at l; write l (updateHash sha512Half n).

(** The loop of [walkSubTree] without writing: the node being flushed, the next
    branch, the parents with the branch the walk descended into, and the count. *)
Fixpoint flush_loop (fuel : nat) (node : loc) (pos : nat) (stack : list (loc * nat)) (flushed : Z) : op (loc * Z) :=
  match fuel with
  | O => slift NoFuel
  | S fuel =>
    if (pos <? branchFactor)%nat then
      bs ← inner_at node;
      if isEmptyBranch bs pos then flush_loop fuel node (S pos) stack flushed
      else
        child ← slift (getChild bs pos);
        match child with
        | None => flush_loop fuel node (S pos) stack flushed
        | Some child =>
          n ← node_at child;
          if cowid n =? 0 then flush_loop fuel node (S pos) stack flushed
          else
            child ← preFlushNode child;
            if isInner n then flush_loop fuel child 0 ((node, pos) :: stack) flushed
            else
              p ← node_at node;
              w ← sget;
              sassert (cowid p =? cowid_ (this w)) "node->cowid() == cowid_";;
              update_leaf child;;
              unshare_node child;;
              shareChild node pos child;;
              flush_loop fuel node (S pos) stack (flushed + 1)
        end
    else
      updateHashDeep node;;
      unshare_node node;;
      match stack with
      | [] => mret (node, flushed + 1)
      | (parent, pos) :: stack =>
        p ← node_at parent;
        w ← sget;
        sassert (cowid p =? cowid_ (this w)) "parent->cowid() == cowid_";;
        shareChild parent pos node;;
        flush_loop fuel parent (S pos) stack (flushed + 1)
      end
  end.

(** [unshare()], which is [walkSubTree (false, hotUNKNOWN)].  The loop visits
    every inner node once, 16 branches and one step back up for each: the nodes
    in memory bound the number of its rounds. *)
Definition unshare : op Z :=
  w ← sget;
  let fuel := (17 * size (nodes_ w))%nat in
  let root := root_ (this w) in
  n ← node_at root;
  if cowid n =? 0 then mret 0
  else
    match n with
    | LeafNode _ _ _ _ =>
      root ← preFlushNode root;
      set_root root;;
      update_leaf root;;
      unshare_node root;;
      mret 1
    | InnerNode _ _ bs =>
      if bool_decide (Forall (λ b : option branch, b = None) bs) then
        root ← alloc (new_inner 0);
        set_root root;;
        mret 1
      else
        node ← preFlushNode root;
        '(node, flushed) ← flush_loop fuel node 0 [] 0;
        set_root node;;
        mret flushed
    end.

Definition getHash_map : op Z :=
  w ← sget;
  n ← node_at (root_ (this w));
  if getHash n =? 0 then
    _ ← unshare;
    w ← sget;
    n ← node_at (root_ (this w));
    mret (getHash n)
  else mret (getHash n).

Definition setImmutable : op unit :=
  w ← sget;
  sassert (bool_decide (state_ (this w) ≠ Invalid)) "state_ != SHAMapState::Invalid";;
  smodify (λ w, mkMemory (nodes_ w) (mkMap (cowid_ (this w)) (root_ (this w)) Immutable)).

(** The new map shares the root; its own memory operations run on it, and the
    map it was taken from is restored as [this]. *)
Definition snapShot (isMutable : bool) : op SHAMap :=
  w ← sget;
  let old := this w in
  let newMap := mkMap (u32 (cowid_ old + 1)) (root_ old) (if isMutable then Modifying else Immutable) in
  if bool_decide (state_ old ≠ Immutable) || isMutable then
    sput (mkMemory (nodes_ w) newMap);;
    _ ← unshare;
    w ← sget;
    sput (mkMemory (nodes_ w) old);;
    mret (this w)
  else mret newMap.
End SHAMap.

(** ** Iteration *)

Fixpoint below_loop (fuel : nat) (inner : loc) (stack : NodeStack) (branch : nat) : op (option loc * NodeStack) :=
  bs ← inner_at inner;
  match first_branch bs with
  | None => mret (None, stack)
  | Some i =>
    node ← descendThrow inner i;
    n ← node_at node;
    match n with
    | LeafNode _ _ _ item =>
      id ← slift (NodeID_ctor leafDepth (key item));
      mret (Some node, (node, id) :: stack)
    | InnerNode _ _ _ =>
      match fuel, stack with
      | O, _ => slift NoFuel
      | _, [] => slift (Abort "!stack.empty()")
      | S fuel, (_, top) :: _ =>
        id ← slift (getChildNodeID top (Z.of_nat branch));
        below_loop fuel node ((node, id) :: stack) branch
      end
    end
  end.

Definition firstBelow (node : loc) (stack : NodeStack) (branch : nat) : op (option loc * NodeStack) :=
  n ← node_at node;
  match n with
  | LeafNode _ _ _ item =>
    id ← slift (NodeID_ctor leafDepth (key item));
    mret (Some node, (node, id) :: stack)
  | InnerNode _ _ _ =>
    id ← match stack with
         | [] => mret root_id
         | (_, top) :: _ => slift (getChildNodeID top (Z.of_nat branch))
         end;
    below_loop depth_fuel node ((node, id) :: stack) branch
  end.

(** The first leaf, and the stack from which the iteration goes on. *)
Definition peekFirstItem : op (option loc * NodeStack) :=
  w ← sget;
  '(leaf, stack) ← firstBelow (root_ (this w)) [] 0;
  match leaf with
  | None => mret (None, [])
  | Some l => mret (Some l, stack)
  end.

(** The first branch after [b] that is not empty. *)
Definition next_branch (bs : list (option branch)) (b : nat) : option nat :=
  head (filter (λ i, isEmptyBranch bs i = false) (seq (S b) (branchFactor - S b))).

Fixpoint next_loop (id : Z) (stack : NodeStack) : op (option loc * NodeStack) :=
  match stack with
  | [] => mret (None, [])
  | (node, nodeID) :: rest =>
    n ← node_at node;
    sassert (negb (isLeaf n)) "!node->isLeaf()";;
    bs ← inner_at node;
    b ← slift (selectBranch nodeID id);
    match next_branch bs b with
    | Some i =>
      child ← descendThrow node i;
      '(leaf, stack) ← firstBelow child stack i;
      match leaf with
      | None => throw "SHAMapMissingNode"
      | Some l => mret (Some l, stack)
      end
    | None => next_loop id rest
    end
  end.

Definition peekNextItem (id : Z) (stack : NodeStack) : op (option loc * NodeStack) :=
  match stack with
  | [] => slift (Abort "!stack.empty()")
  | (l, _) :: stack =>
    n ← node_at l;
    sassert (isLeaf n) "stack.top().first->isLeaf()";;
    next_loop id stack
  end.

(** [for (auto const& item : map)]: [begin()], then [operator++] until the item
    is null. *)
Fixpoint for_loop (fuel : nat) (leaf : option loc) (stack : NodeStack) : op (list SHAMapItem) :=
  match leaf, fuel with
  | None, _ => mret []
  | Some _, O => slift NoFuel
  | Some l, S fuel =>
    item ← item_at l;
    '(leaf, stack) ← peekNextItem (key item) stack;
    rest ← for_loop fuel leaf stack;
    mret (item :: rest)
  end.

Definition for_each : op (list SHAMapItem) :=
  w ← sget;
  '(leaf, stack) ← peekFirstItem;
  for_loop (size (nodes_ w)) leaf stack.

Fixpoint upper_loop (id : Z) (stack : NodeStack) : op (option SHAMapItem * NodeStack) :=
  match stack with
  | [] => mret (None, [])
  | (node, nodeID) :: rest =>
    n ← node_at node;
    match n with
    | LeafNode _ _ _ item =>
      if id <? key item then mret (Some item, stack) else upper_loop id rest
    | InnerNode _ _ bs =>
      b ← slift (selectBranch nodeID id);
      match next_branch bs b with
      | Some i =>
        child ← descendThrow node i;
        '(leaf, stack) ← firstBelow child stack i;
        match leaf with
        | None => throw "SHAMapMissingNode"
        | Some l => item ← item_at l; mret (Some item, stack)
        end
      | None => upper_loop id rest
      end
    end
  end.

(** [upper_bound]: the item of the iterator, [None] for [end()]. *)
Definition upper_bound (id : Z) : op (option SHAMapItem * NodeStack) :=
  '(_, stack) ← walkTowardsKey id;
  upper_loop id stack.
