(* ===== verification/SHAMapTree.v ===== *)
(** * The tree a SHAMap stands for

    Keys are 64 nibbles; the inner node at depth [d] on the way to a key
    branches on nibble [d].  A [tree] is well formed when every leaf lies under
    the nibbles of its key and every inner node except the root has two items
    below it; a well formed tree is determined by its set of items. *)
From S2P Require Import Prelude Outcome Bytes Serializer SHAMapNode.

(** ** Keys *)

Definition valid_key (k : Z) : Prop := 0 ≤ k < 2 ^ 256.

(** The number formed by the first [d] nibbles, and nibble [d]. *)
Definition pre (d : nat) (k : Z) : Z := k / 16 ^ (64 - Z.of_nat d).
Definition nib (k : Z) (d : nat) : nat := Z.to_nat (pre (S d) k mod 16).

Lemma nib_range k d : (nib k d < 16)%nat.
Proof. unfold nib. pose proof (Z.mod_pos_bound (pre (S d) k) 16). lia. Qed.

Lemma pre_0 k : valid_key k → pre 0 k = 0.
Proof. intros Hk. apply Z.div_small. change (16 ^ (64 - Z.of_nat 0)) with (2 ^ 256). exact Hk. Qed.

Lemma pre_64 k : pre 64 k = k.
Proof. unfold pre. change (16 ^ (64 - Z.of_nat 64)) with 1. apply Z.div_1_r. Qed.

Lemma pre_S d k : (d < 64)%nat → pre (S d) k = 16 * pre d k + Z.of_nat (nib k d).
Proof.
  intros Hd. unfold nib. rewrite Z2Nat.id by (apply Z.mod_pos_bound; lia).
  assert (Hdiv : pre d k = pre (S d) k / 16).
  { unfold pre. rewrite Z.div_div by (try apply Z.pow_nonzero; lia).
    f_equal. replace (64 - Z.of_nat d) with (64 - Z.of_nat (S d) + 1) by lia.
    rewrite Z.pow_add_r by lia. lia. }
  rewrite Hdiv. pose proof (Z.div_mod (pre (S d) k) 16). lia.
Qed.

Lemma pre_nonneg d k : (d ≤ 64)%nat → valid_key k → 0 ≤ pre d k.
Proof. intros Hd [Hk _]. unfold pre. apply Z.div_pos; [done|]. apply Z.pow_pos_nonneg; lia. Qed.

(** Nibbles decide prefixes, and the order of keys. *)
Lemma pre_S_eq d k1 k2 :
  (d < 64)%nat → pre d k1 = pre d k2 → nib k1 d = nib k2 d → pre (S d) k1 = pre (S d) k2.
Proof. intros Hd Hp Hn. rewrite !pre_S by done. lia. Qed.

Lemma pre_S_inv d k p b :
  (d < 64)%nat → (b < 16)%nat → pre (S d) k = 16 * p + Z.of_nat b → pre d k = p ∧ nib k d = b.
Proof. intros Hd Hb H. rewrite pre_S in H by done. pose proof (nib_range k d). lia. Qed.

Lemma nib_lt d k1 k2 :
  (d < 64)%nat → valid_key k1 → valid_key k2 →
  pre d k1 = pre d k2 → (nib k1 d < nib k2 d)%nat → k1 < k2.
Proof.
  intros Hd H1 H2 Hp Hn. destruct (Z.lt_ge_cases k1 k2) as [|Hge]; [done|exfalso].
  assert (pre (S d) k2 ≤ pre (S d) k1).
  { unfold pre. apply Z.div_le_mono; [apply Z.pow_pos_nonneg; lia|done]. }
  rewrite !pre_S in * by done. lia.
Qed.

Lemma pre_le_eq d d' k1 k2 :
  (d ≤ d' ≤ 64)%nat → pre d' k1 = pre d' k2 → pre d k1 = pre d k2.
Proof.
  intros Hd. remember (d' - d)%nat as n eqn:Hn. revert d Hd Hn.
  induction n as [|n IH]; intros d Hd Hn H; [by replace d with d' by lia|].
  assert (Hs : pre (S d) k1 = pre (S d) k2) by (apply IH; [lia..|done]).
  rewrite !pre_S in Hs by lia. pose proof (nib_range k1 d). pose proof (nib_range k2 d). lia.
Qed.

(** ** Branch selection in the code *)

(** A position of depth [d] whose identifier respects the mask. *)
Definition idv (d : nat) (id : SHAMapNodeID) : Prop :=
  depth_ id = Z.of_nat d ∧ (d ≤ 64)%nat ∧ valid_key (id_ id) ∧ id_ id mod 16 ^ (64 - Z.of_nat d) = 0.

Lemma idv_root : idv 0 root_id.
Proof. split; [done|]. split; [lia|]. split; [unfold valid_key; cbn; lia|done]. Qed.

Lemma masks_closed d :
  (d ≤ 64)%nat → depthMask (Z.of_nat d) = Return (2 ^ 256 - 16 ^ (64 - Z.of_nat d)).
Proof.
  intros Hd.
  assert (H : forallb (λ d, match depthMask (Z.of_nat d) with
                            | Return m => m =? 2 ^ 256 - 16 ^ (64 - Z.of_nat d) | _ => false end) (seq 0 65) = true)
    by (vm_compute; reflexivity).
  rewrite forallb_forall in H. specialize (H d). rewrite in_seq in H.
  specialize (H ltac:(lia)). destruct (depthMask _) as [m| | |]; [|done..].
  by apply Z.eqb_eq in H as ->.
Qed.

(** Masking keeps exactly the numbers with zeroes below. *)
Lemma land_mask k j :
  valid_key k → 0 ≤ j ≤ 64 → Z.land k (2 ^ 256 - 16 ^ j) = k - k mod 16 ^ j.
Proof.
  intros Hk Hj. replace (16 ^ j) with (2 ^ (4 * j)) by (rewrite Z.pow_mul_r by lia; done).
  assert (Hm : 2 ^ 256 - 2 ^ (4 * j) = Z.shiftl (Z.ones (256 - 4 * j)) (4 * j)).
  { rewrite Z.shiftl_mul_pow2, Z.ones_equiv by lia.
    replace (2 ^ 256) with (2 ^ (256 - 4 * j) * 2 ^ (4 * j)) by (rewrite <- Z.pow_add_r by lia; f_equal; lia).
    lia. }
  rewrite Hm.
  transitivity (Z.shiftl (Z.shiftr k (4 * j)) (4 * j)).
  - apply Z.bits_inj'. intros n Hn. rewrite Z.land_spec.
    destruct (Z.lt_ge_cases n (4 * j)) as [Hlt|Hge].
    { rewrite !Z.shiftl_spec_low by lia. apply andb_false_r. }
    rewrite !Z.shiftl_spec_high, Z.shiftr_spec by lia.
    replace (n - 4 * j + 4 * j) with n by lia.
    destruct (Z.lt_ge_cases n 256) as [Hlt|Hge2].
    + rewrite Z.ones_spec_low by lia. apply andb_true_r.
    + rewrite Z.ones_spec_high by lia. rewrite andb_false_r.
      symmetry. rewrite <- (Z.mod_small k (2 ^ 256)) by exact Hk. by rewrite Z.mod_pow2_bits_high by lia.
  - rewrite Z.shiftl_mul_pow2, Z.shiftr_div_pow2 by lia.
    pose proof (Z.div_mod k (2 ^ (4 * j)) ltac:(apply Z.pow_nonzero; lia)). lia.
Qed.

Lemma land_mask_eq k d :
  valid_key k → (d ≤ 64)%nat → k mod 16 ^ (64 - Z.of_nat d) = 0 →
  Z.land k (2 ^ 256 - 16 ^ (64 - Z.of_nat d)) = k.
Proof. intros Hk Hd Hz. rewrite land_mask by (done || lia). lia. Qed.

Lemma NodeID_ctor_ok d k :
  valid_key k → (d ≤ 64)%nat → k mod 16 ^ (64 - Z.of_nat d) = 0 →
  NodeID_ctor (Z.of_nat d) k = Return (mkID (Z.of_nat d) k).
Proof.
  intros Hk Hd Hz. unfold NodeID_ctor, leafDepth.
  rewrite (proj2 (Z.ltb_ge _ _)), masks_closed by lia. cbn [mbind exc_bind].
  by rewrite land_mask_eq, Z.eqb_refl.
Qed.

(** The byte of the key holds the nibbles at an even depth and the next. *)
Lemma selectBranch_nib d id k :
  depth_ id = Z.of_nat d → (d < 64)%nat → selectBranch id k = Return (nib k d).
Proof.
  intros Hd Hlt. unfold selectBranch, leafDepth, nib, pre. rewrite Hd, (proj2 (Z.leb_gt _ _)) by lia.
  set (byte := Z.land _ 255).
  assert (Hb : byte = (k / 2 ^ (8 * (31 - Z.of_nat d / 2))) mod 2 ^ 8).
  { unfold byte. rewrite land_255, Z.shiftr_div_pow2; [done|]. Z.to_euclidean_division_equations. lia. }
  replace (16 ^ (64 - Z.of_nat (S d))) with (2 ^ (4 * (63 - Z.of_nat d)))
    by (rewrite Z.pow_mul_r by lia; f_equal; lia).
  pose proof (Z.mod_pos_bound (k / 2 ^ (4 * (63 - Z.of_nat d))) 16 ltac:(lia)) as Hrange.
  destruct (Z.odd (Z.of_nat d)) eqn:Hodd.
  - apply Z.odd_spec in Hodd as [e He].
    assert (Hn : Z.land byte 15 = (k / 2 ^ (4 * (63 - Z.of_nat d))) mod 16).
    { change 15 with (Z.ones 4). rewrite Z.land_ones, Hb by lia.
      rewrite He. replace ((2 * e + 1) / 2) with e by (Z.to_euclidean_division_equations; lia).
      replace (4 * (63 - (2 * e + 1))) with (8 * (31 - e)) by lia.
      change (2 ^ 8) with (2 ^ 4 * 16). rewrite Z.rem_mul_r by lia. change (2 ^ 4) with 16.
      by rewrite (Z.mul_comm 16), Z.mod_add, Z.mod_mod by lia. }
    rewrite Hn, (proj2 (Z.ltb_lt _ _)) by lia. done.
  - assert (He : Z.even (Z.of_nat d) = true) by (by rewrite <- Z.negb_odd, Hodd).
    apply Z.even_spec in He as [e He].
    assert (Hn : Z.shiftr byte 4 = (k / 2 ^ (4 * (63 - Z.of_nat d))) mod 16).
    { rewrite Z.shiftr_div_pow2, Hb by lia. rewrite He.
      replace (2 * e / 2) with e by (Z.to_euclidean_division_equations; lia).
      replace (4 * (63 - 2 * e)) with (8 * (31 - e) + 4) by lia.
      rewrite Z.pow_add_r, <- Z.div_div by (try apply Z.pow_nonzero; lia).
      set (x := k / _). change (2 ^ 8) with (16 * 16). change (2 ^ 4) with 16.
      rewrite Z.rem_mul_r, (Z.mul_comm 16 (_ mod 16)), Z.div_add, Z.div_small by
        (try apply Z.mod_pos_bound; lia). done. }
    rewrite Hn, (proj2 (Z.ltb_lt _ _)) by lia. done.
Qed.

Lemma child_nibble d b :
  (d < 64)%nat → 0 ≤ b →
  Z.shiftl (if Z.odd (Z.of_nat d) then b else Z.shiftl b 4) (8 * (31 - Z.of_nat d / 2)) =
  b * 16 ^ (63 - Z.of_nat d).
Proof.
  intros Hd Hb.
  replace (16 ^ (63 - Z.of_nat d)) with (2 ^ (4 * (63 - Z.of_nat d))) by (rewrite Z.pow_mul_r by lia; done).
  destruct (Z.odd (Z.of_nat d)) eqn:Hodd.
  - apply Z.odd_spec in Hodd as [e He]. rewrite He.
    replace ((2 * e + 1) / 2) with e by (Z.to_euclidean_division_equations; lia).
    rewrite Z.shiftl_mul_pow2 by lia. do 2 f_equal. lia.
  - assert (He : Z.even (Z.of_nat d) = true) by (by rewrite <- Z.negb_odd, Hodd).
    apply Z.even_spec in He as [e He]. rewrite He.
    replace (2 * e / 2) with e by (Z.to_euclidean_division_equations; lia).
    rewrite !Z.shiftl_mul_pow2, <- Z.mul_assoc, <- Z.pow_add_r by lia. do 2 f_equal. lia.
Qed.

Lemma getChildNodeID_ok d id b :
  idv d id → (d < 64)%nat → (b < 16)%nat →
  ∃ id', getChildNodeID id (Z.of_nat b) = Return id' ∧ idv (S d) id'.
Proof.
  intros (Hdep & Hle & Hk & Hz) Hd Hb. unfold getChildNodeID, leafDepth. rewrite Hdep.
  rewrite (proj2 (Z.leb_gt 16 _)), (proj2 (Z.ltb_ge 64 _)), (proj2 (Z.leb_gt 64 _)) by lia.
  rewrite masks_closed by lia. cbn [mbind exc_bind].
  rewrite land_mask_eq, Z.eqb_refl by done. cbn [negb].
  replace (Z.of_nat d + 1) with (Z.of_nat (S d)) by lia.
  set (m := 16 ^ (64 - Z.of_nat (S d))).
  assert (Hm : 16 ^ (64 - Z.of_nat d) = 16 * m).
  { unfold m. replace (64 - Z.of_nat d) with (1 + (64 - Z.of_nat (S d))) by lia.
    by rewrite Z.pow_add_r by lia. }
  assert (Hmpos : 0 < m) by (apply Z.pow_pos_nonneg; lia).
  rewrite Hm in Hz. apply Z.mod_divide in Hz as [q Hq]; [|lia].
  rewrite NodeID_ctor_ok; [|done|lia|].
  2: { fold m. rewrite Hq. replace (q * (16 * m)) with (q * 16 * m) by lia. apply Z.mod_mul. lia. }
  cbn [mbind exc_bind]. eexists. split; [done|]. cbn [depth_ id_].
  rewrite child_nibble by lia.
  replace (16 ^ (63 - Z.of_nat d)) with m by (unfold m; f_equal; lia).
  assert (Hp : 16 * m = 2 ^ (4 * (64 - Z.of_nat d))).
  { rewrite <- Hm, Z.pow_mul_r by lia. done. }
  rewrite Hq, Hp, lor_disjoint by (rewrite <- ?Hp; first [lia | nia]). rewrite <- Hp.
  split; [done|]. cbn [id_]. split; [lia|]. split.
  - unfold valid_key in *. split; [rewrite Hq in Hk; nia|].
    assert (Hdvd : 2 ^ 256 = 16 ^ Z.of_nat d * (16 * m)).
    { rewrite <- Hm, <- Z.pow_add_r by lia.
      replace (Z.of_nat d + (64 - Z.of_nat d)) with 64 by lia. done. }
    rewrite Hq, Hdvd in Hk. assert (q < 16 ^ Z.of_nat d) by nia. rewrite Hdvd. nia.
  - fold m. replace (q * (16 * m) + Z.of_nat b * m) with ((q * 16 + Z.of_nat b) * m) by lia.
    apply Z.mod_mul. lia.
Qed.

(** ** Trees *)

Inductive tree :=
  | TLeaf (type : SHAMapNodeType) (item : SHAMapItem)
  | TInner (children : list (option tree)).

Fixpoint items (t : tree) : list SHAMapItem :=
  match t with
  | TLeaf _ it => [it]
  | TInner cs => concat (map (λ o, match o with Some c => items c | None => [] end) cs)
  end.

Definition valid_item (it : SHAMapItem) : Prop :=
  valid_key (key it) ∧ (12 ≤ length (peekData it))%nat.

(** All leaves have the type [ty]; the tree stands at depth [d] under the
    nibbles [p]. *)
Inductive wf (ty : SHAMapNodeType) : nat → Z → tree → Prop :=
  | wf_leaf d p it :
      (d ≤ 64)%nat → valid_item it → pre d (key it) = p → wf ty d p (TLeaf ty it)
  | wf_inner d p cs :
      (d < 64)%nat → length cs = branchFactor →
      (∀ i c, cs !! i = Some (Some c) → wf ty (S d) (16 * p + Z.of_nat i) c) →
      (∃ a b, a ∈ items (TInner cs) ∧ b ∈ items (TInner cs) ∧ key a ≠ key b) →
      wf ty d p (TInner cs).

(** The root is an inner node with any number of children. *)
Definition wf_root (ty : SHAMapNodeType) (cs : list (option tree)) : Prop :=
  length cs = branchFactor ∧ ∀ i c, cs !! i = Some (Some c) → wf ty 1 (Z.of_nat i) c.

Lemma elem_of_items cs it :
  it ∈ items (TInner cs) ↔ ∃ i c, cs !! i = Some (Some c) ∧ it ∈ items c.
Proof.
  cbn [items]. rewrite list_elem_of_In, in_concat. split.
  - intros (l & (o & <- & Ho)%in_map_iff & Hit). apply list_elem_of_In in Ho, Hit.
    destruct o as [c|]; [|by apply elem_of_nil in Hit].
    apply list_elem_of_lookup in Ho as [i Hi]. eauto.
  - intros (i & c & Hi & Hit). exists (items c). split; [|by apply list_elem_of_In].
    apply in_map_iff. exists (Some c). split; [done|].
    rewrite <- list_elem_of_In. by eapply list_elem_of_lookup_2.
Qed.

Lemma wf_item ty d p t it :
  wf ty d p t → it ∈ items t → valid_item it ∧ pre d (key it) = p.
Proof.
  intros Hwf. revert it. induction Hwf as [d p it Hd Hv Hp|d p cs Hd Hlen Hcs IH Htwo]; intros it'.
  - intros ->%list_elem_of_singleton. done.
  - intros (i & c & Hi & Hit)%elem_of_items. destruct (IH i c Hi _ Hit) as [Hv Hp].
    split; [done|]. assert ((i < 16)%nat) by (apply lookup_lt_Some in Hi; by rewrite Hlen in Hi).
    by apply pre_S_inv in Hp as [Hp _].
Qed.

Lemma wf_nonempty ty d p t : wf ty d p t → ∃ it, it ∈ items t.
Proof.
  intros [? ? it Hd Hv Hp|? ? cs Hd Hlen Hcs (a & b & Ha & _)]; [|by exists a].
  exists it. by apply list_elem_of_singleton.
Qed.

(** The items below one branch are those whose nibble is the branch. *)
Lemma child_items ty d p cs it i :
  (d < 64)%nat → length cs = branchFactor →
  (∀ i c, cs !! i = Some (Some c) → wf ty (S d) (16 * p + Z.of_nat i) c) →
  nib (key it) d = i →
  it ∈ items (TInner cs) ↔ ∃ c, cs !! i = Some (Some c) ∧ it ∈ items c.
Proof.
  intros Hd Hlen Hcs Hn. rewrite elem_of_items. split; [|naive_solver].
  intros (j & c & Hj & Hit). exists c. split; [|done].
  destruct (wf_item _ _ _ _ _ (Hcs j c Hj) Hit) as [_ Hp].
  assert ((j < 16)%nat) by (apply lookup_lt_Some in Hj; by rewrite Hlen in Hj).
  apply pre_S_inv in Hp as [_ Hp]; [|done..]. by rewrite <- Hn, Hp.
Qed.

Lemma key_inj ty d p t a b :
  wf ty d p t → a ∈ items t → b ∈ items t → key a = key b → a = b.
Proof.
  intros Hwf. revert a b. induction Hwf as [d p it Hd Hv Hp|d p cs Hd Hlen Hcs IH Htwo]; intros a b.
  - intros ->%list_elem_of_singleton ->%list_elem_of_singleton. done.
  - intros Ha Hb Hk.
    apply (child_items ty d p cs a (nib (key a) d)) in Ha as (ca & Hca & Ha); [|done..].
    apply (child_items ty d p cs b (nib (key b) d)) in Hb as (cb & Hcb & Hb); [|done..].
    rewrite <- Hk, Hca in Hcb. injection Hcb as <-. by eapply (IH _ _ Hca).
Qed.

(** ** A tree is determined by its items *)

Lemma kids_unique ty d p cs1 cs2 :
  (d < 64)%nat → length cs1 = branchFactor → length cs2 = branchFactor →
  (∀ i c, cs1 !! i = Some (Some c) → wf ty (S d) (16 * p + Z.of_nat i) c) →
  (∀ i c, cs2 !! i = Some (Some c) → wf ty (S d) (16 * p + Z.of_nat i) c) →
  (∀ it, it ∈ items (TInner cs1) ↔ it ∈ items (TInner cs2)) →
  (∀ i c1 c2, cs1 !! i = Some (Some c1) → wf ty (S d) (16 * p + Z.of_nat i) c2 →
     (∀ it, it ∈ items c1 ↔ it ∈ items c2) → c1 = c2) →
  cs1 = cs2.
Proof.
  intros Hd Hlen1 Hlen2 Hcs1 Hcs2 Heq Huniq.
  apply list_eq_same_length with branchFactor; [done..|]. intros i x y Hi Hx Hy.
  assert (Hchild : ∀ it, nib (key it) d = i →
    (∃ c, cs1 !! i = Some (Some c) ∧ it ∈ items c) ↔ (∃ c, cs2 !! i = Some (Some c) ∧ it ∈ items c)).
  { intros it Hn. rewrite <- (child_items ty d p cs1 it i), <- (child_items ty d p cs2 it i) by done.
    apply Heq. }
  assert (Hnib : ∀ c it, wf ty (S d) (16 * p + Z.of_nat i) c → it ∈ items c → nib (key it) d = i).
  { intros c it Hc Hit. destruct (wf_item _ _ _ _ _ Hc Hit) as [_ Hpre].
    by apply pre_S_inv in Hpre as [_ ?]. }
  assert (H12 : ∀ c1 it, cs1 !! i = Some (Some c1) → it ∈ items c1 → ∃ c, cs2 !! i = Some (Some c) ∧ it ∈ items c).
  { intros c1 it Hc1 Hit. apply Hchild; [by eapply Hnib; [apply (Hcs1 _ _ Hc1)|]|eauto]. }
  assert (H21 : ∀ c2 it, cs2 !! i = Some (Some c2) → it ∈ items c2 → ∃ c, cs1 !! i = Some (Some c) ∧ it ∈ items c).
  { intros c2 it Hc2 Hit. apply Hchild; [by eapply Hnib; [apply (Hcs2 _ _ Hc2)|]|eauto]. }
  destruct x as [c1|], y as [c2|]; [| | |done].
  - f_equal. apply (Huniq i); [done|by apply Hcs2|]. intros it. split; intros Hit.
    + destruct (H12 _ _ Hx Hit) as (c & Hc & ?). congruence.
    + destruct (H21 _ _ Hy Hit) as (c & Hc & ?). congruence.
  - destruct (wf_nonempty _ _ _ _ (Hcs1 _ _ Hx)) as [it Hit].
    destruct (H12 _ _ Hx Hit) as (c & Hc & ?). congruence.
  - destruct (wf_nonempty _ _ _ _ (Hcs2 _ _ Hy)) as [it Hit].
    destruct (H21 _ _ Hy Hit) as (c & Hc & ?). congruence.
Qed.

Lemma wf_unique ty d p t1 t2 :
  wf ty d p t1 → wf ty d p t2 → (∀ it, it ∈ items t1 ↔ it ∈ items t2) → t1 = t2.
Proof.
  intros H1. revert t2. induction H1 as [d p it Hd Hv Hp|d p cs Hd Hlen Hcs IH (a & b & Ha & Hb & Hab)];
    intros t2 H2 Heq.
  - destruct H2 as [d p it2 _ _ _|d p cs2 _ _ _ (a & b & Ha & Hb & Hab)].
    + f_equal. symmetry. apply list_elem_of_singleton, Heq, list_elem_of_singleton. done.
    + apply Heq, list_elem_of_singleton in Ha as ->. apply Heq, list_elem_of_singleton in Hb as ->. done.
  - destruct H2 as [d p it2 _ _ _|d p cs2 _ Hlen2 Hcs2 _].
    { apply Heq, list_elem_of_singleton in Ha as ->. apply Heq, list_elem_of_singleton in Hb as ->. done. }
    f_equal. apply (kids_unique ty d p); [done..|]. intros i c1 c2 Hc1 Hc2 Heq'. by eapply (IH i c1).
Qed.
