(* ===== verification/SHAMapLoc.v ===== *)
(** * SHAMaps in memory

    An [ltree] is the part of the memory a map reaches: a tree together with the
    pointers, owners and cached hashes of its nodes.  [erase] forgets them.  The
    lemmas here say what the memory operations do to such a tree and to the rest
    of the memory. *)
From S2P Require Import Prelude Outcome Bytes Serializer SHAMapNode SHAMap SHAMapTree.

Inductive ltree :=
  | LLeaf (l : loc) (w h : Z) (ty : SHAMapNodeType) (it : SHAMapItem)
  | LInner (l : loc) (w h : Z) (cs : list (option (Z * ltree))).

Definition lroot (t : ltree) : loc := match t with LLeaf l _ _ _ _ | LInner l _ _ _ => l end.

(** The branches of the node: the hash and the pointer of each child. *)
Definition shape (cs : list (option (Z * ltree))) : list (option branch) :=
  (λ o : option (Z * ltree), match o with Some (h, t) => Some (h, Some (lroot t)) | None => None end) <$> cs.

Definition lnode (t : ltree) : TreeNode :=
  match t with
  | LLeaf _ w h ty it => LeafNode w h ty it
  | LInner _ w h cs => InnerNode w h (shape cs)
  end.

Fixpoint erase (t : ltree) : tree :=
  match t with
  | LLeaf _ _ _ ty it => TLeaf ty it
  | LInner _ _ _ cs =>
    TInner (map (λ o, match o with Some (_, t) => Some (erase t) | None => None end) cs)
  end.

Definition ekids (cs : list (option (Z * ltree))) : list (option tree) :=
  map (λ o, match o with Some (_, t) => Some (erase t) | None => None end) cs.

Lemma erase_inner l w h cs : erase (LInner l w h cs) = TInner (ekids cs).
Proof. done. Qed.

(** The node [n] is at [l] in the tree. *)
Inductive At : ltree → loc → TreeNode → Prop :=
  | At_root t : At t (lroot t) (lnode t)
  | At_child l w h cs i hh t l' n :
      cs !! i = Some (Some (hh, t)) → At t l' n → At (LInner l w h cs) l' n.

Definition inl (t : ltree) (l : loc) : Prop := ∃ n, At t l n.

(** The memory holds the tree. *)
Definition holds (h : gmap loc TreeNode) (t : ltree) : Prop := ∀ l n, At t l n → h !! l = Some n.

(** No node occurs twice. *)
Inductive uniq : ltree → Prop :=
  | uniq_leaf l w h ty it : uniq (LLeaf l w h ty it)
  | uniq_inner l w h cs :
      (∀ i hh t, cs !! i = Some (Some (hh, t)) → uniq t ∧ ¬ inl t l) →
      (∀ i j hi ti hj tj, i ≠ j → cs !! i = Some (Some (hi, ti)) → cs !! j = Some (Some (hj, tj)) →
         ∀ x, inl ti x → inl tj x → False) →
      uniq (LInner l w h cs).

(** ** Looking at a tree *)

Lemma erase_lookup cs i :
  ekids cs !! i =
  (λ o : option (Z * ltree), match o with Some (_, t) => Some (erase t) | None => None end) <$> cs !! i.
Proof. apply list_lookup_fmap. Qed.

Lemma erase_child cs i c :
  ekids cs !! i = Some (Some c) ↔ ∃ hh t, cs !! i = Some (Some (hh, t)) ∧ c = erase t.
Proof. rewrite erase_lookup. destruct (cs !! i) as [[[hh t]|]|]; cbn; naive_solver. Qed.

Lemma length_ekids cs : length (ekids cs) = length cs.
Proof. apply length_map. Qed.

Lemma shape_lookup cs i :
  shape cs !! i = (λ o : option (Z * ltree),
    match o with Some (h, t) => Some (h, Some (lroot t)) | None => None end) <$> cs !! i.
Proof. apply list_lookup_fmap. Qed.

Lemma shape_insert cs b (o : option (Z * ltree)) :
  shape (<[b := o]> cs) =
  <[b := match o with Some (h, t) => Some (h, Some (lroot t)) | None => None end]> (shape cs).
Proof. unfold shape. apply list_fmap_insert. Qed.

Lemma isEmptyBranch_shape cs b :
  isEmptyBranch (shape cs) b = match cs !! b with Some (Some _) => false | _ => true end.
Proof. unfold isEmptyBranch. rewrite shape_lookup. by destruct (cs !! b) as [[[??]|]|]. Qed.

Lemma getChild_shape cs b hh t :
  cs !! b = Some (Some (hh, t)) → getChild (shape cs) b = Return (Some (lroot t)).
Proof. intros H. unfold getChild. by rewrite shape_lookup, H. Qed.

Lemma inl_root t : inl t (lroot t).
Proof. eexists. apply At_root. Qed.

Lemma At_inner_inv l w h cs l' n :
  At (LInner l w h cs) l' n →
  (l' = l ∧ n = InnerNode w h (shape cs)) ∨
  ∃ i hh t, cs !! i = Some (Some (hh, t)) ∧ At t l' n.
Proof. intros H. inv H; [by left|right; eauto 10]. Qed.

Lemma At_leaf_inv l w h ty it l' n :
  At (LLeaf l w h ty it) l' n → l' = l ∧ n = LeafNode w h ty it.
Proof. intros H. by inv H. Qed.

Lemma inl_inner l w h cs l' :
  inl (LInner l w h cs) l' ↔ l' = l ∨ ∃ i hh t, cs !! i = Some (Some (hh, t)) ∧ inl t l'.
Proof.
  split.
  - intros [n [[-> _]|(i & hh & t & Hi & H)]%At_inner_inv]; [by left|right; unfold inl; eauto 10].
  - intros [->|(i & hh & t & Hi & n & H)]; [apply inl_root|]. exists n. by eapply At_child.
Qed.

Lemma inl_leaf l w h ty it l' : inl (LLeaf l w h ty it) l' ↔ l' = l.
Proof.
  split; [by intros [n [-> _]%At_leaf_inv]|]. intros ->. apply inl_root.
Qed.

Lemma holds_root h t : holds h t → h !! lroot t = Some (lnode t).
Proof. intros H. apply H, At_root. Qed.

Lemma holds_child h l w hh cs i hc t :
  holds h (LInner l w hh cs) → cs !! i = Some (Some (hc, t)) → holds h t.
Proof. intros H Hi l' n Hn. apply H. by eapply At_child. Qed.

Lemma holds_inner h l w hh cs :
  h !! l = Some (InnerNode w hh (shape cs)) →
  (∀ i hc t, cs !! i = Some (Some (hc, t)) → holds h t) → holds h (LInner l w hh cs).
Proof.
  intros Hl Hcs l' n [[-> ->]|(i & hc & t & Hi & Hn)]%At_inner_inv; [done|]. by apply (Hcs i hc t).
Qed.

Lemma holds_agree h h' t : holds h t → (∀ l, inl t l → h' !! l = h !! l) → holds h' t.
Proof. intros H Ha l n Hn. rewrite Ha by (by exists n). by apply H. Qed.

Lemma holds_alive h t l : holds h t → inl t l → is_Some (h !! l).
Proof. intros H [n Hn]. exists n. by apply H. Qed.

(** Memory cells outside the tree do not matter. *)
Lemma holds_insert h t l n : holds h t → ¬ inl t l → holds (<[l := n]> h) t.
Proof.
  intros H Hl. apply (holds_agree h); [done|]. intros l' Hl'. apply lookup_insert_ne. by intros ->.
Qed.

(** ** Counting nodes *)

(** The pointers of the leaves, or of the inner nodes. *)
Fixpoint pick (leaves : bool) (t : ltree) : list loc :=
  match t with
  | LLeaf l _ _ _ _ => if leaves then [l] else []
  | LInner l _ _ cs =>
    (if leaves then [] else [l]) ++
    concat (map (λ o, match o with Some (_, t) => pick leaves t | None => [] end) cs)
  end.

Definition inners : ltree → list loc := pick false.

Definition inners_of (o : option (Z * ltree)) : list loc :=
  match o with Some (_, t) => inners t | None => [] end.

(** Induction on a tree and its children. *)
Lemma ltree_ind' (P : ltree → Prop) :
  (∀ l w h ty it, P (LLeaf l w h ty it)) →
  (∀ l w h cs, (∀ i hh t, cs !! i = Some (Some (hh, t)) → P t) → P (LInner l w h cs)) → ∀ t, P t.
Proof.
  intros Hleaf Hinner. fix IH 1. intros [l w h ty it|l w h cs]; [apply Hleaf|apply Hinner].
  induction cs as [|o cs IHcs]; intros i hh t Hi; [discriminate Hi|].
  destruct i as [|i]; [|exact (IHcs i hh t Hi)]. destruct o as [[ho to]|]; [|discriminate Hi].
  pose proof (IH to) as Hto. cbn in Hi. injection Hi as <- <-. exact Hto.
Qed.

Lemma pick_children q cs l :
  l ∈ concat (map (λ o : option (Z * ltree), match o with Some (_, t) => pick q t | None => [] end) cs) ↔
  ∃ i hh t, cs !! i = Some (Some (hh, t)) ∧ l ∈ pick q t.
Proof.
  rewrite list_elem_of_In, in_concat. split.
  - intros (ls & (o & <- & Ho)%in_map_iff & Hl). apply list_elem_of_In in Ho, Hl.
    apply list_elem_of_lookup in Ho as [i Hi]. destruct o as [[hh t]|]; [eauto|by apply elem_of_nil in Hl].
  - intros (i & hh & t & Hi & Hl). exists (pick q t). split; [|by apply list_elem_of_In].
    apply in_map_iff. exists (Some (hh, t)). split; [done|]. rewrite <- list_elem_of_In.
    by eapply list_elem_of_lookup_2.
Qed.

Lemma pick_inl q t l : l ∈ pick q t → inl t l.
Proof.
  induction t as [l' w h ty it|l' w h cs IH] using ltree_ind'; cbn [pick].
  - rewrite inl_leaf. destruct q; [by intros ->%list_elem_of_singleton|by intros ?%elem_of_nil].
  - rewrite elem_of_app, pick_children, inl_inner.
    intros [H|(i & hh & t & Hi & Hl)]; [left|right; by eauto 10].
    destruct q; [by apply elem_of_nil in H|by apply list_elem_of_singleton].
Qed.

Lemma NoDup_concat_map {A B} (f : A → list B) l :
  (∀ i x, l !! i = Some x → NoDup (f x)) →
  (∀ i j x y b, i ≠ j → l !! i = Some x → l !! j = Some y → b ∈ f x → b ∈ f y → False) →
  NoDup (concat (map f l)).
Proof.
  induction l as [|x l IH]; intros Hn Hd; [constructor|]. cbn [map concat]. apply NoDup_app. split_and!.
  - by apply (Hn 0%nat).
  - intros b Hb Hb'. rewrite list_elem_of_In, in_concat in Hb'.
    destruct Hb' as (ls & (y & <- & Hy)%in_map_iff & Hb'). apply list_elem_of_In in Hy, Hb'.
    apply list_elem_of_lookup in Hy as [j Hj]. by eapply (Hd 0%nat (S j)).
  - apply IH; [intros i y Hi; by apply (Hn (S i))|]. intros i j y z b Hij Hi Hj. apply (Hd (S i) (S j)); [lia|done..].
Qed.

Lemma pick_NoDup q t : uniq t → NoDup (pick q t).
Proof.
  induction t as [l w h ty it|l w h cs IH] using ltree_ind'; intros Hu; cbn [pick].
  { destruct q; [apply NoDup_singleton|constructor]. }
  inv Hu as [|? ? ? ? Hc Hd]. apply NoDup_app. split_and!; [destruct q; [constructor|apply NoDup_singleton]|..].
  - intros x Hx (i & hh & t & Hi & Hl)%pick_children. destruct q; [by apply elem_of_nil in Hx|].
    apply list_elem_of_singleton in Hx as ->. destruct (Hc _ _ _ Hi) as [_ Hn]. by apply Hn, (pick_inl false).
  - apply NoDup_concat_map.
    + intros i [[hh t]|] Hi; [|constructor]. eapply IH; [done|]. by eapply Hc.
    + intros i j [[hi ti]|] [[hj tj]|] b Hij Hi Hj; [|by intros ? ?%elem_of_nil|by intros ?%elem_of_nil..].
      intros Hb Hb'. by eapply (Hd i j); [..|eapply pick_inl|eapply pick_inl].
Qed.

Lemma pick_bound q h t : holds h t → uniq t → (length (pick q t) ≤ size h)%nat.
Proof.
  intros Hh Hu. rewrite <- size_dom.
  replace (length (pick q t)) with (size (list_to_set (pick q t) : gset loc))
    by (by apply size_list_to_set, pick_NoDup).
  apply subseteq_size. intros l Hl%elem_of_list_to_set. apply elem_of_dom. by eapply holds_alive, pick_inl.
Qed.

Lemma pick_leaves t : length (pick true t) = length (items (erase t)).
Proof.
  induction t as [l w h ty it|l w h cs IH] using ltree_ind'; [done|]. cbn [pick app].
  rewrite erase_inner. cbn [items].
  induction cs as [|o cs IHcs]; [done|]. cbn [ekids map concat]. rewrite !length_app. f_equal.
  - destruct o as [[hh t]|]; [|done]. by eapply (IH 0%nat).
  - apply IHcs. intros i hh t Hi. by eapply (IH (S i)).
Qed.

(** ** Memory operations *)

Section run.
Context (m : SHAMap).

Lemma node_at_run h l n : h !! l = Some n → node_at l (mkMemory h m) = (Return n, mkMemory h m).
Proof. intros H. unfold node_at, mbind, ST_bind, sget. cbn. by rewrite H. Qed.

Lemma inner_at_run h l w hh bs :
  h !! l = Some (InnerNode w hh bs) → inner_at l (mkMemory h m) = (Return bs, mkMemory h m).
Proof. intros H. unfold inner_at. by erewrite ST_bind_return by (by apply node_at_run). Qed.

Lemma item_at_run h l w hh ty it :
  h !! l = Some (LeafNode w hh ty it) → item_at l (mkMemory h m) = (Return it, mkMemory h m).
Proof. intros H. unfold item_at. by erewrite ST_bind_return by (by apply node_at_run). Qed.

Lemma descendThrow_run h l w hh cs b hc t :
  h !! l = Some (InnerNode w hh (shape cs)) → cs !! b = Some (Some (hc, t)) →
  descendThrow l b (mkMemory h m) = (Return (lroot t), mkMemory h m).
Proof.
  intros H Hb. unfold descendThrow. erewrite ST_bind_return by (by eapply inner_at_run).
  unfold slift, mbind, ST_bind. by rewrite (getChild_shape _ _ _ _ Hb).
Qed.

Lemma alloc_run h n :
  ∃ l, h !! l = None ∧ alloc n (mkMemory h m) = (Return l, mkMemory (<[l := n]> h) m).
Proof.
  exists (fresh (dom h)). split; [|done]. apply not_elem_of_dom. apply is_fresh.
Qed.

Lemma setChild_run h l w hh bs b (o : option loc) :
  h !! l = Some (InnerNode w hh bs) → (b < branchFactor)%nat → w ≠ 0 → o ≠ Some l →
  setChild l b o (mkMemory h m) =
    (Return (), mkMemory (<[l := InnerNode w 0 (<[b := (λ x, (0, Some x)) <$> o]> bs)]> h) m).
Proof.
  intros H Hb Hw Ho. unfold setChild. erewrite ST_bind_return by (by apply node_at_run). cbv beta iota.
  rewrite (proj2 (Nat.ltb_lt _ _)), (proj2 (Z.eqb_neq _ _)), bool_decide_eq_false_2 by done. done.
Qed.
End run.

(** ** Owners *)

(** The nodes of the tree that belong to the owner [c]. *)
Definition mine (c : Z) (t : ltree) (l : loc) : Prop := ∃ n, At t l n ∧ cowid n = c.

Lemma mine_inl c t l : mine c t l → inl t l.
Proof. intros (n & Hn & _). by exists n. Qed.

Lemma mine_child c l w h cs i hh t x :
  cs !! i = Some (Some (hh, t)) → mine c t x → mine c (LInner l w h cs) x.
Proof. intros Hi (n & Hn & Hc). exists n. split; [by eapply At_child|done]. Qed.

Lemma mine_inner c l w h cs x :
  mine c (LInner l w h cs) x ↔
  (x = l ∧ w = c) ∨ ∃ i hh t, cs !! i = Some (Some (hh, t)) ∧ mine c t x.
Proof.
  split.
  - intros (n & [[-> ->]|(i & hh & t & Hi & Hn)]%At_inner_inv & Hc); [by left|].
    right. exists i, hh, t. split; [done|]. by exists n.
  - intros [[-> <-]|(i & hh & t & Hi & Hm)]; [|by eapply mine_child].
    exists (InnerNode w h (shape cs)). split; [apply (At_root (LInner l w h cs))|done].
Qed.

(** ** What an operation of the owner [c] does to a tree

    From [t] in the memory [h] it makes [t'] in the memory [h']; cells that are
    not its own are untouched.  [K] is what is known of the new tree. *)
Record evo (K : ltree → Prop) (c : Z) (h : gmap loc TreeNode) (t : ltree) (h' : gmap loc TreeNode) (t' : ltree) : Prop := {
  upd_holds : holds h' t';
  upd_uniq : uniq t';
  upd_lok : K t';
  upd_new x : inl t' x → inl t x ∨ h !! x = None;
  upd_mine x : mine c t' x → mine c t x ∨ h !! x = None;
  upd_frame x n : h !! x = Some n → ¬ mine c t x → h' !! x = Some n;
  upd_dom x : is_Some (h !! x) → is_Some (h' !! x) }.

(** ** Replacing one child of an inner node *)

(** The nodes of the old child, and those of them the owner may change. *)
Definition old_child (cs : list (option (Z * ltree))) (b : nat) (x : loc) : Prop :=
  ∃ hc t, cs !! b = Some (Some (hc, t)) ∧ inl t x.
Definition old_mine (c : Z) (cs : list (option (Z * ltree))) (b : nat) (x : loc) : Prop :=
  ∃ hc t, cs !! b = Some (Some (hc, t)) ∧ mine c t x.

(** [h] is the memory after the child of branch [b] was rebuilt into [o]. *)
Record remade (K : ltree → Prop) (c : Z) (h0 h : gmap loc TreeNode) (l : loc) (w hh : Z)
    (cs : list (option (Z * ltree))) (b : nat) (o : option ltree) : Prop := {
  rb_holds : holds h0 (LInner l w hh cs);
  rb_uniq : uniq (LInner l w hh cs);
  rb_lok : K (LInner l w hh cs);
  rb_branch : (b < length cs)%nat;
  rb_frame x n : h0 !! x = Some n → ¬ old_mine c cs b x → h !! x = Some n;
  rb_dom x : is_Some (h0 !! x) → is_Some (h !! x);
  rb_t_holds t : o = Some t → holds h t;
  rb_t_uniq t : o = Some t → uniq t;
  rb_t_lok t : o = Some t → K t;
  rb_t_new t x : o = Some t → inl t x → old_child cs b x ∨ h0 !! x = None;
  rb_t_mine t x : o = Some t → mine c t x → old_mine c cs b x ∨ h0 !! x = None }.

(** Branch [b] with the child [o], whose hash is noted as [nh]. *)
Definition put_child (nh : Z) (cs : list (option (Z * ltree))) (b : nat) (o : option ltree) :
    list (option (Z * ltree)) := <[b := (λ t, (nh, t)) <$> o]> cs.

Lemma old_mine_child c cs b x : old_mine c cs b x → old_child cs b x.
Proof. intros (hc & t & Hc & Hm). exists hc, t. eauto using mine_inl. Qed.

Lemma put_child_lookup nh cs b o i hi ti :
  (b < length cs)%nat → put_child nh cs b o !! i = Some (Some (hi, ti)) →
  (i = b ∧ o = Some ti) ∨ (i ≠ b ∧ cs !! i = Some (Some (hi, ti))).
Proof.
  intros Hb. unfold put_child. destruct (decide (i = b)) as [->|Hi].
  - rewrite list_lookup_insert_eq by done. intros [= H].
    apply fmap_Some in H as (t & Ho & [= -> ->]). by left.
  - rewrite list_lookup_insert_ne by done. by right.
Qed.

Section frame.
Context {K : ltree → Prop} {c : Z} {h0 h : gmap loc TreeNode} {l : loc} {w hh : Z} {cs : list (option (Z * ltree))}
        {b : nat} {o : option ltree} (HR : remade K c h0 h l w hh cs b o).

Lemma old_child_not_root : ¬ old_child cs b l.
Proof using HR.
  intros (hc & t & Hc & Hi). pose proof (rb_uniq _ _ _ _ _ _ _ _ _ _ HR) as Huniq.
  inv Huniq as [|? ? ? ? Hu _]. by destruct (Hu _ _ _ Hc).
Qed.

Lemma old_child_other i hi ti x : i ≠ b → cs !! i = Some (Some (hi, ti)) → inl ti x → ¬ old_child cs b x.
Proof using HR.
  intros Hi Hc Hx (hc & t & Hcb & Ht). pose proof (rb_uniq _ _ _ _ _ _ _ _ _ _ HR) as Huniq.
  inv Huniq as [|? ? ? ? _ Hd]. by eapply (Hd i b).
Qed.

Lemma frame_node : h !! l = Some (InnerNode w hh (shape cs)).
Proof using HR.
  apply (rb_frame _ _ _ _ _ _ _ _ _ _ HR).
  - apply (holds_root h0 (LInner l w hh cs)), HR.
  - intros H%old_mine_child. by apply old_child_not_root.
Qed.

(** A sibling is still in the memory. *)
Lemma frame_sibling i hi ti : i ≠ b → cs !! i = Some (Some (hi, ti)) → holds h ti.
Proof using HR.
  intros Hi Hc. pose proof (holds_child _ _ _ _ _ _ _ _ (rb_holds _ _ _ _ _ _ _ _ _ _ HR) Hc) as H0.
  intros x n Hx. apply (rb_frame _ _ _ _ _ _ _ _ _ _ HR); [by apply H0|].
  intros Hm%old_mine_child. eapply old_child_other; [done..|by exists n|done].
Qed.

(** The new pointer is the old one, owned, or a new one. *)
Context {l' : loc} (Hl' : (l' = l ∧ w = c) ∨ (h !! l' = None ∧ h0 !! l' = None)).

Lemma new_pointer_not_sibling i hi ti : i ≠ b → cs !! i = Some (Some (hi, ti)) → ¬ inl ti l'.
Proof using HR Hl'.
  intros Hi Hc Hx. destruct Hl' as [[-> _]|[_ Hn]].
  - pose proof (rb_uniq _ _ _ _ _ _ _ _ _ _ HR) as Huniq.
    inv Huniq as [|? ? ? ? Hu _]. by destruct (Hu _ _ _ Hc).
  - destruct (holds_alive h0 ti l') as [n Hn']; [|done|congruence].
    eapply holds_child; [apply HR|done].
Qed.

Lemma new_pointer_not_child t : o = Some t → ¬ inl t l'.
Proof using HR Hl'.
  intros Ho Hx. destruct Hl' as [[-> _]|[Hn _]].
  - destruct (rb_t_new _ _ _ _ _ _ _ _ _ _ HR t l Ho Hx) as [Hold|Hnone]; [by apply old_child_not_root|].
    pose proof (holds_root h0 (LInner l w hh cs) (rb_holds _ _ _ _ _ _ _ _ _ _ HR)) as Hr.
    cbn in Hr. congruence.
  - destruct (holds_alive h t l') as [n Hn']; [by eapply rb_t_holds|done|]. congruence.
Qed.

Lemma new_holds w' h' nh :
  holds (<[l' := InnerNode w' h' (shape (put_child nh cs b o))]> h) (LInner l' w' h' (put_child nh cs b o)).
Proof using HR Hl'.
  apply holds_inner; [apply lookup_insert_eq|].
  intros i hi ti [[-> Ho]|[Hi Hc]]%put_child_lookup; [apply holds_insert..|apply HR];
    eauto using new_pointer_not_child, new_pointer_not_sibling, frame_sibling, rb_t_holds.
Qed.

Lemma new_uniq w' h' nh : uniq (LInner l' w' h' (put_child nh cs b o)).
Proof using HR Hl'.
  pose proof (rb_uniq _ _ _ _ _ _ _ _ _ _ HR) as Hu0. inv Hu0 as [|? ? ? ? Hu Hd].
  pose proof (rb_branch _ _ _ _ _ _ _ _ _ _ HR) as Hb. constructor.
  - intros i hi ti [[-> Ho]|[Hi Hc]]%put_child_lookup; [| |done].
    + eauto using new_pointer_not_child, rb_t_uniq.
    + split; [by eapply Hu|by eapply new_pointer_not_sibling].
  - assert (Hcross : ∀ t j hj tj x, o = Some t → j ≠ b → cs !! j = Some (Some (hj, tj)) →
      inl t x → inl tj x → False).
    { intros t j hj tj x Ho Hj Hc Hx Hxj.
      destruct (rb_t_new _ _ _ _ _ _ _ _ _ _ HR t x Ho Hx) as [Hold|Hnone].
      - by eapply old_child_other.
      - destruct (holds_alive h0 tj x) as [n Hn]; [|done|congruence].
        eapply holds_child; [apply HR|done]. }
    intros i j hi ti hj tj Hij [[-> Ho]|[Hi Hci]]%put_child_lookup
      [[-> Ho']|[Hj Hcj]]%put_child_lookup x Hx Hx'; try done;
      [by eapply Hcross..|by eapply (Hd i j)].
Qed.

Lemma new_evo h' nh :
  K (LInner l' c h' (put_child nh cs b o)) →
  evo K c h0 (LInner l w hh cs) (<[l' := InnerNode c h' (shape (put_child nh cs b o))]> h)
      (LInner l' c h' (put_child nh cs b o)).
Proof using HR Hl'.
  intros HK. pose proof (rb_branch _ _ _ _ _ _ _ _ _ _ HR) as Hb. split.
  - apply new_holds.
  - apply new_uniq.
  - done.
  - intros x [->|(i & hi & ti & Hc & Hx)]%inl_inner.
    + destruct Hl' as [[-> _]|[_ Hn]]; [|by right]. left. apply (inl_root (LInner l w hh cs)).
    + apply put_child_lookup in Hc as [[-> Ho]|[Hi Hc]]; [| |done].
      * destruct (rb_t_new _ _ _ _ _ _ _ _ _ _ HR _ _ Ho Hx) as [(hc & t & Hc & Hx')|]; [|by right].
        left. apply inl_inner. eauto 10.
      * left. apply inl_inner. eauto 10.
  - intros x [[-> _]|(i & hi & ti & Hc & Hx)]%mine_inner.
    + destruct Hl' as [[-> ->]|[_ Hn]]; [|by right]. left. apply mine_inner. by left.
    + apply put_child_lookup in Hc as [[-> Ho]|[Hi Hc]]; [| |done].
      * destruct (rb_t_mine _ _ _ _ _ _ _ _ _ _ HR _ _ Ho Hx) as [(hc & t & Hc & Hx')|]; [|by right].
        left. by eapply mine_child.
      * left. by eapply mine_child.
  - intros x n Hx Hm. rewrite lookup_insert_ne.
    + apply (rb_frame _ _ _ _ _ _ _ _ _ _ HR); [done|].
      intros (hc & t & Hc & Hmt). apply Hm. by eapply mine_child.
    + intros <-. destruct Hl' as [[-> ->]|[_ Hn]]; [|congruence]. apply Hm, mine_inner. by left.
  - intros x Hx. destruct (decide (x = l')) as [->|Hne].
    + rewrite lookup_insert_eq. eauto.
    + rewrite lookup_insert_ne by done. by eapply rb_dom.
Qed.
End frame.

(** A child that evolved, seen from its parent. *)
Lemma remade_child K c h0 h l w hh cs b hc t t' :
  holds h0 (LInner l w hh cs) → uniq (LInner l w hh cs) → K (LInner l w hh cs) →
  cs !! b = Some (Some (hc, t)) → evo K c h0 t h t' →
  remade K c h0 h l w hh cs b (Some t').
Proof.
  intros Hh Hu Hl Hb HU. split; try done.
  - by eapply lookup_lt_Some.
  - intros x n Hx Hm. eapply upd_frame; [done..|]. intros Hm'. apply Hm. by exists hc, t.
  - apply HU.
  - intros ? [= <-]. apply HU.
  - intros ? [= <-]. apply HU.
  - intros ? [= <-]. apply HU.
  - intros ? x [= <-] Hx. destruct (upd_new _ _ _ _ _ _ HU x Hx); [left; by exists hc, t|by right].
  - intros ? x [= <-] Hx. destruct (upd_mine _ _ _ _ _ _ HU x Hx); [left; by exists hc, t|by right].
Qed.

Lemma evo_trans K c h t h1 t1 h2 t2 : evo K c h t h1 t1 → evo K c h1 t1 h2 t2 → evo K c h t h2 t2.
Proof.
  intros H1 H2.
  assert (Hnone : ∀ x, h1 !! x = None → h !! x = None).
  { intros x Hx. apply eq_None_not_Some. intros Hs. apply (upd_dom _ _ _ _ _ _ H1) in Hs.
    rewrite Hx in Hs. by destruct Hs. }
  split; try apply H2.
  - intros x Hx. destruct (upd_new _ _ _ _ _ _ H2 x Hx) as [Hx1|Hx1]; [|right; auto].
    by apply (upd_new _ _ _ _ _ _ H1).
  - intros x Hx. destruct (upd_mine _ _ _ _ _ _ H2 x Hx) as [Hx1|Hx1]; [|right; auto].
    by apply (upd_mine _ _ _ _ _ _ H1).
  - intros x n Hx Hm. apply (upd_frame _ _ _ _ _ _ H2); [by apply (upd_frame _ _ _ _ _ _ H1)|].
    intros Hm1. destruct (upd_mine _ _ _ _ _ _ H1 x Hm1); [done|congruence].
  - intros x Hx. by apply H2, H1.
Qed.

(** A leaf replaced at its own or at a new pointer. *)
Lemma evo_leaf (K : ltree → Prop) c h l w hh ty it t' h1 :
  holds h (LLeaf l w hh ty it) → (∃ l' w' hh' ty' it', t' = LLeaf l' w' hh' ty' it') →
  (∀ x, x ≠ lroot t' → h1 !! x = h !! x) → (lroot t' = l ∧ w = c) ∨ h !! lroot t' = None →
  K t' → evo K c h (LLeaf l w hh ty it) (<[lroot t' := lnode t']> h1) t'.
Proof.
  intros Hh (l' & w' & hh' & ty' & it' & ->) Heq Hor HK. cbn [lroot lnode] in *.
  assert (Hmine : w = c → mine c (LLeaf l w hh ty it) l).
  { intros <-. eexists. split; [apply (At_root (LLeaf l w hh ty it))|done]. }
  split; [| |done|..].
  - intros x n [-> ->]%At_leaf_inv. apply lookup_insert_eq.
  - constructor.
  - intros x ->%inl_leaf. destruct Hor as [[-> _]|?]; [left; by apply inl_leaf|by right].
  - intros x ->%mine_inl%inl_leaf. destruct Hor as [[-> Hw]|?]; [left; auto|by right].
  - intros x n Hx Hm. assert (x ≠ l') by (intros ->; destruct Hor as [[-> ?]|?]; [auto|congruence]).
    by rewrite lookup_insert_ne, Heq.
  - intros x Hx. destruct (decide (x = l')) as [->|Hne]; [rewrite lookup_insert_eq; eauto|].
    rewrite lookup_insert_ne by done. by rewrite Heq.
Qed.

(** ** Owners and cached hashes *)

Section hashes.
Context (sha512Half : list Z → Z).

(** The hash of a tree: what the hash of its root node should be. *)
Fixpoint thash (t : tree) : Z :=
  match t with
  | TLeaf ty it => leaf_hash sha512Half ty it
  | TInner cs =>
    inner_hash sha512Half (map (λ o, match o with Some c => Some (thash c, None) | None => None end) cs)
  end.

(** A shared tree: nobody owns its nodes, and all the hashes are right. *)
Inductive clean : ltree → Prop :=
  | clean_leaf l ty it : clean (LLeaf l 0 (leaf_hash sha512Half ty it) ty it)
  | clean_inner l cs :
      (∀ i h t, cs !! i = Some (Some (h, t)) → clean t) →
      (∀ i h t, cs !! i = Some (Some (h, t)) → h = thash (erase t)) →
      clean (LInner l 0 (thash (erase (LInner l 0 0 cs))) cs).

(** A tree of the owner [c]: its own inner nodes have no hash yet; below a
    shared node everything is shared. *)
Inductive lok (c : Z) : ltree → Prop :=
  | lok_clean t : clean t → lok c t
  | lok_leaf l ty it : lok c (LLeaf l c (leaf_hash sha512Half ty it) ty it)
  | lok_inner l cs :
      (∀ i h t, cs !! i = Some (Some (h, t)) → lok c t) → lok c (LInner l c 0 cs).

Lemma clean_cowid t l n : clean t → At t l n → cowid n = 0.
Proof.
  intros Hc. revert l n. induction Hc as [l ty it|l cs Hcs IH _]; intros l' n.
  - by intros [-> ->]%At_leaf_inv.
  - intros [[-> ->]|(i & hh & t & Hi & Hn)]%At_inner_inv; [done|]. by eapply (IH _ _ _ Hi).
Qed.

Lemma lok_cowid c t : lok c t → cowid (lnode t) = 0 ∨ cowid (lnode t) = c.
Proof.
  intros [t' Hc|l ty it|l cs _]; [|by right..]. left. apply (clean_cowid t' (lroot t')); [done|apply At_root].
Qed.

Lemma lok_child c l w h cs i hh t :
  lok c (LInner l w h cs) → cs !! i = Some (Some (hh, t)) → lok c t.
Proof.
  intros Hl Hi. inv Hl as [t' Hc| |l' cs' Hcs]; [|by eapply Hcs].
  inv Hc as [|l' cs' Hcs _]. apply lok_clean. by eapply Hcs.
Qed.

Lemma mine_clean c t l : c ≠ 0 → clean t → ¬ mine c t l.
Proof. intros Hc Ht (n & Hn & Hw). by rewrite (clean_cowid _ _ _ Ht Hn) in Hw. Qed.

(** ** Copy on write *)

Definition with_root (m : SHAMap) (l : loc) : SHAMap := mkMap (cowid_ m) l (state_ m).

Lemma unshareNode_own (m : SHAMap) h l n id :
  h !! l = Some n → cowid n = cowid_ m →
  unshareNode l id (mkMemory h m) = (Return l, mkMemory h m).
Proof.
  intros Hl Hc. unfold unshareNode. erewrite ST_bind_return by (by apply node_at_run).
  erewrite ST_bind_return by done. cbn [this]. rewrite Hc.
  unfold sassert. rewrite Z.leb_refl, Z.eqb_refl. done.
Qed.

Lemma unshareNode_copy (m : SHAMap) h l n id :
  h !! l = Some n → cowid n = 0 → 0 < cowid_ m → state_ m ≠ Immutable →
  ∃ l', h !! l' = None ∧
    unshareNode l id (mkMemory h m) =
      (Return l', mkMemory (<[l' := clone (cowid_ m) n]> h) (if isRoot id then with_root m l' else m)).
Proof.
  intros Hl Hc Hpos Hst. unfold unshareNode. erewrite ST_bind_return by (by apply node_at_run).
  erewrite ST_bind_return by done. cbn [this]. rewrite Hc.
  unfold sassert. rewrite (proj2 (Z.leb_le _ _)), (proj2 (Z.eqb_neq _ _)) by lia.
  erewrite ST_bind_return by done. rewrite bool_decide_eq_true_2 by done.
  erewrite ST_bind_return by done.
  destruct (alloc_run m h (clone (cowid_ m) n)) as (l' & Hnone & Ha). exists l'. split; [done|].
  erewrite ST_bind_return by apply Ha. by destruct (isRoot id).
Qed.

(** A tree of the owner [c] is changed into another one. *)
Definition upd (c : Z) : gmap loc TreeNode → ltree → gmap loc TreeNode → ltree → Prop := evo (lok c) c.

Definition rebuilt (c : Z) : gmap loc TreeNode → gmap loc TreeNode → loc → Z → Z →
    list (option (Z * ltree)) → nat → option ltree → Prop := remade (lok c) c.

(** A changed child has no hash yet. *)
Definition new_children : list (option (Z * ltree)) → nat → option ltree → list (option (Z * ltree)) :=
  put_child 0.

Lemma new_upd {c h0 h l w hh cs b o} (HR : rebuilt c h0 h l w hh cs b o) {l'} :
  (l' = l ∧ w = c) ∨ (h !! l' = None ∧ h0 !! l' = None) →
  upd c h0 (LInner l w hh cs) (<[l' := InnerNode c 0 (shape (new_children cs b o))]> h)
      (LInner l' c 0 (new_children cs b o)).
Proof.
  intros Hl'. apply (new_evo HR Hl'). apply lok_inner.
  intros i hi ti [[-> Ho]|[Hi Hc]]%put_child_lookup; [| |apply HR].
  - by eapply rb_t_lok.
  - eapply lok_child; [apply HR|done].
Qed.

(** The code of one step up: own the node, then set its child. *)
Lemma frame_run (m : SHAMap) h0 h l w hh cs b o id :
  rebuilt (cowid_ m) h0 h l w hh cs b o →
  0 < cowid_ m → state_ m ≠ Immutable → (b < branchFactor)%nat →
  (isRoot id = true → root_ m = l) →
  ∃ l' h1 h',
    let m' := if isRoot id then with_root m l' else m in
    unshareNode l id (mkMemory h m) = (Return l', mkMemory h1 m') ∧
    setChild l' b (lroot <$> o) (mkMemory h1 m') = (Return (), mkMemory h' m') ∧
    upd (cowid_ m) h0 (LInner l w hh cs) h' (LInner l' (cowid_ m) 0 (new_children cs b o)) ∧
    (w = cowid_ m → l' = l).
Proof.
  intros HR Hpos Hst Hb Hroot. pose proof (frame_node HR) as Hn.
  assert (Hsh : InnerNode (cowid_ m) 0 (<[b := (λ x, (0, Some x)) <$> (lroot <$> o)]> (shape cs)) =
                InnerNode (cowid_ m) 0 (shape (new_children cs b o))).
  { unfold new_children, put_child. rewrite shape_insert. by destruct o. }
  assert (Hne : ∀ l', (l' = l ∧ w = cowid_ m) ∨ (h !! l' = None ∧ h0 !! l' = None) → lroot <$> o ≠ Some l').
  { intros l' Hl' (t & Ho & ->)%fmap_Some. apply (new_pointer_not_child HR Hl' t Ho), inl_root. }
  destruct (lok_cowid _ _ (rb_lok _ _ _ _ _ _ _ _ _ _ HR)) as [Hw|Hw]; cbn in Hw; subst w.
  - destruct (unshareNode_copy m h l _ id Hn) as (l' & Hnone & Hrun); [done..|].
    assert (Hl' : (l' = l ∧ 0 = cowid_ m) ∨ (h !! l' = None ∧ h0 !! l' = None)).
    { right. split; [done|]. apply eq_None_not_Some. intros Hs.
      apply (rb_dom _ _ _ _ _ _ _ _ _ _ HR) in Hs. rewrite Hnone in Hs. by destruct Hs. }
    eexists l', _, _. cbv zeta. split; [apply Hrun|]. split.
    + apply (setChild_run _ _ _ (cowid_ m) hh (shape cs)); [apply lookup_insert_eq|done|lia|by apply Hne].
    + split; [|lia]. rewrite insert_insert_eq, Hsh. by apply new_upd.
  - exists l. eexists _, _. cbv zeta. split.
    + rewrite (unshareNode_own m h l _ id Hn) by done.
      destruct (isRoot id) eqn:Hr; [|done]. destruct m as [c r st]. cbn in *. by rewrite (Hroot eq_refl).
    + split.
      * destruct (isRoot id); eapply setChild_run; [exact Hn|done|lia|apply Hne; by left|exact Hn|done|lia|apply Hne; by left].
      * split; [|done]. rewrite Hsh. apply new_upd; [done|by left].
Qed.
End hashes.
