(* ===== verification/SHAMapOps.v ===== *)
(** * Operations on one SHAMap

    Walking down reaches the place of a key; walking up rebuilds the nodes on
    the way.  Every mutation of a map leaves a well formed tree with the
    intended items and changes no cell of the memory that belongs to others. *)
From S2P Require Import Prelude Outcome Bytes Serializer SHAMapNode SHAMap SHAMapTree SHAMapLoc.

(** ** Trees under a prefix, compact or not *)

Definition pfx (ty : SHAMapNodeType) (d : nat) (p : Z) (t : tree) : Prop :=
  match t with
  | TLeaf _ _ => wf ty d p t
  | TInner cs =>
    (d < 64)%nat ∧ length cs = branchFactor ∧
    ∀ i c, cs !! i = Some (Some c) → wf ty (S d) (16 * p + Z.of_nat i) c
  end.

Lemma wf_pfx ty d p t : wf ty d p t → pfx ty d p t.
Proof. intros [? ? it Hd Hv Hp|? ? cs Hd Hlen Hcs Htwo]; [by constructor|done]. Qed.

Lemma pfx_wf ty d p t :
  pfx ty d p t → (∀ cs, t = TInner cs → ∃ a b, a ∈ items t ∧ b ∈ items t ∧ key a ≠ key b) → wf ty d p t.
Proof.
  destruct t as [ty' it|cs]; [done|]. intros (Hd & Hlen & Hcs) Htwo. constructor; [done..|]. by eapply Htwo.
Qed.

Lemma pfx_inner ty d p l w h cs :
  pfx ty d p (erase (LInner l w h cs)) ↔
  (d < 64)%nat ∧ length cs = branchFactor ∧
  ∀ i hh t, cs !! i = Some (Some (hh, t)) → wf ty (S d) (16 * p + Z.of_nat i) (erase t).
Proof.
  rewrite erase_inner. cbn [pfx]. rewrite length_ekids. split; intros (Hd & Hlen & Hcs); split_and!; try done.
  - intros i hh t Hi. apply Hcs, erase_child. eauto.
  - intros i c (hh & t & Hi & ->)%erase_child. by eapply Hcs.
Qed.

Lemma pfx_item ty d p t it : pfx ty d p t → it ∈ items t → valid_item it ∧ pre d (key it) = p.
Proof.
  destruct t as [ty' it'|cs]; [apply wf_item|]. intros (Hd & Hlen & Hcs) (i & c & Hi & Hit)%elem_of_items.
  destruct (wf_item _ _ _ _ _ (Hcs i c Hi) Hit) as [Hv Hp]. split; [done|].
  assert ((i < 16)%nat) by (apply lookup_lt_Some in Hi; by rewrite Hlen in Hi).
  by apply pre_S_inv in Hp as [Hp _].
Qed.

Lemma pfx_key_inj ty d p t a b :
  pfx ty d p t → a ∈ items t → b ∈ items t → key a = key b → a = b.
Proof.
  destruct t as [ty' it'|cs]; [apply key_inj|]. intros (Hd & Hlen & Hcs) Ha Hb Hk.
  apply (child_items ty d p cs a (nib (key a) d)) in Ha as (ca & Hca & Ha); [|done..].
  apply (child_items ty d p cs b (nib (key b) d)) in Hb as (cb & Hcb & Hb); [|done..].
  rewrite <- Hk, Hca in Hcb. injection Hcb as <-. by eapply key_inj; [apply (Hcs _ _ Hca)|..].
Qed.

Lemma pfx_unique ty d p t1 t2 :
  (∀ cs, t1 = TInner cs → ∃ cs', t2 = TInner cs') → (∀ cs, t2 = TInner cs → ∃ cs', t1 = TInner cs') →
  pfx ty d p t1 → pfx ty d p t2 → (∀ it, it ∈ items t1 ↔ it ∈ items t2) → t1 = t2.
Proof.
  intros H12 H21. destruct t1 as [ty1 it1|cs1], t2 as [ty2 it2|cs2].
  - apply wf_unique.
  - by destruct (H21 _ eq_refl).
  - by destruct (H12 _ eq_refl).
  - intros (Hd & Hlen & Hcs) (_ & Hlen2 & Hcs2) Heq. f_equal.
    apply (kids_unique ty d p); [done..|]. intros i c1 c2 Hc1 Hc2 Hc.
    apply (wf_unique ty (S d) (16 * p + Z.of_nat i)); [by apply Hcs|done..].
Qed.

(** ** The way down to a key *)

(** The nodes strictly above the focus [foc], the innermost first. *)
Inductive above (k : Z) : nat → SHAMapNodeID → ltree → NodeStack → nat → SHAMapNodeID → ltree → Prop :=
  | above_here d id t : above k d id t [] d id t
  | above_down d id id' l w h cs hh t fr df idf foc :
      cs !! nib k d = Some (Some (hh, t)) →
      getChildNodeID id (Z.of_nat (nib k d)) = Return id' → idv (S d) id' →
      above k (S d) id' t fr df idf foc →
      above k d id (LInner l w h cs) (fr ++ [(l, id)]) df idf foc.

(** Where the walk stops: at a leaf, or at an inner node without the branch. *)
Definition stops (k : Z) (d : nat) (foc : ltree) : Prop :=
  match foc with LLeaf _ _ _ _ _ => True | LInner _ _ _ cs => cs !! nib k d = Some None end.

Definition leaf_of (foc : ltree) : option loc :=
  match foc with LLeaf l _ _ _ _ => Some l | LInner _ _ _ _ => None end.

Lemma above_depth k d id t fr df idf foc : above k d id t fr df idf foc → (d ≤ df)%nat.
Proof. induction 1; lia. Qed.

Lemma above_same k d id t fr idf foc : above k d id t fr d idf foc → foc = t.
Proof.
  intros H. inv H as [|? ? ? ? ? ? ? ? ? ? ? ? ? ? ? ? H']; [done|]. apply above_depth in H'. lia.
Qed.

Lemma walk_above (m : SHAMap) h k ty n t d p id s fuel :
  n = (64 - d)%nat → (n ≤ fuel)%nat → pfx ty d p (erase t) → pre d k = p → holds h t → idv d id →
  ∃ fr df idf foc pf,
    above k d id t fr df idf foc ∧ idv df idf ∧ stops k df foc ∧
    pfx ty df pf (erase foc) ∧ pre df k = pf ∧
    walk_loop fuel (lroot t) id k s (mkMemory h m) =
      (Return (leaf_of foc, (lroot foc, idf) :: fr ++ s), mkMemory h m).
Proof.
  revert t d p id s fuel. induction n as [|n IH]; intros t d p id s fuel Hn Hfuel Hp Hk Hh Hid.
  all: destruct t as [l w hh ty' it|l w hh cs].
  1, 3: (exists [], d, id, (LLeaf l w hh ty' it), p; split_and!; [constructor|done..|];
    destruct fuel; cbn [walk_loop]; by erewrite ST_bind_return by (by apply node_at_run, (holds_root _ _ Hh))).
  { apply pfx_inner in Hp. lia. }
  pose proof Hp as (Hd & Hlen & Hcs)%pfx_inner.
  destruct fuel as [|fuel]; [lia|]. cbn [walk_loop lroot].
  erewrite ST_bind_return by (by apply node_at_run, (holds_root _ _ Hh)). cbn [lnode]. cbv zeta.
  pose proof Hid as (Hdep & _).
  erewrite ST_bind_return by (unfold slift; by rewrite (selectBranch_nib d) by done).
  rewrite isEmptyBranch_shape.
  pose proof (nib_range k d) as Hr.
  destruct (lookup_lt_is_Some_2 cs (nib k d)) as [[[hc t]|] Hb]; [by rewrite Hlen| |]; rewrite Hb.
  - erewrite ST_bind_return by (eapply descendThrow_run; [by apply (holds_root _ _ Hh)|done]).
    destruct (getChildNodeID_ok d id (nib k d) Hid Hd Hr) as (id' & Hid' & Hidv).
    erewrite ST_bind_return by (unfold slift; by rewrite Hid').
    destruct (IH t (S d) (16 * p + Z.of_nat (nib k d)) id' ((l, id) :: s) fuel) as
      (fr & df & idf & foc & pf & Hab & Hidf & Hst & Hpf & Hkf & Hrun);
      [lia|lia|by eapply wf_pfx, Hcs|by rewrite pre_S, Hk|by eapply holds_child|done|].
    exists (fr ++ [(l, id)]), df, idf, foc, pf. split_and!; [by econstructor|done..|].
    by rewrite Hrun, <- (assoc_L (++)).
  - exists [], d, id, (LInner l w hh cs), p. split_and!; [constructor|done..].
Qed.

(** ** Grafting: the same tree with another subtree at the focus *)

Inductive graft (k : Z) : nat → tree → tree → nat → tree → tree → Prop :=
  | graft_here d t t' : graft k d t t' d t t'
  | graft_down d cs t t' df f f' :
      cs !! nib k d = Some (Some t) → graft k (S d) t t' df f f' →
      graft k d (TInner cs) (TInner (<[nib k d := Some t']> cs)) df f f'.

Lemma graft_depth k d t t' df f f' : graft k d t t' df f f' → (d ≤ df)%nat.
Proof. induction 1; lia. Qed.

Lemma graft_same k d t t' f f' : graft k d t t' d f f' → t = f ∧ t' = f'.
Proof. intros H. inv H as [|? ? ? ? ? ? ? Hb Hg]; [done|]. apply graft_depth in Hg. lia. Qed.

(** [t'] has the items of [t] except the one with key [k], and [it]. *)
Definition put_item (k : Z) (it : SHAMapItem) (t t' : tree) : Prop :=
  ∀ x, x ∈ items t' ↔ x = it ∨ (x ∈ items t ∧ key x ≠ k).

Lemma items_insert ty d p cs b t' :
  (d < 64)%nat → length cs = branchFactor → (b < branchFactor)%nat →
  (∀ i c, cs !! i = Some (Some c) → wf ty (S d) (16 * p + Z.of_nat i) c) →
  ∀ x, x ∈ items (TInner (<[b := Some t']> cs)) ↔
    x ∈ items t' ∨ (x ∈ items (TInner cs) ∧ nib (key x) d ≠ b).
Proof.
  intros Hd Hlen Hb Hcs x. rewrite !elem_of_items. split.
  - intros (i & c & Hi & Hx). destruct (decide (i = b)) as [->|Hib].
    + rewrite list_lookup_insert_eq in Hi by (by rewrite Hlen). injection Hi as <-. by left.
    + rewrite list_lookup_insert_ne in Hi by done. right. split; [eauto|].
      destruct (wf_item _ _ _ _ _ (Hcs i c Hi) Hx) as [_ Hp].
      apply pre_S_inv in Hp as [_ ->]; [done|done|]. apply lookup_lt_Some in Hi. by rewrite Hlen in Hi.
  - intros [Hx|((i & c & Hi & Hx) & Hn)].
    + exists b, t'. by rewrite list_lookup_insert_eq by (by rewrite Hlen).
    + exists i, c. rewrite list_lookup_insert_ne; [done|]. intros <-. apply Hn.
      destruct (wf_item _ _ _ _ _ (Hcs b c Hi) Hx) as [_ Hp]. by apply pre_S_inv in Hp as [_ ->].
Qed.

Lemma put_two k it t t' :
  key it = k → put_item k it t t' →
  (∃ a b, a ∈ items t ∧ b ∈ items t ∧ key a ≠ key b) →
  ∃ a b, a ∈ items t' ∧ b ∈ items t' ∧ key a ≠ key b.
Proof.
  intros Hk Hput (a & b & Ha & Hb & Hab).
  assert (Hin : ∀ x, x ∈ items t → ∃ x', x' ∈ items t' ∧ key x' = key x).
  { intros x Hx. destruct (decide (key x = k)) as [Heq|Hne].
    - exists it. split; [apply Hput; by left|congruence].
    - exists x. split; [apply Hput; by right|done]. }
  destruct (Hin a Ha) as (a' & Ha' & Hka), (Hin b Hb) as (b' & Hb' & Hkb).
  exists a', b'. split_and!; [done..|congruence].
Qed.

Lemma graft_put k it ty d p t t' df f f' pf :
  graft k d t t' df f f' → key it = k → pre d k = p → pre df k = pf →
  pfx ty d p t → pfx ty df pf f' → ((d < df)%nat → wf ty df pf f') → put_item k it f f' →
  pfx ty d p t' ∧ put_item k it t t' ∧ (wf ty d p t → (d < df)%nat → wf ty d p t').
Proof.
  intros Hg Hk Hp Hpf. revert p Hp.
  induction Hg as [d t t'|d cs t t' df f f' Hb Hg IH]; intros p Hp Ht Hf' Hwf' Hput.
  { split_and!; [|done|lia]. by rewrite Hp in Hpf; subst. }
  destruct Ht as (Hd & Hlen & Hcs). pose proof (Hcs _ _ Hb) as Hc.
  pose proof (graft_depth _ _ _ _ _ _ _ Hg) as Hdf.
  destruct (IH Hpf (16 * p + Z.of_nat (nib k d))) as (Hpc & Hputc & Hwfc);
    [by rewrite pre_S, Hp|by apply wf_pfx|done|intros; apply Hwf'; lia|done|].
  assert (Hwfc' : wf ty (S d) (16 * p + Z.of_nat (nib k d)) t').
  { destruct (decide (S d = df)) as [<-|Hne]; [|apply Hwfc; [done|lia]].
    apply graft_same in Hg as [-> ->]. replace (16 * p + _) with pf; [apply Hwf'; lia|].
    by rewrite <- Hpf, pre_S, Hp. }
  assert (Hkids : ∀ i c, <[nib k d := Some t']> cs !! i = Some (Some c) → wf ty (S d) (16 * p + Z.of_nat i) c).
  { intros i c Hi. destruct (decide (i = nib k d)) as [->|Hi'].
    - rewrite list_lookup_insert_eq in Hi by (rewrite Hlen; apply nib_range). by injection Hi as <-.
    - rewrite list_lookup_insert_ne in Hi by done. by apply Hcs. }
  assert (Hputt : put_item k it (TInner cs) (TInner (<[nib k d := Some t']> cs))).
  { intros x. rewrite (items_insert ty d p) by (try apply nib_range; done). rewrite (Hputc x).
    split.
    - intros [[->|[Hx Hne]]|[Hx Hne]]; [by left|right; split; [|done]|right; split; [done|congruence]].
      apply elem_of_items. eauto.
    - intros [->|[Hx Hne]]; [by left; left|].
      destruct (decide (nib (key x) d = nib k d)) as [Heq|Hn]; [|by right].
      apply (child_items ty d p cs x _ Hd Hlen Hcs Heq) in Hx as (c & Hc' & Hx).
      rewrite Hb in Hc'. injection Hc' as <-. left. by right. }
  split_and!; [|done|].
  - split_and!; [done|by rewrite length_insert|done].
  - intros Hw _. inv Hw. constructor; [done|by rewrite length_insert|done|]. by eapply put_two.
Qed.

(** ** The way up *)

(** The map after the node with position [id] was replaced by [l]. *)
Definition after (m : SHAMap) (id : SHAMapNodeID) (l : loc) : SHAMap :=
  if isRoot id then with_root m l else m.

Lemma isRoot_S d id : idv (S d) id → isRoot id = false.
Proof. intros (Hd & _). unfold isRoot. rewrite Hd. apply Z.eqb_neq. lia. Qed.

Lemma isRoot_0 id : idv 0 id → isRoot id = true.
Proof. intros (Hd & _). unfold isRoot. by rewrite Hd. Qed.

Section ops.
Context (sha512Half : list Z → Z).

Lemma ekids_new_children cs b t' :
  ekids (new_children cs b (Some t')) = <[b := Some (erase t')]> (ekids cs).
Proof.
  unfold new_children, put_child, ekids. cbn [fmap option_fmap option_map].
  apply (list_fmap_insert (λ o : option (Z * ltree), match o with Some (_, t) => Some (erase t) | None => None end)).
Qed.

Lemma erase_new_children l w h cs b t' :
  erase (LInner l w h (new_children cs b (Some t'))) =
  TInner (<[b := Some (erase t')]> (ekids cs)).
Proof. rewrite erase_inner. by rewrite ekids_new_children. Qed.

Lemma dirty_above (m : SHAMap) h0 k ty d id t fr df idf foc :
  above k d id t fr df idf foc → 0 < cowid_ m → state_ m ≠ Immutable →
  ∀ p, pfx ty d p (erase t) → holds h0 t → uniq t → lok sha512Half (cowid_ m) t → idv d id →
  (isRoot id = true → root_ m = lroot t) →
  ∀ h1 foc', upd sha512Half (cowid_ m) h0 foc h1 foc' →
  ∃ h2 t',
    (∀ s, dirty_loop (fr ++ s) k (lroot foc') (mkMemory h1 (after m idf (lroot foc'))) =
          dirty_loop s k (lroot t') (mkMemory h2 (after m id (lroot t')))) ∧
    upd sha512Half (cowid_ m) h0 t h2 t' ∧ graft k d (erase t) (erase t') df (erase foc) (erase foc').
Proof.
  intros Hab Hpos Hst.
  induction Hab as [d id t|d id id' l w h cs hh t fr df idf foc Hb Hid' Hidv' Hab IH];
    intros p Hp Hh Hu Hl Hid Hroot h1 foc' HU.
  { exists h1, foc'. split_and!; [done..|constructor]. }
  apply pfx_inner in Hp as (Hd & Hlen & Hcs).
  destruct (IH (16 * p + Z.of_nat (nib k d))) with (h1 := h1) (foc' := foc') as (h2 & t' & Hrun & HU' & Hg).
  { by eapply wf_pfx, Hcs. } { by eapply holds_child. } { inv Hu as [|? ? ? ? Hu' _]. by eapply Hu'. }
  { by eapply lok_child. } { done. } { by rewrite (isRoot_S d). } { done. }
  pose proof (remade_child _ _ _ _ _ _ _ _ _ _ _ _ Hh Hu Hl Hb HU') as HR.
  destruct (frame_run sha512Half m h0 h2 l w h cs (nib k d) (Some t') id HR Hpos Hst (nib_range k d))
    as (l' & h3 & h4 & Hun & Hset & HU2 & _); [done|].
  exists h4, (LInner l' (cowid_ m) 0 (new_children cs (nib k d) (Some t'))).
  split_and!; [|done|].
  - intros s. rewrite <- (assoc_L (++)), Hrun. unfold after at 1. rewrite (isRoot_S d) by done.
    cbn [app dirty_loop]. erewrite ST_bind_return by (eapply inner_at_run, (frame_node HR)).
    destruct Hid as (Hdep & _).
    erewrite ST_bind_return by (unfold slift; by rewrite (selectBranch_nib d) by done).
    erewrite ST_bind_return by exact Hun.
    erewrite ST_bind_return by exact Hset. done.
  - rewrite erase_new_children. econstructor; [|done]. apply erase_child. eauto.
Qed.

(** ** Owning a node *)

Lemma unshareNode_run (m : SHAMap) h l n id :
  h !! l = Some n → cowid n = 0 ∨ cowid n = cowid_ m → 0 < cowid_ m → state_ m ≠ Immutable →
  (isRoot id = true → root_ m = l) →
  ∃ l' h1,
    unshareNode l id (mkMemory h m) = (Return l', mkMemory h1 (after m id l')) ∧
    h1 !! l' = Some (clone (cowid_ m) n) ∧ (∀ x, x ≠ l' → h1 !! x = h !! x) ∧
    ((l' = l ∧ cowid n = cowid_ m) ∨ h !! l' = None).
Proof.
  intros Hl [Hc|Hc] Hpos Hst Hroot.
  - destruct (unshareNode_copy m h l n id Hl Hc Hpos Hst) as (l' & Hnone & Hrun).
    exists l', (<[l' := clone (cowid_ m) n]> h). split_and!; [done|apply lookup_insert_eq| |by right].
    intros x Hx. by apply lookup_insert_ne.
  - exists l, h. rewrite (unshareNode_own m h l n id Hl Hc). split_and!; [|by destruct n as [? ?|? ?]; cbn in *; subst|done|by left].
    unfold after. destruct (isRoot id); [|done]. destruct m as [c r st]. cbn in *. by rewrite Hroot.
Qed.

Lemma makeTypedLeaf_ok ty it c :
  ty ≠ tnINNER → valid_item it →
  makeTypedLeaf sha512Half ty it c = Return (LeafNode c (leaf_hash sha512Half ty it) ty it).
Proof.
  intros Hty [_ Hd]. unfold makeTypedLeaf, new_leaf.
  rewrite (proj2 (Nat.ltb_ge _ _)) by done. by destruct ty.
Qed.

(** A new leaf is set as a child of a node the map owns by now: [l'] is the
    node [l] or a copy of it. *)
Lemma attach_leaf (m : SHAMap) h0 h1 l w hh cs b ty it l' l1 :
  0 < cowid_ m → (b < branchFactor)%nat → length cs = branchFactor → cs !! b = Some None →
  holds h0 (LInner l w hh cs) → uniq (LInner l w hh cs) → lok sha512Half (cowid_ m) (LInner l w hh cs) →
  h1 !! l' = Some (InnerNode (cowid_ m) hh (shape cs)) → (∀ x, x ≠ l' → h1 !! x = h0 !! x) →
  (l' = l ∧ w = cowid_ m) ∨ h0 !! l' = None → h1 !! l1 = None →
  let leaf := LLeaf l1 (cowid_ m) (leaf_hash sha512Half ty it) ty it in
  ∃ h', (∀ m1, setChild l' b (Some l1) (mkMemory (<[l1 := lnode leaf]> h1) m1) = (Return (), mkMemory h' m1)) ∧
    upd sha512Half (cowid_ m) h0 (LInner l w hh cs) h'
        (LInner l' (cowid_ m) 0 (new_children cs b (Some leaf))).
Proof.
  intros Hpos Hb Hlen Hnone Hh Hu Hl Hl1 Heq Hl' Hfresh leaf.
  assert (Hne : l1 ≠ l') by congruence.
  assert (Hfresh0 : h0 !! l1 = None) by (by rewrite <- Heq).
  assert (Hold : ∀ x, ¬ old_child cs b x) by (intros x (hc & t & Hc & _); congruence).
  assert (HR : rebuilt sha512Half (cowid_ m) h0 (<[l1 := lnode leaf]> h0) l w hh cs b (Some leaf)).
  { split; try done.
    - by rewrite Hlen.
    - intros x n Hx _. rewrite lookup_insert_ne by congruence. done.
    - intros x [n Hx]. rewrite lookup_insert_ne by congruence. by exists n.
    - intros ? [= <-] x n [-> ->]%At_leaf_inv. apply lookup_insert_eq.
    - intros ? [= <-]. constructor.
    - intros ? [= <-]. apply lok_leaf.
    - intros ? x [= <-] ->%inl_leaf. by right.
    - intros ? x [= <-] ->%mine_inl%inl_leaf. by right. }
  exists (<[l' := InnerNode (cowid_ m) 0 (shape (new_children cs b (Some leaf)))]> (<[l1 := lnode leaf]> h0)).
  split.
  - intros m1. erewrite setChild_run; [|by rewrite lookup_insert_ne|done|lia|congruence].
    do 2 f_equal. apply map_eq. intros x. destruct (decide (x = l')) as [->|Hx].
    + rewrite !lookup_insert_eq. unfold new_children, put_child. by rewrite shape_insert.
    + rewrite !(lookup_insert_ne _ l' x) by done.
      destruct (decide (x = l1)) as [->|Hx1]; [by rewrite !lookup_insert_eq|].
      rewrite !lookup_insert_ne by done. by apply Heq.
  - apply (new_upd sha512Half HR). destruct Hl' as [?|?]; [by left|right]. split; [|done].
    by rewrite lookup_insert_ne.
Qed.

(** ** Adding below an inner node without the branch *)

Lemma add_inner (m : SHAMap) h k ty it d p id l w hh cs :
  ty ≠ tnINNER → valid_item it → key it = k → 0 < cowid_ m → state_ m ≠ Immutable →
  pfx ty d p (erase (LInner l w hh cs)) → pre d k = p → cs !! nib k d = Some None →
  holds h (LInner l w hh cs) → uniq (LInner l w hh cs) → lok sha512Half (cowid_ m) (LInner l w hh cs) →
  idv d id → (isRoot id = true → root_ m = l) →
  ∃ l' h1 l1 h',
    let leaf := LLeaf l1 (cowid_ m) (leaf_hash sha512Half ty it) ty it in
    let t' := LInner l' (cowid_ m) 0 (new_children cs (nib k d) (Some leaf)) in
    unshareNode l id (mkMemory h m) = (Return l', mkMemory h1 (after m id l')) ∧
    h1 !! l' = Some (InnerNode (cowid_ m) hh (shape cs)) ∧
    alloc (lnode leaf) (mkMemory h1 (after m id l')) = (Return l1, mkMemory (<[l1 := lnode leaf]> h1) (after m id l')) ∧
    setChild l' (nib k d) (Some l1) (mkMemory (<[l1 := lnode leaf]> h1) (after m id l')) =
      (Return (), mkMemory h' (after m id l')) ∧
    upd sha512Half (cowid_ m) h (LInner l w hh cs) h' t' ∧
    pfx ty d p (erase t') ∧ put_item k it (erase (LInner l w hh cs)) (erase t').
Proof.
  intros Hty Hv Hk Hpos Hst Hp Hpre Hnone Hh Hu Hl Hid Hroot.
  pose proof Hp as (Hd & Hlen & Hcs)%pfx_inner.
  destruct (unshareNode_run m h l (InnerNode w hh (shape cs)) id) as (l' & h1 & Hrun & Hl' & Heq & Hor);
    [by apply (holds_root h (LInner l w hh cs))|by apply (lok_cowid sha512Half _ (LInner l w hh cs))|done..|].
  destruct (alloc_run (after m id l') h1 (LeafNode (cowid_ m) (leaf_hash sha512Half ty it) ty it))
    as (l1 & Hl1 & Halloc).
  destruct (attach_leaf m h h1 l w hh cs (nib k d) ty it l' l1) as (h' & Hset & HU);
    [done|apply nib_range|done..|].
  exists l', h1, l1, h'. cbv zeta. split_and!; [done..|apply Hset|done| |].
  - rewrite erase_new_children. cbn [pfx]. rewrite length_insert, length_ekids.
    split_and!; [done..|]. intros i c. destruct (decide (i = nib k d)) as [->|Hi].
    + rewrite list_lookup_insert_eq by (rewrite length_ekids, Hlen; apply nib_range). intros [= <-].
      constructor; [lia|done|]. by rewrite Hk, pre_S, Hpre by done.
    + rewrite list_lookup_insert_ne by done. intros (hc & t & Hi' & ->)%erase_child. by eapply Hcs.
  - intros x. rewrite erase_new_children, (items_insert ty d p); [|done| |apply nib_range|].
    + cbn [erase]. change (items (TLeaf ty it)) with [it]. rewrite list_elem_of_singleton, <- (erase_inner l w hh).
      split; [intros [->|[Hx Hn]]; [by left|right; split; [done|congruence]]|].
      intros [->|[Hx Hne]]; [by left|right]. split; [done|]. intros Hn.
      eapply (child_items ty d p _ x (nib k d) Hd) in Hx as (c & (hc & t & Hc & ->)%erase_child & _);
        [congruence|by rewrite length_ekids| |done].
      intros i c (hh' & t' & Hi & ->)%erase_child. by eapply Hcs.
    + by rewrite length_ekids.
    + intros i c (hh' & t' & Hi & ->)%erase_child. by eapply Hcs.
Qed.

(** ** Splitting a leaf *)

Definition vacant (c : Z) (l : loc) : ltree := LInner l c 0 (replicate branchFactor None).

Lemma vacant_node c l : lnode (vacant c l) = new_inner c.
Proof. done. Qed.

Lemma vacant_lookup i hh t : replicate branchFactor (@None (Z * ltree)) !! i = Some (Some (hh, t)) → False.
Proof. by intros [? _]%lookup_replicate. Qed.

Lemma vacant_ok c h l :
  h !! l = Some (new_inner c) →
  holds h (vacant c l) ∧ uniq (vacant c l) ∧ lok sha512Half c (vacant c l).
Proof.
  intros Hl. split_and!.
  - apply holds_inner; [done|]. intros ? ? ? []%vacant_lookup.
  - constructor; intros; by exfalso; eapply vacant_lookup.
  - apply lok_inner. intros; by exfalso; eapply vacant_lookup.
Qed.

Lemma inl_vacant c l x : inl (vacant c l) x ↔ x = l.
Proof.
  unfold vacant. rewrite inl_inner. split; [|by left]. intros [->|(? & ? & ? & []%vacant_lookup & _)]. done.
Qed.

(** A chain of inner nodes with one child each. *)
Inductive chain (k : Z) : nat → tree → nat → tree → Prop :=
  | chain_here d t : chain k d t d t
  | chain_down d t df f :
      chain k (S d) t df f → chain k d (TInner (<[nib k d := Some t]> (replicate branchFactor None))) df f.

Lemma chain_wf k ty d t df f :
  chain k d t df f → (df ≤ 64)%nat → wf ty df (pre df k) f →
  (∃ a b, a ∈ items f ∧ b ∈ items f ∧ key a ≠ key b) →
  wf ty d (pre d k) t ∧ ∀ x, x ∈ items t ↔ x ∈ items f.
Proof.
  intros Hc Hdf Hf Htwo. induction Hc as [d t|d t df f Hc IH]; [done|].
  assert (Hd : (S d ≤ df)%nat) by (clear -Hc; induction Hc; lia).
  destruct IH as [Hwf Hit]; [done..|].
  assert (Hitems : ∀ x, x ∈ items (TInner (<[nib k d := Some t]> (replicate branchFactor None))) ↔ x ∈ items f).
  { intros x. rewrite <- Hit, elem_of_items. pose proof (nib_range k d). split.
    - intros (i & c & Hi & Hx). destruct (decide (i = nib k d)) as [->|Hne].
      + rewrite list_lookup_insert_eq in Hi by (by rewrite length_replicate). by injection Hi as <-.
      + rewrite list_lookup_insert_ne in Hi by done. by apply lookup_replicate in Hi as [? _].
    - intros Hx. exists (nib k d), t. by rewrite list_lookup_insert_eq by (by rewrite length_replicate). }
  split; [|done]. constructor; [lia|by rewrite length_insert, length_replicate| |].
  - intros i c. destruct (decide (i = nib k d)) as [->|Hne].
    + rewrite list_lookup_insert_eq by (rewrite length_replicate; apply nib_range). intros [= <-].
      by rewrite <- pre_S by lia.
    + rewrite list_lookup_insert_ne by done. by intros [? _]%lookup_replicate.
  - destruct Htwo as (a & b & Ha & Hb & Hab). exists a, b. rewrite !Hitems. done.
Qed.

(** A tree built at a new pointer, set below an empty node. *)
Lemma rebuilt_vacant c h node node2 b h4 t2 :
  (b < branchFactor)%nat → h !! node = Some (new_inner c) → h !! node2 = None →
  upd sha512Half c (<[node2 := new_inner c]> h) (vacant c node2) h4 t2 →
  rebuilt sha512Half c h h4 node c 0 (replicate branchFactor None) b (Some t2).
Proof.
  intros Hb Hn Hnone HU. destruct (vacant_ok c h node Hn) as (Hh & Hu & Hl).
  assert (Hin : ∀ x v, h !! x = Some v → h4 !! x = Some v).
  { intros x v Hx. apply (upd_frame _ _ _ _ _ _ HU); [by rewrite lookup_insert_ne by congruence|].
    intros ->%mine_inl%inl_vacant. congruence. }
  assert (Hout : ∀ x, x = node2 ∨ <[node2 := new_inner c]> h !! x = None → h !! x = None).
  { intros x [->|Hx]; [done|]. destruct (decide (x = node2)) as [->|]; [done|].
    by rewrite lookup_insert_ne in Hx by done. }
  split; try done.
  - by intros x v Hx _; apply Hin.
  - intros x [v Hx]. exists v. by apply Hin.
  - intros ? [= <-]. apply HU.
  - intros ? [= <-]. apply HU.
  - intros ? [= <-]. apply HU.
  - intros ? x [= <-] Hx. right. apply Hout.
    destruct (upd_new _ _ _ _ _ _ HU x Hx) as [->%inl_vacant|]; [by left|by right].
  - intros ? x [= <-] Hx. right. apply Hout.
    destruct (upd_mine _ _ _ _ _ _ HU x Hx) as [->%mine_inl%inl_vacant|]; [by left|by right].
Qed.

Lemma split_chain (m : SHAMap) k k2 n d id node h s fuel :
  0 < cowid_ m → state_ m ≠ Immutable → k ≠ k2 →
  n = (64 - d)%nat → (n ≤ fuel)%nat → (0 < d)%nat → idv d id → pre d k = pre d k2 →
  h !! node = Some (new_inner (cowid_ m)) →
  ∃ fs nodeF hF dF,
    (d ≤ dF < 64)%nat ∧ nib k dF ≠ nib k2 dF ∧ pre dF k = pre dF k2 ∧
    split_loop fuel node id k k2 s (mkMemory h m) =
      (Return (nodeF, nib k dF, nib k2 dF, fs ++ s), mkMemory hF m) ∧
    hF !! nodeF = Some (new_inner (cowid_ m)) ∧
    ∀ h3 t3, lroot t3 = nodeF → cowid (lnode t3) = cowid_ m →
      upd sha512Half (cowid_ m) hF (vacant (cowid_ m) nodeF) h3 t3 →
    ∃ h4 t4,
      (∀ s', dirty_loop (fs ++ s') k nodeF (mkMemory h3 m) = dirty_loop s' k node (mkMemory h4 m)) ∧
      lroot t4 = node ∧ cowid (lnode t4) = cowid_ m ∧
      upd sha512Half (cowid_ m) h (vacant (cowid_ m) node) h4 t4 ∧ chain k d (erase t4) dF (erase t3).
Proof.
  intros Hpos Hst Hk. revert d id node h s fuel.
  induction n as [|n IH]; intros d id node h s fuel Hn Hfuel Hd0 Hid Hpre Hnode.
  { destruct Hid as (_ & Hd & _). replace d with 64%nat in Hpre by lia. by rewrite !pre_64 in Hpre. }
  assert (Hd : (d < 64)%nat) by lia. pose proof Hid as (Hdep & _).
  destruct fuel as [|fuel]; [lia|]. cbn [split_loop].
  do 2 erewrite ST_bind_return by (unfold slift; by rewrite (selectBranch_nib d) by done).
  destruct (Nat.eqb_spec (nib k d) (nib k2 d)) as [Heq|Hne].
  2: { exists [], node, h, d. split_and!; [lia..|done|done|done|done|].
       intros h3 t3 Ht3 Hc3 HU. exists h3, t3. split_and!; [done..|constructor]. }
  destruct (getChildNodeID_ok d id (nib k d) Hid Hd (nib_range k d)) as (id' & Hid' & Hidv').
  cbv zeta. erewrite ST_bind_return by (unfold slift; by rewrite Hid').
  erewrite ST_bind_return by done. cbn [this].
  destruct (alloc_run m h (new_inner (cowid_ m))) as (node2 & Hnone & Ha).
  erewrite ST_bind_return by exact Ha.
  destruct (IH (S d) id' node2 (<[node2 := new_inner (cowid_ m)]> h) ((node, id) :: s) fuel)
    as (fs & nodeF & hF & dF & HdF & Hnb & Hpr & Hrun & HnF & Hdirty);
    [lia|lia|lia|done|by apply pre_S_eq|apply lookup_insert_eq|].
  exists (fs ++ [(node, id)]), nodeF, hF, dF.
  split_and!; [lia..|done|done|by rewrite Hrun, <- (assoc_L (++))|done|].
  intros h3 t3 Ht3 Hc3 HU. destruct (Hdirty h3 t3 Ht3 Hc3 HU) as (h4 & t4 & Hloop & Hroot4 & _ & HU4 & Hch).
  pose proof (rebuilt_vacant _ _ _ _ _ _ _ (nib_range k d) Hnode Hnone HU4) as HR.
  destruct (frame_run sha512Half m h h4 node _ _ _ (nib k d) (Some t4) id HR Hpos Hst (nib_range k d))
    as (l' & h5 & h6 & Hun & Hset & HU2 & Hown).
  { destruct d; [lia|]. by rewrite (isRoot_S d). }
  rewrite (Hown eq_refl) in *.
  assert (Hr : isRoot id = false) by (destruct d; [lia|]; by apply (isRoot_S d)). rewrite Hr in *.
  exists h6, (LInner node (cowid_ m) 0 (new_children (replicate branchFactor None) (nib k d) (Some t4))).
  split_and!; [|done|done|done|].
  - intros s'. rewrite <- (assoc_L (++)), Hloop. cbn [app dirty_loop].
    erewrite ST_bind_return by (eapply inner_at_run, (frame_node HR)).
    erewrite ST_bind_return by (unfold slift; by rewrite (selectBranch_nib d) by done).
    erewrite ST_bind_return by exact Hun. rewrite <- Hroot4.
    erewrite ST_bind_return by exact Hset. done.
  - rewrite erase_new_children. by constructor.
Qed.

Lemma two_leaf_tree ty d k it it2 :
  valid_item it → valid_item it2 → key it = k → (d < 64)%nat →
  nib k d ≠ nib (key it2) d → pre d k = pre d (key it2) →
  let t := TInner (<[nib (key it2) d := Some (TLeaf ty it2)]>
             (<[nib k d := Some (TLeaf ty it)]> (replicate branchFactor None))) in
  wf ty d (pre d k) t ∧ ∀ x, x ∈ items t ↔ x = it ∨ x = it2.
Proof.
  intros Hv Hv2 Hk Hd Hnib Hpre t. pose proof (nib_range k d). pose proof (nib_range (key it2) d).
  assert (Hlook : ∀ i c,
    <[nib (key it2) d := Some (TLeaf ty it2)]>
      (<[nib k d := Some (TLeaf ty it)]> (replicate branchFactor None)) !! i = Some (Some c) ↔
    (i = nib k d ∧ c = TLeaf ty it) ∨ (i = nib (key it2) d ∧ c = TLeaf ty it2)).
  { intros i c. destruct (decide (i = nib (key it2) d)) as [->|H2].
    { rewrite list_lookup_insert_eq by (by rewrite length_insert, length_replicate). naive_solver. }
    rewrite list_lookup_insert_ne by done. destruct (decide (i = nib k d)) as [->|H1].
    { rewrite list_lookup_insert_eq by (by rewrite length_replicate). naive_solver. }
    rewrite list_lookup_insert_ne by done. split; [by intros [? _]%lookup_replicate|naive_solver]. }
  assert (Hitems : ∀ x, x ∈ items t ↔ x = it ∨ x = it2).
  { intros x. unfold t. rewrite elem_of_items. setoid_rewrite Hlook. split.
    - intros (i & c & [[-> ->]|[-> ->]] & Hx); apply list_elem_of_singleton in Hx; auto.
    - intros [-> | ->]; eexists _, _; (split; [by (left + right)|]); by apply list_elem_of_singleton. }
  split; [|done]. constructor; [done|by rewrite !length_insert, length_replicate| |].
  - intros i c [[-> ->]|[-> ->]]%Hlook; constructor; try lia; try done.
    + by rewrite Hk, <- pre_S.
    + by rewrite Hpre, <- pre_S.
  - exists it, it2. split_and!; [apply Hitems; by left|apply Hitems; by right|]. intros Heq. apply Hnib. congruence.
Qed.

(** Both leaves below the last node of the chain. *)
Lemma two_leaves (m : SHAMap) k ty it it2 d h node :
  ty ≠ tnINNER → 0 < cowid_ m → valid_item it → valid_item it2 → key it = k →
  (d < 64)%nat → nib k d ≠ nib (key it2) d → pre d k = pre d (key it2) →
  h !! node = Some (new_inner (cowid_ m)) →
  ∃ l1 h1 l2 h2 t',
    alloc (LeafNode (cowid_ m) (leaf_hash sha512Half ty it) ty it) (mkMemory h m) =
      (Return l1, mkMemory (<[l1 := LeafNode (cowid_ m) (leaf_hash sha512Half ty it) ty it]> h) m) ∧
    setChild node (nib k d) (Some l1)
      (mkMemory (<[l1 := LeafNode (cowid_ m) (leaf_hash sha512Half ty it) ty it]> h) m) =
      (Return (), mkMemory h1 m) ∧
    alloc (LeafNode (cowid_ m) (leaf_hash sha512Half ty it2) ty it2) (mkMemory h1 m) =
      (Return l2, mkMemory (<[l2 := LeafNode (cowid_ m) (leaf_hash sha512Half ty it2) ty it2]> h1) m) ∧
    setChild node (nib (key it2) d) (Some l2)
      (mkMemory (<[l2 := LeafNode (cowid_ m) (leaf_hash sha512Half ty it2) ty it2]> h1) m) =
      (Return (), mkMemory h2 m) ∧
    lroot t' = node ∧ cowid (lnode t') = cowid_ m ∧
    upd sha512Half (cowid_ m) h (vacant (cowid_ m) node) h2 t' ∧ wf ty d (pre d k) (erase t') ∧ ∀ x, x ∈ items (erase t') ↔ x = it ∨ x = it2.
Proof.
  intros Hty Hpos Hv Hv2 Hk Hd Hnib Hpre Hnode.
  destruct (vacant_ok (cowid_ m) h node Hnode) as (Hh & Hu & Hl).
  destruct (alloc_run m h (LeafNode (cowid_ m) (leaf_hash sha512Half ty it) ty it)) as (l1 & Hl1 & Ha1).
  destruct (attach_leaf m h h node (cowid_ m) 0 (replicate branchFactor None) (nib k d) ty it node l1)
    as (h1 & Hset1 & HU1); [done|apply nib_range|done| |done|done|done|done|done|by left|done|].
  { apply lookup_replicate_2, nib_range. }
  set (cs1 := new_children _ _ _) in HU1.
  destruct (alloc_run m h1 (LeafNode (cowid_ m) (leaf_hash sha512Half ty it2) ty it2)) as (l2 & Hl2 & Ha2).
  destruct (attach_leaf m h1 h1 node (cowid_ m) 0 cs1 (nib (key it2) d) ty it2 node l2)
    as (h2 & Hset2 & HU2); [done|apply nib_range| | |apply HU1..| |done|by left|done|].
  { unfold cs1, new_children, put_child. by rewrite length_insert, length_replicate. }
  { unfold cs1, new_children, put_child. rewrite list_lookup_insert_ne by done. apply lookup_replicate_2, nib_range. }
  { apply (holds_root _ _ (upd_holds _ _ _ _ _ _ HU1)). }
  exists l1, h1, l2, h2. eexists. split_and!; [done|apply Hset1|done|apply Hset2| | |by eapply evo_trans| |].
  { done. } { done. }
  all: rewrite erase_new_children; unfold cs1; rewrite ekids_new_children; by apply two_leaf_tree.
Qed.

(** ** A map in memory *)

Record map_ok (ty : SHAMapNodeType) (h : gmap loc TreeNode) (m : SHAMap) (t : ltree) : Prop := {
  mo_inner : ∃ l w hh cs, t = LInner l w hh cs;
  mo_root : root_ m = lroot t;
  mo_holds : holds h t;
  mo_uniq : uniq t;
  mo_lok : lok sha512Half (cowid_ m) t;
  mo_pfx : pfx ty 0 0 (erase t);
  mo_cowid : 0 < cowid_ m }.

Lemma erase_is_inner t cs : erase t = TInner cs → ∃ l w hh cs', t = LInner l w hh cs'.
Proof. destruct t; [done|]. eauto. Qed.

Lemma graft_inner k d cs t' df f f' :
  graft k d (TInner cs) t' df f f' → (∀ cs', f = TInner cs' → ∃ cs'', f' = TInner cs'') →
  ∃ cs', t' = TInner cs'.
Proof. intros Hg Hf. inv Hg as [|]; [by eapply Hf|eauto]. Qed.

(** The operation [t ~> t'] of the owner keeps the map. *)
Lemma map_ok_upd ty h m t h' t' :
  map_ok ty h m t → upd sha512Half (cowid_ m) h t h' t' → pfx ty 0 0 (erase t') →
  (∃ cs, erase t' = TInner cs) → map_ok ty h' (with_root m (lroot t')) t'.
Proof.
  intros Hm HU Hp [cs Hcs]. split; [by eapply erase_is_inner|done|apply HU|apply HU|apply HU|done|apply Hm].
Qed.

(** ** Where a key is *)

Lemma walk_map ty h m t k :
  map_ok ty h m t → valid_key k →
  ∃ fr df idf foc,
    above k 0 root_id t fr df idf foc ∧ idv df idf ∧ stops k df foc ∧ pfx ty df (pre df k) (erase foc) ∧
    walkTowardsKey k (mkMemory h m) = (Return (leaf_of foc, (lroot foc, idf) :: fr), mkMemory h m).
Proof.
  intros Hm Hk. destruct (walk_above m h k ty 64 t 0 0 root_id [] depth_fuel) as
    (fr & df & idf & foc & pf & Hab & Hidf & Hst & Hpf & <- & Hrun);
    [done|unfold depth_fuel; lia|apply Hm|by apply pre_0|apply Hm|apply idv_root|].
  exists fr, df, idf, foc. split_and!; [done..|].
  unfold walkTowardsKey. erewrite ST_bind_return by done. cbn [this].
  by rewrite (mo_root _ _ _ _ Hm), Hrun, app_nil_r.
Qed.

(** The item with the key, if there is one, is the one at the focus. *)
Lemma focus_item k ty d id t fr df idf foc p x :
  above k d id t fr df idf foc → stops k df foc → pfx ty d p (erase t) →
  key x = k → x ∈ items (erase t) ↔ ∃ l w h ty', foc = LLeaf l w h ty' x.
Proof.
  intros Hab Hst Hp Hk. revert p Hp.
  induction Hab as [d id t|d id id' l w h cs hh t fr df idf foc Hb Hid' Hidv' Hab IH]; intros p Hp.
  - destruct t as [l w h ty' it|l w h cs].
    + cbn [erase items]. rewrite list_elem_of_singleton. split; [intros ->; eauto|by intros (? & ? & ? & ? & [= ])].
    + split; [|by intros (? & ? & ? & ? & ?)]. intros Hx. apply pfx_inner in Hp as (Hd & Hlen & Hcs). exfalso.
      rewrite erase_inner in Hx.
      apply (child_items ty d p _ x (nib k d) Hd) in Hx as (c & (hc & t & Hc & ->)%erase_child & _);
        [cbn in Hst; congruence|by rewrite length_ekids| |by rewrite Hk].
      intros i c (hc & t & Hc & ->)%erase_child. by eapply Hcs.
  - apply pfx_inner in Hp as (Hd & Hlen & Hcs).
    rewrite <- (IH Hst (16 * p + Z.of_nat (nib k d))) by (by eapply wf_pfx, Hcs).
    rewrite erase_inner, (child_items ty d p _ x (nib k d) Hd).
    + setoid_rewrite erase_child. split; [|eauto 10].
      intros (c & (hc & t0 & Hc & ->) & Hx). rewrite Hb in Hc. by injection Hc as _ <-.
    + by rewrite length_ekids.
    + intros i c (hc & t0 & Hc & ->)%erase_child. by eapply Hcs.
    + by rewrite Hk.
Qed.

Lemma above_leaf_deep k id l w h cs fr df idf foc :
  above k 0 id (LInner l w h cs) fr df idf foc → (∃ l' w' h' ty it, foc = LLeaf l' w' h' ty it) → (0 < df)%nat.
Proof.
  intros Hab (l' & w' & h' & ty & it & ->). inv Hab as [|? ? ? ? ? ? ? ? ? ? ? ? ? ? ? ? Hab'].
  apply above_depth in Hab'. lia.
Qed.

(** What holds of the tree holds at the focus. *)
Lemma above_focus c h k d id t fr df idf foc :
  above k d id t fr df idf foc → holds h t → uniq t → lok sha512Half c t →
  holds h foc ∧ uniq foc ∧ lok sha512Half c foc.
Proof.
  induction 1 as [d id t|d id id' l w h' cs hh t fr df idf foc Hb Hid' Hidv' Hab IH]; [done|].
  intros Hh Hu Hl. apply IH; [by eapply holds_child| |by eapply lok_child].
  inv Hu as [|? ? ? ? Hu' _]. by eapply Hu'.
Qed.

Lemma above_wf k ty d id t fr df idf foc p :
  above k d id t fr df idf foc → pfx ty d p (erase t) → pre d k = p →
  pfx ty df (pre df k) (erase foc) ∧ ((d < df)%nat → wf ty df (pre df k) (erase foc)).
Proof.
  intros Hab. revert p.
  induction Hab as [d id t|d id id' l w h cs hh t fr df idf foc Hb Hid' Hidv' Hab IH]; intros p Hp Hpre.
  { rewrite Hpre. split; [done|lia]. }
  apply pfx_inner in Hp as (Hd & Hlen & Hcs). pose proof (Hcs _ _ _ Hb) as Hw.
  destruct (IH (16 * p + Z.of_nat (nib k d))) as [Hpf Hwf]; [by apply wf_pfx|by rewrite pre_S, Hpre|].
  split; [done|]. intros _. destruct (decide (S d = df)) as [<-|Hne].
  - apply above_same in Hab as ->. by rewrite pre_S, Hpre.
  - apply Hwf. apply above_depth in Hab. lia.
Qed.

(** ** Walking up from the changed focus *)

Lemma dirtyUp_run (m : SHAMap) h stack k l n :
  state_ m = Modifying → h !! l = Some n → cowid n = cowid_ m →
  dirtyUp stack k l (mkMemory h m) = (_ ← dirty_loop stack k l; mret ()) (mkMemory h m).
Proof.
  intros Hst Hn Hc. unfold dirtyUp. erewrite ST_bind_return by done. cbn [this]. rewrite Hst.
  erewrite ST_bind_return by done. erewrite ST_bind_return by (by apply node_at_run).
  rewrite Hc. unfold sassert. rewrite Z.eqb_refl. by erewrite ST_bind_return by done.
Qed.

Lemma dirtyUp_map ty h m t k fr df idf foc h1 foc' :
  map_ok ty h m t → state_ m = Modifying → above k 0 root_id t fr df idf foc →
  upd sha512Half (cowid_ m) h foc h1 foc' → cowid (lnode foc') = cowid_ m →
  ∃ h2 t',
    dirtyUp fr k (lroot foc') (mkMemory h1 (after m idf (lroot foc'))) =
      (Return (), mkMemory h2 (with_root m (lroot t'))) ∧
    upd sha512Half (cowid_ m) h t h2 t' ∧ graft k 0 (erase t) (erase t') df (erase foc) (erase foc').
Proof.
  intros Hm Hst Hab HU Hc.
  destruct (dirty_above m h k ty 0 root_id t fr df idf foc Hab (mo_cowid _ _ _ _ Hm)) with
    (p := 0) (h1 := h1) (foc' := foc') as (h2 & t' & Hrun & HU2 & Hg);
    [by rewrite Hst|apply Hm|apply Hm|apply Hm|apply Hm|apply idv_root|intros _; apply Hm|done|].
  exists h2, t'. split_and!; [|done..].
  assert (Hthis : state_ (after m idf (lroot foc')) = Modifying ∧ cowid_ (after m idf (lroot foc')) = cowid_ m)
    by (unfold after; by destruct (isRoot idf)).
  destruct Hthis as [Hs Hw].
  rewrite (dirtyUp_run _ _ _ _ _ (lnode foc') Hs) by (rewrite ?Hw; apply holds_root, HU || done).
  erewrite ST_bind_return; [done|]. specialize (Hrun []). rewrite app_nil_r in Hrun. by rewrite Hrun.
Qed.

Lemma upd_from_vacant c h h2 t n0 h4 t4 :
  (∀ x v, h !! x = Some v → h2 !! x = Some v) → h !! n0 = None →
  upd sha512Half c h2 (vacant c n0) h4 t4 → upd sha512Half c h t h4 t4.
Proof.
  intros Hsub Hn0 HU.
  assert (Hout : ∀ x, x = n0 ∨ h2 !! x = None → h !! x = None).
  { intros x [->|Hx]; [done|]. destruct (h !! x) eqn:He; [|done]. apply Hsub in He. congruence. }
  split; try apply HU.
  - intros x Hx. right. apply Hout. destruct (upd_new _ _ _ _ _ _ HU x Hx) as [->%inl_vacant|]; auto.
  - intros x Hx. right. apply Hout. destruct (upd_mine _ _ _ _ _ _ HU x Hx) as [->%mine_inl%inl_vacant|]; auto.
  - intros x n Hx _. apply (upd_frame _ _ _ _ _ _ HU); [by apply Hsub|].
    intros ->%mine_inl%inl_vacant. congruence.
  - intros x [n Hx]. apply HU. exists n. by apply Hsub.
Qed.
End ops.
