(* ===== verification/SHAMapMutate.v ===== *)
(** * Adding, replacing and deleting items

    The three mutations of a map, with their results: the operation returns,
    the tree stays well formed, and its items are the old ones with the change. *)
From S2P Require Import Prelude Outcome Bytes Serializer SHAMapNode SHAMap SHAMapTree SHAMapLoc SHAMapOps.

Section mutate.
Context (sha512Half : list Z → Z).

(** The result of a mutation: a new tree for the map. *)
Definition mutated (ty : SHAMapNodeType) (h : gmap loc TreeNode) (m : SHAMap) (t : ltree)
    (r : exc bool * Memory) (P : tree → Prop) : Prop :=
  ∃ h' t', r = (Return true, mkMemory h' (with_root m (lroot t'))) ∧
    map_ok sha512Half ty h' (with_root m (lroot t')) t' ∧
    upd sha512Half (cowid_ m) h t h' t' ∧ P (erase t').

(** ** Adding *)

Lemma add_leaf_case ty h m t it fr df idf l w hh it2 :
  map_ok sha512Half ty h m t → state_ m = Modifying → ty ≠ tnINNER → valid_item it →
  above (key it) 0 root_id t fr df idf (LLeaf l w hh ty it2) → idv df idf → (0 < df)%nat →
  wf ty df (pre df (key it)) (TLeaf ty it2) → key it2 ≠ key it →
  mutated ty h m t
    ((node ← unshareNode l idf;
      n ← node_at node;
      node ← alloc (new_inner (cowid n));
      '(node, b1, b2, stack) ← split_loop depth_fuel node idf (key it) (key it2) fr;
      w ← sget;
      leaf1 ← slift (makeTypedLeaf sha512Half ty it (cowid_ (this w)));
      l1 ← alloc leaf1;
      setChild node b1 (Some l1);;
      leaf2 ← slift (makeTypedLeaf sha512Half ty it2 (cowid_ (this w)));
      l2 ← alloc leaf2;
      setChild node b2 (Some l2);;
      dirtyUp stack (key it) node;;
      mret true) (mkMemory h m))
    (put_item (key it) it (erase t)).
Proof.
  intros Hm Hst Hty Hv Hab Hidf Hdf Hwf Hne.
  set (c := cowid_ m). assert (Hc : 0 < c) by apply Hm.
  assert (Him : state_ m ≠ Immutable) by (by rewrite Hst).
  destruct (above_focus sha512Half c h _ _ _ _ _ _ _ _ Hab) as (Hfh & _ & Hfl); [apply Hm..|].
  assert (Hnr : isRoot idf = false) by (destruct df; [lia|]; by apply (isRoot_S df)).
  inv Hwf as [? ? ? Hd64 Hv2 Hpre2|].
  destruct (unshareNode_run m h l (LeafNode w hh ty it2) idf) as (l0 & h1 & Hun & Hl0 & Heq & Hor);
    [by apply (holds_root _ _ Hfh)|by apply (lok_cowid _ _ _ Hfl)|done|done|by rewrite Hnr|].
  unfold after in Hun. rewrite Hnr in Hun.
  erewrite ST_bind_return by exact Hun. erewrite ST_bind_return by (by apply node_at_run).
  cbn [clone cowid]. destruct (alloc_run m h1 (new_inner c)) as (n0 & Hn0 & Ha).
  erewrite ST_bind_return by exact Ha.
  destruct (split_chain sha512Half m (key it) (key it2) (64 - df) df idf n0 (<[n0 := new_inner c]> h1) fr depth_fuel)
    as (fs & nodeF & hF & dF & HdF & Hnib & Hpr & Hsplit & HnF & Hchain);
    [done|done|congruence|done|unfold depth_fuel; lia|done|done|by rewrite Hpre2|apply lookup_insert_eq|].
  erewrite ST_bind_return by exact Hsplit. cbv beta iota. erewrite ST_bind_return by done. cbn [this].
  destruct (two_leaves sha512Half m (key it) ty it it2 dF hF nodeF)
    as (l1 & h5 & l2 & h6 & t3 & Hal1 & Hset1 & Hal2 & Hset2 & Hroot3 & Hc3 & HU3 & Hwf3 & Hit3);
    [done..|lia|done|done|done|].
  rewrite !makeTypedLeaf_ok by done.
  erewrite ST_bind_return by done. erewrite ST_bind_return by exact Hal1.
  erewrite ST_bind_return by exact Hset1. erewrite ST_bind_return by done.
  erewrite ST_bind_return by exact Hal2. erewrite ST_bind_return by exact Hset2.
  destruct (Hchain h6 t3 Hroot3 Hc3 HU3) as (h7 & t4 & Hloop & Hroot4 & Hc4 & HU4 & Hch).
  assert (Hn0' : h !! n0 = None).
  { destruct (decide (n0 = l0)) as [->|]; [congruence|]. by rewrite <- Heq. }
  assert (Hup : dirtyUp (fs ++ fr) (key it) nodeF (mkMemory h6 m) = dirtyUp fr (key it) n0 (mkMemory h7 m)).
  { rewrite (dirtyUp_run m h6 _ _ _ (lnode t3)), (dirtyUp_run m h7 _ _ _ (lnode t4)); try done.
    - unfold mbind at 1, ST_bind at 1. rewrite Hloop. done.
    - rewrite <- Hroot4. apply holds_root, HU4.
    - rewrite <- Hroot3. apply holds_root, HU3. }
  destruct (dirtyUp_map sha512Half ty h m t (key it) fr df idf _ h7 t4 Hm Hst Hab) as (h8 & t' & Hrun & HU & Hg).
  { eapply upd_from_vacant; [|exact Hn0'|exact HU4]. intros x v Hx.
    rewrite lookup_insert_ne by congruence. destruct (decide (x = l0)) as [->|Hx0]; [|by rewrite Heq].
    destruct Hor as [[-> Hw]|?]; [|congruence].
    rewrite (holds_root _ _ Hfh : h !! l = _) in Hx. injection Hx as <-. cbn in Hw. rewrite Hl0. cbn. by subst. }
  { done. }
  unfold after in Hrun. rewrite Hnr, Hroot4 in Hrun.
  destruct (chain_wf _ ty _ _ _ _ Hch) as [Hwf4 Hit4]; [lia|done| |].
  { exists it, it2. rewrite !Hit3. split_and!; [by left|by right|congruence]. }
  destruct (graft_put (key it) it ty 0 0 (erase t) (erase t') df _ (erase t4) (pre df (key it)) Hg) as (Hp & Hput & _);
    [done|by apply pre_0, Hv|done|apply Hm|by apply wf_pfx|done| |].
  { intros x. rewrite Hit4, Hit3. cbn [erase items]. rewrite list_elem_of_singleton.
    split; [intros [-> | ->]; [by left|by right]|intros [-> | [-> _]]; [by left|by right]]. }
  exists h8, t'. split_and!; [|eapply map_ok_upd; [done..|]|done|done].
  - erewrite ST_bind_return; [done|]. by rewrite Hup, Hrun.
  - destruct (mo_inner _ _ _ _ _ Hm) as (? & ? & ? & cs & ->). by eapply graft_inner.
Qed.

(** The walk at the start of a mutation. *)
Lemma focus_leaf ty d id t fr df idf l w h ty' it p k :
  above k d id t fr df idf (LLeaf l w h ty' it) → pfx ty d p (erase t) → ty' = ty.
Proof.
  intros Hab. remember (LLeaf l w h ty' it) as foc eqn:Hfoc. revert p Hfoc.
  induction Hab as [d id t|d id id' l0 w0 h0 cs hh t fr df idf foc Hb Hid' Hidv' Hab IH]; intros p Hfoc Hp.
  - subst t. by inv Hp.
  - apply pfx_inner in Hp as (Hd & Hlen & Hcs). eapply IH; [done|]. by eapply wf_pfx, Hcs.
Qed.

Definition has_key (k : Z) (t : tree) : Prop := ∃ x, x ∈ items t ∧ key x = k.

Lemma add_ok ty h m t it :
  map_ok sha512Half ty h m t → state_ m = Modifying → ty ≠ tnINNER → valid_item it →
  (has_key (key it) (erase t) ∧
   addGiveItem sha512Half ty it (mkMemory h m) = (Return false, mkMemory h m)) ∨
  (¬ has_key (key it) (erase t) ∧
   mutated ty h m t (addGiveItem sha512Half ty it (mkMemory h m)) (put_item (key it) it (erase t))).
Proof.
  intros Hm Hst Hty Hv.
  destruct (walk_map sha512Half ty h m t (key it) Hm) as (fr & df & idf & foc & Hab & Hidf & Hstop & Hpf & Hwalk);
    [apply Hv|].
  destruct (above_focus sha512Half (cowid_ m) h _ _ _ _ _ _ _ _ Hab) as (Hfh & Hfu & Hfl); [apply Hm..|].
  assert (Hfind : ∀ x, key x = key it → x ∈ items (erase t) ↔ ∃ l w h ty', foc = LLeaf l w h ty' x)
    by (intros x Hx; eapply focus_item; [done|done|apply Hm|done]).
  unfold addGiveItem. erewrite ST_bind_return by done. cbn [this].
  rewrite Hst, !bool_decide_eq_true_2 by done. do 2 erewrite ST_bind_return by done. cbv zeta.
  erewrite ST_bind_return by exact Hwalk. cbv beta iota.
  erewrite ST_bind_return by (apply node_at_run, holds_root, Hfh).
  destruct foc as [l w hh ty' it2|l w hh cs]; cbn [lnode lroot].
  - destruct (Z.eqb_spec (key it2) (key it)) as [Heq|Hne].
    + left. split; [|done]. exists it2. split; [|done]. apply Hfind; eauto.
    + right. split.
      { intros (x & Hx & Hk). apply Hfind in Hx as (? & ? & ? & ? & [= _ _ _ _ <-]); done. }
      assert (ty' = ty) as -> by (eapply focus_leaf; [done|apply Hm]).
      assert ((0 < df)%nat).
      { destruct (mo_inner _ _ _ _ _ Hm) as (? & ? & ? & ? & ->). eapply above_leaf_deep; eauto 10. }
      by eapply add_leaf_case.
  - right. split. { intros (x & Hx & Hk). apply Hfind in Hx as (? & ? & ? & ? & ?); done. }
    destruct (add_inner sha512Half m h (key it) ty it df (pre df (key it)) idf l w hh cs)
      as (l' & h1 & l1 & h' & Hun & Hl' & Hal & Hset & HU & Hpf' & Hput');
      [done..|apply Hm|by rewrite Hst|done|done|done|done|done|done|done| |].
    { intros Hr. destruct (mo_inner _ _ _ _ _ Hm) as (l0 & w0 & h0 & cs0 & ->).
      inv Hab as [|? ? ? ? ? ? ? ? ? ? ? ? ? ? ? ? Hab']; [apply Hm|].
      apply above_depth in Hab'. destruct df; [lia|]. by rewrite (isRoot_S df) in Hr. }
    erewrite ST_bind_return by exact Hun.
    erewrite ST_bind_return by (eapply inner_at_run; done).
    pose proof (proj1 Hidf) as Hdep.
    pose proof Hpf as (Hd & Hlen & _)%pfx_inner.
    erewrite ST_bind_return by (unfold slift; by rewrite (selectBranch_nib df) by done).
    rewrite isEmptyBranch_shape, Hstop. erewrite ST_bind_return by done.
    erewrite ST_bind_return by done. cbn [this].
    replace (cowid_ (after m idf l')) with (cowid_ m) by (unfold after; by destruct (isRoot idf)).
    rewrite makeTypedLeaf_ok by done. erewrite ST_bind_return by done.
    erewrite ST_bind_return by exact Hal. erewrite ST_bind_return by exact Hset.
    destruct (dirtyUp_map sha512Half ty h m t (key it) fr df idf _ h' _ Hm Hst Hab HU) as (h2 & t' & Hrun & HU2 & Hg);
      [done|].
    erewrite ST_bind_return by exact Hrun.
    destruct (graft_put (key it) it ty 0 0 (erase t) (erase t') df _ _ (pre df (key it)) Hg) as (Hp & Hput & _);
      [done|by apply pre_0, Hv|done|apply Hm|done| |done|].
    { intros Hdf. destruct (above_wf _ _ _ _ _ _ _ _ _ 0 Hab (mo_pfx _ _ _ _ _ Hm)) as [_ Hw]; [by apply pre_0, Hv|].
      apply pfx_wf; [done|]. intros _ _. eapply put_two; [done..|]. specialize (Hw Hdf). by inv Hw. }
    exists h2, t'. split_and!; [done|eapply map_ok_upd; [done..|]|done|done].
    destruct (mo_inner _ _ _ _ _ Hm) as (? & ? & ? & cs0 & ->). eapply graft_inner; [done|eauto].
Qed.

(** ** Replacing *)

(** Nothing the map reaches changed. *)
Lemma upd_same ty h m t h' :
  map_ok sha512Half ty h m t → (∀ x n, h !! x = Some n → h' !! x = Some n) → upd sha512Half (cowid_ m) h t h' t.
Proof.
  intros Hm Hsub. split; try apply Hm; try tauto.
  - intros l n Hn. by apply Hsub, Hm.
  - intros x n Hx _. by apply Hsub.
  - intros x [n Hx]. exists n. by apply Hsub.
Qed.

Lemma update_ok ty h m t it :
  map_ok sha512Half ty h m t → state_ m = Modifying → valid_item it → has_key (key it) (erase t) →
  (∀ x, x ∈ items (erase t) → key x = key it → leaf_hash sha512Half ty x = leaf_hash sha512Half ty it → x = it) →
  mutated ty h m t (updateGiveItem sha512Half ty it (mkMemory h m)) (put_item (key it) it (erase t)).
Proof.
  intros Hm Hst Hv (x & Hx & Hk) Hcoll.
  destruct (walk_map sha512Half ty h m t (key it) Hm) as (fr & df & idf & foc & Hab & Hidf & Hstop & Hpf & Hwalk);
    [apply Hv|].
  destruct (above_focus sha512Half (cowid_ m) h _ _ _ _ _ _ _ _ Hab) as (Hfh & Hfu & Hfl); [apply Hm..|].
  pose proof (proj1 (focus_item _ _ _ _ _ _ _ _ _ _ x Hab Hstop (mo_pfx _ _ _ _ _ Hm) Hk) Hx)
    as (l & w & hh & ty' & ->).
  assert (ty' = ty) as -> by (eapply focus_leaf; [done|apply Hm]).
  assert (Hnr : isRoot idf = false).
  { destruct (mo_inner _ _ _ _ _ Hm) as (? & ? & ? & ? & ->).
    pose proof (above_leaf_deep _ _ _ _ _ _ _ _ _ _ Hab ltac:(eauto 10)) as Hdf.
    destruct df; [lia|]. by apply (isRoot_S df). }
  assert (Hhash : hh = leaf_hash sha512Half ty x).
  { inv Hfl as [? Hcl| |]; [by inv Hcl|done]. }
  unfold updateGiveItem. erewrite ST_bind_return by done. cbn [this].
  rewrite Hst, !bool_decide_eq_true_2 by done. erewrite ST_bind_return by done.
  erewrite ST_bind_return by exact Hwalk. cbv beta iota.
  erewrite ST_bind_return by (apply node_at_run, holds_root, Hfh). cbn [lnode lroot].
  rewrite Hk, Z.eqb_refl. cbn [negb]. rewrite bool_decide_eq_false_2 by tauto.
  destruct (unshareNode_run m h l (LeafNode w hh ty x) idf) as (l' & h1 & Hun & Hl' & Heq & Hor);
    [by apply (holds_root _ _ Hfh)|by apply (lok_cowid _ _ _ Hfl)|apply Hm|by rewrite Hst|by rewrite Hnr|].
  unfold after in Hun. rewrite Hnr in Hun. erewrite ST_bind_return by exact Hun.
  pose proof (mo_cowid _ _ _ _ _ Hm) as Hpos.
  assert (Hset : setItem sha512Half l' it (mkMemory h1 m) =
    (Return (negb (hh =? leaf_hash sha512Half ty it)),
     mkMemory (<[l' := LeafNode (cowid_ m) (leaf_hash sha512Half ty it) ty it]> h1) m)).
  { unfold setItem. erewrite ST_bind_return by (by apply node_at_run). cbn [clone].
    rewrite (proj2 (Z.eqb_neq (cowid_ m) 0)) by lia. done. }
  erewrite ST_bind_return by exact Hset.
  destruct (Z.eqb_spec hh (leaf_hash sha512Half ty it)) as [Hsame|Hdiff]; cbn [negb].
  - assert (x = it) as -> by (apply Hcoll; [done|done|congruence]).
    erewrite ST_bind_return by done. eexists _, t.
    assert (Hm' : m = with_root m (lroot t)) by (rewrite <- (mo_root _ _ _ _ _ Hm); by destruct m).
    assert (HU : upd sha512Half (cowid_ m) h t
                   (<[l' := LeafNode (cowid_ m) (leaf_hash sha512Half ty it) ty it]> h1) t).
    { eapply upd_same; [done|]. intros y n Hy. destruct (decide (y = l')) as [->|Hne].
      - destruct Hor as [[-> Hw]|?]; [|congruence]. rewrite lookup_insert_eq.
        rewrite (holds_root _ _ Hfh : h !! l = _) in Hy. injection Hy as <-. cbn in Hw. by subst.
      - rewrite lookup_insert_ne, Heq by done. done. }
    split_and!; [by rewrite <- Hm'|eapply map_ok_upd; [done..|apply Hm|]|done|].
    + destruct (mo_inner _ _ _ _ _ Hm) as (? & ? & ? & ? & ->). eauto.
    + intros y. split; [|intros [->|[? _]]; done]. intros Hy.
      destruct (decide (key y = key it)) as [He|]; [left|by right].
      by eapply pfx_key_inj; [apply Hm|..].
  - destruct (dirtyUp_map sha512Half ty h m t (key it) fr df idf _ _ _ Hm Hst Hab
      (evo_leaf (lok sha512Half (cowid_ m)) (cowid_ m) h l w hh ty x
        (LLeaf l' (cowid_ m) (leaf_hash sha512Half ty it) ty it) h1 Hfh ltac:(eauto 10) Heq Hor (lok_leaf _ _ _ _ _)))
      as (h2 & t' & Hrun & HU & Hg); [done|].
    unfold after in Hrun. rewrite Hnr in Hrun. cbn [lroot] in Hrun.
    erewrite ST_bind_return by exact Hrun.
    inv Hpf as [? ? ? Hd64 Hvx Hpx|].
    destruct (graft_put (key it) it ty 0 0 (erase t) (erase t') df _ _ (pre df (key it)) Hg) as (Hp & Hput & _);
      [done|by apply pre_0, Hv|done|apply Hm|by constructor|by constructor| |].
    { intros y. cbn [erase items]. rewrite !list_elem_of_singleton. split; [by left|].
      intros [->|[-> ?]]; done. }
    exists h2, t'. split_and!; [done|eapply map_ok_upd; [done..|]|done|done].
    destruct (mo_inner _ _ _ _ _ Hm) as (? & ? & ? & cs0 & ->). eapply graft_inner; [done|done].
Qed.
End mutate.
