(* ===== verification/SHAMapDelete.v ===== *)
(** * Deleting an item

    [delItem] walks up from the leaf it removes; a node that is left with one
    item is replaced by a leaf, so the tree stays compact. *)
From S2P Require Import Prelude Outcome Bytes Serializer SHAMapNode SHAMap SHAMapTree SHAMapLoc SHAMapOps SHAMapMutate.

(** ** The branches in use *)

Lemma full_branches_elem cs i :
  length cs = branchFactor → i ∈ full_branches (shape cs) ↔ ∃ hh t, cs !! i = Some (Some (hh, t)).
Proof.
  intros Hlen. unfold full_branches. rewrite list_elem_of_filter, elem_of_seq, isEmptyBranch_shape. split.
  - intros [H _]. destruct (cs !! i) as [[[hh t]|]|]; eauto; done.
  - intros (hh & t & Hi). rewrite Hi. split; [done|]. apply lookup_lt_Some in Hi. rewrite Hlen in Hi. lia.
Qed.

Lemma full_branches_NoDup bs : NoDup (full_branches bs).
Proof. apply NoDup_filter, NoDup_seq. Qed.

Lemma filter_map {A B} (f : A → B) (P : B → Prop) (Q : A → Prop)
    `{∀ x, Decision (P x)} `{∀ x, Decision (Q x)} l :
  (∀ a, P (f a) ↔ Q a) → filter P (map f l) = map f (filter Q l).
Proof.
  intros Hpq. induction l as [|a l IH]; [done|]. cbn [map]. rewrite !filter_cons.
  destruct (decide (P (f a))) as [Hp|Hp], (decide (Q a)) as [Hq|Hq]; cbn [map]; rewrite ?IH; try done;
    by rewrite Hpq in Hp.
Qed.

Lemma branch_count bs :
  getBranchCount bs = length (filter (λ i, isEmptyBranch bs i = false) (seq 0 (length bs))).
Proof.
  unfold getBranchCount. induction bs as [|b bs IH]; [done|].
  cbn [length seq]. rewrite <- seq_shift, !filter_cons.
  rewrite (filter_map S _ (λ i, isEmptyBranch bs i = false)) by done.
  destruct b as [b|]; cbn [isEmptyBranch lookup list_lookup].
  - rewrite !decide_True by done. cbn [length]. by rewrite length_map, IH.
  - rewrite !decide_False by (unfold isEmptyBranch; cbn; naive_solver). by rewrite length_map, IH.
Qed.

Lemma branch_count_full cs :
  length cs = branchFactor → getBranchCount (shape cs) = length (full_branches (shape cs)).
Proof.
  intros Hlen. rewrite branch_count. unfold shape. by rewrite length_fmap, Hlen.
Qed.

(** ** The only item below a node *)

(** Two children hold items with different keys. *)
Lemma two_children ty d p cs i j :
  pfx ty d p (TInner cs) → i ≠ j →
  (∃ c, cs !! i = Some (Some c)) → (∃ c, cs !! j = Some (Some c)) →
  ∃ a b, a ∈ items (TInner cs) ∧ b ∈ items (TInner cs) ∧ key a ≠ key b.
Proof.
  intros (Hd & Hlen & Hcs) Hij (ci & Hi) (cj & Hj).
  destruct (wf_nonempty _ _ _ _ (Hcs _ _ Hi)) as [a Ha], (wf_nonempty _ _ _ _ (Hcs _ _ Hj)) as [b Hb].
  exists a, b. rewrite !elem_of_items. split_and!; [eauto..|]. intros Hk.
  destruct (wf_item _ _ _ _ _ (Hcs _ _ Hi) Ha) as [_ Hpa], (wf_item _ _ _ _ _ (Hcs _ _ Hj) Hb) as [_ Hpb].
  rewrite Hk in Hpa. lia.
Qed.

Lemma onlyBelow_run (m : SHAMap) h ty n t d p fuel :
  n = (64 - d)%nat → (n ≤ fuel)%nat → pfx ty d p (erase t) → holds h t → (∃ x, x ∈ items (erase t)) →
  ∃ r, onlyBelow fuel (lroot t) (mkMemory h m) = (Return r, mkMemory h m) ∧
    match r with
    | Some it => ∀ x, x ∈ items (erase t) ↔ x = it
    | None => ∃ a b, a ∈ items (erase t) ∧ b ∈ items (erase t) ∧ key a ≠ key b
    end.
Proof.
  revert t d p fuel. induction n as [|n IH]; intros t d p fuel Hn Hfuel Hp Hh Hne.
  all: destruct t as [l w hh ty' it|l w hh cs].
  1, 3: (exists (Some it); split; [|intros x; cbn [erase items]; apply list_elem_of_singleton];
    destruct fuel; cbn [onlyBelow]; by erewrite ST_bind_return by (by apply node_at_run, (holds_root _ _ Hh))).
  { apply pfx_inner in Hp. lia. }
  pose proof Hp as (Hd & Hlen & Hcs)%pfx_inner.
  assert (Hbody : onlyBelow fuel (lroot (LInner l w hh cs)) (mkMemory h m) =
    match full_branches (shape cs), fuel with
    | [], _ => slift (Abort "nextNode")
    | [i], S fuel => next ← descendThrow l i; onlyBelow fuel next
    | [i], O => slift NoFuel
    | i :: _, _ => _ ← descendThrow l i; mret None
    end (mkMemory h m)).
  { destruct fuel; cbn [onlyBelow]; by erewrite ST_bind_return by (by apply node_at_run, (holds_root _ _ Hh)). }
  rewrite Hbody. clear Hbody.
  pose proof (λ i, full_branches_elem cs i Hlen) as Hfull. pose proof (full_branches_NoDup (shape cs)) as Hnd.
  destruct (full_branches (shape cs)) as [|i [|j bs]].
  - destruct Hne as (x & (i & c & (hc & t & Hi & _)%erase_child & _)%elem_of_items).
    exfalso. eapply (elem_of_nil i), Hfull. eauto.
  - destruct fuel as [|fuel]; [lia|].
    destruct (proj1 (Hfull i)) as (hc & t & Hi); [by apply list_elem_of_singleton|].
    erewrite ST_bind_return by (eapply descendThrow_run; [by apply (holds_root _ _ Hh)|done]).
    assert (Hitems : ∀ x, x ∈ items (erase (LInner l w hh cs)) ↔ x ∈ items (erase t)).
    { intros x. rewrite erase_inner, elem_of_items. setoid_rewrite erase_child. split; [|eauto 10].
      intros (j & c & (hc' & t' & Hj & ->) & Hx).
      assert (j = i) as -> by (apply list_elem_of_singleton, Hfull; eauto). rewrite Hi in Hj. by injection Hj as _ <-. }
    destruct (IH t (S d) (16 * p + Z.of_nat i) fuel) as (r & Hrun & Hr);
      [lia|lia|by eapply wf_pfx, Hcs|by eapply holds_child|by eapply wf_nonempty, Hcs|].
    exists r. split; [exact Hrun|]. by destruct r; setoid_rewrite Hitems.
  - destruct (proj1 (Hfull i)) as (hc & t & Hi); [by left|].
    destruct (proj1 (Hfull j)) as (hc' & t' & Hj); [by right; left|].
    exists None. split.
    + by destruct fuel; erewrite ST_bind_return by (eapply descendThrow_run; [by apply (holds_root _ _ Hh)|done]).
    + rewrite erase_inner in *. eapply (two_children ty d p _ i j); [done|..].
      * apply NoDup_cons in Hnd as [Hnd _]. intros ->. apply Hnd. by left.
      * eexists. apply erase_child. eauto.
      * eexists. apply erase_child. eauto.
Qed.

Section delete.
Context (sha512Half : list Z → Z).

(** A tree that was rebuilt or is gone. *)
Definition updo (c : Z) (h : gmap loc TreeNode) (t : ltree) (h' : gmap loc TreeNode) (o : option ltree) : Prop :=
  match o with
  | Some t' => upd sha512Half c h t h' t'
  | None =>
    (∀ x n, h !! x = Some n → ¬ mine c t x → h' !! x = Some n) ∧ (∀ x, is_Some (h !! x) → is_Some (h' !! x))
  end.

Lemma upd_gone c h t h' t' : upd sha512Half c h t h' t' → updo c h t h' None.
Proof. intros HU. split; apply HU. Qed.

Lemma rebuilt_childo c h0 h l w hh cs b hc t o :
  holds h0 (LInner l w hh cs) → uniq (LInner l w hh cs) → lok sha512Half c (LInner l w hh cs) →
  cs !! b = Some (Some (hc, t)) → updo c h0 t h o →
  rebuilt sha512Half c h0 h l w hh cs b o.
Proof.
  intros Hh Hu Hl Hb HU. destruct o as [t'|]; [by eapply remade_child|]. destruct HU as [Hf Hdom].
  split; try done; [by eapply lookup_lt_Some|].
  intros x n Hx Hm. apply Hf; [done|]. intros Hm'. apply Hm. by exists hc, t.
Qed.

(** [o] has the items of [t] except the one with key [k]. *)
Definition cut (k : Z) (t : tree) (o : option tree) : Prop :=
  ∀ x, (∃ t', o = Some t' ∧ x ∈ items t') ↔ x ∈ items t ∧ key x ≠ k.

Lemma ekids_new_childo cs b o :
  ekids (new_children cs b o) = <[b := erase <$> o]> (ekids cs).
Proof.
  destruct o as [t'|]; [apply ekids_new_children|]. unfold new_children, put_child, ekids.
  apply (list_fmap_insert (λ o : option (Z * ltree), match o with Some (_, t) => Some (erase t) | None => None end)).
Qed.

(** Cutting the child cuts the node. *)
Lemma cut_child ty d p cs k t o :
  pfx ty d p (TInner cs) → cs !! nib k d = Some (Some t) → pre d k = p → cut k t o →
  (∀ t', o = Some t' → wf ty (S d) (16 * p + Z.of_nat (nib k d)) t') →
  pfx ty d p (TInner (<[nib k d := o]> cs)) ∧ cut k (TInner cs) (Some (TInner (<[nib k d := o]> cs))).
Proof.
  intros (Hd & Hlen & Hcs) Hb Hpre Hcut Hwf.
  assert (Hb16 : (nib k d < length cs)%nat) by (rewrite Hlen; apply nib_range).
  assert (Hkids : ∀ i c, <[nib k d := o]> cs !! i = Some (Some c) → wf ty (S d) (16 * p + Z.of_nat i) c).
  { intros i c Hi. destruct (decide (i = nib k d)) as [->|Hi'].
    - rewrite list_lookup_insert_eq in Hi by done. apply Hwf. by injection Hi.
    - rewrite list_lookup_insert_ne in Hi by done. by apply Hcs. }
  assert (Hlen' : length (<[nib k d := o]> cs) = branchFactor) by (by rewrite length_insert).
  split; [done|]. intros x.
  assert (Hx : (∃ t', Some (TInner (<[nib k d := o]> cs)) = Some t' ∧ x ∈ items t') ↔
               x ∈ items (TInner (<[nib k d := o]> cs))) by naive_solver.
  rewrite Hx. rewrite !(child_items ty d p _ x (nib (key x) d)) by done.
  destruct (decide (nib (key x) d = nib k d)) as [->|Hne].
  - rewrite list_lookup_insert_eq by done. rewrite Hb. specialize (Hcut x). naive_solver.
  - rewrite list_lookup_insert_ne by done. split; [|naive_solver]. intros (c & Hc & Hxc). split; [eauto|congruence].
Qed.

(** ** One node on the way up *)

(** A node whose only item moves into a new leaf. *)
Lemma collapse_upd c h t h' l' hh cs l2 ty it n' :
  upd sha512Half c h t h' (LInner l' c hh cs) → h' !! l2 = None →
  upd sha512Half c h t (<[l2 := LeafNode c (leaf_hash sha512Half ty it) ty it]> (<[l' := n']> h'))
      (LLeaf l2 c (leaf_hash sha512Half ty it) ty it).
Proof.
  intros HU Hl2.
  assert (Hl2h : h !! l2 = None).
  { apply eq_None_not_Some. intros Hs. apply (upd_dom _ _ _ _ _ _ HU) in Hs. rewrite Hl2 in Hs. by destruct Hs. }
  assert (Hl' : mine c (LInner l' c hh cs) l') by (apply mine_inner; by left).
  split.
  - intros x n [-> ->]%At_leaf_inv. apply lookup_insert_eq.
  - constructor.
  - apply lok_leaf.
  - intros x ->%inl_leaf. by right.
  - intros x ->%mine_inl%inl_leaf. by right.
  - intros x n Hx Hm. rewrite lookup_insert_ne by congruence.
    rewrite lookup_insert_ne; [by apply (upd_frame _ _ _ _ _ _ HU)|].
    intros <-. destruct (upd_mine _ _ _ _ _ _ HU _ Hl'); [done|congruence].
  - intros x Hx. apply (upd_dom _ _ _ _ _ _ HU) in Hx.
    destruct (decide (x = l2)) as [->|]; [rewrite lookup_insert_eq; eauto|rewrite lookup_insert_ne by done].
    destruct (decide (x = l')) as [->|]; [rewrite lookup_insert_eq; eauto|by rewrite lookup_insert_ne].
Qed.

(** The node [l'] after its child was set: keep it, drop it, or make it a leaf. *)
Lemma collapse_run (m : SHAMap) h0 t ty d p h l' cs :
  0 < cowid_ m → ty ≠ tnINNER → pfx ty d p (erase (LInner l' (cowid_ m) 0 cs)) →
  upd sha512Half (cowid_ m) h0 t h (LInner l' (cowid_ m) 0 cs) →
  ∃ h' o,
    (match getBranchCount (shape cs) with
     | O => mret None
     | S O =>
       item ← onlyBelow depth_fuel l';
       match item with
       | Some item =>
         (match first_branch (shape cs) with Some i => setChild l' i None | None => mret () end);;
         n ← node_at l';
         leaf ← slift (makeTypedLeaf sha512Half ty item (cowid n));
         l ← alloc leaf;
         mret (Some l)
       | None => mret (Some l')
       end
     | _ => mret (Some l')
     end) (mkMemory h m) = (Return (lroot <$> o), mkMemory h' m) ∧
    updo (cowid_ m) h0 t h' o ∧
    (∀ t', o = Some t' → wf ty d p (erase t')) ∧
    (∀ x, (∃ t', erase <$> o = Some t' ∧ x ∈ items t') ↔ x ∈ items (erase (LInner l' (cowid_ m) 0 cs))).
Proof.
  intros Hpos Hty Hp HU. pose proof Hp as (Hd & Hlen & Hcs)%pfx_inner.
  set (t1 := LInner l' (cowid_ m) 0 cs) in *.
  pose proof (λ i, full_branches_elem cs i Hlen) as Hfull. pose proof (full_branches_NoDup (shape cs)) as Hnd.
  rewrite branch_count_full by done.
  assert (Hkeep : (∃ a b, a ∈ items (erase t1) ∧ b ∈ items (erase t1) ∧ key a ≠ key b) →
    updo (cowid_ m) h0 t h (Some t1) ∧ (∀ t', Some t1 = Some t' → wf ty d p (erase t')) ∧
    (∀ x, (∃ t', erase <$> Some t1 = Some t' ∧ x ∈ items t') ↔ x ∈ items (erase t1))).
  { intros Htwo. split_and!; [done| |intros x; split; [by intros (? & [= <-] & ?)|cbn; eauto]].
    intros t' [= <-]. by apply pfx_wf. }
  unfold first_branch. destruct (full_branches (shape cs)) as [|i [|j bs]]; cbn [length].
  - exists h, None. split_and!; [done|by eapply upd_gone|done|].
    intros x. split; [by intros (? & ? & _)|].
    intros (i & c & (hc & t' & Hi & _)%erase_child & _)%elem_of_items.
    exfalso. eapply (elem_of_nil i), Hfull. eauto.
  - destruct (proj1 (Hfull i)) as (hc & ti & Hi); [by apply list_elem_of_singleton|].
    destruct (onlyBelow_run m h ty (64 - d) t1 d p depth_fuel) as (r & Hrun & Hr);
      [done|unfold depth_fuel; lia|done|apply HU| |].
    { destruct (wf_nonempty _ _ _ _ (Hcs _ _ _ Hi)) as [x Hx]. exists x. apply elem_of_items.
      exists i, (erase ti). split; [|done]. apply erase_child. eauto. }
    erewrite ST_bind_return by exact Hrun. destruct r as [it|]; [|exists h, (Some t1); split; [done|auto]].
    assert (Hit : it ∈ items (erase t1)) by (by apply Hr).
    destruct (pfx_item _ _ _ _ _ Hp Hit) as [Hv Hpre].
    cbn [head]. erewrite ST_bind_return.
    2: { apply (setChild_run _ _ _ (cowid_ m) 0 (shape cs)); [apply (holds_root _ t1), HU| |lia|done].
         apply lookup_lt_Some in Hi. by rewrite Hlen in Hi. }
    erewrite ST_bind_return by (apply node_at_run, lookup_insert_eq). cbn [cowid].
    rewrite makeTypedLeaf_ok by done. erewrite ST_bind_return by done.
    destruct (alloc_run m (<[l' := InnerNode (cowid_ m) 0 (<[i := (λ x, (0, Some x)) <$> None]> (shape cs))]> h)
      (LeafNode (cowid_ m) (leaf_hash sha512Half ty it) ty it)) as (l2 & Hl2 & Ha).
    erewrite ST_bind_return by exact Ha.
    apply lookup_insert_None in Hl2 as [Hl2 _].
    eexists _, (Some (LLeaf l2 (cowid_ m) (leaf_hash sha512Half ty it) ty it)). split_and!; [done| | |].
    + by eapply collapse_upd.
    + intros t' [= <-]. constructor; [lia|done..].
    + intros x. rewrite Hr. cbn. split; [intros (? & [= <-] & ?%list_elem_of_singleton)|intros ->]; [done|].
      eexists. split; [done|]. by apply list_elem_of_singleton.
  - destruct (proj1 (Hfull i)) as (hc & ti & Hi); [by left|].
    destruct (proj1 (Hfull j)) as (hc' & tj & Hj); [by right; left|].
    exists h, (Some t1). split; [done|]. apply Hkeep. unfold t1 in *. rewrite erase_inner in *.
    eapply (two_children ty d p _ i j); [done|..].
    + apply NoDup_cons in Hnd as [Hnd _]. intros ->. apply Hnd. by left.
    + eexists. apply erase_child. eauto.
    + eexists. apply erase_child. eauto.
Qed.

(** ** The way up *)

(** One step of the loop, at a node below the root or at the root. *)
Lemma del_step (m : SHAMap) h0 h ty k d p id l w hh cs hc t o :
  0 < cowid_ m → state_ m ≠ Immutable → ty ≠ tnINNER →
  pfx ty d p (erase (LInner l w hh cs)) → pre d k = p → idv d id → (isRoot id = true → root_ m = l) →
  holds h0 (LInner l w hh cs) → uniq (LInner l w hh cs) → lok sha512Half (cowid_ m) (LInner l w hh cs) →
  cs !! nib k d = Some (Some (hc, t)) → updo (cowid_ m) h0 t h o → cut k (erase t) (erase <$> o) →
  (∀ t', o = Some t' → wf ty (S d) (16 * p + Z.of_nat (nib k d)) (erase t')) →
  ∃ h' o',
    (∀ s, del_loop sha512Half ((l, id) :: s) ty k (lroot <$> o) (mkMemory h m) =
      del_loop sha512Half s ty k (if isRoot id then lroot <$> o else lroot <$> o')
        (mkMemory h' (match o' with Some t' => after m id (lroot t') | None => m end))) ∧
    updo (cowid_ m) h0 (LInner l w hh cs) h' o' ∧ cut k (erase (LInner l w hh cs)) (erase <$> o') ∧
    (isRoot id = false → ∀ t', o' = Some t' → wf ty d p (erase t')) ∧
    (isRoot id = true → ∃ t', o' = Some t' ∧ pfx ty d p (erase t') ∧ ∃ cs', erase t' = TInner cs').
Proof.
  intros Hpos Hst Hty Hp Hpre Hid Hroot Hh Hu Hl Hb HU Hcut Hwf.
  pose proof (rebuilt_childo _ _ _ _ _ _ _ _ _ _ _ Hh Hu Hl Hb HU) as HR.
  destruct (frame_run sha512Half m h0 h l w hh cs (nib k d) o id HR Hpos Hst (nib_range k d) Hroot)
    as (l' & h1 & h2 & Hun & Hset & HU2 & _).
  pose proof Hp as (Hd & _)%pfx_inner. pose proof Hid as (Hdep & _).
  destruct (cut_child ty d p (ekids cs) k (erase t) (erase <$> o)) as [Hp' Hcut'];
    [done|apply erase_child; eauto|done|done| |].
  { intros t' (t2 & Ho & ->)%fmap_Some. by apply Hwf. }
  rewrite <- ekids_new_childo in Hp', Hcut'. rewrite erase_inner.
  set (t1 := LInner l' (cowid_ m) 0 (new_children cs (nib k d) o)) in *.
  destruct (collapse_run m h0 (LInner l w hh cs) ty d p h2 l' (new_children cs (nib k d) o))
    as (h3 & o' & Hrun & HU3 & Hwf3 & Hit3); [done..|].
  exists (if isRoot id then h2 else h3), (if isRoot id then Some t1 else o'). split_and!.
  - intros s. cbn [del_loop]. erewrite ST_bind_return by exact Hun.
    erewrite ST_bind_return by (unfold slift; by rewrite (selectBranch_nib d) by done).
    erewrite ST_bind_return by exact Hset. unfold after. destruct (isRoot id) eqn:Hr; [done|].
    erewrite ST_bind_return by (eapply inner_at_run, (holds_root _ t1), HU2).
    erewrite ST_bind_return by exact Hrun. by destruct o'.
  - by destruct (isRoot id).
  - destruct (isRoot id); [done|]. intros x. rewrite Hit3, <- (Hcut' x). fold t1. unfold t1. rewrite erase_inner.
    split; [eauto|]. by intros (? & [= <-] & ?).
  - by intros ->.
  - intros ->. exists t1. split_and!; [done..|]. by eexists.
Qed.

Lemma del_above (m : SHAMap) h0 k ty d id t fr df idf l w hh it :
  above k d id t fr df idf (LLeaf l w hh ty it) → key it = k →
  0 < cowid_ m → state_ m ≠ Immutable → ty ≠ tnINNER → (0 < d)%nat →
  ∀ p, wf ty d p (erase t) → pre d k = p → idv d id →
  holds h0 t → uniq t → lok sha512Half (cowid_ m) t →
  ∃ h' o,
    (∀ s, del_loop sha512Half (fr ++ s) ty k None (mkMemory h0 m) =
          del_loop sha512Half s ty k (lroot <$> o) (mkMemory h' m)) ∧
    updo (cowid_ m) h0 t h' o ∧ cut k (erase t) (erase <$> o) ∧
    (∀ t', o = Some t' → wf ty d p (erase t')).
Proof.
  intros Hab Hk Hpos Hst Hty. remember (LLeaf l w hh ty it) as foc eqn:Hfoc.
  induction Hab as [d id t|d id id' l0 w0 h1 cs hc t fr df idf foc Hb Hid' Hidv' Hab IH];
    intros Hd0 p Hwf Hpre Hid Hh Hu Hl; subst.
  { exists h0, None. split_and!; [done|done| |done]. intros x. cbn. rewrite list_elem_of_singleton.
    split; [by intros (? & ? & _)|]. by intros [-> ?]. }
  pose proof (wf_pfx _ _ _ _ Hwf) as Hp. pose proof Hp as (Hd & Hlen & Hcs)%pfx_inner.
  destruct (IH eq_refl ltac:(lia) (16 * pre d (key it) + Z.of_nat (nib (key it) d)))
    as (h2 & o & Hrun & HU & Hcut & Hwfo);
   [by eapply Hcs|by rewrite pre_S|done|by eapply holds_child| |by eapply lok_child|].
  { inv Hu as [|? ? ? ? Hu' _]. by eapply Hu'. }
  assert (Hr : isRoot id = false) by (destruct d; [lia|]; by apply (isRoot_S d)).
  destruct (del_step m h0 h2 ty (key it) d _ id l0 w0 h1 cs hc t o
    Hpos Hst Hty Hp eq_refl Hid) as (h3 & o' & Hrun' & HU' & Hcut' & Hwf' & _);
    [by rewrite Hr|done..|].
  exists h3, o'. split_and!; [|done|done|by apply Hwf'].
  intros s. rewrite <- (assoc_L (++)), Hrun. cbn [app]. rewrite Hrun', Hr.
  destruct o' as [t'|]; [|done]. unfold after. by rewrite Hr.
Qed.

Lemma delete_ok ty h m t k :
  map_ok sha512Half ty h m t → state_ m = Modifying → ty ≠ tnINNER → valid_key k →
  (¬ has_key k (erase t) ∧ delItem sha512Half k (mkMemory h m) = (Return false, mkMemory h m)) ∨
  (has_key k (erase t) ∧
   mutated sha512Half ty h m t (delItem sha512Half k (mkMemory h m))
     (λ t', ∀ x, x ∈ items t' ↔ x ∈ items (erase t) ∧ key x ≠ k)).
Proof.
  intros Hm Hst Hty Hk.
  destruct (walk_map sha512Half ty h m t k Hm Hk) as (fr & df & idf & foc & Hab & Hidf & Hstop & Hpf & Hwalk).
  destruct (above_focus sha512Half (cowid_ m) h _ _ _ _ _ _ _ _ Hab) as (Hfh & Hfu & Hfl); [apply Hm..|].
  assert (Hfind : ∀ x, key x = k → x ∈ items (erase t) ↔ ∃ l w h ty', foc = LLeaf l w h ty' x)
    by (intros x Hx; eapply focus_item; [done|done|apply Hm|done]).
  unfold delItem. erewrite ST_bind_return by done. cbn [this].
  rewrite Hst, !bool_decide_eq_true_2 by done. erewrite ST_bind_return by done.
  erewrite ST_bind_return by exact Hwalk. cbv beta iota.
  erewrite ST_bind_return by (apply node_at_run, holds_root, Hfh).
  destruct foc as [l w hh ty' it|l w hh cs]; cbn [lnode lroot].
  2: { left. split; [|done]. intros (x & Hx & Hkx). by apply Hfind in Hx as (? & ? & ? & ? & ?). }
  destruct (Z.eqb_spec (key it) k) as [Heq|Hne]; cbn [negb].
  2: { left. split; [|done]. intros (x & Hx & Hkx). by apply Hfind in Hx as (? & ? & ? & ? & [= _ _ _ _ <-]). }
  right. split; [exists it; split; [apply Hfind; eauto|done]|].
  assert (ty' = ty) as -> by (eapply focus_leaf; [done|apply Hm]).
  destruct (mo_inner _ _ _ _ _ Hm) as (l0 & w0 & h0 & cs & ->).
  inversion Hab as [|? ? id' ? ? ? ? hc t1 fr1 ? ? ? Hb Hid' Hidv' Hab']; subst.
  pose proof (mo_pfx _ _ _ _ _ Hm) as Hp. pose proof Hp as (_ & Hlen & Hcs)%pfx_inner.
  pose proof (mo_uniq _ _ _ _ _ Hm) as Hu. pose proof (mo_lok _ _ _ _ _ Hm) as Hl.
  pose proof (mo_holds _ _ _ _ _ Hm) as Hh. pose proof (mo_cowid _ _ _ _ _ Hm) as Hpos.
  assert (Him : state_ m ≠ Immutable) by (by rewrite Hst).
  destruct (del_above m h (key it) ty 1 id' t1 fr1 df idf l w hh it Hab' eq_refl Hpos Him Hty ltac:(lia)
    (16 * 0 + Z.of_nat (nib (key it) 0))) as (h2 & o & Hrun & HU & Hcut & Hwfo);
    [by eapply Hcs|rewrite (pre_S 0) by lia; by rewrite pre_0|done|by eapply holds_child| |by eapply lok_child|].
  { inv Hu as [|? ? ? ? Hu' _]. by eapply Hu'. }
  destruct (del_step m h h2 ty (key it) 0 0 root_id l0 w0 h0 cs hc t1 o Hpos Him Hty Hp)
    as (h3 & o' & Hrun' & HU' & Hcut' & _ & Hroot'); [by apply pre_0|apply idv_root|intros _; apply Hm|done..|].
  destruct (Hroot' eq_refl) as (t' & -> & Hp' & cs' & Hcs').
  exists h3, t'. split_and!; [|by eapply map_ok_upd; [done..|eauto]|done|].
  - erewrite ST_bind_return; [done|]. rewrite Hrun, Hrun'. done.
  - intros x. rewrite <- (Hcut' x). split; [cbn; eauto|]. by intros (? & [= <-] & ?).
Qed.
End delete.
