(* ===== verification/SHAMapFlush.v ===== *)
(** * Hashing and sharing a map

    [unshare] visits the nodes the map owns, computes their hashes and gives up
    the ownership; [getHash] and [snapShot] rely on it.  The visited nodes are
    changed in place when they belong to the map that runs the walk and copied
    when they belong to the map a snapshot is taken of. *)
From S2P Require Import Prelude Outcome Bytes Serializer SHAMapNode SHAMap SHAMapTree SHAMapLoc SHAMapOps.

(** ** Hashes *)

(** The hash of an inner node depends on the hashes of the branches only. *)
Lemma inner_hash_ext sha512Half bs1 bs2 :
  (λ b : option branch, fst <$> b) <$> bs1 = (λ b : option branch, fst <$> b) <$> bs2 →
  inner_hash sha512Half bs1 = inner_hash sha512Half bs2.
Proof.
  intros Heq. unfold inner_hash.
  assert (Hch : ∀ bs, child_hashes bs = default 0 <$> ((λ b : option branch, fst <$> b) <$> bs)).
  { intros bs. unfold child_hashes. rewrite <- list_fmap_compose. apply list_fmap_ext.
    by intros i [[h p]|] _. }
  assert (Hall : ∀ bs : list (option branch),
    Forall (λ b, b = None) bs ↔ Forall (λ b, b = None) ((λ b : option branch, fst <$> b) <$> bs)).
  { intros bs. rewrite Forall_fmap. apply Forall_iff. by intros [[h p]|]. }
  rewrite !Hch, Heq.
  erewrite (bool_decide_ext (Forall _ bs1) (Forall _ bs2)) by (by rewrite (Hall bs1), (Hall bs2), Heq). done.
Qed.

Section flush.
Context (sha512Half : list Z → Z).

Definition rehash (cs : list (option (Z * ltree))) : list (option (Z * ltree)) :=
  (λ o : option (Z * ltree),
     match o with Some (_, t) => Some (thash sha512Half (erase t), t) | None => None end) <$> cs.

Lemma rehash_lookup cs i hi t :
  rehash cs !! i = Some (Some (hi, t)) → hi = thash sha512Half (erase t) ∧ ∃ h0, cs !! i = Some (Some (h0, t)).
Proof.
  unfold rehash. rewrite list_lookup_fmap. destruct (cs !! i) as [[[h0 t0]|]|]; cbn; [|done..].
  intros [= <- <-]. eauto.
Qed.

Lemma ekids_rehash cs : ekids (rehash cs) = ekids cs.
Proof.
  unfold ekids, rehash. change (map ?f ?l) with (f <$> l). rewrite <- list_fmap_compose.
  apply list_fmap_ext. by intros i [[h t]|] _.
Qed.

Lemma inner_hash_rehash cs : inner_hash sha512Half (shape (rehash cs)) = thash sha512Half (TInner (ekids cs)).
Proof.
  cbn [thash]. apply inner_hash_ext. unfold shape, rehash, ekids.
  change (map ?f ?l) with (f <$> l). rewrite <- !list_fmap_compose. apply list_fmap_ext. by intros i [[h t]|] _.
Qed.

Lemma clean_hash t : clean sha512Half t → getHash (lnode t) = thash sha512Half (erase t).
Proof. by intros [l ty it|l cs _ _]. Qed.

Lemma clean_of_cowid c t : c ≠ 0 → lok sha512Half c t → cowid (lnode t) = 0 → clean sha512Half t.
Proof. intros Hc [t' Ht|l ty it|l cs _] Hw; [done|by cbn in Hw..]. Qed.

(** ** The steps of the walk *)

Definition anyt : ltree → Prop := λ _, True.

Lemma evo_refl (c : Z) h t : holds h t → uniq t → evo anyt c h t h t.
Proof. intros Hh Hu. split; try done; auto. Qed.

Context (m : SHAMap) (Hpos : 0 < cowid_ m).

(** A node rewritten at its own pointer, with the same children. *)
Lemma evo_root h l hh cs w' hh' cs' :
  holds h (LInner l (cowid_ m) hh cs) → uniq (LInner l (cowid_ m) hh cs) →
  (∀ i hi t, cs' !! i = Some (Some (hi, t)) → ∃ h0, cs !! i = Some (Some (h0, t))) →
  evo anyt (cowid_ m) h (LInner l (cowid_ m) hh cs) (<[l := InnerNode w' hh' (shape cs')]> h) (LInner l w' hh' cs').
Proof.
  intros Hh Hu Hcs. inv Hu as [|? ? ? ? Hc Hd]. split; [| |done|..].
  - apply holds_inner; [apply lookup_insert_eq|]. intros i hi t (h0 & Hi)%Hcs.
    apply holds_insert; [by eapply holds_child|]. by destruct (Hc _ _ _ Hi).
  - constructor.
    + intros i hi t (h0 & Hi)%Hcs. by eapply Hc.
    + intros i j hi ti hj tj Hij (h0 & Hi)%Hcs (h1 & Hj)%Hcs. by eapply (Hd i j).
  - intros x [->|(i & hi & t & (h0 & Hi)%Hcs & Hx)]%inl_inner; left; apply inl_inner; eauto 10.
  - intros x [[-> _]|(i & hi & t & (h0 & Hi)%Hcs & Hx)]%mine_inner; left; apply mine_inner; eauto 10.
  - intros x n Hx Hm. rewrite lookup_insert_ne; [done|]. intros <-. apply Hm, mine_inner. by left.
  - intros x Hx. destruct (decide (x = l)) as [->|]; [rewrite lookup_insert_eq; eauto|by rewrite lookup_insert_ne].
Qed.

(** A copy of a node at a new pointer. *)
Lemma evo_copy h l w hh cs l' :
  holds h (LInner l w hh cs) → uniq (LInner l w hh cs) → h !! l' = None →
  evo anyt (cowid_ m) h (LInner l w hh cs) (<[l' := InnerNode (cowid_ m) hh (shape cs)]> h)
      (LInner l' (cowid_ m) hh cs).
Proof.
  intros Hh Hu Hl'.
  assert (Hnot : ∀ i hc t, cs !! i = Some (Some (hc, t)) → ¬ inl t l').
  { intros i hc t Hi Hx. destruct (holds_alive h t l') as [n Hn]; [by eapply holds_child|done|congruence]. }
  inv Hu as [|? ? ? ? Hc Hd]. split; [| |done|..].
  - apply holds_inner; [apply lookup_insert_eq|]. intros i hi t Hi.
    apply holds_insert; [by eapply holds_child|by eapply Hnot].
  - constructor; [|done]. intros i hi t Hi. split; [by eapply Hc|by eapply Hnot].
  - intros x [->|Hx]%inl_inner; [by right|left]. apply inl_inner. by right.
  - intros x [[-> _]|Hx]%mine_inner; [by right|left]. apply mine_inner. by right.
  - intros x n Hx _. by rewrite lookup_insert_ne by congruence.
  - intros x [n Hx]. exists n. by rewrite lookup_insert_ne by congruence.
Qed.

Lemma shareChild_run h l w hh bs b child :
  h !! l = Some (InnerNode w hh bs) → (b < branchFactor)%nat → w ≠ 0 → child ≠ l → isEmptyBranch bs b = false →
  shareChild l b child (mkMemory h m) =
    (Return (), mkMemory (<[l := InnerNode w hh (<[b := Some (getChildHash bs b, Some child)]> bs)]> h) m).
Proof.
  intros H Hb Hw Hne He. unfold shareChild. erewrite ST_bind_return by (by apply node_at_run). cbv beta iota.
  rewrite (proj2 (Nat.ltb_lt _ _)), (proj2 (Z.eqb_neq _ _)), bool_decide_eq_false_2, He by done. done.
Qed.

(** The child of one branch was flushed; link it. *)
Lemma share_step h l hh cs b hc t h1 t' :
  holds h (LInner l (cowid_ m) hh cs) → uniq (LInner l (cowid_ m) hh cs) → (b < branchFactor)%nat →
  cs !! b = Some (Some (hc, t)) → evo anyt (cowid_ m) h t h1 t' →
  ∃ h2,
    h1 !! l = Some (InnerNode (cowid_ m) hh (shape cs)) ∧
    shareChild l b (lroot t') (mkMemory h1 m) = (Return (), mkMemory h2 m) ∧
    evo anyt (cowid_ m) h (LInner l (cowid_ m) hh cs) h2
        (LInner l (cowid_ m) hh (put_child hc cs b (Some t'))).
Proof.
  intros Hh Hu Hb Hcb HU.
  pose proof (remade_child anyt (cowid_ m) h h1 l (cowid_ m) hh cs b hc t t' Hh Hu I Hcb HU) as HR.
  exists (<[l := InnerNode (cowid_ m) hh (shape (put_child hc cs b (Some t')))]> h1).
  pose proof (frame_node HR) as Hn.
  assert (Hl' : (l = l ∧ cowid_ m = cowid_ m) ∨ (h1 !! l = None ∧ h !! l = None)) by (by left).
  split_and!; [done| |by apply (new_evo HR Hl')].
  erewrite shareChild_run; [|exact Hn|done|lia| |by rewrite isEmptyBranch_shape, Hcb].
  - unfold put_child. rewrite shape_insert. cbn. unfold getChildHash. by rewrite shape_lookup, Hcb.
  - intros Heq. apply (new_pointer_not_child HR Hl' t' eq_refl). rewrite <- Heq. apply inl_root.
Qed.

(** All branches are done: compute the hash and give the node up. *)
Lemma finish_run h l hh cs :
  holds h (LInner l (cowid_ m) hh cs) → uniq (LInner l (cowid_ m) hh cs) →
  (∀ i hc t, cs !! i = Some (Some (hc, t)) → clean sha512Half t) →
  ∃ h1 h2,
    let t' := LInner l 0 (thash sha512Half (TInner (ekids cs))) (rehash cs) in
    updateHashDeep sha512Half l (mkMemory h m) = (Return (), mkMemory h1 m) ∧
    unshare_node l (mkMemory h1 m) = (Return (), mkMemory h2 m) ∧
    evo anyt (cowid_ m) h (LInner l (cowid_ m) hh cs) h2 t' ∧ clean sha512Half t'.
Proof.
  intros Hh Hu Hcl.
  assert (Hbs : (λ b : option branch,
                 match b with
                 | Some (h', Some p) => Some (match h !! p with Some n => getHash n | None => h' end, Some p)
                 | b => b
                 end) <$> shape cs = shape (rehash cs)).
  { unfold shape, rehash. rewrite <- !list_fmap_compose. apply list_fmap_ext.
    intros i [[hc t]|] Hi; cbn; [|done].
    rewrite (holds_root _ _ (holds_child _ _ _ _ _ _ _ _ Hh Hi)). by rewrite clean_hash by (by eapply Hcl). }
  exists (<[l := InnerNode (cowid_ m) (inner_hash sha512Half (shape (rehash cs))) (shape (rehash cs))]> h).
  exists (<[l := InnerNode 0 (inner_hash sha512Half (shape (rehash cs))) (shape (rehash cs))]> h).
  cbv zeta. rewrite <- inner_hash_rehash. split_and!.
  - unfold updateHashDeep. erewrite ST_bind_return by (apply node_at_run, (holds_root _ _ Hh)).
    erewrite ST_bind_return by done. cbn [lnode nodes_]. by rewrite Hbs.
  - unfold unshare_node. erewrite ST_bind_return by (apply node_at_run, lookup_insert_eq).
    unfold write, smodify. cbn. by rewrite insert_insert_eq.
  - apply evo_root; [done..|]. intros i hi t [_ Hi]%rehash_lookup. done.
  - rewrite inner_hash_rehash, <- ekids_rehash. constructor; intros i hi t [-> (h0 & Hi)]%rehash_lookup; [|done].
    by eapply Hcl.
Qed.

(** ** The walk *)

(** What happens after a node is finished. *)
Definition flush_done (fuel : nat) (node : loc) (stack : list (loc * nat)) (flushed : Z) : op (loc * Z) :=
  match stack with
  | [] => mret (node, flushed + 1)
  | (parent, pos) :: stack =>
    p ← node_at parent;
    w ← sget;
    sassert (cowid p =? cowid_ (this w)) "parent->cowid() == cowid_";;
    shareChild parent pos node;;
    flush_loop sha512Half fuel parent (S pos) stack (flushed + 1)
  end.

(** The owner of the nodes that are visited. *)
Context (c : Z) (Hc : c ≠ 0).

Lemma preFlush_run h l n :
  h !! l = Some n → cowid n = c →
  ∃ l' h1, preFlushNode l (mkMemory h m) = (Return l', mkMemory h1 m) ∧
    ((l' = l ∧ c = cowid_ m ∧ h1 = h) ∨ (h !! l' = None ∧ h1 = <[l' := clone (cowid_ m) n]> h)).
Proof using Hc.
  intros Hl Hw. unfold preFlushNode. erewrite ST_bind_return by (by apply node_at_run).
  erewrite ST_bind_return by done. cbn [this]. unfold sassert. rewrite Hw, (proj2 (Z.eqb_neq c 0)) by done.
  erewrite ST_bind_return by done. destruct (Z.eqb_spec c (cowid_ m)) as [Heq|Hne].
  - exists l, h. split; [done|]. by left.
  - destruct (alloc_run m h (clone (cowid_ m) n)) as (l' & Hl' & Ha). exists l', (<[l' := clone (cowid_ m) n]> h).
    split; [done|]. by right.
Qed.

(** A leaf child. *)
Lemma flush_leaf h l hh cs b hc t lt ht ty it :
  holds h (LInner l (cowid_ m) hh cs) → uniq (LInner l (cowid_ m) hh cs) → (b < branchFactor)%nat →
  cs !! b = Some (Some (hc, t)) → t = LLeaf lt c ht ty it →
  ∃ h2 t',
    (∀ fuel s f,
      (child ← preFlushNode lt;
       p ← node_at l;
       w ← sget;
       sassert (cowid p =? cowid_ (this w)) "node->cowid() == cowid_";;
       update_leaf sha512Half child;;
       unshare_node child;;
       shareChild l b child;;
       flush_loop sha512Half fuel l (S b) s (f + 1)) (mkMemory h m) =
      flush_loop sha512Half fuel l (S b) s (f + 1) (mkMemory h2 m)) ∧
    evo anyt (cowid_ m) h (LInner l (cowid_ m) hh cs) h2 (LInner l (cowid_ m) hh (put_child hc cs b (Some t'))) ∧
    clean sha512Half t' ∧ erase t' = erase t ∧ inners t' = inners t.
Proof using Hc Hpos.
  intros Hh Hu Hb Hcb ->. pose proof (holds_child _ _ _ _ _ _ _ _ Hh Hcb) as Hht.
  destruct (preFlush_run h lt _ (holds_root _ _ Hht) eq_refl) as (l' & h1 & Hpre & Hor).
  assert (Hl' : h1 !! l' = Some (LeafNode (cowid_ m) ht ty it)).
  { destruct Hor as [(-> & <- & ->)|[_ ->]]; [by apply (holds_root _ _ Hht)|apply lookup_insert_eq]. }
  assert (Heq : ∀ x, x ≠ l' → h1 !! x = h !! x).
  { destruct Hor as [(_ & _ & ->)|[_ ->]]; [done|]. intros x Hx. by rewrite lookup_insert_ne. }
  set (t' := LLeaf l' 0 (leaf_hash sha512Half ty it) ty it).
  assert (HU : evo anyt (cowid_ m) h (LLeaf lt c ht ty it) (<[l' := lnode t']> h1) t').
  { apply (evo_leaf anyt (cowid_ m) h lt c ht ty it t' h1 Hht); [by repeat eexists|done| |done].
    destruct Hor as [(-> & ? & _)|[? _]]; [by left|by right]. }
  destruct (share_step h l hh cs b hc _ _ t' Hh Hu Hb Hcb HU) as (h2 & Hn & Hshare & HU2).
  exists h2, t'. split_and!; [|done|constructor|done|done].
  intros fuel s f. erewrite ST_bind_return by exact Hpre.
  assert (Hne : l ≠ l').
  { intros ->. rewrite lookup_insert_eq in Hn. by injection Hn. }
  rewrite lookup_insert_ne in Hn by done.
  erewrite ST_bind_return by (by apply node_at_run).
  erewrite ST_bind_return by done. cbn [cowid this]. unfold sassert at 1. rewrite Z.eqb_refl.
  erewrite ST_bind_return by done.
  erewrite ST_bind_return; [|unfold update_leaf; by erewrite ST_bind_return by (by apply node_at_run)].
  erewrite ST_bind_return; [|unfold unshare_node; by erewrite ST_bind_return by (apply node_at_run, lookup_insert_eq)].
  cbn [nodes_ this updateHash unshared clone]. rewrite insert_insert_eq.
  erewrite ST_bind_return by exact Hshare. done.
Qed.

(** The walk of one node finishes: its children are clean, as is the node. *)
Definition flushes (l : loc) (hh : Z) (cs : list (option (Z * ltree))) (h : gmap loc TreeNode) : Prop :=
  ∃ k nf h' hh' cs',
    (k ≤ 17 * length (inners (LInner l (cowid_ m) hh cs)))%nat ∧
    (∀ fuel s f, flush_loop sha512Half (k + fuel) l 0 s f (mkMemory h m) =
                 flush_done fuel l s (f + nf) (mkMemory h' m)) ∧
    evo anyt (cowid_ m) h (LInner l (cowid_ m) hh cs) h' (LInner l 0 hh' cs') ∧
    clean sha512Half (LInner l 0 hh' cs') ∧ ekids cs' = ekids cs.

(** The trees the walk can flush: dirty nodes are owned by [c]. *)
Definition flushable (t : ltree) : Prop :=
  match t with
  | LLeaf _ _ _ _ _ => True
  | LInner _ _ hh cs => ∀ l h,
    holds h (LInner l (cowid_ m) hh cs) → uniq (LInner l (cowid_ m) hh cs) →
    (∀ i hc t, cs !! i = Some (Some (hc, t)) → lok sha512Half c t) → flushes l hh cs h
  end.

(** An inner child. *)
Lemma flush_inner h l hh cs b hc t lt ht cst :
  holds h (LInner l (cowid_ m) hh cs) → uniq (LInner l (cowid_ m) hh cs) → (b < branchFactor)%nat →
  cs !! b = Some (Some (hc, t)) → t = LInner lt c ht cst → lok sha512Half c t → flushable t →
  ∃ k nf h2 t',
    (k ≤ 17 * length (inners t))%nat ∧
    (∀ fuel s f,
      (child ← preFlushNode lt;
       flush_loop sha512Half (k + fuel) child 0 ((l, b) :: s) f) (mkMemory h m) =
      flush_loop sha512Half fuel l (S b) s (f + nf) (mkMemory h2 m)) ∧
    evo anyt (cowid_ m) h (LInner l (cowid_ m) hh cs) h2 (LInner l (cowid_ m) hh (put_child hc cs b (Some t'))) ∧
    clean sha512Half t' ∧ erase t' = erase t.
Proof using Hc Hpos.
  intros Hh Hu Hb Hcb -> Hlok Hfl. pose proof (holds_child _ _ _ _ _ _ _ _ Hh Hcb) as Hht.
  assert (Hut : uniq (LInner lt c ht cst)) by (inv Hu as [|? ? ? ? Hu' _]; by eapply Hu').
  destruct (preFlush_run h lt _ (holds_root _ _ Hht) eq_refl) as (l' & h1 & Hpre & Hor).
  assert (HU1 : evo anyt (cowid_ m) h (LInner lt c ht cst) h1 (LInner l' (cowid_ m) ht cst)).
  { destruct Hor as [(-> & <- & ->)|[Hl' ->]]; [by apply evo_refl|by apply evo_copy]. }
  destruct (Hfl l' h1) as (k & nf & h2 & hh' & cs' & Hk & Hrun & HU2 & Hcl & Hek);
    [apply HU1|apply HU1|intros; by eapply lok_child|].
  set (t' := LInner l' 0 hh' cs') in *.
  destruct (share_step h l hh cs b hc _ _ t' Hh Hu Hb Hcb (evo_trans _ _ _ _ _ _ _ _ HU1 HU2))
    as (h3 & Hn & Hshare & HU3).
  exists k, (nf + 1), h3, t'. split_and!; [done| |done|done|].
  - intros fuel s f. erewrite ST_bind_return by exact Hpre. rewrite Hrun. cbn [flush_done].
    erewrite ST_bind_return by (by apply node_at_run). erewrite ST_bind_return by done. cbn [cowid this].
    unfold sassert at 1. rewrite Z.eqb_refl. erewrite ST_bind_return by done.
    erewrite ST_bind_return by exact Hshare. f_equal. lia.
  - unfold t'. by rewrite !erase_inner, Hek.
Qed.

(** The body of the loop at a branch that holds the child [n]. *)
Definition flush_child (fuel : nat) (l : loc) (pos : nat) (s : list (loc * nat)) (f : Z) (n : TreeNode) (child : loc) :
    op (loc * Z) :=
  if cowid n =? 0 then flush_loop sha512Half fuel l (S pos) s f
  else
    child ← preFlushNode child;
    if isInner n then flush_loop sha512Half fuel child 0 ((l, pos) :: s) f
    else
      p ← node_at l;
      w ← sget;
      sassert (cowid p =? cowid_ (this w)) "node->cowid() == cowid_";;
      update_leaf sha512Half child;;
      unshare_node child;;
      shareChild l pos child;;
      flush_loop sha512Half fuel l (S pos) s (f + 1).

Lemma flush_loop_branch h l w hh cs pos o fuel s f :
  (pos < branchFactor)%nat → cs !! pos = Some o → holds h (LInner l w hh cs) →
  flush_loop sha512Half (S fuel) l pos s f (mkMemory h m) =
  match o with
  | None => flush_loop sha512Half fuel l (S pos) s f
  | Some (_, t) => flush_child fuel l pos s f (lnode t) (lroot t)
  end (mkMemory h m).
Proof using Type.
  intros Hb Ho Hh. cbn [flush_loop]. rewrite (proj2 (Nat.ltb_lt _ _)) by done. cbv iota.
  erewrite ST_bind_return by (by eapply inner_at_run, (holds_root _ _ Hh)).
  rewrite isEmptyBranch_shape, Ho. destruct o as [[hc t]|]; [|done]. cbv iota.
  rewrite (getChild_shape _ _ _ _ Ho). erewrite ST_bind_return by done. cbv beta iota.
  by erewrite ST_bind_return by (apply node_at_run, holds_root; by eapply holds_child).
Qed.

(** One branch of the node: nothing to do, a leaf, or a subtree. *)
Lemma flush_branch l hh pos h cs o :
  (pos < branchFactor)%nat → length cs = branchFactor → cs !! pos = Some o →
  holds h (LInner l (cowid_ m) hh cs) → uniq (LInner l (cowid_ m) hh cs) →
  (∀ hc t, o = Some (hc, t) → lok sha512Half c t ∧ flushable t) →
  ∃ k nf h' cs',
    (k ≤ 1 + 17 * length (inners_of o))%nat ∧
    (∀ fuel s f, flush_loop sha512Half (k + fuel) l pos s f (mkMemory h m) =
                 flush_loop sha512Half fuel l (S pos) s (f + nf) (mkMemory h' m)) ∧
    evo anyt (cowid_ m) h (LInner l (cowid_ m) hh cs) h' (LInner l (cowid_ m) hh cs') ∧
    (∀ i, i ≠ pos → cs' !! i = cs !! i) ∧ length cs' = length cs ∧
    (∀ hc t, cs' !! pos = Some (Some (hc, t)) → clean sha512Half t) ∧ ekids cs' = ekids cs.
Proof using Hc Hpos.
  intros Hb Hlen Ho Hh Hu Hok.
  assert (Hput : ∀ hc t t', o = Some (hc, t) → clean sha512Half t' → erase t' = erase t →
    let cs' := put_child hc cs pos (Some t') in
    (∀ i, i ≠ pos → cs' !! i = cs !! i) ∧ length cs' = length cs ∧
    (∀ hc t, cs' !! pos = Some (Some (hc, t)) → clean sha512Half t) ∧ ekids cs' = ekids cs).
  { intros hc t t' -> Hcl He. unfold put_child. cbn. rewrite length_insert. split_and!; [|done|..].
    - intros i Hi. by apply list_lookup_insert_ne.
    - intros ? ?. rewrite list_lookup_insert_eq by lia. by intros [= _ <-].
    - unfold ekids. change (map ?f ?l) with (f <$> l). rewrite list_fmap_insert. apply list_insert_id.
      rewrite list_lookup_fmap, Ho. cbn. by rewrite He. }
  assert (Hskip : (∀ hc t, o = Some (hc, t) → clean sha512Half t) →
    (∀ i, i ≠ pos → cs !! i = cs !! i) ∧ length cs = length cs ∧
    (∀ hc t, cs !! pos = Some (Some (hc, t)) → clean sha512Half t) ∧ ekids cs = ekids cs).
  { intros Hcl. split_and!; try done. intros hc t. rewrite Ho. intros [= ->]. by eapply Hcl. }
  pose proof (λ fuel s f, flush_loop_branch h l _ hh cs pos o fuel s f Hb Ho Hh) as Hloop.
  destruct o as [[hc t]|].
  2: { exists 1%nat, 0, h, cs. split; [lia|]. split; [intros; rewrite Z.add_0_r; apply Hloop|].
       split; [by apply evo_refl|by apply Hskip]. }
  destruct (Hok _ _ eq_refl) as [Hlok Hfl]. unfold flush_child in Hloop.
  destruct (lok_cowid _ _ _ Hlok) as [Hw|Hw]; rewrite Hw in Hloop.
  { exists 1%nat, 0, h, cs. split; [lia|]. split; [intros; rewrite Z.add_0_r; apply Hloop|].
    split; [by apply evo_refl|]. apply Hskip. intros ? ? [= <- <-]. by eapply clean_of_cowid. }
  rewrite (proj2 (Z.eqb_neq c 0)) in Hloop by done.
  destruct t as [lt wt ht ty it|lt wt ht cst]; cbn in Hw; subst wt.
  - destruct (flush_leaf h l hh cs pos hc _ lt ht ty it Hh Hu Hb Ho eq_refl) as (h2 & t' & Hrun & HU & Hcl & He & _).
    exists 1%nat, 1, h2, (put_child hc cs pos (Some t')). split; [lia|].
    split; [intros fuel s f; etrans; [apply Hloop|apply Hrun]|]. split; [done|by eapply Hput].
  - destruct (flush_inner h l hh cs pos hc _ lt ht cst Hh Hu Hb Ho eq_refl Hlok Hfl)
      as (k & nf & h2 & t' & Hk & Hrun & HU & Hcl & He).
    exists (S k), nf, h2, (put_child hc cs pos (Some t')). split; [unfold inners_of; lia|].
    split; [intros fuel s f; etrans; [apply Hloop|apply Hrun]|]. split; [done|by eapply Hput].
Qed.

(** The branches from [pos] on. *)
Lemma flush_from l hh j pos h cs :
  (pos + j = branchFactor)%nat → length cs = branchFactor →
  holds h (LInner l (cowid_ m) hh cs) → uniq (LInner l (cowid_ m) hh cs) →
  (∀ i hc t, (i < pos)%nat → cs !! i = Some (Some (hc, t)) → clean sha512Half t) →
  (∀ i hc t, (pos ≤ i)%nat → cs !! i = Some (Some (hc, t)) → lok sha512Half c t ∧ flushable t) →
  ∃ k nf h' cs',
    (k ≤ j + 17 * length (concat (map inners_of (drop pos cs))))%nat ∧
    (∀ fuel s f, flush_loop sha512Half (k + fuel) l pos s f (mkMemory h m) =
                 flush_loop sha512Half fuel l branchFactor s (f + nf) (mkMemory h' m)) ∧
    evo anyt (cowid_ m) h (LInner l (cowid_ m) hh cs) h' (LInner l (cowid_ m) hh cs') ∧
    (∀ i hc t, cs' !! i = Some (Some (hc, t)) → clean sha512Half t) ∧ ekids cs' = ekids cs.
Proof using Hc Hpos.
  revert pos h cs. induction j as [|j IH]; intros pos h cs Hj Hlen Hh Hu Hdone Htodo.
  { exists 0%nat, 0, h, cs. split_and!; [lia| |by apply evo_refl| |done].
    - intros fuel s f. replace pos with branchFactor by lia. f_equal. lia.
    - intros i hc t Hi. eapply Hdone; [|done]. apply lookup_lt_Some in Hi. lia. }
  assert (Hb : (pos < branchFactor)%nat) by lia.
  destruct (lookup_lt_is_Some_2 cs pos) as [o Ho]; [lia|].
  assert (Hdrop : drop pos cs = o :: drop (S pos) cs) by (by apply drop_S).
  destruct (flush_branch l hh pos h cs o Hb Hlen Ho Hh Hu)
    as (k1 & n1 & h1 & cs1 & Hk1 & Hrun1 & HU1 & Hoth & Hlen1 & Hcl1 & Hek1).
  { intros hc t ->. by eapply (Htodo pos). }
  destruct (IH (S pos) h1 cs1) as (k2 & n2 & h2 & cs2 & Hk2 & Hrun2 & HU2 & Hcl2 & Hek2);
    [lia|congruence|apply HU1|apply HU1| | |].
  { intros i hc t Hi Hcs. destruct (decide (i = pos)) as [->|Hne]; [by eapply Hcl1|].
    rewrite Hoth in Hcs by done. eapply Hdone; [|done]. lia. }
  { intros i hc t Hi Hcs. rewrite Hoth in Hcs by lia. eapply Htodo; [|done]. lia. }
  exists (k1 + k2)%nat, (n1 + n2), h2, cs2. split_and!; [| |by eapply evo_trans|done|congruence].
  - rewrite Hdrop. cbn [map concat]. rewrite length_app.
    assert (drop (S pos) cs1 = drop (S pos) cs) as Hd.
    { apply list_eq. intros i. rewrite !lookup_drop. apply Hoth. lia. }
    rewrite Hd in Hk2. lia.
  - intros fuel s f. rewrite <- Nat.add_assoc, Hrun1, Hrun2. f_equal. lia.
Qed.

Lemma inners_count l w hh cs :
  length (inners (LInner l w hh cs)) = S (length (concat (map inners_of cs))).
Proof. done. Qed.

Lemma flush_node t ty d p : pfx ty d p (erase t) → flushable t.
Proof using Hc Hpos.
  revert ty d p. induction t as [l w hh ty' it|l w hh cs IH] using ltree_ind'; intros ty d p Hp; [done|].
  intros l1 h Hh Hu Hlok. apply pfx_inner in Hp as (Hd & Hlen & Hcs).
  destruct (flush_from l1 hh branchFactor 0 h cs) as (k & nf & h1 & cs1 & Hk & Hrun & HU1 & Hcl & Hek);
    [done|done|done|done|lia| |].
  { intros i hc t _ Hi. split; [by eapply Hlok|]. eapply IH; [done|]. by eapply wf_pfx, Hcs. }
  destruct (finish_run h1 l1 hh cs1) as (h2 & h3 & Hup & Hun & HU2 & Hcl2); [apply HU1|apply HU1|done|].
  exists (k + 1)%nat, nf, h3. eexists _, _. split_and!; [| |by eapply evo_trans|done|by rewrite ekids_rehash].
  - rewrite inners_count. rewrite drop_0 in Hk. unfold branchFactor in Hk. lia.
  - intros fuel s f. rewrite <- Nat.add_assoc, Hrun. cbn [flush_loop Nat.add].
    change (branchFactor <? branchFactor)%nat with false. cbv iota.
    erewrite ST_bind_return by exact Hup. erewrite ST_bind_return by exact Hun. done.
Qed.
End flush.

(** ** [unshare] *)

Section unshare.
Context (sha512Half : list Z → Z).

(** A root all of whose branches are empty. *)
Lemma empty_root cs :
  Forall (λ b : option branch, b = None) (shape cs) → ∀ i hh t, cs !! i = Some (Some (hh, t)) → False.
Proof.
  intros H i hh t Hi. rewrite Forall_lookup in H. specialize (H i (Some (hh, Some (lroot t)))).
  rewrite shape_lookup, Hi in H. by specialize (H eq_refl).
Qed.

Lemma shape_empty (cs : list (option (Z * ltree))) : length cs = branchFactor →
  (∀ i hh t, cs !! i = Some (Some (hh, t)) → False) → cs = replicate branchFactor None.
Proof.
  intros Hlen Hno. apply list_eq_same_length with branchFactor; [apply length_replicate|done|].
  intros i x y Hi Hx [-> _]%lookup_replicate. destruct x as [[hh t]|]; [|done]. by edestruct Hno.
Qed.

Lemma unshare_run (m : SHAMap) c ty h t :
  0 < cowid_ m → c ≠ 0 → (∃ l w hh cs, t = LInner l w hh cs) → root_ m = lroot t →
  holds h t → uniq t → lok sha512Half c t → pfx ty 0 0 (erase t) →
  ∃ nf h' t', unshare sha512Half (mkMemory h m) = (Return nf, mkMemory h' (with_root m (lroot t'))) ∧
    evo (clean sha512Half) (cowid_ m) h t h' t' ∧ erase t' = erase t.
Proof.
  intros Hpos Hc (l & w & hh & cs & ->) Hroot Hh Hu Hl Hp.
  assert (Hfin : ∀ h' t', evo anyt (cowid_ m) h (LInner l w hh cs) h' t' → clean sha512Half t' →
    evo (clean sha512Half) (cowid_ m) h (LInner l w hh cs) h' t').
  { intros h' t' HU Hcl. split; try apply HU. done. }
  pose proof (holds_root _ _ Hh) as Hn. pose proof Hp as (_ & Hlen & Hcs)%pfx_inner.
  unfold unshare. erewrite ST_bind_return by done. cbn [this nodes_]. cbv zeta. rewrite Hroot.
  erewrite ST_bind_return by (by apply node_at_run). cbn [lnode cowid].
  destruct (lok_cowid _ _ _ Hl) as [Hw|Hw]; cbn in Hw; subst w.
  { exists 0, h, (LInner l 0 hh cs). rewrite <- Hroot. split_and!; [by destruct m| |done].
    apply Hfin; [by apply evo_refl|]. by eapply clean_of_cowid. }
  rewrite (proj2 (Z.eqb_neq c 0)) by done. case_bool_decide as Hempty.
  - pose proof (empty_root _ Hempty) as Hno.
    destruct (alloc_run m h (new_inner 0)) as (l' & Hl' & Ha).
    erewrite ST_bind_return by exact Ha. exists 1, (<[l' := new_inner 0]> h), (vacant 0 l'). split_and!; [done| |].
    + destruct (vacant_ok sha512Half 0 (<[l' := new_inner 0]> h) l') as (Hh' & Hu' & _); [apply lookup_insert_eq|].
      apply Hfin; [split; [done|done|done|..]|].
      * intros x ->%inl_vacant. by right.
      * intros x ->%mine_inl%inl_vacant. by right.
      * intros x n Hx _. by rewrite lookup_insert_ne by congruence.
      * intros x [n Hx]. exists n. by rewrite lookup_insert_ne by congruence.
      * apply (clean_inner sha512Half l' (replicate branchFactor None)); intros; by exfalso; eapply vacant_lookup.
    + rewrite (shape_empty cs) by done. done.
  - assert (Hlok : ∀ i hc t, cs !! i = Some (Some (hc, t)) → lok sha512Half c t)
      by (intros; by eapply lok_child).
    destruct (preFlush_run m c Hc h l _ Hn eq_refl) as (l' & h1 & Hpre & Hor).
    assert (HU1 : evo anyt (cowid_ m) h (LInner l c hh cs) h1 (LInner l' (cowid_ m) hh cs)).
    { destruct Hor as [(-> & <- & ->)|[Hl' ->]]; [by apply evo_refl|by apply evo_copy]. }
    destruct (flush_node sha512Half m Hpos c Hc (LInner l c hh cs) ty 0 0 Hp l' h1)
      as (k & nf & h2 & hh' & cs' & Hk & Hrun & HU2 & Hcl & Hek); [apply HU1|apply HU1|done|].
    exists (nf + 1), h2, (LInner l' 0 hh' cs'). split_and!; [|apply Hfin; [by eapply evo_trans|done]|].
    + erewrite ST_bind_return by exact Hpre.
      pose proof (pick_bound false _ _ Hh Hu) as Hb. fold inners in Hb; rewrite inners_count in Hb, Hk.
      replace (17 * size h)%nat with (k + (17 * size h - k))%nat by lia.
      erewrite ST_bind_return by (rewrite Hrun; done). cbv beta iota. rewrite Z.add_0_l. done.
    + by rewrite !erase_inner, Hek.
Qed.
End unshare.

(** ** [getHash] and [snapShot] *)

Section share.
Context (sha512Half : list Z → Z).

Lemma map_ok_evo ty h m t h' t' :
  map_ok sha512Half ty h m t → evo (clean sha512Half) (cowid_ m) h t h' t' → erase t' = erase t →
  map_ok sha512Half ty h' (with_root m (lroot t')) t'.
Proof.
  intros Hm HU He. destruct (mo_inner _ _ _ _ _ Hm) as (l & w & hh & cs & ->). split; try apply HU.
  - eapply erase_is_inner. by rewrite He.
  - done.
  - apply lok_clean, HU.
  - rewrite He. apply Hm.
  - apply Hm.
Qed.

Lemma getHash_run ty h m t :
  map_ok sha512Half ty h m t →
  ∃ h' t', getHash_map sha512Half (mkMemory h m) =
      (Return (thash sha512Half (erase t)), mkMemory h' (with_root m (lroot t'))) ∧
    evo (clean sha512Half) (cowid_ m) h t h' t' ∧ erase t' = erase t.
Proof.
  intros Hm. pose proof (mo_cowid _ _ _ _ _ Hm) as Hpos.
  unfold getHash_map. erewrite ST_bind_return by done. cbn [this]. rewrite (mo_root _ _ _ _ _ Hm).
  erewrite ST_bind_return by (apply node_at_run, holds_root, Hm).
  destruct (Z.eqb_spec (getHash (lnode t)) 0) as [Hz|Hz].
  - destruct (unshare_run sha512Half m (cowid_ m) ty h t) as (nf & h' & t' & Hrun & HU & He); [done|lia|apply Hm..|].
    exists h', t'. split_and!; [|done|done].
    erewrite ST_bind_return by exact Hrun. erewrite ST_bind_return by done. cbn [this root_ with_root].
    erewrite ST_bind_return by (apply node_at_run, holds_root, HU).
    by rewrite (clean_hash sha512Half), He by apply HU.
  - assert (Hcl : clean sha512Half t).
    { pose proof (mo_inner _ _ _ _ _ Hm) as (l & w & hh & cs & ->).
      pose proof (mo_lok _ _ _ _ _ Hm) as Hl. inv Hl as [? Hcl| |]; done. }
    exists h, t. split_and!; [|split; try done; try apply Hm; auto|done].
    rewrite (clean_hash sha512Half) by done. rewrite <- (mo_root _ _ _ _ _ Hm). by destruct m.
Qed.

(** The map it is taken of does not change; the new one has the same items. *)
Lemma snapShot_run ty h m t (isMutable : bool) :
  map_ok sha512Half ty h m t → cowid_ m + 1 < 2 ^ 32 →
  (isMutable = false → state_ m = Immutable → clean sha512Half t) →
  ∃ h' t',
    let m' := mkMap (cowid_ m + 1) (lroot t') (if isMutable then Modifying else Immutable) in
    snapShot sha512Half isMutable (mkMemory h m) = (Return m', mkMemory h' m) ∧
    map_ok sha512Half ty h' m' t' ∧ clean sha512Half t' ∧ erase t' = erase t ∧
    (∀ x n, h !! x = Some n → h' !! x = Some n) ∧ (∀ x, inl t' x → inl t x ∨ h !! x = None).
Proof.
  intros Hm Hov Himm. pose proof (mo_cowid _ _ _ _ _ Hm) as Hpos.
  unfold snapShot. erewrite ST_bind_return by done. cbn [this nodes_]. cbv zeta.
  assert (Hu : u32 (cowid_ m + 1) = cowid_ m + 1) by (apply Z.mod_small; lia). rewrite Hu.
  destruct (bool_decide (state_ m ≠ Immutable) || isMutable) eqn:Hb.
  - set (m1 := mkMap (cowid_ m + 1) (root_ m) (if isMutable then Modifying else Immutable)).
    assert (Hpos1 : 0 < cowid_ m1) by (cbn; lia).
    destruct (unshare_run sha512Half m1 (cowid_ m) ty h t Hpos1 ltac:(lia)) as (nf & h' & t' & Hrun & HU & He);
      [apply Hm..|].
    exists h', t'. split_and!; [|split|apply HU|done| |apply HU]; try apply HU; try done.
    + erewrite ST_bind_return by done. erewrite ST_bind_return by exact Hrun. by erewrite ST_bind_return by done.
    + destruct (mo_inner _ _ _ _ _ Hm) as (l & w & hh & cs & ->). eapply erase_is_inner. by rewrite He.
    + apply lok_clean, HU.
    + rewrite He. apply Hm.
    + intros x n Hx. apply (upd_frame _ _ _ _ _ _ HU); [done|]. intros (n' & Hn' & Hw).
      assert (Hcase : cowid n' = 0 ∨ cowid n' = cowid_ m); [|cbn in Hw; lia].
      pose proof (mo_lok _ _ _ _ _ Hm) as Hl. revert Hn' Hl. clear. intros Hn'.
      induction Hn' as [t|l w hh cs i hc t l' n' Hi Hn IH]; intros Hl; [by eapply lok_cowid|].
      apply IH. by eapply lok_child.
  - apply orb_false_elim in Hb as [Hst ->]. apply bool_decide_eq_false in Hst.
    assert (Hcl : clean sha512Half t) by (apply Himm; [done|]; destruct (decide (state_ m = Immutable)); tauto).
    exists h, t. split_and!; [|split|done..|by auto]; try apply Hm.
    + by rewrite (mo_root _ _ _ _ _ Hm).
    + done.
    + by apply lok_clean.
    + cbn. lia.
Qed.
End share.
