(* ===== verification/SHAMapIter.v ===== *)
(** * Looking up and iterating

    [peekItem], the iterator and [upper_bound] agree with the items of the tree,
    which are listed in the order of their keys. *)
From S2P Require Import Prelude Outcome Bytes Serializer SHAMapNode SHAMap SHAMapTree SHAMapLoc SHAMapOps SHAMapMutate.

(** ** Items in order *)

(** The items below the branches of a list. *)
Definition kid_items (o : option tree) : list SHAMapItem := match o with Some t => items t | None => [] end.
Definition all_items (cs : list (option tree)) : list SHAMapItem := concat (map kid_items cs).

Lemma items_inner cs : items (TInner cs) = all_items cs.
Proof. done. Qed.

Lemma all_items_drop cs i o : cs !! i = Some o → all_items (drop i cs) = kid_items o ++ all_items (drop (S i) cs).
Proof. intros Hi. by rewrite (drop_S _ _ _ Hi). Qed.

Definition key_lt (a b : SHAMapItem) : Prop := key a < key b.

Lemma elem_of_all_items cs x : x ∈ all_items cs ↔ ∃ i c, cs !! i = Some (Some c) ∧ x ∈ items c.
Proof. by rewrite <- items_inner, elem_of_items. Qed.

Lemma pfx_sorted ty d p t : pfx ty d p t → StronglySorted key_lt (items t).
Proof.
  assert (Hkids : ∀ d p cs, (d < 64)%nat →
    (∀ i c, cs !! i = Some (Some c) → wf ty (S d) (16 * p + Z.of_nat i) c ∧ StronglySorted key_lt (items c)) →
    length cs = branchFactor → StronglySorted key_lt (all_items cs)).
  { intros d' p' cs Hd Hcs Hlen.
    assert (Hn : ∀ n i, (i + n = branchFactor)%nat → StronglySorted key_lt (all_items (drop i cs))).
    { induction n as [|n IH]; intros i Hi; [rewrite drop_ge by lia; constructor|].
      destruct (lookup_lt_is_Some_2 cs i) as [o Ho]; [lia|]. rewrite (all_items_drop _ _ _ Ho).
      destruct o as [c|]; [|apply IH; lia]. destruct (Hcs _ _ Ho) as [Hwf Hs].
      apply StronglySorted_app_2; [|done|apply IH; lia].
      intros a b Ha (j & c' & Hj & Hb)%elem_of_all_items. rewrite lookup_drop in Hj.
      destruct (Hcs _ _ Hj) as [Hwf' _].
      destruct (wf_item _ _ _ _ _ Hwf Ha) as [[Hva _] Hpa], (wf_item _ _ _ _ _ Hwf' Hb) as [[Hvb _] Hpb].
      assert ((S i + j < 16)%nat) by (apply lookup_lt_Some in Hj; by rewrite Hlen in Hj).
      apply pre_S_inv in Hpa as [Hpa Hna]; [|lia..]. apply pre_S_inv in Hpb as [Hpb Hnb]; [|lia..].
      apply (nib_lt d'); [done..|congruence|lia]. }
    rewrite <- (drop_0 cs). apply (Hn branchFactor); lia. }
  assert (Hwf : ∀ d p t, wf ty d p t → StronglySorted key_lt (items t)).
  { intros d' p' t' Hw. induction Hw as [d' p' it|d' p' cs Hd Hlen Hcs IH _]; [repeat constructor|].
    rewrite items_inner. apply (Hkids d' p'); [done| |done]. intros i c Hi. split; [by apply Hcs|by apply (IH i)]. }
  destruct t as [ty' it|cs]; [apply Hwf|]. intros (Hd & Hlen & Hcs). rewrite items_inner.
  apply (Hkids d p); [done| |done]. intros i c Hi. split; [by apply Hcs|]. by eapply Hwf, Hcs.
Qed.

(** ** The next branch *)

Definition first_from (bs : list (option branch)) (b : nat) : option nat :=
  head (filter (λ i, isEmptyBranch bs i = false) (seq b (branchFactor - b))).

Lemma next_branch_from bs b : next_branch bs b = first_from bs (S b).
Proof. done. Qed.

Lemma first_branch_from bs : first_branch bs = first_from bs 0.
Proof. done. Qed.

Lemma first_from_spec cs b :
  length cs = branchFactor → (b ≤ branchFactor)%nat →
  match first_from (shape cs) b with
  | Some j => ∃ hh t, cs !! j = Some (Some (hh, t)) ∧
      all_items (drop b (ekids cs)) = items (erase t) ++ all_items (drop (S j) (ekids cs))
  | None => all_items (drop b (ekids cs)) = []
  end.
Proof.
  intros Hlen. remember (branchFactor - b)%nat as n eqn:Hn. revert b Hn. unfold first_from.
  induction n as [|n IH]; intros b Hn Hb; rewrite <- Hn; cbn [seq].
  { rewrite drop_ge by (rewrite length_ekids; lia). done. }
  destruct (lookup_lt_is_Some_2 cs b) as [o Ho]; [lia|].
  assert (Ho' : ekids cs !! b = Some ((λ x, erase x.2) <$> o)).
  { rewrite erase_lookup, Ho. by destruct o as [[hh t]|]. }
  rewrite (all_items_drop _ _ _ Ho'). rewrite filter_cons, isEmptyBranch_shape, Ho.
  destruct o as [[hh t]|].
  - rewrite decide_True by done. cbn [head]. eauto.
  - rewrite decide_False by done. specialize (IH (S b) ltac:(lia) ltac:(lia)).
    replace (branchFactor - S b)%nat with n in IH by lia. exact IH.
Qed.

(** ** Positions of the iterator *)

(** The stack of the iterator at the item [x]; [rest] are the items that follow. *)
Inductive cursor (x : SHAMapItem) : nat → ltree → NodeStack → list SHAMapItem → Prop :=
  | cur_leaf d l w h ty id : cursor x d (LLeaf l w h ty x) [(l, id)] []
  | cur_inner d l w h cs id i hh t s rest :
      cs !! i = Some (Some (hh, t)) → nib (key x) d = i → idv d id → cursor x (S d) t s rest →
      cursor x d (LInner l w h cs) (s ++ [(l, id)]) (rest ++ all_items (drop (S i) (ekids cs))).

Section iter.
Context (m : SHAMap) (h : gmap loc TreeNode) (ty : SHAMapNodeType).

(** The iterator stands at the leaf [l] with the item [x]. *)
Definition stands (d : nat) (t : ltree) (r : option loc) (s : NodeStack) (x : SHAMapItem)
    (rest : list SHAMapItem) : Prop :=
  ∃ l id s' w hh ty', r = Some l ∧ s = (l, id) :: s' ∧ h !! l = Some (LeafNode w hh ty' x) ∧ cursor x d t s rest.

Lemma stands_inner d p l w hh cs id i hc t r s x rest :
  (d < 64)%nat → cs !! i = Some (Some (hc, t)) → (i < 16)%nat → wf ty (S d) (16 * p + Z.of_nat i) (erase t) →
  x ∈ items (erase t) → idv d id → stands (S d) t r s x rest →
  stands d (LInner l w hh cs) r (s ++ [(l, id)]) x (rest ++ all_items (drop (S i) (ekids cs))).
Proof.
  intros Hd Hi Hi16 Hwf Hx Hid (l' & id' & s' & w' & hh' & ty' & -> & -> & Hl' & Hcur).
  exists l', id'. eexists _, _, _, _. split_and!; [done|done|done|].
  apply (cur_inner x d l w hh cs id i hc t _ rest); [done| |done|done].
  destruct (wf_item _ _ _ _ _ Hwf Hx) as [_ Hp]. by apply pre_S_inv in Hp as [_ ?].
Qed.

Lemma leaf_stands l w hh ty' it d :
  h !! l = Some (LeafNode w hh ty' it) → valid_item it →
  NodeID_ctor leafDepth (key it) = Return (mkID 64 (key it)) ∧
  stands d (LLeaf l w hh ty' it) (Some l) [(l, mkID 64 (key it))] it [].
Proof.
  intros Hl [Hk _]. split; [|repeat eexists; try done; constructor].
  apply (NodeID_ctor_ok 64); [done|lia|]. apply Z.mod_1_r.
Qed.

Lemma below_run n l w hh cs d p id s fuel b :
  n = (64 - d)%nat → (n ≤ fuel)%nat → pfx ty d p (erase (LInner l w hh cs)) →
  holds h (LInner l w hh cs) → (∃ x, x ∈ items (erase (LInner l w hh cs))) → idv d id → (b < 16)%nat →
  ∃ r s1 x rest,
    below_loop fuel l ((l, id) :: s) b (mkMemory h m) = (Return (r, s1 ++ s), mkMemory h m) ∧
    stands d (LInner l w hh cs) r s1 x rest ∧ items (erase (LInner l w hh cs)) = x :: rest.
Proof.
  revert l w hh cs d p id s fuel.
  induction n as [|n IH]; intros l w hh cs d p id s fuel Hn Hfuel Hp Hh Hne Hid Hb.
  { apply pfx_inner in Hp. lia. }
  pose proof Hp as (Hd & Hlen & Hcs)%pfx_inner. destruct fuel as [|fuel]; [lia|]. cbn [below_loop].
  pose proof (holds_root _ _ Hh) as Hl. erewrite ST_bind_return by (by eapply inner_at_run).
  rewrite first_branch_from. pose proof (first_from_spec cs 0 Hlen ltac:(lia)) as Hff. rewrite drop_0 in Hff.
  destruct (first_from (shape cs) 0) as [i|].
  2: { destruct Hne as [x Hx]. rewrite erase_inner, items_inner, Hff in Hx. by apply elem_of_nil in Hx. }
  destruct Hff as (hc & t & Hi & Hitems).
  assert (Hi16 : (i < 16)%nat) by (apply lookup_lt_Some in Hi; by rewrite Hlen in Hi).
  pose proof (Hcs _ _ _ Hi) as Hwf. pose proof (holds_child _ _ _ _ _ _ _ _ Hh Hi) as Hht.
  erewrite ST_bind_return by (by eapply descendThrow_run).
  erewrite ST_bind_return by (by apply node_at_run, holds_root).
  rewrite erase_inner, items_inner, Hitems.
  destruct t as [lt wt ht ty' it|lt wt ht cst]; cbn [lnode lroot].
  - assert (Hv : valid_item it) by (by inv Hwf).
    destruct (leaf_stands lt wt ht ty' it (S d) (holds_root _ _ Hht) Hv) as [Hctor Hst].
    erewrite ST_bind_return by (unfold slift; by rewrite Hctor).
    exists (Some lt), ([(lt, mkID 64 (key it))] ++ [(l, id)]), it, ([] ++ all_items (drop (S i) (ekids cs))).
    split_and!; [done| |done].
    eapply stands_inner; [done|done|done|done|by apply list_elem_of_singleton|done|done].
  - destruct (getChildNodeID_ok d id b Hid Hd Hb) as (id' & Hid' & Hidv').
    erewrite ST_bind_return by (unfold slift; by rewrite Hid').
    destruct (IH lt wt ht cst (S d) (16 * p + Z.of_nat i) id' ((l, id) :: s) fuel)
      as (r & s1 & x & rest & Hrun & Hst & Hit);
      [lia|lia|by apply wf_pfx|done|by eapply wf_nonempty|done|done|].
    exists r, (s1 ++ [(l, id)]), x, (rest ++ all_items (drop (S i) (ekids cs))).
    split_and!; [by rewrite Hrun, <- (assoc_L (++))| |by rewrite Hit].
    eapply stands_inner; [done|done|done|done| |done|done]. rewrite Hit. by left.
Qed.

(** The first leaf below a child of the node on top of the stack. *)
Lemma firstBelow_run t d p l id s i :
  wf ty (S d) p (erase t) → holds h t → idv d id → (d < 64)%nat → (i < 16)%nat →
  ∃ r s1 x rest,
    firstBelow (lroot t) ((l, id) :: s) i (mkMemory h m) = (Return (r, s1 ++ (l, id) :: s), mkMemory h m) ∧
    stands (S d) t r s1 x rest ∧ items (erase t) = x :: rest.
Proof.
  intros Hwf Hh Hid Hd Hi. unfold firstBelow. erewrite ST_bind_return by (by apply node_at_run, holds_root).
  destruct t as [lt wt ht ty' it|lt wt ht cst]; cbn [lnode lroot].
  - assert (Hv : valid_item it) by (by inv Hwf).
    destruct (leaf_stands lt wt ht ty' it (S d) (holds_root _ _ Hh) Hv) as [Hctor Hst].
    erewrite ST_bind_return by (unfold slift; by rewrite Hctor).
    exists (Some lt), [(lt, mkID 64 (key it))], it, []. done.
  - destruct (getChildNodeID_ok d id i Hid Hd Hi) as (id' & Hid' & Hidv').
    erewrite ST_bind_return by (unfold slift; by rewrite Hid').
    destruct (below_run (64 - S d) lt wt ht cst (S d) p id' ((l, id) :: s) depth_fuel i)
      as (r & s1 & x & rest & Hrun & Hst & Hit);
      [done|unfold depth_fuel; lia|by apply wf_pfx|done|by eapply wf_nonempty|done|done|].
    exists r, s1, x, rest. done.
Qed.

Lemma cursor_items x d t s rest p :
  cursor x d t s rest → pfx ty d p (erase t) → ∃ before, items (erase t) = before ++ x :: rest.
Proof.
  intros Hcur. revert p.
  induction Hcur as [d l w hh ty' id|d l w hh cs id i hc t s rest Hi Hn Hid Hcur IH]; intros p Hp; [by exists []|].
  apply pfx_inner in Hp as (Hd & Hlen & Hcs).
  destruct (IH _ (wf_pfx _ _ _ _ (Hcs _ _ _ Hi))) as [before Hb].
  exists (all_items (take i (ekids cs)) ++ before). rewrite erase_inner, items_inner.
  rewrite <- (take_drop i (ekids cs)) at 1. unfold all_items at 1. rewrite map_app, concat_app.
  assert (Hei : ekids cs !! i = Some (Some (erase t))) by (apply erase_child; eauto).
  change (concat (map kid_items (drop i (ekids cs)))) with (all_items (drop i (ekids cs))).
  rewrite (all_items_drop _ _ _ Hei). cbn [kid_items]. rewrite Hb, <- !(assoc_L (++)). done.
Qed.

(** Moving to the right at the node on top of the stack. *)
Lemma right_run d p l w hh cs id i s :
  pfx ty d p (erase (LInner l w hh cs)) → holds h (LInner l w hh cs) → idv d id → (i < 16)%nat →
  match all_items (drop (S i) (ekids cs)) with
  | [] => next_branch (shape cs) i = None
  | y :: rest => ∃ j r s2 c,
      next_branch (shape cs) i = Some j ∧ descendThrow l j (mkMemory h m) = (Return c, mkMemory h m) ∧
      firstBelow c ((l, id) :: s) j (mkMemory h m) = (Return (r, s2 ++ s), mkMemory h m) ∧
      stands d (LInner l w hh cs) r s2 y rest
  end.
Proof.
  intros Hp Hh Hid Hi. pose proof Hp as (Hd & Hlen & Hcs)%pfx_inner.
  rewrite next_branch_from. pose proof (first_from_spec cs (S i) Hlen Hi) as Hff.
  destruct (first_from (shape cs) (S i)) as [j|]; [|by rewrite Hff].
  destruct Hff as (hc & t & Hj & Hitems). rewrite Hitems.
  assert (Hj16 : (j < 16)%nat) by (apply lookup_lt_Some in Hj; by rewrite Hlen in Hj).
  destruct (firstBelow_run t d (16 * p + Z.of_nat j) l id s j) as (r & s1 & x & rest & Hrun & Hst & Hit);
    [by eapply Hcs|by eapply holds_child|done..|].
  rewrite Hit. exists j, r, (s1 ++ [(l, id)]), (lroot t). split_and!; [done| | |].
  - eapply descendThrow_run; [apply (holds_root _ _ Hh)|done].
  - by rewrite <- (assoc_L (++)).
  - eapply stands_inner; [done|done|done|by eapply Hcs| |done|done]. rewrite Hit. by left.
Qed.

Lemma next_run x d t s rest p l0 id0 s' s0 :
  cursor x d t s rest → s = (l0, id0) :: s' → pfx ty d p (erase t) → holds h t →
  match rest with
  | [] => next_loop (key x) (s' ++ s0) (mkMemory h m) = next_loop (key x) s0 (mkMemory h m)
  | y :: rest' => ∃ r s2,
      next_loop (key x) (s' ++ s0) (mkMemory h m) = (Return (r, s2 ++ s0), mkMemory h m) ∧ stands d t r s2 y rest'
  end.
Proof.
  intros Hcur. revert p l0 id0 s' s0.
  induction Hcur as [d l w hh ty' id|d l w hh cs id i hc t s rest Hi Hn Hid Hcur IH];
    intros p l0 id0 s' s0 Hs Hp Hh; [by injection Hs as <- <- <-|].
  pose proof Hp as (Hd & Hlen & Hcs)%pfx_inner. pose proof (Hcs _ _ _ Hi) as Hwf.
  assert (Hi16 : (i < 16)%nat) by (subst i; apply nib_range).
  assert (∃ s1, s = (l0, id0) :: s1 ∧ s' = s1 ++ [(l, id)]) as (s1 & -> & ->).
  { destruct Hcur; cbn in Hs; [|destruct s]; cbn in Hs; injection Hs as -> <-; eauto. }
  specialize (IH _ l0 id0 s1 ((l, id) :: s0) eq_refl (wf_pfx _ _ _ _ Hwf) (holds_child _ _ _ _ _ _ _ _ Hh Hi)).
  rewrite <- (assoc_L (++)). cbn [app].
  destruct rest as [|y rest]; cbn [app].
  2: { destruct IH as (r & s2 & Hrun & Hst). exists r, (s2 ++ [(l, id)]).
       split; [by rewrite Hrun, <- (assoc_L (++))|].
       eapply stands_inner; [done|done|done|done| |done|done].
       destruct (cursor_items _ _ _ _ _ _ Hcur (wf_pfx _ _ _ _ Hwf)) as [before ->].
       apply elem_of_app. right. by right; left. }
  rewrite IH. cbn [next_loop].
  pose proof (right_run d p l w hh cs id i s0 Hp Hh Hid Hi16) as Hright.
  pose proof (holds_root _ _ Hh) as Hl. pose proof Hid as (Hdep & _).
  assert (Hbody : ∀ k, (n ← node_at l; sassert (negb (isLeaf n)) "!node->isLeaf()";;
      bs ← inner_at l; b ← slift (selectBranch id (key x)); k bs b) (mkMemory h m) =
      (k (shape cs) i : op (option loc * NodeStack)) (mkMemory h m)).
  { intros k. erewrite ST_bind_return by (by apply node_at_run). erewrite ST_bind_return by done.
    erewrite ST_bind_return by (by eapply inner_at_run).
    erewrite ST_bind_return by (unfold slift; by rewrite (selectBranch_nib d) by done). by rewrite Hn. }
  destruct (all_items (drop (S i) (ekids cs))) as [|y rest]; [by rewrite Hbody, Hright|].
  destruct Hright as (j & r & s2 & c & Hnb & Hdesc & Hrun & Hst). exists r, s2. split; [|done].
  rewrite Hbody, Hnb. erewrite ST_bind_return by exact Hdesc. erewrite ST_bind_return by exact Hrun.
  destruct Hst as (l' & id' & s3 & w' & hh' & ty' & -> & _). done.
Qed.

(** ** Searching for the next key *)

Lemma upper_frame k d p l w hh cs id s :
  pfx ty d p (erase (LInner l w hh cs)) → holds h (LInner l w hh cs) → idv d id →
  match all_items (drop (S (nib k d)) (ekids cs)) with
  | [] => upper_loop k ((l, id) :: s) (mkMemory h m) = upper_loop k s (mkMemory h m)
  | y :: rest => ∃ r s2,
      upper_loop k ((l, id) :: s) (mkMemory h m) = (Return (Some y, s2 ++ s), mkMemory h m) ∧
      stands d (LInner l w hh cs) r s2 y rest
  end.
Proof.
  intros Hp Hh Hid. pose proof (right_run d p l w hh cs id (nib k d) s Hp Hh Hid (nib_range k d)) as Hright.
  pose proof Hp as (Hd & _)%pfx_inner. pose proof Hid as (Hdep & _). cbn [upper_loop].
  erewrite ST_bind_return by (by apply node_at_run, (holds_root _ _ Hh)). cbn [lnode].
  erewrite ST_bind_return by (unfold slift; by rewrite (selectBranch_nib d) by done).
  destruct (all_items (drop (S (nib k d)) (ekids cs))) as [|y rest]; [by rewrite Hright|].
  destruct Hright as (j & r & s2 & c & -> & Hdesc & Hrun & Hst). exists r, s2. split; [|done].
  erewrite ST_bind_return by exact Hdesc. erewrite ST_bind_return by exact Hrun.
  destruct Hst as (l' & id' & s3 & w' & hh' & ty' & -> & _ & Hl' & _). cbv beta iota.
  by erewrite ST_bind_return by (by eapply item_at_run).
Qed.

(** Items in the branches before and after the nibble of [k]. *)
Lemma split_items k d p cs :
  pfx ty d p (TInner cs) → valid_key k → pre d k = p →
  ∃ left, items (TInner cs) = left ++ default [] (kid_items <$> cs !! nib k d) ++ all_items (drop (S (nib k d)) cs) ∧
    (∀ x, x ∈ left → key x < k) ∧ (∀ x, x ∈ all_items (drop (S (nib k d)) cs) → k < key x).
Proof.
  intros (Hd & Hlen & Hcs) Hk Hp. exists (all_items (take (nib k d) cs)). pose proof (nib_range k d) as Hr.
  destruct (lookup_lt_is_Some_2 cs (nib k d)) as [o Ho]; [by rewrite Hlen|].
  assert (Hord : ∀ i c x, cs !! i = Some (Some c) → x ∈ items c →
    valid_key (key x) ∧ pre d (key x) = pre d k ∧ nib (key x) d = i).
  { intros i c x Hi Hx. destruct (wf_item _ _ _ _ _ (Hcs i c Hi) Hx) as [[Hv _] Hpx].
    apply pre_S_inv in Hpx as [-> ->]; [by rewrite Hp|done|]. apply lookup_lt_Some in Hi. by rewrite Hlen in Hi. }
  split_and!.
  - rewrite items_inner. rewrite <- (take_drop (nib k d) cs) at 1. unfold all_items at 1.
    rewrite map_app, concat_app. fold (all_items (take (nib k d) cs)) (all_items (drop (nib k d) cs)).
    by rewrite (all_items_drop _ _ _ Ho), Ho.
  - intros x (i & c & Hi & Hx)%elem_of_all_items. apply lookup_take_Some in Hi as [Hi Hlt].
    destruct (Hord i c x Hi Hx) as (Hv & Hpx & Hn). apply (nib_lt d); [done..|lia].
  - intros x (i & c & Hi & Hx)%elem_of_all_items. rewrite lookup_drop in Hi.
    destruct (Hord _ c x Hi Hx) as (Hv & Hpx & Hn). apply (nib_lt d); [done..|lia].
Qed.

(** The answer after the focus: the first item to its right. *)
Lemma upper_above k d id t fr df idf foc p :
  above k d id t fr df idf foc → pfx ty d p (erase t) → valid_key k → pre d k = p → holds h t → idv d id →
  ∃ left right,
    items (erase t) = left ++ items (erase foc) ++ right ∧
    (∀ x, x ∈ left → key x < k) ∧ (∀ x, x ∈ right → k < key x) ∧
    (∀ r s y rest, stands df foc r s y rest → y ∈ items (erase foc) → stands d t r (s ++ fr) y (rest ++ right)) ∧
    ∀ s0, match right with
          | [] => upper_loop k (fr ++ s0) (mkMemory h m) = upper_loop k s0 (mkMemory h m)
          | y :: rest => ∃ r s2,
              upper_loop k (fr ++ s0) (mkMemory h m) = (Return (Some y, s2 ++ s0), mkMemory h m) ∧
              stands d t r s2 y rest
          end.
Proof.
  intros Hab. revert p.
  induction Hab as [d id t|d id id' l w hh cs hc t fr df idf foc Hb Hid' Hidv' Hab IH];
    intros p Hp Hk Hpre Hh Hid.
  { exists [], []. rewrite app_nil_r. split_and!; [done|by intros ? ?%elem_of_nil..| |done].
    intros r s y rest Hst _. by rewrite !app_nil_r. }
  pose proof Hp as (Hd & Hlen & Hcs)%pfx_inner. pose proof (Hcs _ _ _ Hb) as Hwf.
  destruct (IH (16 * p + Z.of_nat (nib k d))) as (left & right & Hit & Hleft & Hright & Hcur & Hrun);
    [by apply wf_pfx|done|by rewrite pre_S, Hpre|by eapply holds_child|done|].
  destruct (split_items k d p (ekids cs)) as (left2 & Hit2 & Hleft2 & Hright2); [done..|].
  assert (Hmid : default [] (kid_items <$> ekids cs !! nib k d) = items (erase t)) by (by rewrite erase_lookup, Hb).
  rewrite erase_inner, Hit2, Hmid, Hit.
  exists (left2 ++ left), (right ++ all_items (drop (S (nib k d)) (ekids cs))). split_and!.
  - by rewrite <- !(assoc_L (++)).
  - intros x [?|?]%elem_of_app; auto.
  - intros x [?|?]%elem_of_app; auto.
  - intros r s y rest Hst Hy. rewrite !(assoc_L (++)). eapply stands_inner; [done|done|apply nib_range|done| |done|by apply Hcur].
    rewrite Hit. apply elem_of_app. right. by apply elem_of_app; left.
  - intros s0. rewrite <- (assoc_L (++)). cbn [app]. specialize (Hrun ((l, id) :: s0)).
    pose proof (upper_frame k d p l w hh cs id s0 Hp Hh Hid) as Hframe.
    destruct right as [|y rest]; cbn [app].
    + rewrite Hrun. exact Hframe.
    + destruct Hrun as (r & s2 & Hrun & Hst). exists r, (s2 ++ [(l, id)]).
      split; [by rewrite Hrun, <- (assoc_L (++))|].
      eapply stands_inner; [done|done|apply nib_range|done| |done|done].
      rewrite Hit. apply elem_of_app. right. apply elem_of_app. right. by left.
Qed.

(** ** The loop over all items *)

Lemma for_run t d p r s x rest fuel :
  stands d t r s x rest → pfx ty d p (erase t) → holds h t → (length rest < fuel)%nat →
  for_loop fuel r s (mkMemory h m) = (Return (x :: rest), mkMemory h m).
Proof.
  revert r s x fuel. induction rest as [|y rest IH]; intros r s x fuel Hst Hp Hh Hf.
  all: destruct Hst as (l & id & s' & w & hh & ty' & -> & -> & Hl & Hcur).
  all: destruct fuel as [|fuel]; [cbn in Hf; lia|]; cbn [for_loop].
  all: erewrite ST_bind_return by (by eapply item_at_run); unfold peekNextItem.
  all: pose proof (next_run _ _ _ _ _ _ _ _ _ [] Hcur eq_refl Hp Hh) as Hnext; cbn in Hnext; rewrite app_nil_r in Hnext.
  - erewrite ST_bind_return; [|erewrite ST_bind_return by (by apply node_at_run); erewrite ST_bind_return by done; exact Hnext].
    cbv beta iota. by destruct fuel.
  - destruct Hnext as (r & s2 & Hrun & Hst). rewrite app_nil_r in Hrun.
    erewrite ST_bind_return; [|erewrite ST_bind_return by (by apply node_at_run); erewrite ST_bind_return by done; exact Hrun].
    cbv beta iota. by erewrite ST_bind_return by (apply (IH r s2 y fuel); [done..|cbn in Hf; lia]).
Qed.
End iter.

(** ** Lookups and loops over a map *)

Lemma filter_split k left right :
  (∀ x, x ∈ left → ¬ k < key x) → (∀ x, x ∈ right → k < key x) →
  filter (λ x, k < key x) (left ++ right) = right.
Proof.
  intros Hl Hr. rewrite filter_app.
  assert (filter (λ x, k < key x) left = []) as ->.
  { clear Hr. induction left as [|x left IH]; [done|]. rewrite filter_cons_False, IH; [done|set_solver|].
    by apply Hl; constructor. }
  cbn [app]. clear Hl. induction right as [|x right IH]; [done|].
  rewrite filter_cons_True, IH; [done|set_solver|]. by apply Hr; constructor.
Qed.

Section maps.
Context (sha512Half : list Z → Z).

Lemma findKey_run ty h m t k :
  map_ok sha512Half ty h m t → valid_key k →
  ∃ r, findKey k (mkMemory h m) = (Return r, mkMemory h m) ∧
    match r with
    | Some l => ∃ w hh ty' x, h !! l = Some (LeafNode w hh ty' x) ∧ x ∈ items (erase t) ∧ key x = k
    | None => ¬ has_key k (erase t)
    end.
Proof.
  intros Hm Hk.
  destruct (walk_map sha512Half ty h m t k Hm Hk) as (fr & df & idf & foc & Hab & Hidf & Hstop & Hpf & Hwalk).
  destruct (above_focus sha512Half (cowid_ m) h _ _ _ _ _ _ _ _ Hab) as (Hfh & _ & _); [apply Hm..|].
  assert (Hfind : ∀ x, key x = k → x ∈ items (erase t) ↔ ∃ l w h ty', foc = LLeaf l w h ty' x)
    by (intros x Hx; eapply focus_item; [done|done|apply Hm|done]).
  unfold findKey. erewrite ST_bind_return by exact Hwalk. cbv beta iota.
  destruct foc as [l w hh ty' it|l w hh cs]; cbn [leaf_of].
  2: { exists None. split; [done|]. intros (x & Hx & Hkx). by apply Hfind in Hx as (? & ? & ? & ? & ?). }
  erewrite ST_bind_return by (by eapply item_at_run, (holds_root _ _ Hfh)).
  destruct (Z.eqb_spec (key it) k) as [Heq|Hne]; cbn [negb].
  - exists (Some l). split; [done|]. exists w, hh, ty', it. split_and!; [by apply (holds_root _ _ Hfh)| |done].
    apply Hfind; eauto.
  - exists None. split; [done|]. intros (x & Hx & Hkx). by apply Hfind in Hx as (? & ? & ? & ? & [= _ _ _ _ <-]).
Qed.

Lemma peekItem_run ty h m t k :
  map_ok sha512Half ty h m t → valid_key k →
  ∃ r, peekItem k (mkMemory h m) = (Return r, mkMemory h m) ∧
    match r with Some x => x ∈ items (erase t) ∧ key x = k | None => ¬ has_key k (erase t) end.
Proof.
  intros Hm Hk. destruct (findKey_run ty h m t k Hm Hk) as (r & Hrun & Hr).
  unfold peekItem. erewrite ST_bind_return by exact Hrun. destruct r as [l|]; [|by exists None].
  destruct Hr as (w & hh & ty' & x & Hl & Hx). exists (Some x).
  by erewrite ST_bind_return by (by eapply item_at_run).
Qed.

Lemma hasItem_run ty h m t k :
  map_ok sha512Half ty h m t → valid_key k →
  ∃ b, hasItem k (mkMemory h m) = (Return b, mkMemory h m) ∧ (b = true ↔ has_key k (erase t)).
Proof.
  intros Hm Hk. destruct (findKey_run ty h m t k Hm Hk) as (r & Hrun & Hr).
  unfold hasItem. erewrite ST_bind_return by exact Hrun. eexists. split; [done|].
  rewrite bool_decide_eq_true. destruct r as [l|]; [|tauto].
  destruct Hr as (w & hh & ty' & x & Hl & Hx & Hkx). split; [by exists x|done].
Qed.

Lemma for_each_run ty h m t :
  map_ok sha512Half ty h m t → for_each (mkMemory h m) = (Return (items (erase t)), mkMemory h m).
Proof.
  intros Hm. destruct (mo_inner _ _ _ _ _ Hm) as (l & w & hh & cs & ->).
  pose proof (mo_holds _ _ _ _ _ Hm) as Hh. pose proof (mo_pfx _ _ _ _ _ Hm) as Hp.
  pose proof (pick_bound true _ _ Hh (mo_uniq _ _ _ _ _ Hm)) as Hb. rewrite pick_leaves in Hb.
  unfold for_each, peekFirstItem. erewrite ST_bind_return by done.
  assert (Hfirst : firstBelow l [] 0 (mkMemory h m) = below_loop depth_fuel l [(l, root_id)] 0 (mkMemory h m)).
  { unfold firstBelow. by erewrite ST_bind_return by (by apply node_at_run, (holds_root _ _ Hh)). }
  pose proof (mo_root _ _ _ _ _ Hm) as Hroot. cbn [lroot] in Hroot.
  destruct (items (erase (LInner l w hh cs))) as [|y its] eqn:Hits.
  - assert (Hff : first_branch (shape cs) = None).
    { rewrite first_branch_from. apply pfx_inner in Hp as (_ & Hlen & Hcs).
      pose proof (first_from_spec cs 0 Hlen ltac:(lia)) as Hff. destruct (first_from (shape cs) 0) as [j|]; [|done].
      destruct Hff as (hc & t & Hj & _). destruct (wf_nonempty _ _ _ _ (Hcs _ _ _ Hj)) as [x Hx].
      exfalso. apply (elem_of_nil x). rewrite <- Hits. apply elem_of_items. exists j, (erase t).
      split; [apply erase_child; eauto|done]. }
    erewrite ST_bind_return; [|erewrite ST_bind_return by done; cbn [this]; rewrite Hroot;
      erewrite ST_bind_return; [|rewrite Hfirst; cbn [below_loop depth_fuel];
        erewrite ST_bind_return by (by eapply inner_at_run, (holds_root _ _ Hh)); by rewrite Hff]; done].
    cbv beta iota. cbn [nodes_]. by destruct (size h).
  - destruct (below_run m h ty 64 l w hh cs 0 0 root_id [] depth_fuel 0) as (r & s1 & x & rest & Hrun & Hst & Hit);
      [done|unfold depth_fuel; lia|done|done| |apply idv_root|lia|].
    { exists y. rewrite Hits. by left. }
    rewrite Hits in Hit. injection Hit as <- <-. rewrite app_nil_r in Hrun.
    pose proof Hst as (l' & id' & s' & w' & hh' & ty' & -> & _ & _ & _).
    erewrite ST_bind_return; [|erewrite ST_bind_return by done; cbn [this]; rewrite Hroot;
      erewrite ST_bind_return by (rewrite Hfirst; exact Hrun); done].
    cbv beta iota. cbn [nodes_]. eapply for_run; [done..|]. cbn in Hb. lia.
Qed.

(** The iterator at the first of the items in [right]. *)
Definition at_head (h : gmap loc TreeNode) (m : SHAMap) (t : ltree) (right : list SHAMapItem)
    (res : exc (option SHAMapItem * NodeStack) * Memory) : Prop :=
  match right with
  | [] => res = (Return (None, []), mkMemory h m)
  | y :: rest => ∃ r s, res = (Return (Some y, s), mkMemory h m) ∧ stands h 0 t r s y rest
  end.

(** The first item whose key is greater, and the position of the iterator there. *)
Lemma upper_bound_run ty h m t k :
  map_ok sha512Half ty h m t → valid_key k →
  at_head h m t (filter (λ x, k < key x) (items (erase t))) (upper_bound k (mkMemory h m)).
Proof.
  intros Hm Hk. pose proof (mo_holds _ _ _ _ _ Hm) as Hh. pose proof (mo_pfx _ _ _ _ _ Hm) as Hp.
  destruct (walk_map sha512Half ty h m t k Hm Hk) as (fr & df & idf & foc & Hab & Hidf & Hstop & Hpf & Hwalk).
  destruct (above_focus sha512Half (cowid_ m) h _ _ _ _ _ _ _ _ Hab) as (Hfh & _ & _); [apply Hm..|].
  destruct (upper_above m h ty k 0 root_id t fr df idf foc 0 Hab Hp Hk) as
    (left & right & Hit & Hleft & Hright & Hcur & Hrun); [by apply pre_0|done|apply idv_root|].
  unfold upper_bound. erewrite ST_bind_return by exact Hwalk. cbv beta iota. specialize (Hrun []).
  rewrite app_nil_r in Hrun.
  assert (Hfr : at_head h m t right (upper_loop k fr (mkMemory h m))).
  { destruct right as [|y rest]; [exact Hrun|]. destruct Hrun as (r & s2 & Hrun & Hst).
    rewrite app_nil_r in Hrun. by exists r, s2. }
  destruct foc as [l w hh ty' it|l w hh cs]; cbn [lroot].
  - assert (Hstep : upper_loop k ((l, idf) :: fr) (mkMemory h m) =
      (if k <? key it then mret (Some it, (l, idf) :: fr) else upper_loop k fr) (mkMemory h m)).
    { cbn [upper_loop]. by erewrite ST_bind_return by (by apply node_at_run, (holds_root _ _ Hfh)). }
    rewrite Hstep, Hit. clear Hstep. cbn [erase items]. destruct (Z.ltb_spec k (key it)) as [Hlt|Hge].
    + rewrite filter_split; [|set_solver by lia|set_solver]. exists (Some l). eexists. split; [done|].
      apply (Hcur (Some l) [(l, idf)] it []); [|by apply list_elem_of_singleton].
      exists l, idf, [], w, hh, ty'. split_and!; [done|done|by apply (holds_root _ _ Hfh)|constructor].
    + rewrite (assoc_L (++)), filter_split; [done|set_solver by lia|done].
  - destruct (split_items ty k df (pre df k) (ekids cs)) as (left2 & Hit2 & Hleft2 & Hright2); [done..|].
    assert (Hmid : default [] (kid_items <$> ekids cs !! nib k df) = []) by (by rewrite erase_lookup, Hstop).
    rewrite Hmid in Hit2. cbn [app] in Hit2. rewrite Hit, erase_inner, Hit2.
    rewrite <- (assoc_L (++)), (assoc_L (++)), filter_split; [|set_solver by lia|set_solver].
    pose proof (upper_frame m h ty k df _ l w hh cs idf fr Hpf Hfh Hidf) as Hframe.
    destruct (all_items (drop (S (nib k df)) (ekids cs))) as [|y rest] eqn:Hall; [by rewrite Hframe|].
    destruct Hframe as (r & s2 & Hrun2 & Hst). exists r, (s2 ++ fr). split; [done|]. apply Hcur; [done|].
    rewrite erase_inner, Hit2, elem_of_app. right. by left.
Qed.
End maps.
