(* ===== verification/SHAMapCanon.v ===== *)
(** * The hash of a set of items

    [root_hash] computes the hash of the root directly from the items, by
    grouping them by the nibbles of their keys; it does not depend on how the
    map was built. *)
From S2P Require Import Prelude Outcome Bytes Serializer SHAMapNode SHAMap SHAMapTree SHAMapLoc SHAMapOps.

(** The items whose nibble [d] is [i]. *)
Definition in_branch (d i : nat) (l : list SHAMapItem) : list SHAMapItem :=
  filter (λ x, nib (key x) d = i) l.

(** The compact tree at depth [d]; [n] nibbles are left. *)
Fixpoint canon (ty : SHAMapNodeType) (n d : nat) (l : list SHAMapItem) : option tree :=
  match l with
  | [] => None
  | [x] => Some (TLeaf ty x)
  | _ =>
    match n with
    | O => None
    | S n => Some (TInner (map (λ i, canon ty n (S d) (in_branch d i l)) (seq 0 branchFactor)))
    end
  end.

Definition canon_root (ty : SHAMapNodeType) (l : list SHAMapItem) : tree :=
  TInner (map (λ i, canon ty 63 1 (in_branch 0 i l)) (seq 0 branchFactor)).

Definition root_hash (sha512Half : list Z → Z) (ty : SHAMapNodeType) (l : list SHAMapItem) : Z :=
  thash sha512Half (canon_root ty l).

(** Different keys. *)
Definition keys_differ (l : list SHAMapItem) : Prop := NoDup (key <$> l).

Lemma keys_differ_filter l P `{∀ x, Decision (P x)} : keys_differ l → keys_differ (filter P l).
Proof.
  unfold keys_differ. induction l as [|x l IH]; [done|]. rewrite fmap_cons, NoDup_cons. intros [Hx Hl].
  rewrite filter_cons. destruct (decide (P x)); [|by apply IH]. rewrite fmap_cons, NoDup_cons. split; [|by apply IH].
  intros (y & Hy & [_ Hin]%list_elem_of_filter)%list_elem_of_fmap. apply Hx. rewrite Hy. by apply list_elem_of_fmap_2.
Qed.

Lemma elem_of_in_branch d i l x : x ∈ in_branch d i l ↔ nib (key x) d = i ∧ x ∈ l.
Proof. unfold in_branch; by rewrite list_elem_of_filter. Qed.

Lemma branch_lookup (f : nat → option tree) i c :
  map f (seq 0 branchFactor) !! i = Some (Some c) ↔ (i < branchFactor)%nat ∧ f i = Some c.
Proof.
  change (map ?f ?l) with (f <$> l). rewrite list_lookup_fmap, fmap_Some. split.
  - intros (j & [-> Hj]%lookup_seq & Hc). auto.
  - intros [Hi Hc]. exists i. split; [by apply lookup_seq|done].
Qed.

(** The children hold the items of their branch. *)
Lemma branches_items d l (f : nat → option tree) :
  (∀ i, (i < branchFactor)%nat → ∀ x, x ∈ in_branch d i l ↔ ∃ c, f i = Some c ∧ x ∈ items c) →
  ∀ x, x ∈ items (TInner (map f (seq 0 branchFactor))) ↔ x ∈ l.
Proof.
  intros Hf x. rewrite elem_of_items. setoid_rewrite branch_lookup. split.
  - intros (i & c & [Hi Hc] & Hx). eapply elem_of_in_branch, Hf; eauto.
  - intros Hx. exists (nib (key x) d).
    destruct (proj1 (Hf (nib (key x) d) (nib_range _ _) x)) as (c & Hc & Hxc); [by apply elem_of_in_branch|].
    exists c. split_and!; [apply nib_range|done..].
Qed.

Lemma canon_ok ty n d p l :
  n = (64 - d)%nat → (d ≤ 64)%nat → keys_differ l → (∀ x, x ∈ l → valid_item x ∧ pre d (key x) = p) →
  (∀ x, x ∈ l ↔ ∃ t, canon ty n d l = Some t ∧ x ∈ items t) ∧ (∀ t, canon ty n d l = Some t → wf ty d p t).
Proof.
  revert d p l. induction n as [|n IH]; intros d p l Hn Hd Hk Hl.
  all: destruct l as [|a [|b l]];
    [split; [split; [by intros ?%elem_of_nil|by intros (? & [=] & _)]|done]| |].
  1, 3: (split; [intros x; cbn; rewrite list_elem_of_singleton; split;
           [intros ->; eexists; split; [done|by apply list_elem_of_singleton]|by intros (? & [= <-] & ?%list_elem_of_singleton)]
          |intros t [= <-]; destruct (Hl a) as [Hv Hp]; [by left|by constructor]]).
  { exfalso. assert (Heq : key a = key b).
    { assert (d = 64)%nat as -> by lia.
      rewrite <- (pre_64 (key a)), <- (pre_64 (key b)).
      destruct (Hl a) as [_ ->]; [by left|]. by destruct (Hl b) as [_ ->]; [by right; left|]. }
    unfold keys_differ in Hk. rewrite !fmap_cons, NoDup_cons in Hk. destruct Hk as [Hk _]. apply Hk. rewrite Heq. left. }
  set (l' := a :: b :: l) in *. change (canon ty (S n) d l') with
    (Some (TInner (map (λ i, canon ty n (S d) (in_branch d i l')) (seq 0 branchFactor)))).
  assert (Hbr : ∀ i, (i < branchFactor)%nat →
    (∀ x, x ∈ in_branch d i l' ↔ ∃ t, canon ty n (S d) (in_branch d i l') = Some t ∧ x ∈ items t) ∧
    (∀ t, canon ty n (S d) (in_branch d i l') = Some t → wf ty (S d) (16 * p + Z.of_nat i) t)).
  { intros i Hi. apply IH; [lia..|by apply keys_differ_filter|].
    intros x [Hx Hin]%elem_of_in_branch. destruct (Hl x Hin) as [Hv Hp]. split; [done|].
    rewrite pre_S by lia. by rewrite Hp, Hx. }
  assert (Hitems : ∀ x, x ∈ items (TInner (map (λ i, canon ty n (S d) (in_branch d i l')) (seq 0 branchFactor))) ↔ x ∈ l').
  { apply (branches_items d). intros i Hi. by apply Hbr. }
  split.
  - intros x. rewrite <- Hitems. split; [eauto|by intros (? & [= <-] & ?)].
  - intros t Ht. apply Some_inj in Ht. rewrite <- Ht. constructor; [lia|by rewrite length_map, length_seq| |].
    + intros i c [Hi Hc]%branch_lookup. by apply Hbr.
    + exists a, b. rewrite !Hitems. split_and!; [by left|by right; left|].
      unfold keys_differ, l' in Hk. rewrite !fmap_cons, NoDup_cons in Hk. destruct Hk as [Hk _].
      intros Heq. apply Hk. rewrite Heq. left.
Qed.

Lemma canon_root_ok ty l :
  keys_differ l → (∀ x, x ∈ l → valid_item x) →
  pfx ty 0 0 (canon_root ty l) ∧ ∀ x, x ∈ items (canon_root ty l) ↔ x ∈ l.
Proof.
  intros Hk Hl.
  assert (Hbr : ∀ i, (i < branchFactor)%nat →
    (∀ x, x ∈ in_branch 0 i l ↔ ∃ t, canon ty 63 1 (in_branch 0 i l) = Some t ∧ x ∈ items t) ∧
    (∀ t, canon ty 63 1 (in_branch 0 i l) = Some t → wf ty 1 (16 * 0 + Z.of_nat i) t)).
  { intros i Hi. apply (canon_ok ty 63 1); [lia..|by apply keys_differ_filter|].
    intros x [Hx Hin]%elem_of_in_branch. split; [by apply Hl|].
    rewrite (pre_S 0), pre_0 by (try lia; by apply Hl). by rewrite Hx. }
  split.
  - split_and!; [lia|unfold canon_root; by rewrite length_map, length_seq|].
    intros i c [Hi Hc]%branch_lookup. by apply Hbr.
  - apply (branches_items 0). intros i Hi. by apply Hbr.
Qed.

(** The tree of a map is the canonical one. *)
Lemma tree_canon ty cs l :
  pfx ty 0 0 (TInner cs) → keys_differ l → (∀ x, x ∈ items (TInner cs) ↔ x ∈ l) → TInner cs = canon_root ty l.
Proof.
  intros Hp Hk Hit. destruct (canon_root_ok ty l Hk) as [Hp' Hit'].
  { intros x Hx%Hit. by eapply pfx_item. }
  apply (pfx_unique ty 0 0); [unfold canon_root; eauto..|done|done|]. intros x. by rewrite Hit, Hit'.
Qed.
