(* ===== verification/SHAMapWorld.v ===== *)
(** * Maps that share memory

    A program holds several maps; their nodes live in one memory and snapshots
    share them.  The specification knows nothing of this: every map is a finite
    map from keys to data.  The calls on the memory give the results of the
    specification, so no map sees a change made through another one. *)
From S2P Require Import Prelude Outcome Bytes Serializer SHAMapNode SHAMap SHAMapTree SHAMapLoc SHAMapOps SHAMapMutate SHAMapDelete SHAMapFlush SHAMapIter SHAMapCanon.

(** ** The calls *)

Record World := mkWorld { heap : gmap loc TreeNode; maps : gmap nat SHAMap }.

Inductive Cmd :=
  | New (j : nat) (ty : SHAMapNodeType)
  | Add (i : nat) (ty : SHAMapNodeType) (it : SHAMapItem)
  | Update (i : nat) (ty : SHAMapNodeType) (it : SHAMapItem)
  | Delete (i : nat) (k : Z)
  | Lookup (i : nat) (k : Z)
  | Next (i : nat) (k : Z)
  | Items (i : nat)
  | Hash (i : nat)
  | Snapshot (i j : nat) (isMutable : bool)
  | Freeze (i : nat).

Inductive Res :=
  | RUnit
  | RBool (b : bool)
  | RItem (o : option SHAMapItem)
  | RItems (l : list SHAMapItem)
  | RHash (h : Z).

(** A call on the map [i]. *)
Definition on_map {A} (i : nat) (o : op A) (w : World) : exc A * World :=
  match maps w !! i with
  | None => (Abort "no map", w)
  | Some m =>
    let '(r, mem) := o (mkMemory (heap w) m) in
    (r, mkWorld (nodes_ mem) (<[i := this mem]> (maps w)))
  end.

Section world.
Context (sha512Half : list Z → Z).

(** A ledger is closed for changes after its hashes were computed
    ([Ledger::setImmutable]). *)
Definition freeze : op Z := h ← getHash_map sha512Half; setImmutable;; mret h.

Definition call (cmd : Cmd) : op Res :=
  match cmd with
  | Add _ ty it => b ← addGiveItem sha512Half ty it; mret (RBool b)
  | Update _ ty it => b ← updateGiveItem sha512Half ty it; mret (RBool b)
  | Delete _ k => b ← delItem sha512Half k; mret (RBool b)
  | Lookup _ k => o ← peekItem k; mret (RItem o)
  | Next _ k => '(o, _) ← upper_bound k; mret (RItem o)
  | Items _ => l ← for_each; mret (RItems l)
  | Hash _ => h ← getHash_map sha512Half; mret (RHash h)
  | Freeze _ => h ← freeze; mret (RHash h)
  | New _ _ | Snapshot _ _ _ => slift (Abort "call")
  end.

Definition cstep (cmd : Cmd) (w : World) : exc Res * World :=
  match cmd with
  | New j _ =>
    let '(h, m) := SHAMap_ctor (heap w) in (Return RUnit, mkWorld h (<[j := m]> (maps w)))
  | Snapshot i j isMutable =>
    let '(r, w) := on_map i (snapShot sha512Half isMutable) w in
    match r with
    | Return m => (Return RUnit, mkWorld (heap w) (<[j := m]> (maps w)))
    | Throw e => (Throw e, w)
    | Abort e => (Abort e, w)
    | NoFuel => (NoFuel, w)
    end
  | Add i _ _ | Update i _ _ | Delete i _ | Lookup i _ | Next i _ | Items i | Hash i | Freeze i =>
    on_map i (call cmd) w
  end.

Fixpoint crun (cmds : list Cmd) : ST World (list Res) :=
  match cmds with
  | [] => mret []
  | cmd :: cmds => r ← (cstep cmd : ST World Res); rs ← crun cmds; mret (r :: rs)
  end.

(** ** The specification *)

Record AMap := mkAMap { aty : SHAMapNodeType; items_ : gmap Z (list Z); frozen : bool; gen : Z }.

Definition key_le (a b : SHAMapItem) : Prop := key a ≤ key b.
#[local] Instance key_le_dec a b : Decision (key_le a b).
Proof. unfold key_le. apply _. Defined.

(** The items in the order of their keys. *)
Definition alist (m : gmap Z (list Z)) : list SHAMapItem :=
  merge_sort key_le ((λ kd, mkItem kd.1 kd.2) <$> map_to_list m).

Definition set_items (am : AMap) (m : gmap Z (list Z)) : AMap := mkAMap (aty am) m (frozen am) (gen am).

Definition collide (ty : SHAMapNodeType) (it : SHAMapItem) (d : list Z) : bool :=
  bool_decide (leaf_hash sha512Half ty (mkItem (key it) d) = leaf_hash sha512Half ty it) &&
  bool_decide (d ≠ peekData it).

Definition valid_itemb (it : SHAMapItem) : bool :=
  (0 <=? key it) && (key it <? 2 ^ 256) && (12 <=? length (peekData it))%nat.

Definition valid_keyb (k : Z) : bool := (0 <=? k) && (k <? 2 ^ 256).

(** One call on one map; [None] is a call outside of the contract. *)
Definition amap_step (am : AMap) (cmd : Cmd) : option (Res * AMap) :=
  match cmd with
  | Add _ ty it =>
    if bool_decide (ty = aty am) && negb (frozen am) && valid_itemb it then
      match items_ am !! key it with
      | None => Some (RBool true, set_items am (<[key it := peekData it]> (items_ am)))
      | Some _ => Some (RBool false, am)
      end
    else None
  | Update _ ty it =>
    if bool_decide (ty = aty am) && negb (frozen am) && valid_itemb it then
      match items_ am !! key it with
      | None => None
      | Some d =>
        if collide ty it d then None
        else Some (RBool true, set_items am (<[key it := peekData it]> (items_ am)))
      end
    else None
  | Delete _ k =>
    if negb (frozen am) && valid_keyb k then
      match items_ am !! k with
      | None => Some (RBool false, am)
      | Some _ => Some (RBool true, set_items am (delete k (items_ am)))
      end
    else None
  | Lookup _ k => if valid_keyb k then Some (RItem (mkItem k <$> items_ am !! k), am) else None
  | Next _ k => if valid_keyb k then Some (RItem (head (filter (λ x, k < key x) (alist (items_ am)))), am) else None
  | Items _ => Some (RItems (alist (items_ am)), am)
  | Hash _ => Some (RHash (root_hash sha512Half (aty am) (alist (items_ am))), am)
  | Freeze _ =>
    Some (RHash (root_hash sha512Half (aty am) (alist (items_ am))), mkAMap (aty am) (items_ am) true (gen am))
  | New _ _ | Snapshot _ _ _ => None
  end.

Definition astep (cmd : Cmd) (a : gmap nat AMap) : option (Res * gmap nat AMap) :=
  match cmd with
  | New j ty =>
    if bool_decide (a !! j = None) && bool_decide (ty ≠ tnINNER) then
      Some (RUnit, <[j := mkAMap ty ∅ false 1]> a)
    else None
  | Snapshot i j isMutable =>
    am ← a !! i;
    if bool_decide (a !! j = None) && (gen am + 1 <? 2 ^ 32) then
      Some (RUnit, <[j := mkAMap (aty am) (items_ am) (negb isMutable) (gen am + 1)]> a)
    else None
  | Add i _ _ | Update i _ _ | Delete i _ | Lookup i _ | Next i _ | Items i | Hash i | Freeze i =>
    am ← a !! i;
    '(r, am') ← amap_step am cmd;
    Some (r, <[i := am']> a)
  end.

Fixpoint arun (cmds : list Cmd) (a : gmap nat AMap) : option (list Res * gmap nat AMap) :=
  match cmds with
  | [] => Some ([], a)
  | cmd :: cmds =>
    '(r, a) ← astep cmd a;
    '(rs, a) ← arun cmds a;
    Some (r :: rs, a)
  end.
End world.
