(* ===== verification/SHAMapRefine.v ===== *)
(** * The memory implements the specification *)
From S2P Require Import Prelude Outcome Bytes Serializer SHAMapNode SHAMap SHAMapTree SHAMapLoc SHAMapOps SHAMapMutate SHAMapDelete SHAMapFlush SHAMapIter SHAMapCanon SHAMapWorld.

(** ** The items of the specification *)

#[local] Instance key_le_total : Total key_le.
Proof. intros a b. unfold key_le. lia. Qed.
#[local] Instance key_le_trans : Transitive key_le.
Proof. intros a b c. unfold key_le. lia. Qed.

Lemma alist_perm m : alist m ≡ₚ (λ kd, mkItem kd.1 kd.2) <$> map_to_list m.
Proof. apply merge_sort_Permutation. Qed.

Lemma elem_of_alist m x : x ∈ alist m ↔ m !! key x = Some (peekData x).
Proof.
  rewrite alist_perm, list_elem_of_fmap. split.
  - intros ([k d] & -> & H%elem_of_map_to_list). done.
  - intros H%elem_of_map_to_list. exists (key x, peekData x). by destruct x.
Qed.

Lemma alist_keys m : keys_differ (alist m).
Proof.
  unfold keys_differ. rewrite alist_perm, <- list_fmap_compose. apply NoDup_fmap_fst, NoDup_map_to_list.
  intros x d1 d2 H1%elem_of_map_to_list H2%elem_of_map_to_list. congruence.
Qed.

Lemma alist_sorted m : StronglySorted key_lt (alist m).
Proof. apply le_sorted_lt; [apply StronglySorted_merge_sort; apply _|apply alist_keys]. Qed.

Section refine.
Context (sha512Half : list Z → Z).

Record map_rel (h : gmap loc TreeNode) (m : SHAMap) (am : AMap) (t : ltree) : Prop := {
  mr_ok : map_ok sha512Half (aty am) h m t;
  mr_ty : aty am ≠ tnINNER;
  mr_state : state_ m = if frozen am then Immutable else Modifying;
  mr_gen : cowid_ m = gen am;
  mr_clean : frozen am = true → clean sha512Half t;
  mr_items x : x ∈ items (erase t) ↔ items_ am !! key x = Some (peekData x) }.

(** The items of the tree are the ones of the specification, in its order. *)
Lemma mr_alist h m am t : map_rel h m am t → items (erase t) = alist (items_ am).
Proof.
  intros HR. apply (sorted_unique key); [eapply pfx_sorted, HR|apply alist_sorted|].
  intros x. by rewrite (mr_items _ _ _ _ HR), elem_of_alist.
Qed.

Lemma mr_hash h m am t :
  map_rel h m am t → thash sha512Half (erase t) = root_hash sha512Half (aty am) (alist (items_ am)).
Proof.
  intros HR. unfold root_hash. f_equal. pose proof (mr_ok _ _ _ _ HR) as Hm.
  destruct (mo_inner _ _ _ _ _ Hm) as (l & w & hh & cs & ->). rewrite erase_inner. apply tree_canon.
  - rewrite <- (erase_inner l w hh). apply Hm.
  - apply alist_keys.
  - intros x. by rewrite <- (erase_inner l w hh), (mr_items _ _ _ _ HR), elem_of_alist.
Qed.

Lemma mr_has_key h m am t k : map_rel h m am t → has_key k (erase t) ↔ is_Some (items_ am !! k).
Proof.
  intros HR. split.
  - intros (x & Hx%(mr_items _ _ _ _ HR) & <-). eauto.
  - intros [d Hd]. exists (mkItem k d). split; [|done]. by apply (mr_items _ _ _ _ HR).
Qed.

(** ** Several maps *)

Record world_rel (w : World) (a : gmap nat AMap) (ts : gmap nat ltree) : Prop := {
  wr_dom i : is_Some (maps w !! i) ↔ is_Some (a !! i);
  wr_map i m am : maps w !! i = Some m → a !! i = Some am → ∃ t, ts !! i = Some t ∧ map_rel (heap w) m am t;
  wr_apart i j m ti tj x : i ≠ j → maps w !! i = Some m → is_Some (maps w !! j) →
    ts !! i = Some ti → ts !! j = Some tj → mine (cowid_ m) ti x → ¬ inl tj x }.

(** A map whose cells are not touched. *)
Lemma map_rel_frame h h' m am t :
  map_rel h m am t → (∀ x, inl t x → h' !! x = h !! x) → map_rel h' m am t.
Proof.
  intros HR Ha. pose proof (mr_ok _ _ _ _ HR) as Hm. split; try apply HR.
  split; try apply Hm. eapply holds_agree; [apply Hm|done].
Qed.

(** A call changed the map [i]. *)
Lemma world_upd K w a ts i m am t h' m' am' t' :
  world_rel w a ts → maps w !! i = Some m → a !! i = Some am → ts !! i = Some t →
  map_rel (heap w) m am t → evo K (cowid_ m) (heap w) t h' t' → cowid_ m' = cowid_ m →
  map_rel h' m' am' t' →
  world_rel (mkWorld h' (<[i := m']> (maps w))) (<[i := am']> a) (<[i := t']> ts).
Proof.
  intros Hw Hi Ha Ht HR HU Hc HR'.
  assert (Hframe : ∀ j mj amj tj, j ≠ i → maps w !! j = Some mj → a !! j = Some amj → ts !! j = Some tj →
    map_rel (heap w) mj amj tj → ∀ x, inl tj x → h' !! x = heap w !! x).
  { intros j mj amj tj Hji Hj Haj Htj HRj x Hx.
    destruct (holds_alive (heap w) tj x) as [n Hn]; [apply HRj|done|]. rewrite Hn.
    apply (upd_frame _ _ _ _ _ _ HU); [done|]. intros Hmine.
    eapply (wr_apart _ _ _ Hw i j m t tj); [done|done|eauto|done..]. }
  assert (Hfresh : ∀ j mj amj tj x, maps w !! j = Some mj → a !! j = Some amj → ts !! j = Some tj →
    inl tj x → heap w !! x ≠ None).
  { intros j mj amj tj x Hj Haj Htj Hx Hn. destruct (wr_map _ _ _ Hw j mj amj Hj Haj) as (tj' & Htj' & HRj).
    rewrite Htj in Htj'. injection Htj' as <-.
    destruct (holds_alive (heap w) tj x) as [n Hn']; [apply HRj|done|congruence]. }
  split; cbn [maps heap].
  - intros j. destruct (decide (j = i)) as [->|Hji]; [rewrite !lookup_insert_eq; split; eauto|].
    rewrite !lookup_insert_ne by done. apply Hw.
  - intros j mj amj. destruct (decide (j = i)) as [->|Hji].
    + rewrite !lookup_insert_eq. intros [= <-] [= <-]. eauto.
    + rewrite !lookup_insert_ne by done. intros Hj Haj. destruct (wr_map _ _ _ Hw j mj amj Hj Haj) as (tj & Htj & HRj).
      exists tj. split; [done|]. eapply map_rel_frame; [done|]. by eapply Hframe.
  - intros j k mj tj tk x Hjk Hj Hk Htj Htk Hmine Hin.
    destruct (decide (j = i)) as [->|Hji].
    + rewrite lookup_insert_eq in Hj; rewrite lookup_insert_eq in Htj. injection Hj as <-. injection Htj as <-. rewrite Hc in Hmine.
      rewrite lookup_insert_ne in Hk by done; rewrite lookup_insert_ne in Htk by done.
      destruct Hk as [mk Hk]. destruct (proj1 (wr_dom _ _ _ Hw k)) as [amk Hak]; [eauto|].
      destruct (upd_mine _ _ _ _ _ _ HU x Hmine) as [Hm|Hn]; [|by eapply Hfresh].
      eapply (wr_apart _ _ _ Hw i k); eauto.
    + rewrite lookup_insert_ne in Hj by done; rewrite lookup_insert_ne in Htj by done. destruct (decide (k = i)) as [->|Hki].
      * rewrite lookup_insert_eq in Htk. injection Htk as <-.
        destruct (proj1 (wr_dom _ _ _ Hw j)) as [amj Haj]; [eauto|].
        destruct (upd_new _ _ _ _ _ _ HU x Hin) as [Hx|Hn]; [|by eapply Hfresh; [..|by eapply mine_inl|]].
        eapply (wr_apart _ _ _ Hw j i); eauto.
      * rewrite lookup_insert_ne in Hk by done; rewrite lookup_insert_ne in Htk by done. by eapply (wr_apart _ _ _ Hw j k).
Qed.

(** A new map whose nodes are new or shared. *)
Lemma world_new w a ts j m am t h' :
  world_rel w a ts → maps w !! j = None → a !! j = None →
  (∀ x n, heap w !! x = Some n → h' !! x = Some n) → map_rel h' m am t →
  (∀ x, inl t x → (∃ n, h' !! x = Some n ∧ cowid n = 0) ∨ heap w !! x = None) →
  (∀ x, mine (cowid_ m) t x → heap w !! x = None) →
  world_rel (mkWorld h' (<[j := m]> (maps w))) (<[j := am]> a) (<[j := t]> ts).
Proof.
  intros Hw Hj Haj Hsub HR Hnew Hmine.
  assert (Hold : ∀ i mi ami ti x, maps w !! i = Some mi → a !! i = Some ami → ts !! i = Some ti →
    inl ti x → ∃ n, heap w !! x = Some n ∧ h' !! x = Some n ∧ At ti x n ∧ 0 < cowid_ mi).
  { intros i mi ami ti x Hi Hai Hti [n Hn]. destruct (wr_map _ _ _ Hw i mi ami Hi Hai) as (ti' & Hti' & HRi).
    rewrite Hti in Hti'. injection Hti' as <-. exists n.
    pose proof (mo_holds _ _ _ _ _ (mr_ok _ _ _ _ HRi) x n Hn).
    split_and!; [done|by apply Hsub|done|apply HRi]. }
  split; cbn [maps heap].
  - intros i. destruct (decide (i = j)) as [->|Hij]; [rewrite !lookup_insert_eq; split; eauto|].
    rewrite !lookup_insert_ne by done. apply Hw.
  - intros i mi ami. destruct (decide (i = j)) as [->|Hij].
    + rewrite !lookup_insert_eq. intros [= <-] [= <-]. eauto.
    + rewrite !lookup_insert_ne by done. intros Hi Hai. destruct (wr_map _ _ _ Hw i mi ami Hi Hai) as (ti & Hti & HRi).
      exists ti. split; [done|]. eapply map_rel_frame; [done|]. intros x Hx.
      destruct (Hold i mi ami ti x Hi Hai Hti Hx) as (n & -> & -> & _). done.
  - intros i k mi ti tk x Hik Hi Hk Hti Htk Hm Hin.
    destruct (decide (i = j)) as [->|Hij].
    + rewrite lookup_insert_eq in Hi; rewrite lookup_insert_eq in Hti. injection Hi as <-. injection Hti as <-.
      rewrite lookup_insert_ne in Hk by done; rewrite lookup_insert_ne in Htk by done.
      destruct Hk as [mk Hk]. destruct (proj1 (wr_dom _ _ _ Hw k)) as [amk Hak]; [eauto|].
      destruct (Hold k mk amk tk x Hk Hak Htk Hin) as (n & Hn & _). rewrite (Hmine x Hm) in Hn. done.
    + rewrite lookup_insert_ne in Hi by done; rewrite lookup_insert_ne in Hti by done. destruct (proj1 (wr_dom _ _ _ Hw i)) as [ami Hai]; [eauto|].
      destruct (decide (k = j)) as [->|Hkj].
      * rewrite lookup_insert_eq in Htk. injection Htk as <-. pose proof Hm as (n & Hn & Hc).
        destruct (Hold i mi ami ti x Hi Hai Hti ltac:(by exists n)) as (n' & Hh & Hh' & _ & Hpos).
        destruct (wr_map _ _ _ Hw i mi ami Hi Hai) as (ti' & Hti' & HRi).
        rewrite Hti in Hti'. injection Hti' as <-.
        pose proof (mo_holds _ _ _ _ _ (mr_ok _ _ _ _ HRi) x n Hn) as Hh2.
        destruct (Hnew x Hin) as [(n2 & Hn2 & Hz)|?]; [|congruence].
        assert (n = n2) as <- by congruence. lia.
      * rewrite lookup_insert_ne in Hk by done; rewrite lookup_insert_ne in Htk by done. by eapply (wr_apart _ _ _ Hw i k).
Qed.

(** ** One call *)

Lemma evo_any K c h t h' t' : evo K c h t h' t' → evo anyt c h t h' t'.
Proof. intros HU. split; try apply HU. done. Qed.

(** What a call must achieve. *)
Definition refines (cmd : Cmd) (h : gmap loc TreeNode) (m : SHAMap) (t : ltree) (r : Res) (am' : AMap) : Prop :=
  ∃ h' m' t', call sha512Half cmd (mkMemory h m) = (Return r, mkMemory h' m') ∧
    evo anyt (cowid_ m) h t h' t' ∧ cowid_ m' = cowid_ m ∧ map_rel h' m' am' t'.

Lemma valid_itemb_true it : valid_itemb it = true → valid_item it.
Proof.
  unfold valid_itemb, valid_item, valid_key. rewrite !andb_true_iff, Z.leb_le, Z.ltb_lt, Nat.leb_le. tauto.
Qed.

Lemma valid_keyb_true k : valid_keyb k = true → valid_key k.
Proof. unfold valid_keyb, valid_key. by rewrite andb_true_iff, Z.leb_le, Z.ltb_lt. Qed.

(** A call that only reads. *)
Lemma refines_read cmd h m am t r :
  map_rel h m am t → call sha512Half cmd (mkMemory h m) = (Return r, mkMemory h m) → refines cmd h m t r am.
Proof.
  intros HR Hrun. pose proof (mr_ok _ _ _ _ HR) as Hm. exists h, m, t. split_and!; [done| |done|done].
  apply evo_refl; apply Hm.
Qed.

(** A call that changed the items. *)
Lemma refines_mutated h m am t ty (o : op bool) P its :
  map_rel h m am t → frozen am = false → ty = aty am → mutated sha512Half ty h m t (o (mkMemory h m)) P →
  (∀ t', pfx ty 0 0 t' → P t' → ∀ x, x ∈ items t' ↔ its !! key x = Some (peekData x)) →
  ∃ h' m' t', (b ← o; mret (RBool b)) (mkMemory h m) = (Return (RBool true), mkMemory h' m') ∧
    evo anyt (cowid_ m) h t h' t' ∧ cowid_ m' = cowid_ m ∧ map_rel h' m' (set_items am its) t'.
Proof.
  intros HR Hf -> (h' & t' & Hrun & Hok & HU & HP) Hits.
  exists h', (with_root m (lroot t')), t'. split_and!; [|by eapply evo_any|done|].
  - by erewrite ST_bind_return by exact Hrun.
  - split; cbn; [done|apply HR|apply HR|apply HR|congruence|].
    intros x. apply Hits; [apply Hok|done].
Qed.

Lemma call_add h m am t i ty it r am' :
  map_rel h m am t → amap_step sha512Half am (Add i ty it) = Some (r, am') → refines (Add i ty it) h m t r am'.
Proof.
  intros HR. pose proof (mr_ok _ _ _ _ HR) as Hm. cbn [amap_step].
  destruct (bool_decide (ty = aty am) && negb (frozen am) && valid_itemb it) eqn:Hg; [|done].
  apply andb_prop in Hg as [[Hty%bool_decide_eq_true Hf%negb_true_iff]%andb_prop Hv%valid_itemb_true]. subst ty.
  pose proof (mr_state _ _ _ _ HR) as Hst. rewrite Hf in Hst.
  pose proof (mr_has_key _ _ _ _ (key it) HR) as Hkey.
  destruct (add_ok sha512Half (aty am) h m t it Hm Hst (mr_ty _ _ _ _ HR) Hv) as [[Hhas Hrun]|[Hno Hmut]].
  - destruct (proj1 Hkey Hhas) as [d ->]. intros [= <- <-]. apply refines_read; [done|]. cbn [call].
    by erewrite ST_bind_return by exact Hrun.
  - destruct (items_ am !! key it) as [d|] eqn:Hd; [exfalso; apply Hno, Hkey; eauto|]. intros [= <- <-].
    eapply refines_mutated; [done|done|done|exact Hmut|]. intros t' _ Hput x. rewrite (Hput x).
    rewrite (mr_items _ _ _ _ HR). destruct (decide (key x = key it)) as [He|Hne].
    + rewrite He, lookup_insert_eq. destruct x, it; cbn in *. naive_solver congruence.
    + rewrite lookup_insert_ne by done. naive_solver.
Qed.

Lemma call_update h m am t i ty it r am' :
  map_rel h m am t → amap_step sha512Half am (Update i ty it) = Some (r, am') → refines (Update i ty it) h m t r am'.
Proof.
  intros HR. pose proof (mr_ok _ _ _ _ HR) as Hm. cbn [amap_step].
  destruct (bool_decide (ty = aty am) && negb (frozen am) && valid_itemb it) eqn:Hg; [|done].
  apply andb_prop in Hg as [[Hty%bool_decide_eq_true Hf%negb_true_iff]%andb_prop Hv%valid_itemb_true]. subst ty.
  pose proof (mr_state _ _ _ _ HR) as Hst. rewrite Hf in Hst.
  destruct (items_ am !! key it) as [d|] eqn:Hd; [|done].
  destruct (collide sha512Half (aty am) it d) eqn:Hcoll; [done|]. intros [= <- <-].
  eapply refines_mutated; [done|done|done|eapply (update_ok sha512Half (aty am)); [done|done|done| |]|].
  - apply (mr_has_key _ _ _ _ _ HR). eauto.
  - intros x Hx%(mr_items _ _ _ _ HR) Hk Hh. rewrite Hk, Hd in Hx. injection Hx as ->.
    destruct x as [k dx], it as [ki di]. cbn in *. subst ki. f_equal.
    unfold collide in Hcoll. cbn in Hcoll. rewrite bool_decide_eq_true_2 in Hcoll by done.
    apply bool_decide_eq_false in Hcoll. by destruct (decide (dx = di)).
  - intros t' _ Hput x. rewrite (Hput x), (mr_items _ _ _ _ HR).
    destruct (decide (key x = key it)) as [He|Hne].
    + rewrite He, lookup_insert_eq. destruct x, it; cbn in *. naive_solver congruence.
    + rewrite lookup_insert_ne by done. naive_solver.
Qed.

Lemma call_delete h m am t i k r am' :
  map_rel h m am t → amap_step sha512Half am (Delete i k) = Some (r, am') → refines (Delete i k) h m t r am'.
Proof.
  intros HR. pose proof (mr_ok _ _ _ _ HR) as Hm. cbn [amap_step].
  destruct (negb (frozen am) && valid_keyb k) eqn:Hg; [|done].
  apply andb_prop in Hg as [Hf%negb_true_iff Hv%valid_keyb_true].
  pose proof (mr_state _ _ _ _ HR) as Hst. rewrite Hf in Hst.
  pose proof (mr_has_key _ _ _ _ k HR) as Hkey.
  destruct (delete_ok sha512Half (aty am) h m t k Hm Hst (mr_ty _ _ _ _ HR) Hv) as [[Hno Hrun]|[Hhas Hmut]].
  - destruct (items_ am !! k) as [d|] eqn:Hd; [exfalso; apply Hno, Hkey; eauto|]. intros [= <- <-].
    apply refines_read; [done|]. cbn [call]. by erewrite ST_bind_return by exact Hrun.
  - destruct (proj1 Hkey Hhas) as [d ->]. intros [= <- <-].
    eapply refines_mutated; [done|done|done|exact Hmut|]. intros t' _ Hdel x. rewrite (Hdel x), (mr_items _ _ _ _ HR).
    rewrite lookup_delete_Some. naive_solver.
Qed.

Lemma call_lookup h m am t i k r am' :
  map_rel h m am t → amap_step sha512Half am (Lookup i k) = Some (r, am') → refines (Lookup i k) h m t r am'.
Proof.
  intros HR. cbn [amap_step]. destruct (valid_keyb k) eqn:Hv; [|done]. apply valid_keyb_true in Hv.
  intros [= <- <-]. apply refines_read; [done|]. cbn [call].
  destruct (peekItem_run sha512Half (aty am) h m t k (mr_ok _ _ _ _ HR) Hv) as (o & Hrun & Ho).
  erewrite ST_bind_return by exact Hrun. destruct o as [x|].
  - destruct Ho as [Hx%(mr_items _ _ _ _ HR) <-]. rewrite Hx. by destruct x.
  - rewrite (mr_has_key _ _ _ _ k HR) in Ho. apply eq_None_not_Some in Ho. by rewrite Ho.
Qed.

Lemma call_next h m am t i k r am' :
  map_rel h m am t → amap_step sha512Half am (Next i k) = Some (r, am') → refines (Next i k) h m t r am'.
Proof.
  intros HR. cbn [amap_step]. destruct (valid_keyb k) eqn:Hv; [|done]. apply valid_keyb_true in Hv.
  intros [= <- <-]. apply refines_read; [done|]. cbn [call].
  pose proof (upper_bound_run sha512Half (aty am) h m t k (mr_ok _ _ _ _ HR) Hv) as Hrun.
  rewrite (mr_alist _ _ _ _ HR) in Hrun. unfold at_head in Hrun.
  destruct (filter _ (alist (items_ am))) as [|y rest]; [by erewrite ST_bind_return by exact Hrun|].
  destruct Hrun as (l & s & Hrun & _). by erewrite ST_bind_return by exact Hrun.
Qed.

Lemma call_items h m am t i r am' :
  map_rel h m am t → amap_step sha512Half am (Items i) = Some (r, am') → refines (Items i) h m t r am'.
Proof.
  intros HR [= <- <-]. apply refines_read; [done|]. cbn [call].
  erewrite ST_bind_return by (eapply for_each_run, HR). by rewrite (mr_alist _ _ _ _ HR).
Qed.

(** The hash is computed; the map may be frozen afterwards. *)
Lemma call_hash h m am t i r am' :
  map_rel h m am t → amap_step sha512Half am (Hash i) = Some (r, am') → refines (Hash i) h m t r am'.
Proof.
  intros HR [= <- <-]. pose proof (mr_ok _ _ _ _ HR) as Hm.
  destruct (getHash_run sha512Half (aty am) h m t Hm) as (h' & t' & Hrun & HU & He).
  exists h', (with_root m (lroot t')), t'. split_and!; [|by eapply evo_any|done|].
  - cbn [call]. erewrite ST_bind_return by exact Hrun. by rewrite (mr_hash _ _ _ _ HR).
  - split; try apply HR; [by eapply map_ok_evo|intros _; apply HU|]. rewrite He. apply HR.
Qed.

Lemma call_freeze h m am t i r am' :
  map_rel h m am t → amap_step sha512Half am (Freeze i) = Some (r, am') → refines (Freeze i) h m t r am'.
Proof.
  intros HR [= <- <-]. pose proof (mr_ok _ _ _ _ HR) as Hm.
  destruct (getHash_run sha512Half (aty am) h m t Hm) as (h' & t' & Hrun & HU & He).
  pose proof (map_ok_evo _ _ _ _ _ _ _ Hm HU He) as Hok.
  exists h', (mkMap (cowid_ m) (lroot t') Immutable), t'. split_and!; [|by eapply evo_any|done|].
  - cbn [call]. erewrite ST_bind_return; [by rewrite <- (mr_hash _ _ _ _ HR)|]. unfold freeze.
    erewrite ST_bind_return by exact Hrun. unfold setImmutable.
    erewrite ST_bind_return; [done|]. erewrite ST_bind_return by done. cbn [this with_root state_].
    rewrite (mr_state _ _ _ _ HR). by destruct (frozen am).
  - split; cbn; [|apply HR|done|apply HR|intros _; apply HU|rewrite He; apply HR].
    split; apply Hok.
Qed.

Lemma call_ok h m am t cmd r am' :
  map_rel h m am t → amap_step sha512Half am cmd = Some (r, am') → refines cmd h m t r am'.
Proof.
  destruct cmd; eauto using call_add, call_update, call_delete, call_lookup, call_next, call_items, call_hash, call_freeze.
  all: done.
Qed.

(** ** Any sequence of calls *)

Lemma on_map_ok w a ts i cmd am r am' :
  world_rel w a ts → a !! i = Some am → amap_step sha512Half am cmd = Some (r, am') →
  ∃ w' ts', on_map i (call sha512Half cmd) w = (Return r, w') ∧ world_rel w' (<[i := am']> a) ts'.
Proof.
  intros Hw Ha Hstep. destruct (proj2 (wr_dom _ _ _ Hw i)) as [m Hi]; [eauto|].
  destruct (wr_map _ _ _ Hw i m am Hi Ha) as (t & Ht & HR).
  destruct (call_ok _ _ _ _ _ _ _ HR Hstep) as (h' & m' & t' & Hrun & HU & Hc & HR').
  unfold on_map. rewrite Hi, Hrun. eexists _, (<[i := t']> ts). split; [done|]. by eapply world_upd.
Qed.

Lemma new_ok w a ts j ty :
  world_rel w a ts → a !! j = None → ty ≠ tnINNER →
  ∃ w' ts', cstep sha512Half (New j ty) w = (Return RUnit, w') ∧ world_rel w' (<[j := mkAMap ty ∅ false 1]> a) ts'.
Proof.
  intros Hw Ha Hty. set (l := fresh (dom (heap w))).
  assert (Hl : heap w !! l = None) by (apply not_elem_of_dom, is_fresh).
  assert (Hj : maps w !! j = None).
  { apply eq_None_not_Some. rewrite (wr_dom _ _ _ Hw j), Ha. by intros []. }
  eexists _, (<[j := vacant 1 l]> ts). split; [done|]. apply world_new; try done.
  - intros x n Hx. rewrite lookup_insert_ne; [done|]. fold l. congruence.
  - destruct (vacant_ok sha512Half 1 (<[l := new_inner 1]> (heap w)) l) as (Hh & Hu & Hlok); [apply lookup_insert_eq|].
    assert (Hnone : ∀ x, x ∉ items (erase (vacant 1 l))).
    { intros x (i & c & (hc & t & []%vacant_lookup & _)%erase_child & _)%elem_of_items. }
    split; cbn; [|done|done|done|done|].
    + split; try done; [unfold vacant; eauto|]. apply pfx_inner. split_and!; [lia|done|]. by intros ? ? ? []%vacant_lookup.
    + intros x. rewrite lookup_empty. split; [by intros ?%Hnone|done].
  - intros x ->%inl_vacant. by right.
  - by intros x ->%mine_inl%inl_vacant.
Qed.

Lemma snapshot_ok w a ts i j am isMutable :
  world_rel w a ts → a !! i = Some am → a !! j = None → gen am + 1 < 2 ^ 32 →
  ∃ w' ts', cstep sha512Half (Snapshot i j isMutable) w = (Return RUnit, w') ∧
    world_rel w' (<[j := mkAMap (aty am) (items_ am) (negb isMutable) (gen am + 1)]> a) ts'.
Proof.
  intros Hw Ha Hj Hgen. destruct (proj2 (wr_dom _ _ _ Hw i)) as [m Hi]; [eauto|].
  destruct (wr_map _ _ _ Hw i m am Hi Ha) as (t & Ht & HR). pose proof (mr_ok _ _ _ _ HR) as Hm.
  destruct (snapShot_run sha512Half (aty am) (heap w) m t isMutable Hm) as (h' & t' & Hrun & Hok & Hcl & He & Hsub & Hin).
  { by rewrite (mr_gen _ _ _ _ HR). }
  { intros -> Hst. apply HR. rewrite (mr_state _ _ _ _ HR) in Hst. by destruct (frozen am). }
  assert (Hj' : maps w !! j = None).
  { apply eq_None_not_Some. rewrite (wr_dom _ _ _ Hw j), Hj. by intros []. }
  eexists _, (<[j := t']> ts). split.
  - cbn [cstep]. unfold on_map. rewrite Hi, Hrun. cbn [nodes_ this heap maps]. by rewrite (insert_id (maps w) i m).
  - apply world_new; try done.
    + split; cbn; [done|apply HR|by destruct isMutable|by rewrite (mr_gen _ _ _ _ HR)|done|rewrite He; apply HR].
    + intros x [n Hn]. left. exists n. split; [by apply Hok|by eapply clean_cowid].
    + cbn. intros x Hx. exfalso. eapply mine_clean; [|done|done]. pose proof (mo_cowid _ _ _ _ _ Hm). lia.
Qed.

Lemma step_ok w a ts cmd r a' :
  world_rel w a ts → astep sha512Half cmd a = Some (r, a') →
  ∃ w' ts', cstep sha512Half cmd w = (Return r, w') ∧ world_rel w' a' ts'.
Proof.
  intros Hw. destruct cmd as [j ty|i ty it|i ty it|i k|i k|i k|i|i|i j b|i]; cbn [astep].
  1: { destruct (bool_decide (a !! j = None) && bool_decide (ty ≠ tnINNER)) eqn:Hg; [|done].
       apply andb_prop in Hg as [?%bool_decide_eq_true ?%bool_decide_eq_true]. intros [= <- <-]. by eapply new_ok. }
  8: { intros (am & Ha & H)%bind_Some. destruct (bool_decide (a !! j = None) && (gen am + 1 <? 2 ^ 32)) eqn:Hg; [|done].
       apply andb_prop in Hg as [?%bool_decide_eq_true ?%Z.ltb_lt]. injection H as <- <-. by eapply snapshot_ok. }
  all: intros (am & Ha & ([r' am'] & Hstep & [= <- <-])%bind_Some)%bind_Some; cbn [cstep]; eapply on_map_ok; [done|done|exact Hstep].
Qed.

Lemma run_ok cmds w a ts rs a' :
  world_rel w a ts → arun sha512Half cmds a = Some (rs, a') →
  ∃ w' ts', crun sha512Half cmds w = (Return rs, w') ∧ world_rel w' a' ts'.
Proof.
  revert w a ts rs. induction cmds as [|cmd cmds IH]; intros w a ts rs Hw; cbn [arun crun].
  { intros [= <- <-]. eauto. }
  intros ([r a1] & Hstep & ([rs1 a2] & Hrest & [= <- <-])%bind_Some)%bind_Some.
  destruct (step_ok _ _ _ _ _ _ Hw Hstep) as (w1 & ts1 & Hrun & Hw1).
  destruct (IH _ _ _ _ Hw1 Hrest) as (w2 & ts2 & Hrun2 & Hw2).
  exists w2, ts2. split; [|done]. erewrite ST_bind_return by exact Hrun. by erewrite ST_bind_return by exact Hrun2.
Qed.

Lemma arun_app cmds1 cmds2 a a1 a2 rs1 rs2 :
  arun sha512Half cmds1 a = Some (rs1, a1) → arun sha512Half cmds2 a1 = Some (rs2, a2) →
  arun sha512Half (cmds1 ++ cmds2) a = Some (rs1 ++ rs2, a2).
Proof.
  revert a rs1. induction cmds1 as [|cmd cmds1 IH]; intros a rs1; cbn [app arun].
  { intros [= <- <-] H2. by rewrite app_nil_l. }
  intros ([r a3] & Hstep & ([rs a4] & Hrest & [= <- <-])%bind_Some)%bind_Some H2.
  rewrite Hstep. cbn. by rewrite (IH _ _ Hrest H2).
Qed.

Lemma world_init : world_rel (mkWorld ∅ ∅) ∅ ∅.
Proof.
  split; cbn; intros *; rewrite ?lookup_empty; done.
Qed.
End refine.
