(* ===== verification/SHAMapWire.v ===== *)
(** * The serialised forms of a node

    The hash of a node is the digest of its form with a prefix; both forms can
    be read back. *)
From S2P Require Import Prelude Outcome Bytes Serializer SerializerSpec SHAMapNode.

(** The code appends exactly [bs] to the buffer. *)
Definition appends {A} (m : ST (list Z) A) (bs : list Z) : Prop := ∀ d, ∃ r, m d = (Return r, d ++ bs).

Lemma appends_ret {A} (a : A) : appends (mret a) [].
Proof. intros d. exists a. by rewrite app_nil_r. Qed.

Lemma appends_bind {A B} (m : ST (list Z) A) (k : A → ST (list Z) B) b1 b2 bs :
  appends m b1 → (∀ a, appends (k a) b2) → bs = b1 ++ b2 → appends (m ≫= k) bs.
Proof.
  intros Hm Hk -> d. destruct (Hm d) as [a Ha]. destruct (Hk a (d ++ b1)) as [b Hb].
  exists b. erewrite ST_bind_return by exact Ha. by rewrite Hb, (assoc_L (++)).
Qed.

Lemma appends_addRaw v : appends (addRaw v) v.
Proof. intros d. by eexists. Qed.

Lemma appends_add8 i : appends (add8 i) [u8 i].
Proof. intros d. by eexists. Qed.

Lemma appends_add32 i : appends (add32 i) (be_bytes 4 i).
Proof.
  intros d. unfold add32. erewrite ST_bind_return by done.
  do 4 erewrite ST_bind_return by apply push_back_run.
  eexists. unfold mret, ST_ret. f_equal. rewrite <- !(assoc_L (++)). cbn [be_bytes app].
  rewrite !u8_land. by rewrite Z.shiftr_0_r.
Qed.

(** ** The bytes *)

Definition empty_node (bs : list (option branch)) : Prop := Forall (λ b : option branch, b = None) bs.

Definition hashes_bytes (hs : list Z) : list Z := concat (uint256_bytes <$> hs).

Fixpoint compressed_bytes (i : nat) (bs : list (option branch)) : list Z :=
  match bs with
  | [] => []
  | None :: bs => compressed_bytes (S i) bs
  | Some (h, _) :: bs => (uint256_bytes h ++ [Z.of_nat i]) ++ compressed_bytes (S i) bs
  end.

Definition prefix_bytes (n : TreeNode) : list Z :=
  match n with
  | InnerNode _ _ bs => be_bytes 4 HashPrefix_innerNode ++ hashes_bytes (child_hashes bs)
  | LeafNode _ _ tnTRANSACTION_NM i => be_bytes 4 HashPrefix_transactionID ++ peekData i
  | LeafNode _ _ tnTRANSACTION_MD i => be_bytes 4 HashPrefix_txNode ++ peekData i ++ uint256_bytes (key i)
  | LeafNode _ _ _ i => be_bytes 4 HashPrefix_leafNode ++ peekData i ++ uint256_bytes (key i)
  end.

Definition wire_bytes (n : TreeNode) : list Z :=
  match n with
  | InnerNode _ _ bs =>
    if (getBranchCount bs <? 12)%nat then compressed_bytes 0 bs ++ [wireTypeCompressedInner]
    else hashes_bytes (child_hashes bs) ++ [wireTypeInner]
  | LeafNode _ _ tnTRANSACTION_NM i => peekData i ++ [wireTypeTransaction]
  | LeafNode _ _ tnTRANSACTION_MD i => (peekData i ++ uint256_bytes (key i)) ++ [wireTypeTransactionWithMeta]
  | LeafNode _ _ _ i => (peekData i ++ uint256_bytes (key i)) ++ [wireTypeAccountState]
  end.

Lemma appends_hashes hs : appends (add_hashes hs) (hashes_bytes hs).
Proof.
  induction hs as [|h hs IH]; [apply appends_ret|]. cbn [add_hashes].
  by eapply appends_bind; [apply appends_addRaw|intros _; apply IH|].
Qed.

Lemma appends_compressed i bs :
  (i + length bs ≤ 16)%nat → appends (add_compressed (Z.of_nat i) bs) (compressed_bytes i bs).
Proof.
  revert i. induction bs as [|b bs IH]; intros i Hi; [apply appends_ret|]. cbn [add_compressed compressed_bytes].
  replace (Z.of_nat i + 1) with (Z.of_nat (S i)) by lia. cbn [length] in Hi.
  destruct b as [[h p]|]; [|apply IH; lia].
  eapply appends_bind; [apply appends_addRaw| |by rewrite <- (assoc_L (++))]. intros _.
  eapply appends_bind; [apply appends_add8|intros _; apply IH; lia|]. rewrite u8_id by lia. done.
Qed.

Lemma serializeWithPrefix_bytes n :
  match n with InnerNode _ _ bs => ¬ empty_node bs | _ => True end → appends (serializeWithPrefix n) (prefix_bytes n).
Proof.
  destruct n as [c h bs|c h ty i]; intros Hne; cbn [serializeWithPrefix].
  - intros d. rewrite bool_decide_eq_false_2 by done. erewrite ST_bind_return by done. revert d.
    by eapply appends_bind; [apply appends_add32|intros _; apply appends_hashes|].
  - destruct ty; cbn [prefix_bytes].
    all: eapply appends_bind; [apply appends_add32|intros _|done].
    all: eapply appends_bind; [apply appends_addRaw|intros _;
      first [apply appends_ret | eapply appends_bind; [apply appends_addRaw|intros _; apply appends_ret|done]]|].
    all: by rewrite ?app_nil_r.
Qed.

Lemma serializeForWire_bytes n :
  match n with InnerNode _ _ bs => ¬ empty_node bs ∧ length bs = branchFactor | _ => True end →
  appends (serializeForWire n) (wire_bytes n).
Proof.
  destruct n as [c h bs|c h ty i]; cbn [serializeForWire wire_bytes].
  - intros [Hne Hlen] d. rewrite bool_decide_eq_false_2 by done. erewrite ST_bind_return by done. revert d.
    destruct (getBranchCount bs <? 12)%nat.
    + eapply appends_bind; [apply (appends_compressed 0); rewrite Hlen; unfold branchFactor; lia|intros _|done].
      by eapply appends_bind; [apply appends_add8|intros _; apply appends_ret|].
    + eapply appends_bind; [apply appends_hashes|intros _|done].
      by eapply appends_bind; [apply appends_add8|intros _; apply appends_ret|].
  - intros _. destruct ty.
    all: eapply appends_bind; [apply appends_addRaw|intros _;
      eapply appends_bind; [apply appends_addRaw || apply appends_add8|intros _;
        first [apply appends_ret | eapply appends_bind; [apply appends_add8|intros _; apply appends_ret|done]]|done]|].
    all: by rewrite <- ?(assoc_L (++)).
Qed.

(** ** Reading back *)

Section read.
Context (sha512Half : list Z → Z).

(** The node on its own: no owner, no links, the hash recomputed. *)
Definition detached (n : TreeNode) : TreeNode :=
  updateHash sha512Half
    match n with
    | InnerNode _ _ bs => InnerNode 0 0 ((λ b : option branch, (λ x, (x.1, None)) <$> b) <$> bs)
    | LeafNode _ _ t i => LeafNode 0 0 t i
    end.

(** Nodes of a map: hashes are 256 bits wide and not zero; items are long
    enough; a transaction is filed under its own hash and no state entry is
    filed under zero. *)
Definition node_ok (n : TreeNode) : Prop :=
  match n with
  | InnerNode _ _ bs =>
    length bs = branchFactor ∧ ¬ empty_node bs ∧ ∀ h p, Some (h, p) ∈ bs → 0 < h < 2 ^ 256
  | LeafNode _ _ ty i =>
    (12 ≤ length (peekData i))%nat ∧ Z.of_nat (length (peekData i)) < 2 ^ 31 - 64 ∧ 0 ≤ key i < 2 ^ 256 ∧
    match ty with
    | tnINNER => False
    | tnTRANSACTION_NM => key i = sha512Half (be_bytes 4 HashPrefix_transactionID ++ peekData i)
    | tnTRANSACTION_MD => True
    | tnACCOUNT_STATE => key i ≠ 0
    end
  end.

Lemma length_uint256 x : length (uint256_bytes x) = 32%nat.
Proof. apply length_be_bytes. Qed.

Lemma get_uint256_at d pre x post :
  d = pre ++ uint256_bytes x ++ post → 0 ≤ x < 2 ^ 256 → Z.of_nat (length d) < 2 ^ 62 →
  get_uint256 d (Z.of_nat (length pre)) = Return (Some x).
Proof.
  intros -> Hx Hlen. unfold get_uint256, getBitString.
  rewrite !length_app, length_uint256 in *.
  rewrite u64_id, (proj2 (Z.leb_le _ _)), (proj2 (Z.ltb_ge _ _)) by lia.
  cbn [mbind exc_bind option_map]. rewrite Nat2Z.id, drop_app_length.
  change (Z.to_nat 32) with 32%nat. rewrite <- (length_uint256 x) at 1. rewrite take_app_length.
  do 2 f_equal. by apply (be_value_read 32).
Qed.

(** An item with its key behind the data. *)
Lemma tail_key data k :
  0 ≤ k < 2 ^ 256 → Z.of_nat (length data) < 2 ^ 31 - 64 →
  let d := data ++ uint256_bytes k in
  (Z.of_nat (length d) <? 32) = false ∧ get_uint256 d (Z.of_nat (length d) - 32) = Return (Some k) ∧
  chop 32 d = (Return true, data).
Proof.
  intros Hk Hlen d. assert (Hd : length d = (length data + 32)%nat) by (unfold d; by rewrite length_app, length_uint256).
  split_and!.
  - apply Z.ltb_ge. lia.
  - replace (Z.of_nat (length d) - 32) with (Z.of_nat (length data)) by lia.
    apply (get_uint256_at _ data k []); [by rewrite app_nil_r|done|lia].
  - unfold chop. erewrite ST_bind_return by done. change (u64 32) with 32.
    rewrite (proj2 (Z.ltb_ge _ _)) by lia. erewrite ST_bind_return by done.
    unfold mret, ST_ret. f_equal. rewrite Hd. change (Z.to_nat 32) with 32%nat.
    replace (length data + 32 - 32)%nat with (length data) by lia. unfold d. apply take_app_length.
Qed.

Lemma makeAccountState_read data k hash :
  0 < k < 2 ^ 256 → (12 ≤ length data)%nat → Z.of_nat (length data) < 2 ^ 31 - 64 →
  makeAccountState sha512Half (data ++ uint256_bytes k) hash =
  Return (LeafNode 0 (default (leaf_hash sha512Half tnACCOUNT_STATE (mkItem k data)) hash) tnACCOUNT_STATE (mkItem k data)).
Proof.
  intros Hk H12 Hlen. destruct (tail_key data k ltac:(lia) Hlen) as (H1 & H2 & H3).
  unfold makeAccountState. rewrite H1, H2. cbn [mbind exc_bind]. rewrite H3, (proj2 (Z.eqb_neq _ _)) by lia.
  destruct hash; unfold finish_leaf, new_leaf, new_leaf_hashed; cbn [peekData];
    by rewrite (proj2 (Nat.ltb_ge _ _)) by done.
Qed.

Lemma makeTransactionWithMeta_read data k hash :
  0 ≤ k < 2 ^ 256 → (12 ≤ length data)%nat → Z.of_nat (length data) < 2 ^ 31 - 64 →
  makeTransactionWithMeta sha512Half (data ++ uint256_bytes k) hash =
  Return (LeafNode 0 (default (leaf_hash sha512Half tnTRANSACTION_MD (mkItem k data)) hash) tnTRANSACTION_MD (mkItem k data)).
Proof.
  intros Hk H12 Hlen. destruct (tail_key data k Hk Hlen) as (H1 & H2 & H3).
  unfold makeTransactionWithMeta. rewrite H1, H2. cbn [mbind exc_bind]. rewrite H3.
  destruct hash; unfold finish_leaf, new_leaf, new_leaf_hashed; cbn [peekData];
    by rewrite (proj2 (Nat.ltb_ge _ _)) by done.
Qed.

Lemma makeTransaction_read data hash :
  (12 ≤ length data)%nat →
  makeTransaction sha512Half data hash =
  let i := mkItem (sha512Half (be_bytes 4 HashPrefix_transactionID ++ data)) data in
  Return (LeafNode 0 (default (leaf_hash sha512Half tnTRANSACTION_NM i) hash) tnTRANSACTION_NM i).
Proof.
  intros H12. unfold makeTransaction, finish_leaf, new_leaf, new_leaf_hashed. cbn [peekData].
  destruct hash; by rewrite (proj2 (Nat.ltb_ge _ _)) by done.
Qed.

(** ** Inner nodes *)

Definition slot_of (b : option branch) : bool * Z := match b with Some (h, _) => (true, h) | None => (false, 0) end.

Definition hashes_ok (bs : list (option branch)) : Prop := ∀ h p, Some (h, p) ∈ bs → 0 < h < 2 ^ 256.

Lemma parsed_slots bs :
  parsed_branches (slot_of <$> bs) = (λ b : option branch, (λ x, (x.1, None)) <$> b) <$> bs.
Proof.
  unfold parsed_branches. rewrite <- list_fmap_compose. apply list_fmap_ext. by intros i [[h p]|] _.
Qed.

Lemma hashes_ok_cons b bs : hashes_ok (b :: bs) → hashes_ok bs ∧ (∀ h p, b = Some (h, p) → 0 < h < 2 ^ 256).
Proof. intros H. split; [intros h p Hin; eapply H; by right|intros h p ->; eapply H; by left]. Qed.

Lemma full_loop_read bs d pre :
  hashes_ok bs → d = pre ++ hashes_bytes (child_hashes bs) → Z.of_nat (length d) < 2 ^ 62 →
  ∀ i, length pre = (32 * i)%nat → full_loop (length bs) (Z.of_nat i) d = Return (slot_of <$> bs).
Proof.
  intros Hok -> Hlen. revert pre Hlen. induction bs as [|b bs IH]; intros pre Hlen i Hi; [done|].
  apply hashes_ok_cons in Hok as [Hok Hb]. cbn [length full_loop].
  set (x := match b with Some (h, _) => h | None => 0 end).
  assert (Hx : 0 ≤ x < 2 ^ 256) by (destruct b as [[h p]|]; [specialize (Hb h p eq_refl); cbn; lia|cbn; lia]).
  assert (Hd : pre ++ hashes_bytes (child_hashes (b :: bs)) =
               pre ++ uint256_bytes x ++ hashes_bytes (child_hashes bs)) by done.
  replace (Z.of_nat i * 32) with (Z.of_nat (length pre)) by lia.
  rewrite (get_uint256_at _ pre x (hashes_bytes (child_hashes bs)) Hd Hx Hlen). cbn [mbind exc_bind default].
  rewrite Hd, (assoc_L (++)) in *. replace (Z.of_nat i + 1) with (Z.of_nat (S i)) by lia.
  rewrite IH; [|done|done|rewrite length_app, length_uint256; lia].
  cbn [mbind exc_bind fmap list_fmap]. do 2 f_equal.
  subst x. destruct b as [[h p]|]; cbn in *; [|done]. specialize (Hb h p eq_refl).
  by rewrite (proj2 (Z.eqb_neq h 0)) by lia.
Qed.

Lemma length_hashes hs : length (hashes_bytes hs) = (32 * length hs)%nat.
Proof.
  unfold hashes_bytes. induction hs as [|h hs IH]; [done|]. rewrite fmap_cons. cbn [concat].
  rewrite length_app, IH, length_uint256. cbn [length]. lia.
Qed.

Lemma makeFullInner_read bs hash :
  length bs = branchFactor → hashes_ok bs →
  let bs' := (λ b : option branch, (λ x, (x.1, None)) <$> b) <$> bs in
  makeFullInner sha512Half (hashes_bytes (child_hashes bs)) hash =
  Return (InnerNode 0 (default (inner_hash sha512Half bs') hash) bs').
Proof.
  intros Hlen Hok bs'. unfold makeFullInner.
  assert (Hsz : length (hashes_bytes (child_hashes bs)) = 512%nat).
  { rewrite length_hashes. unfold child_hashes. by rewrite length_fmap, Hlen. }
  rewrite Hsz. cbn [negb]. rewrite <- Hlen.
  pose proof (full_loop_read bs _ [] Hok eq_refl ltac:(cbn [app]; lia) 0 eq_refl) as Hfull.
  cbn [app] in Hfull. change (Z.of_nat 0) with 0 in Hfull. rewrite Hfull. cbn [mbind exc_bind].
  rewrite parsed_slots. by destruct hash.
Qed.

Lemma length_compressed i bs : length (compressed_bytes i bs) = (33 * getBranchCount bs)%nat.
Proof.
  revert i. unfold getBranchCount. induction bs as [|b bs IH]; intros i; [done|]. cbn [compressed_bytes].
  rewrite filter_cons. destruct b as [[h p]|].
  - rewrite decide_True by done. rewrite !length_app, IH, length_uint256. cbn [length]. lia.
  - rewrite decide_False by tauto. apply IH.
Qed.

Lemma get8_at d pre b post :
  d = pre ++ b :: post → Z.of_nat (length d) < 2 ^ 62 → Serializer_get8 d (Z.of_nat (length pre)) = Return (Some b).
Proof.
  intros -> Hlen. rewrite length_app in Hlen. cbn [length] in Hlen. unfold Serializer_get8, at_index.
  rewrite u64_id by lia. rewrite length_app. cbn [length].
  rewrite (proj2 (Z.leb_gt _ _)), (proj2 (Z.ltb_ge _ _)), Nat2Z.id by lia.
  by rewrite list_lookup_middle.
Qed.

(** The loop fills the slots from the left. *)
Lemma compressed_loop_read bs d :
  hashes_ok bs → Z.of_nat (length d) < 2 ^ 62 →
  ∀ i j pre front, d = pre ++ compressed_bytes i bs → length pre = (33 * j)%nat → length front = i →
    (i + length bs ≤ 16)%nat →
    compressed_loop (getBranchCount bs) (Z.of_nat j) d (front ++ replicate (length bs) (false, 0)) =
    Return (front ++ (slot_of <$> bs)).
Proof.
  intros Hok Hlen. induction bs as [|b bs IH]; intros i j pre front Hd Hj Hi H16; [done|].
  apply hashes_ok_cons in Hok as [Hok Hb]. cbn [length] in *. unfold getBranchCount. rewrite filter_cons.
  destruct b as [[h p]|].
  - rewrite decide_True by done. cbn [length compressed_loop compressed_bytes] in *. specialize (Hb h p eq_refl).
    assert (Hd1 : d = (pre ++ uint256_bytes h) ++ Z.of_nat i :: compressed_bytes (S i) bs)
      by (rewrite Hd, <- !(assoc_L (++)); done).
    replace (32 + Z.of_nat j * 33) with (Z.of_nat (length (pre ++ uint256_bytes h)))
      by (rewrite length_app, length_uint256; lia).
    rewrite (get8_at _ _ _ _ Hd1 Hlen). cbn [mbind exc_bind].
    rewrite (proj2 (Z.ltb_ge _ _)), (proj2 (Z.leb_gt _ _)) by lia. cbn [orb].
    replace (Z.of_nat j * 33) with (Z.of_nat (length pre)) by lia.
    rewrite (get_uint256_at d pre h ([Z.of_nat i] ++ compressed_bytes (S i) bs));
      [|by rewrite Hd, <- !(assoc_L (++))|lia|done].
    cbn [mbind exc_bind default replicate]. rewrite Nat2Z.id.
    assert (Hlk : (front ++ (false, 0) :: replicate (length bs) (false, 0)) !! i = Some (false, 0))
      by (by rewrite <- Hi, list_lookup_middle).
    rewrite Hlk. change (default (false, 0) (Some (false, 0))).1 with false. change (id h) with h. cbn [orb].
    rewrite (proj2 (Z.eqb_neq h 0)) by lia. cbn [negb].
    replace (Z.of_nat j + 1) with (Z.of_nat (S j)) by lia.
    rewrite <- Hi at 1. rewrite insert_app_r_alt by lia. rewrite Nat.sub_diag. cbn [insert list_insert].
    rewrite (cons_middle (true, h)), (assoc_L (++)).
    rewrite (IH Hok (S i) (S j) (pre ++ uint256_bytes h ++ [Z.of_nat i])).
    + by rewrite <- (assoc_L (++)).
    + by rewrite Hd, <- !(assoc_L (++)).
    + rewrite !length_app, length_uint256. cbn [length]. lia.
    + rewrite length_app. cbn [length]. lia.
    + lia.
  - rewrite decide_False by tauto. cbn [replicate compressed_bytes] in *.
    rewrite (cons_middle (false, 0)), (assoc_L (++)). fold (getBranchCount bs).
    rewrite (IH Hok (S i) j pre); [by rewrite <- (assoc_L (++))|done|done|rewrite length_app; cbn [length]; lia|lia].
Qed.

Lemma makeCompressedInner_read bs :
  length bs = branchFactor → hashes_ok bs →
  let bs' := (λ b : option branch, (λ x, (x.1, None)) <$> b) <$> bs in
  makeCompressedInner sha512Half (compressed_bytes 0 bs) = Return (InnerNode 0 (inner_hash sha512Half bs') bs').
Proof.
  intros Hlen Hok bs'. unfold makeCompressedInner.
  assert (Hc : (getBranchCount bs ≤ 16)%nat).
  { unfold getBranchCount. rewrite length_filter, Hlen. done. }
  pose proof (length_compressed 0 bs) as Hsz. rewrite int_size_small by lia. rewrite Hsz.
  replace (Z.quot (Z.of_nat (33 * getBranchCount bs)) 33) with (Z.of_nat (getBranchCount bs))
    by (rewrite Nat2Z.inj_mul, (Z.mul_comm (Z.of_nat 33)), Z.quot_mul; lia).
  rewrite Nat2Z.id.
  pose proof (compressed_loop_read bs (compressed_bytes 0 bs) Hok ltac:(lia) 0 0 [] [] eq_refl eq_refl eq_refl
    ltac:(rewrite Hlen; done)) as Hloop.
  cbn [app] in Hloop. change (Z.of_nat 0) with 0 in Hloop. rewrite Hlen in Hloop. rewrite Hloop.
  cbn [mbind exc_bind]. by rewrite parsed_slots.
Qed.

(** ** Both forms *)

Lemma makeFromWire_last body ty :
  makeFromWire sha512Half (body ++ [ty]) =
  if ty =? wireTypeTransaction then Some <$> makeTransaction sha512Half body None
  else if ty =? wireTypeAccountState then Some <$> makeAccountState sha512Half body None
  else if ty =? wireTypeInner then Some <$> makeFullInner sha512Half body None
  else if ty =? wireTypeCompressedInner then Some <$> makeCompressedInner sha512Half body
  else if ty =? wireTypeTransactionWithMeta then Some <$> makeTransactionWithMeta sha512Half body None
  else Throw "wire: Unknown type".
Proof.
  unfold makeFromWire. rewrite last_snoc, length_app. cbn [length].
  replace (length body + 1 - 1)%nat with (length body) by lia. by rewrite take_app_length.
Qed.

Lemma wire_read n : node_ok n → makeFromWire sha512Half (wire_bytes n) = Return (Some (detached n)).
Proof.
  destruct n as [c h bs|c h ty [k data]]; cbn [node_ok wire_bytes peekData key].
  - intros (Hlen & Hne & Hok). destruct (getBranchCount bs <? 12)%nat; rewrite makeFromWire_last;
      cbn [wireTypeTransaction wireTypeAccountState wireTypeInner wireTypeCompressedInner wireTypeTransactionWithMeta Z.eqb Pos.eqb].
    + by rewrite makeCompressedInner_read.
    + by rewrite makeFullInner_read.
  - intros (H12 & Hlen & Hk & Hty). destruct ty; [done|rewrite makeFromWire_last;
      cbn [wireTypeTransaction wireTypeAccountState wireTypeInner wireTypeCompressedInner wireTypeTransactionWithMeta Z.eqb Pos.eqb]..].
    + rewrite makeTransaction_read by done. cbn. by rewrite Hty.
    + by rewrite makeTransactionWithMeta_read.
    + by rewrite makeAccountState_read by lia.
Qed.

Lemma prefix_read n hash :
  node_ok n → makeFromPrefix sha512Half (prefix_bytes n) hash =
  Return match detached n with
         | InnerNode c _ bs => InnerNode c hash bs
         | LeafNode c _ t i => LeafNode c hash t i
         end.
Proof.
  destruct n as [c h bs|c h ty [k data]]; cbn [node_ok prefix_bytes peekData key].
  - intros (Hlen & Hne & Hok). change (be_bytes 4 HashPrefix_innerNode) with [77; 73; 78; 0].
    cbn [app makeFromPrefix]. cbv zeta. change (u32 _) with HashPrefix_innerNode. cbn [Z.eqb].
    change (HashPrefix_innerNode =? HashPrefix_transactionID) with false.
    change (HashPrefix_innerNode =? HashPrefix_leafNode) with false.
    change (HashPrefix_innerNode =? HashPrefix_innerNode) with true. cbv iota. by rewrite makeFullInner_read.
  - intros (H12 & Hlen & Hk & Hty). destruct ty; [done|..].
    + change (be_bytes 4 HashPrefix_transactionID) with [84; 88; 78; 0].
      cbn [app makeFromPrefix]. cbv zeta. change (u32 _) with HashPrefix_transactionID.
      change (HashPrefix_transactionID =? HashPrefix_transactionID) with true. cbv iota.
      rewrite makeTransaction_read by done. cbn. by rewrite Hty.
    + change (be_bytes 4 HashPrefix_txNode) with [83; 78; 68; 0].
      cbn [app makeFromPrefix]. cbv zeta. change (u32 _) with HashPrefix_txNode.
      change (HashPrefix_txNode =? HashPrefix_transactionID) with false.
      change (HashPrefix_txNode =? HashPrefix_leafNode) with false.
      change (HashPrefix_txNode =? HashPrefix_innerNode) with false.
      change (HashPrefix_txNode =? HashPrefix_txNode) with true. cbv iota.
      by rewrite makeTransactionWithMeta_read.
    + change (be_bytes 4 HashPrefix_leafNode) with [77; 76; 78; 0].
      cbn [app makeFromPrefix]. cbv zeta. change (u32 _) with HashPrefix_leafNode.
      change (HashPrefix_leafNode =? HashPrefix_transactionID) with false.
      change (HashPrefix_leafNode =? HashPrefix_leafNode) with true. cbv iota.
      by rewrite makeAccountState_read by lia.
Qed.

Lemma detached_empty bs :
  empty_node ((λ b : option branch, (λ x, (x.1, None)) <$> b) <$> bs) ↔ empty_node bs.
Proof. unfold empty_node. rewrite Forall_fmap. apply Forall_iff. by intros [[h p]|]. Qed.

Lemma hash_of_bytes n : node_ok n → getHash (detached n) = sha512Half (prefix_bytes n).
Proof.
  destruct n as [c h bs|c h ty i]; cbn [node_ok prefix_bytes].
  - intros (Hlen & Hne & Hok). cbn [detached updateHash getHash]. unfold inner_hash. rewrite bool_decide_eq_false_2 by (by rewrite detached_empty).
    assert (Hch : child_hashes ((λ b : option branch, (λ x, (x.1, None)) <$> b) <$> bs) = child_hashes bs).
    { unfold child_hashes. rewrite <- list_fmap_compose. apply list_fmap_ext. by intros j [[hh p]|] _. }
    by rewrite Hch.
  - intros (_ & _ & _ & Hty). by destruct ty.
Qed.
End read.
