(* ===== verification/SHAMapHash.v ===== *)
(** * What the hash of a tree says

    The digest of a node covers the digests of its children, so trees with the
    same root hash are the same unless two of the byte strings that were hashed
    collide. *)
From S2P Require Import Prelude Outcome Bytes Serializer SHAMapNode SHAMap SHAMapTree SHAMapLoc SHAMapOps SHAMapFlush SHAMapIter SHAMapWire.

(** ** Byte strings of equal length *)

Lemma uint256_inj x y : 0 ≤ x < 2 ^ 256 → 0 ≤ y < 2 ^ 256 → uint256_bytes x = uint256_bytes y → x = y.
Proof.
  intros Hx Hy H. rewrite <- (be_value_read 32 x), <- (be_value_read 32 y) by done.
  unfold uint256_bytes in H. by rewrite H.
Qed.

Lemma hashes_bytes_inj hs1 hs2 :
  length hs1 = length hs2 → Forall (λ x, 0 ≤ x < 2 ^ 256) hs1 → Forall (λ x, 0 ≤ x < 2 ^ 256) hs2 →
  hashes_bytes hs1 = hashes_bytes hs2 → hs1 = hs2.
Proof.
  revert hs2. induction hs1 as [|x hs1 IH]; intros [|y hs2] Hlen H1 H2 Heq; [done..|].
  apply Forall_cons in H1 as [Hx H1'], H2 as [Hy H2'].
  change (uint256_bytes x ++ hashes_bytes hs1 = uint256_bytes y ++ hashes_bytes hs2) in Heq.
  apply app_inj_1 in Heq as [Hxy Heq]; [|by rewrite !length_uint256].
  f_equal; [by apply uint256_inj|]. apply IH; [by injection Hlen|done..].
Qed.

Section hash.
Context (sha512Half : list Z → Z).

(** The digest is 256 bits wide; zero stands for no hash. *)
Context (Hsha : ∀ x, 0 < sha512Half x < 2 ^ 256).

(** What is hashed at the root of a tree. *)
Definition tree_branches (cs : list (option tree)) : list (option branch) :=
  (λ o : option tree, (λ c, (thash sha512Half c, None)) <$> o) <$> cs.

Definition node_bytes (t : tree) : list Z :=
  match t with
  | TLeaf ty it => prefix_bytes (LeafNode 0 0 ty it)
  | TInner cs => prefix_bytes (InnerNode 0 0 (tree_branches cs))
  end.

Definition tree_empty (t : tree) : Prop :=
  match t with TLeaf _ _ => False | TInner cs => Forall (λ o, o = None) cs end.

Lemma thash_inner cs : thash sha512Half (TInner cs) = inner_hash sha512Half (tree_branches cs).
Proof. done. Qed.

Lemma tree_branches_empty cs : empty_node (tree_branches cs) ↔ Forall (λ o, o = None) cs.
Proof. unfold empty_node, tree_branches. rewrite Forall_fmap. apply Forall_iff. by intros [c|]. Qed.

Lemma thash_bytes t : ¬ tree_empty t → thash sha512Half t = sha512Half (node_bytes t).
Proof.
  destruct t as [ty it|cs]; cbn [tree_empty].
  - intros _. cbn. by destruct ty.
  - intros Hne. rewrite thash_inner. unfold inner_hash.
    rewrite bool_decide_eq_false_2 by (by rewrite <- tree_branches_empty in Hne). done.
Qed.

Lemma thash_empty t : tree_empty t → thash sha512Half t = 0.
Proof.
  destruct t as [ty it|cs]; [done|]. cbn [tree_empty]. intros He. rewrite thash_inner. unfold inner_hash.
  by rewrite bool_decide_eq_true_2 by (by apply tree_branches_empty).
Qed.

Lemma wf_not_empty ty d p t : wf ty d p t → ¬ tree_empty t.
Proof.
  intros Hwf He. destruct (wf_nonempty _ _ _ _ Hwf) as [x Hx]. destruct t as [ty' it|cs]; [done|].
  cbn in He. apply elem_of_items in Hx as (i & c & Hi & _). rewrite Forall_lookup in He.
  by specialize (He i _ Hi).
Qed.

Lemma thash_range t : 0 ≤ thash sha512Half t < 2 ^ 256.
Proof using Hsha.
  assert (Hdec : tree_empty t ∨ ¬ tree_empty t).
  { destruct t as [ty it|cs]; [right; by intros []|]. cbn. destruct (decide (Forall (λ o, o = None) cs)); auto. }
  destruct Hdec as [He|Hne]; [rewrite thash_empty by done; lia|].
  rewrite thash_bytes by done. pose proof (Hsha (node_bytes t)). lia.
Qed.

(** All that is hashed in a tree. *)
Fixpoint hashed (t : tree) : list (list Z) :=
  node_bytes t ::
  match t with
  | TLeaf _ _ => []
  | TInner cs => concat (map (λ o, match o with Some c => hashed c | None => [] end) cs)
  end.

(** Nothing hashed in one tree collides with something hashed in the other. *)
Definition no_collision (t1 t2 : tree) : Prop :=
  ∀ x y, x ∈ hashed t1 → y ∈ hashed t2 → sha512Half x = sha512Half y → x = y.

Lemma hashed_root t : node_bytes t ∈ hashed t.
Proof. destruct t; by left. Qed.

Lemma hashed_child cs i c x : cs !! i = Some (Some c) → x ∈ hashed c → x ∈ hashed (TInner cs).
Proof.
  intros Hi Hx. cbn [hashed]. right. rewrite list_elem_of_In, in_concat. exists (hashed c).
  split; [|by apply list_elem_of_In]. apply in_map_iff. exists (Some c). split; [done|].
  rewrite <- list_elem_of_In. by eapply list_elem_of_lookup_2.
Qed.

(** Transactions are filed under their own hash. *)
Definition keyed (ty : SHAMapNodeType) (it : SHAMapItem) : Prop :=
  ty = tnTRANSACTION_NM → key it = leaf_hash sha512Half ty it.

Lemma leaf_bytes_inj ty it1 it2 :
  valid_item it1 → valid_item it2 → keyed ty it1 → keyed ty it2 →
  node_bytes (TLeaf ty it1) = node_bytes (TLeaf ty it2) → it1 = it2.
Proof.
  intros [Hk1 _] [Hk2 _] H1 H2 Heq. destruct it1 as [k1 d1], it2 as [k2 d2].
  assert (Htail : ∀ p, p ++ d1 ++ uint256_bytes k1 = p ++ d2 ++ uint256_bytes k2 → d1 = d2 ∧ k1 = k2).
  { intros p Hp. apply app_inv_head in Hp. apply app_inj_2 in Hp as [-> Hk]; [|by rewrite !length_uint256].
    split; [done|]. by apply uint256_inj. }
  destruct ty; cbn in Heq; try (by apply (Htail [_; _; _; _]) in Heq as [-> ->]).
  injection Heq as ->. f_equal. specialize (H1 eq_refl). specialize (H2 eq_refl). cbn in H1, H2. congruence.
Qed.

Lemma child_hashes_range cs : Forall (λ x, 0 ≤ x < 2 ^ 256) (child_hashes (tree_branches cs)).
Proof using Hsha.
  unfold child_hashes, tree_branches. rewrite <- list_fmap_compose, Forall_fmap. apply Forall_true.
  intros [c|]; [apply thash_range|cbn; lia].
Qed.

Lemma inner_bytes_inj cs1 cs2 :
  length cs1 = length cs2 → node_bytes (TInner cs1) = node_bytes (TInner cs2) →
  child_hashes (tree_branches cs1) = child_hashes (tree_branches cs2).
Proof using Hsha.
  intros Hlen Heq. cbn [node_bytes prefix_bytes] in Heq. apply app_inv_head in Heq.
  apply hashes_bytes_inj in Heq; [done| |apply child_hashes_range..].
  unfold child_hashes, tree_branches. by rewrite !length_fmap.
Qed.

Lemma child_hash_lookup cs i :
  child_hashes (tree_branches cs) !! i =
  (λ o : option tree, match o with Some c => thash sha512Half c | None => 0 end) <$> cs !! i.
Proof.
  unfold child_hashes, tree_branches. rewrite !list_lookup_fmap. by destruct (cs !! i) as [[c|]|].
Qed.

Lemma leaf_inner_bytes ty it cs : ty ≠ tnINNER → node_bytes (TLeaf ty it) ≠ node_bytes (TInner cs).
Proof. intros Hty. by destruct ty. Qed.

Lemma thash_pos ty d p t : wf ty d p t → 0 < thash sha512Half t.
Proof using Hsha. intros Hwf. rewrite thash_bytes by (by eapply wf_not_empty). apply Hsha. Qed.

(** ** Equal hashes, equal trees *)

Lemma kids_same ty d p cs1 cs2 :
  (d < 64)%nat → length cs1 = branchFactor → length cs2 = branchFactor →
  (∀ i c, cs1 !! i = Some (Some c) → wf ty (S d) (16 * p + Z.of_nat i) c) →
  (∀ i c, cs2 !! i = Some (Some c) → wf ty (S d) (16 * p + Z.of_nat i) c) →
  node_bytes (TInner cs1) = node_bytes (TInner cs2) →
  (∀ i c1 c2, cs1 !! i = Some (Some c1) → cs2 !! i = Some (Some c2) →
     thash sha512Half c1 = thash sha512Half c2 → c1 = c2) →
  cs1 = cs2.
Proof using Hsha.
  intros Hd Hlen1 Hlen2 Hcs1 Hcs2 Heq Hsame. apply inner_bytes_inj in Heq; [|congruence].
  apply list_eq_same_length with branchFactor; [done..|]. intros i x y Hi Hx Hy.
  assert (Hh : child_hashes (tree_branches cs1) !! i = child_hashes (tree_branches cs2) !! i) by (by rewrite Heq).
  rewrite !child_hash_lookup, Hx, Hy in Hh. injection Hh as Hh.
  destruct x as [c1|], y as [c2|]; [| | |done].
  - f_equal. by eapply Hsame.
  - pose proof (thash_pos _ _ _ _ (Hcs1 _ _ Hx)). lia.
  - pose proof (thash_pos _ _ _ _ (Hcs2 _ _ Hy)). lia.
Qed.

Lemma thash_inj ty d p t1 t2 :
  ty ≠ tnINNER → wf ty d p t1 → wf ty d p t2 →
  (∀ x, x ∈ items t1 → keyed ty x) → (∀ x, x ∈ items t2 → keyed ty x) → no_collision t1 t2 →
  thash sha512Half t1 = thash sha512Half t2 → t1 = t2.
Proof using Hsha.
  intros Hty H1. revert t2. induction H1 as [d p it Hd Hv Hp|d p cs Hd Hlen Hcs IH Htwo];
    intros t2 H2 Hk1 Hk2 Hnc Heq.
  - rewrite (thash_bytes (TLeaf ty it)) in Heq by (by intros []).
    rewrite (thash_bytes t2) in Heq by (by eapply wf_not_empty).
    apply Hnc in Heq; [|apply hashed_root..]. destruct H2 as [d p it2 _ Hv2 _|]; [|by apply leaf_inner_bytes in Heq].
    f_equal. apply (leaf_bytes_inj ty); [done..| | |done].
    + apply Hk1. by apply list_elem_of_singleton.
    + apply Hk2. by apply list_elem_of_singleton.
  - pose proof (wf_inner ty d p cs Hd Hlen Hcs Htwo) as H1.
    rewrite thash_bytes, (thash_bytes t2) in Heq by (by eapply wf_not_empty).
    apply Hnc in Heq; [|apply hashed_root..].
    destruct H2 as [d p it2 _ Hv2 _|d p cs2 _ Hlen2 Hcs2 _]; [by symmetry in Heq; apply leaf_inner_bytes in Heq|].
    f_equal. apply (kids_same ty d p); [done..|]. intros i c1 c2 Hc1 Hc2 Hh.
    apply (IH i c1 Hc1); [by apply Hcs2| | | |done].
    + intros x Hx. apply Hk1, elem_of_items. eauto.
    + intros x Hx. apply Hk2, elem_of_items. eauto.
    + intros x y Hx Hy. apply Hnc; by eapply hashed_child.
Qed.

(** The same at the root, which may be empty. *)
Lemma root_hash_inj ty cs1 cs2 :
  ty ≠ tnINNER → pfx ty 0 0 (TInner cs1) → pfx ty 0 0 (TInner cs2) →
  (∀ x, x ∈ items (TInner cs1) → keyed ty x) → (∀ x, x ∈ items (TInner cs2) → keyed ty x) →
  no_collision (TInner cs1) (TInner cs2) →
  thash sha512Half (TInner cs1) = thash sha512Half (TInner cs2) → cs1 = cs2.
Proof using Hsha.
  intros Hty (Hd & Hlen1 & Hcs1) (_ & Hlen2 & Hcs2) Hk1 Hk2 Hnc Heq.
  assert (Hempty : ∀ cs, length cs = branchFactor → tree_empty (TInner cs) → cs = replicate branchFactor None).
  { intros cs Hlen He. apply list_eq_same_length with branchFactor; [apply length_replicate|done|].
    intros i x y Hi Hx [-> _]%lookup_replicate. cbn in He. rewrite Forall_lookup in He. by apply (He i). }
  destruct (decide (Forall (λ o, o = None) cs1)) as [He1|He1], (decide (Forall (λ o, o = None) cs2)) as [He2|He2].
  - by rewrite (Hempty cs1), (Hempty cs2).
  - rewrite (thash_empty (TInner cs1)), (thash_bytes (TInner cs2)) in Heq by done.
    pose proof (Hsha (node_bytes (TInner cs2))). lia.
  - rewrite (thash_empty (TInner cs2)), (thash_bytes (TInner cs1)) in Heq by done.
    pose proof (Hsha (node_bytes (TInner cs1))). lia.
  - rewrite (thash_bytes (TInner cs1)), (thash_bytes (TInner cs2)) in Heq by done.
    apply Hnc in Heq; [|apply hashed_root..].
    apply (kids_same ty 0 0); [done..|]. intros i c1 c2 Hc1 Hc2 Hh.
    apply (thash_inj ty 1 (16 * 0 + Z.of_nat i)); [done|by apply Hcs1|by apply Hcs2| | | |done].
    + intros x Hx. apply Hk1, elem_of_items. eauto.
    + intros x Hx. apply Hk2, elem_of_items. eauto.
    + intros x y Hx Hy. apply Hnc; by eapply hashed_child.
Qed.
End hash.
