(* ===== verification/SHAMapProof.v ===== *)
(** * Proof paths ([getProofPath], [verifyProofPath] of [shamap/impl/SHAMapSync.cpp])

    A server hands out the nodes from a leaf to the root; whoever knows the hash
    of the root checks them. *)
From S2P Require Import Prelude Outcome Bytes Serializer SHAMapNode SHAMap SHAMapTree SHAMapLoc SHAMapOps SHAMapMutate SHAMapFlush SHAMapIter SHAMapWire SHAMapHash.

Section proof.
Context (sha512Half : list Z → Z).

(** [Serializer s; node->serializeForWire(s); std::move(s.modData())]. *)
Definition wire_blob (n : TreeNode) : exc (list Z) :=
  match serializeForWire n [] with
  | (Return _, d) => Return d
  | (Throw e, _) => Throw e
  | (Abort e, _) => Abort e
  | (NoFuel, _) => NoFuel
  end.

Fixpoint path_of (stack : NodeStack) : op (list (list Z)) :=
  match stack with
  | [] => mret []
  | (l, _) :: stack =>
    n ← node_at l;
    b ← slift (wire_blob n);
    rest ← path_of stack;
    mret (b :: rest)
  end.

(** The blobs, the leaf first. *)
Definition getProofPath (id : Z) : op (option (list (list Z))) :=
  '(_, stack) ← walkTowardsKey id;
  match stack with
  | [] => mret None
  | (l, _) :: _ =>
    n ← node_at l;
    match n with
    | InnerNode _ _ _ => mret None
    | LeafNode _ _ _ i =>
      if negb (key i =? id) then mret None
      else path ← path_of stack; mret (Some path)
    end
  end.

(** The loop over the blobs from the root down; [size] is the length of the path. *)
Fixpoint verify_loop (blobs : list (list Z)) (depth hash id size : Z) : exc bool :=
  match blobs with
  | [] => Return false
  | blob :: blobs =>
    node ← makeFromWire sha512Half blob;
    match node with
    | None => Return false
    | Some node =>
      let node := updateHash sha512Half node in
      if negb (getHash node =? hash) then Return false
      else
        match node with
        | InnerNode _ _ bs =>
          nodeId ← createID depth id;
          b ← selectBranch nodeId id;
          verify_loop blobs (depth + 1) (getChildHash bs b) id size
        | LeafNode _ _ _ _ => Return (depth + 1 =? size)
        end
    end
  end.

(** An exception that is thrown while parsing is caught. *)
Definition verifyProofPath (rootHash id : Z) (path : list (list Z)) : exc bool :=
  if bool_decide (path = []) || (65 <? length path)%nat then Return false
  else
    match verify_loop (rev path) 0 rootHash id (Z.of_nat (length path)) with
    | Throw _ => Return false
    | r => r
    end.
End proof.

(** * Proof paths are complete and sound

    The path of an item verifies against the hash of the root.  A path that
    verifies ends in the leaf the key leads to, unless a hash collides; it need
    not be the leaf of that key. *)

Lemma createID_ok d k :
  valid_key k → (d ≤ 64)%nat → ∃ id, createID (Z.of_nat d) k = Return id ∧ depth_ id = Z.of_nat d.
Proof.
  intros Hk Hd. unfold createID.
  rewrite (proj2 (Z.ltb_ge _ _)), (proj2 (Z.leb_gt _ _)) by lia. cbn [orb].
  rewrite masks_closed by done. cbn [mbind exc_bind]. rewrite land_mask by (done || lia).
  set (m := 16 ^ (64 - Z.of_nat d)). assert (0 < m) by (apply Z.pow_pos_nonneg; lia).
  pose proof (Z.mod_pos_bound k m ltac:(done)). unfold valid_key in Hk.
  assert (Hmod : (k - k mod m) mod m = 0).
  { replace (k - k mod m) with (k / m * m) by (pose proof (Z.div_mod k m); lia). apply Z.mod_mul. lia. }
  pose proof (Z.mod_le k m ltac:(lia) ltac:(done)).
  exists (mkID (Z.of_nat d) (k - k mod m)). split; [|done].
  apply NodeID_ctor_ok; [unfold valid_key; lia|done|done].
Qed.

Section spec.
Context (sha512Half : list Z → Z) (Hsha : ∀ x, 0 < sha512Half x < 2 ^ 256).

(** Items that survive the wire form of their leaf. *)
Definition wire_item (ty : SHAMapNodeType) (it : SHAMapItem) : Prop :=
  valid_item it ∧ Z.of_nat (length (peekData it)) < 2 ^ 31 - 64 ∧ keyed sha512Half ty it ∧
  (ty = tnACCOUNT_STATE → key it ≠ 0).

(** ** Nodes of a shared tree *)

Lemma clean_leaf_ok ty l w h it :
  ty ≠ tnINNER → wire_item ty it → node_ok sha512Half (LeafNode w h ty it) ∧
  getHash (detached sha512Half (LeafNode w h ty it)) = thash sha512Half (erase (LLeaf l w h ty it)).
Proof using Type.
  intros Hty (Hv & Hlen & Hk & Has). destruct Hv as [Hkey H12]. split; [|done].
  split_and!; [done|done|apply Hkey..|]. destruct ty; [done| |done|by apply Has]. by apply Hk.
Qed.

Lemma clean_inner_ok ty d p l w h cs :
  clean sha512Half (LInner l w h cs) → pfx ty d p (erase (LInner l w h cs)) →
  (∃ x, x ∈ items (erase (LInner l w h cs))) →
  node_ok sha512Half (InnerNode w h (shape cs)) ∧
  getHash (detached sha512Half (InnerNode w h (shape cs))) = thash sha512Half (erase (LInner l w h cs)).
Proof using Hsha.
  intros Hcl (Hd & Hlen & Hcs)%pfx_inner Hne. inv Hcl as [|? ? Hcl' Hh].
  split; [split_and!|].
  - unfold shape. by rewrite length_fmap.
  - intros He. destruct Hne as (x & (i & c & (hc & t & Hi & _)%erase_child & _)%elem_of_items).
    by eapply empty_root.
  - intros hh pp (i & Hi)%list_elem_of_lookup. rewrite shape_lookup in Hi.
    destruct (cs !! i) as [[[hc t]|]|] eqn:Hc; cbn in Hi; [|done..]. injection Hi as <- _.
    rewrite (Hh _ _ _ Hc). pose proof (thash_pos sha512Half Hsha _ _ _ _ (Hcs _ _ _ Hc)).
    pose proof (thash_range sha512Half Hsha (erase t)). lia.
  - cbn [detached updateHash getHash]. rewrite erase_inner, thash_inner. apply inner_hash_ext.
    unfold shape, tree_branches, ekids. change (map ?f ?l) with (f <$> l). rewrite <- !list_fmap_compose.
    apply list_fmap_ext. intros i [[hc t]|] Hi; [|done]. cbn. by rewrite (Hh _ _ _ Hi).
Qed.

Lemma wire_blob_ok n : node_ok sha512Half n → wire_blob n = Return (wire_bytes n).
Proof using Type.
  intros Hn. unfold wire_blob. destruct (serializeForWire_bytes n) with (d := @nil Z) as [r Hr].
  { destruct n as [c h bs|]; [|done]. by destruct Hn as (? & ? & _). }
  by rewrite Hr.
Qed.

Lemma updateHash_detached n : updateHash sha512Half (detached sha512Half n) = detached sha512Half n.
Proof. by destruct n. Qed.

(** One step of the verification. *)
Lemma verify_step n blobs d hash k size :
  node_ok sha512Half n → getHash (detached sha512Half n) = hash →
  verify_loop sha512Half (wire_bytes n :: blobs) d hash k size =
  match detached sha512Half n with
  | InnerNode _ _ bs =>
    nodeId ← createID d k; b ← selectBranch nodeId k;
    verify_loop sha512Half blobs (d + 1) (getChildHash bs b) k size
  | LeafNode _ _ _ _ => Return (d + 1 =? size)
  end.
Proof using Type.
  intros Hn <-. cbn [verify_loop]. rewrite wire_read by done. cbn [mbind exc_bind].
  rewrite updateHash_detached. cbv zeta. by rewrite Z.eqb_refl.
Qed.

(** ** Completeness *)

Lemma path_of_app h m s1 s2 p1 :
  path_of s1 (mkMemory h m) = (Return p1, mkMemory h m) →
  path_of (s1 ++ s2) (mkMemory h m) = (p2 ← path_of s2; mret (p1 ++ p2)) (mkMemory h m).
Proof using Type.
  revert p1. induction s1 as [|[l id] s1 IH]; intros p1; cbn [app path_of].
  { intros [= <-]. unfold mbind, ST_bind. by destruct (path_of s2 _) as [[| | |] ?]. }
  unfold mbind, ST_bind. destruct (node_at l (mkMemory h m)) as [[n| | |] w'] eqn:Hn; [|done..].
  assert (w' = mkMemory h m) as ->.
  { unfold node_at, mbind, ST_bind, sget in Hn. cbn in Hn. by destruct (h !! l); injection Hn. }
  unfold slift. destruct (wire_blob n) as [b| | |]; [|done..].
  destruct (path_of s1 (mkMemory h m)) as [[p| | |] w'] eqn:Hp; [|done..]. intros [= <- ->].
  rewrite (IH p eq_refl). unfold mbind, ST_bind. by destruct (path_of s2 _) as [[| | |] ?].
Qed.

Lemma proof_above m h k ty d id t fr df idf l w hh it p :
  above k d id t fr df idf (LLeaf l w hh ty it) → ty ≠ tnINNER → valid_key k →
  clean sha512Half t → pfx ty d p (erase t) → holds h t → (∀ x, x ∈ items (erase t) → wire_item ty x) →
  ∃ path,
    path_of ((l, idf) :: fr) (mkMemory h m) = (Return path, mkMemory h m) ∧ (length path + d = S df)%nat ∧
    (df ≤ 64)%nat ∧
    ∀ size, verify_loop sha512Half (rev path) (Z.of_nat d) (thash sha512Half (erase t)) k size =
            Return (Z.of_nat df + 1 =? size).
Proof using Hsha.
  intros Hab Hty Hk. remember (LLeaf l w hh ty it) as foc eqn:Hfoc. revert p.
  induction Hab as [d id t|d id id' l0 w0 h0 cs hc t fr df idf foc Hb Hid' Hidv' Hab IH];
    intros p Hcl Hp Hh Hit.
  - subst t. assert (Hd : (d ≤ 64)%nat) by (by inv Hp).
    destruct (clean_leaf_ok ty l w hh it Hty) as [Hok Hhash]; [apply Hit; by apply list_elem_of_singleton|].
    exists [wire_bytes (LeafNode w hh ty it)]. split_and!; [|cbn; lia|done|].
    + cbn [path_of]. erewrite ST_bind_return by (by apply node_at_run, (holds_root _ _ Hh)). cbn [lnode].
      rewrite wire_blob_ok by done. done.
    + intros size. cbn [rev app]. rewrite (verify_step _ _ _ _ _ _ Hok Hhash). done.
  - subst foc. pose proof Hp as (Hd & Hlen & Hcs)%pfx_inner. pose proof (Hcs _ _ _ Hb) as Hwf.
    destruct (IH eq_refl (16 * p + Z.of_nat (nib k d))) as (path & Hrun & Hpl & Hdf & Hver).
    { inv Hcl as [|? ? Hcl' _]. by eapply Hcl'. } { by apply wf_pfx. } { by eapply holds_child. }
    { intros x Hx. apply Hit, elem_of_items. exists (nib k d), (erase t). split; [|done]. apply erase_child. eauto. }
    assert (Hne : ∃ x, x ∈ items (erase (LInner l0 w0 h0 cs))).
    { destruct (wf_nonempty _ _ _ _ Hwf) as [x Hx]. exists x. apply elem_of_items. exists (nib k d), (erase t).
      split; [|done]. apply erase_child. eauto. }
    destruct (clean_inner_ok ty d p l0 w0 h0 cs Hcl Hp Hne) as [Hok Hhash].
    exists (path ++ [wire_bytes (InnerNode w0 h0 (shape cs))]). split_and!; [|rewrite length_app; cbn; lia|done|].
    + rewrite app_comm_cons. rewrite (path_of_app h m _ _ _ Hrun). cbn [path_of].
      erewrite ST_bind_return; [done|].
      erewrite ST_bind_return by (by apply node_at_run, (holds_root _ _ Hh)). cbn [lnode].
      rewrite wire_blob_ok by done. done.
    + intros size. rewrite rev_app_distr. cbn [rev app]. rewrite (verify_step _ _ _ _ _ _ Hok Hhash).
      cbn [detached updateHash]. destruct (createID_ok d k Hk ltac:(lia)) as (nid & Hnid & Hdep).
      rewrite Hnid. cbn [mbind exc_bind]. rewrite (selectBranch_nib d) by done. cbn [mbind exc_bind].
      replace (Z.of_nat d + 1) with (Z.of_nat (S d)) by lia. rewrite <- Hver. f_equal.
      unfold getChildHash. rewrite list_lookup_fmap, shape_lookup, Hb. cbn.
      inv Hcl as [|? ? _ Hh']. by eapply Hh'.
Qed.

Lemma getProofPath_run ty h m t k :
  map_ok sha512Half ty h m t → clean sha512Half t → ty ≠ tnINNER → valid_key k →
  (∀ x, x ∈ items (erase t) → wire_item ty x) →
  (has_key k (erase t) ∧ ∃ path, getProofPath k (mkMemory h m) = (Return (Some path), mkMemory h m) ∧
     verifyProofPath sha512Half (thash sha512Half (erase t)) k path = Return true) ∨
  (¬ has_key k (erase t) ∧ getProofPath k (mkMemory h m) = (Return None, mkMemory h m)).
Proof using Hsha.
  intros Hm Hcl Hty Hk Hit.
  destruct (walk_map sha512Half ty h m t k Hm Hk) as (fr & df & idf & foc & Hab & Hidf & Hstop & Hpf & Hwalk).
  destruct (above_focus sha512Half (cowid_ m) h _ _ _ _ _ _ _ _ Hab) as (Hfh & _ & _); [apply Hm..|].
  assert (Hfind : ∀ x, key x = k → x ∈ items (erase t) ↔ ∃ l w h ty', foc = LLeaf l w h ty' x)
    by (intros x Hx; eapply focus_item; [done|done|apply Hm|done]).
  unfold getProofPath. erewrite ST_bind_return by exact Hwalk. cbv beta iota.
  erewrite ST_bind_return by (apply node_at_run, holds_root, Hfh).
  destruct foc as [l w hh ty' it|l w hh cs]; cbn [lnode lroot].
  2: { right. split; [|done]. intros (x & Hx & Hkx). by apply Hfind in Hx as (? & ? & ? & ? & ?). }
  destruct (Z.eqb_spec (key it) k) as [Heq|Hne]; cbn [negb].
  2: { right. split; [|done]. intros (x & Hx & Hkx). by apply Hfind in Hx as (? & ? & ? & ? & [= _ _ _ _ <-]). }
  left. split; [exists it; split; [apply Hfind; eauto|done]|].
  assert (ty' = ty) as -> by (eapply focus_leaf; [done|apply Hm]).
  destruct (proof_above m h k ty 0 root_id t fr df idf l w hh it 0 Hab Hty Hk Hcl) as (path & Hrun & Hlen & Hdf & Hver);
    [apply Hm|apply Hm|done|].
  exists path. split; [by erewrite ST_bind_return by exact Hrun|].
  unfold verifyProofPath. rewrite bool_decide_eq_false_2, (proj2 (Nat.ltb_ge _ _)) by (try intros ->; cbn in *; lia).
  cbn [orb]. rewrite Hver. f_equal. apply Z.eqb_eq. lia.
Qed.

(** ** Soundness *)

(** The leaf the key leads to. *)
Fixpoint leaf_at (k : Z) (n d : nat) (t : tree) : option SHAMapItem :=
  match t, n with
  | TLeaf _ it, _ => Some it
  | TInner cs, S n => match cs !! nib k d with Some (Some c) => leaf_at k n (S d) c | _ => None end
  | TInner _, O => None
  end.

Lemma leaf_at_item k ty n d p t it :
  n = (64 - d)%nat → pfx ty d p t → it ∈ items t → key it = k → leaf_at k n d t = Some it.
Proof using Type.
  revert d p t. induction n as [|n IH]; intros d p t Hn Hp Hit Hk; destruct t as [ty' it'|cs].
  1, 3: by apply list_elem_of_singleton in Hit as ->.
  { destruct Hp. lia. }
  pose proof Hp as (Hd & Hlen & Hcs). cbn [leaf_at].
  apply (child_items ty d p cs it (nib k d)) in Hit as (c & Hc & Hit); [|done|done|done|by rewrite Hk].
  rewrite Hc. eapply IH; [lia|by eapply wf_pfx, Hcs|done|done].
Qed.

End spec.

(** ** Nodes read from the wire *)

Definition range256 (x : Z) : Prop := 0 ≤ x < 2 ^ 256.

Lemma get_uint256_range d o x : Forall is_byte d → get_uint256 d o = Return (Some x) → range256 x.
Proof.
  intros Hd. unfold get_uint256, getBitString. destruct (_ <=? _); [|done]. destruct (_ <? _); [done|].
  intros [= <-]. change (Z.to_nat 32) with 32%nat. set (l := take 32 (drop (Z.to_nat o) d)).
  assert (Hl : Forall is_byte l) by (by apply Forall_take, Forall_drop).
  pose proof (be_value_range l Hl) as Hr. assert (length l ≤ 32)%nat by (unfold l; rewrite length_take; lia).
  split; [lia|]. eapply Z.lt_le_trans; [apply Hr|]. apply Z.pow_le_mono_r; lia.
Qed.

Definition slots_ok (slots : list (bool * Z)) : Prop := Forall (λ s, range256 s.2) slots.

Lemma range256_0 : range256 0.
Proof. unfold range256. lia. Qed.

Lemma no_slots_ok n : slots_ok (replicate n (false, 0)).
Proof. apply Forall_replicate, range256_0. Qed.

Lemma full_loop_range n i d slots :
  Forall is_byte d → full_loop n i d = Return slots → length slots = n ∧ slots_ok slots.
Proof.
  intros Hd. revert i slots. induction n as [|n IH]; intros i slots; cbn [full_loop].
  { intros [= <-]. split; [done|constructor]. }
  destruct (get_uint256 d (i * 32)) as [h| | |] eqn:Hh; [|done..]. cbn [mbind exc_bind].
  destruct (full_loop n (i + 1) d) as [rest| | |] eqn:Hrest; [|done..]. cbn [mbind exc_bind]. intros [= <-].
  destruct (IH _ _ Hrest) as [Hlen Hok]. split; [cbn; lia|]. constructor; [|done].
  destruct h as [h|]; cbn; [by eapply get_uint256_range|apply range256_0].
Qed.

Lemma compressed_loop_range n i d slots slots' :
  Forall is_byte d → slots_ok slots → compressed_loop n i d slots = Return slots' →
  length slots' = length slots ∧ slots_ok slots'.
Proof.
  intros Hd. revert i slots. induction n as [|n IH]; intros i slots Hok; cbn [compressed_loop].
  { by intros [= <-]. }
  destruct (Serializer_get8 d (32 + i * 33)) as [[pos|]| | |]; [|done..]. cbn [mbind exc_bind].
  destruct (_ || _); [done|]. destruct (get_uint256 d (i * 33)) as [h| | |] eqn:Hh; [|done..]. cbn [mbind exc_bind].
  intros Hrun. apply IH in Hrun as [Hlen Hok']; [by rewrite length_insert in Hlen|].
  apply Forall_insert; [done|]. destruct h as [h|]; cbn; [by eapply get_uint256_range|].
  destruct (slots !! Z.to_nat pos) as [s|] eqn:Hs; cbn; [|apply range256_0].
  by apply (Forall_lookup_1 _ _ _ _ Hok Hs).
Qed.

Section parse.
Context (sha512Half : list Z → Z).

(** What reading a node from the wire can give. *)
Definition parsed (m : TreeNode) : Prop :=
  match m with
  | InnerNode _ _ bs => length bs = branchFactor ∧ Forall range256 (child_hashes bs)
  | LeafNode _ _ ty it =>
    ty ≠ tnINNER ∧
    (ty = tnTRANSACTION_NM → key it = leaf_hash sha512Half ty it) ∧ (ty ≠ tnTRANSACTION_NM → range256 (key it))
  end.

Lemma parsed_inner c h slots : length slots = branchFactor → slots_ok slots → parsed (InnerNode c h (parsed_branches slots)).
Proof.
  intros Hlen Hok. split; [unfold parsed_branches; by rewrite length_fmap|].
  unfold child_hashes, parsed_branches. rewrite <- list_fmap_compose, Forall_fmap.
  eapply Forall_impl; [exact Hok|]. intros [[|] h'] Hs; cbn; [done|apply range256_0].
Qed.

Lemma finish_leaf_parsed ty it hash n :
  finish_leaf sha512Half ty it hash = Return n → ∃ h, n = LeafNode 0 h ty it.
Proof.
  unfold finish_leaf, new_leaf, new_leaf_hashed. destruct hash; destruct (_ <? _)%nat; try done; intros [= <-]; eauto.
Qed.

Lemma makeFromWire_parsed blob m :
  Forall is_byte blob → makeFromWire sha512Half blob = Return (Some m) → parsed m.
Proof.
  intros Hb. unfold makeFromWire. destruct (last blob) as [ty|]; [|done].
  set (raw := take (length blob - 1) blob). assert (Hraw : Forall is_byte raw) by (by apply Forall_take).
  assert (Hmap : ∀ r : exc TreeNode, Some <$> r = Return (Some m) → r = Return m).
  { intros [n| | |]; cbn; [by intros [= <-]|done..]. }
  destruct (ty =? wireTypeTransaction).
  { intros H%Hmap. unfold makeTransaction in H. by apply finish_leaf_parsed in H as (h & ->). }
  destruct (ty =? wireTypeAccountState).
  { intros H%Hmap. unfold makeAccountState in H. destruct (_ <? 32); [done|].
    destruct (get_uint256 raw _) as [[tag|]| | |] eqn:Htag; cbn [mbind exc_bind] in H; [|done..].
    destruct (chop 32 raw) as [? data]. destruct (tag =? 0); [done|].
    apply finish_leaf_parsed in H as (h & ->). split_and!; [done..|]. intros _. by eapply get_uint256_range. }
  destruct (ty =? wireTypeInner).
  { intros H%Hmap. unfold makeFullInner in H. destruct (negb _); [done|].
    destruct (full_loop _ _ _) as [slots| | |] eqn:Hs; cbn [mbind exc_bind] in H; [|done..]. injection H as <-.
    destruct (full_loop_range _ _ _ _ Hraw Hs). by apply parsed_inner. }
  destruct (ty =? wireTypeCompressedInner).
  { intros H%Hmap. unfold makeCompressedInner in H. cbv zeta in H.
    destruct (compressed_loop _ _ _ _) as [slots| | |] eqn:Hs; cbn [mbind exc_bind] in H; [|done..]. injection H as <-.
    destruct (compressed_loop_range _ _ _ _ _ Hraw (no_slots_ok _) Hs). by apply parsed_inner. }
  destruct (ty =? wireTypeTransactionWithMeta); [|done].
  intros H%Hmap. unfold makeTransactionWithMeta in H. destruct (_ <? 32); [done|].
  destruct (get_uint256 raw _) as [[tag|]| | |] eqn:Htag; cbn [mbind exc_bind] in H; [|done..].
  destruct (chop 32 raw) as [? data]. apply finish_leaf_parsed in H as (h & ->). split_and!; [done..|].
  intros _. by eapply get_uint256_range.
Qed.

Context (Hsha : ∀ x, 0 < sha512Half x < 2 ^ 256).

Lemma parsed_hash m :
  match m with InnerNode _ _ bs => ¬ empty_node bs | _ => True end → parsed m →
  getHash (updateHash sha512Half m) = sha512Half (prefix_bytes m).
Proof using Type.
  destruct m as [c h bs|c h ty it]; cbn [updateHash getHash].
  - intros Hne _. unfold inner_hash. by rewrite bool_decide_eq_false_2.
  - intros _ (Hty & _). by destruct ty.
Qed.

Lemma getChildHash_lookup bs b : getChildHash bs b = default 0 (child_hashes bs !! b).
Proof using Type.
  unfold getChildHash, child_hashes. rewrite list_lookup_fmap. by destruct (bs !! b) as [[[h p]|]|].
Qed.

Lemma empty_child_hash bs b : empty_node bs → getChildHash bs b = 0.
Proof using Type.
  intros He. unfold getChildHash. destruct (bs !! b) as [o|] eqn:Hb; [|done].
  by rewrite (Forall_lookup_1 _ _ _ _ He Hb).
Qed.

(** What a successful verification did. *)
Lemma verify_inv blob blobs d hash k size :
  Forall is_byte blob → verify_loop sha512Half (blob :: blobs) d hash k size = Return true →
  ∃ m, makeFromWire sha512Half blob = Return (Some m) ∧ parsed m ∧ getHash (updateHash sha512Half m) = hash ∧
    match m with
    | InnerNode _ _ bs => ∃ id b, createID d k = Return id ∧ selectBranch id k = Return b ∧
        verify_loop sha512Half blobs (d + 1) (getChildHash bs b) k size = Return true
    | LeafNode _ _ _ _ => size = d + 1
    end.
Proof using Type.
  intros Hb. cbn [verify_loop]. destruct (makeFromWire sha512Half blob) as [[m|]| | |] eqn:Hm; [|done..].
  cbn [mbind exc_bind]. destruct (Z.eqb_spec (getHash (updateHash sha512Half m)) hash) as [Hh|]; [|done].
  cbn [negb]. intros Hrun. exists m. split_and!; [done|by eapply makeFromWire_parsed|done|].
  destruct m as [c h bs|c h ty it]; cbn [updateHash] in Hrun.
  - destruct (createID d k) as [id| | |]; [|done..]. cbn [mbind exc_bind] in Hrun.
    destruct (selectBranch id k) as [b| | |] eqn:Hs; [|done..]. by exists id, b.
  - injection Hrun as Hrun%Z.eqb_eq. done.
Qed.

Lemma verify_zero blobs d k size :
  Forall (Forall is_byte) blobs → verify_loop sha512Half blobs d 0 k size ≠ Return true.
Proof using Hsha.
  revert d. induction blobs as [|blob blobs IH]; intros d Hb; [done|]. apply Forall_cons in Hb as [Hb Hbs].
  intros (m & Hm & Hp & Hh & Hrest)%verify_inv; [|done].
  destruct m as [c h bs|c h ty it].
  - destruct (decide (empty_node bs)) as [He|Hne].
    + destruct Hrest as (id & b & _ & _ & Hrun). rewrite empty_child_hash in Hrun by done. by eapply IH.
    + rewrite parsed_hash in Hh by done. pose proof (Hsha (prefix_bytes (InnerNode c h bs))). lia.
  - rewrite parsed_hash in Hh by done. pose proof (Hsha (prefix_bytes (LeafNode c h ty it))). lia.
Qed.

Lemma createID_selects d k id b :
  createID (Z.of_nat d) k = Return id → selectBranch id k = Return b → (d < 64)%nat ∧ b = nib k d.
Proof using Type.
  intros Hid Hb. assert (Hdep : depth_ id = Z.of_nat d).
  { unfold createID in Hid. destruct (_ || _); [done|]. destruct (depthMask _) as [mk| | |]; [|done..].
    cbn [mbind exc_bind] in Hid. unfold NodeID_ctor in Hid. destruct (_ <? _); [done|].
    destruct (depthMask _) as [mk'| | |]; [|done..]. cbn [mbind exc_bind] in Hid. destruct (_ =? _); [|done].
    by injection Hid as <-. }
  assert (Hd : (d < 64)%nat).
  { unfold selectBranch, leafDepth in Hb. rewrite Hdep in Hb. destruct (Z.leb_spec 64 (Z.of_nat d)); [done|lia]. }
  split; [done|]. rewrite (selectBranch_nib d) in Hb by done. by injection Hb.
Qed.

Lemma parsed_leaf_bytes ty it c h ty' it' :
  ty ≠ tnINNER → valid_item it → keyed sha512Half ty it → parsed (LeafNode c h ty' it') →
  node_bytes sha512Half (TLeaf ty it) = prefix_bytes (LeafNode c h ty' it') → ty' = ty ∧ it' = it.
Proof using Type.
  intros Hty [Hk _] Hkey (Hty' & Hnm & Hr) Heq. destruct it as [k1 d1], it' as [k2 d2].
  assert (Htail : ∀ p, p ++ d1 ++ uint256_bytes k1 = p ++ d2 ++ uint256_bytes k2 → range256 k2 → d2 = d1 ∧ k2 = k1).
  { intros p Hp Hk2. apply app_inv_head in Hp. apply app_inj_2 in Hp as [-> Hk']; [|by rewrite !length_uint256].
    split; [done|]. symmetry. by apply uint256_inj. }
  destruct ty, ty'; try done; (split; [done|]); cbn in Heq, Hr.
  - injection Heq as <-. f_equal. specialize (Hnm eq_refl). specialize (Hkey eq_refl). cbn in Hnm, Hkey. congruence.
  - apply (Htail [_; _; _; _]) in Heq as [-> ->]; [done|by apply Hr].
  - apply (Htail [_; _; _; _]) in Heq as [-> ->]; [done|by apply Hr].
Qed.

(** The byte strings hashed while a path is checked. *)
Definition path_bytes (blobs : list (list Z)) (y : list Z) : Prop :=
  ∃ blob m, blob ∈ blobs ∧ makeFromWire sha512Half blob = Return (Some m) ∧ y = prefix_bytes m.

Lemma verify_sound ty blobs n d p t k size :
  n = (64 - d)%nat → ty ≠ tnINNER → pfx ty d p t → ¬ tree_empty t →
  (∀ x, x ∈ items t → keyed sha512Half ty x) → Forall (Forall is_byte) blobs →
  (∀ x y, x ∈ hashed sha512Half t → path_bytes blobs y → sha512Half x = sha512Half y → x = y) →
  verify_loop sha512Half blobs (Z.of_nat d) (thash sha512Half t) k size = Return true →
  ∃ it c h blob j, leaf_at k n d t = Some it ∧ blobs !! j = Some blob ∧ size = Z.of_nat (d + j + 1) ∧
    makeFromWire sha512Half blob = Return (Some (LeafNode c h ty it)).
Proof using Hsha.
  intros Hn Hty. revert n d p t Hn. induction blobs as [|blob blobs IH]; intros n d p t Hn Hp Hne Hkey Hb Hnc; [done|].
  apply Forall_cons in Hb as [Hb Hbs]. intros (m & Hm & Hpm & Hh & Hrest)%verify_inv; [|done].
  rewrite (thash_bytes _ _ Hne) in Hh.
  assert (Hbytes : node_bytes sha512Half t = prefix_bytes m ∧
    match m with InnerNode _ _ bs => ¬ empty_node bs | _ => True end).
  { assert (Hdec : match m with InnerNode _ _ bs => ¬ empty_node bs | _ => True end).
    { destruct m as [c h bs|]; [|done]. intros He. cbn in Hh. unfold inner_hash in Hh.
      rewrite bool_decide_eq_true_2 in Hh by done. pose proof (Hsha (node_bytes sha512Half t)). lia. }
    split; [|done]. rewrite parsed_hash in Hh by done. apply Hnc; [apply hashed_root| |done].
    exists blob, m. split_and!; [by left|done..]. }
  destruct Hbytes as [Heq Hnm]. destruct t as [ty' it|cs], m as [c h bs|c h ty2 it2].
  - exfalso. assert (ty' = ty) as -> by (by inv Hp). destruct ty; cbn in Heq; done.
  - assert (ty' = ty) as -> by (by inv Hp).
    destruct (parsed_leaf_bytes ty it c h ty2 it2) as [-> ->]; [done|by inv Hp| |done|done|].
    { apply Hkey. by apply list_elem_of_singleton. }
    exists it, c, h, blob, 0%nat. split_and!; [by destruct n|done|lia|done].
  - destruct Hp as (Hd & Hlen & Hcs). destruct Hrest as (id & b & Hid & Hsel & Hrun).
    destruct (createID_selects _ _ _ _ Hid Hsel) as [_ ->].
    cbn [node_bytes prefix_bytes] in Heq. apply app_inv_head, hashes_bytes_inj in Heq.
    2: { unfold child_hashes, tree_branches. destruct Hpm as [Hl _]. by rewrite !length_fmap, Hlen, Hl. }
    2: { by apply child_hashes_range. } 2: { apply Hpm. }
    rewrite getChildHash_lookup, <- Heq, child_hash_lookup in Hrun.
    destruct n as [|n]; [lia|]. cbn [leaf_at].
    destruct (cs !! nib k d) as [[t|]|] eqn:Ht; cbn in Hrun; [|by eapply verify_zero in Hrun..].
    replace (Z.of_nat d + 1) with (Z.of_nat (S d)) in Hrun by lia.
    destruct (IH n (S d) (16 * p + Z.of_nat (nib k d)) t) as (it & c' & h' & bl & j & Hl & Hj & Hsz & Hmk).
    + lia.
    + by eapply wf_pfx, Hcs.
    + by eapply wf_not_empty, Hcs.
    + intros x Hx. apply Hkey, elem_of_items. eauto.
    + done.
    + intros x y Hx (bl & m' & Hbl & Hm' & ->). apply Hnc; [by eapply hashed_child|]. exists bl, m'. split_and!; [by right|done..].
    + done.
    + exists it, c', h', bl, (S j). split_and!; [done|done|lia|done].
  - exfalso. destruct Hpm as [Hty2 _]. destruct ty2; cbn in Heq; done.
Qed.
End parse.
