(* ===== verification/SHAMapDelta.v ===== *)
(** * Comparing two maps ([shamap/impl/SHAMapDelta.cpp])

    The table of differences is a [std::map]: [insert] keeps an entry that is
    already there.  The counter [maxCount] is passed by reference.  The maps are
    two of the maps of a program; comparing does not change their nodes. *)
From S2P Require Import Prelude Outcome Bytes Serializer SHAMapNode SHAMap SHAMapTree SHAMapLoc SHAMapOps SHAMapMutate SHAMapDelete SHAMapFlush SHAMapIter SHAMapCanon SHAMapWorld SHAMapWire SHAMapHash.

Definition DeltaItem : Type := option SHAMapItem * option SHAMapItem.
Abbreviation Delta := (gmap Z DeltaItem).

Record CmpState := mkCmp { differences : Delta; maxCount : Z }.

(** [differences.insert(...)], then [--maxCount]; whether it is still positive. *)
Definition note (k : Z) (d : DeltaItem) : ST CmpState bool :=
  s ← sget;
  let n := i32 (maxCount s - 1) in
  sput (mkCmp (match differences s !! k with None => <[k := d]> (differences s) | Some _ => differences s end) n);;
  mret (0 <? n).

Section delta.
Context (sha512Half : list Z → Z) (heap : gmap loc TreeNode).

Definition read (l : loc) : ST CmpState TreeNode :=
  match heap !! l with Some n => mret n | None => slift (Abort "pointer") end.

Definition child (bs : list (option branch)) (i : nat) : ST CmpState loc :=
  c ← slift (getChild bs i);
  match c with Some c => mret c | None => throw "SHAMapMissingNode" end.

(** The children of the branches that are not empty, pushed in order. *)
Fixpoint push_children (bs : list (option branch)) (js : list nat) (stack : list loc) : ST CmpState (list loc) :=
  match js with
  | [] => mret stack
  | i :: js => c ← child bs i; push_children bs js (c :: stack)
  end.

(** The pair of an item of this map and one of the other map. *)
Definition oriented (isFirstMap : bool) (a b : option SHAMapItem) : DeltaItem :=
  if isFirstMap then (a, b) else (b, a).

(** [walkBranch]: [otherMapItem] is null once it was matched ([emptyBranch]). *)
Fixpoint walkBranch_loop (fuel : nat) (nodeStack : list loc) (otherMapItem : option SHAMapItem) (isFirstMap : bool) :
    ST CmpState bool :=
  match nodeStack, fuel with
  | [], _ =>
    match otherMapItem with
    | Some o => note (key o) (oriented isFirstMap None (Some o))
    | None => mret true
    end
  | _ :: _, O => slift NoFuel
  | node :: nodeStack, S fuel =>
    n ← read node;
    match n with
    | InnerNode _ _ bs =>
      nodeStack ← push_children bs (full_branches bs) nodeStack;
      walkBranch_loop fuel nodeStack otherMapItem isFirstMap
    | LeafNode _ _ _ item =>
      match otherMapItem with
      | Some o =>
        if negb (key item =? key o) then
          more ← note (key item) (oriented isFirstMap (Some item) None);
          if (more : bool) then walkBranch_loop fuel nodeStack otherMapItem isFirstMap else mret false
        else if bool_decide (peekData item ≠ peekData o) then
          more ← note (key item) (oriented isFirstMap (Some item) (Some o));
          if (more : bool) then walkBranch_loop fuel nodeStack None isFirstMap else mret false
        else walkBranch_loop fuel nodeStack None isFirstMap
      | None =>
        more ← note (key item) (oriented isFirstMap (Some item) None);
        if (more : bool) then walkBranch_loop fuel nodeStack None isFirstMap else mret false
      end
    end
  end.

(** Every node is visited at most once. *)
Definition walk_fuel : nat := 2 * size heap.

Definition walkBranch (node : loc) (otherMapItem : option SHAMapItem) (isFirstMap : bool) : ST CmpState bool :=
  walkBranch_loop walk_fuel [node] otherMapItem isFirstMap.

(** The loop over the branches of two inner nodes: [None] is an early return. *)
Fixpoint compare_branches (ours other : list (option branch)) (js : list nat) (nodeStack : list (loc * loc)) :
    ST CmpState (option (list (loc * loc))) :=
  match js with
  | [] => mret (Some nodeStack)
  | i :: js =>
    if getChildHash ours i =? getChildHash other i then compare_branches ours other js nodeStack
    else if isEmptyBranch other i then
      iNode ← child ours i;
      more ← walkBranch iNode None true;
      if (more : bool) then compare_branches ours other js nodeStack else mret None
    else if isEmptyBranch ours i then
      iNode ← child other i;
      more ← walkBranch iNode None false;
      if (more : bool) then compare_branches ours other js nodeStack else mret None
    else
      a ← child ours i;
      b ← child other i;
      compare_branches ours other js ((a, b) :: nodeStack)
  end.

Fixpoint compare_loop (fuel : nat) (nodeStack : list (loc * loc)) : ST CmpState bool :=
  match nodeStack, fuel with
  | [], _ => mret true
  | _ :: _, O => slift NoFuel
  | (ourNode, otherNode) :: nodeStack, S fuel =>
    n1 ← read ourNode;
    n2 ← read otherNode;
    match n1, n2 with
    | LeafNode _ _ _ ours, LeafNode _ _ _ other =>
      if key ours =? key other then
        if bool_decide (peekData ours ≠ peekData other) then
          more ← note (key ours) (Some ours, Some other);
          if (more : bool) then compare_loop fuel nodeStack else mret false
        else compare_loop fuel nodeStack
      else
        more ← note (key ours) (Some ours, None);
        if (more : bool) then
          more ← note (key other) (None, Some other);
          if (more : bool) then compare_loop fuel nodeStack else mret false
        else mret false
    | InnerNode _ _ _, LeafNode _ _ _ other =>
      more ← walkBranch ourNode (Some other) true;
      if (more : bool) then compare_loop fuel nodeStack else mret false
    | LeafNode _ _ _ ours, InnerNode _ _ _ =>
      more ← walkBranch otherNode (Some ours) false;
      if (more : bool) then compare_loop fuel nodeStack else mret false
    | InnerNode _ _ bs1, InnerNode _ _ bs2 =>
      next ← compare_branches bs1 bs2 (seq 0 branchFactor) nodeStack;
      match next with
      | Some nodeStack => compare_loop fuel nodeStack
      | None => mret false
      end
    end
  end.
End delta.

(** [compare] of the map [i] with the map [j]. *)
Definition compare (sha512Half : list Z → Z) (i j : nat) (maxCount : Z) : ST World (bool * Delta) :=
  h1 ← on_map i (getHash_map sha512Half);
  h2 ← on_map j (getHash_map sha512Half);
  if h1 =? h2 then mret (true, ∅)
  else
    w ← sget;
    match maps w !! i, maps w !! j with
    | Some ours, Some other =>
      let '(r, s) := compare_loop (heap w) (walk_fuel (heap w)) [(root_ ours, root_ other)] (mkCmp ∅ maxCount) in
      b ← slift r;
      mret (b, differences s)
    | _, _ => slift (Abort "no map")
    end.

(** * [compare] finds exactly the differences *)

(** ** Items by key *)

Fixpoint at_key (l : list SHAMapItem) (k : Z) : option SHAMapItem :=
  match l with [] => None | x :: l => if key x =? k then Some x else at_key l k end.

Lemma at_key_Some l k x : at_key l k = Some x → x ∈ l ∧ key x = k.
Proof.
  induction l as [|y l IH]; cbn [at_key]; [done|].
  destruct (Z.eqb_spec (key y) k) as [Hy|Hy]; [intros [= <-]; split; [by left|done]|].
  intros [Hx Hk]%IH. split; [by right|done].
Qed.

Lemma at_key_iff l k x : keys_differ l → at_key l k = Some x ↔ x ∈ l ∧ key x = k.
Proof.
  intros Hd. split; [apply at_key_Some|]. induction l as [|y l IH]; [by intros [?%elem_of_nil _]|].
  unfold keys_differ in Hd. rewrite fmap_cons, NoDup_cons in Hd. destruct Hd as [Hy Hd]. cbn [at_key].
  intros [[->|Hx]%elem_of_cons Hk]; [by rewrite Hk, Z.eqb_refl|].
  destruct (Z.eqb_spec (key y) k) as [He|_]; [|by apply IH].
  exfalso. apply Hy. rewrite He, <- Hk. by apply list_elem_of_fmap_2.
Qed.

Lemma at_key_ext l1 l2 k :
  keys_differ l1 → keys_differ l2 → (∀ x, key x = k → x ∈ l1 ↔ x ∈ l2) → at_key l1 k = at_key l2 k.
Proof.
  intros H1 H2 Heq. apply option_eq. intros x. rewrite !at_key_iff by done. naive_solver.
Qed.

Lemma at_key_None l k : (∀ x, x ∈ l → key x ≠ k) → at_key l k = None.
Proof. intros H. apply eq_None_not_Some. intros [x [Hx Hk]%at_key_Some]. by eapply H. Qed.

Lemma sorted_keys l : StronglySorted key_lt l → keys_differ l.
Proof.
  unfold keys_differ. induction l as [|x l IH]; [constructor|]. rewrite StronglySorted_cons, fmap_cons, NoDup_cons.
  intros [Hx Hl]. split; [|by apply IH]. intros (y & Hk & Hy)%list_elem_of_fmap.
  rewrite Forall_forall in Hx. specialize (Hx y Hy). unfold key_lt in Hx. lia.
Qed.

Lemma tree_keys ty d p t : pfx ty d p t → keys_differ (items t).
Proof. intros Hp. by eapply sorted_keys, pfx_sorted. Qed.

(** ** Differences that are still to be found *)

Definition todo : Type := Z → option DeltaItem.

Definition dfo (first : bool) (a b : option SHAMapItem) : option DeltaItem :=
  if decide (a = b) then None else Some (oriented first a b).

Definition plus (W R : todo) : todo := λ k, match W k with Some d => Some d | None => R k end.

Definition apart (W R : todo) : Prop := ∀ k d, W k = Some d → R k = None.

Section count.
Context (M0 : Z) (HM : - 2 ^ 31 < M0 < 2 ^ 31) (D : Delta).

Record going (s : CmpState) (R : todo) : Prop := {
  go_all k : D !! k = match differences s !! k with Some d => Some d | None => R k end;
  go_new k d : R k = Some d → differences s !! k = None;
  go_count : maxCount s = M0 - Z.of_nat (size (differences s));
  go_live : differences s = ∅ ∨ 0 < maxCount s }.

(** The limit was reached. *)
Record stopped (s : CmpState) : Prop := {
  st_sub k d : differences s !! k = Some d → D !! k = Some d;
  st_some : differences s ≠ ∅;
  st_count : maxCount s = M0 - Z.of_nat (size (differences s));
  st_over : maxCount s = Z.min 0 (M0 - 1) }.

Definition outcome (b : bool) (s : CmpState) (R : todo) : Prop := if b then going s R else stopped s.

Lemma going_ext s R R' : going s R → (∀ k, R' k = R k) → going s R'.
Proof.
  intros Hg He. split; [|intros k d; rewrite He; apply Hg|apply Hg|apply Hg]. intros k. rewrite He. apply Hg.
Qed.

Lemma note_run s R R' k d :
  going s R → R k = Some d → R' k = None → (∀ k', k' ≠ k → R' k' = R k') →
  ∃ b s', note k d s = (Return b, s') ∧ outcome b s' R'.
Proof using HM.
  intros Hg Hk Hk' Hne. pose proof (go_new _ _ Hg k d Hk) as Hnew. pose proof (go_count _ _ Hg) as Hc.
  pose proof (go_live _ _ Hg) as Hlive.
  assert (Hi : i32 (maxCount s - 1) = maxCount s - 1).
  { apply i32_id. destruct Hlive as [He|Hl]; [rewrite He, map_size_empty in Hc|]; lia. }
  eexists _, _. split; [unfold note; do 2 erewrite ST_bind_return by done; cbv zeta; rewrite Hnew, Hi; reflexivity|].
  set (s' := mkCmp (<[k := d]> (differences s)) (maxCount s - 1)).
  assert (Hsz : maxCount s' = M0 - Z.of_nat (size (differences s'))).
  { cbn. rewrite map_size_insert_None by done. lia. }
  assert (Hall : ∀ k', D !! k' = match differences s' !! k' with Some d => Some d | None => R' k' end).
  { intros k'. rewrite (go_all _ _ Hg). cbn. destruct (decide (k' = k)) as [->|Hn].
    - by rewrite lookup_insert_eq, Hnew.
    - by rewrite lookup_insert_ne, Hne. }
  destruct (Z.ltb_spec 0 (maxCount s - 1)) as [Hpos|Hneg]; cbn [outcome].
  - split; [done| |done|by right]. intros k' d' Hd'. cbn. destruct (decide (k' = k)) as [->|Hn]; [congruence|].
    rewrite lookup_insert_ne by done. apply (go_new _ _ Hg k' d'). by rewrite <- Hne.
  - split; [|apply insert_non_empty|done|].
    2: { unfold s'. cbn [maxCount]. destruct Hlive as [He|Hl]; [rewrite He, map_size_empty in Hc|]; lia. }
    intros k' d' Hd'. rewrite Hall. fold s'. change (differences s' !! k' = Some d') in Hd'. by rewrite Hd'.
Qed.
End count.

(** ** The stack of [walkBranch] *)

Definition kids_at (cs : list (option (Z * ltree))) (js : list nat) : list ltree :=
  omap (λ i, match cs !! i with Some (Some (_, t)) => Some t | _ => None end) js.

Lemma omap_filter {A B} (f : A → option B) (P : A → Prop) `{∀ x, Decision (P x)} (l : list A) :
  (∀ x, ¬ P x → f x = None) → omap f (filter P l) = omap f l.
Proof.
  intros Hf. induction l as [|x l IH]; [done|]. rewrite filter_cons. destruct (decide (P x)) as [Hp|Hp]; cbn.
  - by rewrite IH.
  - by rewrite IH, (Hf x Hp).
Qed.

Lemma omap_map {A B C} (g : A → B) (f : B → option C) (l : list A) : omap f (map g l) = omap (λ x, f (g x)) l.
Proof. induction l as [|x l IH]; [done|]. cbn. by rewrite IH. Qed.

Lemma kids_full cs : kids_at cs (full_branches (shape cs)) = kids_at cs (seq 0 branchFactor).
Proof.
  apply omap_filter. intros i. rewrite isEmptyBranch_shape. destruct (cs !! i) as [[[hh t]|]|]; [|done..]. done.
Qed.

Lemma kids_seq cs :
  kids_at cs (seq 0 (length cs)) = omap (λ o : option (Z * ltree), snd <$> o) cs.
Proof.
  unfold kids_at. induction cs as [|o cs IH]; [done|]. cbn [length seq omap list_omap].
  rewrite <- seq_shift, omap_map. cbn [lookup list_lookup]. rewrite <- IH. by destruct o as [[hh t]|].
Qed.

Definition sitems (ts : list ltree) : list SHAMapItem := concat (map (λ t, items (erase t)) ts).

Lemma kids_items l w h cs :
  length cs = branchFactor → sitems (kids_at cs (full_branches (shape cs))) = items (erase (LInner l w h cs)).
Proof.
  intros Hlen. rewrite kids_full, <- Hlen, kids_seq, erase_inner. cbn [items]. clear Hlen.
  induction cs as [|o cs IH]; [done|]. cbn [ekids map concat]. change (map _ cs) with (ekids cs). rewrite <- IH.
  by destruct o as [[hh t]|].
Qed.

Definition tnodes (t : ltree) : nat := length (pick true t) + length (pick false t).

Lemma kids_nodes l w h cs :
  length cs = branchFactor →
  tnodes (LInner l w h cs) = S (sum_list_with tnodes (kids_at cs (full_branches (shape cs)))).
Proof.
  intros Hlen. rewrite kids_full, <- Hlen, kids_seq. unfold tnodes. cbn [pick app length]. clear Hlen.
  rewrite Nat.add_succ_r. f_equal. induction cs as [|o cs IH]; [done|]. cbn [map concat]. rewrite !length_app.
  destruct o as [[hh t]|]; cbn [omap list_omap sum_list_with]; [cbn [fmap option_fmap option_map sum_list_with]|]; cbn; lia.
Qed.

(** ** [walkBranch] *)

Section walk.
Context (heap : gmap loc TreeNode) (M0 : Z) (HM : - 2 ^ 31 < M0 < 2 ^ 31) (D : Delta).

Lemma read_run l n s : heap !! l = Some n → read heap l s = (Return n, s).
Proof. intros H. unfold read. by rewrite H. Qed.

Lemma child_run cs i hh t s : cs !! i = Some (Some (hh, t)) → child (shape cs) i s = (Return (lroot t), s).
Proof.
  intros H. unfold child. erewrite ST_bind_return by (unfold slift; by rewrite (getChild_shape _ _ _ _ H)). done.
Qed.

Lemma push_run cs js stack s :
  (∀ j, j ∈ js → ∃ hh t, cs !! j = Some (Some (hh, t))) →
  push_children (shape cs) js stack s = (Return (rev (lroot <$> kids_at cs js) ++ stack), s).
Proof.
  revert stack. induction js as [|j js IH]; intros stack Hjs; [done|]. cbn [push_children].
  destruct (Hjs j) as (hh & t & Hj); [by left|].
  erewrite ST_bind_return by (by apply (child_run cs j hh t)). rewrite IH by (intros i Hi; apply Hjs; by right).
  unfold kids_at. cbn [omap list_omap]. rewrite Hj. rewrite fmap_cons. cbn [rev]. by rewrite <- (assoc_L (++)).
Qed.

(** The differences between the items of a stack and the other item. *)
Definition other_at (o : option SHAMapItem) (k : Z) : option SHAMapItem :=
  match o with Some x => if key x =? k then Some x else None | None => None end.

Definition walk_todo (first : bool) (its : list SHAMapItem) (o : option SHAMapItem) : todo :=
  λ k, dfo first (at_key its k) (other_at o k).

Lemma dfo_same first a : dfo first a a = None.
Proof. unfold dfo. by rewrite decide_True. Qed.

Lemma dfo_diff first a b : a ≠ b → dfo first a b = Some (oriented first a b).
Proof. intros H. unfold dfo. by rewrite decide_False. Qed.

(** A stack of trees in memory. *)
Definition stack_ok (ty : SHAMapNodeType) (ts : list ltree) : Prop :=
  Forall (λ t, holds heap t ∧ ∃ d p, pfx ty d p (erase t)) ts ∧ keys_differ (sitems ts).

(** The item [x] on top of the stack is noted. *)
Lemma walk_note first x its o o' R s :
  keys_differ (x :: its) → apart (walk_todo first (x :: its) o) R →
  going M0 D s (plus (walk_todo first (x :: its) o) R) →
  other_at o (key x) ≠ Some x → other_at o' (key x) = None → (∀ k, k ≠ key x → other_at o' k = other_at o k) →
  ∃ b s', note (key x) (oriented first (Some x) (other_at o (key x))) s = (Return b, s') ∧
    outcome M0 D b s' (plus (walk_todo first its o') R) ∧ apart (walk_todo first its o') R.
Proof using HM.
  intros Hd Hap Hg Hne Ho' Heq. unfold keys_differ in Hd. rewrite fmap_cons, NoDup_cons in Hd. destruct Hd as [Hx Hd].
  assert (Hat : at_key (x :: its) (key x) = Some x) by (cbn; by rewrite Z.eqb_refl).
  assert (Hits : at_key its (key x) = None).
  { apply at_key_None. intros y Hy Hk. apply Hx. rewrite <- Hk. by apply list_elem_of_fmap_2. }
  assert (Hoth : ∀ k, k ≠ key x → walk_todo first its o' k = walk_todo first (x :: its) o k).
  { intros k Hk. unfold walk_todo. rewrite Heq by done. cbn. by rewrite (proj2 (Z.eqb_neq _ _)). }
  assert (Hw : walk_todo first (x :: its) o (key x) = Some (oriented first (Some x) (other_at o (key x)))).
  { unfold walk_todo. rewrite Hat. by apply dfo_diff. }
  assert (Hw' : walk_todo first its o' (key x) = None).
  { unfold walk_todo. rewrite Hits, Ho'. apply dfo_same. }
  destruct (note_run M0 HM D s (plus (walk_todo first (x :: its) o) R) (plus (walk_todo first its o') R) (key x)
    (oriented first (Some x) (other_at o (key x)))) as (b & s' & Hrun & Hout); [done| | | |].
  - unfold plus. by rewrite Hw.
  - unfold plus. rewrite Hw'. by eapply Hap.
  - intros k Hk. unfold plus. by rewrite Hoth.
  - exists b, s'. split_and!; [done|done|]. intros k d Hk. destruct (decide (k = key x)) as [->|Hk']; [congruence|].
    apply (Hap k d). by rewrite <- Hoth.
Qed.

Lemma stack_pop ty t ts : stack_ok ty (t :: ts) → holds heap t ∧ (∃ d p, pfx ty d p (erase t)) ∧ stack_ok ty ts.
Proof.
  intros [Hf Hk]. apply Forall_cons in Hf as [[Hh Hp] Hf]. split_and!; [done..|]. split; [done|].
  unfold sitems in Hk. cbn [map concat] in Hk. unfold keys_differ in *. rewrite fmap_app in Hk.
  by apply NoDup_app in Hk as (_ & _ & ?).
Qed.

Lemma stack_push ty l w hh cs ts :
  stack_ok ty (LInner l w hh cs :: ts) →
  let ts' := rev (kids_at cs (full_branches (shape cs))) ++ ts in
  stack_ok ty ts' ∧ sitems ts' ≡ₚ sitems (LInner l w hh cs :: ts).
Proof.
  intros Hok ts'. destruct (stack_pop _ _ _ Hok) as (Hh & (d & p & Hp) & Hts).
  pose proof Hp as (Hd & Hlen & Hcs)%pfx_inner.
  assert (Hperm : sitems ts' ≡ₚ sitems (LInner l w hh cs :: ts)).
  { unfold sitems, ts'. cbn [map concat]. rewrite <- (kids_items l w hh cs Hlen). unfold sitems.
    rewrite map_app, concat_app. f_equiv. rewrite map_rev. generalize (map (λ t, items (erase t)) (kids_at cs (full_branches (shape cs)))).
    intros ls. induction ls as [|x ls IH]; [done|]. cbn [rev concat]. rewrite concat_app, IH. cbn [concat].
    rewrite app_nil_r. apply Permutation_app_comm. }
  split; [|done]. split.
  - apply Forall_app. split; [|apply Hts]. apply Forall_forall. intros t Ht.
    rewrite list_elem_of_In, <- in_rev, <- list_elem_of_In in Ht.
    unfold kids_at in Ht. apply list_elem_of_omap in Ht as (i & _ & Hi).
    destruct (cs !! i) as [[[hc t']|]|] eqn:Hc; [|done..]. injection Hi as <-.
    split; [by eapply holds_child|]. eexists _, _. by eapply wf_pfx, Hcs.
  - unfold keys_differ. rewrite Hperm. apply Hok.
Qed.

Lemma walk_todo_perm first its its' o k :
  keys_differ its → its ≡ₚ its' → walk_todo first its o k = walk_todo first its' o k.
Proof.
  intros Hd Hp. unfold walk_todo. f_equal. apply at_key_ext; [done|unfold keys_differ; by rewrite <- Hp|].
  intros x _. by rewrite Hp.
Qed.

(** The stack is empty: the other item is noted if it was not matched. *)
Lemma walk_empty first fuel o R s :
  apart (walk_todo first [] o) R → going M0 D s (plus (walk_todo first [] o) R) →
  ∃ b s', walkBranch_loop heap fuel [] o first s = (Return b, s') ∧ outcome M0 D b s' R.
Proof using HM.
  intros Hap Hg.
  assert (Hrun : walkBranch_loop heap fuel [] o first s =
    match o with Some o => note (key o) (oriented first None (Some o)) | None => mret true end s) by (by destruct fuel).
  rewrite Hrun. destruct o as [x|].
  - assert (Hw : walk_todo first [] (Some x) (key x) = Some (oriented first None (Some x))).
    { unfold walk_todo. cbn. rewrite Z.eqb_refl. by apply dfo_diff. }
    assert (Hnone : ∀ k, k ≠ key x → walk_todo first [] (Some x) k = None).
    { intros k Hk. unfold walk_todo. cbn. rewrite (proj2 (Z.eqb_neq _ _)) by done. apply dfo_same. }
    eapply (note_run M0 HM D); [done|unfold plus; by rewrite Hw|by eapply Hap|].
    intros k Hk. unfold plus. by rewrite Hnone.
  - exists true, s. split; [done|]. eapply going_ext; [done|]. intros k. unfold plus, walk_todo. cbn. by rewrite dfo_same.
Qed.

(** A leaf on top of the stack. *)
Lemma walk_leaf first fuel ts o R s l w hh ty' it :
  holds heap (LLeaf l w hh ty' it) → keys_differ (it :: sitems ts) →
  apart (walk_todo first (it :: sitems ts) o) R → going M0 D s (plus (walk_todo first (it :: sitems ts) o) R) →
  (∀ o' s', apart (walk_todo first (sitems ts) o') R → going M0 D s' (plus (walk_todo first (sitems ts) o') R) →
     ∃ b s'', walkBranch_loop heap fuel (lroot <$> ts) o' first s' = (Return b, s'') ∧ outcome M0 D b s'' R) →
  ∃ b s', walkBranch_loop heap (S fuel) (l :: (lroot <$> ts)) o first s = (Return b, s') ∧ outcome M0 D b s' R.
Proof using HM.
  intros Hh Hd Hap Hg IH. cbn [walkBranch_loop].
  erewrite ST_bind_return by (by apply read_run, (holds_root _ _ Hh)). cbn [lnode].
  assert (Hnote : ∀ o', other_at o (key it) ≠ Some it → other_at o' (key it) = None →
    (∀ k, k ≠ key it → other_at o' k = other_at o k) →
    ∃ b s', (more ← note (key it) (oriented first (Some it) (other_at o (key it)));
             if (more : bool) then walkBranch_loop heap fuel (lroot <$> ts) o' first else mret false) s =
            (Return b, s') ∧ outcome M0 D b s' R).
  { intros o' Hne Ho' Heq. destruct (walk_note _ _ _ _ o' _ _ Hd Hap Hg Hne Ho' Heq) as (b & s' & Hrun & Hout & Hap').
    erewrite ST_bind_return by exact Hrun. destruct b; [by apply IH|]. by exists false, s'. }
  destruct o as [x|]; [|apply (Hnote None); done].
  cbn [other_at] in Hnote. destruct (Z.eqb_spec (key it) (key x)) as [Hk|Hk]; cbn [negb].
  - rewrite Hk, Z.eqb_refl in Hnote. rewrite Hk. case_bool_decide as Hdata.
    + apply Hnote; [intros [= ->]; done|done|]. intros k Hne. cbn. by rewrite (proj2 (Z.eqb_neq (key x) k)).
    + assert (it = x) as ->.
      { destruct it, x. cbn in *. congruence. }
      assert (Hsame : ∀ k, walk_todo first (sitems ts) None k = walk_todo first (x :: sitems ts) (Some x) k).
      { intros k. unfold walk_todo. cbn. destruct (Z.eqb_spec (key x) k) as [<-|]; [|done].
        rewrite dfo_same, at_key_None; [apply dfo_same|]. intros y Hy Hyk.
        unfold keys_differ in Hd. rewrite fmap_cons, NoDup_cons in Hd. apply Hd. rewrite <- Hyk. by apply list_elem_of_fmap_2. }
      apply IH; [intros k d; rewrite Hsame; apply Hap|].
      eapply going_ext; [done|]. intros k. unfold plus. by rewrite Hsame.
  - rewrite (proj2 (Z.eqb_neq (key x) (key it))) in Hnote by done.
    apply Hnote; [done|cbn; by rewrite (proj2 (Z.eqb_neq (key x) (key it)))|done].
Qed.

Lemma walkBranch_loop_run ty first fuel ts o R s :
  stack_ok ty ts → (sum_list_with tnodes ts ≤ fuel)%nat → apart (walk_todo first (sitems ts) o) R →
  going M0 D s (plus (walk_todo first (sitems ts) o) R) →
  ∃ b s', walkBranch_loop heap fuel (lroot <$> ts) o first s = (Return b, s') ∧ outcome M0 D b s' R.
Proof using HM.
  revert ts o s. induction fuel as [|fuel IH]; intros ts o s Hok Hf Hap Hg.
  all: destruct ts as [|t ts].
  1, 3: by apply walk_empty.
  { exfalso. cbn [sum_list_with] in Hf. destruct t; unfold tnodes in Hf; cbn in Hf; lia. }
  destruct (stack_pop _ _ _ Hok) as (Hh & (d & p & Hp) & Hts). rewrite fmap_cons.
  destruct t as [l w hh ty' it|l w hh cs].
  - destruct Hok as [_ Hd]. eapply (walk_leaf first fuel ts); [done|exact Hd|exact Hap|exact Hg|].
    intros o' s' Hap' Hg'. apply IH; [done| |done|done]. cbn in Hf. lia.
  - destruct (stack_push _ _ _ _ _ _ Hok) as [Hok' Hperm]. pose proof Hp as (Hd & Hlen & Hcs)%pfx_inner.
    cbn [walkBranch_loop]. erewrite ST_bind_return by (by apply read_run, (holds_root _ _ Hh)). cbn [lnode].
    erewrite ST_bind_return.
    2: { apply push_run. intros j Hj. by apply full_branches_elem. }
    assert (Hlr : rev (lroot <$> kids_at cs (full_branches (shape cs))) ++ (lroot <$> ts) =
                  lroot <$> (rev (kids_at cs (full_branches (shape cs))) ++ ts)).
    { rewrite fmap_app. f_equal. symmetry. apply map_rev. }
    rewrite Hlr. apply IH; [done| | |].
    + rewrite sum_list_with_app. cbn [sum_list_with] in Hf. rewrite (kids_nodes l w hh cs Hlen) in Hf.
      assert (Hrev : ∀ ks, sum_list_with tnodes (rev ks) = sum_list_with tnodes ks).
      { intros ks. by rewrite <- Permutation_rev. }
      rewrite Hrev. lia.
    + intros k d'. rewrite (walk_todo_perm first _ _ o k (proj2 Hok') Hperm). apply Hap.
    + eapply going_ext; [exact Hg|]. intros k. unfold plus.
      by rewrite (walk_todo_perm first _ _ o k (proj2 Hok') Hperm).
Qed.
End walk.
