(* ===== verification/SHAMapCompare.v ===== *)
(** * [compare] finds exactly the differences: pairs of nodes *)
From S2P Require Import Prelude Outcome Bytes Serializer SHAMapNode SHAMap SHAMapTree SHAMapLoc SHAMapOps SHAMapMutate SHAMapDelete SHAMapFlush SHAMapIter SHAMapCanon SHAMapWire SHAMapHash SHAMapWorld SHAMapRefine SHAMapDelta.

(** ** Differences by branch *)

Definition none : todo := λ _, None.

Definition items_todo (l1 l2 : list SHAMapItem) : todo := λ k, dfo true (at_key l1 k) (at_key l2 k).

Definition branch_items (cs : list (option (Z * ltree))) (i : nat) : list SHAMapItem :=
  match cs !! i with Some (Some (_, t)) => items (erase t) | _ => [] end.

Definition branch_todo (cs1 cs2 : list (option (Z * ltree))) (i : nat) : todo :=
  items_todo (branch_items cs1 i) (branch_items cs2 i).

Fixpoint branches_todo (cs1 cs2 : list (option (Z * ltree))) (js : list nat) : todo :=
  match js with [] => none | j :: js => plus (branch_todo cs1 cs2 j) (branches_todo cs1 cs2 js) end.

Lemma dfo_flip a b : dfo false a b = dfo true b a.
Proof. unfold dfo. repeat case_decide; by subst. Qed.

Lemma apart_plus W R1 R2 : apart W R1 → apart W R2 → apart W (plus R1 R2).
Proof. intros H1 H2 k d Hk. unfold plus. by rewrite (H1 k d Hk), (H2 k d Hk). Qed.

Lemma apart_sym W R : apart W R → apart R W.
Proof.
  intros H k d Hk. destruct (W k) as [d'|] eqn:Hw; [|done]. specialize (H k d' Hw). congruence.
Qed.

Lemma apart_ext W W' R : (∀ k, W' k = W k) → apart W R → apart W' R.
Proof. intros He H k d. rewrite He. apply H. Qed.

(** The order of parts that are apart does not matter. *)
Lemma plus_swap W1 W2 R k : apart W1 W2 → plus W1 (plus W2 R) k = plus W2 (plus W1 R) k.
Proof.
  intros H. unfold plus. destruct (W1 k) as [d|] eqn:H1; [by rewrite (H k d H1)|done].
Qed.

Lemma plus_assoc W1 W2 R k : plus (plus W1 W2) R k = plus W1 (plus W2 R) k.
Proof. unfold plus. by destruct (W1 k). Qed.

Section inner.
Context (ty : SHAMapNodeType) (d : nat) (p : Z) (Hd : (d < 64)%nat).

Definition kids_wf (cs : list (option (Z * ltree))) : Prop :=
  length cs = branchFactor ∧
  ∀ i hh t, cs !! i = Some (Some (hh, t)) → wf ty (S d) (16 * p + Z.of_nat i) (erase t).

(** An item is in the branch of its nibble. *)
Lemma branch_items_nib cs i x :
  kids_wf cs → x ∈ branch_items cs i → nib (key x) d = i.
Proof using Hd.
  intros [Hlen Hcs] Hx. unfold branch_items in Hx. destruct (cs !! i) as [[[hh t]|]|] eqn:Hi; [|by apply elem_of_nil in Hx..].
  pose proof (lookup_lt_Some _ _ _ Hi) as Hlt. rewrite Hlen in Hlt. unfold branchFactor in Hlt.
  destruct (pfx_item _ _ _ _ _ (wf_pfx _ _ _ _ (Hcs _ _ _ Hi)) Hx) as [_ Hp]. rewrite pre_S in Hp by done.
  pose proof (nib_range (key x) d) as Hn. unfold branchFactor in Hn. lia.
Qed.

Lemma branch_at_key cs i k :
  kids_wf cs → nib k d ≠ i → at_key (branch_items cs i) k = None.
Proof using Hd.
  intros Hcs Hne. apply at_key_None. intros x Hx Hk. apply Hne. rewrite <- Hk. by eapply branch_items_nib.
Qed.

Lemma inner_at_key cs l w hh k :
  pfx ty d p (erase (LInner l w hh cs)) →
  at_key (items (erase (LInner l w hh cs))) k = at_key (branch_items cs (nib k d)) k.
Proof using Hd.
  intros Hp. pose proof Hp as (_ & Hlen & Hcs)%pfx_inner. apply at_key_ext.
  - by eapply tree_keys.
  - unfold branch_items. destruct (cs !! nib k d) as [[[hc t]|]|] eqn:Hi; [|constructor..].
    by eapply tree_keys, wf_pfx, Hcs.
  - intros x Hk. rewrite erase_inner, elem_of_items. split.
    + intros (i & c & Hi & Hx). apply erase_child in Hi as (hc & t & Hi & ->).
      assert (Hb : x ∈ branch_items cs i) by (unfold branch_items; by rewrite Hi).
      pose proof (branch_items_nib cs i x (conj Hlen Hcs) Hb) as Hn. by rewrite <- Hk, Hn.
    + unfold branch_items. destruct (cs !! nib k d) as [[[hc t]|]|] eqn:Hi; [|by intros ?%elem_of_nil..].
      intros Hx. eexists _, _. split; [apply erase_child; eauto|done].
Qed.

Context (cs1 cs2 : list (option (Z * ltree))) (Hk1 : kids_wf cs1) (Hk2 : kids_wf cs2).

Lemma branch_other i k : nib k d ≠ i → branch_todo cs1 cs2 i k = None.
Proof using Hd Hk1 Hk2.
  intros Hne. unfold branch_todo, items_todo. rewrite !branch_at_key by done. apply dfo_same.
Qed.

Lemma branch_apart i j : i ≠ j → apart (branch_todo cs1 cs2 i) (branch_todo cs1 cs2 j).
Proof using Hd Hk1 Hk2.
  intros Hij k x Hx. apply branch_other. intros Hk. rewrite branch_other in Hx; [done|congruence].
Qed.

Lemma branches_at js k :
  branches_todo cs1 cs2 js k = if decide (nib k d ∈ js) then branch_todo cs1 cs2 (nib k d) k else None.
Proof using Hd Hk1 Hk2.
  induction js as [|j js IH]; [done|]. cbn [branches_todo]. unfold plus. rewrite IH.
  destruct (decide (nib k d = j)) as [->|Hne].
  - rewrite (decide_True (P := j ∈ j :: js)) by (by left). destruct (branch_todo cs1 cs2 j k); [done|].
    by destruct (decide (j ∈ js)).
  - rewrite branch_other by done. apply decide_ext. rewrite elem_of_cons. naive_solver.
Qed.

(** What differs between two inner nodes is what differs between their branches. *)
Lemma inner_todo l1 w1 h1 l2 w2 h2 k :
  items_todo (items (erase (LInner l1 w1 h1 cs1))) (items (erase (LInner l2 w2 h2 cs2))) k =
  branches_todo cs1 cs2 (seq 0 branchFactor) k.
Proof using Hd Hk1 Hk2.
  rewrite branches_at, decide_True by (apply elem_of_seq; pose proof (nib_range k d); unfold branchFactor; lia).
  unfold items_todo. rewrite !inner_at_key; [done|by apply pfx_inner..].
Qed.
End inner.

(** ** The pairs on the stack *)

Section compare.
Context (sha512Half : list Z → Z) (Hsha : ∀ x, 0 < sha512Half x < 2 ^ 256).
Context (h : gmap loc TreeNode) (M0 : Z) (HM : - 2 ^ 31 < M0 < 2 ^ 31) (D : Delta) (ty : SHAMapNodeType) (Hty : ty ≠ tnINNER).

(** A tree of hashed nodes in memory. *)
Record side (d : nat) (p : Z) (t : ltree) : Prop := {
  sd_pfx : pfx ty d p (erase t);
  sd_holds : holds h t;
  sd_uniq : uniq t;
  sd_clean : clean sha512Half t;
  sd_keyed x : x ∈ items (erase t) → keyed sha512Half ty x }.

Definition pair_ok (tt : ltree * ltree) : Prop :=
  (∃ d p, side d p tt.1 ∧ side d p tt.2) ∧ no_collision sha512Half (erase tt.1) (erase tt.2).

Definition pair_todo (tt : ltree * ltree) : todo := items_todo (items (erase tt.1)) (items (erase tt.2)).

(** The differences in the pairs of a stack. *)
Inductive pairs_ok : list (ltree * ltree) → todo → Prop :=
  | pairs_nil R : (∀ k, R k = None) → pairs_ok [] R
  | pairs_cons tt ps R R' :
      pair_ok tt → pairs_ok ps R → apart (pair_todo tt) R → (∀ k, R' k = plus (pair_todo tt) R k) →
      pairs_ok (tt :: ps) R'.

Lemma walkBranch_run d p t o first R s :
  side d p t → apart (walk_todo first (items (erase t)) o) R →
  going M0 D s (plus (walk_todo first (items (erase t)) o) R) →
  ∃ b s', walkBranch h (lroot t) o first s = (Return b, s') ∧ outcome M0 D b s' R.
Proof using HM.
  intros Ht. assert (Hs : sitems [t] = items (erase t)) by (unfold sitems; cbn; by rewrite app_nil_r).
  rewrite <- Hs. apply (walkBranch_loop_run h M0 HM D ty first (walk_fuel h) [t]).
  - split; [|rewrite Hs; eapply tree_keys, Ht]. apply Forall_singleton. split; [apply Ht|eexists _, _; apply Ht].
  - cbn. unfold walk_fuel, tnodes.
    pose proof (pick_bound true _ _ (sd_holds _ _ _ Ht) (sd_uniq _ _ _ Ht)).
    pose proof (pick_bound false _ _ (sd_holds _ _ _ Ht) (sd_uniq _ _ _ Ht)). lia.
Qed.

Lemma side_child d p l w hh cs i hc t :
  side d p (LInner l w hh cs) → cs !! i = Some (Some (hc, t)) →
  side (S d) (16 * p + Z.of_nat i) t ∧ wf ty (S d) (16 * p + Z.of_nat i) (erase t) ∧ hc = thash sha512Half (erase t).
Proof.
  intros Ht Hi. pose proof (sd_pfx _ _ _ Ht) as (_ & _ & Hcs)%pfx_inner.
  pose proof (sd_clean _ _ _ Ht) as Hc. inv Hc as [|? ? Hcl Hhash]. pose proof (sd_uniq _ _ _ Ht) as Hu.
  inv Hu as [|? ? ? ? Hu' _]. split_and!; [split|by eapply Hcs|by eapply Hhash].
  - by eapply wf_pfx, Hcs.
  - eapply holds_child; [apply Ht|done].
  - by eapply Hu'.
  - by eapply Hcl.
  - intros x Hx. apply (sd_keyed _ _ _ Ht). rewrite erase_inner. apply elem_of_items. eexists _, _.
    split; [apply erase_child; eauto|done].
Qed.

Definition weight (ps : list (ltree * ltree)) : nat := sum_list_with (λ tt, tnodes tt.1) ps.

Definition lroots (tt : ltree * ltree) : loc * loc := (lroot tt.1, lroot tt.2).

Lemma child_hash cs i :
  getChildHash (shape cs) i = match cs !! i with Some (Some (hc, _)) => hc | _ => 0 end.
Proof. unfold getChildHash. rewrite shape_lookup. by destruct (cs !! i) as [[[hc t]|]|]. Qed.

(** Two inner nodes that are compared. *)
Section branches.
Context (d : nat) (p : Z) (l1 l2 : loc) (w1 w2 h1 h2 : Z) (cs1 cs2 : list (option (Z * ltree))).
Context (Ht1 : side d p (LInner l1 w1 h1 cs1)) (Ht2 : side d p (LInner l2 w2 h2 cs2)).
Context (Hnc : no_collision sha512Half (erase (LInner l1 w1 h1 cs1)) (erase (LInner l2 w2 h2 cs2))).

Lemma kids_no_collision i hc1 t1 hc2 t2 :
  cs1 !! i = Some (Some (hc1, t1)) → cs2 !! i = Some (Some (hc2, t2)) → no_collision sha512Half (erase t1) (erase t2).
Proof using Hnc.
  intros H1 H2 x y Hx Hy. apply Hnc; rewrite erase_inner; (eapply hashed_child; [apply erase_child; eauto|done]).
Qed.

(** Branches with the same hash have the same items. *)
Lemma same_hash i :
  getChildHash (shape cs1) i = getChildHash (shape cs2) i → branch_items cs1 i = branch_items cs2 i.
Proof using Hsha Hty Hnc Ht1 Ht2.
  rewrite !child_hash. unfold branch_items.
  destruct (cs1 !! i) as [[[hc1 t1]|]|] eqn:H1, (cs2 !! i) as [[[hc2 t2]|]|] eqn:H2; try done.
  all: try (destruct (side_child _ _ _ _ _ _ _ _ _ Ht1 H1) as (Hs1 & Hw1 & ->); pose proof (thash_pos _ Hsha _ _ _ _ Hw1)).
  all: try (destruct (side_child _ _ _ _ _ _ _ _ _ Ht2 H2) as (Hs2 & Hw2 & ->); pose proof (thash_pos _ Hsha _ _ _ _ Hw2)).
  all: try lia.
  intros He. f_equal. eapply (thash_inj sha512Half Hsha ty); [done|exact Hw1|exact Hw2|apply Hs1|apply Hs2| |done].
  by eapply kids_no_collision.
Qed.

(** What the rest of the loop over the branches gives. *)
Definition next_ok (n : nat) (r : option (list (loc * loc))) (s : CmpState) : Prop :=
  match r with
  | None => stopped M0 D s
  | Some st => ∃ ps R, st = lroots <$> ps ∧ pairs_ok ps R ∧ going M0 D s R ∧ (weight ps ≤ n)%nat
  end.

(** A branch that only one of the nodes has. *)
Lemma walk_one i first t R s (k : ST CmpState (option (list (loc * loc)))) n :
  side (S d) (16 * p + Z.of_nat i) t →
  (∀ k, walk_todo first (items (erase t)) None k = branch_todo cs1 cs2 i k) →
  apart (branch_todo cs1 cs2 i) R → going M0 D s (plus (branch_todo cs1 cs2 i) R) →
  (∀ s, going M0 D s R → ∃ r s', k s = (Return r, s') ∧ next_ok n r s') →
  ∃ r s', (more ← walkBranch h (lroot t) None first; if (more : bool) then k else mret None) s = (Return r, s') ∧
    next_ok n r s'.
Proof using HM.
  intros Ht Hw Hap Hg Hk. destruct (walkBranch_run _ _ t None first R s Ht) as (b & s1 & Hrun & Hout).
  - by eapply apart_ext, Hap.
  - eapply going_ext; [exact Hg|]. intros k'. unfold plus. by rewrite Hw.
  - erewrite ST_bind_return by exact Hrun. destruct b; [by apply Hk|]. by exists None, s1.
Qed.

Lemma next_ok_mono n n' r s : (n ≤ n')%nat → next_ok n r s → next_ok n' r s.
Proof.
  intros Hn. destruct r as [st|]; [|done]. intros (ps & R & ? & ? & ? & ?). exists ps, R. split_and!; [done..|lia].
Qed.

Lemma kids_at_cons j js :
  sum_list_with tnodes (kids_at cs1 (j :: js)) =
  (match cs1 !! j with Some (Some (_, t)) => tnodes t | _ => 0 end + sum_list_with tnodes (kids_at cs1 js))%nat.
Proof. unfold kids_at. cbn [omap list_omap]. by destruct (cs1 !! j) as [[[hc t]|]|]. Qed.

(** A branch whose hashes differ. *)
Lemma branch_step j js ps R s n :
  getChildHash (shape cs1) j ≠ getChildHash (shape cs2) j → pairs_ok ps R →
  apart (branch_todo cs1 cs2 j) R → apart (branch_todo cs1 cs2 j) (branches_todo cs1 cs2 js) →
  going M0 D s (plus (branch_todo cs1 cs2 j) (plus (branches_todo cs1 cs2 js) R)) →
  (weight ps + sum_list_with tnodes (kids_at cs1 (j :: js)) ≤ n)%nat →
  (∀ ps' R' s', pairs_ok ps' R' → (R' = R ∨ R' = plus (branch_todo cs1 cs2 j) R) →
     going M0 D s' (plus (branches_todo cs1 cs2 js) R') →
     (weight ps' + sum_list_with tnodes (kids_at cs1 js) ≤ n)%nat →
     ∃ r s'', compare_branches h (shape cs1) (shape cs2) js (lroots <$> ps') s' = (Return r, s'') ∧ next_ok n r s'') →
  ∃ r s', compare_branches h (shape cs1) (shape cs2) (j :: js) (lroots <$> ps) s = (Return r, s') ∧ next_ok n r s'.
Proof using HM Hnc Ht1 Ht2.
  intros Hne Hps Hap Happ Hg Hn IH. cbn [compare_branches]. rewrite (proj2 (Z.eqb_neq _ _)) by done.
  rewrite kids_at_cons in Hn.
  rewrite !isEmptyBranch_shape. rewrite !child_hash in Hne.
  assert (Hskip : ∀ s', going M0 D s' (plus (branches_todo cs1 cs2 js) R) → ∃ r s'',
    compare_branches h (shape cs1) (shape cs2) js (lroots <$> ps) s' = (Return r, s'') ∧ next_ok n r s'').
  { intros s' Hg'. eapply (IH ps R); [done|by left|done|lia]. }
  destruct (cs1 !! j) as [[[hc1 t1]|]|] eqn:H1, (cs2 !! j) as [[[hc2 t2]|]|] eqn:H2; try done.
  all: try (erewrite ST_bind_return by (by eapply child_run)).
  all: try (destruct (side_child _ _ _ _ _ _ _ _ _ Ht1 H1) as (Hs1 & Hw1 & ->)).
  all: try (destruct (side_child _ _ _ _ _ _ _ _ _ Ht2 H2) as (Hs2 & Hw2 & ->)).
  2-5: (eapply (walk_one j _ _ (plus (branches_todo cs1 cs2 js) R)); [done| |by apply apart_plus|done|done];
    intros k; unfold walk_todo, branch_todo, items_todo, branch_items; rewrite H1, H2; rewrite ?dfo_flip; done).
  erewrite ST_bind_return by (by eapply child_run).
  assert (Hbt : ∀ k, pair_todo (t1, t2) k = branch_todo cs1 cs2 j k).
  { intros k. unfold pair_todo, branch_todo, branch_items. by rewrite H1, H2. }
  apply (IH ((t1, t2) :: ps) (plus (branch_todo cs1 cs2 j) R)); [|by right| |].
  - eapply pairs_cons; [|exact Hps| |].
    + split; [eexists _, _; by split|by eapply kids_no_collision].
    + by eapply apart_ext, Hap.
    + intros k. unfold plus. by rewrite Hbt.
  - eapply going_ext; [exact Hg|]. intros k. symmetry. by apply plus_swap.
  - unfold weight in *. cbn [sum_list_with fst]. lia.
Qed.

Lemma branches_run js ps R s n :
  NoDup js → pairs_ok ps R → (∀ j, j ∈ js → apart (branch_todo cs1 cs2 j) R) →
  going M0 D s (plus (branches_todo cs1 cs2 js) R) → (weight ps + sum_list_with tnodes (kids_at cs1 js) ≤ n)%nat →
  ∃ r s', compare_branches h (shape cs1) (shape cs2) js (lroots <$> ps) s = (Return r, s') ∧ next_ok n r s'.
Proof using Hsha Hty HM Hnc Ht1 Ht2.
  pose proof (sd_pfx _ _ _ Ht1) as (Hd & Hlen1 & Hcs1)%pfx_inner.
  pose proof (sd_pfx _ _ _ Ht2) as (_ & Hlen2 & Hcs2)%pfx_inner.
  revert ps R s. induction js as [|j js IH]; intros ps R s Hnd Hps Hap Hg Hn.
  { exists (Some (lroots <$> ps)), s. split; [done|]. exists ps, R. split_and!; [done..|cbn in Hn; lia]. }
  apply NoDup_cons in Hnd as [Hj Hnd].
  assert (Hap' : ∀ i, i ∈ js → apart (branch_todo cs1 cs2 i) R) by (intros i Hi; apply Hap; by right).
  assert (Hdis : ∀ i, i ∈ js → apart (branch_todo cs1 cs2 i) (branch_todo cs1 cs2 j)).
  { intros i Hi. apply (branch_apart ty d p Hd); [done..|]. intros ->. done. }
  assert (Happ : apart (branch_todo cs1 cs2 j) (branches_todo cs1 cs2 js)).
  { intros k x Hx. rewrite (branches_at ty d p Hd) by done. case_decide as Hin; [|done].
    by eapply (apart_sym _ _ (Hdis _ Hin)). }
  assert (Hg' : going M0 D s (plus (branch_todo cs1 cs2 j) (plus (branches_todo cs1 cs2 js) R))).
  { eapply going_ext; [exact Hg|]. intros k. symmetry. apply plus_assoc. }
  destruct (decide (getChildHash (shape cs1) j = getChildHash (shape cs2) j)) as [He|He].
  - cbn [compare_branches]. rewrite (proj2 (Z.eqb_eq _ _)) by done. apply (IH ps R); [done..| |].
    + eapply going_ext; [exact Hg'|]. intros k. unfold plus at 2. unfold branch_todo, items_todo.
      by rewrite (same_hash j He), dfo_same.
    + rewrite kids_at_cons in Hn. lia.
  - eapply branch_step; [done|done|apply Hap; by left|done|done|done|]. intros ps' R' s' Hps' [->| ->] Hgo Hw; eapply (IH ps' _ s'); try done.
    intros i Hi. apply apart_plus; [by apply Hdis|by apply Hap'].
Qed.
End branches.

(** ** The loop over the stack *)

(** The rest of the loop, when the differences [R] are left. *)
Definition rest_ok (R : todo) (k : ST CmpState bool) : Prop :=
  ∀ s, going M0 D s R → ∃ b s', k s = (Return b, s') ∧ outcome M0 D b s' none.

Lemma more_then (m k : ST CmpState bool) R s :
  (∃ b s', m s = (Return b, s') ∧ outcome M0 D b s' R) → rest_ok R k →
  ∃ b s', (more ← m; if (more : bool) then k else mret false) s = (Return b, s') ∧ outcome M0 D b s' none.
Proof.
  intros (b & s1 & Hrun & Hout) Hk. erewrite ST_bind_return by exact Hrun. destruct b; [by apply Hk|]. by exists false, s1.
Qed.

(** Two leaves. *)
Lemma leaves_run x y R s (k : ST CmpState bool) :
  apart (items_todo [x] [y]) R → going M0 D s (plus (items_todo [x] [y]) R) → rest_ok R k →
  ∃ b s', (if key x =? key y then
             if bool_decide (peekData x ≠ peekData y) then
               more ← note (key x) (Some x, Some y); if (more : bool) then k else mret false
             else k
           else
             more ← note (key x) (Some x, None);
             if (more : bool) then
               more ← note (key y) (None, Some y); if (more : bool) then k else mret false
             else mret false) s = (Return b, s') ∧ outcome M0 D b s' none.
Proof using HM.
  intros Hap Hg Hk.
  assert (Hat : ∀ k, items_todo [x] [y] k = dfo true (other_at (Some x) k) (other_at (Some y) k)) by done.
  cbn [other_at] in Hat. destruct (Z.eqb_spec (key x) (key y)) as [He|He].
  - destruct (decide (x = y)) as [<-|Hne].
    + rewrite bool_decide_eq_false_2 by (intros H; by apply H). apply Hk. eapply going_ext; [exact Hg|].
      intros k'. unfold plus. by rewrite Hat, dfo_same.
    + rewrite bool_decide_eq_true_2 by (intros H; apply Hne; destruct x, y; cbn in *; congruence).
      assert (Hx : items_todo [x] [y] (key x) = Some (Some x, Some y)).
      { rewrite Hat, <- He, Z.eqb_refl. apply dfo_diff. congruence. }
      apply (more_then _ _ R); [|done]. eapply (note_run M0 HM D); [exact Hg|unfold plus; by rewrite Hx|by eapply Hap|].
      intros k' Hk'. unfold plus. rewrite Hat, <- He, (proj2 (Z.eqb_neq (key x) k')), dfo_same by done. done.
  - assert (Hx : items_todo [x] [y] (key x) = Some (Some x, None)).
    { rewrite Hat, Z.eqb_refl, (proj2 (Z.eqb_neq (key y) (key x))) by done. by apply dfo_diff. }
    assert (Hy : items_todo [x] [y] (key y) = Some (None, Some y)).
    { rewrite Hat, Z.eqb_refl, (proj2 (Z.eqb_neq (key x) (key y))) by done. by apply dfo_diff. }
    assert (Hz : ∀ k', k' ≠ key x → items_todo [x] [y] k' = items_todo [] [y] k').
    { intros k' Hk'. rewrite Hat, (proj2 (Z.eqb_neq (key x) k')) by done. done. }
    apply (more_then _ _ (plus (items_todo [] [y]) R)).
    + eapply (note_run M0 HM D); [exact Hg|unfold plus; by rewrite Hx| |intros k' Hk'; unfold plus; by rewrite Hz].
      unfold plus, items_todo. cbn [at_key]. rewrite (proj2 (Z.eqb_neq (key y) (key x))), dfo_same by done. by eapply Hap.
    + intros s' Hg'. apply (more_then _ _ R); [|done]. eapply (note_run M0 HM D); [exact Hg'| |by eapply Hap|].
      * unfold plus. rewrite <- Hz, Hy by done. done.
      * intros k' Hk'. unfold plus, items_todo. cbn [at_key]. rewrite (proj2 (Z.eqb_neq (key y) k')), dfo_same by done. done.
Qed.

(** A leaf against an inner node. *)
Lemma mixed_run d p t o first R s (k : ST CmpState bool) :
  side d p t → apart (walk_todo first (items (erase t)) (Some o)) R →
  going M0 D s (plus (walk_todo first (items (erase t)) (Some o)) R) → rest_ok R k →
  ∃ b s', (more ← walkBranch h (lroot t) (Some o) first; if (more : bool) then k else mret false) s = (Return b, s') ∧
    outcome M0 D b s' none.
Proof using HM. intros Ht Hap Hg Hk. eapply more_then; [by eapply walkBranch_run|done]. Qed.

Lemma compare_loop_run fuel ps R s :
  pairs_ok ps R → going M0 D s R → (weight ps ≤ fuel)%nat →
  ∃ b s', compare_loop h fuel (lroots <$> ps) s = (Return b, s') ∧ outcome M0 D b s' none.
Proof using Hsha Hty HM.
  revert ps R s. induction fuel as [|fuel IH]; intros ps R s Hps Hg Hf.
  all: destruct Hps as [R HR|[t1 t2] ps R R' Hok Hps Hap HR].
  1, 3: (exists true, s; split; [done|]; by eapply going_ext).
  { exfalso. unfold weight in Hf. cbn [sum_list_with fst] in Hf. destruct t1; unfold tnodes in Hf; cbn in Hf; lia. }
  destruct Hok as [(d & p & Ht1 & Ht2) Hnc]. cbn [fst snd] in *. unfold weight in Hf. cbn [sum_list_with fst] in Hf.
  fold (weight ps) in Hf. assert (Hn : (1 ≤ tnodes t1)%nat) by (destruct t1; unfold tnodes; cbn; lia).
  rewrite fmap_cons. cbn [compare_loop lroots fst snd].
  do 2 erewrite ST_bind_return by (by apply read_run, holds_root, sd_holds with d p).
  assert (Hrest : rest_ok R (compare_loop h fuel (lroots <$> ps))) by (intros s' Hg'; eapply IH; [done..|lia]).
  assert (Hg' : going M0 D s (plus (pair_todo (t1, t2)) R)) by (eapply going_ext; [exact Hg|done]).
  destruct t1 as [l1 w1 h1 ty1 x|l1 w1 h1 cs1], t2 as [l2 w2 h2 ty2 y|l2 w2 h2 cs2]; cbn [lnode].
  - by apply (leaves_run x y R).
  - assert (He : ∀ k, walk_todo false (items (erase (LInner l2 w2 h2 cs2))) (Some x) k =
        pair_todo (LLeaf l1 w1 h1 ty1 x, LInner l2 w2 h2 cs2) k) by (intros k; unfold walk_todo; by rewrite dfo_flip).
    eapply (mixed_run d p _ _ _ R); [done|by eapply apart_ext, Hap|eapply going_ext; [exact Hg'|]|done].
    intros k. unfold plus. by rewrite He.
  - by apply (mixed_run d p _ _ _ R).
  - assert (He := inner_todo ty d p).
    pose proof (sd_pfx _ _ _ Ht1) as (Hd & Hk1)%pfx_inner. pose proof (sd_pfx _ _ _ Ht2) as (_ & Hk2)%pfx_inner.
    specialize (He Hd cs1 cs2 Hk1 Hk2 l1 w1 h1 l2 w2 h2).
    rewrite (kids_nodes l1 w1 h1 cs1 (proj1 Hk1)) in Hf. rewrite kids_full in Hf.
    destruct (branches_run d p l1 l2 w1 w2 h1 h2 cs1 cs2 Ht1 Ht2 Hnc (seq 0 branchFactor) ps R s fuel)
      as (r & s1 & Hrun & Hnext); [apply NoDup_seq|done| | |lia|].
    + intros j Hj k x Hx. eapply (Hap k x). unfold pair_todo. cbn [fst snd]. rewrite He.
      rewrite (branches_at ty d p Hd) by done. assert (nib k d = j) as ->; [|by rewrite decide_True].
      destruct (decide (nib k d = j)); [done|]. by rewrite (branch_other ty d p Hd) in Hx.
    + eapply going_ext; [exact Hg'|]. intros k. unfold plus, pair_todo. cbn [fst snd]. by rewrite He.
    + erewrite ST_bind_return by exact Hrun. destruct r as [st|]; [|by exists false, s1].
      destruct Hnext as (ps' & R1 & -> & Hps' & Hg1 & Hw). by eapply IH.
Qed.
End compare.

(** ** Two maps of a program *)

(** The differences of two finite maps. *)
Definition map_delta (m1 m2 : gmap Z (list Z)) : Delta :=
  map_imap (λ k ab, if decide (ab.1 = ab.2) then None else Some (mkItem k <$> ab.1, mkItem k <$> ab.2))
    (merge (λ a b, Some (a, b)) m1 m2).

Lemma map_delta_lookup m1 m2 k :
  map_delta m1 m2 !! k = dfo true (mkItem k <$> m1 !! k) (mkItem k <$> m2 !! k).
Proof.
  unfold map_delta. rewrite map_lookup_imap, lookup_merge. unfold dfo, oriented.
  destruct (m1 !! k) as [a|], (m2 !! k) as [b|]; cbn [diag_None mbind option_bind fst snd fmap option_fmap option_map];
    repeat case_decide; naive_solver.
Qed.

Section world.
Context (sha512Half : list Z → Z) (Hsha : ∀ x, 0 < sha512Half x < 2 ^ 256).

Lemma hash_step w a ts i am :
  world_rel sha512Half w a ts → a !! i = Some am →
  ∃ w' ts' t', on_map i (getHash_map sha512Half) w =
      (Return (root_hash sha512Half (aty am) (alist (items_ am))), w') ∧
    world_rel sha512Half w' a ts' ∧ ts' !! i = Some t' ∧ clean sha512Half t' ∧
    (∀ j, j ≠ i → ts' !! j = ts !! j).
Proof.
  intros Hw Ha. destruct (proj2 (wr_dom _ _ _ _ Hw i)) as [m Hi]; [eauto|].
  destruct (wr_map _ _ _ _ Hw i m am Hi Ha) as (t & Ht & HR). pose proof (mr_ok _ _ _ _ _ HR) as Hm.
  destruct (getHash_run sha512Half (aty am) _ m t Hm) as (h' & t' & Hrun & HU & He).
  exists (mkWorld h' (<[i := with_root m (lroot t')]> (maps w))), (<[i := t']> ts), t'. unfold on_map. rewrite Hi, Hrun.
  split_and!; [by rewrite (mr_hash _ _ _ _ _ HR)| |apply lookup_insert_eq|apply HU|].
  - rewrite <- (insert_id a i am) by done. eapply world_upd; [done..|].
    split; try apply HR; [by eapply map_ok_evo|intros _; apply HU|]. rewrite He. apply HR.
  - intros j Hj. by rewrite lookup_insert_ne.
Qed.

(** The transactions of the specification are filed under their hashes. *)
Definition akeyed (am : AMap) : Prop := ∀ k d, items_ am !! k = Some d → keyed sha512Half (aty am) (mkItem k d).

Definition atree (am : AMap) : tree := canon_root (aty am) (alist (items_ am)).

Lemma mr_tree h m am t : map_rel sha512Half h m am t → erase t = atree am.
Proof.
  intros HR. pose proof (mr_ok _ _ _ _ _ HR) as Hm. destruct (mo_inner _ _ _ _ _ Hm) as (l & w & hh & cs & ->).
  rewrite erase_inner. apply tree_canon.
  - rewrite <- (erase_inner l w hh). apply Hm.
  - apply alist_keys.
  - intros x. by rewrite <- (erase_inner l w hh), (mr_items _ _ _ _ _ HR), elem_of_alist.
Qed.

Lemma mr_at_key h m am t k : map_rel sha512Half h m am t → at_key (items (erase t)) k = mkItem k <$> items_ am !! k.
Proof.
  intros HR. apply option_eq. intros x. rewrite at_key_iff by (eapply tree_keys, HR).
  rewrite (mr_items _ _ _ _ _ HR), fmap_Some. split.
  - intros [Hx <-]. exists (peekData x). by destruct x.
  - intros (d & Hd & ->). done.
Qed.

Lemma mr_side h m am t :
  map_rel sha512Half h m am t → akeyed am → clean sha512Half t → side sha512Half h (aty am) 0 0 t.
Proof.
  intros HR Hk Hc. pose proof (mr_ok _ _ _ _ _ HR) as Hm. split; try apply Hm; [done|].
  intros x Hx%(mr_items _ _ _ _ _ HR). specialize (Hk _ _ Hx). by destruct x.
Qed.

(** Equal root hashes: equal contents. *)
Lemma atree_inj am1 am2 h1 m1 t1 h2 m2 t2 :
  map_rel sha512Half h1 m1 am1 t1 → map_rel sha512Half h2 m2 am2 t2 → aty am1 = aty am2 → akeyed am1 → akeyed am2 →
  no_collision sha512Half (atree am1) (atree am2) →
  root_hash sha512Half (aty am1) (alist (items_ am1)) = root_hash sha512Half (aty am2) (alist (items_ am2)) →
  items_ am1 = items_ am2.
Proof using Hsha.
  intros HR1 HR2 Hty Hk1 Hk2 Hnc Heq.
  assert (He : erase t1 = erase t2).
  { pose proof (mr_tree _ _ _ _ HR1) as He1. pose proof (mr_tree _ _ _ _ HR2) as He2.
    rewrite <- (mr_hash _ _ _ _ _ HR1), <- (mr_hash _ _ _ _ _ HR2) in Heq.
    pose proof (mo_pfx _ _ _ _ _ (mr_ok _ _ _ _ _ HR1)) as Hp1. pose proof (mo_pfx _ _ _ _ _ (mr_ok _ _ _ _ _ HR2)) as Hp2.
    rewrite He1, He2 in *. unfold atree, canon_root in *. f_equal. eapply (root_hash_inj sha512Half Hsha (aty am1));
      [apply HR1|done|by rewrite Hty| | |done|done].
    - intros x. rewrite <- He1. intros Hx%(mr_items _ _ _ _ _ HR1). specialize (Hk1 _ _ Hx). by destruct x.
    - intros x. rewrite <- He2, Hty. intros Hx%(mr_items _ _ _ _ _ HR2). specialize (Hk2 _ _ Hx). by destruct x. }
  apply map_eq. intros k. pose proof (mr_at_key _ _ _ _ k HR1) as H1. pose proof (mr_at_key _ _ _ _ k HR2) as H2.
  rewrite He, H2 in H1. destruct (items_ am1 !! k), (items_ am2 !! k); cbn in H1; congruence.
Qed.

(** What [compare] promises: the table holds differences only, it is complete
    unless the limit was reached, and then it holds as many as were allowed. *)
Definition compared (maxCount : Z) (D : Delta) (b : bool) (found : Delta) : Prop :=
  found ⊆ D ∧
  if b then found = D ∧ (D = ∅ ∨ Z.of_nat (size D) < maxCount)
  else Z.of_nat (size found) = Z.max 1 maxCount.

Lemma compared_of M D b s : outcome M D b s none → compared M D b (differences s).
Proof.
  intros Ho. destruct b; cbn [outcome] in Ho; unfold compared.
  - assert (differences s = D) as He.
    { apply map_eq. intros k. rewrite (go_all _ _ _ _ Ho). unfold none. by destruct (differences s !! k). }
    rewrite He. split; [done|]. split; [done|]. pose proof (go_count _ _ _ _ Ho). pose proof (go_live _ _ _ _ Ho) as Hl.
    rewrite He in *. destruct Hl; [by left|right; lia].
  - split.
    + apply map_subseteq_spec. intros k d. apply (st_sub _ _ _ Ho).
    + pose proof (st_count _ _ _ Ho). pose proof (st_over _ _ _ Ho). lia.
Qed.

Lemma compare_run w a ts i j am1 am2 n :
  world_rel sha512Half w a ts → a !! i = Some am1 → a !! j = Some am2 → aty am1 = aty am2 → akeyed am1 → akeyed am2 →
  no_collision sha512Half (atree am1) (atree am2) → - 2 ^ 31 < n < 2 ^ 31 →
  ∃ b found w' ts', compare sha512Half i j n w = (Return (b, found), w') ∧ world_rel sha512Half w' a ts' ∧
    compared n (map_delta (items_ am1) (items_ am2)) b found.
Proof using Hsha.
  intros Hw Ha1 Ha2 Hty Hk1 Hk2 Hnc Hn.
  destruct (hash_step _ _ _ _ _ Hw Ha1) as (w1 & ts1 & t1 & Hrun1 & Hw1 & Ht1 & Hc1 & _).
  destruct (hash_step _ _ _ _ _ Hw1 Ha2) as (w2 & ts2 & t2 & Hrun2 & Hw2 & Ht2 & Hc2 & Hoth).
  destruct (proj2 (wr_dom _ _ _ _ Hw2 i)) as [m1 Hm1]; [eauto|].
  destruct (proj2 (wr_dom _ _ _ _ Hw2 j)) as [m2 Hm2]; [eauto|].
  destruct (wr_map _ _ _ _ Hw2 i m1 am1 Hm1 Ha1) as (t1' & Ht1' & HR1).
  destruct (wr_map _ _ _ _ Hw2 j m2 am2 Hm2 Ha2) as (t2' & Ht2' & HR2). simplify_eq.
  unfold compare. erewrite ST_bind_return by exact Hrun1. erewrite ST_bind_return by exact Hrun2.
  destruct (Z.eqb_spec (root_hash sha512Half (aty am1) (alist (items_ am1)))
    (root_hash sha512Half (aty am2) (alist (items_ am2)))) as [He|He].
  - exists true, ∅, w2, ts2. split_and!; [done..|]. rewrite (atree_inj _ _ _ _ _ _ _ _ HR1 HR2) by done.
    assert (map_delta (items_ am2) (items_ am2) = ∅) as ->; [|split; auto].
    apply map_empty. intros k. by rewrite map_delta_lookup, dfo_same.
  - assert (Hij : i ≠ j) by (intros ->; simplify_eq). rewrite Hoth in Ht1' by done. simplify_eq.
    erewrite ST_bind_return by done. cbv beta. rewrite Hm1, Hm2.
    set (D := map_delta (items_ am1) (items_ am2)).
    pose proof (mr_side _ _ _ _ HR1 Hk1 Hc1) as Hs1. pose proof (mr_side _ _ _ _ HR2 Hk2 Hc2) as Hs2.
    assert (Htodo : ∀ k, pair_todo (t1, t2) k = D !! k).
    { intros k. unfold D, pair_todo, items_todo. cbn [fst snd]. by erewrite map_delta_lookup, !mr_at_key. }
    destruct (compare_loop_run sha512Half Hsha (heap w2) n Hn D (aty am1) (mr_ty _ _ _ _ _ HR1) (walk_fuel (heap w2))
      [(t1, t2)] (λ k, D !! k) (mkCmp ∅ n)) as (b & s & Hrun & Hout).
    + eapply (pairs_cons _ _ _ _ _ none); [|by constructor|done|].
      * split; [|cbn; by erewrite !mr_tree]. eexists _, _. split; [exact Hs1|cbn; by rewrite Hty].
      * intros k. unfold plus. rewrite Htodo. by destruct (D !! k).
    + split; [done|done|cbn; rewrite map_size_empty; lia|by left].
    + unfold weight, walk_fuel, tnodes. cbn [sum_list_with fst].
      pose proof (pick_bound true _ _ (sd_holds _ _ _ _ _ _ Hs1) (sd_uniq _ _ _ _ _ _ Hs1)).
      pose proof (pick_bound false _ _ (sd_holds _ _ _ _ _ _ Hs1) (sd_uniq _ _ _ _ _ _ Hs1)). lia.
    + exists b, (differences s), w2, ts2.
      rewrite (mo_root _ _ _ _ _ (mr_ok _ _ _ _ _ HR1)), (mo_root _ _ _ _ _ (mr_ok _ _ _ _ _ HR2)).
      change (lroots <$> [(t1, t2)]) with [(lroot t1, lroot t2)] in Hrun. rewrite Hrun. split_and!; [done..|]. by apply compared_of.
Qed.
End world.
