(* ===== verification/SHAMapClaims.v ===== *)
(** * The properties of the SHAMap

    Every property is about maps that a program built with public calls, in any
    order and with any snapshots.  The examples use a small stand-in for the
    digest. *)
From S2P Require Import Prelude Outcome Bytes Serializer SHAMapNode SHAMap SHAMapTree SHAMapLoc SHAMapOps SHAMapMutate SHAMapDelete SHAMapFlush SHAMapIter SHAMapCanon SHAMapWire SHAMapHash SHAMapWorld SHAMapRefine SHAMapProof SHAMapDelta SHAMapCompare.

Definition no_maps : World := mkWorld ∅ ∅.

(** ** Example data *)

Definition toy (l : list Z) : Z := 1 + fold_left (λ a b, Z.land (a * 257 + b + 1) (Z.ones 40)) l 7.

Lemma toy_range x : 0 < toy x < 2 ^ 256.
Proof.
  unfold toy. assert (H : ∀ l a, 0 ≤ a < 2 ^ 40 →
    0 ≤ fold_left (λ a b, Z.land (a * 257 + b + 1) (Z.ones 40)) l a < 2 ^ 40).
  { induction l as [|b l IH]; intros a Ha; [done|]. apply IH. rewrite Z.land_ones by done. by apply Z.mod_pos_bound. }
  specialize (H x 7 ltac:(lia)). assert (2 ^ 40 < 2 ^ 256) by reflexivity. lia.
Qed.

Definition data (x : Z) : list Z := replicate 12 x.

Definition key_1 : Z := 1 * 16 ^ 63 + 1 * 16 ^ 62.
Definition key_2 : Z := 1 * 16 ^ 63 + 2 * 16 ^ 62.
Definition key_3 : Z := 3 * 16 ^ 63.

(** Two entries that share their first nibble, a snapshot, changes to
    both maps, and the snapshot closed. *)
Definition demo : list Cmd := [
  New 0 tnACCOUNT_STATE;
  Add 0 tnACCOUNT_STATE (mkItem key_1 (data 1));
  Add 0 tnACCOUNT_STATE (mkItem key_3 (data 3));
  Snapshot 0 1 true;
  Add 1 tnACCOUNT_STATE (mkItem key_2 (data 2));
  Update 0 tnACCOUNT_STATE (mkItem key_1 (data 4));
  Delete 0 key_3; Delete 0 key_2;
  Items 0; Items 1; Lookup 1 key_1; Next 0 key_1;
  Freeze 1].

Definition demo_out : list Res * gmap nat AMap := default ([], ∅) (arun toy demo ∅).

Lemma demo_runs : arun toy demo ∅ = Some (demo_out.1, demo_out.2).
Proof. vm_compute. reflexivity. Qed.

Definition demo_map (i : nat) : AMap := default (mkAMap tnINNER ∅ false 0) (demo_out.2 !! i).

Lemma demo_maps i : (i < 2)%nat → demo_out.2 !! i = Some (demo_map i).
Proof. destruct i as [|[|i]]; intros Hi; [vm_compute; reflexivity..|lia]. Qed.

(** ** Calls *)

(** C4: Whatever maps a program creates, changes, iterates over, hashes, snapshots and closes, in any order
    in which each call is allowed, no call throws, no assertion fails, no loop runs out of
    its bound, and every result (success of additions, updates and deletions, looked up
    items, upper bounds, the items in order of their keys, root hashes) is the one of a
    specification in which every map is a separate finite map from keys to data. *)
Theorem calls_refine_finite_maps sha512Half cmds rs a :
  arun sha512Half cmds ∅ = Some (rs, a) →
  ∃ w, crun sha512Half cmds no_maps = (Return rs, w).
Proof.
  intros Hrun. destruct (run_ok _ _ _ _ _ _ _ (world_init sha512Half) Hrun) as (w & ts & Hw & _). by exists w.
Qed.

Lemma calls_refine_finite_maps_witness :
  length demo_out.1 = 13%nat ∧ ∃ w, crun toy demo no_maps = (Return demo_out.1, w).
Proof. split; [vm_compute; reflexivity|]. exact (calls_refine_finite_maps toy demo _ _ demo_runs). Defined.

(** C28: In every memory a program reaches, every map is a tree of nodes without sharing inside
    it: the root is an inner node; all leaves have the type of the map; an entry stands
    under the nibbles of its key; inner nodes below the root have two entries at least;
    nodes owned by the map have no stale hash above them and shared nodes carry the
    hash of their contents. *)
Theorem memory_well_formed sha512Half cmds rs a i am :
  arun sha512Half cmds ∅ = Some (rs, a) → a !! i = Some am →
  ∃ w m t, crun sha512Half cmds no_maps = (Return rs, w) ∧ maps w !! i = Some m ∧
    map_ok sha512Half (aty am) (heap w) m t ∧ items (erase t) = alist (items_ am).
Proof.
  intros Hrun Ha. destruct (run_ok _ _ _ _ _ _ _ (world_init sha512Half) Hrun) as (w & ts & Hw & HR).
  destruct (proj2 (wr_dom _ _ _ _ HR i)) as [m Hi]; [eauto|]. destruct (wr_map _ _ _ _ HR i m am Hi Ha) as (t & _ & Ht).
  exists w, m, t. split_and!; [done|done|apply Ht|by eapply mr_alist].
Qed.

Lemma memory_well_formed_witness :
  ∃ w m t, crun toy demo no_maps = (Return demo_out.1, w) ∧ maps w !! 1%nat = Some m ∧
    map_ok toy tnACCOUNT_STATE (heap w) m t ∧
    items (erase t) = [mkItem key_1 (data 1); mkItem key_2 (data 2); mkItem key_3 (data 3)].
Proof.
  destruct (memory_well_formed toy demo _ _ 1 (demo_map 1) demo_runs) as (w & m & t & H1 & H2 & H3 & H4).
  { vm_compute. reflexivity. }
  exists w, m, t. split_and!; [done|done|exact H3|]. rewrite H4. vm_compute. reflexivity.
Defined.

(** Unsharing the nodes of a map, which walks the tree with an explicit stack, always ends
    within seventeen steps for every node in memory; afterwards every node of the map is
    shared and carries the hash of its contents, and the entries are the same. *)
Theorem unshare_terminates sha512Half cmds rs a i am :
  arun sha512Half cmds ∅ = Some (rs, a) → a !! i = Some am →
  ∃ w n w' m t, crun sha512Half cmds no_maps = (Return rs, w) ∧ on_map i (unshare sha512Half) w = (Return n, w') ∧
    maps w' !! i = Some m ∧ map_ok sha512Half (aty am) (heap w') m t ∧ clean sha512Half t ∧
    items (erase t) = alist (items_ am).
Proof.
  intros Hrun Ha. destruct (run_ok _ _ _ _ _ _ _ (world_init sha512Half) Hrun) as (w & ts & Hw & HR).
  destruct (proj2 (wr_dom _ _ _ _ HR i)) as [m Hi]; [eauto|]. destruct (wr_map _ _ _ _ HR i m am Hi Ha) as (t & _ & Ht).
  pose proof (mr_ok _ _ _ _ _ Ht) as Hm. pose proof (mo_cowid _ _ _ _ _ Hm) as Hpos.
  destruct (unshare_run sha512Half m (cowid_ m) (aty am) (heap w) t) as (n & h' & t' & Hun & HU & He);
    [done|lia|apply Hm..|].
  exists w, n. unfold on_map. rewrite Hi, Hun. eexists _, _, t'.
  split_and!; [done|done|apply lookup_insert_eq|by eapply map_ok_evo|apply HU|]. rewrite He. by eapply mr_alist.
Qed.

Lemma unshare_terminates_witness :
  ∃ w n w' m t, crun toy demo no_maps = (Return demo_out.1, w) ∧ on_map 0 (unshare toy) w = (Return n, w') ∧
    maps w' !! 0%nat = Some m ∧ map_ok toy tnACCOUNT_STATE (heap w') m t ∧ clean toy t ∧
    items (erase t) = [mkItem key_1 (data 4)].
Proof.
  destruct (unshare_terminates toy demo _ _ 0 (demo_map 0) demo_runs) as (w & n & w' & m & t & H1 & H2 & H3 & H4 & H5 & H6).
  { vm_compute. reflexivity. }
  exists w, n, w', m, t. split_and!; [done|done|done|exact H4|done|]. rewrite H6. vm_compute. reflexivity.
Defined.

(** ** Hashes *)

(** Whether two lists of byte strings have a collision. *)
Definition collision_free (xs ys : list (list Z)) : bool :=
  forallb (λ x, forallb (λ y, implb (toy x =? toy y) (bool_decide (x = y))) ys) xs.

Lemma collision_free_ok t1 t2 :
  collision_free (hashed toy t1) (hashed toy t2) = true → no_collision toy t1 t2.
Proof.
  unfold collision_free, no_collision. intros H x y Hx Hy He. rewrite forallb_forall in H.
  specialize (H x (proj1 (list_elem_of_In _ _) Hx)). rewrite forallb_forall in H.
  specialize (H y (proj1 (list_elem_of_In _ _) Hy)). rewrite He, Z.eqb_refl in H. by apply bool_decide_eq_true in H.
Qed.

Lemma state_keyed sha512Half am : aty am = tnACCOUNT_STATE → akeyed sha512Half am.
Proof. intros Hty k d _ He. congruence. Qed.

(** C5: The root hash speaks for the contents: two maps of the same type, however they were built,
    have the same root hash if they have the same entries, and only then unless two of the
    byte strings hashed in the two trees collide.  The digest is taken to be a
    nonzero number of 256 bits, and of a map of transactions without metadata, whose
    hashes leave out the keys, the keys are taken to be the hashes of the entries
    ([akeyed]). *)
Theorem root_hash_determines_contents sha512Half cmds rs a i j am1 am2 :
  (∀ x, 0 < sha512Half x < 2 ^ 256) →
  arun sha512Half cmds ∅ = Some (rs, a) → a !! i = Some am1 → a !! j = Some am2 → aty am1 = aty am2 →
  ∃ h1 h2 w, crun sha512Half (cmds ++ [Hash i; Hash j]) no_maps = (Return (rs ++ [RHash h1; RHash h2]), w) ∧
    (items_ am1 = items_ am2 → h1 = h2) ∧
    (akeyed sha512Half am1 → akeyed sha512Half am2 → no_collision sha512Half (atree am1) (atree am2) →
     h1 = h2 → items_ am1 = items_ am2).
Proof.
  intros Hsha Hrun Ha1 Ha2 Hty.
  destruct (run_ok _ _ _ _ _ _ _ (world_init sha512Half) Hrun) as (w & ts & Hw & HR).
  destruct (proj2 (wr_dom _ _ _ _ HR i)) as [m1 Hm1]; [eauto|].
  destruct (proj2 (wr_dom _ _ _ _ HR j)) as [m2 Hm2]; [eauto|].
  destruct (wr_map _ _ _ _ HR i m1 am1 Hm1 Ha1) as (t1 & _ & HR1).
  destruct (wr_map _ _ _ _ HR j m2 am2 Hm2 Ha2) as (t2 & _ & HR2).
  set (h1 := root_hash sha512Half (aty am1) (alist (items_ am1))).
  set (h2 := root_hash sha512Half (aty am2) (alist (items_ am2))).
  assert (Hrun' : arun sha512Half (cmds ++ [Hash i; Hash j]) ∅ = Some (rs ++ [RHash h1; RHash h2], a)).
  { apply arun_app with a; [done|]. cbn [arun astep]. rewrite Ha1. cbn [mbind option_bind amap_step].
    rewrite (insert_id a i am1), Ha2 by done. cbn [mbind option_bind amap_step]. by rewrite (insert_id a j am2). }
  destruct (run_ok _ _ _ _ _ _ _ (world_init sha512Half) Hrun') as (w' & _ & Hw' & _).
  exists h1, h2, w'. split_and!; [done| |].
  - intros He. unfold h1, h2. by rewrite He, Hty.
  - intros Hk1 Hk2 Hnc He. by eapply (atree_inj sha512Half Hsha am1 am2).
Qed.

Lemma root_hash_determines_contents_witness :
  ∃ h1 h2 w, crun toy (demo ++ [Hash 0; Hash 1]) no_maps = (Return (demo_out.1 ++ [RHash h1; RHash h2]), w) ∧ h1 ≠ h2.
Proof.
  destruct (root_hash_determines_contents toy demo _ _ 0 1 (demo_map 0) (demo_map 1) toy_range demo_runs)
    as (h1 & h2 & w & H1 & _ & H2); [vm_compute; reflexivity..|].
  exists h1, h2, w. split; [exact H1|]. intros He.
  assert (Hne : items_ (demo_map 0) ≠ items_ (demo_map 1)).
  { apply (bool_decide_eq_false (items_ (demo_map 0) = items_ (demo_map 1))). vm_compute. reflexivity. }
  apply Hne, H2; [by apply state_keyed|by apply state_keyed| |exact He].
  apply collision_free_ok. vm_compute. reflexivity.
Defined.

(** ** Differences *)

(** C6: Comparing two maps of a program returns: the table holds only real differences, each with
    both sides; it is complete exactly when the call answers true, and a call that
    gives up has found as many differences as it was allowed (at least one).  Equal hashes
    are taken for equal branches, so no two of the strings hashed may collide. *)
Theorem compare_finds_differences sha512Half cmds rs a i j am1 am2 n :
  (∀ x, 0 < sha512Half x < 2 ^ 256) →
  arun sha512Half cmds ∅ = Some (rs, a) → a !! i = Some am1 → a !! j = Some am2 → aty am1 = aty am2 →
  akeyed sha512Half am1 → akeyed sha512Half am2 → no_collision sha512Half (atree am1) (atree am2) →
  - 2 ^ 31 < n < 2 ^ 31 →
  ∃ w b found w', crun sha512Half cmds no_maps = (Return rs, w) ∧
    compare sha512Half i j n w = (Return (b, found), w') ∧
    compared n (map_delta (items_ am1) (items_ am2)) b found.
Proof.
  intros Hsha Hrun Ha1 Ha2 Hty Hk1 Hk2 Hnc Hn.
  destruct (run_ok _ _ _ _ _ _ _ (world_init sha512Half) Hrun) as (w & ts & Hw & HR).
  destruct (compare_run sha512Half Hsha w a ts i j am1 am2 n) as (b & found & w' & _ & Hc & _ & Hf); [done..|].
  by exists w, b, found, w'.
Qed.

Lemma compare_finds_differences_witness :
  ∃ w b found w', crun toy demo no_maps = (Return demo_out.1, w) ∧ compare toy 0 1 2 w = (Return (b, found), w') ∧
    compared 2 (map_delta (items_ (demo_map 0)) (items_ (demo_map 1))) b found.
Proof.
  apply (compare_finds_differences toy demo _ _ 0 1 (demo_map 0) (demo_map 1) 2 toy_range demo_runs).
  - vm_compute. reflexivity.
  - vm_compute. reflexivity.
  - vm_compute. reflexivity.
  - by apply state_keyed.
  - by apply state_keyed.
  - apply collision_free_ok. vm_compute. reflexivity.
  - lia.
Defined.

(** ** Nodes on the wire and in the store *)

(** C29: Both forms of a node read back: the wire form gives the node with its hash recomputed, the
    form with a prefix gives the node with the hash it is stored under, and that hash is
    the digest of the prefixed form. *)
Theorem node_roundtrip sha512Half n hash :
  node_ok sha512Half n →
  ∃ wire stored r1 r2,
    serializeForWire n [] = (Return r1, wire) ∧
    makeFromWire sha512Half wire = Return (Some (detached sha512Half n)) ∧
    serializeWithPrefix n [] = (Return r2, stored) ∧
    makeFromPrefix sha512Half stored hash =
      Return match detached sha512Half n with
             | InnerNode c _ bs => InnerNode c hash bs
             | LeafNode c _ t i => LeafNode c hash t i
             end ∧
    getHash (detached sha512Half n) = sha512Half stored.
Proof.
  intros Hn. destruct (serializeForWire_bytes n) with (d := @nil Z) as [r1 H1].
  { destruct n; [|done]. by destruct Hn as (? & ? & _). }
  destruct (serializeWithPrefix_bytes n) with (d := @nil Z) as [r2 H2].
  { destruct n; [|done]. by destruct Hn as (_ & ? & _). }
  exists (wire_bytes n), (prefix_bytes n), r1, r2.
  split_and!; [exact H1|by apply wire_read|exact H2|by apply prefix_read|by apply hash_of_bytes].
Qed.

Definition demo_node : TreeNode :=
  InnerNode 5 0 (<[3%nat := Some (77, Some 9%positive)]> (<[15%nat := Some (2 ^ 255, None)]> (replicate 16 None))).

Lemma node_roundtrip_witness :
  ∃ wire stored r1 r2,
    serializeForWire demo_node [] = (Return r1, wire) ∧ length wire = 67%nat ∧
    makeFromWire toy wire = Return (Some (detached toy demo_node)) ∧
    serializeWithPrefix demo_node [] = (Return r2, stored) ∧ getHash (detached toy demo_node) = toy stored.
Proof.
  destruct (node_roundtrip toy demo_node 1) as (wire & stored & r1 & r2 & H1 & H2 & H3 & _ & H5).
  - split_and!; [done| |].
    + intros He. apply (Forall_lookup_1 _ _ 3 (Some (77, Some 9%positive))) in He; done.
    + intros h p Hin. cbn [insert list_insert replicate] in Hin.
      repeat (apply elem_of_cons in Hin as [Hin|Hin]; [discriminate || (injection Hin as -> ->; lia)|]).
      by apply elem_of_nil in Hin.
  - exists wire, stored, r1, r2. split_and!; [exact H1| |exact H2|exact H3|exact H5].
    vm_compute in H1. injection H1 as _ <-. reflexivity.
Defined.

(** ** Proof paths *)

(** The entries can be sent: they are shorter than two gigabytes, transactions
    are filed under their hashes and no state entry is filed under zero. *)
Definition sendable (sha512Half : list Z → Z) (am : AMap) : Prop :=
  ∀ k d, items_ am !! k = Some d →
    Z.of_nat (length d) < 2 ^ 31 - 64 ∧ keyed sha512Half (aty am) (mkItem k d) ∧ (aty am = tnACCOUNT_STATE → k ≠ 0).

Lemma sendable_wire sha512Half h m am t x :
  map_rel sha512Half h m am t → sendable sha512Half am → x ∈ items (erase t) → wire_item sha512Half (aty am) x.
Proof.
  intros HR Hs Hx. pose proof Hx as Hl%(mr_items _ _ _ _ _ HR). destruct (Hs _ _ Hl) as (Hlen & Hk & Hz).
  split_and!; [eapply pfx_item; [apply (mr_ok _ _ _ _ _ HR)|done]|done|by destruct x|done].
Qed.

Lemma sendable_state sha512Half am :
  aty am = tnACCOUNT_STATE →
  forallb (λ kd : Z * list Z, negb (kd.1 =? 0) && (Z.of_nat (length kd.2) <? 2 ^ 31 - 64)) (map_to_list (items_ am)) = true →
  sendable sha512Half am.
Proof.
  intros Hty H k d Hd. rewrite forallb_forall in H.
  specialize (H (k, d) (proj1 (list_elem_of_In _ _) (proj2 (elem_of_map_to_list _ _ _) Hd))). cbn in H.
  split_and!; [lia|intros He; congruence|lia].
Qed.

(** A closed map proves each of its entries: the path it hands out for a key is accepted by
    whoever knows the root hash; for a key it does not have it hands out nothing. *)
Theorem proof_paths_complete sha512Half cmds rs a i am k :
  (∀ x, 0 < sha512Half x < 2 ^ 256) →
  arun sha512Half cmds ∅ = Some (rs, a) → a !! i = Some am → frozen am = true → sendable sha512Half am →
  0 ≤ k < 2 ^ 256 →
  ∃ w p, crun sha512Half cmds no_maps = (Return rs, w) ∧ on_map i (getProofPath k) w = (Return p, w) ∧
    match items_ am !! k, p with
    | Some _, Some path =>
      verifyProofPath sha512Half (root_hash sha512Half (aty am) (alist (items_ am))) k path = Return true
    | None, None => True
    | _, _ => False
    end.
Proof.
  intros Hsha Hrun Ha Hfr Hs Hk. destruct (run_ok _ _ _ _ _ _ _ (world_init sha512Half) Hrun) as (w & ts & Hw & HR).
  destruct (proj2 (wr_dom _ _ _ _ HR i)) as [m Hi]; [eauto|]. destruct (wr_map _ _ _ _ HR i m am Hi Ha) as (t & _ & Ht).
  exists w. assert (Hsame : mkWorld (heap w) (<[i := m]> (maps w)) = w) by (destruct w; cbn in *; by rewrite insert_id).
  rewrite <- (mr_hash _ _ _ _ _ Ht). unfold on_map. rewrite Hi.
  destruct (getProofPath_run sha512Half Hsha (aty am) (heap w) m t k) as [(Hin & path & Hp & Hv)|[Hout Hp]];
    [apply Ht|by apply Ht|apply Ht|done|intros x; by eapply sendable_wire| |]; rewrite Hp; cbn [nodes_ this]; rewrite Hsame.
  - apply (mr_has_key _ _ _ _ _ k Ht) in Hin as [d Hd]. exists (Some path). by rewrite Hd.
  - exists None. destruct (items_ am !! k) as [d|] eqn:Hd; [|done]. exfalso. apply Hout, (mr_has_key _ _ _ _ _ k Ht). eauto.
Qed.

Lemma proof_paths_complete_witness :
  ∃ w p, crun toy demo no_maps = (Return demo_out.1, w) ∧ on_map 1 (getProofPath key_2) w = (Return (Some p), w) ∧
    verifyProofPath toy (root_hash toy (aty (demo_map 1)) (alist (items_ (demo_map 1)))) key_2 p = Return true.
Proof.
  destruct (proof_paths_complete toy demo _ _ 1 (demo_map 1) key_2 toy_range demo_runs) as (w & p & H1 & H2 & H3).
  - vm_compute. reflexivity.
  - vm_compute. reflexivity.
  - apply sendable_state; vm_compute; reflexivity.
  - done.
  - assert (Hd : items_ (demo_map 1) !! key_2 = Some (data 2)) by (vm_compute; reflexivity).
    rewrite Hd in H3. destruct p as [p|]; [|destruct H3]. exists w, p. split_and!; [exact H1|exact H2|exact H3].
Defined.

(** C27: An accepted path cannot lie: if a path is accepted for a root hash of a map and a key of that
    map, the leaf in front of the path is the entry of the map, unless a string hashed
    in the map collides with one of the path. *)
Theorem proof_paths_sound sha512Half cmds rs a i am k d path :
  (∀ x, 0 < sha512Half x < 2 ^ 256) →
  arun sha512Half cmds ∅ = Some (rs, a) → a !! i = Some am → akeyed sha512Half am →
  items_ am !! k = Some d → Forall (Forall is_byte) path →
  (∀ x y, x ∈ hashed sha512Half (atree am) → path_bytes sha512Half (rev path) y →
     sha512Half x = sha512Half y → x = y) →
  verifyProofPath sha512Half (root_hash sha512Half (aty am) (alist (items_ am))) k path = Return true →
  ∃ blob c h, head path = Some blob ∧
    makeFromWire sha512Half blob = Return (Some (LeafNode c h (aty am) (mkItem k d))).
Proof.
  intros Hsha Hrun Ha Hak Hd Hb Hnc Hv.
  destruct (run_ok _ _ _ _ _ _ _ (world_init sha512Half) Hrun) as (w & ts & Hw & HR).
  destruct (proj2 (wr_dom _ _ _ _ HR i)) as [m Hi]; [eauto|]. destruct (wr_map _ _ _ _ HR i m am Hi Ha) as (t & _ & Ht).
  pose proof (mr_ok _ _ _ _ _ Ht) as Hm. rewrite <- (mr_hash _ _ _ _ _ Ht) in Hv.
  assert (Hit : mkItem k d ∈ items (erase t)) by (by apply (mr_items _ _ _ _ _ Ht)).
  unfold verifyProofPath in Hv. destruct (_ || _); [done|].
  destruct (verify_loop _ _ _ _ _ _) as [b| | |] eqn:Hl; [|done..]. injection Hv as ->.
  destruct (verify_sound sha512Half Hsha (aty am) (rev path) 64 0 0 (erase t) k (Z.of_nat (length path)))
    as (it & c & h & blob & j & Hleaf & Hj & Hsize & Hblob); [done|apply Ht|apply Hm| | | | |exact Hl|].
  - intros He. destruct (erase t) as [|cs] eqn:Het; [done|]. apply elem_of_items in Hit as (b & x & Hx & _).
    cbn in He. by eapply Forall_lookup_1 in He; [|exact Hx].
  - intros x Hx%(mr_items _ _ _ _ _ Ht). specialize (Hak _ _ Hx). by destruct x.
  - by apply Forall_rev.
  - by rewrite (mr_tree _ _ _ _ _ Ht).
  - rewrite (leaf_at_item k (aty am) 64 0 0 (erase t) (mkItem k d)) in Hleaf; [|done|apply Hm|done|done].
    injection Hleaf as <-. exists blob, c, h. split; [|done].
    assert (Hlast : j = (length (rev path) - 1)%nat) by (rewrite length_rev; lia).
    destruct path as [|b0 path]; [done|]. cbn [head]. cbn [rev] in Hj, Hlast. rewrite length_app in Hlast. cbn in Hlast.
    rewrite lookup_app_r in Hj by lia. by replace (j - length (rev path))%nat with 0%nat in Hj by lia.
Qed.

Definition demo_path (k : Z) : list (list Z) :=
  match on_map 1 (getProofPath k) (crun toy demo no_maps).2 with (Return (Some p), _) => p | _ => [] end.

Definition path_collision_free (xs : list (list Z)) (path : list (list Z)) : bool :=
  forallb (λ blob, match makeFromWire toy blob with
                   | Return (Some m) => collision_free xs [prefix_bytes m]
                   | _ => true
                   end) path.

Lemma path_collision_free_ok xs path x y :
  path_collision_free xs path = true → x ∈ xs → path_bytes toy path y → toy x = toy y → x = y.
Proof.
  unfold path_collision_free, collision_free. intros H Hx (blob & m & Hb & Hm & ->) He. rewrite forallb_forall in H.
  specialize (H blob (proj1 (list_elem_of_In _ _) Hb)). cbv beta in H. rewrite Hm, forallb_forall in H.
  specialize (H x (proj1 (list_elem_of_In _ _) Hx)). cbn [forallb] in H. rewrite He, Z.eqb_refl, andb_true_r in H.
  by apply bool_decide_eq_true in H.
Qed.

Lemma bytes_ok path : forallb (forallb (λ x, (0 <=? x) && (x <? 256))) path = true → Forall (Forall is_byte) path.
Proof.
  rewrite forallb_forall. intros H. apply Forall_forall. intros bs Hbs%list_elem_of_In. apply Forall_forall.
  intros x Hx%list_elem_of_In. specialize (H bs Hbs). rewrite forallb_forall in H. specialize (H x Hx).
  unfold is_byte. lia.
Qed.

Lemma proof_paths_sound_witness :
  ∃ blob c h, head (demo_path key_2) = Some blob ∧
    makeFromWire toy blob = Return (Some (LeafNode c h (aty (demo_map 1)) (mkItem key_2 (data 2)))).
Proof.
  apply (proof_paths_sound toy demo _ _ 1 (demo_map 1) key_2 (data 2) (demo_path key_2) toy_range demo_runs).
  - vm_compute. reflexivity.
  - by apply state_keyed.
  - vm_compute. reflexivity.
  - apply bytes_ok. vm_compute. reflexivity.
  - intros x y. apply path_collision_free_ok. vm_compute. reflexivity.
  - vm_compute. reflexivity.
Defined.

(** ** Two surprises in [verifyProofPath] *)

Definition key_absent : Z := key_3 + 5.

(** A path is accepted for a key that the map does not have: the key of the leaf
    is not compared with the key that was asked for. *)
Example proof_path_of_another_key :
  items_ (demo_map 1) !! key_absent = None ∧
  verifyProofPath toy (root_hash toy tnACCOUNT_STATE (alist (items_ (demo_map 1)))) key_absent (demo_path key_3) =
    Return true.
Proof. split; vm_compute; reflexivity. Qed.

(** Inner nodes stacked on each other below the branch of key zero. *)
Fixpoint tower (n : nat) : list (list Z) * Z :=
  let inner h := InnerNode 0 0 (Some (h, None) :: replicate 15 None) in
  match n with
  | O => ([], 1)
  | S n =>
    let '(path, h) := tower n in
    let node := inner h in
    (path ++ [wire_bytes node], getHash (updateHash toy node))
  end.

(** A path of 65 inner nodes passes the check of the length, and at the last of
    them the code reads the nibble behind the end of the key. *)
Example proof_path_reads_past_key :
  length (tower 65).1 = 65%nat ∧
  verifyProofPath toy (tower 65).2 0 (tower 65).1 = Abort "hash.begin()".
Proof. split; vm_compute; reflexivity. Qed.
