(* ===== verification/LedgerEntry.v ===== *)
(** * Ledger entries and their keys

    [STLedgerEntry] ([SLE]), [protocol/Keylet.h], [protocol/impl/Keylet.cpp] and the
    page keys of [protocol/impl/Indexes.cpp].  The fields of an entry are a map
    from field codes to values; a value is a list of integers: one for a number
    or a hash, any number for a vector.  Fields that an entry does not have read
    as their default. *)
From S2P Require Import Prelude Outcome Bytes SHAMapNode.

(** The special and the used values of [LedgerEntryType]. *)
Definition ltANY : Z := -3.
Definition ltCHILD : Z := -2.
Definition ltINVALID : Z := -1.
Definition ltDIR_NODE : Z := 100.

Record SLE := mkSLE { sle_key : Z; getType : Z; fields : gmap Z (list Z) }.

#[export] Instance SLE_eq_dec : EqDecision SLE.
Proof. solve_decision. Defined.

Record Keylet := mkKeylet { k_type : Z; k_key : Z }.

Definition check (k : Keylet) (sle : SLE) : exc bool :=
  if k_type k =? ltANY then Return true
  else if k_type k =? ltINVALID then Return false
  else if k_type k =? ltCHILD then
    if getType sle =? ltDIR_NODE then Abort "sle.getType() != ltDIR_NODE" else Return true
  else Return (getType sle =? k_type k).

(** Field codes: the type in the upper half. *)
Definition field_code (type index : Z) : Z := Z.lor (Z.shiftl type 16) index.
Definition sfIndexNext : Z := Eval compute in field_code 3 1.
Definition sfIndexPrevious : Z := Eval compute in field_code 3 2.
Definition sfRootIndex : Z := Eval compute in field_code 5 8.
Definition sfIndexes : Z := Eval compute in field_code 19 1.
Definition sfOwner : Z := Eval compute in field_code 8 2.

Definition getFieldU64 (f : Z) (sle : SLE) : Z := default 0 (fields sle !! f ≫= head).
Definition getFieldH256 (f : Z) (sle : SLE) : Z := default 0 (fields sle !! f ≫= head).
Definition getFieldV256 (f : Z) (sle : SLE) : list Z := default [] (fields sle !! f).

Definition set_field (f : Z) (v : list Z) (sle : SLE) : SLE :=
  mkSLE (sle_key sle) (getType sle) (<[f := v]> (fields sle)).
Definition setFieldU64 (f x : Z) : SLE → SLE := set_field f [x].
Definition setFieldH256 (f x : Z) : SLE → SLE := set_field f [x].
Definition setFieldV256 (f : Z) (v : list Z) : SLE → SLE := set_field f v.

(** [SLE(Keylet)]: an entry without values. *)
Definition SLE_ctor (k : Keylet) : SLE := mkSLE (k_key k) (k_type k) ∅.

(** ** The keys of directory pages *)

Section keys.
Context (sha512Half : list Z → Z).

(** [indexHash] of a directory's key and a page number, in the name space 'd'. *)
Definition indexHash_page (key index : Z) : Z :=
  sha512Half (be_bytes 2 100 ++ uint256_bytes key ++ be_bytes 8 index).

Definition page (key index : Z) : Keylet :=
  if index =? 0 then mkKeylet ltDIR_NODE key else mkKeylet ltDIR_NODE (indexHash_page key index).
End keys.
