(* ===== verification/StateTable.v ===== *)
(** * The tables that buffer changes to a ledger

    [ledger/detail/RawStateTable.h] and [ledger/detail/ApplyStateTable.h] with their
    [impl] files, and the views around them ([OpenView], [ApplyViewBase], [Sandbox],
    the state map of [Ledger]).  Entries are objects that tables and callers share
    by pointer, so the model keeps the memory [objs] they live in: a caller that
    was handed an entry by [peek] changes it in place.  [LogicError] ends the
    program, [Abort].

    Views are stacked: the base of a view is the view below it, and the ledger is
    at the bottom.  The entries of the ledger's state map are kept as they are
    after deserialisation. *)
From S2P Require Import Prelude Outcome Bytes SHAMapNode LedgerEntry.

(** ** Ordered maps *)

Definition entry_le {A} (a b : Z * A) : Prop := a.1 ≤ b.1.
#[export] Instance entry_le_dec {A} (a b : Z * A) : Decision (entry_le a b).
Proof. unfold entry_le. apply _. Defined.

(** A [std::map] from first to last. *)
Definition ascending {A} (m : gmap Z A) : list (Z * A) := merge_sort entry_le (map_to_list m).

(** [m.upper_bound(k)] to the end. *)
Definition above {A} (k : Z) (m : gmap Z A) : list (Z * A) := filter (λ e, k < e.1) (ascending m).

(** ** Reading a view *)

Record ReadView := mkReadView {
  rv_exists : Keylet → exc bool;
  rv_read : Keylet → exc (option SLE);
  rv_succ : Z → option Z → exc (option Z);
  rv_sles : option Z → exc (list SLE) }.

(** [last && next >= last], where nothing is smaller than everything. *)
Definition at_least (next : Z) (last : option Z) : bool :=
  match last with Some l => l <=? next | None => false end.

(** [XRPAmount] is a signed 64-bit integer. *)
Definition drops_add (a b : Z) : exc Z :=
  if (- 2 ^ 63 <=? a + b) && (a + b <? 2 ^ 63) then Return (a + b) else Abort "signed overflow".

Inductive RawAction := RErase | RInsert | RReplace.

Record RawStateTable := mkRaw { raw_items : gmap Z (RawAction * loc); raw_drops : Z }.

Inductive ApplyAction := ACache | AErase | AInsert | AModify.

Record ApplyStateTable := mkApply { items_ : gmap Z (ApplyAction * loc); dropsDestroyed_ : Z }.

#[export] Instance RawAction_eq_dec : EqDecision RawAction.
Proof. solve_decision. Defined.
#[export] Instance ApplyAction_eq_dec : EqDecision ApplyAction.
Proof. solve_decision. Defined.

Section read.
Context (objs : gmap loc SLE).

Definition deref (l : loc) : exc SLE := match objs !! l with Some s => Return s | None => Abort "pointer" end.

(** What both tables do with an entry that is found and not erased. *)
Definition checked_exists (k : Keylet) (l : loc) : exc bool := s ← deref l; check k s.
Definition checked_read (k : Keylet) (l : loc) : exc (option SLE) :=
  s ← deref l; b ← check k s; Return (if (b : bool) then Some s else None).

(** The loop of [succ] over the successors in the base. *)
Fixpoint base_succ (fuel : nat) (erased : Z → bool) (base : ReadView) (next : Z) (last : option Z) : exc (option Z) :=
  match fuel with
  | O => NoFuel
  | S fuel =>
    n ← rv_succ base next last;
    match n with
    | None => Return None
    | Some n => if erased n then base_succ fuel erased base n last else Return (Some n)
    end
  end.

(** The lower one of both successors, unless it is out of range. *)
Definition lower_succ (next own : option Z) (last : option Z) : option Z :=
  let next :=
    match own with
    | Some o => match next with Some n => if o <? n then Some o else Some n | None => Some o end
    | None => next
    end in
  match next with Some n => if at_least n last then None else Some n | None => None end.

(** ** Reading through a [RawStateTable] *)

Definition raw_exists (t : RawStateTable) (base : ReadView) (k : Keylet) : exc bool :=
  if k_key k =? 0 then Abort "k.key.isNonZero()"
  else
    match raw_items t !! k_key k with
    | None => rv_exists base k
    | Some (RErase, _) => Return false
    | Some (_, l) => checked_exists k l
    end.

Definition raw_read (t : RawStateTable) (base : ReadView) (k : Keylet) : exc (option SLE) :=
  match raw_items t !! k_key k with
  | None => rv_read base k
  | Some (RErase, _) => Return None
  | Some (_, l) => checked_read k l
  end.

Definition raw_erased (t : RawStateTable) (k : Z) : bool :=
  match raw_items t !! k with Some (RErase, _) => true | _ => false end.

Definition raw_own_succ (t : RawStateTable) (k : Z) : option Z :=
  fst <$> head (filter (λ e : Z * (RawAction * loc), negb (raw_erased t e.1)) (above k (raw_items t))).

Definition raw_succ (t : RawStateTable) (base : ReadView) (k : Z) (last : option Z) : exc (option Z) :=
  next ← base_succ (S (size (raw_items t))) (raw_erased t) base k last;
  Return (lower_succ next (raw_own_succ t k) last).

(** The iterator over a base and a table: what is left of both; the first
    entry of each is [sle0_] and [sle1_]. *)
Record sles_iter := mkSles { left0 : list SLE; left1 : list (RawAction * SLE) }.

Fixpoint sles_skip (it0 : list SLE) (it1 : list (RawAction * SLE)) {struct it1} : exc sles_iter :=
  match it1 with
  | (RErase, s1) :: r1 =>
    match it0 with
    | [] => Abort "sle0_->key()"
    | s0 :: r0 =>
      if sle_key s0 =? sle_key s1 then
        match r0 with [] => Return (mkSles [] r1) | _ :: _ => sles_skip r0 r1 end
      else Return (mkSles it0 it1)
    end
  | _ => Return (mkSles it0 it1)
  end.

Definition sles_ctor (it1 : list (RawAction * SLE)) (it0 : list SLE) : exc sles_iter :=
  match it1 with [] => Return (mkSles it0 []) | _ :: _ => sles_skip it0 it1 end.

Definition sles_increment (it : sles_iter) : exc sles_iter :=
  match left1 it, left0 it with
  | [], [] => Abort "sle1_ || sle0_"
  | _ :: r1, [] => Return (mkSles [] r1)
  | [], _ :: r0 => Return (mkSles r0 [])
  | (_, s1) :: r1, s0 :: r0 =>
    if sle_key s1 =? sle_key s0 then sles_skip r0 r1
    else if sle_key s1 <? sle_key s0 then sles_skip (s0 :: r0) r1
    else sles_skip r0 (left1 it)
  end.

Definition sles_dereference (it : sles_iter) : option SLE :=
  match left1 it, left0 it with
  | [], [] => None
  | [], s0 :: _ => Some s0
  | (_, s1) :: _, [] => Some s1
  | (_, s1) :: _, s0 :: _ => if sle_key s1 <=? sle_key s0 then Some s1 else Some s0
  end.

(** A loop from [begin] to [end]. *)
Fixpoint sles_loop (fuel : nat) (it : sles_iter) : exc (list SLE) :=
  match left1 it, left0 it, fuel with
  | [], [], _ => Return []
  | _, _, O => NoFuel
  | _, _, S fuel =>
    match sles_dereference it with
    | None => Abort "dereference"
    | Some s => it ← sles_increment it; rest ← sles_loop fuel it; Return (s :: rest)
    end
  end.

Definition table_sles (es : list (Z * (RawAction * loc))) : exc (list (RawAction * SLE)) :=
  mapM (λ e : Z * (RawAction * loc), s ← deref e.2.2; Return (e.2.1, s)) es.

(** The loop over [slesUpperBound(key)]; from [slesBegin] without a key. *)
Definition raw_sles (t : RawStateTable) (base : ReadView) (from : option Z) : exc (list SLE) :=
  base_sles ← rv_sles base from;
  it1 ← table_sles (match from with Some k => above k (raw_items t) | None => ascending (raw_items t) end);
  it ← sles_ctor it1 base_sles;
  sles_loop (length it1 + length base_sles) it.

(** ** Reading through an [ApplyStateTable] *)

Definition apply_exists (t : ApplyStateTable) (base : ReadView) (k : Keylet) : exc bool :=
  match items_ t !! k_key k with
  | None => rv_exists base k
  | Some (AErase, _) => Return false
  | Some (_, l) => checked_exists k l
  end.

Definition apply_read (t : ApplyStateTable) (base : ReadView) (k : Keylet) : exc (option SLE) :=
  match items_ t !! k_key k with
  | None => rv_read base k
  | Some (AErase, _) => Return None
  | Some (_, l) => checked_read k l
  end.

Definition apply_erased (t : ApplyStateTable) (k : Z) : bool :=
  match items_ t !! k with Some (AErase, _) => true | _ => false end.

Definition apply_own_succ (t : ApplyStateTable) (k : Z) : option Z :=
  fst <$> head (filter (λ e : Z * (ApplyAction * loc), negb (apply_erased t e.1)) (above k (items_ t))).

Definition apply_succ (t : ApplyStateTable) (base : ReadView) (k : Z) (last : option Z) : exc (option Z) :=
  next ← base_succ (S (size (items_ t))) (apply_erased t) base k last;
  Return (lower_succ next (apply_own_succ t k) last).

(** ** The views *)

(** [OpenView]. *)
Definition open_view (t : RawStateTable) (base : ReadView) : ReadView :=
  mkReadView (raw_exists t base) (raw_read t base) (raw_succ t base) (raw_sles t base).

(** [ApplyViewBase]: the entries are iterated over in the base. *)
Definition apply_view (t : ApplyStateTable) (base : ReadView) : ReadView :=
  mkReadView (apply_exists t base) (apply_read t base) (apply_succ t base) (rv_sles base).
End read.

(** [Ledger]: the type of an entry plays no role in [exists]. *)
Definition ledger_exists (m : gmap Z SLE) (k : Keylet) : exc bool := Return (bool_decide (is_Some (m !! k_key k))).

Definition ledger_read (m : gmap Z SLE) (k : Keylet) : exc (option SLE) :=
  if k_key k =? 0 then Abort "false"
  else
    match m !! k_key k with
    | None => Return None
    | Some s => b ← check k s; Return (if (b : bool) then Some s else None)
    end.

Definition ledger_succ (m : gmap Z SLE) (k : Z) (last : option Z) : exc (option Z) :=
  match head (above k m) with
  | None => Return None
  | Some (n, _) => Return (if at_least n last then None else Some n)
  end.

Definition ledger_sles (m : gmap Z SLE) (from : option Z) : exc (list SLE) :=
  Return ((match from with Some k => above k m | None => ascending m end).*2).

Definition ledger_view (m : gmap Z SLE) : ReadView :=
  mkReadView (ledger_exists m) (ledger_read m) (ledger_succ m) (ledger_sles m).

Inductive Layer := Apply (t : ApplyStateTable) | Open (t : RawStateTable).

Record Ledger := mkLedger { state_map : gmap Z SLE; drops : Z }.

Record Views := mkViews { objs : gmap loc SLE; layers : list Layer; ledger : Ledger }.

(** The view that a stack of layers presents. *)
Fixpoint stack_view (objs : gmap loc SLE) (ls : list Layer) (m : gmap Z SLE) : ReadView :=
  match ls with
  | [] => ledger_view m
  | Apply t :: ls => apply_view objs t (stack_view objs ls m)
  | Open t :: ls => open_view objs t (stack_view objs ls m)
  end.

(** ** Changing the tables

    The tables of one kind are changed by functions that return the new table. *)

Definition with_items (t : ApplyStateTable) (m : gmap Z (ApplyAction * loc)) : ApplyStateTable :=
  mkApply m (dropsDestroyed_ t).
Definition with_raw (t : RawStateTable) (m : gmap Z (RawAction * loc)) : RawStateTable := mkRaw m (raw_drops t).

Section change.
Context (objs : gmap loc SLE).

Definition raw_erase (l : loc) (t : RawStateTable) : exc RawStateTable :=
  sle ← deref objs l;
  let k := sle_key sle in
  match raw_items t !! k with
  | None => Return (with_raw t (<[k := (RErase, l)]> (raw_items t)))
  | Some (RErase, _) => Abort "RawStateTable::erase: already erased"
  | Some (RInsert, _) => Return (with_raw t (delete k (raw_items t)))
  | Some (RReplace, _) => Return (with_raw t (<[k := (RErase, l)]> (raw_items t)))
  end.

Definition raw_insert (l : loc) (t : RawStateTable) : exc RawStateTable :=
  sle ← deref objs l;
  let k := sle_key sle in
  match raw_items t !! k with
  | None => Return (with_raw t (<[k := (RInsert, l)]> (raw_items t)))
  | Some (RErase, _) => Return (with_raw t (<[k := (RReplace, l)]> (raw_items t)))
  | Some (RInsert, _) => Abort "RawStateTable::insert: already inserted"
  | Some (RReplace, _) => Abort "RawStateTable::insert: already exists"
  end.

Definition raw_replace (l : loc) (t : RawStateTable) : exc RawStateTable :=
  sle ← deref objs l;
  let k := sle_key sle in
  match raw_items t !! k with
  | None => Return (with_raw t (<[k := (RReplace, l)]> (raw_items t)))
  | Some (RErase, _) => Abort "RawStateTable::replace: was erased"
  | Some (a, _) => Return (with_raw t (<[k := (a, l)]> (raw_items t)))
  end.

Definition apply_erase (l : loc) (t : ApplyStateTable) : exc ApplyStateTable :=
  sle ← deref objs l;
  let k := sle_key sle in
  match items_ t !! k with
  | None => Abort "ApplyStateTable::erase: missing key"
  | Some (a, l') =>
    if negb (bool_decide (l' = l)) then Abort "ApplyStateTable::erase: unknown SLE"
    else
      match a with
      | AErase => Abort "ApplyStateTable::erase: double erase"
      | AInsert => Return (with_items t (delete k (items_ t)))
      | ACache | AModify => Return (with_items t (<[k := (AErase, l')]> (items_ t)))
      end
  end.

Definition apply_rawErase (l : loc) (t : ApplyStateTable) : exc ApplyStateTable :=
  sle ← deref objs l;
  let k := sle_key sle in
  match items_ t !! k with
  | None => Return (with_items t (<[k := (AErase, l)]> (items_ t)))
  | Some (AErase, _) => Abort "ApplyStateTable::rawErase: double erase"
  | Some (AInsert, _) => Return (with_items t (delete k (items_ t)))
  | Some (ACache, _) | Some (AModify, _) => Return (with_items t (<[k := (AErase, l)]> (items_ t)))
  end.

Definition apply_insert (l : loc) (t : ApplyStateTable) : exc ApplyStateTable :=
  sle ← deref objs l;
  let k := sle_key sle in
  match items_ t !! k with
  | None => Return (with_items t (<[k := (AInsert, l)]> (items_ t)))
  | Some (ACache, _) => Abort "ApplyStateTable::insert: already cached"
  | Some (AInsert, _) => Abort "ApplyStateTable::insert: already inserted"
  | Some (AModify, _) => Abort "ApplyStateTable::insert: already modified"
  | Some (AErase, _) => Return (with_items t (<[k := (AModify, l)]> (items_ t)))
  end.

Definition apply_replace (l : loc) (t : ApplyStateTable) : exc ApplyStateTable :=
  sle ← deref objs l;
  let k := sle_key sle in
  match items_ t !! k with
  | None => Return (with_items t (<[k := (AModify, l)]> (items_ t)))
  | Some (AErase, _) => Abort "ApplyStateTable::replace: already erased"
  | Some (ACache, _) => Return (with_items t (<[k := (AModify, l)]> (items_ t)))
  | Some (a, _) => Return (with_items t (<[k := (a, l)]> (items_ t)))
  end.

Definition apply_update (l : loc) (t : ApplyStateTable) : exc ApplyStateTable :=
  sle ← deref objs l;
  let k := sle_key sle in
  match items_ t !! k with
  | None => Abort "ApplyStateTable::update: missing key"
  | Some (a, l') =>
    if negb (bool_decide (l' = l)) then Abort "ApplyStateTable::update: unknown SLE"
    else
      match a with
      | AErase => Abort "ApplyStateTable::update: erased"
      | ACache => Return (with_items t (<[k := (AModify, l')]> (items_ t)))
      | AInsert | AModify => Return t
      end
  end.

Definition raw_destroyXRP (fee : Z) (t : RawStateTable) : exc RawStateTable :=
  d ← drops_add (raw_drops t) fee; Return (mkRaw (raw_items t) d).

Definition apply_destroyXRP (fee : Z) (t : ApplyStateTable) : exc ApplyStateTable :=
  d ← drops_add (dropsDestroyed_ t) fee; Return (mkApply (items_ t) d).

(** The number of changes. *)
Definition apply_size (t : ApplyStateTable) : nat :=
  length (filter (λ e : Z * (ApplyAction * loc), e.2.1 ≠ ACache) (ascending (items_ t))).

(** *** The state map of the ledger *)

Definition ledger_rawErase (l : loc) (g : Ledger) : exc Ledger :=
  sle ← deref objs l;
  match state_map g !! sle_key sle with
  | None => Abort "Ledger::rawErase: key not found"
  | Some _ => Return (mkLedger (delete (sle_key sle) (state_map g)) (drops g))
  end.

Definition ledger_rawInsert (l : loc) (g : Ledger) : exc Ledger :=
  sle ← deref objs l;
  match state_map g !! sle_key sle with
  | None => Return (mkLedger (<[sle_key sle := sle]> (state_map g)) (drops g))
  | Some _ => Abort "Ledger::rawInsert: key already exists"
  end.

Definition ledger_rawReplace (l : loc) (g : Ledger) : exc Ledger :=
  sle ← deref objs l;
  match state_map g !! sle_key sle with
  | None => Abort "Ledger::rawReplace: key not found"
  | Some _ => Return (mkLedger (<[sle_key sle := sle]> (state_map g)) (drops g))
  end.

Definition ledger_rawDestroyXRP (fee : Z) (g : Ledger) : exc Ledger :=
  d ← drops_add (drops g) (- fee); Return (mkLedger (state_map g) d).
End change.

(** ** The interface [RawView] of the view below *)

Section raw_view.
Context (objs : gmap loc SLE).

Definition rawErase (l : loc) (to : list Layer * Ledger) : exc (list Layer * Ledger) :=
  match to.1 with
  | [] => g ← ledger_rawErase objs l to.2; Return ([], g)
  | Apply t :: ls => t ← apply_rawErase objs l t; Return (Apply t :: ls, to.2)
  | Open t :: ls => t ← raw_erase objs l t; Return (Open t :: ls, to.2)
  end.

Definition rawInsert (l : loc) (to : list Layer * Ledger) : exc (list Layer * Ledger) :=
  match to.1 with
  | [] => g ← ledger_rawInsert objs l to.2; Return ([], g)
  | Apply t :: ls => t ← apply_insert objs l t; Return (Apply t :: ls, to.2)
  | Open t :: ls => t ← raw_insert objs l t; Return (Open t :: ls, to.2)
  end.

Definition rawReplace (l : loc) (to : list Layer * Ledger) : exc (list Layer * Ledger) :=
  match to.1 with
  | [] => g ← ledger_rawReplace objs l to.2; Return ([], g)
  | Apply t :: ls => t ← apply_replace objs l t; Return (Apply t :: ls, to.2)
  | Open t :: ls => t ← raw_replace objs l t; Return (Open t :: ls, to.2)
  end.

Definition rawDestroyXRP (fee : Z) (to : list Layer * Ledger) : exc (list Layer * Ledger) :=
  match to.1 with
  | [] => g ← ledger_rawDestroyXRP fee to.2; Return ([], g)
  | Apply t :: ls => t ← apply_destroyXRP fee t; Return (Apply t :: ls, to.2)
  | Open t :: ls => t ← raw_destroyXRP fee t; Return (Open t :: ls, to.2)
  end.

(** [apply] of both tables: the changes in the order of their keys. *)
Fixpoint apply_items (es : list (Z * (ApplyAction * loc))) (to : list Layer * Ledger) : exc (list Layer * Ledger) :=
  match es with
  | [] => Return to
  | (_, (ACache, _)) :: es => apply_items es to
  | (_, (AErase, l)) :: es => to ← rawErase l to; apply_items es to
  | (_, (AInsert, l)) :: es => to ← rawInsert l to; apply_items es to
  | (_, (AModify, l)) :: es => to ← rawReplace l to; apply_items es to
  end.

Definition apply_apply (t : ApplyStateTable) (to : list Layer * Ledger) : exc (list Layer * Ledger) :=
  to ← rawDestroyXRP (dropsDestroyed_ t) to; apply_items (ascending (items_ t)) to.

Fixpoint raw_apply_items (es : list (Z * (RawAction * loc))) (to : list Layer * Ledger) : exc (list Layer * Ledger) :=
  match es with
  | [] => Return to
  | (_, (RErase, l)) :: es => to ← rawErase l to; raw_apply_items es to
  | (_, (RInsert, l)) :: es => to ← rawInsert l to; raw_apply_items es to
  | (_, (RReplace, l)) :: es => to ← rawReplace l to; raw_apply_items es to
  end.

Definition raw_apply (t : RawStateTable) (to : list Layer * Ledger) : exc (list Layer * Ledger) :=
  to ← rawDestroyXRP (raw_drops t) to; raw_apply_items (ascending (raw_items t)) to.
End raw_view.

(** ** Calls on the view at the top of the stack *)

Definition view_at (i : nat) (w : Views) : ReadView :=
  stack_view (objs w) (drop i (layers w)) (state_map (ledger w)).

(** [std::make_shared<SLE>]. *)
Definition new_sle (s : SLE) : ST Views loc :=
  w ← sget;
  let l := fresh (dom (objs w)) in
  sput (mkViews (<[l := s]> (objs w)) (layers w) (ledger w));;
  mret l.

(** A caller changes an entry in place. *)
Definition sle_at (l : loc) : ST Views SLE := w ← sget; slift (deref (objs w) l).
Definition change (l : loc) (f : SLE → SLE) : ST Views unit :=
  s ← sle_at l;
  smodify (λ w, mkViews (<[l := f s]> (objs w)) (layers w) (ledger w)).

Definition on_top (f : gmap loc SLE → ApplyStateTable → exc ApplyStateTable) : ST Views unit :=
  w ← sget;
  match layers w with
  | Apply t :: ls => t ← slift (f (objs w) t); sput (mkViews (objs w) (Apply t :: ls) (ledger w))
  | _ => slift (Abort "not an ApplyView")
  end.

Definition peek (k : Keylet) : ST Views (option loc) :=
  w ← sget;
  match layers w with
  | Apply t :: _ =>
    match items_ t !! k_key k with
    | None =>
      sle ← slift (rv_read (view_at 1 w) k);
      match sle with
      | None => mret None
      | Some sle =>
        l ← new_sle sle;
        on_top (λ _ t, Return (with_items t (<[sle_key sle := (ACache, l)]> (items_ t))));;
        mret (Some l)
      end
    | Some (AErase, _) => mret None
    | Some (_, l) =>
      s ← sle_at l;
      b ← slift (check k s);
      mret (if (b : bool) then Some l else None)
    end
  | _ => slift (Abort "not an ApplyView")
  end.

Definition view_erase (l : loc) : ST Views unit := on_top (λ objs, apply_erase objs l).
Definition view_insert (l : loc) : ST Views unit := on_top (λ objs, apply_insert objs l).
Definition view_update (l : loc) : ST Views unit := on_top (λ objs, apply_update objs l).
Definition view_destroyXRP (fee : Z) : ST Views unit := on_top (λ _, apply_destroyXRP fee).

(** A new [Sandbox] or [ApplyViewImpl], and a new [OpenView], over the top. *)
Definition push_apply : ST Views unit :=
  smodify (λ w, mkViews (objs w) (Apply (mkApply ∅ 0) :: layers w) (ledger w)).
Definition push_open : ST Views unit :=
  smodify (λ w, mkViews (objs w) (Open (mkRaw ∅ 0) :: layers w) (ledger w)).

(** The top is destroyed, with or without applying it to the view below. *)
Definition discard : ST Views unit :=
  w ← sget;
  match layers w with
  | _ :: ls => sput (mkViews (objs w) ls (ledger w))
  | [] => slift (Abort "no view")
  end.

Definition commit : ST Views unit :=
  w ← sget;
  match layers w with
  | Apply t :: ls =>
    '(ls, g) ← slift (apply_apply (objs w) t (ls, ledger w)); sput (mkViews (objs w) ls g)
  | Open t :: ls =>
    '(ls, g) ← slift (raw_apply (objs w) t (ls, ledger w)); sput (mkViews (objs w) ls g)
  | [] => slift (Abort "no view")
  end.
