(* ===== verification/StateTableSpec.v ===== *)
(** * What the tables of a ledger's changes present

    A table over a base that holds the entries [m] presents the entries
    [apply_map] or [raw_map]; reading through the table is reading that map. *)
From S2P Require Import Prelude Outcome Bytes SHAMapNode LedgerEntry StateTable.

(** ** Ordered maps *)

Section ascending.
Context {A : Type}.
Implicit Types m : gmap Z A.

#[local] Instance entry_le_total : Total (@entry_le A).
Proof. intros a b. unfold entry_le. lia. Qed.
#[local] Instance entry_le_trans : Transitive (@entry_le A).
Proof. intros a b c. unfold entry_le. lia. Qed.

Definition entry_lt (a b : Z * A) : Prop := a.1 < b.1.

Lemma ascending_perm m : ascending m ≡ₚ map_to_list m.
Proof. apply merge_sort_Permutation. Qed.

Lemma elem_of_ascending m k x : (k, x) ∈ ascending m ↔ m !! k = Some x.
Proof. rewrite ascending_perm. apply elem_of_map_to_list. Qed.

Lemma ascending_sorted m : StronglySorted entry_lt (ascending m).
Proof.
  apply (le_sorted_lt fst); [apply StronglySorted_merge_sort; apply _|].
  rewrite ascending_perm. apply NoDup_fst_map_to_list.
Qed.

Lemma elem_of_above m k k' x : (k', x) ∈ above k m ↔ k < k' ∧ m !! k' = Some x.
Proof. unfold above. by rewrite list_elem_of_filter, elem_of_ascending. Qed.

Lemma above_sorted m k : StronglySorted entry_lt (above k m).
Proof. apply (sorted_filter fst), ascending_sorted. Qed.

End ascending.

(** ** Successors *)

(** The least key above [k] and below [last]. *)
Definition succ_spec (p : Z → Prop) (k : Z) (last r : option Z) : Prop :=
  match r with
  | Some n => p n ∧ k < n ∧ at_least n last = false ∧ ∀ n', p n' → k < n' → n ≤ n'
  | None => ∀ n', p n' → k < n' → at_least n' last = true
  end.

Lemma at_least_mono n n' last : n ≤ n' → at_least n last = true → at_least n' last = true.
Proof. destruct last as [l|]; cbn; [lia|done]. Qed.

Lemma succ_unique p k last r1 r2 : succ_spec p k last r1 → succ_spec p k last r2 → r1 = r2.
Proof.
  destruct r1 as [n1|], r2 as [n2|]; cbn; [| | |done].
  - intros (H1 & K1 & L1 & M1) (H2 & K2 & L2 & M2). f_equal. specialize (M1 n2 H2 K2). specialize (M2 n1 H1 K1). lia.
  - intros (H1 & K1 & L1 & M1) M2. specialize (M2 n1 H1 K1). congruence.
  - intros M1 (H2 & K2 & L2 & M2). specialize (M1 n2 H2 K2). congruence.
Qed.

Lemma succ_ext p q k last r : (∀ n, p n ↔ q n) → succ_spec p k last r → succ_spec q k last r.
Proof. intros H. destruct r as [n|]; cbn; naive_solver. Qed.

(** The head of a sorted list of candidates is the successor. *)
Lemma head_least {A} (l : list (Z * A)) :
  StronglySorted entry_lt l →
  match head l with
  | None => l = []
  | Some (n, x) => (n, x) ∈ l ∧ ∀ e, e ∈ l → n ≤ e.1
  end.
Proof.
  destruct l as [|[n x] l]; [done|]. cbn [head]. intros [Hx _]%StronglySorted_cons. split; [by left|].
  intros e [->|He]%elem_of_cons; [done|]. rewrite Forall_forall in Hx. specialize (Hx e He). unfold entry_lt in Hx. cbn in Hx. lia.
Qed.

(** The lower one of the successors in two sets is the one in both. *)
Lemma lower_succ_spec p q k last next own :
  succ_spec p k last next → succ_spec q k None own → succ_spec (λ n, p n ∨ q n) k last (lower_succ next own last).
Proof.
  intros Hp Hq. unfold lower_succ.
  destruct own as [o|]; cbn in Hq.
  - destruct Hq as (Ho & Hko & _ & Hmo). destruct next as [n|]; cbn in Hp.
    + destruct Hp as (Hn & Hkn & Hl & Hmn). destruct (Z.ltb_spec o n) as [Hlt|Hge].
      * destruct (at_least o last) eqn:Ho'; [exfalso; apply (at_least_mono o n) in Ho'; [congruence|lia]|].
        cbn. split_and!; [by right|done|done|]. intros n' [H|H] Hk; [specialize (Hmn _ H Hk)|specialize (Hmo _ H Hk)]; lia.
      * rewrite Hl. cbn. split_and!; [by left|done|done|].
        intros n' [H|H] Hk; [specialize (Hmn _ H Hk)|specialize (Hmo _ H Hk)]; lia.
    + destruct (at_least o last) eqn:Ho'; cbn.
      * intros n' [H|H] Hk; [by apply Hp|]. eapply at_least_mono; [|done]. by apply Hmo.
      * split_and!; [by right|done|done|]. intros n' [H|H] Hk; [|by apply Hmo].
        specialize (Hp _ H Hk). destruct (Z.leb_spec o n'); [done|].
        apply (at_least_mono n' o) in Hp; [congruence|lia].
  - destruct next as [n|]; cbn in Hp.
    + destruct Hp as (Hn & Hkn & Hl & Hmn). rewrite Hl. cbn. split_and!; [by left|done|done|].
      intros n' [H|H] Hk; [by apply Hmn|]. by specialize (Hq _ H Hk).
    + cbn. intros n' [H|H] Hk; [by apply Hp|]. by specialize (Hq _ H Hk).
Qed.

(** ** Views that present a map *)

(** Entries are filed under their keys, and none under zero. *)
Definition filed (m : gmap Z SLE) : Prop := ∀ k s, m !! k = Some s → sle_key s = k ∧ k ≠ 0.

Definition read_of (m : gmap Z SLE) (k : Keylet) : exc (option SLE) :=
  match m !! k_key k with
  | None => Return None
  | Some s => b ← check k s; Return (if (b : bool) then Some s else None)
  end.

Definition entries (l : list (Z * SLE)) : list SLE := l.*2.

Definition sles_of (m : gmap Z SLE) (from : option Z) : list SLE :=
  entries (match from with Some k => above k m | None => ascending m end).

Record presents (v : ReadView) (m : gmap Z SLE) : Prop := {
  pr_read k : k_key k ≠ 0 → rv_read v k = read_of m k;
  pr_exists k : k_key k ≠ 0 → (∀ s, m !! k_key k = Some s → check k s = Return true) →
    rv_exists v k = Return (bool_decide (is_Some (m !! k_key k)));
  pr_succ k last : ∃ r, rv_succ v k last = Return r ∧ succ_spec (λ n, is_Some (m !! n)) k last r }.

Lemma ledger_presents m : presents (ledger_view m) m.
Proof.
  split; cbn.
  - intros k Hk. unfold ledger_read. by rewrite (proj2 (Z.eqb_neq _ _)).
  - done.
  - intros k last. unfold ledger_succ. pose proof (head_least _ (above_sorted m k)) as Hh.
    destruct (head (above k m)) as [[n x]|].
    + destruct Hh as [Hn Hm]. apply elem_of_above in Hn as [Hk Hn]. eexists. split; [done|].
      assert (Hmin : ∀ n', is_Some (m !! n') → k < n' → n ≤ n').
      { intros n' [x' Hn'] Hk'. apply (Hm (n', x')). by apply elem_of_above. }
      destruct (at_least n last) eqn:Hl; cbn.
      * intros n' Hn' Hk'. eapply at_least_mono; [|done]. by apply Hmin.
      * split_and!; [by eexists|done|done|done].
    + exists None. split; [done|]. cbn. intros n' [x' Hn'] Hk'.
      assert (Hin : (n', x') ∈ above k m) by (by apply elem_of_above). rewrite Hh in Hin. by apply elem_of_nil in Hin.
Qed.

(** The loop over the base passes over the entries that are erased. *)
Lemma base_succ_spec v m erased (E : gset Z) fuel k last :
  presents v m → (∀ n, erased n = true ↔ n ∈ E) → (size (filter (λ n, (k < n)%Z) E) < fuel)%nat →
  ∃ r, base_succ fuel erased v k last = Return r ∧
    succ_spec (λ n, is_Some (m !! n) ∧ erased n = false) k last r.
Proof.
  intros Hv HE. revert k. induction fuel as [|fuel IH]; intros k Hf; [lia|]. cbn [base_succ].
  destruct (pr_succ _ _ Hv k last) as (r & -> & Hr). cbn [mbind exc_bind]. destruct r as [n|]; cbn in Hr.
  2: { exists None. split; [done|]. intros n' [H _]. by apply Hr. }
  destruct Hr as (Hn & Hk & Hl & Hmin). destruct (erased n) eqn:He.
  - destruct (IH n) as (r & Hrun & Hr).
    { assert (Hin : n ∈ filter (λ n, k < n) E) by (apply elem_of_filter; split; [done|by apply HE]).
      assert (Hsub : filter (λ n', n < n') E ⊆ filter (λ n', k < n') E ∖ {[n]}).
      { intros x [Hx HxE]%elem_of_filter. apply elem_of_difference. split; [apply elem_of_filter; split; [lia|done]|].
        rewrite elem_of_singleton. lia. }
      apply subseteq_size in Hsub. rewrite size_difference in Hsub by (by apply singleton_subseteq_l).
      rewrite size_singleton in Hsub.
      assert (Hpos : (0 < size (filter (λ n', (k < n')%Z) E))%nat).
      { apply Nat.neq_0_lt_0. intros H0. apply size_empty_inv in H0. set_solver. }
      lia. }
    exists r. split; [done|]. destruct r as [n0|]; cbn in Hr |- *.
    + destruct Hr as (H1 & H2 & H3 & H4). split; [exact H1|]. split_and!; [lia|done|].
      intros n' [Hn' He'] Hk'. apply H4; [done|]. specialize (Hmin n' Hn' Hk').
      destruct (decide (n' = n)) as [->|]; [congruence|lia].
    + intros n' [Hn' He'] Hk'. apply Hr; [done|]. specialize (Hmin n' Hn' Hk').
      destruct (decide (n' = n)) as [->|]; [congruence|lia].
  - exists (Some n). split; [done|]. split; [done|]. split_and!; [done..|]. intros n' [Hn' _]. by apply Hmin.
Qed.

(** The first entry above a key that satisfies a test. *)
Lemma own_succ_spec {A} (items : gmap Z A) (test : Z → bool) k :
  succ_spec (λ n, is_Some (items !! n) ∧ test n = true) k None
    (fst <$> head (filter (λ e : Z * A, test e.1) (above k items))).
Proof.
  pose proof (head_least _ (sorted_filter fst (λ e : Z * A, test e.1) _ (above_sorted items k))) as Hh.
  destruct (head (filter _ _)) as [[n x]|]; cbn.
  - destruct Hh as [Hn Hmin]. apply list_elem_of_filter in Hn as [Ht Hn]. apply elem_of_above in Hn as [Hk Hn].
    split_and!; [by exists x|by apply Is_true_true|done|done|].
    intros n' [[x' Hn'] Ht'] Hk'. apply (Hmin (n', x')). apply list_elem_of_filter.
    split; [by apply Is_true_true|by apply elem_of_above].
  - intros n' [[x' Hn'] Ht'] Hk'.
    assert (Hin : (n', x') ∈ filter (λ e : Z * A, test e.1) (above k items)).
    { apply list_elem_of_filter. split; [by apply Is_true_true|by apply elem_of_above]. }
    rewrite Hh in Hin. by apply elem_of_nil in Hin.
Qed.

(** ** Tables over a base

    Both kinds of tables file actions on entries; what matters of an action is
    whether it erases, whether the base has the entry, and whether the entry is
    only a copy of the one in the base. *)

Class TableAction (A : Type) := {
  is_erase : A → bool;
  in_base : A → bool;
  is_cache : A → bool;
  cache_in_base a : is_cache a = true → in_base a = true ∧ is_erase a = false;
  erase_in_base a : is_erase a = true → in_base a = true }.

#[export] Instance raw_actions : TableAction RawAction.
Proof.
  refine {| is_erase a := match a with RErase => true | _ => false end;
            in_base a := match a with RInsert => false | _ => true end; is_cache _ := false |}; by intros [].
Defined.

#[export] Instance apply_actions : TableAction ApplyAction.
Proof.
  refine {| is_erase a := match a with AErase => true | _ => false end;
            in_base a := match a with AInsert => false | _ => true end;
            is_cache a := match a with ACache => true | _ => false end |}; by intros [].
Defined.

Section table.
Context {A : Type} `{TableAction A}.
Implicit Types (items : gmap Z (A * loc)) (m : gmap Z SLE) (h : gmap loc SLE).

(** The entries presented by the table. *)
Definition over h items m : gmap Z SLE :=
  merge (λ e b, match e with Some (a, l) => if is_erase a then None else h !! l | None => b end) items m.

Record table_ok h items m : Prop := {
  to_obj k a l : items !! k = Some (a, l) → ∃ s, h !! l = Some s ∧ sle_key s = k ∧ k ≠ 0;
  to_base k a l : items !! k = Some (a, l) → if in_base a then is_Some (m !! k) else m !! k = None;
  to_cache k a l : items !! k = Some (a, l) → is_cache a = true → h !! l = m !! k }.

Lemma over_lookup h items m k :
  over h items m !! k =
  match items !! k with Some (a, l) => if is_erase a then None else h !! l | None => m !! k end.
Proof. unfold over. rewrite lookup_merge. by destruct (items !! k) as [[a l]|], (m !! k). Qed.

Lemma over_empty h m : over h ∅ m = m.
Proof. apply map_eq. intros k. by rewrite over_lookup, lookup_empty. Qed.

Lemma table_ok_empty h m : table_ok h ∅ m.
Proof. by split. Qed.

Lemma over_filed h items m : filed m → table_ok h items m → filed (over h items m).
Proof.
  intros Hm Ht k s. rewrite over_lookup. destruct (items !! k) as [[a l]|] eqn:Hi; [|apply Hm].
  destruct (is_erase a); [done|]. destruct (to_obj _ _ _ Ht k a l Hi) as (s' & Hs' & Hk & Hnz). by intros [= <-]%(eq_trans (eq_sym Hs')).
Qed.

Definition erasedb items (k : Z) : bool := match items !! k with Some (a, _) => is_erase a | None => false end.

Definition over_read h items (base : ReadView) (k : Keylet) : exc (option SLE) :=
  match items !! k_key k with
  | None => rv_read base k
  | Some (a, l) => if is_erase a then Return None else checked_read h k l
  end.

Definition over_exists h items (base : ReadView) (k : Keylet) : exc bool :=
  match items !! k_key k with
  | None => rv_exists base k
  | Some (a, l) => if is_erase a then Return false else checked_exists h k l
  end.

Definition over_succ items (erased : Z → bool) (base : ReadView) (k : Z) (last : option Z) : exc (option Z) :=
  next ← base_succ (S (size items)) erased base k last;
  Return (lower_succ next (fst <$> head (filter (λ e : Z * (A * loc), negb (erased e.1)) (above k items))) last).

(** Reading through a table is reading the map it presents. *)
Lemma over_presents h items m base v erased :
  table_ok h items m → presents base m → (∀ n, erased n = erasedb items n) →
  (∀ k, k_key k ≠ 0 → rv_read v k = over_read h items base k) →
  (∀ k, k_key k ≠ 0 → rv_exists v k = over_exists h items base k) →
  (∀ k last, rv_succ v k last = over_succ items erased base k last) →
  presents v (over h items m).
Proof.
  intros Ht Hb Her Hr He Hs. split.
  - intros k Hk. rewrite Hr by done. unfold over_read, read_of. rewrite over_lookup.
    destruct (items !! k_key k) as [[a l]|] eqn:Hi; [|by apply (pr_read _ _ Hb)].
    destruct (is_erase a); [done|]. destruct (to_obj _ _ _ Ht _ _ _ Hi) as (s & Hl & _).
    unfold checked_read, deref. by rewrite Hl.
  - intros k Hk Hc. rewrite He by done. unfold over_exists. rewrite over_lookup in Hc |- *.
    destruct (items !! k_key k) as [[a l]|] eqn:Hi; [|by apply (pr_exists _ _ Hb)].
    destruct (is_erase a); [done|]. destruct (to_obj _ _ _ Ht _ _ _ Hi) as (s & Hl & _).
    unfold checked_exists, deref. rewrite Hl in Hc |- *. cbn. by rewrite (Hc s).
  - intros k last. rewrite Hs. unfold over_succ.
    destruct (base_succ_spec base m erased (dom (filter (λ e : Z * (A * loc), is_erase e.2.1) items))
      (S (size items)) k last Hb) as (r & -> & Hspec).
    { intros n. rewrite Her. unfold erasedb. rewrite elem_of_dom. unfold is_Some. setoid_rewrite map_lookup_filter_Some. cbn.
      destruct (items !! n) as [[a l]|]; [|naive_solver]. split.
      - intros Ha. exists (a, l). split; [done|by apply Is_true_true].
      - by intros (? & [= <-] & ?%Is_true_true). }
    { assert (Hsz : (size (filter (λ n, (k < n)%Z) (dom (filter (λ e : Z * (A * loc), is_erase e.2.1) items))) ≤ size items)%nat).
      { rewrite <- (size_dom items). apply subseteq_size. intros n [_ Hn]%elem_of_filter.
        apply elem_of_dom in Hn as [x [Hx _]%map_lookup_filter_Some]. by apply elem_of_dom_2 in Hx. }
      lia. }
    cbn. eexists. split; [done|]. eapply succ_ext; 
      [|exact (lower_succ_spec _ _ _ _ _ _ Hspec (own_succ_spec items (λ n, negb (erased n)) k))].
    intros n. rewrite over_lookup, Her. unfold erasedb. destruct (items !! n) as [[a l]|] eqn:Hi; [|naive_solver].
    destruct (to_obj _ _ _ Ht _ _ _ Hi) as (s & Hl & _). pose proof (to_base _ _ _ Ht _ _ _ Hi) as Hbase.
    destruct (is_erase a) eqn:Hae; rewrite ?Hl; naive_solver.
Qed.
End table.

(** ** Stacks of views *)

Definition layer_map (h : gmap loc SLE) (ly : Layer) (m : gmap Z SLE) : gmap Z SLE :=
  match ly with Apply t => over h (items_ t) m | Open t => over h (raw_items t) m end.

Definition layer_ok (h : gmap loc SLE) (ly : Layer) (m : gmap Z SLE) : Prop :=
  match ly with Apply t => table_ok h (items_ t) m | Open t => table_ok h (raw_items t) m end.

(** The objects a table points to. *)
Definition layer_loc (ly : Layer) (l : loc) : Prop :=
  match ly with
  | Apply t => ∃ k a, items_ t !! k = Some (a, l)
  | Open t => ∃ k a, raw_items t !! k = Some (a, l)
  end.

Definition stack_loc (ls : list Layer) (l : loc) : Prop := ∃ ly, ly ∈ ls ∧ layer_loc ly l.

Fixpoint stack_map (h : gmap loc SLE) (ls : list Layer) (m : gmap Z SLE) : gmap Z SLE :=
  match ls with [] => m | ly :: ls => layer_map h ly (stack_map h ls m) end.

Fixpoint stack_ok (h : gmap loc SLE) (ls : list Layer) (m : gmap Z SLE) : Prop :=
  match ls with
  | [] => filed m
  | ly :: ls =>
    layer_ok h ly (stack_map h ls m) ∧ (∀ l, layer_loc ly l → ¬ stack_loc ls l) ∧ stack_ok h ls m
  end.

Lemma stack_filed h ls m : stack_ok h ls m → filed (stack_map h ls m).
Proof.
  induction ls as [|[t|t] ls IH]; cbn; [done|..]; intros (Ht & _ & Hls); apply over_filed; [by apply IH|done..|by apply IH|done].
Qed.

Lemma apply_presents h t base m :
  table_ok h (items_ t) m → presents base m → presents (apply_view h t base) (over h (items_ t) m).
Proof.
  intros Ht Hb. eapply (over_presents _ _ _ _ _ (apply_erased t)); [done|done|..|done].
  - intros n. unfold apply_erased, erasedb. by destruct (items_ t !! n) as [[[] ?]|].
  - intros k _. cbn. unfold apply_read, over_read. by destruct (items_ t !! k_key k) as [[[] l]|].
  - intros k _. cbn. unfold apply_exists, over_exists. by destruct (items_ t !! k_key k) as [[[] l]|].
Qed.

Lemma open_presents h t base m :
  table_ok h (raw_items t) m → presents base m → presents (open_view h t base) (over h (raw_items t) m).
Proof.
  intros Ht Hb. eapply (over_presents _ _ _ _ _ (raw_erased t)); [done|done|..|done].
  - intros n. unfold raw_erased, erasedb. by destruct (raw_items t !! n) as [[[] ?]|].
  - intros k _. cbn. unfold raw_read, over_read. by destruct (raw_items t !! k_key k) as [[[] l]|].
  - intros k Hk. cbn. unfold raw_exists, over_exists. rewrite (proj2 (Z.eqb_neq _ _)) by done.
    by destruct (raw_items t !! k_key k) as [[[] l]|].
Qed.

(** Reading through a stack is reading the map at its top. *)
Lemma stack_presents h ls m : stack_ok h ls m → presents (stack_view h ls m) (stack_map h ls m).
Proof.
  induction ls as [|[t|t] ls IH]; cbn; [intros _; apply ledger_presents|..]; intros (Ht & _ & Hls).
  - by apply apply_presents, IH.
  - by apply open_presents, IH.
Qed.

(** Objects that no table points to play no role. *)
Lemma over_agree {A} `{TableAction A} h h' (items : gmap Z (A * loc)) m :
  (∀ k a l, items !! k = Some (a, l) → h' !! l = h !! l) → over h' items m = over h items m.
Proof.
  intros Ha. apply map_eq. intros k. rewrite !over_lookup. destruct (items !! k) as [[a l]|] eqn:Hi; [|done].
  by rewrite (Ha k a l Hi).
Qed.

Lemma table_ok_agree {A} `{TableAction A} h h' (items : gmap Z (A * loc)) m :
  (∀ k a l, items !! k = Some (a, l) → h' !! l = h !! l) → table_ok h items m → table_ok h' items m.
Proof.
  intros Ha Ht. split.
  - intros k a l Hi. rewrite (Ha k a l Hi). by eapply to_obj.
  - apply Ht.
  - intros k a l Hi. rewrite (Ha k a l Hi). by eapply to_cache.
Qed.

Lemma stack_agree h h' ls m :
  (∀ l, stack_loc ls l → h' !! l = h !! l) →
  stack_map h' ls m = stack_map h ls m ∧ (stack_ok h ls m → stack_ok h' ls m).
Proof.
  induction ls as [|ly ls IH]; intros Ha; [done|].
  destruct IH as [IHm IHo]. { intros l (ly' & Hin & Hl). apply Ha. exists ly'. split; [by right|done]. }
  assert (Hly : ∀ l, layer_loc ly l → h' !! l = h !! l) by (intros l Hl; apply Ha; exists ly; split; [by left|done]).
  cbn [stack_map stack_ok]. rewrite IHm. split.
  - destruct ly as [t|t]; apply over_agree; intros k a l Hi; apply Hly; cbn; eauto.
  - intros (Ht & Hd & Hls). split_and!; [|done|by apply IHo].
    destruct ly as [t|t]; (eapply table_ok_agree; [|exact Ht]); intros k a l Hi; apply Hly; cbn; eauto.
Qed.
