(* ===== verification/ViewSpec.v ===== *)
(** * Changing a stack of views

    Every change to the view at the top, and applying it to the view below, is
    the change of a finite map. *)
From S2P Require Import Prelude Outcome Bytes SHAMapNode LedgerEntry StateTable StateTableSpec.

(** ** Changes of one table *)

Section item.
Context {A : Type} `{TableAction A}.
Implicit Types (items : gmap Z (A * loc)) (m : gmap Z SLE) (h : gmap loc SLE).

Lemma set_item h items m k a l s :
  table_ok h items m → h !! l = Some s → sle_key s = k → k ≠ 0 →
  (if in_base a then is_Some (m !! k) else m !! k = None) → (is_cache a = true → m !! k = Some s) →
  table_ok h (<[k := (a, l)]> items) m ∧
  over h (<[k := (a, l)]> items) m = if is_erase a then delete k (over h items m) else <[k := s]> (over h items m).
Proof.
  intros Ht Hl Hs Hk Hb Hc. split.
  - split; intros k' a' l'; (destruct (decide (k' = k)) as [->|Hne]; [rewrite lookup_insert_eq; intros [= <- <-]|
      rewrite lookup_insert_ne by done]).
    + eauto.
    + apply Ht.
    + done.
    + apply Ht.
    + intros Hca. by rewrite Hl, Hc.
    + apply Ht.
  - apply map_eq. intros k'. rewrite over_lookup. destruct (decide (k' = k)) as [->|Hne].
    + rewrite lookup_insert_eq. destruct (is_erase a); [by rewrite lookup_delete_eq|by rewrite lookup_insert_eq].
    + rewrite lookup_insert_ne, <- (over_lookup h) by done.
      destruct (is_erase a); [by rewrite lookup_delete_ne|by rewrite lookup_insert_ne].
Qed.

Lemma delete_item h items m k a l :
  table_ok h items m → items !! k = Some (a, l) → in_base a = false →
  table_ok h (delete k items) m ∧ over h (delete k items) m = delete k (over h items m).
Proof.
  intros Ht Hi Ha. pose proof (to_base _ _ _ Ht _ _ _ Hi) as Hb. rewrite Ha in Hb. split.
  - split; intros k' a' l' [_ Hi']%lookup_delete_Some; by eapply Ht.
  - apply map_eq. intros k'. rewrite over_lookup. destruct (decide (k' = k)) as [->|Hne].
    + by rewrite !lookup_delete_eq.
    + by rewrite !lookup_delete_ne, over_lookup by done.
Qed.

(** What is filed for a key that the view has, and for one it has not. *)
Lemma over_Some h items m k s :
  over h items m !! k = Some s → items !! k = None ∧ m !! k = Some s ∨
  ∃ a l, items !! k = Some (a, l) ∧ is_erase a = false ∧ h !! l = Some s.
Proof.
  rewrite over_lookup. destruct (items !! k) as [[a l]|]; [|auto]. destruct (is_erase a) eqn:Ha; [done|]. eauto 10.
Qed.

Lemma over_None h items m k :
  table_ok h items m → over h items m !! k = None → items !! k = None ∧ m !! k = None ∨
  ∃ a l, items !! k = Some (a, l) ∧ is_erase a = true.
Proof.
  intros Ht. rewrite over_lookup. destruct (items !! k) as [[a l]|] eqn:Hi; [|auto].
  destruct (is_erase a) eqn:Ha; [eauto 10|]. destruct (to_obj _ _ _ Ht _ _ _ Hi) as (s & Hs & _). congruence.
Qed.
End item.

(** The actions are known: the conditions on them compute. *)
Ltac close_item lem := let HH := fresh in pose proof lem as HH; cbn in HH; by apply HH.

(** ** The calls of [RawView] *)

(** Only the view at the top of the stack differs, and not in its fees. *)
Definition same_below (ls : list Layer) (g : Ledger) (ls' : list Layer) (g' : Ledger) : Prop :=
  drops g' = drops g ∧
  match ls, ls' with
  | [], [] => True
  | Apply t :: ls, Apply t' :: ls' => ls' = ls ∧ g' = g ∧ dropsDestroyed_ t' = dropsDestroyed_ t
  | Open t :: ls, Open t' :: ls' => ls' = ls ∧ g' = g ∧ raw_drops t' = raw_drops t
  | _, _ => False
  end.

Lemma same_below_refl ls g : same_below ls g ls g.
Proof. split; [done|]. by destruct ls as [|[t|t] ls]. Qed.

Lemma same_below_trans ls1 g1 ls2 g2 ls3 g3 :
  same_below ls1 g1 ls2 g2 → same_below ls2 g2 ls3 g3 → same_below ls1 g1 ls3 g3.
Proof.
  unfold same_below. destruct ls1 as [|[t1|t1] ls1], ls2 as [|[t2|t2] ls2], ls3 as [|[t3|t3] ls3]; naive_solver congruence.
Qed.

Section raw_view.
Context (h : gmap loc SLE) (l : loc) (s : SLE) (Hl : h !! l = Some s) (Hnz : sle_key s ≠ 0).

(** The call returns, and the view below presents [m']. *)
Definition raw_done (ls : list Layer) (g : Ledger) (r : exc (list Layer * Ledger)) (m' : gmap Z SLE) : Prop :=
  ∃ ls' g', r = Return (ls', g') ∧ stack_ok h ls' (state_map g') ∧ stack_map h ls' (state_map g') = m' ∧
    (∀ l', stack_loc ls' l' → stack_loc ls l' ∨ l' = l) ∧ same_below ls g ls' g'.

Lemma stack_loc_cons ly ls l' : stack_loc (ly :: ls) l' ↔ layer_loc ly l' ∨ stack_loc ls l'.
Proof.
  unfold stack_loc. split.
  - intros (ly' & [->|Hin]%elem_of_cons & Hl'); eauto.
  - intros [Hl'|(ly' & Hin & Hl')]; [exists ly; split; [by left|done]|exists ly'; split; [by right|done]].
Qed.

(** A change of the table at the top of the stack. *)
Lemma apply_done t ls g items' m' :
  stack_ok h (Apply t :: ls) (state_map g) → ¬ stack_loc ls l →
  (∀ k a l', items' !! k = Some (a, l') → l' = l ∨ ∃ k' a', items_ t !! k' = Some (a', l')) →
  table_ok h items' (stack_map h ls (state_map g)) ∧ over h items' (stack_map h ls (state_map g)) = m' →
  raw_done (Apply t :: ls) g (Return (Apply (with_items t items') :: ls, g)) m'.
Proof.
  intros (Ht & Hd & Hls) Hn Hsub [Hok Hm]. eexists _, _. split; [done|]. split_and!; [|exact Hm| |by split].
  - cbn [stack_ok layer_ok]. split_and!; [done| |done]. intros l' (k & a & Hi).
    destruct (Hsub _ _ _ Hi) as [->|(k' & a' & Hi')]; [done|]. apply Hd. by exists k', a'.
  - intros l'. rewrite !stack_loc_cons. intros [(k & a & Hi)|?]; [|auto].
    destruct (Hsub _ _ _ Hi) as [->|(k' & a' & Hi')]; [by right|]. left; left. by exists k', a'.
Qed.

Lemma open_done t ls g items' m' :
  stack_ok h (Open t :: ls) (state_map g) → ¬ stack_loc ls l →
  (∀ k a l', items' !! k = Some (a, l') → l' = l ∨ ∃ k' a', raw_items t !! k' = Some (a', l')) →
  table_ok h items' (stack_map h ls (state_map g)) ∧ over h items' (stack_map h ls (state_map g)) = m' →
  raw_done (Open t :: ls) g (Return (Open (with_raw t items') :: ls, g)) m'.
Proof.
  intros (Ht & Hd & Hls) Hn Hsub [Hok Hm]. eexists _, _. split; [done|]. split_and!; [|exact Hm| |by split].
  - cbn [stack_ok layer_ok]. split_and!; [done| |done]. intros l' (k & a & Hi).
    destruct (Hsub _ _ _ Hi) as [->|(k' & a' & Hi')]; [done|]. apply Hd. by exists k', a'.
  - intros l'. rewrite !stack_loc_cons. intros [(k & a & Hi)|?]; [|auto].
    destruct (Hsub _ _ _ Hi) as [->|(k' & a' & Hi')]; [by right|]. left; left. by exists k', a'.
Qed.

Lemma sub_insert {A} (items : gmap Z (A * loc)) k0 a0 :
  ∀ k a l', <[k0 := (a0, l)]> items !! k = Some (a, l') → l' = l ∨ ∃ k' a', items !! k' = Some (a', l').
Proof. intros k a l' [[<- [= <- <-]]|[_ Hi]]%lookup_insert_Some; eauto. Qed.

Lemma sub_delete {A} (items : gmap Z (A * loc)) k0 :
  ∀ k a l', delete k0 items !! k = Some (a, l') → l' = l ∨ ∃ k' a', items !! k' = Some (a', l').
Proof. intros k a l' [_ Hi]%lookup_delete_Some. eauto. Qed.

Lemma not_below ly ls : ¬ stack_loc (ly :: ls) l → ¬ stack_loc ls l.
Proof. rewrite stack_loc_cons. tauto. Qed.

(** The ledger at the bottom. *)
Lemma ledger_done g m' : filed m' → raw_done [] g (Return ([], mkLedger m' (drops g))) m'.
Proof. intros Hf. eexists _, _. split; [done|]. split_and!; [done|done|auto|by split]. Qed.

Lemma filed_insert m : filed m → filed (<[sle_key s := s]> m).
Proof using Hnz. intros Hm k x [[<- <-]|[_ Hx]]%lookup_insert_Some; [done|by apply Hm]. Qed.

Lemma filed_delete m k0 : filed m → filed (delete k0 m).
Proof. intros Hm k x [_ Hx]%lookup_delete_Some. by apply Hm. Qed.

Lemma rawErase_ok ls g :
  stack_ok h ls (state_map g) → ¬ stack_loc ls l → is_Some (stack_map h ls (state_map g) !! sle_key s) →
  raw_done ls g (rawErase h l (ls, g)) (delete (sle_key s) (stack_map h ls (state_map g))).
Proof using Hl Hnz.
  intros Hok Hn [s0 Hs0]. unfold rawErase. cbn [fst snd].
  destruct ls as [|[t|t] ls]; [unfold ledger_rawErase|unfold apply_rawErase|unfold raw_erase]; unfold deref; rewrite Hl; cbn.
  - cbn in Hs0. rewrite Hs0. cbn. by apply ledger_done, filed_delete.
  - pose proof (not_below _ _ Hn) as Hn'. cbn in Hs0. pose proof Hok as (Ht & _).
    apply over_Some in Hs0 as [[Hi Hb%mk_is_Some]|(a & l0 & Hi & He & _)]; rewrite Hi; cbn.
    + apply apply_done; [done..|apply sub_insert|]. close_item (set_item h (items_ t) (stack_map h ls (state_map g)) (sle_key s) AErase l s).
    + pose proof (to_base _ _ _ Ht _ _ _ Hi) as Hb. destruct a; cbn in Hb, He |- *; [|done|..].
      * apply apply_done; [done..|apply sub_insert|]. close_item (set_item h (items_ t) (stack_map h ls (state_map g)) (sle_key s) AErase l s).
      * apply apply_done; [done..|apply sub_delete|]. close_item (delete_item h (items_ t) (stack_map h ls (state_map g)) (sle_key s) AInsert l0).
      * apply apply_done; [done..|apply sub_insert|]. close_item (set_item h (items_ t) (stack_map h ls (state_map g)) (sle_key s) AErase l s).
  - pose proof (not_below _ _ Hn) as Hn'. cbn in Hs0. pose proof Hok as (Ht & _).
    apply over_Some in Hs0 as [[Hi Hb%mk_is_Some]|(a & l0 & Hi & He & _)]; rewrite Hi; cbn.
    + apply open_done; [done..|apply sub_insert|]. close_item (set_item h (raw_items t) (stack_map h ls (state_map g)) (sle_key s) RErase l s).
    + pose proof (to_base _ _ _ Ht _ _ _ Hi) as Hb. destruct a; cbn in Hb, He |- *; [done|..].
      * apply open_done; [done..|apply sub_delete|]. close_item (delete_item h (raw_items t) (stack_map h ls (state_map g)) (sle_key s) RInsert l0).
      * apply open_done; [done..|apply sub_insert|]. close_item (set_item h (raw_items t) (stack_map h ls (state_map g)) (sle_key s) RErase l s).
Qed.

Lemma rawInsert_ok ls g :
  stack_ok h ls (state_map g) → ¬ stack_loc ls l → stack_map h ls (state_map g) !! sle_key s = None →
  raw_done ls g (rawInsert h l (ls, g)) (<[sle_key s := s]> (stack_map h ls (state_map g))).
Proof using Hl Hnz.
  intros Hok Hn Hs0. unfold rawInsert. cbn [fst snd].
  destruct ls as [|[t|t] ls]; [unfold ledger_rawInsert|unfold apply_insert|unfold raw_insert]; unfold deref; rewrite Hl; cbn.
  - cbn in Hs0. rewrite Hs0. cbn. by apply ledger_done, filed_insert.
  - pose proof (not_below _ _ Hn) as Hn'. cbn in Hs0. pose proof Hok as (Ht & _).
    apply over_None in Hs0 as [[Hi Hb]|(a & l0 & Hi & He)]; [..|done]; rewrite Hi; cbn.
    + apply apply_done; [done..|apply sub_insert|]. close_item (set_item h (items_ t) (stack_map h ls (state_map g)) (sle_key s) AInsert l s).
    + pose proof (to_base _ _ _ Ht _ _ _ Hi) as Hb. destruct a; cbn in Hb, He |- *; [done| |done..].
      apply apply_done; [done..|apply sub_insert|]. close_item (set_item h (items_ t) (stack_map h ls (state_map g)) (sle_key s) AModify l s).
  - pose proof (not_below _ _ Hn) as Hn'. cbn in Hs0. pose proof Hok as (Ht & _).
    apply over_None in Hs0 as [[Hi Hb]|(a & l0 & Hi & He)]; [..|done]; rewrite Hi; cbn.
    + apply open_done; [done..|apply sub_insert|]. close_item (set_item h (raw_items t) (stack_map h ls (state_map g)) (sle_key s) RInsert l s).
    + pose proof (to_base _ _ _ Ht _ _ _ Hi) as Hb. destruct a; cbn in Hb, He |- *; [|done..].
      apply open_done; [done..|apply sub_insert|]. close_item (set_item h (raw_items t) (stack_map h ls (state_map g)) (sle_key s) RReplace l s).
Qed.

Lemma rawReplace_ok ls g :
  stack_ok h ls (state_map g) → ¬ stack_loc ls l → is_Some (stack_map h ls (state_map g) !! sle_key s) →
  raw_done ls g (rawReplace h l (ls, g)) (<[sle_key s := s]> (stack_map h ls (state_map g))).
Proof using Hl Hnz.
  intros Hok Hn [s0 Hs0]. unfold rawReplace. cbn [fst snd].
  destruct ls as [|[t|t] ls]; [unfold ledger_rawReplace|unfold apply_replace|unfold raw_replace]; unfold deref; rewrite Hl; cbn.
  - cbn in Hs0. rewrite Hs0. cbn. by apply ledger_done, filed_insert.
  - pose proof (not_below _ _ Hn) as Hn'. cbn in Hs0. pose proof Hok as (Ht & _).
    apply over_Some in Hs0 as [[Hi Hb%mk_is_Some]|(a & l0 & Hi & He & _)]; rewrite Hi; cbn.
    + apply apply_done; [done..|apply sub_insert|]. close_item (set_item h (items_ t) (stack_map h ls (state_map g)) (sle_key s) AModify l s).
    + pose proof (to_base _ _ _ Ht _ _ _ Hi) as Hb. destruct a; cbn in Hb, He |- *; [|done|..].
      * apply apply_done; [done..|apply sub_insert|]. close_item (set_item h (items_ t) (stack_map h ls (state_map g)) (sle_key s) AModify l s).
      * apply apply_done; [done..|apply sub_insert|]. close_item (set_item h (items_ t) (stack_map h ls (state_map g)) (sle_key s) AInsert l s).
      * apply apply_done; [done..|apply sub_insert|]. close_item (set_item h (items_ t) (stack_map h ls (state_map g)) (sle_key s) AModify l s).
  - pose proof (not_below _ _ Hn) as Hn'. cbn in Hs0. pose proof Hok as (Ht & _).
    apply over_Some in Hs0 as [[Hi Hb%mk_is_Some]|(a & l0 & Hi & He & _)]; rewrite Hi; cbn.
    + apply open_done; [done..|apply sub_insert|]. close_item (set_item h (raw_items t) (stack_map h ls (state_map g)) (sle_key s) RReplace l s).
    + pose proof (to_base _ _ _ Ht _ _ _ Hi) as Hb. destruct a; cbn in Hb, He |- *; [done|..].
      * apply open_done; [done..|apply sub_insert|]. close_item (set_item h (raw_items t) (stack_map h ls (state_map g)) (sle_key s) RInsert l s).
      * apply open_done; [done..|apply sub_insert|]. close_item (set_item h (raw_items t) (stack_map h ls (state_map g)) (sle_key s) RReplace l s).
Qed.
End raw_view.

(** ** Applying a table to the view below *)

Section apply.
Context {A : Type} `{TableAction A} (h : gmap loc SLE).

Fixpoint apply_all (es : list (Z * (A * loc))) (to : list Layer * Ledger) : exc (list Layer * Ledger) :=
  match es with
  | [] => Return to
  | (_, (a, l)) :: es =>
    if is_cache a then apply_all es to
    else
      to ← (if is_erase a then rawErase h l to else if in_base a then rawReplace h l to else rawInsert h l to);
      apply_all es to
  end.

(** The entries to apply to a view that presents [m]. *)
Definition pending (es : list (Z * (A * loc))) (ls : list Layer) (m : gmap Z SLE) : Prop :=
  NoDup es.*1 ∧
  ∀ k a l, (k, (a, l)) ∈ es →
    (∃ s, h !! l = Some s ∧ sle_key s = k ∧ k ≠ 0) ∧ ¬ stack_loc ls l ∧
    if in_base a then is_Some (m !! k) else m !! k = None.

(** What the changes make of the map. *)
Fixpoint applied (es : list (Z * (A * loc))) (m : gmap Z SLE) : gmap Z SLE :=
  match es with
  | [] => m
  | (k, (a, l)) :: es =>
    applied es (if is_cache a then m else if is_erase a then delete k m else partial_alter (λ _, h !! l) k m)
  end.

Lemma apply_one k a l ls g :
  stack_ok h ls (state_map g) → pending [(k, (a, l))] ls (stack_map h ls (state_map g)) → is_cache a = false →
  raw_done h l ls g
    (if is_erase a then rawErase h l (ls, g) else if in_base a then rawReplace h l (ls, g) else rawInsert h l (ls, g))
    (if is_erase a then delete k (stack_map h ls (state_map g))
     else partial_alter (λ _, h !! l) k (stack_map h ls (state_map g))).
Proof.
  intros Hok [_ Hp] Hc. destruct (Hp k a l) as ((s & Hl & <- & Hk) & Hn & Hb); [by left|].
  rewrite Hl. destruct (is_erase a) eqn:He.
  - rewrite (erase_in_base a He) in Hb. by apply rawErase_ok.
  - destruct (in_base a); [by apply rawReplace_ok|by apply rawInsert_ok].
Qed.

Lemma apply_all_ok es ls g :
  stack_ok h ls (state_map g) → pending es ls (stack_map h ls (state_map g)) →
  ∃ ls' g', apply_all es (ls, g) = Return (ls', g') ∧ stack_ok h ls' (state_map g') ∧
    stack_map h ls' (state_map g') = applied es (stack_map h ls (state_map g)) ∧
    (∀ l, stack_loc ls' l → stack_loc ls l ∨ ∃ k a, (k, (a, l)) ∈ es) ∧ same_below ls g ls' g'.
Proof.
  revert ls g. induction es as [|[k [a l]] es IH]; intros ls g Hok Hp; cbn [apply_all applied].
  { exists ls, g. split_and!; [done..|auto|apply same_below_refl]. }
  destruct Hp as [Hnd Hp]. rewrite fmap_cons, NoDup_cons in Hnd. destruct Hnd as [Hk Hnd].
  assert (Hp1 : pending [(k, (a, l))] ls (stack_map h ls (state_map g))).
  { split; [apply NoDup_singleton|]. intros k' a' l' [= -> -> ->]%list_elem_of_singleton. apply Hp. by left. }
  destruct (is_cache a) eqn:Hc.
  { destruct (IH ls g Hok) as (ls' & g' & Hrun & Hok' & Hm & Hloc & Hs).
    { split; [done|]. intros k' a' l' Hin. apply Hp. by right. }
    exists ls', g'. split_and!; [done..| |done]. intros l' [?|(k' & a' & ?)]%Hloc; [auto|].
    right. exists k', a'. by right. }
  destruct (apply_one k a l ls g Hok Hp1 Hc) as (ls1 & g1 & Hrun1 & Hok1 & Hm1 & Hloc1 & Hs1). rewrite Hrun1. cbn.
  destruct (IH ls1 g1 Hok1) as (ls' & g' & Hrun & Hok' & Hm & Hloc & Hs).
  { split; [done|]. intros k' a' l' Hin. destruct (Hp k' a' l') as (Hobj & Hn & Hb); [by right|].
    assert (Hne : k' ≠ k). { intros ->. apply Hk. by apply (list_elem_of_fmap_2 fst) in Hin. }
    split_and!; [done| |].
    - intros [?| ->]%Hloc1; [done|]. destruct (Hp k a l) as ((s & Hl & Hsk & _) & _); [by left|].
      destruct Hobj as (s' & Hl' & Hsk' & _). congruence.
    - rewrite Hm1. destruct (is_erase a); [by rewrite lookup_delete_ne|by rewrite lookup_partial_alter_ne]. }
  exists ls', g'. split_and!; [done|done|by rewrite Hm, Hm1| |by eapply same_below_trans].
  intros l' [[?| ->]%Hloc1|(k' & a' & ?)]%Hloc; [auto| |]; right; [exists k, a; by left|exists k', a'; by right].
Qed.

Lemma applied_lookup es m k :
  NoDup es.*1 →
  ((∀ a l, (k, (a, l)) ∉ es) → applied es m !! k = m !! k) ∧
  ∀ a l, (k, (a, l)) ∈ es →
    applied es m !! k = if is_cache a then m !! k else if is_erase a then None else h !! l.
Proof.
  revert m. induction es as [|[k0 [a0 l0]] es IH]; intros m; cbn [applied].
  { intros _. split; [done|]. by intros a l ?%elem_of_nil. }
  rewrite fmap_cons, NoDup_cons. intros [Hk0 Hnd].
  set (m1 := if is_cache a0 then m else if is_erase a0 then delete k0 m else partial_alter (λ _, h !! l0) k0 m).
  destruct (IH m1 Hnd) as [IH1 IH2].
  assert (Hm1 : ∀ k', k' ≠ k0 → m1 !! k' = m !! k').
  { intros k' Hne. unfold m1. destruct (is_cache a0), (is_erase a0); [done..|by rewrite lookup_delete_ne|by rewrite lookup_partial_alter_ne]. }
  split.
  - intros Hno. rewrite IH1 by (intros a l Hin; eapply Hno; by right). apply Hm1. intros ->. eapply Hno. by left.
  - intros a l [[= -> -> ->]|Hin]%elem_of_cons.
    + rewrite IH1. 2: { intros a l Hin. apply Hk0. by apply (list_elem_of_fmap_2 fst) in Hin. }
      unfold m1. destruct (is_cache a0); [done|]. destruct (is_erase a0); [by rewrite lookup_delete_eq|].
      by rewrite lookup_partial_alter_eq.
    + rewrite (IH2 a l Hin). assert (k ≠ k0).
      { intros ->. apply Hk0. by apply (list_elem_of_fmap_2 fst) in Hin. }
      by rewrite Hm1.
Qed.

(** Applying all of a table makes the view below present what it presented. *)
Lemma applied_over (items : gmap Z (A * loc)) m :
  table_ok h items m → applied (ascending items) m = over h items m.
Proof.
  intros Ht. apply map_eq. intros k. rewrite over_lookup.
  destruct (applied_lookup (ascending items) m k) as [H1 H2].
  { rewrite ascending_perm. apply NoDup_fst_map_to_list. }
  destruct (items !! k) as [[a l]|] eqn:Hi.
  - rewrite (H2 a l) by (by apply elem_of_ascending). destruct (is_cache a) eqn:Hc; [|done].
    destruct (cache_in_base a Hc) as [_ ->]. symmetry. by eapply to_cache.
  - apply H1. intros a l Hin%elem_of_ascending. congruence.
Qed.

Lemma table_pending (items : gmap Z (A * loc)) ls m :
  table_ok h items m → (∀ k a l, items !! k = Some (a, l) → ¬ stack_loc ls l) → pending (ascending items) ls m.
Proof.
  intros Ht Hd. split; [rewrite ascending_perm; apply NoDup_fst_map_to_list|].
  intros k a l Hi%elem_of_ascending. split_and!; [by eapply to_obj|by eapply Hd|by eapply to_base].
Qed.
End apply.

Lemma bind_ext {A B} (m : exc A) (f g : A → exc B) : (∀ a, f a = g a) → m ≫= f = m ≫= g.
Proof. intros Hfg. destruct m; cbn; [apply Hfg|done..]. Qed.

Lemma apply_items_all h es to : apply_items h es to = apply_all h es to.
Proof. revert to. induction es as [|[k [[] l]] es IH]; intros to; cbn; [done|apply IH|..]; by apply bind_ext. Qed.

Lemma raw_items_all h es to : raw_apply_items h es to = apply_all h es to.
Proof. revert to. induction es as [|[k [[] l]] es IH]; intros to; cbn; [done|..]; by apply bind_ext. Qed.
