(* ===== verification/ViewIter.v ===== *)
(** * Iterating over the entries of an open view

    The iterator merges the entries of the base with those of the table; it
    visits the entries that the view presents, in the order of their keys. *)
From S2P Require Import Prelude Outcome Bytes SHAMapNode LedgerEntry StateTable StateTableSpec.

Definition sle_lt (a b : SLE) : Prop := sle_key a < sle_key b.

(** Two lists that are left to visit: both in order; the base has the entries
    that the table erases or replaces and no others of the table. *)
Record mergeable (it0 : list SLE) (it1 : list (RawAction * SLE)) : Prop := {
  mg_0 : StronglySorted sle_lt it0;
  mg_1 : StronglySorted sle_lt it1.*2;
  mg_base a s : (a, s) ∈ it1 → (∃ s0, s0 ∈ it0 ∧ sle_key s0 = sle_key s) ↔ a ≠ RInsert }.

(** The entries to visit. *)
Definition visits (it0 : list SLE) (it1 : list (RawAction * SLE)) (x : SLE) : Prop :=
  (x ∈ it0 ∧ ∀ a s, (a, s) ∈ it1 → sle_key s ≠ sle_key x) ∨ ∃ a, (a, x) ∈ it1 ∧ a ≠ RErase.

(** No erased entry is next. *)
Definition skipped (it0 : list SLE) (it1 : list (RawAction * SLE)) : Prop :=
  match it1, it0 with (RErase, s1) :: _, s0 :: _ => sle_key s0 ≠ sle_key s1 | (RErase, _) :: _, [] => False | _, _ => True end.

Lemma tail_2 a s (r1 : list (RawAction * SLE)) a' s' :
  StronglySorted sle_lt ((a, s) :: r1).*2 → (a', s') ∈ r1 → sle_key s < sle_key s'.
Proof.
  rewrite fmap_cons. intros Hs Hin. eapply (sorted_head sle_key); [exact Hs|]. by apply (list_elem_of_fmap_2 snd) in Hin.
Qed.

(** The heads have the same key: both are passed. *)
Lemma pass_both s0 it0 a s1 it1 :
  mergeable (s0 :: it0) ((a, s1) :: it1) → sle_key s0 = sle_key s1 →
  mergeable it0 it1 ∧ ∀ x, visits (s0 :: it0) ((a, s1) :: it1) x ↔ x = s1 ∧ a ≠ RErase ∨ visits it0 it1 x.
Proof.
  intros [H0 H1 Hb] Hk. split.
  - split; [by eapply (sorted_tail sle_key)|rewrite fmap_cons in H1; by eapply (sorted_tail sle_key)|].
    intros a' s' Hin. rewrite <- (Hb a' s') by (by right). split; intros (x & Hx & Hxk); exists x.
    + split; [by right|done].
    + apply elem_of_cons in Hx as [->|Hx]; [|done]. pose proof (tail_2 _ _ _ _ _ H1 Hin). lia.
  - intros x. unfold visits. split.
    + intros [[[->|Hx]%elem_of_cons Hn]|(a' & [[= -> ->]|Hin]%elem_of_cons & Ha)].
      * exfalso. apply (Hn a s1); [by left|done].
      * right; left. split; [done|]. intros a' s' Hin. apply (Hn a'). by right.
      * by left.
      * right; right. by exists a'.
    + intros [[-> Ha]|[[Hx Hn]|(a' & Hin & Ha)]].
      * right. exists a. split; [by left|done].
      * left. split; [by right|]. intros a' s' [[= -> ->]|Hin]%elem_of_cons; [|by eapply Hn].
        pose proof (sorted_head sle_key _ _ _ H0 Hx) as Hlt. unfold sle_lt in Hlt. lia.
      * right. exists a'. split; [by right|done].
Qed.

(** The head of the table is alone. *)
Lemma pass_table it0 a s1 it1 :
  mergeable it0 ((a, s1) :: it1) → (∀ s0, s0 ∈ it0 → sle_key s1 < sle_key s0) →
  a = RInsert ∧ mergeable it0 it1 ∧ ∀ x, visits it0 ((a, s1) :: it1) x ↔ x = s1 ∨ visits it0 it1 x.
Proof.
  intros [H0 H1 Hb] Hlt. assert (a = RInsert) as ->.
  { apply dec_stable. intros Ha. apply (Hb a s1) in Ha as (s0 & Hin & Hk); [|by left]. specialize (Hlt s0 Hin). lia. }
  split; [done|]. split.
  - split; [done|rewrite fmap_cons in H1; by eapply (sorted_tail sle_key)|]. intros a' s' Hin. apply Hb. by right.
  - intros x. unfold visits. split.
    + intros [[Hx Hn]|(a' & [[= -> ->]|Hin]%elem_of_cons & Ha)]; [|by left|].
      * right; left. split; [done|]. intros a' s' Hin. apply (Hn a'). by right.
      * right; right. by exists a'.
    + intros [->|[[Hx Hn]|(a' & Hin & Ha)]].
      * right. exists RInsert. split; [by left|done].
      * left. split; [done|]. intros a' s' [[= -> ->]|Hin]%elem_of_cons; [|by eapply Hn]. specialize (Hlt x Hx). lia.
      * right. exists a'. split; [by right|done].
Qed.

(** The head of the base is alone. *)
Lemma pass_base s0 it0 it1 :
  mergeable (s0 :: it0) it1 → (∀ a s, (a, s) ∈ it1 → sle_key s0 < sle_key s) →
  mergeable it0 it1 ∧ ∀ x, visits (s0 :: it0) it1 x ↔ x = s0 ∨ visits it0 it1 x.
Proof.
  intros [H0 H1 Hb] Hlt. split.
  - split; [by eapply (sorted_tail sle_key)|done|]. intros a' s' Hin. rewrite <- (Hb a' s') by done.
    split; intros (x & Hx & Hxk); exists x; [split; [by right|done]|].
    apply elem_of_cons in Hx as [->|Hx]; [|done]. specialize (Hlt _ _ Hin). lia.
  - intros x. unfold visits. split.
    + intros [[[->|Hx]%elem_of_cons Hn]|?]; [by left|right; by left|right; by right].
    + intros [->|[[Hx Hn]|?]]; [|left; split; [by right|done]|by right].
      left. split; [by left|]. intros a s Hin. specialize (Hlt _ _ Hin). lia.
Qed.

(** The iterator [it] has the entries of both lists left. *)
Definition skips_to (it0 : list SLE) (it1 : list (RawAction * SLE)) (it : sles_iter) : Prop :=
  mergeable (left0 it) (left1 it) ∧ skipped (left0 it) (left1 it) ∧
  (∀ x, visits (left0 it) (left1 it) x ↔ visits it0 it1 x) ∧
  (length (left0 it) + length (left1 it) ≤ length it0 + length it1)%nat.

Lemma skips_refl it0 it1 : mergeable it0 it1 → skipped it0 it1 → skips_to it0 it1 (mkSles it0 it1).
Proof. intros Hm Hs. split_and!; [done|done|by intros x|cbn; lia]. Qed.

Lemma erase_has_base s1 it0 it1 : mergeable it0 ((RErase, s1) :: it1) → it0 ≠ [].
Proof.
  intros Hm ->. destruct (proj2 (mg_base _ _ Hm RErase s1 (list_elem_of_here _ _))) as (x & ?%elem_of_nil & _); done.
Qed.

Lemma skip_ok it0 it1 : mergeable it0 it1 → ∃ it, sles_skip it0 it1 = Return it ∧ skips_to it0 it1 it.
Proof.
  revert it0. induction it1 as [|[a s1] r1 IH]; intros it0 Hm; cbn [sles_skip].
  { eexists. split; [done|]. apply skips_refl; [done|by destruct it0]. }
  destruct a; [|eexists; split; [done|]; by apply skips_refl..].
  destruct it0 as [|s0 r0]; [by apply erase_has_base in Hm|].
  destruct (Z.eqb_spec (sle_key s0) (sle_key s1)) as [Hk|Hk]; [|eexists; split; [done|]; by apply skips_refl].
  destruct (pass_both _ _ _ _ _ Hm Hk) as [Hm' Hv].
  assert (Hv' : ∀ x, visits r0 r1 x ↔ visits (s0 :: r0) ((RErase, s1) :: r1) x) by (intros x; rewrite Hv; naive_solver).
  destruct r0 as [|s r0].
  - eexists. split; [done|]. split_and!; [done| |done|cbn; lia]. destruct r1 as [|[[] s'] r1]; [done|..|done|done].
    by apply erase_has_base in Hm'.
  - destruct (IH (s :: r0) Hm') as (it & Hrun & Hm2 & Hsk & Hvis & Hlen).
    exists it. split; [done|]. split_and!; [done..| |cbn in Hlen |- *; lia]. intros x. by rewrite Hvis.
Qed.

(** A step visits one entry, the least one left. *)
Lemma increment_ok it :
  mergeable (left0 it) (left1 it) → skipped (left0 it) (left1 it) → (left0 it ≠ [] ∨ left1 it ≠ []) →
  ∃ s it', sles_dereference it = Some s ∧ sles_increment it = Return it' ∧
    mergeable (left0 it') (left1 it') ∧ skipped (left0 it') (left1 it') ∧
    (∀ x, visits (left0 it) (left1 it) x ↔ x = s ∨ visits (left0 it') (left1 it') x) ∧
    (∀ x, visits (left0 it') (left1 it') x → sle_key s < sle_key x) ∧
    (length (left0 it') + length (left1 it') < length (left0 it) + length (left1 it))%nat.
Proof.
  destruct it as [it0 it1]. unfold sles_dereference, sles_increment. cbn [left0 left1]. intros Hm Hs Hne.
  assert (Hstep : ∀ s r0 r1,
    mergeable r0 r1 → (∀ x, visits it0 it1 x ↔ x = s ∨ visits r0 r1 x) →
    (∀ x, x ∈ r0 → sle_key s < sle_key x) → (∀ a x, (a, x) ∈ r1 → sle_key s < sle_key x) →
    (length r0 + length r1 < length it0 + length it1)%nat →
    ∃ s' it', Some s = Some s' ∧ sles_skip r0 r1 = Return it' ∧ mergeable (left0 it') (left1 it') ∧
      skipped (left0 it') (left1 it') ∧ (∀ x, visits it0 it1 x ↔ x = s' ∨ visits (left0 it') (left1 it') x) ∧
      (∀ x, visits (left0 it') (left1 it') x → sle_key s' < sle_key x) ∧
      (length (left0 it') + length (left1 it') < length it0 + length it1)%nat).
  { intros s r0 r1 Hmr Hv H0 H1 Hlen. destruct (skip_ok r0 r1 Hmr) as (it' & Hrun & Hm' & Hs' & Hv' & Hl').
    exists s, it'. split_and!; [done|done|done|done| | |lia].
    - intros x. by rewrite Hv, Hv'.
    - intros x. rewrite Hv'. intros [[Hx _]|(a & Hx & _)]; eauto. }
  destruct it1 as [|[a s1] r1].
  - destruct it0 as [|s0 r0]; [naive_solver|].
    destruct (pass_base _ _ _ Hm) as [Hm' Hv]; [by intros ?? ?%elem_of_nil|].
    destruct (Hstep s0 r0 [] Hm' Hv) as (? & ? & ? & [= <-] & ?); [|by intros ?? ?%elem_of_nil|cbn; lia|eauto 10].
    intros x Hx. by apply (sorted_head sle_key _ _ _ (mg_0 _ _ Hm)).
  - destruct it0 as [|s0 r0].
    { destruct (pass_table _ _ _ _ Hm) as (-> & Hm' & Hv); [by intros ? ?%elem_of_nil|].
      destruct (Hstep s1 [] r1 Hm' Hv) as (s' & it' & [= <-] & _ & _); [by intros ? ?%elem_of_nil| |cbn; lia|].
      { intros a x Hx. by apply (tail_2 _ _ _ _ _ (mg_1 _ _ Hm) Hx). }
      eexists _, _. split_and!; [done|done|done| |done| |cbn; lia].
      - destruct r1 as [|[[] s'] r1]; [done|..|done|done]. by apply erase_has_base in Hm'.
      - intros x [[?%elem_of_nil _]|(a & Hx & _)]; [done|]. by apply (tail_2 _ _ _ _ _ (mg_1 _ _ Hm) Hx). }
    assert (Hlt1 : ∀ a x, (a, x) ∈ r1 → sle_key s1 < sle_key x) by (intros; by eapply (tail_2 _ _ _ _ _ (mg_1 _ _ Hm))).
    assert (Hlt0 : ∀ x, x ∈ r0 → sle_key s0 < sle_key x) by (intros; by apply (sorted_head sle_key _ _ _ (mg_0 _ _ Hm))).
    destruct (Z.eqb_spec (sle_key s1) (sle_key s0)) as [He|Hn].
    + rewrite (proj2 (Z.leb_le _ _)) by lia. destruct (pass_both _ _ _ _ _ Hm) as [Hm' Hv]; [done|].
      apply Hstep; [done| |intros x Hx%Hlt0; lia|done|cbn; lia].
      intros x. rewrite Hv. destruct a; cbn in Hs; naive_solver.
    + destruct (Z.ltb_spec (sle_key s1) (sle_key s0)) as [Hlt|Hge].
      * rewrite (proj2 (Z.leb_le _ _)) by lia.
        destruct (pass_table _ _ _ _ Hm) as (-> & Hm' & Hv). { intros x [->|Hx%Hlt0]%elem_of_cons; lia. }
        apply Hstep; [done|done| |done|cbn; lia]. intros x [->|Hx%Hlt0]%elem_of_cons; lia.
      * rewrite (proj2 (Z.leb_gt _ _)) by lia.
        assert (Hlt : ∀ a' x, (a', x) ∈ (a, s1) :: r1 → sle_key s0 < sle_key x).
        { intros a' x [[= -> ->]|Hx%Hlt1]%elem_of_cons; lia. }
        destruct (pass_base _ _ _ Hm Hlt) as [Hm' Hv]. apply Hstep; [done..|cbn; lia].
Qed.

(** The loop visits every entry, in order. *)
Lemma loop_ok fuel it :
  mergeable (left0 it) (left1 it) → skipped (left0 it) (left1 it) →
  (length (left0 it) + length (left1 it) ≤ fuel)%nat →
  ∃ l, sles_loop fuel it = Return l ∧ StronglySorted sle_lt l ∧ ∀ x, x ∈ l ↔ visits (left0 it) (left1 it) x.
Proof.
  revert it. induction fuel as [|fuel IH]; intros it Hm Hs Hf.
  - destruct it as [[|] [|]]; cbn in Hf; [|lia..]. exists []. split_and!; [done|constructor|].
    intros x. rewrite elem_of_nil. unfold visits. cbn. setoid_rewrite elem_of_nil. naive_solver.
  - destruct (decide (left0 it = [] ∧ left1 it = [])) as [[H0 H1]|Hne].
    { exists []. destruct it as [it0 it1]. cbn in H0, H1 |- *. subst. split_and!; [done|constructor|].
      intros x. rewrite elem_of_nil. unfold visits. cbn. setoid_rewrite elem_of_nil. naive_solver. }
    destruct (increment_ok it Hm Hs) as (s & it' & Hd & Hi & Hm' & Hs' & Hv & Hlt & Hlen).
    { destruct (left0 it); [right; naive_solver|by left]. }
    destruct (IH it' Hm' Hs') as (l & Hl & Hsl & Hin); [lia|].
    exists (s :: l). split_and!.
    + cbn [sles_loop]. rewrite Hd, Hi. cbn. rewrite Hl. cbn. destruct (left1 it), (left0 it); [naive_solver|done..].
    + apply StronglySorted_cons. split; [|done]. apply Forall_forall. intros x. rewrite Hin. apply Hlt.
    + intros x. rewrite elem_of_cons, Hin. by rewrite Hv.
Qed.

(** ** The entries of a map *)

Definition in_range (from : option Z) (k : Z) : Prop := match from with Some k0 => k0 < k | None => True end.

Definition range_of {A} (from : option Z) (m : gmap Z A) : list (Z * A) :=
  match from with Some k => above k m | None => ascending m end.

Lemma elem_of_range {A} from (m : gmap Z A) k x : (k, x) ∈ range_of from m ↔ in_range from k ∧ m !! k = Some x.
Proof. destruct from as [k0|]; cbn; [apply elem_of_above|]. rewrite elem_of_ascending. naive_solver. Qed.

Lemma range_sorted {A} from (m : gmap Z A) : StronglySorted entry_lt (range_of from m).
Proof. destruct from as [k0|]; [apply above_sorted|apply ascending_sorted]. Qed.

Lemma elem_of_sles m from s : filed m → s ∈ sles_of m from ↔ in_range from (sle_key s) ∧ m !! sle_key s = Some s.
Proof.
  intros Hm. change (sles_of m from) with ((range_of from m).*2). rewrite list_elem_of_fmap. split.
  - intros ([k x] & -> & [Hr Hk]%elem_of_range). cbn. by destruct (Hm k x Hk) as [-> _].
  - intros [Hr Hk]. exists (sle_key s, s). split; [done|]. by apply elem_of_range.
Qed.

(** Entries filed in the order of their keys. *)
Lemma entries_sorted {A B} (es : list (Z * A)) (f : Z * A → B) (key : B → Z) :
  StronglySorted entry_lt es → (∀ e, e ∈ es → key (f e) = e.1) → StronglySorted (λ a b, key a < key b) (f <$> es).
Proof.
  induction es as [|e es IH]; [constructor|]. intros Hs Hk. rewrite fmap_cons. apply StronglySorted_cons. split.
  - apply Forall_forall. intros b (e' & -> & He')%list_elem_of_fmap. rewrite !Hk; [|by right|by left].
    by apply (sorted_head fst _ _ _ Hs).
  - apply IH; [by eapply (sorted_tail fst)|]. intros e' He'. apply Hk. by right.
Qed.

Lemma sles_sorted m from : filed m → StronglySorted sle_lt (sles_of m from).
Proof.
  intros Hm. apply (entries_sorted (range_of from m) snd sle_key); [apply range_sorted|].
  intros [k x] [_ Hk]%elem_of_range. by apply Hm.
Qed.

(** The entries that the table points to. *)
Lemma table_sles_ok h (es : list (Z * (RawAction * loc))) :
  (∀ k a l, (k, (a, l)) ∈ es → ∃ s, h !! l = Some s) →
  table_sles h es = Return ((λ e : Z * (RawAction * loc), (e.2.1, default (mkSLE 0 0 ∅) (h !! e.2.2))) <$> es).
Proof.
  induction es as [|[k [a l]] es IH]; intros Ho; [done|].
  change (table_sles h ((k, (a, l)) :: es)) with
    (y ← (s ← deref h l; Return (a, s)); r ← table_sles h es; Return (y :: r)).
  destruct (Ho k a l) as [s Hs]; [by left|]. rewrite IH by (intros k' a' l' Hin; apply (Ho k' a'); by right).
  unfold deref. rewrite Hs. cbn. by rewrite Hs.
Qed.

Section open_view.
Context (h : gmap loc SLE) (t : RawStateTable) (m : gmap Z SLE) (from : option Z).
Context (Ht : table_ok h (raw_items t) m) (Hm : filed m).

Let it1 : list (RawAction * SLE) :=
  (λ e : Z * (RawAction * loc), (e.2.1, default (mkSLE 0 0 ∅) (h !! e.2.2))) <$> range_of from (raw_items t).

Lemma elem_of_it1 a s :
  (a, s) ∈ it1 ↔ in_range from (sle_key s) ∧ ∃ l, raw_items t !! sle_key s = Some (a, l) ∧ h !! l = Some s.
Proof using Ht.
  unfold it1. rewrite list_elem_of_fmap. split.
  - intros ([k [a' l]] & [= -> ->] & [Hr Hi]%elem_of_range). destruct (to_obj _ _ _ Ht _ _ _ Hi) as (s' & Hs' & <- & _).
    cbn. rewrite Hs'. cbn. eauto.
  - intros (Hr & l & Hi & Hl). exists (sle_key s, (a, l)). cbn. rewrite Hl. split; [done|]. by apply elem_of_range.
Qed.

Lemma view_mergeable : mergeable (sles_of m from) it1.
Proof using Ht Hm.
  split.
  - by apply sles_sorted.
  - unfold it1. rewrite <- list_fmap_compose. apply (entries_sorted _ _ sle_key); [apply range_sorted|].
    intros [k [a l]] [_ Hi]%elem_of_range. destruct (to_obj _ _ _ Ht _ _ _ Hi) as (s & Hs & <- & _). cbn. by rewrite Hs.
  - intros a s (Hr & l & Hi & Hl)%elem_of_it1. pose proof (to_base _ _ _ Ht _ _ _ Hi) as Hb. split.
    + intros (s0 & [_ Hs0]%elem_of_sles & Hk) ->; [|done]. cbn in Hb. congruence.
    + intros Ha. assert (Hb' : is_Some (m !! sle_key s)) by (by destruct a).
      destruct Hb' as [s0 Hs0]. exists s0. destruct (Hm _ _ Hs0) as [Hk _]. split; [|done].
      apply elem_of_sles; [done|]. by rewrite Hk.
Qed.

(** The iteration returns the entries of the map that the view presents. *)
Lemma raw_sles_ok base :
  rv_sles base from = Return (sles_of m from) →
  raw_sles h t base from = Return (sles_of (over h (raw_items t) m) from).
Proof using Ht Hm.
  intros Hb. unfold raw_sles. rewrite Hb. cbn. fold (range_of from (raw_items t)).
  rewrite table_sles_ok. 2: { intros k a l [_ Hi]%elem_of_range. destruct (to_obj _ _ _ Ht _ _ _ Hi) as (s & Hs & _). eauto. }
  cbn. fold it1. pose proof view_mergeable as Hmg.
  assert (Hctor : sles_ctor it1 (sles_of m from) = sles_skip (sles_of m from) it1) by (by destruct it1).
  rewrite Hctor. destruct (skip_ok _ _ Hmg) as (it & -> & Hm' & Hs' & Hv & Hlen). cbn.
  destruct (loop_ok (length it1 + length (sles_of m from)) it Hm' Hs') as (l & -> & Hsort & Hin); [lia|].
  f_equal. pose proof (over_filed _ _ _ Hm Ht) as Hf. apply (sorted_unique sle_key); [done|by apply sles_sorted|].
  intros x. rewrite Hin, Hv, (elem_of_sles _ _ _ Hf), over_lookup. unfold visits. rewrite (elem_of_sles _ _ _ Hm).
  setoid_rewrite elem_of_it1. destruct (raw_items t !! sle_key x) as [[a l0]|] eqn:Hi.
  - destruct (to_obj _ _ _ Ht _ _ _ Hi) as (s' & Hs0 & Hk & _). rewrite Hs0. split.
    + intros [[[Hr _] Hno]|(a' & (Hr & l' & [= -> ->] & Hl') & Ha)].
      * exfalso. apply (Hno a s'); [|done]. rewrite Hk. eauto.
      * split; [done|]. assert (s' = x) as -> by congruence. by destruct a'.
    + intros [Hr Hx]. right. exists a. destruct a; cbn in Hx; [done|..]; (split; [|done]); rewrite <- Hx; eauto.
  - split.
    + intros [[[Hr Hx] _]|(a' & (_ & l' & ? & _) & _)]; [done|congruence].
    + intros Hx. left. split; [done|]. intros a s (_ & l' & Hi' & _) Hk. rewrite Hk in Hi'. congruence.
Qed.
End open_view.

(** Iterating over a stack passes to the uppermost open view, or the ledger: the
    changes of an [ApplyView] do not show. *)
Fixpoint iterated (ls : list Layer) : list Layer :=
  match ls with Apply _ :: ls => iterated ls | _ => ls end.

Definition is_open (ly : Layer) : Prop := match ly with Open _ => True | Apply _ => False end.

Lemma open_sles_ok h ls m from :
  stack_ok h ls m → Forall is_open ls → rv_sles (stack_view h ls m) from = Return (sles_of (stack_map h ls m) from).
Proof.
  induction ls as [|[t|t] ls IH]; cbn; [done|by intros _ [[] _]%Forall_cons|].
  intros (Ht & _ & Hls) [_ Ho]%Forall_cons. apply raw_sles_ok; [done|by apply stack_filed|by apply IH].
Qed.

Lemma stack_sles_ok h ls m from :
  stack_ok h ls m → Forall is_open (iterated ls) →
  rv_sles (stack_view h ls m) from = Return (sles_of (stack_map h (iterated ls) m) from).
Proof.
  induction ls as [|[t|t] ls IH]; intros Hok Ho; [by apply open_sles_ok| |by apply open_sles_ok].
  destruct Hok as (_ & _ & Hls). by apply IH.
Qed.
