(* ===== verification/ViewTop.v ===== *)
(** * Calls on the view at the top of a stack

    What a caller of an [ApplyView] relies on: an entry handed out by [peek] is
    the caller's to change until the view is applied, and every call changes the
    presented map in one place. *)
From S2P Require Import Prelude Outcome Bytes SHAMapNode LedgerEntry StateTable StateTableSpec ViewSpec.

Definition views_ok (w : Views) : Prop := stack_ok (objs w) (layers w) (state_map (ledger w)).
Definition top_map (w : Views) : gmap Z SLE := stack_map (objs w) (layers w) (state_map (ledger w)).

(** The view at the top files the object [l], which holds [s]. *)
Definition held (w : Views) (l : loc) (s : SLE) : Prop :=
  objs w !! l = Some s ∧
  match layers w with
  | Apply t :: _ => ∃ a, items_ t !! sle_key s = Some (a, l) ∧ is_erase a = false
  | _ => False
  end.

(** Only the items of the table at the top changed. *)
Definition frame (w w' : Views) : Prop :=
  ledger w' = ledger w ∧
  match layers w, layers w' with
  | Apply t :: ls, Apply t' :: ls' =>
    ls' = ls ∧ dropsDestroyed_ t' = dropsDestroyed_ t ∧ ∀ l, stack_loc ls l → objs w' !! l = objs w !! l
  | _, _ => False
  end.

Lemma frame_trans w1 w2 w3 : frame w1 w2 → frame w2 w3 → frame w1 w3.
Proof.
  unfold frame. intros [Hg1 H1] [Hg2 H2]. split; [congruence|].
  destruct (layers w1) as [|[] ?], (layers w2) as [|[] ?], (layers w3) as [|[] ?]; try done.
  destruct H1 as (-> & Hd1 & H1), H2 as (-> & Hd2 & H2). split_and!; [done|congruence|]. intros x Hx. by rewrite H2, H1.
Qed.

Lemma held_lookup w l s : views_ok w → held w l s → top_map w !! sle_key s = Some s ∧ sle_key s ≠ 0.
Proof.
  unfold views_ok, top_map, held. intros Hok [Hl Ht]. destruct (layers w) as [|[t|t] ls]; [done| |done].
  destruct Ht as (a & Hi & Ha). destruct Hok as (Hok & _). destruct (to_obj _ _ _ Hok _ _ _ Hi) as (s' & Hs' & _ & Hnz).
  split; [|done]. cbn [stack_map layer_map]. by rewrite over_lookup, Hi, Ha.
Qed.

(** An object is held for one key. *)
Lemma held_loc w l1 s1 l2 s2 : held w l1 s1 → held w l2 s2 → l1 = l2 ↔ sle_key s1 = sle_key s2.
Proof.
  unfold held. intros [H1 T1] [H2 T2]. split; [intros ->; congruence|]. intros Hk.
  destruct (layers w) as [|[t|t] ls]; [done| |done]. destruct T1 as (a1 & I1 & _), T2 as (a2 & I2 & _). congruence.
Qed.

(** Every object that a table files exists. *)
Lemma stack_loc_obj h ls m l : stack_ok h ls m → stack_loc ls l → is_Some (h !! l).
Proof.
  induction ls as [|ly ls IH]; [by intros _ (? & ?%elem_of_nil & _)|]. intros (Ht & _ & Hls) [Hl|Hl]%stack_loc_cons; [|by apply IH].
  destruct ly as [t|t]; destruct Hl as (k & a & Hi); destruct (to_obj _ _ _ Ht _ _ _ Hi) as (s & -> & _); eauto.
Qed.

(** What a call does with the view at the top: it presents [m'], and the
    objects that were held and are not among [gone] are held. *)
Definition did (w w' : Views) (m' : gmap Z SLE) (gone : Z → Prop) : Prop :=
  views_ok w' ∧ top_map w' = m' ∧ frame w w' ∧ ∀ l s, held w l s → ¬ gone (sle_key s) → held w' l s.

Lemma did_trans w1 w2 w3 m2 m3 g1 g2 :
  did w1 w2 m2 g1 → did w2 w3 m3 g2 → did w1 w3 m3 (λ k, g1 k ∨ g2 k).
Proof.
  intros (? & ? & Hf1 & H1) (? & ? & Hf2 & H2). split_and!; [done|done|by eapply frame_trans|]. intros l s Hs Hg. naive_solver.
Qed.

(** A change of the table alone. *)
Lemma table_did w t ls items' m' gone :
  views_ok w → layers w = Apply t :: ls →
  table_ok (objs w) items' (stack_map (objs w) ls (state_map (ledger w))) →
  over (objs w) items' (stack_map (objs w) ls (state_map (ledger w))) = m' →
  (∀ k a l, items' !! k = Some (a, l) → ¬ stack_loc ls l) →
  (∀ k a l, ¬ gone k → items_ t !! k = Some (a, l) → is_erase a = false → ∃ a', items' !! k = Some (a', l) ∧ is_erase a' = false) →
  did w (mkViews (objs w) (Apply (with_items t items') :: ls) (ledger w)) m' gone.
Proof.
  intros Hok Hls Ht Hm Hd Hg. unfold views_ok in Hok. rewrite Hls in Hok. destruct Hok as (_ & _ & Hok).
  split_and!; [|done|unfold frame; cbn; by rewrite Hls|].
  - unfold views_ok. cbn. split_and!; [done| |done]. intros l (k & a & Hi). by eapply Hd.
  - intros l s [Hs H'] Hng. split; [done|]. rewrite Hls in H'. cbn. destruct H' as (a & Hi & Ha). by eapply Hg.
Qed.

(** A new object is filed for a key that the view does not hold. *)
Lemma file_new w t ls l a s :
  views_ok w → layers w = Apply t :: ls → objs w !! l = None → sle_key s ≠ 0 → is_erase a = false →
  let below := stack_map (objs w) ls (state_map (ledger w)) in
  (if in_base a then is_Some (below !! sle_key s) else below !! sle_key s = None) →
  (is_cache a = true → below !! sle_key s = Some s) →
  (∀ a' l', items_ t !! sle_key s = Some (a', l') → is_erase a' = true) →
  let w' := mkViews (<[l := s]> (objs w)) (Apply (with_items t (<[sle_key s := (a, l)]> (items_ t))) :: ls) (ledger w) in
  held w' l s ∧ did w w' (<[sle_key s := s]> (top_map w)) (λ _, False).
Proof.
  intros Hok Hls Hl Hnz Ha below Hb Hc Hfree w'.
  assert (Hag : ∀ l', stack_loc (layers w) l' → objs w' !! l' = objs w !! l' ∧ l' ≠ l).
  { intros l' Hl'. assert (l' ≠ l). { intros ->. destruct (stack_loc_obj _ _ _ _ Hok Hl') as [? ?]. congruence. }
    split; [|done]. cbn. by rewrite lookup_insert_ne. }
  unfold views_ok in Hok. rewrite Hls in Hok, Hag. pose proof Hok as (Ht & Hd & Hlow).
  destruct (stack_agree (objs w) (objs w') ls (state_map (ledger w))) as [Hm Ho].
  { intros l' Hl'. apply Hag. rewrite stack_loc_cons. by right. }
  assert (Hag1 : ∀ k a' l', items_ t !! k = Some (a', l') → objs w' !! l' = objs w !! l' ∧ l' ≠ l).
  { intros k a' l' Hi. apply Hag. rewrite stack_loc_cons. left. by exists k, a'. }
  destruct (set_item (objs w') (items_ t) below (sle_key s) a l s) as [Ht' Hm'];
    [|apply lookup_insert_eq|done..|].
  { eapply table_ok_agree; [|exact Ht]. intros k a' l' Hi. by eapply Hag1. }
  rewrite Ha in Hm'. split.
  { split; [apply lookup_insert_eq|]. cbn. rewrite lookup_insert_eq. eauto. }
  split_and!.
  - unfold views_ok. cbn [layers w' stack_ok ledger]. rewrite Hm. split_and!; [done| |by apply Ho].
    intros l' (k & a' & Hi). cbn in Hi. apply lookup_insert_Some in Hi as [[_ [= _ <-]]|[_ Hi]]; [|apply Hd; by exists k, a'].
    intros Hl'. destruct (Hag l) as [_ []]; [|done]. rewrite stack_loc_cons. by right.
  - unfold top_map. rewrite Hls. cbn [layers w' stack_map ledger layer_map items_ with_items]. rewrite Hm. fold below.
    etransitivity; [exact Hm'|]. f_equal. apply over_agree. intros k a' l' Hi. by eapply Hag1.
  - unfold frame. rewrite Hls. cbn [layers w' ledger]. split_and!; [done..|]. intros l' Hl'. apply Hag. rewrite stack_loc_cons. by right.
  - intros l' s' [Hs' Hh'] _. rewrite Hls in Hh'. destruct Hh' as (a' & Hi & Ha'). split; [by rewrite (proj1 (Hag1 _ _ _ Hi))|].
    cbn. exists a'. rewrite lookup_insert_ne; [done|]. intros Hk. rewrite <- Hk in Hi. apply Hfree in Hi. congruence.
Qed.

Lemma new_sle_run w s :
  ∃ l, objs w !! l = None ∧ new_sle s w = (Return l, mkViews (<[l := s]> (objs w)) (layers w) (ledger w)).
Proof.
  exists (fresh (dom (objs w))). split; [|done]. apply not_elem_of_dom, is_fresh.
Qed.

Lemma sle_at_run w l s : objs w !! l = Some s → sle_at l w = (Return s, w).
Proof. intros Hl. unfold sle_at, mbind, ST_bind, sget, slift, deref. by rewrite Hl. Qed.

Lemma on_top_run w t ls f t' :
  layers w = Apply t :: ls → f (objs w) t = Return t' →
  on_top f w = (Return (), mkViews (objs w) (Apply t' :: ls) (ledger w)).
Proof. intros Hls Hf. unfold on_top, mbind, ST_bind, sget, slift. by rewrite Hls, Hf. Qed.

(** [peek]: an entry that the view presents is held from then on. *)
Lemma peek_ok w t ls k :
  views_ok w → layers w = Apply t :: ls → k_key k ≠ 0 →
  match top_map w !! k_key k with
  | None => peek k w = (Return None, w)
  | Some s =>
    match check k s with
    | Return true => ∃ l w', peek k w = (Return (Some l), w') ∧ held w' l s ∧ did w w' (top_map w) (λ _, False)
    | Return false => peek k w = (Return None, w)
    | Throw e => peek k w = (Throw e, w)
    | Abort e => peek k w = (Abort e, w)
    | NoFuel => True
    end
  end.
Proof.
  intros Hok Hls Hk. pose proof Hok as Hok'. unfold views_ok in Hok'. rewrite Hls in Hok'. destruct Hok' as (Ht & Hd & Hlow).
  pose proof (pr_read _ _ (stack_presents _ _ _ Hlow) k Hk) as Hr.
  assert (Htop : top_map w = over (objs w) (items_ t) (stack_map (objs w) ls (state_map (ledger w)))) by (unfold top_map; by rewrite Hls).
  rewrite Htop, over_lookup. unfold peek. rewrite (ST_bind_return _ _ _ w w) by done. rewrite Hls.
  destruct (items_ t !! k_key k) as [[a l]|] eqn:Hi.
  - destruct (to_obj _ _ _ Ht _ _ _ Hi) as (s & Hs & Hsk & _). rewrite Hs.
    destruct a; cbn [is_erase apply_actions]; [|done|..].
    all: rewrite (ST_bind_return _ _ _ _ _ (sle_at_run _ _ _ Hs));
      destruct (check k s) as [[]|e|e|] eqn:Hc; unfold mbind, ST_bind, slift, mret, ST_ret; [|done..];
      exists l, w; (split_and!; [done| |]);
      [split; [done|]; rewrite Hls, Hsk; by eexists|split_and!; [done|by rewrite Htop|unfold frame; by rewrite Hls|done]].
  - unfold view_at. rewrite Hls. cbn [drop]. rewrite drop_0. unfold read_of in Hr. 
    destruct (stack_map (objs w) ls (state_map (ledger w)) !! k_key k) as [s|] eqn:Hm.
    2: by rewrite (ST_bind_return _ _ w None w) by (unfold slift; by rewrite Hr).
    destruct (check k s) as [[]|e|e|]; [| | | |done].
    2: by rewrite (ST_bind_return _ _ w None w) by (unfold slift; by rewrite Hr).
    2: by apply ST_bind_throw; unfold slift; rewrite Hr.
    2: by apply ST_bind_abort; unfold slift; rewrite Hr.
    rewrite (ST_bind_return _ _ w (Some s) w) by (unfold slift; by rewrite Hr).
    destruct (new_sle_run w s) as (l & Hl & Hnew). rewrite (ST_bind_return _ _ _ _ _ Hnew).
    destruct (stack_filed _ _ _ Hlow _ _ Hm) as [Hsk _].
    erewrite ST_bind_return by (by eapply on_top_run). cbn [objs ledger].
    destruct (file_new w t ls l ACache s Hok Hls Hl) as [Hheld Hdid];
      [by rewrite Hsk|done|rewrite Hsk, Hm; by eexists|by rewrite Hsk|rewrite Hsk, Hi; done|].
    eexists _, _. split; [done|]. split; [exact Hheld|].
    rewrite (insert_id (top_map w)) in Hdid by (by rewrite Hsk, Htop, over_lookup, Hi, Hm). by rewrite <- Htop.
Qed.

(** An entry is changed in place and marked as changed. *)
Lemma set_object {A} `{TableAction A} h (items : gmap Z (A * loc)) m k a a' l s :
  table_ok h items m → items !! k = Some (a, l) → sle_key s = k → in_base a' = in_base a →
  is_erase a' = false → is_cache a' = false →
  table_ok (<[l := s]> h) (<[k := (a', l)]> items) m ∧
  over (<[l := s]> h) (<[k := (a', l)]> items) m = <[k := s]> (over h items m).
Proof.
  intros Ht Hi Hs Hb He Hc. destruct (to_obj _ _ _ Ht _ _ _ Hi) as (s0 & Hs0 & Hk0 & Hnz).
  pose proof (to_base _ _ _ Ht _ _ _ Hi) as Hbase. rewrite <- Hb in Hbase.
  assert (Hag : ∀ k' a1 l', delete k items !! k' = Some (a1, l') → <[l := s]> h !! l' = h !! l').
  { intros k' a1 l' [Hne Hi']%lookup_delete_Some. apply lookup_insert_ne. intros <-.
    destruct (to_obj _ _ _ Ht _ _ _ Hi') as (s1 & Hs1 & Hk1 & _). congruence. }
  assert (Hdel : table_ok h (delete k items) m) by (split; intros k' a1 l' [_ Hi']%lookup_delete_Some; by eapply Ht).
  destruct (set_item (<[l := s]> h) (delete k items) m k a' l s) as [Hok Hm];
    [by eapply table_ok_agree|apply lookup_insert_eq|done..|by rewrite Hc|].
  rewrite insert_delete_eq in Hok, Hm. split; [done|]. rewrite Hm, He. apply map_eq. intros k'.
  destruct (decide (k' = k)) as [->|Hne]; [by rewrite !lookup_insert_eq|]. rewrite !lookup_insert_ne by done.
  rewrite (over_agree h) by done. rewrite !over_lookup. by rewrite lookup_delete_ne.
Qed.

(** [peek]ed entries are changed and then given to [update]. *)
Definition modify_sle (l : loc) (f : SLE → SLE) : ST Views unit := change l f;; view_update l.

Lemma modify_ok w l s f :
  views_ok w → held w l s → sle_key (f s) = sle_key s →
  ∃ w', modify_sle l f w = (Return (), w') ∧ held w' l (f s) ∧
    did w w' (<[sle_key s := f s]> (top_map w)) (λ k, k = sle_key s).
Proof.
  intros Hok [Hl Hh] Hf. destruct (layers w) as [|[t|t] ls] eqn:Hls; [done| |done]. destruct Hh as (a & Hi & Ha).
  unfold views_ok in Hok. rewrite Hls in Hok. pose proof Hok as (Ht & Hd & Hlow).
  pose (a' := if is_cache a then AModify else a). pose (t' := with_items t (<[sle_key s := (a', l)]> (items_ t))).
  pose (h' := <[l := f s]> (objs w)). pose (w' := mkViews h' (Apply t' :: ls) (ledger w)). exists w'.
  assert (Hag : ∀ l', stack_loc ls l' → h' !! l' = objs w !! l').
  { intros l' Hl'. apply lookup_insert_ne. intros <-. eapply Hd; [|exact Hl']. by exists (sle_key s), a. }
  destruct (stack_agree _ _ ls (state_map (ledger w)) Hag) as [Hm Ho].
  destruct (set_object (objs w) (items_ t) _ _ _ a' l (f s) Ht Hi Hf) as [Hok' Hm']; [by destruct a..|].
  split; [|split].
  - unfold modify_sle, change. erewrite ST_bind_return; [|erewrite ST_bind_return by (by apply sle_at_run); done].
    unfold view_update. erewrite (on_top_run _ t ls); [done|done|]. cbn [objs]. unfold apply_update, deref.
    rewrite lookup_insert_eq. cbn [mbind exc_bind]. rewrite Hf, Hi, bool_decide_eq_true_2 by done. cbn [negb].
    destruct a; cbn in Ha; [done|done|..]; unfold t', a'; cbn [is_cache apply_actions]; rewrite insert_id by done; by destruct t.
  - split; [apply lookup_insert_eq|]. cbn. rewrite Hf, lookup_insert_eq. exists a'. split; [done|]. by destruct a.
  - split_and!.
    + unfold views_ok. cbn [layers w' stack_ok ledger objs]. rewrite Hm. split_and!; [done| |by apply Ho].
      intros l' (k & a1 & Hi'). cbn in Hi'. apply Hd.
      apply lookup_insert_Some in Hi' as [[_ [= _ <-]]|[_ Hi']]; [by exists (sle_key s), a|by exists k, a1].
    + unfold top_map. rewrite Hls. cbn [layers w' stack_map ledger objs layer_map]. rewrite Hm. exact Hm'.
    + unfold frame. rewrite Hls. by split_and!.
    + intros l' s' [Hs' Hh'] Hne. rewrite Hls in Hh'. destruct Hh' as (a1 & Hi1 & Ha1). split.
      * cbn. unfold h'. rewrite lookup_insert_ne; [done|]. intros <-. congruence.
      * cbn. exists a1. by rewrite lookup_insert_ne.
Qed.

(** [erase] of an entry handed out by [peek]. *)
Lemma erase_ok w l s :
  views_ok w → held w l s →
  ∃ w', view_erase l w = (Return (), w') ∧ did w w' (delete (sle_key s) (top_map w)) (λ k, k = sle_key s).
Proof.
  intros Hok [Hl Hh]. destruct (layers w) as [|[t|t] ls] eqn:Hls; [done| |done]. destruct Hh as (a & Hi & Ha).
  pose proof Hok as Hok'. unfold views_ok in Hok'. rewrite Hls in Hok'. destruct Hok' as (Ht & Hd & Hlow).
  assert (Htop : top_map w = over (objs w) (items_ t) (stack_map (objs w) ls (state_map (ledger w)))) by (unfold top_map; by rewrite Hls).
  destruct (to_obj _ _ _ Ht _ _ _ Hi) as (s0 & Hs0 & _ & Hnz).
  pose proof (to_base _ _ _ Ht _ _ _ Hi) as Hb.
  pose (items' := if in_base a then <[sle_key s := (AErase, l)]> (items_ t) else delete (sle_key s) (items_ t)).
  exists (mkViews (objs w) (Apply (with_items t items') :: ls) (ledger w)). split.
  - unfold view_erase. apply (on_top_run _ t ls); [done|]. unfold apply_erase, deref. rewrite Hl. cbn [mbind exc_bind].
    rewrite Hi, bool_decide_eq_true_2 by done. unfold items'. by destruct a.
  - assert (Hsub : ∀ k a' l', items' !! k = Some (a', l') → ∃ k' a1, items_ t !! k' = Some (a1, l')).
    { intros k a' l'. unfold items'. destruct (in_base a).
      - intros [[_ [= _ <-]]|[_ ?]]%lookup_insert_Some; eauto.
      - intros [_ ?]%lookup_delete_Some. eauto. }
    assert (Hnew : table_ok (objs w) items' (stack_map (objs w) ls (state_map (ledger w))) ∧
      over (objs w) items' (stack_map (objs w) ls (state_map (ledger w))) = delete (sle_key s) (top_map w)).
    { rewrite Htop. unfold items'. destruct (in_base a) eqn:Hin; [|by eapply delete_item].
      close_item (set_item (objs w) (items_ t) (stack_map (objs w) ls (state_map (ledger w))) (sle_key s) AErase l s). }
    apply table_did; [done|done|by apply Hnew|by apply Hnew| |].
    + intros k a' l' (k' & a1 & Hi')%Hsub. apply Hd. by exists k', a1.
    + intros k a' l' Hne Hi' Ha'. exists a'. unfold items'.
      destruct (in_base a); [by rewrite lookup_insert_ne|by rewrite lookup_delete_ne].
Qed.

(** A new entry is created and given to [insert]. *)
Definition insert_sle (s : SLE) : ST Views loc := l ← new_sle s; view_insert l;; mret l.

Lemma insert_ok w t ls s :
  views_ok w → layers w = Apply t :: ls → sle_key s ≠ 0 → top_map w !! sle_key s = None →
  ∃ l w', insert_sle s w = (Return l, w') ∧ held w' l s ∧ did w w' (<[sle_key s := s]> (top_map w)) (λ _, False).
Proof.
  intros Hok Hls Hnz Hnone. pose proof Hok as Hok'. unfold views_ok in Hok'. rewrite Hls in Hok'. destruct Hok' as (Ht & Hd & Hlow).
  unfold top_map in Hnone. rewrite Hls in Hnone. cbn [stack_map layer_map] in Hnone. apply over_None in Hnone; [|done].
  destruct (new_sle_run w s) as (l & Hl & Hnew). unfold insert_sle. rewrite (ST_bind_return _ _ _ _ _ Hnew). exists l.
  assert (Hrun : ∀ a, items_ t !! sle_key s = None ∧ a = AInsert ∨ (∃ l0, items_ t !! sle_key s = Some (AErase, l0)) ∧ a = AModify →
    view_insert l (mkViews (<[l := s]> (objs w)) (layers w) (ledger w)) =
    (Return (), mkViews (<[l := s]> (objs w)) (Apply (with_items t (<[sle_key s := (a, l)]> (items_ t))) :: ls) (ledger w))).
  { intros a Ha. unfold view_insert. erewrite (on_top_run _ t ls); [done|done|].
    unfold apply_insert, deref. cbn [objs]. rewrite lookup_insert_eq. cbn [mbind exc_bind]. by destruct Ha as [[-> ->]|[[l0 ->] ->]]. }
  destruct Hnone as [[Hi Hb]|(a & l0 & Hi & He)].
  - destruct (file_new w t ls l AInsert s Hok Hls Hl Hnz) as [Hheld Hdid]; [done|done|done|by rewrite Hi|].
    eexists. split; [|by split; [exact Hheld|exact Hdid]]. by rewrite (ST_bind_return _ _ _ _ _ (Hrun AInsert (or_introl (conj Hi eq_refl)))).
  - pose proof (to_base _ _ _ Ht _ _ _ Hi) as Hb. destruct a; try done.
    destruct (file_new w t ls l AModify s Hok Hls Hl Hnz) as [Hheld Hdid]; [done|done|done|rewrite Hi; by intros ?? [= <- <-]|].
    eexists. split; [|by split; [exact Hheld|exact Hdid]].
    by rewrite (ST_bind_return _ _ _ _ _ (Hrun AModify (or_intror (conj (ex_intro _ l0 Hi) eq_refl)))).
Qed.
