(* ===== verification/ViewRefine.v ===== *)
(** * Stacked views are finite maps

    The calls on a stack of views refine the calls on a stack of finite maps:
    where the caller keeps to the contract of the views, every call returns what
    the map says, and no [LogicError] is reached. *)
From S2P Require Import Prelude Outcome Bytes SHAMapNode LedgerEntry StateTable StateTableSpec ViewSpec ViewIter ViewTop.

(** ** The calls *)

Inductive VCmd :=
  | CExists (i : nat) (k : Keylet)
  | CRead (i : nat) (k : Keylet)
  | CSucc (i : nat) (k : Z) (last : option Z)
  | CSles (i : nat) (from : option Z)
  | CModify (k : Keylet) (f : SLE → SLE)
  | CErase (k : Keylet)
  | CInsert (s : SLE)
  | CDestroy (fee : Z)
  | CSandbox
  | COpen
  | CCommit
  | CDiscard.

Inductive VRes := RUnit | RBool (b : bool) | RSle (s : option SLE) | RKey (k : option Z) | RSles (l : list SLE).

(** The view [i] levels below the top is read; the view at the top is changed. *)
Definition view_call (c : VCmd) : ST Views VRes :=
  match c with
  | CExists i k => w ← sget; b ← slift (rv_exists (view_at i w) k); mret (RBool b)
  | CRead i k => w ← sget; s ← slift (rv_read (view_at i w) k); mret (RSle s)
  | CSucc i k last => w ← sget; n ← slift (rv_succ (view_at i w) k last); mret (RKey n)
  | CSles i from => w ← sget; l ← slift (rv_sles (view_at i w) from); mret (RSles l)
  | CModify k f =>
    l ← peek k;
    match l with None => mret (RBool false) | Some l => modify_sle l f;; mret (RBool true) end
  | CErase k =>
    l ← peek k;
    match l with None => mret (RBool false) | Some l => view_erase l;; mret (RBool true) end
  | CInsert s => insert_sle s;; mret RUnit
  | CDestroy fee => view_destroyXRP fee;; mret RUnit
  | CSandbox => push_apply;; mret RUnit
  | COpen => push_open;; mret RUnit
  | CCommit => commit;; mret RUnit
  | CDiscard => discard;; mret RUnit
  end.

Fixpoint view_run (cs : list VCmd) : ST Views (list VRes) :=
  match cs with
  | [] => mret []
  | c :: cs => r ← view_call c; rs ← view_run cs; mret (r :: rs)
  end.

(** ** The specification *)

Record AView := mkAView { a_apply : bool; a_map : gmap Z SLE; a_fees : Z }.
Record AState := mkAState { a_views : list AView; a_ledger : gmap Z SLE; a_drops : Z }.

Definition map_of (avs : list AView) (m : gmap Z SLE) : gmap Z SLE := match avs with [] => m | v :: _ => a_map v end.
Definition map_at (i : nat) (a : AState) : gmap Z SLE := map_of (drop i (a_views a)) (a_ledger a).

(** What is iterated over: the map without the changes of the upper [ApplyView]s. *)
Fixpoint a_iterated (avs : list AView) : list AView :=
  match avs with v :: avs' => if a_apply v then a_iterated avs' else avs | [] => [] end.

Definition next_key (m : gmap Z SLE) (k : Z) (last : option Z) : option Z :=
  match head (above k m) with Some (n, _) => if at_least n last then None else Some n | None => None end.

Definition int64 (x : Z) : bool := (- 2 ^ 63 <=? x) && (x <? 2 ^ 63).

Definition with_top (m : gmap Z SLE) (a : AState) : AState :=
  match a_views a with
  | [] => a
  | v :: avs => mkAState (mkAView (a_apply v) m (a_fees v) :: avs) (a_ledger a) (a_drops a)
  end.

(** The entry that a keylet names. *)
Definition named (m : gmap Z SLE) (k : Keylet) : option SLE := match read_of m k with Return r => r | _ => None end.

Definition spec_call (c : VCmd) (a : AState) : VRes * AState :=
  match c with
  | CExists i k => (RBool (bool_decide (is_Some (map_at i a !! k_key k))), a)
  | CRead i k => (RSle (named (map_at i a) k), a)
  | CSucc i k last => (RKey (next_key (map_at i a) k last), a)
  | CSles i from => (RSles (sles_of (map_of (a_iterated (drop i (a_views a))) (a_ledger a)) from), a)
  | CModify k f =>
    match named (map_at 0 a) k with
    | None => (RBool false, a)
    | Some s => (RBool true, with_top (<[k_key k := f s]> (map_at 0 a)) a)
    end
  | CErase k =>
    match named (map_at 0 a) k with
    | None => (RBool false, a)
    | Some _ => (RBool true, with_top (delete (k_key k) (map_at 0 a)) a)
    end
  | CInsert s => (RUnit, with_top (<[sle_key s := s]> (map_at 0 a)) a)
  | CDestroy fee =>
    match a_views a with
    | v :: avs => (RUnit, mkAState (mkAView (a_apply v) (a_map v) (a_fees v + fee) :: avs) (a_ledger a) (a_drops a))
    | [] => (RUnit, a)
    end
  | CSandbox => (RUnit, mkAState (mkAView true (map_at 0 a) 0 :: a_views a) (a_ledger a) (a_drops a))
  | COpen => (RUnit, mkAState (mkAView false (map_at 0 a) 0 :: a_views a) (a_ledger a) (a_drops a))
  | CCommit =>
    match a_views a with
    | [] => (RUnit, a)
    | [v] => (RUnit, mkAState [] (a_map v) (a_drops a - a_fees v))
    | v :: u :: avs =>
      (RUnit, mkAState (mkAView (a_apply u) (a_map v) (a_fees u + a_fees v) :: avs) (a_ledger a) (a_drops a))
    end
  | CDiscard => (RUnit, mkAState (tail (a_views a)) (a_ledger a) (a_drops a))
  end.

Fixpoint spec_run (cs : list VCmd) (a : AState) : list VRes * AState :=
  match cs with
  | [] => ([], a)
  | c :: cs => let '(r, a) := spec_call c a in let '(rs, a) := spec_run cs a in (r :: rs, a)
  end.

(** ** The contract *)

Definition top_applies (a : AState) : bool := match a_views a with v :: _ => a_apply v | [] => false end.

Definition allowed (c : VCmd) (a : AState) : bool :=
  match c with
  | CExists i k =>
    negb (k_key k =? 0) &&
    match map_at i a !! k_key k with Some s => match check k s with Return b => b | _ => false end | None => true end
  | CRead i k => negb (k_key k =? 0) && returns (read_of (map_at i a) k)
  | CSucc i k last => true
  | CSles i from => forallb (λ v, negb (a_apply v)) (a_iterated (drop i (a_views a)))
  | CModify k f =>
    top_applies a && negb (k_key k =? 0) && returns (read_of (map_at 0 a) k) &&
    match named (map_at 0 a) k with Some s => sle_key (f s) =? sle_key s | None => true end
  | CErase k => top_applies a && negb (k_key k =? 0) && returns (read_of (map_at 0 a) k)
  | CInsert s => top_applies a && negb (sle_key s =? 0) && bool_decide (map_at 0 a !! sle_key s = None)
  | CDestroy fee => top_applies a && int64 (match a_views a with v :: _ => a_fees v + fee | [] => 0 end)
  | CSandbox | COpen => true
  | CCommit =>
    match a_views a with
    | [] => false
    | [v] => int64 (a_drops a - a_fees v)
    | v :: u :: _ => int64 (a_fees u + a_fees v)
    end
  | CDiscard => match a_views a with [] => false | _ :: _ => true end
  end.

Fixpoint all_allowed (cs : list VCmd) (a : AState) : bool :=
  match cs with [] => true | c :: cs => allowed c a && all_allowed cs (spec_call c a).2 end.

(** ** The relation *)

Definition is_apply (ly : Layer) : bool := match ly with Apply _ => true | Open _ => false end.
Definition fees_of (ly : Layer) : Z := match ly with Apply t => dropsDestroyed_ t | Open t => raw_drops t end.

(** What the layers of a stack present. *)
Fixpoint abs_views (h : gmap loc SLE) (ls : list Layer) (m : gmap Z SLE) : list AView :=
  match ls with
  | [] => []
  | ly :: ls' => mkAView (is_apply ly) (stack_map h ls m) (fees_of ly) :: abs_views h ls' m
  end.

Definition abs (w : Views) : AState :=
  mkAState (abs_views (objs w) (layers w) (state_map (ledger w))) (state_map (ledger w)) (drops (ledger w)).

Lemma abs_drop h ls m i : drop i (abs_views h ls m) = abs_views h (drop i ls) m.
Proof. revert ls. induction i as [|i IH]; intros [|ly ls]; try done. apply IH. Qed.

Lemma abs_map h ls m : map_of (abs_views h ls m) m = stack_map h ls m.
Proof. by destruct ls. Qed.

Lemma abs_map_at w i : map_at i (abs w) = stack_map (objs w) (drop i (layers w)) (state_map (ledger w)).
Proof. unfold map_at, abs. cbn. by rewrite abs_drop, abs_map. Qed.

Lemma abs_iterated h ls m : a_iterated (abs_views h ls m) = abs_views h (iterated ls) m.
Proof. by induction ls as [|[t|t] ls IH]. Qed.

Lemma abs_agree h h' ls m : (∀ l, stack_loc ls l → h' !! l = h !! l) → abs_views h' ls m = abs_views h ls m.
Proof.
  induction ls as [|ly ls IH]; intros Hag; [done|]. cbn [abs_views]. f_equal.
  - by rewrite (proj1 (stack_agree h h' (ly :: ls) m Hag)).
  - apply IH. intros l Hl. apply Hag. rewrite stack_loc_cons. by right.
Qed.

Lemma stack_ok_drop h ls m i : stack_ok h ls m → stack_ok h (drop i ls) m.
Proof. revert ls. induction i as [|i IH]; intros [|ly ls]; cbn; [done..|]. intros (_ & _ & ?). by apply IH. Qed.

(** Reading. *)
Lemma view_at_presents w i : views_ok w → presents (view_at i w) (map_at i (abs w)).
Proof. intros Hok. rewrite abs_map_at. by apply stack_presents, stack_ok_drop. Qed.

Lemma next_key_spec m k last : succ_spec (λ n, is_Some (m !! n)) k last (next_key m k last).
Proof.
  destruct (pr_succ _ _ (ledger_presents m) k last) as (r & Hr & Hs). cbn in Hr. unfold ledger_succ in Hr. unfold next_key.
  destruct (head (above k m)) as [[n x]|]; injection Hr as <-; done.
Qed.

Lemma named_read m k : returns (read_of m k) = true → read_of m k = Return (named m k).
Proof. unfold named. by destruct (read_of m k). Qed.

Lemma named_Some m k s :
  named m k = Some s → m !! k_key k = Some s ∧ check k s = Return true.
Proof.
  unfold named, read_of. destruct (m !! k_key k) as [s'|]; [|done]. destruct (check k s') as [[]|e|e|] eqn:Hc; cbn; [|done..].
  by intros [= ->].
Qed.

(** The call returns what the specification says. *)
Definition refines (c : VCmd) (w : Views) : Prop :=
  ∃ w', view_call c w = (Return (spec_call c (abs w)).1, w') ∧ views_ok w' ∧ abs w' = (spec_call c (abs w)).2.

Lemma lift_run (f : Views → exc VRes) w r : f w = Return r → (w0 ← sget; r ← slift (f w0); mret r) w = (Return r, w).
Proof. intros Hf. unfold mbind, ST_bind, sget, slift. by rewrite Hf. Qed.

Ltac andb_split := repeat match goal with H : _ && _ = true |- _ => apply andb_true_iff in H; destruct H end.

Lemma read_refines w c :
  views_ok w → allowed c (abs w) = true →
  match c with CExists _ _ | CRead _ _ | CSucc _ _ _ | CSles _ _ => refines c w | _ => True end.
Proof.
  intros Hok Ha. destruct c as [i k|i k|i k last|i from| | | | | | | |]; try done; exists w; cbn [allowed] in Ha; andb_split;
    (split; [|done]); pose proof (view_at_presents w i Hok) as Hp; unfold view_call, mbind, ST_bind, sget, slift.
  - rewrite (pr_exists _ _ Hp); [done|by apply Z.eqb_neq, negb_true_iff|].
    intros s Hs. rewrite Hs in H0. by destruct (check k s) as [[]|e|e|].
  - rewrite (pr_read _ _ Hp) by (by apply Z.eqb_neq, negb_true_iff). by rewrite (named_read _ _ H0).
  - destruct (pr_succ _ _ Hp k last) as (r & -> & Hr). cbn. unfold mret, ST_ret.
    by rewrite (succ_unique _ _ _ _ _ Hr (next_key_spec _ _ _)).
  - unfold view_at. rewrite stack_sles_ok.
    + unfold mret, ST_ret. cbn [spec_call abs a_views a_ledger fst]. by rewrite abs_drop, abs_iterated, abs_map.
    + by apply stack_ok_drop.
    + cbn [abs a_views] in Ha. rewrite abs_drop, abs_iterated in Ha.
      clear Hp. revert Ha. generalize (iterated (drop i (layers w))). intros ls. induction ls as [|[t|t] ls IH]; cbn; [constructor|done|].
      intros Hf. constructor; [done|by apply IH].
Qed.

(** Calls that change the items of the table at the top. *)
Lemma did_abs w w' m' gone t ls :
  layers w = Apply t :: ls → did w w' m' gone → views_ok w' ∧ abs w' = with_top m' (abs w).
Proof.
  intros Hls (Hok' & Hm' & [Hg Hf] & _). split; [done|]. unfold abs, top_map in *. rewrite Hls in Hf |- *. rewrite Hg in *.
  destruct (layers w') as [|[t'|t'] ls']; [done| |done]. destruct Hf as (-> & Hd & Hag).
  unfold with_top. cbn [a_views abs_views a_ledger a_drops]. rewrite Hm'. cbn [is_apply fees_of a_apply a_fees]. f_equal.
  rewrite Hd. f_equal. by apply abs_agree.
Qed.

Lemma top_apply w : top_applies (abs w) = true → ∃ t ls, layers w = Apply t :: ls.
Proof. unfold top_applies, abs. cbn. destruct (layers w) as [|[t|t] ls]; [done|eauto|done]. Qed.

Lemma top_map_at w : map_at 0 (abs w) = top_map w.
Proof. by rewrite abs_map_at, drop_0. Qed.

(** [peek] hands out the named entry. *)
Lemma peek_named w k t ls :
  views_ok w → layers w = Apply t :: ls → k_key k ≠ 0 → returns (read_of (top_map w) k) = true →
  match named (top_map w) k with
  | None => peek k w = (Return None, w)
  | Some s => ∃ l w', peek k w = (Return (Some l), w') ∧ held w' l s ∧ did w w' (top_map w) (λ _, False)
  end.
Proof.
  intros Hok Hls Hk Hr. pose proof (peek_ok w t ls k Hok Hls Hk) as Hp. unfold named, read_of in *.
  destruct (top_map w !! k_key k) as [s|]; [|done]. by destruct (check k s) as [[]|e|e|].
Qed.

Lemma modify_refines w k f : views_ok w → allowed (CModify k f) (abs w) = true → refines (CModify k f) w.
Proof.
  intros Hok Ha. cbn [allowed] in Ha. andb_split. destruct (top_apply _ H) as (t & ls & Hls). rewrite !top_map_at in *.
  pose proof (peek_named w k t ls Hok Hls ltac:(by apply Z.eqb_neq, negb_true_iff) H1) as Hp.
  unfold refines. cbn [view_call spec_call]. rewrite top_map_at. destruct (named (top_map w) k) as [s|] eqn:Hn.
  2: { exists w. by rewrite (ST_bind_return _ _ _ _ _ Hp). }
  destruct Hp as (l & w1 & Hp & Hh & Hd1). rewrite (ST_bind_return _ _ _ _ _ Hp). apply Z.eqb_eq in H0.
  pose proof Hd1 as (Hok1 & Hm1 & Hfr & _). destruct (modify_ok w1 l s f Hok1 Hh H0) as (w2 & Hrun & _ & Hd2).
  rewrite (ST_bind_return _ _ _ _ _ Hrun). exists w2. split; [done|].
  assert (Hs : sle_key s = k_key k).
  { destruct (named_Some _ _ _ Hn) as [Hk _]. by apply (stack_filed _ _ _ Hok) in Hk as [? _]. }
  rewrite Hs, Hm1 in Hd2. eapply did_abs; [done|]. by eapply did_trans.
Qed.

Lemma erase_refines w k : views_ok w → allowed (CErase k) (abs w) = true → refines (CErase k) w.
Proof.
  intros Hok Ha. cbn [allowed] in Ha. andb_split. destruct (top_apply _ H) as (t & ls & Hls). rewrite !top_map_at in *.
  pose proof (peek_named w k t ls Hok Hls ltac:(by apply Z.eqb_neq, negb_true_iff) H0) as Hp.
  unfold refines. cbn [view_call spec_call]. rewrite top_map_at. destruct (named (top_map w) k) as [s|] eqn:Hn.
  2: { exists w. by rewrite (ST_bind_return _ _ _ _ _ Hp). }
  destruct Hp as (l & w1 & Hp & Hh & Hd1). rewrite (ST_bind_return _ _ _ _ _ Hp).
  pose proof Hd1 as (Hok1 & Hm1 & Hfr & _). destruct (erase_ok w1 l s Hok1 Hh) as (w2 & Hrun & Hd2).
  rewrite (ST_bind_return _ _ _ _ _ Hrun). exists w2. split; [done|].
  assert (Hs : sle_key s = k_key k).
  { destruct (named_Some _ _ _ Hn) as [Hk _]. by apply (stack_filed _ _ _ Hok) in Hk as [? _]. }
  rewrite Hs, Hm1 in Hd2. eapply did_abs; [done|]. by eapply did_trans.
Qed.

Lemma insert_refines w s : views_ok w → allowed (CInsert s) (abs w) = true → refines (CInsert s) w.
Proof.
  intros Hok Ha. cbn [allowed] in Ha. andb_split. destruct (top_apply _ H) as (t & ls & Hls). rewrite top_map_at in H0.
  destruct (insert_ok w t ls s Hok Hls) as (l & w' & Hrun & _ & Hd).
  { by apply Z.eqb_neq, negb_true_iff. } { by apply bool_decide_eq_true in H0. }
  exists w'. cbn [view_call spec_call]. rewrite (ST_bind_return _ _ _ _ _ Hrun), top_map_at. split; [done|]. by eapply did_abs.
Qed.

(** ** Fees, new views and applying a view *)

Lemma drops_add_int64 a b : int64 (a + b) = true → drops_add a b = Return (a + b).
Proof. unfold int64, drops_add. by intros ->. Qed.

Lemma destroy_refines w fee : views_ok w → allowed (CDestroy fee) (abs w) = true → refines (CDestroy fee) w.
Proof.
  intros Hok Ha. cbn [allowed] in Ha. andb_split. destruct (top_apply _ H) as (t & ls & Hls).
  unfold abs in H0. rewrite Hls in H0. cbn in H0.
  exists (mkViews (objs w) (Apply (mkApply (items_ t) (dropsDestroyed_ t + fee)) :: ls) (ledger w)).
  unfold refines, views_ok, abs in *. cbn [view_call]. rewrite Hls in *. split; [|done].
  unfold view_destroyXRP. erewrite ST_bind_return; [done|]. apply (on_top_run _ t); [done|].
  unfold apply_destroyXRP. by rewrite drops_add_int64.
Qed.

Lemma push_refines w : views_ok w → refines CSandbox w ∧ refines COpen w.
Proof.
  intros Hok.
  split; (eexists; split; [done|]; split; [split_and!; [apply table_ok_empty|by intros l (k & a & [=])|done]|]);
    cbn [spec_call snd]; rewrite top_map_at; unfold abs; cbn [abs_views layers objs ledger stack_map layer_map items_ raw_items];
    by rewrite over_empty.
Qed.

Lemma discard_refines w : views_ok w → allowed CDiscard (abs w) = true → refines CDiscard w.
Proof.
  intros Hok Ha. unfold refines, views_ok, abs in *. cbn [view_call allowed a_views] in *.
  destruct (layers w) as [|ly ls] eqn:Hls; [done|]. exists (mkViews (objs w) ls (ledger w)). split; [|split; [apply Hok|done]].
  erewrite ST_bind_return; [done|]. unfold discard, mbind, ST_bind, sget. by rewrite Hls.
Qed.

(** The fees of an applied view are those of the view below. *)
Definition add_fees (fee : Z) (to : list Layer * Ledger) : list Layer * Ledger :=
  match to.1 with
  | [] => ([], mkLedger (state_map to.2) (drops to.2 - fee))
  | Apply t :: ls => (Apply (mkApply (items_ t) (dropsDestroyed_ t + fee)) :: ls, to.2)
  | Open t :: ls => (Open (mkRaw (raw_items t) (raw_drops t + fee)) :: ls, to.2)
  end.

Definition fees_fit (fee : Z) (to : list Layer * Ledger) : bool :=
  match to.1 with [] => int64 (drops to.2 - fee) | ly :: _ => int64 (fees_of ly + fee) end.

Lemma rawDestroy_ok fee to : fees_fit fee to = true → rawDestroyXRP fee to = Return (add_fees fee to).
Proof.
  destruct to as [[|[t|t] ls] g]; unfold fees_fit, rawDestroyXRP, add_fees; cbn [fst snd fees_of]; intros Hf.
  - unfold ledger_rawDestroyXRP. by rewrite drops_add_int64.
  - unfold apply_destroyXRP. by rewrite drops_add_int64.
  - unfold raw_destroyXRP. by rewrite drops_add_int64.
Qed.

(** Applying the items and the fees of the table at the top. *)
Lemma commit_table {A} `{TableAction A} h (items : gmap Z (A * loc)) fee ls g :
  stack_ok h ls (state_map g) → table_ok h items (stack_map h ls (state_map g)) →
  (∀ k a l, items !! k = Some (a, l) → ¬ stack_loc ls l) → fees_fit fee (ls, g) = true →
  ∃ ls' g', (to ← rawDestroyXRP fee (ls, g); apply_all h (ascending items) to) = Return (ls', g') ∧
    stack_ok h ls' (state_map g') ∧ stack_map h ls' (state_map g') = over h items (stack_map h ls (state_map g)) ∧
    same_below (add_fees fee (ls, g)).1 (add_fees fee (ls, g)).2 ls' g'.
Proof.
  intros Hok Ht Hd Hf. rewrite (rawDestroy_ok _ _ Hf). cbn.
  assert (Hsame : ∃ ls1 g1, add_fees fee (ls, g) = (ls1, g1) ∧ stack_ok h ls1 (state_map g1) ∧
    stack_map h ls1 (state_map g1) = stack_map h ls (state_map g) ∧ ∀ l, stack_loc ls1 l → stack_loc ls l).
  { destruct ls as [|[t|t] ls]; (eexists _, _; split; [done|]; split; [exact Hok|]; split; [done|]); [done|..];
      intros l; by rewrite !stack_loc_cons. }
  destruct Hsame as (ls1 & g1 & -> & Hok1 & Hm1 & Hl1). cbn [fst snd]. rewrite <- Hm1 in Ht |- *.
  destruct (apply_all_ok h (ascending items) ls1 g1 Hok1) as (ls' & g' & Hrun & Hok' & Hm' & _ & Hs).
  { apply table_pending; [done|]. intros k a l Hi Hl. eapply Hd; [done|]. by apply Hl1. }
  exists ls', g'. split_and!; [done|done|by rewrite Hm', applied_over|done].
Qed.

Lemma commit_abs h ls g ls' g' m fee :
  same_below (add_fees fee (ls, g)).1 (add_fees fee (ls, g)).2 ls' g' → stack_map h ls' (state_map g') = m →
  match ls with
  | [] => ls' = [] ∧ state_map g' = m ∧ drops g' = drops g - fee
  | u :: ls0 =>
    g' = g ∧ abs_views h ls' (state_map g') = mkAView (is_apply u) m (fees_of u + fee) :: abs_views h ls0 (state_map g)
  end.
Proof.
  destruct ls as [|[t|t] ls], ls' as [|[t'|t'] ls']; unfold add_fees; cbn [fst snd same_below]; intros [Hd Hs]; try done.
  - destruct Hs as (-> & -> & Hf). intros Hm. split; [done|]. cbn [abs_views is_apply fees_of]. rewrite Hm, Hf. done.
  - destruct Hs as (-> & -> & Hf). intros Hm. split; [done|]. cbn [abs_views is_apply fees_of]. rewrite Hm, Hf. done.
Qed.

Lemma commit_refines w : views_ok w → allowed CCommit (abs w) = true → refines CCommit w.
Proof.
  intros Hok Ha. unfold refines. cbn [view_call].
  assert (Hend : ∀ ly ls ls' g', layers w = ly :: ls →
    commit w = (Return (), mkViews (objs w) ls' g') → stack_ok (objs w) ls' (state_map g') →
    stack_map (objs w) ls' (state_map g') = stack_map (objs w) (ly :: ls) (state_map (ledger w)) →
    same_below (add_fees (fees_of ly) (ls, ledger w)).1 (add_fees (fees_of ly) (ls, ledger w)).2 ls' g' → refines CCommit w).
  { intros ly ls ls' g' Hls Hrun Hok' Hm' Hs. exists (mkViews (objs w) ls' g'). cbn [view_call].
    rewrite (ST_bind_return _ _ _ _ _ Hrun). pose proof (commit_abs _ _ _ _ _ _ _ Hs Hm') as Hc.
    unfold abs. cbn [spec_call a_views]. rewrite Hls. cbn [abs_views objs layers ledger].
    destruct ls as [|u ls]; cbn [abs_views].
    - destruct Hc as (-> & Hc & Hd). split; [done|]. split; [done|]. cbn [abs_views snd a_drops a_map a_fees]. by rewrite Hc, Hd.
    - destruct Hc as (-> & Hc). split; [done|]. split; [done|]. by rewrite Hc. }
  assert (Hf : ∀ ly ls, layers w = ly :: ls → fees_fit (fees_of ly) (ls, ledger w) = true).
  { intros ly ls Hls. unfold abs in Ha. cbn [allowed a_views a_drops] in Ha. rewrite Hls in Ha. unfold fees_fit. by destruct ls. }
  unfold views_ok in Hok. destruct (layers w) as [|[t|t] ls] eqn:Hls.
  { unfold abs in Ha. rewrite Hls in Ha. done. }
  - destruct Hok as (Ht & Hd & Hlow).
    destruct (commit_table (objs w) (items_ t) (dropsDestroyed_ t) ls (ledger w)) as (ls' & g' & Hrun & Hok' & Hm' & Hs);
      [done|done|intros k a l Hi; apply Hd; by exists k, a|by apply (Hf _ _ eq_refl)|].
    assert (Happ : apply_apply (objs w) t (ls, ledger w) = Return (ls', g')).
    { rewrite <- Hrun. apply bind_ext. intros to. apply apply_items_all. }
    eapply (Hend _ _ ls' g'); [done| |done..]. unfold commit, mbind, ST_bind, sget, slift. by rewrite Hls, Happ.
  - destruct Hok as (Ht & Hd & Hlow).
    destruct (commit_table (objs w) (raw_items t) (raw_drops t) ls (ledger w)) as (ls' & g' & Hrun & Hok' & Hm' & Hs);
      [done|done|intros k a l Hi; apply Hd; by exists k, a|by apply (Hf _ _ eq_refl)|].
    assert (Happ : raw_apply (objs w) t (ls, ledger w) = Return (ls', g')).
    { rewrite <- Hrun. apply bind_ext. intros to. apply raw_items_all. }
    eapply (Hend _ _ ls' g'); [done| |done..]. unfold commit, mbind, ST_bind, sget, slift. by rewrite Hls, Happ.
Qed.

Lemma call_refines c w : views_ok w → allowed c (abs w) = true → refines c w.
Proof.
  intros Hok Ha. destruct c; try (exact (read_refines w _ Hok Ha));
    eauto using modify_refines, erase_refines, insert_refines, destroy_refines, commit_refines, discard_refines;
    by apply push_refines.
Qed.

Lemma run_refines cs w :
  views_ok w → all_allowed cs (abs w) = true →
  ∃ w', view_run cs w = (Return (spec_run cs (abs w)).1, w') ∧ views_ok w' ∧ abs w' = (spec_run cs (abs w)).2.
Proof.
  revert w. induction cs as [|c cs IH]; intros w Hok; [by exists w|]. cbn [all_allowed view_run spec_run].
  intros [Hc Hcs]%andb_true_iff. destruct (call_refines c w Hok Hc) as (w1 & Hrun & Hok1 & Habs).
  destruct (spec_call c (abs w)) as [r a1]. cbn in *. subst a1. destruct (IH w1 Hok1 Hcs) as (w2 & Hrun2 & Hok2 & Habs2).
  exists w2. rewrite (ST_bind_return _ _ _ _ _ Hrun), (ST_bind_return _ _ _ _ _ Hrun2).
  by destruct (spec_run cs (abs w1)).
Qed.
