(* ===== verification/Directory.v ===== *)
(** * Directories

    [ledger/impl/ApplyView.cpp] ([dirAdd], [emptyDirDelete], [dirRemove]) and the
    loops over directories of [ledger/impl/View.cpp].  A directory is a ring of
    pages, linked by page numbers; the root is page 0.

    The code uses a view through the interface [ApplyView]; an entry is reached
    through the pointer that [peek] handed out. *)
From S2P Require Import Prelude Outcome Bytes SHAMapNode LedgerEntry StateTable.

(** ** The interface of the view *)

Class ApplyView (S : Type) := {
  av_peek : Keylet → ST S (option loc);
  (** The entry at a pointer. *)
  av_sle : loc → ST S SLE;
  (** A change of the entry, followed by [update]. *)
  av_modify : loc → (SLE → SLE) → ST S unit;
  (** A new entry given to [insert]. *)
  av_insert : SLE → ST S loc;
  av_erase : loc → ST S unit }.

Definition dirNodeMaxEntries : nat := 32.
Definition dirNodeMaxPages : Z := 262144.

(** [keylet::child]. *)
Definition child (key : Z) : Keylet := mkKeylet ltCHILD key.

(** The owner, an account's bytes, is the description of an owner directory. *)
Definition describeOwnerDir (account : list Z) : SLE → SLE := set_field sfOwner account.

Section directory.
Context (sha512Half : list Z → Z).

(** [keylet::page] of a keylet. *)
Definition page_of (root : Keylet) (index : Z) : exc Keylet :=
  if k_type root =? ltDIR_NODE then Return (page sha512Half (k_key root) index) else Abort "root.type == ltDIR_NODE".

(** The entries of a page with room, with the new one. *)
Definition add_entry (preserveOrder : bool) (key : Z) (indexes : list Z) : exc (list Z) :=
  if preserveOrder then
    if bool_decide (key ∈ indexes) then Abort "dirInsert: double insertion" else Return (indexes ++ [key])
  else
    let indexes := merge_sort Z.le indexes in
    let before := filter (λ x, x < key) indexes in
    let pos := filter (λ x, ¬ x < key) indexes in
    match pos with
    | x :: _ => if key =? x then Abort "dirInsert: double insertion" else Return (before ++ key :: pos)
    | [] => Return (before ++ [key])
    end.

Section apply.
Context {S : Type} `{ApplyView S}.

(** [peek] of a page that must be there. *)
Definition peek_page (root : Keylet) (index : Z) (what : string) : ST S loc :=
  k ← slift (page_of root index);
  l ← av_peek k;
  match l with None => slift (Abort what) | Some l => mret l end.

Definition dirAdd (preserveOrder : bool) (directory : Keylet) (key : Z) (describe : SLE → SLE) : ST S (option Z) :=
  root ← av_peek directory;
  match root with
  | None =>
    let root := describe (setFieldH256 sfRootIndex (k_key directory) (SLE_ctor directory)) in
    av_insert (setFieldV256 sfIndexes [key] root);;
    mret (Some 0)
  | Some root =>
    r ← av_sle root;
    let page := getFieldU64 sfIndexPrevious r in
    node ← (if page =? 0 then mret root
            else peek_page directory page "Directory chain: root back-pointer broken.");
    n ← av_sle node;
    let indexes := getFieldV256 sfIndexes n in
    if (length indexes <? dirNodeMaxEntries)%nat then
      indexes ← slift (add_entry preserveOrder key indexes);
      av_modify node (setFieldV256 sfIndexes indexes);;
      mret (Some page)
    else
      let page := u64 (page + 1) in
      if dirNodeMaxPages <=? page then mret None
      else
        av_modify node (setFieldU64 sfIndexNext page);;
        av_modify root (setFieldU64 sfIndexPrevious page);;
        k ← slift (page_of directory page);
        let node := setFieldV256 sfIndexes [key] (setFieldH256 sfRootIndex (k_key directory) (SLE_ctor k)) in
        let node := if negb (page =? 1) then setFieldU64 sfIndexPrevious (page - 1) node else node in
        av_insert (describe node);;
        mret (Some page)
  end.

Definition dirAppend := dirAdd true.
Definition dirInsert := dirAdd false.

(** [dirAdd] of [View.cpp]. *)
Definition view_dirAdd (dir : Keylet) (uLedgerIndex : Z) (strictOrder : bool) (fDescriber : SLE → SLE) : ST S (option Z) :=
  if strictOrder then dirAppend dir uLedgerIndex fDescriber else dirInsert dir uLedgerIndex fDescriber.

Definition logic_if (b : bool) (what : string) : ST S unit := slift (if b then Abort what else Return ()).

Definition emptyDirDelete (directory : Keylet) : ST S bool :=
  node ← av_peek directory;
  match node with
  | None => mret false
  | Some node =>
    n ← av_sle node;
    if negb (k_type directory =? ltDIR_NODE) || negb (getFieldH256 sfRootIndex n =? k_key directory) then
      slift (Abort "emptyDirDelete() called with wrong node type")
    else if negb (bool_decide (getFieldV256 sfIndexes n = [])) then mret false
    else
      let prevPage := getFieldU64 sfIndexPrevious n in
      let nextPage := getFieldU64 sfIndexNext n in
      logic_if ((nextPage =? 0) && negb (prevPage =? 0)) "Directory chain: fwd link broken";;
      logic_if ((prevPage =? 0) && negb (nextPage =? 0)) "Directory chain: rev link broken";;
      if (nextPage =? prevPage) && negb (nextPage =? 0) then
        last ← peek_page directory nextPage "Directory chain: fwd link broken.";
        la ← av_sle last;
        if negb (bool_decide (getFieldV256 sfIndexes la = [])) then mret false
        else
          av_modify node (setFieldU64 sfIndexPrevious 0 ∘ setFieldU64 sfIndexNext 0);;
          av_erase last;;
          av_erase node;;
          mret true
      else
        (if (nextPage =? 0) && (prevPage =? 0) then av_erase node else mret ());;
        mret true
  end.

(** [std::find] and [erase]: the first occurrence goes. *)
Fixpoint erase_first (key : Z) (l : list Z) : option (list Z) :=
  match l with
  | [] => None
  | x :: l => if x =? key then Some l else cons x <$> erase_first key l
  end.

(** The rest of [dirRemove] for the root page. *)
Definition dirRemove_root (directory : Keylet) (node : loc) (keepRoot : bool) : ST S bool :=
  n ← av_sle node;
  let prevPage := getFieldU64 sfIndexPrevious n in
  let nextPage := getFieldU64 sfIndexNext n in
  logic_if ((nextPage =? 0) && negb (prevPage =? 0)) "Directory chain: fwd link broken";;
  logic_if ((prevPage =? 0) && negb (nextPage =? 0)) "Directory chain: rev link broken";;
  '(prevPage, nextPage) ←
    (if (nextPage =? prevPage) && negb (nextPage =? 0) then
       last ← peek_page directory nextPage "Directory chain: fwd link broken.";
       la ← av_sle last;
       if bool_decide (getFieldV256 sfIndexes la = []) then
         av_modify node (setFieldU64 sfIndexPrevious 0 ∘ setFieldU64 sfIndexNext 0);;
         av_erase last;;
         mret (0, 0)
       else mret (prevPage, nextPage)
     else mret (prevPage, nextPage));
  if keepRoot then mret true
  else
    (if (nextPage =? 0) && (prevPage =? 0) then av_erase node else mret ());;
    mret true.

(** The rest of [dirRemove] for another page. *)
Definition dirRemove_page (directory : Keylet) (page : Z) (node : loc) (keepRoot : bool) : ST S bool :=
  n ← av_sle node;
  let prevPage := getFieldU64 sfIndexPrevious n in
  let nextPage := getFieldU64 sfIndexNext n in
  logic_if (nextPage =? page) "Directory chain: fwd link broken";;
  logic_if (prevPage =? page) "Directory chain: rev link broken";;
  prev ← peek_page directory prevPage "Directory chain: fwd link broken.";
  av_modify prev (setFieldU64 sfIndexNext nextPage);;
  next ← peek_page directory nextPage "Directory chain: rev link broken.";
  av_modify next (setFieldU64 sfIndexPrevious prevPage);;
  av_erase node;;
  ne ← av_sle next;
  nextPage ←
    (if negb (nextPage =? 0) && (getFieldU64 sfIndexNext ne =? 0) && bool_decide (getFieldV256 sfIndexes ne = []) then
       av_erase next;;
       av_modify prev (setFieldU64 sfIndexNext 0);;
       root ← peek_page directory 0 "Directory chain: root link broken.";
       av_modify root (setFieldU64 sfIndexPrevious prevPage);;
       mret 0
     else mret nextPage);
  (if negb keepRoot && (nextPage =? 0) && (prevPage =? 0) then
     pr ← av_sle prev;
     if bool_decide (getFieldV256 sfIndexes pr = []) then av_erase prev else mret ()
   else mret ());;
  mret true.

Definition dirRemove (directory : Keylet) (page key : Z) (keepRoot : bool) : ST S bool :=
  k ← slift (page_of directory page);
  node ← av_peek k;
  match node with
  | None => mret false
  | Some node =>
    n ← av_sle node;
    match erase_first key (getFieldV256 sfIndexes n) with
    | None => mret false
    | Some entries =>
      av_modify node (setFieldV256 sfIndexes entries);;
      if negb (bool_decide (entries = [])) then mret true
      else if page =? 0 then dirRemove_root directory node keepRoot
      else dirRemove_page directory page node keepRoot
    end
  end.

(** *** Looping over a directory of a view that may be changed *)

(** The current page, the next entry in it, and the current entry. *)
Fixpoint dirNext (fuel : nat) (uRootIndex : Z) (sleNode : loc) (uDirEntry : nat) (uEntryIndex : Z)
    : ST S (bool * (loc * nat * Z)) :=
  match fuel with
  | O => slift NoFuel
  | Datatypes.S fuel =>
    n ← av_sle sleNode;
    let svIndexes := getFieldV256 sfIndexes n in
    sassert (uDirEntry <=? length svIndexes)%nat "uDirEntry <= svIndexes.size()";;
    match svIndexes !! uDirEntry with
    | None =>
      let uNodeNext := getFieldU64 sfIndexNext n in
      if uNodeNext =? 0 then mret (false, (sleNode, uDirEntry, 0))
      else
        sleNext ← av_peek (page sha512Half uRootIndex uNodeNext);
        match sleNext with
        | None => mret (false, (sleNode, O, uEntryIndex))
        | Some sleNext => dirNext fuel uRootIndex sleNext O uEntryIndex
        end
    | Some e => mret (true, (sleNode, Datatypes.S uDirEntry, e))
    end
  end.

Definition dirFirst (fuel : nat) (uRootIndex uEntryIndex : Z) : ST S (bool * (loc * nat * Z)) :=
  sleNode ← av_peek (page sha512Half uRootIndex 0);
  match sleNode with
  | None => slift (Abort "sleNode")
  | Some sleNode => dirNext fuel uRootIndex sleNode O uEntryIndex
  end.
End apply.

(** ** Looping over a directory of any view *)

Section read.
Context (view : ReadView).

Definition dirIsEmpty (k : Keylet) : exc bool :=
  sleNode ← rv_read view k;
  match sleNode with
  | None => Return true
  | Some n =>
    if negb (bool_decide (getFieldV256 sfIndexes n = [])) then Return false
    else Return (getFieldU64 sfIndexNext n =? 0)
  end.

Fixpoint cdirNext (fuel : nat) (uRootIndex : Z) (sleNode : SLE) (uDirEntry : nat) (uEntryIndex : Z)
    : exc (bool * (SLE * nat * Z)) :=
  match fuel with
  | O => NoFuel
  | S fuel =>
    let svIndexes := getFieldV256 sfIndexes sleNode in
    if negb (uDirEntry <=? length svIndexes)%nat then Abort "uDirEntry <= svIndexes.size()"
    else
      match svIndexes !! uDirEntry with
      | None =>
        let uNodeNext := getFieldU64 sfIndexNext sleNode in
        if uNodeNext =? 0 then Return (false, (sleNode, uDirEntry, 0))
        else
          sleNext ← rv_read view (page sha512Half uRootIndex uNodeNext);
          match sleNext with
          | None => Return (false, (sleNode, O, uEntryIndex))
          | Some sleNext => cdirNext fuel uRootIndex sleNext O uEntryIndex
          end
      | Some e => Return (true, (sleNode, S uDirEntry, e))
      end
  end.

Definition cdirFirst (fuel : nat) (uRootIndex uEntryIndex : Z) : exc (bool * (SLE * nat * Z)) :=
  sleNode ← rv_read view (page sha512Half uRootIndex 0);
  match sleNode with
  | None => Abort "sleNode"
  | Some sleNode => cdirNext fuel uRootIndex sleNode O uEntryIndex
  end.

(** The calls of [f] by [forEachItem]. *)
Definition children (keys : list Z) : exc (list (option SLE)) := mapM (λ key, rv_read view (child key)) keys.

Fixpoint forEachItem_loop (fuel : nat) (root pos : Keylet) : exc (list (option SLE)) :=
  match fuel with
  | O => NoFuel
  | S fuel =>
    sle ← rv_read view pos;
    match sle with
    | None => Return []
    | Some sle =>
      items ← children (getFieldV256 sfIndexes sle);
      let next := getFieldU64 sfIndexNext sle in
      if next =? 0 then Return items
      else
        pos ← page_of root next;
        rest ← forEachItem_loop fuel root pos;
        Return (items ++ rest)
    end
  end.

Definition forEachItem (fuel : nat) (root : Keylet) : exc (list (option SLE)) := forEachItem_loop fuel root root.
End read.
End directory.
