(* ===== verification/DirRing.v ===== *)
(** * Specifications of code that uses an [ApplyView]

    [ends P m Q]: from every state that satisfies [P] the code returns, and its
    result and state satisfy [Q].  The laws of [ApplyView] are stated for a view
    that presents a map; [st w0 m H] describes its state in the middle of a
    caller's code: the view presents [m], the caller holds the pointers of [H],
    and all of it happened since [w0]. *)
From S2P Require Import Prelude Outcome Bytes SHAMapNode LedgerEntry StateTable StateTableSpec Directory.

Definition ends {S A} (P : S → Prop) (m : ST S A) (Q : A → S → Prop) : Prop :=
  ∀ w, P w → ∃ a w', m w = (Return a, w') ∧ Q a w'.

Section ends.
Context {S : Type}.
Implicit Types P : S → Prop.

Lemma ends_ret {A} P (a : A) : ends P (mret a) (λ r w, r = a ∧ P w).
Proof. intros w Hw. by exists a, w. Qed.

Lemma ends_bind {A B} P (m : ST S A) (k : A → ST S B) Q R :
  ends P m Q → (∀ a, ends (Q a) (k a) R) → ends P (m ≫= k) R.
Proof.
  intros Hm Hk w Hw. destruct (Hm w Hw) as (a & w1 & Hrun & HQ). destruct (Hk a w1 HQ) as (b & w2 & Hrun2 & HR).
  exists b, w2. by rewrite (ST_bind_return _ _ _ _ _ Hrun).
Qed.

(** The value is known. *)
Lemma ends_seq {A B} P (m : ST S A) (k : A → ST S B) a P' R :
  ends P m (λ r w, r = a ∧ P' w) → ends P' (k a) R → ends P (m ≫= k) R.
Proof.
  intros Hm Hk. eapply ends_bind; [done|]. intros a' w [-> Hw]. by apply Hk.
Qed.

Lemma ends_lift {A} P (a : A) : ends P (slift (Return a)) (λ r w, r = a ∧ P w).
Proof. intros w Hw. by exists a, w. Qed.

Lemma ends_mono {A} P P' (m : ST S A) Q Q' :
  (∀ w, P w → P' w) → ends P' m Q' → (∀ a w, Q' a w → Q a w) → ends P m Q.
Proof. intros HP Hm HQ w Hw. destruct (Hm w (HP w Hw)) as (a & w' & ? & ?). eauto. Qed.
End ends.

(** ** The laws of the interface *)

Class ApplyViewLaws (S : Type) `{ApplyView S} := {
  av_ok : S → Prop;
  av_map : S → gmap Z SLE;
  av_held : S → loc → SLE → Prop;
  av_frame : S → S → Prop;
  av_frame_refl w : av_ok w → av_frame w w;
  av_frame_trans w1 w2 w3 : av_frame w1 w2 → av_frame w2 w3 → av_frame w1 w3;
  av_filed w k s : av_ok w → av_map w !! k = Some s → sle_key s = k ∧ k ≠ 0;
  av_held_lookup w l s : av_ok w → av_held w l s → av_map w !! sle_key s = Some s;
  av_held_loc w l1 s1 l2 s2 : av_held w l1 s1 → av_held w l2 s2 → l1 = l2 ↔ sle_key s1 = sle_key s2;
  av_sle_law w l s : av_held w l s → av_sle l w = (Return s, w);
  av_peek_none w k : av_ok w → k_key k ≠ 0 → av_map w !! k_key k = None → av_peek k w = (Return None, w);
  av_peek_some w k s :
    av_ok w → av_map w !! k_key k = Some s → check k s = Return true →
    ∃ l w', av_peek k w = (Return (Some l), w') ∧ av_ok w' ∧ av_map w' = av_map w ∧ av_frame w w' ∧ av_held w' l s ∧
      ∀ l' s', av_held w l' s' → av_held w' l' s';
  av_modify_law w l s f :
    av_ok w → av_held w l s → sle_key (f s) = sle_key s →
    ∃ w', av_modify l f w = (Return (), w') ∧ av_ok w' ∧ av_map w' = <[sle_key s := f s]> (av_map w) ∧ av_frame w w' ∧
      av_held w' l (f s) ∧ ∀ l' s', av_held w l' s' → sle_key s' ≠ sle_key s → av_held w' l' s';
  av_insert_law w s :
    av_ok w → sle_key s ≠ 0 → av_map w !! sle_key s = None →
    ∃ l w', av_insert s w = (Return l, w') ∧ av_ok w' ∧ av_map w' = <[sle_key s := s]> (av_map w) ∧ av_frame w w' ∧
      ∀ l' s', av_held w l' s' → av_held w' l' s';
  av_erase_law w l s :
    av_ok w → av_held w l s →
    ∃ w', av_erase l w = (Return (), w') ∧ av_ok w' ∧ av_map w' = delete (sle_key s) (av_map w) ∧ av_frame w w' ∧
      ∀ l' s', av_held w l' s' → sle_key s' ≠ sle_key s → av_held w' l' s' }.

Section st.
Context {S : Type} {AV : ApplyView S} {AVL : ApplyViewLaws S} (w0 : S).

Record st (m : gmap Z SLE) (H : gmap loc SLE) (w : S) : Prop := {
  st_ok : av_ok w;
  st_map : av_map w = m;
  st_held l s : H !! l = Some s → av_held w l s;
  st_frame : av_frame w0 w }.

(** Different objects have different keys, and those the map has. *)
Definition consistent (m : gmap Z SLE) (H : gmap loc SLE) : Prop :=
  (∀ l s, H !! l = Some s → m !! sle_key s = Some s) ∧
  ∀ l1 s1 l2 s2, H !! l1 = Some s1 → H !! l2 = Some s2 → sle_key s1 = sle_key s2 → l1 = l2.

Lemma st_consistent m H w : st m H w → consistent m H.
Proof.
  intros [Hok Hm Hh _]. split.
  - intros l s Hl. rewrite <- Hm. by eapply av_held_lookup, Hh.
  - intros l1 s1 l2 s2 H1 H2. by apply (av_held_loc w); apply Hh.
Qed.

Lemma ends_consistent {A} m H (c : ST S A) Q : (consistent m H → ends (st m H) c Q) → ends (st m H) c Q.
Proof. intros Hc w Hw. by apply Hc; [eapply st_consistent|]. Qed.

Lemma ends_sle m H l s : H !! l = Some s → ends (st m H) (av_sle l) (λ r w, r = s ∧ st m H w).
Proof. intros Hl w Hw. exists s, w. split; [|done]. by apply av_sle_law, (st_held _ _ _ Hw). Qed.

Lemma ends_peek_none m H k :
  k_key k ≠ 0 → m !! k_key k = None → ends (st m H) (av_peek k) (λ r w, r = None ∧ st m H w).
Proof. intros Hk Hm w Hw. exists None, w. split; [|done]. apply av_peek_none; [apply Hw|done|]. by rewrite (st_map _ _ _ Hw). Qed.

(** The object [l] is one of [H] where the keys are the same. *)
Definition apart (l : loc) (s : SLE) (H : gmap loc SLE) : Prop :=
  ∀ l' s', H !! l' = Some s' → l' = l ↔ sle_key s' = sle_key s.

Lemma ends_peek m H k s :
  m !! k_key k = Some s → check k s = Return true →
  ends (st m H) (av_peek k) (λ r w, ∃ l, r = Some l ∧ apart l s H ∧ st m (<[l := s]> H) w).
Proof.
  intros Hm Hc w [Hok Hmap Hh Hf]. rewrite <- Hmap in Hm.
  destruct (av_peek_some w k s Hok Hm Hc) as (l & w' & Hrun & Hok' & Hm' & Hf' & Hl & Hh'). exists (Some l), w'.
  split; [done|]. exists l. split; [done|]. split.
  { intros l' s' Hl'. apply (av_held_loc w'); [|done]. by apply Hh', Hh. }
  split; [done|congruence| |by eapply av_frame_trans].
  intros l' s' [[<- <-]|[_ Hl']]%lookup_insert_Some; auto.
Qed.

Lemma ends_modify m H l s f :
  H !! l = Some s → sle_key (f s) = sle_key s →
  ends (st m H) (av_modify l f) (λ r w, r = () ∧ st (<[sle_key s := f s]> m) (<[l := f s]> H) w).
Proof.
  intros Hl Hk w [Hok Hmap Hh Hf].
  destruct (av_modify_law w l s f Hok (Hh l s Hl) Hk) as (w' & Hrun & Hok' & Hm' & Hf' & Hl' & Hh'). exists (), w'.
  split; [done|]. split; [done|]. split; [done|congruence| |by eapply av_frame_trans].
  intros l' s' [[<- <-]|[Hne Hs']]%lookup_insert_Some; [done|]. apply Hh'; [by apply Hh|]. intros Heq. apply Hne.
  by apply (av_held_loc w l s l' s'); [apply Hh..|].
Qed.

Lemma ends_insert m H s :
  sle_key s ≠ 0 → m !! sle_key s = None → ends (st m H) (av_insert s) (λ _ w, st (<[sle_key s := s]> m) H w).
Proof.
  intros Hk Hm w [Hok Hmap Hh Hf]. rewrite <- Hmap in Hm.
  destruct (av_insert_law w s Hok Hk Hm) as (l & w' & Hrun & Hok' & Hm' & Hf' & Hh'). exists l, w'.
  split; [done|]. split; [done|congruence| |by eapply av_frame_trans]. auto.
Qed.

Lemma ends_erase m H l s :
  H !! l = Some s → ends (st m H) (av_erase l) (λ r w, r = () ∧ st (delete (sle_key s) m) (delete l H) w).
Proof.
  intros Hl w [Hok Hmap Hh Hf].
  destruct (av_erase_law w l s Hok (Hh l s Hl)) as (w' & Hrun & Hok' & Hm' & Hf' & Hh'). exists (), w'.
  split; [done|]. split; [done|]. split; [done|congruence| |by eapply av_frame_trans].
  intros l' s' [Hne Hs']%lookup_delete_Some. apply Hh'; [by apply Hh|]. intros Heq. apply Hne.
  by apply (av_held_loc w l s l' s'); [apply Hh..|].
Qed.

Lemma st_weaken m H H' w : st m H w → H' ⊆ H → st m H' w.
Proof. intros [Hok Hm Hh Hf] Hsub. split; [done..| |done]. intros l s Hl. apply Hh. by eapply lookup_weaken. Qed.
End st.

(** * Directories as numbered pages

    The abstract view of a directory: its pages by number.  [dir_at] says that
    the entries of a ledger hold these pages, linked in a ring in the order of
    their numbers. *)

(** ** The ring of page numbers *)

(** [b] is the number after [a], or [a] is the last one and [b] the root. *)
Definition is_next (D : gset Z) (a b : Z) : Prop :=
  a ∈ D ∧ b ∈ D ∧ ((a < b ∧ ∀ c, c ∈ D → ¬ (a < c < b)) ∨ (b = 0 ∧ ∀ c, c ∈ D → ¬ a < c)).

Section ring.
Context (D : gset Z) (Hpos : ∀ c, c ∈ D → 0 ≤ c).

Lemma next_fun a b b' : is_next D a b → is_next D a b' → b = b'.
Proof using.
  intros (Ha & Hb & [[H1 H2]|[-> H2]]) (_ & Hb' & [[H3 H4]|[-> H4]]).
  - specialize (H2 b' Hb'). specialize (H4 b Hb). lia.
  - specialize (H4 b Hb). lia.
  - specialize (H2 b' Hb'). lia.
  - done.
Qed.

Lemma next_inj a a' b : is_next D a b → is_next D a' b → a = a'.
Proof using Hpos.
  intros (Ha & Hb & [[H1 H2]|[-> H2]]) (Ha' & _ & [[H3 H4]|[Hb0 H4]]).
  - specialize (H2 a' Ha'). specialize (H4 a Ha). lia.
  - specialize (Hpos a Ha). lia.
  - specialize (Hpos a' Ha'). lia.
  - specialize (H2 a' Ha'). specialize (H4 a Ha). lia.
Qed.

(** A page other than the root is its own neighbour nowhere. *)
Lemma next_irrefl a : a ≠ 0 → ¬ is_next D a a.
Proof using. intros Ha (_ & _ & [[? _]|[-> _]]); lia. Qed.

Lemma next_root_only a : 0 ∈ D → is_next D 0 a → (a = 0 ↔ D = {[0]}).
Proof using Hpos.
  intros H0 (_ & Ha & Hn). split.
  - intros ->. destruct Hn as [[? _]|[_ Hn]]; [lia|]. apply set_eq. intros c. rewrite elem_of_singleton. split; [|by intros ->].
    intros Hc. specialize (Hn c Hc). specialize (Hpos c Hc). lia.
  - intros ->. set_solver.
Qed.

(** A page is appended. *)
Lemma next_append l n :
  is_next D l 0 → l < n → 0 < n →
  is_next ({[n]} ∪ D) l n ∧ is_next ({[n]} ∪ D) n 0 ∧ ∀ a b, is_next D a b → a ≠ l → is_next ({[n]} ∪ D) a b.
Proof using Hpos.
  intros (Hl & H0 & Hlast) Hn Hn0. pose proof (Hpos l Hl). assert (Hm : ∀ c, c ∈ D → c ≤ l).
  { intros c Hc. destruct Hlast as [[? Hb]|[_ Hb]]; specialize (Hb c Hc); lia. }
  split_and!.
  - split_and!; [set_solver..|left; split; [done|]]. intros c [->%elem_of_singleton|Hc]%elem_of_union; [lia|]. specialize (Hm c Hc). lia.
  - split_and!; [set_solver..|right; split; [done|]]. intros c [->%elem_of_singleton|Hc]%elem_of_union; [lia|]. specialize (Hm c Hc). lia.
  - intros a b (Ha & Hb & Hab) Hne. split_and!; [set_solver..|]. destruct Hab as [[Hlt Hbt]|[-> Hbt]].
    + left. split; [done|]. intros c [->%elem_of_singleton|Hc]%elem_of_union; [|by apply Hbt]. specialize (Hm b Hb). lia.
    + exfalso. specialize (Hbt l Hl). specialize (Hm a Ha). lia.
Qed.

(** A page is unlinked. *)
Lemma next_delete p n q :
  is_next D p n → is_next D n q → n ≠ 0 → 0 ∈ D →
  is_next (D ∖ {[n]}) p q ∧ ∀ a b, is_next D a b → a ≠ n → b ≠ n → is_next (D ∖ {[n]}) a b.
Proof using Hpos.
  intros Hp Hq Hn H0. split.
  - assert (Hpn : p ≠ n) by (intros ->; by apply (next_irrefl n)).
    assert (Hqn : q ≠ n) by (intros ->; by apply (next_irrefl n)).
    destruct Hp as (Hp & HnD & [[Hlt Hb]|[? _]]); [|done]. destruct Hq as (_ & Hq & Hnq). split_and!; [set_solver..|].
    destruct Hnq as [[Hlt' Hb']|[-> Hb']].
    + left. split; [lia|]. intros c [Hc Hcn]%elem_of_difference. specialize (Hb c Hc). specialize (Hb' c Hc).
      rewrite elem_of_singleton in Hcn. lia.
    + right. split; [done|]. intros c [Hc Hcn]%elem_of_difference. specialize (Hb c Hc). specialize (Hb' c Hc).
      rewrite elem_of_singleton in Hcn. lia.
  - intros a b (Ha & Hb & Hab) Han Hbn. split_and!; [set_solver..|].
    destruct Hab as [[Hlt Hbt]|[-> Hbt]]; [left|right]; (split; [done|]); intros c [Hc _]%elem_of_difference; by apply Hbt.
Qed.
End ring.

(** ** Pages *)

Section pages.
Context (sha512Half : list Z → Z) (root : Z).

(** The key of a page. *)
Definition pk (n : Z) : Z := k_key (page sha512Half root n).

(** No two pages of the directory have the same key, and none has key zero. *)
Definition distinct_pages : Prop :=
  (∀ n, 0 ≤ n < dirNodeMaxPages → pk n ≠ 0) ∧
  ∀ n n', 0 ≤ n < dirNodeMaxPages → 0 ≤ n' < dirNodeMaxPages → pk n = pk n' → n = n'.

(** The entry that holds page [n] with the numbers of its neighbours. *)
Record page_sle (n : Z) (es : list Z) (prev next : Z) (s : SLE) : Prop := {
  ps_key : sle_key s = pk n;
  ps_type : getType s = ltDIR_NODE;
  ps_root : getFieldH256 sfRootIndex s = root;
  ps_indexes : getFieldV256 sfIndexes s = es;
  ps_prev : getFieldU64 sfIndexPrevious s = prev;
  ps_next : getFieldU64 sfIndexNext s = next }.

Ltac set_page :=
  intros [Hk Ht Hr Hi Hp Hn]; split; try done;
  unfold getFieldH256, getFieldV256, getFieldU64, setFieldV256, setFieldU64, set_field in *; cbn;
  first [by rewrite lookup_insert_eq|by rewrite lookup_insert_ne].

Lemma set_indexes n es es' p q s : page_sle n es p q s → page_sle n es' p q (setFieldV256 sfIndexes es' s).
Proof. set_page. Qed.

Lemma set_next n es p q q' s : page_sle n es p q s → page_sle n es p q' (setFieldU64 sfIndexNext q' s).
Proof. set_page. Qed.

Lemma set_prev n es p p' q s : page_sle n es p q s → page_sle n es p' q (setFieldU64 sfIndexPrevious p' s).
Proof. set_page. Qed.

(** The ledger [m] holds the directory; no other page has an entry. *)
Definition dir_at (m : gmap Z SLE) (pages : gmap Z (list Z)) : Prop :=
  ∀ n, 0 ≤ n < dirNodeMaxPages →
  match pages !! n with
  | None => m !! pk n = None
  | Some es => ∃ s p q, m !! pk n = Some s ∧ page_sle n es p q s ∧ is_next (dom pages) p n ∧ is_next (dom pages) n q
  end.

(** The numbers of the pages. *)
Record numbered (pages : gmap Z (list Z)) : Prop := {
  do_range n es : pages !! n = Some es → 0 ≤ n < dirNodeMaxPages;
  do_root : pages ≠ ∅ → is_Some (pages !! 0) }.

(** Their sizes; only the root and the last page may be empty. *)
Record dir_ok (pages : gmap Z (list Z)) : Prop := {
  do_numbered : numbered pages;
  do_size n es : pages !! n = Some es → (length es ≤ dirNodeMaxEntries)%nat;
  do_full n n' : pages !! n = Some [] → is_Some (pages !! n') → n ≠ 0 → n' ≤ n }.

Lemma page_check n es p q s : page_sle n es p q s → check (page sha512Half root n) s = Return true.
Proof.
  intros [_ Ht _ _ _ _]. unfold check. assert (k_type (page sha512Half root n) = ltDIR_NODE) as ->.
  { unfold page. by destruct (n =? 0). }
  rewrite Ht. done.
Qed.

(** What a page of the directory looks like. *)
Lemma dir_page m pages n es :
  numbered pages → dir_at m pages → pages !! n = Some es →
  ∃ s p q, m !! pk n = Some s ∧ page_sle n es p q s ∧ is_next (dom pages) p n ∧ is_next (dom pages) n q.
Proof. intros Hok Hat Hn. specialize (Hat n (do_range _ Hok _ _ Hn)). by rewrite Hn in Hat. Qed.

(** Entries that are not pages of the directory. *)
Definition off_pages (m m' : gmap Z SLE) : Prop :=
  ∀ k, (∀ n, 0 ≤ n < dirNodeMaxPages → k ≠ pk n) → m' !! k = m !! k.

Lemma off_pages_refl m : off_pages m m.
Proof. done. Qed.

Lemma off_pages_trans m1 m2 m3 : off_pages m1 m2 → off_pages m2 m3 → off_pages m1 m3.
Proof. intros H1 H2 k Hk. by rewrite H2, H1. Qed.

Lemma off_pages_insert m m' n s : off_pages m m' → 0 ≤ n < dirNodeMaxPages → off_pages m (<[pk n := s]> m').
Proof. intros Hm Hn k Hk. rewrite lookup_insert_ne; [by apply Hm|]. intros <-. by apply (Hk n). Qed.

Lemma off_pages_delete m m' n : off_pages m m' → 0 ≤ n < dirNodeMaxPages → off_pages m (delete (pk n) m').
Proof. intros Hm Hn k Hk. rewrite lookup_delete_ne; [by apply Hm|]. intros <-. by apply (Hk n). Qed.

Lemma dom_pos pages : numbered pages → ∀ c, c ∈ dom pages → 0 ≤ c.
Proof. intros Hok c [es Hc]%elem_of_dom. apply (do_range _ Hok) in Hc. lia. Qed.

(** *** Changes of the ring *)

Section change.
Context (Hd : distinct_pages).

Lemma pk_ne n n' : 0 ≤ n < dirNodeMaxPages → 0 ≤ n' < dirNodeMaxPages → n ≠ n' → pk n ≠ pk n'.
Proof using Hd. intros Hn Hn' Hne Heq. by apply Hne, Hd. Qed.

(** The entries of a page. *)
Lemma dir_at_entries m pages n es es' s :
  numbered pages → dir_at m pages → pages !! n = Some es → m !! pk n = Some s →
  dir_at (<[pk n := setFieldV256 sfIndexes es' s]> m) (<[n := es']> pages).
Proof using Hd.
  intros Hok Hat Hn Hs. pose proof (do_range _ Hok _ _ Hn) as Hr.
  assert (Hdom : dom (<[n := es']> pages) = dom pages) by (apply dom_insert_lookup_L; eauto).
  intros x Hx. rewrite Hdom. destruct (decide (x = n)) as [->|Hne].
  - rewrite !lookup_insert_eq. destruct (dir_page _ _ _ _ Hok Hat Hn) as (s' & p & q & Hs' & Hp & Hl1 & Hl2).
    assert (s' = s) as -> by congruence. exists (setFieldV256 sfIndexes es' s), p, q. split_and!; [done| |done|done].
    by eapply set_indexes.
  - rewrite (lookup_insert_ne pages), (lookup_insert_ne m) by (first [done|by apply pk_ne]). by apply Hat.
Qed.

(** The directory is created, and deleted. *)
Lemma dir_at_create m s key :
  dir_at m ∅ → page_sle 0 [key] 0 0 s → dir_at (<[pk 0 := s]> m) {[0 := [key]]}.
Proof using Hd.
  intros Hat Hs x Hx. destruct (decide (x = 0)) as [->|Hne].
  - rewrite lookup_singleton_eq, lookup_insert_eq. exists s, 0, 0. rewrite dom_singleton_L.
    assert (is_next {[0]} 0 0) by (split_and!; [set_solver..|right; split; [done|set_solver by lia]]). done.
  - rewrite lookup_singleton_ne, lookup_insert_ne by (first [done|by apply pk_ne]). specialize (Hat x Hx). by rewrite lookup_empty in Hat.
Qed.

Lemma dir_at_destroy m pages : dir_at m pages → dom pages = {[0]} → dir_at (delete (pk 0) m) ∅.
Proof using Hd.
  intros Hat Hdom x Hx. rewrite lookup_empty. destruct (decide (x = 0)) as [->|Hne]; [apply lookup_delete_eq|].
  rewrite lookup_delete_ne by (by apply pk_ne). specialize (Hat x Hx).
  assert (pages !! x = None) as Hnone by (apply not_elem_of_dom; rewrite Hdom; set_solver). by rewrite Hnone in Hat.
Qed.

(** A page is appended: the last page and the root get new links. *)
Lemma dir_at_append m m' pages l n key s :
  numbered pages → dir_at m pages → is_next (dom pages) l 0 → l < n < dirNodeMaxPages →
  (∀ x, 0 ≤ x < dirNodeMaxPages → x ≠ n → m' !! pk x =
    (λ s, let s := if bool_decide (x = l) then setFieldU64 sfIndexNext n s else s in
          if x =? 0 then setFieldU64 sfIndexPrevious n s else s) <$> m !! pk x) →
  m' !! pk n = Some s → page_sle n [key] l 0 s → dir_at m' (<[n := [key]]> pages).
Proof using Hd.
  intros Hok Hat Hl Hn Hm' Hs Hps. pose proof (dom_pos pages Hok) as Hpos.
  assert (H0 : 0 ≤ l) by apply Hpos, Hl.
  destruct (next_append _ Hpos l n Hl) as (N1 & N2 & N3); [lia..|].
  intros x Hx. rewrite dom_insert_L. destruct (decide (x = n)) as [->|Hne].
  { rewrite lookup_insert_eq. by exists s, l, 0. }
  rewrite lookup_insert_ne by done. rewrite (Hm' x Hx Hne). specialize (Hat x Hx).
  destruct (pages !! x) as [es|] eqn:Hpx; [|by rewrite Hat]. destruct Hat as (s0 & p & q & -> & Hp0 & Lp & Lq). cbn.
  set (s1 := if bool_decide (x = l) then setFieldU64 sfIndexNext n s0 else s0).
  assert (H1 : ∃ q', page_sle x es p q' s1 ∧ is_next ({[n]} ∪ dom pages) x q').
  { unfold s1. case_bool_decide as Hxl; [subst x|].
    - exists n. split; [by eapply set_next|done].
    - exists q. split; [done|by apply N3]. }
  destruct H1 as (q' & Hs1 & Lq'). destruct (Z.eqb_spec x 0) as [->|Hx0].
  - exists (setFieldU64 sfIndexPrevious n s1), n, q'. split_and!; [done|by eapply set_prev|done|done].
  - exists s1, p, q'. split_and!; [done..| |done]. apply N3; [done|]. intros ->. apply Hx0. by eapply next_fun.
Qed.

(** A page other than the root is unlinked. *)
Lemma dir_at_unlink m m' pages p n q :
  numbered pages → dir_at m pages → is_next (dom pages) p n → is_next (dom pages) n q → n ≠ 0 →
  m' !! pk n = None →
  (∀ x, 0 ≤ x < dirNodeMaxPages → x ≠ n → m' !! pk x =
    (λ s, let s := if bool_decide (x = p) then setFieldU64 sfIndexNext q s else s in
          if bool_decide (x = q) then setFieldU64 sfIndexPrevious p s else s) <$> m !! pk x) →
  dir_at m' (delete n pages).
Proof using Hd.
  intros Hok Hat Hp Hq Hn0 Hnone Hm'. pose proof (dom_pos pages Hok) as Hpos.
  assert (H0 : 0 ∈ dom pages).
  { apply elem_of_dom, (do_root _ Hok). intros ->. destruct Hq as (Hq & _). by rewrite dom_empty_L, elem_of_empty in Hq. }
  destruct (next_delete _ Hpos p n q Hp Hq Hn0 H0) as [N1 N2].
  intros x Hx. rewrite dom_delete_L. destruct (decide (x = n)) as [->|Hne]; [by rewrite lookup_delete_eq|].
  rewrite lookup_delete_ne by done. rewrite (Hm' x Hx Hne). specialize (Hat x Hx).
  destruct (pages !! x) as [es|] eqn:Hpx; [|by rewrite Hat]. destruct Hat as (s0 & p0 & q0 & -> & Hp0 & Lp & Lq). cbn.
  set (s1 := if bool_decide (x = p) then setFieldU64 sfIndexNext q s0 else s0).
  assert (H1 : ∃ q', page_sle x es p0 q' s1 ∧ is_next (dom pages ∖ {[n]}) x q').
  { unfold s1. case_bool_decide as Hxp; [subst x|].
    - exists q. split; [by eapply set_next|done].
    - exists q0. split; [done|]. apply N2; [done..|]. intros ->. apply Hxp. by eapply (next_inj _ Hpos). }
  destruct H1 as (q' & Hs1 & Lq'). case_bool_decide as Hxq; [subst x|].
  - exists (setFieldU64 sfIndexPrevious p s1), p, q'. split_and!; [done|by eapply set_prev|done|done].
  - exists s1, p0, q'. split_and!; [done..| |done]. apply N2; [done| |done]. intros ->. apply Hxq. by eapply next_fun.
Qed.
End change.
End pages.

Arguments pk : simpl never.
