(* ===== verification/DirAdd.v ===== *)
(** * Adding to a directory

    [dirAdd] puts the entry into the last page, or into a new one. *)
From S2P Require Import Prelude Outcome Bytes SHAMapNode LedgerEntry StateTable StateTableSpec Directory DirRing.

(** ** The pages before and after *)

Definition last_no (pages : gmap Z (list Z)) : Z := default 0 (fst <$> last (ascending pages)).
Definition next_no (pages : gmap Z (list Z)) (n : Z) : Z := default 0 (fst <$> head (above n pages)).

Lemma last_greatest {A} (l : list (Z * A)) :
  StronglySorted entry_lt l →
  match last l with None => l = [] | Some x => x ∈ l ∧ ∀ e, e ∈ l → e.1 ≤ x.1 end.
Proof.
  induction l as [|a l IH]; [done|]. intros Hs. specialize (IH (sorted_tail fst _ _ Hs)).
  destruct l as [|b l]; [cbn; split; [by left|]; by intros e ->%list_elem_of_singleton|].
  change (last (a :: b :: l)) with (last (b :: l)). destruct (last (b :: l)) as [x|]; [|done].
  destruct IH as [Hx Hmax]. split; [by right|]. intros e [->|He]%elem_of_cons; [|by apply Hmax].
  pose proof (sorted_head fst _ _ _ Hs Hx). lia.
Qed.

Lemma last_no_next pages : numbered pages → pages ≠ ∅ → is_next (dom pages) (last_no pages) 0.
Proof.
  intros Hok Hne. destruct (do_root _ Hok Hne) as [es0 H0]. unfold last_no.
  pose proof (last_greatest _ (ascending_sorted pages)) as Hl. destruct (last (ascending pages)) as [[l es]|].
  - destruct Hl as [Hl%elem_of_ascending Hmax]. cbn. split_and!; [by eapply elem_of_dom_2..|]. right. split; [done|].
    intros c [es' Hc]%elem_of_dom. specialize (Hmax (c, es')). rewrite elem_of_ascending in Hmax. specialize (Hmax Hc). cbn in Hmax. lia.
  - apply elem_of_ascending in H0. rewrite Hl in H0. by apply elem_of_nil in H0.
Qed.

Lemma next_no_next pages n : numbered pages → is_Some (pages !! n) → is_next (dom pages) n (next_no pages n).
Proof.
  intros Hok [es Hn]. assert (Hne : pages ≠ ∅) by (intros ->; done). destruct (do_root _ Hok Hne) as [es0 H0].
  unfold next_no. pose proof (head_least _ (above_sorted pages n)) as Hh. destruct (head (above n pages)) as [[x es']|].
  - destruct Hh as [[Hlt Hx]%elem_of_above Hmin]. cbn. split_and!; [by eapply elem_of_dom_2..|]. left. split; [done|].
    intros c [ec Hc]%elem_of_dom Hb. specialize (Hmin (c, ec)). rewrite elem_of_above in Hmin. cbn in Hmin. 
    assert (x ≤ c) by (apply Hmin; split; [lia|done]). lia.
  - cbn. split_and!; [by eapply elem_of_dom_2..|]. right. split; [done|]. intros c [ec Hc]%elem_of_dom Hb.
    assert (Hin : (c, ec) ∈ above n pages) by (by apply elem_of_above). rewrite Hh in Hin. by apply elem_of_nil in Hin.
Qed.

(** ** The specification *)

Definition spec_add (preserveOrder : bool) (key : Z) (pages : gmap Z (list Z)) : option Z * gmap Z (list Z) :=
  if bool_decide (pages = ∅) then (Some 0, {[0 := [key]]})
  else
    let l := last_no pages in
    let es := default [] (pages !! l) in
    if (length es <? dirNodeMaxEntries)%nat then
      match add_entry preserveOrder key es with
      | Return es => (Some l, <[l := es]> pages)
      | _ => (None, pages)
      end
    else if dirNodeMaxPages <=? l + 1 then (None, pages)
    else (Some (l + 1), <[l + 1 := [key]]> pages).

(** The entry is not in the last page. *)
Definition may_add (key : Z) (pages : gmap Z (list Z)) : bool :=
  bool_decide (key ∉ default [] (pages !! last_no pages)).

Lemma add_entry_ok pres key es :
  key ∉ es → ∃ es', add_entry pres key es = Return es' ∧ es' ≡ₚ key :: es.
Proof.
  intros Hk. unfold add_entry. destruct pres.
  { rewrite bool_decide_eq_false_2 by done. eexists. split; [done|]. rewrite Permutation_app_comm. done. }
  set (l := merge_sort Z.le es). assert (Hl : l ≡ₚ es) by apply merge_sort_Permutation.
  assert (Hsplit : filter (λ x, x < key) l ++ filter (λ x, ¬ x < key) l ≡ₚ es).
  { rewrite <- Hl. clear. induction l as [|x l IH]; [done|]. rewrite !filter_cons.
    destruct (decide (x < key)); destruct (decide (¬ x < key)); [lia| | |lia].
    - cbn. by rewrite IH.
    - rewrite <- Permutation_middle. by rewrite IH. }
  destruct (filter (λ x, ¬ x < key) l) as [|x r] eqn:Hf.
  - eexists. split; [done|]. rewrite app_nil_r in Hsplit. rewrite Permutation_app_comm. cbn. by rewrite Hsplit.
  - destruct (Z.eqb_spec key x) as [->|Hne].
    + exfalso. apply Hk. rewrite <- Hsplit. set_solver.
    + eexists. split; [done|]. by rewrite <- Permutation_middle, Hsplit.
Qed.

(** What the caller's [describe] leaves alone. *)
Definition describes (f : SLE → SLE) : Prop :=
  ∀ s, sle_key (f s) = sle_key s ∧ getType (f s) = getType s ∧
    ∀ c, c ∈ [sfRootIndex; sfIndexes; sfIndexPrevious; sfIndexNext] → fields (f s) !! c = fields s !! c.

Lemma described f n root sha es p q s : describes f → page_sle sha root n es p q s → page_sle sha root n es p q (f s).
Proof.
  intros Hf [Hk Ht Hr Hi Hp Hn]. destruct (Hf s) as (Hk' & Ht' & Hc).
  split; [congruence|congruence|..]; unfold getFieldH256, getFieldV256, getFieldU64 in *; rewrite Hc; try done; set_solver.
Qed.

Lemma add_keeps_ok pres key pages : dir_ok pages → may_add key pages = true → dir_ok (spec_add pres key pages).2.
Proof.
  intros Hok Hm%bool_decide_eq_true. pose proof (do_numbered _ Hok) as Hnum. unfold spec_add. case_bool_decide as He.
  { cbn. split; [split|..].
    - intros n es [<- <-]%lookup_singleton_Some. unfold dirNodeMaxPages. lia.
    - intros _. rewrite lookup_singleton_eq. eauto.
    - intros n es [<- <-]%lookup_singleton_Some. cbn. unfold dirNodeMaxEntries. lia.
    - by intros n n' [<- [=]]%lookup_singleton_Some. }
  pose proof (last_no_next _ Hnum He) as (Hl & _ & Hmax). apply elem_of_dom in Hl as [es Hl]. rewrite Hl in Hm |- *. change (default [] (Some es)) with es in *.
  assert (Hlast : ∀ n, is_Some (pages !! n) → n ≤ last_no pages).
  { pose proof (do_range _ Hnum _ _ Hl). intros n [en Hn]. destruct Hmax as [[? _]|[_ Hmax]]; [lia|].
    specialize (Hmax n (elem_of_dom_2 _ _ _ Hn)). lia. }
  destruct (Nat.ltb_spec (length es) dirNodeMaxEntries) as [Hlt|Hge].
  - destruct (add_entry_ok pres key es Hm) as (es' & -> & Hperm). cbn. split; [split|..].
    + intros n en [[<- <-]|[_ Hn]]%lookup_insert_Some; by eapply do_range.
    + intros _. destruct (decide (last_no pages = 0)) as [->|Hne]; [rewrite lookup_insert_eq; eauto|].
      rewrite lookup_insert_ne by done. by apply (do_root _ Hnum).
    + intros n en [[<- <-]|[_ Hn]]%lookup_insert_Some; [rewrite Hperm; cbn; lia|by eapply do_size].
    + intros n n' [[<- ->]|[Hne Hn]]%lookup_insert_Some; [by apply Permutation_nil_cons in Hperm|].
      intros [e' [[<- _]|[_ Hn']]%lookup_insert_Some] Hn0; [|by eapply (do_full _ Hok)].
      eapply (do_full _ Hok); [done| |done]. by rewrite Hl.
  - destruct (Z.leb_spec dirNodeMaxPages (last_no pages + 1)) as [Hfull|Hroom]; [done|]. cbn.
    pose proof (do_range _ Hnum _ _ Hl) as Hrl. split; [split|..].
    + intros n en [[<- <-]|[_ Hn]]%lookup_insert_Some; [lia|by eapply do_range].
    + intros _. rewrite lookup_insert_ne by lia. by apply (do_root _ Hnum).
    + intros n en [[<- <-]|[_ Hn]]%lookup_insert_Some; [cbn; unfold dirNodeMaxEntries; lia|by eapply do_size].
    + intros n n' [[_ [=]]|[Hne Hn]]%lookup_insert_Some. intros _ Hn0.
      pose proof (do_full _ Hok n (last_no pages) Hn ltac:(eauto) Hn0). pose proof (Hlast n ltac:(eauto)).
      assert (n = last_no pages) as -> by lia. assert (es = []) as -> by congruence. cbn in Hge. unfold dirNodeMaxEntries in Hge. lia.
Qed.

(** ** The code *)

Section add.
Context {S : Type} {AV : ApplyView S} {AVL : ApplyViewLaws S} (w0 : S).
Context (sha512Half : list Z → Z) (root : Z) (Hd : distinct_pages sha512Half root).
Abbreviation pk := (pk sha512Half root).
Abbreviation page_sle := (page_sle sha512Half root).
Abbreviation dir_at := (dir_at sha512Half root).
Abbreviation off_pages := (off_pages sha512Half root).
Abbreviation dir := (mkKeylet ltDIR_NODE root).

Lemma ends_peek_page m H n es p q s what :
  m !! pk n = Some s → page_sle n es p q s →
  ends (st w0 m H) (peek_page sha512Half dir n what) (λ l w, apart l s H ∧ st w0 m (<[l := s]> H) w).
Proof.
  intros Hm Hp. unfold peek_page. eapply ends_seq; [apply ends_lift|]. eapply ends_bind; [eapply ends_peek; [done|by eapply page_check]|].
  intros o w (l & -> & Ha & Hw). by exists l, w.
Qed.

Lemma range_0 : 0 ≤ 0 < dirNodeMaxPages.
Proof. unfold dirNodeMaxPages. lia. Qed.

(** The room in the last page is used. *)
Lemma add_room_ends m H node n es p q s pres key pages :
  numbered pages → dir_at m pages → pages !! n = Some es → m !! pk n = Some s → page_sle n es p q s → H !! node = Some s → key ∉ es →
  ∃ es', add_entry pres key es = Return es' ∧
  ends (st w0 m H) (indexes ← slift (add_entry pres key es); av_modify node (setFieldV256 sfIndexes indexes);; mret (Some n))
    (λ r w, r = Some n ∧ ∃ m', st w0 m' ∅ w ∧ dir_at m' (<[n := es']> pages) ∧ off_pages m m').
Proof using Hd.
  intros Hok Hat Hn Hm Hps Hh Hk. destruct (add_entry_ok pres key es Hk) as (es' & He & _). exists es'. split; [done|]. rewrite He.
  eapply ends_seq; [apply ends_lift|]. eapply ends_seq; [by apply ends_modify|]. eapply ends_mono; [done|apply ends_ret|].
  cbn. intros r w [-> Hw]. split; [done|]. eexists. split; [eapply st_weaken; [exact Hw|apply map_empty_subseteq]|].
  rewrite (ps_key _ _ _ _ _ _ _ Hps). split; [by eapply dir_at_entries|].
  apply off_pages_insert; [done|]. by eapply do_range.
Qed.

Lemma new_page_sle n l key f :
  describes f → 0 < n → l = n - 1 →
  page_sle n [key] l 0
    (f (let node := setFieldV256 sfIndexes [key] (setFieldH256 sfRootIndex root (SLE_ctor (page sha512Half root n))) in
        if negb (n =? 1) then setFieldU64 sfIndexPrevious (n - 1) node else node)).
Proof.
  intros Hf Hn ->. apply described; [done|]. assert (Ht : k_type (page sha512Half root n) = ltDIR_NODE) by (unfold page; by destruct (n =? 0)).
  cbv zeta. destruct (Z.eqb_spec n 1) as [->|Hne]; cbn [negb]; split; done.
Qed.

(** A page is appended. *)
Lemma add_page_ends m H rt node s0 n es p q s key f pages q0 :
  numbered pages → dir_at m pages → is_next (dom pages) n 0 →
  m !! pk 0 = Some s0 → page_sle 0 (default [] (pages !! 0)) n q0 s0 → m !! pk n = Some s → page_sle n es p q s →
  H !! rt = Some s0 → H !! node = Some s → describes f → n + 1 < dirNodeMaxPages →
  ends (st w0 m H)
    (av_modify node (setFieldU64 sfIndexNext (n + 1));;
     av_modify rt (setFieldU64 sfIndexPrevious (n + 1));;
     k ← slift (page_of sha512Half dir (n + 1));
     let node := setFieldV256 sfIndexes [key] (setFieldH256 sfRootIndex root (SLE_ctor k)) in
     let node := if negb (n + 1 =? 1) then setFieldU64 sfIndexPrevious (n + 1 - 1) node else node in
     av_insert (f node);;
     mret (Some (n + 1)))
    (λ r w, r = Some (n + 1) ∧ ∃ m', st w0 m' ∅ w ∧ dir_at m' (<[n + 1 := [key]]> pages) ∧ off_pages m m').
Proof using Hd.
  intros Hok Hat Hl Hm0 Hp0 Hmn Hpn Hr Hh Hf Hroom. apply ends_consistent. intros [_ Hloc].
  assert (Hrn : 0 ≤ n) by (apply (dom_pos _ Hok), Hl). pose proof range_0 as R0.
  assert (Hkn : sle_key s = pk n) by apply Hpn. assert (Hk0 : sle_key s0 = pk 0) by apply Hp0.
  pose (s1 := setFieldU64 sfIndexNext (n + 1) s). pose (r1 := if decide (n = 0) then s1 else s0).
  assert (Hr1 : <[node := s1]> H !! rt = Some r1).
  { unfold r1. destruct (decide (n = 0)) as [->|Hn0].
    - rewrite (Hloc rt s0 node s); [apply lookup_insert_eq|done..|congruence].
    - rewrite lookup_insert_ne; [done|]. intros ->. assert (s0 = s) as -> by congruence.
      apply (pk_ne sha512Half root Hd n 0); [lia|done|done|congruence]. }
  assert (Hkr : sle_key r1 = pk 0) by (unfold r1, s1; destruct (decide (n = 0)) as [->|]; done).
  eapply ends_seq; [by apply ends_modify|]. eapply ends_seq; [by apply ends_modify|]. eapply ends_seq; [apply ends_lift|].
  cbv zeta. set (sn := f _). assert (Hps : page_sle (n + 1) [key] n 0 sn) by (apply new_page_sle; [done|lia|lia]).
  assert (Hks : sle_key sn = pk (n + 1)) by apply Hps. rewrite Hkn, Hkr.
  assert (Hne : ∀ x, 0 ≤ x ≤ n → pk x ≠ pk (n + 1)) by (intros x Hx; apply pk_ne; [done|lia|lia|lia]).
  assert (Hfree : pages !! (n + 1) = None).
  { apply not_elem_of_dom. intros Hin. destruct Hl as (_ & _ & [[? _]|[_ Hl]]); [lia|]. specialize (Hl _ Hin). lia. }
  eapply ends_bind; [apply ends_insert|].
  { rewrite Hks. apply Hd. lia. }
  { rewrite Hks, !lookup_insert_ne by (first [apply Hne; lia]). specialize (Hat (n + 1) ltac:(lia)). by rewrite Hfree in Hat. }
  intros l. eapply ends_mono; [done|apply ends_ret|]. cbn. intros r w [-> Hw]. split; [done|].
  eexists. split; [eapply st_weaken; [exact Hw|apply map_empty_subseteq]|]. rewrite Hks. split.
  - eapply (dir_at_append sha512Half root Hd m _ pages n); [done|done|done|lia| |apply lookup_insert_eq|done].
    intros x Hx Hxn. rewrite lookup_insert_ne by (intros Heq; apply Hxn; symmetry; apply Hd; [lia|done|done]).
    destruct (Z.eqb_spec x 0) as [->|Hx0].
    + rewrite lookup_insert_eq, Hm0. cbn. unfold r1. destruct (decide (n = 0)) as [->|Hn0].
      * assert (s = s0) as -> by congruence. done.
      * by rewrite bool_decide_eq_false_2 by done.
    + rewrite lookup_insert_ne by (apply pk_ne; [done|done|done|lia]). case_bool_decide as Hxl; [subst x|].
      * by rewrite lookup_insert_eq, Hmn.
      * rewrite lookup_insert_ne by (apply pk_ne; [done|lia|done|lia]). by destruct (m !! pk x).
  - do 3 (apply off_pages_insert; [|lia]). done.
Qed.

Lemma dirAdd_ends m pages pres key f :
  numbered pages → dir_at m pages → describes f → may_add key pages = true →
  ends (st w0 m ∅) (dirAdd sha512Half pres dir key f)
    (λ r w, r = (spec_add pres key pages).1 ∧ ∃ m', st w0 m' ∅ w ∧ dir_at m' (spec_add pres key pages).2 ∧ off_pages m m').
Proof using Hd.
  intros Hok Hat Hf Hm%bool_decide_eq_true. pose proof range_0 as R0. unfold dirAdd, spec_add.
  case_bool_decide as He.
  { subst pages. pose proof (Hat 0 R0) as H0. rewrite lookup_empty in H0.
    eapply ends_seq; [apply ends_peek_none; [by apply (proj1 Hd 0)|done]|]. cbv beta iota zeta.
    set (s := setFieldV256 _ _ _). assert (Hps : page_sle 0 [key] 0 0 s).
    { apply (set_indexes _ _ _ []), described; [done|]. by split. }
    assert (Hks : sle_key s = pk 0) by apply Hps. clearbody s.
    eapply ends_bind; [apply ends_insert; [rewrite Hks; by apply Hd|by rewrite Hks]|]. intros l.
    eapply ends_mono; [done|apply ends_ret|]. cbn. intros r w [-> Hw]. split; [done|]. eexists. split; [exact Hw|]. rewrite Hks.
    split; [by apply dir_at_create|by apply off_pages_insert]. }
  pose proof (last_no_next _ Hok He) as Hl. set (n := last_no pages) in *.
  destruct (do_root _ Hok He) as [es0 H0]. destruct (dir_page _ _ _ _ _ _ Hok Hat H0) as (s0 & p0 & q0 & Hm0 & Hp0 & Lp & Lq).
  assert (p0 = n) as -> by (by eapply (next_inj _ (dom_pos _ Hok))).
  assert (Hpn : is_Some (pages !! n)) by (apply elem_of_dom, Hl). destruct Hpn as [es Hpn].
  destruct (dir_page _ _ _ _ _ _ Hok Hat Hpn) as (s & p & q & Hmn & Hps & Lp' & Lq'). rewrite Hpn in Hm |- *.
  change (default [] (Some es)) with es in *.
  eapply ends_bind; [apply (ends_peek _ _ _ dir s0); [exact Hm0|by apply (page_check sha512Half root 0 es0 n q0)]|].
  intros o w (rt & -> & _ & Hw). revert w Hw.
  eapply ends_seq; [apply ends_sle, lookup_insert_eq|]. cbv beta zeta. rewrite (ps_prev _ _ _ _ _ _ _ Hp0).
  (* the last page *)
  eapply (ends_bind _ _ _ (λ node w, ∃ H, st w0 m H w ∧ H !! rt = Some s0 ∧ H !! node = Some s)).
  { destruct (Z.eqb_spec n 0) as [Hn0|Hn0].
    - eapply ends_mono; [done|apply ends_ret|]. cbn. intros r w [-> Hw]. eexists. split; [exact Hw|].
      rewrite Hn0 in Hmn. assert (s = s0) as -> by congruence. by rewrite lookup_insert_eq.
    - intros w Hw. destruct (ends_peek_page m _ n es p q s "Directory chain: root back-pointer broken." Hmn Hps w Hw) as (node & w' & Hrun & Hap & Hw').
      exists node, w'. split; [done|]. eexists. split; [exact Hw'|]. split; [|apply lookup_insert_eq].
      rewrite lookup_insert_ne, lookup_insert_eq; [done|]. intros ->.
      assert (Hk : sle_key s0 = sle_key s) by (apply (Hap rt s0); [apply lookup_insert_eq|done]).
      rewrite (ps_key _ _ _ _ _ _ _ Hp0), (ps_key _ _ _ _ _ _ _ Hps) in Hk.
      apply Hn0. symmetry. apply Hd; [done|by eapply do_range|done]. }
  intros node w (H & Hw & Hrt & Hnode). revert w Hw.
  eapply ends_seq; [by apply ends_sle|]. cbv beta zeta. rewrite (ps_indexes _ _ _ _ _ _ _ Hps).
  destruct (Nat.ltb_spec (length es) dirNodeMaxEntries) as [Hlt|Hge].
  - destruct (add_room_ends m H node n es p q s pres key pages Hok Hat Hpn Hmn Hps Hnode Hm) as (es' & He' & Hends).
    eapply ends_mono; [done|exact Hends|]. intros r w Hr. by rewrite He'.
  - assert (Hrn : 0 ≤ n < dirNodeMaxPages) by (by eapply do_range). unfold u64. rewrite Z.mod_small by (unfold dirNodeMaxPages in Hrn; lia).
    destruct (Z.leb_spec dirNodeMaxPages (n + 1)) as [Hfull|Hroom].
    + eapply ends_mono; [done|apply ends_ret|]. cbn. intros r w [-> Hw]. split; [done|]. exists m.
      split_and!; [eapply st_weaken; [exact Hw|apply map_empty_subseteq]|done|done].
    + eapply (add_page_ends m H rt node s0 n es p q s key f pages q0); try done; by rewrite H0.
Qed.
End add.
