(* ===== verification/DirRemove.v ===== *)
(** * Removing from a directory

    [dirRemove] takes the entry out of its page; pages that become empty, other
    than the root, are unlinked, and an empty directory is deleted. *)
From S2P Require Import Prelude Outcome Bytes SHAMapNode LedgerEntry StateTable StateTableSpec Directory DirRing DirAdd.

(** ** The specification *)

(** The page after [n] is the last one and empty. *)
Definition empty_last (pages : gmap Z (list Z)) (n : Z) : bool :=
  let q := next_no pages n in
  negb (q =? 0) && (next_no pages q =? 0) && bool_decide (pages !! q = Some []).

(** Pages to delete when page [n] has become empty. *)
Definition trim (n : Z) (keepRoot : bool) (pages : gmap Z (list Z)) : gmap Z (list Z) :=
  let pages1 := if n =? 0 then pages else delete n pages in
  let pages2 := if empty_last pages n then delete (next_no pages n) pages1 else pages1 in
  if negb keepRoot && bool_decide (pages2 = {[0 := []]}) then ∅ else pages2.

Definition spec_remove (n key : Z) (keepRoot : bool) (pages : gmap Z (list Z)) : bool * gmap Z (list Z) :=
  match pages !! n ≫= erase_first key with
  | None => (false, pages)
  | Some es =>
    (true, if bool_decide (es = []) then trim n keepRoot (<[n := es]> pages) else <[n := es]> pages)
  end.

Lemma erase_first_Some key l l' : erase_first key l = Some l' → l ≡ₚ key :: l'.
Proof.
  revert l'. induction l as [|x l IH]; intros l'; cbn; [done|]. destruct (Z.eqb_spec x key) as [->|]; [by intros [= ->]|].
  destruct (erase_first key l) as [l1|]; cbn; [|done]. intros [= <-]. rewrite (IH l1) by done. apply Permutation_swap.
Qed.

Lemma erase_first_None key l : erase_first key l = None ↔ key ∉ l.
Proof.
  induction l as [|x l IH]; cbn; [split; [intros _ ?%elem_of_nil|]; done|]. rewrite not_elem_of_cons, <- IH.
  destruct (Z.eqb_spec x key) as [->|]; [naive_solver|]. destruct (erase_first key l); cbn; naive_solver.
Qed.

(** Only the page numbers matter for the next page. *)
Lemma next_no_dom pages pages' n : numbered pages → numbered pages' → dom pages = dom pages' → is_Some (pages !! n) → next_no pages n = next_no pages' n.
Proof.
  intros H1 H2 Hdom Hn. pose proof (next_no_next pages n H1 Hn) as N1. apply elem_of_dom in Hn. rewrite Hdom in N1, Hn.
  apply elem_of_dom in Hn. pose proof (next_no_next pages' n H2 Hn) as N2. by eapply next_fun.
Qed.

Lemma numbered_insert pages n es es' : numbered pages → pages !! n = Some es → numbered (<[n := es']> pages).
Proof.
  intros Hn Hp. split.
  - intros x ex [[<- <-]|[_ Hx]]%lookup_insert_Some; by eapply do_range.
  - intros _. destruct (decide (n = 0)) as [->|Hne]; [rewrite lookup_insert_eq; eauto|].
    rewrite lookup_insert_ne by done. apply Hn. intros ->. by rewrite lookup_empty in Hp.
Qed.

Lemma numbered_delete pages n : numbered pages → n ≠ 0 → numbered (delete n pages).
Proof.
  intros Hn H0. split.
  - intros x ex [_ Hx]%lookup_delete_Some. by eapply do_range.
  - intros Hne. rewrite lookup_delete_ne by done. apply Hn. intros ->. apply Hne. by rewrite delete_empty.
Qed.

Lemma only_root (pages : gmap Z (list Z)) : dom pages = {[0]} → pages !! 0 = Some [] → pages = {[0 := []]}.
Proof.
  intros Hd H0. apply map_eq. intros x. destruct (decide (x = 0)) as [->|Hne]; [by rewrite lookup_singleton_eq|].
  rewrite lookup_singleton_ne by done. apply not_elem_of_dom. rewrite Hd. set_solver.
Qed.

(** ** The code *)

Section remove.
Context {S : Type} {AV : ApplyView S} {AVL : ApplyViewLaws S} (w0 : S).
Context (sha512Half : list Z → Z) (root : Z) (Hd : distinct_pages sha512Half root).
Abbreviation pk := (pk sha512Half root).
Abbreviation page_sle := (page_sle sha512Half root).
Abbreviation dir_at := (dir_at sha512Half root).
Abbreviation off_pages := (off_pages sha512Half root).
Abbreviation dir := (mkKeylet ltDIR_NODE root).

(** The outcome of a call that removes: it returns [b], and the ledger holds [pages']. *)
Definition removed (m : gmap Z SLE) (b : bool) (pages' : gmap Z (list Z)) (r : bool) (w : S) : Prop :=
  r = b ∧ ∃ m', st w0 m' ∅ w ∧ dir_at m' pages' ∧ off_pages m m'.

Lemma ends_removed m0 m H b pages' :
  dir_at m pages' → off_pages m0 m → ends (st w0 m H) (mret b) (removed m0 b pages').
Proof.
  intros Hat Hoff w Hw. exists b, w. split; [done|]. split; [done|]. exists m. split_and!; [|done|done].
  eapply st_weaken; [exact Hw|apply map_empty_subseteq].
Qed.

Lemma ends_logic_if m H b what : b = false → ends (st w0 m H) (logic_if b what) (λ r w, r = () ∧ st w0 m H w).
Proof. intros ->. apply ends_lift. Qed.

(** The root is erased where it is the only page and empty. *)
Lemma end_root_ends m0 m H pages node s p q (keepRoot : bool) :
  numbered pages → dir_at m pages → off_pages m0 m → pages !! 0 = Some [] → m !! pk 0 = Some s → page_sle 0 [] p q s →
  is_next (dom pages) p 0 → is_next (dom pages) 0 q → H !! node = Some s →
  ends (st w0 m H) ((if keepRoot then mret true else (if (q =? 0) && (p =? 0) then av_erase node else mret ());; mret true) : ST S bool)
    (removed m0 true (if negb keepRoot && bool_decide (pages = {[0 := []]}) then ∅ else pages)).
Proof using Hd.
  intros Hnum Hat Hoff H0 Hm Hps Lp Lq Hh. destruct keepRoot; [by apply ends_removed|]. cbn [negb andb].
  pose proof (dom_pos _ Hnum) as Hpos. assert (H0d : 0 ∈ dom pages) by (by eapply elem_of_dom_2).
  destruct (Z.eqb_spec q 0) as [->|Hq].
  - assert (p = 0) as -> by (by eapply (next_inj _ Hpos)). cbn [andb].
    assert (Hdom : dom pages = {[0]}) by (by apply (next_root_only _ Hpos 0)).
    rewrite bool_decide_eq_true_2 by (by apply only_root). cbn.
    eapply ends_seq; [by apply ends_erase|]. rewrite (ps_key _ _ _ _ _ _ _ Hps). apply ends_removed.
    + by eapply dir_at_destroy.
    + apply off_pages_delete; [done|apply range_0].
  - cbn [andb]. rewrite bool_decide_eq_false_2.
    2: { intros ->. rewrite dom_singleton_L in Lq. destruct Lq as (_ & ?%elem_of_singleton & _). done. }
    eapply ends_seq; [apply ends_ret|]. by apply ends_removed.
Qed.

(** The page after the root is the last one. *)
Lemma root_next_last pages p q :
  numbered pages → is_next (dom pages) p 0 → is_next (dom pages) 0 q → q ≠ 0 → next_no pages 0 = q ∧ (q = p ↔ next_no pages q = 0).
Proof using.
  intros Hnum Lp Lq Hq. pose proof (dom_pos _ Hnum) as Hpos.
  assert (H0 : is_Some (pages !! 0)) by (apply elem_of_dom, Lq). assert (Hqd : is_Some (pages !! q)) by (apply elem_of_dom, Lq).
  split; [by eapply next_fun; [apply next_no_next|]|]. pose proof (next_no_next _ _ Hnum Hqd) as Ln. split.
  - intros ->. by eapply next_fun.
  - intros Hz. rewrite Hz in Ln. by eapply (next_inj _ Hpos).
Qed.

(** The last page is unlinked from the root. *)
Lemma drop_last_ends {B} m0 m H pages node last s es q sq eq p1 q1 (K : ST S B) Q :
  numbered pages → dir_at m pages → off_pages m0 m → m !! pk 0 = Some s → page_sle 0 es q q s →
  m !! pk q = Some sq → page_sle q eq p1 q1 sq → is_next (dom pages) q 0 → is_next (dom pages) 0 q → q ≠ 0 →
  H !! node = Some s → apart last sq H →
  (∀ m' H', dir_at m' (delete q pages) → off_pages m0 m' →
    let s' := setFieldU64 sfIndexPrevious 0 (setFieldU64 sfIndexNext 0 s) in
    m' !! pk 0 = Some s' → H' !! node = Some s' → ends (st w0 m' H') K Q) →
  ends (st w0 m (<[last := sq]> H)) (av_modify node (setFieldU64 sfIndexPrevious 0 ∘ setFieldU64 sfIndexNext 0);; av_erase last;; K) Q.
Proof using Hd.
  intros Hnum Hat Hoff Hm Hps Hmq Hpsq Lp Lq Hq0 Hh Hap HK. pose proof range_0 as R0.
  assert (Rq : 0 ≤ q < dirNodeMaxPages). { destruct Lq as (_ & [eq' Hq]%elem_of_dom & _). by eapply do_range. }
  assert (Hk : sle_key s = pk 0) by apply Hps. assert (Hkq : sle_key sq = pk q) by apply Hpsq.
  pose proof (pk_ne sha512Half root Hd 0 q R0 Rq (not_eq_sym Hq0)) as Hne.
  assert (Hnl : node ≠ last). { intros ->. apply Hne. rewrite <- Hk, <- Hkq. by apply (Hap last s). }
  eapply ends_seq; [apply ends_modify; [by rewrite lookup_insert_ne by done|done]|].
  eapply ends_seq; [apply ends_erase; rewrite lookup_insert_ne by done; apply lookup_insert_eq|]. rewrite Hk, Hkq. apply HK.
  - eapply (dir_at_unlink sha512Half root Hd m _ pages 0 q 0); [done..|apply lookup_delete_eq|].
    intros x Hx Hxq. rewrite lookup_delete_ne by (by apply pk_ne, not_eq_sym). case_bool_decide as Hx0; [subst x|].
    + by rewrite lookup_insert_eq, Hm.
    + rewrite lookup_insert_ne by (by apply pk_ne, not_eq_sym). by destruct (m !! pk x).
  - apply off_pages_delete; [|done]. by apply off_pages_insert.
  - rewrite lookup_delete_ne by done. apply lookup_insert_eq.
  - rewrite lookup_delete_ne by done. apply lookup_insert_eq.
Qed.

Lemma remove_root_ends m0 m H pages node s keepRoot :
  numbered pages → dir_at m pages → off_pages m0 m → pages !! 0 = Some [] → m !! pk 0 = Some s → H !! node = Some s →
  ends (st w0 m H) (dirRemove_root sha512Half dir node keepRoot) (removed m0 true (trim 0 keepRoot pages)).
Proof using Hd.
  intros Hnum Hat Hoff H0 Hm Hh. pose proof (dom_pos _ Hnum) as Hpos.
  destruct (dir_page _ _ _ _ _ _ Hnum Hat H0) as (s' & p & q & Hm' & Hps & Lp & Lq). assert (s' = s) as -> by congruence.
  unfold dirRemove_root. eapply ends_seq; [by apply ends_sle|]. cbv beta zeta.
  rewrite (ps_prev _ _ _ _ _ _ _ Hps), (ps_next _ _ _ _ _ _ _ Hps).
  assert (Hpq : q = 0 ↔ p = 0).
  { split; intros ->; [by eapply (next_inj _ Hpos)|by eapply next_fun]. }
  eapply ends_seq; [apply ends_logic_if; apply andb_false_iff; destruct (Z.eqb_spec q 0), (Z.eqb_spec p 0); cbn; naive_solver|].
  eapply ends_seq; [apply ends_logic_if; apply andb_false_iff; destruct (Z.eqb_spec q 0), (Z.eqb_spec p 0); cbn; naive_solver|].
  unfold trim. cbn [Z.eqb]. destruct (Z.eqb_spec q 0) as [Hq0|Hq0].
  { (* the root is the only page *)
    rewrite andb_false_r. eapply ends_seq; [apply ends_ret|]. cbn.
    assert (next_no pages 0 = 0) as Hn0. { subst q. eapply next_fun; [apply next_no_next; [done|by eexists]|done]. }
    assert (empty_last pages 0 = false) as -> by (unfold empty_last; by rewrite Hn0).
    by eapply end_root_ends. }
  destruct (root_next_last _ _ _ Hnum Lp Lq Hq0) as [Hn Hlast]. unfold empty_last. rewrite Hn.
  rewrite (proj2 (Z.eqb_neq q 0)) by done. cbn [negb andb]. destruct (Z.eqb_spec q p) as [Hqp|Hqp].
  - (* there is one more page *)
    rewrite (proj2 (Z.eqb_eq _ _)) by (by apply Hlast). cbn [andb]. subst p.
    assert (Hpq' : is_Some (pages !! q)) by (apply elem_of_dom, Lq). destruct Hpq' as [eq Heq].
    destruct (dir_page _ _ _ _ _ _ Hnum Hat Heq) as (sq & p1 & q1 & Hmq & Hpsq & Lp1 & Lq1).
    rewrite Heq. eapply (ends_bind _ _ _ (λ r w, ∃ m' H' s', r = (if bool_decide (eq = []) then (0, 0) else (q, q)) ∧
      st w0 m' H' w ∧ dir_at m' (if bool_decide (eq = []) then delete q pages else pages) ∧ off_pages m0 m' ∧
      m' !! pk 0 = Some s' ∧ page_sle 0 [] r.1 r.2 s' ∧ H' !! node = Some s')).
    { eapply ends_bind; [by eapply ends_peek_page|]. intros last w [Hap Hw]. revert w Hw.
      eapply ends_seq; [apply ends_sle, lookup_insert_eq|]. cbv beta. rewrite (ps_indexes _ _ _ _ _ _ _ Hpsq).
      case_bool_decide as He.
      - eapply drop_last_ends; try done. cbv zeta. intros m' H' Hat' Hoff' Hm1 Hh1. eapply ends_mono; [done|apply ends_ret|].
        intros r w [-> Hw]. eexists m', H', _. split_and!; try done. by eapply set_prev, set_next.
      - eapply ends_mono; [done|apply ends_ret|]. intros r w [-> Hw]. eexists m, _, s. split_and!; try done.
        rewrite lookup_insert_ne; [done|]. intros ->. assert (Hk : sle_key s = sle_key sq) by (by apply (Hap node s)).
        rewrite (ps_key _ _ _ _ _ _ _ Hps), (ps_key _ _ _ _ _ _ _ Hpsq) in Hk.
        apply Hq0. symmetry. apply Hd; [apply range_0|by eapply do_range|done]. }
    intros r w (m' & H' & s' & -> & Hw & Hat' & Hoff' & Hm1 & Hps' & Hh'). revert w Hw.
    assert (Hb : bool_decide (Some eq = Some []) = bool_decide (eq = [])) by (apply bool_decide_ext; naive_solver). rewrite Hb.
    clear Hb. case_bool_decide as He; cbv beta iota.
    + eapply end_root_ends; try done; [by apply numbered_delete|by rewrite lookup_delete_ne|..];
        rewrite dom_delete_L; exact (proj1 (next_delete _ Hpos 0 q 0 Lq Lp Hq0 (elem_of_dom_2 _ _ _ H0))).
    + by eapply end_root_ends.
  - rewrite (proj2 (Z.eqb_neq (next_no pages q) 0)) by (intros Hz; by apply Hqp, Hlast). cbn [andb].
    eapply ends_seq; [apply ends_ret|]. cbv beta iota. by eapply end_root_ends.
Qed.

(** A page other than the root is unlinked and erased. *)
Lemma unlink_ends {B} m0 m H pages n es p q s node w1 w2 (K : loc → loc → ST S B) Q :
  numbered pages → dir_at m pages → off_pages m0 m → m !! pk n = Some s → page_sle n es p q s →
  is_next (dom pages) p n → is_next (dom pages) n q → n ≠ 0 → H !! node = Some s →
  (∀ prev next m' H' sp sq, dir_at m' (delete n pages) → off_pages m0 m' → m' !! pk p = Some sp → m' !! pk q = Some sq →
    H' !! prev = Some sp → H' !! next = Some sq → ends (st w0 m' H') (K prev next) Q) →
  ends (st w0 m H)
    (prev ← peek_page sha512Half dir p w1;
     av_modify prev (setFieldU64 sfIndexNext q);;
     next ← peek_page sha512Half dir q w2;
     av_modify next (setFieldU64 sfIndexPrevious p);;
     av_erase node;;
     K prev next) Q.
Proof using Hd.
  intros Hnum Hat Hoff Hm Hps Lp Lq Hn0 Hh HK.
  assert (Hr : ∀ x, x ∈ dom pages → 0 ≤ x < dirNodeMaxPages) by (intros x [ex Hx]%elem_of_dom; by eapply do_range).
  assert (Rn : 0 ≤ n < dirNodeMaxPages) by apply Hr, Lq. assert (Rp : 0 ≤ p < dirNodeMaxPages) by apply Hr, Lp.
  assert (Rq : 0 ≤ q < dirNodeMaxPages) by apply Hr, Lq.
  assert (Hpn : p ≠ n) by (intros ->; by eapply next_irrefl). assert (Hqn : q ≠ n) by (intros ->; by eapply next_irrefl).
  pose proof (pk_ne sha512Half root Hd p n Rp Rn Hpn) as Kpn. pose proof (pk_ne sha512Half root Hd q n Rq Rn Hqn) as Kqn.
  destruct (proj1 (elem_of_dom _ _) (proj1 Lp)) as [ep Hep]. destruct (proj1 (elem_of_dom _ _) (proj1 (proj2 Lq))) as [eq Heq].
  destruct (dir_page _ _ _ _ _ _ Hnum Hat Hep) as (sp & pp & pq & Hmp & Hpsp & _ & _).
  destruct (dir_page _ _ _ _ _ _ Hnum Hat Heq) as (sq & qp & qq & Hmq & Hpsq & _ & _).
  assert (Hks : sle_key s = pk n) by apply Hps. assert (Hkp : sle_key sp = pk p) by apply Hpsp. assert (Hkq : sle_key sq = pk q) by apply Hpsq.
  eapply ends_bind; [by eapply ends_peek_page|]. intros prev w [Hap Hw]. revert w Hw.
  assert (Hprev : prev ≠ node) by (intros ->; apply Kpn; rewrite <- Hks, <- Hkp; symmetry; by apply (Hap node s)).
  eapply ends_seq; [apply ends_modify; [apply lookup_insert_eq|done]|]. rewrite Hkp. set (sp1 := setFieldU64 sfIndexNext q sp).
  rewrite insert_insert_eq. pose (sq1 := if decide (p = q) then sp1 else sq).
  assert (Hmq1 : <[pk p := sp1]> m !! pk q = Some sq1).
  { unfold sq1. destruct (decide (p = q)) as [->|Hpq]; [apply lookup_insert_eq|]. by rewrite lookup_insert_ne by (by apply pk_ne). }
  assert (Hpsq1 : ∃ e1 p1 q1, page_sle q e1 p1 q1 sq1).
  { unfold sq1. destruct (decide (p = q)) as [->|Hpq]; [|by eauto]. do 3 eexists. by apply (set_next sha512Half root q ep pp pq). }
  destruct Hpsq1 as (e1 & p1 & q1 & Hpsq1). assert (Hkq1 : sle_key sq1 = pk q) by apply Hpsq1.
  eapply ends_bind; [by eapply ends_peek_page|]. intros next w [Haq Hw]. revert w Hw.
  assert (Hnext : next ≠ node).
  { intros ->. apply Kqn. rewrite <- Hks, <- Hkq1. symmetry. apply (Haq node s); [|done]. by rewrite lookup_insert_ne. }
  assert (Hpn' : prev = next ↔ p = q).
  { rewrite (Haq prev sp1) by apply lookup_insert_eq. change (sle_key sp1) with (sle_key sp). rewrite Hkp, Hkq1.
    split; [by apply Hd|by intros ->]. }
  eapply ends_seq; [apply ends_modify; [apply lookup_insert_eq|done]|]. rewrite Hkq1, insert_insert_eq.
  eapply ends_seq; [apply ends_erase; by rewrite !lookup_insert_ne|]. rewrite Hks. set (sq2 := setFieldU64 sfIndexPrevious p sq1).
  apply (HK prev next _ _ (if decide (p = q) then sq2 else sp1) sq2).
  - eapply (dir_at_unlink sha512Half root Hd m _ pages p n q); [done..|apply lookup_delete_eq|].
    intros x Hx Hxn. rewrite lookup_delete_ne by (by apply pk_ne, not_eq_sym). destruct (decide (x = q)) as [->|Hxq].
    + rewrite lookup_insert_eq, Hmq. cbn. rewrite (bool_decide_eq_true_2 (q = q)) by done. unfold sq2, sq1.
      destruct (decide (p = q)) as [->|Hpq]; [rewrite bool_decide_eq_true_2 by done; unfold sp1; congruence|].
      by rewrite bool_decide_eq_false_2 by congruence.
    + rewrite lookup_insert_ne by (by apply pk_ne, not_eq_sym). rewrite (bool_decide_eq_false_2 (x = q)) by done.
      case_bool_decide as Hxp; [subst x; by rewrite lookup_insert_eq, Hmp|].
      rewrite lookup_insert_ne by (by apply pk_ne, not_eq_sym). by destruct (m !! pk x).
  - apply off_pages_delete; [|done]. by do 2 (apply off_pages_insert; [|done]).
  - rewrite lookup_delete_ne by done. destruct (decide (p = q)) as [->|Hpq]; [apply lookup_insert_eq|].
    rewrite lookup_insert_ne by (by apply pk_ne, not_eq_sym). apply lookup_insert_eq.
  - rewrite lookup_delete_ne by done. apply lookup_insert_eq.
  - rewrite lookup_delete_ne by done. destruct (decide (p = q)) as [Hpq|Hpq].
    + rewrite (proj2 Hpn' Hpq). apply lookup_insert_eq.
    + rewrite lookup_insert_ne by naive_solver. apply lookup_insert_eq.
  - rewrite lookup_delete_ne by done. apply lookup_insert_eq.
Qed.

Lemma end_prev_ends m0 m H pages prev sp p nx (keepRoot : bool) :
  numbered pages → dir_at m pages → off_pages m0 m → m !! pk p = Some sp → is_next (dom pages) p nx → H !! prev = Some sp →
  ends (st w0 m H)
    (((if negb keepRoot && (nx =? 0) && (p =? 0) then
        pr ← av_sle prev; if bool_decide (getFieldV256 sfIndexes pr = []) then av_erase prev else mret ()
      else mret ());; mret true) : ST S bool)
    (removed m0 true (if negb keepRoot && bool_decide (pages = {[0 := []]}) then ∅ else pages)).
Proof using Hd.
  intros Hnum Hat Hoff Hm Lp Hh. destruct keepRoot; cbn [negb andb]; [eapply ends_seq; [apply ends_ret|]; by apply ends_removed|].
  pose proof (dom_pos _ Hnum) as Hpos. destruct (proj1 (elem_of_dom _ _) (proj1 Lp)) as [ep Hep].
  destruct (dir_page _ _ _ _ _ _ Hnum Hat Hep) as (s' & pp & pq & Hm' & Hps & _ & _). assert (s' = sp) as -> by congruence.
  assert (Hskip : pages ≠ {[0 := []]} → ends (st w0 m H) (mret ();; mret true) (removed m0 true pages)).
  { intros _. eapply ends_seq; [apply ends_ret|]. by apply ends_removed. }
  destruct (Z.eqb_spec nx 0) as [->|Hnx].
  2: { rewrite bool_decide_eq_false_2; [apply Hskip|]; intros ->; rewrite dom_singleton_L in Lp;
       destruct Lp as (_ & ?%elem_of_singleton & _); done. }
  destruct (Z.eqb_spec p 0) as [->|Hp0]; cbn [andb].
  2: { rewrite bool_decide_eq_false_2; [apply Hskip|]; intros ->; rewrite dom_singleton_L in Lp;
       destruct Lp as (?%elem_of_singleton & _); done. }
  assert (Hdom : dom pages = {[0]}) by (apply (next_root_only _ Hpos 0); [apply Lp|done|done]).
  eapply (ends_bind _ _ _ (λ _ w, ∃ m', st w0 m' ∅ w ∧
    dir_at m' (if bool_decide (pages = {[0 := []]}) then ∅ else pages) ∧ off_pages m0 m')).
  2: { intros [] w Hw. by exists true, w. }
  eapply ends_seq; [by apply ends_sle|]. cbv beta. rewrite (ps_indexes _ _ _ _ _ _ _ Hps). case_bool_decide as He; [subst ep|].
  - rewrite bool_decide_eq_true_2 by (by apply only_root). eapply ends_mono; [done|by apply ends_erase|].
    intros a w [_ Hw]. rewrite (ps_key _ _ _ _ _ _ _ Hps) in Hw. eexists. split; [eapply st_weaken; [exact Hw|apply map_empty_subseteq]|].
    split; [by eapply dir_at_destroy|]. apply off_pages_delete; [done|apply range_0].
  - rewrite bool_decide_eq_false_2 by (intros ->; rewrite lookup_singleton_eq in Hep; congruence).
    eapply ends_mono; [done|apply ends_ret|]. intros a w [_ Hw]. exists m.
    split; [eapply st_weaken; [exact Hw|apply map_empty_subseteq]|done].
Qed.

(** The empty last page is erased, and the page before it becomes the last. *)
Lemma drop_next_ends {B} m0 m H pages p q sp sq prev next w3 (K : ST S B) Q :
  numbered pages → dir_at m pages → off_pages m0 m → m !! pk p = Some sp → m !! pk q = Some sq →
  is_next (dom pages) p q → is_next (dom pages) q 0 → q ≠ 0 → H !! prev = Some sp → H !! next = Some sq →
  (∀ m' H' sp', dir_at m' (delete q pages) → off_pages m0 m' → m' !! pk p = Some sp' → H' !! prev = Some sp' →
    ends (st w0 m' H') K Q) →
  ends (st w0 m H)
    (av_erase next;;
     av_modify prev (setFieldU64 sfIndexNext 0);;
     root ← peek_page sha512Half dir 0 w3;
     av_modify root (setFieldU64 sfIndexPrevious p);;
     K) Q.
Proof using Hd.
  intros Hnum Hat Hoff Hmp Hmq Lp Lq Hq0 Hprev Hnext HK. pose proof range_0 as R0.
  assert (Hr : ∀ x, x ∈ dom pages → 0 ≤ x < dirNodeMaxPages) by (intros x [ex Hx]%elem_of_dom; by eapply do_range).
  assert (Rp : 0 ≤ p < dirNodeMaxPages) by apply Hr, Lp. assert (Rq : 0 ≤ q < dirNodeMaxPages) by apply Hr, Lq.
  assert (Hpq : p ≠ q) by (intros ->; by eapply next_irrefl).
  pose proof (pk_ne sha512Half root Hd p q Rp Rq Hpq) as Kpq.
  pose proof (pk_ne sha512Half root Hd 0 q R0 Rq (not_eq_sym Hq0)) as K0q.
  destruct (proj1 (elem_of_dom _ _) (proj1 Lp)) as [ep Hep]. destruct (proj1 (elem_of_dom _ _) (proj1 Lq)) as [eq Heq].
  destruct (proj1 (elem_of_dom _ _) (proj1 (proj2 Lq))) as [e0 He0].
  destruct (dir_page _ _ _ _ _ _ Hnum Hat Hep) as (s1 & pp & pq & Hmp' & Hpsp & _ & _). assert (s1 = sp) as -> by congruence.
  destruct (dir_page _ _ _ _ _ _ Hnum Hat Heq) as (s1 & qp & qq & Hmq' & Hpsq & _ & _). assert (s1 = sq) as -> by congruence.
  destruct (dir_page _ _ _ _ _ _ Hnum Hat He0) as (s0 & p0 & q0 & Hm0 & Hps0 & _ & _).
  assert (Hkp : sle_key sp = pk p) by apply Hpsp. assert (Hkq : sle_key sq = pk q) by apply Hpsq.
  assert (Hnp : prev ≠ next) by (intros ->; congruence).
  eapply ends_seq; [by apply ends_erase|]. rewrite Hkq.
  eapply ends_seq; [apply ends_modify; [by rewrite lookup_delete_ne|done]|]. rewrite Hkp. set (sp1 := setFieldU64 sfIndexNext 0 sp).
  pose (r1 := if decide (p = 0) then sp1 else s0).
  assert (Hr1 : <[pk p := sp1]> (delete (pk q) m) !! pk 0 = Some r1).
  { unfold r1. destruct (decide (p = 0)) as [->|Hp0]; [apply lookup_insert_eq|].
    rewrite lookup_insert_ne, lookup_delete_ne by (first [done|by apply pk_ne]). done. }
  assert (Hpr : ∃ er pr qr, page_sle 0 er pr qr r1).
  { unfold r1. destruct (decide (p = 0)) as [->|Hp0]; [|by eauto]. do 3 eexists. by apply (set_next sha512Half root 0 ep pp pq). }
  destruct Hpr as (er & pr & qr & Hpr). assert (Hk1 : sle_key r1 = pk 0) by apply Hpr.
  eapply ends_bind; [by eapply ends_peek_page|]. intros rt w [Hap Hw]. revert w Hw.
  assert (Hrt : prev = rt ↔ p = 0).
  { rewrite (Hap prev sp1) by (by rewrite lookup_insert_eq). change (sle_key sp1) with (sle_key sp). rewrite Hkp, Hk1.
    split; [by apply Hd|by intros ->]. }
  eapply ends_seq; [apply ends_modify; [apply lookup_insert_eq|done]|]. rewrite Hk1, insert_insert_eq.
  set (r2 := setFieldU64 sfIndexPrevious p r1). apply (HK _ _ (if decide (p = 0) then r2 else sp1)).
  - eapply (dir_at_unlink sha512Half root Hd m _ pages p q 0); [done..| |].
    + by rewrite !lookup_insert_ne, lookup_delete_eq by done.
    + intros x Hx Hxq. destruct (decide (x = 0)) as [->|Hx0].
      * rewrite lookup_insert_eq, Hm0. cbn. rewrite (bool_decide_eq_true_2 (0 = 0)) by done. unfold r2, r1.
        destruct (decide (p = 0)) as [->|Hp0]; [rewrite bool_decide_eq_true_2 by done; unfold sp1; congruence|].
        by rewrite bool_decide_eq_false_2 by congruence.
      * rewrite lookup_insert_ne by (by apply pk_ne, not_eq_sym). rewrite (bool_decide_eq_false_2 (x = 0)) by done.
        case_bool_decide as Hxp; [subst x; by rewrite lookup_insert_eq, Hmp|].
        rewrite lookup_insert_ne, lookup_delete_ne by (by apply pk_ne, not_eq_sym). by destruct (m !! pk x).
  - do 2 (apply off_pages_insert; [|done]). by apply off_pages_delete.
  - destruct (decide (p = 0)) as [->|Hp0]; [apply lookup_insert_eq|].
    rewrite lookup_insert_ne by (by apply pk_ne, not_eq_sym). apply lookup_insert_eq.
  - destruct (decide (p = 0)) as [Hp0|Hp0].
    + rewrite (proj2 Hrt Hp0). apply lookup_insert_eq.
    + rewrite lookup_insert_ne by naive_solver. apply lookup_insert_eq.
Qed.

Lemma remove_page_ends m0 m H pages node n s keepRoot :
  numbered pages → dir_at m pages → off_pages m0 m → pages !! n = Some [] → m !! pk n = Some s → H !! node = Some s → n ≠ 0 →
  ends (st w0 m H) (dirRemove_page sha512Half dir n node keepRoot) (removed m0 true (trim n keepRoot pages)).
Proof using Hd.
  intros Hnum Hat Hoff Hn Hm Hh Hn0. pose proof (dom_pos _ Hnum) as Hpos.
  destruct (dir_page _ _ _ _ _ _ Hnum Hat Hn) as (s' & p & q & Hm' & Hps & Lp & Lq). assert (s' = s) as -> by congruence.
  assert (H0 : 0 ∈ dom pages). { apply elem_of_dom, Hnum. intros ->. by rewrite lookup_empty in Hn. }
  assert (Hpn : p ≠ n) by (intros ->; by eapply next_irrefl). assert (Hqn : q ≠ n) by (intros ->; by eapply next_irrefl).
  assert (Hnext : next_no pages n = q) by (eapply next_fun; [apply next_no_next; [done|by eexists]|done]).
  destruct (next_delete _ Hpos p n q Lp Lq Hn0 H0) as [N1 N2]. rewrite <- (dom_delete_L pages) in N1, N2.
  pose proof (numbered_delete _ _ Hnum Hn0) as Hnum'. pose proof (dom_pos _ Hnum') as Hpos'.
  unfold dirRemove_page. eapply ends_seq; [by apply ends_sle|]. cbv beta zeta.
  rewrite (ps_prev _ _ _ _ _ _ _ Hps), (ps_next _ _ _ _ _ _ _ Hps).
  eapply ends_seq; [by apply ends_logic_if, Z.eqb_neq|]. eapply ends_seq; [by apply ends_logic_if, Z.eqb_neq|].
  eapply (unlink_ends m0 m H pages n [] p q s node); try done. intros prev next m' H' sp sq Hat' Hoff' Hmp Hmq Hprev Hnx.
  eapply ends_seq; [by apply ends_sle|]. cbv beta.
  unfold trim. rewrite (proj2 (Z.eqb_neq n 0)) by done. unfold empty_last. rewrite Hnext.
  destruct (proj1 (elem_of_dom _ _) (proj1 (proj2 N1))) as [eq Heq].
  destruct (dir_page _ _ _ _ _ _ Hnum' Hat' Heq) as (s1 & qp & qq & Hmq' & Hpsq & _ & Lqq). assert (s1 = sq) as -> by congruence.
  rewrite (ps_next _ _ _ _ _ _ _ Hpsq), (ps_indexes _ _ _ _ _ _ _ Hpsq).
  assert (Hpq : pages !! q = Some eq) by (by rewrite lookup_delete_ne in Heq). rewrite Hpq.
  destruct (Z.eqb_spec q 0) as [Hq0|Hq0]; cbn [negb andb].
  { eapply ends_seq; [apply ends_ret|]. by eapply end_prev_ends. }
  assert (Hqq : next_no pages q = qq).
  { eapply next_fun; [|exact Lqq]. pose proof (next_no_next pages q Hnum ltac:(by eexists)) as Ln.
    apply N2; [done|done|]. intros Heqn. rewrite Heqn in Ln. destruct Ln as (_ & _ & [[Hlt _]|[? _]]); [|done].
    destruct Lq as (_ & _ & [[Hlt' _]|[? _]]); [lia|done]. }
  rewrite Hqq. assert (Hb : bool_decide (Some eq = Some []) = bool_decide (eq = [])) by (apply bool_decide_ext; naive_solver).
  rewrite Hb. clear Hb. destruct ((qq =? 0) && bool_decide (eq = [])) eqn:Hdrop.
  - apply andb_true_iff in Hdrop as [->%Z.eqb_eq He].
    eapply (ends_bind _ _ _ (λ r w, ∃ m' H' sp', r = 0 ∧ st w0 m' H' w ∧ dir_at m' (delete q (delete n pages)) ∧ off_pages m0 m' ∧
      m' !! pk p = Some sp' ∧ H' !! prev = Some sp')).
    { eapply (drop_next_ends m0 m' H' (delete n pages) p q sp sq prev next); try done. intros m2 H2 sp2 ????. eapply ends_mono; [done|apply ends_ret|].
      intros r w [-> Hw]. by exists m2, H2, sp2. }
    intros r w (m2 & H2 & sp2 & -> & Hw & Hat2 & Hoff2 & Hmp2 & Hh2). revert w Hw.
    eapply end_prev_ends; try done; [by apply numbered_delete|]. rewrite dom_delete_L.
    refine (proj1 (next_delete _ Hpos' p q 0 N1 Lqq Hq0 _)). rewrite dom_delete_L. set_solver.
  - eapply ends_seq; [apply ends_ret|]. by eapply end_prev_ends.
Qed.

Lemma dirRemove_ends m pages n key keepRoot :
  numbered pages → dir_at m pages → 0 ≤ n < dirNodeMaxPages →
  ends (st w0 m ∅) (dirRemove sha512Half dir n key keepRoot)
    (removed m (spec_remove n key keepRoot pages).1 (spec_remove n key keepRoot pages).2).
Proof using Hd.
  intros Hnum Hat Hr. unfold dirRemove, spec_remove. eapply ends_seq; [apply ends_lift|].
  destruct (pages !! n) as [es|] eqn:Hn; cbn [mbind option_bind].
  2: { pose proof (Hat n Hr) as Hnone. rewrite Hn in Hnone. eapply ends_seq; [apply ends_peek_none; [by apply Hd|done]|]. by apply ends_removed. }
  destruct (dir_page _ _ _ _ _ _ Hnum Hat Hn) as (s & p & q & Hm & Hps & Lp & Lq).
  eapply ends_bind; [eapply ends_peek; [exact Hm|by eapply page_check]|]. intros o w (node & -> & _ & Hw). revert w Hw.
  eapply ends_seq; [apply ends_sle, lookup_insert_eq|]. cbv beta. rewrite (ps_indexes _ _ _ _ _ _ _ Hps).
  destruct (erase_first key es) as [es'|] eqn:He; [|by apply ends_removed].
  eapply ends_seq; [apply ends_modify; [apply lookup_insert_eq|done]|]. rewrite (ps_key _ _ _ _ _ _ _ Hps).
  pose proof (numbered_insert _ n es es' Hnum Hn) as Hnum'.
  pose proof (dir_at_entries sha512Half root Hd m pages n es es' s Hnum Hat Hn Hm) as Hat'.
  assert (Hoff : off_pages m (<[pk n := setFieldV256 sfIndexes es' s]> m)) by (by apply off_pages_insert).
  case_bool_decide as Hes; cbn [negb fst snd]; [subst es'|by apply ends_removed].
  destruct (Z.eqb_spec n 0) as [->|Hn0].
  - by eapply remove_root_ends; try done; rewrite ?lookup_insert_eq.
  - by eapply remove_page_ends; try done; rewrite ?lookup_insert_eq.
Qed.

(** ** Deleting an empty directory *)

(** The cases of the code, on pages; LedgerClaims.v compares them with what the
    documentation promises. *)
Definition spec_delete (pages : gmap Z (list Z)) : bool * gmap Z (list Z) :=
  match pages !! 0 with
  | Some [] =>
    let q := next_no pages 0 in
    if q =? 0 then (true, ∅)
    else if next_no pages q =? 0 then if bool_decide (pages !! q = Some []) then (true, ∅) else (false, pages)
    else (true, pages)
  | _ => (false, pages)
  end.

Lemma emptyDirDelete_ends m pages :
  numbered pages → dir_at m pages →
  ends (st w0 m ∅) (emptyDirDelete sha512Half dir) (removed m (spec_delete pages).1 (spec_delete pages).2).
Proof using Hd.
  intros Hnum Hat. pose proof range_0 as R0. pose proof (dom_pos _ Hnum) as Hpos. unfold emptyDirDelete, spec_delete.
  destruct (pages !! 0) as [es|] eqn:Hn.
  2: { pose proof (Hat 0 R0) as Hnone. rewrite Hn in Hnone. eapply ends_seq; [apply ends_peek_none; [by apply (proj1 Hd 0)|done]|]. by apply ends_removed. }
  destruct (dir_page _ _ _ _ _ _ Hnum Hat Hn) as (s & p & q & Hm & Hps & Lp & Lq).
  eapply ends_bind; [apply (ends_peek _ _ _ dir s); [exact Hm|by apply (page_check sha512Half root 0 es p q)]|].
  intros o w (node & -> & _ & Hw). revert w Hw.
  eapply ends_seq; [apply ends_sle, lookup_insert_eq|]. cbv beta. rewrite (ps_indexes _ _ _ _ _ _ _ Hps), (ps_root _ _ _ _ _ _ _ Hps).
  cbn [k_type k_key]. rewrite !Z.eqb_refl. cbn [negb orb]. destruct es as [|e es]; [|by apply ends_removed].
  rewrite bool_decide_eq_true_2 by done. cbn [negb]. cbv zeta. rewrite (ps_prev _ _ _ _ _ _ _ Hps), (ps_next _ _ _ _ _ _ _ Hps).
  assert (Hpq : q = 0 ↔ p = 0).
  { split; intros ->; [by eapply (next_inj _ Hpos)|by eapply next_fun]. }
  eapply ends_seq; [apply ends_logic_if; apply andb_false_iff; destruct (Z.eqb_spec q 0), (Z.eqb_spec p 0); cbn; naive_solver|].
  eapply ends_seq; [apply ends_logic_if; apply andb_false_iff; destruct (Z.eqb_spec q 0), (Z.eqb_spec p 0); cbn; naive_solver|].
  assert (Hnext : next_no pages 0 = q) by (eapply next_fun; [apply next_no_next; [done|by eexists]|done]). rewrite Hnext.
  destruct (Z.eqb_spec q 0) as [Hq0|Hq0].
  { assert (p = 0) as -> by (by apply Hpq). rewrite andb_false_r, Hq0 in *. cbn [negb andb Z.eqb fst snd].
    assert (Hdom : dom pages = {[0]}) by (by apply (next_root_only _ Hpos 0); [apply Lq|..]).
    eapply ends_seq; [apply ends_erase, lookup_insert_eq|]. rewrite (ps_key _ _ _ _ _ _ _ Hps). apply ends_removed; [by eapply dir_at_destroy|].
    by apply off_pages_delete. }
  destruct (root_next_last _ _ _ Hnum Lp Lq Hq0) as [_ Hlast]. rewrite andb_true_r.
  destruct (Z.eqb_spec q p) as [<-|Hqp].
  - rewrite (proj2 (Z.eqb_eq (next_no pages q) 0)) by (by apply Hlast).
    destruct (proj1 (elem_of_dom _ _) (proj1 Lp)) as [eq Heq]. rewrite Heq.
    destruct (dir_page _ _ _ _ _ _ Hnum Hat Heq) as (sq & qp & qq & Hmq & Hpsq & _ & _).
    eapply ends_bind; [by eapply ends_peek_page|]. intros last w [Hap Hw]. revert w Hw.
    eapply ends_seq; [apply ends_sle, lookup_insert_eq|]. cbv beta. rewrite (ps_indexes _ _ _ _ _ _ _ Hpsq).
    destruct eq as [|e eq]; [|by apply ends_removed]. rewrite !bool_decide_eq_true_2 by done. cbn [negb].
    eapply drop_last_ends; try done; [apply lookup_insert_eq|]. cbv zeta. intros m' H' Hat' Hoff' Hm1 Hh1.
    eapply ends_seq; [by apply ends_erase|].
    change (sle_key (setFieldU64 sfIndexPrevious 0 (setFieldU64 sfIndexNext 0 s))) with (sle_key s).
    rewrite (ps_key _ _ _ _ _ _ _ Hps). apply ends_removed; [|by apply off_pages_delete].
    apply (dir_at_destroy sha512Half root Hd m' (delete q pages)); [done|].
    assert (H0q : 0 ∈ dom pages ∖ {[q]}) by (apply elem_of_difference; split; [apply Lq|set_solver]). rewrite dom_delete_L.
    apply (next_root_only _ (λ c Hc, Hpos c (proj1 (proj1 (elem_of_difference _ _ _) Hc))) 0 H0q); [|done].
    exact (proj1 (next_delete _ Hpos 0 q 0 Lq Lp Hq0 (proj1 Lq))).
  - rewrite (proj2 (Z.eqb_neq (next_no pages q) 0)) by (intros Hz; by apply Hqp, Hlast). cbn [andb fst snd].
    eapply ends_seq; [apply ends_ret|]. by apply ends_removed.
Qed.
End remove.
