(* ===== verification/DirSpec.v ===== *)
(** * What a directory contains

    Every sequence of calls on a directory is a sequence of changes of its pages,
    which keep the directory well formed and its entries as a multiset; the loops
    over a directory visit every entry once, page by page. *)
From S2P Require Import Prelude Outcome Bytes SHAMapNode LedgerEntry StateTable StateTableSpec Directory DirRing DirAdd DirRemove.

(** ** The entries of the pages *)

Definition contents (pages : gmap Z (list Z)) : list Z := concat (ascending pages).*2.

Lemma contents_perm pages : contents pages ≡ₚ concat (map_to_list pages).*2.
Proof. unfold contents. by rewrite ascending_perm. Qed.

Lemma contents_insert pages n es : pages !! n = None → contents (<[n := es]> pages) ≡ₚ es ++ contents pages.
Proof. intros Hn. rewrite !contents_perm, map_to_list_insert by done. done. Qed.

Lemma contents_delete pages n es : pages !! n = Some es → contents pages ≡ₚ es ++ contents (delete n pages).
Proof.
  intros Hn. rewrite <- (insert_delete_id pages n es) at 1 by done. apply contents_insert, lookup_delete_eq.
Qed.

Lemma contents_replace pages n es es' :
  pages !! n = Some es → contents (<[n := es']> pages) ≡ₚ es' ++ contents (delete n pages).
Proof. intros Hn. rewrite <- insert_delete_eq. apply contents_insert, lookup_delete_eq. Qed.

Lemma add_contents pres key pages :
  numbered pages → may_add key pages = true →
  match (spec_add pres key pages).1 with
  | Some n =>
    contents (spec_add pres key pages).2 ≡ₚ key :: contents pages ∧ ∃ es, (spec_add pres key pages).2 !! n = Some es ∧ key ∈ es
  | None => (spec_add pres key pages).2 = pages
  end.
Proof.
  intros Hnum Hm%bool_decide_eq_true. unfold spec_add. case_bool_decide as He.
  { subst. cbn. split; [done|]. exists [key]. rewrite lookup_singleton_eq. set_solver. }
  pose proof (last_no_next _ Hnum He) as (Hl & _ & Hmax). apply elem_of_dom in Hl as [es Hl]. rewrite Hl in Hm |- *.
  change (default [] (Some es)) with es in *.
  destruct (Nat.ltb_spec (length es) dirNodeMaxEntries) as [Hlt|Hge].
  - destruct (add_entry_ok pres key es Hm) as (es' & -> & Hperm). cbn [fst snd]. split.
    + rewrite (contents_replace _ _ _ _ Hl), (contents_delete _ _ _ Hl), Hperm. done.
    + exists es'. rewrite lookup_insert_eq. split; [done|]. rewrite Hperm. set_solver.
  - destruct (Z.leb_spec dirNodeMaxPages (last_no pages + 1)) as [Hfull|Hroom]; [done|]. cbn [fst snd]. split.
    + rewrite contents_insert; [done|]. apply not_elem_of_dom. intros Hin. destruct Hmax as [[Hlt _]|[_ Hmax]].
      * pose proof (do_range _ Hnum _ _ Hl). lia.
      * specialize (Hmax _ Hin). lia.
    + exists [key]. rewrite lookup_insert_eq. set_solver.
Qed.

(** The call fails only where the last page is full and no number is left. *)
Lemma add_full pres key pages :
  numbered pages → may_add key pages = true → (spec_add pres key pages).1 = None ↔
    last_no pages = dirNodeMaxPages - 1 ∧ (dirNodeMaxEntries ≤ length (default [] (pages !! last_no pages)))%nat.
Proof.
  intros Hnum Hm%bool_decide_eq_true. unfold spec_add. case_bool_decide as He.
  { subst. cbn [fst]. split; [done|]. change (last_no ∅) with 0. intros [? _]. unfold dirNodeMaxPages in *. lia. }
  pose proof (last_no_next _ Hnum He) as (Hl & _ & Hmax). apply elem_of_dom in Hl as [es Hl]. rewrite Hl in Hm |- *.
  change (default [] (Some es)) with es in *. pose proof (do_range _ Hnum _ _ Hl).
  destruct (Nat.ltb_spec (length es) dirNodeMaxEntries) as [Hlt|Hge].
  - destruct (add_entry_ok pres key es Hm) as (es' & -> & Hperm). cbn. split; [done|lia].
  - destruct (Z.leb_spec dirNodeMaxPages (last_no pages + 1)) as [Hfull|Hroom]; cbn; split; try done; [|lia]. intros _. split; [lia|done].
Qed.

(** What [trim] deletes is empty. *)
Lemma trim_sub n keepRoot pages : trim n keepRoot pages ⊆ pages.
Proof.
  unfold trim. set (p1 := if n =? 0 then pages else delete n pages).
  assert (H1 : p1 ⊆ pages) by (unfold p1; destruct (n =? 0); [done|apply delete_subseteq]).
  set (p2 := if empty_last pages n then delete (next_no pages n) p1 else p1).
  assert (H2 : p2 ⊆ pages) by (unfold p2; destruct (empty_last pages n); [|done]; etrans; [apply delete_subseteq|done]).
  destruct (_ && _); [apply map_empty_subseteq|done].
Qed.

Lemma contents_trim n keepRoot pages : pages !! n = Some [] → contents (trim n keepRoot pages) ≡ₚ contents pages.
Proof.
  intros Hn. unfold trim. set (p1 := if n =? 0 then pages else delete n pages).
  assert (H1 : contents p1 ≡ₚ contents pages).
  { unfold p1. destruct (n =? 0); [done|]. by rewrite (contents_delete _ _ _ Hn). }
  assert (Hsub : ∀ q, pages !! q = Some [] → p1 !! q = Some [] ∨ p1 !! q = None).
  { intros q Hq. unfold p1. destruct (n =? 0); [by left|]. destruct (decide (q = n)) as [->|]; [right; apply lookup_delete_eq|].
    left. by rewrite lookup_delete_ne. }
  set (p2 := if empty_last pages n then delete (next_no pages n) p1 else p1).
  assert (H2 : contents p2 ≡ₚ contents pages).
  { unfold p2. destruct (empty_last pages n) eqn:He; [|done]. apply andb_true_iff in He as [_ He%bool_decide_eq_true].
    rewrite <- H1. destruct (Hsub _ He) as [Hq|Hq]; [by rewrite (contents_delete p1 _ _ Hq)|by rewrite delete_id]. }
  destruct (negb keepRoot && _) eqn:He; [|done]. apply andb_true_iff in He as [_ He%bool_decide_eq_true].
  rewrite <- H2, He. done.
Qed.

Lemma remove_contents n key keepRoot pages :
  match spec_remove n key keepRoot pages with
  | (true, pages') => contents pages ≡ₚ key :: contents pages'
  | (false, pages') => pages' = pages ∧ ∀ es, pages !! n = Some es → key ∉ es
  end.
Proof.
  unfold spec_remove. destruct (pages !! n) as [es|] eqn:Hn; cbn; [|done].
  destruct (erase_first key es) as [es'|] eqn:He.
  2: { split; [done|]. intros ? [= <-]. by apply erase_first_None. }
  apply erase_first_Some in He.
  assert (Hrep : contents pages ≡ₚ key :: contents (<[n := es']> pages)).
  { rewrite (contents_delete _ _ _ Hn), (contents_replace _ _ _ _ Hn), He. done. }
  case_bool_decide as Hes; [|done]. rewrite contents_trim; [done|]. by rewrite lookup_insert_eq, Hes.
Qed.

(** A root with one more page. *)
Lemma two_pages pages :
  numbered pages → is_Some (pages !! 0) → next_no pages 0 ≠ 0 → next_no pages (next_no pages 0) = 0 →
  dom (delete (next_no pages 0) pages) = {[0]}.
Proof.
  intros Hnum H0 Hq Hqq. pose proof (dom_pos _ Hnum) as Hpos. pose proof (next_no_next _ _ Hnum H0) as Lq.
  pose proof (next_no_next _ (next_no pages 0) Hnum (proj1 (elem_of_dom _ _) (proj1 (proj2 Lq)))) as Lp. rewrite Hqq in Lp.
  pose proof (proj1 (next_delete _ Hpos 0 _ 0 Lq Lp Hq (proj1 Lq))) as L0. rewrite dom_delete_L.
  by apply (next_root_only _ (λ c Hc, Hpos c (proj1 (proj1 (elem_of_difference _ _ _) Hc))) 0); [apply L0|..].
Qed.

Lemma one_page pages : numbered pages → is_Some (pages !! 0) → next_no pages 0 = 0 → dom pages = {[0]}.
Proof.
  intros Hnum H0 Hq. pose proof (next_no_next _ _ Hnum H0) as Lq. rewrite Hq in Lq.
  by apply (next_root_only _ (dom_pos _ Hnum) 0); [apply Lq|..].
Qed.

Lemma delete_contents pages : numbered pages → contents (spec_delete pages).2 ≡ₚ contents pages.
Proof.
  intros Hnum. unfold spec_delete. destruct (pages !! 0) as [[|e es]|] eqn:H0; [|done..]. cbv zeta.
  destruct (Z.eqb_spec (next_no pages 0) 0) as [Hq|Hq].
  - rewrite (only_root pages) by (done || by apply one_page; eauto). done.
  - destruct (Z.eqb_spec (next_no pages (next_no pages 0)) 0) as [Hqq|Hqq]; [|done].
    case_bool_decide as He; [|done]. rewrite (contents_delete _ _ _ He).
    rewrite (only_root (delete _ pages)); [done|by apply two_pages; eauto|by rewrite lookup_delete_ne].
Qed.

(** The pages stay well formed. *)
Lemma sub_keeps_ok pages pages' :
  dir_ok pages → pages' ⊆ pages → (pages' ≠ ∅ → is_Some (pages' !! 0)) → dir_ok pages'.
Proof.
  intros Hok Hsub H0. split; [split|..].
  - intros n es Hn. eapply (do_range _ (do_numbered _ Hok)). by eapply lookup_weaken.
  - done.
  - intros n es Hn. eapply (do_size _ Hok). by eapply lookup_weaken.
  - intros n n' Hn [es' Hn'] Hne. eapply (do_full _ Hok); [by eapply lookup_weaken|exists es'; by eapply lookup_weaken|done].
Qed.

Lemma delete_keeps_ok pages : dir_ok pages → dir_ok (spec_delete pages).2.
Proof.
  intros Hok. assert (dir_ok ∅) by (apply (sub_keeps_ok pages); [done|apply map_empty_subseteq|done]).
  unfold spec_delete. destruct (pages !! 0) as [[|e es]|]; [|done..]. cbv zeta. case_bools; done.
Qed.

Lemma trim_root n keepRoot pages : is_Some (pages !! 0) → trim n keepRoot pages ≠ ∅ → is_Some (trim n keepRoot pages !! 0).
Proof.
  intros H0. unfold trim. set (p1 := if n =? 0 then pages else delete n pages).
  assert (H1 : is_Some (p1 !! 0)) by (unfold p1; destruct (Z.eqb_spec n 0); [done|by rewrite lookup_delete_ne]).
  destruct (negb keepRoot && _); [done|]. intros _. destruct (empty_last pages n) eqn:He; [|done].
  unfold empty_last in He. apply andb_true_iff in He as [[Hq%negb_true_iff%Z.eqb_neq _]%andb_true_iff _]. by rewrite lookup_delete_ne.
Qed.

Lemma trim_page n keepRoot pages : n ≠ 0 → trim n keepRoot pages !! n = None.
Proof.
  intros Hn. unfold trim. rewrite (proj2 (Z.eqb_neq n 0)) by done. destruct (negb keepRoot && _); [done|].
  destruct (empty_last pages n); [|apply lookup_delete_eq]. apply lookup_delete_None. right. apply lookup_delete_eq.
Qed.

Lemma remove_keeps_ok n key keepRoot pages : dir_ok pages → dir_ok (spec_remove n key keepRoot pages).2.
Proof.
  intros Hok. unfold spec_remove. destruct (pages !! n) as [es|] eqn:Hn; cbn; [|done].
  destruct (erase_first key es) as [es'|] eqn:He; [|done]. cbn. apply erase_first_Some in He.
  pose proof (numbered_insert _ n es es' (do_numbered _ Hok) Hn) as Hnum.
  assert (Hlen : (length es' ≤ dirNodeMaxEntries)%nat).
  { pose proof (do_size _ Hok _ _ Hn) as Hs. rewrite He in Hs. cbn in Hs. lia. }
  assert (Hsz : ∀ x ex, <[n := es']> pages !! x = Some ex → (length ex ≤ dirNodeMaxEntries)%nat).
  { intros x ex [[<- <-]|[_ Hx]]%lookup_insert_Some; [done|by eapply (do_size _ Hok)]. }
  assert (Hdom : ∀ x, is_Some (<[n := es']> pages !! x) → is_Some (pages !! x)).
  { intros x [ex [[<- <-]|[_ Hx]]%lookup_insert_Some]; eauto. }
  case_bool_decide as Hes.
  - subst es'. pose proof (trim_sub n keepRoot (<[n := []]> pages)) as Hsub. split; [split|..].
    + intros x ex Hx. eapply (do_range _ Hnum). by eapply lookup_weaken.
    + apply trim_root. destruct (Hnum) as [_ H0]. apply H0, insert_non_empty.
    + intros x ex Hx. eapply Hsz. by eapply lookup_weaken.
    + intros x x' Hx [ex' Hx'] Hx0. eapply (do_full _ Hok); [|apply Hdom; exists ex'; by eapply lookup_weaken|done].
      assert (x ≠ n). { intros ->. by rewrite trim_page in Hx. }
      eapply lookup_weaken in Hx; [|exact Hsub]. by rewrite lookup_insert_ne in Hx.
  - split; [done|done|]. intros x x' [[<- ->]|[_ Hx]]%lookup_insert_Some Hx' Hx0; [done|]. eapply (do_full _ Hok); [done|by apply Hdom|done].
Qed.
