(* ===== verification/DirIter.v ===== *)
(** * Loops over a directory

    The two loops rippled writes over a directory, [cdirFirst] with [cdirNext]
    on a view that is read and [dirFirst] with [dirNext] on one whose entries
    are peeked, and [forEachItem]: each visits the entries of the pages in the
    order of the page numbers. *)
From S2P Require Import Prelude Outcome Bytes SHAMapNode LedgerEntry StateTable StateTableSpec Directory DirRing DirAdd DirRemove DirSpec.

(** The number of the next page to visit. *)
Definition head_no (post : list (Z * list Z)) : Z := default 0 (fst <$> head post).

Lemma above_split (pages : gmap Z (list Z)) pre n es post : ascending pages = pre ++ (n, es) :: post → above n pages = post.
Proof.
  intros Hs. unfold above. pose proof (ascending_sorted pages) as Hsort. rewrite Hs in Hsort |- *. clear Hs.
  induction pre as [|x pre IH]; cbn [app] in *.
  - rewrite filter_cons_False by (cbn; lia). pose proof (sorted_tail fst _ _ Hsort) as Ht.
    assert (Hlt : ∀ e, e ∈ post → n < e.1) by (intros e He; by apply (sorted_head fst _ _ _ Hsort)).
    clear Hsort Ht. induction post as [|e post IH]; [done|]. rewrite filter_cons_True by (apply Hlt; by left).
    f_equal. apply IH. intros e' He'. apply Hlt. by right.
  - rewrite filter_cons_False; [apply IH; by eapply (sorted_tail fst)|].
    assert (Hx : x.1 < n) by (apply (sorted_head fst _ _ (n, es) Hsort); set_solver). lia.
Qed.

Section iter.
Context (sha512Half : list Z → Z) (root : Z) (Hd : distinct_pages sha512Half root).
Abbreviation pk := (pk sha512Half root).
Abbreviation page_sle := (page_sle sha512Half root).
Abbreviation dir_at := (dir_at sha512Half root).
Abbreviation dir := (mkKeylet ltDIR_NODE root).
Context (m : gmap Z SLE) (pages : gmap Z (list Z)) (Hnum : numbered pages) (Hat : dir_at m pages).

(** The page [n] is next, and [post] comes after it. *)
Definition at_page (n : Z) (es : list Z) (post : list (Z * list Z)) (s : SLE) : Prop :=
  (∃ pre, ascending pages = pre ++ (n, es) :: post) ∧ m !! pk n = Some s ∧ ∃ p, page_sle n es p (head_no post) s.

Lemma enter_page pre n es post : ascending pages = pre ++ (n, es) :: post → ∃ s, at_page n es post s ∧ 0 ≤ n < dirNodeMaxPages.
Proof using Hd Hnum Hat.
  intros Hs. assert (Hn : pages !! n = Some es) by (apply elem_of_ascending; rewrite Hs; set_solver).
  destruct (dir_page _ _ _ _ _ _ Hnum Hat Hn) as (s & p & q & Hm & Hps & _ & Lq). exists s. split; [|by eapply do_range].
  split_and!; [by exists pre|done|]. exists p. assert (head_no post = q) as ->; [|done].
  eapply next_fun; [|exact Lq]. unfold head_no. rewrite <- (above_split _ _ _ _ _ Hs). apply next_no_next; [done|by eexists].
Qed.

Lemma next_page n es n' es' post s :
  at_page n es ((n', es') :: post) s → ∃ s', at_page n' es' post s' ∧ 0 ≤ n' < dirNodeMaxPages ∧ n' ≠ 0.
Proof using Hd Hnum Hat.
  intros ([pre Hs] & _ & _). rewrite (cons_middle (n, es)) , app_assoc in Hs. destruct (enter_page _ _ _ _ Hs) as (s' & Hs' & Hr).
  exists s'. split_and!; [done|lia|lia|]. intros ->.
  assert (Hn : pages !! n = Some es) by (apply elem_of_ascending; rewrite Hs; set_solver).
  pose proof (ascending_sorted pages) as Hsort. rewrite Hs, <- app_assoc in Hsort.
  pose proof (do_range _ Hnum _ _ Hn). clear -Hsort H. induction pre as [|x pre IH]; [|apply IH; by eapply (sorted_tail fst)].
  pose proof (sorted_head fst (n, es) ((0, es') :: post) (0, es') Hsort ltac:(by left)). cbn in *. lia.
Qed.

(** The root comes first. *)
Lemma first_page : pages ≠ ∅ → ∃ es0 post, ascending pages = [] ++ (0, es0) :: post ∧ pages !! 0 = Some es0.
Proof using Hnum.
  intros Hne. destruct (do_root _ Hnum Hne) as [es0 H0]. exists es0. pose proof H0 as Hin%elem_of_ascending.
  destruct (ascending pages) as [|[n es] post] eqn:Hs; [by apply elem_of_nil in Hin|].
  exists post. apply elem_of_cons in Hin as [[= <- <-]|Hin]; [done|].
  pose proof (ascending_sorted pages) as Hsort. rewrite Hs in Hsort. pose proof (sorted_head fst _ _ _ Hsort Hin) as Hlt. cbn in Hlt.
  assert (Hn : pages !! n = Some es) by (apply elem_of_ascending; rewrite Hs; by left).
  pose proof (do_range _ Hnum _ _ Hn). lia.
Qed.

(** *** Reading *)

Section view.
Context (v : ReadView) (Hv : presents v m).

Lemma read_page n es post s :
  at_page n es post s → 0 ≤ n < dirNodeMaxPages → rv_read v (page sha512Half root n) = Return (Some s).
Proof using Hd Hv.
  intros (_ & Hm & p & Hps) Hr. rewrite (pr_read _ _ Hv) by (by apply Hd). unfold read_of.
  change (k_key (page sha512Half root n)) with (pk n). rewrite Hm. by rewrite (page_check _ _ _ _ _ _ _ Hps).
Qed.

(** Where the loop stands: in a page, before its entry [i]; what is left. *)
Definition cursor (s : SLE) (i : nat) (rest : list Z) : Prop :=
  ∃ n es post, at_page n es post s ∧ (i ≤ length es)%nat ∧ rest = drop i es ++ concat post.*2.

Lemma cdirNext_ok n es post s i e0 fuel :
  at_page n es post s → (i ≤ length es)%nat → (length post < fuel)%nat →
  match drop i es ++ concat post.*2 with
  | [] => ∃ c, cdirNext sha512Half v fuel root s i e0 = Return (false, c)
  | x :: rest => ∃ s' i', cdirNext sha512Half v fuel root s i e0 = Return (true, (s', i', x)) ∧ cursor s' i' rest
  end.
Proof using Hd Hv Hnum Hat.
  revert n es s i fuel. induction post as [|[n' es'] post IH]; intros n es s i fuel Hp Hi Hf; (destruct fuel as [|fuel]; [lia|]);
    pose proof Hp as (_ & _ & p & Hps); cbn [cdirNext];
    rewrite (ps_indexes _ _ _ _ _ _ _ Hps), (proj2 (Nat.leb_le _ _)) by done; cbn [negb].
  all: destruct (es !! i) as [x|] eqn:Hx;
    [rewrite (drop_S _ _ _ Hx); cbn [app]; exists s, (S i); (split; [done|]); eexists n, es, _; split_and!; [done| |done];
     apply lookup_lt_Some in Hx; lia|].
  all: apply lookup_ge_None in Hx; rewrite drop_ge by lia; cbn [app]; rewrite (ps_next _ _ _ _ _ _ _ Hps).
  - cbn. eauto.
  - cbn [head_no head fmap option_fmap option_map default fst snd concat]. destruct (next_page _ _ _ _ _ _ Hp) as (s' & Hp' & Hr & Hn0).
    unfold head_no. cbn. rewrite (proj2 (Z.eqb_neq n' 0)) by done. rewrite (read_page _ _ _ _ Hp' Hr). cbn.
    apply (IH n' es' s' 0%nat fuel Hp'); [lia|cbn in Hf; lia].
Qed.

(** [if (cdirFirst (...)) do { ... } while (cdirNext (...))]: the entries visited. *)
Fixpoint walk_loop (rounds fuel : nat) (s : SLE) (i : nat) (e : Z) : exc (list Z) :=
  match rounds with
  | O => NoFuel
  | S rounds =>
    '(more, (s, i, e)) ← cdirNext sha512Half v fuel root s i e;
    if (more : bool) then rest ← walk_loop rounds fuel s i e; Return (e :: rest) else Return []
  end.

Definition walk (rounds fuel : nat) : exc (list Z) :=
  '(more, (s, i, e)) ← cdirFirst sha512Half v fuel root 0;
  if (more : bool) then rest ← walk_loop rounds fuel s i e; Return (e :: rest) else Return [].

Lemma post_length n es post s : at_page n es post s → (length post < size pages)%nat.
Proof using.
  intros ([pre Hs] & _ & _). assert (Hl : length (ascending pages) = size pages) by (by rewrite ascending_perm, length_map_to_list).
  rewrite <- Hl, Hs, length_app. cbn. lia.
Qed.

Lemma walk_loop_ok rounds fuel s i e rest :
  cursor s i rest → (length rest < rounds)%nat → (size pages ≤ fuel)%nat → walk_loop rounds fuel s i e = Return rest.
Proof using Hd Hv Hnum Hat.
  revert s i e rest. induction rounds as [|rounds IH]; intros s i e rest Hc Hr Hf; [lia|]. cbn [walk_loop].
  destruct Hc as (n & es & post & Hp & Hi & ->). pose proof (post_length _ _ _ _ Hp) as Hlen.
  pose proof (cdirNext_ok _ _ _ _ i e fuel Hp Hi ltac:(lia)) as Hn.
  destruct (drop i es ++ concat post.*2) as [|x rest].
  - destruct Hn as ([[s' i'] e'] & ->). done.
  - destruct Hn as (s' & i' & -> & Hc'). cbn. rewrite (IH s' i' x rest Hc'); [done|cbn in Hr; lia|done].
Qed.

(** The loop visits the contents of the directory, in the order of the pages. *)
Lemma walk_ok : pages ≠ ∅ → walk (S (length (contents pages))) (size pages) = Return (contents pages).
Proof using Hd Hv Hnum Hat.
  intros Hne. destruct (first_page Hne) as (es0 & post & Hs & _).
  destruct (enter_page _ _ _ _ Hs) as (s & Hp & Hr).
  unfold walk, cdirFirst. rewrite (read_page _ _ _ _ Hp Hr). cbn [mbind exc_bind].
  assert (Hcont : contents pages = drop 0 es0 ++ concat post.*2) by (unfold contents; by rewrite Hs).
  pose proof (post_length _ _ _ _ Hp) as Hlen.
  pose proof (cdirNext_ok _ _ _ _ 0%nat 0 (size pages) Hp ltac:(lia) Hlen) as Hn. rewrite <- Hcont in Hn.
  destruct (contents pages) as [|x rest] eqn:Hc.
  - destruct Hn as ([[s' i'] e'] & ->). done.
  - destruct Hn as (s' & i' & -> & Hc'). cbn [mbind exc_bind]. rewrite (walk_loop_ok _ _ s' i' x rest); [done|done|cbn; lia|done].
Qed.

Lemma children_app l1 l2 : children v (l1 ++ l2) = (a ← children v l1; b ← children v l2; Return (a ++ b)).
Proof using.
  unfold children. induction l1 as [|x l1 IH]; cbn [app mapM].
  - cbn. by destruct (mapM _ l2).
  - destruct (rv_read v (child x)); cbn [mbind exc_bind]; [|done..]. rewrite IH. destruct (mapM _ l1); cbn [mbind exc_bind]; [|done..].
    by destruct (mapM _ l2).
Qed.

Lemma forEach_loop_ok n es post s fuel :
  at_page n es post s → 0 ≤ n < dirNodeMaxPages → (length post < fuel)%nat →
  forEachItem_loop sha512Half v fuel dir (page sha512Half root n) = children v (es ++ concat post.*2).
Proof using Hd Hv Hnum Hat.
  revert n es s fuel. induction post as [|[n' es'] post IH]; intros n es s fuel Hp Hr Hf; (destruct fuel as [|fuel]; [lia|]);
    pose proof Hp as (_ & _ & p & Hps); cbn [forEachItem_loop]; rewrite (read_page _ _ _ _ Hp Hr); cbn [mbind exc_bind];
    rewrite (ps_indexes _ _ _ _ _ _ _ Hps), (ps_next _ _ _ _ _ _ _ Hps), children_app.
  - cbn. by destruct (children v es); cbn; rewrite ?app_nil_r.
  - destruct (next_page _ _ _ _ _ _ Hp) as (s' & Hp' & Hr' & Hn0). destruct (children v es) as [items|e|e|]; cbn [mbind exc_bind]; [|done..].
    unfold head_no. cbn [head fmap option_fmap option_map default fst from_option id]. rewrite (proj2 (Z.eqb_neq n' 0)) by done.
    unfold page_of. cbn [k_type k_key]. rewrite Z.eqb_refl. cbn [mbind exc_bind]. cbn in Hf.
    rewrite (IH n' es' s' fuel Hp' Hr') by lia. done.
Qed.

(** [forEachItem] reads every entry of the directory. *)
Lemma forEachItem_ok : forEachItem sha512Half v (S (size pages)) dir = children v (contents pages).
Proof using Hd Hv Hnum Hat.
  unfold forEachItem. destruct (decide (pages = ∅)) as [He|Hne].
  - rewrite He. cbn. rewrite (pr_read _ _ Hv) by (apply (proj1 Hd 0), range_0). unfold read_of. cbn.
    pose proof (Hat 0 range_0) as H0. rewrite He, lookup_empty in H0. change (pk 0) with root in H0. by rewrite H0.
  - destruct (first_page Hne) as (es0 & post & Hs & _). destruct (enter_page _ _ _ _ Hs) as (s & Hp & Hr).
    pose proof (post_length _ _ _ _ Hp) as Hlen. unfold contents. rewrite Hs. cbn [app fmap list_fmap concat snd].
    apply (forEach_loop_ok 0 es0 post s); [done|done|lia].
Qed.

(** A directory is reported empty unless it has an entry or a second page. *)
Lemma dirIsEmpty_ok : dirIsEmpty v dir = Return (bool_decide (pages = ∅ ∨ pages = {[0 := []]})).
Proof using Hd Hv Hnum Hat.
  unfold dirIsEmpty. destruct (decide (pages = ∅)) as [He|Hne].
  - rewrite bool_decide_eq_true_2 by (by left). rewrite (pr_read _ _ Hv) by (apply (proj1 Hd 0), range_0). unfold read_of. cbn.
    pose proof (Hat 0 range_0) as H0. rewrite He, lookup_empty in H0. change (pk 0) with root in H0. by rewrite H0.
  - destruct (first_page Hne) as (es0 & post & Hs & H0). destruct (enter_page _ _ _ _ Hs) as (s & Hp & Hr).
    change dir with (page sha512Half root 0). rewrite (read_page _ _ _ _ Hp Hr). cbn [mbind exc_bind].
    pose proof Hp as (_ & _ & p & Hps). rewrite (ps_indexes _ _ _ _ _ _ _ Hps), (ps_next _ _ _ _ _ _ _ Hps).
    case_bool_decide as Hes; cbn [negb].
    + subst es0. f_equal. destruct post as [|[n' es'] post].
      * rewrite bool_decide_eq_true_2; [done|]. right. apply only_root; [|done]. apply set_eq. intros x.
        rewrite elem_of_singleton, elem_of_dom. split; [|intros ->; eauto]. intros [ex Hx%elem_of_ascending].
        rewrite Hs in Hx. by apply list_elem_of_singleton in Hx as [= -> _].
      * destruct (next_page _ _ _ _ _ _ Hp) as (_ & _ & _ & Hn0). rewrite bool_decide_eq_false_2.
        { unfold head_no. cbn. lia. }
        intros [?|Hone]; [done|]. assert (Hn : (n', es') ∈ ascending pages) by (rewrite Hs; set_solver).
        apply elem_of_ascending in Hn. rewrite Hone in Hn. by apply lookup_singleton_Some in Hn as [? _].
    + rewrite bool_decide_eq_false_2; [done|]. intros [?|Hone]; [done|]. rewrite Hone, lookup_singleton_eq in H0. congruence.
Qed.
End view.

(** *** Looping over a view that may be changed *)

Section apply.
Context {S : Type} {AV : ApplyView S} {AVL : ApplyViewLaws S} (w0 : S).

Lemma dirNext_ends H l n es post s i e0 fuel :
  at_page n es post s → (i ≤ length es)%nat → (length post < fuel)%nat → H !! l = Some s →
  ends (st w0 m H) (dirNext sha512Half fuel root l i e0)
    (λ r w, match drop i es ++ concat post.*2 with
            | [] => r.1 = false ∧ ∃ H', st w0 m H' w
            | x :: rest => ∃ l' i' s' H', r = (true, (l', i', x)) ∧ H' !! l' = Some s' ∧ cursor s' i' rest ∧ st w0 m H' w
            end).
Proof using Hd Hnum Hat.
  revert H l n es s i fuel. induction post as [|[n' es'] post IH]; intros H l n es s i fuel Hp Hi Hf Hl; (destruct fuel as [|fuel]; [lia|]);
    pose proof Hp as (_ & _ & p & Hps); cbn [dirNext]; (eapply ends_seq; [by apply ends_sle|]); cbv beta zeta;
    rewrite (ps_indexes _ _ _ _ _ _ _ Hps), (proj2 (Nat.leb_le _ _)) by done; (eapply ends_seq; [apply ends_lift|]);
    (destruct (es !! i) as [x|] eqn:Hx;
      [rewrite (drop_S _ _ _ Hx); cbn [app]; (eapply ends_mono; [done|apply ends_ret|]); intros r w [-> Hw];
       exists l, (Datatypes.S i), s, H; split_and!; [done|done| |done]; eexists n, es, _; split_and!; [done| |done];
       apply lookup_lt_Some in Hx; lia|]);
    apply lookup_ge_None in Hx; rewrite drop_ge by lia; cbn [app]; rewrite (ps_next _ _ _ _ _ _ _ Hps).
  - cbn. eapply ends_mono; [done|apply ends_ret|]. intros r w [-> Hw]. eauto.
  - destruct (next_page _ _ _ _ _ _ Hp) as (s' & Hp' & Hr & Hn0). unfold head_no.
    cbn [head fmap option_fmap option_map default fst from_option id snd list_fmap concat].
    rewrite (proj2 (Z.eqb_neq n' 0)) by done. pose proof Hp' as (_ & Hm' & p' & Hps').
    eapply ends_bind; [eapply ends_peek; [exact Hm'|by eapply page_check]|]. intros o w (l' & -> & _ & Hw). revert w Hw.
    apply (IH _ l' n' es' s' 0%nat fuel Hp'); [lia|cbn in Hf; lia|apply lookup_insert_eq].
Qed.

Lemma dirFirst_ends H e0 :
  pages ≠ ∅ →
  ends (st w0 m H) (dirFirst sha512Half (size pages) root e0)
    (λ r w, match contents pages with
            | [] => r.1 = false ∧ ∃ H', st w0 m H' w
            | x :: rest => ∃ l' i' s' H', r = (true, (l', i', x)) ∧ H' !! l' = Some s' ∧ cursor s' i' rest ∧ st w0 m H' w
            end).
Proof using Hd Hnum Hat.
  intros Hne. destruct (first_page Hne) as (es0 & post & Hs & _). destruct (enter_page _ _ _ _ Hs) as (s & Hp & Hr).
  pose proof (post_length _ _ _ _ Hp) as Hlen. pose proof Hp as (_ & Hm & p & Hps). unfold dirFirst.
  eapply ends_bind; [eapply ends_peek; [exact Hm|by eapply page_check]|]. intros o w (l & -> & _ & Hw). revert w Hw.
  unfold contents. rewrite Hs. cbn [app fmap list_fmap concat snd].
  apply (dirNext_ends _ l 0 es0 post s 0%nat); [done|lia|done|apply lookup_insert_eq].
Qed.

(** [if (dirFirst (...)) do { ... } while (dirNext (...))], with a body that
    leaves the view alone: the entries visited. *)
Fixpoint peek_walk_loop (rounds fuel : nat) (l : loc) (i : nat) (e : Z) : ST S (list Z) :=
  match rounds with
  | O => slift NoFuel
  | Datatypes.S rounds =>
    '(more, (l, i, e)) ← dirNext sha512Half fuel root l i e;
    if (more : bool) then rest ← peek_walk_loop rounds fuel l i e; mret (e :: rest) else mret []
  end.

Definition peek_walk (rounds fuel : nat) : ST S (list Z) :=
  '(more, (l, i, e)) ← dirFirst sha512Half fuel root 0;
  if (more : bool) then rest ← peek_walk_loop rounds fuel l i e; mret (e :: rest) else mret [].

Lemma peek_walk_loop_ends rounds fuel H l s i e rest :
  cursor s i rest → H !! l = Some s → (length rest < rounds)%nat → (size pages ≤ fuel)%nat →
  ends (st w0 m H) (peek_walk_loop rounds fuel l i e) (λ r w, r = rest ∧ ∃ H', st w0 m H' w).
Proof using Hd Hnum Hat.
  revert H l s i e rest. induction rounds as [|rounds IH]; intros H l s i e rest Hc Hl Hr Hf; [lia|]. cbn [peek_walk_loop].
  destruct Hc as (n & es & post & Hp & Hi & ->). pose proof (post_length _ _ _ _ Hp) as Hlen.
  eapply ends_bind; [by apply (dirNext_ends H l n es post s i e fuel Hp Hi); [lia|]|].
  intros [more [[l' i'] e']] w Hn. destruct (drop i es ++ concat post.*2) as [|x rest].
  - destruct Hn as [Hm [H' Hw]]. cbn in Hm. subst more. cbn. eexists _, _. split; [reflexivity|]. eauto.
  - destruct Hn as (l1 & i1 & s1 & H1 & [= -> -> -> ->] & Hl1 & Hc1 & Hw). cbn.
    destruct (IH H1 l1 s1 i1 x rest Hc1 Hl1 ltac:(cbn in Hr; lia) Hf w Hw) as (r & w' & Hrun & -> & Hst).
    rewrite (ST_bind_return _ _ _ _ _ Hrun). eexists _, _. split; [reflexivity|]. done.
Qed.

Lemma peek_walk_ends H :
  pages ≠ ∅ →
  ends (st w0 m H) (peek_walk (Datatypes.S (length (contents pages))) (size pages))
    (λ r w, r = contents pages ∧ ∃ H', st w0 m H' w).
Proof using Hd Hnum Hat.
  intros Hne. unfold peek_walk. eapply ends_bind; [by apply dirFirst_ends|].
  intros [more [[l i] e]] w Hn. destruct (contents pages) as [|x rest].
  - destruct Hn as [Hm [H' Hw]]. cbn in Hm. subst more. cbn. eexists _, _. split; [reflexivity|]. eauto.
  - destruct Hn as (l1 & i1 & s1 & H1 & [= -> -> -> ->] & Hl1 & Hc1 & Hw). cbn [length].
    destruct (peek_walk_loop_ends (Datatypes.S (Datatypes.S (length rest))) (size pages) H1 l1 s1 i1 x rest Hc1 Hl1
      ltac:(lia) ltac:(lia) w Hw) as (r & w' & Hrun & -> & Hst).
    rewrite (ST_bind_return _ _ _ _ _ Hrun). eexists _, _. split; [reflexivity|]. done.
Qed.
End apply.
End iter.
