(* ===== verification/DirRefine.v ===== *)
(** * Directories in stacked views

    Every sequence of calls on a directory refines the same calls on its pages,
    over any view that keeps the laws of [ApplyView]; the view at the top of a
    stack keeps them. *)
From S2P Require Import Prelude Outcome Bytes SHAMapNode LedgerEntry StateTable StateTableSpec ViewSpec ViewTop.
From S2P Require Import Directory DirRing DirAdd DirRemove DirSpec DirIter.

(** ** Calls on a directory *)

Inductive DCmd := DAdd (preserveOrder : bool) (key : Z) | DRemove (page key : Z) (keepRoot : bool) | DDelete.
Inductive DRes := DPage (page : option Z) | DBool (b : bool).

Definition spec_dir_call (c : DCmd) (pages : gmap Z (list Z)) : DRes * gmap Z (list Z) :=
  match c with
  | DAdd pres key => let '(r, p) := spec_add pres key pages in (DPage r, p)
  | DRemove n key keepRoot => let '(r, p) := spec_remove n key keepRoot pages in (DBool r, p)
  | DDelete => let '(r, p) := spec_delete pages in (DBool r, p)
  end.

Fixpoint spec_dir_run (cs : list DCmd) (pages : gmap Z (list Z)) : list DRes * gmap Z (list Z) :=
  match cs with
  | [] => ([], pages)
  | c :: cs => let '(r, pages) := spec_dir_call c pages in let '(rs, pages) := spec_dir_run cs pages in (r :: rs, pages)
  end.

(** An entry is added where the last page has it not; page numbers are in range. *)
Definition dir_allowed (c : DCmd) (pages : gmap Z (list Z)) : bool :=
  match c with
  | DAdd _ key => may_add key pages
  | DRemove n _ _ => (0 <=? n) && (n <? dirNodeMaxPages)
  | DDelete => true
  end.

Fixpoint dir_all_allowed (cs : list DCmd) (pages : gmap Z (list Z)) : bool :=
  match cs with [] => true | c :: cs => dir_allowed c pages && dir_all_allowed cs (spec_dir_call c pages).2 end.

(** How often an entry is added, less how often it is removed. *)
Definition occ (x : Z) (l : list Z) : Z := Z.of_nat (length (filter (λ y, y = x) l)).

Definition net_one (x : Z) (c : DCmd) (r : DRes) : Z :=
  match c, r with
  | DAdd _ key, DPage (Some _) => if key =? x then 1 else 0
  | DRemove _ key _, DBool true => if key =? x then -1 else 0
  | _, _ => 0
  end.

Fixpoint net (x : Z) (cs : list DCmd) (rs : list DRes) : Z :=
  match cs, rs with c :: cs, r :: rs => net_one x c r + net x cs rs | _, _ => 0 end.

Lemma occ_cons x y l : occ x (y :: l) = (if y =? x then 1 else 0) + occ x l.
Proof.
  unfold occ. rewrite filter_cons. destruct (Z.eqb_spec y x), (decide (y = x)); cbn [length]; lia || done.
Qed.

Lemma occ_perm x l l' : l ≡ₚ l' → occ x l = occ x l'.
Proof. unfold occ. by intros ->. Qed.

Lemma dir_call_ok c pages : dir_ok pages → dir_allowed c pages = true → dir_ok (spec_dir_call c pages).2.
Proof.
  intros Hok Ha. destruct c as [pres key|n key keep|]; cbn in *.
  - pose proof (add_keeps_ok pres key pages Hok Ha). by destruct (spec_add pres key pages).
  - pose proof (remove_keeps_ok n key keep pages Hok). by destruct (spec_remove n key keep pages).
  - pose proof (delete_keeps_ok pages Hok). by destruct (spec_delete pages).
Qed.

Lemma dir_call_occ c pages x :
  numbered pages → dir_allowed c pages = true →
  occ x (contents (spec_dir_call c pages).2) = occ x (contents pages) + net_one x c (spec_dir_call c pages).1.
Proof.
  intros Hnum Ha. destruct c as [pres key|n key keep|]; cbn in *.
  - pose proof (add_contents pres key pages Hnum Ha) as Hc. destruct (spec_add pres key pages) as [[n|] p]; cbn in *; [|subst; lia].
    destruct Hc as [Hc _]. rewrite (occ_perm _ _ _ Hc), occ_cons. lia.
  - pose proof (remove_contents n key keep pages) as Hc. destruct (spec_remove n key keep pages) as [[] p]; cbn in *.
    + rewrite (occ_perm _ _ _ Hc), occ_cons. destruct (key =? x); lia.
    + destruct Hc as [-> _]. lia.
  - pose proof (delete_contents pages Hnum) as Hc. destruct (spec_delete pages) as [b p]; cbn in *. rewrite (occ_perm _ _ _ Hc). destruct b; lia.
Qed.

Lemma dir_run_ok cs pages :
  dir_ok pages → dir_all_allowed cs pages = true →
  dir_ok (spec_dir_run cs pages).2 ∧
  ∀ x, occ x (contents (spec_dir_run cs pages).2) = occ x (contents pages) + net x cs (spec_dir_run cs pages).1.
Proof.
  revert pages. induction cs as [|c cs IH]; intros pages Hok; cbn [dir_all_allowed spec_dir_run]; [intros _; split; [done|cbn; lia]|].
  intros [Hc Hcs]%andb_true_iff. pose proof (dir_call_ok c pages Hok Hc) as Hok1.
  pose proof (λ x, dir_call_occ c pages x (do_numbered _ Hok) Hc) as Hocc.
  destruct (spec_dir_call c pages) as [r p1]. cbn in *. destruct (IH p1 Hok1 Hcs) as [Hok2 Hocc2].
  destruct (spec_dir_run cs p1) as [rs p2]. cbn in *. split; [done|]. intros x. rewrite Hocc2, Hocc. lia.
Qed.

(** ** The code *)

Section code.
Context (sha512Half : list Z → Z) (root : Z) (describe : SLE → SLE).
Abbreviation dir := (mkKeylet ltDIR_NODE root).

Definition dir_call {S} `{ApplyView S} (c : DCmd) : ST S DRes :=
  match c with
  | DAdd pres key => r ← dirAdd sha512Half pres dir key describe; mret (DPage r)
  | DRemove n key keepRoot => r ← dirRemove sha512Half dir n key keepRoot; mret (DBool r)
  | DDelete => r ← emptyDirDelete sha512Half dir; mret (DBool r)
  end.

Fixpoint dir_run {S} `{ApplyView S} (cs : list DCmd) : ST S (list DRes) :=
  match cs with
  | [] => mret []
  | c :: cs => r ← dir_call c; rs ← dir_run cs; mret (r :: rs)
  end.

Context {S : Type} {AV : ApplyView S} {AVL : ApplyViewLaws S} (w0 : S).
Context (Hd : distinct_pages sha512Half root) (Hf : describes describe).

Lemma dir_call_ends m c pages :
  numbered pages → dir_at sha512Half root m pages → dir_allowed c pages = true →
  ends (st w0 m ∅) (dir_call c)
    (λ r w, r = (spec_dir_call c pages).1 ∧ ∃ m', st w0 m' ∅ w ∧ dir_at sha512Half root m' (spec_dir_call c pages).2 ∧
      off_pages sha512Half root m m').
Proof using Hd Hf.
  intros Hnum Hat Ha. destruct c as [pres key|n key keep|]; cbn [dir_call spec_dir_call dir_allowed] in *.
  - eapply ends_bind; [by apply (dirAdd_ends w0 sha512Half root Hd m pages pres key)|].
    intros r w (-> & Hw). destruct (spec_add pres key pages). by eexists _, _.
  - apply andb_true_iff in Ha as [H0%Z.leb_le H1%Z.ltb_lt].
    eapply ends_bind; [by apply (dirRemove_ends w0 sha512Half root Hd m pages n key keep)|].
    intros r w (-> & Hw). destruct (spec_remove n key keep pages). by eexists _, _.
  - eapply ends_bind; [by apply (emptyDirDelete_ends w0 sha512Half root Hd m pages)|].
    intros r w (-> & Hw). destruct (spec_delete pages). by eexists _, _.
Qed.

Lemma dir_run_ends m cs pages :
  dir_ok pages → dir_at sha512Half root m pages → dir_all_allowed cs pages = true →
  ends (st w0 m ∅) (dir_run cs)
    (λ r w, r = (spec_dir_run cs pages).1 ∧ ∃ m', st w0 m' ∅ w ∧ dir_at sha512Half root m' (spec_dir_run cs pages).2 ∧
      off_pages sha512Half root m m').
Proof using Hd Hf.
  revert m pages. induction cs as [|c cs IH]; intros m pages Hok Hat; cbn [dir_all_allowed dir_run spec_dir_run].
  { intros _ w Hw. eexists _, w. split; [done|]. split; [done|]. by exists m. }
  intros [Hc Hcs]%andb_true_iff. pose proof (dir_call_ok c pages Hok Hc) as Hok1.
  eapply ends_bind; [by apply dir_call_ends; [apply Hok|..]|]. intros r w (-> & m1 & Hw & Hat1 & Hoff1).
  destruct (spec_dir_call c pages) as [r p1]. cbn in *.
  destruct (IH m1 p1 Hok1 Hat1 Hcs w Hw) as (rs & w2 & Hrun & -> & m2 & Hw2 & Hat2 & Hoff2).
  destruct (spec_dir_run cs p1) as [rs p2]. cbn in *. eexists _, w2. rewrite (ST_bind_return _ _ _ _ _ Hrun).
  split; [done|]. split; [done|]. exists m2. split_and!; [done|done|by eapply off_pages_trans].
Qed.
End code.

(** ** The view at the top of a stack *)

#[export] Instance views_apply : ApplyView Views := {
  av_peek := peek;
  av_sle := sle_at;
  av_modify := modify_sle;
  av_insert := insert_sle;
  av_erase := view_erase }.

Definition top_ok (w : Views) : Prop := views_ok w ∧ ∃ t ls, layers w = Apply t :: ls.

Lemma frame_top w w' : frame w w' → ∃ t ls, layers w' = Apply t :: ls.
Proof. intros [_ Hf]. destruct (layers w) as [|[] ?], (layers w') as [|[] ?]; try done. eauto. Qed.

Lemma did_top w w' m' gone : did w w' m' gone → top_ok w' ∧ top_map w' = m' ∧ frame w w' ∧ ∀ l s, held w l s → ¬ gone (sle_key s) → held w' l s.
Proof. intros (Hok & Hm & Hf & Hh). split_and!; [split; [done|by eapply frame_top]|done|done|done]. Qed.

#[export] Program Instance views_laws : ApplyViewLaws Views := {
  av_ok := top_ok;
  av_map := top_map;
  av_held := held;
  av_frame := frame }.
Next Obligation. intros w [_ (t & ls & Hls)]. unfold frame. by rewrite Hls. Qed.
Next Obligation. apply frame_trans. Qed.
Next Obligation. intros w k s [Hok _] Hk. by apply (stack_filed _ _ _ Hok). Qed.
Next Obligation. intros w l s [Hok _] Hh. exact (proj1 (held_lookup w l s Hok Hh)). Qed.
Next Obligation. apply held_loc. Qed.
Next Obligation. intros w l s [Hl _]. by apply sle_at_run. Qed.
Next Obligation. intros w k [Hok (t & ls & Hls)] Hk Hn. pose proof (peek_ok w t ls k Hok Hls Hk) as Hp. by rewrite Hn in Hp. Qed.
Next Obligation.
  intros w k s [Hok (t & ls & Hls)] Hk Hc. assert (Hnz : k_key k ≠ 0) by (by apply (stack_filed _ _ _ Hok) in Hk as [_ ?]).
  pose proof (peek_ok w t ls k Hok Hls Hnz) as Hp. rewrite Hk, Hc in Hp. destruct Hp as (l & w' & Hrun & Hl & Hd).
  apply did_top in Hd as (? & ? & ? & Hh). exists l, w'. split_and!; try done. intros l' s' Hl'. apply Hh; [done|by intros []].
Qed.
Next Obligation.
  intros w l s f [Hok _] Hh Hk. destruct (modify_ok w l s f Hok Hh Hk) as (w' & Hrun & Hl & Hd).
  apply did_top in Hd as (? & ? & ? & ?). by exists w'.
Qed.
Next Obligation.
  intros w s [Hok (t & ls & Hls)] Hk Hn. destruct (insert_ok w t ls s Hok Hls Hk Hn) as (l & w' & Hrun & Hl & Hd).
  apply did_top in Hd as (? & ? & ? & Hh). exists l, w'. split_and!; try done. intros l' s' Hl'. apply Hh; [done|by intros []].
Qed.
Next Obligation.
  intros w l s [Hok _] Hh. destruct (erase_ok w l s Hok Hh) as (w' & Hrun & Hd).
  apply did_top in Hd as (? & ? & ? & ?). by exists w'.
Qed.
