(* ===== verification/LedgerClaims.v ===== *)
(** * Properties of ledger views and directories *)
From S2P Require Import Prelude Outcome Bytes SHAMapNode LedgerEntry StateTable StateTableSpec ViewSpec ViewIter ViewTop ViewRefine.
From S2P Require Import Directory DirRing DirAdd DirRemove DirSpec DirIter DirRefine.

(** A new sandbox over a ledger. *)
Definition sandbox (m : gmap Z SLE) (d : Z) : Views := mkViews ∅ [Apply (mkApply ∅ 0)] (mkLedger m d).

Lemma sandbox_ok m d : filed m → top_ok (sandbox m d) ∧ top_map (sandbox m d) = m.
Proof.
  intros Hm. unfold top_ok, views_ok, top_map, sandbox. cbn [objs layers ledger state_map stack_ok stack_map layer_ok layer_map items_].
  rewrite over_empty. split; [|done]. split; [|eauto]. split_and!; [apply table_ok_empty|by intros l (k & a & [=])|done].
Qed.

(** The calls in a sandbox. *)
Lemma sandbox_run sha512Half root describe m d pages cs :
  filed m → distinct_pages sha512Half root → describes describe → dir_ok pages → dir_at sha512Half root m pages →
  dir_all_allowed cs pages = true →
  ∃ w, dir_run sha512Half root describe cs (sandbox m d) = (Return (spec_dir_run cs pages).1, w) ∧
    top_ok w ∧ frame (sandbox m d) w ∧ dir_at sha512Half root (top_map w) (spec_dir_run cs pages).2 ∧
    off_pages sha512Half root m (top_map w).
Proof.
  intros Hm Hd Hf Hok Hat Hall. destruct (sandbox_ok m d Hm) as [Htop Hmap].
  destruct (dir_run_ends sha512Half root describe (sandbox m d) Hd Hf m cs pages Hok Hat Hall (sandbox m d))
    as (rs & w & Hrun & -> & m' & [Hw <- _ Hfr] & Hat' & Hoff).
  { split; [done|done|by intros ?? ?%lookup_empty_Some|]. by apply (av_frame_refl (S := Views)). }
  exists w. by split_and!.
Qed.

(** A directory that is there and has one page without an entry. *)
Lemma only_empty_root pages :
  numbered pages → pages ≠ ∅ → pages = ∅ ∨ pages = {[0 := []]} ↔ size pages = 1%nat ∧ contents pages = [].
Proof.
  intros Hok Hne. split.
  - intros [? | ->]; [done|]. by rewrite map_size_singleton.
  - intros [Hs Hc]. right. destruct (do_root _ Hok Hne) as [es H0].
    assert (Hd : delete 0 pages = ∅).
    { apply map_size_empty_inv. rewrite map_size_delete_Some by eauto. by rewrite Hs. }
    rewrite <- (insert_delete_id _ _ _ H0), Hd in Hc. unfold contents, ascending in Hc.
    rewrite insert_empty, map_to_list_singleton in Hc. cbn in Hc. rewrite app_nil_r in Hc. rewrite <- (insert_delete_id _ _ _ H0), Hd, Hc. apply insert_empty.
Qed.

(** C7: the calls on stacked views are calls on finite maps. From a ledger whose
    entries are filed under their keys, let a caller open sandboxes and open views
    over it, read, iterate, modify, insert and erase entries, destroy drops, apply
    views to the view below or discard them. As long as the caller keeps to the
    contract of the views (keylets of the right type, no insertion of a key the
    view has, amounts that fit 64 bits), no call fails, and every call returns what
    the finite maps and fees of the views say: a view that is applied leaves the
    view below with exactly the entries the upper one presented. *)
Theorem views_refine_finite_maps m d cs :
  filed m → all_allowed cs (mkAState [] m d) = true →
  ∃ w, view_run cs (mkViews ∅ [] (mkLedger m d)) = (Return (spec_run cs (mkAState [] m d)).1, w) ∧
    abs w = (spec_run cs (mkAState [] m d)).2.
Proof.
  intros Hm Hall. destruct (run_refines cs (mkViews ∅ [] (mkLedger m d)) Hm Hall) as (w & Hrun & _ & Habs). by exists w.
Qed.

(** C8: directories refine their pages. In a sandbox over a ledger that holds a
    directory, every sequence of [dirAdd], [dirRemove] and [emptyDirDelete] calls
    returns, without a broken chain, what the specification on numbered pages says;
    once the sandbox is applied the ledger holds exactly the new pages, linked in a
    ring in the order of their numbers, and no other entry of the ledger changed.
    The pages stay well formed: at most 32 entries each, and none but the root and
    the last is empty. *)
Theorem directory_calls_refine_pages sha512Half root describe m d pages cs :
  filed m → distinct_pages sha512Half root → describes describe → dir_ok pages → dir_at sha512Half root m pages →
  dir_all_allowed cs pages = true → int64 d = true →
  ∃ h m', (rs ← dir_run sha512Half root describe cs; commit;; mret rs) (sandbox m d) =
      (Return (spec_dir_run cs pages).1, mkViews h [] (mkLedger m' d)) ∧
    dir_at sha512Half root m' (spec_dir_run cs pages).2 ∧ dir_ok (spec_dir_run cs pages).2 ∧ off_pages sha512Half root m m'.
Proof.
  intros Hm Hd Hf Hok Hat Hall Hint.
  destruct (sandbox_run sha512Half root describe m d pages cs Hm Hd Hf Hok Hat Hall) as (w & Hrun & [Hw _] & [Hg Hfr] & Hat' & Hoff).
  cbn in Hg, Hfr. destruct (layers w) as [|[t|t] ls] eqn:Hls; [done| |done]. destruct Hfr as (-> & Hfee & _).
  assert (Habs : abs w = mkAState [mkAView true (top_map w) 0] m d).
  { unfold abs, top_map. rewrite Hls, Hg. cbn. by rewrite Hfee. }
  destruct (commit_refines w Hw) as (w' & Hc & _ & Habs'). { rewrite Habs. cbn. by rewrite Z.sub_0_r. }
  rewrite Habs in Hc, Habs'. cbn in Hc, Habs'.
  assert (Hcommit : commit w = (Return (), w')).
  { unfold mbind, ST_bind in Hc. destruct (commit w) as [[[]|e|e|] w1]; [|done..]. unfold mret, ST_ret in Hc. congruence. }
  destruct w' as [h ls g]. unfold abs in Habs'. cbn in Habs'. destruct g as [m' d']. cbn in Habs'.
  destruct ls as [|ly ls]; [|done]. injection Habs' as Hm' Hd'. rewrite Z.sub_0_r in Hd'. subst.
  exists h, (top_map w). rewrite (ST_bind_return _ _ _ _ _ Hrun), (ST_bind_return _ _ _ _ _ Hcommit).
  split; [done|]. split; [done|]. split; [|done]. by apply dir_run_ok.
Qed.

(** C30: a loop over a directory visits its entries page by page. After any calls
    on a directory that leave it with a page, the loop with [cdirFirst] and
    [cdirNext] over the view and the loop with [dirFirst] and [dirNext] over its
    peeked entries both visit the entries of the pages in the order of the page
    numbers, and within a page in the order they are stored, and end after as many
    rounds; the second one leaves the entries of the view as they are. Each entry
    is visited as often as it was added and not removed. [forEachItem] reads the
    entries in the same order, and [dirIsEmpty] holds of no directory that has a
    second page or an entry. *)
Theorem directory_loop_visits_contents sha512Half root describe m d pages cs :
  filed m → distinct_pages sha512Half root → describes describe → dir_ok pages → dir_at sha512Half root m pages →
  dir_all_allowed cs pages = true → (spec_dir_run cs pages).2 ≠ ∅ →
  let pages' := (spec_dir_run cs pages).2 in
  let l := concat (ascending pages').*2 in
  ∃ rs w w', dir_run sha512Half root describe cs (sandbox m d) = (Return rs, w) ∧
    walk sha512Half root (view_at 0 w) (S (length l)) (size pages') = Return l ∧
    peek_walk sha512Half root (S (length l)) (size pages') w = (Return l, w') ∧ top_map w' = top_map w ∧
    (∀ x, occ x l = occ x (contents pages) + net x cs rs) ∧
    forEachItem sha512Half (view_at 0 w) (S (size pages')) (mkKeylet ltDIR_NODE root) = children (view_at 0 w) l ∧
    dirIsEmpty (view_at 0 w) (mkKeylet ltDIR_NODE root) = Return (bool_decide (size pages' = 1%nat ∧ l = [])).
Proof.
  intros Hm Hd Hf Hok Hat Hall Hne pages' l.
  destruct (sandbox_run sha512Half root describe m d pages cs Hm Hd Hf Hok Hat Hall) as (w & Hrun & Htop & _ & Hat' & _).
  destruct (dir_run_ok cs pages Hok Hall) as [Hok' Hocc].
  assert (presents (view_at 0 w) (top_map w)) as Hv by (rewrite <- top_map_at; apply view_at_presents, Htop).
  destruct (peek_walk_ends sha512Half root Hd (top_map w) pages' (do_numbered _ Hok') Hat' w ∅ Hne w) as (r & w' & Hpeek & -> & H' & [_ Hmap _ _]).
  { split; [exact Htop|done|by intros ?? ?%lookup_empty_Some|]. by apply (av_frame_refl (S := Views)). }
  eexists _, w, w'. split; [exact Hrun|]. split; [by eapply (walk_ok _ _ Hd (top_map w)); [apply Hok'|done|done|]|].
  split; [exact Hpeek|]. split; [exact Hmap|].
  split; [exact Hocc|]. split; [by eapply (forEachItem_ok _ _ Hd (top_map w)); [apply Hok'|..]|].
  erewrite (dirIsEmpty_ok _ _ Hd (top_map w)); [|apply Hok'|exact Hat'|exact Hv]. f_equal. apply bool_decide_ext.
  by apply only_empty_root; [apply Hok'|].
Qed.

(** What [spec_delete] does, by the number of pages. *)
Lemma delete_cases pages :
  numbered pages →
  spec_delete pages =
    (bool_decide (pages !! 0 = Some [] ∧ (size pages = 2%nat → contents pages = [])),
     if bool_decide (pages !! 0 = Some [] ∧ (size pages ≤ 2)%nat ∧ contents pages = []) then ∅ else pages).
Proof.
  intros Hnum. unfold spec_delete. destruct (pages !! 0) as [es0|] eqn:H0.
  2: { by rewrite !bool_decide_eq_false_2 by naive_solver. }
  destruct es0 as [|e es0]; [|by rewrite !bool_decide_eq_false_2 by naive_solver].
  destruct (first_page pages Hnum) as (es & post & Hs & Hes); [by intros ->|]. rewrite H0 in Hes. injection Hes as <-.
  assert (size pages = S (length post)) as Hsize by (by rewrite <- length_map_to_list, <- ascending_perm, Hs).
  assert (contents pages = concat post.*2) as Hcont by (unfold contents; by rewrite Hs).
  cbv zeta. unfold next_no. rewrite (above_split pages _ _ _ _ Hs), Hsize, Hcont.
  destruct post as [|[q es] post]; cbn [head fmap option_fmap option_map default fst from_option id].
  { by rewrite !bool_decide_eq_true_2 by naive_solver. }
  assert (pages !! q = Some es) as Hq by (apply elem_of_ascending; rewrite Hs; set_solver).
  assert (0 < q) as Hq0.
  { pose proof (ascending_sorted pages) as Hsort. rewrite Hs in Hsort.
    apply (sorted_head fst (0, []) ((q, es) :: post) (q, es) Hsort). by left. }
  rewrite (proj2 (Z.eqb_neq q 0)) by lia. rewrite (above_split pages ([] ++ [(0, [])]) q es post) by (by rewrite Hs).
  destruct post as [|[q2 es2] post]; cbn [head fmap option_fmap option_map default fst from_option id list_fmap snd concat length].
  - rewrite Z.eqb_refl, app_nil_r, Hq. case_bool_decide as He; simplify_eq.
    + by rewrite !bool_decide_eq_true_2 by naive_solver.
    + by rewrite !bool_decide_eq_false_2 by naive_solver.
  - assert (0 < q2) as Hq2.
    { pose proof (ascending_sorted pages) as Hsort. rewrite Hs in Hsort.
      apply (sorted_head fst (0, []) _ (q2, es2) Hsort). set_solver. }
    rewrite (proj2 (Z.eqb_neq q2 0)), bool_decide_eq_true_2, bool_decide_eq_false_2 by (naive_solver lia). done.
Qed.

(** C40: when [emptyDirDelete] answers true, and when it deletes. On a directory after
    any calls it answers true exactly where the root page is empty and the directory
    does not consist of two pages with an entry on the second one; it deletes the
    directory exactly where it has at most two pages and no entry, and otherwise
    leaves its pages as they are. So it answers true, and deletes nothing, for every
    directory of three or more pages whose root page is empty, whatever the others
    hold. *)
Theorem emptyDirDelete_answer sha512Half root describe m d pages cs :
  filed m → distinct_pages sha512Half root → describes describe → dir_ok pages → dir_at sha512Half root m pages →
  dir_all_allowed cs pages = true →
  let pages' := (spec_dir_run cs pages).2 in
  ∃ rs w r w', dir_run sha512Half root describe cs (sandbox m d) = (Return rs, w) ∧
    emptyDirDelete sha512Half (mkKeylet ltDIR_NODE root) w = (Return r, w') ∧
    (r = true ↔ pages' !! 0 = Some [] ∧ (size pages' = 2%nat → contents pages' = [])) ∧
    dir_at sha512Half root (top_map w')
      (if bool_decide (pages' !! 0 = Some [] ∧ (size pages' ≤ 2)%nat ∧ contents pages' = []) then ∅ else pages') ∧
    off_pages sha512Half root (top_map w) (top_map w').
Proof.
  intros Hm Hd Hf Hok Hat Hall pages'.
  destruct (sandbox_run sha512Half root describe m d pages cs Hm Hd Hf Hok Hat Hall) as (w & Hrun & Htop & _ & Hat' & _).
  destruct (dir_run_ok cs pages Hok Hall) as [Hok' _].
  destruct (emptyDirDelete_ends w sha512Half root Hd (top_map w) pages' (do_numbered _ Hok') Hat' w)
    as (r & w' & Hdel & -> & m' & [_ <- _ _] & Hat2 & Hoff).
  { split; [exact Htop|done|by intros ?? ?%lookup_empty_Some|]. by apply (av_frame_refl (S := Views)). }
  eexists _, w, _, w'. split; [exact Hrun|]. split; [exact Hdel|].
  rewrite (delete_cases pages' (do_numbered _ Hok')) in *.
  split; [apply bool_decide_eq_true|]. done.
Qed.

(** [dirAdd] gives up only on a full directory: it returns no page number
    exactly where the last page holds 32 entries and has the number 262143. *)
Theorem directory_full sha512Half root describe m d pages preserveOrder key :
  filed m → distinct_pages sha512Half root → describes describe → dir_ok pages → dir_at sha512Half root m pages →
  may_add key pages = true →
  ∃ r w, dirAdd sha512Half preserveOrder (mkKeylet ltDIR_NODE root) key describe (sandbox m d) = (Return r, w) ∧
    (r = None ↔ last_no pages = 262143 ∧ (32 ≤ length (default [] (pages !! last_no pages)))%nat).
Proof.
  intros Hm Hd Hf Hok Hat Hadd. destruct (sandbox_ok m d Hm) as [Htop Hmap].
  destruct (dirAdd_ends (sandbox m d) sha512Half root Hd m pages preserveOrder key describe (do_numbered _ Hok) Hat Hf Hadd (sandbox m d))
    as (r & w & Hrun & -> & _).
  { split; [done|done|by intros ?? ?%lookup_empty_Some|]. by apply (av_frame_refl (S := Views)). }
  eexists _, w. split; [exact Hrun|]. by apply add_full; [apply Hok|].
Qed.

(** ** Examples *)

(** A digest that tells the pages of the directory [demo_root] apart: the page number plus one. *)
Definition page_digest (bs : list Z) : Z := 1 + be_value (drop 34 bs).
Definition demo_root : Z := 2 ^ 60.
Definition demo_describe : SLE → SLE := describeOwnerDir [7].

Lemma demo_pk n : 0 < n < dirNodeMaxPages → pk page_digest demo_root n = 1 + n.
Proof.
  intros Hn. unfold pk, page. rewrite (proj2 (Z.eqb_neq n 0)) by lia. cbn [k_key]. unfold indexHash_page, page_digest.
  rewrite app_assoc, (drop_app_length' (be_bytes 2 100 ++ uint256_bytes demo_root)) by done. rewrite be_value_read; [done|].
  unfold dirNodeMaxPages in Hn. lia.
Qed.

Lemma demo_distinct : distinct_pages page_digest demo_root.
Proof.
  assert (Hk : ∀ n, 0 ≤ n < dirNodeMaxPages → pk page_digest demo_root n = if n =? 0 then demo_root else 1 + n).
  { intros n Hn. destruct (Z.eqb_spec n 0) as [->|Hne]; [done|]. apply demo_pk. lia. }
  unfold distinct_pages, dirNodeMaxPages, demo_root in *. split.
  - intros n Hn. rewrite Hk by done. destruct (Z.eqb_spec n 0); lia.
  - intros n n' Hn Hn'. rewrite (Hk n Hn), (Hk n' Hn'). destruct (Z.eqb_spec n 0) as [->|H1], (Z.eqb_spec n' 0) as [->|H2]; intros Heq; [done|..]; clear Hk; lia.
Qed.

Lemma demo_describes : describes demo_describe.
Proof.
  intros s. split_and!; [done..|]. intros c Hc. cbn. rewrite lookup_insert_ne; [done|]. intros <-.
  by repeat (apply elem_of_cons in Hc as [[=]|Hc]); apply elem_of_nil in Hc.
Qed.

Lemma empty_dir : filed ∅ ∧ dir_ok ∅ ∧ dir_at page_digest demo_root ∅ ∅.
Proof. split_and!; [done|split; [split|..]; done|done]. Qed.

(** Forty entries, some of which are removed again. *)
Definition demo_calls : list DCmd :=
  (DAdd false <$> seqZ 1 40) ++ [DRemove 0 5 false; DRemove 1 40 false; DRemove 1 99 false; DAdd true 99].

Lemma views_refine_finite_maps_witness :
  let m : gmap Z SLE := {[1 := mkSLE 1 10 ∅; 2 := mkSLE 2 10 ∅]} in
  let cs := [COpen; CSandbox; CInsert (mkSLE 3 10 ∅); CModify (mkKeylet 10 1) (setFieldU64 sfIndexNext 7); CErase (mkKeylet 10 2);
             CDestroy 12; CSucc 0 1 None; CCommit; CSles 0 None; CDiscard; CRead 0 (mkKeylet 10 2)] in
  (view_run cs (mkViews ∅ [] (mkLedger m 100))).1 = Return (spec_run cs (mkAState [] m 100)).1.
Proof.
  cbv zeta. destruct (views_refine_finite_maps {[1 := mkSLE 1 10 ∅; 2 := mkSLE 2 10 ∅]} 100
    [COpen; CSandbox; CInsert (mkSLE 3 10 ∅); CModify (mkKeylet 10 1) (setFieldU64 sfIndexNext 7); CErase (mkKeylet 10 2);
     CDestroy 12; CSucc 0 1 None; CCommit; CSles 0 None; CDiscard; CRead 0 (mkKeylet 10 2)]) as (w & Hrun & _).
  - intros k s [[<- <-]|[_ [<- <-]%lookup_singleton_Some]]%lookup_insert_Some; done.
  - vm_compute. reflexivity.
  - rewrite Hrun. reflexivity.
Defined.

Lemma directory_calls_refine_pages_witness :
  ∃ h m', (rs ← dir_run page_digest demo_root demo_describe demo_calls; commit;; mret rs) (sandbox ∅ 100) =
    (Return (spec_dir_run demo_calls ∅).1, mkViews h [] (mkLedger m' 100)).
Proof.
  destruct empty_dir as (H1 & H2 & H3).
  destruct (directory_calls_refine_pages page_digest demo_root demo_describe ∅ 100 ∅ demo_calls H1 demo_distinct demo_describes H2 H3)
    as (h & m' & Hrun & _); [vm_compute; reflexivity|vm_compute; reflexivity|]. exists h, m'. exact Hrun.
Defined.

Lemma directory_loop_visits_contents_witness :
  let l := concat (ascending (spec_dir_run demo_calls ∅).2).*2 in
  ∃ rs w w', dir_run page_digest demo_root demo_describe demo_calls (sandbox ∅ 100) = (Return rs, w) ∧
    walk page_digest demo_root (view_at 0 w) (S (length l)) (size (spec_dir_run demo_calls ∅).2) = Return l ∧
    peek_walk page_digest demo_root (S (length l)) (size (spec_dir_run demo_calls ∅).2) w = (Return l, w').
Proof.
  destruct empty_dir as (H1 & H2 & H3).
  destruct (directory_loop_visits_contents page_digest demo_root demo_describe ∅ 100 ∅ demo_calls H1 demo_distinct demo_describes H2 H3)
    as (rs & w & w' & Hrun & Hwalk & Hpeek & _).
  - vm_compute. reflexivity.
  - intros He%(f_equal size). vm_compute in He. discriminate He.
  - exists rs, w, w'. exact (conj Hrun (conj Hwalk Hpeek)).
Defined.

Lemma directory_full_witness :
  ∃ r w, dirAdd page_digest true (mkKeylet ltDIR_NODE demo_root) 5 demo_describe (sandbox ∅ 100) = (Return r, w) ∧ r ≠ None.
Proof.
  destruct empty_dir as (H1 & H2 & H3).
  destruct (directory_full page_digest demo_root demo_describe ∅ 100 ∅ true 5 H1 demo_distinct demo_describes H2 H3) as (r & w & Hrun & Hr).
  - vm_compute. reflexivity.
  - exists r, w. split; [exact Hrun|]. intros Hn. apply Hr in Hn as [Hl _]. vm_compute in Hl. discriminate Hl.
Defined.

(** 65 entries on three pages, of which those of the root are removed. *)
Definition three_pages : list DCmd :=
  (DAdd true <$> seqZ 1 65) ++ ((λ x, DRemove 0 x true) <$> seqZ 1 32).

Lemma emptyDirDelete_answer_witness :
  ∃ rs w w', dir_run page_digest demo_root demo_describe three_pages (sandbox ∅ 100) = (Return rs, w) ∧
    emptyDirDelete page_digest (mkKeylet ltDIR_NODE demo_root) w = (Return true, w') ∧
    dir_at page_digest demo_root (top_map w') (spec_dir_run three_pages ∅).2 ∧
    contents (spec_dir_run three_pages ∅).2 = seqZ 33 33.
Proof.
  destruct empty_dir as (H1 & H2 & H3).
  destruct (emptyDirDelete_answer page_digest demo_root demo_describe ∅ 100 ∅ three_pages H1 demo_distinct demo_describes H2 H3)
    as (rs & w & r & w' & Hrun & Hdel & Hr & Hat & _); [vm_compute; reflexivity|].
  assert (size (spec_dir_run three_pages ∅).2 = 3%nat) as Hsize by (vm_compute; reflexivity).
  assert (r = true) as ->.
  { apply Hr. split; [vm_compute; reflexivity|]. rewrite Hsize. discriminate. }
  exists rs, w, w'. split; [exact Hrun|]. split; [exact Hdel|].
  rewrite bool_decide_eq_false_2 in Hat by (rewrite Hsize; intros (_ & Hle & _); lia).
  split; [exact Hat|]. vm_compute. reflexivity.
Defined.
