(* ===== verification/SkipList.v ===== *)
(** * Hashes of past ledgers

    [Ledger::updateSkipList] ([app/ledger/Ledger.cpp]), [hashOfSeq], [areCompatible]
    ([ledger/impl/View.cpp]) and [getCandidateLedger] ([ledger/View.h]): every ledger
    holds the hashes of its last 256 predecessors, and of every predecessor whose
    sequence is a multiple of 256, in pages of 65536 ledgers. *)
From S2P Require Import Prelude Outcome Bytes SHAMapNode LedgerEntry StateTable.

(** What is used of [LedgerInfo]. *)
Record LedgerInfo := mkInfo { info_seq : Z; info_hash : Z; parentHash : Z }.

Definition ltLEDGER_HASHES : Z := 104.
Definition sfLastLedgerSequence : Z := Eval compute in field_code 2 27.
Definition sfHashes : Z := Eval compute in field_code 19 2.

Definition getFieldU32 (f : Z) (sle : SLE) : Z := default 0 (fields sle !! f ≫= head).
Definition setFieldU32 (f x : Z) : SLE → SLE := set_field f [x].

Definition LEDGER_HASHES_max : nat := 256.

Section skip.
Context (sha512Half : list Z → Z).

(** [keylet::skip ()], in the name space 's', and [keylet::skip (ledger)]. *)
Definition skip : Keylet := mkKeylet ltLEDGER_HASHES (sha512Half (be_bytes 2 115)).
Definition skip_page (ledger : Z) : Keylet :=
  mkKeylet ltLEDGER_HASHES (sha512Half (be_bytes 2 115 ++ be_bytes 4 (Z.shiftr ledger 16))).

(** [Ledger::peek]: a new object for the entry. *)
Definition ledger_peek (k : Keylet) (g : Ledger) : exc (option SLE) :=
  match state_map g !! k_key k with
  | None => Return None
  | Some s => b ← check k s; Return (if (b : bool) then Some s else None)
  end.

(** The entry goes back to the ledger with [rawInsert] or [rawReplace]. *)
Definition store_sle (created : bool) (sle : SLE) (g : Ledger) : exc Ledger :=
  let objs : gmap loc SLE := {[1%positive := sle]} in
  if created then ledger_rawInsert objs 1%positive g else ledger_rawReplace objs 1%positive g.

(** One of the records: the hashes that it has, shortened by [room], and the new one. *)
Definition record_hash (k : Keylet) (room : list Z → list Z) (prevIndex hash : Z) (g : Ledger) : exc Ledger :=
  sle ← ledger_peek k g;
  let created := match sle with None => true | Some _ => false end in
  let hashes := match sle with None => [] | Some sle => getFieldV256 sfHashes sle end in
  let sle := default (SLE_ctor k) sle in
  if negb (length hashes <=? LEDGER_HASHES_max)%nat then Abort "hashes.size() <= 256"
  else
    let hashes := room hashes ++ [hash] in
    store_sle created (setFieldU32 sfLastLedgerSequence prevIndex (setFieldV256 sfHashes hashes sle)) g.

(** [if (hashes.size() == 256) hashes.erase(hashes.begin())]. *)
Definition drop_oldest (hashes : list Z) : list Z := if (length hashes =? LEDGER_HASHES_max)%nat then tail hashes else hashes.

Definition updateSkipList (info : LedgerInfo) (g : Ledger) : exc Ledger :=
  if info_seq info =? 0 then Return g
  else
    let prevIndex := u32 (info_seq info - 1) in
    g ← (if Z.land prevIndex 255 =? 0 then record_hash (skip_page prevIndex) id prevIndex (parentHash info) g else Return g);
    record_hash skip drop_oldest prevIndex (parentHash info) g.

(** ** Looking up *)

Definition hashOfSeq_page (ledger : ReadView) (seq : Z) : exc (option Z) :=
  if negb (Z.land seq 255 =? 0) then Return None
  else
    hashIndex ← rv_read ledger (skip_page seq);
    match hashIndex with
    | None => Return None
    | Some hashIndex =>
      let lastSeq := getFieldU32 sfLastLedgerSequence hashIndex in
      if negb (seq <=? lastSeq) then Abort "lastSeq >= seq"
      else if negb (Z.land lastSeq 255 =? 0) then Abort "(lastSeq & 0xff) == 0"
      else
        let diff := Z.shiftr (u32 (lastSeq - seq)) 8 in
        let vec := getFieldV256 sfHashes hashIndex in
        if diff <? Z.of_nat (length vec) then Return (vec !! Z.to_nat (Z.of_nat (length vec) - diff - 1)) else Return None
    end.

Definition hashOfSeq (ledger : ReadView) (info : LedgerInfo) (seq : Z) : exc (option Z) :=
  if info_seq info <? seq then Return None
  else if seq =? info_seq info then Return (Some (info_hash info))
  else if seq =? u32 (info_seq info - 1) then Return (Some (parentHash info))
  else
    let diff := i32 (u32 (info_seq info - seq)) in
    if diff <=? 256 then
      hashIndex ← rv_read ledger skip;
      match hashIndex with
      | None => hashOfSeq_page ledger seq
      | Some hashIndex =>
        if negb (getFieldU32 sfLastLedgerSequence hashIndex =? u32 (info_seq info - 1)) then
          Abort "hashIndex->getFieldU32(sfLastLedgerSequence) == (ledger.seq() - 1)"
        else
          let vec := getFieldV256 sfHashes hashIndex in
          (* the comparison is one of 64-bit unsigned integers *)
          if u64 diff <=? Z.of_nat (length vec) then Return (vec !! Z.to_nat (Z.of_nat (length vec) - diff))
          else hashOfSeq_page ledger seq
      end
    else hashOfSeq_page ledger seq.

(** [requested + 255 & ~255]. *)
Definition getCandidateLedger (requested : Z) : Z := Z.land (u32 (requested + 255)) (2 ^ 32 - 256).

(** Both forms of [areCompatible]. *)
Definition areCompatible (validLedger : ReadView) (valid : LedgerInfo) (testLedger : ReadView) (test : LedgerInfo) : exc bool :=
  if info_seq valid <? info_seq test then
    hash ← hashOfSeq testLedger test (info_seq valid);
    Return (match hash with Some hash => hash =? info_hash valid | None => true end)
  else if info_seq test <? info_seq valid then
    hash ← hashOfSeq validLedger valid (info_seq test);
    Return (match hash with Some hash => hash =? info_hash test | None => true end)
  else Return (info_hash valid =? info_hash test).

Definition areCompatible_hash (validHash validIndex : Z) (testLedger : ReadView) (test : LedgerInfo) : exc bool :=
  if validIndex <? info_seq test then
    hash ← hashOfSeq testLedger test validIndex;
    Return (match hash with Some hash => hash =? validHash | None => true end)
  else if validIndex =? info_seq test then Return (info_hash test =? validHash)
  else Return true.
End skip.
