(* ===== verification/SkipListClaims.v ===== *)
(** * What the skip list knows

    Along a chain of ledgers that each update their skip list, [hashOfSeq] returns
    the hash of the chain's ledger, and it returns it for each of the last 256
    ledgers and for every ledger whose sequence is a multiple of 256. *)
From S2P Require Import Prelude Outcome Bytes SHAMapNode LedgerEntry StateTable StateTableSpec SkipList.

Section chain.
Context (sha512Half : list Z → Z) (H : Z → Z) (s0 : Z) (Hs0 : 0 < s0).
Definition sk : Z := k_key (skip sha512Half).
Definition skp (g : Z) : Z := k_key (skip_page sha512Half (65536 * g)).

(** No two records have the same key. *)
Definition distinct_skips : Prop :=
  sk ≠ 0 ∧ (∀ g, 0 ≤ g < 65536 → skp g ≠ 0 ∧ skp g ≠ sk) ∧
  ∀ g g', 0 ≤ g < 65536 → 0 ≤ g' < 65536 → skp g = skp g' → g = g'.

(** ** What the records of the ledger with sequence [s] hold *)

Definition oldest (s : Z) : Z := Z.max s0 (s - 256).
Definition recent_hashes (s : Z) : list Z := H <$> seqZ (oldest s) (s - oldest s).

(** The multiples of 256 in page [g]: from [flag_first] on, [flag_count] of them. *)
Definition flag_first (g : Z) : Z := Z.max (65536 * g) (256 * ((s0 + 255) / 256)).
Definition flag_count (g s : Z) : Z := Z.max 0 ((Z.min s (65536 * (g + 1)) - flag_first g + 255) / 256).
Definition flag_hashes (g s : Z) : list Z := (λ j, H (flag_first g + 256 * j)) <$> seqZ 0 (flag_count g s).

Record hash_record (sle : SLE) (hashes : list Z) (last : Z) : Prop := {
  hr_type : getType sle = ltLEDGER_HASHES;
  hr_hashes : getFieldV256 sfHashes sle = hashes;
  hr_last : getFieldU32 sfLastLedgerSequence sle = last }.

Definition has_record (m : gmap Z SLE) (k : Z) (hashes : list Z) (last : Z) : Prop :=
  match hashes with
  | [] => m !! k = None
  | _ :: _ => ∃ sle, m !! k = Some sle ∧ sle_key sle = k ∧ hash_record sle hashes last
  end.

Record skips (m : gmap Z SLE) (s : Z) : Prop := {
  sk_recent : has_record m sk (recent_hashes s) (s - 1);
  sk_flags g : 0 ≤ g < 65536 → has_record m (skp g) (flag_hashes g s) (flag_first g + 256 * (flag_count g s - 1)) }.

(** ** A record is updated *)

Lemma store_created k sle g :
  state_map g !! k = None → sle_key sle = k → store_sle true sle g = Return (mkLedger (<[k := sle]> (state_map g)) (drops g)).
Proof.
  intros Hn Hk. unfold store_sle, ledger_rawInsert, deref. rewrite lookup_singleton_eq. cbn [mbind exc_bind]. by rewrite Hk, Hn.
Qed.

Lemma store_replaced k sle s g :
  state_map g !! k = Some s → sle_key sle = k → store_sle false sle g = Return (mkLedger (<[k := sle]> (state_map g)) (drops g)).
Proof.
  intros Hn Hk. unfold store_sle, ledger_rawReplace, deref. rewrite lookup_singleton_eq. cbn [mbind exc_bind]. by rewrite Hk, Hn.
Qed.

Lemma hashes_check k sle hashes last : k_type k = ltLEDGER_HASHES → hash_record sle hashes last → check k sle = Return true.
Proof. intros Hk [Ht _ _]. unfold check. rewrite Hk, Ht. done. Qed.

Lemma record_ok k room prev hash g hashes last :
  k_type k = ltLEDGER_HASHES → has_record (state_map g) (k_key k) hashes last → (length hashes ≤ 256)%nat → room [] = [] →
  ∃ sle, record_hash k room prev hash g = Return (mkLedger (<[k_key k := sle]> (state_map g)) (drops g)) ∧
    sle_key sle = k_key k ∧ hash_record sle (room hashes ++ [hash]) prev.
Proof.
  intros Ht Hr Hlen Hroom. unfold record_hash, ledger_peek.
  assert (Hrec : ∀ s l, getType s = ltLEDGER_HASHES →
    hash_record (setFieldU32 sfLastLedgerSequence prev (setFieldV256 sfHashes l s)) l prev).
  { intros s l Hs. split; [done|..]; unfold getFieldV256, getFieldU32, setFieldU32, setFieldV256, set_field; cbn.
    - by rewrite lookup_insert_ne, lookup_insert_eq.
    - by rewrite lookup_insert_eq. }
  destruct hashes as [|h hs].
  - cbn in Hr. rewrite Hr. cbn [mbind exc_bind length default]. rewrite Hroom. cbn. eexists. split; [by apply store_created|].
    split; [done|]. by apply Hrec.
  - destruct Hr as (sle & Hm & Hk & Hr). rewrite Hm. cbn [mbind exc_bind]. rewrite (hashes_check k sle _ _ Ht Hr). cbn [mbind exc_bind].
    rewrite (hr_hashes _ _ _ Hr). rewrite (proj2 (Nat.leb_le _ _)) by done. cbn [negb].
    eexists. split; [by eapply store_replaced|]. split; [done|]. apply Hrec, Hr.
Qed.

Lemma has_record_some (m : gmap Z SLE) k sle hashes last :
  hashes ≠ [] → sle_key sle = k → hash_record sle hashes last → has_record (<[k := sle]> m) k hashes last.
Proof. intros Hne Hk Hr. destruct hashes; [done|]. exists sle. by rewrite lookup_insert_eq. Qed.

Lemma has_record_ext m m' k hashes last : m' !! k = m !! k → has_record m k hashes last → has_record m' k hashes last.
Proof. unfold has_record. by intros ->. Qed.

(** ** The lists grow *)

Lemma recent_grow s : s0 ≤ s → recent_hashes (s + 1) = drop_oldest (recent_hashes s) ++ [H s].
Proof.
  intros Hs. unfold recent_hashes, drop_oldest, oldest, LEDGER_HASHES_max. rewrite length_fmap, length_seqZ.
  destruct (Nat.eqb_spec (Z.to_nat (s - Z.max s0 (s - 256))) 256) as [Hf|Hf].
  - rewrite !Z.max_r by lia. replace (s + 1 - (s + 1 - 256)) with (255 + 1) by lia. replace (s - (s - 256)) with 256 by lia.
    rewrite (seqZ_cons (s - 256) 256) by lia. cbn [fmap list_fmap tail]. rewrite seqZ_app by lia. rewrite fmap_app. f_equal.
    + f_equal. f_equal; lia.
    + rewrite (seqZ_cons _ 1) by lia. cbn. f_equal. f_equal. lia.
  - rewrite !Z.max_l by lia. replace (s + 1 - s0) with ((s - s0) + 1) by lia. rewrite seqZ_app by lia. rewrite fmap_app. f_equal.
    rewrite (seqZ_cons _ 1) by lia. cbn. f_equal. f_equal. lia.
Qed.

Lemma flag_count_grow g s :
  0 ≤ g → s0 ≤ s →
  (s mod 256 = 0 ∧ s / 65536 = g → flag_count g (s + 1) = flag_count g s + 1 ∧ flag_first g + 256 * flag_count g s = s) ∧
  (¬ (s mod 256 = 0 ∧ s / 65536 = g) → flag_count g (s + 1) = flag_count g s).
Proof using H Hs0.
  intros Hg Hs. unfold flag_count, flag_first.
  pose proof (Z.div_mod (s0 + 255) 256 ltac:(lia)). pose proof (Z.mod_pos_bound (s0 + 255) 256 ltac:(lia)).
  set (c := (s0 + 255) / 256) in *. set (a := Z.max (65536 * g) (256 * c)) in *.
  assert (Ha : ∃ k, a = 256 * k) by (destruct (Z.max_spec (65536 * g) (256 * c)) as [[_ E]|[_ E]]; fold a in E; [by exists c|exists (256 * g); lia]).
  destruct Ha as [k Ha]. split.
  - intros [Hm Hd]. assert (Hs' : s = 256 * (s / 256)) by (pose proof (Z.div_mod s 256 ltac:(lia)); lia).
    set (t := s / 256) in *. pose proof (Z.div_mod s 65536 ltac:(lia)). pose proof (Z.mod_pos_bound s 65536 ltac:(lia)).
    rewrite !Z.min_l by lia. assert (Hat : k ≤ t) by lia.
    replace (s + 1 - a + 255) with ((t - k + 1) * 256) by lia. rewrite Z.div_mul by lia.
    replace (s - a + 255) with (255 + (t - k) * 256) by lia. rewrite Z.div_add by lia. change (255 / 256) with 0. lia.
  - intros Hn. destruct (decide (s + 1 ≤ 65536 * (g + 1))) as [Hin|Hout]; [|rewrite !Z.min_r by lia; done].
    rewrite !Z.min_l by lia. destruct (decide (a ≤ s)) as [Has|Has].
    2: { assert (Hz : ∀ x, x ≤ 255 → x / 256 ≤ 0) by (intros x Hx; apply Z.lt_succ_r, Z.div_lt_upper_bound; lia).
         rewrite !Z.max_l; [done|apply Hz; lia..]. }
    f_equal. assert (Hg' : s / 65536 = g) by (symmetry; apply (Z.div_unique s 65536 g (s - 65536 * g)); lia).
    assert (Hm : s mod 256 ≠ 0) by tauto. pose proof (Z.div_mod s 256 ltac:(lia)). pose proof (Z.mod_pos_bound s 256 ltac:(lia)).
    set (t := s / 256) in *. set (r := s mod 256) in *.
    replace (s + 1 - a + 255) with (r + (t - k + 1) * 256) by lia. replace (s - a + 255) with (r - 1 + (t - k + 1) * 256) by lia.
    rewrite !Z.div_add by lia. rewrite !Z.div_small by lia. done.
Qed.

Lemma flag_grow g s :
  0 ≤ g → s0 ≤ s →
  flag_hashes g (s + 1) = if bool_decide (s mod 256 = 0 ∧ s / 65536 = g) then flag_hashes g s ++ [H s] else flag_hashes g s.
Proof using H Hs0.
  intros Hg Hs. destruct (flag_count_grow g s Hg Hs) as [H1 H2]. unfold flag_hashes. case_bool_decide as Hd; [|by rewrite H2].
  destruct (H1 Hd) as [-> Hl]. assert (0 ≤ flag_count g s) by (unfold flag_count; lia).
  rewrite seqZ_app by lia. rewrite fmap_app. f_equal. rewrite (seqZ_cons _ 1) by lia. cbn. f_equal. f_equal. lia.
Qed.

(** ** The update *)

Lemma skp_of s : 0 ≤ s → k_key (skip_page sha512Half s) = skp (s / 65536).
Proof.
  intros Hs. unfold skp, skip_page. cbn [k_key]. rewrite !Z.shiftr_div_pow2 by lia. change (2 ^ 16) with 65536.
  by rewrite (Z.mul_comm 65536), Z.div_mul.
Qed.

Lemma recent_length s : (length (recent_hashes s) ≤ 256)%nat.
Proof. unfold recent_hashes, oldest. rewrite length_fmap, length_seqZ. lia. Qed.

Lemma flag_count_bound g s : 0 ≤ flag_count g s ≤ 256.
Proof.
  unfold flag_count, flag_first. split; [lia|]. apply Z.max_lub; [lia|]. apply Z.lt_succ_r, Z.div_lt_upper_bound; lia.
Qed.

Lemma land_255_mod x : Z.land x 255 = x mod 256.
Proof. change 255 with (Z.ones 8). by rewrite Z.land_ones by lia. Qed.

(** Entries that are not part of the skip list. *)
Definition off_skips (m m' : gmap Z SLE) : Prop := ∀ k, k ≠ sk → (∀ g, 0 ≤ g < 65536 → k ≠ skp g) → m' !! k = m !! k.

Context (Hd : distinct_skips).

Lemma page_update m d s :
  skips m s → s0 ≤ s → s + 1 < 2 ^ 32 →
  ∃ m', (if Z.land s 255 =? 0 then record_hash (skip_page sha512Half s) id s (H s) (mkLedger m d) else Return (mkLedger m d)) =
      Return (mkLedger m' d) ∧ m' !! sk = m !! sk ∧ off_skips m m' ∧
    ∀ g, 0 ≤ g < 65536 → has_record m' (skp g) (flag_hashes g (s + 1)) (flag_first g + 256 * (flag_count g (s + 1) - 1)).
Proof using Hs0 Hd.
  intros Hm Hs Hlt. rewrite land_255_mod. pose proof (skp_of s ltac:(lia)) as Hk.
  assert (Hg : 0 ≤ s / 65536 < 65536) by (split; [apply Z.div_pos; lia|apply Z.div_lt_upper_bound; lia]).
  destruct (Z.eqb_spec (s mod 256) 0) as [Hz|Hz].
  - pose proof (sk_flags _ _ Hm _ Hg) as Hf. rewrite <- Hk in Hf.
    destruct (record_ok (skip_page sha512Half s) id s (H s) (mkLedger m d) _ _ eq_refl Hf) as (sle & Hrun & Hkey & Hrec); [|done|].
    { unfold flag_hashes. rewrite length_fmap, length_seqZ. pose proof (flag_count_bound (s / 65536) s). lia. }
    rewrite Hrun. cbn [state_map drops]. eexists. split; [done|]. rewrite Hk. split_and!.
    + rewrite lookup_insert_ne; [done|]. apply Hd, Hg.
    + intros k Hsk Hsp. rewrite lookup_insert_ne; [done|]. by apply not_eq_sym, Hsp.
    + intros g Hg'. destruct (flag_count_grow g s ltac:(lia) Hs) as [C1 C2]. rewrite (flag_grow g s ltac:(lia) Hs).
      case_bool_decide as Hdec.
      * destruct Hdec as [_ <-]. destruct (C1 (conj Hz eq_refl)) as [-> Hlast]. apply has_record_some; [by destruct (flag_hashes _ s)|congruence|].
        replace (flag_first (s / 65536) + 256 * (flag_count (s / 65536) s + 1 - 1)) with s by lia. exact Hrec.
      * rewrite (C2 Hdec). eapply has_record_ext; [|by apply (sk_flags _ _ Hm)]. apply lookup_insert_ne. intros Heq.
        apply Hdec. split; [done|]. by apply Hd in Heq.
  - exists m. split_and!; [done..|]. intros g Hg'. destruct (flag_count_grow g s ltac:(lia) Hs) as [_ C2].
    rewrite (flag_grow g s ltac:(lia) Hs), bool_decide_eq_false_2 by tauto. rewrite C2 by tauto. by apply (sk_flags _ _ Hm).
Qed.

Lemma skip_update_ok m d s hash :
  skips m s → s0 ≤ s → s + 1 < 2 ^ 32 →
  ∃ m', updateSkipList sha512Half (mkInfo (s + 1) hash (H s)) (mkLedger m d) = Return (mkLedger m' d) ∧
    skips m' (s + 1) ∧ off_skips m m'.
Proof using Hs0 Hd.
  intros Hm Hs Hlt. unfold updateSkipList. cbn [info_seq parentHash]. rewrite (proj2 (Z.eqb_neq _ _)) by lia.
  replace (s + 1 - 1) with s by lia. rewrite (u32_id s) by lia.
  destruct (page_update m d s Hm Hs Hlt) as (m1 & -> & Hsk & Hoff & Hfl). cbn [mbind exc_bind].
  destruct (record_ok (skip sha512Half) drop_oldest s (H s) (mkLedger m1 d) (recent_hashes s) (s - 1) eq_refl) as (sle & Hrun & Hkey & Hrec).
  { eapply has_record_ext; [exact Hsk|]. apply Hm. } { apply recent_length. } { done. }
  rewrite Hrun. cbn [state_map drops]. eexists. split; [done|]. split; [split|].
  - rewrite recent_grow by done. apply has_record_some; [by destruct (drop_oldest _)|done|]. by replace (s + 1 - 1) with s by lia.
  - intros g Hg. eapply has_record_ext; [|by apply Hfl]. apply lookup_insert_ne. apply not_eq_sym. by apply Hd.
  - intros k H1 H2. rewrite lookup_insert_ne by done. by apply Hoff.
Qed.

(** A ledger without records, and changes of other entries. *)
Lemma skips_first m : m !! sk = None → (∀ g, 0 ≤ g < 65536 → m !! skp g = None) → skips m s0.
Proof using Hs0.
  intros H1 H2. split.
  - unfold recent_hashes, oldest. rewrite Z.max_l, Z.sub_diag by lia. exact H1.
  - intros g Hg. unfold flag_hashes. assert (flag_count g s0 = 0) as ->; [|by apply H2].
    unfold flag_count, flag_first. pose proof (Z.div_mod (s0 + 255) 256 ltac:(lia)). pose proof (Z.mod_pos_bound (s0 + 255) 256 ltac:(lia)).
    apply Z.max_l, Z.lt_succ_r, Z.div_lt_upper_bound; lia.
Qed.

Lemma skips_same m m' s : m' !! sk = m !! sk → (∀ g, 0 ≤ g < 65536 → m' !! skp g = m !! skp g) → skips m s → skips m' s.
Proof. intros H1 H2 [R F]. split; [by eapply has_record_ext|]. intros g Hg. eapply has_record_ext; [by apply H2|by apply F]. Qed.

(** ** The lookup *)

Section lookup.
Context (m : gmap Z SLE) (s : Z) (Hm : skips m s) (Hs : s0 < s < 2 ^ 32) (v : ReadView) (Hv : presents v m).

Lemma read_record k hashes last :
  k_type k = ltLEDGER_HASHES → k_key k ≠ 0 → has_record m (k_key k) hashes last →
  match hashes with
  | [] => rv_read v k = Return None
  | _ :: _ => ∃ sle, rv_read v k = Return (Some sle) ∧ hash_record sle hashes last
  end.
Proof using Hv.
  intros Ht Hk Hr. rewrite (pr_read _ _ Hv) by done. unfold read_of. destruct hashes as [|h hs].
  - cbn in Hr. by rewrite Hr.
  - destruct Hr as (sle & Hl & _ & Hr). rewrite Hl. exists sle. split; [|done]. by rewrite (hashes_check k sle _ _ Ht Hr).
Qed.

Lemma page_lookup q :
  0 ≤ q < s → hashOfSeq_page sha512Half v q = Return (if bool_decide (s0 ≤ q ∧ q mod 256 = 0) then Some (H q) else None).
Proof using Hm Hs Hv Hs0 Hd.
  intros Hq. unfold hashOfSeq_page. rewrite land_255_mod.
  destruct (Z.eqb_spec (q mod 256) 0) as [Hz|Hz]; cbn [negb]; [|by rewrite bool_decide_eq_false_2 by tauto].
  assert (Hg : 0 ≤ q / 65536 < 65536) by (split; [apply Z.div_pos; lia|apply Z.div_lt_upper_bound; lia]).
  set (g := q / 65536) in *. pose proof (sk_flags _ _ Hm g Hg) as Hf.
  pose proof (skp_of q ltac:(lia)) as Hk. fold g in Hk. rewrite <- Hk in Hf.
  assert (Hknz : k_key (skip_page sha512Half q) ≠ 0) by (rewrite Hk; apply Hd, Hg).
  pose proof (read_record (skip_page sha512Half q) _ _ eq_refl Hknz Hf) as Hr.
  (* the page starts at [a] and has [c] hashes *)
  pose proof (Z.div_mod q 256 ltac:(lia)) as Hqd. pose proof (Z.div_mod q 65536 ltac:(lia)) as Hqg.
  pose proof (Z.mod_pos_bound q 65536 ltac:(lia)) as Hqm. fold g in Hqg.
  pose proof (flag_count_bound g s) as Hc.
  assert (Ha : ∃ k, flag_first g = 256 * k ∧ (s0 ≤ q ↔ k ≤ q / 256) ∧ 0 ≤ k).
  { unfold flag_first. pose proof (Z.div_mod (s0 + 255) 256 ltac:(lia)). pose proof (Z.mod_pos_bound (s0 + 255) 256 ltac:(lia)).
    exists (Z.max (256 * g) ((s0 + 255) / 256)). lia. }
  destruct Ha as (k & Ha & Hin & Hk0).
  assert (Hcin : s0 ≤ q → q / 256 - k < flag_count g s).
  { intros Hsq. unfold flag_count. rewrite Ha. apply (Z.lt_le_trans _ ((Z.min s (65536 * (g + 1)) - 256 * k + 255) / 256)); [|lia].
    apply (Z.lt_le_trans _ (q / 256 - k + 1)); [lia|]. apply Z.div_le_lower_bound; lia. }
  assert (Hlast : flag_count g s = 0 ∨ 256 * k + 256 * (flag_count g s - 1) < s).
  { destruct (Z.eq_dec (flag_count g s) 0) as [|Hne]; [by left|right]. unfold flag_count in *. rewrite Ha in *.
    set (x := Z.min s (65536 * (g + 1)) - 256 * k + 255) in *. pose proof (Z.div_mod x 256 ltac:(lia)).
    pose proof (Z.mod_pos_bound x 256 ltac:(lia)). lia. }
  destruct (flag_hashes g s) as [|h0 hs] eqn:Hfl.
  { rewrite Hr. cbn. rewrite bool_decide_eq_false_2; [done|]. intros [Hsq _]. specialize (Hcin Hsq). apply Hin in Hsq.
    assert (Hl : length (flag_hashes g s) = 0%nat) by (by rewrite Hfl). unfold flag_hashes in Hl. rewrite length_fmap, length_seqZ in Hl. lia. }
  destruct Hr as (sle & -> & Hrec). cbn [mbind exc_bind]. rewrite (hr_last _ _ _ Hrec), (hr_hashes _ _ _ Hrec), <- Hfl, Ha.
  assert (Hlen : Z.of_nat (length (flag_hashes g s)) = flag_count g s).
  { unfold flag_hashes. rewrite length_fmap, length_seqZ. lia. }
  assert (Hc1 : 1 ≤ flag_count g s) by (rewrite <- Hlen, Hfl; cbn; lia). rewrite Hlen.
  set (c := flag_count g s) in *. set (t := q / 256) in *.
  assert (Hql : q ≤ 256 * k + 256 * (c - 1)) by (destruct (Z.le_gt_cases s0 q) as [Hsq|Hsq]; [specialize (Hcin Hsq)|apply Z.lt_nge in Hsq; rewrite Hin in Hsq]; lia).
  rewrite (proj2 (Z.leb_le _ _)) by done. cbn [negb].
  rewrite land_255_mod. replace (256 * k + 256 * (c - 1)) with ((k + c - 1) * 256) by lia. rewrite Z.mod_mul, Z.eqb_refl by lia. cbn [negb].
  replace ((k + c - 1) * 256 - q) with ((k + c - 1 - t) * 256) by lia. rewrite u32_id by lia.
  rewrite Z.shiftr_div_pow2, Z.div_mul by lia. destruct (Z.ltb_spec (k + c - 1 - t) c) as [Hlt|Hge].
  - rewrite bool_decide_eq_true_2 by (split; [apply Hin; lia|done]). f_equal. unfold flag_hashes. fold c.
    rewrite list_lookup_fmap, lookup_seqZ_lt by lia. cbn. f_equal. f_equal. rewrite Ha. lia.
  - rewrite bool_decide_eq_false_2; [done|]. intros [Hsq _]. apply Hin in Hsq. lia.
Qed.

(** The ledgers whose hashes the ledger [s] knows. *)
Definition known (q : Z) : bool := (s0 <=? q) && (q <=? s) && ((s - q <=? 256) || (q mod 256 =? 0)).

Lemma hashOfSeq_ok q :
  0 ≤ q < 2 ^ 32 →
  hashOfSeq sha512Half v (mkInfo s (H s) (H (s - 1))) q = Return (if known q then Some (H q) else None).
Proof using Hm Hs Hv Hs0 Hd.
  intros Hq. unfold hashOfSeq, known. cbn [info_seq info_hash parentHash].
  destruct (Z.ltb_spec s q) as [Hf|Hf]. { by rewrite (proj2 (Z.leb_gt q s)), andb_false_r by lia. }
  destruct (Z.eqb_spec q s) as [->|Hne].
  { rewrite !(proj2 (Z.leb_le _ _)) by lia. done. }
  rewrite (u32_id (s - 1)) by lia. destruct (Z.eqb_spec q (s - 1)) as [->|Hne1].
  { rewrite !(proj2 (Z.leb_le _ _)) by lia. done. }
  assert (Hpage : hashOfSeq_page sha512Half v q = Return (if (s0 <=? q) && (q mod 256 =? 0) then Some (H q) else None)).
  { rewrite page_lookup by lia. f_equal. destruct (Z.leb_spec s0 q), (Z.eqb_spec (q mod 256) 0); cbn [andb];
      (first [rewrite bool_decide_eq_true_2 by lia|rewrite bool_decide_eq_false_2 by lia]); done. }
  assert (Hrec : ∃ sle, rv_read v (skip sha512Half) = Return (Some sle) ∧ hash_record sle (recent_hashes s) (s - 1)).
  { pose proof (read_record (skip sha512Half) _ _ eq_refl (proj1 Hd) (sk_recent _ _ Hm)) as Hr.
    destruct (recent_hashes s) as [|h hs] eqn:He; [|done]. exfalso. assert (Hl : length (recent_hashes s) = 0%nat) by (by rewrite He).
    unfold recent_hashes, oldest in Hl. rewrite length_fmap, length_seqZ in Hl. lia. }
  destruct Hrec as (sle & Hread & Hrec). rewrite (u32_id (s - q)) by lia. rewrite (proj2 (Z.leb_le q s)) by lia. rewrite andb_true_r.
  assert (Hlen : Z.of_nat (length (recent_hashes s)) = s - oldest s).
  { unfold recent_hashes, oldest. rewrite length_fmap, length_seqZ. lia. }
  destruct (Z.leb_spec (s - q) 256) as [Hin|Hout]; cbn [orb].
  - assert (i32 (s - q) = s - q) as -> by (unfold i32; rewrite Z.mod_small by lia; lia).
    rewrite (proj2 (Z.leb_le (s - q) 256)) by lia. rewrite Hread. cbn [mbind exc_bind].
    rewrite (hr_last _ _ _ Hrec), Z.eqb_refl. cbn [negb]. rewrite (hr_hashes _ _ _ Hrec), Hlen. unfold u64. rewrite Z.mod_small by lia.
    unfold oldest in *. destruct (Z.leb_spec s0 q) as [Hq0|Hq0]; cbn [andb].
    + rewrite (proj2 (Z.leb_le _ _)) by lia. f_equal. unfold recent_hashes, oldest. rewrite list_lookup_fmap, lookup_seqZ_lt by lia. cbn.
      f_equal. f_equal. lia.
    + rewrite (proj2 (Z.leb_gt _ _)) by lia. exact Hpage.
  - destruct (Z.leb_spec (i32 (s - q)) 256) as [Hneg|_]; [|exact Hpage]. rewrite Hread. cbn [mbind exc_bind].
    rewrite (hr_last _ _ _ Hrec), Z.eqb_refl. cbn [negb]. rewrite (hr_hashes _ _ _ Hrec), Hlen. rewrite (proj2 (Z.leb_gt _ _)); [exact Hpage|].
    assert (i32 (s - q) = s - q - 2 ^ 32).
    { unfold i32 in *. destruct (Z.lt_ge_cases (s - q) (2 ^ 31)) as [Hlo|Hhi]; [rewrite Z.mod_small in Hneg by lia; lia|].
      symmetry. rewrite <- (Z.mod_unique (s - q + 2 ^ 31) (2 ^ 32) 1 (s - q - 2 ^ 31)); lia. }
    assert (u64 (i32 (s - q)) = s - q - 2 ^ 32 + 2 ^ 64) as ->.
    { symmetry. apply (Z.mod_unique _ (2 ^ 64) (-1)); lia. }
    unfold oldest. lia.
Qed.
End lookup.
End chain.

(** * Properties of the hashes of past ledgers *)

(** ** A chain of ledgers

    The ledger [s0] is the first of the chain; the ledger [s] has the hash [H s].
    A ledger starts from the state of its parent, is changed by its transactions
    and then updates its skip list. *)

Section chain.
Context (sha512Half : list Z → Z) (H : Z → Z) (s0 : Z) (m0 : gmap Z SLE) (d : Z) (txs : Z → gmap Z SLE → gmap Z SLE).

Definition info_of (s : Z) : LedgerInfo := mkInfo s (H s) (H (s - 1)).

Fixpoint history (n : nat) : exc Ledger :=
  match n with
  | O => Return (mkLedger m0 d)
  | S n =>
    g ← history n;
    let s := s0 + Z.of_nat n + 1 in
    updateSkipList sha512Half (info_of s) (mkLedger (txs s (state_map g)) (drops g))
  end.

(** Transactions do not touch the records. *)
Definition leaves_records : Prop :=
  ∀ s m, txs s m !! sk sha512Half = m !! sk sha512Half ∧
    ∀ g, 0 ≤ g < 65536 → txs s m !! skp sha512Half g = m !! skp sha512Half g.

Definition no_records : Prop := m0 !! sk sha512Half = None ∧ ∀ g, 0 ≤ g < 65536 → m0 !! skp sha512Half g = None.

Context (Hd : distinct_skips sha512Half) (Ht : leaves_records) (H0 : no_records) (Hs0 : 0 < s0).

Lemma history_ok n :
  s0 + Z.of_nat n < 2 ^ 32 → ∃ m, history n = Return (mkLedger m d) ∧ skips sha512Half H s0 m (s0 + Z.of_nat n).
Proof using Hd Ht H0 Hs0.
  induction n as [|n IH]; intros Hlt.
  - exists m0. split; [done|]. rewrite Z.add_0_r. by apply skips_first; [|apply H0..].
  - destruct IH as (m & Hrun & Hm); [lia|]. cbn [history]. rewrite Hrun. cbn [mbind exc_bind state_map drops].
    destruct (Ht (s0 + Z.of_nat n + 1) m) as [T1 T2].
    pose proof (skips_same sha512Half H s0 m _ _ T1 T2 Hm) as Hm1. unfold info_of.
    replace (s0 + Z.of_nat n + 1 - 1) with (s0 + Z.of_nat n) by lia.
    destruct (skip_update_ok sha512Half H s0 Hs0 Hd _ d _ (H (s0 + Z.of_nat n + 1)) Hm1) as (m' & Hup & Hm' & _); [lia..|].
    exists m'. split; [done|]. by replace (s0 + Z.of_nat (S n)) with (s0 + Z.of_nat n + 1) by lia.
Qed.

Lemma lookup_ok n q :
  (0 < n)%nat → s0 + Z.of_nat n < 2 ^ 32 → 0 ≤ q < 2 ^ 32 →
  ∃ m, history n = Return (mkLedger m d) ∧
    hashOfSeq sha512Half (ledger_view m) (info_of (s0 + Z.of_nat n)) q =
    Return (if known s0 (s0 + Z.of_nat n) q then Some (H q) else None).
Proof using Hd Ht H0 Hs0.
  intros Hn Hlt Hq. destruct (history_ok n Hlt) as (m & Hrun & Hm). exists m. split; [done|].
  apply (hashOfSeq_ok sha512Half H s0 Hs0 Hd m); [done|lia|apply ledger_presents|done].
Qed.
End chain.

(** C11: the skip list gives the right hash. Along any chain of ledgers that
    update their skip list, the update never fails, and [hashOfSeq] asked for any
    sequence returns the hash of the chain's ledger if that ledger is one of the
    last 256 or its sequence is a multiple of 256, and nothing otherwise. *)
Theorem past_hashes_found sha512Half H s0 m0 d txs n q :
  distinct_skips sha512Half → leaves_records sha512Half txs → no_records sha512Half m0 →
  0 < s0 → (0 < n)%nat → s0 + Z.of_nat n < 2 ^ 32 → 0 ≤ q < 2 ^ 32 →
  ∃ m, history sha512Half H s0 m0 d txs n = Return (mkLedger m d) ∧
    hashOfSeq sha512Half (ledger_view m) (info_of H (s0 + Z.of_nat n)) q =
    Return (if known s0 (s0 + Z.of_nat n) q then Some (H q) else None).
Proof. intros. by apply lookup_ok. Qed.

Lemma candidate_spec q : 0 ≤ q < 2 ^ 32 - 255 → q ≤ getCandidateLedger q < q + 256 ∧ getCandidateLedger q mod 256 = 0.
Proof.
  intros Hq. unfold getCandidateLedger. rewrite u32_id by lia.
  assert (Hland : Z.land (q + 255) (2 ^ 32 - 256) = 256 * ((q + 255) / 256)).
  { apply Z.bits_inj'. intros i Hi. rewrite Z.land_spec. change (2 ^ 32 - 256) with (Z.shiftl (Z.ones 24) 8).
    rewrite Z.shiftl_spec by done. replace (256 * ((q + 255) / 256)) with (Z.shiftl (Z.shiftr (q + 255) 8) 8).
    2: { rewrite Z.shiftl_mul_pow2, Z.shiftr_div_pow2 by lia. change (2 ^ 8) with 256. lia. }
    rewrite Z.shiftl_spec by done. destruct (Z.lt_ge_cases i 8) as [Hlo|Hhi].
    { rewrite !(Z.testbit_neg_r _ (i - 8)) by lia. by rewrite andb_false_r. }
    rewrite Z.shiftr_spec by lia. replace (i - 8 + 8) with i by lia.
    destruct (Z.lt_ge_cases i 32) as [Hin|Hout].
    - rewrite Z.ones_spec_low by lia. apply andb_true_r.
    - rewrite <- (Z.mod_small (q + 255) (2 ^ 32)) by lia. rewrite Z.mod_pow2_bits_high by lia. done. }
  rewrite Hland. pose proof (Z.div_mod (q + 255) 256 ltac:(lia)). pose proof (Z.mod_pos_bound (q + 255) 256 ltac:(lia)).
  split; [lia|]. by rewrite Z.mul_comm, Z.mod_mul.
Qed.

(** the hash of any ancestor is two lookups away. Let [q] be the sequence of
    an ancestor and [c] the one that [getCandidateLedger] proposes, not past the
    current ledger. The current ledger knows the hash of ledger [c], and ledger [c]
    knows the hash of ledger [q]. *)
Theorem any_ancestor_in_two_steps sha512Half H s0 m0 d txs n q :
  distinct_skips sha512Half → leaves_records sha512Half txs → no_records sha512Half m0 →
  0 < s0 → s0 < q ≤ s0 + Z.of_nat n → s0 + Z.of_nat n < 2 ^ 32 - 255 → getCandidateLedger q ≤ s0 + Z.of_nat n →
  let c := getCandidateLedger q in
  ∃ m mc, history sha512Half H s0 m0 d txs n = Return (mkLedger m d) ∧
    history sha512Half H s0 m0 d txs (Z.to_nat (c - s0)) = Return (mkLedger mc d) ∧
    hashOfSeq sha512Half (ledger_view m) (info_of H (s0 + Z.of_nat n)) c = Return (Some (H c)) ∧
    hashOfSeq sha512Half (ledger_view mc) (info_of H c) q = Return (Some (H q)).
Proof.
  intros Hd Ht H0 Hs0 Hq Hlt Hc c.
  destruct (candidate_spec q ltac:(lia)) as [Hr Hm]. fold c in Hr, Hm, Hc.
  destruct (lookup_ok sha512Half H s0 m0 d txs Hd Ht H0 Hs0 n c) as (m & Hrun & Hl); [lia..|].
  destruct (lookup_ok sha512Half H s0 m0 d txs Hd Ht H0 Hs0 (Z.to_nat (c - s0)) q) as (mc & Hrunc & Hlc); [lia..|].
  exists m, mc. replace (s0 + Z.of_nat (Z.to_nat (c - s0))) with c in Hlc by lia. split_and!; [done|done|..].
  - rewrite Hl. unfold known. rewrite !(proj2 (Z.leb_le _ _)) by lia. rewrite Hm. cbn. by rewrite orb_true_r.
  - rewrite Hlc. unfold known. by rewrite !(proj2 (Z.leb_le _ _)) by lia.
Qed.

(** [areCompatible] is exact about what the skip list knows: a test ledger of
    the chain is found incompatible with a valid ledger [(hash, a)] exactly where it
    is past it, or equal, knows the hash of its own ancestor [a], and that hash is
    another one. *)
Theorem compatibility_exact sha512Half H s0 m0 d txs n a hash :
  distinct_skips sha512Half → leaves_records sha512Half txs → no_records sha512Half m0 →
  0 < s0 → (0 < n)%nat → s0 + Z.of_nat n < 2 ^ 32 → 0 ≤ a < 2 ^ 32 →
  ∃ m, history sha512Half H s0 m0 d txs n = Return (mkLedger m d) ∧
    areCompatible_hash sha512Half hash a (ledger_view m) (info_of H (s0 + Z.of_nat n)) =
    Return (negb (known s0 (s0 + Z.of_nat n) a) || (H a =? hash)).
Proof.
  intros Hd Ht H0 Hs0 Hn Hlt Ha. destruct (lookup_ok sha512Half H s0 m0 d txs Hd Ht H0 Hs0 n a Hn Hlt Ha) as (m & Hrun & Hl).
  exists m. split; [done|]. unfold areCompatible_hash. cbn [info_of info_seq info_hash]. set (s := s0 + Z.of_nat n) in *.
  destruct (Z.ltb_spec a s) as [Has|Has]; [rewrite Hl; cbn [mbind exc_bind]; by destruct (known s0 s a)|].
  destruct (Z.eqb_spec a s) as [->|Hne].
  - unfold known. by rewrite !(proj2 (Z.leb_le _ _)) by lia.
  - unfold known. by rewrite (proj2 (Z.leb_gt a s)), andb_false_r by lia.
Qed.

(** ** Examples *)

(** The name space and the page of a record. *)
Definition skip_digest (bs : list Z) : Z := 1 + be_value (drop 1 bs).

Lemma skip_digest_ok : sk skip_digest = 116 ∧ ∀ g, 0 ≤ g < 65536 → skp skip_digest g = 1 + 115 * 2 ^ 32 + g.
Proof.
  split; [done|]. intros g Hg. unfold skp, skip_page. cbn [k_key]. rewrite Z.shiftr_div_pow2 by lia. change (2 ^ 16) with 65536.
  rewrite (Z.mul_comm 65536), Z.div_mul by lia. unfold skip_digest. change (be_bytes 2 115) with [0; 115]. cbn [app drop].
  cbn [be_value]. rewrite length_be_bytes, be_value_read by (cbn; lia). cbn. lia.
Qed.

Lemma skip_demo : distinct_skips skip_digest ∧ leaves_records skip_digest (λ _ m, m) ∧ no_records skip_digest ∅.
Proof.
  destruct skip_digest_ok as [H1 H2]. split_and!; [|by split|by split]. split_and!.
  - by rewrite H1.
  - intros g Hg. rewrite H1, H2 by done. lia.
  - intros g g' Hg Hg'. rewrite !H2 by done. lia.
Qed.

Lemma past_hashes_found_witness :
  ∃ m, history skip_digest (λ s, 1000 + s) 5 ∅ 7 (λ _ m, m) 600 = Return (mkLedger m 7) ∧
    hashOfSeq skip_digest (ledger_view m) (info_of (λ s, 1000 + s) 605) 256 = Return (Some 1256).
Proof.
  destruct skip_demo as (H1 & H2 & H3).
  destruct (past_hashes_found skip_digest (λ s, 1000 + s) 5 ∅ 7 (λ _ m, m) 600 256 H1 H2 H3) as (m & Hrun & Hl);
    [reflexivity|lia|reflexivity|split; [discriminate|reflexivity]|].
  exists m. split; [exact Hrun|exact Hl].
Defined.

Lemma any_ancestor_in_two_steps_witness :
  ∃ m mc, history skip_digest (λ s, 1000 + s) 5 ∅ 7 (λ _ m, m) 600 = Return (mkLedger m 7) ∧
    history skip_digest (λ s, 1000 + s) 5 ∅ 7 (λ _ m, m) 251 = Return (mkLedger mc 7) ∧
    hashOfSeq skip_digest (ledger_view m) (info_of (λ s, 1000 + s) 605) 256 = Return (Some 1256) ∧
    hashOfSeq skip_digest (ledger_view mc) (info_of (λ s, 1000 + s) 256) 77 = Return (Some 1077).
Proof.
  destruct skip_demo as (H1 & H2 & H3).
  destruct (any_ancestor_in_two_steps skip_digest (λ s, 1000 + s) 5 ∅ 7 (λ _ m, m) 600 77 H1 H2 H3) as (m & mc & A1 & A2 & A3 & A4);
    [reflexivity|split; [reflexivity|discriminate]|reflexivity|discriminate|].
  exists m, mc. split; [exact A1|]. split; [exact A2|]. split; [exact A3|exact A4].
Defined.

Lemma compatibility_exact_witness :
  ∃ m, history skip_digest (λ s, 1000 + s) 5 ∅ 7 (λ _ m, m) 600 = Return (mkLedger m 7) ∧
    areCompatible_hash skip_digest 99 512 (ledger_view m) (info_of (λ s, 1000 + s) 605) = Return false.
Proof.
  destruct skip_demo as (H1 & H2 & H3).
  destruct (compatibility_exact skip_digest (λ s, 1000 + s) 5 ∅ 7 (λ _ m, m) 600 512 99 H1 H2 H3) as (m & Hrun & Hl);
    [reflexivity|lia|reflexivity|split; [discriminate|reflexivity]|].
  exists m. split; [exact Hrun|exact Hl].
Defined.
