(* ===== verification/Censorship.v ===== *)
(** * The censorship detector

    [app/consensus/RCLCensorshipDetector.h] and the two loops over sorted ranges
    it uses ([basics/algorithm.h]).  The tracker holds the transactions that were
    proposed and are not in a ledger yet, each with the sequence of the ledger for
    which it was first proposed. *)
From S2P Require Import Prelude.

Record TxIDSeq := mkTx { txid : Z; tx_seq : Z }.

#[export] Instance TxIDSeq_eq_dec : EqDecision TxIDSeq.
Proof. solve_decision. Defined.

(** ** Loops over sorted ranges *)

Section ranges.
Context {A B : Type}.

(** [action] is performed on pairs of equivalent elements; it changes the first. *)
Fixpoint generalized_set_intersection (action : A → B → A) (comp : A → B → bool) (comp' : B → A → bool)
    (l1 : list A) : list B → list A :=
  match l1 with
  | [] => λ _, []
  | x :: r1 =>
    fix go (l2 : list B) : list A :=
      match l2 with
      | [] => x :: r1
      | y :: r2 =>
        if comp x y then x :: generalized_set_intersection action comp comp' r1 (y :: r2)
        else if negb (comp' y x) then action x y :: generalized_set_intersection action comp comp' r1 r2
        else go r2
      end
  end.

(** The elements of [l1] that are kept. *)
Fixpoint remove_if_intersect_or_match (pred : A → bool) (comp : A → B → bool) (comp' : B → A → bool)
    (l1 : list A) : list B → list A :=
  match l1 with
  | [] => λ _, []
  | x :: r1 =>
    fix go (l2 : list B) : list A :=
      match l2 with
      | [] => if pred x then remove_if_intersect_or_match pred comp comp' r1 []
              else x :: remove_if_intersect_or_match pred comp comp' r1 []
      | y :: r2 =>
        if comp x y then
          if pred x then remove_if_intersect_or_match pred comp comp' r1 (y :: r2)
          else x :: remove_if_intersect_or_match pred comp comp' r1 (y :: r2)
        else if negb (comp' y x) then remove_if_intersect_or_match pred comp comp' r1 r2
        else go r2
      end
  end.
End ranges.

(** ** The detector *)

(** [operator<] on entries. *)
Definition tx_le (a b : TxIDSeq) : Prop := txid a < txid b ∨ (txid a = txid b ∧ tx_seq a ≤ tx_seq b).
#[export] Instance tx_le_dec a b : Decision (tx_le a b).
Proof. unfold tx_le. apply _. Defined.

Definition propose (proposed : list TxIDSeq) (tracker_ : list TxIDSeq) : list TxIDSeq :=
  generalized_set_intersection (λ x y, mkTx (txid x) (tx_seq y))
    (λ x y, txid x <? txid y) (λ x y, txid x <? txid y) (merge_sort tx_le proposed) tracker_.

Definition check_accepted (accepted : list Z) (pred : Z → Z → bool) (tracker_ : list TxIDSeq) : list TxIDSeq :=
  remove_if_intersect_or_match (λ x, pred (txid x) (tx_seq x)) (λ x y, txid x <? y) (λ y x, y <? txid x)
    tracker_ (merge_sort Z.le accepted).

Definition reset (tracker_ : list TxIDSeq) : list TxIDSeq := [].

(** The predicate is invoked for the entries that are not accepted: those it is
    invoked for, in order. *)
Definition tested (accepted : list Z) (tracker_ : list TxIDSeq) : list TxIDSeq :=
  check_accepted accepted (λ _ _, false) tracker_.

(** ** Specification *)

Definition tracked (t : Z) (l : list TxIDSeq) : option Z := tx_seq <$> head (filter (λ e, txid e = t) l).

(** Sorted, with one entry for each transaction. *)
Definition tracker_ok (l : list TxIDSeq) : Prop := StronglySorted (λ a b, txid a < txid b) l.

(** [censorshipWarnInternal], and the predicate of [RCLConsensus::Adaptor::doAccept]
    with its warning. *)
Definition censorshipWarnInternal : Z := 15.
Definition accept_pred (failed : list Z) (id seq : Z) : bool := bool_decide (id ∈ failed).
Definition warns (curr : Z) (failed : list Z) (e : TxIDSeq) : bool :=
  negb (bool_decide (txid e ∈ failed)) &&
  let wait := u32 (curr - tx_seq e) in negb (wait =? 0) && (wait mod censorshipWarnInternal =? 0).

(** What the adaptor does with the detector: at the close of a ledger, after
    consensus, and after an outage. *)
Inductive Event :=
  | EPropose (seq : Z) (ids : list Z)
  | ECheck (curr : Z) (accepted failed : list Z)
  | EReset.

Definition detector_step (e : Event) (tracker_ : list TxIDSeq) : list TxIDSeq * list TxIDSeq :=
  match e with
  | EPropose seq ids => (propose ((λ id, mkTx id seq) <$> ids) tracker_, [])
  | ECheck curr accepted failed =>
    (check_accepted accepted (accept_pred failed) tracker_,
     filter (λ e, warns curr failed e = true) (tested accepted tracker_))
  | EReset => (reset tracker_, [])
  end.

(** The events, the last one first. *)
Fixpoint detector_run (evs : list Event) : list TxIDSeq :=
  match evs with [] => [] | e :: evs => (detector_step e (detector_run evs)).1 end.

(** ** The loops *)

#[local] Instance tx_le_trans : Transitive tx_le.
Proof. intros a b c. unfold tx_le. lia. Qed.
#[local] Instance tx_le_total : Total tx_le.
Proof. intros a b. unfold tx_le. lia. Qed.

Lemma le_sort_txid l : NoDup (txid <$> l) → tracker_ok (merge_sort tx_le l).
Proof.
  intros Hnd. apply (le_sorted_lt txid).
  - assert (Hs : StronglySorted tx_le (merge_sort tx_le l)).
    { apply (StronglySorted_merge_sort tx_le). }
    induction Hs as [|a l' Hs IH Ha]; constructor; [done|]. eapply Forall_impl; [exact Ha|]. unfold tx_le. intros b. cbn. lia.
  - by rewrite (merge_sort_Permutation tx_le l).
Qed.

Lemma tracked_cons t e l : tracked t (e :: l) = if decide (txid e = t) then Some (tx_seq e) else tracked t l.
Proof. unfold tracked. rewrite filter_cons. by destruct (decide (txid e = t)). Qed.

Lemma tracked_below t l : (∀ e, e ∈ l → t < txid e) → tracked t l = None.
Proof.
  induction l as [|e l IH]; intros Hl; [done|]. rewrite tracked_cons, decide_False.
  - apply IH. intros e' He'. apply Hl. by right.
  - assert (t < txid e) by (apply Hl; by left). lia.
Qed.

Abbreviation intersect := (generalized_set_intersection (λ x y : TxIDSeq, mkTx (txid x) (tx_seq y))
  (λ x y, txid x <? txid y) (λ x y, txid x <? txid y)).

Lemma intersect_txids l1 l2 : txid <$> intersect l1 l2 = txid <$> l1.
Proof.
  revert l2. induction l1 as [|x l1 IH]; [done|]. induction l2 as [|y l2 IH2]; [done|]. cbn.
  destruct (txid x <? txid y); [cbn; by rewrite IH|]. destruct (txid y <? txid x); cbn; [exact IH2|by rewrite IH].
Qed.

Lemma intersect_tracked l1 l2 t :
  tracker_ok l1 → tracker_ok l2 →
  tracked t (intersect l1 l2) = match tracked t l1 with Some s => Some (default s (tracked t l2)) | None => None end.
Proof.
  revert l2. induction l1 as [|x l1 IH]; [done|]. intros l2 H1. induction l2 as [|y l2 IH2]; intros H2.
  { cbn [generalized_set_intersection]. by destruct (tracked t (x :: l1)). }
  pose proof (sorted_tail txid _ _ H1) as H1'. pose proof (sorted_tail txid _ _ H2) as H2'.
  cbn [generalized_set_intersection]. destruct (Z.ltb_spec (txid x) (txid y)) as [Hlt|Hge].
  - rewrite !(tracked_cons t x), (IH _ H1' H2). destruct (decide (txid x = t)) as [<-|]; [|done].
    rewrite tracked_below; [done|]. intros e [->|He]%elem_of_cons; [done|]. pose proof (sorted_head txid _ _ _ H2 He). lia.
  - destruct (Z.ltb_spec (txid y) (txid x)) as [Hgt|Heq]; cbn [negb].
    + etransitivity; [exact (IH2 H2')|]. destruct (tracked t (x :: l1)) as [s|] eqn:Ht; [|done]. rewrite (tracked_cons t y), decide_False; [done|].
      intros <-. rewrite tracked_below in Ht; [done|]. intros e [->|He]%elem_of_cons; [done|]. pose proof (sorted_head txid _ _ _ H1 He). lia.
    + assert (Hxy : txid x = txid y) by lia. rewrite (tracked_cons t (mkTx _ _)), !(tracked_cons t x), (tracked_cons t y), (IH _ H1' H2'). cbn.
      destruct (decide (txid x = t)) as [Ht|Ht]; [by rewrite decide_True by congruence|]. by rewrite decide_False by congruence.
Qed.

Abbreviation keep pred := (remove_if_intersect_or_match pred (λ (x : TxIDSeq) (y : Z), txid x <? y) (λ y x, y <? txid x)).

Lemma filter_ext_elem {A} (P Q : A → Prop) `{∀ x, Decision (P x), ∀ x, Decision (Q x)} (l : list A) :
  (∀ x, x ∈ l → P x ↔ Q x) → filter P l = filter Q l.
Proof.
  induction l as [|x l IH]; intros Hpq; [done|]. rewrite !filter_cons, IH by (intros y Hy; apply Hpq; by right).
  pose proof (Hpq x ltac:(by left)). destruct (decide (P x)), (decide (Q x)); tauto.
Qed.

(** The entries that are neither accepted nor matched are kept, in order. *)
Lemma keep_filter pred l1 l2 :
  tracker_ok l1 → StronglySorted Z.le l2 → keep pred l1 l2 = filter (λ e, (txid e ∉ l2) ∧ pred e = false) l1.
Proof.
  revert l2. induction l1 as [|x l1 IH]; [done|]. intros l2 H1. pose proof (sorted_tail txid _ _ H1) as H1'. induction l2 as [|y l2 IH2]; intros H2.
  { cbn [remove_if_intersect_or_match]. rewrite (IH [] H1' H2), filter_cons. destruct (pred x).
    - by rewrite decide_False by naive_solver.
    - rewrite decide_True; [done|]. split; [apply not_elem_of_nil|done]. }
  apply StronglySorted_cons in H2 as [Hy H2]. pose proof H2 as Hsy. rewrite Forall_forall in Hy.
  assert (H2c : StronglySorted Z.le (y :: l2)) by (apply StronglySorted_cons; by rewrite Forall_forall).
  cbn [remove_if_intersect_or_match]. rewrite filter_cons. destruct (Z.ltb_spec (txid x) y) as [Hlt|Hge].
  - rewrite (IH _ H1' H2c). assert (txid x ∉ y :: l2).
    { intros [Heq|Hin]%elem_of_cons; [lia|]. specialize (Hy _ Hin). cbn in Hy. lia. }
    destruct (pred x); [by rewrite decide_False by naive_solver|by rewrite decide_True].
  - destruct (Z.ltb_spec y (txid x)) as [Hgt|Heq]; cbn [negb].
    + etransitivity; [exact (IH2 H2)|]. rewrite filter_cons. assert (Hext : ∀ e, e ∈ x :: l1 → txid e ∉ y :: l2 ↔ txid e ∉ l2).
      { intros e He. rewrite not_elem_of_cons. assert (y < txid e); [|naive_solver lia].
        apply elem_of_cons in He as [->|He]; [done|]. pose proof (sorted_head txid _ _ _ H1 He). lia. }
      assert (Hf : filter (λ e, (txid e ∉ l2) ∧ pred e = false) l1 = filter (λ e, (txid e ∉ y :: l2) ∧ pred e = false) l1).
      { apply filter_ext_elem. intros e He. by rewrite Hext by (by right). }
      rewrite Hf. pose proof (Hext x ltac:(by left)).
      destruct (decide ((txid x ∉ l2) ∧ pred x = false)), (decide ((txid x ∉ y :: l2) ∧ pred x = false)); naive_solver.
    + assert (y = txid x) as -> by lia. rewrite decide_False by (intros [Hn _]; apply Hn; by left).
      rewrite (IH _ H1' H2). apply filter_ext_elem. intros e He.
      pose proof (sorted_head txid _ _ _ H1 He). rewrite not_elem_of_cons. naive_solver lia.
Qed.

(** ** Events *)

(** The sequence since which a transaction is proposed without interruption. *)
Fixpoint since (t : Z) (evs : list Event) : option Z :=
  match evs with
  | [] => None
  | EPropose seq ids :: evs => if decide (t ∈ ids) then Some (default seq (since t evs)) else None
  | ECheck _ accepted failed :: evs => if decide (t ∈ accepted ∨ t ∈ failed) then None else since t evs
  | EReset :: _ => None
  end.

(** A set of transactions has no duplicates. *)
Definition proposes_sets (evs : list Event) : Prop :=
  Forall (λ e, match e with EPropose _ ids => NoDup ids | _ => True end) evs.

#[export] Instance proposes_sets_dec evs : Decision (proposes_sets evs).
Proof. apply Forall_dec. intros []; apply _. Defined.

Lemma tracked_ids t seq ids : tracked t (merge_sort tx_le ((λ id, mkTx id seq) <$> ids)) = if decide (t ∈ ids) then Some seq else None.
Proof.
  set (l := merge_sort tx_le _). assert (Hin : ∀ e, e ∈ l ↔ ∃ id, e = mkTx id seq ∧ id ∈ ids).
  { intros e. unfold l. rewrite (merge_sort_Permutation tx_le). apply list_elem_of_fmap. }
  unfold tracked. destruct (head (filter (λ e, txid e = t) l)) as [e|] eqn:Hh.
  - apply head_Some_elem_of, list_elem_of_filter in Hh as [Ht (id & -> & Hid)%Hin]. cbn in Ht. subst id. by rewrite decide_True.
  - rewrite decide_False; [done|]. intros Ht. assert (Hf : mkTx t seq ∈ filter (λ e, txid e = t) l).
    { apply list_elem_of_filter. split; [done|]. apply Hin. eauto. }
    destruct (filter _ l); [by apply elem_of_nil in Hf|done].
Qed.

Lemma tracked_Some t s l : tracker_ok l → tracked t l = Some s ↔ mkTx t s ∈ l.
Proof.
  intros Hl. induction l as [|e l IH]; [split; [done|by intros ?%elem_of_nil]|]. rewrite tracked_cons, elem_of_cons.
  specialize (IH (sorted_tail txid _ _ Hl)). destruct (decide (txid e = t)) as [<-|Hne].
  - split; [intros [= <-]; left; by destruct e|]. intros [<-|Hin]; [done|]. pose proof (sorted_head txid _ _ _ Hl Hin) as Hlt. cbn in Hlt. lia.
  - rewrite IH. split; [by right|]. intros [<-|]; [done|done].
Qed.

Lemma tracker_ok_txids l : tracker_ok l ↔ StronglySorted Z.lt (txid <$> l).
Proof.
  unfold tracker_ok. induction l as [|x l IH]; [split; constructor|]. rewrite fmap_cons, !StronglySorted_cons, IH, Forall_fmap. done.
Qed.

Lemma check_filter accepted pred l :
  tracker_ok l → check_accepted accepted pred l = filter (λ e, (txid e ∉ accepted) ∧ pred (txid e) (tx_seq e) = false) l.
Proof.
  intros Hl. unfold check_accepted. rewrite keep_filter; [|done|apply (StronglySorted_merge_sort Z.le)].
  apply filter_ext_elem. intros e _. by rewrite (merge_sort_Permutation Z.le accepted).
Qed.

Lemma run_tracked evs : proposes_sets evs → tracker_ok (detector_run evs) ∧ ∀ t, tracked t (detector_run evs) = since t evs.
Proof.
  induction evs as [|e evs IH]; intros Hp; [split; [constructor|done]|]. apply Forall_cons in Hp as [He Hp].
  destruct (IH Hp) as [Hok Ht]. destruct e as [seq ids|curr acc failed|]; cbn [detector_run detector_step fst since].
  - assert (Hs : tracker_ok (merge_sort tx_le ((λ id, mkTx id seq) <$> ids))).
    { apply le_sort_txid. rewrite <- list_fmap_compose. cbn. by rewrite list_fmap_id. }
    split.
    + unfold propose. by rewrite tracker_ok_txids, intersect_txids, <- tracker_ok_txids.
    + intros t. unfold propose. rewrite intersect_tracked, tracked_ids, Ht by done. by destruct (decide (t ∈ ids)).
  - rewrite check_filter by done. split; [by apply (sorted_filter txid)|]. intros t. rewrite <- Ht.
    assert (Hf : tracker_ok (filter (λ e, (txid e ∉ acc) ∧ accept_pred failed (txid e) (tx_seq e) = false) (detector_run evs)))
      by (by apply (sorted_filter txid)).
    apply option_eq. intros s. rewrite (tracked_Some _ _ _ Hf), list_elem_of_filter. cbn. unfold accept_pred.
    rewrite bool_decide_eq_false. destruct (decide (t ∈ acc ∨ t ∈ failed)); rewrite <- ?(tracked_Some _ _ _ Hok); naive_solver.
  - split; [constructor|done].
Qed.

(** C12: the detector warns about exactly the transactions that are left out. At
    a check for the ledger [curr], a warning names a transaction and a sequence if
    and only if the transaction has been proposed since that ledger in every round,
    was never accepted or failed in between or now, and has waited for a positive
    multiple of 15 ledgers. *)
Theorem censorship_warnings_exact evs curr accepted failed t s :
  proposes_sets evs →
  mkTx t s ∈ (detector_step (ECheck curr accepted failed) (detector_run evs)).2 ↔
  since t evs = Some s ∧ (t ∉ accepted) ∧ (t ∉ failed) ∧ u32 (curr - s) ≠ 0 ∧ u32 (curr - s) mod 15 = 0.
Proof.
  intros Hp. destruct (run_tracked evs Hp) as [Hok Ht]. cbn [detector_step snd]. unfold tested.
  rewrite list_elem_of_filter, check_filter, list_elem_of_filter, <- Ht, (tracked_Some _ _ _ Hok) by done.
  unfold warns, censorshipWarnInternal. cbn. rewrite !andb_true_iff, !negb_true_iff, bool_decide_eq_false, Z.eqb_neq, Z.eqb_eq. naive_solver.
Qed.

Lemma censorship_warnings_exact_witness :
  let round := λ s, [ECheck s [5] []; EPropose s [9; 5; 7]] in
  let evs := EPropose 25 [7; 9; 6] :: concat (round <$> reverse (seqZ 10 15)) in
  mkTx 7 10 ∈ (detector_step (ECheck 25 [6] [9]) (detector_run evs)).2.
Proof.
  cbv zeta. apply (censorship_warnings_exact _ 25 [6] [9] 7 10).
  - apply (bool_decide_unpack _). vm_compute. exact I.
  - vm_compute. split; [reflexivity|]. split; [by intros [[=]|?%elem_of_nil]%elem_of_cons|].
    split; [by intros [[=]|?%elem_of_nil]%elem_of_cons|]. split; [discriminate|reflexivity].
Defined.
