(* ===== verification/HashRouter.v ===== *)
(** * The hash router

    [app/misc/HashRouter.h] and [app/misc/HashRouter.cpp]: which peers sent which
    message, and when it was relayed and processed.  The table is an aged map: an
    entry that is not used for the hold time is dropped when another one is
    created.  A call reads the clock up to three times under its lock (when it
    touches an entry, when it expires others, and for the decision itself); the
    model takes these readings to be one, an argument of the call. *)
From S2P Require Import Prelude Outcome.

Record Entry := mkEntry {
  flags_ : Z;
  peers_ : gset Z;
  relayed_ : option Z;
  processed_ : option Z;
  recoveries_ : Z }.

Definition Entry_ctor : Entry := mkEntry 0 ∅ None None 0.

Definition entry_addPeer (peer : Z) (e : Entry) : Entry :=
  if negb (peer =? 0) then mkEntry (flags_ e) ({[peer]} ∪ peers_ e) (relayed_ e) (processed_ e) (recoveries_ e) else e.
Definition entry_setFlags (flags : Z) (e : Entry) : Entry :=
  mkEntry (Z.lor (flags_ e) flags) (peers_ e) (relayed_ e) (processed_ e) (recoveries_ e).
(** The set is moved out, which leaves an empty one. *)
Definition releasePeerSet (e : Entry) : gset Z * Entry :=
  (peers_ e, mkEntry (flags_ e) ∅ (relayed_ e) (processed_ e) (recoveries_ e)).
Definition entry_shouldRelay (now holdTime : Z) (e : Entry) : bool * Entry :=
  if match relayed_ e with Some r => now <? r + holdTime | None => false end then (false, e)
  else (true, mkEntry (flags_ e) (peers_ e) (Some now) (processed_ e) (recoveries_ e)).
(** The count is taken modulo the limit, which must not be zero. *)
Definition entry_shouldRecover (limit : Z) (e : Entry) : exc bool * Entry :=
  let r := u32 (recoveries_ e + 1) in
  (if limit =? 0 then Abort "division by zero" else Return (negb (r mod limit =? 0)), mkEntry (flags_ e) (peers_ e) (relayed_ e) (processed_ e) r).
Definition entry_shouldProcess (now interval : Z) (e : Entry) : bool * Entry :=
  if match processed_ e with Some p => now <? p + interval | None => false end then (false, e)
  else (true, mkEntry (flags_ e) (peers_ e) (relayed_ e) (Some now) (recoveries_ e)).

(** The table: each entry with the time at which it was last used. *)
Record HashRouter := mkRouter { suppressionMap_ : gmap Z (Z * Entry); holdTime_ : Z; recoverLimit_ : Z }.

Definition HashRouter_ctor (hold recoverLimit : Z) : HashRouter := mkRouter ∅ hold (u32 (recoverLimit + 1)).

Definition with_map (m : gmap Z (Z * Entry)) (h : HashRouter) : HashRouter := mkRouter m (holdTime_ h) (recoverLimit_ h).

Section calls.
Context (now : Z).

(** [beast::expire]; the clock does not go back, so the entries dropped are the
    oldest of the container. *)
Definition expire_map (age : Z) (m : gmap Z (Z * Entry)) : gmap Z (Z * Entry) := filter (λ e, now - age < e.2.1) m.

(** The entry of a key, and whether it was created. *)
Definition emplace (key : Z) (h : HashRouter) : Entry * bool * HashRouter :=
  match suppressionMap_ h !! key with
  | Some (_, e) => (e, false, with_map (<[key := (now, e)]> (suppressionMap_ h)) h)
  | None =>
    let m := expire_map (holdTime_ h) (suppressionMap_ h) in
    (Entry_ctor, true, with_map (<[key := (now, Entry_ctor)]> m) h)
  end.

(** The entry, which is a reference into the table, is changed. *)
Definition put (key : Z) (e : Entry) (h : HashRouter) : HashRouter :=
  with_map (alter (λ we, (we.1, e)) key (suppressionMap_ h)) h.

Definition addSuppression (key : Z) (h : HashRouter) : HashRouter := (emplace key h).2.

Definition addSuppressionPeerWithStatus (key peer : Z) (h : HashRouter) : (bool * option Z) * HashRouter :=
  let '(e, created, h) := emplace key h in
  let e := entry_addPeer peer e in ((created, relayed_ e), put key e h).

Definition addSuppressionPeer (key peer : Z) (h : HashRouter) : bool * HashRouter :=
  let '(r, h) := addSuppressionPeerWithStatus key peer h in (r.1, h).

Definition addSuppressionPeer_flags (key peer : Z) (h : HashRouter) : (bool * Z) * HashRouter :=
  let '(e, created, h) := emplace key h in
  let e := entry_addPeer peer e in ((created, flags_ e), put key e h).

Definition shouldProcess (key peer tx_interval : Z) (h : HashRouter) : (bool * Z) * HashRouter :=
  let '(e, _, h) := emplace key h in
  let e := entry_addPeer peer e in
  let '(r, e') := entry_shouldProcess now tx_interval e in ((r, flags_ e), put key e' h).

Definition getFlags (key : Z) (h : HashRouter) : Z * HashRouter :=
  let '(e, _, h) := emplace key h in (flags_ e, h).

Definition setFlags (key flags : Z) (h : HashRouter) : exc bool * HashRouter :=
  if flags =? 0 then (Abort "flags != 0", h) else
  let '(e, _, h) := emplace key h in
  if Z.land (flags_ e) flags =? flags then (Return false, h) else (Return true, put key (entry_setFlags flags e) h).

Definition shouldRelay (key : Z) (h : HashRouter) : option (gset Z) * HashRouter :=
  let '(e, _, h) := emplace key h in
  let '(r, e) := entry_shouldRelay now (holdTime_ h) e in
  if negb r then (None, h) else let '(peers, e) := releasePeerSet e in (Some peers, put key e h).

Definition shouldRecover (key : Z) (h : HashRouter) : exc bool * HashRouter :=
  let '(e, _, h) := emplace key h in
  let '(r, e) := entry_shouldRecover (recoverLimit_ h) e in (r, put key e h).
End calls.

(** ** Sequences of calls *)

Inductive HCmd :=
  | HSuppress (key : Z)
  | HPeer (key peer : Z)
  | HPeerStatus (key peer : Z)
  | HPeerFlags (key peer : Z)
  | HProcess (key peer interval : Z)
  | HGetFlags (key : Z)
  | HSetFlags (key flags : Z)
  | HRelay (key : Z)
  | HRecover (key : Z).

Inductive HRes := HUnit | HBool (b : exc bool) | HStatus (b : bool) (r : option Z) | HFlags (b : bool) (f : Z) | HPeers (p : option (gset Z)).

Definition hstep (now : Z) (c : HCmd) (h : HashRouter) : HRes * HashRouter :=
  match c with
  | HSuppress key => (HUnit, addSuppression now key h)
  | HPeer key peer => let '(b, h) := addSuppressionPeer now key peer h in (HBool (Return b), h)
  | HPeerStatus key peer => let '((b, r), h) := addSuppressionPeerWithStatus now key peer h in (HStatus b r, h)
  | HPeerFlags key peer => let '((b, f), h) := addSuppressionPeer_flags now key peer h in (HFlags b f, h)
  | HProcess key peer interval => let '((b, f), h) := shouldProcess now key peer interval h in (HFlags b f, h)
  | HGetFlags key => let '(f, h) := getFlags now key h in (HFlags false f, h)
  | HSetFlags key flags => let '(b, h) := setFlags now key flags h in (HBool b, h)
  | HRelay key => let '(p, h) := shouldRelay now key h in (HPeers p, h)
  | HRecover key => let '(b, h) := shouldRecover now key h in (HBool b, h)
  end.

Fixpoint hrun (cs : list (Z * HCmd)) (h : HashRouter) : list HRes * HashRouter :=
  match cs with
  | [] => ([], h)
  | (now, c) :: cs => let '(r, h) := hstep now c h in let '(rs, h) := hrun cs h in (r :: rs, h)
  end.

(** ** What the calls made so far say of one key

    The log is the sequence of calls with their times and answers.  From it alone:
    when the message was last relayed and last processed, and who sent it since it
    was last relayed. *)

Definition hkey (c : HCmd) : Z :=
  match c with
  | HSuppress k | HPeer k _ | HPeerStatus k _ | HPeerFlags k _ | HProcess k _ _ | HGetFlags k | HSetFlags k _ | HRelay k | HRecover k => k
  end.
Definition hsender (c : HCmd) : option Z :=
  match c with HPeer _ p | HPeerStatus _ p | HPeerFlags _ p | HProcess _ p _ => if p =? 0 then None else Some p | _ => None end.
Definition was_relayed (c : HCmd) (r : HRes) : bool :=
  match c, r with HRelay _, HPeers (Some _) => true | _, _ => false end.
Definition was_processed (c : HCmd) (r : HRes) : bool :=
  match c, r with HProcess _ _ _, HFlags b _ => b | _, _ => false end.

Record Past := mkPast { last_relay : option Z; last_process : option Z; senders : list (Z * Z) }.

Definition past_step (k : Z) (p : Past) (e : Z * HCmd * HRes) : Past :=
  let '(t, c, r) := e in
  if hkey c =? k then
    if was_relayed c r then mkPast (Some t) (last_process p) []
    else mkPast (last_relay p) (if was_processed c r then Some t else last_process p)
           (match hsender c with Some q => (t, q) :: senders p | None => senders p end)
  else p.
Definition past (k : Z) (log : list (Z * HCmd * HRes)) : Past := foldl (past_step k) (mkPast None None []) log.

Definition hlog (cs : list (Z * HCmd)) (h : HashRouter) : list (Z * HCmd * HRes) := zip cs (hrun cs h).1.

(** The clock does not go back. *)
Fixpoint ordered (cs : list (Z * HCmd)) (t : Z) : Prop :=
  match cs with
  | [] => True
  | (t0, _) :: cs' => Forall (λ e, t0 ≤ e.1) cs' ∧ t0 ≤ t ∧ ordered cs' t
  end.

(** ** The calls, as changes of one entry *)

Definition entry_step (now hold limit : Z) (c : HCmd) (created : bool) (e : Entry) : HRes * Entry :=
  match c with
  | HSuppress _ => (HUnit, e)
  | HPeer _ p => (HBool (Return created), entry_addPeer p e)
  | HPeerStatus _ p => (HStatus created (relayed_ (entry_addPeer p e)), entry_addPeer p e)
  | HPeerFlags _ p => (HFlags created (flags_ (entry_addPeer p e)), entry_addPeer p e)
  | HProcess _ p i =>
    let '(r, e') := entry_shouldProcess now i (entry_addPeer p e) in (HFlags r (flags_ (entry_addPeer p e)), e')
  | HGetFlags _ => (HFlags false (flags_ e), e)
  | HSetFlags _ f =>
    if Z.land (flags_ e) f =? f then (HBool (Return false), e) else (HBool (Return true), entry_setFlags f e)
  | HRelay _ =>
    let '(r, e') := entry_shouldRelay now hold e in
    if r then (HPeers (Some (peers_ e')), (releasePeerSet e').2) else (HPeers None, e)
  | HRecover _ => let '(r, e') := entry_shouldRecover limit e in (HBool r, e')
  end.

Definition aborts (c : HCmd) : bool := match c with HSetFlags _ f => f =? 0 | _ => false end.

(** A call changes the entry of its key as [entry_step] says. *)
Lemma hstep_entry now c h : aborts c = false →
  let old := suppressionMap_ h !! hkey c in
  let m := if decide (is_Some old) then suppressionMap_ h else expire_map now (holdTime_ h) (suppressionMap_ h) in
  let '(r, e) := entry_step now (holdTime_ h) (recoverLimit_ h) c (bool_decide (old = None)) (default Entry_ctor (snd <$> old)) in
  hstep now c h = (r, with_map (<[hkey c := (now, e)]> m) h).
Proof.
  intros Ha old m.
  assert (emplace now (hkey c) h = (default Entry_ctor (snd <$> old), bool_decide (old = None), with_map (<[hkey c := (now, default Entry_ctor (snd <$> old))]> m) h)) as He.
  { unfold emplace, old, m. destruct (suppressionMap_ h !! hkey c) as [[w e]|] eqn:E; cbn; [by rewrite decide_True by eauto|by rewrite decide_False by (intros [? ?]; done)]. }
  revert He. generalize (default Entry_ctor (snd <$> old)), (bool_decide (old = None)). clearbody m. intros e b He.
  assert (∀ e', put (hkey c) e' (with_map (<[hkey c := (now, e)]> m) h) = with_map (<[hkey c := (now, e')]> m) h) as Hp.
  { intros e'. unfold put, with_map; cbn. by rewrite alter_insert_eq. }
  destruct c; cbn [hkey] in *; cbn [hstep entry_step];
    unfold addSuppression, addSuppressionPeer, addSuppressionPeerWithStatus, addSuppressionPeer_flags, shouldProcess, getFlags, setFlags, shouldRelay, shouldRecover;
    cbn [aborts] in Ha; rewrite ?Ha, ?He; cbn [fst snd]; rewrite ?Hp; try done.
  - destruct (entry_shouldProcess _ _ _); by rewrite Hp.
  - by destruct (Z.land _ _ =? _).
  - cbn [holdTime_ with_map]. destruct (entry_shouldRelay _ _ _) as [[] ?]; cbn; by rewrite ?Hp.
  - cbn [recoverLimit_ with_map]. destruct (entry_shouldRecover _ _); by rewrite Hp.
Qed.

(** ** The invariant of one key *)

(** What the entry of the key, if any, has kept of the past. *)
Definition remembers (hold now : Z) (p : Past) (we : option (Z * Entry)) : Prop :=
  let stale t := t + hold ≤ now in
  match we with
  | None => (∀ t, last_relay p = Some t → stale t) ∧ (∀ t, last_process p = Some t → stale t) ∧ (∀ t q, (t, q) ∈ senders p → stale t)
  | Some (w, e) =>
    w ≤ now ∧
    (∀ t, relayed_ e = Some t → last_relay p = Some t) ∧
    (∀ t, processed_ e = Some t → last_process p = Some t) ∧
    (∀ q, q ∈ peers_ e → ∃ t, (t, q) ∈ senders p) ∧
    (∀ t, last_relay p = Some t → relayed_ e = Some t ∧ t ≤ w ∨ stale t) ∧
    (∀ t, last_process p = Some t → processed_ e = Some t ∧ t ≤ w ∨ stale t) ∧
    (∀ t q, (t, q) ∈ senders p → q ∈ peers_ e ∧ t ≤ w ∨ stale t)
  end.

(** Time passes. *)
Lemma remembers_later hold t t' p we : t ≤ t' → remembers hold t p we → remembers hold t' p we.
Proof.
  intros Ht. destruct we as [[w e]|]; cbn.
  - intros (? & ? & ? & ? & Hr & Hp & Hs). split_and!; [lia|done..| | |].
    + intros u Hu. destruct (Hr u Hu); [by left|right; lia].
    + intros u Hu. destruct (Hp u Hu); [by left|right; lia].
    + intros u q Hu. destruct (Hs u q Hu); [by left|right; lia].
  - intros (Hr & Hp & Hs). split_and!; intros; [specialize (Hr t0)|specialize (Hp t0)|specialize (Hs t0 q)]; naive_solver lia.
Qed.

(** An entry not used for the hold time is dropped. *)
Lemma remembers_expire hold t p w e : w ≤ t - hold → remembers hold t p (Some (w, e)) → remembers hold t p None.
Proof.
  intros Hw (? & ? & ? & ? & Hr & Hp & Hs); cbn. split_and!.
  - intros u Hu. destruct (Hr u Hu) as [[]|]; lia.
  - intros u Hu. destruct (Hp u Hu) as [[]|]; lia.
  - intros u q Hu. destruct (Hs u q Hu) as [[]|]; lia.
Qed.

(** The entry a call works on, new or used. *)
Lemma remembers_used hold t p we : remembers hold t p we → remembers hold t p (Some (t, default Entry_ctor (snd <$> we))).
Proof.
  destruct we as [[w e]|]; cbn.
  - intros (? & ? & ? & ? & Hr & Hp & Hs). split_and!; [lia|done..| | |].
    + intros u Hu. destruct (Hr u Hu) as [[]|]; [left; split; [done|lia]|by right].
    + intros u Hu. destruct (Hp u Hu) as [[]|]; [left; split; [done|lia]|by right].
    + intros u q Hu. destruct (Hs u q Hu) as [[]|]; [left; split; [done|lia]|by right].
  - intros (Hr & Hp & Hs). split_and!; try done; first [set_solver|eauto].
Qed.

(** Adding a sender. *)
Lemma remembers_addPeer hold t p e q :
  remembers hold t p (Some (t, e)) →
  remembers hold t (mkPast (last_relay p) (last_process p) (if q =? 0 then senders p else (t, q) :: senders p)) (Some (t, entry_addPeer q e)).
Proof.
  intros (? & Hr' & Hp' & Hs' & Hr & Hp & Hs). unfold entry_addPeer. destruct (Z.eqb_spec q 0); cbn; [done|].
  split_and!; [done..| |done|done|].
  - intros q'. rewrite elem_of_union, elem_of_singleton. intros [->|[u Hu]%Hs']; [exists t; by left|exists u; by right].
  - intros u q'. rewrite elem_of_cons. intros [[= -> ->]|Hu]; [left; set_solver|]. destruct (Hs u q' Hu) as [[]|]; [left; set_solver|by right].
Qed.

Lemma remembers_same hold t p e e' :
  relayed_ e' = relayed_ e → processed_ e' = processed_ e → peers_ e' = peers_ e →
  remembers hold t p (Some (t, e)) → remembers hold t p (Some (t, e')).
Proof. cbn. by intros -> -> ->. Qed.

Lemma remembers_step hold limit t c b p e k : hkey c = k →
  remembers hold t p (Some (t, e)) →
  let '(r, e') := entry_step t hold limit c b e in
  remembers hold t (past_step k p (t, c, r)) (Some (t, e')).
Proof.
  intros <- Hm. unfold past_step. destruct c; cbn [hkey]; rewrite Z.eqb_refl; cbn [entry_step was_relayed was_processed hsender].
  1: by destruct p.
  1-3: apply remembers_addPeer with (q := peer) in Hm; by destruct (peer =? 0).
  - apply remembers_addPeer with (q := peer) in Hm. revert Hm. generalize (entry_addPeer peer e). intros e1 Hm.
    unfold entry_shouldProcess. destruct (match processed_ e1 with Some u => t <? u + interval | None => false end) eqn:E; cbn [was_relayed was_processed hsender].
    { by destruct (peer =? 0). }
    destruct Hm as (? & Hr' & Hp' & Hs' & Hr & Hp & Hs). cbn in *. split_and!; [lia|done|naive_solver| |done|naive_solver lia|].
    + by destruct (peer =? 0).
    + by destruct (peer =? 0).
  - by destruct p.
  - destruct (Z.land _ _ =? _); cbn; destruct p; done.
  - unfold entry_shouldRelay. destruct (match relayed_ e with Some u => t <? u + hold | None => false end) eqn:E; cbn [was_relayed was_processed hsender].
    { by destruct p. }
    destruct Hm as (? & Hr' & Hp' & Hs' & Hr & Hp & Hs). cbn in *. split_and!; [lia|naive_solver|done|set_solver|naive_solver lia|done|set_solver].
  - by destruct p.
Qed.

(** A call keeps the invariant of every key. *)
Lemma hstep_remembers now c h p k : 
  remembers (holdTime_ h) now p (suppressionMap_ h !! k) →
  let '(r, h') := hstep now c h in
  holdTime_ h' = holdTime_ h ∧
  remembers (holdTime_ h) now (past_step k p (now, c, r)) (suppressionMap_ h' !! k).
Proof.
  intros Hm. destruct (aborts c) eqn:Ha.
  { destruct c; try done. cbn in Ha |- *. unfold setFlags. rewrite Ha. split; [done|]. unfold past_step; cbn [hkey]. by destruct (key =? k), p. }
  pose proof (hstep_entry now c h Ha) as He. cbn zeta in He.
  destruct (entry_step _ _ _ _ _ _) as [r e'] eqn:Es. rewrite He. split; [done|]. cbn [suppressionMap_ with_map].
  destruct (decide (hkey c = k)) as [<-|Hk].
  - rewrite lookup_insert_eq. apply remembers_used in Hm. pose proof (remembers_step _ (recoverLimit_ h) _ c (bool_decide (suppressionMap_ h !! hkey c = None)) p _ _ eq_refl Hm) as H1.
    by rewrite Es in H1.
  - rewrite lookup_insert_ne by done. unfold past_step. rewrite (proj2 (Z.eqb_neq _ _) Hk).
    case_decide; [done|]. unfold expire_map. rewrite map_lookup_filter.
    destruct (suppressionMap_ h !! k) as [[w e]|]; [|done]. cbn [mbind option_bind]. case_guard as Hw; cbn; [done|].
    eapply remembers_expire; [|exact Hm]. cbn in Hw. lia.
Qed.

(** The invariant after a sequence of calls; [t] is not before the last of them. *)
Lemma hrun_remembers k t cs : ∀ h p,
  ordered cs t → (∀ t0 c cs', cs = (t0, c) :: cs' → remembers (holdTime_ h) t0 p (suppressionMap_ h !! k)) →
  (cs = [] → remembers (holdTime_ h) t p (suppressionMap_ h !! k)) →
  let h' := (hrun cs h).2 in
  holdTime_ h' = holdTime_ h ∧ remembers (holdTime_ h) t (foldl (past_step k) p (hlog cs h)) (suppressionMap_ h' !! k).
Proof.
  induction cs as [|[t0 c] cs IH]; intros h p Ho Hc Hn; [by split; [|apply Hn]|].
  destruct Ho as (Hall & Ht & Ho). specialize (Hc _ _ _ eq_refl).
  pose proof (hstep_remembers t0 c h p k Hc) as Hstep. unfold hlog. cbn [hrun].
  destruct (hstep t0 c h) as [r h1] eqn:E1. destruct Hstep as [Hh Hm].
  specialize (IH h1 (past_step k p (t0, c, r)) Ho). unfold hlog in IH. destruct (hrun cs h1) as [rs h2] eqn:E2. cbn [fst snd zip zip_with foldl] in *.
  rewrite Hh in IH. apply IH.
  - intros t1 c1 cs1 ->. eapply remembers_later; [|exact Hm]. by apply Forall_inv in Hall.
  - intros ->. by eapply remembers_later.
Qed.

Lemma router_remembers hold limit k t cs : ordered cs t →
  let h := (hrun cs (HashRouter_ctor hold limit)).2 in
  holdTime_ h = hold ∧ remembers hold t (past k (hlog cs (HashRouter_ctor hold limit))) (suppressionMap_ h !! k).
Proof.
  intros Ho. assert (∀ u, remembers hold u (mkPast None None []) (suppressionMap_ (HashRouter_ctor hold limit) !! k)) as Hi.
  { intros u. cbn. split; [done|]. split; [done|]. intros ? ? H. by apply elem_of_nil in H. }
  apply (hrun_remembers k t cs (HashRouter_ctor hold limit) (mkPast None None []) Ho); intros; apply Hi.
Qed.

(** C13: after any calls on a router, [shouldRelay] refuses a message exactly when
    it was relayed less than the hold time ago; otherwise the peers it returns, to
    which the message need not be sent, all sent it since it was last relayed, and
    every peer that did so within the hold time is among them. *)
Theorem relay_decision_exact hold limit cs t k : ordered cs t →
  let h := (hrun cs (HashRouter_ctor hold limit)).2 in
  let p := past k (hlog cs (HashRouter_ctor hold limit)) in
  match (shouldRelay t k h).1 with
  | None => ∃ t', last_relay p = Some t' ∧ t < t' + hold
  | Some peers =>
    (∀ t', last_relay p = Some t' → t' + hold ≤ t) ∧
    (∀ q, q ∈ peers → ∃ t', (t', q) ∈ senders p) ∧
    (∀ t' q, (t', q) ∈ senders p → t < t' + hold → q ∈ peers)
  end.
Proof.
  intros Ho. destruct (router_remembers hold limit k t cs Ho) as [Hh Hm]. cbn zeta.
  set (h := (hrun _ _).2) in *. set (p := past _ _) in *. clearbody h p.
  apply remembers_used in Hm. pose proof (hstep_entry t (HRelay k) h eq_refl) as He. cbn [hkey entry_step hstep] in He. cbn zeta in He.
  rewrite Hh in He. destruct Hm as (_ & Hr' & _ & Hs' & Hr & _ & Hs). set (e := default _ _) in *. clearbody e.
  unfold entry_shouldRelay in He. destruct (match relayed_ e with Some u => t <? u + hold | None => false end) eqn:E; destruct (shouldRelay t k h) as [o h']; cbn in He; injection He as -> _; cbn [fst].
  - destruct (relayed_ e) as [t'|]; [|done]. exists t'. split; [by apply Hr'|lia].
  - split_and!; [|exact Hs'|].
    + intros t' Ht'. destruct (Hr t' Ht') as [[Hx _]|]; [rewrite Hx in E|]; lia.
    + intros t' q Hq Ht. destruct (Hs t' q Hq) as [[]|]; [done|lia].
Qed.

(** [shouldProcess] refuses a message only when it was last processed less
    than the interval ago, and when it accepts one the last time is at least the
    interval, or the hold time, ago. *)
Theorem process_decision_spaced hold limit cs t k peer interval : ordered cs t →
  let h := (hrun cs (HashRouter_ctor hold limit)).2 in
  let p := past k (hlog cs (HashRouter_ctor hold limit)) in
  if (shouldProcess t k peer interval h).1.1
  then ∀ t', last_process p = Some t' → t' + Z.min interval hold ≤ t
  else ∃ t', last_process p = Some t' ∧ t < t' + interval.
Proof.
  intros Ho. destruct (router_remembers hold limit k t cs Ho) as [Hh Hm]. cbn zeta.
  set (h := (hrun _ _).2) in *. set (p := past _ _) in *. clearbody h p.
  apply remembers_used in Hm. apply remembers_addPeer with (q := peer) in Hm.
  pose proof (hstep_entry t (HProcess k peer interval) h eq_refl) as He. cbn [hkey entry_step hstep] in He. cbn zeta in He.
  destruct Hm as (_ & _ & Hp' & _ & _ & Hp & _). cbn [last_process] in *. set (e := entry_addPeer _ _) in *. clearbody e.
  unfold entry_shouldProcess in He. destruct (match processed_ e with Some u => t <? u + interval | None => false end) eqn:E; destruct (shouldProcess t k peer interval h) as [[b f] h']; cbn in He; injection He as -> _ _; cbn [fst].
  - destruct (processed_ e) as [t'|]; [|done]. exists t'. split; [by apply Hp'|lia].
  - intros t' Ht'. destruct (Hp t' Ht') as [[Hx _]|]; [rewrite Hx in E|]; lia.
Qed.

Definition sample_calls : list (Z * HCmd) :=
  [(0, HPeer 7 1); (1, HRelay 7); (2, HPeer 7 2); (200, HPeerFlags 7 3); (250, HPeer 8 4)].

Lemma relay_decision_exact_witness :
  ordered sample_calls 301 ∧
  match (shouldRelay 301 7 (hrun sample_calls (HashRouter_ctor 300 1)).2).1 with
  | None => False
  | Some peers =>
    (∀ t', last_relay (past 7 (hlog sample_calls (HashRouter_ctor 300 1))) = Some t' → t' + 300 ≤ 301) ∧
    (∀ q, q ∈ peers → ∃ t', (t', q) ∈ senders (past 7 (hlog sample_calls (HashRouter_ctor 300 1)))) ∧
    (∀ t' q, (t', q) ∈ senders (past 7 (hlog sample_calls (HashRouter_ctor 300 1))) → 301 < t' + 300 → q ∈ peers)
  end.
Proof.
  assert (ordered sample_calls 301) as Ho by (cbn; repeat constructor; cbn; lia).
  split; [exact Ho|]. exact (relay_decision_exact 300 1 sample_calls 301 7 Ho).
Defined.

Lemma process_decision_spaced_witness :
  ordered [(0, HProcess 7 1 10)] 5 ∧ ∃ t', last_process (past 7 (hlog [(0, HProcess 7 1 10)] (HashRouter_ctor 300 1))) = Some t' ∧ 5 < t' + 10.
Proof.
  assert (ordered [(0, HProcess 7 1 10)] 5) as Ho by (cbn; repeat constructor; cbn; lia).
  split; [exact Ho|]. exact (process_decision_spaced 300 1 [(0, HProcess 7 1 10)] 5 7 2 10 Ho).
Defined.
