(* ===== verification/Amendments.v ===== *)
(** * Amendments

    [app/misc/impl/AmendmentTable.cpp], [app/misc/AmendmentTable.h], the part of
    [app/tx/impl/Change.cpp] that applies amendment transactions and what
    [ledger/impl/View.cpp] and [ledger/impl/ReadView.cpp] read of them.

    The ledger entry with the amendments is a record of its two fields.  Times
    are seconds of the network clock.  Of the wallet database the table of votes
    is modelled, as the list of its rows; the sections of the configuration are
    given as parsed. *)
From S2P Require Import Prelude.

(** ** The ledger entry *)

(** [sfAmendments], which reads as empty where it is absent, and [sfMajorities]. *)
Record AmendmentObject := mkObject { o_amendments : list Z; o_majorities : option (list (Z * Z)) }.

Definition new_object : AmendmentObject := mkObject [] None.

Definition getEnabledAmendments (obj : option AmendmentObject) : gset Z :=
  match obj with Some o => list_to_set (o_amendments o) | None => ∅ end.

Definition getMajorityAmendments (obj : option AmendmentObject) : gmap Z Z :=
  match obj with
  | Some o => match o_majorities o with Some ms => foldl (λ ret m, <[m.1 := m.2]> ret) ∅ ms | None => ∅ end
  | None => ∅
  end.

Record Rules := mkRules { presets_ : gset Z; set_ : gset Z }.

Definition Rules_ctor (presets : gset Z) (obj : option AmendmentObject) : Rules :=
  mkRules presets (match obj with Some o => list_to_set (o_amendments o) | None => ∅ end).

Definition rules_enabled (rules : Rules) (feature : Z) : bool :=
  if bool_decide (feature ∈ presets_ rules) then true else bool_decide (feature ∈ set_ rules).

(** ** Counting votes *)

Record STValidation := mkValidation { isTrusted : bool; val_amendments : option (list Z) }.

(** The ratios 204/256 and 80/100 in lowest terms. *)
Definition preFixAmendmentMajorityCalcThreshold : Z * Z := (51, 64).
Definition postFixAmendmentMajorityCalcThreshold : Z * Z := (4, 5).

Definition tfGotMajority : Z := 65536.
Definition tfLostMajority : Z := 131072.

Record AmendmentSet := mkAmendmentSet {
  votes_ : gmap Z Z;
  rules_ : Rules;
  trustedValidations_ : Z;
  threshold_ : Z }.

Definition count_vote (votes : gmap Z Z) (amendment : Z) : gmap Z Z :=
  <[amendment := default 0 (votes !! amendment) + 1]> votes.

Definition count_validation (acc : gmap Z Z * Z) (val : STValidation) : gmap Z Z * Z :=
  let '(votes, n) := acc in
  if isTrusted val then
    (match val_amendments val with Some choices => foldl count_vote votes choices | None => votes end, n + 1)
  else acc.

Section table.
Context (fixAmendmentMajorityCalc : Z).

Definition AmendmentSet_ctor (rules : Rules) (valSet : list STValidation) : AmendmentSet :=
  let '(votes, n) := foldl count_validation (∅, 0) valSet in
  let ratio :=
    if negb (rules_enabled rules fixAmendmentMajorityCalc) then preFixAmendmentMajorityCalcThreshold
    else postFixAmendmentMajorityCalcThreshold in
  mkAmendmentSet votes rules n (Z.max 1 (n * ratio.1 / ratio.2)).

Definition passes (s : AmendmentSet) (amendment : Z) : bool :=
  match votes_ s !! amendment with
  | None => false
  | Some v =>
    if negb (rules_enabled (rules_ s) fixAmendmentMajorityCalc) || (trustedValidations_ s =? 1)
    then threshold_ s <=? v else threshold_ s <? v
  end.

Definition votes (s : AmendmentSet) (amendment : Z) : Z := default 0 (votes_ s !! amendment).

(** ** The table *)

Record AmendmentState := mkAmendmentState { vetoed : bool; enabled : bool; supported : bool; name : string }.

Definition AmendmentState_ctor : AmendmentState := mkAmendmentState false false false "".
Definition set_vetoed (b : bool) (s : AmendmentState) := mkAmendmentState b (enabled s) (supported s) (name s).
Definition set_enabled (b : bool) (s : AmendmentState) := mkAmendmentState (vetoed s) b (supported s) (name s).
Definition set_supported (b : bool) (s : AmendmentState) := mkAmendmentState (vetoed s) (enabled s) b (name s).
Definition set_name (n : string) (s : AmendmentState) := mkAmendmentState (vetoed s) (enabled s) (supported s) n.

(** A row of the table [FeatureVotes]. *)
Definition VoteRow : Type := Z * string * bool.

Record AmendmentTable := mkTable {
  amendmentMap_ : gmap Z AmendmentState;
  lastUpdateSeq_ : Z;
  majorityTime_ : Z;
  lastVote_ : option AmendmentSet;
  unsupportedEnabled_ : bool;
  firstUnsupportedExpected_ : option Z;
  db_ : list VoteRow }.

Definition with_amendments (m : gmap Z AmendmentState) (t : AmendmentTable) : AmendmentTable :=
  mkTable m (lastUpdateSeq_ t) (majorityTime_ t) (lastVote_ t) (unsupportedEnabled_ t) (firstUnsupportedExpected_ t) (db_ t).

(** The state of an amendment, created where [amendmentMap_] has none. *)
Definition add (amendment : Z) (m : gmap Z AmendmentState) : AmendmentState := default AmendmentState_ctor (m !! amendment).

Definition persistVote (amendment : Z) (name : string) (vote_to_veto : bool) (t : AmendmentTable) : AmendmentTable :=
  mkTable (amendmentMap_ t) (lastUpdateSeq_ t) (majorityTime_ t) (lastVote_ t) (unsupportedEnabled_ t)
    (firstUnsupportedExpected_ t) (db_ t ++ [(amendment, name, vote_to_veto)]).

Definition veto (amendment : Z) (t : AmendmentTable) : bool * AmendmentTable :=
  let s := add amendment (amendmentMap_ t) in
  if vetoed s then (false, with_amendments (<[amendment := s]> (amendmentMap_ t)) t)
  else
    let t := with_amendments (<[amendment := set_vetoed true s]> (amendmentMap_ t)) t in
    (true, persistVote amendment (name s) true t).

Definition unVeto (amendment : Z) (t : AmendmentTable) : bool * AmendmentTable :=
  match amendmentMap_ t !! amendment with
  | None => (false, t)
  | Some s =>
    if negb (vetoed s) then (false, t)
    else
      let t := with_amendments (<[amendment := set_vetoed false s]> (amendmentMap_ t)) t in
      (true, persistVote amendment (name s) false t)
  end.

Definition enable (amendment : Z) (t : AmendmentTable) : bool * AmendmentTable :=
  let s := add amendment (amendmentMap_ t) in
  if enabled s then (false, with_amendments (<[amendment := s]> (amendmentMap_ t)) t)
  else
    (true, mkTable (<[amendment := set_enabled true s]> (amendmentMap_ t)) (lastUpdateSeq_ t) (majorityTime_ t) (lastVote_ t)
       (if supported s then unsupportedEnabled_ t else true) (firstUnsupportedExpected_ t) (db_ t)).

Definition isEnabled (t : AmendmentTable) (amendment : Z) : bool :=
  match amendmentMap_ t !! amendment with Some s => enabled s | None => false end.
Definition isSupported (t : AmendmentTable) (amendment : Z) : bool :=
  match amendmentMap_ t !! amendment with Some s => supported s | None => false end.

(** The amendment of a name: the first one met in the hash table. *)
Definition find `{!HashOrder Z} (t : AmendmentTable) (n : string) : Z :=
  match filter (λ e, name e.2 = n) (hash_elems (amendmentMap_ t)) with e :: _ => e.1 | [] => 0 end.

Definition doValidation (t : AmendmentTable) (enabled : gset Z) : list Z :=
  merge_sort Z.le
    (filter (λ e : Z * AmendmentState, supported e.2 = true ∧ vetoed e.2 = false ∧ (e.1 ∉ enabled)) (map_to_list (amendmentMap_ t))).*1.

Definition getDesired (t : AmendmentTable) : list Z := doValidation t ∅.

(** The action on one amendment, if any: the flags of the transaction. *)
Definition action (t : AmendmentTable) (vote : AmendmentSet) (closeTime : Z) (enabledAmendments : gset Z)
    (majorityAmendments : gmap Z Z) (id : Z) (s : AmendmentState) : option Z :=
  let hasValMajority := passes vote id in
  let majorityTime := default 0 (majorityAmendments !! id) in
  if bool_decide (id ∈ enabledAmendments) then None
  else if hasValMajority && (majorityTime =? 0) && negb (vetoed s) then Some tfGotMajority
  else if negb hasValMajority && negb (majorityTime =? 0) then Some tfLostMajority
  else if negb (majorityTime =? 0) && (majorityTime + majorityTime_ t <=? closeTime) && negb (vetoed s) then Some 0
  else None.

Definition doVoting (t : AmendmentTable) (rules : Rules) (closeTime : Z) (enabledAmendments : gset Z)
    (majorityAmendments : gmap Z Z) (valSet : list STValidation) : gmap Z Z * AmendmentTable :=
  let vote := AmendmentSet_ctor rules valSet in
  (map_imap (action t vote closeTime enabledAmendments majorityAmendments) (amendmentMap_ t),
   mkTable (amendmentMap_ t) (lastUpdateSeq_ t) (majorityTime_ t) (Some vote) (unsupportedEnabled_ t) (firstUnsupportedExpected_ t) (db_ t)).

Definition needValidatedLedger (t : AmendmentTable) (ledgerSeq : Z) : bool :=
  negb (u32 (ledgerSeq - 1) / 256 =? u32 (lastUpdateSeq_ t - 1) / 256).

(** One step of the loop over the majorities. *)
Definition note_majority (acc : gmap Z AmendmentState * option Z) (m : Z * Z) : gmap Z AmendmentState * option Z :=
  let '(map, first) := acc in
  let '(hash, time) := m in
  let s := add hash map in
  let map := <[hash := s]> map in
  if enabled s then (map, first)
  else if negb (supported s) then
    (map, match first with Some f => if time <? f then Some time else first | None => Some time end)
  else (map, first).

Definition doValidatedLedger (ledgerSeq : Z) (enabled : gset Z) (majority : gmap Z Z) (t : AmendmentTable) : AmendmentTable :=
  let t := foldl (λ t e, (enable e t).2) t (merge_sort Z.le (elements enabled)) in
  let '(map, first) := foldl note_majority (amendmentMap_ t, None) (map_sorted majority) in
  mkTable map ledgerSeq (majorityTime_ t) (lastVote_ t) (unsupportedEnabled_ t)
    ((λ f, u32 (f + majorityTime_ t)) <$> first) (db_ t).

(** ** Starting *)

Definition support (m : gmap Z AmendmentState) (a : Z * string) : gmap Z AmendmentState :=
  let s := add a.1 m in
  <[a.1 := set_supported true (if bool_decide (a.2 = "") then s else set_name a.2 s)]> m.

(** The rows the configuration gives a new table. *)
Definition config_rows (enabled vetoed : list (Z * string)) : list VoteRow :=
  ((λ a, (a.1, a.2, false)) <$> enabled) ++
  ((λ a, (a.1, a.2, true)) <$> filter (λ a : Z * string, a.1 ∉ enabled.*1) vetoed).

Definition read_row (m : gmap Z AmendmentState) (row : VoteRow) : gmap Z AmendmentState :=
  let '(id, n, veto) := row in
  let rename s := if bool_decide (n = "") then s else set_name n s in
  if veto then match m !! id with Some s => <[id := set_vetoed true (rename s)]> m | None => m end
  else <[id := set_vetoed false (rename (add id m))]> m.

(** [rows] is the table of votes, if the database has one. *)
Definition AmendmentTable_ctor (majorityTime : Z) (supported enabled vetoed : list (Z * string)) (rows : option (list VoteRow)) : AmendmentTable :=
  let map := foldl support ∅ supported in
  let rows := match rows with Some rows => rows | None => config_rows enabled vetoed end in
  mkTable (foldl read_row map rows) 0 majorityTime None false None rows.
End table.

(** ** Amendment transactions *)

Inductive TER := tesSUCCESS | tefALREADY | temINVALID_FLAG.

(** The loop over the old majorities: whether the amendment was there and the
    others; nothing where the transaction is refused. *)
Fixpoint scan_majorities (amendment : Z) (gotMajority : bool) (old : list (Z * Z)) : option (bool * list (Z * Z)) :=
  match old with
  | [] => Some (false, [])
  | m :: old =>
    if m.1 =? amendment then
      if gotMajority then None
      else match scan_majorities amendment gotMajority old with Some (_, rest) => Some (true, rest) | None => None end
    else match scan_majorities amendment gotMajority old with Some (found, rest) => Some (found, m :: rest) | None => None end
  end.

Record Change := mkChange { c_obj : option AmendmentObject; c_table : AmendmentTable; c_blocked : bool }.

(** [setAmendmentBlocked] is the flag of the result. *)
Definition applyAmendment (parentCloseTime amendment flags : Z) (c : Change) : TER * Change :=
  let obj := default new_object (c_obj c) in
  let c := mkChange (Some obj) (c_table c) (c_blocked c) in
  if bool_decide (amendment ∈ o_amendments obj) then (tefALREADY, c)
  else
    let gotMajority := negb (Z.land flags tfGotMajority =? 0) in
    let lostMajority := negb (Z.land flags tfLostMajority =? 0) in
    if gotMajority && lostMajority then (temINVALID_FLAG, c)
    else
      match scan_majorities amendment gotMajority (default [] (o_majorities obj)) with
      | None => (tefALREADY, c)
      | Some (found, newMajorities) =>
        if negb found && lostMajority then (tefALREADY, c)
        else
          let newMajorities := if gotMajority then newMajorities ++ [(amendment, parentCloseTime)] else newMajorities in
          let enables := negb gotMajority && negb lostMajority in
          let amendments := if enables then o_amendments obj ++ [amendment] else o_amendments obj in
          let table := if enables then (enable amendment (c_table c)).2 else c_table c in
          let blocked := if enables && negb (isSupported table amendment) then true else c_blocked c in
          let majorities := if bool_decide (newMajorities = []) then None else Some newMajorities in
          (tesSUCCESS, mkChange (Some (mkObject amendments majorities)) table blocked)
      end.

(** The changes of a transaction that fails are not applied to the ledger. *)
Definition apply_change (parentCloseTime : Z) (c : Change) (tx : Z * Z) : Change :=
  let '(ter, c') := applyAmendment parentCloseTime tx.1 tx.2 c in
  match ter with tesSUCCESS => c' | _ => mkChange (c_obj c) (c_table c') (c_blocked c') end.

Definition apply_changes (parentCloseTime : Z) (txs : list (Z * Z)) (c : Change) : Change :=
  foldl (apply_change parentCloseTime) c txs.

(** The transactions a node proposes in the ledger after [obj]. *)
Definition proposed_changes (fixAmendmentMajorityCalc : Z) (t : AmendmentTable) (presets : gset Z) (closeTime : Z)
    (obj : option AmendmentObject) (valSet : list STValidation) : list (Z * Z) :=
  map_sorted (doVoting fixAmendmentMajorityCalc t (Rules_ctor presets obj) closeTime (getEnabledAmendments obj)
    (getMajorityAmendments obj) valSet).1.
