(* ===== verification/AmendmentsClaims.v ===== *)
(** * Amendments: how the ledger entry changes

    The entry as two lists, the effect of each transaction on them, and what
    the votes of the validators have to do with the transactions of a node. *)
From S2P Require Import Prelude Amendments.

(** The fields of the entry, absent or not. *)
Definition adopted (obj : option AmendmentObject) : list Z := o_amendments (default new_object obj).
Definition majorities (obj : option AmendmentObject) : list (Z * Z) := default [] (o_majorities (default new_object obj)).

Lemma enabled_adopted obj a : a ∈ getEnabledAmendments obj ↔ a ∈ adopted obj.
Proof. destruct obj as [o|]; cbn; [|set_solver]. apply elem_of_list_to_set. Qed.

Lemma rules_adopted presets obj : Rules_ctor presets obj = mkRules presets (list_to_set (adopted obj)).
Proof. by destruct obj. Qed.

Definition insert_all (ms : list (Z * Z)) : gmap Z Z := foldl (λ ret m, <[m.1 := m.2]> ret) ∅ ms.

Lemma majorities_map obj : getMajorityAmendments obj = insert_all (majorities obj).
Proof. destruct obj as [[am [ms|]]|]; done. Qed.

Lemma insert_all_snoc ms m : insert_all (ms ++ [m]) = <[m.1 := m.2]> (insert_all ms).
Proof. unfold insert_all. by rewrite foldl_app. Qed.

Lemma insert_all_elem ms a t : insert_all ms !! a = Some t → (a, t) ∈ ms.
Proof.
  induction ms as [|[b u] ms IH] using rev_ind; [done|]. rewrite insert_all_snoc, lookup_insert_Some, elem_of_app, list_elem_of_singleton. cbn. naive_solver.
Qed.

Lemma insert_all_none ms a : insert_all ms !! a = None ↔ a ∉ ms.*1.
Proof.
  induction ms as [|[b u] ms IH] using rev_ind; [split; [intros _; apply not_elem_of_nil|done]|].
  rewrite insert_all_snoc, lookup_insert_None, fmap_app, elem_of_app, IH. cbn. rewrite list_elem_of_singleton. naive_solver.
Qed.

Lemma insert_all_lookup ms a t : NoDup ms.*1 → (a, t) ∈ ms → insert_all ms !! a = Some t.
Proof.
  induction ms as [|[b u] ms IH] using rev_ind; [by intros _ ?%elem_of_nil|].
  rewrite fmap_app, NoDup_app, elem_of_app, list_elem_of_singleton, insert_all_snoc. cbn. intros (Hnd & Hb & _) [Hin|[= -> ->]]; [|apply lookup_insert_eq].
  rewrite lookup_insert_ne; [by apply IH|]. intros ->. apply (Hb a); [|by left]. apply list_elem_of_fmap. by exists (a, t).
Qed.

(** ** The effect of a transaction *)

Definition others (a : Z) (ms : list (Z * Z)) : list (Z * Z) := filter (λ m : Z * Z, m.1 ≠ a) ms.

Lemma scan_ok a got ms :
  scan_majorities a got ms =
  if got && bool_decide (a ∈ ms.*1) then None else Some (bool_decide (a ∈ ms.*1), others a ms).
Proof.
  induction ms as [|[b t] ms IH]; [by destruct got|]. cbn [scan_majorities fst]. unfold others. rewrite filter_cons. fold (others a ms).
  rewrite fmap_cons. cbn [fst]. rewrite IH. destruct (Z.eqb_spec b a) as [->|Hne].
  - rewrite decide_False, (bool_decide_eq_true_2 (a ∈ a :: _)) by (auto; by left). by destruct got.
  - rewrite decide_True by done. rewrite (bool_decide_ext (a ∈ b :: ms.*1) (a ∈ ms.*1)).
    + by destruct (got && _).
    + rewrite elem_of_cons. naive_solver.
Qed.

Lemma elem_of_others a b t ms : (b, t) ∈ others a ms ↔ b ≠ a ∧ (b, t) ∈ ms.
Proof. unfold others. by rewrite list_elem_of_filter. Qed.

Lemma others_absent a ms : a ∉ ms.*1 → others a ms = ms.
Proof.
  intros Ha. unfold others. induction ms as [|[b t] ms IH]; [done|]. rewrite fmap_cons, not_elem_of_cons in Ha. destruct Ha.
  rewrite filter_cons_True by (cbn in *; congruence). by rewrite IH.
Qed.

Lemma others_keys a b ms : b ∈ (others a ms).*1 ↔ b ≠ a ∧ b ∈ ms.*1.
Proof. unfold others. rewrite !list_elem_of_fmap. setoid_rewrite list_elem_of_filter. naive_solver. Qed.

Lemma NoDup_others a ms : NoDup ms.*1 → NoDup (others a ms).*1.
Proof.
  induction ms as [|[b t] ms IH]; [done|]. rewrite fmap_cons, NoDup_cons. intros [Hb Hnd]. unfold others. rewrite filter_cons. fold (others a ms).
  case_decide; [|by apply IH]. rewrite fmap_cons, NoDup_cons. split; [|by apply IH]. rewrite others_keys. naive_solver.
Qed.

(** What a transaction asks for. *)
Inductive Asks := Enable | Gain | Lose | Nonsense.

Definition asks (flags : Z) : Asks :=
  match Z.land flags tfGotMajority =? 0, Z.land flags tfLostMajority =? 0 with
  | true, true => Enable
  | false, true => Gain
  | true, false => Lose
  | false, false => Nonsense
  end.

(** The lists of the entry after a transaction. *)
Definition change_lists (pct : Z) (tx : Z * Z) (e : list Z * list (Z * Z)) : list Z * list (Z * Z) :=
  let '(am, ms) := e in
  if bool_decide (tx.1 ∈ am) then e
  else
    match asks tx.2 with
    | Enable => (am ++ [tx.1], others tx.1 ms)
    | Gain => if bool_decide (tx.1 ∈ ms.*1) then e else (am, ms ++ [(tx.1, pct)])
    | Lose => (am, others tx.1 ms)
    | Nonsense => e
    end.

Definition lists (obj : option AmendmentObject) : list Z * list (Z * Z) := (adopted obj, majorities obj).

Lemma stored_majorities am ms : lists (Some (mkObject am (if bool_decide (ms = []) then None else Some ms))) = (am, ms).
Proof. unfold lists, adopted, majorities. cbn. case_bool_decide; by subst. Qed.

Lemma apply_change_lists pct c tx : lists (c_obj (apply_change pct c tx)) = change_lists pct tx (lists (c_obj c)).
Proof.
  destruct c as [obj table blocked], tx as [a flags]. unfold apply_change, applyAmendment, lists at 2. cbn [c_obj c_table c_blocked fst snd change_lists].
  fold (adopted obj). fold (majorities obj). case_bool_decide as Ha; [done|]. unfold asks. rewrite scan_ok.
  destruct (Z.land flags tfGotMajority =? 0), (Z.land flags tfLostMajority =? 0); cbn [negb andb]; try done.
  - rewrite andb_false_r. cbn [negb andb]. by rewrite <- stored_majorities.
  - rewrite andb_true_r. case_bool_decide as Hm; cbn [negb]; [by rewrite <- stored_majorities|]. by rewrite others_absent.
  - case_bool_decide as Hm; [done|]. cbn [negb andb]. rewrite others_absent by done. by rewrite <- stored_majorities.
Qed.

Lemma apply_changes_lists pct txs : ∀ c, lists (c_obj (apply_changes pct txs c)) = foldl (λ e tx, change_lists pct tx e) (lists (c_obj c)) txs.
Proof. unfold apply_changes. induction txs as [|tx txs IH]; intros c; [done|]. cbn [foldl]. by rewrite IH, apply_change_lists. Qed.

(** ** The invariant of the entry *)

Record entry_ok (e : list Z * list (Z * Z)) : Prop := {
  eo_adopted : NoDup e.1;
  eo_majorities : NoDup e.2.*1;
  eo_apart a : a ∈ e.1 → a ∉ e.2.*1 }.

Lemma change_lists_ok pct tx e : entry_ok e → entry_ok (change_lists pct tx e).
Proof.
  destruct e as [am ms]. intros [Ha Hm Hd]. cbn in *. unfold change_lists. case_bool_decide as Hin; [done|].
  destruct (asks tx.2).
  - split; cbn.
    + rewrite NoDup_app. split_and!; [done| |apply NoDup_singleton]. intros b Hb ->%list_elem_of_singleton. done.
    + by apply NoDup_others.
    + intros b. rewrite elem_of_app, list_elem_of_singleton, others_keys. naive_solver.
  - case_bool_decide as Hms; [done|]. split; cbn; [done| |].
    + rewrite fmap_app, NoDup_app. split_and!; [done| |apply NoDup_singleton]. intros b Hb ->%list_elem_of_singleton. done.
    + intros b Hb. rewrite fmap_app, elem_of_app. cbn. rewrite list_elem_of_singleton. naive_solver.
  - split; cbn; [done|by apply NoDup_others|]. intros b Hb. rewrite others_keys. naive_solver.
  - done.
Qed.

Lemma changes_lists_ok pct txs : ∀ e, entry_ok e → entry_ok (foldl (λ e tx, change_lists pct tx e) e txs).
Proof. induction txs as [|tx txs IH]; intros e He; [done|]. apply IH. by apply change_lists_ok. Qed.

(** What can have entered the lists. *)
Lemma change_new pct tx e :
  (∀ a, a ∈ (change_lists pct tx e).1 → a ∈ e.1 ∨ a = tx.1 ∧ asks tx.2 = Enable) ∧
  (∀ a t, (a, t) ∈ (change_lists pct tx e).2 → (a, t) ∈ e.2 ∨ a = tx.1 ∧ t = pct ∧ asks tx.2 = Gain).
Proof.
  destruct e as [am ms], tx as [b f]. unfold change_lists. cbn [fst snd]. case_bool_decide; [naive_solver|]. destruct (asks f); cbn [fst snd].
  - split; intros a; [rewrite elem_of_app, list_elem_of_singleton; naive_solver|]. intros t. rewrite elem_of_others. naive_solver.
  - case_bool_decide; [naive_solver|]. split; [naive_solver|]. cbn. intros a t. rewrite elem_of_app, list_elem_of_singleton. naive_solver.
  - split; [naive_solver|]. intros a t. rewrite elem_of_others. naive_solver.
  - naive_solver.
Qed.

Lemma changes_new pct txs : ∀ e,
  (∀ a, a ∈ (foldl (λ e tx, change_lists pct tx e) e txs).1 → a ∈ e.1 ∨ ∃ f, (a, f) ∈ txs ∧ asks f = Enable) ∧
  (∀ a t, (a, t) ∈ (foldl (λ e tx, change_lists pct tx e) e txs).2 → (a, t) ∈ e.2 ∨ t = pct ∧ ∃ f, (a, f) ∈ txs ∧ asks f = Gain).
Proof.
  induction txs as [|[b g] txs IH]; intros e; [cbn; naive_solver|]. cbn [foldl].
  destruct (IH (change_lists pct (b, g) e)) as [IH1 IH2]. destruct (change_new pct (b, g) e) as [H1 H2]. split.
  - intros a [Ha|(f & Hf & ?)]%IH1; [|right; exists f; split; [by right|done]].
    apply H1 in Ha as [?|[-> ?]]; [by left|right; exists g; split; [by left|done]].
  - intros a t [Ha|(-> & f & Hf & ?)]%IH2; [|right; split; [done|]; exists f; split; [by right|done]].
    apply H2 in Ha as [?|(-> & -> & ?)]; [by left|right; split; [done|]; exists g; split; [by left|done]].
Qed.

(** ** Votes *)

Section votes.
Context (fixAmendmentMajorityCalc : Z) (presets : gset Z).

(** A node's count of the validations lets the amendment pass, under the rules of a ledger. *)
Definition passes_in (obj : option AmendmentObject) (valSet : list STValidation) (a : Z) : bool :=
  passes fixAmendmentMajorityCalc (AmendmentSet_ctor fixAmendmentMajorityCalc (Rules_ctor presets obj) valSet) a.

Lemma proposed_action t closeTime obj valSet a f :
  (a, f) ∈ proposed_changes fixAmendmentMajorityCalc t presets closeTime obj valSet ↔
  ∃ s, amendmentMap_ t !! a = Some s ∧
    action fixAmendmentMajorityCalc t (AmendmentSet_ctor fixAmendmentMajorityCalc (Rules_ctor presets obj) valSet) closeTime
      (getEnabledAmendments obj) (getMajorityAmendments obj) a s = Some f.
Proof. unfold proposed_changes, doVoting. cbn [fst]. rewrite elem_of_map_sorted, map_lookup_imap, bind_Some. done. Qed.

(** The node knows the amendment and does not veto it. *)
Definition favours (t : AmendmentTable) (a : Z) : Prop := ∃ s, amendmentMap_ t !! a = Some s ∧ vetoed s = false.

(** When a node proposes to enable an amendment, or to note a majority. *)
Lemma proposed_enable t closeTime obj valSet a f :
  (a, f) ∈ proposed_changes fixAmendmentMajorityCalc t presets closeTime obj valSet → asks f = Enable →
  f = 0 ∧ favours t a ∧ passes_in obj valSet a = true ∧ (a ∉ adopted obj) ∧
  ∃ since, (a, since) ∈ majorities obj ∧ since + majorityTime_ t ≤ closeTime.
Proof.
  rewrite proposed_action. intros (s & Hs & Hact) Hf. unfold action in Hact. fold (passes_in obj valSet a) in Hact.
  rewrite (bool_decide_ext _ _ (enabled_adopted obj a)), majorities_map in Hact. case_bool_decide as Ha; [done|].
  destruct (passes_in obj valSet a); cbn [negb andb] in Hact.
  - destruct (insert_all (majorities obj) !! a) as [since|] eqn:E; cbn [default from_option id] in Hact.
    + apply insert_all_elem in E. destruct (vetoed s) eqn:Hv; [by destruct (since =? 0), (since + majorityTime_ t <=? closeTime)|].
      destruct (since =? 0), (Z.leb_spec (since + majorityTime_ t) closeTime); cbn in Hact; try done; injection Hact as <-; try discriminate Hf.
      split; [done|]. split; [by exists s|]. split_and!; [done|done|]. by exists since.
    + cbn in Hact. destruct (negb (vetoed s)); cbn in Hact; first [done|injection Hact as <-; discriminate Hf].
  - destruct (default 0 _ =? 0); cbn in Hact; first [done|injection Hact as <-; discriminate Hf].
Qed.

Lemma proposed_gain t closeTime obj valSet a f :
  (a, f) ∈ proposed_changes fixAmendmentMajorityCalc t presets closeTime obj valSet → asks f = Gain →
  f = tfGotMajority ∧ favours t a ∧ passes_in obj valSet a = true.
Proof.
  rewrite proposed_action. intros (s & Hs & Hact) Hf. unfold action in Hact. fold (passes_in obj valSet a) in Hact.
  case_bool_decide as Ha; [done|]. destruct (passes_in obj valSet a); cbn [negb andb] in Hact.
  - destruct (vetoed s) eqn:Hv; [by destruct (default 0 _ =? 0), (_ <=? closeTime)|].
    destruct (default 0 _ =? 0); cbn in Hact; [injection Hact as <-; split; [done|]; split; [by exists s|done]|].
    destruct (_ <=? closeTime); cbn in Hact; first [done|injection Hact as <-; discriminate Hf].
  - destruct (default 0 _ =? 0); cbn in Hact; first [done|injection Hact as <-; discriminate Hf].
Qed.

(** ** Chains of ledgers *)

(** A transaction with the node that proposed it: its table, and the validations
    it had counted. *)
Record Ballot := mkBallot { b_tx : Z * Z; b_table : AmendmentTable; b_vals : list STValidation }.

(** The parent's close time of a ledger, the entry it has, and the transactions
    applied in it. *)
Record AmLedger := mkAmLedger { al_parentClose : Z; al_obj : option AmendmentObject; al_ballots : list Ballot }.

(** The node, which waits for [mt], proposes the transaction in the ledger after [L]. *)
Definition proposes (mt : Z) (L : AmLedger) (b : Ballot) : Prop :=
  majorityTime_ (b_table b) = mt ∧
  b_tx b ∈ proposed_changes fixAmendmentMajorityCalc (b_table b) presets (al_parentClose L) (al_obj L) (b_vals b).

(** A chain, the last ledger first, from a ledger without majorities: in each
    ledger transactions are applied that nodes proposed, in any order. *)
Inductive chain (mt : Z) : list AmLedger → Prop :=
  | chain_first L : majorities (al_obj L) = [] → chain mt [L]
  | chain_next L Ls pct ballots table blocked :
      chain mt (L :: Ls) → Forall (proposes mt L) ballots →
      chain mt (mkAmLedger pct (c_obj (apply_changes pct (b_tx <$> ballots) (mkChange (al_obj L) table blocked))) ballots :: L :: Ls).

(** The ledger has the transaction, proposed by a node that does not veto the
    amendment and had counted enough votes for it, by the rules of the ledger before. *)
Definition decided (before : AmLedger) (a flags : Z) (L : AmLedger) : Prop :=
  ∃ b, b ∈ al_ballots L ∧ b_tx b = (a, flags) ∧ favours (b_table b) a ∧ passes_in (al_obj before) (b_vals b) a = true.

(** The amendment has had its majority since [t], in the ledgers [held], the first
    of which has the transaction that noted it. *)
Definition held_since (a t : Z) (held older : list AmLedger) : Prop :=
  Forall (λ L, (a, t) ∈ majorities (al_obj L)) held ∧
  ∃ first before, last held = Some first ∧ head older = Some before ∧
    al_parentClose first = t ∧ decided before a tfGotMajority first.

Lemma chain_held mt Ls : chain mt Ls → ∀ L Ls', Ls = L :: Ls' → ∀ a t, (a, t) ∈ majorities (al_obj L) →
  ∃ held older, Ls = held ++ older ∧ held_since a t held older.
Proof.
  induction 1 as [L Hm|L Ls pct ballots table blocked Hc IH Hv]; intros L' Ls' [= <- <-] a t Hin.
  { rewrite Hm in Hin. by apply elem_of_nil in Hin. }
  set (L' := mkAmLedger _ _ _) in *. pose proof (changes_new pct (b_tx <$> ballots) (lists (al_obj L))) as [_ Hnew].
  pose proof Hin as Hin'. unfold L' in Hin'. cbn [al_obj] in Hin'. change (majorities ?o) with (lists o).2 in Hin'. rewrite apply_changes_lists in Hin'.
  apply Hnew in Hin' as [Hold|(-> & f & Hf & Hg)].
  - destruct (IH _ _ eq_refl a t Hold) as (held & older & -> & Hall & first & before & Hl & Hrest).
    exists (L' :: held), older. split; [done|]. split; [by constructor|].
    exists first, before. split; [|done]. destruct held; [done|exact Hl].
  - exists [L'], (L :: Ls). split; [done|]. split; [by constructor|]. exists L', L. split_and!; [done..|].
    apply list_elem_of_fmap in Hf as (b & Hb & Hin'). rewrite Forall_forall in Hv. destruct (Hv _ Hin') as [_ Hp].
    rewrite <- Hb in Hp. destruct (proposed_gain _ _ _ _ _ _ Hp Hg) as (-> & Hfav & Hpass). by exists b.
Qed.

Lemma chain_adopted mt Ls : chain mt Ls → ∀ L Ls', Ls = L :: Ls' → ∀ a, a ∈ adopted (al_obj L) →
  (∃ first, last Ls = Some first ∧ a ∈ adopted (al_obj first)) ∨
  ∃ newer held older t now L1,
    Ls = newer ++ L1 :: held ++ older ∧ held_since a t held older ∧
    head held = Some now ∧ t + mt ≤ al_parentClose now ∧ decided now a 0 L1.
Proof.
  induction 1 as [L Hm|L Ls pct ballots table blocked Hc IH Hv]; intros L' Ls' [= <- <-] a Hin; [left; by exists L|].
  set (L' := mkAmLedger _ _ _) in *. pose proof (changes_new pct (b_tx <$> ballots) (lists (al_obj L))) as [Hnew _].
  unfold L' in Hin. cbn [al_obj] in Hin. change (adopted ?o) with (lists o).1 in Hin. rewrite apply_changes_lists in Hin.
  apply Hnew in Hin as [Hold|(f & Hf & He)].
  - destruct (IH _ _ eq_refl a Hold) as [(first & Hl & Ha)|(newer & held & older & t & now & L1 & -> & Hrest)]; [left; by exists first|].
    right. exists (L' :: newer), held, older, t, now, L1. by split.
  - right. apply list_elem_of_fmap in Hf as (b & Hb & Hin'). rewrite Forall_forall in Hv. destruct (Hv _ Hin') as [<- Hp].
    rewrite <- Hb in Hp. destruct (proposed_enable _ _ _ _ _ _ Hp He) as (-> & Hfav & Hpass & _ & since & Hs & Ht).
    destruct (chain_held _ _ Hc _ _ eq_refl a since Hs) as (held & older & Heq & Hh).
    exists [], held, older, since, L, L'. rewrite Heq. split_and!; try done; [|by exists b].
    destruct Hh as (_ & first & before & Hl & _). destruct held; [done|]. by injection Heq as -> _.
Qed.

(** ** Rounds of one node *)

(** A node that is alone, or that all others agree with: in each round it counts
    the validations and its transactions are applied. *)
Definition vote_round (pct : Z) (valSet : list STValidation) (LT : AmLedger * AmendmentTable) : AmLedger * AmendmentTable :=
  let '(L, t) := LT in
  let rules := Rules_ctor presets (al_obj L) in
  let t' := (doVoting fixAmendmentMajorityCalc t rules (al_parentClose L) (getEnabledAmendments (al_obj L)) (getMajorityAmendments (al_obj L)) valSet).2 in
  let txs := proposed_changes fixAmendmentMajorityCalc t presets (al_parentClose L) (al_obj L) valSet in
  let c := apply_changes pct txs (mkChange (al_obj L) t' false) in
  (mkAmLedger pct (c_obj c) ((λ tx, mkBallot tx t valSet) <$> txs), c_table c).

Definition vote_rounds (rounds : list (Z * list STValidation)) (LT : AmLedger * AmendmentTable) : AmLedger * AmendmentTable :=
  foldl (λ LT r, vote_round r.1 r.2 LT) LT rounds.

Lemma enable_keeps a b t : favours t a → favours (enable b t).2 a ∧ majorityTime_ (enable b t).2 = majorityTime_ t.
Proof.
  intros (s & Hs & Hv). unfold favours, enable, add. destruct (enabled _); cbn; (split; [|done]); destruct (decide (a = b)) as [->|Hne].
  1,3: rewrite Hs, lookup_insert_eq; by eexists.
  all: rewrite lookup_insert_ne by done; by exists s.
Qed.

Lemma change_keeps pct c tx a :
  favours (c_table c) a → favours (c_table (apply_change pct c tx)) a ∧ majorityTime_ (c_table (apply_change pct c tx)) = majorityTime_ (c_table c).
Proof.
  intros Hf. unfold apply_change, applyAmendment. case_bool_decide; [done|]. destruct (_ && _); [done|]. destruct (scan_majorities _ _ _) as [[found ms]|]; [|done].
  destruct (negb found && _); [done|]. cbn. destruct (_ && _); [by apply enable_keeps|done].
Qed.

Lemma changes_keep pct txs a : ∀ c,
  favours (c_table c) a → favours (c_table (apply_changes pct txs c)) a ∧ majorityTime_ (c_table (apply_changes pct txs c)) = majorityTime_ (c_table c).
Proof.
  unfold apply_changes. induction txs as [|tx txs IH]; intros c Hf; [done|]. cbn [foldl].
  destruct (change_keeps pct c tx a Hf) as [Hf' Ht]. destruct (IH _ Hf') as [? ->]. done.
Qed.

(** Transactions about other amendments do not matter. *)
Lemma change_other pct tx a e : tx.1 ≠ a →
  (a ∈ (change_lists pct tx e).1 ↔ a ∈ e.1) ∧ (∀ t, (a, t) ∈ (change_lists pct tx e).2 ↔ (a, t) ∈ e.2).
Proof.
  intros Hne. destruct e as [am ms], tx as [b f]. unfold change_lists. cbn [fst snd] in *. case_bool_decide; [done|]. destruct (asks f); cbn [fst snd].
  - split; [rewrite elem_of_app, list_elem_of_singleton; naive_solver|]. intros t. rewrite elem_of_others. naive_solver.
  - case_bool_decide; [done|]. split; [done|]. intros t. cbn. rewrite elem_of_app, list_elem_of_singleton. naive_solver.
  - split; [done|]. intros t. rewrite elem_of_others. naive_solver.
  - done.
Qed.

Lemma changes_other pct txs a : ∀ e, a ∉ txs.*1 →
  (a ∈ (foldl (λ e tx, change_lists pct tx e) e txs).1 ↔ a ∈ e.1) ∧
  (∀ t, (a, t) ∈ (foldl (λ e tx, change_lists pct tx e) e txs).2 ↔ (a, t) ∈ e.2).
Proof.
  induction txs as [|tx txs IH]; intros e; [done|]. rewrite fmap_cons, not_elem_of_cons. intros [Hne Hn]. cbn [foldl].
  destruct (IH (change_lists pct tx e) Hn) as [-> H2]. destruct (change_other pct tx a e ltac:(done)) as [-> H4]. split; [done|]. intros t. by rewrite H2.
Qed.

(** The one transaction about an amendment decides. *)
Lemma changes_at pct txs a f e : NoDup txs.*1 → (a, f) ∈ txs →
  (a ∈ (foldl (λ e tx, change_lists pct tx e) e txs).1 ↔ a ∈ (change_lists pct (a, f) e).1) ∧
  (∀ t, (a, t) ∈ (foldl (λ e tx, change_lists pct tx e) e txs).2 ↔ (a, t) ∈ (change_lists pct (a, f) e).2).
Proof.
  intros Hnd (l1 & l2 & ->)%list_elem_of_split. rewrite fmap_app, fmap_cons, NoDup_app, NoDup_cons in Hnd. cbn [fst] in Hnd. destruct Hnd as (_ & H1 & H2 & _).
  rewrite foldl_app. cbn [foldl]. destruct (changes_other pct l2 a (change_lists pct (a, f) (foldl (λ e tx, change_lists pct tx e) e l1)) H2) as [-> H4].
  assert (a ∉ l1.*1) as Hl1 by (intros Hin; apply (H1 a Hin); by left). destruct (changes_other pct l1 a e Hl1) as [H5 H6].
  set (e1 := foldl _ e l1) in *. setoid_rewrite H4. clearbody e1. destruct e as [am ms], e1 as [am1 ms1]. unfold change_lists. cbn [fst snd] in *.
  rewrite (bool_decide_ext _ _ H5). case_bool_decide; [done|].
  assert (a ∈ ms1.*1 ↔ a ∈ ms.*1) as Hk. { rewrite !list_elem_of_fmap. split; intros ([b t] & -> & Hb); exists (b, t); (split; [done|]); by apply H6. }
  destruct (asks f); cbn [fst snd].
  - split; [rewrite !elem_of_app; naive_solver|]. intros t. rewrite !elem_of_others. naive_solver.
  - rewrite (bool_decide_ext _ _ Hk). case_bool_decide; [done|]. cbn. split; [done|]. intros t. rewrite !elem_of_app, H6. done.
  - split; [done|]. intros t. rewrite !elem_of_others. naive_solver.
  - done.
Qed.
End votes.

(** * Amendments: theorems

    When amendments are enabled, from the votes of the validators to the ledger,
    and what a restart keeps of the table. *)

(** ** One round *)

Section rounds.
Context (fixAmendmentMajorityCalc : Z) (presets : gset Z).

Abbreviation proposed := (proposed_changes fixAmendmentMajorityCalc).
Abbreviation passes_at := (passes_in fixAmendmentMajorityCalc presets).
Abbreviation round := (vote_round fixAmendmentMajorityCalc presets).
Abbreviation rounds := (vote_rounds fixAmendmentMajorityCalc presets).

Lemma adopted_stays pct txs a : ∀ e, a ∈ e.1 → a ∈ (foldl (λ e tx, change_lists pct tx e) e txs).1.
Proof.
  induction txs as [|[b f] txs IH]; intros [am ms] Ha; [done|]. apply IH. unfold change_lists. cbn in *. case_bool_decide; [done|].
  destruct (asks f); cbn; [rewrite elem_of_app; by left| |done|done]. by case_bool_decide.
Qed.

Lemma round_lists pct vals L t : lists (al_obj (round pct vals (L, t)).1) =
  foldl (λ e tx, change_lists pct tx e) (lists (al_obj L)) (proposed t presets (al_parentClose L) (al_obj L) vals).
Proof. apply apply_changes_lists. Qed.

Lemma NoDup_proposed t closeTime obj vals : NoDup (proposed t presets closeTime obj vals).*1.
Proof. apply NoDup_map_sorted. Qed.

(** What a node that favours an amendment proposes while enough validators vote for it. *)
Lemma proposed_cases t closeTime obj vals a :
  entry_ok (lists obj) → favours t a → passes_at obj vals a = true → a ∉ adopted obj →
  (a ∉ (majorities obj).*1 → (a, tfGotMajority) ∈ proposed t presets closeTime obj vals) ∧
  (∀ u, u ≠ 0 → (a, u) ∈ majorities obj →
     if u + majorityTime_ t <=? closeTime then (a, 0) ∈ proposed t presets closeTime obj vals
     else a ∉ (proposed t presets closeTime obj vals).*1).
Proof.
  intros Hok (s & Hs & Hv) Hp Ha. 
  assert (∀ f, (a, f) ∈ proposed t presets closeTime obj vals ↔
    (if default 0 (insert_all (majorities obj) !! a) =? 0 then f = tfGotMajority
     else default 0 (insert_all (majorities obj) !! a) + majorityTime_ t ≤ closeTime ∧ f = 0)) as Hf.
  { intros f. rewrite proposed_action, Hs. unfold action. fold (passes_at obj vals a). rewrite Hp, majorities_map.
    rewrite bool_decide_eq_false_2 by (by rewrite enabled_adopted). set (u := default 0 _). cbn [negb andb].
    split.
    - intros (s' & [= <-] & Hact). rewrite Hv in Hact. destruct (u =? 0); cbn in Hact; [by injection Hact|].
      destruct (Z.leb_spec (u + majorityTime_ t) closeTime); cbn in Hact; [|done]. by injection Hact.
    - intros H. exists s. split; [done|]. rewrite Hv. destruct (u =? 0); cbn; [by subst|]. destruct H as [H ->].
      by rewrite (proj2 (Z.leb_le _ _) H). }
  split.
  - intros Hm. apply Hf. apply insert_all_none in Hm. by rewrite Hm.
  - intros u Hu Hin. rewrite (insert_all_lookup (majorities obj) _ _ (eo_majorities _ Hok) Hin) in Hf. cbn [default from_option id] in Hf.
    rewrite (proj2 (Z.eqb_neq u 0) Hu) in Hf. destruct (Z.leb_spec (u + majorityTime_ t) closeTime).
    + by apply Hf.
    + intros ([b f] & Heq & Hin')%list_elem_of_fmap. cbn in Heq. subst b. apply Hf in Hin' as [? _]. lia.
Qed.

(** The state of an amendment that enough validators vote for, [since] the first round. *)
Definition on_the_way (a since : Z) (LT : AmLedger * AmendmentTable) : Prop :=
  a ∈ adopted (al_obj LT.1) ∨ (a ∉ adopted (al_obj LT.1)) ∧ (a, since) ∈ majorities (al_obj LT.1).

Definition node_ok (mt a : Z) (LT : AmLedger * AmendmentTable) : Prop :=
  entry_ok (lists (al_obj LT.1)) ∧ favours LT.2 a ∧ majorityTime_ LT.2 = mt.

Lemma round_ok mt a pct vals LT : node_ok mt a LT → node_ok mt a (round pct vals LT).
Proof.
  destruct LT as [L t]. intros (Hok & Hf & Hmt). cbn in Hok, Hf, Hmt. split; [|].
  - rewrite round_lists. by apply changes_lists_ok.
  - cbn. rewrite <- Hmt. by apply changes_keep.
Qed.

Lemma adopted_round a pct vals LT : a ∈ adopted (al_obj LT.1) → a ∈ adopted (al_obj (round pct vals LT).1).
Proof. destruct LT as [L t]. intros Ha. change (a ∈ (lists (al_obj (round pct vals (L, t)).1)).1). rewrite round_lists. by apply adopted_stays. Qed.

Lemma first_round mt a pct vals LT :
  node_ok mt a LT → passes_at (al_obj LT.1) vals a = true → a ∉ (majorities (al_obj LT.1)).*1 → on_the_way a pct (round pct vals LT).
Proof.
  destruct LT as [L t]. intros (Hok & Hf & Hmt) Hp Hm. cbn [fst snd] in *.
  destruct (decide (a ∈ adopted (al_obj L))) as [Ha|Ha]; [left; by apply adopted_round|]. right.
  change ((a ∉ (lists (al_obj (round pct vals (L, t)).1)).1) ∧ (a, pct) ∈ (lists (al_obj (round pct vals (L, t)).1)).2). rewrite round_lists.
  destruct (proposed_cases t (al_parentClose L) (al_obj L) vals a Hok Hf Hp Ha) as [Hin _].
  destruct (changes_at pct _ a _ (lists (al_obj L)) (NoDup_proposed _ _ _ _) (Hin Hm)) as [-> ->].
  unfold change_lists, lists. cbn [fst snd]. rewrite bool_decide_eq_false_2 by done. change (asks tfGotMajority) with Gain. cbn [fst snd].
  rewrite bool_decide_eq_false_2 by done. cbn. split; [done|]. rewrite elem_of_app. right. by left.
Qed.

Lemma next_round mt a since pct vals LT :
  node_ok mt a LT → passes_at (al_obj LT.1) vals a = true → since ≠ 0 → on_the_way a since LT →
  on_the_way a since (round pct vals LT) ∧ (since + mt ≤ al_parentClose LT.1 → a ∈ adopted (al_obj (round pct vals LT).1)).
Proof.
  destruct LT as [L t]. intros (Hok & Hf & <-) Hp Hs [Ha|[Ha Hm]].
  { split; [left|intros _]; by apply adopted_round. }
  cbn [fst snd] in *. destruct (proposed_cases t (al_parentClose L) (al_obj L) vals a Hok Hf Hp Ha) as [_ Hin]. specialize (Hin since Hs Hm).
  unfold on_the_way. change (adopted ?o) with (lists o).1. change (majorities ?o) with (lists o).2. rewrite round_lists.
  destruct (Z.leb_spec (since + majorityTime_ t) (al_parentClose L)).
  - destruct (changes_at pct _ a _ (lists (al_obj L)) (NoDup_proposed _ _ _ _) Hin) as [H1 _].
    assert (a ∈ (change_lists pct (a, 0) (lists (al_obj L))).1) as H2.
    { unfold change_lists, lists. cbn [fst snd]. rewrite bool_decide_eq_false_2 by done. change (asks 0) with Enable. cbn. rewrite elem_of_app. right. by left. }
    apply H1 in H2. auto.
  - destruct (changes_other pct _ a (lists (al_obj L)) Hin) as [H1 H2]. rewrite H1, H2. split; [by right|lia].
Qed.
End rounds.

(** C14: an amendment is enabled only after a lasting majority. Take any chain of
    ledgers from one without majorities, in which every transaction was proposed by
    a node that waits for [mt], with the validations that node had counted. If the
    last ledger has an amendment the first one had not, then some ledger [L1] has
    the transaction that enables it; a row of ledgers [held] up to the one before
    has noted its majority, with one time, that of the first of them, at least [mt]
    before the close of the last one's parent; and the first of them has the
    transaction that noted it. Both transactions come from nodes that do not veto
    the amendment and whose counted validations had enough votes for it. *)
Theorem enabled_after_lasting_majority fix_ presets mt L Ls a :
  chain fix_ presets mt (L :: Ls) → a ∈ adopted (al_obj L) →
  (∃ first, last (L :: Ls) = Some first ∧ a ∈ adopted (al_obj first)) ∨
  ∃ newer L1 held older since now first before,
    L :: Ls = newer ++ L1 :: held ++ older ∧
    head held = Some now ∧ last held = Some first ∧ head older = Some before ∧
    Forall (λ L, (a, since) ∈ majorities (al_obj L)) held ∧
    al_parentClose first = since ∧ since + mt ≤ al_parentClose now ∧
    decided fix_ presets now a 0 L1 ∧ decided fix_ presets before a tfGotMajority first.
Proof.
  intros Hc Ha. destruct (chain_adopted fix_ presets mt _ Hc _ _ eq_refl a Ha)
    as [?|(newer & held & older & t & now & L1 & Heq & (H1 & first & before & H2) & H3)]; [by left|].
  right. exists newer, L1, held, older, t, now, first, before. naive_solver.
Qed.

(** C15: an amendment that keeps its majority is enabled in time. Let a node that
    knows the amendment and does not veto it count, in every round, enough votes for
    it. Once a ledger's parent closed [mt] after the one of the first round, the
    amendment is enabled with the next round, and stays enabled. *)
Theorem held_majority_enables fix_ presets mt a L t first valSet before now vals next vals' after :
  node_ok mt a (L, t) → a ∉ (majorities (al_obj L)).*1 →
  first ≠ 0 → first + mt ≤ now →
  let all := (first, valSet) :: before ++ (now, vals) :: (next, vals') :: after in
  Forall (λ r : Z * list STValidation, ∀ rules, passes fix_ (AmendmentSet_ctor fix_ rules r.2) a = true) all →
  a ∈ adopted (al_obj (vote_rounds fix_ presets all (L, t)).1).
Proof.
  intros Hok Hm Hf Hnow all Hall. unfold all in *. clear all. rewrite Forall_cons, Forall_app, !Forall_cons in Hall.
  destruct Hall as (H1 & Hb & H2 & H3 & Ha). cbn [fst snd] in *.
  assert (∀ rs LT, Forall (λ r : Z * list STValidation, ∀ rules, passes fix_ (AmendmentSet_ctor fix_ rules r.2) a = true) rs →
    node_ok mt a LT → on_the_way a first LT → node_ok mt a (vote_rounds fix_ presets rs LT) ∧ on_the_way a first (vote_rounds fix_ presets rs LT)) as Hrun.
  { intros rs. induction rs as [|r rs IH]; intros LT Hrs HLT Hw; [done|]. apply Forall_cons in Hrs as [Hr Hrs].
    apply IH; [done|by apply round_ok|]. by eapply next_round; [|apply Hr| |]. }
  assert (∀ rs LT, a ∈ adopted (al_obj LT.1) → a ∈ adopted (al_obj (vote_rounds fix_ presets rs LT).1)) as Hstay.
  { intros rs. induction rs as [|r rs IH]; intros LT HLT; [done|]. apply IH. by apply adopted_round. }
  unfold vote_rounds. cbn [foldl]. rewrite foldl_app. cbn [foldl fst snd]. apply Hstay.
  destruct (Hrun before (vote_round fix_ presets first valSet (L, t))) as [Hok' Hw']; [done|by apply round_ok|by eapply first_round; [..|apply H1|]|].
  set (LT := foldl _ _ before) in *. change (vote_rounds fix_ presets before _) with LT in Hok', Hw'.
  pose proof (round_ok fix_ presets mt a now vals LT Hok') as Hok2.
  destruct (next_round fix_ presets mt a first now vals LT Hok' (H2 _) Hf Hw') as [Hw2 _].
  apply (next_round fix_ presets mt a first next vals' _ Hok2 (H3 _) Hf Hw2). by destruct LT.
Qed.

(** ** Counting votes *)

Definition choices (v : STValidation) : list Z := default [] (val_amendments v).

Definition trusted (vals : list STValidation) : list STValidation := filter (λ v, isTrusted v = true) vals.

(** How often the trusted validations name an amendment. *)
Definition named (a : Z) (vals : list STValidation) : Z := sumZ ((λ v, Z.of_nat (length (filter (.= a) (choices v)))) <$> trusted vals).

Lemma filter_absent (a : Z) l : a ∉ l → filter (.= a) l = [].
Proof. induction l as [|b l IH]; [done|]. rewrite not_elem_of_cons. intros [? ?]. by rewrite filter_cons_False, IH by congruence. Qed.

Lemma count_votes a l : ∀ m,
  foldl count_vote m l !! a =
  if bool_decide (a ∈ l) then Some (default 0 (m !! a) + Z.of_nat (length (filter (.= a) l))) else m !! a.
Proof.
  induction l as [|b l IH]; intros m; [done|]. cbn [foldl]. rewrite IH. unfold count_vote. destruct (decide (b = a)) as [->|Hne].
  - rewrite lookup_insert_eq, filter_cons_True, (bool_decide_eq_true_2 (a ∈ a :: l)) by (done || by left). cbn [default from_option id length].
    case_bool_decide as Hl; f_equal; [lia|]. rewrite filter_absent by done. cbn. lia.
  - rewrite lookup_insert_ne, filter_cons_False by done. by rewrite (bool_decide_ext (a ∈ b :: l) (a ∈ l)) by (rewrite elem_of_cons; naive_solver).
Qed.

Lemma count_all a vals : ∀ m n, (∀ x, m !! a = Some x → 0 < x) →
  let r := foldl count_validation (m, n) vals in
  r.2 = n + Z.of_nat (length (trusted vals)) ∧
  r.1 !! a = if 0 <? default 0 (m !! a) + named a vals then Some (default 0 (m !! a) + named a vals) else None.
Proof.
  induction vals as [|v vals IH]; intros m n Hm.
  { cbn. split; [lia|]. unfold named. cbn. destruct (m !! a) as [x|] eqn:E; cbn; [|done]. specialize (Hm x eq_refl).
    rewrite Z.add_0_r, (proj2 (Z.ltb_lt 0 x)) by done. done. }
  cbn [foldl]. unfold named, trusted. rewrite filter_cons. fold (trusted vals). unfold count_validation at 2 4. destruct (isTrusted v) eqn:Ht.
  - rewrite decide_True by done. cbn [length fmap list_fmap sumZ foldr]. set (m' := match val_amendments v with Some l => foldl count_vote m l | None => m end).
    assert (m' !! a = if bool_decide (a ∈ choices v) then Some (default 0 (m !! a) + Z.of_nat (length (filter (.= a) (choices v)))) else m !! a) as Hm'.
    { unfold m', choices. destruct (val_amendments v); cbn; [apply count_votes|done]. }
    assert (default 0 (m' !! a) = default 0 (m !! a) + Z.of_nat (length (filter (.= a) (choices v)))) as Hd.
    { rewrite Hm'. case_bool_decide as Hin; [done|]. rewrite filter_absent by done. cbn. lia. }
    destruct (IH m' (n + 1)) as [H1 H2].
    { intros x Hx. assert (default 0 (m' !! a) = x) as Hxd by (by rewrite Hx). rewrite Hd in Hxd. destruct (m !! a) as [y|] eqn:E; cbn in Hxd; [specialize (Hm y eq_refl); lia|].
      rewrite Hm' in Hx. case_bool_decide as Hin; [|done]. destruct (filter (.= a) (choices v)) eqn:El; [|cbn in Hxd; lia].
      exfalso. apply (not_elem_of_nil a). rewrite <- El, list_elem_of_filter. done. }
    rewrite H1, H2, Hd. unfold named. rewrite <- !Z.add_assoc. split; [lia|done].
  - rewrite decide_False by congruence. destruct (IH m n Hm) as [H1 H2]. done.
Qed.

(** The trusted validations that name an amendment. *)
Definition in_favour (a : Z) (vals : list STValidation) : Z := Z.of_nat (length (filter (λ v, a ∈ choices v) (trusted vals))).

Lemma named_once a vals : Forall (λ v, NoDup (choices v)) vals → named a vals = in_favour a vals.
Proof.
  unfold named, in_favour. induction 1 as [|v vals Hv _ IH]; [done|]. unfold trusted. rewrite filter_cons. fold (trusted vals). case_decide; [|done].
  rewrite fmap_cons, filter_cons. cbn [sumZ foldr]. fold (sumZ ((λ v, Z.of_nat (length (filter (.= a) (choices v)))) <$> trusted vals)). rewrite IH.
  assert (∀ l, NoDup l → length (filter (.= a) l) = if decide (a ∈ l) then 1%nat else 0%nat) as Hl.
  { clear. induction 1 as [|b l Hb Hl IH]; [done|]. destruct (decide (b = a)) as [->|Hne].
    - rewrite filter_cons_True, decide_True, filter_absent by (done || by left). done.
    - rewrite filter_cons_False, IH by done. destruct (decide (a ∈ l)); [rewrite decide_True by (by right)|rewrite decide_False by (rewrite elem_of_cons; naive_solver)]; done. }
  rewrite Hl by done. destruct (decide (a ∈ choices v)); cbn; lia.
Qed.

Lemma in_favour_le a vals : 0 ≤ in_favour a vals ≤ Z.of_nat (length (trusted vals)).
Proof. unfold in_favour. pose proof (length_filter (λ v, a ∈ choices v) (trusted vals)). lia. Qed.

(** when an amendment has enough votes. If no validation names an amendment
    twice, [passes] holds exactly when some trusted validation names it and, once
    the majority calculation is fixed, there is one trusted validation only or more
    than 80 percent of them name it; before, at least 204 of 256, rounded down. *)
Theorem passes_exact fix_ rules vals a :
  Forall (λ v, NoDup (choices v)) vals →
  let n := Z.of_nat (length (trusted vals)) in
  let y := in_favour a vals in
  passes fix_ (AmendmentSet_ctor fix_ rules vals) a = true ↔
  0 < y ∧ if rules_enabled rules fix_ then n = 1 ∨ 80 * n < 100 * y else n * 204 / 256 ≤ y.
Proof.
  intros Hnd n y. unfold AmendmentSet_ctor. destruct (foldl count_validation (∅, 0) vals) as [m k] eqn:E.
  destruct (count_all a vals ∅ 0) as [H1 H2]; [done|]. rewrite E, lookup_empty, named_once in * by done. cbn [fst snd default] in *. fold y in H2. fold n in H1.
  rewrite !Z.add_0_l in *. subst k. unfold passes. cbn [votes_ rules_ trustedValidations_ threshold_]. rewrite H2. clear m H2 E Hnd.
  pose proof (in_favour_le a vals) as Hle. fold y n in Hle. clearbody y n. destruct (Z.ltb_spec 0 y) as [Hy|Hy]; [|split; [done|lia]].
  unfold preFixAmendmentMajorityCalcThreshold, postFixAmendmentMajorityCalcThreshold.
  destruct (rules_enabled rules fix_); cbn [negb orb fst snd].
  - destruct (Z.eqb_spec n 1) as [Hn|Hn]; [rewrite Z.leb_le, Hn; change (1 * 4 / 5) with 0; lia|]. rewrite Z.ltb_lt.
    pose proof (Z.div_mod (n * 4) 5 ltac:(done)). pose proof (Z.mod_pos_bound (n * 4) 5 ltac:(done)). lia.
  - rewrite Z.leb_le. replace (n * 204 / 256) with (n * 51 / 64); [lia|]. replace (n * 204) with (n * 51 * 4) by lia. change 256 with (64 * 4). by rewrite Z.div_mul_cancel_r.
Qed.

(** a validation that names an amendment more than once is counted more than
    once. Of ten trusted validators one names the amendment, nine times in its
    validation, and the others do not; it passes, before and after the fix. *)
Example repeated_votes_counted :
  let vals := mkValidation true (Some (replicate 9 7)) :: replicate 9 (mkValidation true None) in
  passes 1 (AmendmentSet_ctor 1 (mkRules ∅ ∅) vals) 7 = true ∧ passes 1 (AmendmentSet_ctor 1 (mkRules {[1]} ∅) vals) 7 = true ∧
  in_favour 7 vals = 1.
Proof. vm_compute. done. Qed.

(** ** Restarting *)

Inductive TCmd :=
  | TVeto (a : Z)
  | TUnVeto (a : Z)
  | TEnable (a : Z)
  | TVote (rules : Rules) (closeTime : Z) (en : gset Z) (maj : gmap Z Z) (vals : list STValidation)
  | TValidated (seq : Z) (en : gset Z) (maj : gmap Z Z).

Definition table_step (fix_ : Z) (t : AmendmentTable) (c : TCmd) : AmendmentTable :=
  match c with
  | TVeto a => (veto a t).2
  | TUnVeto a => (unVeto a t).2
  | TEnable a => (enable a t).2
  | TVote rules closeTime en maj vals => (doVoting fix_ t rules closeTime en maj vals).2
  | TValidated seq en maj => doValidatedLedger seq en maj t
  end.

Definition table_run (fix_ : Z) (cs : list TCmd) (t : AmendmentTable) : AmendmentTable := foldl (table_step fix_) t cs.

(** What a node's votes depend on: whether it supports and vetoes an amendment. *)
Definition stance (m : gmap Z AmendmentState) (a : Z) : bool * bool :=
  match m !! a with Some s => (supported s, vetoed s) | None => (false, false) end.

Lemma stance_insert m a s b : stance (<[a := s]> m) b = if decide (b = a) then (supported s, vetoed s) else stance m b.
Proof. unfold stance. destruct (decide (b = a)) as [->|]; [by rewrite lookup_insert_eq|by rewrite lookup_insert_ne]. Qed.

Lemma stance_add m a : (supported (add a m), vetoed (add a m)) = stance m a.
Proof. unfold add, stance. by destruct (m !! a). Qed.

Lemma stance_touch m a b s : supported s = supported (add a m) → vetoed s = vetoed (add a m) → stance (<[a := s]> m) b = stance m b.
Proof. intros H1 H2. rewrite stance_insert. destruct (decide (b = a)) as [->|]; [|done]. by rewrite H1, H2, stance_add. Qed.

Lemma enable_stance a t b : stance (amendmentMap_ (enable a t).2) b = stance (amendmentMap_ t) b ∧ db_ (enable a t).2 = db_ t.
Proof. unfold enable. by destruct (enabled _); cbn; (split; [apply stance_touch|]). Qed.

Lemma enables_stance l b : ∀ t, let t' := foldl (λ t e, (enable e t).2) t l in
  stance (amendmentMap_ t') b = stance (amendmentMap_ t) b ∧ db_ t' = db_ t.
Proof.
  induction l as [|a l IH]; intros t; [done|]. cbn. destruct (IH (enable a t).2) as [-> ->]. apply enable_stance.
Qed.

Lemma note_stance ms b : ∀ acc, stance (foldl note_majority acc ms).1 b = stance acc.1 b.
Proof.
  induction ms as [|[a u] ms IH]; intros [m f]; [done|]. cbn [foldl]. rewrite IH. unfold note_majority.
  destruct (enabled _); [by apply stance_touch|]. destruct (negb _); by apply stance_touch.
Qed.

(** The node and the table read back from its database agree on the amendments the node supports. *)
Definition same_stances (m r : gmap Z AmendmentState) : Prop :=
  ∀ a, (stance m a).1 = (stance r a).1 ∧ ((stance m a).1 = true → (stance m a).2 = (stance r a).2).

Lemma row_stance r a n v b : stance (read_row r (a, n, v)) b = 
  if decide (b = a) then (match r !! a with Some s => (supported s, v) | None => (false, false) end) else stance r b.
Proof.
  cbn [read_row]. destruct v.
  - unfold stance. destruct (r !! a) as [s|] eqn:E; destruct (decide (b = a)) as [->|]; rewrite ?lookup_insert_eq, ?lookup_insert_ne, ?E by done; try done.
    by case_bool_decide.
  - rewrite stance_insert. destruct (decide (b = a)) as [->|]; [|done]. unfold add. destruct (r !! a); case_bool_decide; done.
Qed.

Lemma same_after_vote m r a n v s : same_stances m r → stance m a = (supported s, vetoed s) →
  same_stances (<[a := set_vetoed v s]> m) (read_row r (a, n, v)).
Proof.
  intros Hs Ha b. rewrite stance_insert, row_stance. destruct (decide (b = a)) as [->|]; [|apply Hs]. cbn.
  destruct (Hs a) as [H1 _]. rewrite Ha in H1. unfold stance in H1. cbn in H1. destruct (r !! a); cbn in *; [done|]. rewrite H1. done.
Qed.

Lemma step_same fix_ base t c :
  same_stances (amendmentMap_ t) (foldl read_row base (db_ t)) →
  same_stances (amendmentMap_ (table_step fix_ t c)) (foldl read_row base (db_ (table_step fix_ t c))).
Proof.
  intros Hs. destruct c as [a|a|a|rules ct en maj vals|seq en maj]; cbn [table_step].
  - unfold veto. destruct (vetoed (add a (amendmentMap_ t))) eqn:Ev; cbn [snd persistVote with_amendments amendmentMap_ db_].
    + intros b. rewrite stance_touch by done. apply Hs.
    + rewrite foldl_app. apply same_after_vote; [done|]. by rewrite stance_add.
  - unfold unVeto. destruct (amendmentMap_ t !! a) as [s|] eqn:E; [|done]. destruct (negb (vetoed s)); [done|].
    cbn [snd persistVote with_amendments amendmentMap_ db_]. rewrite foldl_app. apply same_after_vote; [done|]. unfold stance. by rewrite E.
  - intros b. destruct (enable_stance a t b) as [-> ->]. apply Hs.
  - done.
  - unfold doValidatedLedger. pose proof (λ b, enables_stance (merge_sort Z.le (elements en)) b t) as He. cbn zeta in He.
    set (t1 := foldl _ t _) in *. pose proof (λ b, note_stance (map_sorted maj) b (amendmentMap_ t1, None)) as Hn. cbn [fst] in Hn.
    destruct (foldl note_majority _ _) as [m f]. cbn [fst amendmentMap_ db_] in *. intros b. rewrite Hn. destruct (He b) as [-> ->]. apply Hs.
Qed.

Lemma elem_doValidation t en a : a ∈ doValidation t en ↔ stance (amendmentMap_ t) a = (true, false) ∧ a ∉ en.
Proof.
  unfold doValidation. rewrite merge_sort_Permutation, list_elem_of_fmap. unfold stance. split.
  - intros ([b s] & -> & Hb). apply list_elem_of_filter in Hb as ((H1 & H2 & H3) & Hb%elem_of_map_to_list). cbn in *. by rewrite Hb, H1, H2.
  - intros [Hs Hn]. destruct (amendmentMap_ t !! a) as [s|] eqn:E; [|done]. injection Hs as H1 H2. exists (a, s). split; [done|].
    apply list_elem_of_filter. cbn. split; [done|]. by apply elem_of_map_to_list.
Qed.

Lemma doValidation_sorted t en : StronglySorted (λ x y, id x < id y) (doValidation t en).
Proof.
  apply (le_sorted_lt id).
  - apply (StronglySorted_merge_sort Z.le).
  - rewrite list_fmap_id. unfold doValidation. rewrite merge_sort_Permutation. eapply sublist_NoDup; [apply (NoDup_fst_map_to_list (amendmentMap_ t))|].
    apply fmap_sublist, sublist_filter.
Qed.

(** a restart does not change a node's votes. After any calls on a table, a
    table made from the same supported amendments and the votes in the database
    announces the same amendments. *)
Theorem votes_survive_restart fix_ mt mt' supported enabled vetoed enabled' vetoed' rows cs en :
  let t := table_run fix_ cs (AmendmentTable_ctor mt supported enabled vetoed rows) in
  doValidation (AmendmentTable_ctor mt' supported enabled' vetoed' (Some (db_ t))) en = doValidation t en.
Proof.
  intros t. assert (same_stances (amendmentMap_ t) (foldl read_row (foldl support ∅ supported) (db_ t))) as Hs.
  { unfold t, table_run. set (t0 := AmendmentTable_ctor _ _ _ _ _).
    assert (same_stances (amendmentMap_ t0) (foldl read_row (foldl support ∅ supported) (db_ t0))) as H0 by done.
    clearbody t0. revert t0 H0. induction cs as [|c cs IH]; intros t0 H0; [done|]. apply IH. by apply step_same. }
  clearbody t. apply (sorted_unique id); [apply doValidation_sorted..|]. intros a. rewrite !elem_doValidation. cbn [AmendmentTable_ctor amendmentMap_].
  destruct (Hs a) as [H1 H2]. destruct (stance (amendmentMap_ t) a) as [s v], (stance (foldl read_row _ _) a) as [s' v']. cbn in *. subst. naive_solver.
Qed.

(** ** Unsupported amendments *)

(** An amendment the node has no code for and that is not enabled yet. *)
Definition unknown (m : gmap Z AmendmentState) (a : Z) : bool := negb (enabled (add a m)) && negb (supported (add a m)).

Lemma unknown_touch m a b : unknown (<[a := add a m]> m) b = unknown m b.
Proof. unfold unknown, add. destruct (decide (b = a)) as [->|]; [by rewrite lookup_insert_eq|by rewrite lookup_insert_ne]. Qed.

Definition earlier (first : option Z) (time : Z) : option Z :=
  match first with Some f => if time <? f then Some time else first | None => Some time end.

Lemma note_majorities ms : ∀ m first,
  (∀ b, unknown (foldl note_majority (m, first) ms).1 b = unknown m b) ∧
  (foldl note_majority (m, first) ms).2 = foldl earlier first (filter (λ e : Z * Z, unknown m e.1 = true) ms).*2.
Proof.
  induction ms as [|[a u] ms IH]; intros m first; [done|]. cbn [foldl]. unfold note_majority at 2 4. rewrite filter_cons. cbn [fst].
  assert (Hf : ∀ l : list (Z * Z), filter (λ e : Z * Z, unknown (<[a := add a m]> m) e.1 = true) l = filter (λ e : Z * Z, unknown m e.1 = true) l).
  { intros l. apply list_filter_iff. intros e. by rewrite unknown_touch. }
  destruct (enabled (add a m)) eqn:Ee; [|destruct (supported (add a m)) eqn:Es]; cbn [negb].
  1,2: destruct (IH (<[a := add a m]> m) first) as [H1 ->]; rewrite Hf, decide_False by (unfold unknown; by rewrite Ee, ?Es); (split; [|done]); intros b; by rewrite H1, unknown_touch.
  destruct (IH (<[a := add a m]> m) (earlier first u)) as [H1 H2]. unfold earlier in H1, H2 at 1.
  rewrite decide_True by (unfold unknown; by rewrite Ee, Es). cbn [fmap list_fmap foldl snd]. split; [intros b; by rewrite H1, unknown_touch|].
  rewrite H2, Hf. done.
Qed.

Lemma earliest l : ∀ first,
  match foldl earlier first l with
  | None => first = None ∧ l = []
  | Some f => (first = Some f ∨ f ∈ l) ∧ (∀ x, first = Some x ∨ x ∈ l → f ≤ x)
  end.
Proof.
  induction l as [|u l IH]; intros first; cbn [foldl].
  { destruct first as [f|]; [|done]. split; [by left|]. intros x [[= <-]|?%elem_of_nil]; [lia|done]. }
  specialize (IH (earlier first u)). destruct (foldl earlier _ l) as [f|]; [|destruct first; cbn in IH; [case_match|]; by destruct IH].
  destruct IH as [H1 H2]. setoid_rewrite elem_of_cons. destruct first as [g|]; cbn [earlier] in *.
  - destruct (Z.ltb_spec u g).
    + split; [naive_solver|]. intros x [[= ->]|[->|Hx]]; [|by apply H2; left|by apply H2; right]. specialize (H2 u (or_introl eq_refl)). lia.
    + split; [naive_solver|]. intros x [[= ->]|[->|Hx]]; [by apply H2; left| |by apply H2; right]. specialize (H2 g (or_introl eq_refl)). lia.
  - split; [naive_solver|]. intros x [?|[->|Hx]]; [done|by apply H2; left|by apply H2; right].
Qed.

(** After a validated ledger, the time at which the first unsupported amendment
    is expected is the earliest majority of an amendment that is neither enabled nor
    supported plus the waiting time; it is unset exactly if there is none. *)
Theorem unsupported_expected_exact seq en maj t :
  let t' := doValidatedLedger seq en maj t in
  match firstUnsupportedExpected_ t' with
  | None => ∀ a u, maj !! a = Some u → unknown (amendmentMap_ t') a = false
  | Some f => ∃ a u, maj !! a = Some u ∧ unknown (amendmentMap_ t') a = true ∧ f = u32 (u + majorityTime_ t') ∧
      ∀ b v, maj !! b = Some v → unknown (amendmentMap_ t') b = true → u ≤ v
  end.
Proof.
  unfold doValidatedLedger. set (t1 := foldl _ t _). destruct (note_majorities (map_sorted maj) (amendmentMap_ t1) None) as [H1 H2].
  destruct (foldl note_majority _ _) as [m first]. cbn [fst snd] in *. subst first. cbn [firstUnsupportedExpected_ amendmentMap_ majorityTime_].
  pose proof (earliest (filter (λ e : Z * Z, unknown (amendmentMap_ t1) e.1 = true) (map_sorted maj)).*2 None) as He.
  assert (∀ u, u ∈ (filter (λ e : Z * Z, unknown (amendmentMap_ t1) e.1 = true) (map_sorted maj)).*2 ↔
    ∃ a, maj !! a = Some u ∧ unknown (amendmentMap_ t1) a = true) as Hin.
  { intros u. rewrite list_elem_of_fmap. setoid_rewrite list_elem_of_filter. setoid_rewrite <- elem_of_map_sorted. split.
    - intros ([a v] & -> & ? & ?). by exists a.
    - intros (a & ? & ?). by exists (a, u). }
  destruct (foldl earlier None _) as [f|]; cbn.
  - destruct He as [[?|(a & Ha & Hu)%Hin] Hmin]; [done|]. exists a, f. rewrite H1. split_and!; try done.
    intros b v Hb Hv. rewrite H1 in Hv. apply Hmin. right. apply Hin. by exists b.
  - destruct He as [_ He]. intros a u Ha. rewrite H1. apply not_true_iff_false. intros Hu.
    apply (not_elem_of_nil u). rewrite <- He. apply Hin. by exists a.
Qed.

(** ** Examples *)

Definition five (choice : list Z) : list STValidation := replicate 5 (mkValidation true (Some choice)).
Definition demo_table : AmendmentTable := AmendmentTable_ctor 100 [(7, "seven"); (8, "eight")] [] [(8, "eight")] None.

Lemma demo_node_ok : node_ok 100 7 (mkAmLedger 5 None [], demo_table).
Proof.
  split; [|split; [|reflexivity]].
  - split; cbn; [constructor|constructor|by intros a ?%elem_of_nil].
  - exists (mkAmendmentState false false true "seven"). by vm_compute.
Qed.

Lemma five_pass rules c : c = [7] ∨ c = [7; 8] → passes 1 (AmendmentSet_ctor 1 rules (five c)) 7 = true.
Proof.
  intros Hc. unfold AmendmentSet_ctor, passes. destruct (foldl count_validation (∅, 0) (five c)) as [m k] eqn:E. cbn [rules_ votes_ threshold_ trustedValidations_].
  assert (m !! 7 = Some 5 ∧ k = 5) as [-> ->] by (destruct Hc as [-> | ->]; injection E as <- <-; by vm_compute).
  by destruct (rules_enabled rules 1).
Qed.

(** A round of a node continues a chain. *)
Lemma round_chain fix_ presets mt pct vals L Ls t :
  chain fix_ presets mt (L :: Ls) → majorityTime_ t = mt → chain fix_ presets mt ((vote_round fix_ presets pct vals (L, t)).1 :: L :: Ls).
Proof.
  intros Hc Ht. unfold vote_round. cbn [fst].
  set (txs := proposed_changes _ _ _ _ _ _). set (t' := (doVoting _ _ _ _ _ _ _).2).
  assert (txs = b_tx <$> ((λ tx, mkBallot tx t vals) <$> txs)) as Heq
    by (rewrite <- list_fmap_compose; symmetry; apply list_fmap_id).
  rewrite Heq at 1. apply chain_next; [done|]. apply Forall_fmap, Forall_forall. intros tx Htx. by split.
Qed.

Definition demo_start : AmLedger := mkAmLedger 5 None [].
Definition demo_round (pct : Z) (L : AmLedger) : AmLedger := (vote_round 1 ∅ pct (five [7]) (L, demo_table)).1.

Lemma enabled_after_lasting_majority_witness :
  let L1 := demo_round 10 demo_start in let L2 := demo_round 110 L1 in let L3 := demo_round 120 L2 in
  ∃ newer L1' held older since now first before,
    [L3; L2; L1; demo_start] = newer ++ L1' :: held ++ older ∧
    head held = Some now ∧ last held = Some first ∧ head older = Some before ∧
    Forall (λ L, (7, since) ∈ majorities (al_obj L)) held ∧
    al_parentClose first = since ∧ since + 100 ≤ al_parentClose now ∧
    decided 1 ∅ now 7 0 L1' ∧ decided 1 ∅ before 7 tfGotMajority first.
Proof.
  intros L1 L2 L3.
  destruct (enabled_after_lasting_majority 1 ∅ 100 L3 [L2; L1; demo_start] 7) as [(first & [= <-] & Ha)|H].
  - repeat (apply round_chain; [|reflexivity]). by apply chain_first.
  - apply (bool_decide_unpack _). vm_compute. exact I.
  - by apply elem_of_nil in Ha.
  - exact H.
Defined.

Lemma held_majority_enables_witness :
  7 ∈ adopted (al_obj (vote_rounds 1 ∅ [(10, five [7]); (60, five [7; 8]); (110, five [7]); (120, five [7])] (demo_start, demo_table)).1).
Proof.
  apply (held_majority_enables 1 ∅ 100 7 demo_start demo_table 10 (five [7]) [(60, five [7; 8])] 110 (five [7]) 120 (five [7]) []).
  - exact demo_node_ok.
  - apply not_elem_of_nil.
  - discriminate.
  - lia.
  - repeat constructor; intros rules; apply five_pass; auto.
Defined.

Lemma passes_exact_witness : passes 1 (AmendmentSet_ctor 1 (mkRules {[1]} ∅) (five [7; 8])) 8 = true.
Proof.
  apply (passes_exact 1 (mkRules {[1]} ∅) (five [7; 8]) 8).
  - apply Forall_replicate. apply (bool_decide_unpack _). vm_compute. exact I.
  - vm_compute. split; [reflexivity|]. right. reflexivity.
Defined.
