(* ===== verification/NegativeUNLLedger.v ===== *)
(** * The negative UNL in the ledger

    The ledger entry of the negative UNL: [Ledger::updateNegativeUNL] and the
    readers next to it in [app/ledger/Ledger.cpp], the transaction that changes it
    in [app/tx/impl/Change.cpp], and how [app/ledger/impl/BuildLedger.cpp] and the
    votes of [NegativeUNL] play together at flag ledgers. *)
From Stdlib Require Import SpecFloat.
From S2P Require Import Prelude Bytes NegativeUNL NegativeUNLSpec.

(** ** The entry *)

Abbreviation Blob := (list Z).

(** An element of [sfDisabledValidators]: its key, if present, and since when. *)
Record DisabledValidator := mkDisabled { sfPublicKey : option Blob; sfFirstLedgerSequence : Z }.

Record NegUnlObject := mkNegUnl {
  sfDisabledValidators : option (list DisabledValidator);
  sfValidatorToDisable : option Blob;
  sfValidatorToReEnable : option Blob }.

Definition new_negUnl : NegUnlObject := mkNegUnl None None None.

Definition ledger_negativeUNL (obj : option NegUnlObject) : gset Blob :=
  match obj with
  | Some sle =>
    match sfDisabledValidators sle with
    | Some nUnlData =>
      list_to_set (omap (λ n, match sfPublicKey n with Some d => if publicKeyType d is Some _ then Some d else None | None => None end) nUnlData)
    | None => ∅
    end
  | None => ∅
  end.

Definition ledger_validatorToDisable (obj : option NegUnlObject) : option Blob :=
  match obj with
  | Some sle => match sfValidatorToDisable sle with Some d => if publicKeyType d is Some _ then Some d else None | None => None end
  | None => None
  end.
Definition ledger_validatorToReEnable (obj : option NegUnlObject) : option Blob :=
  match obj with
  | Some sle => match sfValidatorToReEnable sle with Some d => if publicKeyType d is Some _ then Some d else None | None => None end
  | None => None
  end.

Definition updateNegativeUNL (q : Z) (obj : option NegUnlObject) : option NegUnlObject :=
  match obj with
  | None => None
  | Some sle =>
    match sfValidatorToDisable sle, sfValidatorToReEnable sle with
    | None, None => obj
    | toDisable, toReEnable =>
      let oldNUnl := default [] (sfDisabledValidators sle) in
      let newNUnl :=
        match toReEnable with Some k => filter (λ v, sfPublicKey v ≠ Some k) oldNUnl | None => oldNUnl end in
      let newNUnl :=
        match toDisable with Some k => newNUnl ++ [mkDisabled (Some k) q] | None => newNUnl end in
      if bool_decide (newNUnl = []) then None
      else Some (mkNegUnl (Some newNUnl) None None)
    end
  end.

(** ** The transaction *)

Record UNLModify := mkModify { sfUNLModifyDisabling : option Z; sfLedgerSequence : option Z; sfUNLModifyValidator : option Blob }.

Inductive UnlTER := unlSUCCESS | unlFAILURE.

Definition isFlagLedger (q : Z) : bool := q mod FLAG_LEDGER_INTERVAL =? 0.

Definition listed (validator : Blob) (sle : NegUnlObject) : bool :=
  match sfDisabledValidators sle with
  | Some negUnl => existsb (λ v, bool_decide (sfPublicKey v = Some validator)) negUnl
  | None => false
  end.

(** The outcome, and the entry, which is written back on success. *)
Definition applyUNLModify (q : Z) (tx : UNLModify) (obj : option NegUnlObject) : UnlTER * option NegUnlObject :=
  if negb (isFlagLedger q) then (unlFAILURE, obj)
  else
    match sfUNLModifyDisabling tx, sfLedgerSequence tx, sfUNLModifyValidator tx with
    | Some disabling, Some txSeq, Some validator =>
      if 1 <? disabling then (unlFAILURE, obj)
      else if negb (txSeq =? q) then (unlFAILURE, obj)
      else
        match publicKeyType validator with
        | None => (unlFAILURE, obj)
        | Some _ =>
          let sle := default new_negUnl obj in
          let found := listed validator sle in
          if negb (disabling =? 0) then
            if bool_decide (is_Some (sfValidatorToDisable sle)) then (unlFAILURE, Some sle)
            else if bool_decide (sfValidatorToReEnable sle = Some validator) then (unlFAILURE, Some sle)
            else if found then (unlFAILURE, Some sle)
            else (unlSUCCESS, Some (mkNegUnl (sfDisabledValidators sle) (Some validator) (sfValidatorToReEnable sle)))
          else
            if bool_decide (is_Some (sfValidatorToReEnable sle)) then (unlFAILURE, Some sle)
            else if bool_decide (sfValidatorToDisable sle = Some validator) then (unlFAILURE, Some sle)
            else if negb found then (unlFAILURE, Some sle)
            else (unlSUCCESS, Some (mkNegUnl (sfDisabledValidators sle) (sfValidatorToDisable sle) (Some validator)))
        end
    | _, _, _ => (unlFAILURE, obj)
    end.

(** A failed transaction changes nothing. *)
Definition apply_modify (q : Z) (obj : option NegUnlObject) (tx : UNLModify) : option NegUnlObject :=
  match applyUNLModify q tx obj with (unlSUCCESS, obj') => obj' | (unlFAILURE, _) => obj end.

(** [buildLedgerImpl], as far as this entry goes, with the amendment [featureNegativeUNL]. *)
Definition build_ledger (q : Z) (txs : list UNLModify) (obj : option NegUnlObject) : option NegUnlObject :=
  let obj := if isFlagLedger q then updateNegativeUNL q obj else obj in
  foldl (apply_modify q) obj txs.

(** ** The invariant of the entry *)

Definition dkeys (sle : NegUnlObject) : list Blob := omap sfPublicKey (default [] (sfDisabledValidators sle)).

(** Every element has a key of its own, a validator to be disabled is not listed and one to be re-enabled is. *)
Record unl_ok (sle : NegUnlObject) : Prop := {
  uo_keys : Forall (λ v, is_Some (sfPublicKey v)) (default [] (sfDisabledValidators sle));
  uo_valid : Forall (λ k, is_Some (publicKeyType k)) (dkeys sle);
  uo_nodup : NoDup (dkeys sle);
  uo_disable k : sfValidatorToDisable sle = Some k → is_Some (publicKeyType k) ∧ k ∉ dkeys sle;
  uo_reenable k : sfValidatorToReEnable sle = Some k → k ∈ dkeys sle }.

Definition obj_ok (obj : option NegUnlObject) : Prop := match obj with Some sle => unl_ok sle | None => True end.

Definition pending (obj : option NegUnlObject) : option Blob * option Blob :=
  match obj with Some sle => (sfValidatorToDisable sle, sfValidatorToReEnable sle) | None => (None, None) end.

Lemma listed_dkeys k sle : listed k sle = bool_decide (k ∈ dkeys sle).
Proof.
  unfold listed, dkeys. destruct (sfDisabledValidators sle) as [l|]; [|done]. cbn. apply eq_true_iff_eq.
  rewrite existsb_exists, bool_decide_eq_true, list_elem_of_omap. setoid_rewrite <- list_elem_of_In. setoid_rewrite bool_decide_eq_true. done.
Qed.

Lemma negativeUNL_dkeys sle : Forall (λ k, is_Some (publicKeyType k)) (dkeys sle) → ledger_negativeUNL (Some sle) = list_to_set (dkeys sle).
Proof.
  unfold ledger_negativeUNL, dkeys. destruct (sfDisabledValidators sle) as [l|]; [|done]. cbn. intros Hv. f_equal.
  induction l as [|[[k|] q] l IH]; [done| |by apply IH]. cbn in *. apply Forall_cons in Hv as [[t Ht] Hv]. rewrite Ht. f_equal. by apply IH.
Qed.

Lemma omap_keys_filter k l : Forall (λ v, is_Some (sfPublicKey v)) l → omap sfPublicKey (filter (λ v, sfPublicKey v ≠ Some k) l) = filter (.≠ k) (omap sfPublicKey l).
Proof.
  induction 1 as [|v l [j Hj] _ IH]; [done|]. cbn [omap list_omap]. rewrite Hj. destruct (decide (j = k)) as [->|Hne].
  - rewrite !filter_cons_False by naive_solver. done.
  - rewrite !filter_cons_True by (rewrite ?Hj; congruence). cbn. by rewrite Hj, <- IH.
Qed.

(** The update lists exactly what the votes before the flag ledger counted on. *)
Lemma update_spec q sle : unl_ok sle →
  let old := dkeys sle in
  let kept := match sfValidatorToReEnable sle with Some k => filter (.≠ k) old | None => old end in
  let new := kept ++ match sfValidatorToDisable sle with Some k => [k] | None => [] end in
  obj_ok (updateNegativeUNL q (Some sle)) ∧ pending (updateNegativeUNL q (Some sle)) = (None, None) ∧
  ledger_negativeUNL (updateNegativeUNL q (Some sle)) = list_to_set new.
Proof.
  intros [Hk Hv Hn Hd Hr] old kept new.
  set (l0 := default [] (sfDisabledValidators sle)) in *. fold l0 in old.
  set (l1 := match sfValidatorToReEnable sle with Some k => filter (λ v, sfPublicKey v ≠ Some k) l0 | None => l0 end).
  set (l2 := match sfValidatorToDisable sle with Some k => l1 ++ [mkDisabled (Some k) q] | None => l1 end).
  assert (omap sfPublicKey l1 = kept) as H1.
  { unfold l1, kept. destruct (sfValidatorToReEnable sle); [by apply omap_keys_filter|done]. }
  assert (omap sfPublicKey l2 = new) as H2.
  { unfold l2, new. destruct (sfValidatorToDisable sle); [rewrite omap_app, H1; done|by rewrite app_nil_r]. }
  assert (Forall (λ v, is_Some (sfPublicKey v)) l2) as H3.
  { assert (Forall (λ v, is_Some (sfPublicKey v)) l1) by (unfold l1; destruct (sfValidatorToReEnable sle); [|done]; rewrite Forall_forall in *; intros v [_ Hv']%list_elem_of_filter; auto).
    unfold l2. destruct (sfValidatorToDisable sle); [|done]. apply Forall_app. split; [done|]. by repeat constructor. }
  assert (∀ x, x ∈ kept → x ∈ old) as H4.
  { unfold kept. destruct (sfValidatorToReEnable sle); [|done]. intros x [_ ?]%list_elem_of_filter. done. }
  assert (Forall (λ k, is_Some (publicKeyType k)) new ∧ NoDup new) as [H5 H6].
  { unfold new. rewrite Forall_app, NoDup_app. assert (NoDup kept) by (unfold kept; destruct (sfValidatorToReEnable sle); [by apply NoDup_filter|done]).
    assert (Forall (λ k, is_Some (publicKeyType k)) kept) by (rewrite Forall_forall in *; auto).
    destruct (sfValidatorToDisable sle) as [k|]; [|split_and!; [done|done|done|set_solver|constructor]].
    destruct (Hd k eq_refl) as [Hk1 Hk2]. split_and!; [done|by constructor|done| |apply NoDup_singleton]. intros x Hx ->%list_elem_of_singleton. auto. }
  assert (∀ l, omap sfPublicKey l = new → Forall (λ v, is_Some (sfPublicKey v)) l → unl_ok (mkNegUnl (Some l) None None)) as Hok.
  { intros l Hl Hf. split; try done; unfold dkeys; cbn; by rewrite Hl. }
  assert (updateNegativeUNL q (Some sle) = Some sle ∧ sfValidatorToDisable sle = None ∧ sfValidatorToReEnable sle = None ∨
    updateNegativeUNL q (Some sle) = if bool_decide (l2 = []) then None else Some (mkNegUnl (Some l2) None None)) as Hup.
  { unfold updateNegativeUNL, l2, l1, l0. destruct (sfValidatorToDisable sle), (sfValidatorToReEnable sle); auto. }
  destruct Hup as [(-> & Hd0 & Hr0)| ->].
  - split; [by split|]. split; [by cbn; rewrite Hd0, Hr0|]. rewrite negativeUNL_dkeys by done. unfold new, kept. by rewrite Hd0, Hr0, app_nil_r.
  - case_bool_decide as Hl2; [rewrite <- H2, Hl2; done|]. split; [by apply Hok|]. split; [done|]. rewrite negativeUNL_dkeys by (unfold dkeys; cbn; by rewrite H2).
    unfold dkeys. cbn. by rewrite H2.
Qed.

#[local] Ltac unchanged := split; [done|split; [done|by left]].

(** A transaction changes nothing but what is pending. *)
Lemma modify_spec q tx obj : obj_ok obj →
  let obj' := apply_modify q obj tx in
  obj_ok obj' ∧ ledger_negativeUNL obj' = ledger_negativeUNL obj ∧
  ((pending obj').1 = (pending obj).1 ∨
   (∃ d k, sfUNLModifyDisabling tx = Some d ∧ d ≠ 0 ∧ sfUNLModifyValidator tx = Some k ∧ (pending obj').1 = Some k)).
Proof.
  intros Hok. unfold apply_modify, applyUNLModify.
  assert (Hsle : unl_ok (default new_negUnl obj)) by (destruct obj; [done|]; split; cbn; [constructor|constructor|constructor|done|done]).
  assert (Hpend : pending obj = pending (Some (default new_negUnl obj))) by (by destruct obj).
  assert (Hneg : ledger_negativeUNL obj = ledger_negativeUNL (Some (default new_negUnl obj))) by (by destruct obj).
  destruct (negb (isFlagLedger q)); [unchanged|].
  destruct (sfUNLModifyDisabling tx) as [d|]; [|unchanged]. destruct (sfLedgerSequence tx) as [tq|]; [|unchanged].
  destruct (sfUNLModifyValidator tx) as [k|]; [|unchanged].
  destruct (1 <? d); [unchanged|]. destruct (negb (tq =? q)); [unchanged|].
  destruct (publicKeyType k) as [kt|] eqn:Hkt; [|unchanged].
  rewrite !listed_dkeys. set (sle := default new_negUnl obj) in *. clearbody sle. destruct Hsle as [Hk Hv Hn Hd Hr].
  destruct (Z.eqb_spec d 0) as [->|Hd0]; cbn [negb].
  - case_bool_decide as H1; [unchanged|]. case_bool_decide as H2; [unchanged|].
    case_bool_decide as H3; cbn [negb]; [|unchanged]. split; [|split; [by rewrite Hneg|left; by rewrite Hpend]].
    split; try done; cbn. by intros k' [= <-].
  - case_bool_decide as H1; [unchanged|]. case_bool_decide as H2; [unchanged|].
    case_bool_decide as H3; [unchanged|]. split; [|split; [by rewrite Hneg|right; by exists d, k]].
    split; try done; cbn. intros k' [= <-]. split; [by exists kt|done].
Qed.

(** ** Flag ledgers and votes *)

Section chain.
Context `{KeyOrder : !HashOrder Blob} `{NodeOrder : !HashOrder Z} (calcNodeID : Blob → Z).

(** The last ledger before a flag ledger, as the votes see it. *)
Definition prev_of (q hash : Z) (hashes : option (list Z)) (obj : option NegUnlObject) : PrevLedger Blob :=
  mkPrev q hash (ledger_negativeUNL obj) (ledger_validatorToDisable obj) (ledger_validatorToReEnable obj) hashes.

(** The transaction of a vote. *)
Definition tx_of (q : Z) (vp : Blob) (md : NegativeUNLModify) : UNLModify :=
  mkModify (Some match md with ToDisable => 1 | ToReEnable => 0 end) (Some q) (Some vp).

(** Some node with the given UNL votes for the transaction in ledger [q], after the entry [obj]. *)
Definition unl_voted (unl : gset Blob) (q : Z) (obj : option NegUnlObject) (tx : UNLModify) : Prop :=
  ∃ pq hash hashes trustedNodes s s' w vp md,
    (∀ x, NoDup (trustedNodes x)) ∧
    doVoting calcNodeID (prev_of pq hash hashes obj) unl trustedNodes s = Ok (tt, s', w) ∧
    AddTx q vp md ∈ w ∧ tx = tx_of q vp md.

(** The entry along a chain of ledgers whose transactions were voted for. *)
Inductive unl_chain (unl : gset Blob) : option NegUnlObject → Prop :=
  | unl_first : unl_chain unl None
  | unl_next q txs obj : unl_chain unl obj → Forall (unl_voted unl q obj) txs → unl_chain unl (build_ledger q txs obj).

Definition next_neg (obj : option NegUnlObject) : gset Blob := nextNegUnl (prev_of 0 0 None obj).

(** How many validators of the UNL are disabled. *)
Definition disabled (unl neg : gset Blob) : Z :=
  Z.of_nat (size (filter (λ n, n ∈ node_ids calcNodeID neg) (node_ids calcNodeID unl))).

Definition limit (unl : gset Blob) : Z := maxNegativeListed (Z.of_nat (size (node_ids calcNodeID unl))).

Lemma update_next q obj : obj_ok obj →
  obj_ok (updateNegativeUNL q obj) ∧ pending (updateNegativeUNL q obj) = (None, None) ∧ ledger_negativeUNL (updateNegativeUNL q obj) = next_neg obj.
Proof.
  destruct obj as [sle|]; [|done]. intros Hok. destruct (update_spec q sle Hok) as (H1 & H2 & ->). split_and!; [done|done|].
  destruct Hok as [Hk Hv Hn Hd Hr]. unfold next_neg, nextNegUnl, prev_of. cbn [validatorToDisable validatorToReEnable negativeUNL].
  rewrite negativeUNL_dkeys by done. cbn [ledger_validatorToDisable ledger_validatorToReEnable].
  assert (∀ k, sfValidatorToReEnable sle = Some k → ∃ t, publicKeyType k = Some t) as Hrt.
  { intros k Hk'. rewrite Forall_forall in Hv. by apply Hv, Hr. }
  destruct (sfValidatorToDisable sle) as [d|], (sfValidatorToReEnable sle) as [k|].
  all: try (destruct (Hrt k eq_refl) as [t ->]; specialize (Hr k eq_refl)).
  all: try (destruct (Hd d eq_refl) as [[t' ->] Hnin]).
  - assert (d ≠ k) by congruence. apply set_eq. intros x.
    rewrite elem_of_list_to_set, elem_of_app, list_elem_of_filter, list_elem_of_singleton. set_solver.
  - apply set_eq. intros x. rewrite elem_of_list_to_set, elem_of_app, list_elem_of_singleton. set_solver.
  - rewrite app_nil_r. apply set_eq. intros x. rewrite elem_of_list_to_set, list_elem_of_filter. set_solver.
  - by rewrite app_nil_r.
Qed.

Lemma limit_nonneg unl : 0 ≤ limit unl.
Proof.
  unfold limit, maxNegativeListed, f32_ceil. destruct (SFmul _ _ _ _) as [| | |[] m e]; try lia. destruct (Z.leb_spec 0 e); [lia|].
  apply Z.div_pos; [|lia]. pose proof (Z.pow_pos_nonneg 2 (- e)). lia.
Qed.

Lemma disabled_mono unl neg neg' : neg ⊆ neg' → disabled unl neg ≤ disabled unl neg'.
Proof.
  intros Hs. unfold disabled. apply Nat2Z.inj_le, subseteq_size. intros n. rewrite !elem_of_filter, !elem_of_node_ids. set_solver.
Qed.

Lemma disabled_add unl neg k : disabled unl ({[k]} ∪ neg) ≤ disabled unl neg + 1.
Proof.
  unfold disabled. set (f := filter (λ n, n ∈ node_ids calcNodeID neg) (node_ids calcNodeID unl)).
  assert (size (filter (λ n, n ∈ node_ids calcNodeID ({[k]} ∪ neg)) (node_ids calcNodeID unl)) ≤ size ({[calcNodeID k]} ∪ f))%nat as H.
  { apply subseteq_size. intros n. unfold f. rewrite elem_of_union, elem_of_singleton, !elem_of_filter, !elem_of_node_ids. set_solver. }
  pose proof (size_union_alt ({[calcNodeID k]} : gset Z) f) as Hu. rewrite size_singleton in Hu.
  pose proof (subseteq_size (f ∖ {[calcNodeID k]}) f ltac:(set_solver)). lia.
Qed.

(** Disabling is voted for only below the limit. *)
Lemma voted_below unl q obj tx d :
  unl_voted unl q obj tx → sfUNLModifyDisabling tx = Some d → d ≠ 0 → disabled unl (next_neg obj) < limit unl.
Proof.
  intros (pq & hash & hashes & trustedNodes & s & s' & w & vp & md & Hnd & Hrun & Hin & ->) [= <-] Hd. destruct md; [|done].
  pose proof (doVoting_wp calcNodeID true (prev_of pq hash hashes obj) unl trustedNodes s Hnd) as Hwp. unfold wp in Hwp. rewrite Hrun in Hwp.
  destruct Hwp as [[_ ->]|(l & _ & _ & _ & Hall & _)]; [by apply list_elem_of_singleton in Hin|].
  rewrite Forall_forall in Hall. by destruct (Hall _ Hin) as (_ & _ & _ & _ & _ & ?).
Qed.

Lemma changes_bounded unl q obj0 txs : ∀ obj,
  obj_ok obj → Forall (unl_voted unl q obj0) txs → ledger_negativeUNL obj = next_neg obj0 →
  ((pending obj).1 = None ∨ disabled unl (next_neg obj0) < limit unl) →
  let obj' := foldl (apply_modify q) obj txs in
  obj_ok obj' ∧ ledger_negativeUNL obj' = next_neg obj0 ∧ ((pending obj').1 = None ∨ disabled unl (next_neg obj0) < limit unl).
Proof.
  induction txs as [|tx txs IH]; intros obj Hok Hv Hneg Hp; [done|]. apply Forall_cons in Hv as [Hv Hvs]. cbn [foldl].
  destruct (modify_spec q tx obj Hok) as (Hok' & Hneg' & Hp'). apply IH; [done|done|by rewrite Hneg'|].
  destruct Hp' as [-> | (d & k & Hd & Hd0 & _ & _)]; [done|]. right. by eapply voted_below.
Qed.

Lemma next_neg_bound unl obj :
  disabled unl (next_neg obj) ≤ disabled unl (ledger_negativeUNL obj) + (if (pending obj).1 is Some _ then 1 else 0).
Proof.
  unfold next_neg, nextNegUnl, prev_of. cbn [validatorToDisable validatorToReEnable negativeUNL].
  set (neg := ledger_negativeUNL obj). transitivity (disabled unl (match ledger_validatorToDisable obj with Some k => {[k]} ∪ neg | None => neg end)).
  { destruct (ledger_validatorToReEnable obj); [|done]. apply disabled_mono. set_solver. }
  destruct obj as [sle|]; cbn; [|lia]. destruct (sfValidatorToDisable sle) as [k|]; [|lia].
  destruct (publicKeyType k); [apply disabled_add|lia].
Qed.

Lemma chain_bounded unl obj : unl_chain unl obj →
  obj_ok obj ∧ disabled unl (ledger_negativeUNL obj) ≤ limit unl ∧ disabled unl (next_neg obj) ≤ limit unl.
Proof.
  pose proof (limit_nonneg unl) as H0. induction 1 as [|q txs obj Hc (Hok & Hb & Hn) Hv].
  - split; [done|]. assert (∀ neg, neg = ∅ → disabled unl neg ≤ limit unl) as He.
    { intros neg ->. unfold disabled. assert (filter (λ n, n ∈ node_ids calcNodeID ∅) (node_ids calcNodeID unl) = ∅) as ->; [|done].
      apply set_eq. intros n. rewrite elem_of_filter, elem_of_node_ids. set_solver. }
    split; apply He; done.
  - unfold build_ledger. destruct (isFlagLedger q) eqn:Hq.
    + destruct (update_next q obj Hok) as (Hok1 & Hp1 & Hneg1).
      destruct (changes_bounded unl q obj txs _ Hok1 Hv Hneg1) as (Hok2 & Hneg2 & Hp2); [left; by rewrite Hp1|].
      set (obj' := foldl _ _ _) in *. rewrite Hneg2. split_and!; [done|done|].
      pose proof (next_neg_bound unl obj') as Hx. rewrite Hneg2 in Hx. destruct Hp2 as [Hp2|Hp2]; [rewrite Hp2 in Hx; lia|].
      destruct ((pending obj').1); lia.
    + assert (foldl (apply_modify q) obj txs = obj) as ->; [|done]. clear -Hq. induction txs as [|tx txs IH]; [done|]. cbn.
      unfold apply_modify at 2, applyUNLModify. by rewrite Hq.
Qed.
End chain.

(** C16: the negative UNL stays small. Along any chain of ledgers whose changes
    were voted for by nodes with one UNL, the entry stays well formed, the list
    that the next flag ledger will have is the one the votes count on, and neither
    now nor at the next flag ledger more validators of the UNL are disabled than
    the limit, a quarter of the UNL rounded up.  The UNL has fewer than 1000
    nodes: up to there the limit that the code computes with floating point is
    that quarter. *)
Theorem negative_unl_bounded `{KeyOrder : !HashOrder Blob} `{NodeOrder : !HashOrder Z} (calcNodeID : Blob → Z) unl obj :
  unl_chain calcNodeID unl obj → let n := Z.of_nat (size (node_ids calcNodeID unl)) in n < 1000 →
  obj_ok obj ∧
  (∀ q, ledger_negativeUNL (updateNegativeUNL q obj) = nextNegUnl (prev_of 0 0 None obj)) ∧
  4 * disabled calcNodeID unl (ledger_negativeUNL obj) < n + 4 ∧
  (∀ q, 4 * disabled calcNodeID unl (ledger_negativeUNL (updateNegativeUNL q obj)) < n + 4).
Proof.
  intros Hc n Hn. destruct (chain_bounded calcNodeID unl obj Hc) as (Hok & H1 & H2).
  assert (limit calcNodeID unl = (n + 3) / 4) as Hl.
  { unfold limit. fold n. pose proof maxNegativeListed_quarter as Hq. rewrite forallb_forall in Hq. specialize (Hq (Z.to_nat n)).
    rewrite Z2Nat.id in Hq by lia. apply Z.eqb_eq, Hq, in_seq. lia. }
  rewrite Hl in *. pose proof (Z.div_mod (n + 3) 4 ltac:(done)). pose proof (Z.mod_pos_bound (n + 3) 4 ltac:(done)).
  split_and!; [done|intros q; by apply (update_next calcNodeID)|lia|]. intros q. destruct (update_next calcNodeID q obj Hok) as (_ & _ & ->). lia.
Qed.

(** ** Example *)

#[local] Instance sample_key_order : HashOrder Blob := default_order Blob.
#[local] Instance sample_node_order : HashOrder Z := default_order Z.

(** Three validators; the third has not validated any of the last ledgers. *)
Definition demo_key (i : Z) : Blob := 237 :: i :: replicate 31 0.
Definition demo_id (k : Blob) : Z := default 0 (k !! 1%nat).
Definition demo_keys : gset Blob := {[demo_key 1; demo_key 2; demo_key 3]}.
Definition demo_entry : option NegUnlObject := build_ledger 256 [tx_of 256 (demo_key 3) ToDisable] None.

Definition is_vote (q : Z) (vp : Blob) (c : vote_call (PublicKey := Blob)) : bool :=
  match c with AddTx q' vp' ToDisable => (q' =? q) && bool_decide (vp' = vp) | _ => false end.

Lemma demo_third_voted :
  match doVoting demo_id (prev_of 255 77 (Some (Z.of_nat <$> seq 0 256)) None) demo_keys (λ _, [1; 2]) (mkVote 1 ∅) with
  | Ok (_, _, w) => existsb (is_vote 256 (demo_key 3)) w
  | _ => false
  end = true.
Proof. vm_compute. reflexivity. Qed.

Lemma demo_ids : Z.of_nat (size (node_ids demo_id demo_keys)) = 3.
Proof. vm_compute. reflexivity. Qed.

Lemma negative_unl_bounded_witness :
  unl_chain demo_id demo_keys demo_entry ∧
  ∀ q, 4 * disabled demo_id demo_keys (ledger_negativeUNL (updateNegativeUNL q demo_entry)) < 3 + 4.
Proof.
  assert (unl_chain demo_id demo_keys demo_entry) as Hc.
  { apply unl_next; [apply unl_first|]. constructor; [|constructor]. pose proof demo_third_voted as Hv.
    destruct (doVoting _ _ _ _ _) as [[[[] s'] w]| |] eqn:Hrun; [|discriminate Hv..].
    apply existsb_exists in Hv as (c & Hin & Hc). apply list_elem_of_In in Hin. destruct c as [|q' vp' []]; try discriminate Hc.
    apply andb_true_iff in Hc as [->%Z.eqb_eq ->%bool_decide_eq_true].
    exists 255, 77, (Some (Z.of_nat <$> seq 0 256)), (λ _, [1; 2]), (mkVote 1 ∅), s', w, (demo_key 3), ToDisable.
    split; [intros x; apply (bool_decide_unpack _); exact I|]. split; [exact Hrun|]. split; [exact Hin|reflexivity]. }
  split; [exact Hc|]. pose proof (negative_unl_bounded demo_id demo_keys demo_entry Hc) as H. cbv zeta in H. rewrite demo_ids in H.
  apply H. lia.
Defined.
