(* ===== verification/Fees.v ===== *)
(** * Fees

    Voting on the fees of the network ([app/misc/FeeVoteImpl.cpp], [applyFee] of
    [app/tx/impl/Change.cpp] and the part of [Ledger::setup] that reads the entry),
    the load fees of a server ([app/misc/LoadFeeTrack.h],
    [app/misc/impl/LoadFeeTrack.cpp]) and the products of [basics/FeeUnits.h].
    Amounts of drops are signed 64-bit integers, fee units unsigned ones. *)
From S2P Require Import Prelude Outcome.

(** ** Votes for a value *)

Record VotableValue := mkVotable { mCurrent : Z; mTarget : Z; mVoteMap : gmap Z Z }.

Definition bump (vote : Z) (m : gmap Z Z) : gmap Z Z := <[vote := default 0 (m !! vote) + 1]> m.

Definition VotableValue_ctor (current target : Z) : VotableValue := mkVotable current target (bump target ∅).
Definition addVote (vote : Z) (v : VotableValue) : VotableValue := mkVotable (mCurrent v) (mTarget v) (bump vote (mVoteMap v)).
Definition noVote (v : VotableValue) : VotableValue := addVote (mCurrent v) v.

(** The most voted value between current and target, the lowest one on ties. *)
Definition getVotes (v : VotableValue) : Z :=
  (foldl (λ '(ourVote, weight) '(key, val),
     if (key <=? Z.max (mTarget v) (mCurrent v)) && (Z.min (mTarget v) (mCurrent v) <=? key) && (weight <? val)
     then (key, val) else (ourVote, weight)) (mCurrent v, 0) (map_sorted (mVoteMap v))).1.

Record Setup := mkSetup { reference_fee : Z; account_reserve : Z; owner_reserve : Z }.
Definition reference_fee_units : Z := 10.

Record FeeSettings := mkFees { base : Z; units : Z; reserve : Z; increment : Z }.

(** What a validation says of fees. *)
Record FeeValidation := mkFeeVal {
  fv_trusted : bool;
  fv_BaseFee : option Z;
  fv_ReserveBase : option Z;
  fv_ReserveIncrement : option Z }.

Definition dropsAs (max drops : Z) : option Z := if (max <? drops) || (drops <? 0) then None else Some drops.
Definition max_u64 : Z := 2 ^ 64 - 1.
Definition max_u32 : Z := 2 ^ 32 - 1.
Definition max_i64 : Z := 2 ^ 63 - 1.

Definition INITIAL_XRP : Z := 100000000000 * 1000000.
Definition isLegalAmount (amount : Z) : bool := amount <=? INITIAL_XRP.

(** The fields that a validator adds to its validation. *)
Definition fee_doValidation (target : Setup) (last : FeeSettings) : FeeValidation :=
  mkFeeVal true
    (if negb (base last =? reference_fee target) then dropsAs max_u64 (reference_fee target) else None)
    (if negb (reserve last =? account_reserve target) then dropsAs max_u32 (account_reserve target) else None)
    (if negb (increment last =? owner_reserve target) then dropsAs max_u32 (owner_reserve target) else None).

Definition count_fee_votes (acc : VotableValue * VotableValue * VotableValue) (val : FeeValidation) :=
  let '(b, r, i) := acc in
  if fv_trusted val then
    (match fv_BaseFee val with
     | Some vote => if (vote <=? max_i64) && isLegalAmount vote then addVote vote b else noVote b
     | None => noVote b
     end,
     match fv_ReserveBase val with Some vote => addVote vote r | None => noVote r end,
     match fv_ReserveIncrement val with Some vote => addVote vote i | None => noVote i end)
  else acc.

(** The transaction that changes fees. *)
Record FeeTx := mkFeeTx { tx_seq : Z; tx_BaseFee : Z; tx_ReserveBase : Z; tx_ReserveIncrement : Z; tx_ReferenceFeeUnits : Z }.

Definition fee_doVoting (target : Setup) (seq : Z) (fees : FeeSettings) (set : list FeeValidation) : exc (option FeeTx) :=
  if negb (seq mod 256 =? 0) then Abort "isFlagLedger(lastClosedLedger->seq())"
  else
    let '(b, r, i) := foldl count_fee_votes
      (VotableValue_ctor (base fees) (reference_fee target), VotableValue_ctor (reserve fees) (account_reserve target),
       VotableValue_ctor (increment fees) (owner_reserve target)) set in
    let baseFee := default (u64 (base fees)) (dropsAs max_u64 (getVotes b)) in
    let baseReserve := default (u32 (reserve fees)) (dropsAs max_u32 (getVotes r)) in
    let incReserve := default (u32 (increment fees)) (dropsAs max_u32 (getVotes i)) in
    if negb (baseFee =? base fees) || negb (baseReserve =? reserve fees) || negb (incReserve =? increment fees)
    then Return (Some (mkFeeTx (u32 (seq + 1)) baseFee baseReserve incReserve reference_fee_units))
    else Return None.

(** The ledger entry of the fees after a transaction, and what [Ledger::setup] reads of it. *)
Record FeeObject := mkFeeObject { o_BaseFee : Z; o_ReferenceFeeUnits : Z; o_ReserveBase : Z; o_ReserveIncrement : Z }.
Definition applyFee (tx : FeeTx) : FeeObject :=
  mkFeeObject (tx_BaseFee tx) (tx_ReferenceFeeUnits tx) (tx_ReserveBase tx) (tx_ReserveIncrement tx).
Definition setup_fees (config : FeeSettings) (obj : option FeeObject) : FeeSettings :=
  match obj with
  | Some o => mkFees (i64 (o_BaseFee o)) (o_ReferenceFeeUnits o) (o_ReserveBase o) (o_ReserveIncrement o)
  | None => config
  end.

(** ** Load fees *)

Definition lftNormalFee : Z := 256.
Definition lftFeeIncFraction : Z := 4.
Definition lftFeeDecFraction : Z := 4.
Definition lftFeeMax : Z := lftNormalFee * 1000000.

Record LoadFeeTrack := mkLoad { localTxnLoadFee_ : Z; remoteTxnLoadFee_ : Z; clusterTxnLoadFee_ : Z; raiseCount_ : Z }.

Definition LoadFeeTrack_ctor : LoadFeeTrack := mkLoad lftNormalFee lftNormalFee lftNormalFee 0.

Definition setRemoteFee (f : Z) (t : LoadFeeTrack) := mkLoad (localTxnLoadFee_ t) f (clusterTxnLoadFee_ t) (raiseCount_ t).
Definition setClusterFee (f : Z) (t : LoadFeeTrack) := mkLoad (localTxnLoadFee_ t) (remoteTxnLoadFee_ t) f (raiseCount_ t).
Definition getLoadFactor (t : LoadFeeTrack) : Z := Z.max (clusterTxnLoadFee_ t) (Z.max (localTxnLoadFee_ t) (remoteTxnLoadFee_ t)).
Definition getScalingFactors (t : LoadFeeTrack) : Z * Z :=
  (Z.max (localTxnLoadFee_ t) (remoteTxnLoadFee_ t), Z.max (remoteTxnLoadFee_ t) (clusterTxnLoadFee_ t)).
Definition isLoadedLocal (t : LoadFeeTrack) : bool := negb (raiseCount_ t =? 0) || negb (localTxnLoadFee_ t =? lftNormalFee).
Definition isLoadedCluster (t : LoadFeeTrack) : bool := isLoadedLocal t || negb (clusterTxnLoadFee_ t =? lftNormalFee).

Definition raiseLocalFee (t : LoadFeeTrack) : bool * LoadFeeTrack :=
  let n := u32 (raiseCount_ t + 1) in
  if n <? 2 then (false, mkLoad (localTxnLoadFee_ t) (remoteTxnLoadFee_ t) (clusterTxnLoadFee_ t) n)
  else
    let origFee := localTxnLoadFee_ t in
    let f := if localTxnLoadFee_ t <? remoteTxnLoadFee_ t then remoteTxnLoadFee_ t else localTxnLoadFee_ t in
    let f := u32 (f + f / lftFeeIncFraction) in
    let f := if lftFeeMax <? f then lftFeeMax else f in
    (negb (origFee =? f), mkLoad f (remoteTxnLoadFee_ t) (clusterTxnLoadFee_ t) n).

Definition lowerLocalFee (t : LoadFeeTrack) : bool * LoadFeeTrack :=
  let origFee := localTxnLoadFee_ t in
  let f := localTxnLoadFee_ t - localTxnLoadFee_ t / lftFeeDecFraction in
  let f := if f <? lftNormalFee then lftNormalFee else f in
  (negb (origFee =? f), mkLoad f (remoteTxnLoadFee_ t) (clusterTxnLoadFee_ t) 0).

(** ** Scaling *)

(** [feeunit::mulDivU] for a result in drops. *)
Definition mulDivU (value mul div : Z) : exc (bool * Z) :=
  if mul <? 0 then Abort "mul.value() >= 0"
  else if value =? div then Return (true, mul)
  else if mul =? div then
    if max_i64 <? value then Return (false, max_i64) else Return (true, value)
  else if div =? 0 then Throw "Division by zero"
  else
    let quotient := value * mul / div in
    if max_i64 <? quotient then Return (false, max_i64) else Return (true, quotient).

(** [lowestTerms]: both values divided by their greatest common divisor. *)
Definition lowestTerms (a b : Z) : Z * Z :=
  let g := Z.gcd a b in if g =? 0 then (a, b) else (u64 a / g, b / g).

Definition scaleFeeLoad (fee : Z) (feeTrack : LoadFeeTrack) (fees : FeeSettings) (bUnlimited : bool) : exc Z :=
  if fee =? 0 then Return 0
  else
    let '(feeFactor, uRemFee) := getScalingFactors feeTrack in
    let feeFactor :=
      if bUnlimited && (uRemFee <? feeFactor) && (feeFactor <? u32 (4 * uRemFee)) then uRemFee else feeFactor in
    let baseFee := base fees in
    let den := units fees * lftNormalFee in
    let '(fee, den) := lowestTerms fee den in
    let '(baseFee, den) := lowestTerms baseFee den in
    let baseFee := i64 baseFee in
    let '(feeFactor, den) := lowestTerms feeFactor den in
    let '(fee, baseFee) := if fee <? u64 baseFee then (u64 baseFee, i64 fee) else (fee, baseFee) in
    if fee <? u64 baseFee then Abort "fee.value() >= baseFee.value()"
    else if feeFactor =? 0 then Abort "division by zero"
    else if max_i64 / feeFactor <? baseFee then Throw "scaleFeeLoad"
    else
      let baseFee := baseFee * feeFactor in
      result ← mulDivU fee baseFee den;
      if negb (result : bool * Z).1 then Throw "scaleFeeLoad" else Return result.2.

(** * Fees: theorems *)

(** ** Scaling *)

Lemma lowest_spec a b : 0 ≤ a < 2 ^ 64 → 0 < b →
  ∃ g a' b', lowestTerms a b = (a', b') ∧ 0 < g ∧ a = g * a' ∧ b = g * b' ∧ 0 ≤ a' ≤ a ∧ 0 < b' ≤ b.
Proof.
  intros Ha Hb. unfold lowestTerms. pose proof (Z.gcd_nonneg a b) as Hg.
  destruct (Z.eqb_spec (Z.gcd a b) 0) as [H0|H0]; [apply Z.gcd_eq_0 in H0; lia|]. rewrite u64_id by done.
  destruct (Z.gcd_divide_l a b) as [a' Ea], (Z.gcd_divide_r a b) as [b' Eb]. set (g := Z.gcd a b) in *. exists g, a', b'.
  assert (a / g = a') as -> by (rewrite Ea at 1; apply Z.div_mul; lia). assert (b / g = b') as -> by (rewrite Eb at 1; apply Z.div_mul; lia).
  split_and!; [done|nia..].
Qed.

(** The product, without the shortcuts. *)
Lemma mulDivU_exact value mul div : 0 ≤ value → 0 ≤ mul ≤ max_i64 → 0 < div →
  mulDivU value mul div = Return (if max_i64 <? value * mul / div then (false, max_i64) else (true, value * mul / div)).
Proof.
  intros Hv Hm Hd. unfold mulDivU. rewrite (proj2 (Z.ltb_ge mul 0)) by lia. rewrite (proj2 (Z.eqb_neq div 0)) by lia.
  destruct (Z.eqb_spec value div) as [->|Hne].
  - rewrite Z.mul_comm, Z.div_mul by lia. by rewrite (proj2 (Z.ltb_ge max_i64 mul)) by lia.
  - destruct (Z.eqb_spec mul div) as [->|Hne']; [rewrite Z.div_mul by lia|]; by case_match.
Qed.

(** The factor that [scaleFeeLoad] uses. *)
Definition used_factor (t : LoadFeeTrack) (bUnlimited : bool) : Z :=
  let '(f, r) := getScalingFactors t in if bUnlimited && (r <? f) && (f <? u32 (4 * r)) then r else f.

Lemma used_factor_pos t b :
  0 ≤ localTxnLoadFee_ t < 2 ^ 32 → 0 ≤ remoteTxnLoadFee_ t < 2 ^ 32 → 0 ≤ clusterTxnLoadFee_ t < 2 ^ 32 →
  0 < Z.max (localTxnLoadFee_ t) (remoteTxnLoadFee_ t) → 0 < used_factor t b < 2 ^ 32.
Proof.
  intros. unfold used_factor, getScalingFactors. destruct b; cbn [andb]; [|lia].
  destruct (Z.ltb_spec (Z.max (remoteTxnLoadFee_ t) (clusterTxnLoadFee_ t)) (Z.max (localTxnLoadFee_ t) (remoteTxnLoadFee_ t))); cbn [andb]; [|lia].
  set (r := Z.max (remoteTxnLoadFee_ t) (clusterTxnLoadFee_ t)) in *.
  assert (0 ≤ r < 2 ^ 32) by lia. clearbody r. destruct (Z.eq_dec r 0) as [->|]; [change (u32 (4 * 0)) with 0; rewrite (proj2 (Z.ltb_ge _ 0)) by lia; lia|].
  destruct (_ <? _); lia.
Qed.

(** The last steps: a product of three reduced numbers. *)
Lemma scale_last fee base factor den :
  0 ≤ fee < 2 ^ 64 → 0 ≤ base < 2 ^ 63 → base ≤ fee → 0 < factor < 2 ^ 32 → 0 < den < 2 ^ 31 →
  (if max_i64 / factor <? base then Throw "scaleFeeLoad"
   else result ← mulDivU fee (base * factor) den; if negb (result : bool * Z).1 then Throw "scaleFeeLoad" else Return result.2) =
  if fee * base * factor / den <=? max_i64 then Return (fee * base * factor / den) else Throw "scaleFeeLoad".
Proof.
  intros Hf Hb Hle Hk Hd. unfold max_i64 in *. destruct (Z.ltb_spec ((2 ^ 63 - 1) / factor) base) as [Hov|Hok].
  - assert (2 ^ 63 ≤ base * factor) as Hp.
    { pose proof (Z.mul_succ_div_gt (2 ^ 63 - 1) factor ltac:(lia)). nia. }
    assert (2 ^ 31 ≤ base) by nia. assert (2 ^ 63 ≤ fee * base * factor / den).
    { apply Z.div_le_lower_bound; [lia|]. transitivity (2 ^ 31 * 2 ^ 63); [nia|]. rewrite <- Z.mul_assoc. apply Z.mul_le_mono_nonneg; lia. }
    by rewrite (proj2 (Z.leb_gt _ _)) by lia.
  - assert (base * factor ≤ 2 ^ 63 - 1). { pose proof (Z.mul_div_le (2 ^ 63 - 1) factor ltac:(lia)). nia. }
    rewrite mulDivU_exact by (unfold max_i64; nia). cbn [mbind exc_bind]. rewrite Z.mul_assoc. unfold max_i64.
    destruct (Z.ltb_spec (2 ^ 63 - 1) (fee * base * factor / den)); cbn [fst snd negb].
    + by rewrite (proj2 (Z.leb_gt _ _)) by lia.
    + by rewrite (proj2 (Z.leb_le _ _)) by lia.
Qed.

(** C17: fees are scaled exactly. For reference fee units below 2^23 and load fees
    that are not all zero, [scaleFeeLoad] returns the product of the fee, the base
    fee and the load factor, divided by the units and the normal load and rounded
    down, whenever it fits a signed 64-bit integer, and throws otherwise. No
    intermediate product overflows. *)
Theorem scaled_fee_exact fee t fees bUnlimited :
  0 < fee < 2 ^ 64 → 0 ≤ base fees < 2 ^ 63 → 0 < units fees < 2 ^ 23 →
  0 ≤ localTxnLoadFee_ t < 2 ^ 32 → 0 ≤ remoteTxnLoadFee_ t < 2 ^ 32 → 0 ≤ clusterTxnLoadFee_ t < 2 ^ 32 →
  0 < Z.max (localTxnLoadFee_ t) (remoteTxnLoadFee_ t) →
  let exact := fee * base fees * used_factor t bUnlimited / (units fees * 256) in
  scaleFeeLoad fee t fees bUnlimited = if exact <=? max_i64 then Return exact else Throw "scaleFeeLoad".
Proof.
  intros Hf Hb Hu H1 H2 H3 H4 exact. pose proof (used_factor_pos t bUnlimited H1 H2 H3 H4) as Hk. subst exact. revert Hk.
  unfold scaleFeeLoad, used_factor. rewrite (proj2 (Z.eqb_neq fee 0)) by lia. destruct (getScalingFactors t) as [f r].
  set (k := if bUnlimited && (r <? f) && (f <? u32 (4 * r)) then r else f). clearbody k. intros Hk.
  change (units fees * lftNormalFee) with (units fees * 256). set (den := units fees * 256). assert (0 < den < 2 ^ 31) as Hden by (unfold den; lia). clearbody den.
  destruct (lowest_spec fee den) as (g1 & fee1 & den1 & -> & Hg1 & Ef & Ed & Hf1 & Hd1); [lia..|].
  destruct (lowest_spec (base fees) den1) as (g2 & base1 & den2 & -> & Hg2 & Eb & Ed1 & Hb1 & Hd2); [lia..|].
  rewrite (i64_id base1) by lia. destruct (lowest_spec k den2) as (g3 & k1 & den3 & -> & Hg3 & Ek & Ed2 & Hk1 & Hd3); [lia..|].
  assert (0 < k1) as Hk1' by nia.
  assert (fee * base fees * k / den = fee1 * base1 * k1 / den3) as ->.
  { rewrite Ef, Eb, Ek, Ed, Ed1, Ed2. replace (g1 * fee1 * (g2 * base1) * (g3 * k1)) with (fee1 * base1 * k1 * (g1 * g2 * g3)) by ring.
    replace (g1 * (g2 * (g3 * den3))) with (den3 * (g1 * g2 * g3)) by ring. apply Z.div_mul_cancel_r; nia. }
  rewrite (u64_id base1) by lia. destruct (Z.ltb_spec fee1 base1) as [Hlt|Hge].
  - rewrite (i64_id fee1) by lia. rewrite u64_id, (proj2 (Z.ltb_ge base1 fee1)), (proj2 (Z.eqb_neq k1 0)) by lia.
    rewrite scale_last by lia. by rewrite (Z.mul_comm base1 fee1).
  - rewrite u64_id, (proj2 (Z.ltb_ge fee1 base1)), (proj2 (Z.eqb_neq k1 0)) by lia. by rewrite scale_last by lia.
Qed.

Lemma scaled_fee_exact_witness :
  scaleFeeLoad 10 (mkLoad 512 256 256 2) (mkFees 10 10 20000000 5000000) false = Return 20.
Proof.
  rewrite (scaled_fee_exact 10 (mkLoad 512 256 256 2) (mkFees 10 10 20000000 5000000) false); cbn; try lia. reflexivity.
Defined.

(** ** Votes *)

Definition in_range (lo hi x : Z) : Prop := lo ≤ x ≤ hi.

(** The value with the most votes in a range, the lowest one on ties. *)
Definition plurality (lo hi : Z) (votes : Z → Z) (x : Z) : Prop :=
  in_range lo hi x ∧ 0 < votes x ∧ ∀ y, in_range lo hi y → votes y ≤ votes x ∧ (votes y = votes x → x ≤ y).

Definition tally (v : VotableValue) (y : Z) : Z := default 0 (mVoteMap v !! y).

Lemma scan_votes lo hi c l :
  StronglySorted (λ a b : Z * Z, a.1 < b.1) l → Forall (λ e : Z * Z, 0 < e.2) l →
  let r := foldl (λ '(o, w) '(key, val), if (key <=? hi) && (lo <=? key) && (w <? val) then (key, val) else (o, w)) (c, 0) l in
  (r = (c, 0) ∧ Forall (λ e : Z * Z, ¬ in_range lo hi e.1) l) ∨
  (r ∈ l ∧ in_range lo hi r.1 ∧ 0 < r.2 ∧ Forall (λ e : Z * Z, in_range lo hi e.1 → e.2 ≤ r.2 ∧ (e.2 = r.2 → r.1 ≤ e.1)) l).
Proof.
  induction l as [|[k n] l IH] using rev_ind; intros Hs Hp; [by left|]. rewrite Forall_app, Forall_singleton in Hp. destruct Hp as [Hp Hn]. cbn in Hn.
  apply StronglySorted_app in Hs as (Hlt & Hs & _). rewrite foldl_app. cbn [foldl]. specialize (IH Hs Hp). destruct (foldl _ (c, 0) l) as [o w]. cbn [fst snd] in *.
  destruct IH as [[[= -> ->] Hno]|(Hin & Hr & Hw & Hall)].
  - destruct ((k <=? hi) && (lo <=? k)) eqn:E; cbn [andb].
    + rewrite (proj2 (Z.ltb_lt 0 n)) by done. right. split; [rewrite elem_of_app; right; by left|]. unfold in_range. cbn. split; [lia|]. split; [done|].
      apply Forall_app. split; [eapply Forall_impl; [exact Hno|]; intros e He ?; done|]. constructor; [cbn; lia|done].
    + left. split; [done|]. apply Forall_app. split; [done|]. constructor; [unfold in_range; cbn; lia|done].
  - assert (o < k) as Hok by (apply (Hlt (o, w) (k, n)); [done|by left]).
    destruct ((k <=? hi) && (lo <=? k)) eqn:E; cbn [andb].
    + destruct (Z.ltb_spec w n); right.
      * split; [rewrite elem_of_app; right; by left|]. unfold in_range in *. cbn. split; [lia|]. split; [lia|].
        apply Forall_app. split; [eapply Forall_impl; [exact Hall|]; intros e He Hi; destruct (He Hi); lia|]. constructor; [cbn; lia|done].
      * split; [rewrite elem_of_app; by left|]. split; [done|]. split; [done|]. apply Forall_app. split; [done|]. constructor; [cbn; lia|done].
    + right. split; [rewrite elem_of_app; by left|]. split; [done|]. split; [done|]. apply Forall_app. split; [done|]. constructor; [unfold in_range; cbn; lia|done].
Qed.

Definition all_counted (v : VotableValue) : Prop := (∀ y n, mVoteMap v !! y = Some n → 0 < n) ∧ 0 < tally v (mTarget v).

Lemma getVotes_plurality v : all_counted v →
  plurality (Z.min (mTarget v) (mCurrent v)) (Z.max (mTarget v) (mCurrent v)) (tally v) (getVotes v).
Proof.
  intros [Hpos Ht]. unfold getVotes. set (lo := Z.min _ _). set (hi := Z.max _ _).
  destruct (scan_votes lo hi (mCurrent v) (map_sorted (mVoteMap v))) as [[-> Hno]|(Hin & Hr & Hw & Hall)].
  - apply (le_sorted_lt fst); [apply map_sorted_sorted|apply NoDup_map_sorted].
  - apply Forall_forall. intros [y n] Hy%elem_of_map_sorted. by eapply Hpos.
  - exfalso. unfold tally in Ht. destruct (mVoteMap v !! mTarget v) as [n|] eqn:E; cbn in Ht; [|lia].
    apply elem_of_map_sorted in E. rewrite Forall_forall in Hno. apply (Hno _ E). unfold in_range, lo, hi. cbn. lia.
  - destruct (foldl _ _ _) as [x w]. cbn [fst snd] in *. apply elem_of_map_sorted in Hin. rewrite Forall_forall in Hall.
    assert (tally v x = w) as Hx by (unfold tally; by rewrite Hin). split; [done|]. rewrite Hx. split; [done|]. intros y Hy. unfold tally.
    destruct (mVoteMap v !! y) as [n|] eqn:E; cbn; [|lia]. apply elem_of_map_sorted in E. by apply (Hall _ E).
Qed.

(** ** Counting *)

Definition occurrences (y : Z) (l : list Z) : Z := Z.of_nat (length (filter (.= y) l)).

Lemma addVotes_spec l : ∀ v, all_counted v →
  let v' := foldl (λ v x, addVote x v) v l in
  all_counted v' ∧ mCurrent v' = mCurrent v ∧ mTarget v' = mTarget v ∧ ∀ y, tally v' y = tally v y + occurrences y l.
Proof.
  induction l as [|x l IH]; intros v Hv; cbn [foldl].
  { split_and!; [done..|]. intros y. unfold occurrences. cbn. lia. }
  assert (∀ y, tally (addVote x v) y = tally v y + if decide (x = y) then 1 else 0) as Hx.
  { intros y. unfold tally, addVote, bump. cbn. destruct (decide (x = y)) as [->|]; [by rewrite lookup_insert_eq|]. rewrite lookup_insert_ne by done. by rewrite Z.add_0_r. }
  destruct Hv as [Hp Ht]. destruct (IH (addVote x v)) as (H1 & H2 & H3 & H4).
  { split.
    - intros y n. unfold addVote, bump. cbn. rewrite lookup_insert_Some. intros [[-> <-]|[_ ?]]; [|by eapply Hp].
      destruct (mVoteMap v !! y) as [m|] eqn:E; cbn; [specialize (Hp _ _ E); lia|lia].
    - change (mTarget (addVote x v)) with (mTarget v). rewrite Hx. destruct (decide _); lia. }
  split_and!; [done..|]. intros y. rewrite H4, Hx. unfold occurrences. destruct (decide (x = y)) as [->|Hne].
  - rewrite filter_cons_True by done. cbn. lia.
  - rewrite filter_cons_False by done. lia.
Qed.

Lemma ctor_counted current target :
  all_counted (VotableValue_ctor current target) ∧ ∀ y, tally (VotableValue_ctor current target) y = if decide (target = y) then 1 else 0.
Proof.
  assert (∀ y, tally (VotableValue_ctor current target) y = if decide (target = y) then 1 else 0) as Ht.
  { intros y. unfold tally, VotableValue_ctor, bump. cbn. destruct (decide (target = y)) as [->|]; [by rewrite lookup_insert_eq|by rewrite lookup_insert_ne]. }
  split; [|done]. split.
  - intros y n. unfold VotableValue_ctor, bump. cbn. rewrite lookup_insert_Some, !lookup_empty. intros [[_ <-]|[_ ?]]; [done|done].
  - rewrite Ht. by rewrite decide_True.
Qed.

(** What each trusted validation votes for: the value it names, or the current one. *)
Definition ballots (current : Z) (named : FeeValidation → option Z) (set : list FeeValidation) : list Z :=
  (λ v, default current (named v)) <$> filter (λ v, fv_trusted v = true) set.

Definition legal_base (v : FeeValidation) : option Z :=
  fv_BaseFee v ≫= λ vote, if (vote <=? max_i64) && isLegalAmount vote then Some vote else None.

Lemma count_folds set : ∀ b r i,
  foldl count_fee_votes (b, r, i) set =
  (foldl (λ v x, addVote x v) b (ballots (mCurrent b) legal_base set),
   foldl (λ v x, addVote x v) r (ballots (mCurrent r) fv_ReserveBase set),
   foldl (λ v x, addVote x v) i (ballots (mCurrent i) fv_ReserveIncrement set)).
Proof.
  induction set as [|v set IH]; intros b r i; [done|]. cbn [foldl]. unfold ballots. rewrite !filter_cons.
  unfold count_fee_votes at 2. destruct (fv_trusted v); [rewrite decide_True by done|rewrite decide_False by done; apply IH].
  rewrite IH. rewrite !fmap_cons. cbn [foldl]. unfold legal_base at 2.
  assert (∀ (o : option Z) (w : VotableValue), match o with Some x => addVote x w | None => noVote w end = addVote (default (mCurrent w) o) w) as Hn by (by intros []).
  rewrite !Hn. unfold ballots. cbn [mCurrent addVote]. f_equal. f_equal.
  destruct (fv_BaseFee v) as [x|]; cbn; [|done]. by destruct (_ && _).
Qed.

(** The votes for a value, our own for the target among them. *)
Definition votes_for (current target : Z) (named : FeeValidation → option Z) (set : list FeeValidation) (y : Z) : Z :=
  (if decide (target = y) then 1 else 0) + occurrences y (ballots current named set).

Lemma getVotes_votes current target named set :
  plurality (Z.min target current) (Z.max target current) (votes_for current target named set)
    (getVotes (foldl (λ v x, addVote x v) (VotableValue_ctor current target) (ballots current named set))).
Proof.
  destruct (ctor_counted current target) as [Hc Ht]. destruct (addVotes_spec (ballots current named set) _ Hc) as (H1 & H2 & H3 & H4).
  pose proof (getVotes_plurality _ H1) as (Hr & Hw & Hall). rewrite H2, H3 in Hr, Hall. cbn [mTarget mCurrent VotableValue_ctor] in Hr, Hall.
  assert (∀ y, votes_for current target named set y = tally (foldl (λ v x, addVote x v) (VotableValue_ctor current target) (ballots current named set)) y) as He.
  { intros y. by rewrite H4, Ht. }
  split; [done|]. rewrite He. split; [done|]. intros y Hy. rewrite He. by apply Hall.
Qed.

(** C18: a fee vote moves to what most want, within what we want. On a flag ledger
    whose fees are not negative, and for sensible targets, the vote violates no
    assertion; once its transaction, if it has one, is applied, the ledger reads the
    most voted value between the current one and our target, for the base fee and
    for both reserves: a trusted validation that names no value, or an illegal base
    fee, votes for the current one, we vote for the target, and the lowest value
    wins a tie. *)
Theorem fee_vote_plurality target seq fees set :
  seq mod 256 = 0 →
  0 ≤ base fees < 2 ^ 63 → 0 ≤ reference_fee target < 2 ^ 63 →
  0 ≤ reserve fees < 2 ^ 32 → 0 ≤ account_reserve target < 2 ^ 32 →
  0 ≤ increment fees < 2 ^ 32 → 0 ≤ owner_reserve target < 2 ^ 32 →
  ∃ tx, fee_doVoting target seq fees set = Return tx ∧
    let new := setup_fees fees (applyFee <$> tx) in
    plurality (Z.min (reference_fee target) (base fees)) (Z.max (reference_fee target) (base fees))
      (votes_for (base fees) (reference_fee target) legal_base set) (base new) ∧
    plurality (Z.min (account_reserve target) (reserve fees)) (Z.max (account_reserve target) (reserve fees))
      (votes_for (reserve fees) (account_reserve target) fv_ReserveBase set) (reserve new) ∧
    plurality (Z.min (owner_reserve target) (increment fees)) (Z.max (owner_reserve target) (increment fees))
      (votes_for (increment fees) (owner_reserve target) fv_ReserveIncrement set) (increment new).
Proof.
  intros Hq Hb Ht1 Hr Ht2 Hi Ht3. unfold fee_doVoting. rewrite Hq. cbn [Z.eqb negb]. rewrite count_folds. cbn [mCurrent VotableValue_ctor].
  pose proof (getVotes_votes (base fees) (reference_fee target) legal_base set) as P1.
  pose proof (getVotes_votes (reserve fees) (account_reserve target) fv_ReserveBase set) as P2.
  pose proof (getVotes_votes (increment fees) (owner_reserve target) fv_ReserveIncrement set) as P3.
  change (mkVotable ?c ?t (bump ?t ∅)) with (VotableValue_ctor c t). 
  set (x1 := getVotes (foldl _ (VotableValue_ctor (base fees) _) _)) in *. set (x2 := getVotes (foldl _ (VotableValue_ctor (reserve fees) _) _)) in *.
  set (x3 := getVotes (foldl _ (VotableValue_ctor (increment fees) _) _)) in *. clearbody x1 x2 x3.
  assert (0 ≤ x1 < 2 ^ 63) as R1 by (destruct P1 as [H _]; unfold in_range in H; lia).
  assert (0 ≤ x2 < 2 ^ 32) as R2 by (destruct P2 as [H _]; unfold in_range in H; lia).
  assert (0 ≤ x3 < 2 ^ 32) as R3 by (destruct P3 as [H _]; unfold in_range in H; lia).
  assert (∀ m x, 0 ≤ x ≤ m → dropsAs m x = Some x) as Hd.
  { intros m x Hx. unfold dropsAs. by rewrite (proj2 (Z.ltb_ge m x)), (proj2 (Z.ltb_ge x 0)) by lia. }
  rewrite !Hd by (unfold max_u64, max_u32; lia). cbn [default from_option id].
  destruct (Z.eqb_spec x1 (base fees)), (Z.eqb_spec x2 (reserve fees)), (Z.eqb_spec x3 (increment fees)); cbn [negb orb]; (eexists; split; [reflexivity|]);
    cbn [fmap option_fmap option_map setup_fees applyFee base reserve increment o_BaseFee o_ReserveBase o_ReserveIncrement tx_BaseFee tx_ReserveBase tx_ReserveIncrement];
    subst; by rewrite ?i64_id by lia.
Qed.

Lemma fee_vote_plurality_witness :
  let vals := [mkFeeVal true (Some 12) None None; mkFeeVal true (Some 12) None None; mkFeeVal false (Some 15) None None; mkFeeVal true None None None] in
  ∃ tx, fee_doVoting (mkSetup 15 20000000 5000000) 512 (mkFees 10 10 20000000 5000000) vals = Return tx ∧
    plurality 10 15 (votes_for 10 15 legal_base vals) (base (setup_fees (mkFees 10 10 20000000 5000000) (applyFee <$> tx))).
Proof.
  intros vals.
  destruct (fee_vote_plurality (mkSetup 15 20000000 5000000) 512 (mkFees 10 10 20000000 5000000) vals) as (tx & Hv & Hb & _); [reflexivity|cbn; lia..|].
  exists tx. split; [exact Hv|exact Hb].
Defined.

(** ** Load fees *)

Inductive LoadCmd := Raise | Lower | Remote (f : Z) | Cluster (f : Z).

Definition load_step (t : LoadFeeTrack) (c : LoadCmd) : LoadFeeTrack :=
  match c with Raise => (raiseLocalFee t).2 | Lower => (lowerLocalFee t).2 | Remote f => setRemoteFee f t | Cluster f => setClusterFee f t end.

(** The local load fee stays between normal and maximum as long as the remote
    fees set are not above 3435973836, where a quarter more still fits 32 bits. *)
Theorem local_fee_bounded cs :
  Forall (λ c, match c with Remote f => 0 ≤ f ≤ 3435973836 | _ => True end) cs →
  let t := foldl load_step LoadFeeTrack_ctor cs in
  lftNormalFee ≤ localTxnLoadFee_ t ≤ lftFeeMax.
Proof.
  intros Hcs. assert (∀ cs t, Forall (λ c, match c with Remote f => 0 ≤ f ≤ 3435973836 | _ => True end) cs →
    256 ≤ localTxnLoadFee_ t ≤ 256000000 → 0 ≤ remoteTxnLoadFee_ t ≤ 3435973836 → 256 ≤ localTxnLoadFee_ (foldl load_step t cs) ≤ 256000000) as Hrun.
  { clear. induction cs as [|c cs IH]; intros t Hcs Hl Hr; [done|]. apply Forall_cons in Hcs as [Hc Hcs]. cbn [foldl]. apply IH; [done|..].
    - destruct c; cbn; try done; unfold raiseLocalFee, lowerLocalFee, lftFeeIncFraction, lftFeeDecFraction, lftFeeMax, lftNormalFee.
      + destruct (_ <? 2); [done|]. cbn. set (f := if localTxnLoadFee_ t <? remoteTxnLoadFee_ t then remoteTxnLoadFee_ t else localTxnLoadFee_ t).
        assert (256 ≤ f ≤ 3435973836) as Hf by (unfold f; destruct (Z.ltb_spec (localTxnLoadFee_ t) (remoteTxnLoadFee_ t)); lia).
        clearbody f. pose proof (Z.div_mod f 4 ltac:(done)). pose proof (Z.mod_pos_bound f 4 ltac:(done)). rewrite u32_id by lia.
        change (256 * 1000000) with 256000000. destruct (Z.ltb_spec 256000000 (f + f / 4)); lia.
      + cbn. pose proof (Z.div_mod (localTxnLoadFee_ t) 4 ltac:(done)). pose proof (Z.mod_pos_bound (localTxnLoadFee_ t) 4 ltac:(done)).
        destruct (Z.ltb_spec (localTxnLoadFee_ t - localTxnLoadFee_ t / 4) 256); lia.
    - destruct c; cbn; try done. unfold raiseLocalFee. by destruct (_ <? 2). }
  apply Hrun; [done|cbn; unfold lftNormalFee; lia|cbn; unfold lftNormalFee; lia].
Qed.

(** one step further the local fee wraps around. With a remote fee of
    3435973837, the second of two increases computes a quarter more in 32 bits, and
    leaves a local load fee of zero, below the documented minimum. *)
Example raised_fee_wraps :
  localTxnLoadFee_ (foldl load_step LoadFeeTrack_ctor [Remote 3435973837; Raise; Raise]) = 0 ∧
  scaleFeeLoad 10 (foldl load_step LoadFeeTrack_ctor [Remote 3435973837; Raise; Raise; Remote 0]) (mkFees 10 10 0 0) false = Abort "division by zero".
Proof. by vm_compute. Qed.
