(* ===== verification/STAmount.v ===== *)
(** * Amounts ([protocol/STAmount.h], [protocol/impl/STAmount.cpp]), qualities and transfer rates

    An amount is native (drops of XRP) or issued: a mantissa of 64 bits, an
    exponent and a sign.  Currencies and accounts are 160-bit integers, zero
    standing for XRP; the name of the field is left out.  The loops have a fuel
    argument, and running out of it is an outcome of its own.  [switchover] is
    [*stAmountCanonicalizeSwitchover]. *)
From S2P Require Import Prelude Outcome Bytes IOUAmount Serializer.

Record Issue := mkIssue { currency : Z; account : Z }.

Definition xrpIssue : Issue := mkIssue 0 0.
Definition noIssue : Issue := mkIssue 1 1.

Definition isXRP (issue : Issue) : bool := currency issue =? 0.

Record STAmount := mkAmount {
  mIssue : Issue;
  mValue : Z;
  mOffset : Z;
  mIsNative : bool;
  mIsNegative : bool }.

Definition cMinOffset : Z := -96.
Definition cMaxOffset : Z := 80.
Definition cMinValue : Z := 1000000000000000.
Definition cMaxValue : Z := 9999999999999999.
Definition cMaxNativeN : Z := 100000000000000000.
Definition cNotNative : Z := 2 ^ 63.
Definition cPosNative : Z := 2 ^ 62.

Definition tenTo14 : Z := 100000000000000.
Definition tenTo14m1 : Z := tenTo14 - 1.
Definition tenTo17 : Z := tenTo14 * 1000.

Definition amount_signum (a : STAmount) : Z :=
  if negb (mValue a =? 0) then if mIsNegative a then -1 else 1 else 0.

(** [a == beast::zero] *)
Definition is_zero (a : STAmount) : bool := amount_signum a =? 0.

Definition isLegalNet (a : STAmount) : bool := negb (mIsNative a) || (mValue a <=? cMaxNativeN).
Definition isDefault (a : STAmount) : bool := (mValue a =? 0) && mIsNative a.

(** ** Canonical form *)

(** The loops of [canonicalize]. *)
Fixpoint native_down (fuel : nat) (v o : Z) : exc (Z * Z) :=
  if o <? 0 then match fuel with O => NoFuel | S fuel => native_down fuel (v / 10) (o + 1) end
  else Return (v, o).

Fixpoint native_up (switchover : bool) (fuel : nat) (v o : Z) : exc (Z * Z) :=
  if 0 <? o then
    if switchover && (cMaxNativeN <? v) then Throw "Native currency amount out of range"
    else match fuel with O => NoFuel | S fuel => native_up switchover fuel (u64 (v * 10)) (o - 1) end
  else Return (v, o).

Fixpoint issued_up (fuel : nat) (v o : Z) : exc (Z * Z) :=
  if (v <? cMinValue) && (cMinOffset <? o) then
    match fuel with O => NoFuel | S fuel => issued_up fuel (u64 (v * 10)) (o - 1) end
  else Return (v, o).

Fixpoint issued_down (fuel : nat) (v o : Z) : exc (Z * Z) :=
  if cMaxValue <? v then
    if cMaxOffset <=? o then Throw "value overflow"
    else match fuel with O => NoFuel | S fuel => issued_down fuel (v / 10) (o + 1) end
  else Return (v, o).

Section amounts.
Context (switchover : bool).

Definition canonicalize (a : STAmount) : exc STAmount :=
  let '(mkAmount issue v o _ neg) := a in
  if isXRP issue then
    if (v =? 0) || (o <=? -20) then Return (mkAmount issue 0 0 true false)
    else if switchover && (17 <? o) then Throw "Native currency amount out of range"
    else
      '(v, o) ← native_down (Z.to_nat (- o)) v o;
      '(v, o) ← native_up switchover (Z.to_nat o) v o;
      if cMaxNativeN <? v then Throw "Native currency amount out of range"
      else Return (mkAmount issue v o true neg)
  else if v =? 0 then Return (mkAmount issue 0 (-100) false false)
  else
    '(v, o) ← issued_up 16 v o;
    '(v, o) ← issued_down 4 v o;
    if (o <? cMinOffset) || (v <? cMinValue) then Return (mkAmount issue 0 (-100) false false)
    else if cMaxOffset <? o then Throw "value overflow"
    else Return (mkAmount issue v o false neg).

(** ** Constructors *)

(** [STAmount (issue, mantissa, exponent, negative)]; [canonicalize] sets [mIsNative]. *)
Definition amount_ctor (issue : Issue) (m e : Z) (negative : bool) : exc STAmount :=
  canonicalize (mkAmount issue m e false negative).

(** The same with the name of a field. *)
Definition amount_ctor_named (issue : Issue) (m e : Z) (negative : bool) : exc STAmount :=
  if m <=? 2 ^ 63 - 1 then amount_ctor issue m e negative else Abort "mValue <= max".

(** [set] of a signed value. *)
Definition amount_set (v : Z) : Z * bool := if v <? 0 then (u64 (- v), true) else (u64 v, false).

(** [STAmount (name, std::int64_t)] and [STAmount (name, std::uint64_t, negative)]. *)
Definition native_ctor_signed (v : Z) : STAmount :=
  let '(m, negative) := amount_set v in mkAmount xrpIssue m 0 true negative.

Definition native_ctor_unsigned (m : Z) (negative : bool) : exc STAmount :=
  if m <=? 2 ^ 63 - 1 then Return (mkAmount xrpIssue m 0 true negative) else Abort "mValue <= max".

(** [STAmount (mantissa, negative)] without a name. *)
Definition native_ctor (m : Z) (negative : bool) : exc STAmount :=
  native_ctor_unsigned m (negb (m =? 0) && negative).

Definition amount_of_iou (amount : IOUAmount) (issue : Issue) : exc STAmount :=
  let negative := mantissa amount <? 0 in
  canonicalize (mkAmount issue (u64 (if negative then - mantissa amount else mantissa amount)) (exponent amount) false negative).

Definition amount_of_xrp (drops : Z) : exc STAmount :=
  let negative := drops <? 0 in
  canonicalize (mkAmount xrpIssue (u64 (if negative then - drops else drops)) 0 true negative).

(** ** Conversions *)

Definition xrp (a : STAmount) : exc Z :=
  if negb (mIsNative a) then Throw "Cannot return non-native STAmount as XRPAmount"
  else let drops := i64 (mValue a) in Return (if mIsNegative a then - drops else drops).

Definition iou (a : STAmount) : exc IOUAmount :=
  if mIsNative a then Throw "Cannot return native STAmount as IOUAmount"
  else let m := i64 (mValue a) in IOUAmount_ctor (if mIsNegative a then - m else m) (mOffset a).

Definition getSNValue (a : STAmount) : exc Z :=
  if negb (mIsNative a) then Throw "amount is not native!"
  else let ret := i64 (mValue a) in Return (if mIsNegative a then - ret else ret).

(** ** Modification *)

Definition setIssue (issue : Issue) (a : STAmount) : STAmount :=
  mkAmount issue (mValue a) (mOffset a) (isXRP issue) (mIsNegative a).

Definition clear (a : STAmount) : STAmount :=
  mkAmount (mIssue a) 0 (if mIsNative a then 0 else -100) (mIsNative a) false.

Definition negate (a : STAmount) : STAmount :=
  if negb (is_zero a) then mkAmount (mIssue a) (mValue a) (mOffset a) (mIsNative a) (negb (mIsNegative a)) else a.

(** ** Comparison *)

Definition areComparable (v1 v2 : STAmount) : bool :=
  Bool.eqb (mIsNative v1) (mIsNative v2) && (currency (mIssue v1) =? currency (mIssue v2)).

Definition amount_eq (lhs rhs : STAmount) : bool :=
  areComparable lhs rhs && Bool.eqb (mIsNegative lhs) (mIsNegative rhs) && (mOffset lhs =? mOffset rhs) &&
  (mValue lhs =? mValue rhs).

Definition amount_less (lhs rhs : STAmount) : exc bool :=
  if negb (areComparable lhs rhs) then Throw "Can't compare amounts that are't comparable!"
  else if negb (Bool.eqb (mIsNegative lhs) (mIsNegative rhs)) then Return (mIsNegative lhs)
  else if mValue lhs =? 0 then
    if mIsNegative rhs then Return false else Return (negb (mValue rhs =? 0))
  else if mValue rhs =? 0 then Return false
  else if mOffset rhs <? mOffset lhs then Return (mIsNegative lhs)
  else if mOffset lhs <? mOffset rhs then Return (negb (mIsNegative lhs))
  else if mValue rhs <? mValue lhs then Return (mIsNegative lhs)
  else if mValue lhs <? mValue rhs then Return (negb (mIsNegative lhs))
  else Return false.

(** ** Sums *)

(** A sum of signed 64-bit integers. *)
Definition sum64 (a b : Z) : exc Z :=
  if (- 2 ^ 63 <=? a + b) && (a + b <? 2 ^ 63) then Return (a + b) else Abort "signed overflow".

(** [operator+]; the two loops are those of [IOUAmount::operator+=]. *)
Definition amount_plus (v1 v2 : STAmount) : exc STAmount :=
  if negb (areComparable v1 v2) then Throw "Can't add amounts that are't comparable!"
  else if is_zero v2 then Return v1
  else if is_zero v1 then amount_ctor_named (mIssue v1) (mValue v2) (mOffset v2) (mIsNegative v2)
  else if mIsNative v1 then
    a ← getSNValue v1; b ← getSNValue v2; c ← sum64 a b; Return (native_ctor_signed c)
  else
    let vv1 := i64 (mValue v1) in
    let vv2 := i64 (mValue v2) in
    let vv1 := if mIsNegative v1 then - vv1 else vv1 in
    let vv2 := if mIsNegative v2 then - vv2 else vv2 in
    '(vv1, ov1) ← alignTo (align_fuel (mOffset v1) (mOffset v2)) vv1 (mOffset v1) (mOffset v2);
    '(vv2, _) ← alignTo (align_fuel (mOffset v2) ov1) vv2 (mOffset v2) ov1;
    fv ← sum64 vv1 vv2;
    if (-10 <=? fv) && (fv <=? 10) then amount_ctor_named (mIssue v1) 0 0 false
    else if 0 <=? fv then amount_ctor_named (mIssue v1) (u64 fv) ov1 false
    else amount_ctor_named (mIssue v1) (u64 (- fv)) ov1 true.

(** The unary and the binary [operator-]. *)
Definition amount_neg (a : STAmount) : STAmount :=
  if mValue a =? 0 then a else mkAmount (mIssue a) (mValue a) (mOffset a) (mIsNative a) (negb (mIsNegative a)).
Definition amount_minus (v1 v2 : STAmount) : exc STAmount := amount_plus v1 (amount_neg v2).

(** ** Products and quotients *)

Definition muldiv (multiplier multiplicand divisor : Z) : exc Z :=
  if divisor =? 0 then Throw "Division by zero"
  else
    let ret := multiplier * multiplicand / divisor in
    if 2 ^ 64 - 1 <? ret then Throw "overflow" else Return ret.

Definition muldiv_round (multiplier multiplicand divisor rounding : Z) : exc Z :=
  if divisor =? 0 then Throw "Division by zero"
  else
    let ret := (multiplier * multiplicand + rounding) / divisor in
    if 2 ^ 64 - 1 <? ret then Throw "overflow" else Return ret.

(** The loops that bring a native value into the range of mantissas. *)
Fixpoint bring_up (fuel : nat) (v o : Z) : exc (Z * Z) :=
  if v <? cMinValue then match fuel with O => NoFuel | S fuel => bring_up fuel (u64 (v * 10)) (o - 1) end
  else Return (v, o).

Definition in_range_of (a : STAmount) : exc (Z * Z) :=
  if mIsNative a then bring_up 15 (mValue a) (mOffset a) else Return (mValue a, mOffset a).

Definition divide (num den : STAmount) (issue : Issue) : exc STAmount :=
  if is_zero den then Throw "division by zero"
  else if is_zero num then amount_ctor issue 0 0 false
  else
    '(numVal, numOffset) ← in_range_of num;
    '(denVal, denOffset) ← in_range_of den;
    q ← muldiv numVal tenTo17 denVal;
    amount_ctor issue (u64 (q + 5)) (numOffset - denOffset - 17) (negb (Bool.eqb (mIsNegative num) (mIsNegative den))).

(** The product of two native amounts, in 64-bit words. *)
Definition native_product (v1 v2 : STAmount) : exc STAmount :=
  a ← getSNValue v1; b ← getSNValue v2;
  let minV := u64 (Z.min a b) in
  let maxV := u64 (Z.max a b) in
  if 3000000000 <? minV then Throw "Native value overflow"
  else if 2095475792 <? u64 (Z.shiftr maxV 32 * minV) then Throw "Native value overflow"
  else native_ctor_unsigned (u64 (minV * maxV)) false.

Definition multiply (v1 v2 : STAmount) (issue : Issue) : exc STAmount :=
  if is_zero v1 || is_zero v2 then amount_ctor issue 0 0 false
  else if mIsNative v1 && mIsNative v2 && isXRP issue then native_product v1 v2
  else
    '(value1, offset1) ← in_range_of v1;
    '(value2, offset2) ← in_range_of v2;
    p ← muldiv value1 value2 tenTo14;
    amount_ctor issue (u64 (p + 7)) (offset1 + offset2 + 14) (negb (Bool.eqb (mIsNegative v1) (mIsNegative v2))).

(** The loops of [canonicalizeRound]. *)
Fixpoint round_native (fuel : nat) (v o loops : Z) : exc (Z * Z * Z) :=
  if o <? -1 then match fuel with O => NoFuel | S fuel => round_native fuel (v / 10) (o + 1) (loops + 1) end
  else Return (v, o, loops).

Fixpoint round_issued (fuel : nat) (v o : Z) : exc (Z * Z) :=
  if 10 * cMaxValue <? v then match fuel with O => NoFuel | S fuel => round_issued fuel (v / 10) (o + 1) end
  else Return (v, o).

Definition canonicalizeRound (native : bool) (value offset : Z) : exc (Z * Z) :=
  if native then
    if offset <? 0 then
      '(v, o, loops) ← round_native (Z.to_nat (- offset)) value offset 0;
      Return (u64 (v + (if 2 <=? loops then 9 else 10)) / 10, o + 1)
    else Return (value, offset)
  else if cMaxValue <? value then
    '(v, o) ← round_issued 4 value offset;
    Return (u64 (v + 9) / 10, o + 1)
  else Return (value, offset).

(** The common end of [mulRound] and [divRound]. *)
Definition rounded (issue : Issue) (amount offset : Z) (resultNegative roundUp : bool) : exc STAmount :=
  '(amount, offset) ←
    (if xorb resultNegative roundUp then canonicalizeRound (isXRP issue) amount offset else Return (amount, offset));
  result ← amount_ctor issue amount offset resultNegative;
  if roundUp && negb resultNegative && is_zero result then
    if isXRP issue then amount_ctor issue 1 0 resultNegative
    else amount_ctor issue cMinValue cMinOffset resultNegative
  else Return result.

Definition mulRound (v1 v2 : STAmount) (issue : Issue) (roundUp : bool) : exc STAmount :=
  if is_zero v1 || is_zero v2 then amount_ctor issue 0 0 false
  else if mIsNative v1 && mIsNative v2 && isXRP issue then native_product v1 v2
  else
    '(value1, offset1) ← in_range_of v1;
    '(value2, offset2) ← in_range_of v2;
    let resultNegative := negb (Bool.eqb (mIsNegative v1) (mIsNegative v2)) in
    amount ← muldiv_round value1 value2 tenTo14 (if xorb resultNegative roundUp then tenTo14m1 else 0);
    rounded issue amount (offset1 + offset2 + 14) resultNegative roundUp.

Definition divRound (num den : STAmount) (issue : Issue) (roundUp : bool) : exc STAmount :=
  if is_zero den then Throw "division by zero"
  else if is_zero num then amount_ctor issue 0 0 false
  else
    '(numVal, numOffset) ← in_range_of num;
    '(denVal, denOffset) ← in_range_of den;
    let resultNegative := negb (Bool.eqb (mIsNegative num) (mIsNegative den)) in
    amount ← muldiv_round numVal tenTo17 denVal (if xorb resultNegative roundUp then denVal - 1 else 0);
    rounded issue amount (numOffset - denOffset - 17) resultNegative roundUp.

(** ** Rates of offers *)

Definition getRate (offerOut offerIn : STAmount) : exc Z :=
  if is_zero offerOut then Return 0
  else
    match divide offerIn offerOut noIssue with
    | Return r =>
      if is_zero r then Return 0
      else if (-100 <=? mOffset r) && (mOffset r <=? 155)
      then Return (Z.lor (u64 (Z.shiftl (u64 (mOffset r + 100)) 56)) (mValue r))
      else Abort "r.exponent()"
    | Throw _ => Return 0
    | Abort e => Abort e
    | NoFuel => NoFuel
    end.

Definition amountFromQuality (rate : Z) : exc STAmount :=
  if rate =? 0 then amount_ctor noIssue 0 0 false
  else amount_ctor noIssue (Z.ldiff rate (Z.shiftl 255 56)) (Z.shiftr rate 56 - 100) false.

(** ** Qualities ([protocol/Quality.h], [protocol/impl/Quality.cpp])

    A quality is its [m_value]; a lower value is better for the taker. *)

(** The amounts of an offer: what the taker pays and what it gets. *)
Record Amounts := mkAmounts { am_in : STAmount; am_out : STAmount }.

Definition Quality_ctor (amount : Amounts) : exc Z := getRate (am_out amount) (am_in amount).

Definition quality_incr (q : Z) : exc Z := if 0 <? q then Return (q - 1) else Abort "m_value > 0".
Definition quality_decr (q : Z) : exc Z := if q <? 2 ^ 64 - 1 then Return (q + 1) else Abort "m_value < max".

Definition quality_rate (q : Z) : exc STAmount := amountFromQuality q.

(** The last assertion, [amount.in <= limit], is the negation of the test. *)
Definition ceil_in (q : Z) (amount : Amounts) (limit : STAmount) : exc Amounts :=
  above ← amount_less limit (am_in amount);
  if (above : bool) then
    r ← quality_rate q;
    out ← divRound limit r (mIssue (am_out amount)) true;
    more ← amount_less (am_out amount) out;
    let out := if (more : bool) then am_out amount else out in
    if amount_eq limit limit then Return (mkAmounts limit out) else Abort "result.in == limit"
  else Return amount.

Definition ceil_out (q : Z) (amount : Amounts) (limit : STAmount) : exc Amounts :=
  above ← amount_less limit (am_out amount);
  if (above : bool) then
    r ← quality_rate q;
    i ← mulRound limit r (mIssue (am_in amount)) true;
    more ← amount_less (am_in amount) i;
    let i := if (more : bool) then am_in amount else i in
    if amount_eq limit limit then Return (mkAmounts i limit) else Abort "result.out == limit"
  else Return amount.

Definition composed_quality (lhs rhs : Z) : exc Z :=
  lhs_rate ← quality_rate lhs;
  if is_zero lhs_rate then Abort "lhs_rate != beast::zero"
  else
    rhs_rate ← quality_rate rhs;
    if is_zero rhs_rate then Abort "rhs_rate != beast::zero"
    else
      rate ← mulRound lhs_rate rhs_rate (mIssue lhs_rate) true;
      let stored_exponent := u64 (mOffset rate + 100) in
      if (0 <? stored_exponent) && (stored_exponent <=? 255)
      then Return (Z.lor (u64 (Z.shiftl stored_exponent 56)) (mValue rate))
      else Abort "stored_exponent".

(** [round]: an index outside the table is undefined behaviour. *)
Definition quality_round (q digits : Z) : exc Z :=
  if (digits <? 0) || (16 <? digits) then Abort "mod[digits]"
  else
    let modulus := 10 ^ (16 - digits) in
    let exponent := Z.shiftr q 56 in
    let mantissa := Z.land q (2 ^ 56 - 1) in
    let mantissa := u64 (mantissa + (modulus - 1)) in
    let mantissa := mantissa - mantissa mod modulus in
    Return (Z.lor (u64 (Z.shiftl exponent 56)) mantissa).

(** ** Transfer rates ([protocol/impl/Rate2.cpp]), in billionths *)

Definition parityRate : Z := 1000000000.

Definition as_amount (rate : Z) : exc STAmount := amount_ctor noIssue rate (-9) false.

(** What the functions of this file have in common. *)
Definition with_rate (op : STAmount → STAmount → exc STAmount) (amount : STAmount) (rate : Z) : exc STAmount :=
  if rate =? 0 then Abort "rate.value != 0"
  else if rate =? parityRate then Return amount
  else r ← as_amount rate; op amount r.

Definition rate_multiply (amount : STAmount) (rate : Z) : exc STAmount :=
  with_rate (λ a r, multiply a r (mIssue amount)) amount rate.
Definition rate_multiplyRound (amount : STAmount) (rate : Z) (issue : Issue) (roundUp : bool) : exc STAmount :=
  with_rate (λ a r, mulRound a r issue roundUp) amount rate.
Definition rate_divide (amount : STAmount) (rate : Z) : exc STAmount :=
  with_rate (λ a r, divide a r (mIssue amount)) amount rate.
Definition rate_divideRound (amount : STAmount) (rate : Z) (issue : Issue) (roundUp : bool) : exc STAmount :=
  with_rate (λ a r, divRound a r issue roundUp) amount rate.

(** ** The binary form *)

(** [add]: the 64-bit word of an amount, and what is written. *)
Definition amount_word (a : STAmount) : Z :=
  if mIsNative a then if negb (mIsNegative a) then Z.lor (mValue a) cPosNative else mValue a
  else if is_zero a then cNotNative
  else if mIsNegative a then Z.lor (mValue a) (u64 (Z.shiftl (u64 (mOffset a + 512 + 97)) 54))
  else Z.lor (mValue a) (u64 (Z.shiftl (u64 (mOffset a + 512 + 256 + 97)) 54)).

Definition amount_add (a : STAmount) : ST (list Z) unit :=
  if mIsNative a then
    sassert (mOffset a =? 0) "mOffset == 0";;
    _ ← add64 (amount_word a); mret ()
  else
    _ ← add64 (amount_word a);
    _ ← addBitString (be_bytes 20 (currency (mIssue a)));
    _ ← addBitString (be_bytes 20 (account (mIssue a))); mret ().

(** The constructor from a [SerialIter]; the end for issued amounts is apart. *)
Definition issued_of_word (issue : Issue) (value : Z) : ST SerialIter STAmount :=
  let offset := Z.shiftr value 54 in
  let value := Z.ldiff value (Z.shiftl 1023 54) in
  if negb (value =? 0) then
    let isNegative := Z.land offset 256 =? 0 in
    let offset := Z.land offset 255 - 97 in
    throw_if ((value <? cMinValue) || (cMaxValue <? value) || (offset <? cMinOffset) || (cMaxOffset <? offset))
      "invalid currency value";;
    slift (canonicalize (mkAmount issue value offset false isNegative))
  else
    throw_if (negb (offset =? 512)) "invalid currency value";;
    slift (canonicalize (mkAmount issue 0 0 false false)).

Definition amount_read : ST SerialIter STAmount :=
  value ← get64;
  if Z.land value cNotNative =? 0 then
    if negb (Z.land value cPosNative =? 0) then mret (mkAmount xrpIssue (Z.ldiff value cPosNative) 0 true false)
    else if value =? 0 then throw "negative zero is not canonical"
    else mret (mkAmount xrpIssue value 0 true true)
  else
    c ← iter_getBitString 20;
    throw_if (be_value c =? 0) "invalid native currency";;
    acc ← iter_getBitString 20;
    throw_if (be_value acc =? 0) "invalid native account";;
    issued_of_word (mkIssue (be_value c) (be_value acc)) value.

End amounts.
