(* ===== verification/STAmountSpec.v ===== *)
(** * What amounts guarantee *)
From S2P Require Import Prelude Outcome Bytes IOUAmount IOUAmountSpec Serializer SerializerSpec STAmount.

(** ** Canonical form *)

Lemma issued_up_scale fuel v o : 0 ≤ v → issued_up fuel v o = scaleUp fuel v o.
Proof.
  revert v o. induction fuel as [|fuel IH]; intros v o Hv; cbn [issued_up scaleUp]; change cMinValue with minMantissa; change cMinOffset with minExponent; [done|].
  destruct (Z.ltb_spec v minMantissa) as [Hlt|]; [|done]. unfold minMantissa in Hlt. rewrite u64_id, i64_id, IH by lia. done.
Qed.

Lemma issued_down_scale fuel v o : 0 ≤ v →
  match issued_down fuel v o, scaleDown fuel v o with
  | Return x, Return y => x = y | Throw _, Throw _ => True | NoFuel, NoFuel => True | _, _ => False
  end.
Proof.
  revert v o. induction fuel as [|fuel IH]; intros v o Hv; cbn [issued_down scaleDown]; change cMaxValue with maxMantissa; change cMaxOffset with maxExponent.
  - destruct (maxMantissa <? v); [|done]. by destruct (maxExponent <=? o).
  - destruct (maxMantissa <? v); [|done]. destruct (maxExponent <=? o); [done|].
    rewrite Z.quot_div_nonneg by lia. apply IH. apply Z.div_pos; lia.
Qed.

(** The number an issued amount stands for. *)
Definition iou_of (a : STAmount) : IOUAmount := mkIOU (if mIsNegative a then - mValue a else mValue a) (mOffset a).

Definition issued_ok (a : STAmount) : Prop :=
  mIsNative a = false ∧ 0 < currency (mIssue a) < 2 ^ 160 ∧ 0 < account (mIssue a) < 2 ^ 160 ∧
  ((mValue a = 0 ∧ mOffset a = -100 ∧ mIsNegative a = false) ∨
   (cMinValue ≤ mValue a ≤ cMaxValue ∧ cMinOffset ≤ mOffset a ≤ cMaxOffset)).

Lemma issued_ok_intro issue v o g : 0 < currency issue < 2 ^ 160 → 0 < account issue < 2 ^ 160 →
  cMinValue ≤ v ≤ cMaxValue → cMinOffset ≤ o ≤ cMaxOffset → issued_ok (mkAmount issue v o false g).
Proof. intros Hc Ha Hv Ho. split_and!; [done|apply Hc|apply Hc|apply Ha|apply Ha|by right]. Qed.

Definition native_ok (a : STAmount) : Prop :=
  mIsNative a = true ∧ mIssue a = xrpIssue ∧ mOffset a = 0 ∧ 0 ≤ mValue a < 2 ^ 62 ∧
  (mIsNegative a = true → mValue a ≠ 0).

Section amounts.
Context (sw : bool).

(** [canonicalize] of an issued amount does what [IOUAmount::normalize] does. *)
Lemma canonicalize_loops issue m e neg : isXRP issue = false → 0 < m →
  match amount_ctor sw issue m e neg,
        ('(m1, e1) ← scaleUp 16 m e; '(m2, e2) ← scaleDown 4 m1 e1;
         if (e2 <? minExponent) || (m2 <? minMantissa) then Return zero
         else if maxExponent <? e2 then Throw "value overflow"
         else Return (mkIOU (if neg then - m2 else m2) e2))
  with
  | Return a, Return i => i = iou_of a ∧ mIssue a = issue ∧ mIsNative a = false ∧ (mValue a = 0 → mIsNegative a = false) ∧
      (mValue a ≠ 0 → mIsNegative a = neg ∧ 0 < mValue a)
  | Throw _, Throw _ => True | NoFuel, NoFuel => True | _, _ => False
  end.
Proof.
  intros Hi Hm. unfold amount_ctor, canonicalize. rewrite Hi, (proj2 (Z.eqb_neq m 0)) by lia. rewrite issued_up_scale by lia.
  pose proof (scaleUp_spec 16 m e Hm) as Hs. destruct Hs as (k & Hk & -> & _); [change (10 ^ Z.of_nat 16) with 10000000000000000; unfold minMantissa; lia|].
  cbn [mbind exc_bind]. pose proof (pow10_pos k Hk). pose proof (issued_down_scale 4 (m * 10 ^ k) (e - k) ltac:(nia)) as Hd.
  destruct (issued_down 4 _ _) as [[v o]|?|?|], (scaleDown 4 _ _) as [[v' o']|?|?|]; try done. injection Hd as <- <-. cbn [mbind exc_bind].
  change cMinOffset with minExponent. change cMinValue with minMantissa. change cMaxOffset with maxExponent.
  destruct ((o <? minExponent) || (v <? minMantissa)) eqn:Hc; [by split_and!|]. destruct (maxExponent <? o); [done|].
  apply orb_false_iff in Hc as [_ Hv%Z.ltb_ge]. unfold minMantissa in Hv. cbn. unfold iou_of. cbn. split_and!; [done..|lia|]. intros. split; [done|lia].
Qed.

Lemma ctor_issued issue m e neg : isXRP issue = false → 0 < m < 2 ^ 64 →
  match amount_ctor sw issue m e neg with
  | Return a => (a = mkAmount issue 0 (-100) false false ∧ tiny m e) ∨
      ∃ m2 e2, a = mkAmount issue m2 e2 false neg ∧ cMinValue ≤ m2 ≤ cMaxValue ∧
        cMinOffset ≤ e2 ≤ cMaxOffset ∧ scaled_to m e m2 e2
  | Throw _ => huge m e
  | Abort _ | NoFuel => False
  end.
Proof.
  intros Hi Hm. pose proof (canonicalize_loops issue m e neg Hi ltac:(lia)) as Hl. pose proof (normalize_mag neg m e Hm) as Hn.
  destruct (amount_ctor sw issue m e neg) as [[i v o n g]|?|?|]; destruct (mbind _ _) as [r|?|?|]; try done.
  destruct Hl as (-> & Hi' & Hn' & Hz & Hp). cbn in Hi', Hn', Hz, Hp. subst i n. unfold iou_of in Hn. cbn in Hn.
  destruct Hn as [[Hn Ht]|(m2 & e2 & Hn & Hm2 & He2 & Hs)].
  - left. split; [|done]. injection Hn as H1 ->. assert (v = 0) as -> by (destruct g; lia). by rewrite Hz.
  - right. exists m2, e2. unfold minMantissa in Hm2. injection Hn as Hv ->. assert (v ≠ 0) as Hv0 by (destruct g, neg; lia).
    destruct (Hp Hv0) as [-> Hpos]. assert (v = m2) as -> by (destruct neg; lia). unfold maxMantissa in Hm2. unfold cMinValue, cMaxValue. split_and!; [done|lia|lia|apply He2|apply He2|done].
Qed.

(** On the numbers of issued amounts the constructors agree. *)
Lemma ctor_agrees issue m e neg : isXRP issue = false → 0 < m < 2 ^ 63 →
  match amount_ctor sw issue m e neg, IOUAmount_ctor (if neg then - m else m) e with
  | Return a, Return i => i = iou_of a ∧ mIssue a = issue
  | Throw _, Throw _ => True | _, _ => False
  end.
Proof.
  intros Hi Hm. pose proof (canonicalize_loops issue m e neg Hi ltac:(lia)) as Hl. pose proof (ctor_issued issue m e neg Hi ltac:(lia)) as Hc.
  assert (IOUAmount_ctor (if neg then - m else m) e = ('(m1, e1) ← scaleUp 16 m e; '(m2, e2) ← scaleDown 4 m1 e1;
         if (e2 <? minExponent) || (m2 <? minMantissa) then Return zero
         else if maxExponent <? e2 then Throw "value overflow"
         else Return (mkIOU (if neg then - m2 else m2) e2))) as ->.
  { unfold IOUAmount_ctor, normalize. cbn [mantissa exponent]. destruct neg.
    - rewrite (proj2 (Z.eqb_neq (- m) 0)), (proj2 (Z.ltb_lt (- m) 0)), Z.opp_involutive, i64_id by lia. done.
    - by rewrite (proj2 (Z.eqb_neq m 0)), (proj2 (Z.ltb_ge m 0)) by lia. }
  destruct (amount_ctor sw issue m e neg); [|by destruct (mbind _ _)|done..]. destruct (mbind _ _); [|done..]. by destruct Hl as (? & ? & _).
Qed.

Lemma ctor_same a : issued_ok a → mValue a ≠ 0 → amount_ctor sw (mIssue a) (mValue a) (mOffset a) (mIsNegative a) = Return a.
Proof.
  destruct a as [i v o n g]. intros (Hn & Hc & _ & [(? & _)|(Hv & Ho)]) Hv0; [done|]. cbn in *. subst n.
  unfold amount_ctor, canonicalize, isXRP. rewrite (proj2 (Z.eqb_neq (currency i) 0)), (proj2 (Z.eqb_neq v 0)) by lia.
  unfold cMinValue, cMaxValue, cMinOffset, cMaxOffset in *. cbn [issued_up]. unfold cMinValue. rewrite (proj2 (Z.ltb_ge v _)) by lia. cbn [andb mbind exc_bind issued_down].
  unfold cMaxValue, cMaxOffset, cMinOffset. rewrite (proj2 (Z.ltb_ge _ v)) by lia. cbn [mbind exc_bind].
  by rewrite (proj2 (Z.ltb_ge o _)), (proj2 (Z.ltb_ge v _)), (proj2 (Z.ltb_ge _ o)) by lia.
Qed.

(** ** Sums and comparisons of issued amounts *)

Lemma issued_canonical a : issued_ok a → canonical (iou_of a).
Proof.
  destruct a as [i v o n g]. unfold issued_ok, iou_of. cbn. intros (_ & _ & _ & [(-> & -> & ->)|(Hv & Ho)]); [by left|]. right. cbn.
  unfold cMinValue, cMaxValue, minMantissa, maxMantissa in *. split; [destruct g; lia|done].
Qed.

Lemma issued_zero a : issued_ok a → is_zero a = (mValue a =? 0).
Proof. intros _. unfold is_zero, amount_signum. by destruct (mValue a =? 0), (mIsNegative a). Qed.

Lemma issued_value_range a : issued_ok a → 0 ≤ mValue a ≤ cMaxValue.
Proof. unfold cMaxValue. intros (_ & _ & _ & [(-> & _)|(Hv & _)]); [lia|]. unfold cMinValue in Hv. unfold cMaxValue in Hv. lia. Qed.

Lemma issued_not_xrp a : issued_ok a → isXRP (mIssue a) = false.
Proof. intros (_ & Hc & _). unfold isXRP. apply Z.eqb_neq. lia. Qed.

Lemma iou_of_zero a : mantissa (iou_of a) = 0 ↔ mValue a = 0.
Proof. unfold iou_of. cbn. destruct (mIsNegative a); lia. Qed.

(** What the constructor returns is well formed. *)
Lemma ctor_issued_ok issue m e neg a : 0 < currency issue < 2 ^ 160 → 0 < account issue < 2 ^ 160 → 0 ≤ m < 2 ^ 64 →
  amount_ctor sw issue m e neg = Return a → issued_ok a ∧ mIssue a = issue.
Proof.
  intros Hc Ha Hm Heq. assert (isXRP issue = false) as Hx by (apply Z.eqb_neq; lia).
  destruct (decide (m = 0)) as [->|H0].
  { unfold amount_ctor, canonicalize in Heq. rewrite Hx in Heq. injection Heq as <-. split; [|done]. split_and!; [done|apply Hc|apply Hc|apply Ha|apply Ha|by left]. }
  pose proof (ctor_issued issue m e neg Hx ltac:(lia)) as Hs. rewrite Heq in Hs.
  destruct Hs as [[-> _]|(m2 & e2 & -> & Hm2 & He2 & _)]; (split; [|done]); (split_and!; [done|apply Hc|apply Hc|apply Ha|apply Ha|]); [by left|by right].
Qed.

Lemma plus_issued a b : issued_ok a → issued_ok b → currency (mIssue a) = currency (mIssue b) →
  match amount_plus sw a b, plus (iou_of a) (iou_of b) with
  | Return c, Return i => i = iou_of c ∧ issued_ok c ∧ mIssue c = mIssue a
  | Throw _, Throw _ => True | _, _ => False
  end.
Proof.
  intros Ha Hb Hcur. pose proof (issued_canonical a Ha) as Ca. pose proof (issued_canonical b Hb) as Cb.
  pose proof (issued_value_range a Ha) as Ra. pose proof (issued_value_range b Hb) as Rb. unfold cMaxValue in Ra, Rb.
  assert (0 < currency (mIssue a) < 2 ^ 160 ∧ 0 < account (mIssue a) < 2 ^ 160) as [Hi1 Hi2] by (split; apply Ha).
  pose proof (issued_not_xrp a Ha) as Hx. unfold amount_plus, areComparable.
  rewrite (proj1 Ha), (proj1 Hb), Hcur, Z.eqb_refl. cbn [Bool.eqb andb negb]. rewrite !issued_zero by done.
  destruct (Z.eqb_spec (mValue b) 0) as [Hb0|Hb0].
  { rewrite plus_zero by (done || (right; by apply iou_of_zero)). destruct (decide (mantissa (iou_of a) = 0)) as [Ha0|Ha0]; [|done].
    assert (iou_of a = iou_of b) as <-; [|done]. apply iou_of_zero in Ha0.
    destruct Ha as (_ & _ & _ & [(_ & H1 & H2)|(H1 & _)]), Hb as (_ & _ & _ & [(_ & H3 & H4)|(H3 & _)]); unfold cMinValue in *; try lia.
    unfold iou_of. by rewrite Ha0, Hb0, H1, H2, H3, H4. }
  destruct (Z.eqb_spec (mValue a) 0) as [Ha0|Ha0].
  { rewrite plus_zero by (done || (left; by apply iou_of_zero)). rewrite decide_True by (by apply iou_of_zero).
    unfold amount_ctor_named. rewrite (proj2 (Z.leb_le _ _)) by lia.
    set (c := mkAmount (mIssue a) (mValue b) (mOffset b) false (mIsNegative b)).
    assert (issued_ok c) as Hc by (split_and!; [done|apply Hi1|apply Hi1|apply Hi2|apply Hi2|apply Hb]).
    change (amount_ctor sw _ _ _ _) with (amount_ctor sw (mIssue c) (mValue c) (mOffset c) (mIsNegative c)). rewrite (ctor_same c Hc Hb0). by split_and!. }
  rewrite !i64_id by lia. destruct (plus_closed (iou_of a) (iou_of b)) as [Hs ->]; [done|done|by rewrite iou_of_zero..|].
  rewrite alignTo_spec by (unfold align_fuel; lia). cbn [mbind exc_bind]. rewrite alignTo_spec by (unfold align_fuel; lia). cbn [mbind exc_bind].
  assert (Z.quot (if mIsNegative a then - mValue a else mValue a) (10 ^ Z.max 0 (mOffset b - mOffset a)) = aligned (iou_of a) (top (iou_of a) (iou_of b))) as ->.
  { unfold aligned, top, iou_of. cbn [mantissa exponent]. do 2 f_equal. lia. }
  assert (Z.quot (if mIsNegative b then - mValue b else mValue b) (10 ^ Z.max 0 (Z.max (mOffset a) (mOffset b) - mOffset b)) = aligned (iou_of b) (top (iou_of a) (iou_of b))) as ->.
  { unfold aligned, top, iou_of. cbn [mantissa exponent]. do 2 f_equal. lia. }
  set (s := aligned (iou_of a) _ + aligned (iou_of b) _) in *. unfold maxMantissa in Hs. unfold sum64. fold s.
  rewrite (proj2 (Z.leb_le _ _)), (proj2 (Z.ltb_lt _ _)) by lia. cbn [andb mbind exc_bind].
  change (Z.max (mOffset a) (mOffset b)) with (top (iou_of a) (iou_of b)). set (e := top (iou_of a) (iou_of b)).
  destruct ((-10 <=? s) && (s <=? 10)) eqn:Hsmall.
  { unfold amount_ctor_named, amount_ctor, canonicalize. rewrite Hx. change (0 <=? 2 ^ 63 - 1) with true. cbn [mValue Z.eqb]. split_and!; [done| |done]. split_and!; [done|apply Hi1|apply Hi1|apply Hi2|apply Hi2|by left]. }
  assert (10 < Z.abs s) as Hs10 by (reflect_bools; lia). clearbody s e.
  assert (∀ g : bool, match amount_ctor_named sw (mIssue a) (Z.abs s) e g, IOUAmount_ctor (if g then - Z.abs s else Z.abs s) e with
    | Return c, Return i => i = iou_of c ∧ issued_ok c ∧ mIssue c = mIssue a | Throw _, Throw _ => True | _, _ => False end) as Hend.
  { intros g. unfold amount_ctor_named. rewrite (proj2 (Z.leb_le _ _)) by lia. pose proof (ctor_agrees (mIssue a) (Z.abs s) e g Hx ltac:(lia)) as Hag.
    destruct (IOUAmount_ctor (if g then - Z.abs s else Z.abs s) e) as [i|?|?|], (amount_ctor sw (mIssue a) (Z.abs s) e g) as [c|?|?|] eqn:Hc; try done. 
    destruct (ctor_issued_ok (mIssue a) (Z.abs s) e g c Hi1 Hi2 ltac:(lia) Hc). by destruct Hag. }
  destruct (Z.leb_spec 0 s) as [Hp|Hp].
  - specialize (Hend false). by rewrite Z.abs_eq in Hend by lia; rewrite u64_id by lia.
  - specialize (Hend true). rewrite Z.abs_neq, Z.opp_involutive in Hend by lia. by rewrite u64_id by lia.
Qed.

Lemma less_issued a b : issued_ok a → issued_ok b → currency (mIssue a) = currency (mIssue b) →
  amount_less a b = Return (less (iou_of a) (iou_of b)).
Proof.
  intros Ha Hb Hcur. unfold amount_less, areComparable, less. rewrite (proj1 Ha), (proj1 Hb), Hcur, Z.eqb_refl. cbn [Bool.eqb andb negb].
  pose proof (issued_value_range a Ha) as Ra. pose proof (issued_value_range b Hb) as Rb.
  assert (∀ c, issued_ok c → (mantissa (iou_of c) <? 0) = mIsNegative c) as Hneg.
  { intros c Hc. pose proof (issued_value_range c Hc). unfold iou_of. cbn. destruct Hc as (_ & _ & _ & [(Hv & _ & ->)|(Hv & _)]); [by rewrite Hv|].
    unfold cMinValue in Hv. destruct (mIsNegative c); [apply Z.ltb_lt|apply Z.ltb_ge]; lia. }
  assert (∀ c, issued_ok c → mValue c = 0 → mIsNegative c = false) as Hnz.
  { intros c (_ & _ & _ & [(_ & _ & ?)|(Hv & _)]) H0; [done|]. unfold cMinValue in Hv. lia. }
  rewrite !Hneg by done. cbn [exponent]. change (exponent (iou_of ?c)) with (mOffset c).
  unfold iou_of. cbn [mantissa exponent]. destruct (Bool.eqb (mIsNegative a) (mIsNegative b)) eqn:Hsign; cbn [negb]; [|done]. apply eqb_prop in Hsign.
  destruct (Z.eqb_spec (mValue a) 0) as [Ha0|Ha0].
  { rewrite (Hnz a Ha Ha0) in *. rewrite <- Hsign, Ha0. cbn [Z.eqb]. destruct (Z.eqb_spec (mValue b) 0) as [->|Hb0]; [done|]. by rewrite (proj2 (Z.ltb_lt 0 _)) by lia. }
  rewrite <- Hsign. rewrite (proj2 (Z.eqb_neq (if mIsNegative a then - mValue a else mValue a) 0)) by (destruct (mIsNegative a); lia).
  destruct (Z.eqb_spec (mValue b) 0) as [Hb0|Hb0]; [rewrite Hb0; by destruct (mIsNegative a)|].
  rewrite (proj2 (Z.eqb_neq (if mIsNegative a then - mValue b else mValue b) 0)) by (destruct (mIsNegative a); lia).
  destruct (mOffset b <? mOffset a); [done|]. destruct (mOffset a <? mOffset b); [done|].
  destruct (mIsNegative a); cbn [negb]; destruct (Z.ltb_spec (mValue b) (mValue a)), (Z.ltb_spec (mValue a) (mValue b)); f_equal; symmetry; first [lia|apply Z.ltb_lt; lia|apply Z.ltb_ge; lia].
Qed.

Lemma iou_issued a : issued_ok a → iou a = Return (iou_of a).
Proof.
  intros Ha. pose proof (issued_value_range a Ha) as Hv. unfold cMaxValue in Hv. unfold iou. rewrite (proj1 Ha), i64_id by lia.
  destruct (decide (mValue a = 0)) as [H0|H0].
  - destruct Ha as (_ & _ & _ & [(_ & Ho & Hg)|(Hv' & _)]); [|unfold cMinValue in Hv'; lia]. unfold iou_of. by rewrite H0, Ho, Hg.
  - pose proof (ctor_agrees (mIssue a) (mValue a) (mOffset a) (mIsNegative a) (issued_not_xrp a Ha) ltac:(lia)) as Hag.
    rewrite (ctor_same a Ha H0) in Hag. destruct (IOUAmount_ctor _ _); [|done..]. by destruct Hag as [-> _].
Qed.

Lemma eq_issued a b : issued_ok a → issued_ok b → currency (mIssue a) = currency (mIssue b) →
  amount_eq a b = true ↔ iou_of a = iou_of b.
Proof.
  intros Ha Hb Hcur. pose proof (issued_value_range a Ha) as Ra. pose proof (issued_value_range b Hb) as Rb. unfold amount_eq, areComparable, iou_of.
  rewrite (proj1 Ha), (proj1 Hb), Hcur, Z.eqb_refl, !andb_true_iff, !eqb_true_iff, !Z.eqb_eq. split.
  - intros [[[_ ->] ->] ->]. done.
  - intros [= Hv Ho]. assert (∀ c, issued_ok c → mValue c = 0 → mIsNegative c = false) as Hnz.
    { intros c (_ & _ & _ & [(_ & _ & ?)|(Hvc & _)]) H0; [done|]. unfold cMinValue in Hvc. lia. }
    destruct (mIsNegative a) eqn:Ga, (mIsNegative b) eqn:Gb; split_and!; try done; try lia.
    + assert (mValue a = 0) as H0 by lia. by rewrite (Hnz a Ha H0) in Ga.
    + assert (mValue b = 0) as H0 by lia. by rewrite (Hnz b Hb H0) in Gb.
Qed.
End amounts.

(** C22: issued amounts compute as [IOUAmount]s.  [STAmount] and [IOUAmount]
    implement the same numbers twice.  For two well-formed issued amounts of one
    currency the conversion [iou] loses nothing, [operator<] and [operator==]
    answer what they answer for the numbers, and the sum is the sum of the numbers,
    well formed and with the issue of the first; the one throws exactly when the
    other does, and neither fails an assertion. *)
Theorem issued_amounts_agree (sw : bool) (a b : STAmount) :
  issued_ok a → issued_ok b → currency (mIssue a) = currency (mIssue b) →
  iou a = Return (iou_of a) ∧
  amount_less a b = Return (less (iou_of a) (iou_of b)) ∧
  (amount_eq a b = true ↔ iou_of a = iou_of b) ∧
  match amount_plus sw a b, plus (iou_of a) (iou_of b) with
  | Return c, Return i => i = iou_of c ∧ issued_ok c ∧ mIssue c = mIssue a
  | Throw _, Throw _ => True
  | _, _ => False
  end.
Proof.
  intros Ha Hb Hc. split; [by apply iou_issued|]. split; [by apply less_issued|]. split; [by apply eq_issued|by apply plus_issued].
Qed.

Definition usd : Issue := mkIssue 5 77.
Definition demo_price : STAmount := mkAmount usd 9090909090909091 0 false false.
Definition demo_debt : STAmount := mkAmount usd 1100000000000000 (-14) false true.

Lemma issued_amounts_agree_witness :
  issued_ok demo_price ∧ issued_ok demo_debt ∧ amount_less demo_debt demo_price = Return true ∧
  match amount_plus true demo_price demo_debt, plus (iou_of demo_price) (iou_of demo_debt) with
  | Return c, Return i => i = iou_of c ∧ issued_ok c ∧ mIssue c = usd
  | Throw _, Throw _ => True
  | _, _ => False
  end.
Proof.
  assert (issued_ok demo_price) as H1 by (apply issued_ok_intro; cbn; unfold cMinValue, cMaxValue, cMinOffset, cMaxOffset; lia).
  assert (issued_ok demo_debt) as H2 by (apply issued_ok_intro; cbn; unfold cMinValue, cMaxValue, cMinOffset, cMaxOffset; lia).
  split; [done|]. split; [done|]. split; [by rewrite (proj1 (proj2 (issued_amounts_agree true demo_debt demo_price H2 H1 eq_refl)))|].
  apply (issued_amounts_agree true demo_price demo_debt H1 H2 eq_refl).
Defined.
