(* ===== verification/STAmountWire.v ===== *)
(** * The binary form of amounts *)
From S2P Require Import Prelude Outcome Bytes IOUAmount IOUAmountSpec Serializer SerializerSpec STAmount STAmountSpec.

(** ** Bit fields *)

Lemma land_shiftl w m k : 0 ≤ k → Z.land w (Z.shiftl m k) = Z.land (w / 2 ^ k) m * 2 ^ k.
Proof.
  intros Hk. rewrite <- Z.shiftr_div_pow2, <- Z.shiftl_mul_pow2 by done. apply Z.bits_inj'. intros n Hn.
  rewrite Z.land_spec. destruct (Z.ltb_spec n k).
  - rewrite !Z.shiftl_spec_low by lia. apply andb_false_r.
  - rewrite !Z.shiftl_spec, Z.land_spec, Z.shiftr_spec by lia. by replace (n - k + k) with n by lia.
Qed.

Lemma ldiff_sub w m : Z.ldiff w m = w - Z.land w m.
Proof.
  assert (Z.land (Z.ldiff w m) (Z.land w m) = 0) as H0.
  { apply Z.bits_inj_0. intros n. rewrite !Z.land_spec, Z.ldiff_spec. by destruct (Z.testbit w n), (Z.testbit m n). }
  pose proof (Z.add_nocarry_lxor _ _ H0) as H1. rewrite Z.lxor_lor in H1 by done. rewrite Z.lor_ldiff_and in H1. lia.
Qed.

Lemma top_bit k w : 0 ≤ k → 0 ≤ w < 2 ^ (k + 1) → Z.land w (2 ^ k) = if w <? 2 ^ k then 0 else 2 ^ k.
Proof.
  intros Hk Hw. rewrite Z.pow_add_r in Hw by lia. replace (2 ^ k) with (Z.shiftl 1 k) at 1 by (rewrite Z.shiftl_mul_pow2; lia).
  rewrite land_shiftl by done. rewrite (Z.land_ones _ 1) by done. pose proof (Z.pow_pos_nonneg 2 k ltac:(done) Hk).
  destruct (Z.ltb_spec w (2 ^ k)).
  - by rewrite Z.div_small by lia.
  - replace (w / 2 ^ k) with 1; [change (1 mod 2 ^ 1) with 1; lia|]. apply Z.div_unique with (r := w - 2 ^ k); lia.
Qed.

(** Higher bytes do not matter. *)
Lemma be_bytes_high n k c v : (n ≤ k)%nat → be_bytes n (c * 2 ^ (8 * Z.of_nat k) + v) = be_bytes n v.
Proof.
  induction n as [|n IH]; intros Hle; [done|]. cbn [be_bytes]. rewrite IH by lia. f_equal. unfold u8. rewrite !Z.shiftr_div_pow2 by lia.
  replace (8 * Z.of_nat k) with (8 * Z.of_nat n + 8 + (8 * Z.of_nat k - 8 * Z.of_nat n - 8)) by lia.
  rewrite !Z.pow_add_r by lia. set (p := 2 ^ (8 * Z.of_nat n)). set (q := 2 ^ (8 * Z.of_nat k - 8 * Z.of_nat n - 8)).
  assert (0 < p) by (apply Z.pow_pos_nonneg; lia). replace (c * (p * 2 ^ 8 * q) + v) with (v + (c * q * 2 ^ 8) * p) by ring.
  rewrite Z.div_add by lia. by rewrite Z.mod_add by lia.
Qed.

Lemma be_bytes_of_value bs : Forall is_byte bs → be_bytes (length bs) (be_value bs) = bs.
Proof.
  induction 1 as [|b bs Hb Hbs IH]; [done|]. cbn [length be_bytes be_value]. pose proof (be_value_range bs Hbs) as Hr.
  rewrite be_bytes_high, IH by lia. f_equal. pose proof (Z.pow_pos_nonneg 2 (8 * Z.of_nat (length bs)) ltac:(done) ltac:(lia)).
  rewrite Z.shiftr_div_pow2, Z.add_comm, Z.div_add, Z.div_small, Z.add_0_l by lia. by apply u8_byte.
Qed.

(** ** Readers that succeeded *)

Lemma get64_inv pre rest v s' :
  Z.of_nat (length pre + length rest) < 2 ^ 63 → Forall is_byte rest → get64 (iter_at pre rest) = (Return v, s') →
  0 ≤ v < 2 ^ 64 ∧ ∃ rest', rest = be_bytes 8 v ++ rest' ∧ s' = iter_at (pre ++ be_bytes 8 v) rest'.
Proof.
  intros Hlen Hb H. destruct (decide (length rest < 8)%nat) as [Hs|Hs].
  { unfold get64 in H. erewrite ST_bind_return in H by done. rewrite throw_if_true in H; [done|]. cbn. apply Z.ltb_lt. lia. }
  do 8 (destruct rest as [|? rest]; [cbn in Hs; lia|]). clear Hs. rewrite !Forall_cons in Hb. destruct Hb as (?&?&?&?&?&?&?&?&?).
  match type of H with get64 (iter_at pre ?l) = _ => set (bs := firstn 8 l); assert (l = bs ++ rest) as Hl by done; rewrite Hl in *; clear Hl end.
  assert (Forall is_byte bs) as Hbs by (unfold bs; cbn; by rewrite !Forall_cons). assert (length bs = 8%nat) as Hl by done.
  assert (get64 (iter_at pre (bs ++ rest)) = (Return (be_value bs), iter_at (pre ++ bs) rest)) as Hr
    by (apply reads_get64; [done|rewrite length_app, Hl in Hlen; cbn [length]; lia]).
  rewrite Hr in H. injection H as <- <-. pose proof (be_value_range bs Hbs) as Hv. split; [done|].
  exists rest. change 8%nat with (length bs). by rewrite be_bytes_of_value.
Qed.

Lemma getBitString_inv n pre rest v s' :
  Z.of_nat (length pre + length rest) < 2 ^ 63 → Forall is_byte rest →
  iter_getBitString (Z.of_nat n) (iter_at pre rest) = (Return v, s') →
  length v = n ∧ Forall is_byte v ∧ ∃ rest', rest = v ++ rest' ∧ s' = iter_at (pre ++ v) rest'.
Proof.
  intros Hlen Hb H. destruct (decide (length rest < n)%nat) as [Hs|Hs].
  { unfold iter_getBitString in H. erewrite ST_bind_return in H by done. rewrite throw_if_true in H; [done|]. cbn. apply Z.ltb_lt. lia. }
  rewrite <- (take_drop n rest) in H, Hb. rewrite <- (take_drop n rest), length_app in Hlen. rewrite Forall_app in Hb.
  assert (length (take n rest) = n) as Hn by (rewrite length_take; lia). rewrite <- Hn in H at 1.
  rewrite reads_getBitString in H by lia. injection H as <- <-. split_and!; [done|apply Hb|].
  exists (drop n rest). by rewrite take_drop.
Qed.

(** ** The word of an amount *)

Definition amount_ok (a : STAmount) : Prop := native_ok a ∨ issued_ok a.

Definition sign_field (a : STAmount) : Z := if mIsNegative a then 0 else 256.

Lemma word_native a : native_ok a → amount_word a = (if mIsNegative a then 0 else 2 ^ 62) + mValue a.
Proof.
  intros (Hn & _ & _ & Hv & _). unfold amount_word, cPosNative. rewrite Hn. destruct (mIsNegative a); cbn [negb]; [done|].
  rewrite Z.lor_comm. rewrite <- (Z.mul_1_l (2 ^ 62)) at 1. by rewrite lor_disjoint, Z.mul_1_l by lia.
Qed.

Lemma word_issued a : issued_ok a → mValue a ≠ 0 →
  amount_word a = (609 + sign_field a + mOffset a) * 2 ^ 54 + mValue a ∧ 513 ≤ 609 + sign_field a + mOffset a < 946.
Proof.
  intros Ha H0. pose proof (issued_zero a Ha) as Hz. destruct Ha as (Hn & _ & _ & [(? & _)|(Hv & Ho)]); [done|].
  unfold amount_word, sign_field, cMinValue, cMaxValue, cMinOffset, cMaxOffset in *. rewrite Hn, Hz, (proj2 (Z.eqb_neq _ _)) by done.
  destruct (mIsNegative a); (split; [|lia]); rewrite (u64_id (_ + _)) by lia; rewrite Z.shiftl_mul_pow2, u64_id by lia;
    rewrite Z.lor_comm, lor_disjoint by lia; lia.
Qed.

(** The fields of the word of an issued amount. *)
Lemma word_fields w : 2 ^ 63 ≤ w < 2 ^ 64 →
  let h := w / 2 ^ 54 in
  512 ≤ h < 1024 ∧ Z.shiftr w 54 = h ∧ Z.ldiff w (Z.shiftl 1023 54) = w mod 2 ^ 54 ∧
  (Z.land h 256 =? 0) = (h <? 768) ∧ Z.land h 255 = (if h <? 768 then h - 512 else h - 768).
Proof.
  intros Hw h. assert (512 ≤ h < 1024) as Hh by (split; [apply Z.div_le_lower_bound; lia|apply Z.div_lt_upper_bound; lia]).
  split; [done|]. split; [by rewrite Z.shiftr_div_pow2|]. split.
  { rewrite ldiff_sub, land_shiftl by lia. fold h. change 1023 with (Z.ones 10). rewrite Z.land_ones, Z.mod_small by lia. unfold h. pose proof (Z.div_mod w (2 ^ 54) ltac:(lia)). lia. }
  change 255 with (Z.ones 8). rewrite (Z.land_ones h 8) by lia. change 256 with (Z.shiftl 1 8) at 1. rewrite land_shiftl by lia. change 1 with (Z.ones 1). rewrite Z.land_ones by lia. clearbody h. clear Hw w.
  pose proof (Z.div_mod h (2 ^ 8) ltac:(lia)). pose proof (Z.mod_pos_bound h (2 ^ 8) ltac:(lia)). change (2 ^ 8) with 256 in *.
  destruct (Z.ltb_spec h 768).
  - assert (h / 256 = 2) as -> by lia. split; [done|lia].
  - assert (h / 256 = 3) as -> by lia. split; [done|lia].
Qed.

Definition amount_bytes (a : STAmount) : list Z :=
  be_bytes 8 (amount_word a) ++
  (if mIsNative a then [] else be_bytes 20 (currency (mIssue a)) ++ be_bytes 20 (account (mIssue a))).

Lemma add_amount a d : amount_ok a → Z.of_nat (length d) + 48 < 2 ^ 31 → amount_add a d = (Return (), d ++ amount_bytes a).
Proof.
  intros Ha Hd. unfold amount_add, amount_bytes. destruct Ha as [(-> & _ & -> & _)|(-> & _)].
  - cbn [Z.eqb]. erewrite ST_bind_return by done. erewrite ST_bind_return by (apply writes_add64; lia). by rewrite app_nil_r.
  - erewrite ST_bind_return by (apply writes_add64; lia).
    erewrite ST_bind_return by (apply writes_addRaw; rewrite length_app, length_be_bytes; lia).
    erewrite ST_bind_return by (apply writes_addRaw; rewrite !length_app, !length_be_bytes; lia). by rewrite <- !(assoc_L (++)).
Qed.

Section read.
Context (sw : bool).

Lemma reads_native a : native_ok a → reads (amount_read sw) (amount_bytes a) a.
Proof.
  intros Ha. pose proof (word_native a Ha) as Hw. destruct Ha as (Hn & Hi & Ho & Hv & Hneg). unfold amount_bytes. rewrite Hn.
  assert (0 ≤ amount_word a < 2 ^ 63) as Hr by (destruct (mIsNegative a); lia).
  eapply reads_bind; [apply reads_64; lia|]. unfold cNotNative, cPosNative. rewrite (top_bit 63), (proj2 (Z.ltb_lt _ _)) by lia. cbn [Z.eqb].
  rewrite (top_bit 62) by lia. destruct a as [i v o n g]. cbn [mIssue mValue mOffset mIsNative mIsNegative] in *. subst i o n. destruct g.
  - specialize (Hneg eq_refl). rewrite Hw, Z.add_0_l, (proj2 (Z.ltb_lt _ _)) by lia. change (0 =? 0) with true. cbn [negb]. rewrite (proj2 (Z.eqb_neq v 0)) by lia. apply reads_ret.
  - rewrite (proj2 (Z.ltb_ge _ _)) by lia. change (2 ^ 62 =? 0) with false. cbn [negb]. rewrite ldiff_sub, (top_bit 62), (proj2 (Z.ltb_ge _ _)) by lia.
    replace (amount_word _ - 2 ^ 62) with v by lia. apply reads_ret.
Qed.

Lemma word_issued_range a : issued_ok a → 2 ^ 63 ≤ amount_word a < 2 ^ 64 ∧ (mValue a = 0 → amount_word a = 2 ^ 63).
Proof.
  intros Ha. destruct (decide (mValue a = 0)) as [H0|H0].
  - assert (amount_word a = 2 ^ 63) as ->; [|lia]. unfold amount_word. by rewrite (proj1 Ha), issued_zero, H0.
  - destruct (word_issued a Ha H0) as [-> Hf]. pose proof (issued_value_range a Ha). unfold cMaxValue in *. lia.
Qed.

Lemma reads_word a : issued_ok a → reads (issued_of_word sw (mIssue a) (amount_word a)) [] a.
Proof.
  intros Ha. destruct (word_issued_range a Ha) as [Hr Hz]. pose proof Ha as (Hn & Hc & Hac & Hform). unfold issued_of_word. cbv zeta.
  destruct (word_fields (amount_word a) Hr) as (Hh & Hs & Hl & Hneg & Hoff). rewrite Hs, Hl, Hneg, Hoff. destruct (decide (mValue a = 0)) as [H0|H0].
  - rewrite (Hz H0). change (2 ^ 63 mod 2 ^ 54) with 0. change (2 ^ 63 / 2 ^ 54) with 512. cbn [Z.eqb negb]. apply reads_throw_if_bind; [done|].
    apply reads_slift. unfold canonicalize. rewrite issued_not_xrp by done. cbn. f_equal. destruct Hform as [(H1 & H2 & H3)|(H1 & _)]; [|unfold cMinValue in *; lia].
    destruct a as [? v o n g]. cbn in *. by subst.
  - destruct (word_issued a Ha H0) as [Hw Hf]. pose proof (issued_value_range a Ha) as Hv.
    destruct Hform as [(? & _)|(Hvr & Hor)]; [done|]. unfold cMinValue, cMaxValue, cMinOffset, cMaxOffset in *.
    assert (amount_word a / 2 ^ 54 = 609 + sign_field a + mOffset a) as -> by (rewrite Hw, Z.add_comm, Z.div_add, Z.div_small; lia).
    assert (amount_word a mod 2 ^ 54 = mValue a) as -> by (rewrite Hw, Z.add_comm, Z.mod_add, Z.mod_small; lia).
    rewrite (proj2 (Z.eqb_neq (mValue a) 0)) by done. cbn [negb].
    assert ((609 + sign_field a + mOffset a <? 768) = mIsNegative a) as ->.
    { unfold sign_field. destruct (mIsNegative a); [apply Z.ltb_lt|apply Z.ltb_ge]; lia. }
    assert ((if mIsNegative a then 609 + sign_field a + mOffset a - 512 else 609 + sign_field a + mOffset a - 768) - 97 = mOffset a) as ->.
    { unfold sign_field. destruct (mIsNegative a); lia. }
    apply reads_throw_if_bind; [rewrite !orb_false_iff, !Z.ltb_ge; lia|]. apply reads_slift. apply (ctor_same sw a Ha H0).
Qed.

Lemma reads_amount a : amount_ok a → reads (amount_read sw) (amount_bytes a) a.
Proof.
  intros [Ha|Ha]; [by apply reads_native|]. destruct (word_issued_range a Ha) as [Hr _]. pose proof Ha as (Hn & Hc & Hac & _).
  assert (∀ x, reads (iter_getBitString 20) (be_bytes 20 x) (be_bytes 20 x)) as Hbits.
  { intros x. pose proof (reads_getBitString (be_bytes 20 x)) as H. by rewrite length_be_bytes in H. }
  unfold amount_bytes. rewrite Hn. eapply reads_bind; [apply reads_64; lia|]. unfold cNotNative, cPosNative. rewrite (top_bit 63), (proj2 (Z.ltb_ge _ _)) by lia.
  change (2 ^ 63 =? 0) with false. eapply reads_bind; [apply Hbits|]. rewrite be_value_read by (cbn; lia).
  apply reads_throw_if_bind; [apply Z.eqb_neq; lia|]. rewrite <- (app_nil_r (be_bytes 20 (account _))). eapply reads_bind; [apply Hbits|].
  rewrite be_value_read by (cbn; lia). apply reads_throw_if_bind; [apply Z.eqb_neq; lia|].
  pose proof (reads_word a Ha) as Hw. by destruct (mIssue a).
Qed.

(** Only the words of well-formed amounts are accepted. *)
Lemma native_word_inv w a : 0 ≤ w < 2 ^ 63 →
  a = (if w <? 2 ^ 62 then mkAmount xrpIssue w 0 true true else mkAmount xrpIssue (w - 2 ^ 62) 0 true false) → w ≠ 0 →
  native_ok a ∧ amount_word a = w.
Proof.
  intros Hw -> H0. destruct (Z.ltb_spec w (2 ^ 62)).
  - assert (native_ok (mkAmount xrpIssue w 0 true true)) as Ha by (unfold native_ok; cbn [mIssue mValue mOffset mIsNative mIsNegative]; split_and!; done || lia).
    by rewrite (word_native _ Ha).
  - assert (native_ok (mkAmount xrpIssue (w - 2 ^ 62) 0 true false)) as Ha by (unfold native_ok; cbn [mIssue mValue mOffset mIsNative mIsNegative]; split_and!; done || lia).
    rewrite (word_native _ Ha). cbn [mIsNegative mValue]. split; [done|lia].
Qed.

Lemma issued_word_inv issue w a s s' : 0 < currency issue < 2 ^ 160 → 0 < account issue < 2 ^ 160 → 2 ^ 63 ≤ w < 2 ^ 64 →
  issued_of_word sw issue w s = (Return a, s') → issued_ok a ∧ amount_word a = w ∧ mIssue a = issue ∧ s' = s.
Proof.
  intros Hi1 Hi2 Hw H. assert (isXRP issue = false) as Hx by (apply Z.eqb_neq; lia). unfold issued_of_word in H. cbv zeta in H.
  destruct (word_fields w Hw) as (Hh & Hs & Hl & Hneg & Hoff). rewrite Hs, Hl, Hneg, Hoff in H.
  pose proof (Z.div_mod w (2 ^ 54) ltac:(lia)) as Hdm.
  destruct (Z.eqb_spec (w mod 2 ^ 54) 0) as [H0|H0]; cbn [negb] in H; apply ST_bind_inv in H as ([] & s1 & Ht & H); unfold throw_if in Ht.
  - destruct (Z.eqb_spec (w / 2 ^ 54) 512); [|done]. injection Ht as <-. unfold slift, canonicalize in H. rewrite Hx in H. injection H as <- <-.
    change (amount_word _) with (2 ^ 63). split_and!; [|lia|done|done]. split_and!; [done|apply Hi1|apply Hi1|apply Hi2|apply Hi2|by left].
  - set (g := w / 2 ^ 54 <? 768) in *. set (o := (if g then w / 2 ^ 54 - 512 else w / 2 ^ 54 - 768) - 97) in *.
    destruct ((w mod 2 ^ 54 <? cMinValue) || (cMaxValue <? w mod 2 ^ 54) || (o <? cMinOffset) || (cMaxOffset <? o)) eqn:Hrange; [done|].
    injection Ht as <-. rewrite !orb_false_iff, !Z.ltb_ge in Hrange. set (b := mkAmount issue (w mod 2 ^ 54) o false g).
    assert (issued_ok b) as Hb by (apply issued_ok_intro; lia || done). unfold slift in H.
    change (canonicalize sw _) with (amount_ctor sw (mIssue b) (mValue b) (mOffset b) (mIsNegative b)) in H. rewrite (ctor_same sw b Hb H0) in H. injection H as <- <-.
    destruct (word_issued b Hb H0) as [-> _]. unfold sign_field. cbn [mIsNegative mOffset mValue b]. split_and!; [done| |done|done].
    assert (w / 2 ^ 54 = 609 + (if g then 0 else 256) + o) by (unfold o, g; destruct (w / 2 ^ 54 <? 768); lia). lia.
Qed.

(** A bit string that was read and tested. *)
Lemma tested_bits_inv {A} what (k : list Z → ST SerialIter A) pre rest a s' :
  Z.of_nat (length pre + length rest) < 2 ^ 63 → Forall is_byte rest →
  (c ← iter_getBitString 20; throw_if (be_value c =? 0) what;; k c) (iter_at pre rest) = (Return a, s') →
  ∃ x rest', 0 < x < 2 ^ 160 ∧ rest = be_bytes 20 x ++ rest' ∧ Forall is_byte rest' ∧ Z.of_nat (length (pre ++ be_bytes 20 x) + length rest') < 2 ^ 63 ∧
    be_value (be_bytes 20 x) = x ∧ k (be_bytes 20 x) (iter_at (pre ++ be_bytes 20 x) rest') = (Return a, s').
Proof.
  intros Hlen Hb H. apply ST_bind_inv in H as (c & s1 & Hc & H). apply (getBitString_inv 20) in Hc as (Hc & Hcb & rest' & -> & ->); [|done..].
  apply ST_bind_inv in H as ([] & s1 & Ht & H). unfold throw_if in Ht. destruct (Z.eqb_spec (be_value c) 0) as [|Hc0]; [done|]. injection Ht as <-.
  pose proof (be_value_range c Hcb) as Rc. rewrite Hc in Rc. change (2 ^ (8 * Z.of_nat 20)) with (2 ^ 160) in Rc.
  assert (be_bytes 20 (be_value c) = c) as Hv by (rewrite <- Hc; by apply be_bytes_of_value). exists (be_value c), rest'. rewrite !Hv.
  apply Forall_app in Hb as [_ Hb]. rewrite length_app in *. split_and!; (done || lia).
Qed.

Lemma amount_read_inv pre rest a s' :
  Z.of_nat (length pre + length rest) < 2 ^ 63 → Forall is_byte rest → amount_read sw (iter_at pre rest) = (Return a, s') →
  amount_ok a ∧ ∃ rest', rest = amount_bytes a ++ rest' ∧ s' = iter_at (pre ++ amount_bytes a) rest'.
Proof.
  intros Hlen Hb H. apply ST_bind_inv in H as (w & s1 & Hw & H). apply get64_inv in Hw as (Hw & rest1 & -> & ->); [|done..].
  pose proof (length_be_bytes 8 w) as Hwb. remember (be_bytes 8 w) as wb eqn:Ewb. rewrite length_app in Hlen. apply Forall_app in Hb as [_ Hb]. unfold cNotNative, cPosNative in H.
  rewrite (top_bit 63) in H by lia. destruct (Z.ltb_spec w (2 ^ 63)) as [Hnat|Hiss].
  - cbn [Z.eqb] in H. rewrite (top_bit 62) in H by lia.
    assert (native_ok a ∧ amount_word a = w ∧ s' = iter_at (pre ++ wb) rest1) as (Ha & Haw & ->).
    { enough ((a = (if w <? 2 ^ 62 then mkAmount xrpIssue w 0 true true else mkAmount xrpIssue (w - 2 ^ 62) 0 true false) ∧ w ≠ 0) ∧ s' = iter_at (pre ++ wb) rest1)
        as [[Heq H0] ->] by (by destruct (native_word_inv w a ltac:(lia) Heq H0)).
      destruct (Z.ltb_spec w (2 ^ 62)).
      - change (0 =? 0) with true in H. cbn [negb] in H. destruct (Z.eqb_spec w 0); [done|]. by injection H as <- <-.
      - change (2 ^ 62 =? 0) with false in H. cbn [negb] in H. injection H as <- <-. rewrite ldiff_sub, (top_bit 62), (proj2 (Z.ltb_ge w (2 ^ 62))) by lia. split_and!; [done|lia|done]. }
    split; [by left|]. exists rest1. unfold amount_bytes. by rewrite Haw, (proj1 Ha), app_nil_r, <- Ewb.
  - change (2 ^ 63 =? 0) with false in H. cbn iota in H.
    apply tested_bits_inv in H as (c & rest2 & Hc & -> & Hb2 & Hlen2 & Hcv & H); [|rewrite length_app; lia|done].
    apply tested_bits_inv in H as (ac & rest3 & Hac & -> & Hb3 & Hlen3 & Hacv & H); [|done..]. rewrite Hcv, Hacv in H.
    apply issued_word_inv in H as (Ha & Haw & Hi & ->); [|done|done|lia]. split; [by right|]. exists rest3. unfold amount_bytes.
    rewrite Haw, (proj1 Ha), Hi, <- Ewb. cbn [currency account]. by rewrite <- !(assoc_L (++)).
Qed.
End read.

(** C21: amounts survive the wire, and each has one form on it.  A well-formed
    amount is written without failing an assertion, and read back it is the same
    amount, whatever follows.  Whenever the constructor from a [SerialIter]
    returns, the amount is well formed and the bytes consumed are those that are
    written for it: no two strings of bytes are read as one amount. *)
Theorem amounts_wire_roundtrip (sw : bool) :
  (∀ a d pre rest, amount_ok a → Z.of_nat (length d) + 48 < 2 ^ 31 →
     Z.of_nat (length pre + length (amount_bytes a) + length rest) < 2 ^ 63 →
     amount_add a d = (Return (), d ++ amount_bytes a) ∧
     amount_read sw (iter_at pre (amount_bytes a ++ rest)) = (Return a, iter_at (pre ++ amount_bytes a) rest)) ∧
  (∀ pre rest a s', Z.of_nat (length pre + length rest) < 2 ^ 63 → Forall is_byte rest →
     amount_read sw (iter_at pre rest) = (Return a, s') →
     amount_ok a ∧ ∃ rest', rest = amount_bytes a ++ rest' ∧ s' = iter_at (pre ++ amount_bytes a) rest').
Proof.
  split.
  - intros a d pre rest Ha Hd Hlen. split; [by apply add_amount|by apply reads_amount].
  - intros pre rest a s'. apply amount_read_inv.
Qed.

Lemma amounts_wire_roundtrip_witness :
  amount_add demo_debt [] = (Return (), amount_bytes demo_debt) ∧
  amount_read true (iter_at [] (amount_bytes demo_debt ++ [7])) = (Return demo_debt, iter_at (amount_bytes demo_debt) [7]) ∧
  length (amount_bytes demo_debt) = 48%nat.
Proof.
  assert (amount_ok demo_debt) as H by (right; apply issued_ok_intro; cbn; unfold cMinValue, cMaxValue, cMinOffset, cMaxOffset; lia).
  destruct (proj1 (amounts_wire_roundtrip true) demo_debt [] [] [7] H) as [H1 H2]; [cbn; lia|vm_compute; done|].
  split; [exact H1|]. split; [exact H2|]. vm_compute. reflexivity.
Defined.
