(* ===== verification/STAmountRate.v ===== *)
(** * Products, quotients and rates of amounts *)
From S2P Require Import Prelude Outcome Bytes IOUAmount IOUAmountSpec Serializer STAmount STAmountSpec STAmountWire.

(** ** Operands *)

(** Amounts of offers and balances: positive, and no more drops than there are. *)
Definition positive_ok (a : STAmount) : Prop :=
  (native_ok a ∨ issued_ok a) ∧ mIsNegative a = false ∧ mValue a ≠ 0 ∧ (mIsNative a = true → mValue a ≤ cMaxNativeN).

(** The value in units of 10^-96. *)
Definition units_of (a : STAmount) : Z := mValue a * 10 ^ (mOffset a + 96).

Lemma bring_up_spec fuel v o : 0 < v → cMinValue ≤ v * 10 ^ Z.of_nat fuel →
  ∃ k, 0 ≤ k ≤ Z.of_nat fuel ∧ bring_up fuel v o = Return (v * 10 ^ k, o - k) ∧ cMinValue ≤ v * 10 ^ k ∧ (k = 0 ∨ v * 10 ^ k ≤ cMaxValue).
Proof.
  unfold cMinValue, cMaxValue. revert v o. induction fuel as [|fuel IH]; intros v o Hv Hf; cbn [bring_up]; unfold cMinValue; destruct (Z.ltb_spec v 1000000000000000) as [Hlt|Hge].
  1: change (10 ^ Z.of_nat 0) with 1 in Hf; lia.
  2: rewrite u64_id by lia; destruct (IH (v * 10) (o - 1)) as (k & Hk & Heq & Hmin & Hmax); [lia| |];
     [rewrite Nat2Z.inj_succ, Z.pow_succ_r in Hf by lia; lia|].
  2: exists (k + 1); rewrite pow10_succ by lia; replace (v * (10 * 10 ^ k)) with (v * 10 * 10 ^ k) by lia; replace (o - (k + 1)) with (o - 1 - k) by lia;
     split_and!; [lia|lia|done|done|]; right; destruct Hmax as [->|?]; [|done]; change (10 ^ 0) with 1; lia.
  all: exists 0; rewrite Z.pow_0_r, Z.mul_1_r, Z.sub_0_r; split_and!; (lia || done || by left).
Qed.

Lemma operand_ok a : positive_ok a →
  is_zero a = false ∧ ∃ v o, in_range_of a = Return (v, o) ∧ cMinValue ≤ v ≤ cMaxNativeN ∧ -96 ≤ o ≤ 80 ∧ units_of a = v * 10 ^ (o + 96) ∧
    (mIsNative a = false → v ≤ cMaxValue).
Proof.
  unfold cMinValue, cMaxNativeN. intros (Hok & Hneg & H0 & Hmax). split.
  { unfold is_zero, amount_signum. by rewrite (proj2 (Z.eqb_neq (mValue a) 0)), Hneg by done. }
  unfold in_range_of, units_of. destruct Hok as [(Hn & _ & Ho & Hv & _)|(Hn & _ & _ & [(? & _)|(Hv & Ho)])]; [|done|]; rewrite Hn in *.
  - specialize (Hmax eq_refl). unfold cMaxNativeN in Hmax. rewrite Ho.
    destruct (bring_up_spec 15 (mValue a) 0) as (k & Hk & -> & Hmin & Hm); [lia|unfold cMinValue; change (10 ^ Z.of_nat 15) with 1000000000000000; lia|].
    unfold cMinValue, cMaxValue in *. exists (mValue a * 10 ^ k), (0 - k). split_and!; try lia.
    + done.
    + destruct Hm as [->|Hm]; [rewrite Z.pow_0_r; lia|lia].
    + rewrite <- Z.mul_assoc, <- pow10_add by lia. do 2 f_equal. lia.
  - unfold cMinValue, cMaxValue, cMinOffset, cMaxOffset in *. exists (mValue a), (mOffset a). split_and!; (done || lia).
Qed.

(** ** Scaling a mantissa that is large enough *)

Lemma scaled_large m e m2 e2 : minMantissa < m → minMantissa ≤ m2 ≤ maxMantissa → scaled_to m e m2 e2 → ∃ j, 0 ≤ j ∧ e2 = e + j ∧ m2 = m / 10 ^ j.
Proof.
  unfold minMantissa, maxMantissa. intros Hm Hm2 [[He Heq]|[He Heq]].
  - exists 0. destruct (decide (e2 = e)) as [->|Hne]; [rewrite Z.sub_diag in Heq; rewrite Z.pow_0_r, Z.div_1_r in *; lia|].
    pose proof (pow10_mono 1 (e - e2)). nia.
  - exists (e2 - e). rewrite Z.quot_div_nonneg in Heq by (try apply pow10_pos; lia). split_and!; [lia|lia|done].
Qed.

(** ** Quotients *)

Lemma noIssue_issued : isXRP noIssue = false.
Proof. done. Qed.

(** [r] at exponent [e] is the quotient [n * 10^17 / d], a little off. *)
Definition near (n d m2 j : Z) : Prop :=
  m2 * 10 ^ j * d * 10 ^ 15 ≤ n * 10 ^ 17 * (10 ^ 15 + 5) ∧ n * 10 ^ 17 * 10 ^ 15 ≤ m2 * 10 ^ j * d * (10 ^ 15 + 1).

Lemma quotient_near n d m2 j : 10 ^ 15 ≤ n ≤ 10 ^ 17 → 10 ^ 15 ≤ d ≤ 10 ^ 17 → 0 ≤ j →
  10 ^ 15 ≤ m2 → m2 = (n * 10 ^ 17 / d + 5) / 10 ^ j → near n d m2 j.
Proof.
  intros Hn Hd Hj Hm2 Heq. unfold near. pose proof (pow10_pos j Hj) as Hp. set (p := 10 ^ j) in *. clearbody p. set (N := n * 10 ^ 17) in *.
  pose proof (Z.div_mod N d ltac:(lia)) as H1. pose proof (Z.mod_pos_bound N d ltac:(lia)) as H2. set (q := N / d) in *. clearbody q. set (r := N mod d) in *. clearbody r.
  pose proof (Z.div_mod (q + 5) p ltac:(lia)) as H3. pose proof (Z.mod_pos_bound (q + 5) p ltac:(lia)) as H4. rewrite <- Heq in H3. set (s := (q + 5) mod p) in *. clearbody s.
  assert (m2 * p ≤ q + 5) as Hup by lia. assert (q + 6 ≤ (m2 + 1) * p) as Hlow by lia. split.
  - assert (m2 * p * d ≤ N + 5 * d) by nia. assert (5 * d * 10 ^ 15 ≤ N * 5) by (unfold N; lia). lia.
  - assert (N ≤ (q + 1) * d) by lia. assert (N ≤ (m2 + 1) * p * d) by nia. assert (p * d * 10 ^ 15 ≤ m2 * p * d) by nia. nia.
Qed.

(** The value [r], in units of 10^-96, of a quotient of [A] and [B]. *)
Definition close (A B r : Z) : Prop :=
  r * B * 10 ^ 15 ≤ A * 10 ^ 96 * (10 ^ 15 + 5) ∧ A * 10 ^ 96 * 10 ^ 15 ≤ r * B * (10 ^ 15 + 1).

Lemma near_close n no d do m2 j : -96 ≤ no → -96 ≤ do → 0 ≤ j → -96 ≤ no - do - 17 + j → near n d m2 j →
  close (n * 10 ^ (no + 96)) (d * 10 ^ (do + 96)) (m2 * 10 ^ (no - do - 17 + j + 96)).
Proof.
  intros Hno Hdo Hj He [H1 H2]. set (K := 10 ^ 96 * 10 ^ (no + 96)). assert (0 < K) as HK by (apply Z.mul_pos_pos; apply pow10_pos; lia).
  assert (m2 * 10 ^ (no - do - 17 + j + 96) * (d * 10 ^ (do + 96)) * 10 ^ 17 = m2 * 10 ^ j * d * K) as Hr.
  { unfold K. transitivity (m2 * d * (10 ^ (no - do - 17 + j + 96) * 10 ^ (do + 96) * 10 ^ 17)); [ring|].
    transitivity (m2 * d * (10 ^ j * 10 ^ 96 * 10 ^ (no + 96))); [|ring]. rewrite <- !pow10_add by lia. do 2 f_equal. lia. }
  unfold close. set (R := m2 * 10 ^ (no - do - 17 + j + 96) * (d * 10 ^ (do + 96))) in *.
  assert (n * 10 ^ (no + 96) * 10 ^ 96 = n * K) as -> by (unfold K; ring). clearbody R. set (Q := m2 * 10 ^ j * d) in *. clearbody Q. clearbody K.
  split; nia.
Qed.

(** A quotient too large or too small for an amount. *)
Lemma quotient_huge n no d do m : -96 ≤ no → -96 ≤ do → 0 < m → 0 < d → m * d * 10 ^ 15 ≤ n * 10 ^ 17 * (10 ^ 15 + 5) →
  huge m (no - do - 17) → d * 10 ^ (do + 96) * 10 ^ 111 ≤ n * 10 ^ (no + 96) * (10 ^ 15 + 5).
Proof.
  unfold huge, maxMantissa, maxExponent. intros Hno Hdo Hm Hd Hq. rewrite Z.abs_eq by lia. set (e := no - do - 17). set (b := Z.min e 80). intros Hh.
  assert (d * 10 ^ (111 - b) ≤ n * (10 ^ 15 + 5) * 10 ^ (17 + (e - b))) as H.
  { replace (111 - b) with (15 + (16 + (80 - b))) by lia. rewrite !pow10_add by lia. change (9999999999999999 + 1) with (10 ^ 16) in Hh.
    assert (0 < 10 ^ (e - b)) by (apply pow10_pos; lia). set (p := 10 ^ (e - b)) in *. set (r := 10 ^ (80 - b)) in *. clearbody p r.
    transitivity (d * 10 ^ 15 * (m * p)); [|nia]. rewrite Z.mul_assoc. apply Z.mul_le_mono_nonneg_l; lia. }
  apply (scale_le _ _ _ _ (do + 96 + 111) (no + 96)) in H; [|lia..]. rewrite (pow10_add (do + 96)) in H by lia. lia.
Qed.

Lemma quotient_tiny n no d do m : -96 ≤ no → -96 ≤ do → 0 < m → 0 < d → n * 10 ^ 17 < m * d →
  tiny m (no - do - 17) → n * 10 ^ (no + 96) * 10 ^ 81 < d * 10 ^ (do + 96).
Proof.
  unfold tiny, minMantissa, minExponent. intros Hno Hdo Hm Hd Hq. rewrite Z.abs_eq by lia. set (e := no - do - 17). set (b := Z.min e (-96)). intros Ht.
  assert (n * 10 ^ (17 + (e - b)) < d * 10 ^ (15 + (-96 - b))) as H.
  { rewrite !pow10_add by lia. change 1000000000000000 with (10 ^ 15) in Ht.
    assert (0 < 10 ^ (e - b)) by (apply pow10_pos; lia). set (p := 10 ^ (e - b)) in *. set (r := 10 ^ (-96 - b)) in *. clearbody p r.
    apply (Z.le_lt_trans _ (d * (m * p))); [nia|]. apply Z.mul_lt_mono_pos_l; lia. }
  apply (scale_lt _ _ _ _ (no + 96 + 81) (do + 96)) in H; [|lia..]. by rewrite (pow10_add (no + 96)), Z.mul_assoc in H by lia.
Qed.

Section rates.
Context (sw : bool).

Lemma divide_spec num den : positive_ok num → positive_ok den →
  match divide sw num den noIssue with
  | Return r => (mValue r = 0 ∧ units_of num * 10 ^ 81 < units_of den) ∨
      ∃ m e, r = mkAmount noIssue m e false false ∧ cMinValue ≤ m ≤ cMaxValue ∧ -96 ≤ e ≤ 80 ∧
        close (units_of num) (units_of den) (m * 10 ^ (e + 96))
  | Throw _ => units_of den * 10 ^ 111 ≤ units_of num * (10 ^ 15 + 5)
  | Abort _ | NoFuel => False
  end.
Proof.
  intros Hn Hd. destruct (operand_ok num Hn) as (Zn & n & no & En & Rn & On & -> & _). destruct (operand_ok den Hd) as (Zd & d & do & Ed & Rd & Od & -> & _).
  unfold divide. rewrite Zd, Zn, En, Ed. cbn [mbind exc_bind]. unfold cMinValue, cMaxNativeN in Rn, Rd.
  unfold muldiv. rewrite (proj2 (Z.eqb_neq d 0)) by lia. change tenTo17 with (10 ^ 17).
  assert (10 ^ 15 ≤ n * 10 ^ 17 / d ≤ 10 ^ 19) as Hq by (split; [apply Z.div_le_lower_bound|apply Z.div_le_upper_bound]; lia).
  rewrite (proj2 (Z.ltb_ge _ _)) by lia. cbn [mbind exc_bind]. rewrite u64_id by lia.
  destruct Hn as (_ & Nn & _), Hd as (_ & Nd & _). rewrite Nn, Nd. cbn [Bool.eqb negb].
  pose proof (ctor_issued sw noIssue (n * 10 ^ 17 / d + 5) (no - do - 17) false noIssue_issued ltac:(lia)) as Hc.
  pose proof (Z.div_mod (n * 10 ^ 17) d ltac:(lia)) as H1. pose proof (Z.mod_pos_bound (n * 10 ^ 17) d ltac:(lia)) as H2.
  destruct (amount_ctor sw noIssue (n * 10 ^ 17 / d + 5) (no - do - 17) false) as [r|?|?|]; [| |done..].
  2: { apply (quotient_huge n no d do (n * 10 ^ 17 / d + 5)); [lia..| |done]. assert (5 * d * 10 ^ 15 ≤ n * 10 ^ 17 * 5) by lia. nia. }
  destruct Hc as [[-> Ht]|(m2 & e2 & -> & Hm2 & He2 & Hs)].
  - left. split; [done|]. apply (quotient_tiny n no d do (n * 10 ^ 17 / d + 5)); [lia..|nia|done].
  - right. exists m2, e2. split; [done|]. split; [done|]. split; [done|].
    destruct (scaled_large (n * 10 ^ 17 / d + 5) _ _ _ ltac:(unfold minMantissa; lia) Hm2 Hs) as (j & Hj & -> & Hdiv). unfold cMinOffset in He2.
    apply near_close; [lia..|]. unfold cMinValue in Hm2. apply quotient_near; lia || done.
Qed.

(** A rate: the exponent in the top byte and the mantissa below it. *)
Lemma rate_word m e : cMinValue ≤ m ≤ cMaxValue → -96 ≤ e ≤ 80 →
  let r := mkAmount noIssue m e false false in
  let w := (e + 100) * 2 ^ 56 + m in
  Z.lor (u64 (Z.shiftl (u64 (e + 100)) 56)) m = w ∧ 0 < w ∧ amountFromQuality sw w = Return r.
Proof.
  intros Hm He r w. unfold cMinValue, cMaxValue in Hm. split.
  { rewrite (u64_id (e + 100)), Z.shiftl_mul_pow2, u64_id by lia. apply lor_disjoint; lia. }
  split; [lia|]. unfold amountFromQuality. rewrite (proj2 (Z.eqb_neq w 0)) by lia.
  assert (w / 2 ^ 56 = e + 100) as Hd by (unfold w; rewrite Z.add_comm, Z.div_add, Z.div_small by lia; lia).
  rewrite ldiff_sub, land_shiftl, Z.shiftr_div_pow2, Hd by lia. change 255 with (Z.ones 8). rewrite Z.land_ones, Z.mod_small by lia.
  replace (w - (e + 100) * 2 ^ 56) with m by lia. replace (e + 100 - 100) with e by lia.
  apply (ctor_same sw r); [|cbn; lia]. by apply issued_ok_intro.
Qed.

Lemma getRate_spec offerOut offerIn : positive_ok offerOut → positive_ok offerIn →
  ∃ r, getRate sw offerOut offerIn = Return r ∧
    ((r = 0 ∧ (units_of offerIn * 10 ^ 81 < units_of offerOut ∨ units_of offerOut * 10 ^ 111 ≤ units_of offerIn * (10 ^ 15 + 5))) ∨
     ∃ m e, r = (e + 100) * 2 ^ 56 + m ∧ cMinValue ≤ m ≤ cMaxValue ∧ -96 ≤ e ≤ 80 ∧
       close (units_of offerIn) (units_of offerOut) (m * 10 ^ (e + 96)) ∧
       amountFromQuality sw r = divide sw offerIn offerOut noIssue).
Proof.
  intros Ho Hi. unfold getRate. destruct (operand_ok offerOut Ho) as [-> _]. pose proof (divide_spec offerIn offerOut Hi Ho) as Hd.
  destruct (divide sw offerIn offerOut noIssue) as [q|?|?|]; [|exists 0; eauto|done..].
  destruct Hd as [[H0 Ht]|(m & e & -> & Hm & He & Hc)].
  { exists 0. unfold is_zero, amount_signum. rewrite H0. cbn. eauto. }
  destruct (rate_word m e Hm He) as (Hw & Hpos & Hq). exists ((e + 100) * 2 ^ 56 + m).
  assert (is_zero (mkAmount noIssue m e false false) = false) as ->.
  { unfold is_zero, amount_signum. cbn [mValue mIsNegative]. unfold cMinValue in Hm. by rewrite (proj2 (Z.eqb_neq m 0)) by lia. }
  cbn [mOffset mValue]. rewrite (proj2 (Z.leb_le _ _)), (proj2 (Z.leb_le _ _)) by lia. cbn [andb]. rewrite Hw. split; [done|]. right. exists m, e. split; [done|]. by repeat (split; [done|]).
Qed.

Lemma rate_order m e m' e' : cMinValue ≤ m ≤ cMaxValue → -96 ≤ e → cMinValue ≤ m' ≤ cMaxValue → -96 ≤ e' →
  (e' + 100) * 2 ^ 56 + m' ≤ (e + 100) * 2 ^ 56 + m → m' * 10 ^ (e' + 96) ≤ m * 10 ^ (e + 96).
Proof.
  unfold cMinValue, cMaxValue. intros Hm He Hm' He' Hle. assert (e' ≤ e) as Hee by lia. destruct (decide (e' = e)) as [->|Hne].
  - pose proof (pow10_pos (e + 96) ltac:(lia)). nia.
  - pose proof (pow10_mono (e' + 96 + 1) (e + 96) ltac:(lia)) as Hp. rewrite pow10_succ in Hp by lia. pose proof (pow10_pos (e' + 96) ltac:(lia)). nia.
Qed.
End rates.

(** C19: offers sort by their rate.  For positive amounts of XRP or of any
    currency [getRate] fails no assertion.  It returns zero only for an offer whose
    exact rate is below 10^-81 or about 10^96 or more; every other rate stands for
    the quotient that [divide] computes, which [amountFromQuality] gives back.  Of
    two offers with such rates, the one whose rate is lower, as an unsigned integer,
    is the better one for the taker, up to six parts in 10^15. *)
Theorem offers_sort_by_rate (sw : bool) (out1 in1 out2 in2 : STAmount) :
  positive_ok out1 → positive_ok in1 → positive_ok out2 → positive_ok in2 →
  ∃ r1 r2, getRate sw out1 in1 = Return r1 ∧ getRate sw out2 in2 = Return r2 ∧
    (r1 = 0 → units_of in1 * 10 ^ 81 < units_of out1 ∨ units_of out1 * 10 ^ 111 ≤ units_of in1 * (10 ^ 15 + 5)) ∧
    (r1 ≠ 0 → amountFromQuality sw r1 = divide sw in1 out1 noIssue) ∧
    (0 < r2 ≤ r1 → units_of in2 * units_of out1 * (10 ^ 15 - 6) ≤ units_of in1 * units_of out2 * 10 ^ 15).
Proof.
  intros Ho1 Hi1 Ho2 Hi2. destruct (getRate_spec sw out1 in1 Ho1 Hi1) as (r1 & E1 & S1). destruct (getRate_spec sw out2 in2 Ho2 Hi2) as (r2 & E2 & S2).
  exists r1, r2. split; [done|]. split; [done|]. split; [|split].
  - intros H0. destruct S1 as [[_ ?]|(m & e & -> & Hm & He & _)]; [done|]. unfold cMinValue in Hm. lia.
  - intros H0. by destruct S1 as [[? _]|(m & e & _ & _ & _ & _ & ?)].
  - intros [Hr Hle]. destruct S2 as [[? _]|(m2 & e2 & -> & Hm2 & He2 & [_ H2] & _)]; [lia|]. destruct S1 as [[? _]|(m1 & e1 & -> & Hm1 & He1 & [H1 _] & _)]; [lia|].
    pose proof (rate_order m1 e1 m2 e2 Hm1 ltac:(lia) Hm2 ltac:(lia) Hle) as Hord. clear Hr Hle E1 E2.
    assert (∀ a, positive_ok a → 0 < units_of a) as Hpos.
    { intros a Ha. destruct (operand_ok a Ha) as (_ & v & o & _ & Hv & Ho & -> & _). unfold cMinValue in Hv. pose proof (pow10_pos (o + 96) ltac:(lia)). nia. }
    pose proof (Hpos _ Ho1). pose proof (Hpos _ Hi1). pose proof (Hpos _ Ho2). pose proof (Hpos _ Hi2).
    set (x1 := m1 * 10 ^ (e1 + 96)) in *. set (x2 := m2 * 10 ^ (e2 + 96)) in *. clearbody x1 x2.
    set (A1 := units_of in1) in *. set (B1 := units_of out1) in *. set (A2 := units_of in2) in *. set (B2 := units_of out2) in *. clearbody A1 B1 A2 B2. clear - H1 H2 Hord H H0 H3 H4.
    assert (A2 * 10 ^ 96 * 10 ^ 15 * B1 * 10 ^ 15 ≤ A1 * 10 ^ 96 * (10 ^ 15 + 5) * B2 * (10 ^ 15 + 1)) as Hx.
    { apply (Z.mul_le_mono_nonneg_r _ _ (B1 * 10 ^ 15)) in H2; [|lia]. apply (Z.mul_le_mono_nonneg_r _ _ (B2 * (10 ^ 15 + 1))) in H1; [|lia].
      assert (0 ≤ B1 * B2) as HB by nia. apply (Z.mul_le_mono_nonneg_r _ _ _ HB) in Hord. lia. }
    apply (Z.mul_le_mono_pos_r _ _ (10 ^ 111)); [lia|]. assert (0 ≤ A1 * B2) by nia. assert (0 ≤ A2 * B1) by nia. lia.
Qed.

(** Ten thousand XRP for a price in dollars, and a better offer. *)
Definition demo_xrp : STAmount := mkAmount xrpIssue 10000000000 0 true false.
Definition demo_better : STAmount := mkAmount usd 8090909090909091 0 false false.

Lemma offers_sort_by_rate_witness :
  ∃ r1 r2, getRate true demo_xrp demo_price = Return r1 ∧ getRate true demo_xrp demo_better = Return r2 ∧ 0 < r2 < r1 ∧
    units_of demo_better * units_of demo_xrp * (10 ^ 15 - 6) ≤ units_of demo_price * units_of demo_xrp * 10 ^ 15.
Proof.
  assert (positive_ok demo_xrp) as H1 by (split; [left; split_and!; (done || cbn; lia)|split_and!; (done || vm_compute; done)]).
  assert (positive_ok demo_price) as H2 by (split; [right; apply issued_ok_intro; cbn; unfold cMinValue, cMaxValue, cMinOffset, cMaxOffset; lia|done]).
  assert (positive_ok demo_better) as H3 by (split; [right; apply issued_ok_intro; cbn; unfold cMinValue, cMaxValue, cMinOffset, cMaxOffset; lia|done]).
  destruct (offers_sort_by_rate true demo_xrp demo_price demo_xrp demo_better H1 H2 H1 H3) as (r1 & r2 & E1 & E2 & _ & _ & Hle).
  exists r1, r2. split; [exact E1|]. split; [exact E2|]. assert (0 < r2 < r1) as Hr; [|split; [exact Hr|apply Hle; lia]].
  vm_compute in E1. vm_compute in E2. injection E1 as <-. injection E2 as <-. lia.
Defined.

(** * Directed rounding of products and quotients ([mulRound], [divRound]) *)

Lemma scaled_same m e m2 e2 : minMantissa ≤ m ≤ maxMantissa → minMantissa ≤ m2 ≤ maxMantissa → scaled_to m e m2 e2 → m2 = m ∧ e2 = e.
Proof.
  unfold minMantissa, maxMantissa. intros Hm Hm2 [[He Heq]|[He Heq]]; destruct (decide (e2 = e)) as [->|Hne].
  - rewrite Z.sub_diag, Z.pow_0_r in Heq. lia.
  - pose proof (pow10_mono 1 (e - e2)). nia.
  - rewrite Z.sub_diag, Z.pow_0_r, Z.quot_1_r in Heq. lia.
  - pose proof (pow10_mono 1 (e2 - e) ltac:(lia)) as Hp. rewrite Z.quot_div_nonneg in Heq by lia.
    assert (m2 * 10 ^ (e2 - e) ≤ m) by (rewrite Heq, Z.mul_comm; apply Z.mul_div_le; lia). nia.
Qed.

(** [canonicalizeRound] of an issued amount drops one or two digits. *)
Lemma canonicalizeRound_issued v o : 10 ^ 16 ≤ v ≤ 999999999999999900 →
  ∃ m j, canonicalizeRound false v o = Return (m, o + j) ∧ cMinValue ≤ m ≤ cMaxValue ∧
    ((j = 1 ∧ v ≤ m * 10 ≤ v + 9) ∨ (j = 2 ∧ 10 * cMaxValue < v ∧ v - 9 ≤ m * 100 ≤ v + 90)).
Proof.
  unfold cMinValue. intros Hv. unfold canonicalizeRound. rewrite (proj2 (Z.ltb_lt cMaxValue v)) by (unfold cMaxValue; lia). cbn [round_issued].
  unfold cMaxValue. change (10 * 9999999999999999) with 99999999999999990. destruct (Z.ltb_spec 99999999999999990 v) as [H1|H1].
  - pose proof (Z.div_mod v 10 ltac:(done)). pose proof (Z.mod_pos_bound v 10 ltac:(done)). rewrite (proj2 (Z.ltb_ge _ (v / 10))) by lia.
    cbn [mbind exc_bind]. rewrite u64_id by lia. pose proof (Z.div_mod (v / 10 + 9) 10 ltac:(done)). pose proof (Z.mod_pos_bound (v / 10 + 9) 10 ltac:(done)).
    exists ((v / 10 + 9) / 10), 2. split; [do 2 f_equal; lia|]. split; [lia|]. right. lia.
  - cbn [mbind exc_bind]. rewrite u64_id by lia. pose proof (Z.div_mod (v + 9) 10 ltac:(done)). pose proof (Z.mod_pos_bound (v + 9) 10 ltac:(done)).
    exists ((v + 9) / 10), 1. split; [done|]. split; [lia|]. left. lia.
Qed.

(** ** Results *)

Definition issued_positive (a : STAmount) : Prop := issued_ok a ∧ mIsNegative a = false ∧ mValue a ≠ 0.

Lemma issued_positive_parts a : issued_positive a →
  is_zero a = false ∧ mIsNative a = false ∧ mIsNegative a = false ∧ 10 ^ 15 ≤ mValue a ≤ 10 ^ 16 - 1 ∧ -96 ≤ mOffset a ≤ 80.
Proof.
  intros ((Hn & _ & _ & [(? & _)|(Hv & Ho)]) & Hneg & H0); [done|]. unfold is_zero, amount_signum. rewrite (proj2 (Z.eqb_neq (mValue a) 0)) by done. rewrite Hneg.
  unfold cMinValue, cMaxValue, cMinOffset, cMaxOffset in *. split_and!; (done || lia).
Qed.

(** The exact result is [exact / unit], in units of 10^-96. *)
Definition down_ok (issue : Issue) (unit exact : Z) (x : exc STAmount) : Prop :=
  match x with
  | Return r => issued_ok r ∧ mIssue r = issue ∧ mIsNegative r = false ∧
      (units_of r * unit ≤ exact < (units_of r + 10 ^ (mOffset r + 96)) * unit ∨ (mValue r = 0 ∧ exact < cMinValue * unit))
  | Throw _ => cMaxValue * 10 ^ 176 * unit < exact
  | Abort _ | NoFuel => False
  end.

Definition up_ok (issue : Issue) (unit exact : Z) (x : exc STAmount) : Prop :=
  match x with
  | Return r => issued_positive r ∧ mIssue r = issue ∧ 10 * exact < (10 * units_of r + 10 ^ (mOffset r + 96)) * unit ∧
      (units_of r * unit < exact + 10 ^ (mOffset r + 96) * unit ∨ (mValue r = cMinValue ∧ mOffset r = cMinOffset))
  | Throw _ => cMaxValue * 10 ^ 176 * unit < exact
  | Abort _ | NoFuel => False
  end.

Lemma not_xrp issue : 0 < currency issue < 2 ^ 160 → isXRP issue = false.
Proof. intros. apply Z.eqb_neq. lia. Qed.

Lemma tiny_large m e : minMantissa ≤ m → tiny m e → e < -96 ∧ m < 10 ^ 15 * 10 ^ (-96 - e).
Proof.
  unfold tiny, minMantissa, minExponent. intros Hm. rewrite Z.abs_eq by lia. intros Ht. destruct (decide (-96 ≤ e)).
  - rewrite Z.min_r, Z.sub_diag, Z.pow_0_r in Ht by lia. pose proof (pow10_pos (e - -96) ltac:(lia)). nia.
  - rewrite Z.min_l, Z.sub_diag, Z.pow_0_r in Ht by lia. lia.
Qed.

Lemma huge_scaled m e : 0 < m → -300 ≤ e → huge m e → 10 ^ 16 * 10 ^ 380 ≤ m * 10 ^ (e + 300).
Proof.
  unfold huge, maxMantissa, maxExponent. intros Hm He Hh. rewrite Z.abs_eq in Hh by lia. change (9999999999999999 + 1) with (10 ^ 16) in Hh.
  by apply (scale_le _ _ _ _ 380 (e + 300)) in Hh; [|lia..].
Qed.

(** ** A quotient [Y / D] at exponent [o] *)

Section quotient.
Context (sw : bool) (issue : Issue) (Hc : 0 < currency issue < 2 ^ 160) (Ha : 0 < account issue < 2 ^ 160).
Context (Y D o unit exact g h : Z) (HD : 0 < D) (Ho : -300 ≤ o).
Context (Hlow : 10 ^ 16 * D ≤ Y) (Hhigh : Y ≤ 999999999999999900 * D).
Context (Hg : 0 < g) (Hh : 0 < h) (Hexact : Y * 10 ^ (o + 300) * g = exact * h) (Hunit : D * 10 ^ 204 * g = unit * h).

(** Comparisons with the exact result. *)
Lemma exact_scale x e k : -96 ≤ e →
  x * 10 ^ (e + 96) * unit * h = x * D * 10 ^ (e + 300) * g ∧ k * exact * h = k * Y * 10 ^ (o + 300) * g.
Proof using Hexact Hunit.
  intros He. split; [|rewrite <- (Z.mul_assoc k), <- Hexact; ring].
  rewrite <- (Z.mul_assoc _ unit), <- Hunit. replace (e + 300) with (e + 96 + 204) by lia. rewrite (pow10_add (e + 96)) by lia. ring.
Qed.

Lemma exact_le x e k : -96 ≤ e → x * D * 10 ^ (e + 300) ≤ k * Y * 10 ^ (o + 300) → x * 10 ^ (e + 96) * unit ≤ k * exact.
Proof using Hg Hh Hexact Hunit.
  intros He Hle. apply (Z.mul_le_mono_pos_r _ _ h Hh). destruct (exact_scale x e k He) as [-> ->]. by apply Z.mul_le_mono_pos_r.
Qed.

Lemma exact_lt x e k : -96 ≤ e → k * Y * 10 ^ (o + 300) < x * D * 10 ^ (e + 300) → k * exact < x * 10 ^ (e + 96) * unit.
Proof using Hg Hh Hexact Hunit.
  intros He Hlt. apply (Z.mul_lt_mono_pos_r h _ _ Hh). destruct (exact_scale x e k He) as [-> ->]. by apply Z.mul_lt_mono_pos_r.
Qed.

Lemma exact_gt x e : -96 ≤ e → x * D * 10 ^ (e + 300) < Y * 10 ^ (o + 300) → x * 10 ^ (e + 96) * unit < exact.
Proof using Hg Hh Hexact Hunit.
  intros He Hlt. apply (Z.mul_lt_mono_pos_r h _ _ Hh). destruct (exact_scale x e 1 He) as [-> H1]. rewrite !Z.mul_1_l in H1. rewrite H1. by apply Z.mul_lt_mono_pos_r.
Qed.

Lemma unit_pos : 0 < unit.
Proof using HD Ho Hg Hh Hunit. assert (0 < unit * h) by (rewrite <- Hunit; lia). nia. Qed.

(** Above the largest amount. *)
Lemma exact_above : 10 ^ 16 * D * 10 ^ 380 ≤ Y * 10 ^ (o + 300) → cMaxValue * 10 ^ 176 * unit < exact.
Proof using HD Ho Hg Hh Hexact Hunit.
  intros Hle. pose proof (exact_le (10 ^ 16) 80 1 ltac:(lia)) as H. rewrite !Z.mul_1_l in H. specialize (H Hle). pose proof unit_pos. unfold cMaxValue.
  change (80 + 96) with 176 in H. lia.
Qed.

Lemma rounded_down : down_ok issue unit exact (rounded sw issue (Y / D) o false false).
Proof using Hc Ha HD Ho Hlow Hhigh Hg Hh Hexact Hunit.
  unfold rounded. cbn [xorb mbind exc_bind]. pose proof (Z.div_mod Y D ltac:(lia)) as Hdm. pose proof (Z.mod_pos_bound Y D HD) as Hmod. set (f := Y / D) in *.
  assert (10 ^ 16 ≤ f ≤ 999999999999999900) as Hf by (split; [apply Z.div_le_lower_bound|apply Z.div_le_upper_bound]; lia). clearbody f.
  pose proof (ctor_issued sw issue f o false (not_xrp issue Hc) ltac:(lia)) as Hs.
  destruct (amount_ctor sw issue f o false) as [r|?|?|]; cbn [mbind exc_bind andb]; [| |done..].
  - destruct Hs as [[-> Ht]|(m2 & e2 & -> & Hm2 & He2 & Hs)].
    + split; [split_and!; [done|apply Hc|apply Hc|apply Ha|apply Ha|by left]|]. split; [done|]. split; [done|]. right. split; [done|]. destruct (tiny_large f o ltac:(unfold minMantissa; lia) Ht) as [Ho' Hlt].
      pose proof (exact_lt cMinValue (-96) 1 ltac:(lia)) as Hcmp. change (10 ^ (-96 + 96)) with 1 in Hcmp. rewrite !Z.mul_1_l, Z.mul_1_r in Hcmp. apply Hcmp.
      change (-96 + 300) with 204. replace 204 with (-96 - o + (o + 300)) by lia. rewrite (pow10_add (-96 - o)) by lia. pose proof (pow10_pos (o + 300) ltac:(lia)).
      rewrite (Z.mul_assoc (_ * D)). apply Z.mul_lt_mono_pos_r; [done|]. unfold cMinValue. change 1000000000000000 with (10 ^ 15). nia.
    + split; [by apply issued_ok_intro|]. split; [done|]. split; [done|]. left. unfold units_of. cbn [mValue mOffset]. destruct (scaled_large f o m2 e2 ltac:(unfold minMantissa; lia) Hm2 Hs) as (j & Hj & -> & ->).
      pose proof (pow10_pos j Hj) as Hp. pose proof (Z.div_mod f (10 ^ j) ltac:(lia)) as H1. pose proof (Z.mod_pos_bound f (10 ^ j) Hp) as H2. unfold cMinOffset in He2.
      pose proof (pow10_pos (o + 300) ltac:(lia)) as Hp'. assert (10 ^ (o + j + 300) = 10 ^ j * 10 ^ (o + 300)) as He by (rewrite <- pow10_add by lia; f_equal; lia).
      set (q := f / 10 ^ j) in *. clearbody q. split.
      * rewrite <- (Z.mul_1_l exact). apply exact_le; [lia|]. rewrite He, Z.mul_1_l, Z.mul_assoc. apply Z.mul_le_mono_nonneg_r; [lia|].
        assert (D * (10 ^ j * q) ≤ D * f) by (apply Z.mul_le_mono_nonneg_l; lia). lia.
      * rewrite <- (Z.mul_1_l exact). replace (q * 10 ^ (o + j + 96) + 10 ^ (o + j + 96)) with ((q + 1) * 10 ^ (o + j + 96)) by ring.
        apply exact_lt; [lia|]. rewrite He, Z.mul_1_l, Z.mul_assoc. apply Z.mul_lt_mono_pos_r; [lia|].
        assert (D * (f + 1) ≤ D * (10 ^ j * (q + 1))) by (apply Z.mul_le_mono_nonneg_l; lia). lia.
  - apply huge_scaled in Hs; [|lia..]. apply exact_above.
    assert (D * (10 ^ 16 * 10 ^ 380) ≤ D * (f * 10 ^ (o + 300))) by (apply Z.mul_le_mono_nonneg_l; lia).
    assert (D * f * 10 ^ (o + 300) ≤ Y * 10 ^ (o + 300)) by (apply Z.mul_le_mono_nonneg_r; [apply Z.lt_le_incl, pow10_pos|]; lia). lia.
Qed.

Lemma rounded_up c : D * (c - 1) < Y ≤ D * c → up_ok issue unit exact (rounded sw issue c o false true).
Proof using Hc Ha HD Ho Hlow Hhigh Hg Hh Hexact Hunit.
  intros Hceil. assert (10 ^ 16 ≤ c ≤ 999999999999999900) as Hcr by nia. unfold rounded. rewrite (not_xrp issue Hc). cbn [xorb].
  destruct (canonicalizeRound_issued c o Hcr) as (m & j & -> & Hm & Hj). cbn [mbind exc_bind].
  assert (1 ≤ j ∧ 10 * c < (10 * m + 1) * 10 ^ j ∧ (m - 1) * 10 ^ j ≤ c - 1 ∧ c < (m + 1) * 10 ^ j) as (Hj1 & Hup & Hdown & Hc1).
  { destruct Hj as [[-> ?]|[-> ?]]; [change (10 ^ 1) with 10|change (10 ^ 2) with 100]; lia. }
  pose proof (ctor_issued sw issue m (o + j) false (not_xrp issue Hc)) as Hs. unfold cMinValue, cMaxValue in Hm. specialize (Hs ltac:(lia)).
  pose proof (pow10_pos (o + 300) ltac:(lia)) as Hp. pose proof (pow10_pos j ltac:(lia)) as Hpj.
  assert (10 ^ (o + j + 300) = 10 ^ j * 10 ^ (o + 300)) as He by (rewrite <- pow10_add by lia; f_equal; lia).
  destruct (amount_ctor sw issue m (o + j) false) as [r|?|?|]; cbn [mbind exc_bind andb negb]; [| |done..].
  - destruct Hs as [[-> Ht]|(m2 & e2 & -> & Hm2 & He2 & Hs)].
    + destruct (tiny_large m (o + j) ltac:(unfold minMantissa; lia) Ht) as [Ho' Hlt]. change (is_zero _) with true. cbn iota.
      assert (amount_ctor sw issue cMinValue cMinOffset false = Return (mkAmount issue cMinValue cMinOffset false false)) as ->.
      { apply (ctor_same sw (mkAmount issue cMinValue cMinOffset false false)); [by apply issued_ok_intro|done]. }
      pose proof unit_pos as Hu. assert (1 * exact < cMinValue * 10 ^ (-96 + 96) * unit) as Hsmall.
      { apply exact_lt; [lia|]. rewrite Z.mul_1_l. change (-96 + 300) with 204. replace 204 with (-96 - o + (o + 300)) by lia.
        rewrite (pow10_add (-96 - o)), (Z.mul_assoc (_ * D)) by lia. apply Z.mul_lt_mono_pos_r; [done|]. unfold cMinValue. change 1000000000000000 with (10 ^ 15).
        replace (-96 - o) with (-96 - (o + j) + j) by lia. rewrite pow10_add by lia. set (p := 10 ^ (-96 - (o + j))) in *. clearbody p.
        assert ((m + 1) * 10 ^ j ≤ 10 ^ 15 * p * 10 ^ j) by (apply Z.mul_le_mono_nonneg_r; lia).
        assert (D * c < D * (10 ^ 15 * p * 10 ^ j)) by (apply Z.mul_lt_mono_pos_l; lia). lia. }
      unfold up_ok, units_of. cbn [mValue mOffset]. change (cMinOffset + 96) with 0. change (10 ^ (-96 + 96)) with 1 in Hsmall. rewrite Z.pow_0_r.
      split; [split; [by apply issued_ok_intro|done]|]. split; [done|]. split; [lia|by right].
    + destruct (scaled_same m (o + j) m2 e2) as [-> ->]; [unfold minMantissa, maxMantissa; lia|done..|].
      assert (is_zero (mkAmount issue m (o + j) false false) = false) as ->.
      { unfold is_zero, amount_signum. cbn [mValue mIsNegative]. by rewrite (proj2 (Z.eqb_neq m 0)) by lia. }
      unfold up_ok, units_of. cbn [mValue mOffset]. split; [split; [apply issued_ok_intro; done || (unfold cMinValue, cMaxValue; lia)|cbn; lia]|]. split; [done|]. unfold cMinOffset in He2. split; [|left].
      * replace (10 * (m * 10 ^ (o + j + 96)) + 10 ^ (o + j + 96)) with ((10 * m + 1) * 10 ^ (o + j + 96)) by ring. apply exact_lt; [lia|].
        rewrite He, Z.mul_assoc. apply Z.mul_lt_mono_pos_r; [done|]. assert (D * (10 * c) < D * ((10 * m + 1) * 10 ^ j)) by (apply Z.mul_lt_mono_pos_l; lia). lia.
      * enough ((m - 1) * 10 ^ (o + j + 96) * unit < exact) by lia. apply exact_gt; [lia|]. rewrite He, Z.mul_assoc. apply Z.mul_lt_mono_pos_r; [done|].
        assert (D * ((m - 1) * 10 ^ j) ≤ D * (c - 1)) by (apply Z.mul_le_mono_nonneg_l; lia). lia.
  - assert (81 ≤ o + j) as Hoj.
    { revert Hs. unfold huge, maxMantissa, maxExponent. rewrite Z.abs_eq by lia. destruct (decide (81 ≤ o + j)); [done|].
      rewrite Z.min_l, Z.sub_diag, Z.pow_0_r by lia. pose proof (pow10_pos (80 - (o + j)) ltac:(lia)). nia. }
    destruct Hj as [[-> _]|(-> & Hbig & _)].
    + apply exact_above. pose proof (pow10_mono 380 (o + 300) ltac:(lia)). apply Z.mul_le_mono_nonneg; lia.
    + apply (exact_gt cMaxValue 80); [lia|]. pose proof (pow10_mono 379 (o + 300) ltac:(lia)) as Hp9.
      assert (D * (10 * cMaxValue) ≤ D * (c - 1)) by (apply Z.mul_le_mono_nonneg_l; lia).
      apply (Z.lt_le_trans _ (Y * 10 ^ 379)); [|apply Z.mul_le_mono_nonneg_l; lia]. change (80 + 300) with (1 + 379). rewrite (pow10_add 1) by lia. lia.
Qed.
End quotient.

(** ** [mulRound] and [divRound] of issued amounts *)

Lemma ceil_bounds Y D : 0 < D → D * ((Y + (D - 1)) / D - 1) < Y ≤ D * ((Y + (D - 1)) / D).
Proof. intros HD. pose proof (Z.div_mod (Y + (D - 1)) D ltac:(lia)). pose proof (Z.mod_pos_bound (Y + (D - 1)) D HD). lia. Qed.

Section round.
Context (sw : bool) (issue : Issue) (Hc : 0 < currency issue < 2 ^ 160) (Ha : 0 < account issue < 2 ^ 160).

Lemma mulRound_ok a b : issued_positive a → issued_positive b →
  down_ok issue (10 ^ 96) (units_of a * units_of b) (mulRound sw a b issue false) ∧ up_ok issue (10 ^ 96) (units_of a * units_of b) (mulRound sw a b issue true).
Proof using Hc Ha.
  intros Hpa Hpb. destruct (issued_positive_parts a Hpa) as (Za & Na & Ga & Va & Oa). destruct (issued_positive_parts b Hpb) as (Zb & Nb & Gb & Vb & Ob).
  set (Y := mValue a * mValue b). assert (10 ^ 30 ≤ Y ≤ (10 ^ 16 - 1) * (10 ^ 16 - 1)) as HY by (unfold Y; nia). set (o := mOffset a + mOffset b + 14).
  assert (units_of a * units_of b * 10 ^ 122 = Y * 10 ^ (o + 300) * 1) as He.
  { unfold units_of, Y, o. transitivity (mValue a * mValue b * (10 ^ (mOffset a + 96) * 10 ^ (mOffset b + 96) * 10 ^ 122)); [ring|].
    rewrite <- !pow10_add by lia. rewrite Z.mul_1_r. do 2 f_equal. lia. }
  unfold mulRound. rewrite Za, Zb, Na, Ga, Gb. unfold in_range_of. rewrite Na, Nb. cbn [orb andb mbind exc_bind Bool.eqb negb xorb]. fold o.
  assert (∀ x, Y ≤ x ≤ Y + (10 ^ 14 - 1) → (2 ^ 64 - 1 <? x / 10 ^ 14) = false) as Hmax.
  { intros x Hx. apply Z.ltb_ge, Z.lt_le_incl, Z.div_lt_upper_bound; lia. }
  unfold muldiv_round. change tenTo14 with (10 ^ 14). change tenTo14m1 with (10 ^ 14 - 1). change (10 ^ 14 =? 0) with false. fold Y. rewrite !Hmax by lia. cbn [mbind exc_bind]. split.
  - rewrite Z.add_0_r. by apply (rounded_down sw issue Hc Ha Y (10 ^ 14) o _ _ 1 (10 ^ 122)); try lia.
  - apply (rounded_up sw issue Hc Ha Y (10 ^ 14) o _ _ 1 (10 ^ 122)); try lia. by apply ceil_bounds.
Qed.

Lemma divRound_ok a b : issued_positive a → issued_positive b →
  down_ok issue (units_of b) (units_of a * 10 ^ 96) (divRound sw a b issue false) ∧ up_ok issue (units_of b) (units_of a * 10 ^ 96) (divRound sw a b issue true).
Proof using Hc Ha.
  intros Hpa Hpb. destruct (issued_positive_parts a Hpa) as (Za & Na & Ga & Va & Oa). destruct (issued_positive_parts b Hpb) as (Zb & Nb & Gb & Vb & Ob).
  set (Y := mValue a * 10 ^ 17). set (D := mValue b) in *. assert (10 ^ 16 * D ≤ Y ≤ 999999999999999900 * D) as HY by (unfold Y; lia). set (o := mOffset a - mOffset b - 17).
  assert (units_of a * 10 ^ 96 * 10 ^ 204 = Y * 10 ^ (o + 300) * 10 ^ (mOffset b + 96)) as He.
  { unfold units_of, Y, o. transitivity (mValue a * (10 ^ (mOffset a + 96) * 10 ^ 96 * 10 ^ 204)); [ring|].
    transitivity (mValue a * (10 ^ 17 * 10 ^ (mOffset a - mOffset b - 17 + 300) * 10 ^ (mOffset b + 96))); [|ring]. rewrite <- !pow10_add by lia. do 2 f_equal. lia. }
  pose proof (pow10_pos (mOffset b + 96) ltac:(lia)) as Hg.
  assert (D * 10 ^ 204 * 10 ^ (mOffset b + 96) = units_of b * 10 ^ 204) as Hu by (unfold units_of, D; ring).
  unfold divRound. rewrite Za, Zb, Ga, Gb. unfold in_range_of. rewrite Na, Nb. cbn [mbind exc_bind Bool.eqb negb xorb]. fold o D.
  assert (∀ x, Y ≤ x ≤ Y + (D - 1) → (2 ^ 64 - 1 <? x / D) = false) as Hmax.
  { intros x Hx. apply Z.ltb_ge, Z.lt_le_incl, Z.div_lt_upper_bound; lia. }
  unfold muldiv_round. change tenTo17 with (10 ^ 17). rewrite (proj2 (Z.eqb_neq D 0)) by lia. fold Y. rewrite !Hmax by lia. cbn [mbind exc_bind]. split.
  - rewrite Z.add_0_r. by apply (rounded_down sw issue Hc Ha Y D o _ _ (10 ^ (mOffset b + 96)) (10 ^ 204)); try lia.
  - apply (rounded_up sw issue Hc Ha Y D o _ _ (10 ^ (mOffset b + 96)) (10 ^ 204)); try lia. apply ceil_bounds. lia.
Qed.
End round.

(** C23: products and quotients are rounded in the direction asked for, up to the
    digit the code drops.  For positive issued amounts, [mulRound] and [divRound]
    that round down return the largest amount that is not above the exact result;
    those that round up return an amount that is above it by less than one unit in
    the last place, or the smallest amount there is, and never zero, and that is
    below it by less than a tenth of that unit.  They throw only if the exact
    result is above the largest amount. *)
Theorem rounding_directed (sw : bool) (issue : Issue) (a b : STAmount) :
  0 < currency issue < 2 ^ 160 → 0 < account issue < 2 ^ 160 → issued_positive a → issued_positive b →
  let product := units_of a * units_of b in
  let quotient := units_of a * 10 ^ 96 in
  (down_ok issue (10 ^ 96) product (mulRound sw a b issue false) ∧ up_ok issue (10 ^ 96) product (mulRound sw a b issue true)) ∧
  (down_ok issue (units_of b) quotient (divRound sw a b issue false) ∧ up_ok issue (units_of b) quotient (divRound sw a b issue true)).
Proof. intros Hc Ha Hpa Hpb product quotient. split; [by apply mulRound_ok|by apply divRound_ok]. Qed.

Definition demo_factor : STAmount := mkAmount usd 1100000000000000 (-14) false false.

Lemma rounding_directed_witness :
  down_ok usd (10 ^ 96) (units_of demo_price * units_of demo_factor) (mulRound true demo_price demo_factor usd false) ∧
  mulRound true demo_price demo_factor usd false = Return (mkAmount usd 1000000000000000 2 false false) ∧
  up_ok usd (units_of demo_factor) (units_of demo_price * 10 ^ 96) (divRound true demo_price demo_factor usd true).
Proof.
  assert (issued_positive demo_price) as H1 by (split; [apply issued_ok_intro; cbn; unfold cMinValue, cMaxValue, cMinOffset, cMaxOffset; lia|done]).
  assert (issued_positive demo_factor) as H2 by (split; [apply issued_ok_intro; cbn; unfold cMinValue, cMaxValue, cMinOffset, cMaxOffset; lia|done]).
  destruct (rounding_directed true usd demo_price demo_factor) as [[H _] [_ H']]; [cbn; lia|cbn; lia|exact H1|exact H2|].
  split; [exact H|]. split; [|exact H']. vm_compute. reflexivity.
Defined.

(** The tolerance of [up_ok] is needed.  The product of 9090909090909091 and 11
    is 10^17 + 1; [mulRound], asked to round up, returns 10^17, as it does when
    asked to round down.  What is lost is a hundredth of a unit in the last
    place of the result. *)
Example rounding_up_lost :
  mulRound true demo_price demo_factor usd true = Return (mkAmount usd 1000000000000000 2 false false) ∧
  units_of demo_price * units_of demo_factor = (10 ^ 17 + 1) * 10 ^ 192.
Proof. split; vm_compute; reflexivity. Qed.

(** ** Taking part of an offer *)

Lemma less_units a b : issued_positive a → issued_positive b → currency (mIssue a) = currency (mIssue b) →
  amount_less a b = Return (units_of a <? units_of b).
Proof.
  intros Ha Hb Hc. rewrite less_issued by (done || apply Ha || apply Hb). f_equal.
  assert (∀ c, issued_positive c → value (iou_of c) = units_of c * 10 ^ 4) as Hv.
  { intros c Hpc. destruct (issued_positive_parts c Hpc) as (_ & _ & Hg & _ & Ho). unfold value, iou_of, units_of. cbn [mantissa exponent]. rewrite Hg.
    rewrite <- Z.mul_assoc, <- pow10_add by lia. do 2 f_equal. lia. }
  destruct (less_is_value_order (iou_of a) (iou_of b)) as [Hless _]; [by apply issued_canonical, Ha|by apply issued_canonical, Hb|].
  rewrite (Hv a Ha), (Hv b Hb) in Hless. apply eq_true_iff_eq. rewrite Hless, Z.ltb_lt. lia.
Qed.

Lemma amount_eq_refl a : amount_eq a a = true.
Proof. unfold amount_eq, areComparable. by rewrite !eqb_reflx, !Z.eqb_refl. Qed.

Lemma issued_positive_ok a : issued_positive a → positive_ok a.
Proof. intros (Ha & Hg & H0). split; [by right|]. split; [done|]. split; [done|]. by rewrite (proj1 Ha). Qed.

(** The rate of an offer, as an amount. *)
Lemma offer_rate sw out inp q : positive_ok out → positive_ok inp → getRate sw out inp = Return q → q ≠ 0 →
  ∃ r, quality_rate sw q = Return r ∧ issued_positive r ∧ close (units_of inp) (units_of out) (units_of r).
Proof.
  intros Ho Hi Hq H0. destruct (getRate_spec sw out inp Ho Hi) as (q' & Hq' & Hs). rewrite Hq in Hq'. injection Hq' as <-.
  destruct Hs as [[? _]|(m & e & -> & Hm & He & Hc & _)]; [done|]. exists (mkAmount noIssue m e false false).
  destruct (rate_word sw m e Hm He) as (_ & _ & Hr). split; [exact Hr|]. split; [|done]. split; [by apply issued_ok_intro|].
  split; [done|]. unfold cMinValue in Hm. cbn. lia.
Qed.

Lemma units_pos a : issued_positive a → 0 < units_of a.
Proof. intros Ha. destruct (issued_positive_parts a Ha) as (_ & _ & _ & Hv & Ho). unfold units_of. pose proof (pow10_pos (mOffset a + 96) ltac:(lia)). nia. Qed.

(** Not among the largest amounts. *)
Lemma units_below a : issued_positive a → mOffset a ≤ 79 → units_of a * 10 ≤ cMaxValue * 10 ^ 176.
Proof.
  intros Ha H79. destruct (issued_positive_parts a Ha) as (_ & _ & _ & Hv & Ho). unfold units_of, cMaxValue.
  pose proof (pow10_mono (mOffset a + 96) 175 ltac:(lia)) as Hp. change 176 with (1 + 175). rewrite (pow10_add 1) by lia. nia.
Qed.

(** The smaller of two amounts. *)
Definition least (a b : STAmount) : STAmount := if units_of a <? units_of b then a else b.

Section partial.
Context (sw : bool) (inp out : STAmount) (q : Z) (r : STAmount).
Context (Hin : issued_positive inp) (Hout : issued_positive out) (Hin79 : mOffset inp ≤ 79) (Hout79 : mOffset out ≤ 79).
Context (Hrate : quality_rate sw q = Return r) (Hr : issued_positive r) (Hclose : close (units_of inp) (units_of out) (units_of r)).

Lemma ceil_in_ok limit : issued_positive limit → currency (mIssue limit) = currency (mIssue inp) →
  if units_of limit <? units_of inp then
    ∃ x, up_ok (mIssue out) (units_of r) (units_of limit * 10 ^ 96) (Return x) ∧ ceil_in sw q (mkAmounts inp out) limit = Return (mkAmounts limit (least out x))
  else ceil_in sw q (mkAmounts inp out) limit = Return (mkAmounts inp out).
Proof using Hin Hout Hout79 Hrate Hr Hclose.
  intros Hl Hc. unfold ceil_in. cbn [am_in am_out]. rewrite less_units by done. cbn [mbind exc_bind].
  destruct (Z.ltb_spec (units_of limit) (units_of inp)) as [Hlt|]; [|done]. rewrite Hrate. cbn [mbind exc_bind].
  destruct Hout as [(_ & Hc1 & Hc2 & _) _]. destruct (divRound_ok sw (mIssue out) Hc1 Hc2 limit r Hl Hr) as [_ Hup].
  destruct (divRound sw limit r (mIssue out) true) as [x|?|?|]; [| |done..].
  - exists x. split; [done|]. destruct Hup as (Hx & Hi & _). cbn [mbind exc_bind]. rewrite less_units by (done || by rewrite Hi). cbn [mbind exc_bind]. by rewrite amount_eq_refl.
  - exfalso. cbn in Hup. destruct Hclose as [_ H2]. pose proof (units_below out Hout Hout79). pose proof (units_pos r Hr). pose proof (units_pos out Hout).
    set (M := cMaxValue * 10 ^ 176) in *. set (A := units_of inp) in *. set (B := units_of out) in *. set (R := units_of r) in *. set (L := units_of limit) in *. clearbody M A B R L.
    assert (B * 10 * R ≤ M * R) by (apply Z.mul_le_mono_nonneg_r; lia). assert (0 < R * B) by nia. lia.
Qed.

Lemma ceil_out_ok limit : issued_positive limit → currency (mIssue limit) = currency (mIssue out) →
  if units_of limit <? units_of out then
    ∃ x, up_ok (mIssue inp) (10 ^ 96) (units_of limit * units_of r) (Return x) ∧ ceil_out sw q (mkAmounts inp out) limit = Return (mkAmounts (least inp x) limit)
  else ceil_out sw q (mkAmounts inp out) limit = Return (mkAmounts inp out).
Proof using Hin Hout Hin79 Hrate Hr Hclose.
  intros Hl Hc. unfold ceil_out. cbn [am_in am_out]. rewrite less_units by done. cbn [mbind exc_bind].
  destruct (Z.ltb_spec (units_of limit) (units_of out)) as [Hlt|]; [|done]. rewrite Hrate. cbn [mbind exc_bind].
  destruct Hin as [(_ & Hc1 & Hc2 & _) _]. destruct (mulRound_ok sw (mIssue inp) Hc1 Hc2 limit r Hl Hr) as [_ Hup].
  destruct (mulRound sw limit r (mIssue inp) true) as [x|?|?|]; [| |done..].
  - exists x. split; [done|]. destruct Hup as (Hx & Hi & _). cbn [mbind exc_bind]. rewrite less_units by (done || by rewrite Hi). cbn [mbind exc_bind]. by rewrite amount_eq_refl.
  - exfalso. cbn in Hup. destruct Hclose as [H1 _]. pose proof (units_below inp Hin Hin79). pose proof (units_pos r Hr). pose proof (units_pos inp Hin).
    set (M := cMaxValue * 10 ^ 176) in *. set (A := units_of inp) in *. set (B := units_of out) in *. set (R := units_of r) in *. set (L := units_of limit) in *. clearbody M A B R L.
    assert (L * R ≤ B * R) by (apply Z.mul_le_mono_nonneg_r; lia). lia.
Qed.
End partial.

(** C20: part of an offer is taken at its rate.  For an offer of positive issued
    amounts (with exponents up to 79, one below the largest) whose rate is not zero,
    [ceil_in] and [ceil_out] fail no assertion and do not throw.  A limit that is
    not below the offer leaves it as it is.  Otherwise the limited side is the
    limit, and the other side is the limit converted at the offer's rate and
    rounded up, or the offer's own amount if that is less. *)
Theorem offers_scaled_at_rate (sw : bool) (inp out limit_in limit_out : STAmount) (q : Z) :
  issued_positive inp → issued_positive out → mOffset inp ≤ 79 → mOffset out ≤ 79 →
  issued_positive limit_in → currency (mIssue limit_in) = currency (mIssue inp) →
  issued_positive limit_out → currency (mIssue limit_out) = currency (mIssue out) →
  Quality_ctor sw (mkAmounts inp out) = Return q → q ≠ 0 →
  ∃ r, quality_rate sw q = Return r ∧ close (units_of inp) (units_of out) (units_of r) ∧
    (if units_of limit_in <? units_of inp then
       ∃ x, up_ok (mIssue out) (units_of r) (units_of limit_in * 10 ^ 96) (Return x) ∧
         ceil_in sw q (mkAmounts inp out) limit_in = Return (mkAmounts limit_in (least out x))
     else ceil_in sw q (mkAmounts inp out) limit_in = Return (mkAmounts inp out)) ∧
    (if units_of limit_out <? units_of out then
       ∃ x, up_ok (mIssue inp) (10 ^ 96) (units_of limit_out * units_of r) (Return x) ∧
         ceil_out sw q (mkAmounts inp out) limit_out = Return (mkAmounts (least inp x) limit_out)
     else ceil_out sw q (mkAmounts inp out) limit_out = Return (mkAmounts inp out)).
Proof.
  intros Hin Hout Hi79 Ho79 Hl1 Hc1 Hl2 Hc2 Hq H0.
  destruct (offer_rate sw out inp q (issued_positive_ok _ Hout) (issued_positive_ok _ Hin) Hq H0) as (r & Hr & Hrp & Hclose).
  exists r. split; [done|]. split; [done|]. split; [by apply ceil_in_ok|by apply ceil_out_ok].
Qed.

(** An offer of 1000 units of another currency for about 9.09 dollars. *)
Definition eur : Issue := mkIssue 6 78.
Definition demo_pays : STAmount := mkAmount usd 9090909090909091 (-15) false false.
Definition demo_gets : STAmount := mkAmount eur 1000000000000000 (-12) false false.
Definition demo_limit_in : STAmount := mkAmount usd 3000000000000000 (-15) false false.
Definition demo_limit_out : STAmount := mkAmount eur 7000000000000000 (-14) false false.

Lemma offers_scaled_at_rate_witness :
  (∃ out, ceil_in true 5917813620200999843 (mkAmounts demo_pays demo_gets) demo_limit_in = Return (mkAmounts demo_limit_in out)) ∧
  (∃ inp, ceil_out true 5917813620200999843 (mkAmounts demo_pays demo_gets) demo_limit_out = Return (mkAmounts inp demo_limit_out)).
Proof.
  assert (∀ issue v o, 0 < currency issue < 2 ^ 160 → 0 < account issue < 2 ^ 160 → cMinValue ≤ v ≤ cMaxValue → cMinOffset ≤ o ≤ cMaxOffset →
    issued_positive (mkAmount issue v o false false)) as Hp.
  { intros issue v o H1 H2 H3 H4. split; [by apply issued_ok_intro|]. split; [done|]. unfold cMinValue in H3. cbn. lia. }
  destruct (offers_scaled_at_rate true demo_pays demo_gets demo_limit_in demo_limit_out 5917813620200999843) as (r & _ & _ & H1 & H2).
  1, 2, 5, 7: apply Hp; cbn; unfold cMinValue, cMaxValue, cMinOffset, cMaxOffset; lia.
  1, 2: cbn; lia.
  1, 2, 4: done.
  1: vm_compute; reflexivity.
  change (units_of demo_limit_in <? units_of demo_pays) with true in H1. change (units_of demo_limit_out <? units_of demo_gets) with true in H2.
  split; [destruct H1 as (x & _ & H1)|destruct H2 as (x & _ & H2)]; eauto.
Defined.

(** ** Tick sizes *)

(** [Quality::round] keeps the exponent and rounds the mantissa up to a multiple of
    the tick; it never raises a quality, and keeps the order of qualities. *)
Theorem quality_round_up m e digits : cMinValue ≤ m ≤ cMaxValue → -96 ≤ e ≤ 80 → 0 ≤ digits ≤ 16 →
  ∃ m', quality_round ((e + 100) * 2 ^ 56 + m) digits = Return ((e + 100) * 2 ^ 56 + m') ∧
    m ≤ m' < m + 10 ^ (16 - digits) ∧ m' mod 10 ^ (16 - digits) = 0 ∧ m' ≤ 10 ^ 16.
Proof.
  intros Hm He Hd. unfold cMinValue, cMaxValue in Hm. unfold quality_round. rewrite (proj2 (Z.ltb_ge _ _)), (proj2 (Z.ltb_ge _ _)) by lia. cbn [orb].
  pose proof (pow10_mono (16 - digits) 16 ltac:(lia)) as Hp16. pose proof (pow10_pos (16 - digits) ltac:(lia)) as Hp.
  assert (10 ^ 16 mod 10 ^ (16 - digits) = 0) as Hdiv.
  { replace 16 with (digits + (16 - digits)) at 1 by lia. rewrite pow10_add by lia. apply Z.mod_mul. lia. }
  set (p := 10 ^ (16 - digits)) in *. clearbody p.
  assert (Z.land ((e + 100) * 2 ^ 56 + m) (2 ^ 56 - 1) = m) as ->.
  { change (2 ^ 56 - 1) with (Z.ones 56). rewrite Z.land_ones, Z.add_comm, Z.mod_add, Z.mod_small by lia. done. }
  assert (Z.shiftr ((e + 100) * 2 ^ 56 + m) 56 = e + 100) as ->.
  { rewrite Z.shiftr_div_pow2, Z.add_comm, Z.div_add, Z.div_small by lia. lia. }
  rewrite (u64_id (m + (p - 1))) by lia. set (s := m + (p - 1)). pose proof (Z.div_mod s p ltac:(lia)) as H1. pose proof (Z.mod_pos_bound s p Hp) as H2.
  assert ((s - s mod p) mod p = 0) as H3 by (replace (s - s mod p) with (s / p * p) by lia; apply Z.mod_mul; lia).
  assert (s - s mod p ≤ 10 ^ 16) as H4.
  { pose proof (Z.div_mod (10 ^ 16) p ltac:(lia)) as H5. rewrite Hdiv in H5. assert (s / p < 10 ^ 16 / p + 1) by (apply Z.div_lt_upper_bound; lia). nia. }
  exists (s - s mod p). rewrite Z.shiftl_mul_pow2, u64_id, lor_disjoint by lia. split_and!; (done || lia).
Qed.

Lemma quality_round_up_witness :
  quality_round 5917813620200999843 5 = Return ((-18 + 100) * 2 ^ 56 + 9091000000000000) ∧
  ∃ m', quality_round ((-18 + 100) * 2 ^ 56 + 9090909090909091) 5 = Return ((-18 + 100) * 2 ^ 56 + m') ∧ m' ≤ 10 ^ 16.
Proof.
  split; [vm_compute; reflexivity|].
  destruct (quality_round_up 9090909090909091 (-18) 5) as (m' & H & _ & _ & Hle); [unfold cMinValue, cMaxValue; lia|lia|lia|]. exists m'. split; [exact H|exact Hle].
Defined.
